(* ===== verification/_CoqProject ===== *)
-Q . S2P
Prelude.v
Order.v
Bytes.v
Effects.v
LsmPage.v
LsmBloom.v
LsmSstable.v
LsmCache.v
LsmRun.v
LsmMerge.v
LsmMemtable.v
LsmWal.v
LsmSnapshot.v
LsmTree.v
LsmRefine.v
LsmRecovery.v
LsmTheorems.v
LsmFormats.v
Overlay.v
EraHistory.v
Block.v
ChainFragment.v
ChainSelection.v
ChainCandidates.v
VolatileWal.v
VolatileDb.v
VolatileInv.v
VolatileChain.v
VolatileSelect.v
VolatileTheorems.v
Mempool.v
MempoolInv.v
MempoolSteps.v
MempoolTheorems.v
RecordUpdate.v
Ledger.v
LedgerDelta.v
LedgerSeq.v
LedgerSeqTheorems.v
LedgerCapture.v
LedgerRollback.v
LedgerTheorems.v
UtxoApply.v
UtxoBlock.v
Cbor.v
CborSkip.v
ConsensusError.v
BlockCbor.v
BlockCborTheorems.v
LeaderCheck.v
SlotLeader.v
Praos.v
PraosChecks.v
PraosTheorems.v
LeaderSchedule.v
Uplc.v
UplcBls.v
UplcBuiltins.v
UplcValue.v
UplcMachine.v
UplcBudget.v
UplcSafety.v
UplcBigStep.v
UplcTheorems.v
RewardRat.v
RewardPulser.v
Rewards.v
RewardEpoch.v
RewardBounds.v
RewardDistribution.v
RewardUpdate.v
RewardTheorems.v
RewardGaps.v
GovTypes.v
GovForest.v
Governance.v
GovCerts.v
GovBoundary.v
GovRatify.v
GovTheorems.v
