(* ===== verification/Prelude.v ===== *)
(** * Dugite: a verification development for the Cardano node written in Rust

    ** The program

    Dugite is a Cardano node. Its sources are the crates under [crates/]; the
    development models the parts that keep the node's own state and decide
    what its chain is:

    - [dugite-lsm]: the storage engine under the UTxO set, a log-structured
      merge tree. Writes go to a write-ahead log and to an ordered memtable; a
      full memtable becomes an immutable sorted run (pages, a fence index and a
      Bloom filter); runs are merged level by level; a manifest names the runs;
      reopening loads the manifest and replays the log.
    - [dugite-consensus]: the era history (slot, epoch and time arithmetic
      across hard forks), the BFT overlay schedule, the anchored chain fragment
      that holds the volatile chain, chain selection (length, opcert and VRF
      tiebreaks, Ouroboros Genesis densities, enumeration of the maximal
      candidates through the volatile blocks), header validation and the leader
      schedule.
    - [dugite-storage]: the volatile store, the blocks of all forks since the
      immutable tip with their indexes, the selected chain and the log they are
      recovered from.
    - [dugite-ledger]: the ledger state, the deltas that blocks make of it, the
      sequence of the last k deltas that rollbacks are served from, the
      changes that transactions make to the UTxO set and the stake, the
      rewards (the pulser that spreads their computation over an epoch, the
      update that a boundary applies, MIR transfers and stake snapshots), and
      the rules of Conway: certificates, votes and proposals, ratification,
      enactment and the epoch transition.
    - [dugite-uplc]: the evaluator of Plutus scripts, a CEK machine with its
      execution budget, its builtins and the check of variable scopes.
    - [dugite-mempool]: submission, eviction, revalidation and selection of
      pending transactions.
    - [dugite-serialization] and [dugite-crypto]: CBOR items, headers and blocks
      on the wire; the fixed-point leader check and the wrappers of the
      cryptographic primitives.
    - [dugite-primitives] and [dugite-node]: the types that the above use, and
      the eager validation of headers at the node's edge.

    A header arrives from a peer, is validated ([Praos]) against counters and
    stake, its block is stored with the other forks ([VolatileDb]), chain
    selection compares tips ([ChainSelection]) and the store switches the
    selected chain; the ledger rolls back to the intersection ([LedgerSeq]) and
    applies the new blocks ([GovCerts], [UtxoApply]), whose outputs live in the
    LSM tree ([LsmTree]), with an epoch transition between the epochs
    ([GovBoundary]); the mempool drops what the new blocks spent ([Mempool]).

    ** Files

    Shared: this file (results, machine integers, tactics, list lemmas);
    [Order] (byte-string order of [key.rs], binary search and partition point
    of [core::slice], sorted association lists); [Bytes] (little- and big-endian
    codecs, [error.rs], the third-party crates as the class [Crates] with its
    laws [CratesOk]); [Effects] (the state and error monad in which the mutating
    methods are written: a step ends in a value, an error, a panic or a
    divergence); [RecordUpdate] (update syntax for the records of the ledger).

    LSM, one file per source file of [crates/dugite-lsm/src]: [LsmPage]
    ([sstable/page.rs]), [LsmBloom] ([bloom.rs]), [LsmSstable] ([fence.rs],
    [sstable/writer.rs], [sstable/reader.rs]), [LsmCache] ([cache.rs]),
    [LsmRun] ([run.rs], and the interface [RunStore] with its laws
    [RunStoreOk], through which the tree uses runs), [LsmMerge] ([merge.rs]),
    [LsmMemtable] ([memtable.rs]), [LsmWal] ([wal.rs]), [LsmSnapshot]
    ([snapshot.rs] and the directory of run files), [LsmTree] ([tree.rs],
    [compaction.rs], [level.rs], [config.rs], [session_lock.rs]). A method
    [LsmTree::insert] is the operation [tree_insert] on the record [LsmTree],
    and so on with the prefixes [mem_], [wal_], [cache_], [run_], [bloom_].
    Proofs: [LsmRefine] (invariant of the tree, the map it denotes, one lemma
    per operation), [LsmRecovery] (closing and reopening, torn logs; commands,
    sessions and their meaning on a finite map), [LsmTheorems], [LsmFormats]
    (the theorems, and at its end the crash points).

    Consensus: [Overlay] ([overlay.rs]), [EraHistory] ([era_history.rs] and
    [primitives/src/era.rs]), [Block] ([primitives/src/block.rs]),
    [ChainFragment] ([chain_fragment.rs]), [ChainSelection] and
    [ChainCandidates] ([chain_selection.rs]); [ConsensusError], [Praos]
    ([praos.rs], [forecast.rs], [epoch.rs], [lib.rs], and the eager validation
    of [node/sync.rs]), [SlotLeader] ([slot_leader.rs] and the crypto wrappers),
    [LeaderCheck] ([crypto/src/vrf.rs], [leader_check], with its theorems).
    Proofs: [PraosChecks] (one lemma per check), [PraosTheorems],
    [LeaderSchedule] (the schedule, and the witnesses on a concrete engine).

    Storage: [VolatileWal] (the log of [volatile_db.rs] as bytes), [VolatileDb]
    (the record [VolatileDB] and every operation), [VolatileInv] (the indexes
    agree with the blocks), [VolatileChain] and [VolatileSelect] (the selected
    chain), [VolatileTheorems].

    Ledger: [Ledger] (the state and its sub-states), [LedgerDelta]
    ([apply_delta_to_state], [utxo_diff.rs]), [LedgerSeq] ([ledger_seq.rs]),
    [LedgerSeqTheorems] (the sequence is its list of states), [LedgerCapture]
    (the delta of a block, [apply.rs]), [LedgerRollback] ([rollback_via_seq]),
    [LedgerTheorems]; [UtxoApply] ([eras/common.rs]: UTxO changes of
    transactions), [UtxoBlock] (their effect on stake and on the recorded
    differences).

    Rewards: [RewardRat] (the exact rationals of [state/rewards.rs]),
    [RewardPulser] ([state/reward_pulser.rs], [state/non_myopic.rs]), [Rewards]
    ([state/rewards.rs]: the table of the pools, the update and its application;
    the snapshots of [state/mod.rs]), [RewardEpoch] (the tick of
    [state/apply.rs], the reward steps of the boundaries in [eras/shelley.rs]
    and [eras/conway.rs], MIR transfers, snapshot rotation). Proofs:
    [RewardBounds] (sums over maps, what a pool can earn),
    [RewardDistribution] (pulsing a fold, what the fold distributes),
    [RewardUpdate] (the update and the snapshots), [RewardTheorems] (the
    invariant over the blocks of an epoch, and the theorems), [RewardGaps].

    Governance: [GovTypes] (protocol parameters and their updates, actions,
    proposals, the frozen inputs and decisions of the DRep pulser:
    [state/mod.rs], [primitives/src/transaction.rs] and the update of
    [state/governance.rs]; the class [GovRest] puts these types in the place of
    the parameter types of the ledger state), [GovForest] (the trees of
    proposals, [forest_add_proposal] to [rebuild_forest_from_flat], with the
    theorem on removal), [Governance] (voting power, votes, thresholds, the
    decision [ratify_proposals_impl], enactment, and the steps of a boundary,
    all of [state/governance.rs]), [GovCerts] ([apply_shelley_cert],
    [apply_conway_cert], the GOV rule and [apply_valid_tx]), [GovBoundary]
    ([process_epoch_transition] of [eras/conway.rs], with [validation/ppup.rs]
    and the nonces of [eras/common.rs]). A function that changes the sub-states
    in place is a function on [LedgerState]; the loop over the candidates is
    [ratify_step] on the record [RatifyPass] of its locals. Proofs: [GovRatify]
    (the pass as a relation, what enactment keeps of the coin), [GovTheorems].

    UPLC ([crates/dugite-uplc/src]): [Uplc] ([term.rs], [data.rs], [error.rs],
    [builtin/semantics.rs], [builtin/arity.rs]), [UplcBls] ([builtin/bls.rs]),
    [UplcBuiltins] ([builtin/denotations.rs]), [UplcMachine] ([machine/],
    [builtin/dispatch.rs], [scope_check.rs]). Proofs: [UplcValue] (values,
    integers and bytes), [UplcBudget] (the tracker, termination, the cost of a
    run), [UplcSafety] (well-formed states), [UplcBigStep] (the natural
    semantics), [UplcTheorems].

    Mempool ([mempool/src/lib.rs]): [Mempool] (data and operations),
    [MempoolInv] (the fee index, the invariant, cascades), [MempoolSteps]
    (admission and the invariant by operation), [MempoolTheorems].

    Serialization: [Cbor] ([cbor.rs] and [haskell_snapshot/cbor_utils.rs]),
    [CborSkip] (what skipping an item consumes), [BlockCbor]
    ([encode/block.rs], [decode/cbor_helpers.rs] and the body hash of
    [praos.rs]), [BlockCborTheorems].

    ** What the theorems show

    - The tree is a map. Over any sequence of sessions (open, commands, close)
      within the configuration and the widths of the formats ([sessions_ok]:
      the log enabled, a size ratio of at least 2, keys and values below 64 KiB,
      fewer than a million log segments) the tree answers every lookup and range
      as a finite map does, with all flushes, compactions, reopenings and cache
      effects inside ([lsm_sessions_refine_map]). The layers under it: merge, compaction step
      and its termination, run lookup and scan, page, metadata and Bloom filter
      round trips, cache bounds, byte accounting.
    - The log. A process that stops within an append loses at most the
      operation it was appending ([torn_append_recovers]); a segment cut at any
      byte replays to the complete entries before the cut; a batch writes the
      same bytes as its operations one by one.
    - Where durability ends. The end of [LsmFormats] exhibits,
      by running the model, the crash points and inputs on which the engine
      loses or resurrects data.
    - The volatile store. In every reachable store the indexes agree with the
      blocks and the selected chain is a chain of stored blocks; switching,
      pruning, rollback and rebuilding do what chain selection asks of them; the
      log replays to the blocks that were written.
    - The ledger. The sequence of deltas refines a list of states; the delta
      captured around a block replays it; a rollback restores the UTxO set and
      every recorded field of the state that was live at its target, and puts
      those of the anchor in the fields that deltas do not record
      ([rollback_restores_ledger], [rollback_resets_unrecorded]). The incrementally kept stake equals the
      stake recomputed from the UTxO set, and the difference recorded for a
      block is exactly its change.
    - Rewards. Pulsing the member fold block by block gives at the boundary the
      update that computing it at once gives ([pulsed_update_exact]), within
      the pulses the window has; an update never pays more than its pot
      ([rewards_within_pot]); a boundary conserves the coin of reserves,
      treasury, fees, donations and accounts and does not panic
      ([reward_pots_conserved], [shelley_boundary_conserved]); MIR transfers
      are all or nothing; the rotated snapshots meet the premises of the bounds,
      and the new one counts exactly the stake of each pool's delegators
      ([rotation_keeps_snapshots]).
      [RewardGaps] shows the two ways in which the code leaves them.
    - Governance. A decision enacts a chain of frozen proposals that each met
      its thresholds, stops at a delaying action and expires exactly the rest
      that is due ([decision_sound]), within the frozen treasury
      ([withdrawals_within_treasury]); the next boundary does what was frozen
      and predicted ([boundary_applies_plan]). A Conway transition does not
      panic and conserves the coin of all pots, accounts and deposits
      ([transition_conserves_coin]). From version 10 on the two directions of
      vote delegation agree in every reachable state ([drep_index_invariant]);
      in the trees of proposals every live proposal stands under its live
      parent, so dropping proposals takes with them exactly those that extend
      them ([forest_invariant]), and removal takes exactly the descendants in
      the graph ([removal_exact]); a parameter update is written as a whole or,
      with a bad fraction, refused as a whole, so thresholds stay fractions
      ([enacted_params_valid]). The end of [GovTheorems] shows five
      places where the code departs from its own comments or its other half.
    - Scripts. Every run ends within its budget ([uplc_terminates]), the
      budget reported is the sum of the charges ([budget_exact]), a script that
      passed the scope check never reaches an internal error, the machine
      agrees with a natural semantics ([cek_refines_big_step]); the values, the
      integer and the byte-string builtins meet their specifications.
    - The mempool. As long as parents are submitted before their children and
      the order queue is below its cap, its indexes, totals and dependency graph
      agree in every reachable state, admission is exact and keeps them so, and
      a removal leaves no transaction whose input it removed; block selection is
      the longest affordable prefix of the queue, each transaction at its first
      live slot.
    - Header validation. Outside the overlay schedule a strict engine accepts
      exactly the headers of registered pools that meet the listed conditions
      ([strict_header_accepted_iff]), operational
      certificates cannot be replayed, the standalone checks agree with the
      engine's; the end of [PraosTheorems] shows what the code lets through.
    - The leader check never answers yes above the threshold of the real
      formula for the logarithm it computed, and is monotone; the computed
      schedule is exactly the set of slots that validation accepts.
    - CBOR. Skipping consumes at least one byte and never reads past the input,
      passes every encoded Plutus value, and the three walks over a block agree;
      a forged block is read back to the segments that were hashed, and header
      and body bytes determine the header and the body that were signed.
    - The era history, the overlay schedule and the fragment. Slots, epochs and
      times convert back and forth in every well-formed history; the schedule
      has as many overlay slots as the parameter asks for; rollback, anchor
      advance and intersection are operations on the list of points.
    - Chain selection. The exact condition of a switch, the absence of cycles
      of switches, symmetry of the verdicts; the denser chain wins the genesis
      comparison; [maximal_candidates] returns exactly the maximal chains
      through the new block, over stores whose block numbers grow from parent
      to child.

    ** Conventions, bounds and fuel

    A [u64] is a [Z] with the wrap-around of a release build written out;
    lengths and indices into vectors are [nat]. [result] is Rust's [Result]; a
    panic is a value of the model. Loops that are not structural take fuel:
    the compaction loop gets the number of runs, enough for a size ratio of two
    or more ([maybe_compact_terminates]; with a smaller ratio the code itself
    does not stop, and the model reports a divergence); the log replay and the
    page scan get the length of the file, as every step consumes a byte; the
    cache eviction gets the number of pages; the merge gets the number of
    entries; [maximal_candidates] takes its fuel as an argument, and its
    theorem says that some amount suffices and that more changes nothing; the
    walks of the volatile store get the number of blocks, as parents are
    distinct; the mempool sweeps get the number of transactions; skipping a CBOR
    item recurses on the nesting limit of the code, 1024, and scans with the
    length of the input ([skip_total]); the searches of the logarithm get the
    number of doublings an [i64] allows; the machine takes its fuel as an
    argument, and [uplc_terminates] bounds what is enough by the budget; the
    loops of Euclid get twice the bits of the divisor; the search for the
    descendants of a proposal gets one more than the identifiers in its graph,
    as each call but the first adds one ([removal_exact] holds with it for
    every graph, cyclic ones included). The theorems about the tree bound the
    total number of entries and bytes ([budget]) so that page offsets and counts
    fit the widths of the formats.

    ** What is not modelled

    Third-party code is a parameter: CRC-32 and the byte order crate
    ([Crates]), [chrono] ([Chrono]), Blake2b ([Blake2b]), VRF, KES and Ed25519
    ([Crypto]), big integers of Plutus data ([NumBigint]), decimal printing of
    floats ([Float64]), the digests, signatures and pairings of scripts
    ([UplcCrypto], [Blst]), the likelihoods of the pool ranking, which are
    floats ([Likelihoods]). The block rules are a parameter of the delta
    capture; those of Conway are modelled, without the validation that comes
    before them, the genesis key delegations and the translation between eras;
    of the Shelley boundary only the reward, fee, donation, MIR and snapshot
    steps are. The theorem on vote delegation takes from validation that a DRep
    registers once and that delegations name a registered DRep. The builtin
    costs are an argument of the machine. I/O errors other than missing files, partial writes of files other
    than the logs, the operating system's lock, and timing are left out, as are
    the f64 variants of the leader check, the immutable database, the decoders
    of transactions and ledger snapshots, the flat codec, the cost models and
    the script contexts of UPLC, networking, RPC, command line, configuration
    and monitoring.

    ** Plan

    Next: the limit on eagerness ([loe.rs], [loe_trim.rs]); multi-asset values;
    phase-1 validation of transactions; the other eras' boundaries; the connection state machine and
    multiplexer segments of [dugite-network]; the UTxO store over the LSM tree;
    the chain database over the volatile store. *)

From stdpp Require Export base list gmap strings numbers sorting.
From Stdlib Require Export ZArith Lia.

#[global] Set Default Goal Selector "!".
Local Open Scope Z_scope.

(** ** Results

    [result E A] is Rust's [Result<A, E>]; the [?] operator is [mbind], so the
    stdpp notation [x ← m; k] reads like [let x = m?; k]. *)

Inductive result (E A : Type) : Type :=
| Ok (a : A)
| Err (e : E).
Arguments Ok {E A} a.
Arguments Err {E A} e.

#[global] Instance result_ret E : MRet (result E) := λ A a, Ok a.
#[global] Instance result_bind E : MBind (result E) := λ A B k m,
  match m with Ok a => k a | Err e => Err e end.
#[global] Instance result_fmap E : FMap (result E) := λ A B f m,
  match m with Ok a => Ok (f a) | Err e => Err e end.

#[global] Instance result_eq_dec `{EqDecision E, EqDecision A} :
  EqDecision (result E A).
Proof. solve_decision. Defined.

(** [Result::ok] *)
Definition result_ok {E A} (r : result E A) : option A :=
  match r with Ok a => Some a | Err _ => None end.

(** ** Machine integers

    An unsigned [w]-bit integer is a [Z] in [0, 2^w); the operations below
    write out the wrap-around, the saturation and the checks of Rust. *)

Declare Scope mach_scope.
Delimit Scope mach_scope with mach.

Definition u64_max : Z := 18446744073709551615.
Definition u32_max : Z := 4294967295.

Definition wrap64 (x : Z) : Z := x mod 2 ^ 64.
Definition wrapping_add64 (x y : Z) : Z := wrap64 (x + y).
Definition wrapping_mul64 (x y : Z) : Z := wrap64 (x * y).
Definition wrapping_sub64 (x y : Z) : Z := wrap64 (x - y).
Definition saturating_add64 (x y : Z) : Z := Z.min (x + y) u64_max.
Definition saturating_sub64 (x y : Z) : Z := Z.max (x - y) 0.
Definition saturating_mul64 (x y : Z) : Z := Z.min (x * y) u64_max.
Definition checked_rem64 (x y : Z) : option Z :=
  if y =? 0 then None else Some (x mod y).
Definition checked_div64 (x y : Z) : option Z :=
  if y =? 0 then None else Some (x / y).
Definition abs_diff64 (x y : Z) : Z := Z.abs (x - y).

Notation "x +w y" := (wrapping_add64 x y) (at level 50, left associativity) : mach_scope.
Notation "x *w y" := (wrapping_mul64 x y) (at level 40, left associativity) : mach_scope.
Notation "x -w y" := (wrapping_sub64 x y) (at level 50, left associativity) : mach_scope.
Notation "x +s y" := (saturating_add64 x y) (at level 50, left associativity) : mach_scope.
Notation "x -s y" := (saturating_sub64 x y) (at level 50, left associativity) : mach_scope.

Definition u64 (x : Z) : Prop := 0 ≤ x ≤ u64_max.

Lemma wrap64_small x : u64 x → wrap64 x = x.
Proof. unfold u64, u64_max, wrap64. intros. apply Z.mod_small. lia. Qed.

#[global] Instance u64_dec x : Decision (u64 x).
Proof. unfold u64. apply _. Defined.

(** ** Tactics *)

(** Evaluates a decidable fact about concrete data. *)
Ltac evaluate := apply (bool_decide_unpack _); vm_compute; exact I.

(** Case analysis on the boolean comparisons of [Z] and [nat] in the goal or
    in a hypothesis, keeping the arithmetic fact. *)
Ltac cmp_cases :=
  repeat match goal with
  | |- context [(?x <? ?y)%Z] => destruct (Z.ltb_spec x y)
  | |- context [(?x <=? ?y)%Z] => destruct (Z.leb_spec x y)
  | |- context [(?x =? ?y)%Z] => destruct (Z.eqb_spec x y)
  | |- context [(?x <? ?y)%nat] => destruct (Nat.ltb_spec x y)
  | |- context [(?x <=? ?y)%nat] => destruct (Nat.leb_spec x y)
  | |- context [(?x =? ?y)%nat] => destruct (Nat.eqb_spec x y)
  | H : context [(?x <? ?y)%Z] |- _ => destruct (Z.ltb_spec x y)
  | H : context [(?x <=? ?y)%Z] |- _ => destruct (Z.leb_spec x y)
  | H : context [(?x =? ?y)%Z] |- _ => destruct (Z.eqb_spec x y)
  | H : context [(?x <? ?y)%nat] |- _ => destruct (Nat.ltb_spec x y)
  | H : context [(?x <=? ?y)%nat] |- _ => destruct (Nat.leb_spec x y)
  | H : context [(?x =? ?y)%nat] |- _ => destruct (Nat.eqb_spec x y)
  end.

(** Peel the binds of a [result] computation in a hypothesis [m ≫= k = Ok _]. *)
Ltac result_inv H :=
  repeat match type of H with
  | (mbind _ ?m) = Ok _ =>
      let E := fresh "E" in
      destruct m eqn:E; cbn [mbind result_bind] in H; [|discriminate H]
  end.

(** ** Lists *)

Lemma mjoin_cons {A} (l : list A) (ls : list (list A)) : mjoin (l :: ls) = l ++ mjoin ls.
Proof. done. Qed.

(** A list whose first part satisfies the predicate and whose second part does
    not is filtered to its first part. *)
Lemma filter_split {A} (P : A → Prop) `{∀ x, Decision (P x)} (l1 l2 : list A) :
  (∀ x, x ∈ l1 → P x) → (∀ x, x ∈ l2 → ¬ P x) → filter P (l1 ++ l2) = l1.
Proof.
  intros H1 H2. rewrite filter_app.
  assert (filter P l2 = []) as ->.
  { induction l2 as [|x l2 IH]; [done|]. rewrite filter_cons_False by set_solver.
    apply IH. set_solver. }
  rewrite app_nil_r. induction l1 as [|x l1 IH]; [done|].
  rewrite filter_cons_True by set_solver. f_equal. apply IH. set_solver.
Qed.

(** ** Hint database of the development *)

Create HintDb dugite.

(** A fold of steps that keep [g] keeps [g]. *)
Lemma foldl_keeps {S A B} (g : S → B) (f : S → A → S) s l :
  (∀ s a, g (f s a) = g s) → g (foldl f s l) = g s.
Proof. intros Hf. revert s. induction l as [|a l IH]; intros s; [done|]. cbn. by rewrite IH, Hf. Qed.
