(* ===== verification/Order.v ===== *)
(** * Orderings and searches of the Rust standard library

    - [slice_cmp]: [Ord::cmp] on [[u8]] (lexicographic, a proper prefix is
      smaller), used by LSM keys ([key.rs]) and by the VRF tiebreak.
    - [binary_search_by] and [partition_point]: the halving loops of
      [core::slice], used by the fence index, the page search and the density
      window.
    - [strict_sorted]: strictly increasing lists of keys, the shape of every
      sorted run. *)

From S2P Require Import Prelude.
Local Open Scope nat_scope.

(** ** Lexicographic order on byte strings *)

Fixpoint slice_cmp (a b : list Z) : comparison :=
  match a, b with
  | [], [] => Eq
  | [], _ :: _ => Lt
  | _ :: _, [] => Gt
  | x :: a', y :: b' =>
      match (x ?= y)%Z with
      | Eq => slice_cmp a' b'
      | c => c
      end
  end.

Definition key_lt (a b : list Z) : Prop := slice_cmp a b = Lt.
Definition key_le (a b : list Z) : Prop := slice_cmp a b ≠ Gt.

Definition key_ltb (a b : list Z) : bool :=
  match slice_cmp a b with Lt => true | _ => false end.
Definition key_leb (a b : list Z) : bool :=
  match slice_cmp a b with Gt => false | _ => true end.

#[global] Instance key_lt_dec : RelDecision key_lt.
Proof. unfold key_lt. solve_decision. Defined.

Lemma slice_cmp_eq a b : slice_cmp a b = Eq ↔ a = b.
Proof.
  revert b. induction a as [|x a IH]; intros [|y b]; simpl; try done.
  destruct (Z.compare_spec x y); split; intros; simplify_eq; try lia.
  - by f_equal; apply IH.
  - by apply IH.
Qed.

Lemma slice_cmp_refl a : slice_cmp a a = Eq.
Proof. by apply slice_cmp_eq. Qed.

Lemma slice_cmp_antisym a b : slice_cmp b a = CompOpp (slice_cmp a b).
Proof.
  revert b. induction a as [|x a IH]; intros [|y b]; simpl; try done.
  rewrite (Z.compare_antisym x y). by destruct (x ?= y)%Z; simpl.
Qed.

Lemma key_lt_trans a b c : key_lt a b → key_lt b c → key_lt a c.
Proof.
  unfold key_lt. revert b c.
  induction a as [|x a IH]; intros [|y b] [|z c]; simpl; try done.
  destruct (Z.compare_spec x y), (Z.compare_spec y z), (Z.compare_spec x z);
    intros; subst; try lia; try done; eauto.
Qed.

Lemma key_lt_irrefl a : ¬ key_lt a a.
Proof. unfold key_lt. by rewrite slice_cmp_refl. Qed.

Lemma key_gt_lt a b : slice_cmp a b = Gt ↔ key_lt b a.
Proof.
  unfold key_lt. rewrite (slice_cmp_antisym a b).
  by destruct (slice_cmp a b).
Qed.

#[global] Instance key_lt_strict : StrictOrder key_lt.
Proof.
  split.
  - intros x. apply key_lt_irrefl.
  - intros x y z. apply key_lt_trans.
Qed.

Lemma key_trichotomy a b : key_lt a b ∨ a = b ∨ key_lt b a.
Proof.
  destruct (slice_cmp a b) eqn:E.
  - right; left. by apply slice_cmp_eq.
  - by left.
  - right; right. by apply key_gt_lt.
Qed.

Lemma key_le_lt_eq a b : key_le a b ↔ key_lt a b ∨ a = b.
Proof.
  unfold key_le, key_lt. rewrite <-slice_cmp_eq.
  destruct (slice_cmp a b); naive_solver.
Qed.

Lemma key_not_le a b : ¬ key_le a b ↔ key_lt b a.
Proof.
  rewrite <-key_gt_lt. unfold key_le. destruct (slice_cmp a b); naive_solver.
Qed.

Lemma key_lt_asym a b : key_lt a b → ¬ key_lt b a.
Proof. intros H1 H2. by eapply key_lt_irrefl, key_lt_trans. Qed.

Lemma key_not_lt a b : ¬ key_lt a b ↔ key_le b a.
Proof.
  rewrite key_le_lt_eq. split.
  - intros ?. destruct (key_trichotomy a b) as [?|[->|?]]; eauto. done.
  - intros [?| ->]; [by apply key_lt_asym|apply key_lt_irrefl].
Qed.

Lemma key_lt_le_trans a b c : key_lt a b → key_le b c → key_lt a c.
Proof. rewrite key_le_lt_eq. intros ? [?| ->]; eauto using key_lt_trans. Qed.

Lemma key_le_lt_trans a b c : key_le a b → key_lt b c → key_lt a c.
Proof. rewrite key_le_lt_eq. intros [?| ->] ?; eauto using key_lt_trans. Qed.

Lemma key_ltb_lt a b : key_ltb a b = true ↔ key_lt a b.
Proof. unfold key_ltb, key_lt. by destruct (slice_cmp a b). Qed.

Lemma key_leb_le a b : key_leb a b = true ↔ key_le a b.
Proof. unfold key_leb, key_le. by destruct (slice_cmp a b). Qed.

#[global] Instance key_le_order : PartialOrder key_le.
Proof.
  split; [split|].
  - intros a. apply key_le_lt_eq. by right.
  - intros a b c. rewrite (key_le_lt_eq a b). intros [?| ->]; [|done].
    intros ?. apply key_le_lt_eq. left. by eapply key_lt_le_trans.
  - intros a b. rewrite !key_le_lt_eq. intros [H1|?] [H2|?]; try done. by destruct (key_lt_asym a b).
Qed.

#[export] Hint Resolve key_lt_trans key_lt_irrefl key_lt_le_trans key_le_lt_trans : dugite.

(** ** Sorted runs of keyed entries *)

Definition strict_sorted {V} (l : list (list Z * V)) : Prop :=
  StronglySorted key_lt l.*1.

Lemma strict_sorted_cons {V} (k : list Z) (v : V) l :
  strict_sorted ((k, v) :: l) ↔ Forall (key_lt k) l.*1 ∧ strict_sorted l.
Proof.
  unfold strict_sorted. simpl. split.
  - inversion 1; done.
  - intros []; by constructor.
Qed.

Lemma strict_sorted_app {V} (l1 l2 : list (list Z * V)) :
  strict_sorted (l1 ++ l2) ↔
  strict_sorted l1 ∧ strict_sorted l2 ∧
  ∀ k1 k2, k1 ∈ l1.*1 → k2 ∈ l2.*1 → key_lt k1 k2.
Proof.
  induction l1 as [|[k v] l1 IH]; simpl.
  { split; [|naive_solver]. intros H. split_and!; [constructor|done|set_solver]. }
  rewrite !strict_sorted_cons, IH, fmap_app, Forall_app. split.
  - intros [[H1 H2] (H3 & H4 & H5)]. split_and!; try done.
    intros k1 k2 [->|Hk]%elem_of_cons Hk2; [|by apply H5].
    rewrite Forall_forall in H2. by apply H2.
  - intros ([H1 H2] & H3 & H4). split_and!; try done.
    + apply Forall_forall. intros k2 Hk2. apply H4; set_solver.
    + intros k1 k2 Hk1 Hk2. apply H4; set_solver.
Qed.

Lemma strict_sorted_NoDup {V} (l : list (list Z * V)) :
  strict_sorted l → NoDup l.*1.
Proof.
  induction l as [|[k v] l IH]; simpl; [constructor|].
  rewrite strict_sorted_cons. intros [H1 H2]. constructor; [|by apply IH].
  rewrite Forall_forall in H1. intros Hk. by apply (key_lt_irrefl k), H1.
Qed.

Lemma strict_sorted_lookup {V} (l : list (list Z * V)) i j k1 v1 k2 v2 :
  strict_sorted l → i < j → l !! i = Some (k1, v1) → l !! j = Some (k2, v2) →
  key_lt k1 k2.
Proof.
  revert i j. induction l as [|[k v] l IH]; intros i j; [done|].
  rewrite strict_sorted_cons. intros [H1 H2] Hij.
  destruct j as [|j]; [lia|]. destruct i as [|i]; simpl.
  - intros [= <- <-] Hj. rewrite Forall_forall in H1. apply H1.
    apply list_elem_of_fmap. exists (k2, v2). split; [done|].
    by eapply list_elem_of_lookup_2.
  - apply IH; [done|lia].
Qed.

Lemma strict_sorted_filter {V} (P : list Z * V → Prop) `{∀ x, Decision (P x)} l :
  strict_sorted l → strict_sorted (filter P l).
Proof.
  induction l as [|[k v] l IH]; simpl; [done|].
  rewrite filter_cons, strict_sorted_cons. intros [H1 H2].
  case_decide; [|by apply IH]. apply strict_sorted_cons. split; [|by apply IH].
  rewrite Forall_forall in *. intros k' Hk'. apply H1.
  apply list_elem_of_fmap in Hk' as ([k2 v2] & -> & Hin).
  apply list_elem_of_filter in Hin as [_ Hin].
  apply list_elem_of_fmap. by exists (k2, v2).
Qed.

(** First entry with the given key: the meaning of a sorted run as a map. *)
Fixpoint assoc {V} (k : list Z) (l : list (list Z * V)) : option V :=
  match l with
  | [] => None
  | (k', v) :: l' => if decide (k = k') then Some v else assoc k l'
  end.

Lemma assoc_None {V} k (l : list (list Z * V)) : assoc k l = None ↔ k ∉ l.*1.
Proof.
  induction l as [|[k' v] l IH]; simpl; [set_solver|].
  case_decide; subst; set_solver.
Qed.

Lemma assoc_elem {V} k v (l : list (list Z * V)) : assoc k l = Some v → (k, v) ∈ l.
Proof.
  induction l as [|[k' v'] l IH]; simpl; [done|].
  case_decide; intros; simplify_eq; set_solver.
Qed.

Lemma assoc_sorted_elem {V} k v (l : list (list Z * V)) :
  strict_sorted l → (k, v) ∈ l → assoc k l = Some v.
Proof.
  induction l as [|[k' v'] l IH]; simpl; [set_solver|].
  rewrite strict_sorted_cons. intros [H1 H2] [[= -> ->]|Hin]%elem_of_cons.
  - by rewrite decide_True.
  - rewrite decide_False; [by apply IH|]. intros ->.
    rewrite Forall_forall in H1. eapply (key_lt_irrefl k'), H1.
    apply list_elem_of_fmap. by exists (k', v).
Qed.

Lemma elem_of_assoc {V} k v (l : list (list Z * V)) :
  strict_sorted l → (k, v) ∈ l ↔ assoc k l = Some v.
Proof. intros H. split; [by apply assoc_sorted_elem|apply assoc_elem]. Qed.

Lemma assoc_app {V} k (l1 l2 : list (list Z * V)) :
  assoc k (l1 ++ l2) = match assoc k l1 with Some v => Some v | None => assoc k l2 end.
Proof. induction l1 as [|[k' v] l1 IH]; simpl; [done|]. by case_decide. Qed.

Lemma assoc_lt_None {V} k (l : list (list Z * V)) :
  Forall (key_lt k) l.*1 → assoc k l = None.
Proof.
  rewrite Forall_forall, assoc_None. intros H Hk. by apply (key_lt_irrefl k), H.
Qed.

(** ** Binary search

    [slice::binary_search_by]: [size] shrinks by [size / 2] at each turn, so a
    fuel of [size] turns is enough. [Ok i] is a match at [i], [Err i] the
    insertion point. *)

Section search.
Context {A : Type} (f : A → comparison).

Fixpoint bsearch_loop (fuel : nat) (l : list A) (base size : nat) : nat :=
  match fuel with
  | O => base
  | S fuel' =>
      if size <=? 1 then base else
      let half := size / 2 in
      let mid := base + half in
      match l !! mid with
      | None => base
      | Some x =>
          bsearch_loop fuel' l (match f x with Gt => base | _ => mid end) (size - half)
      end
  end.

Definition binary_search_by (l : list A) : result nat nat :=
  match length l with
  | O => Err 0
  | size =>
      let base := bsearch_loop size l 0 size in
      match l !! base with
      | None => Err base
      | Some x => match f x with
                  | Eq => Ok base
                  | Lt => Err (base + 1)
                  | Gt => Err base
                  end
      end
  end.

(** The comparisons along the slice read [Lt* Eq? Gt*]. *)
Definition search_sorted (l : list A) : Prop :=
  ∀ i j x y, i < j → l !! i = Some x → l !! j = Some y → f x = Lt ∨ f y = Gt.

Lemma bsearch_loop_spec fuel l base size :
  search_sorted l →
  size ≤ fuel → 1 ≤ size → base + size ≤ length l →
  (∀ i x, i < base → l !! i = Some x → f x = Lt) →
  (∀ i x, base + size ≤ i → l !! i = Some x → f x = Gt) →
  let b := bsearch_loop fuel l base size in
  b < length l ∧ (∀ i x, i < b → l !! i = Some x → f x = Lt) ∧
  (∀ i x, b < i → l !! i = Some x → f x = Gt).
Proof.
  intros Hs. revert base size.
  induction fuel as [|fuel IH]; intros base size Hf H1 Hlen Hlo Hhi; [lia|].
  cbn [bsearch_loop]. destruct (Nat.leb_spec size 1) as [Hle|Hgt].
  { assert (size = 1) as -> by lia. split_and!; [lia|done|].
    intros i x Hi. apply Hhi. lia. }
  pose proof (Nat.div_mod_eq size 2) as Hdm.
  pose proof (Nat.mod_upper_bound size 2 ltac:(lia)) as Hmu.
  set (half := size / 2) in *.
  destruct (lookup_lt_is_Some_2 l (base + half) ltac:(lia)) as [x Hx].
  rewrite Hx. destruct (f x) eqn:Hfx; apply IH; try lia; try done.
  - intros i y Hi Hy. destruct (decide (i < base)) as [|Hge]; [by eapply Hlo|].
    destruct (Hs i (base + half) y x ltac:(lia) Hy Hx) as [|]; congruence.
  - intros i y Hi Hy. apply (Hhi i); [lia|done].
  - intros i y Hi Hy.
    destruct (Hs i (base + half) y x ltac:(lia) Hy Hx) as [|]; congruence.
  - intros i y Hi Hy. apply (Hhi i); [lia|done].
  - intros i y Hi Hy. destruct (decide (i = base + half)) as [->|]; [congruence|].
    destruct (Hs (base + half) i x y ltac:(lia) Hx Hy) as [|]; [congruence|done].
Qed.

Lemma binary_search_by_spec l :
  search_sorted l →
  match binary_search_by l with
  | Ok i => ∃ x, l !! i = Some x ∧ f x = Eq
  | Err i => i ≤ length l ∧ (∀ j x, j < i → l !! j = Some x → f x = Lt) ∧
             (∀ j x, i ≤ j → l !! j = Some x → f x = Gt)
  end.
Proof.
  intros Hs. unfold binary_search_by.
  destruct (length l) as [|n] eqn:Hn.
  { apply nil_length_inv in Hn. subst. split_and!; [done|lia|].
    intros j x _. by rewrite lookup_nil. }
  destruct (bsearch_loop_spec (S n) l 0 (S n)) as (Hb & Hlo & Hhi);
    [done|lia|lia|lia|lia| |].
  { intros i x Hi Hx. apply lookup_lt_Some in Hx. lia. }
  set (b := bsearch_loop (S n) l 0 (S n)) in *.
  destruct (lookup_lt_is_Some_2 l b Hb) as [x Hx]. rewrite Hx.
  destruct (f x) eqn:Hfx.
  - by exists x.
  - split_and!; [lia| |].
    + intros j y Hj Hy. destruct (decide (j = b)) as [->|]; [congruence|].
      apply (Hlo j); [lia|done].
    + intros j y Hj. apply Hhi. lia.
  - split_and!; [lia|done|].
    intros j y Hj Hy. destruct (decide (j = b)) as [->|]; [congruence|].
    apply (Hhi j); [lia|done].
Qed.

End search.

(** [slice::partition_point]: the number of leading elements that satisfy the
    predicate, by binary search. *)
Definition partition_point {A} (p : A → bool) (l : list A) : nat :=
  match binary_search_by (λ x, if p x then Lt else Gt) l with
  | Ok i | Err i => i
  end.

Definition part_by {A} (p : A → bool) (l : list A) : Prop :=
  ∀ i j x y, i < j → l !! i = Some x → l !! j = Some y → p y = true → p x = true.

Lemma partition_point_spec {A} (p : A → bool) l :
  part_by p l →
  let n := partition_point p l in
  n ≤ length l ∧ (∀ j x, j < n → l !! j = Some x → p x = true) ∧
  (∀ j x, n ≤ j → l !! j = Some x → p x = false).
Proof.
  intros Hp. unfold partition_point.
  assert (search_sorted (λ x, if p x then Lt else Gt) l) as Hs.
  { intros i j x y Hij Hx Hy. specialize (Hp i j x y Hij Hx Hy).
    destruct (p x), (p y); naive_solver. }
  pose proof (binary_search_by_spec _ l Hs) as H.
  destruct (binary_search_by _ l) as [i|i].
  { destruct H as (x & _ & Hx). by destruct (p x). }
  destruct H as (? & Hlo & Hhi). split_and!; [done| |].
  - intros j x Hj Hx. specialize (Hlo j x Hj Hx). by destruct (p x).
  - intros j x Hj Hx. specialize (Hhi j x Hj Hx). by destruct (p x).
Qed.
