(* ===== verification/Bytes.v ===== *)
(** * Byte strings, cursors and the external crates of the storage engine

    A [u8] is a [Z] in [0, 256) and a byte string a [list Z]. [le_bytes] and
    [le_value] are [to_le_bytes] and [from_le_bytes] of the standard library.
    [crc32fast] and [byteorder] are not part of the repository: the class
    [Crates] carries their functions as parameters and [CratesOk] what their
    documentation promises. [demo_crates] is an instance, used to evaluate the
    definitions on concrete inputs. *)

From S2P Require Import Prelude.
Local Open Scope Z_scope.

(** ** Little-endian integers *)

Fixpoint le_bytes (w : nat) (x : Z) : list Z :=
  match w with
  | O => []
  | S w' => x mod 256 :: le_bytes w' (x / 256)
  end.

Fixpoint le_value (bs : list Z) : Z :=
  match bs with
  | [] => 0
  | b :: bs' => b + 256 * le_value bs'
  end.

Lemma length_le_bytes w x : length (le_bytes w x) = w.
Proof. revert x. induction w as [|w IH]; intros x; simpl; [done|by rewrite IH]. Qed.

Lemma le_value_bytes w x :
  0 ≤ x < 256 ^ Z.of_nat w → le_value (le_bytes w x) = x.
Proof.
  revert x. induction w as [|w IH]; intros x Hx; cbn [le_bytes le_value].
  { change (256 ^ Z.of_nat 0) with 1 in Hx. lia. }
  rewrite Nat2Z.inj_succ, Z.pow_succ_r in Hx by lia.
  rewrite IH.
  - pose proof (Z.div_mod x 256 ltac:(lia)). lia.
  - split; [by apply Z.div_pos; lia|]. apply Z.div_lt_upper_bound; lia.
Qed.

Lemma le_bytes_mod w x : le_bytes w (x mod 256 ^ Z.of_nat w) = le_bytes w x.
Proof.
  revert x. induction w as [|w IH]; intros x; cbn [le_bytes]; [done|].
  rewrite Nat2Z.inj_succ, Z.pow_succ_r by lia.
  assert (0 < 256 ^ Z.of_nat w) by (apply Z.pow_pos_nonneg; lia).
  rewrite Z.rem_mul_r by lia. f_equal.
  - rewrite (Z.mul_comm 256), Z_mod_plus_full. apply Z.mod_mod. lia.
  - rewrite <-(IH (x / 256)). f_equal.
    rewrite Z.mul_comm, Z_div_plus_full by lia.
    rewrite (Z.div_small (x mod 256)) by (apply Z.mod_pos_bound; lia). lia.
Qed.

Lemma le_value_bytes_mod w x : le_value (le_bytes w x) = x mod 256 ^ Z.of_nat w.
Proof.
  rewrite <-le_bytes_mod. apply le_value_bytes. apply Z.mod_pos_bound.
  apply Z.pow_pos_nonneg; lia.
Qed.

(** ** UTF-8 *)

(** Continuation byte of UTF-8 between [lo] and [hi]. *)
Definition byte_in (lo hi b : Z) : bool := (lo <=? b)%Z && (b <=? hi)%Z.
Abbreviation cont := (byte_in 128 191).

(** [String::from_utf8] accepts exactly the well-formed sequences. *)
Fixpoint utf8_valid (bs : list Z) : bool :=
  match bs with
  | [] => true
  | b :: r =>
      if (b <? 128)%Z then utf8_valid r
      else if byte_in 194 223 b then
        match r with c :: r => cont c && utf8_valid r | _ => false end
      else if byte_in 224 239 b then
        match r with
        | c :: d :: r =>
            byte_in (if (b =? 224)%Z then 160 else 128) (if (b =? 237)%Z then 159 else 191) c
            && cont d && utf8_valid r
        | _ => false
        end
      else if byte_in 240 244 b then
        match r with
        | c :: d :: e :: r =>
            byte_in (if (b =? 240)%Z then 144 else 128) (if (b =? 244)%Z then 143 else 191) c
            && cont d && cont e && utf8_valid r
        | _ => false
        end
      else false
  end.

(** ** Big-endian integers ([to_be_bytes], [from_be_bytes]) *)

Definition be_bytes (w : nat) (x : Z) : list Z := reverse (le_bytes w x).
Definition be_value (bs : list Z) : Z := le_value (reverse bs).

Lemma length_be_bytes w x : length (be_bytes w x) = w.
Proof. unfold be_bytes. by rewrite length_reverse, length_le_bytes. Qed.

Lemma be_value_bytes w x : 0 ≤ x < 256 ^ Z.of_nat w → be_value (be_bytes w x) = x.
Proof. intros H. unfold be_value, be_bytes. rewrite reverse_involutive. by apply le_value_bytes. Qed.

(** [&data[off..off + n]], within the bounds that the code has checked *)
Definition slice (off n : nat) (data : list Z) : list Z := take n (drop off data).

(** Zero-filled buffer: [vec![0u8; n]]. *)
Definition zeroes (n : nat) : list Z := replicate n 0.

(** [Vec::resize(n, 0)] *)
Definition resize (n : nat) (l : list Z) : list Z :=
  take n l ++ zeroes (n - length l).

Lemma length_resize n l : length (resize n l) = n.
Proof.
  unfold resize, zeroes. rewrite length_app, length_take, length_replicate. lia.
Qed.

Lemma resize_ge n l : (length l ≤ n)%nat → resize n l = l ++ zeroes (n - length l).
Proof. intros H. unfold resize. by rewrite take_ge. Qed.

(** ** Errors of the storage engine ([error.rs]) *)

Inductive io_error_kind : Type :=
| UnexpectedEof
| InvalidData
| NotFound.

Inductive Error : Type :=
| Io (k : io_error_kind)
| ChecksumMismatch (expected actual : Z)
| WalCorruption (offset : Z) (detail : string)
| PageOverflow (needed available : nat)
| DatabaseLocked (path : string)
| SnapshotNotFound (name : string)
| Manifest (msg : string)
| KeyTooLarge (size max : nat)
| ValueTooLarge (size max : nat).

#[global] Instance io_error_kind_eq_dec : EqDecision io_error_kind.
Proof. solve_decision. Defined.
#[global] Instance Error_eq_dec : EqDecision Error.
Proof. solve_decision. Defined.

Abbreviation lsm_result := (result Error).

(** ** Cursors

    A reader is the rest of the buffer; [read_exact] fails with
    [UnexpectedEof] on a short read. *)

Definition read_exact (n : nat) (r : list Z) : lsm_result (list Z * list Z) :=
  if (length r <? n)%nat then Err (Io UnexpectedEof)
  else Ok (take n r, drop n r).

Lemma read_exact_app n l r : length l = n → read_exact n (l ++ r) = Ok (l, r).
Proof.
  intros <-. unfold read_exact. rewrite length_app.
  destruct (Nat.ltb_spec (length l + length r) (length l)); [lia|].
  by rewrite take_app_length, drop_app_length.
Qed.

Lemma read_exact_short n r :
  (length r < n)%nat → read_exact n r = Err (Io UnexpectedEof).
Proof. intros H. unfold read_exact. by destruct (Nat.ltb_spec (length r) n); [|lia]. Qed.

(** ** External crates *)

(** [crc32_hash] is [crc32fast::hash]; [bo_write w x] and [bo_read w r] are
    the [LittleEndian] accessors of [byteorder] for [w]-byte unsigned integers
    ([write_u16], [read_u16], ...). *)
Class Crates := {
  crc32_hash : list Z → Z;
  bo_write : nat → Z → list Z;
  bo_read : nat → list Z → lsm_result (Z * list Z);
}.

(** What the documentation of the crates says: a CRC-32 is a 32-bit value, the
    integers are written in little-endian order on [w] bytes, and a read
    consumes [w] bytes or fails with [UnexpectedEof]. *)
Class CratesOk {CR : Crates} : Prop := {
  crc32_u32 bs : 0 ≤ crc32_hash bs < 2 ^ 32;
  bo_write_le w x : 0 ≤ x < 256 ^ Z.of_nat w → bo_write w x = le_bytes w x;
  bo_read_le w r :
    bo_read w r = (if (length r <? w)%nat then Err (Io UnexpectedEof)
                   else Ok (le_value (take w r), drop w r));
}.

Section crates.
Context {CR : Crates} {CROK : CratesOk}.

Lemma length_bo_write w x :
  0 ≤ x < 256 ^ Z.of_nat w → length (bo_write w x) = w.
Proof. intros. rewrite bo_write_le by done. apply length_le_bytes. Qed.

Lemma bo_read_write w x r :
  0 ≤ x < 256 ^ Z.of_nat w → bo_read w (bo_write w x ++ r) = Ok (x, r).
Proof.
  intros Hx. rewrite bo_read_le, length_app, length_bo_write by done.
  destruct (Nat.ltb_spec (w + length r) w); [lia|].
  rewrite take_app_length', drop_app_length' by (by rewrite length_bo_write).
  by rewrite bo_write_le, le_value_bytes.
Qed.

Lemma bo_read_short w r :
  (length r < w)%nat → bo_read w r = Err (Io UnexpectedEof).
Proof. intros H. rewrite bo_read_le. by destruct (Nat.ltb_spec (length r) w); [|lia]. Qed.

End crates.

(** A concrete instance: a 32-bit polynomial checksum and the little-endian
    codec itself. *)
Definition demo_crates : Crates := {|
  crc32_hash bs := foldl (λ h b, (h * 31 + b + 7) mod 2 ^ 32) 5 bs;
  bo_write := le_bytes;
  bo_read w r := if (length r <? w)%nat then Err (Io UnexpectedEof)
                 else Ok (le_value (take w r), drop w r);
|}.

Lemma demo_crates_ok : @CratesOk demo_crates.
Proof.
  split; [|done|done]. intros bs. simpl.
  assert (∀ h, 0 ≤ h < 2 ^ 32 →
    0 ≤ foldl (λ h b, (h * 31 + b + 7) mod 2 ^ 32) h bs < 2 ^ 32) as H.
  { induction bs as [|b bs IH]; intros h Hh; [done|]. apply IH.
    by apply Z.mod_pos_bound. }
  by apply H.
Qed.
