(* ===== verification/Effects.v ===== *)
(** * Stateful operations that fail or panic

    A Rust method with [&mut self] and a [Result] keeps the mutations done
    before an error, so an operation on a state [S] is a function to its
    outcome and the state it leaves. A panic ([unwrap] of [None], an index out
    of bounds) is an outcome of its own. *)

From S2P Require Import Prelude Bytes.

Inductive Fault : Type :=
| Panic
| Diverge
| Fail (e : Error).

#[global] Instance Fault_eq_dec : EqDecision Fault.
Proof. solve_decision. Defined.

Definition eff (S A : Type) : Type := S → result Fault A * S.

#[global] Instance eff_ret S : MRet (eff S) := λ A a s, (Ok a, s).
#[global] Instance eff_bind S : MBind (eff S) := λ A B k m s,
  match m s with
  | (Ok a, s') => k a s'
  | (Err e, s') => (Err e, s')
  end.

Definition gets {S A} (f : S → A) : eff S A := λ s, (Ok (f s), s).
Definition modify {S} (f : S → S) : eff S () := λ s, (Ok (), f s).
Definition panic {S A} : eff S A := λ s, (Err Panic, s).
Definition diverge {S A} : eff S A := λ s, (Err Diverge, s).
Definition fail {S A} (e : Error) : eff S A := λ s, (Err (Fail e), s).

(** The [?] operator on a pure [Result]. *)
Definition lift {S A} (r : lsm_result A) : eff S A := λ s,
  (match r with Ok a => Ok a | Err e => Err (Fail e) end, s).

(** A method call on a field of the state. *)
Definition zoom {S T A} (get : S → T) (set : T → S → S) (m : eff T A) : eff S A := λ s,
  let '(r, t) := m (get s) in (r, set t s).

(** [when b m]: [if b { m? }]. *)
Definition when {S} (b : bool) (m : eff S ()) : eff S () := if b then m else mret ().

Fixpoint for_each {S A} (f : A → eff S ()) (l : list A) : eff S () :=
  match l with
  | [] => mret ()
  | x :: l' => f x ;; for_each f l'
  end.

(** The state and value when the operation returns [Ok]. *)
Definition returns {S A} (m : eff S A) (s : S) (a : A) (s' : S) : Prop := m s = (Ok a, s').

Lemma returns_ret {S A} (a : A) (s : S) : returns (mret a) s a s.
Proof. done. Qed.

Lemma returns_bind {S A B} (m : eff S A) (k : A → eff S B) s a s1 b s2 :
  returns m s a s1 → returns (k a) s1 b s2 → returns (m ≫= k) s b s2.
Proof. unfold returns, mbind, eff_bind. by intros ->. Qed.

Lemma returns_gets {S A} (f : S → A) s : returns (gets f) s (f s) s.
Proof. done. Qed.

Lemma returns_modify {S} (f : S → S) s : returns (modify f) s () (f s).
Proof. done. Qed.

Lemma returns_lift {S A} (r : lsm_result A) (s : S) a : r = Ok a → returns (lift r) s a s.
Proof. by intros ->. Qed.

Lemma returns_zoom {S T A} (get : S → T) (set : T → S → S) (m : eff T A) s a t :
  returns m (get s) a t → returns (zoom get set m) s a (set t s).
Proof. unfold returns, zoom. by intros ->. Qed.

#[export] Hint Resolve returns_ret returns_gets returns_modify returns_lift returns_zoom : dugite.

(** One step of an operation: the first action of a bind is one of the
    primitives or a call with a known outcome. *)
Ltac eff_step := eapply returns_bind; [eauto with dugite|].
