(* ===== verification/LsmPage.v ===== *)
(** * SSTable pages ([crates/dugite-lsm/src/sstable/page.rs])

    The byte layout of a page (entry count, [data_end], CRC-32, entries, zero
    padding), its decoder with the checks of the source, and the binary search
    inside a decoded page. Keys and values are byte strings ([key.rs],
    [value.rs]); [None] is a tombstone. *)

From S2P Require Import Prelude Order Bytes.
Local Open Scope Z_scope.

Abbreviation Key := (list Z).
Abbreviation Value := (list Z).
Abbreviation entry := (list Z * option (list Z))%type.

(** ** Definitions *)

Definition PAGE_HEADER_SIZE : nat := 10.
Definition TAG_VALUE : Z := 1.
Definition TAG_TOMBSTONE : Z := 0.

Record Page := mkPage { page_entries : list entry }.

Definition entry_size (e : entry) : nat :=
  2 + length e.1 + 1 +
  match e.2 with Some v => 4 + length v | None => 0 end.

Definition page_search (p : Page) (key : Key) : option (option Value) :=
  match binary_search_by (λ e : entry, slice_cmp e.1 key) (page_entries p) with
  | Ok idx => snd <$> page_entries p !! idx
  | Err _ => None
  end.

(** [len as u16], [len as u32]: the casts keep the low bits. *)
Definition as_u16 (n : nat) : Z := Z.of_nat n mod 2 ^ 16.
Definition as_u32 (n : nat) : Z := Z.of_nat n mod 2 ^ 32.

(** [usize::div_ceil] *)
Definition div_ceil (a b : nat) : nat := (a / b + (if a mod b =? 0 then 0 else 1))%nat.

Section page.
Context {CR : Crates}.

Definition encode_entry (e : entry) : list Z :=
  bo_write 2 (as_u16 (length e.1)) ++ e.1 ++
  match e.2 with
  | Some v => [TAG_VALUE] ++ bo_write 4 (as_u32 (length v)) ++ v
  | None => [TAG_TOMBSTONE]
  end.

Definition decode_entry (r : list Z) : lsm_result (entry * list Z) :=
  '(key_len, r) ← bo_read 2 r;
  '(key_buf, r) ← read_exact (Z.to_nat key_len) r;
  '(tag, r) ← bo_read 1 r;
  if tag =? TAG_VALUE then
    '(value_len, r) ← bo_read 4 r;
    '(value_buf, r) ← read_exact (Z.to_nat value_len) r;
    Ok ((key_buf, Some value_buf), r)
  else Ok ((key_buf, None), r).

Definition page_encode (p : Page) (min_page_size : nat) : list Z :=
  let data_buf := mjoin (encode_entry <$> page_entries p) in
  let needed := (PAGE_HEADER_SIZE + length data_buf)%nat in
  let actual_page_size :=
    if (needed <=? min_page_size)%nat then min_page_size
    else (div_ceil needed min_page_size * min_page_size)%nat in
  let data_end := as_u32 needed in
  let crc := crc32_hash data_buf in
  let page_buf :=
    bo_write 2 (as_u16 (length (page_entries p))) ++ bo_write 4 data_end ++
    bo_write 4 crc ++ data_buf in
  resize actual_page_size page_buf.

Fixpoint decode_entries (n : nat) (r : list Z) : lsm_result (list entry) :=
  match n with
  | O => Ok []
  | S n' =>
      '(e, r) ← decode_entry r;
      es ← decode_entries n' r;
      Ok (e :: es)
  end.

Definition page_decode (buf : list Z) : lsm_result Page :=
  if (length buf <? PAGE_HEADER_SIZE)%nat then Err (Io UnexpectedEof) else
  '(entry_count, cursor) ← bo_read 2 buf;
  '(data_end, cursor) ← bo_read 4 cursor;
  '(expected_crc, _) ← bo_read 4 cursor;
  if (Z.of_nat (length buf) <? data_end) || (data_end <? Z.of_nat PAGE_HEADER_SIZE)
  then Err (Io InvalidData) else
  let data_region :=
    take (Z.to_nat data_end - PAGE_HEADER_SIZE) (drop PAGE_HEADER_SIZE buf) in
  let actual_crc := crc32_hash data_region in
  if negb (actual_crc =? expected_crc)
  then Err (ChecksumMismatch expected_crc actual_crc) else
  es ← decode_entries (Z.to_nat entry_count) data_region;
  Ok (mkPage es).

End page.

(** ** Entry codec *)

Definition entry_ok (e : entry) : Prop :=
  Z.of_nat (length e.1) < 2 ^ 16 ∧
  match e.2 with Some v => Z.of_nat (length v) < 2 ^ 32 | None => True end.

#[global] Instance entry_ok_dec e : Decision (entry_ok e).
Proof. unfold entry_ok. destruct (e.2); apply _. Defined.

(** The entries of a page that can be written: the counts and lengths fit the
    integer fields of the layout. *)
Definition page_data_size (es : list entry) : nat := sum_list_with entry_size es.

Definition page_ok (es : list entry) : Prop :=
  Forall entry_ok es ∧ Z.of_nat (length es) < 2 ^ 16 ∧
  Z.of_nat (PAGE_HEADER_SIZE + page_data_size es) < 2 ^ 32.

#[global] Instance page_ok_dec es : Decision (page_ok es).
Proof. unfold page_ok. apply _. Defined.

Lemma as_u16_small n : Z.of_nat n < 2 ^ 16 → as_u16 n = Z.of_nat n.
Proof. intros. unfold as_u16. apply Z.mod_small. lia. Qed.

Lemma as_u32_small n : Z.of_nat n < 2 ^ 32 → as_u32 n = Z.of_nat n.
Proof. intros. unfold as_u32. apply Z.mod_small. lia. Qed.

Lemma as_u16_range n : 0 ≤ as_u16 n < 256 ^ Z.of_nat 2.
Proof. apply Z.mod_pos_bound. lia. Qed.

Lemma as_u32_range n : 0 ≤ as_u32 n < 256 ^ Z.of_nat 4.
Proof. apply Z.mod_pos_bound. lia. Qed.

#[export] Hint Resolve as_u16_range as_u32_range : dugite.

Section page_proofs.
Context {CR : Crates} {CROK : CratesOk}.

Lemma crc32_range bs : 0 ≤ crc32_hash bs < 256 ^ Z.of_nat 4.
Proof. apply crc32_u32. Qed.

Hint Resolve crc32_range : dugite.

Lemma length_encode_entry e : length (encode_entry e) = entry_size e.
Proof.
  destruct e as [k [v|]]; unfold encode_entry, entry_size; cbn [fst snd];
    rewrite !length_app, ?length_cons, ?length_app, !length_bo_write
      by auto with dugite; simpl; lia.
Qed.

Lemma length_encode_entries es :
  length (mjoin (encode_entry <$> es)) = page_data_size es.
Proof.
  induction es as [|e es IH]; [done|].
  change (mjoin (encode_entry <$> e :: es)) with (encode_entry e ++ mjoin (encode_entry <$> es)).
  by rewrite length_app, length_encode_entry, IH.
Qed.

Lemma bo_read_byte b r : 0 ≤ b < 256 → bo_read 1 (b :: r) = Ok (b, r).
Proof.
  intros Hb. rewrite bo_read_le. simpl. rewrite drop_0. do 2 f_equal. lia.
Qed.

Lemma decode_encode_entry e r :
  entry_ok e → decode_entry (encode_entry e ++ r) = Ok (e, r).
Proof.
  intros [Hk Hv]. destruct e as [k ov]. unfold decode_entry, encode_entry.
  cbn [fst snd] in *. rewrite <-!app_assoc.
  rewrite bo_read_write by auto with dugite. cbn [mbind result_bind].
  rewrite as_u16_small, Nat2Z.id by done.
  rewrite read_exact_app by done. cbn [mbind result_bind].
  destruct ov as [v|]; simpl app; rewrite bo_read_byte by (unfold TAG_VALUE, TAG_TOMBSTONE; lia).
  2: done.
  cbn [mbind result_bind]. cbn [TAG_VALUE Z.eqb Pos.eqb].
  rewrite <-app_assoc, bo_read_write by auto with dugite. cbn [mbind result_bind].
  rewrite as_u32_small, Nat2Z.id by done.
  by rewrite read_exact_app.
Qed.

Lemma decode_encode_entries es r :
  Forall entry_ok es →
  decode_entries (length es) (mjoin (encode_entry <$> es) ++ r) = Ok es.
Proof.
  induction 1 as [|e es He Hes IH]; [done|].
  change (mjoin (encode_entry <$> e :: es)) with (encode_entry e ++ mjoin (encode_entry <$> es)).
  rewrite <-app_assoc. cbn [length decode_entries].
  rewrite decode_encode_entry by done. cbn [mbind result_bind]. by rewrite IH.
Qed.

(** ** Page codec *)

(** Header and entries of a page, without the padding. *)
Definition page_payload (es : list entry) : list Z :=
  bo_write 2 (as_u16 (length es)) ++
  bo_write 4 (as_u32 (PAGE_HEADER_SIZE + page_data_size es)) ++
  bo_write 4 (crc32_hash (mjoin (encode_entry <$> es))) ++
  mjoin (encode_entry <$> es).

Lemma length_page_payload es :
  length (page_payload es) = (PAGE_HEADER_SIZE + page_data_size es)%nat.
Proof.
  unfold page_payload. rewrite !length_app, !length_bo_write by auto with dugite.
  rewrite length_encode_entries. unfold PAGE_HEADER_SIZE. lia.
Qed.

Lemma div_ceil_mul_ge a b : (0 < b → a ≤ div_ceil a b * b)%nat.
Proof.
  intros Hb. unfold div_ceil. pose proof (Nat.div_mod_eq a b).
  destruct (Nat.eqb_spec (a mod b) 0).
  - lia.
  - pose proof (Nat.mod_upper_bound a b ltac:(lia)). lia.
Qed.

(** Size of an encoded page: the payload rounded up to a multiple of
    [min_page_size], at least one. *)
Definition page_len (es : list entry) (min_page_size : nat) : nat :=
  let needed := (PAGE_HEADER_SIZE + page_data_size es)%nat in
  if (needed <=? min_page_size)%nat then min_page_size
  else (div_ceil needed min_page_size * min_page_size)%nat.

Lemma page_len_ge es m :
  (0 < m)%nat → (PAGE_HEADER_SIZE + page_data_size es ≤ page_len es m)%nat.
Proof.
  intros. unfold page_len. destruct (Nat.leb_spec (PAGE_HEADER_SIZE + page_data_size es) m); [done|].
  by apply div_ceil_mul_ge.
Qed.

Lemma page_encode_payload es m :
  (0 < m)%nat →
  page_encode (mkPage es) m =
  page_payload es ++ zeroes (page_len es m - length (page_payload es)).
Proof.
  intros Hm. unfold page_encode. cbn [page_entries].
  rewrite length_encode_entries. fold (page_len es m). fold (page_payload es).
  apply resize_ge. rewrite length_page_payload. by apply page_len_ge.
Qed.

Lemma length_page_encode es m : length (page_encode (mkPage es) m) = page_len es m.
Proof. unfold page_encode. rewrite length_resize. cbn [page_entries]. by rewrite length_encode_entries. Qed.

(** Any buffer that starts with the payload of a writable page decodes to it,
    whatever follows. *)
Lemma page_decode_payload es pad :
  page_ok es → page_decode (page_payload es ++ pad) = Ok (mkPage es).
Proof.
  intros (He & Hn & Hd).
  pose proof (length_page_payload es) as Hl.
  unfold page_decode. rewrite length_app, Hl.
  destruct (Nat.ltb_spec (PAGE_HEADER_SIZE + page_data_size es + length pad) PAGE_HEADER_SIZE); [lia|].
  unfold page_payload. rewrite <-!app_assoc.
  rewrite bo_read_write by auto with dugite. cbn [mbind result_bind].
  rewrite bo_read_write by auto with dugite. cbn [mbind result_bind].
  rewrite bo_read_write by auto with dugite. cbn [mbind result_bind].
  rewrite as_u32_small, as_u16_small, !Nat2Z.id by done.
  match goal with |- context [if (?a || ?b)%bool then _ else _] =>
    assert ((a || b)%bool = false) as -> by (apply orb_false_iff; split; apply Z.ltb_ge; lia) end.
  match goal with |- context [drop PAGE_HEADER_SIZE ?l] =>
    replace (drop PAGE_HEADER_SIZE l) with (mjoin (encode_entry <$> es) ++ pad) end.
  2:{ rewrite !(assoc_L (++)). rewrite <-(assoc_L (++) _ (mjoin _) pad).
      rewrite drop_app_length'; [done|].
      rewrite !length_app, !length_bo_write
        by (first [solve [auto with dugite] | change (256 ^ Z.of_nat 2) with (2 ^ 16);
                   change (256 ^ Z.of_nat 4) with (2 ^ 32); lia]). done. }
  rewrite take_app_length' by (rewrite length_encode_entries; lia).
  rewrite Z.eqb_refl. cbn [negb].
  rewrite <-(app_nil_r (mjoin _)), decode_encode_entries by done. done.
Qed.

(** Search in a page of strictly increasing keys finds exactly the entry of the
    key. *)
Lemma page_search_assoc es key :
  strict_sorted es → page_search (mkPage es) key = assoc key es.
Proof.
  intros Hs. unfold page_search. cbn [page_entries].
  assert (search_sorted (λ e : entry, slice_cmp e.1 key) es) as Hss.
  { intros i j [k1 v1] [k2 v2] Hij H1 H2. simpl.
    pose proof (strict_sorted_lookup _ _ _ _ _ _ _ Hs Hij H1 H2) as Hlt.
    destruct (key_trichotomy k1 key) as [?|[->|Hgt]]; [by left|right|right];
      apply key_gt_lt; eauto with dugite. }
  pose proof (binary_search_by_spec _ _ Hss) as H.
  destruct (binary_search_by _ es) as [i|i].
  - destruct H as ([k v] & Hx & Hk%slice_cmp_eq). simpl in Hk. subst key.
    rewrite Hx. simpl. symmetry.
    apply assoc_sorted_elem; [done|]. by eapply list_elem_of_lookup_2.
  - destruct H as (_ & Hlo & Hhi). symmetry. apply assoc_None.
    intros ([k v] & Hk & [j Hj]%list_elem_of_lookup)%list_elem_of_fmap.
    simpl in Hk. subst key.
    destruct (decide (j < i)%nat) as [Hji|Hji].
    + specialize (Hlo j _ Hji Hj). simpl in Hlo. by rewrite slice_cmp_refl in Hlo.
    + specialize (Hhi j (k, v) ltac:(lia) Hj). simpl in Hhi. by rewrite slice_cmp_refl in Hhi.
Qed.

End page_proofs.
