(* ===== verification/LsmBloom.v ===== *)
(** * Bloom filters ([crates/dugite-lsm/src/bloom.rs])

    The bit array, the double hashing with its 64-bit wrap-around, insertion,
    query and the serialized form. *)

From S2P Require Import Prelude Order Bytes LsmPage.
Local Open Scope Z_scope.

(** ** Definitions *)

Record BloomFilter := mkBloom {
  bits : list Z;
  num_bits : Z;
  num_hashes : Z;
}.

(** Two FNV-1a style folds over the bytes. *)
Definition fnv_fold (seed mult : Z) (data : list Z) : Z :=
  foldl (λ h b, wrapping_mul64 (Z.lxor h b) mult) seed data.

Definition double_hash (data : list Z) : Z * Z :=
  (fnv_fold 0xcbf29ce484222325 0x100000001b3 data,
   fnv_fold 0x517cc1b727220a95 0x9e3779b97f4a7c15 data).

(** [num_keys.saturating_mul(bits_per_key).max(64)], rounded up to bytes. The
    hash count is [(bits_per_key as f64 * 0.693) as u32] clamped to [1, 30];
    the product is at least 1/1000 away from every integer up to 30, so the
    truncation of the double is the truncation of the exact product. *)
Definition bloom_new (num_keys bits_per_key : Z) : BloomFilter :=
  let nbits := Z.max (saturating_mul64 num_keys bits_per_key) 64 in
  let num_bytes := (nbits + 7) / 8 in
  let k := Z.max 1 (Z.min 30 (bits_per_key * 693 / 1000)) in
  mkBloom (zeroes (Z.to_nat num_bytes)) (num_bytes * 8) k.

(** [h1.wrapping_add((i as u64).wrapping_mul(h2)) % num_bits] *)
Definition bit_pos (b : BloomFilter) (h : Z * Z) (i : Z) : Z :=
  wrapping_add64 h.1 (wrapping_mul64 i h.2) mod num_bits b.

Definition set_bit (l : list Z) (pos : Z) : list Z :=
  alter (λ x, Z.lor x (Z.shiftl 1 (pos mod 8))) (Z.to_nat (pos / 8)) l.

Definition test_bit (l : list Z) (pos : Z) : bool :=
  match l !! Z.to_nat (pos / 8) with
  | Some x => negb (Z.land x (Z.shiftl 1 (pos mod 8)) =? 0)
  | None => false
  end.

Definition bloom_insert (b : BloomFilter) (key : Key) : BloomFilter :=
  let h := double_hash key in
  mkBloom (foldl (λ l i, set_bit l (bit_pos b h i)) (bits b) (seqZ 0 (num_hashes b)))
          (num_bits b) (num_hashes b).

Definition may_contain (b : BloomFilter) (key : Key) : bool :=
  match bits b with
  | [] => false
  | _ =>
      let h := double_hash key in
      forallb (λ i, test_bit (bits b) (bit_pos b h i)) (seqZ 0 (num_hashes b))
  end.

Definition bloom_to_bytes (b : BloomFilter) : list Z :=
  le_bytes 4 (num_hashes b) ++ le_bytes 4 (num_bits b mod 2 ^ 32) ++ bits b.

Definition bloom_from_bytes (data : list Z) : option BloomFilter :=
  if (length data <? 8)%nat then None else
  let nh := le_value (take 4 data) in
  let nb := le_value (take 4 (drop 4 data)) in
  let num_bytes := Z.to_nat ((nb + 7) / 8) in
  if (length data <? 8 + num_bytes)%nat then None else
  Some (mkBloom (take num_bytes (drop 8 data)) nb nh).

(** ** No false negatives *)

(** Shape of the filters built by [bloom_new] and [bloom_insert]: at least one
    byte, and eight bits per byte. *)
Definition bloom_ok (b : BloomFilter) : Prop :=
  0 < num_bits b ∧ num_bits b = 8 * Z.of_nat (length (bits b)).

Lemma test_bit_testbit x m :
  0 ≤ m → negb (Z.land x (Z.shiftl 1 m) =? 0) = Z.testbit x m.
Proof.
  intros Hm. rewrite Z.shiftl_1_l. destruct (Z.eqb_spec (Z.land x (2 ^ m)) 0) as [E|E].
  - apply (f_equal (λ y, Z.testbit y m)) in E.
    rewrite Z.land_spec, Z.bits_0, Z.pow2_bits_true, andb_true_r in E by done.
    by rewrite E.
  - simpl. symmetry. apply not_false_is_true. intros Ht. apply E.
    apply Z.bits_inj'. intros n Hn. rewrite Z.land_spec, Z.bits_0.
    destruct (decide (n = m)) as [->|]; [by rewrite Ht|].
    rewrite Z.pow2_bits_false by done. apply andb_false_r.
Qed.

Lemma length_set_bit l pos : length (set_bit l pos) = length l.
Proof. apply length_alter. Qed.

Lemma test_set_bit_same l pos :
  0 ≤ pos < 8 * Z.of_nat (length l) → test_bit (set_bit l pos) pos = true.
Proof.
  intros Hp. unfold test_bit, set_bit.
  assert (0 ≤ pos / 8 < Z.of_nat (length l)).
  { split; [apply Z.div_pos; lia|]. apply Z.div_lt_upper_bound; lia. }
  destruct (lookup_lt_is_Some_2 l (Z.to_nat (pos / 8))) as [x Hx]; [lia|].
  rewrite list_lookup_alter_eq, Hx. simpl.
  pose proof (Z.mod_pos_bound pos 8 ltac:(lia)).
  rewrite test_bit_testbit by lia. rewrite Z.lor_spec, Z.shiftl_1_l.
  rewrite Z.pow2_bits_true by lia. apply orb_true_r.
Qed.

Lemma test_set_bit_mono l pos pos' :
  test_bit l pos = true → test_bit (set_bit l pos') pos = true.
Proof.
  unfold test_bit, set_bit. intros H.
  destruct (decide (Z.to_nat (pos' / 8) = Z.to_nat (pos / 8))) as [E|E].
  - rewrite E, list_lookup_alter_eq.
    destruct (l !! Z.to_nat (pos / 8)) as [x|]; [|done]. simpl.
    pose proof (Z.mod_pos_bound pos 8 ltac:(lia)).
    rewrite test_bit_testbit in * by lia. by rewrite Z.lor_spec, H.
  - by rewrite list_lookup_alter_ne.
Qed.

Lemma foldl_set_bit_mono ps l pos :
  test_bit l pos = true → test_bit (foldl set_bit l ps) pos = true.
Proof.
  revert l. induction ps as [|p ps IH]; intros l H; [done|].
  apply IH, test_set_bit_mono, H.
Qed.

Lemma length_foldl_set_bit ps l : length (foldl set_bit l ps) = length l.
Proof.
  revert l. induction ps as [|p ps IH]; intros l; [done|]. simpl.
  by rewrite IH, length_set_bit.
Qed.

Lemma foldl_set_bit_test ps l p :
  p ∈ ps → 0 ≤ p < 8 * Z.of_nat (length l) →
  test_bit (foldl set_bit l ps) p = true.
Proof.
  revert l. induction ps as [|q ps IH]; intros l Hin Hp; [set_solver|].
  simpl. apply elem_of_cons in Hin as [->|Hin].
  - apply foldl_set_bit_mono. by apply test_set_bit_same.
  - apply IH; [done|]. by rewrite length_set_bit.
Qed.

Lemma bloom_insert_bits b key :
  bits (bloom_insert b key) =
  foldl set_bit (bits b) (bit_pos b (double_hash key) <$> seqZ 0 (num_hashes b)).
Proof.
  simpl. generalize (seqZ 0 (num_hashes b)), (bits b).
  intros js. induction js as [|i js IH]; intros l; [done|]. apply IH.
Qed.

Lemma bloom_insert_ok b key : bloom_ok b → bloom_ok (bloom_insert b key).
Proof.
  unfold bloom_ok. rewrite bloom_insert_bits, length_foldl_set_bit. done.
Qed.

Lemma bit_pos_range b h i : 0 < num_bits b → 0 ≤ bit_pos b h i < num_bits b.
Proof. intros. by apply Z.mod_pos_bound. Qed.

Lemma may_contain_all b key :
  bits b ≠ [] →
  may_contain b key = true ↔
  ∀ i, i ∈ seqZ 0 (num_hashes b) → test_bit (bits b) (bit_pos b (double_hash key) i) = true.
Proof.
  unfold may_contain. intros Hb. destruct (bits b) eqn:E; [done|].
  rewrite forallb_forall. setoid_rewrite <-list_elem_of_In. done.
Qed.

Lemma bloom_ok_bits b : bloom_ok b → bits b ≠ [].
Proof. intros [H1 H2] E. rewrite E in H2. simpl in H2. lia. Qed.

(** Membership is monotone under insertion, and holds for the inserted key. *)
Lemma may_contain_insert b key key' :
  bloom_ok b → may_contain b key' = true ∨ key' = key →
  may_contain (bloom_insert b key) key' = true.
Proof.
  intros Hok H. apply may_contain_all; [by apply bloom_ok_bits, bloom_insert_ok|].
  intros i Hi. change (num_hashes (bloom_insert b key)) with (num_hashes b) in Hi.
  change (bit_pos (bloom_insert b key)) with (bit_pos b).
  rewrite bloom_insert_bits. destruct H as [H | ->].
  - apply foldl_set_bit_mono.
    by apply (proj1 (may_contain_all b key' (bloom_ok_bits b Hok)) H i Hi).
  - apply foldl_set_bit_test.
    + apply list_elem_of_fmap. by exists i.
    + destruct Hok as [Hp Hl]. rewrite <-Hl. by apply bit_pos_range.
Qed.

Lemma bloom_new_ok num_keys bpk :
  0 ≤ num_keys → 0 ≤ bpk → bloom_ok (bloom_new num_keys bpk).
Proof.
  intros. unfold bloom_ok, bloom_new. cbn [num_bits bits].
  set (nb := Z.max _ 64). assert (64 ≤ nb) by lia.
  assert (0 < (nb + 7) / 8) by (apply Z.div_str_pos; lia).
  unfold zeroes. rewrite length_replicate. lia.
Qed.

Lemma foldl_bloom_insert_ok ks b :
  bloom_ok b → bloom_ok (foldl bloom_insert b ks).
Proof. revert b. induction ks; intros b Hb; [done|]. simpl. by auto using bloom_insert_ok. Qed.

Lemma foldl_bloom_insert_contains ks b key :
  bloom_ok b → may_contain b key = true ∨ key ∈ ks →
  may_contain (foldl bloom_insert b ks) key = true.
Proof.
  revert b. induction ks as [|k ks IH]; intros b Hb H; simpl.
  { destruct H as [H|H]; [done|]. by apply elem_of_nil in H. }
  apply IH; [by apply bloom_insert_ok|].
  rewrite elem_of_cons in H.
  destruct H as [H|[->|H]]; [left|left|by right]; apply may_contain_insert; auto.
Qed.

Lemma bloom_fields ks b :
  num_bits (foldl bloom_insert b ks) = num_bits b ∧
  num_hashes (foldl bloom_insert b ks) = num_hashes b.
Proof. revert b. induction ks as [|k ks IH]; intros b; [done|]. simpl. apply (IH (bloom_insert b k)). Qed.

(** Serialization: the two 32-bit fields and the bit array. *)
Lemma bloom_roundtrip_gen b :
  bloom_ok b → num_bits b < 2 ^ 32 → 0 ≤ num_hashes b < 2 ^ 32 →
  bloom_from_bytes (bloom_to_bytes b) = Some b.
Proof.
  intros [H1 H2] H3 H4. destruct b as [bs nb nh]. cbn [bits num_bits num_hashes] in *.
  unfold bloom_from_bytes, bloom_to_bytes. cbn [bits num_bits num_hashes].
  rewrite !length_app, !length_le_bytes.
  destruct (Nat.ltb_spec (4 + (4 + length bs)) 8); [lia|].
  rewrite take_app_length', drop_app_length' by (by rewrite length_le_bytes).
  rewrite take_app_length' by (by rewrite length_le_bytes).
  rewrite (Z.mod_small nb) by lia.
  rewrite !le_value_bytes by (change (256 ^ Z.of_nat 4) with (2 ^ 32); lia).
  assert ((nb + 7) / 8 = Z.of_nat (length bs)) as ->.
  { subst nb. symmetry. apply (Z.div_unique_pos _ _ _ 7); lia. }
  rewrite Nat2Z.id.
  destruct (Nat.ltb_spec (4 + (4 + length bs)) (8 + length bs)); [lia|].
  rewrite (assoc_L (++)).
  rewrite drop_app_length' by (by rewrite length_app, !length_le_bytes).
  by rewrite take_ge.
Qed.
