(* ===== verification/LsmSstable.v ===== *)
(** * SSTable files: fence index, writer and reader

    [fence.rs], [sstable/writer.rs] and [sstable/reader.rs] of
    [crates/dugite-lsm/src]. A data file is the concatenation of the encoded
    pages; the fence index holds the first key and the byte offset of each
    page. *)

From S2P Require Import Prelude Order Bytes LsmPage LsmBloom.
Local Open Scope nat_scope.

(** ** Fence index *)

Record FenceEntry := mkFence { first_key : Key; page_offset : nat }.

Abbreviation FenceIndex := (list FenceEntry).

Definition fence_add (f : FenceIndex) (key : Key) (off : nat) : FenceIndex :=
  f ++ [mkFence key off].

Definition fence_search (f : FenceIndex) (key : Key) : result nat nat :=
  binary_search_by (λ e, slice_cmp (first_key e) key) f.

Definition find_page (f : FenceIndex) (key : Key) : option nat :=
  if decide (f = []) then None else
  match fence_search f key with
  | Ok idx => page_offset <$> f !! idx
  | Err 0 => None
  | Err (S idx) => page_offset <$> f !! idx
  end.

Definition find_pages_in_range (f : FenceIndex) (from to : Key) : list nat :=
  if decide (f = []) then [] else
  let start_idx := match fence_search f from with
                   | Ok idx => idx
                   | Err 0 => 0
                   | Err (S idx) => idx
                   end in
  match fence_search f to with
  | Err 0 => []
  | Ok end_idx | Err (S end_idx) =>
      page_offset <$> take (S end_idx - start_idx) (drop start_idx f)
  end.

Section fence_codec.
Context {CR : Crates}.

Definition fence_entry_bytes (e : FenceEntry) : list Z :=
  bo_write 2 (as_u16 (length (first_key e))) ++ first_key e ++
  bo_write 8 (Z.of_nat (page_offset e)).

Definition fence_to_bytes (f : FenceIndex) : list Z :=
  bo_write 4 (as_u32 (length f)) ++ mjoin (fence_entry_bytes <$> f).

Fixpoint fence_read_entries (n : nat) (r : list Z) : lsm_result FenceIndex :=
  match n with
  | O => Ok []
  | S n' =>
      '(key_len, r) ← bo_read 2 r;
      '(key_buf, r) ← read_exact (Z.to_nat key_len) r;
      '(off, r) ← bo_read 8 r;
      es ← fence_read_entries n' r;
      Ok (mkFence key_buf (Z.to_nat off) :: es)
  end.

Definition fence_from_bytes (data : list Z) : lsm_result FenceIndex :=
  '(entry_count, r) ← bo_read 4 data;
  fence_read_entries (Z.to_nat entry_count) r.

End fence_codec.

(** ** Writer *)

(** Loop state of [write_sstable]. *)
Record writer := mkWriter {
  w_file : list Z;
  w_fence : FenceIndex;
  w_bloom : BloomFilter;
  w_page : list entry;
  w_size : nat;
  w_offset : nat;
  w_count : nat;
}.

Record WriteResult := mkWriteResult {
  wr_data : list Z;
  wr_fence : FenceIndex;
  wr_bloom : BloomFilter;
  wr_entry_count : nat;
  wr_page_count : nat;
}.

Section sstable.
Context {CR : Crates}.

(** The page flush of the loop body and of the end of the function. *)
Definition flush_page (page_size : nat) (w : writer) : writer :=
  match w_page w with
  | [] => w
  | (k0, _) :: _ =>
      let encoded := page_encode (mkPage (w_page w)) page_size in
      mkWriter (w_file w ++ encoded) (fence_add (w_fence w) k0 (w_offset w))
        (w_bloom w) [] 0 (w_offset w + length encoded) (w_count w + 1)
  end.

Definition write_entry (page_size : nat) (w : writer) (e : entry) : writer :=
  let data_capacity := page_size - PAGE_HEADER_SIZE in
  let w := if (data_capacity <? w_size w + entry_size e) then flush_page page_size w else w in
  mkWriter (w_file w) (w_fence w) (bloom_insert (w_bloom w) e.1)
    (w_page w ++ [e]) (w_size w + entry_size e) (w_offset w) (w_count w).

Definition write_sstable (entries : list entry) (page_size bloom_bits_per_key : nat) : WriteResult :=
  let w0 := mkWriter [] [] (bloom_new (Z.of_nat (length entries)) (Z.of_nat bloom_bits_per_key))
              [] 0 0 0 in
  let w := flush_page page_size (foldl (write_entry page_size) w0 entries) in
  mkWriteResult (w_file w) (w_fence w) (w_bloom w) (length entries) (w_count w).

(** ** Reader *)

(** [u32::from_le_bytes([buf[2], buf[3], buf[4], buf[5]])] *)
Definition peek_data_end (buf : list Z) : nat :=
  Z.to_nat (le_value (take 4 (drop 2 buf))).

Definition read_page (page_size : nat) (file : list Z) (offset : nat) : lsm_result Page :=
  '(buf, rest) ← read_exact page_size (drop offset file);
  buf ← (if (PAGE_HEADER_SIZE <=? length buf) then
           let data_end := peek_data_end buf in
           if (length buf <? data_end) then
             '(extra, _) ← read_exact (data_end - length buf) rest;
             Ok (buf ++ extra)
           else Ok buf
         else Ok buf);
  page_decode buf.

(** The loop of [read_all_pages]; the offset grows by at least [page_size], so
    [file_len] turns are enough when [page_size] is positive. *)
Fixpoint read_pages_loop (fuel page_size : nat) (file : list Z) (offset : nat) :
    lsm_result (list Page) :=
  match fuel with
  | O => Ok []
  | S fuel' =>
      if (length file <=? offset) then Ok [] else
      let remaining := length file - offset in
      let read_size := remaining `min` page_size in
      '(buf, rest) ← read_exact read_size (drop offset file);
      if (length buf <? PAGE_HEADER_SIZE) then Ok [] else
      let data_end := peek_data_end buf in
      buf ← (if (length buf <? data_end) then
               '(extra, _) ← read_exact (data_end - length buf) rest;
               Ok (buf ++ extra)
             else Ok buf);
      page ← page_decode buf;
      let actual_size := length buf `max` page_size in
      let aligned_size := div_ceil actual_size page_size * page_size in
      pages ← read_pages_loop fuel' page_size file (offset + aligned_size);
      Ok (page :: pages)
  end.

Definition read_all_pages (page_size : nat) (file : list Z) : lsm_result (list Page) :=
  read_pages_loop (length file) page_size file 0.

End sstable.

(** ** The layout written by [write_sstable] *)

Section layout.
Context {CR : Crates} {CROK : CratesOk}.
Context (ps : nat).

(** Contents of the data file and of the fence index for a list of pages. *)
Definition file_of (pages : list (list entry)) : list Z :=
  mjoin ((λ p, page_encode (mkPage p) ps) <$> pages).

Fixpoint fence_of (off : nat) (pages : list (list entry)) : FenceIndex :=
  match pages with
  | [] => []
  | p :: pages' =>
      match p with
      | [] => fence_of off pages'
      | (k, _) :: _ => mkFence k off :: fence_of (off + page_len p ps) pages'
      end
  end.

(** A page is within the capacity, or holds a single oversized entry. *)
Definition page_fits (p : list entry) : Prop :=
  page_data_size p ≤ ps - PAGE_HEADER_SIZE ∨ length p ≤ 1.

Lemma file_of_app p1 p2 : file_of (p1 ++ p2) = file_of p1 ++ file_of p2.
Proof. unfold file_of. by rewrite fmap_app, join_app. Qed.

Lemma file_of_cons p pages :
  file_of (p :: pages) = page_encode (mkPage p) ps ++ file_of pages.
Proof. done. Qed.

Lemma file_of_one p : file_of [p] = page_encode (mkPage p) ps.
Proof. rewrite file_of_cons. apply app_nil_r. Qed.

Lemma fence_of_app off p1 p2 :
  Forall (λ p, p ≠ []) p1 →
  fence_of off (p1 ++ p2) = fence_of off p1 ++ fence_of (off + length (file_of p1)) p2.
Proof.
  intros H. revert off. induction H as [|p p1 Hp H IH]; intros off.
  { simpl. by rewrite Nat.add_0_r. }
  destruct p as [|[k v] p]; [done|].
  cbn [app fence_of]. rewrite IH. f_equal. f_equal. rewrite file_of_cons, length_app.
  rewrite length_page_encode, Nat.add_assoc. done.
Qed.

Record writer_inv (b0 : BloomFilter) (seen : list entry) (done_ : list (list entry)) (w : writer) : Prop := {
  wi_file : w_file w = file_of done_;
  wi_fence : w_fence w = fence_of 0 done_;
  wi_bloom : w_bloom w = foldl bloom_insert b0 seen.*1;
  wi_size : w_size w = page_data_size (w_page w);
  wi_offset : w_offset w = length (file_of done_);
  wi_count : w_count w = length done_;
  wi_nonempty : Forall (λ p, p ≠ []) done_;
  wi_fits : Forall page_fits done_;
  wi_page_fits : page_fits (w_page w);
  wi_seen : mjoin done_ ++ w_page w = seen;
}.

Lemma flush_page_inv b0 seen done_ w :
  writer_inv b0 seen done_ w →
  ∃ done', writer_inv b0 seen done' (flush_page ps w) ∧ w_page (flush_page ps w) = [].
Proof.
  intros [Hf Hfe Hb Hs Ho Hc Hn Hfi Hpf Hse]. unfold flush_page.
  destruct (w_page w) as [|[k v] p] eqn:Hp.
  { exists done_. split; [|done]. split; try done.
    - by rewrite Hp.
    - by rewrite Hp.
    - by rewrite Hp. }
  exists (done_ ++ [(k, v) :: p]). split; [|done]. split; cbn [w_file w_fence w_bloom w_page w_size w_offset w_count].
  - by rewrite Hf, file_of_app, file_of_one.
  - unfold fence_add. rewrite fence_of_app by done. cbn [fence_of].
    by rewrite Hfe, Ho.
  - done.
  - done.
  - by rewrite Ho, file_of_app, file_of_one, length_app.
  - rewrite Hc, length_app. done.
  - apply Forall_app; split; [done|]. by apply Forall_singleton.
  - apply Forall_app; split; [done|]. by apply Forall_singleton.
  - right. simpl. lia.
  - rewrite join_app. simpl. by rewrite !app_nil_r in *.
Qed.

Lemma page_data_size_snoc p e : page_data_size (p ++ [e]) = page_data_size p + entry_size e.
Proof. unfold page_data_size. rewrite sum_list_with_app. cbn [sum_list_with]. lia. Qed.

Lemma write_entry_inv b0 seen done_ w e :
  writer_inv b0 seen done_ w →
  ∃ done', writer_inv b0 (seen ++ [e]) done' (write_entry ps w e).
Proof.
  intros Hinv.
  assert (∃ done' w', writer_inv b0 seen done' w' ∧
    (w_page w' = [] ∨ w_size w' + entry_size e ≤ ps - PAGE_HEADER_SIZE) ∧
    write_entry ps w e =
      mkWriter (w_file w') (w_fence w') (bloom_insert (w_bloom w') e.1)
        (w_page w' ++ [e]) (w_size w' + entry_size e) (w_offset w') (w_count w'))
    as (done' & w' & [Hf Hfe Hb Hs Ho Hc Hn Hfi Hpf Hse] & Hcap & ->).
  { unfold write_entry. destruct (Nat.ltb_spec (ps - PAGE_HEADER_SIZE) (w_size w + entry_size e)).
    - destruct (flush_page_inv _ _ _ _ Hinv) as (done' & Hinv' & Hp').
      exists done', (flush_page ps w). eauto.
    - exists done_, w. split_and!; [done| |done]. right. lia. }
  exists done'. split; cbn [w_file w_fence w_bloom w_page w_size w_offset w_count]; try done.
  - rewrite fmap_app, foldl_app. simpl. by rewrite Hb.
  - by rewrite page_data_size_snoc, Hs.
  - unfold page_fits. rewrite page_data_size_snoc, <-Hs, length_app. simpl.
    destruct Hcap as [Hcap|Hcap]; [right|left; lia]. by rewrite Hcap.
  - by rewrite app_assoc, Hse.
Qed.

Lemma write_entries_inv b0 es seen done_ w :
  writer_inv b0 seen done_ w →
  ∃ done', writer_inv b0 (seen ++ es) done' (foldl (write_entry ps) w es).
Proof.
  revert seen done_ w. induction es as [|e es IH]; intros seen done_ w Hw.
  { exists done_. by rewrite app_nil_r. }
  destruct (write_entry_inv _ _ _ _ e Hw) as (done1 & Hw1).
  destruct (IH _ _ _ Hw1) as (done2 & Hw2). exists done2.
  by rewrite <-app_assoc in Hw2.
Qed.

(** The file written for [entries] is a sequence of non-empty pages that
    concatenate to [entries]; fence and filter match. *)
Lemma write_sstable_layout entries bpk :
  ∃ pages,
    mjoin pages = entries ∧ Forall (λ p, p ≠ []) pages ∧ Forall page_fits pages ∧
    write_sstable entries ps bpk =
      mkWriteResult (file_of pages) (fence_of 0 pages)
        (foldl bloom_insert
           (bloom_new (Z.of_nat (length entries)) (Z.of_nat bpk)) entries.*1)
        (length entries) (length pages).
Proof.
  unfold write_sstable.
  set (b0 := bloom_new _ _). set (w0 := mkWriter [] [] b0 [] 0 0 0).
  assert (writer_inv b0 [] [] w0) as H0.
  { split; try done. right. simpl. lia. }
  destruct (write_entries_inv b0 entries [] [] w0 H0) as (d1 & H1).
  destruct (flush_page_inv _ _ _ _ H1) as (d2 & [Hf Hfe Hb Hs Ho Hc Hn Hfi Hpf Hse] & Hp).
  exists d2. simpl in Hse. rewrite Hp, app_nil_r in Hse. split_and!; try done.
  by rewrite Hf, Hfe, Hb, Hc.
Qed.

(** ** Reading the layout back *)

(** Page sizes for which the entry count of a full page fits its 16-bit field:
    an entry takes at least three bytes. *)
Definition page_size_ok : Prop :=
  PAGE_HEADER_SIZE < ps ∧ (Z.of_nat ps ≤ 3 * 65535 + 10)%Z.

(** Entries that fit a page of their own: the key length fits 16 bits and the
    whole page 32 bits. *)
Definition entry_fits (e : entry) : Prop :=
  (Z.of_nat (length e.1) < 2 ^ 16)%Z ∧
  (Z.of_nat (PAGE_HEADER_SIZE + entry_size e) < 2 ^ 32)%Z.

Lemma entry_fits_ok e : entry_fits e → entry_ok e.
Proof.
  intros [H1 H2]. split; [done|]. destruct (e.2) as [v|] eqn:Ev; [|done].
  unfold entry_size in H2. rewrite Ev in H2. lia.
Qed.

Lemma page_data_size_len es : 3 * length es ≤ page_data_size es.
Proof.
  induction es as [|e es IH]; [done|]. unfold page_data_size in *.
  cbn [length sum_list_with]. assert (3 ≤ entry_size e) by (unfold entry_size; lia). lia.
Qed.

Lemma page_fits_ok p :
  page_size_ok → page_fits p → Forall entry_fits p → page_ok p.
Proof.
  intros [Hps1 Hps2] Hfit He. split_and!.
  - eapply Forall_impl; [done|]. apply entry_fits_ok.
  - pose proof (page_data_size_len p).
    destruct Hfit; unfold PAGE_HEADER_SIZE in *; lia.
  - destruct Hfit as [Hfit|Hfit]; [unfold PAGE_HEADER_SIZE in *; lia|].
    destruct p as [|e [|??]]; simpl in Hfit; [|..|lia].
    + unfold page_data_size, PAGE_HEADER_SIZE. simpl. lia.
    + inversion He as [|?? [_ H2]]; subst. unfold page_data_size. simpl.
      by rewrite Nat.add_0_r.
Qed.

Lemma peek_payload p pad :
  page_ok p →
  peek_data_end (take ps (page_payload p ++ pad)) = PAGE_HEADER_SIZE + page_data_size p ∨
  ps < 6.
Proof.
  intros (_ & _ & Hd). destruct (decide (ps < 6)); [by right|left].
  unfold peek_data_end. rewrite skipn_firstn_comm, take_take.
  replace (4 `min` (ps - 2)) with 4 by lia.
  unfold page_payload. rewrite <-app_assoc.
  rewrite drop_app_length' by (by rewrite length_bo_write by auto with dugite).
  rewrite <-app_assoc.
  rewrite take_app_length' by (by rewrite length_bo_write by auto with dugite).
  rewrite bo_write_le, le_value_bytes by auto with dugite.
  by rewrite as_u32_small, Nat2Z.id.
Qed.

(** The two-step read of a page (a page-size read, then the rest of a jumbo
    page) returns a buffer that decodes to the page. *)
Lemma read_page_buf p rest :
  page_size_ok → page_ok p →
  ∃ buf rest',
    read_exact ps (page_encode (mkPage p) ps ++ rest) = Ok (take ps (page_encode (mkPage p) ps ++ rest), rest') ∧
    peek_data_end (take ps (page_encode (mkPage p) ps ++ rest)) = PAGE_HEADER_SIZE + page_data_size p ∧
    (if ps <? PAGE_HEADER_SIZE + page_data_size p then
       '(extra, _) ← read_exact (PAGE_HEADER_SIZE + page_data_size p - ps) rest';
       Ok (take ps (page_encode (mkPage p) ps ++ rest) ++ extra)
     else Ok (take ps (page_encode (mkPage p) ps ++ rest))) = (Ok buf : lsm_result (list Z)) ∧
    length buf = ps `max` (PAGE_HEADER_SIZE + page_data_size p) ∧
    page_decode buf = Ok (mkPage p).
Proof.
  intros [Hps1 Hps2] Hok.
  set (n := PAGE_HEADER_SIZE + page_data_size p).
  set (file := page_encode (mkPage p) ps ++ rest).
  assert (ps ≤ page_len p ps ∧ n ≤ page_len p ps) as [Hl1 Hl2].
  { split; [|apply page_len_ge; lia]. unfold page_len. fold n.
    destruct (Nat.leb_spec n ps); [done|].
    pose proof (div_ceil_mul_ge n ps ltac:(lia)). lia. }
  assert (length file = page_len p ps + length rest) as Hfl.
  { unfold file. by rewrite length_app, length_page_encode. }
  assert (∃ pad, file = page_payload p ++ pad) as [pad Hpad].
  { unfold file. rewrite page_encode_payload by lia. eexists. by rewrite <-app_assoc. }
  assert (take ps file ++ take (n - ps) (drop ps file) = take (ps `max` n) file) as Htake.
  { destruct (decide (n ≤ ps)).
    - replace (n - ps) with 0 by lia. rewrite take_0, app_nil_r. f_equal. lia.
    - rewrite take_take_drop. f_equal. lia. }
  exists (take (ps `max` n) file), (drop ps file). split_and!.
  - unfold read_exact. destruct (Nat.ltb_spec (length file) ps); [lia|done].
  - rewrite Hpad. destruct (peek_payload p pad Hok) as [H|H]; [done|].
    unfold PAGE_HEADER_SIZE in Hps1. lia.
  - destruct (Nat.ltb_spec ps n).
    + unfold read_exact. rewrite length_drop.
      destruct (Nat.ltb_spec (length file - ps) (n - ps)); [lia|].
      cbn [mbind result_bind]. by rewrite Htake.
    + do 2 f_equal. lia.
  - rewrite length_take. lia.
  - rewrite Hpad, take_app_ge by (rewrite length_page_payload; fold n; lia).
    by apply page_decode_payload.
Qed.

Lemma read_page_file pre p rest :
  page_size_ok → page_ok p →
  read_page ps (pre ++ page_encode (mkPage p) ps ++ rest) (length pre) = Ok (mkPage p).
Proof.
  intros Hps Hok. unfold read_page. rewrite drop_app_length.
  destruct (read_page_buf p rest Hps Hok) as (buf & rest' & Hr & Hpk & Hb & Hlen & Hd).
  rewrite Hr. cbn [mbind result_bind].
  assert (length (take ps (page_encode (mkPage p) ps ++ rest)) = ps) as Hl.
  { unfold read_exact in Hr. destruct (Nat.ltb_spec (length (page_encode (mkPage p) ps ++ rest)) ps); [done|].
    rewrite length_take. lia. }
  rewrite Hl. destruct Hps as [Hps1 Hps2].
  destruct (Nat.leb_spec PAGE_HEADER_SIZE ps); [|lia].
  rewrite Hpk, Hb. done.
Qed.

Lemma aligned_size_page_len p :
  0 < ps →
  div_ceil (ps `max` (PAGE_HEADER_SIZE + page_data_size p) `max` ps) ps * ps = page_len p ps.
Proof.
  intros Hps. unfold page_len.
  destruct (Nat.leb_spec (PAGE_HEADER_SIZE + page_data_size p) ps).
  - replace (_ `max` _ `max` _) with ps by lia. unfold div_ceil.
    rewrite Nat.div_same, Nat.Div0.mod_same by lia. simpl. lia.
  - by replace (_ `max` _ `max` _) with (PAGE_HEADER_SIZE + page_data_size p) by lia.
Qed.

Lemma read_pages_loop_file fuel pre pages :
  page_size_ok → Forall page_ok pages → length (file_of pages) ≤ fuel →
  read_pages_loop fuel ps (pre ++ file_of pages) (length pre) = Ok (mkPage <$> pages).
Proof.
  intros Hps. revert fuel pre. induction pages as [|p pages IH]; intros fuel pre Hok Hfuel.
  { destruct fuel; [done|]. cbn [read_pages_loop]. unfold file_of. simpl. rewrite app_nil_r.
    by rewrite Nat.leb_refl. }
  apply Forall_cons_1 in Hok as [Hp Hok].
  rewrite file_of_cons in *. rewrite length_app, length_page_encode in Hfuel.
  pose proof (page_len_ge p ps) as Hpl. destruct Hps as [Hps1 Hps2].
  unfold PAGE_HEADER_SIZE in Hps1, Hpl.
  destruct fuel as [|fuel]; [lia|]. cbn [read_pages_loop].
  rewrite length_app, length_app, length_page_encode.
  destruct (Nat.leb_spec (length pre + (page_len p ps + length (file_of pages))) (length pre)); [lia|].
  rewrite drop_app_length.
  destruct (read_page_buf p (file_of pages)) as (buf & rest' & Hr & Hpk & Hb & Hlen & Hd); [done|done|].
  assert (ps ≤ page_len p ps) as Hge.
  { unfold page_len. destruct (Nat.leb_spec (PAGE_HEADER_SIZE + page_data_size p) ps); [done|].
    pose proof (div_ceil_mul_ge (PAGE_HEADER_SIZE + page_data_size p) ps). lia. }
  replace ((length pre + (page_len p ps + length (file_of pages)) - length pre) `min` ps) with ps by lia.
  rewrite Hr. cbn [mbind result_bind].
  assert (length (take ps (page_encode (mkPage p) ps ++ file_of pages)) = ps) as ->.
  { rewrite length_take, length_app, length_page_encode. lia. }
  destruct (Nat.ltb_spec ps PAGE_HEADER_SIZE) as [Hx|_]; [unfold PAGE_HEADER_SIZE in Hx; lia|].
  rewrite Hpk, Hb. cbn [mbind result_bind]. rewrite Hd. cbn [mbind result_bind].
  rewrite Hlen, aligned_size_page_len by lia.
  replace (length pre + page_len p ps) with (length (pre ++ page_encode (mkPage p) ps))
    by (by rewrite length_app, length_page_encode).
  rewrite app_assoc, IH by (done || lia). done.
Qed.

Lemma read_all_pages_file pages :
  page_size_ok → Forall page_ok pages →
  read_all_pages ps (file_of pages) = Ok (mkPage <$> pages).
Proof. intros. unfold read_all_pages. by apply (read_pages_loop_file _ []). Qed.

End layout.

(** ** Searching the fence of a sorted file *)

Definition head_key (p : list entry) : Key := from_option fst [] (head p).

Section fence_proofs.
Context {CR : Crates} {CROK : CratesOk}.
Context (ps : nat) (pages : list (list entry)).
Context (Hne : Forall (λ p, p ≠ []) pages) (Hsorted : strict_sorted (mjoin pages)).

Lemma fence_of_lookup off pgs i p :
  Forall (λ p, p ≠ []) pgs → pgs !! i = Some p →
  fence_of ps off pgs !! i = Some (mkFence (head_key p) (off + length (file_of ps (take i pgs)))).
Proof.
  intros H. revert off i. induction H as [|q pgs Hq H IH]; intros off i Hi; [done|].
  destruct q as [|[k v] q]; [done|]. cbn [fence_of]. destruct i as [|i].
  - simpl in Hi. simplify_eq. simpl. do 2 f_equal. lia.
  - simpl in Hi. rewrite lookup_cons, (IH _ _ Hi). cbn [take]. rewrite file_of_cons.
    rewrite length_app, length_page_encode. do 2 f_equal. lia.
Qed.

Lemma length_fence_of off pgs :
  Forall (λ p, p ≠ []) pgs → length (fence_of ps off pgs) = length pgs.
Proof.
  intros H. revert off. induction H as [|q pgs Hq H IH]; intros off; [done|].
  destruct q as [|[k v] q]; [done|]. simpl. by rewrite IH.
Qed.

Lemma fence_of_inv i e :
  fence_of ps 0 pages !! i = Some e →
  ∃ p, pages !! i = Some p ∧ first_key e = head_key p ∧
       page_offset e = length (file_of ps (take i pages)).
Proof.
  intros H. pose proof (lookup_lt_Some _ _ _ H) as Hi.
  rewrite length_fence_of in Hi by done.
  destruct (lookup_lt_is_Some_2 _ _ Hi) as [p Hp]. exists p.
  rewrite (fence_of_lookup 0 pages i p Hne Hp) in H. simplify_eq. done.
Qed.

(** Keys of an earlier page are below the first key of a later one, and the
    first key of a page is its least. *)
Lemma page_keys_lt i j pi pj k :
  i < j → pages !! i = Some pi → pages !! j = Some pj → k ∈ pi.*1 →
  key_lt k (head_key pj).
Proof.
  intros Hij Hi Hj Hk.
  pose proof (Forall_lookup_1 _ _ _ _ Hne Hj) as Hpj. simpl in Hpj.
  destruct pj as [|[kj vj] pj]; [done|]. simpl.
  rewrite <-(take_drop_middle pages j _ Hj), join_app in Hsorted.
  apply strict_sorted_app in Hsorted as (_ & _ & H). apply H.
  - apply list_elem_of_fmap in Hk as (e & -> & He).
    apply list_elem_of_fmap. exists e. split; [done|].
    apply list_elem_of_join. exists pi. split; [done|].
    apply list_elem_of_lookup. exists i. by rewrite lookup_take_lt.
  - simpl. set_solver.
Qed.

Lemma page_keys_ge i pi k :
  pages !! i = Some pi → k ∈ pi.*1 → key_le (head_key pi) k.
Proof.
  intros Hi Hk.
  assert (strict_sorted pi) as Hs.
  { rewrite <-(take_drop_middle pages i _ Hi), join_app in Hsorted.
    apply strict_sorted_app in Hsorted as (_ & H & _). simpl in H.
    by apply strict_sorted_app in H as (H & _). }
  destruct pi as [|[k0 v0] p]; [by apply elem_of_nil in Hk|].
  apply strict_sorted_cons in Hs as [Hs _]. apply key_le_lt_eq. simpl.
  simpl in Hk. apply elem_of_cons in Hk as [->|Hk]; [by right|left].
  rewrite Forall_forall in Hs. by apply Hs.
Qed.

Lemma page_sorted i p : pages !! i = Some p → strict_sorted p.
Proof.
  intros Hi. rewrite <-(take_drop_middle pages i _ Hi), join_app in Hsorted.
  apply strict_sorted_app in Hsorted as (_ & H & _). simpl in H.
  by apply strict_sorted_app in H as (H & _).
Qed.

Lemma fence_search_spec key :
  match fence_search (fence_of ps 0 pages) key with
  | Ok i => ∃ p, pages !! i = Some p ∧ head_key p = key
  | Err i => i ≤ length pages ∧
      (∀ j p, j < i → pages !! j = Some p → key_lt (head_key p) key) ∧
      (∀ j p, i ≤ j → pages !! j = Some p → key_lt key (head_key p))
  end.
Proof.
  unfold fence_search.
  assert (search_sorted (λ e, slice_cmp (first_key e) key) (fence_of ps 0 pages)) as Hss.
  { intros i j x y Hij (pi & Hpi & -> & _)%fence_of_inv (pj & Hpj & -> & _)%fence_of_inv.
    assert (key_lt (head_key pi) (head_key pj)) as Hlt.
    { eapply page_keys_lt; [done..|].
      pose proof (Forall_lookup_1 _ _ _ _ Hne Hpi) as Hn. simpl in Hn.
      destruct pi as [|[k v] pi]; [done|]. simpl. set_solver. }
    destruct (key_trichotomy (head_key pi) key) as [?|[E|?]]; [by left|right|right];
      apply key_gt_lt; [by rewrite <-E|eauto with dugite]. }
  pose proof (binary_search_by_spec _ _ Hss) as H.
  destruct (binary_search_by _ _) as [i|i].
  - destruct H as (x & (p & Hp & Hk & _)%fence_of_inv & Hx%slice_cmp_eq).
    exists p. split; [done|]. congruence.
  - rewrite length_fence_of in H by done. destruct H as (Hi & Hlo & Hhi).
    split_and!; [done| |].
    + intros j p Hj Hp. pose proof (fence_of_lookup 0 pages j p Hne Hp) as Hf.
      apply (Hlo j _ Hj Hf).
    + intros j p Hj Hp. pose proof (fence_of_lookup 0 pages j p Hne Hp) as Hf.
      apply key_gt_lt, (Hhi j _ Hj Hf).
Qed.

(** The page that may hold [key]: its first key is at most [key] and the first
    keys of the later pages are above it. *)
Definition page_for (key : Key) (i : nat) : Prop :=
  (∃ p, pages !! i = Some p ∧ key_le (head_key p) key) ∧
  ∀ j p, i < j → pages !! j = Some p → key_lt key (head_key p).

Lemma fence_search_page_for key :
  match fence_search (fence_of ps 0 pages) key with
  | Ok i | Err (S i) => page_for key i
  | Err 0 => ∀ j p, pages !! j = Some p → key_lt key (head_key p)
  end.
Proof.
  pose proof (fence_search_spec key) as H.
  destruct (fence_search _ key) as [i|[|i]].
  - destruct H as (p & Hp & Hk). split.
    + exists p. split; [done|]. apply key_le_lt_eq. by right.
    + intros j q Hj Hq. rewrite <-Hk. eapply page_keys_lt; [done..|].
      pose proof (Forall_lookup_1 _ _ _ _ Hne Hp) as Hn. simpl in Hn.
      destruct p as [|[k v] p]; [done|]. simpl. set_solver.
  - destruct H as (_ & _ & H). intros j p. apply H. lia.
  - destruct H as (Hi & Hlo & Hhi). split.
    + destruct (lookup_lt_is_Some_2 pages i ltac:(lia)) as [p Hp]. exists p. split; [done|].
      apply key_le_lt_eq. left. apply (Hlo i); [lia|done].
    + intros j p Hj. apply Hhi. lia.
Qed.

Lemma find_page_spec key :
  match find_page (fence_of ps 0 pages) key with
  | None => ∀ j p, pages !! j = Some p → key_lt key (head_key p)
  | Some off => ∃ i, page_for key i ∧ off = length (file_of ps (take i pages))
  end.
Proof.
  unfold find_page. case_decide as Hf.
  { intros j p Hp. apply (fence_of_lookup 0 pages j p Hne) in Hp. by rewrite Hf in Hp. }
  pose proof (fence_search_page_for key) as H.
  destruct (fence_search _ key) as [i|[|i]]; [|done|].
  all: destruct (H) as [(p & Hp & _) _]; rewrite (fence_of_lookup 0 pages i p Hne Hp); simpl; eauto.
Qed.

Lemma assoc_join_None key :
  (∀ j p, pages !! j = Some p → assoc key p = None) → assoc key (mjoin pages) = None.
Proof.
  intros H. apply assoc_None. intros (e & -> & He)%list_elem_of_fmap.
  apply list_elem_of_join in He as (p & Hep & Hp).
  apply list_elem_of_lookup in Hp as [j Hj]. specialize (H j p Hj).
  apply assoc_None in H. apply H, list_elem_of_fmap. eauto.
Qed.

Lemma assoc_before i p key :
  pages !! i = Some p → key_lt key (head_key p) → assoc key p = None.
Proof.
  intros Hi Hlt. apply assoc_None. intros Hk.
  apply (key_lt_irrefl key). eapply key_lt_le_trans; [done|]. by eapply page_keys_ge.
Qed.

(** The lookup of a key in the file is the lookup in the page of the fence. *)
Lemma page_for_assoc key i p :
  page_for key i → pages !! i = Some p → assoc key (mjoin pages) = assoc key p.
Proof.
  intros [(p' & Hp' & Hle) Hgt] Hp. assert (p' = p) as -> by congruence.
  rewrite <-(take_drop_middle pages i p Hp) at 1. rewrite join_app, mjoin_cons.
  rewrite !assoc_app.
  assert (assoc key (mjoin (take i pages)) = None) as ->.
  { apply assoc_None. intros (e & -> & He)%list_elem_of_fmap.
    apply list_elem_of_join in He as (q & Hq & Hin).
    apply list_elem_of_lookup in Hin as [j Hj].
    pose proof (lookup_lt_Some _ _ _ Hj) as Hjl. rewrite length_take in Hjl.
    rewrite lookup_take_lt in Hj by lia.
    apply (key_lt_irrefl e.1). eapply key_lt_le_trans; [|done].
    eapply (page_keys_lt j i); [lia|done|done|]. apply list_elem_of_fmap. eauto. }
  destruct (assoc key p) as [v|] eqn:E; [done|].
  apply assoc_None. intros (e & -> & He)%list_elem_of_fmap.
  apply list_elem_of_join in He as (q & Hq & Hin).
  apply list_elem_of_lookup in Hin as [j Hj]. rewrite lookup_drop in Hj.
  assert (assoc e.1 q = None) as Hn.
  { eapply assoc_before; [done|]. apply (Hgt (S i + j)); [lia|done]. }
  apply assoc_None in Hn. apply Hn, list_elem_of_fmap. eauto.
Qed.

End fence_proofs.
