(* ===== verification/LsmCache.v ===== *)
(** * Block cache ([crates/dugite-lsm/src/cache.rs])

    The clock-sweep cache of decoded pages: the page map with its reference
    bits, the circular key list and the hand. [swap_remove] moves the last key
    into the evicted slot. An index [keys[hand]] out of range would panic; the
    invariant [cache_inv] rules it out and the definitions return the cache
    unchanged there. *)

From S2P Require Import Prelude Order Bytes LsmPage.
Local Open Scope nat_scope.

(** ** Definitions *)

(** [CacheKey { run_id, page_index }] *)
Abbreviation CacheKey := (Z * Z)%type.

Record CacheEntry := mkCacheEntry { ce_page : Page; ce_referenced : bool }.

Record BlockCache := mkCache {
  cmap : gmap CacheKey CacheEntry;
  ckeys : list CacheKey;
  hand : nat;
  capacity : nat;
}.

Definition cache_new (cap : nat) : BlockCache := mkCache ∅ [] 0 cap.

Definition cache_get (c : BlockCache) (key : CacheKey) : option Page * BlockCache :=
  match cmap c !! key with
  | Some e =>
      (Some (ce_page e),
       mkCache (<[key := mkCacheEntry (ce_page e) true]> (cmap c)) (ckeys c) (hand c) (capacity c))
  | None => (None, c)
  end.

Definition swap_remove {A} (i : nat) (l : list A) : list A :=
  match last l with
  | Some x => take (length l - 1) (<[i := x]> l)
  | None => l
  end.

(** [if !keys.is_empty() { hand %= keys.len() } else { hand = 0 }] *)
Definition fix_hand {A} (h : nat) (l : list A) : nat :=
  match l with [] => 0 | _ => h mod length l end.

(** Drop the key under the hand (and its map entry, if any). *)
Definition evict_at (c : BlockCache) (key : CacheKey) : BlockCache :=
  let ks := swap_remove (hand c) (ckeys c) in
  mkCache (delete key (cmap c)) ks (fix_hand (hand c) ks) (capacity c).

(** The sweep of [evict_one], [n] turns left. *)
Fixpoint evict_sweep (n len : nat) (c : BlockCache) : BlockCache :=
  match ckeys c !! hand c with
  | None => c
  | Some key =>
      match n with
      | O => evict_at c key
      | S n' =>
          match cmap c !! key with
          | Some e =>
              if ce_referenced e then
                evict_sweep n' len
                  (mkCache (<[key := mkCacheEntry (ce_page e) false]> (cmap c))
                     (ckeys c) ((hand c + 1) mod len) (capacity c))
              else evict_at c key
          | None => evict_at c key
          end
      end
  end.

Definition evict_one (c : BlockCache) : BlockCache :=
  match ckeys c with
  | [] => c
  | _ => evict_sweep (length (ckeys c) * 2) (length (ckeys c)) c
  end.

(** [while self.map.len() >= self.capacity { self.evict_one() }] *)
Fixpoint evict_while (fuel : nat) (c : BlockCache) : BlockCache :=
  match fuel with
  | O => c
  | S fuel' => if (capacity c <=? size (cmap c)) then evict_while fuel' (evict_one c) else c
  end.

Definition cache_insert (c : BlockCache) (key : CacheKey) (page : Page) : BlockCache :=
  if (capacity c =? 0) then c else
  match cmap c !! key with
  | Some _ =>
      mkCache (<[key := mkCacheEntry page true]> (cmap c)) (ckeys c) (hand c) (capacity c)
  | None =>
      let c := evict_while (size (cmap c)) c in
      mkCache (<[key := mkCacheEntry page true]> (cmap c)) (ckeys c ++ [key]) (hand c) (capacity c)
  end.

Definition invalidate_run (c : BlockCache) (run_id : Z) : BlockCache :=
  let ks := filter (λ k : CacheKey, k.1 ≠ run_id) (ckeys c) in
  mkCache (filter (λ kv : CacheKey * CacheEntry, kv.1.1 ≠ run_id) (cmap c)) ks
    (fix_hand (hand c) ks) (capacity c).

(** ** Invariant *)

(** The key list enumerates the map without repetition, and the hand points
    into it. *)
Record cache_inv (c : BlockCache) : Prop := {
  ci_nodup : NoDup (ckeys c);
  ci_keys k : k ∈ ckeys c ↔ is_Some (cmap c !! k);
  ci_hand : ckeys c = [] ∧ hand c = 0 ∨ hand c < length (ckeys c);
  ci_cap : size (cmap c) ≤ capacity c;
}.

(** The page cached under a key, if any. *)
Definition cached (c : BlockCache) (k : CacheKey) : option Page := ce_page <$> cmap c !! k.

Lemma swap_remove_perm {A} i (x : A) l :
  l !! i = Some x → l ≡ₚ x :: swap_remove i l.
Proof.
  intros Hi. unfold swap_remove.
  destruct l as [|z l] using rev_ind; [done|]. clear IHl.
  rewrite last_snoc, length_app. simpl. replace (length l + 1 - 1) with (length l) by lia.
  destruct (decide (i < length l)) as [Hlt|Hge].
  - rewrite lookup_app_l in Hi by done.
    rewrite insert_app_l by done.
    rewrite take_app_length' by (by rewrite length_insert).
    rewrite insert_take_drop by done.
    rewrite <-(take_drop_middle l i x Hi) at 1.
    rewrite <-app_assoc. simpl. rewrite <-Permutation_middle. constructor.
    rewrite (Permutation_app_comm _ [z]). simpl. by rewrite <-Permutation_middle.
  - assert (i = length l) as ->.
    { apply lookup_lt_Some in Hi. rewrite length_app in Hi. simpl in Hi. lia. }
    rewrite lookup_app_r, Nat.sub_diag in Hi by lia. simpl in Hi. simplify_eq.
    rewrite insert_app_r_alt, Nat.sub_diag by lia. simpl.
    rewrite take_app_length. symmetry. apply Permutation_cons_append.
Qed.

Lemma fix_hand_lt {A} h (l : list A) : l = [] ∧ fix_hand h l = 0 ∨ fix_hand h l < length l.
Proof.
  destruct l as [|x l]; [by left|right]. cbn [fix_hand].
  apply Nat.mod_upper_bound. simpl. lia.
Qed.

Lemma cache_size c : cache_inv c → length (ckeys c) = size (cmap c).
Proof.
  intros [Hnd Hk _ _]. rewrite <-size_dom, <-(size_list_to_set (C:=gset CacheKey) (ckeys c)) by done.
  f_equal. apply set_eq. intros k. rewrite elem_of_list_to_set, Hk, elem_of_dom. done.
Qed.

Lemma evict_at_spec c key :
  cache_inv c → ckeys c !! hand c = Some key →
  cache_inv (evict_at c key) ∧ S (size (cmap (evict_at c key))) = size (cmap c) ∧
  (∀ k p, cached (evict_at c key) k = Some p → cached c k = Some p).
Proof.
  intros Hinv Hkey. pose proof Hinv as [Hnd Hk Hh Hcap].
  pose proof (swap_remove_perm _ _ _ Hkey) as Hp.
  assert (is_Some (cmap c !! key)) as Hin by (apply Hk; by eapply list_elem_of_lookup_2).
  assert (NoDup (key :: swap_remove (hand c) (ckeys c))) as Hnd' by (by rewrite <-Hp).
  apply NoDup_cons in Hnd' as [Hni Hnd'].
  assert (S (size (delete key (cmap c))) = size (cmap c)) as Hsz.
  { rewrite map_size_delete. destruct Hin as [e He]. rewrite He.
    assert (size (cmap c) ≠ 0) by (apply map_size_ne_0_lookup_2 with key; by rewrite He).
    simpl. lia. }
  split_and!.
  - split; simpl.
    + done.
    + intros k. rewrite lookup_delete_is_Some, <-Hk.
      assert (k ∈ ckeys c ↔ k ∈ key :: swap_remove (hand c) (ckeys c)) as -> by (by rewrite Hp at 1).
      rewrite elem_of_cons. split; [|naive_solver].
      intros ?. split; [by intros -> | by right].
    + apply fix_hand_lt.
    + lia.
  - done.
  - intros k p. unfold cached, evict_at. cbn [cmap].
    destruct (decide (key = k)) as [->|]; [by rewrite lookup_delete_eq|by rewrite lookup_delete_ne].
Qed.

Lemma evict_sweep_spec n c :
  cache_inv c → ckeys c ≠ [] →
  let c' := evict_sweep n (length (ckeys c)) c in
  cache_inv c' ∧ S (size (cmap c')) = size (cmap c) ∧ capacity c' = capacity c ∧
  (∀ k p, cached c' k = Some p → cached c k = Some p).
Proof.
  revert c. induction n as [|n IH]; intros c Hinv Hne.
  all: pose proof Hinv as [Hnd Hk Hh Hcap]; destruct Hh as [[Hh _]|Hh]; [done|].
  all: destruct (lookup_lt_is_Some_2 _ _ Hh) as [key Hkey]; cbn [evict_sweep]; rewrite Hkey.
  { pose proof (evict_at_spec c key Hinv Hkey). naive_solver. }
  assert (is_Some (cmap c !! key)) as [e He] by (apply Hk; by eapply list_elem_of_lookup_2).
  rewrite He. destruct (ce_referenced e).
  2:{ pose proof (evict_at_spec c key Hinv Hkey). naive_solver. }
  set (c1 := mkCache _ _ _ _).
  assert (∀ k, cached c1 k = cached c k) as Hc1.
  { intros k. unfold cached, c1. cbn [cmap].
    destruct (decide (key = k)) as [->|]; [by rewrite lookup_insert_eq, He|by rewrite lookup_insert_ne]. }
  assert (size (cmap c1) = size (cmap c)) as Hs1 by (simpl; by rewrite map_size_insert, He).
  destruct (IH c1) as (H1 & H2 & H3 & H4); [|done|].
  - split; simpl; [done| | |].
    + intros k. rewrite Hk. destruct (decide (key = k)) as [->|].
      * rewrite lookup_insert_eq, He. naive_solver.
      * by rewrite lookup_insert_ne.
    + right. apply Nat.mod_upper_bound. lia.
    + change (size (cmap c1) ≤ capacity c). lia.
  - change (ckeys c1) with (ckeys c) in *. rewrite Hs1 in H2. split_and!; try done.
    intros k p Hp. apply H4 in Hp. by rewrite Hc1 in Hp.
Qed.

Lemma evict_one_spec c :
  cache_inv c → size (cmap c) ≠ 0 →
  cache_inv (evict_one c) ∧ S (size (cmap (evict_one c))) = size (cmap c) ∧
  capacity (evict_one c) = capacity c ∧
  (∀ k p, cached (evict_one c) k = Some p → cached c k = Some p).
Proof.
  intros Hinv Hs. pose proof (cache_size c Hinv) as Hlen.
  unfold evict_one. destruct (ckeys c) as [|k ks] eqn:E; [simpl in Hlen; lia|].
  rewrite <-E. apply evict_sweep_spec; [done|congruence].
Qed.

Lemma evict_while_spec fuel c :
  cache_inv c → 0 < capacity c → size (cmap c) ≤ fuel →
  let c' := evict_while fuel c in
  cache_inv c' ∧ size (cmap c') < capacity c' ∧ capacity c' = capacity c ∧
  (∀ k p, cached c' k = Some p → cached c k = Some p).
Proof.
  revert c. induction fuel as [|fuel IH]; intros c Hinv Hcap Hsz; cbn [evict_while].
  { split_and!; try done. lia. }
  destruct (Nat.leb_spec (capacity c) (size (cmap c))) as [Hle|Hlt].
  2:{ done. }
  destruct (evict_one_spec c Hinv ltac:(lia)) as (H1 & H2 & H3 & H4).
  destruct (IH (evict_one c)) as (H5 & H6 & H7 & H8); [done|lia|lia|].
  split_and!; try done.
  - congruence.
  - intros k p Hp. by apply H4, H8.
Qed.

Lemma cache_get_spec c key :
  cache_inv c →
  let '(r, c') := cache_get c key in
  r = cached c key ∧ cache_inv c' ∧ capacity c' = capacity c ∧ (∀ k, cached c' k = cached c k).
Proof.
  intros Hinv. pose proof Hinv as [Hnd Hk Hh Hcap]. unfold cache_get, cached.
  destruct (cmap c !! key) as [e|] eqn:He; [|done].
  split_and!; [done| |done|].
  - split; simpl; [done| |done|].
    + intros k. rewrite Hk. destruct (decide (key = k)) as [->|].
      * rewrite lookup_insert_eq, He. naive_solver.
      * by rewrite lookup_insert_ne.
    + by rewrite map_size_insert, He.
  - intros k. simpl. destruct (decide (key = k)) as [->|].
    + by rewrite lookup_insert_eq, He.
    + by rewrite lookup_insert_ne.
Qed.

(** Insertion keeps the invariant, in particular the bound on the number of
    cached pages, and introduces no page but the inserted one. *)
Lemma cache_insert_spec c key page :
  cache_inv c →
  let c' := cache_insert c key page in
  cache_inv c' ∧ capacity c' = capacity c ∧
  (capacity c ≠ 0 → cached c' key = Some page) ∧
  (∀ k p, cached c' k = Some p → k = key ∧ p = page ∨ cached c k = Some p).
Proof.
  intros Hinv. pose proof Hinv as [Hnd Hk Hh Hcap]. unfold cache_insert.
  destruct (Nat.eqb_spec (capacity c) 0) as [E|E]; [naive_solver|].
  assert (∀ c1 ks h k p, (∀ k p, cached c1 k = Some p → cached c k = Some p) →
    cached (mkCache (<[key:=mkCacheEntry page true]> (cmap c1)) ks h (capacity c1)) k = Some p →
    k = key ∧ p = page ∨ cached c k = Some p) as Hins.
  { intros c1 ks h k p Hsub. unfold cached at 1. cbn [cmap].
    destruct (decide (key = k)) as [->|].
    - rewrite lookup_insert_eq. simpl. intros. simplify_eq. by left.
    - rewrite lookup_insert_ne by done. intros. right. by apply Hsub. }
  destruct (cmap c !! key) as [e|] eqn:He.
  - split_and!; [|done| |].
    + split; simpl; [done| |done|].
      * intros k. rewrite Hk. destruct (decide (key = k)) as [->|].
        -- rewrite lookup_insert_eq, He. naive_solver.
        -- by rewrite lookup_insert_ne.
      * by rewrite map_size_insert, He.
    + intros _. unfold cached. cbn [cmap]. by rewrite lookup_insert_eq.
    + intros k p. apply Hins. done.
  - destruct (evict_while_spec (size (cmap c)) c) as (H1 & H2 & H3 & H4); [done|lia|done|].
    set (c1 := evict_while _ c) in *.
    assert (cmap c1 !! key = None) as Hn.
    { destruct (cmap c1 !! key) as [e|] eqn:Ee; [|done].
      specialize (H4 key (ce_page e)). unfold cached in H4. rewrite Ee, He in H4. naive_solver. }
    pose proof H1 as [Hnd1 Hk1 Hh1 Hc1].
    split_and!; [|done| |].
    + split; simpl.
      * apply NoDup_app. split_and!; [done| |apply NoDup_singleton].
        intros k Hk' ->%list_elem_of_singleton. apply Hk1 in Hk'. rewrite Hn in Hk'.
        by destruct Hk'.
      * intros k. rewrite elem_of_app, Hk1, list_elem_of_singleton.
        destruct (decide (key = k)) as [->|].
        -- rewrite lookup_insert_eq. naive_solver.
        -- rewrite lookup_insert_ne by done. naive_solver.
      * right. rewrite length_app. simpl. destruct Hh1 as [[_ ->]|Hh1]; lia.
      * rewrite map_size_insert, Hn. lia.
    + intros _. unfold cached. cbn [cmap]. by rewrite lookup_insert_eq.
    + intros k p. by apply Hins.
Qed.

Lemma cache_new_inv cap : cache_inv (cache_new cap).
Proof.
  split; simpl; [constructor| |by left|rewrite map_size_empty; lia].
  intros k. rewrite lookup_empty, elem_of_nil. split; [done|by intros []].
Qed.

Lemma invalidate_run_spec c id :
  cache_inv c →
  cache_inv (invalidate_run c id) ∧
  (∀ k p, cached (invalidate_run c id) k = Some p ↔ k.1 ≠ id ∧ cached c k = Some p).
Proof.
  intros [Hnd Hk Hh Hcap]. unfold invalidate_run. split.
  - split; simpl.
    + by apply NoDup_filter.
    + intros k. rewrite list_elem_of_filter, Hk. unfold is_Some.
      setoid_rewrite map_lookup_filter_Some. naive_solver.
    + apply fix_hand_lt.
    + etrans; [|done]. apply map_size_filter.
  - intros k p. unfold cached. cbn [cmap].
    rewrite !fmap_Some. setoid_rewrite map_lookup_filter_Some. naive_solver.
Qed.
