(* ===== verification/LsmRun.v ===== *)
(** * Sorted runs ([crates/dugite-lsm/src/run.rs])

    A run is a data file, a Bloom filter file and a fence index file, with the
    in-memory handle that the tree keeps. The files of a run live in the active
    directory under the run id: the handle reads them through the path, here
    through the [RunFiles] argument. [RunStore] is the interface the tree uses
    and [RunStoreOk] what it relies on; [run_store] and [run_store_ok] are the
    run of this file and its proof. *)

From S2P Require Import Prelude Order Bytes LsmPage LsmBloom LsmSstable LsmCache.
Local Open Scope nat_scope.

(** ** Definitions *)

Record Run := mkRun {
  run_id : Z;
  run_fence : FenceIndex;
  run_bloom : BloomFilter;
  entry_count : nat;
  page_count : nat;
  run_page_size : nat;
}.

(** Contents of [run-{id}.data], [run-{id}.bloom] and [run-{id}.index]. *)
Record RunFiles := mkRunFiles {
  f_data : list Z;
  f_bloom : list Z;
  f_index : list Z;
}.

#[global] Instance FenceEntry_eq_dec : EqDecision FenceEntry.
Proof. solve_decision. Defined.
#[global] Instance BloomFilter_eq_dec : EqDecision BloomFilter.
Proof. solve_decision. Defined.
#[global] Instance Run_eq_dec : EqDecision Run.
Proof. solve_decision. Defined.
#[global] Instance RunFiles_eq_dec : EqDecision RunFiles.
Proof. solve_decision. Defined.

Section run.
Context {CR : Crates}.

Definition run_write (id : Z) (entries : list entry) (page_size bloom_bits_per_key : nat) :
    Run * RunFiles :=
  let result := write_sstable entries page_size bloom_bits_per_key in
  (mkRun id (wr_fence result) (wr_bloom result) (wr_entry_count result)
     (wr_page_count result) page_size,
   mkRunFiles (wr_data result) (bloom_to_bytes (wr_bloom result))
     (fence_to_bytes (wr_fence result))).

(** [File::open] or [fs::read] of a run file that may be missing. *)
Definition open_file {A} (files : option A) : lsm_result A :=
  match files with Some f => Ok f | None => Err (Io NotFound) end.

Definition run_open (id : Z) (files : option RunFiles) (page_size : nat) : lsm_result Run :=
  files ← open_file files;
  bloom ← (match bloom_from_bytes (f_bloom files) with
           | Some b => Ok b
           | None => Err (Io InvalidData)
           end);
  fence ← fence_from_bytes (f_index files);
  let pages_on_disk := length (f_data files) / page_size in
  pages ← read_all_pages page_size (f_data files);
  let n := sum_list_with (λ p, length (page_entries p)) pages in
  Ok (mkRun id fence bloom n pages_on_disk page_size).

(** [(page_offset / self.page_size as u64) as u32] *)
Definition page_index (page_size off : nat) : Z := as_u32 (off / page_size).

(** [Run::get], with or without a cache; it never fills the cache. *)
Definition run_get (r : Run) (files : option RunFiles) (key : Key) (cache : option BlockCache) :
    lsm_result (option (option Value)) * option BlockCache :=
  if negb (may_contain (run_bloom r) key) then (Ok None, cache) else
  match find_page (run_fence r) key with
  | None => (Ok None, cache)
  | Some off =>
      let cache_key := (run_id r, page_index (run_page_size r) off) in
      let hit := match cache with
                 | Some c => let '(p, c') := cache_get c cache_key in (p, Some c')
                 | None => (None, None)
                 end in
      match hit with
      | (Some page, cache') => (Ok (page_search page key), cache')
      | (None, cache') =>
          (files ← open_file files;
           page ← read_page (run_page_size r) (f_data files) off;
           Ok (page_search page key), cache')
      end
  end.

Definition get_with_cache_insert (r : Run) (files : option RunFiles) (key : Key) (cache : BlockCache) :
    lsm_result (option (option Value)) * BlockCache :=
  if negb (may_contain (run_bloom r) key) then (Ok None, cache) else
  match find_page (run_fence r) key with
  | None => (Ok None, cache)
  | Some off =>
      let cache_key := (run_id r, page_index (run_page_size r) off) in
      match cache_get cache cache_key with
      | (Some page, cache') => (Ok (page_search page key), cache')
      | (None, cache') =>
          match files ← open_file files; read_page (run_page_size r) (f_data files) off with
          | Err e => (Err e, cache')
          | Ok page => (Ok (page_search page key), cache_insert cache' cache_key page)
          end
      end
  end.

Definition scan_all (r : Run) (files : option RunFiles) : lsm_result (list entry) :=
  files ← open_file files;
  pages ← read_all_pages (run_page_size r) (f_data files);
  Ok (mjoin (page_entries <$> pages)).

(** [&key >= from && &key <= to] *)
Definition in_range (from to : Key) (e : entry) : Prop :=
  key_leb from e.1 = true ∧ key_leb e.1 to = true.

#[global] Instance in_range_dec from to e : Decision (in_range from to e).
Proof. unfold in_range. apply _. Defined.

Fixpoint scan_pages (page_size : nat) (files : option RunFiles) (from to : Key) (offs : list nat) :
    lsm_result (list entry) :=
  match offs with
  | [] => Ok []
  | off :: offs' =>
      f ← open_file files;
      page ← read_page page_size (f_data f) off;
      es ← scan_pages page_size files from to offs';
      Ok (filter (in_range from to) (page_entries page) ++ es)
  end.

Definition scan_range (r : Run) (files : option RunFiles) (from to : Key) : lsm_result (list entry) :=
  scan_pages (run_page_size r) files from to (find_pages_in_range (run_fence r) from to).

End run.

(** ** The interface of runs *)

Class RunStore (R F : Type) := {
  rs_write : Z → list entry → R * F;
  rs_open : Z → option F → lsm_result R;
  rs_get : R → option F → Key → BlockCache → lsm_result (option (option Value)) * BlockCache;
  rs_scan_all : R → option F → lsm_result (list entry);
  rs_scan_range : R → option F → Key → Key → lsm_result (list entry);
}.

(** [rs_entry_ok] and [rs_budget] (number of entries, bytes of entries) say
    which entry lists can be written as one run. [rs_rep id r f es]: handle [r] and files [f] hold the sorted entries [es]
    under run id [id]. [rs_coh c id r f]: the pages cached for [id] are pages
    of [f]. *)
Class RunStoreOk (R F : Type) `{RS : RunStore R F} := {
  rs_rep : Z → R → F → list entry → Prop;
  rs_coh : BlockCache → Z → R → F → Prop;
  rs_entry_ok : entry → Prop;
  rs_budget : nat → nat → Prop;
  rs_budget_mono n s n' s' : n' ≤ n → s' ≤ s → rs_budget n s → rs_budget n' s';
  rs_rep_sorted id r f es : rs_rep id r f es → strict_sorted es;
  rs_write_rep id es :
    strict_sorted es → Forall rs_entry_ok es → rs_budget (length es) (page_data_size es) →
    rs_rep id (rs_write id es).1 (rs_write id es).2 es;
  rs_open_rep id r f es :
    rs_rep id r f es → ∃ r', rs_open id (Some f) = Ok r' ∧ rs_rep id r' f es;
  rs_scan_all_rep id r f es : rs_rep id r f es → rs_scan_all r (Some f) = Ok es;
  rs_scan_range_rep id r f es from to :
    rs_rep id r f es → rs_scan_range r (Some f) from to = Ok (filter (in_range from to) es);
  rs_coh_fresh c id r f : (∀ i, cached c (id, i) = None) → rs_coh c id r f;
  rs_coh_mono c c' id r f :
    (∀ i p, cached c' (id, i) = Some p → cached c (id, i) = Some p) →
    rs_coh c id r f → rs_coh c' id r f;
  rs_get_rep c id r f es key :
    rs_rep id r f es → cache_inv c → rs_coh c id r f →
    ∃ c', rs_get r (Some f) key c = (Ok (assoc key es), c') ∧ cache_inv c' ∧ rs_coh c' id r f ∧
      capacity c' = capacity c ∧
      ∀ k p, k.1 ≠ id → cached c' k = Some p → cached c k = Some p;
}.

(** ** Fence index files *)

Section fence_codec_proofs.
Context {CR : Crates} {CROK : CratesOk}.

Definition fence_entry_ok (e : FenceEntry) : Prop :=
  (Z.of_nat (length (first_key e)) < 2 ^ 16)%Z ∧ (Z.of_nat (page_offset e) < 2 ^ 64)%Z.

Lemma fence_read_entries_bytes f r :
  Forall fence_entry_ok f →
  fence_read_entries (length f) (mjoin (fence_entry_bytes <$> f) ++ r) = Ok f.
Proof.
  induction 1 as [|e f [Hk Ho] Hf IH]; [done|].
  rewrite fmap_cons, mjoin_cons. unfold fence_entry_bytes at 1.
  cbn [length fence_read_entries]. rewrite <-!app_assoc.
  rewrite bo_read_write by auto with dugite. cbn [mbind result_bind].
  rewrite as_u16_small, Nat2Z.id by done.
  rewrite read_exact_app by done. cbn [mbind result_bind].
  rewrite bo_read_write by (change (256 ^ Z.of_nat 8)%Z with (2 ^ 64)%Z; lia).
  cbn [mbind result_bind]. rewrite IH. cbn [mbind result_bind].
  rewrite Nat2Z.id. by destruct e.
Qed.

Lemma fence_roundtrip_gen f :
  Forall fence_entry_ok f → (Z.of_nat (length f) < 2 ^ 32)%Z →
  fence_from_bytes (fence_to_bytes f) = Ok f.
Proof.
  intros Hf Hl. unfold fence_from_bytes, fence_to_bytes.
  rewrite bo_read_write by auto with dugite. cbn [mbind result_bind].
  rewrite as_u32_small, Nat2Z.id by done.
  rewrite <-(app_nil_r (mjoin _)). by apply fence_read_entries_bytes.
Qed.

End fence_codec_proofs.

(** ** The run of this file implements the interface *)

Section run_proofs.
Context {CR : Crates} {CROK : CratesOk}.
Context (ps bpk : nat).

Definition run_store : RunStore Run RunFiles := {|
  rs_write id es := run_write id es ps bpk;
  rs_open id f := run_open id f ps;
  rs_get r f k c := get_with_cache_insert r f k c;
  rs_scan_all r f := scan_all r f;
  rs_scan_range r f from to := scan_range r f from to;
|}.

(** Number of page slots of a file: pages are at least [ps] bytes and a jumbo
    page takes several slots. *)
Definition run_budget (n s : nat) : Prop :=
  (Z.of_nat n * Z.of_nat bpk < 2 ^ 32 - 8)%Z ∧
  (2 * Z.of_nat n + Z.of_nat s / Z.of_nat ps < 2 ^ 32)%Z.

(** What a handle and its files hold: the pages of a sorted file, with the
    fence and a filter that contains every key. *)
Record run_layout (id : Z) (r : Run) (f : RunFiles) (es : list entry) (pages : list (list entry)) : Prop := {
  rl_id : run_id r = id;
  rl_ps : run_page_size r = ps;
  rl_es : mjoin pages = es;
  rl_sorted : strict_sorted es;
  rl_ne : Forall (λ p, p ≠ []) pages;
  rl_ok : Forall page_ok pages;
  rl_data : f_data f = file_of ps pages;
  rl_fence : run_fence r = fence_of ps 0 pages;
  rl_contains k : k ∈ es.*1 → may_contain (run_bloom r) k = true;
  rl_bloom_file : bloom_from_bytes (f_bloom f) = Some (run_bloom r);
  rl_fence_file : fence_from_bytes (f_index f) = Ok (run_fence r);
  rl_slots : (Z.of_nat (length (file_of ps pages)) < 2 ^ 32 * Z.of_nat ps)%Z;
}.

Definition run_rep (id : Z) (r : Run) (f : RunFiles) (es : list entry) : Prop :=
  ∃ pages, run_layout id r f es pages.

(** Pages cached under the run id are the decoded pages of the data file. *)
Definition run_coh (c : BlockCache) (id : Z) (r : Run) (f : RunFiles) : Prop :=
  ∀ off page, read_page ps (f_data f) off = Ok page →
    off mod ps = 0 → off < length (f_data f) →
    ∀ page', cached c (id, page_index ps off) = Some page' → page' = page.

Context (Hps : page_size_ok ps).

Lemma page_len_slots p : page_len p ps ≤ PAGE_HEADER_SIZE + page_data_size p + ps.
Proof.
  unfold page_len. destruct (Nat.leb_spec (PAGE_HEADER_SIZE + page_data_size p) ps); [lia|].
  unfold div_ceil. set (n := PAGE_HEADER_SIZE + page_data_size p) in *.
  pose proof (Nat.div_mod_eq n ps). destruct (Nat.eqb_spec (n mod ps) 0); lia.
Qed.

Lemma length_file_of pages :
  length (file_of ps pages) ≤
  length pages * (PAGE_HEADER_SIZE + ps) + page_data_size (mjoin pages).
Proof.
  induction pages as [|p pages IH]; [done|].
  rewrite file_of_cons, length_app, length_page_encode, mjoin_cons.
  unfold page_data_size in *. rewrite sum_list_with_app.
  pose proof (page_len_slots p) as Hp. unfold page_data_size in Hp.
  cbn [length]. lia.
Qed.

Lemma length_pages_le (pages : list (list entry)) :
  Forall (λ p, p ≠ []) pages → length pages ≤ length (mjoin pages).
Proof.
  induction 1 as [|p pages Hp H IH]; [done|]. rewrite mjoin_cons, length_app.
  destruct p; [done|]. simpl in *. lia.
Qed.

Lemma file_of_mod pages : length (file_of ps pages) mod ps = 0.
Proof.
  assert (∃ q, length (file_of ps pages) = q * ps) as [q ->]; [|apply Nat.Div0.mod_mul].
  induction pages as [|p pages [q IH]]; [by exists 0|].
  rewrite file_of_cons, length_app, length_page_encode, IH.
  unfold page_len. destruct (Nat.leb_spec (PAGE_HEADER_SIZE + page_data_size p) ps).
  - exists (1 + q). lia.
  - exists (div_ceil (PAGE_HEADER_SIZE + page_data_size p) ps + q). lia.
Qed.

Lemma budget_slots pages es :
  mjoin pages = es → Forall (λ p, p ≠ []) pages → run_budget (length es) (page_data_size es) →
  (Z.of_nat (length (file_of ps pages)) < 2 ^ 32 * Z.of_nat ps)%Z.
Proof.
  intros <- Hne [_ Hb]. pose proof (length_file_of pages) as H1.
  pose proof (length_pages_le pages Hne) as H2. destruct Hps as [Hps1 _].
  set (n := length (mjoin pages)) in *. set (s := page_data_size (mjoin pages)) in *.
  unfold PAGE_HEADER_SIZE in *.
  pose proof (Z.div_mod (Z.of_nat s) (Z.of_nat ps) ltac:(lia)) as Hdm.
  pose proof (Z.mod_pos_bound (Z.of_nat s) (Z.of_nat ps) ltac:(lia)) as Hm.
  set (q := (Z.of_nat s / Z.of_nat ps)%Z) in *. nia.
Qed.

Lemma fence_of_ok pages :
  Forall (λ p, p ≠ []) pages → Forall entry_fits (mjoin pages) →
  (Z.of_nat (length (file_of ps pages)) < 2 ^ 32 * Z.of_nat ps)%Z →
  Forall fence_entry_ok (fence_of ps 0 pages) ∧
  (Z.of_nat (length (fence_of ps 0 pages)) < 2 ^ 32)%Z.
Proof.
  intros Hne He Hl. destruct Hps as [Hps1 Hps2]. split.
  - apply Forall_lookup. intros i e Hi.
    destruct (fence_of_inv ps pages Hne i e Hi) as (p & Hp & Hk & Ho). split.
    + rewrite Hk. pose proof (Forall_lookup_1 _ _ _ _ Hne Hp) as Hpn. simpl in Hpn.
      destruct p as [|[k v] p]; [done|]. simpl.
      rewrite Forall_forall in He. destruct (He (k, v)) as [H _]; [|done].
      apply list_elem_of_join. exists ((k, v) :: p). split; [set_solver|].
      by eapply list_elem_of_lookup_2.
    + rewrite Ho. assert (length (file_of ps (take i pages)) ≤ length (file_of ps pages)) as Hle.
      { rewrite <-(take_drop i pages) at 2. rewrite file_of_app, length_app. lia. }
      lia.
  - rewrite length_fence_of by done.
    assert (length pages * ps ≤ length (file_of ps pages)) as Hge.
    { clear -Hps1 CROK. induction pages as [|p pages IH]; [simpl; lia|].
      rewrite file_of_cons, length_app, length_page_encode. cbn [length].
      assert (ps ≤ page_len p ps); [|lia]. unfold page_len.
      destruct (Nat.leb_spec (PAGE_HEADER_SIZE + page_data_size p) ps); [lia|].
      pose proof (div_ceil_mul_ge (PAGE_HEADER_SIZE + page_data_size p) ps). lia. }
    unfold PAGE_HEADER_SIZE in *. nia.
Qed.

Lemma bloom_new_small n :
  (Z.of_nat n * Z.of_nat bpk < 2 ^ 32 - 8)%Z →
  let b := bloom_new (Z.of_nat n) (Z.of_nat bpk) in
  (num_bits b < 2 ^ 32)%Z ∧ (0 ≤ num_hashes b < 2 ^ 32)%Z.
Proof.
  intros H. unfold bloom_new, saturating_mul64, u64_max. cbn [num_bits num_hashes]. split; [|lia].
  set (m := Z.max _ _). assert (0 ≤ m < 2 ^ 32 - 8)%Z by lia.
  pose proof (Z.mul_div_le (m + 7) 8 ltac:(lia)). lia.
Qed.

Lemma run_write_rep id es :
  strict_sorted es → Forall entry_fits es → run_budget (length es) (page_data_size es) →
  run_rep id (run_write id es ps bpk).1 (run_write id es ps bpk).2 es.
Proof.
  intros Hs He Hb.
  destruct (write_sstable_layout ps es bpk) as (pages & Hj & Hne & Hfit & Hw).
  pose proof (budget_slots pages es Hj Hne Hb) as Hslots.
  assert (Forall entry_fits (mjoin pages)) as He' by (by rewrite Hj).
  destruct (fence_of_ok pages Hne He' Hslots) as [Hfo Hfl].
  destruct (bloom_new_small (length es) (proj1 Hb)) as [Hnb Hnh].
  set (b0 := bloom_new _ _) in *.
  assert (bloom_ok b0) as Hb0 by (apply bloom_new_ok; lia).
  exists pages. unfold run_write. rewrite Hw.
  split; cbn [fst snd run_id run_fence run_bloom run_page_size f_data f_bloom f_index
    wr_data wr_fence wr_bloom wr_entry_count wr_page_count]; try done.
  - apply Forall_lookup. intros i p Hp. apply (page_fits_ok ps); [done| |].
    + exact (Forall_lookup_1 _ _ _ _ Hfit Hp).
    + apply Forall_forall. intros e Hin. rewrite Forall_forall in He'. apply He'.
      apply list_elem_of_join. exists p. split; [done|]. by eapply list_elem_of_lookup_2.
  - intros k Hk. apply foldl_bloom_insert_contains; auto.
  - destruct (bloom_fields es.*1 b0) as [F1 F2].
    apply bloom_roundtrip_gen; [by apply foldl_bloom_insert_ok|by rewrite F1|by rewrite F2].
  - by apply fence_roundtrip_gen.
Qed.

Lemma run_open_rep id r f es :
  run_rep id r f es → ∃ r', run_open id (Some f) ps = Ok r' ∧ run_rep id r' f es.
Proof.
  intros (pages & [Hid Hrps Hes Hs Hne Hok Hd Hf Hc Hbf Hff Hsl]).
  unfold run_open. cbn [open_file mbind result_bind]. rewrite Hbf. cbn [mbind result_bind]. rewrite Hff. cbn [mbind result_bind].
  rewrite Hd, read_all_pages_file by done. cbn [mbind result_bind].
  eexists. split; [done|]. exists pages. by split.
Qed.

Lemma run_scan_all_rep id r f es : run_rep id r f es → scan_all r (Some f) = Ok es.
Proof.
  intros (pages & [Hid Hrps Hes Hs Hne Hok Hd Hf Hc Hbf Hff Hsl]).
  unfold scan_all. cbn [open_file mbind result_bind]. rewrite Hrps, Hd, read_all_pages_file by done.
  cbn [mbind result_bind]. f_equal. rewrite <-Hes. f_equal.
  rewrite <-list_fmap_compose. by rewrite list_fmap_id.
Qed.

Lemma read_page_at pages i p :
  Forall page_ok pages → pages !! i = Some p →
  read_page ps (file_of ps pages) (length (file_of ps (take i pages))) = Ok (mkPage p).
Proof.
  intros Hok Hp. rewrite <-(take_drop_middle pages i p Hp) at 1.
  rewrite file_of_app, file_of_cons. apply read_page_file; [done|].
  exact (Forall_lookup_1 _ _ _ _ Hok Hp).
Qed.

Lemma scan_pages_rep f pages from to a n :
  f_data f = file_of ps pages → Forall page_ok pages → Forall (λ p, p ≠ []) pages →
  scan_pages ps (Some f) from to
    (page_offset <$> take n (drop a (fence_of ps 0 pages))) =
  Ok (filter (in_range from to) (mjoin (take n (drop a pages)))).
Proof.
  intros Hd Hok Hne. revert a. induction n as [|n IH]; intros a; [done|].
  destruct (pages !! a) as [p|] eqn:Hp.
  - rewrite (drop_S _ _ _ Hp), (drop_S _ _ _ (fence_of_lookup ps 0 pages a p Hne Hp)).
    cbn [take]. rewrite mjoin_cons, filter_app, fmap_cons. cbn [scan_pages page_offset open_file mbind result_bind]. rewrite Hd.
    rewrite Nat.add_0_l, (read_page_at pages a p Hok Hp). cbn [mbind result_bind].
    by rewrite IH.
  - apply lookup_ge_None in Hp. rewrite !drop_ge; [done|done|]. by rewrite length_fence_of.
Qed.

Lemma filter_none {A} (P : A → Prop) `{∀ x, Decision (P x)} l :
  (∀ x, x ∈ l → ¬ P x) → filter P l = [].
Proof.
  intros H1. apply elem_of_nil_inv. intros x [HP Hx]%list_elem_of_filter. by eapply H1.
Qed.

Lemma in_range_join_none (pgs : list (list entry)) from to :
  (∀ p, p ∈ pgs → (∀ k, k ∈ p.*1 → key_lt k from) ∨ (∀ k, k ∈ p.*1 → key_lt to k)) →
  filter (in_range from to) (mjoin pgs) = [].
Proof.
  intros H. apply filter_none. intros e (p & Hep & Hp)%list_elem_of_join [H1 H2].
  apply key_leb_le in H1. apply key_leb_le in H2.
  assert (e.1 ∈ p.*1) as Hk by (apply list_elem_of_fmap; eauto).
  destruct (H p Hp) as [H'|H']; specialize (H' _ Hk).
  - by apply (key_lt_irrefl e.1), (key_lt_le_trans _ from).
  - by apply (key_lt_irrefl e.1), (key_le_lt_trans _ to).
Qed.

Lemma find_pages_in_range_spec pages from to :
  Forall (λ p, p ≠ []) pages → strict_sorted (mjoin pages) →
  (find_pages_in_range (fence_of ps 0 pages) from to = [] ∧
   filter (in_range from to) (mjoin pages) = []) ∨
  ∃ s n, find_pages_in_range (fence_of ps 0 pages) from to =
           page_offset <$> take n (drop s (fence_of ps 0 pages)) ∧
         filter (in_range from to) (mjoin pages) =
           filter (in_range from to) (mjoin (take n (drop s pages))).
Proof.
  intros Hne Hs. unfold find_pages_in_range. case_decide as Hf.
  { left. split; [done|]. assert (length pages = 0) as Hl by (rewrite <-(length_fence_of ps 0), Hf by done; done).
    apply nil_length_inv in Hl. by subst. }
  set (s := match fence_search _ from with Ok idx => idx | _ => _ end).
  assert (∀ j p k, j < s → pages !! j = Some p → k ∈ p.*1 → key_lt k from) as Hlo.
  { intros j p k Hj Hp Hk.
    pose proof (fence_search_page_for ps pages Hne Hs from) as H.
    destruct (fence_search _ from) as [i|[|i]]; subst s; [|lia|].
    all: destruct H as [(q & Hq & Hle) _]; eapply key_lt_le_trans; [|exact Hle].
    all: by eapply (page_keys_lt pages Hne Hs j i). }
  assert (∀ e j p k, page_for pages to e → e < j → pages !! j = Some p → k ∈ p.*1 → key_lt to k) as Hhi.
  { intros e j p k [_ H] Hj Hp Hk. eapply key_lt_le_trans; [by eapply (H j p)|].
    by eapply (page_keys_ge pages Hs j). }
  pose proof (fence_search_page_for ps pages Hne Hs to) as Hto.
  destruct (fence_search _ to) as [e|[|e]].
  2:{ left. split; [done|]. apply in_range_join_none. intros p [j Hj]%list_elem_of_lookup. right.
      intros k Hk. eapply key_lt_le_trans; [by eapply Hto|]. by eapply (page_keys_ge pages Hs j). }
  all: right; exists s, (S e - s); split; [done|].
  all: rewrite <-(take_drop s pages) at 1; rewrite <-(take_drop (S e - s) (drop s pages)) at 1.
  all: rewrite !join_app, !filter_app.
  all: rewrite (in_range_join_none (take s pages)), (in_range_join_none (drop _ (drop s pages)));
    [by rewrite app_nil_r| |].
  all: intros p [j Hj]%list_elem_of_lookup.
  1, 3: right; intros k Hk; rewrite !lookup_drop in Hj;
    eapply (Hhi e _ p k Hto); [|exact Hj|done]; lia.
  all: left; intros k Hk; pose proof (lookup_lt_Some _ _ _ Hj) as Hl; rewrite length_take in Hl;
    rewrite lookup_take_lt in Hj by lia; eapply Hlo; [|done|done]; lia.
Qed.

Lemma run_scan_range_rep id r f es from to :
  run_rep id r f es → scan_range r (Some f) from to = Ok (filter (in_range from to) es).
Proof.
  intros (pages & [Hid Hrps Hes Hs Hne Hok Hd Hf Hc Hbf Hff Hsl]).
  unfold scan_range. rewrite Hrps, Hf. subst es.
  destruct (find_pages_in_range_spec pages from to Hne Hs) as [[-> ->]|(s & n & -> & ->)]; [done|].
  by apply scan_pages_rep.
Qed.

Lemma page_index_inj off1 off2 :
  off1 mod ps = 0 → off2 mod ps = 0 →
  (Z.of_nat off1 < 2 ^ 32 * Z.of_nat ps)%Z → (Z.of_nat off2 < 2 ^ 32 * Z.of_nat ps)%Z →
  page_index ps off1 = page_index ps off2 → off1 = off2.
Proof.
  intros H1 H2 B1 B2. destruct Hps as [Hp _]. unfold PAGE_HEADER_SIZE in Hp.
  assert (∀ o, (Z.of_nat o < 2 ^ 32 * Z.of_nat ps)%Z → (Z.of_nat (o / ps) < 2 ^ 32)%Z) as Hb.
  { intros o Ho. rewrite Nat2Z.inj_div. apply Z.div_lt_upper_bound; lia. }
  unfold page_index. rewrite !as_u32_small by (by apply Hb). intros E%Nat2Z.inj.
  rewrite (Nat.div_mod_eq off1 ps), (Nat.div_mod_eq off2 ps). lia.
Qed.

Lemma run_get_rep c id r f es key :
  run_rep id r f es → cache_inv c → run_coh c id r f →
  ∃ c', get_with_cache_insert r (Some f) key c = (Ok (assoc key es), c') ∧ cache_inv c' ∧
    run_coh c' id r f ∧ capacity c' = capacity c ∧
    ∀ k p, k.1 ≠ id → cached c' k = Some p → cached c k = Some p.
Proof.
  intros (pages & [Hid Hrps Hes Hs Hne Hok Hd Hf Hc Hbf Hff Hsl]) Hinv Hcoh.
  unfold get_with_cache_insert.
  destruct (may_contain (run_bloom r) key) eqn:Hmc; simpl negb; cbv iota.
  2:{ exists c. split_and!; try done.
      assert (assoc key es = None) as ->; [|done].
      apply assoc_None. intros Hk. apply Hc in Hk. congruence. }
  rewrite Hf, Hrps, Hid. subst es.
  pose proof (find_page_spec ps pages Hne Hs key) as Hfp.
  destruct (find_page _ key) as [off|].
  2:{ exists c. split_and!; try done. rewrite assoc_join_None; [done|].
      intros j p Hp. eapply (assoc_before pages Hs); [done|]. by eapply Hfp. }
  destruct Hfp as (i & Hpf & ->). pose proof Hpf as [(p & Hp & _) _].
  rewrite (page_for_assoc pages Hne Hs key i p Hpf Hp).
  set (off := length (file_of ps (take i pages))).
  pose proof (read_page_at pages i p Hok Hp) as Hrd. rewrite <-Hd in Hrd. fold off in Hrd.
  assert (off mod ps = 0) as Hom by apply file_of_mod.
  assert (off < length (f_data f)) as Hol.
  { rewrite Hd. unfold off. rewrite <-(take_drop_middle pages i p Hp) at 2.
    rewrite file_of_app, file_of_cons, !length_app, length_page_encode.
    pose proof (page_len_ge p ps) as Hpl. destruct Hps as [Hps1 _].
    unfold PAGE_HEADER_SIZE in *. lia. }
  assert (page_search (mkPage p) key = assoc key p) as Hsr
    by (apply page_search_assoc; by eapply (page_sorted pages Hs)).
  pose proof (cache_get_spec c (id, page_index ps off) Hinv) as Hcg.
  destruct (cache_get c (id, page_index ps off)) as [[pg|] c1].
  - destruct Hcg as (Hg & Hi1 & Hcap & Heq). exists c1. split_and!; try done.
    + rewrite (Hcoh off (mkPage p) Hrd Hom Hol pg) by done. by rewrite Hsr.
    + intros o pg' H1 H2 H3 pg'' H4. rewrite Heq in H4. by eapply Hcoh.
    + intros k q _. by rewrite Heq.
  - destruct Hcg as (Hg & Hi1 & Hcap & Heq). cbn [open_file mbind result_bind]. rewrite Hrd, Hsr. eexists. split; [done|].
    destruct (cache_insert_spec c1 (id, page_index ps off) (mkPage p) Hi1) as (I1 & I2 & _ & I4).
    split_and!; [done| |congruence|].
    + intros o pg' H1 H2 H3 pg'' [[E ->]|H4]%I4.
      * injection E as E. rewrite Hd in Hol, H3.
        assert (o = off) as -> by (apply page_index_inj; [done|done|lia|lia|done]). congruence.
      * rewrite Heq in H4. by eapply Hcoh.
    + intros k q Hk [[-> _]|H4]%I4; [done|]. by rewrite Heq in H4.
Qed.

Program Definition run_store_ok : @RunStoreOk Run RunFiles run_store := {|
  rs_rep := run_rep;
  rs_coh := run_coh;
  rs_entry_ok := entry_fits;
  rs_budget := run_budget;
|}.
Next Obligation.
  intros n s n' s' Hn Hs' [H1 H2]. split; [nia|].
  assert (Z.of_nat s' / Z.of_nat ps ≤ Z.of_nat s / Z.of_nat ps)%Z; [|lia].
  destruct Hps as [Hp _]. apply Z.div_le_mono; lia.
Qed.
Next Obligation. intros id r f es (pages & Hl). by destruct Hl. Qed.
Next Obligation. intros. by apply run_write_rep. Qed.
Next Obligation. intros. by eapply run_open_rep. Qed.
Next Obligation. intros. by eapply run_scan_all_rep. Qed.
Next Obligation. intros. by eapply run_scan_range_rep. Qed.
Next Obligation. intros c id r f H off page _ _ _ page'. by rewrite H. Qed.
Next Obligation.
  intros c c' id r f H Hc off page H1 H2 H3 page' H4. eapply Hc; [done..|]. by apply H.
Qed.
Next Obligation. intros. by apply run_get_rep. Qed.

End run_proofs.
