(* ===== verification/LsmMerge.v ===== *)
(** * K-way merge of sorted runs ([crates/dugite-lsm/src/merge.rs])

    [merge_entries] with its heap of run heads. A [BinaryHeap] is a list of
    entries whose [pop] removes a greatest one. The reference meaning of a
    merge is [newest]: the last input that has the key wins. *)

From S2P Require Import Prelude Order Bytes LsmPage.
Local Open Scope Z_scope.

(** ** Definitions *)

Record HeapEntry := mkHeap { h_key : Key; h_value : option Value; h_seq : Z }.

(** [Ord for HeapEntry]: reverse key order, then sequence number. *)
Definition heap_cmp (a b : HeapEntry) : comparison :=
  match slice_cmp (h_key b) (h_key a) with
  | Eq => h_seq a ?= h_seq b
  | c => c
  end.

(** Greatest entry of [x :: l] and the rest. *)
Fixpoint heap_max (x : HeapEntry) (l : list HeapEntry) : HeapEntry * list HeapEntry :=
  match l with
  | [] => (x, [])
  | y :: l' =>
      match heap_cmp x y with
      | Lt => let '(m, r) := heap_max y l' in (m, x :: r)
      | _ => let '(m, r) := heap_max x l' in (m, y :: r)
      end
  end.

Definition heap_pop (h : list HeapEntry) : option (HeapEntry * list HeapEntry) :=
  match h with
  | [] => None
  | x :: l => Some (heap_max x l)
  end.

(** Inputs: a sequence number and sorted entries; higher is newer. *)
Abbreviation MergeInput := (Z * list entry)%type.

Definition SEQ_BASE : Z := 1000000.

(** [iter.next()] and the push of the new head. *)
Definition push_next (heap : list HeapEntry) (es : list entry) (seq : Z) : list HeapEntry :=
  match es with
  | [] => heap
  | (k, v) :: _ => mkHeap k v seq :: heap
  end.

(** Seeding: the head of input [idx] gets [seq * 1_000_000 + idx]. *)
Fixpoint seed_heap (idx : Z) (inputs : list MergeInput) : list HeapEntry :=
  match inputs with
  | [] => []
  | (seq, es) :: inputs' =>
      push_next (seed_heap (idx + 1) inputs') es (seq * SEQ_BASE + idx)
  end.

Definition advance_iter (i : MergeInput) : MergeInput := (i.1, tail i.2).

(** The [while let Some(entry) = heap.pop()] loop; every turn consumes one
    entry, so a fuel of the number of entries is enough. *)
Fixpoint merge_loop (fuel : nat) (drop_tombstones : bool) (iters : list MergeInput)
    (heap : list HeapEntry) (last_key : option Key) (result : list entry) : list entry :=
  match heap_pop heap with
  | None => result
  | Some (e, heap) =>
      match fuel with
      | O => result
      | S fuel' =>
          let iter_idx := h_seq e mod SEQ_BASE in
          let base_seq := h_seq e - iter_idx in
          let i := Z.to_nat iter_idx in
          let heap := match iters !! i with
                      | Some it => push_next heap it.2 (base_seq + iter_idx)
                      | None => heap
                      end in
          let iters := alter advance_iter i iters in
          if decide (last_key = Some (h_key e))
          then merge_loop fuel' drop_tombstones iters heap last_key result
          else
            let last_key := Some (h_key e) in
            if drop_tombstones && bool_decide (h_value e = None)
            then merge_loop fuel' drop_tombstones iters heap last_key result
            else merge_loop fuel' drop_tombstones iters heap last_key
                   (result ++ [(h_key e, h_value e)])
      end
  end.

Definition merge_entries (inputs : list MergeInput) (drop_tombstones : bool) : list entry :=
  let total_entries := sum_list_with (λ i : MergeInput, length i.2) inputs in
  merge_loop total_entries drop_tombstones (advance_iter <$> inputs) (seed_heap 0 inputs) None [].

(** ** Reference meaning *)

(** The value of [k] in the newest input that has it. *)
Fixpoint newest (k : Key) (ls : list (list entry)) : option (option Value) :=
  match ls with
  | [] => None
  | l :: ls' => match newest k ls' with
                | Some v => Some v
                | None => assoc k l
                end
  end.

Definition drop_dead (drop : bool) (o : option (option Value)) : option (option Value) :=
  if drop then match o with Some (Some v) => Some (Some v) | _ => None end else o.

Definition inputs_ok (inputs : list MergeInput) : Prop :=
  Forall (λ i : MergeInput, strict_sorted i.2) inputs ∧
  StronglySorted Z.le inputs.*1 ∧ Z.of_nat (length inputs) ≤ SEQ_BASE.

(** ** The heap *)

Lemma heap_cmp_trans a b c : heap_cmp a b ≠ Lt → heap_cmp b c ≠ Lt → heap_cmp a c ≠ Lt.
Proof.
  unfold heap_cmp. intros H1 H2.
  destruct (slice_cmp (h_key b) (h_key a)) eqn:E1; [|done|];
  destruct (slice_cmp (h_key c) (h_key b)) eqn:E2; try done.
  - apply slice_cmp_eq in E1, E2. rewrite E2, E1, slice_cmp_refl.
    rewrite Z.compare_lt_iff in *. lia.
  - apply slice_cmp_eq in E1. rewrite <-E1, E2. done.
  - apply slice_cmp_eq in E2. rewrite E2, E1. done.
  - apply key_gt_lt in E1, E2.
    assert (slice_cmp (h_key c) (h_key a) = Gt) as ->; [|done].
    apply key_gt_lt. eauto with dugite.
Qed.

Lemma heap_cmp_flip a b : heap_cmp a b = Lt → heap_cmp b a ≠ Lt.
Proof.
  unfold heap_cmp. rewrite (slice_cmp_antisym (h_key b) (h_key a)).
  destruct (slice_cmp (h_key b) (h_key a)); simpl; try done.
  rewrite !Z.compare_lt_iff. lia.
Qed.

Lemma heap_cmp_refl a : heap_cmp a a ≠ Lt.
Proof. unfold heap_cmp. by rewrite slice_cmp_refl, Z.compare_refl. Qed.

Lemma heap_max_spec x l m r :
  heap_max x l = (m, r) →
  x :: l ≡ₚ m :: r ∧ heap_cmp m x ≠ Lt ∧ (∀ y, y ∈ r → heap_cmp m y ≠ Lt).
Proof.
  revert x m r. induction l as [|y l IH]; intros x m r; simpl.
  { intros [= <- <-]. split_and!; [done|apply heap_cmp_refl|set_solver]. }
  assert (heap_cmp x y = Lt ∨ heap_cmp x y ≠ Lt) as [E|E] by (destruct (heap_cmp x y); naive_solver).
  - rewrite E. destruct (heap_max y l) as [m' r'] eqn:Hm. intros [= <- <-].
    destruct (IH _ _ _ Hm) as (Hp & H1 & H2). apply heap_cmp_flip in E.
    assert (heap_cmp m' x ≠ Lt) by (eapply heap_cmp_trans; done).
    split_and!; [|done|].
    + rewrite Hp. apply Permutation_swap.
    + intros z [->|?]%elem_of_cons; auto.
  - destruct (heap_max x l) as [m' r'] eqn:Hm.
    intros Heq. assert ((m', y :: r') = (m, r)) as [= <- <-] by (destruct (heap_cmp x y); done).
    destruct (IH _ _ _ Hm) as (Hp & H1 & H2).
    split_and!; [|done|].
    + rewrite (Permutation_swap y x l), Hp. apply Permutation_swap.
    + intros z [->|?]%elem_of_cons; [|auto]. by eapply heap_cmp_trans.
Qed.

Lemma heap_pop_spec h m r :
  heap_pop h = Some (m, r) → h ≡ₚ m :: r ∧ ∀ y, y ∈ h → heap_cmp m y ≠ Lt.
Proof.
  destruct h as [|x l]; simpl; [done|]. intros [= Hm].
  destruct (heap_max_spec _ _ _ _ Hm) as (Hp & H1 & H2). split; [done|].
  intros y. rewrite Hp. intros [->|?]%elem_of_cons; [apply heap_cmp_refl|auto].
Qed.

Lemma heap_pop_None h : heap_pop h = None → h = [].
Proof. by destruct h. Qed.

(** ** Heads of the remaining inputs *)

Lemma seed_heap_app idx l1 l2 :
  seed_heap idx (l1 ++ l2) = seed_heap idx l1 ++ seed_heap (idx + Z.of_nat (length l1)) l2.
Proof.
  revert idx. induction l1 as [|[s es] l1 IH]; intros idx; simpl.
  { f_equal. lia. }
  rewrite IH. replace (idx + 1 + Z.of_nat (length l1)) with (idx + Z.of_nat (S (length l1))) by lia.
  by destruct es as [|[k v] es].
Qed.

Lemma seed_heap_elem idx rems h :
  h ∈ seed_heap idx rems →
  ∃ l1 s tl l2, rems = l1 ++ (s, (h_key h, h_value h) :: tl) :: l2 ∧
    h_seq h = s * SEQ_BASE + (idx + Z.of_nat (length l1)).
Proof.
  revert idx. induction rems as [|[s es] rems IH]; intros idx; simpl; [set_solver|].
  assert (h ∈ seed_heap (idx + 1) rems →
    ∃ l1 s0 tl l2, (s, es) :: rems = l1 ++ (s0, (h_key h, h_value h) :: tl) :: l2 ∧
      h_seq h = s0 * SEQ_BASE + (idx + Z.of_nat (length l1))) as Hrest.
  { intros (l1 & s0 & tl & l2 & -> & Hq)%IH. exists ((s, es) :: l1), s0, tl, l2.
    split; [done|]. rewrite Hq. simpl. lia. }
  destruct es as [|[k v] es]; simpl; [done|].
  intros [->|Hin]%elem_of_cons; [|by apply Hrest].
  exists [], s, es, rems. simpl. split; [done|lia].
Qed.

Lemma seed_heap_head idx l1 s k v tl l2 :
  mkHeap k v (s * SEQ_BASE + (idx + Z.of_nat (length l1))) ∈
    seed_heap idx (l1 ++ (s, (k, v) :: tl) :: l2).
Proof. rewrite seed_heap_app. simpl. set_solver. Qed.

Lemma seed_heap_nil idx rems k : seed_heap idx rems = [] → newest k rems.*2 = None.
Proof.
  revert idx. induction rems as [|[s es] rems IH]; intros idx; [done|].
  rewrite fmap_cons. cbn [seed_heap newest snd].
  destruct es as [|[k' v'] es]; [|done]. cbn [push_next]. intros H. by rewrite (IH _ H).
Qed.

Lemma newest_app k l1 l2 :
  newest k (l1 ++ l2) = match newest k l2 with Some v => Some v | None => newest k l1 end.
Proof.
  induction l1 as [|l l1 IH]; simpl; [by destruct (newest k l2)|].
  rewrite IH. by destruct (newest k l2).
Qed.

Lemma newest_None k ls : (∀ l, l ∈ ls → assoc k l = None) → newest k ls = None.
Proof.
  induction ls as [|l ls IH]; intros H; simpl; [done|].
  rewrite IH by set_solver. apply H. set_solver.
Qed.

(** The popped head carries the least key of all the inputs, and comes from the
    newest input that has it. *)
Section min_head.
Context (l1 l2 : list MergeInput) (s : Z) (k : Key) (v : option Value) (tl : list entry).
Let rems := l1 ++ (s, (k, v) :: tl) :: l2.
Context (Hok : inputs_ok rems).
Context (Hmax : ∀ y, y ∈ seed_heap 0 rems →
  heap_cmp (mkHeap k v (s * SEQ_BASE + Z.of_nat (length l1))) y ≠ Lt).

Lemma min_head_le i k' : i ∈ rems → k' ∈ i.2.*1 → key_le k k'.
Proof.
  intros Hi Hk. apply list_elem_of_split in Hi as (m1 & m2 & Hr).
  destruct i as [si es]. destruct es as [|[k0 v0] es]; [by apply elem_of_nil in Hk|].
  assert (key_le k k0) as Hle.
  { pose proof (seed_heap_head 0 m1 si k0 v0 es m2) as Hh. rewrite <-Hr in Hh.
    specialize (Hmax _ Hh). unfold heap_cmp in Hmax. simpl in Hmax.
    apply key_not_lt. unfold key_lt. intros E. by rewrite E in Hmax. }
  simpl in Hk. apply elem_of_cons in Hk as [->|Hk]; [done|].
  destruct Hok as (Hs & _ & _). rewrite Forall_forall in Hs.
  specialize (Hs (si, (k0, v0) :: es)). simpl in Hs.
  rewrite strict_sorted_cons in Hs. destruct Hs as [Hs _]; [rewrite Hr; set_solver|].
  rewrite Forall_forall in Hs. apply key_le_lt_eq. left.
  eapply key_le_lt_trans; [done|]. by apply Hs.
Qed.

Lemma min_head_newest : newest k rems.*2 = Some v.
Proof.
  unfold rems. rewrite fmap_app, newest_app, fmap_cons. cbn [snd newest].
  rewrite newest_None.
  { cbn [assoc]. by rewrite decide_True. }
  intros l Hl. apply list_elem_of_fmap in Hl as ([s2 l'] & -> & Hin). simpl.
  apply list_elem_of_split in Hin as (m1 & m2 & ->).
  destruct l' as [|[k2 v2] l']; [done|].
  assert (key_lt k k2) as Hlt.
  { destruct Hok as (_ & Hmono & _).
    unfold rems in *. rewrite fmap_app, fmap_cons in Hmono. cbn [fst] in Hmono.
    assert (s ≤ s2) as Hss.
    { apply StronglySorted_app_1_r in Hmono. inversion Hmono as [|?? _ Hall]; subst.
      rewrite Forall_forall in Hall. apply Hall. rewrite fmap_app. set_solver. }
    pose proof (seed_heap_head 0 (l1 ++ (s, (k, v) :: tl) :: m1) s2 k2 v2 l' m2) as Hh.
    rewrite <-app_assoc in Hh. simpl app in Hh. specialize (Hmax _ Hh).
    unfold heap_cmp in Hmax. simpl in Hmax. rewrite length_app in Hmax. simpl in Hmax.
    destruct (slice_cmp k2 k) eqn:E; [|done|by apply key_gt_lt].
    exfalso. apply Hmax. apply Z.compare_lt_iff. unfold SEQ_BASE. lia. }
  destruct Hok as (Hs & _ & _). rewrite Forall_forall in Hs.
  specialize (Hs (s2, (k2, v2) :: l')). simpl in Hs. rewrite strict_sorted_cons in Hs.
  destruct Hs as [Hs _]; [unfold rems; set_solver|].
  apply assoc_lt_None. simpl. constructor; [done|].
  eapply Forall_impl; [done|]. intros. eauto with dugite.
Qed.

End min_head.

(** ** The loop *)

Lemma inputs_ok_tail l1 s e tl l2 :
  inputs_ok (l1 ++ (s, e :: tl) :: l2) → inputs_ok (l1 ++ (s, tl) :: l2).
Proof.
  unfold inputs_ok. rewrite !Forall_app, !Forall_cons, !fmap_app, !length_app. simpl.
  intros [(H1 & H2 & H3) [H4 H5]]. split_and!; try done.
  destruct e as [k v]. by apply strict_sorted_cons in H2 as [_ ?].
Qed.

Lemma newest_skip (l1 l2 : list MergeInput) (s : Z) k v tl k' :
  k' ≠ k →
  newest k' (l1 ++ (s, tl) :: l2).*2 = newest k' (l1 ++ (s, (k, v) :: tl) :: l2).*2.
Proof.
  intros Hne. rewrite !fmap_app, !newest_app, !fmap_cons. cbn [newest snd].
  destruct (newest k' l2.*2); [done|]. cbn [assoc]. by rewrite decide_False.
Qed.

(** One turn of the loop, on the remaining inputs. *)
Lemma merge_turn rems heap e heap' :
  inputs_ok rems → heap ≡ₚ seed_heap 0 rems → heap_pop heap = Some (e, heap') →
  ∃ l1 s tl l2,
    rems = l1 ++ (s, (h_key e, h_value e) :: tl) :: l2 ∧
    h_seq e = s * SEQ_BASE + Z.of_nat (length l1) ∧
    (∀ y, y ∈ seed_heap 0 rems → heap_cmp e y ≠ Lt) ∧
    Z.to_nat (h_seq e mod SEQ_BASE) = length l1 ∧
    (advance_iter <$> rems) !! length l1 = Some (s, tl) ∧
    alter advance_iter (length l1) (advance_iter <$> rems) =
      advance_iter <$> (l1 ++ (s, tl) :: l2) ∧
    push_next heap' tl (h_seq e - h_seq e mod SEQ_BASE + h_seq e mod SEQ_BASE) ≡ₚ
      seed_heap 0 (l1 ++ (s, tl) :: l2).
Proof.
  intros Hok Hperm [Hp Hmax]%heap_pop_spec.
  assert (e ∈ seed_heap 0 rems) as (l1 & s & tl & l2 & Hr & Hseq)%seed_heap_elem.
  { rewrite <-Hperm, Hp. set_solver. }
  rewrite Z.add_0_l in Hseq. exists l1, s, tl, l2.
  assert (Z.of_nat (length l1) < SEQ_BASE) as Hlen.
  { destruct Hok as (_ & _ & Hl). rewrite Hr, length_app in Hl. simpl in Hl. lia. }
  assert (h_seq e mod SEQ_BASE = Z.of_nat (length l1)) as Hmod.
  { rewrite Hseq, Z.add_comm, Z_mod_plus_full. apply Z.mod_small. lia. }
  rewrite Hmod. split_and!.
  - done.
  - done.
  - intros y Hy. apply Hmax. by rewrite Hperm.
  - apply Nat2Z.id.
  - rewrite Hr, fmap_app, lookup_app_r by (by rewrite length_fmap).
    by rewrite length_fmap, Nat.sub_diag.
  - rewrite Hr, !fmap_app, !fmap_cons.
    rewrite <-(length_fmap advance_iter l1) at 1. by rewrite alter_app_r_alt, Nat.sub_diag by done.
  - rewrite Z.sub_add, Hseq. rewrite seed_heap_app. cbn [seed_heap].
    rewrite Z.add_0_l. rewrite Hperm, Hr, seed_heap_app in Hp. cbn [seed_heap push_next] in Hp.
    rewrite Z.add_0_l in Hp.
    assert (mkHeap (h_key e) (h_value e) (s * SEQ_BASE + Z.of_nat (length l1)) = e) as He
      by (rewrite <-Hseq; by destruct e).
    rewrite He, <-Permutation_middle in Hp. apply (inj (cons e)) in Hp.
    destruct tl as [|[k v] tl]; cbn [push_next]; rewrite <-Hp; [done|].
    by rewrite <-Permutation_middle.
Qed.

Definition total_len (rems : list MergeInput) : nat := sum_list_with (λ i : MergeInput, length i.2) rems.

Definition above (last : option Key) (k : Key) : Prop :=
  match last with Some L => key_lt L k | None => True end.

(** What the loop adds to [result], for keys above the last emitted one. *)
Definition merge_post (drop : bool) (rems : list MergeInput) (last : option Key) (out : list entry) : Prop :=
  strict_sorted out ∧ (∀ k, k ∈ out.*1 → above last k) ∧
  ∀ k, above last k → assoc k out = drop_dead drop (newest k rems.*2).

Lemma merge_post_skip drop l1 s k v tl l2 out :
  merge_post drop (l1 ++ (s, tl) :: l2) (Some k) out →
  merge_post drop (l1 ++ (s, (k, v) :: tl) :: l2) (Some k) out.
Proof.
  intros (H1 & H2 & H3). split_and!; [done|done|]. intros k' Hk'. rewrite H3 by done.
  by rewrite (newest_skip l1 l2 s k v tl k') by (intros ->; by apply key_lt_irrefl in Hk').
Qed.

(** From the keys above [k] to all the keys above [last], when [k] is the least
    key and its newest value is [v]. *)
Lemma merge_post_emit drop rems last k v out :
  merge_post drop rems (Some k) out → above last k → newest k rems.*2 = Some v →
  (∀ k', key_lt k' k → newest k' rems.*2 = None) →
  merge_post drop rems last
    (if drop && bool_decide (v = None) then out else (k, v) :: out).
Proof.
  intros (H1 & H2 & H3) Hab Hn Hlow.
  assert (∀ k', k' ∈ out.*1 → above last k') as Habove.
  { intros k' Hk'%H2. simpl in Hk'. destruct last as [L|]; [|done]. simpl in *. eauto with dugite. }
  assert (assoc k out = None) as Hkout.
  { apply assoc_None. intros Hk%H2. by apply key_lt_irrefl in Hk. }
  assert (∀ k', k' ≠ k → assoc k' out = drop_dead drop (newest k' rems.*2)) as Hother.
  { intros k' Hne. destruct (key_trichotomy k k') as [?|[->|Hlt]]; [by apply H3|done|].
    rewrite Hlow by done. assert (assoc k' out = None) as ->; [|by destruct drop].
    apply assoc_None. intros Hk%H2. simpl in Hk. by apply (key_lt_asym k k'). }
  destruct (drop && bool_decide (v = None)) eqn:E.
  - apply andb_true_iff in E as [-> ->%bool_decide_eq_true_1]. split_and!; [done|done|].
    intros k' _. destruct (decide (k' = k)) as [->|]; [|by apply Hother].
    by rewrite Hkout, Hn.
  - split_and!.
    + apply strict_sorted_cons. split; [|done]. apply Forall_forall. intros k' Hk'%H2. done.
    + simpl. intros k' [->|Hk']%elem_of_cons; auto.
    + intros k' _. simpl. case_decide as Hd; subst; [|by apply Hother].
      rewrite Hn. destruct drop; [|done]. simpl in E. by destruct v.
Qed.

Lemma merge_loop_spec fuel drop rems heap last result :
  inputs_ok rems → heap ≡ₚ seed_heap 0 rems → (total_len rems ≤ fuel)%nat →
  (∀ L i k, last = Some L → i ∈ rems → k ∈ i.2.*1 → key_le L k) →
  ∃ out, merge_loop fuel drop (advance_iter <$> rems) heap last result = result ++ out ∧
         merge_post drop rems last out.
Proof.
  revert rems heap last result.
  induction fuel as [|fuel IH]; intros rems heap last result Hok Hperm Hfuel Hlast.
  all: cbn [merge_loop]; destruct (heap_pop heap) as [[e heap']|] eqn:Hpop.
  2, 4: apply heap_pop_None in Hpop as ->; apply Permutation_nil_l in Hperm;
    exists []; rewrite app_nil_r; split_and!; [done|]; split_and!; [constructor|set_solver|];
    intros k _; rewrite (seed_heap_nil 0) by (by symmetry); by destruct drop.
  { exfalso. destruct (merge_turn _ _ _ _ Hok Hperm Hpop) as (l1 & s & tl & l2 & -> & _).
    unfold total_len in Hfuel. rewrite sum_list_with_app in Hfuel. simpl in Hfuel. lia. }
  destruct (merge_turn _ _ _ _ Hok Hperm Hpop)
    as (l1 & s & tl & l2 & Hr & Hseq & Hmax & -> & Hit & Halt & Hperm').
  rewrite Hit, Halt. cbn [snd]. set (k := h_key e) in *. set (v := h_value e) in *.
  assert (∀ y, y ∈ seed_heap 0 rems →
    heap_cmp (mkHeap k v (s * SEQ_BASE + Z.of_nat (length l1))) y ≠ Lt) as Hmax'.
  { intros y Hy. rewrite <-Hseq. apply Hmax in Hy. by destruct e. }
  rewrite Hr in Hmax', Hok.
  pose proof (min_head_le l1 l2 s k v tl Hok Hmax') as Hle.
  pose proof (min_head_newest l1 l2 s k v tl Hok Hmax') as Hnew.
  assert (total_len (l1 ++ (s, tl) :: l2) ≤ fuel)%nat as Hfuel'.
  { rewrite Hr in Hfuel. unfold total_len in *. rewrite sum_list_with_app in *. simpl in *. lia. }
  assert (∀ i k', i ∈ l1 ++ (s, tl) :: l2 → k' ∈ i.2.*1 → key_le k k') as Hle'.
  { intros i k' Hi Hk'. rewrite elem_of_app, elem_of_cons in Hi.
    destruct Hi as [Hi|[->|Hi]]; [apply (Hle i); set_solver| |apply (Hle i); set_solver].
    apply (Hle (s, (k, v) :: tl)); [set_solver|]. simpl in *. set_solver. }
  assert (∀ last' result', last' = Some k →
    ∃ out, merge_loop fuel drop (advance_iter <$> (l1 ++ (s, tl) :: l2))
             (push_next heap' tl (h_seq e - h_seq e mod SEQ_BASE + h_seq e mod SEQ_BASE))
             last' result' = result' ++ out ∧ merge_post drop rems (Some k) out) as Hrec.
  { intros last' result' ->.
    destruct (IH _ _ (Some k) result' (inputs_ok_tail _ _ _ _ _ Hok) Hperm' Hfuel') as (out & Hout & Hpost).
    { intros L i k' [= <-]. apply Hle'. }
    exists out. split; [done|]. rewrite Hr. by apply merge_post_skip. }
  case_decide as Hd; [subst last; by apply Hrec|].
  assert (above last k) as Hab.
  { destruct last as [L|]; [|done]. simpl.
    assert (key_le L k) as [?|Heq]%key_le_lt_eq; [|done|congruence].
    eapply (Hlast L (s, (k, v) :: tl)); [done| |]; rewrite ?Hr; set_solver. }
  assert (∀ k', key_lt k' k → newest k' rems.*2 = None) as Hlow.
  { intros k' Hk'. apply newest_None. intros l ([s' l'] & -> & Hin)%list_elem_of_fmap. simpl.
    apply assoc_None. intros Hin'. apply (key_lt_irrefl k'). eapply key_lt_le_trans; [done|].
    apply (Hle (s', l')); [by rewrite <-Hr|done]. }
  rewrite <-Hr in Hnew.
  destruct (drop && bool_decide (v = None)) eqn:E.
  - destruct (Hrec (Some k) result eq_refl) as (out & Hout & Hpost). exists out. split; [done|].
    pose proof (merge_post_emit _ _ last _ _ _ Hpost Hab Hnew Hlow) as H. by rewrite E in H.
  - destruct (Hrec (Some k) (result ++ [(k, v)]) eq_refl) as (out & Hout & Hpost).
    exists ((k, v) :: out). split; [by rewrite Hout, <-app_assoc|].
    pose proof (merge_post_emit _ _ last _ _ _ Hpost Hab Hnew Hlow) as H. by rewrite E in H.
Qed.

(** The merge of sorted inputs is sorted, and its lookup is the lookup in the
    newest input that has the key. *)
Lemma merge_entries_spec inputs drop :
  inputs_ok inputs →
  strict_sorted (merge_entries inputs drop) ∧
  ∀ k, assoc k (merge_entries inputs drop) = drop_dead drop (newest k inputs.*2).
Proof.
  intros Hok. unfold merge_entries. change (sum_list_with _ inputs) with (total_len inputs).
  destruct (merge_loop_spec (total_len inputs) drop inputs (seed_heap 0 inputs) None [])
    as (out & -> & Hs & _ & H); [done|done|done|done|].
  simpl. split; [done|]. intros k. by apply H.
Qed.

Lemma newest_elem k ls v : newest k ls = Some v → ∃ l, l ∈ ls ∧ (k, v) ∈ l.
Proof.
  induction ls as [|l ls IH]; simpl; [done|].
  destruct (newest k ls) as [v'|].
  - intros [= ->]. destruct IH as (l' & ? & ?); [done|]. set_solver.
  - intros H%assoc_elem. set_solver.
Qed.

(** Every entry of the merge is an entry of an input. *)
Lemma merge_entries_elem inputs drop e :
  inputs_ok inputs → e ∈ merge_entries inputs drop → ∃ l, l ∈ inputs.*2 ∧ e ∈ l.
Proof.
  intros Hok He. destruct (merge_entries_spec inputs drop Hok) as [Hs Hl].
  destruct e as [k v]. apply (assoc_sorted_elem _ _ _ Hs) in He. rewrite Hl in He.
  assert (newest k inputs.*2 = Some v) as (l & ? & ?)%newest_elem; [|eauto].
  destruct drop; [|done]. simpl in He. destruct (newest k inputs.*2) as [[?|]|]; naive_solver.
Qed.

(** ** Size of a merge *)

Lemma sum_list_with_submseteq {A} (f : A → nat) l1 l2 :
  l1 ⊆+ l2 → (sum_list_with f l1 ≤ sum_list_with f l2)%nat.
Proof.
  intros (k & Hk)%submseteq_Permutation.
  assert (sum_list_with f l2 = sum_list_with f (l1 ++ k)) as ->; [|rewrite sum_list_with_app; lia].
  clear -Hk. induction Hk; simpl; lia.
Qed.

Lemma merge_entries_submseteq inputs drop :
  inputs_ok inputs → merge_entries inputs drop ⊆+ mjoin inputs.*2.
Proof.
  intros Hok. apply NoDup_submseteq.
  - destruct (merge_entries_spec inputs drop Hok) as [Hs _].
    apply strict_sorted_NoDup in Hs. by eapply NoDup_fmap_1.
  - intros e (l & Hl & He)%(merge_entries_elem _ _ _ Hok). apply list_elem_of_join. eauto.
Qed.
