(* ===== verification/LsmMemtable.v ===== *)
(** * In-memory write buffer ([crates/dugite-lsm/src/memtable.rs])

    The [BTreeMap<Key, Option<Value>>] of the memtable as a key-sorted
    association list ([None] is a tombstone), with the running byte count.
    [mem_ok] says that the list is strictly sorted and the count exact. *)

From S2P Require Import Prelude Order Bytes LsmPage LsmRun.
Local Open Scope nat_scope.

(** ** Definitions *)

Record MemTable := mkMem {
  mem_entries : list entry;
  mem_approx_bytes : nat;
}.

#[global] Instance MemTable_eq_dec : EqDecision MemTable.
Proof. solve_decision. Defined.

(** [BTreeMap::insert]: the new map and the value that was replaced. *)
Fixpoint btree_insert (k : Key) (v : option Value) (l : list entry) :
    list entry * option (option Value) :=
  match l with
  | [] => ([(k, v)], None)
  | (k', v') :: l' =>
      match slice_cmp k k' with
      | Lt => ((k, v) :: l, None)
      | Eq => ((k, v) :: l', Some v')
      | Gt => let '(l2, old) := btree_insert k v l' in ((k', v') :: l2, old)
      end
  end.

Definition mem_new : MemTable := mkMem [] 0.

(** [old.as_ref().map_or(0, |v| v.len())] *)
Definition value_len (v : option Value) : nat :=
  match v with Some v => length v | None => 0 end.

(** [usize::saturating_sub] is [-] of [nat]. *)
Definition mem_insert (m : MemTable) (key : Key) (value : Value) : MemTable :=
  let '(entries, old) := btree_insert key (Some value) (mem_entries m) in
  match old with
  | Some old => mkMem entries (mem_approx_bytes m - value_len old + length value)
  | None => mkMem entries (mem_approx_bytes m + (length key + length value))
  end.

Definition mem_delete (m : MemTable) (key : Key) : MemTable :=
  let '(entries, old) := btree_insert key None (mem_entries m) in
  match old with
  | Some old => mkMem entries (mem_approx_bytes m - value_len old)
  | None => mkMem entries (mem_approx_bytes m + length key)
  end.

Definition mem_get (m : MemTable) (key : Key) : option (option Value) := assoc key (mem_entries m).

Definition mem_len (m : MemTable) : nat := length (mem_entries m).

Definition mem_is_empty (m : MemTable) : bool :=
  match mem_entries m with [] => true | _ => false end.

Definition mem_drain (m : MemTable) : list entry * MemTable := (mem_entries m, mem_new).

Definition mem_iter (m : MemTable) : list entry := mem_entries m.

(** [BTreeMap::range] with two included bounds panics ([None]) when the start
    is greater than the end. *)
Definition mem_range (m : MemTable) (from to : Key) : option (list entry) :=
  if key_ltb to from then None else Some (filter (in_range from to) (mem_entries m)).

(** ** Invariant *)

Definition entry_bytes (e : entry) : nat := length e.1 + value_len e.2.

Record mem_ok (m : MemTable) : Prop := {
  mem_ok_sorted : strict_sorted (mem_entries m);
  mem_ok_bytes : mem_approx_bytes m = sum_list_with entry_bytes (mem_entries m);
}.

(** ** Sorted insertion *)

Lemma btree_insert_keys k v l k' :
  k' ∈ (btree_insert k v l).1.*1 ↔ k' = k ∨ k' ∈ l.*1.
Proof.
  induction l as [|[k1 v1] l IH]; simpl; [set_solver|].
  destruct (slice_cmp k k1) eqn:E; simpl.
  - apply slice_cmp_eq in E as ->. set_solver.
  - set_solver.
  - destruct (btree_insert k v l) as [l2 old]. simpl in *. set_solver.
Qed.

Lemma btree_insert_sorted k v l : strict_sorted l → strict_sorted (btree_insert k v l).1.
Proof.
  induction l as [|[k1 v1] l IH]; simpl; intros H.
  { apply strict_sorted_cons. split; constructor. }
  apply strict_sorted_cons in H as [Hall Hs].
  destruct (slice_cmp k k1) eqn:E; simpl.
  - apply slice_cmp_eq in E as ->. by apply strict_sorted_cons.
  - apply strict_sorted_cons. split; [|by apply strict_sorted_cons].
    constructor; [done|]. eapply Forall_impl; [exact Hall|]. simpl.
    intros k' Hk'. by eapply key_lt_trans.
  - pose proof (btree_insert_keys k v l) as Hk.
    destruct (btree_insert k v l) as [l2 old]. simpl in *.
    apply strict_sorted_cons. split; [|by apply IH].
    rewrite Forall_forall in *. intros k' [->|Hin]%Hk; [by apply key_gt_lt|by apply Hall].
Qed.

Lemma btree_insert_old k v l : strict_sorted l → (btree_insert k v l).2 = assoc k l.
Proof.
  induction l as [|[k1 v1] l IH]; simpl; intros H; [done|].
  apply strict_sorted_cons in H as [Hall Hs].
  destruct (slice_cmp k k1) eqn:E; simpl; case_decide as Hd; subst.
  - done.
  - by apply slice_cmp_eq in E as ->.
  - by apply key_lt_irrefl in E.
  - symmetry. apply assoc_lt_None. eapply Forall_impl; [exact Hall|].
    intros k' Hk'. by eapply key_lt_trans.
  - apply key_gt_lt in E. by apply key_lt_irrefl in E.
  - destruct (btree_insert k v l); simpl in *. auto.
Qed.

Lemma btree_insert_assoc k v l k' :
  strict_sorted l →
  assoc k' (btree_insert k v l).1 = if decide (k' = k) then Some v else assoc k' l.
Proof.
  induction l as [|[k1 v1] l IH]; simpl; intros H.
  { repeat case_decide; congruence. }
  apply strict_sorted_cons in H as [Hall Hs].
  destruct (slice_cmp k k1) eqn:E; simpl.
  - apply slice_cmp_eq in E as ->. repeat case_decide; congruence.
  - repeat case_decide; congruence.
  - destruct (btree_insert k v l) as [l2 old]; simpl in *. rewrite IH by done.
    apply key_gt_lt in E. repeat case_decide; subst; try done.
    by apply key_lt_irrefl in E.
Qed.

(** The byte count of the new list, by the replaced value. *)
Lemma btree_insert_bytes k v l :
  strict_sorted l →
  sum_list_with entry_bytes (btree_insert k v l).1 =
    match (btree_insert k v l).2 with
    | Some old => sum_list_with entry_bytes l - value_len old + value_len v
    | None => sum_list_with entry_bytes l + (length k + value_len v)
    end ∧
  match (btree_insert k v l).2 with
  | Some old => value_len old ≤ sum_list_with entry_bytes l
  | None => True
  end.
Proof.
  induction l as [|[k1 v1] l IH]; simpl; intros H; [unfold entry_bytes; simpl; lia|].
  apply strict_sorted_cons in H as [Hall Hs]. specialize (IH Hs) as [IH1 IH2].
  destruct (slice_cmp k k1) eqn:E; simpl.
  - apply slice_cmp_eq in E as ->. unfold entry_bytes; simpl. lia.
  - unfold entry_bytes; simpl. lia.
  - destruct (btree_insert k v l) as [l2 [old|]]; simpl in *; lia.
Qed.

Lemma btree_insert_sum (f : entry → nat) k v l :
  sum_list_with f (btree_insert k v l).1 ≤ sum_list_with f l + f (k, v).
Proof.
  induction l as [|[k1 v1] l IH]; simpl; [lia|].
  destruct (slice_cmp k k1); simpl; [lia..|]. destruct (btree_insert k v l); simpl in *. lia.
Qed.

Lemma btree_insert_length k v l : length (btree_insert k v l).1 ≤ S (length l).
Proof.
  induction l as [|[k1 v1] l IH]; simpl; [lia|].
  destruct (slice_cmp k k1); simpl; [lia..|]. destruct (btree_insert k v l); simpl in *. lia.
Qed.

Lemma btree_insert_Forall (P : entry → Prop) k v l :
  P (k, v) → Forall P l → Forall P (btree_insert k v l).1.
Proof.
  intros Hk Hl. induction Hl as [|[k1 v1] l H1 Hl IH]; simpl; [auto|].
  destruct (slice_cmp k k1); simpl; [by constructor..|by repeat constructor|].
  destruct (btree_insert k v l); simpl in *. by constructor.
Qed.

(** ** Operations *)

Lemma mem_new_ok : mem_ok mem_new.
Proof. split; [constructor|done]. Qed.

Lemma mem_insert_spec m k v :
  mem_ok m →
  mem_ok (mem_insert m k v) ∧
  ∀ k', mem_get (mem_insert m k v) k' = if decide (k' = k) then Some (Some v) else mem_get m k'.
Proof.
  intros [Hs Hb]. unfold mem_insert, mem_get.
  pose proof (btree_insert_sorted k (Some v) _ Hs) as H1.
  pose proof (λ k', btree_insert_assoc k (Some v) _ k' Hs) as H2.
  pose proof (btree_insert_bytes k (Some v) _ Hs) as [H3 H4].
  destruct (btree_insert k (Some v) (mem_entries m)) as [l [old|]]; simpl in *;
    (split; [split; simpl; [done|lia]|done]).
Qed.

Lemma mem_delete_spec m k :
  mem_ok m →
  mem_ok (mem_delete m k) ∧
  ∀ k', mem_get (mem_delete m k) k' = if decide (k' = k) then Some None else mem_get m k'.
Proof.
  intros [Hs Hb]. unfold mem_delete, mem_get.
  pose proof (btree_insert_sorted k None _ Hs) as H1.
  pose proof (λ k', btree_insert_assoc k None _ k' Hs) as H2.
  pose proof (btree_insert_bytes k None _ Hs) as [H3 H4].
  destruct (btree_insert k None (mem_entries m)) as [l [old|]]; simpl in *;
    (split; [split; simpl; [done|lia]|done]).
Qed.

#[export] Hint Resolve mem_new_ok : dugite.

Lemma mem_is_empty_true m : mem_is_empty m = true ↔ mem_entries m = [].
Proof. unfold mem_is_empty. by destruct (mem_entries m). Qed.

Lemma mem_insert_entries m k v :
  mem_entries (mem_insert m k v) = (btree_insert k (Some v) (mem_entries m)).1.
Proof. unfold mem_insert. by destruct (btree_insert _ _ _) as [? []]. Qed.

Lemma mem_delete_entries m k :
  mem_entries (mem_delete m k) = (btree_insert k None (mem_entries m)).1.
Proof. unfold mem_delete. by destruct (btree_insert _ _ _) as [? []]. Qed.
