(* ===== verification/LsmWal.v ===== *)
(** * Write-ahead log ([crates/dugite-lsm/src/wal.rs])

    The log directory is a list of segment files (number, bytes), or [None]
    while the directory does not exist; [read_dir] lists it and the replay sorts by
    file name. Writes reach the file (the writer flushes every call). *)

From S2P Require Import Prelude Order Bytes Effects LsmPage LsmMemtable.
Local Open Scope nat_scope.

(** ** Definitions *)

Definition OP_INSERT : Z := 1.
Definition OP_DELETE : Z := 2.

Inductive WalOp : Type :=
| WalInsert (k : Key) (v : Value)
| WalDelete (k : Key).

#[global] Instance WalOp_eq_dec : EqDecision WalOp.
Proof. solve_decision. Defined.

Abbreviation Segment := (Z * list Z)%type.

Record WalWriter := mkWal {
  wal_dir : option (list Segment);
  writer_seg : option Z;
  segment_num : Z;
  segment_bytes : nat;
  max_segment_size : nat;
  wal_enabled : bool;
}.

(** [{num:06}]: decimal digits, at least six. *)
Fixpoint digits (w : nat) (n : Z) : list Z :=
  match w with
  | O => []
  | S w' => (48 + n / 10 ^ Z.of_nat w')%Z :: digits w' (n mod 10 ^ Z.of_nat w')%Z
  end.

Fixpoint decimal_width (fuel : nat) (n : Z) : nat :=
  match fuel with
  | O => 1
  | S fuel' => if (n <? 10)%Z then 1 else S (decimal_width fuel' (n / 10)%Z)
  end.

(** ["wal-"] and [".log"] in ASCII; a [u64] has at most twenty digits. *)
Definition segment_name (num : Z) : list Z :=
  [119; 97; 108; 45]%Z ++ digits (max 6 (decimal_width 20 num)) num ++ [46; 108; 111; 103]%Z.

Definition find_max_segment (dir : option (list Segment)) : Z :=
  foldr Z.max 0%Z (default [] dir).*1.

(** [OpenOptions::create(true).append(true)] *)
Definition open_segment (num : Z) : eff (option (list Segment)) () := λ dir,
  match dir with
  | None => (Err (Fail (Io NotFound)), None)
  | Some segs => (Ok (), Some (if decide (num ∈ segs.*1) then segs else segs ++ [(num, [])]))
  end.

Definition append_segment (num : Z) (bs : list Z) (segs : list Segment) : list Segment :=
  (λ s : Segment, if decide (s.1 = num) then (s.1, s.2 ++ bs) else s) <$> segs.

Section wal.
Context {CR : Crates}.

Definition set_dir (d : option (list Segment)) (w : WalWriter) : WalWriter :=
  mkWal d (writer_seg w) (segment_num w) (segment_bytes w) (max_segment_size w) (wal_enabled w).

(** [self.writer = Some(open_segment(..)?)] *)
Definition start_segment (num : Z) : eff WalWriter () :=
  zoom wal_dir set_dir (open_segment num) ;;
  modify (λ w, mkWal (wal_dir w) (Some num) (segment_num w) (segment_bytes w)
                 (max_segment_size w) (wal_enabled w)).

Definition wal_new (dir : option (list Segment)) (max : nat) (enabled : bool) :
    result Fault () * WalWriter :=
  if enabled then
    let dir := Some (default [] dir) in
    let num := (find_max_segment dir + 1)%Z in
    start_segment num (mkWal dir None num 0 max enabled)
  else (Ok (), mkWal dir None 0 0 max enabled).

Definition set_enabled (enabled : bool) (w : WalWriter) : WalWriter :=
  mkWal (wal_dir w) (writer_seg w) (segment_num w) (segment_bytes w) (max_segment_size w) enabled.

(** Close the file, take the next number, restart the byte count and open. *)
Definition next_segment : eff WalWriter () :=
  modify (λ w, mkWal (wal_dir w) None (segment_num w + 1) 0 (max_segment_size w) (wal_enabled w)) ;;
  num ← gets segment_num;
  start_segment num.

Definition maybe_rotate : eff WalWriter () :=
  full ← gets (λ w, max_segment_size w <=? segment_bytes w);
  when full next_segment.

Definition op_payload (op : WalOp) : list Z :=
  match op with
  | WalInsert k v =>
      [OP_INSERT] ++ bo_write 2 (as_u16 (length k)) ++ k ++ bo_write 2 (as_u16 (length v)) ++ v
  | WalDelete k => [OP_DELETE] ++ bo_write 2 (as_u16 (length k)) ++ k
  end.

Definition payload_len (op : WalOp) : nat :=
  match op with
  | WalInsert k v => 1 + 2 + length k + 2 + length v
  | WalDelete k => 1 + 2 + length k
  end.

Definition op_frame (op : WalOp) : list Z :=
  bo_write 4 (as_u32 (payload_len op)) ++ op_payload op ++ bo_write 4 (crc32_hash (op_payload op)).

(** [writer.as_mut().unwrap()] and the write of [buf]. *)
Definition write_all (buf : list Z) : eff WalWriter () := λ w,
  match writer_seg w with
  | None => (Err Panic, w)
  | Some num => (Ok (), set_dir (append_segment num buf <$> wal_dir w) w)
  end.

Definition add_bytes (n : nat) (w : WalWriter) : WalWriter :=
  mkWal (wal_dir w) (writer_seg w) (segment_num w) (segment_bytes w + n)
    (max_segment_size w) (wal_enabled w).

Definition log_op (op : WalOp) : eff WalWriter () :=
  enabled ← gets wal_enabled;
  when enabled
    (maybe_rotate ;;
     write_all (op_frame op) ;;
     modify (add_bytes (4 + payload_len op + 4))).

Definition log_insert (key : Key) (value : Value) : eff WalWriter () := log_op (WalInsert key value).
Definition log_delete (key : Key) : eff WalWriter () := log_op (WalDelete key).

Definition batch_ops (inserts : list (Key * Value)) (deletes : list Key) : list WalOp :=
  ((λ kv, WalInsert kv.1 kv.2) <$> inserts) ++ (WalDelete <$> deletes).

Definition log_batch (inserts : list (Key * Value)) (deletes : list Key) : eff WalWriter () :=
  enabled ← gets wal_enabled;
  when (enabled && negb (bool_decide (inserts = []) && bool_decide (deletes = [])))
    (maybe_rotate ;;
     let buf := mjoin (op_frame <$> batch_ops inserts deletes) in
     write_all buf ;;
     modify (add_bytes (length buf))).

(** [read_dir] of a missing directory is ignored; every segment is deleted. *)
Definition wal_clear : eff WalWriter () :=
  enabled ← gets wal_enabled;
  when enabled
    (modify (λ w, set_dir ((λ _, []) <$> wal_dir w) w) ;;
     next_segment).

(** [map_err(|e| Error::WalCorruption { offset, detail })] *)
Definition corrupt {A} (offset : Z) (detail : string) (r : lsm_result A) : lsm_result A :=
  match r with Ok a => Ok a | Err _ => Err (WalCorruption offset detail) end.

Definition parse_payload (offset : Z) (payload : list Z) : lsm_result WalOp :=
  '(op_tag, r) ← corrupt offset "failed to read op tag" (bo_read 1 payload);
  '(key_len, r) ← corrupt offset "failed to read key length" (bo_read 2 r);
  '(key, r) ← corrupt offset "truncated key" (read_exact (Z.to_nat key_len) r);
  if (op_tag =? OP_INSERT)%Z then
    '(value_len, r) ← corrupt offset "failed to read value length" (bo_read 2 r);
    '(value, r) ← corrupt offset "truncated value" (read_exact (Z.to_nat value_len) r);
    Ok (WalInsert key value)
  else if (op_tag =? OP_DELETE)%Z then Ok (WalDelete key)
  else Err (WalCorruption offset "unknown op tag").

(** The operation, the bytes consumed and the rest of the reader. *)
Definition read_wal_entry (reader : list Z) (offset : Z) : lsm_result (WalOp * nat * list Z) :=
  '(total_len, r) ← corrupt offset "failed to read entry length" (bo_read 4 reader);
  '(payload, r) ← corrupt offset "truncated payload" (read_exact (Z.to_nat total_len) r);
  '(expected_crc, r) ← corrupt offset "failed to read CRC" (bo_read 4 r);
  if (crc32_hash payload =? expected_crc)%Z then
    op ← parse_payload offset payload;
    Ok (op, 4 + Z.to_nat total_len + 4, r)
  else Err (WalCorruption offset "CRC mismatch").

(** [while offset < file_len]: every entry takes at least one byte, so a fuel
    of [file_len] is enough. *)
Fixpoint replay_loop (fuel file_len offset : nat) (reader : list Z) : list WalOp :=
  match fuel with
  | O => []
  | S fuel' =>
      if offset <? file_len then
        match read_wal_entry reader (Z.of_nat offset) with
        | Ok (op, n, reader') => op :: replay_loop fuel' file_len (offset + n) reader'
        | Err _ => []
        end
      else []
  end.

Definition replay_segment (file : list Z) : list WalOp :=
  replay_loop (length file) (length file) 0 file.

(** [segments.sort()] of the paths of one directory. *)
Fixpoint insert_by_name (s : Segment) (l : list Segment) : list Segment :=
  match l with
  | [] => [s]
  | t :: l' => if key_leb (segment_name s.1) (segment_name t.1) then s :: l
               else t :: insert_by_name s l'
  end.

Definition sort_segments (l : list Segment) : list Segment := foldr insert_by_name [] l.

Definition replay_wal (dir : option (list Segment)) : list WalOp :=
  mjoin ((λ s : Segment, replay_segment s.2) <$> sort_segments (default [] dir)).

(** The [match op] of [LsmTree::open]. *)
Definition apply_op (m : MemTable) (op : WalOp) : MemTable :=
  match op with
  | WalInsert k v => mem_insert m k v
  | WalDelete k => mem_delete m k
  end.

End wal.

(** ** Frames *)

Section wal_proofs.
Context {CR : Crates} {CROK : CratesOk}.

Definition op_ok (op : WalOp) : Prop :=
  match op with
  | WalInsert k v => (Z.of_nat (length k) < 2 ^ 16)%Z ∧ (Z.of_nat (length v) < 2 ^ 16)%Z
  | WalDelete k => (Z.of_nat (length k) < 2 ^ 16)%Z
  end.

(** What a reader makes of a logged operation: the value length is a [u16]. *)
Definition op_read (op : WalOp) : WalOp :=
  match op with
  | WalInsert k v => WalInsert k (take (Z.to_nat (as_u16 (length v))) v)
  | WalDelete k => op
  end.

Definition op_readable (op : WalOp) : Prop :=
  match op with
  | WalInsert k v => (Z.of_nat (length k) < 2 ^ 16)%Z
  | WalDelete k => (Z.of_nat (length k) < 2 ^ 16)%Z
  end ∧ (Z.of_nat (payload_len op) < 2 ^ 32)%Z.

Lemma op_ok_readable op : op_ok op → op_readable op.
Proof. destruct op; unfold op_readable; simpl; lia. Qed.

Lemma op_ok_read op : op_ok op → op_read op = op.
Proof.
  destruct op as [k v|k]; simpl; [|done]. intros [_ H].
  by rewrite as_u16_small, Nat2Z.id, firstn_all by done.
Qed.

Lemma length_op_payload op : length (op_payload op) = payload_len op.
Proof.
  destruct op; cbn [op_payload payload_len]; rewrite !length_app, !length_bo_write by auto with dugite;
    simpl; lia.
Qed.

#[local] Hint Resolve crc32_range : dugite.

Lemma length_op_frame op : length (op_frame op) = 4 + payload_len op + 4.
Proof.
  unfold op_frame. rewrite !length_app, !length_bo_write, length_op_payload by auto with dugite. lia.
Qed.

Lemma bo_read_tag t r : (0 ≤ t < 256)%Z → bo_read 1 ([t] ++ r) = Ok (t, r).
Proof.
  intros Ht. rewrite bo_read_le. simpl. change (take 0 r) with (@nil Z). simpl.
  rewrite drop_0. do 2 f_equal. lia.
Qed.

Lemma read_exact_take n l : n ≤ length l → read_exact n l = Ok (take n l, drop n l).
Proof. intros H. unfold read_exact. by destruct (Nat.ltb_spec (length l) n); [lia|]. Qed.

Lemma parse_op_payload off op : op_readable op → parse_payload off (op_payload op) = Ok (op_read op).
Proof.
  intros [Hr _]. unfold parse_payload. destruct op as [k v|k]; cbn [op_payload op_read] in *.
  - rewrite bo_read_tag by done. cbn [corrupt mbind result_bind].
    rewrite bo_read_write by auto with dugite. cbn [corrupt mbind result_bind].
    rewrite as_u16_small, Nat2Z.id, read_exact_app by done. cbn [corrupt mbind result_bind].
    change (OP_INSERT =? OP_INSERT)%Z with true. cbn [corrupt mbind result_bind].
    rewrite bo_read_write by auto with dugite. cbn [corrupt mbind result_bind].
    rewrite read_exact_take; [done|].
    unfold as_u16. pose proof (Z.mod_le (Z.of_nat (length v)) (2 ^ 16)). lia.
  - rewrite bo_read_tag by done. cbn [corrupt mbind result_bind].
    rewrite bo_read_write by auto with dugite. cbn [corrupt mbind result_bind].
    rewrite as_u16_small, Nat2Z.id by done.
    rewrite <-(app_nil_r k) at 2. by rewrite read_exact_app.
Qed.

Lemma read_op_frame off op r :
  op_readable op →
  read_wal_entry (op_frame op ++ r) off = Ok (op_read op, length (op_frame op), r).
Proof.
  intros Hr. unfold read_wal_entry, op_frame at 1. rewrite <-!app_assoc.
  rewrite bo_read_write by auto with dugite. cbn [corrupt mbind result_bind].
  rewrite as_u32_small, Nat2Z.id by apply Hr.
  rewrite read_exact_app by apply length_op_payload. cbn [corrupt mbind result_bind].
  rewrite bo_read_write by auto with dugite. cbn [corrupt mbind result_bind].
  rewrite Z.eqb_refl, parse_op_payload, length_op_frame by done. done.
Qed.

(** A proper prefix of a frame is not an entry. *)
Lemma read_op_prefix off op n :
  op_readable op → n < length (op_frame op) →
  ∃ e, read_wal_entry (take n (op_frame op)) off = Err e.
Proof.
  intros Hr Hn. rewrite length_op_frame in Hn. unfold read_wal_entry, op_frame.
  set (p := op_payload op). pose proof (length_op_payload op) as Hp.
  assert (length (bo_write 4 (as_u32 (payload_len op))) = 4) as H4
    by (apply length_bo_write; auto with dugite).
  destruct (decide (n < 4)) as [Hlt|Hge].
  { rewrite bo_read_short; [simpl; eauto|]. rewrite length_take. lia. }
  rewrite take_app_ge, H4 by lia. rewrite bo_read_write by auto with dugite.
  cbn [corrupt mbind result_bind]. rewrite as_u32_small, Nat2Z.id by apply Hr.
  destruct (decide (n - 4 < payload_len op)) as [Hlt|Hge'].
  { rewrite read_exact_short; [simpl; eauto|]. rewrite length_take. lia. }
  rewrite take_app_ge by (fold p in Hp; lia). rewrite read_exact_app by done.
  cbn [corrupt mbind result_bind]. rewrite bo_read_short; [simpl; eauto|].
  rewrite length_take. fold p in Hp. lia.
Qed.

Abbreviation frames ops := (mjoin (op_frame <$> ops)).

Lemma op_frame_pos op : 1 ≤ length (op_frame op).
Proof. rewrite length_op_frame. lia. Qed.

(** The loop reads the frames and stops at the first thing that is none. *)
Lemma replay_loop_frames fuel file_len offset ops tail :
  Forall op_readable ops → (tail = [] ∨ ∀ off, ∃ e, read_wal_entry tail off = Err e) →
  file_len = offset + length (frames ops ++ tail) → length (frames ops) < fuel ∨ tail = [] ∧ length (frames ops) ≤ fuel →
  replay_loop fuel file_len offset (frames ops ++ tail) = op_read <$> ops.
Proof.
  intros Hops Ht. revert fuel offset.
  induction Hops as [|op ops Hop Hops IH]; intros fuel offset Hlen Hfuel.
  - simpl. change (mjoin [] ++ tail) with tail in *.
    destruct fuel as [|fuel]; [done|]. simpl.
    destruct Ht as [->|Ht].
    + simpl in Hlen. destruct (Nat.ltb_spec offset file_len); [lia|done].
    + destruct (Nat.ltb_spec offset file_len); [|done]. by destruct (Ht (Z.of_nat offset)) as [e ->].
  - rewrite !fmap_cons, mjoin_cons in *. rewrite <-app_assoc in *. rewrite !length_app in *.
    pose proof (op_frame_pos op). destruct fuel as [|fuel]; [lia|]. cbn [replay_loop].
    destruct (Nat.ltb_spec offset file_len); [|lia].
    rewrite read_op_frame by done. f_equal. apply IH; rewrite ?length_app; [lia|]. destruct Hfuel as [?|[-> ?]]; [left; lia|right; split; [done|lia]].
Qed.

Lemma replay_frames ops :
  Forall op_ok ops → replay_segment (frames ops) = ops.
Proof.
  intros Hops. unfold replay_segment. rewrite <-(app_nil_r (frames ops)) at 3.
  rewrite replay_loop_frames.
  - rewrite <-(list_fmap_id ops) at 2. apply list_fmap_ext. intros i op Hi.
    apply op_ok_read. by eapply Forall_lookup.
  - eapply Forall_impl; [done|]. apply op_ok_readable.
  - by left.
  - by rewrite app_nil_r.
  - by right.
Qed.

(** Number of frames that fit in the first [n] bytes. *)
Fixpoint whole_frames (ops : list WalOp) (n : nat) : nat :=
  match ops with
  | [] => 0
  | op :: ops' => if length (op_frame op) <=? n then S (whole_frames ops' (n - length (op_frame op))) else 0
  end.

Lemma take_frames ops n :
  Forall op_ok ops →
  ∃ tail, take n (frames ops) = frames (take (whole_frames ops n) ops) ++ tail ∧
    (tail = [] ∨ ∀ off, ∃ e, read_wal_entry tail off = Err e).
Proof.
  intros Hops. revert n. induction Hops as [|op ops Hop Hops IH]; intros n.
  { exists []. simpl. rewrite take_nil. auto. }
  rewrite fmap_cons, mjoin_cons. cbn [whole_frames].
  destruct (Nat.leb_spec (length (op_frame op)) n) as [Hle|Hlt].
  - destruct (IH (n - length (op_frame op))) as (tail & Ht & Hbad). exists tail. split; [|done].
    cbn [take]. rewrite fmap_cons, mjoin_cons, take_app_ge, Ht by done. by rewrite app_assoc.
  - exists (take n (op_frame op)). rewrite take_app_le by lia. split; [done|]. right.
    intros off. apply read_op_prefix; [by apply op_ok_readable|done].
Qed.

Lemma replay_truncated ops n :
  Forall op_ok ops → replay_segment (take n (frames ops)) = take (whole_frames ops n) ops.
Proof.
  intros Hops. destruct (take_frames ops n Hops) as (tail & Ht & Hbad).
  unfold replay_segment. rewrite Ht at 3. rewrite replay_loop_frames.
  - rewrite <-(list_fmap_id (take _ _)) at 2. apply list_fmap_ext. intros i op Hi.
    apply op_ok_read. eapply Forall_lookup; [|done]. by apply Forall_take.
  - apply Forall_take. eapply Forall_impl; [done|]. apply op_ok_readable.
  - done.
  - by rewrite Ht.
  - rewrite Ht, length_app. destruct Hbad as [->|Hbad]; [right; simpl; split; [done|lia]|].
    destruct tail as [|b tail]; [right; split; [done|simpl; lia]|left; simpl; lia].
Qed.

(** ** Segment order *)

Lemma digits_cmp w n m :
  (0 ≤ n < 10 ^ Z.of_nat w)%Z → (0 ≤ m < 10 ^ Z.of_nat w)%Z →
  slice_cmp (digits w n) (digits w m) = (n ?= m)%Z.
Proof.
  revert n m. induction w as [|w IH]; intros n m Hn Hm.
  { simpl in *. symmetry. apply Z.compare_eq_iff. lia. }
  rewrite Nat2Z.inj_succ, Z.pow_succ_r in Hn, Hm by lia.
  assert (0 < 10 ^ Z.of_nat w)%Z as Hp by lia. set (b := (10 ^ Z.of_nat w)%Z) in *.
  cbn [digits slice_cmp]. fold b.
  pose proof (Z.div_mod n b ltac:(lia)) as Hdn. pose proof (Z.div_mod m b ltac:(lia)) as Hdm.
  pose proof (Z.mod_pos_bound n b Hp). pose proof (Z.mod_pos_bound m b Hp).
  destruct (Z.compare_spec (48 + n / b) (48 + m / b)).
  - rewrite IH by lia. destruct (Z.compare_spec (n mod b) (m mod b)); symmetry;
      rewrite ?Z.compare_eq_iff, ?Z.compare_lt_iff, ?Z.compare_gt_iff; nia.
  - symmetry. rewrite Z.compare_lt_iff. nia.
  - symmetry. rewrite Z.compare_gt_iff. nia.
Qed.

Lemma slice_cmp_app_same (p a b : list Z) : slice_cmp (p ++ a) (p ++ b) = slice_cmp a b.
Proof. induction p as [|x p IH]; simpl; [done|]. by rewrite Z.compare_refl. Qed.

Lemma slice_cmp_app_len (a b s : list Z) :
  length a = length b → slice_cmp (a ++ s) (b ++ s) = slice_cmp a b.
Proof.
  revert b. induction a as [|x a IH]; intros [|y b] Hl; simpl in *; try lia.
  - apply slice_cmp_refl.
  - rewrite IH by lia. done.
Qed.

Lemma length_digits w n : length (digits w n) = w.
Proof. revert n. induction w as [|w IH]; intros n; simpl; [done|]. by rewrite IH. Qed.

Lemma decimal_width_small fuel w n :
  (0 ≤ n < 10 ^ Z.of_nat (S w))%Z → decimal_width fuel n ≤ S w.
Proof.
  revert w n. induction fuel as [|fuel IH]; intros w n Hn; simpl; [lia|].
  destruct (Z.ltb_spec n 10); [lia|]. destruct w as [|w]; [simpl in Hn; lia|].
  apply le_n_S, IH. rewrite (Nat2Z.inj_succ (S w)), Z.pow_succ_r in Hn by lia.
  split; [apply Z.div_pos; lia|apply Z.div_lt_upper_bound; lia].
Qed.

(** Below one million the names sort like the numbers. *)
Lemma segment_name_cmp n m :
  (0 ≤ n < 10 ^ 6)%Z → (0 ≤ m < 10 ^ 6)%Z →
  slice_cmp (segment_name n) (segment_name m) = (n ?= m)%Z.
Proof.
  intros Hn Hm. unfold segment_name.
  rewrite !Nat.max_l by (by apply (decimal_width_small _ 5)).
  rewrite slice_cmp_app_same, slice_cmp_app_len by (by rewrite !length_digits).
  by apply digits_cmp.
Qed.

Lemma insert_by_name_sorted s l :
  (0 ≤ s.1 < 10 ^ 6)%Z → Forall (λ t : Segment, (0 ≤ t.1 < 10 ^ 6)%Z) l →
  Forall (λ n, (s.1 < n)%Z) l.*1 → insert_by_name s l = s :: l.
Proof.
  intros Hs Hl Hlt. destruct l as [|t l]; [done|]. simpl.
  apply Forall_cons in Hl as [Ht _]. rewrite fmap_cons in Hlt. apply Forall_cons in Hlt as [Hlt _].
  unfold key_leb. rewrite segment_name_cmp by done.
  apply Z.compare_lt_iff in Hlt. by rewrite Hlt.
Qed.

Definition seg_sorted (l : list Segment) : Prop :=
  StronglySorted Z.lt l.*1 ∧ Forall (λ t : Segment, (0 < t.1 < 10 ^ 6)%Z) l.

Lemma sort_segments_sorted l : seg_sorted l → sort_segments l = l.
Proof.
  intros [Hs Hb]. induction l as [|s l IH]; [done|]. simpl in *.
  apply StronglySorted_inv in Hs as [Hs Hlt]. apply Forall_cons in Hb as [Hb Hbs].
  rewrite IH by done. apply insert_by_name_sorted; [lia| |done].
  eapply Forall_impl; [done|]. simpl. lia.
Qed.

Lemma seg_sorted_snoc l n bs :
  seg_sorted (l ++ [(n, bs)]) ↔
  seg_sorted l ∧ Forall (λ m, (m < n)%Z) l.*1 ∧ (0 < n < 10 ^ 6)%Z.
Proof.
  unfold seg_sorted. rewrite fmap_app, Forall_app, Forall_singleton, StronglySorted_app. simpl. split.
  - intros ((H & ? & _) & ? & ?). split_and!; try done; try lia.
    apply Forall_forall. intros m Hm. apply H; set_solver.
  - intros ((Hs & Hb) & Hlt & ?). split_and!; try done; try lia; [|repeat constructor].
    intros x1 x2 Hx1 ->%list_elem_of_singleton. rewrite Forall_forall in Hlt. auto.
Qed.

(** ** The writer *)

(** The log of [w] replays to [ops]: closed segments in order, then the frames
    of the open one. *)
Definition wal_rep (w : WalWriter) (ops : list WalOp) : Prop :=
  ∃ segs cur,
    wal_dir w = Some (segs ++ [(segment_num w, frames cur)]) ∧
    seg_sorted (segs ++ [(segment_num w, frames cur)]) ∧
    writer_seg w = Some (segment_num w) ∧ wal_enabled w = true ∧
    Forall op_ok cur ∧
    ops = mjoin ((λ s : Segment, replay_segment s.2) <$> segs) ++ cur.

Lemma replay_sorted l :
  seg_sorted l → replay_wal (Some l) = mjoin ((λ s : Segment, replay_segment s.2) <$> l).
Proof. intros H. unfold replay_wal. simpl. by rewrite sort_segments_sorted. Qed.

Lemma wal_rep_replay w ops : wal_rep w ops → replay_wal (wal_dir w) = ops.
Proof.
  intros (segs & cur & -> & Hs & _ & _ & Hok & ->). rewrite replay_sorted by done.
  rewrite fmap_app, join_app. f_equal. rewrite fmap_cons, mjoin_cons.
  cbn [fmap list_fmap snd]. change (mjoin []) with (@nil WalOp).
  by rewrite app_nil_r, replay_frames.
Qed.

Lemma append_segment_last segs n c bs :
  seg_sorted (segs ++ [(n, c)]) → append_segment n bs (segs ++ [(n, c)]) = segs ++ [(n, c ++ bs)].
Proof.
  intros (_ & Hlt & _)%seg_sorted_snoc. unfold append_segment. rewrite fmap_app. f_equal.
  - rewrite <-(list_fmap_id segs) at 2. apply list_fmap_ext. intros i [m b] Hi.
    case_decide as Hd; [|done]. simpl in Hd. subst m. exfalso.
    rewrite Forall_forall in Hlt.
    assert (n ∈ segs.*1) as Hin by (apply list_elem_of_fmap; exists (n, b); split; [done|by eapply list_elem_of_lookup_2]).
    apply Hlt in Hin. lia.
  - simpl. by rewrite decide_True.
Qed.

Lemma write_frames w ops new :
  wal_rep w ops → Forall op_ok new →
  ∃ w', returns (write_all (frames new)) w () w' ∧ wal_rep w' (ops ++ new) ∧
    segment_num w' = segment_num w.
Proof.
  intros (segs & cur & Hd & Hs & Hw & He & Hok & ->) Hnew. unfold returns, write_all.
  rewrite Hw. eexists. split; [done|]. split; [|done].
  exists segs, (cur ++ new). simpl. rewrite Hd. simpl. rewrite fmap_app, join_app.
  rewrite append_segment_last by done. split_and!; try done.
  - apply seg_sorted_snoc in Hs. by apply seg_sorted_snoc.
  - by apply Forall_app.
  - by rewrite app_assoc.
Qed.

Lemma wal_rep_add_bytes n w ops : wal_rep w ops → wal_rep (add_bytes n w) ops.
Proof. done. Qed.

(** Opening the next segment of a sorted directory. *)
Lemma start_segment_spec w segs n :
  wal_dir w = Some segs → seg_sorted (segs ++ [(n, [])]) → segment_num w = n → wal_enabled w = true →
  ∃ w', returns (start_segment n) w () w' ∧
    wal_rep w' (mjoin ((λ s : Segment, replay_segment s.2) <$> segs)) ∧ segment_num w' = n.
Proof.
  intros Hd Hs Hn He. eexists. split.
  - eapply returns_bind; [|apply returns_modify]. apply returns_zoom.
    unfold returns, open_segment. rewrite Hd. rewrite decide_False; [done|].
    apply seg_sorted_snoc in Hs as (_ & Hlt & _). rewrite Forall_forall in Hlt.
    intros Hin%Hlt. lia.
  - split; [|done]. exists segs, []. simpl. rewrite Hn. split_and!; try done.
    by rewrite app_nil_r.
Qed.

(** There is room for one more segment with a six-digit number. *)
Definition wal_room (w : WalWriter) : Prop := (segment_num w + 1 < 10 ^ 6)%Z.

Lemma wal_rep_rotated w ops :
  wal_rep w ops → wal_room w →
  ∃ segs, wal_dir w = Some segs ∧ seg_sorted (segs ++ [((segment_num w + 1)%Z, [])]) ∧
    ops = mjoin ((λ s : Segment, replay_segment s.2) <$> segs).
Proof.
  intros (segs & cur & Hd & Hs & Hw & He & Hok & ->) Hroom. eexists. split; [done|]. split.
  - apply seg_sorted_snoc. split; [done|]. apply seg_sorted_snoc in Hs as (_ & Hlt & ?).
    rewrite fmap_app, Forall_app. split_and!; [|by repeat constructor; simpl; lia|unfold wal_room in *; lia..].
    eapply Forall_impl; [done|]. simpl. lia.
  - rewrite fmap_app, join_app. f_equal. rewrite fmap_cons, mjoin_cons.
    cbn [fmap list_fmap snd]. change (mjoin []) with (@nil WalOp).
    by rewrite app_nil_r, replay_frames.
Qed.

Lemma next_segment_spec w segs :
  wal_dir w = Some segs → seg_sorted (segs ++ [((segment_num w + 1)%Z, [])]) → wal_enabled w = true →
  ∃ w', returns next_segment w () w' ∧
    wal_rep w' (mjoin ((λ s : Segment, replay_segment s.2) <$> segs)) ∧
    segment_num w' = (segment_num w + 1)%Z.
Proof.
  intros Hd Hs He.
  edestruct (start_segment_spec
    (mkWal (wal_dir w) None (segment_num w + 1) 0 (max_segment_size w) (wal_enabled w)))
    as (w' & Hr & Hw); [done..|].
  exists w'. split; [|done]. unfold next_segment. eff_step. eff_step. exact Hr.
Qed.

Lemma maybe_rotate_spec w ops :
  wal_rep w ops → wal_room w →
  ∃ w', returns maybe_rotate w () w' ∧ wal_rep w' ops ∧
    (segment_num w ≤ segment_num w' ≤ segment_num w + 1)%Z.
Proof.
  intros Hrep Hroom. unfold maybe_rotate.
  destruct (max_segment_size w <=? segment_bytes w) eqn:E.
  - destruct (wal_rep_rotated w ops Hrep Hroom) as (segs & Hd & Hs & ->).
    destruct Hrep as (? & ? & ? & ? & ? & He & _).
    destruct (next_segment_spec w segs Hd Hs He) as (w' & Hr & Hw & Hn).
    exists w'. split; [|split; [done|lia]]. eff_step. by rewrite E.
  - exists w. split; [|split; [done|lia]]. eff_step. by rewrite E.
Qed.

Lemma log_frames_spec w ops new :
  wal_rep w ops → wal_room w → Forall op_ok new →
  ∃ w', returns (maybe_rotate ;; write_all (frames new) ;; modify (add_bytes (length (frames new)))) w () w' ∧
    wal_rep w' (ops ++ new) ∧ (segment_num w' ≤ segment_num w + 1)%Z.
Proof.
  intros Hrep Hroom Hnew.
  destruct (maybe_rotate_spec w ops Hrep Hroom) as (w1 & Hr1 & Hrep1 & Hn1).
  destruct (write_frames w1 ops new Hrep1 Hnew) as (w2 & Hr2 & Hrep2 & Hn2).
  exists (add_bytes (length (frames new)) w2). split_and!; [|done|simpl; lia].
  eff_step. eff_step. apply returns_modify.
Qed.

Lemma log_op_spec w ops op :
  wal_rep w ops → wal_room w → op_ok op →
  ∃ w', returns (log_op op) w () w' ∧ wal_rep w' (ops ++ [op]) ∧
    (segment_num w' ≤ segment_num w + 1)%Z.
Proof.
  intros Hrep Hroom Hop.
  destruct (log_frames_spec w ops [op] Hrep Hroom) as (w' & Hr & Hw); [by constructor|].
  exists w'. split; [|done]. unfold log_op. eff_step.
  destruct Hrep as (? & ? & ? & ? & ? & He & _). rewrite He. simpl.
  change (mjoin (op_frame <$> [op])) with (op_frame op ++ []) in Hr.
  by rewrite app_nil_r, length_op_frame in Hr.
Qed.

Lemma log_batch_spec w ops inserts deletes :
  wal_rep w ops → wal_room w → Forall op_ok (batch_ops inserts deletes) →
  ∃ w', returns (log_batch inserts deletes) w () w' ∧
    wal_rep w' (ops ++ batch_ops inserts deletes) ∧ (segment_num w' ≤ segment_num w + 1)%Z.
Proof.
  intros Hrep Hroom Hop. unfold log_batch.
  assert (wal_enabled w = true) as He by (by destruct Hrep as (? & ? & ? & ? & ? & He & _)).
  destruct (bool_decide (inserts = []) && bool_decide (deletes = [])) eqn:E.
  - apply andb_true_iff in E as [->%bool_decide_eq_true_1 ->%bool_decide_eq_true_1].
    exists w. split_and!; [|by rewrite app_nil_r|lia]. eff_step. by rewrite He.
  - destruct (log_frames_spec w ops _ Hrep Hroom Hop) as (w' & Hr & Hw).
    exists w'. split; [|done]. eff_step. by rewrite He.
Qed.

Lemma wal_clear_spec w ops :
  wal_rep w ops → wal_room w →
  ∃ w', returns wal_clear w () w' ∧ wal_rep w' [] ∧ (segment_num w' = segment_num w + 1)%Z.
Proof.
  intros Hrep Hroom. destruct Hrep as (segs & cur & Hd & Hs & _ & He & _).
  apply seg_sorted_snoc in Hs as (_ & _ & Hn).
  destruct (next_segment_spec (set_dir (Some []) w) []) as (w' & Hr & Hw & Hn'); [done| |done|].
  { apply (seg_sorted_snoc []). simpl. unfold wal_room in *. split_and!; try lia; repeat constructor. }
  exists w'. split; [|done]. unfold wal_clear. eff_step. rewrite He. simpl.
  eapply returns_bind; [apply returns_modify|]. by rewrite Hd.
Qed.

Lemma find_max_segment_above l n :
  (find_max_segment (Some l) < n)%Z → Forall (λ m, (m < n)%Z) l.*1.
Proof.
  unfold find_max_segment. cbn [default from_option]. unfold id. induction l.*1 as [|m ms IH]; simpl; [constructor|].
  intros H. constructor; [lia|]. apply IH. lia.
Qed.

Lemma find_max_segment_nonneg d : (0 ≤ find_max_segment d)%Z.
Proof. unfold find_max_segment. induction (default [] d).*1; simpl; lia. Qed.

Lemma wal_new_spec segs max :
  seg_sorted segs → (find_max_segment (Some segs) + 1 < 10 ^ 6)%Z →
  ∃ w, wal_new (Some segs) max true = (Ok (), w) ∧ wal_rep w (replay_wal (Some segs)) ∧
    segment_num w = (find_max_segment (Some segs) + 1)%Z.
Proof.
  intros Hs Hroom. set (n := (find_max_segment (Some segs) + 1)%Z).
  pose proof (find_max_segment_nonneg (Some segs)) as Hn.
  destruct (start_segment_spec (mkWal (Some segs) None n 0 max true) segs n)
    as (w & Hr & Hw & Hnum); [done| |done|done|].
  - apply seg_sorted_snoc. split_and!; [done|apply find_max_segment_above; lia|lia..].
  - exists w. rewrite replay_sorted by done. done.
Qed.

End wal_proofs.
