(* ===== verification/LsmSnapshot.v ===== *)
(** * Snapshots and the file store ([crates/dugite-lsm/src/snapshot.rs])

    The metadata codec, shared by snapshots and the manifest, and the file
    store with its hard links: a directory maps run ids to inodes and two
    directories may share an inode. The three files of a run are created,
    linked and removed together, so they are one entry of a directory. *)

From S2P Require Import Prelude Order Bytes LsmPage LsmRun.
Local Open Scope nat_scope.

(** ** Definitions *)

Record SnapshotMetadata := mkMeta {
  m_label : list Z;
  m_runs : list (nat * Z);
  m_next_run_id : Z;
}.

#[global] Instance SnapshotMetadata_eq_dec : EqDecision SnapshotMetadata.
Proof. solve_decision. Defined.

Section codec.
Context {CR : Crates}.

Definition run_meta_bytes (lr : nat * Z) : list Z := bo_write 4 (as_u32 lr.1) ++ bo_write 8 lr.2.

Definition meta_to_bytes (m : SnapshotMetadata) : list Z :=
  bo_write 2 (as_u16 (length (m_label m))) ++ m_label m ++
  bo_write 8 (m_next_run_id m) ++
  bo_write 4 (as_u32 (length (m_runs m))) ++
  mjoin (run_meta_bytes <$> m_runs m).

Fixpoint read_meta_runs (n : nat) (r : list Z) : lsm_result (list (nat * Z)) :=
  match n with
  | O => Ok []
  | S n' =>
      '(level, r) ← bo_read 4 r;
      '(run_id, r) ← bo_read 8 r;
      rest ← read_meta_runs n' r;
      Ok ((Z.to_nat level, run_id) :: rest)
  end.

Definition meta_from_bytes (data : list Z) : lsm_result SnapshotMetadata :=
  '(label_len, r) ← bo_read 2 data;
  '(label, r) ← read_exact (Z.to_nat label_len) r;
  if utf8_valid label then
    '(next_run_id, r) ← bo_read 8 r;
    '(run_count, r) ← bo_read 4 r;
    runs ← read_meta_runs (Z.to_nat run_count) r;
    Ok (mkMeta label runs next_run_id)
  else Err (Manifest "invalid snapshot label").

End codec.

(** ** The file store *)

Abbreviation Dir := (gmap Z Z).

Record Fs (F : Type) := mkFs { fs_inodes : gmap Z F; fs_next : Z }.
Arguments mkFs {F}.
Arguments fs_inodes {F}.
Arguments fs_next {F}.

Record Snapshot := mkSnap {
  snap_dir : Dir;
  snap_meta : option (list Z);
  snap_label : option (list Z);
}.

Definition empty_snap : Snapshot := mkSnap ∅ None None.

Section fs.
Context {F : Type}.

(** The files of run [id] in directory [d]. *)
Definition read_run (fs : Fs F) (d : Dir) (id : Z) : option F :=
  d !! id ≫= λ ino, fs_inodes fs !! ino.

(** [File::create] of the files of run [id] and the write of [f]: an existing
    file is truncated in place, for every directory that links it. *)
Definition create_run (fs : Fs F) (d : Dir) (id : Z) (f : F) : Fs F * Dir :=
  match d !! id with
  | Some ino => (mkFs (<[ino := f]> (fs_inodes fs)) (fs_next fs), d)
  | None => (mkFs (<[fs_next fs := f]> (fs_inodes fs)) (fs_next fs + 1), <[id := fs_next fs]> d)
  end.

(** [Run::delete_files] *)
Definition delete_files (d : Dir) (id : Z) : Dir := delete id d.

Definition hard_link_run (src dst : Dir) (id : Z) : Dir :=
  match src !! id, dst !! id with
  | Some ino, None => <[id := ino]> dst
  | _, _ => dst
  end.

End fs.

Section snapshot.
Context {CR : Crates}.

Definition link_runs (src dst : Dir) (runs : list (nat * Z)) : Dir :=
  foldl (λ d lr, hard_link_run src d lr.2) dst runs.

Definition save_snapshot (active : Dir) (snaps : gmap string Snapshot) (name : string)
    (label : list Z) (metadata : SnapshotMetadata) : gmap string Snapshot :=
  let snap := default empty_snap (snaps !! name) in
  <[name := mkSnap (link_runs active (snap_dir snap) (m_runs metadata))
              (Some (meta_to_bytes metadata)) (Some label)]> snaps.

Definition load_snapshot_metadata (snaps : gmap string Snapshot) (name : string) :
    lsm_result SnapshotMetadata :=
  match snaps !! name with
  | None => Err (SnapshotNotFound name)
  | Some snap => bytes ← open_file (snap_meta snap); meta_from_bytes bytes
  end.

Definition delete_snapshot (snaps : gmap string Snapshot) (name : string) : gmap string Snapshot :=
  delete name snaps.

(** The metadata and the new active directory. *)
Definition open_snapshot (snaps : gmap string Snapshot) (active : Dir) (name : string) :
    lsm_result (SnapshotMetadata * Dir) :=
  match snaps !! name with
  | None => Err (SnapshotNotFound name)
  | Some snap =>
      metadata ← load_snapshot_metadata snaps name;
      Ok (metadata, link_runs (snap_dir snap) active (m_runs metadata))
  end.

End snapshot.

(** ** The codec *)

Section codec_proofs.
Context {CR : Crates} {CROK : CratesOk}.

Record meta_ok (m : SnapshotMetadata) : Prop := {
  mo_label : utf8_valid (m_label m) = true;
  mo_label_len : (Z.of_nat (length (m_label m)) < 2 ^ 16)%Z;
  mo_next : (0 ≤ m_next_run_id m < 2 ^ 64)%Z;
  mo_count : (Z.of_nat (length (m_runs m)) < 2 ^ 32)%Z;
  mo_runs : Forall (λ lr : nat * Z, (Z.of_nat lr.1 < 2 ^ 32)%Z ∧ (0 ≤ lr.2 < 2 ^ 64)%Z) (m_runs m);
}.

Lemma read_meta_runs_bytes runs r :
  Forall (λ lr : nat * Z, (Z.of_nat lr.1 < 2 ^ 32)%Z ∧ (0 ≤ lr.2 < 2 ^ 64)%Z) runs →
  read_meta_runs (length runs) (mjoin (run_meta_bytes <$> runs) ++ r) = Ok runs.
Proof.
  induction 1 as [|[lv id] runs [H1 H2] H IH]; [done|].
  rewrite fmap_cons, mjoin_cons. cbn [length read_meta_runs]. unfold run_meta_bytes at 1.
  rewrite <-!app_assoc, bo_read_write by auto with dugite. cbn [mbind result_bind].
  rewrite bo_read_write by (change (256 ^ Z.of_nat 8)%Z with (2 ^ 64)%Z; done).
  cbn [mbind result_bind fst snd]. rewrite IH. cbn [mbind result_bind].
  by rewrite as_u32_small, Nat2Z.id.
Qed.

Lemma meta_roundtrip_gen m : meta_ok m → meta_from_bytes (meta_to_bytes m) = Ok m.
Proof.
  intros [Hl Hll Hn Hc Hr]. unfold meta_from_bytes, meta_to_bytes.
  rewrite bo_read_write by auto with dugite. cbn [mbind result_bind].
  rewrite as_u16_small, Nat2Z.id, read_exact_app by done. cbn [mbind result_bind].
  rewrite Hl, bo_read_write by (change (256 ^ Z.of_nat 8)%Z with (2 ^ 64)%Z; done).
  cbn [mbind result_bind]. rewrite bo_read_write by auto with dugite. cbn [mbind result_bind].
  rewrite as_u32_small, Nat2Z.id by done.
  rewrite <-(app_nil_r (mjoin _)), read_meta_runs_bytes by done. by destruct m.
Qed.

End codec_proofs.

(** ** Links and inodes *)

Section fs_proofs.
Context {F : Type}.

(** Every linked inode is allocated. *)
Definition fs_ok (fs : Fs F) (d : Dir) : Prop :=
  ∀ id ino, d !! id = Some ino → (ino < fs_next fs)%Z.

Lemma link_runs_lookup src dst runs id :
  link_runs src dst runs !! id =
  if decide (dst !! id = None ∧ id ∈ runs.*2) then src !! id else dst !! id.
Proof.
  unfold link_runs. revert dst. induction runs as [|[lv i] runs IH]; intros dst; simpl.
  { rewrite decide_False; [done|]. set_solver. }
  rewrite IH. unfold hard_link_run.
  destruct (src !! i) as [ino|] eqn:Es, (dst !! i) as [ino'|] eqn:Ed; simpl.
  2: destruct (decide (id = i)) as [->|Hne];
    [rewrite lookup_insert_eq|rewrite lookup_insert_ne by done].
  all: repeat case_decide; try done; try set_solver.
  all: destruct (decide (id = i)) as [->|]; [congruence|set_solver].
Qed.

Lemma create_run_read (fs : Fs F) d id f id' :
  fs_ok fs d → d !! id = None →
  let '(fs', d') := create_run fs d id f in
  read_run fs' d' id' = if decide (id' = id) then Some f else read_run fs d id'.
Proof.
  intros Hok Hd. unfold create_run, read_run. rewrite Hd. simpl. case_decide as Hi.
  - subst. by rewrite lookup_insert_eq; simpl; rewrite lookup_insert_eq.
  - rewrite lookup_insert_ne by done. destruct (d !! id') as [ino|] eqn:E; [|done]. simpl.
    rewrite lookup_insert_ne; [done|]. apply Hok in E. lia.
Qed.

Lemma create_run_ok (fs : Fs F) d id f : fs_ok fs d → d !! id = None →
  fs_ok (create_run fs d id f).1 (create_run fs d id f).2.
Proof.
  intros Hok Hd. unfold create_run. rewrite Hd. simpl. intros id' ino.
  rewrite lookup_insert_Some. intros [[_ <-]|[_ H%Hok]]; simpl; lia.
Qed.

Lemma read_run_delete (fs : Fs F) (d : Dir) id id' :
  read_run fs (delete_files d id) id' = if decide (id' = id) then None else read_run fs d id'.
Proof.
  unfold read_run, delete_files. case_decide; subst.
  - by rewrite lookup_delete_eq.
  - by rewrite lookup_delete_ne.
Qed.

End fs_proofs.
