(* ===== verification/LsmTree.v ===== *)
(** * The LSM tree ([tree.rs], [compaction.rs], [level.rs], [config.rs], [session_lock.rs] of [crates/dugite-lsm/src])

    The handle [LsmTree] with its disk. Every method is an operation of the
    [eff] monad on that state; runs are used through the [RunStore] interface,
    whose instance fixes the page size and the Bloom bits of the
    configuration. A read of a run goes through the path of the active
    directory, as in the code. *)

From S2P Require Import Prelude Order Bytes Effects LsmPage LsmCache LsmRun LsmMerge LsmMemtable LsmWal LsmSnapshot.
Local Open Scope nat_scope.

(** ** Configuration and levels *)

Record LsmConfig := mkConfig {
  memtable_size : Z;
  block_cache_size : Z;
  bloom_filter_bits_per_key : Z;
  size_ratio : Z;
  cfg_wal_enabled : bool;
  wal_segment_size : Z;
  page_size : Z;
}.

Definition default_config : LsmConfig :=
  mkConfig (64 * 1024 * 1024) (256 * 1024 * 1024) 10 4 true (64 * 1024 * 1024) 65536.

Definition max_entry_size (c : LsmConfig) : Z := Z.max 0 (page_size c - (10 + 7)).

(** [None] is the division by zero. *)
Definition cache_capacity (c : LsmConfig) : option nat :=
  if (page_size c =? 0)%Z then None else Some (Z.to_nat (block_cache_size c / page_size c)).

Record Level := mkLevel { l_number : nat; l_run_ids : list Z }.

Definition level_new (n : nat) : Level := mkLevel n [].
Definition add_run (id : Z) (l : Level) : Level := mkLevel (l_number l) (l_run_ids l ++ [id]).
Definition remove_run (id : Z) (l : Level) : Level :=
  mkLevel (l_number l) (filter (λ i, i ≠ id) (l_run_ids l)).
Definition num_runs (l : Level) : nat := length (l_run_ids l).
Definition level_is_empty (l : Level) : bool := num_runs l =? 0.

(** [while levels.len() <= n { levels.push(Level::new(levels.len())) }] *)
Definition extend_levels (n : nat) (levels : list Level) : list Level :=
  levels ++ (level_new <$> seq (length levels) (S n - length levels)).

Fixpoint find_level (i : nat) (levels : list Level) (size_ratio : Z) : option nat :=
  match levels with
  | [] => None
  | l :: levels' =>
      if (size_ratio <=? Z.of_nat (num_runs l))%Z then Some i else find_level (S i) levels' size_ratio
  end.

Definition find_compaction_level (levels : list Level) (size_ratio : Z) : option nat :=
  find_level 0 levels size_ratio.

(** ** State *)

Record Disk (F : Type) := mkDisk {
  d_locked : bool;
  d_fs : Fs F;
  d_active : Dir;
  d_manifest : option (list Z);
  d_snapshots : gmap string Snapshot;
}.
Arguments mkDisk {F}.
Arguments d_locked {F}.
Arguments d_fs {F}.
Arguments d_active {F}.
Arguments d_manifest {F}.
Arguments d_snapshots {F}.

Record LsmTree (R F : Type) := mkTree {
  t_config : LsmConfig;
  t_memtable : MemTable;
  t_wal : WalWriter;
  t_runs : gmap Z R;
  t_levels : list Level;
  t_next_run_id : Z;
  t_cache : BlockCache;
  t_disk : Disk F;
}.
Arguments mkTree {R F}.
Arguments t_config {R F}.
Arguments t_memtable {R F}.
Arguments t_wal {R F}.
Arguments t_runs {R F}.
Arguments t_levels {R F}.
Arguments t_next_run_id {R F}.
Arguments t_cache {R F}.
Arguments t_disk {R F}.

Section tree.
Context {CR : Crates} {R F : Type} {RS : RunStore R F}.
Abbreviation Tree := (LsmTree R F).

Definition set_memtable (m : MemTable) (t : Tree) : Tree :=
  mkTree (t_config t) m (t_wal t) (t_runs t) (t_levels t) (t_next_run_id t) (t_cache t) (t_disk t).
Definition set_wal (w : WalWriter) (t : Tree) : Tree :=
  mkTree (t_config t) (t_memtable t) w (t_runs t) (t_levels t) (t_next_run_id t) (t_cache t) (t_disk t).
Definition set_runs (r : gmap Z R) (t : Tree) : Tree :=
  mkTree (t_config t) (t_memtable t) (t_wal t) r (t_levels t) (t_next_run_id t) (t_cache t) (t_disk t).
Definition set_levels (l : list Level) (t : Tree) : Tree :=
  mkTree (t_config t) (t_memtable t) (t_wal t) (t_runs t) l (t_next_run_id t) (t_cache t) (t_disk t).
Definition set_next_run_id (n : Z) (t : Tree) : Tree :=
  mkTree (t_config t) (t_memtable t) (t_wal t) (t_runs t) (t_levels t) n (t_cache t) (t_disk t).
Definition set_cache (c : BlockCache) (t : Tree) : Tree :=
  mkTree (t_config t) (t_memtable t) (t_wal t) (t_runs t) (t_levels t) (t_next_run_id t) c (t_disk t).
Definition set_disk (d : Disk F) (t : Tree) : Tree :=
  mkTree (t_config t) (t_memtable t) (t_wal t) (t_runs t) (t_levels t) (t_next_run_id t) (t_cache t) d.

Definition set_files (fs : Fs F) (active : Dir) (d : Disk F) : Disk F :=
  mkDisk (d_locked d) fs active (d_manifest d) (d_snapshots d).
Definition set_manifest (m : list Z) (d : Disk F) : Disk F :=
  mkDisk (d_locked d) (d_fs d) (d_active d) (Some m) (d_snapshots d).
Definition set_snapshots (s : gmap string Snapshot) (d : Disk F) : Disk F :=
  mkDisk (d_locked d) (d_fs d) (d_active d) (d_manifest d) s.

(** The files of run [id] in the active directory. *)
Definition run_file (d : Disk F) (id : Z) : option F := read_run (d_fs d) (d_active d) id.

(** [Run::write] in the active directory. *)
Definition write_run (id : Z) (es : list entry) : eff Tree R := λ t,
  let '(r, f) := rs_write id es in
  let '(fs, active) := create_run (d_fs (t_disk t)) (d_active (t_disk t)) id f in
  (Ok r, set_disk (set_files fs active (t_disk t)) t).

(** ** Reads *)

(** Run ids in the search order of [get]: level by level, newest first. *)
Definition search_order (levels : list Level) : list Z :=
  mjoin ((λ l, reverse (l_run_ids l)) <$> levels).

Fixpoint get_runs (runs : gmap Z R) (d : Disk F) (key : Key) (ids : list Z) (c : BlockCache) :
    lsm_result (option Value) * BlockCache :=
  match ids with
  | [] => (Ok None, c)
  | id :: ids' =>
      match runs !! id with
      | None => get_runs runs d key ids' c
      | Some r =>
          match rs_get r (run_file d id) key c with
          | (Err e, c') => (Err e, c')
          | (Ok (Some v), c') => (Ok v, c')
          | (Ok None, c') => get_runs runs d key ids' c'
          end
      end
  end.

Definition tree_get (key : Key) : eff Tree (option Value) := λ t,
  match mem_get (t_memtable t) key with
  | Some v => (Ok v, t)
  | None =>
      let '(r, c) := get_runs (t_runs t) (t_disk t) key (search_order (t_levels t)) (t_cache t) in
      lift r (set_cache c t)
  end.

(** Oldest first; a run whose scan fails is left out. *)
Definition scan_order (levels : list Level) : list Z :=
  mjoin (l_run_ids <$> reverse levels).

Fixpoint range_inputs (runs : gmap Z R) (d : Disk F) (from to : Key) (seq : Z) (ids : list Z) :
    list MergeInput :=
  match ids with
  | [] => []
  | id :: ids' =>
      match runs !! id with
      | None => range_inputs runs d from to seq ids'
      | Some r =>
          match rs_scan_range r (run_file d id) from to with
          | Ok es => (seq, es) :: range_inputs runs d from to (seq + 1) ids'
          | Err _ => range_inputs runs d from to seq ids'
          end
      end
  end.

(** [filter_map(|(k, v)| v.map(|val| (k, val)))] *)
Definition live (es : list entry) : list (Key * Value) :=
  omap (λ e : entry, (λ v, (e.1, v)) <$> e.2) es.

Definition tree_range (from to : Key) : eff Tree (list (Key * Value)) := λ t,
  match mem_range (t_memtable t) from to with
  | None => (Err Panic, t)
  | Some mem_entries =>
      let inputs := range_inputs (t_runs t) (t_disk t) from to 0 (scan_order (t_levels t)) in
      let all_entries :=
        if bool_decide (mem_entries = []) then inputs
        else inputs ++ [(Z.of_nat (length inputs), mem_entries)] in
      (Ok (live (merge_entries all_entries true)), t)
  end.

(** ** Compaction *)

(** Entries of the runs that have a handle, with their sequence numbers. *)
Fixpoint gather (runs : gmap Z R) (d : Disk F) (seq : Z) (ids : list Z) :
    lsm_result (list MergeInput * list Z) :=
  match ids with
  | [] => Ok ([], [])
  | id :: ids' =>
      match runs !! id with
      | None => gather runs d (seq + 1) ids'
      | Some r =>
          es ← rs_scan_all r (run_file d id);
          '(inputs, consumed) ← gather runs d (seq + 1) ids';
          Ok ((seq, es) :: inputs, id :: consumed)
      end
  end.

(** [runs.remove], [cache.invalidate_run] and [Run::delete_files]. *)
Definition drop_run (id : Z) (t : Tree) : Tree :=
  let t := set_runs (delete id (t_runs t)) t in
  let t := set_cache (invalidate_run (t_cache t) id) t in
  set_disk (set_files (d_fs (t_disk t)) (delete_files (d_active (t_disk t)) id) (t_disk t)) t.

Definition clear_level (l : Level) : Level := mkLevel (l_number l) [].

Definition is_last_level (levels : list Level) (target : nat) : bool :=
  (target =? length levels - 1) ||
  ((target + 1 <? length levels) && forallb level_is_empty (drop (target + 1) levels)).

(** The levels after the merge of [level_idx] into the next one. *)
Definition compacted_levels (level_idx : nat) (target_run_ids : list Z) (new_run : option Z)
    (levels : list Level) : list Level :=
  let target_level := level_idx + 1 in
  let levels := alter clear_level level_idx levels in
  let levels := alter (λ l, foldl (λ l id, remove_run id l) l target_run_ids) target_level levels in
  match new_run with
  | Some id => alter (add_run id) target_level levels
  | None => levels
  end.

(** [compact_level] from the allocation of the new run id on. *)
Definition install_merged (level_idx : nat) (target_run_ids consumed_ids : list Z)
    (merged : list entry) : eff Tree (list Z * Z) :=
  new_id ← gets t_next_run_id;
  modify (λ t, set_next_run_id (t_next_run_id t + 1)%Z t) ;;
  new_run ← (if bool_decide (merged = []) then mret None
             else r ← write_run new_id merged; mret (Some r));
  modify (λ t, set_levels
    (compacted_levels level_idx target_run_ids ((λ _, new_id) <$> new_run) (t_levels t)) t) ;;
  modify (λ t, foldl (λ t id, drop_run id t) t consumed_ids) ;;
  modify (λ t, match new_run with
               | Some r => set_runs (<[new_id := r]> (t_runs t)) t
               | None => t
               end) ;;
  mret (consumed_ids, new_id).

Definition compact_level (level_idx : nat) : eff Tree (list Z * Z) :=
  let target_level := level_idx + 1 in
  modify (λ t, set_levels (extend_levels target_level (t_levels t)) t) ;;
  levels ← gets t_levels;
  runs ← gets t_runs;
  disk ← gets t_disk;
  let source_run_ids := from_option l_run_ids [] (levels !! level_idx) in
  let target := from_option l_run_ids [] (levels !! target_level) in
  let last_level := is_last_level levels target_level in
  let include_target := last_level && negb (length target =? 0) in
  let target_run_ids := if include_target then target else [] in
  '(target_inputs, target_consumed) ← lift (gather runs disk 0 target_run_ids);
  '(source_inputs, source_consumed) ←
    lift (gather runs disk (Z.of_nat (length target_run_ids)) source_run_ids);
  let drop_tombstones := last_level && include_target in
  install_merged level_idx target_run_ids (target_consumed ++ source_consumed)
    (merge_entries (target_inputs ++ source_inputs) drop_tombstones).

(** ["manifest"] in ASCII. *)
Definition manifest_label : list Z := [109; 97; 110; 105; 102; 101; 115; 116]%Z.

Definition runs_meta (levels : list Level) : list (nat * Z) :=
  mjoin ((λ l, (λ id, (l_number l, id)) <$> l_run_ids l) <$> levels).

Definition save_manifest : eff Tree () :=
  modify (λ t,
    let metadata := mkMeta manifest_label (runs_meta (t_levels t)) (t_next_run_id t) in
    set_disk (set_manifest (meta_to_bytes metadata) (t_disk t)) t).

Definition total_runs (levels : list Level) : nat := sum_list_with num_runs levels.

Fixpoint compact_loop (fuel : nat) : eff Tree () :=
  level ← gets (λ t, find_compaction_level (t_levels t) (size_ratio (t_config t)));
  match level, fuel with
  | None, _ => mret ()
  | Some _, O => diverge
  | Some level_idx, S fuel' => compact_level level_idx ;; save_manifest ;; compact_loop fuel'
  end.

(** A compaction replaces two runs or more by at most one when [size_ratio] is
    at least two, so the number of runs bounds the iterations. *)
Definition maybe_compact : eff Tree () := λ t, compact_loop (total_runs (t_levels t)) t.

(** ** Writes *)

Definition drain_memtable : eff Tree (list entry) := λ t,
  let '(es, m) := mem_drain (t_memtable t) in (Ok es, set_memtable m t).

(** [self.levels[0].add_run(run_id)] *)
Definition add_to_level0 (id : Z) : eff Tree () := λ t,
  match t_levels t with
  | [] => (Err Panic, t)
  | l :: levels => (Ok (), set_levels (add_run id l :: levels) t)
  end.

Definition flush_memtable : eff Tree () :=
  entries ← drain_memtable;
  if bool_decide (entries = []) then mret () else
  run_id ← gets t_next_run_id;
  modify (λ t, set_next_run_id (t_next_run_id t + 1)%Z t) ;;
  run ← write_run run_id entries;
  add_to_level0 run_id ;;
  modify (λ t, set_runs (<[run_id := run]> (t_runs t)) t) ;;
  zoom t_wal set_wal wal_clear ;;
  save_manifest ;;
  maybe_compact.

Definition flush_if_full : eff Tree () :=
  full ← gets (λ t, memtable_size (t_config t) <=? Z.of_nat (mem_approx_bytes (t_memtable t)))%Z;
  when full flush_memtable.

Definition tree_insert (key : Key) (value : Value) : eff Tree () :=
  zoom t_wal set_wal (log_insert key value) ;;
  modify (λ t, set_memtable (mem_insert (t_memtable t) key value) t) ;;
  flush_if_full.

Definition tree_delete (key : Key) : eff Tree () :=
  zoom t_wal set_wal (log_delete key) ;;
  modify (λ t, set_memtable (mem_delete (t_memtable t) key) t) ;;
  flush_if_full.

Definition apply_batch (inserts : list (Key * Value)) (deletes : list Key) : eff Tree () :=
  zoom t_wal set_wal (log_batch inserts deletes) ;;
  modify (λ t, set_memtable
    (foldl mem_delete (foldl (λ m kv, mem_insert m kv.1 kv.2) (t_memtable t) inserts) deletes) t) ;;
  flush_if_full.

Definition flush : eff Tree () :=
  empty ← gets (λ t, mem_is_empty (t_memtable t));
  when (negb empty) flush_memtable.

Definition set_wal_enabled (enabled : bool) : eff Tree () :=
  modify (λ t, set_wal (set_enabled enabled (t_wal t)) t).

(** ** Snapshots *)

Definition tree_save_snapshot (name : string) (label : list Z) : eff Tree () :=
  flush ;;
  modify (λ t,
    let metadata := mkMeta label (runs_meta (t_levels t)) (t_next_run_id t) in
    set_disk (set_snapshots
      (save_snapshot (d_active (t_disk t)) (d_snapshots (t_disk t)) name label metadata)
      (t_disk t)) t).

Definition tree_delete_snapshot (name : string) : eff Tree () :=
  modify (λ t, set_disk (set_snapshots (delete_snapshot (d_snapshots (t_disk t)) name) (t_disk t)) t).

(** One entry of the metadata: extend, add the run, open it. *)
Definition restore_run (lr : nat * Z) : eff Tree () :=
  modify (λ t, set_levels (alter (add_run lr.2) lr.1 (extend_levels lr.1 (t_levels t))) t) ;;
  disk ← gets t_disk;
  run ← lift (rs_open lr.2 (run_file disk lr.2));
  modify (λ t, set_runs (<[lr.2 := run]> (t_runs t)) t).

Definition ensure_level (levels : list Level) : list Level :=
  match levels with [] => [level_new 0] | _ => levels end.

(** The removal loop looks for [{run_id:020}.data] and the like, which no run
    file is called, so it removes nothing. *)
Definition restore_from_snapshot (name : string) : eff Tree () :=
  modify (set_memtable mem_new) ;;
  modify (set_runs ∅) ;;
  modify (set_levels []) ;;
  disk ← gets t_disk;
  '(metadata, active) ← lift (open_snapshot (d_snapshots disk) (d_active disk) name);
  modify (λ t, set_disk (set_files (d_fs (t_disk t)) active (t_disk t)) t) ;;
  for_each restore_run (m_runs metadata) ;;
  modify (λ t, set_levels (ensure_level (t_levels t)) t) ;;
  modify (set_next_run_id (m_next_run_id metadata)) ;;
  capacity ← gets (λ t, cache_capacity (t_config t));
  match capacity with
  | None => panic
  | Some n => modify (set_cache (cache_new n))
  end.

(** ** Opening *)

Definition acquire_lock (d : Disk F) : lsm_result (Disk F) :=
  if d_locked d then Err (DatabaseLocked "lock")
  else Ok (mkDisk true (d_fs d) (d_active d) (d_manifest d) (d_snapshots d)).

Fixpoint load_runs (d : Disk F) (runs_meta : list (nat * Z)) (levels : list Level) (runs : gmap Z R) :
    list Level * gmap Z R :=
  match runs_meta with
  | [] => (levels, runs)
  | (level_num, run_id) :: rest =>
      let levels := alter (add_run run_id) level_num (extend_levels level_num levels) in
      match rs_open run_id (run_file d run_id) with
      | Ok run => load_runs d rest levels (<[run_id := run]> runs)
      | Err _ => load_runs d rest (alter (remove_run run_id) level_num levels) runs
      end
  end.

Definition load_manifest (d : Disk F) : lsm_result (list Level * Z * gmap Z R) :=
  match d_manifest d with
  | None => Ok ([], 0%Z, ∅)
  | Some bytes =>
      match meta_from_bytes bytes with
      | Err _ => Err (Manifest "failed to load manifest")
      | Ok metadata =>
          let '(levels, runs) := load_runs d (m_runs metadata) [] ∅ in
          Ok (levels, m_next_run_id metadata, runs)
      end
  end.

Definition lift_fault {A} (r : lsm_result A) : result Fault A :=
  match r with Ok a => Ok a | Err e => Err (Fail e) end.

Definition tree_open (d : Disk F) (wal_files : option (list Segment)) (config : LsmConfig) :
    result Fault Tree :=
  d ← lift_fault (acquire_lock d);
  '(levels, next_run_id, runs) ← lift_fault (load_manifest d);
  let memtable := foldl apply_op mem_new (replay_wal wal_files) in
  match wal_new wal_files (Z.to_nat (wal_segment_size config)) (cfg_wal_enabled config) with
  | (Err e, _) => Err e
  | (Ok _, wal) =>
      match cache_capacity config with
      | None => Err Panic
      | Some n =>
          Ok (mkTree config memtable wal runs (ensure_level levels) next_run_id (cache_new n) d)
      end
  end.

(** What a process leaves behind: the disk, unlocked, and the log segments. *)
Definition tree_close (t : Tree) : Disk F * option (list Segment) :=
  let d := t_disk t in
  (mkDisk false (d_fs d) (d_active d) (d_manifest d) (d_snapshots d), wal_dir (t_wal t)).

(** The active directory is replaced and the configuration is the default one,
    so [RS] is here the run store of [default_config]. *)
Definition tree_open_snapshot (d : Disk F) (wal_files : option (list Segment)) (name : string) :
    result Fault Tree :=
  d ← lift_fault (acquire_lock d);
  '(metadata, active) ← lift_fault (open_snapshot (d_snapshots d) ∅ name);
  let d := set_files (d_fs d) active d in
  let config := default_config in
  match wal_new wal_files (Z.to_nat (wal_segment_size config)) (cfg_wal_enabled config),
        cache_capacity config with
  | (Ok _, wal), Some n =>
      let t0 := mkTree config mem_new wal ∅ [] (m_next_run_id metadata) (cache_new n) d in
      match for_each restore_run (m_runs metadata) t0 with
      | (Ok _, t) => Ok (set_levels (ensure_level (t_levels t)) t)
      | (Err e, _) => Err e
      end
  | (Err e, _), _ => Err e
  | _, None => Err Panic
  end.

End tree.
