(* ===== verification/LsmRefine.v ===== *)
(** * The tree implements a map

    The invariant of an open tree and the map it holds. [E] gives the entries
    of each run; [tree_view] looks a key up in the memtable and then in the
    runs, newest first. The operations are proved against the [RunStoreOk]
    interface. *)

From S2P Require Import Prelude Order Bytes Effects LsmPage LsmCache LsmRun LsmMerge LsmMemtable LsmWal LsmSnapshot LsmTree.
Local Open Scope nat_scope.

(** ** Lookup through a list of sources, newest first *)

Fixpoint lookup_first (k : Key) (ls : list (list entry)) : option (option Value) :=
  match ls with
  | [] => None
  | l :: ls' => match assoc k l with Some v => Some v | None => lookup_first k ls' end
  end.

Lemma lookup_first_app k ls1 ls2 :
  lookup_first k (ls1 ++ ls2) =
  match lookup_first k ls1 with Some v => Some v | None => lookup_first k ls2 end.
Proof. induction ls1 as [|l ls1 IH]; simpl; [done|]. by destruct (assoc k l). Qed.

Lemma newest_lookup_first k ls : newest k ls = lookup_first k (reverse ls).
Proof.
  induction ls as [|l ls IH]; [done|]. rewrite reverse_cons, lookup_first_app, <-IH. simpl.
  destruct (newest k ls); [done|]. by destruct (assoc k l).
Qed.

Lemma mjoin_drop_dead b (o : option (option Value)) : mjoin (drop_dead b o) = mjoin o.
Proof. by destruct b, o as [[]|]. Qed.

(** Inputs of a merge with consecutive sequence numbers. *)
Fixpoint number (seq : Z) (ls : list (list entry)) : list MergeInput :=
  match ls with
  | [] => []
  | l :: ls' => (seq, l) :: number (seq + 1) ls'
  end.

Lemma number_snd s ls : (number s ls).*2 = ls.
Proof. revert s. induction ls as [|l ls IH]; intros s; simpl; [done|]. by rewrite IH. Qed.

Lemma number_app s ls1 ls2 :
  number s (ls1 ++ ls2) = number s ls1 ++ number (s + Z.of_nat (length ls1)) ls2.
Proof.
  revert s. induction ls1 as [|l ls1 IH]; intros s; simpl; [by rewrite Z.add_0_r|].
  rewrite IH. do 3 f_equal. lia.
Qed.

Lemma number_sorted s ls :
  StronglySorted Z.le (number s ls).*1 ∧ Forall (λ x, (s ≤ x)%Z) (number s ls).*1.
Proof.
  revert s. induction ls as [|l ls IH]; intros s; simpl; [split; constructor|].
  destruct (IH (s + 1)%Z) as [H1 H2].
  assert (Forall (λ x, (s ≤ x)%Z) (number (s + 1) ls).*1) as H3 by (eapply Forall_impl; [done|]; simpl; lia).
  split; constructor; auto with lia.
Qed.

Lemma length_number s ls : length (number s ls) = length ls.
Proof. revert s. induction ls as [|l ls IH]; intros s; simpl; auto. Qed.

Lemma number_ok s ls :
  Forall strict_sorted ls → (Z.of_nat (length ls) ≤ SEQ_BASE)%Z → inputs_ok (number s ls).
Proof.
  intros Hs Hl. split_and!; [|apply number_sorted|by rewrite length_number].
  clear Hl. revert s. induction Hs; intros s; simpl; constructor; auto.
Qed.

(** The merge of numbered sorted lists. *)
Lemma merge_number b ls k :
  Forall strict_sorted ls → (Z.of_nat (length ls) ≤ SEQ_BASE)%Z →
  assoc k (merge_entries (number 0 ls) b) = drop_dead b (lookup_first k (reverse ls)).
Proof.
  intros Hs Hl. destruct (merge_entries_spec (number 0 ls) b (number_ok 0 ls Hs Hl)) as [_ H].
  by rewrite H, number_snd, newest_lookup_first.
Qed.

(** ** Levels *)

Lemma search_order_app l1 l2 : search_order (l1 ++ l2) = search_order l1 ++ search_order l2.
Proof. unfold search_order. by rewrite fmap_app, join_app. Qed.

Lemma search_order_cons l ls : search_order (l :: ls) = reverse (l_run_ids l) ++ search_order ls.
Proof. unfold search_order. by rewrite fmap_cons, mjoin_cons. Qed.

Lemma total_runs_app l1 l2 : total_runs (l1 ++ l2) = total_runs l1 + total_runs l2.
Proof. apply sum_list_with_app. Qed.

Lemma length_search_order ls : length (search_order ls) = total_runs ls.
Proof.
  induction ls as [|l ls IH]; [done|].
  by rewrite search_order_cons, length_app, length_reverse, IH.
Qed.

Lemma search_order_empty ls : forallb level_is_empty ls = true → search_order ls = [].
Proof.
  induction ls as [|[n ids] ls IH]; [done|]. simpl. intros [H1 H2]%andb_true_iff.
  rewrite search_order_cons, IH by done. simpl.
  unfold level_is_empty, num_runs in H1. simpl in H1. by destruct ids.
Qed.

Lemma search_order_extend n ls : search_order (extend_levels n ls) = search_order ls.
Proof.
  unfold extend_levels. rewrite search_order_app.
  rewrite (search_order_empty (level_new <$> _)); [by rewrite app_nil_r|].
  induction (seq _ _); [done|]. simpl. done.
Qed.

Definition numbered (ls : list Level) : Prop := ∀ i l, ls !! i = Some l → l_number l = i.

Lemma numbered_extend n ls : numbered ls → numbered (extend_levels n ls).
Proof.
  intros H i l. unfold extend_levels. rewrite lookup_app_Some.
  intros [?|[Hi Hl]]; [by apply H|]. rewrite list_lookup_fmap in Hl.
  destruct (seq _ _ !! _) as [x|] eqn:E; [|done]. apply lookup_seq in E as [-> ?].
  simpl in Hl. injection Hl as <-. simpl. lia.
Qed.

Lemma numbered_alter f i ls :
  (∀ l, l_number (f l) = l_number l) → numbered ls → numbered (alter f i ls).
Proof.
  intros Hf H j l Hl. destruct (decide (i = j)) as [->|Hne].
  - rewrite list_lookup_alter_eq in Hl. destruct (ls !! j) eqn:E; [|done].
    simpl in Hl. injection Hl as <-. rewrite Hf. by apply H.
  - rewrite list_lookup_alter_ne in Hl by done. by apply H.
Qed.

Lemma length_extend_levels n ls : length (extend_levels n ls) = max (length ls) (S n).
Proof. unfold extend_levels. rewrite length_app, length_fmap, length_seq. lia. Qed.

Lemma filter_not_elem_nil (l : list Z) : filter (λ i, i ∉ []) l = l.
Proof. induction l; [done|]. rewrite filter_cons_True by set_solver. by f_equal. Qed.

Lemma foldl_remove_run ids l :
  l_run_ids (foldl (λ l id, remove_run id l) l ids) = filter (λ i, i ∉ ids) (l_run_ids l) ∧
  l_number (foldl (λ l id, remove_run id l) l ids) = l_number l.
Proof.
  revert l. induction ids as [|id ids IH]; intros l; simpl.
  - by rewrite filter_not_elem_nil.
  - destruct (IH (remove_run id l)) as [-> ->]. split; [|done]. simpl.
    rewrite list_filter_filter. apply list_filter_iff. set_solver.
Qed.

Lemma filter_not_elem_self (l : list Z) : filter (λ i, i ∉ l) l = [].
Proof. apply filter_none. set_solver. Qed.

Lemma find_level_spec i ls T n :
  find_level i ls T = Some n →
  i ≤ n ∧ ∃ l, ls !! (n - i) = Some l ∧ (T ≤ Z.of_nat (num_runs l))%Z.
Proof.
  revert i. induction ls as [|l ls IH]; intros i; simpl; [done|].
  destruct (Z.leb_spec T (Z.of_nat (num_runs l))).
  - intros [= ->]. split; [done|]. exists l. by rewrite Nat.sub_diag.
  - intros (Hle & l' & Hl & HT)%IH. split; [lia|]. exists l'. split; [|done].
    replace (n - i) with (S (n - S i)) by lia. done.
Qed.

Lemma is_last_level_spec ls i l1 l2 rest :
  ls = l1 ++ l2 :: rest → length l1 = i → is_last_level ls i = true → search_order rest = [].
Proof.
  intros -> <-. unfold is_last_level. rewrite length_app. simpl.
  intros [H%Nat.eqb_eq|[_ H]%andb_true_iff]%orb_true_iff.
  - destruct rest; [done|]. simpl in H. lia.
  - apply search_order_empty. rewrite drop_app_ge in H by lia.
    replace (length l1 + 1 - length l1) with 1 in H by lia. done.
Qed.

(** ** Invariant *)

Section refine.
Context {CR : Crates} {CROK : CratesOk}.
Context {R F : Type} {RS : RunStore R F} {RSOK : RunStoreOk R F}.
Abbreviation Tree := (LsmTree R F).

Implicit Types (t : Tree) (E : Z → list entry).

Abbreviation ids t := (search_order (t_levels t)).

(** The handle, the files and the cached pages of run [id] hold [E id]. *)
Definition run_inv t E (id : Z) : Prop :=
  ∃ r f, t_runs t !! id = Some r ∧ run_file (t_disk t) id = Some f ∧
    rs_rep id r f (E id) ∧ rs_coh (t_cache t) id r f ∧ Forall rs_entry_ok (E id).

Record runs_inv t E : Prop := {
  ri_levels : t_levels t ≠ [];
  ri_numbered : numbered (t_levels t);
  ri_nodup : NoDup (ids t);
  ri_runs id : id ∈ ids t → run_inv t E id;
  ri_ids id : id ∈ ids t → (0 ≤ id < t_next_run_id t)%Z;
  ri_next : (0 ≤ t_next_run_id t)%Z;
  ri_cache : cache_inv (t_cache t);
  ri_cache_new id i : (t_next_run_id t ≤ id)%Z → cached (t_cache t) (id, i) = None;
  ri_fs : fs_ok (d_fs (t_disk t)) (d_active (t_disk t));
  ri_active id : is_Some (d_active (t_disk t) !! id) → (id < t_next_run_id t)%Z;
}.

(** Bounds that the operations consume: writes done so far, entries written,
    bytes of these entries. *)
Record budget := mkBudget { b_ops : Z; b_entries : nat; b_bytes : nat }.

Definition runs_entries t E : nat := sum_list_with (λ id, length (E id)) (ids t).
Definition runs_bytes t E : nat := sum_list_with (λ id, page_data_size (E id)) (ids t).

Record tree_bounds t E (b : budget) : Prop := {
  tb_ops : (2 * b_ops b + 3 < 10 ^ 6)%Z;
  tb_budget : rs_budget (b_entries b) (b_bytes b);
  tb_count : (t_next_run_id t + Z.of_nat (total_runs (t_levels t)) ≤ 2 * b_ops b)%Z;
  tb_depth : (Z.of_nat (length (t_levels t)) ≤ t_next_run_id t + 1)%Z;
  tb_entries : length (mem_entries (t_memtable t)) + runs_entries t E ≤ b_entries b;
  tb_bytes : page_data_size (mem_entries (t_memtable t)) + runs_bytes t E ≤ b_bytes b;
}.

Record mem_inv t : Prop := {
  mi_ok : mem_ok (t_memtable t);
  mi_entries : Forall rs_entry_ok (mem_entries (t_memtable t));
}.

(** What the tree answers for a key. *)
Definition runs_view t E (k : Key) : option (option Value) := lookup_first k (E <$> ids t).
Definition tree_view t E (k : Key) : option Value :=
  mjoin (match mem_get (t_memtable t) k with Some v => Some v | None => runs_view t E k end).

(** ** Gathering and dropping runs *)

Lemma gather_spec t E seq l :
  (∀ id, id ∈ l → run_inv t E id) →
  gather (t_runs t) (t_disk t) seq l = Ok (number seq (E <$> l), l).
Proof.
  revert seq. induction l as [|id l IH]; intros seq Hl; [done|]. cbn [gather fmap list_fmap number].
  destruct (Hl id) as (r & f & Hr & Hf & Hrep & _); [set_solver|]. rewrite Hr, Hf.
  rewrite (rs_scan_all_rep _ _ _ _ Hrep). cbn [mbind result_bind].
  rewrite IH by set_solver. done.
Qed.

Lemma drop_run_other t E id id' :
  cache_inv (t_cache t) → id ≠ id' → run_inv t E id → run_inv (drop_run id' t) E id.
Proof.
  intros Hc Hne (r & f & Hr & Hf & Hrep & Hcoh & He). exists r, f. simpl.
  rewrite lookup_delete_ne by done. unfold run_file in *. simpl. rewrite read_run_delete.
  rewrite decide_False by done. split_and!; try done.
  eapply rs_coh_mono; [|exact Hcoh]. intros i p Hp.
  by apply (invalidate_run_spec (t_cache t) id' Hc) in Hp as [_ Hp].
Qed.

(** The parts of the state that dropping runs keeps or shrinks. *)
Record dropped t t' : Prop := {
  dr_mem : t_memtable t' = t_memtable t;
  dr_wal : t_wal t' = t_wal t;
  dr_config : t_config t' = t_config t;
  dr_levels : t_levels t' = t_levels t;
  dr_next : t_next_run_id t' = t_next_run_id t;
  dr_fs : d_fs (t_disk t') = d_fs (t_disk t);
  dr_manifest : d_manifest (t_disk t') = d_manifest (t_disk t);
  dr_snaps : d_snapshots (t_disk t') = d_snapshots (t_disk t);
  dr_locked : d_locked (t_disk t') = d_locked (t_disk t);
  dr_active : d_active (t_disk t') ⊆ d_active (t_disk t);
  dr_cache : cache_inv (t_cache t) → cache_inv (t_cache t');
  dr_cached k p : cache_inv (t_cache t) → cached (t_cache t') k = Some p → cached (t_cache t) k = Some p;
}.

Lemma drop_runs_spec E l t :
  let t' := foldl (λ t id, drop_run id t) t l in
  dropped t t' ∧
  (cache_inv (t_cache t) → ∀ id, id ∉ l → run_inv t E id → run_inv t' E id).
Proof.
  revert t. induction l as [|id l IH]; intros t; simpl.
  { split; [by split|done]. }
  destruct (IH (drop_run id t)) as [[] Hr]. split.
  - split; try (etrans; [eassumption|done]).
    + etrans; [eassumption|]. apply delete_subseteq.
    + intros Hc. apply dr_cache0. by apply invalidate_run_spec.
    + intros k p Hc Hp. apply dr_cached0 in Hp; [|by apply invalidate_run_spec].
      by apply (invalidate_run_spec (t_cache t) id Hc) in Hp as [_ Hp].
  - intros Hc id' Hid' Hinv. apply Hr; [by apply invalidate_run_spec|set_solver|].
    apply drop_run_other; [done|set_solver|done].
Qed.

(** ** Writing a run *)

(** A new run under the next id, before the levels name it. *)
Lemma write_run_spec t E id es :
  t_next_run_id t = (id + 1)%Z → cache_inv (t_cache t) →
  fs_ok (d_fs (t_disk t)) (d_active (t_disk t)) → d_active (t_disk t) !! id = None →
  strict_sorted es → Forall rs_entry_ok es → rs_budget (length es) (page_data_size es) →
  ∃ r f fs active, returns (write_run id es) t r (set_disk (set_files fs active (t_disk t)) t) ∧
    fs_ok fs active ∧ active = <[id := fs_next (d_fs (t_disk t))]> (d_active (t_disk t)) ∧
    (∀ id', read_run fs active id' = if decide (id' = id) then Some f else run_file (t_disk t) id') ∧
    rs_rep id r f es.
Proof.
  intros Hn Hc Hfs Ha Hs He Hb. unfold returns, write_run.
  pose proof (rs_write_rep id es Hs He Hb) as Hrep.
  destruct (rs_write id es) as [r f]. simpl in Hrep.
  pose proof (λ id', create_run_read _ _ id f id' Hfs Ha) as Hrd.
  pose proof (create_run_ok _ _ id f Hfs Ha) as Hok.
  unfold create_run in *. rewrite Ha in *. simpl in *.
  eexists r, f, _, _. split; [done|]. split_and!; done.
Qed.

(** ** Compaction *)

Definition upd E (id : Z) (es : list entry) : Z → list entry :=
  λ i, if decide (i = id) then es else E i.

(** State outside runs, levels and files. *)
Record same_rest t t' : Prop := {
  sr_mem : t_memtable t' = t_memtable t;
  sr_wal : t_wal t' = t_wal t;
  sr_config : t_config t' = t_config t;
}.

Lemma dropped_runs_inv t t' E levels :
  dropped (set_levels levels t) t' → runs_inv t E → levels ≠ [] → numbered levels →
  NoDup (search_order levels) → (∀ id, id ∈ search_order levels → (0 ≤ id < t_next_run_id t)%Z ∧ run_inv t' E id) →
  runs_inv t' E.
Proof.
  intros [] [] Hne Hnum Hnd Hids. simpl in *. split; rewrite ?dr_levels0, ?dr_next0, ?dr_fs0; auto.
  - intros id H. by apply Hids.
  - intros id H. by apply Hids.
  - intros id i Hi. destruct (cached (t_cache t') (id, i)) as [p|] eqn:Hp; [|done].
    apply dr_cached0 in Hp; [|done]. by rewrite ri_cache_new0 in Hp.
  - intros id ino H. eapply ri_fs0. by eapply lookup_weaken.
  - intros id [ino H]. apply ri_active0. exists ino. by eapply lookup_weaken.
Qed.

(** The allocation of the next id and the write of a run, with [E] extended. *)
Lemma new_run_inv t E id es r f fs active :
  runs_inv t E → t_next_run_id t = id →
  fs_ok fs active → active = <[id := fs_next (d_fs (t_disk t))]> (d_active (t_disk t)) →
  (∀ id', read_run fs active id' = if decide (id' = id) then Some f else run_file (t_disk t) id') →
  rs_rep id r f es → Forall rs_entry_ok es →
  let t1 := set_disk (set_files fs active (t_disk t)) (set_next_run_id (id + 1) t) in
  let t' := set_runs (<[id := r]> (t_runs t1)) t1 in
  runs_inv t' (upd E id es) ∧ run_inv t' (upd E id es) id.
Proof.
  intros [] Hn Hfs Ha Hrd Hrep He. simpl. split.
  - split; simpl; auto.
    + intros id' Hid'. destruct (ri_runs0 id' Hid') as (r' & f' & Hr' & Hf' & H).
      apply ri_ids0 in Hid'. exists r', f'. unfold run_file. simpl.
      rewrite Hrd, lookup_insert_ne by lia.
      unfold upd. rewrite !decide_False by lia. done.
    + intros id' Hid'. apply ri_ids0 in Hid'. lia.
    + lia.
    + intros id' i Hid'. apply ri_cache_new0. lia.
    + intros id'. rewrite Ha, lookup_insert_is_Some. intros [<-|[_ H]]; [lia|].
      apply ri_active0 in H. lia.
  - exists r, f. unfold run_file, upd. simpl. rewrite lookup_insert_eq, Hrd, !decide_True by done.
    split_and!; try done. apply rs_coh_fresh. intros i. apply ri_cache_new0. lia.
Qed.

Lemma skip_id_inv t E id es :
  runs_inv t E → t_next_run_id t = id → runs_inv (set_next_run_id (id + 1) t) (upd E id es).
Proof.
  intros [] Hn. split; simpl; auto; try lia.
  - intros id' Hid'. destruct (ri_runs0 id' Hid') as (r' & f' & H).
    apply ri_ids0 in Hid'. exists r', f'. unfold upd. rewrite !decide_False by lia. done.
  - intros id' Hid'. apply ri_ids0 in Hid'. lia.
  - intros id' i Hid'. apply ri_cache_new0. lia.
  - intros id' H. apply ri_active0 in H. lia.
Qed.

Lemma drop_runs_insert l n r t :
  n ∉ l →
  foldl (λ t id, drop_run id t) (set_runs (<[n := r]> (t_runs t)) t) l =
  (let t' := foldl (λ t id, drop_run id t) t l in set_runs (<[n := r]> (t_runs t')) t').
Proof.
  revert t. induction l as [|id l IH]; intros t Hn; [done|]. cbn [foldl]. cbv zeta.
  rewrite <-IH by set_solver. f_equal. unfold drop_run, set_runs, set_cache, set_disk. simpl.
  by rewrite delete_insert_ne by set_solver.
Qed.

Lemma drop_run_levels l levels t :
  foldl (λ t id, drop_run id t) (set_levels levels t) l =
  set_levels levels (foldl (λ t id, drop_run id t) t l).
Proof. revert t. induction l as [|id l IH]; intros t; [done|]. cbn [foldl]. by rewrite <-IH. Qed.

Lemma install_merged_spec t E i tgt consumed merged n :
  runs_inv t E → t_next_run_id t = n →
  strict_sorted merged → Forall rs_entry_ok merged →
  rs_budget (length merged) (page_data_size merged) →
  let new := if bool_decide (merged = []) then None else Some n in
  let levels' := compacted_levels i tgt new (t_levels t) in
  levels' ≠ [] → numbered levels' → NoDup (search_order levels') →
  (∀ id, id ∈ search_order levels' → new = Some id ∨ (id ∈ ids t ∧ id ∉ consumed)) →
  (∀ id, id ∈ consumed → id ∈ ids t) →
  ∃ t', returns (install_merged i tgt consumed merged) t (consumed, n) t' ∧
    runs_inv t' (upd E n merged) ∧ t_levels t' = levels' ∧
    t_next_run_id t' = (n + 1)%Z ∧ same_rest t t'.
Proof.
  intros Hinv Hn Hs He Hb new levels' Hne Hnum Hnd Hids Hcons.
  assert (n ∉ consumed) as Hnc by (intros H%Hcons%(ri_ids _ _ Hinv); lia).
  assert (∃ t1 run, runs_inv t1 (upd E n merged) ∧ t_levels t1 = t_levels t ∧
    t_next_run_id t1 = (n + 1)%Z ∧ same_rest t t1 ∧ (new = Some n → run_inv t1 (upd E n merged) n) ∧
    returns (install_merged i tgt consumed merged) t (consumed, n)
      (foldl (λ t id, drop_run id t) (set_levels levels' t1) consumed) ∧
    run = new) as (t1 & _ & Hinv1 & Hl1 & Hn1 & Hsr & Hnew & Hret & _).
  { unfold install_merged, levels', new in *. clear new levels' Hne Hnum Hnd Hids.
    destruct (bool_decide (merged = [])) eqn:Hm.
    - exists (set_next_run_id (n + 1) t), None. split_and!; try done; [by apply skip_id_inv|].
      do 2 eff_step. rewrite Hn. eff_step. eff_step. eff_step. eff_step. done.
    - destruct (write_run_spec (set_next_run_id (n + 1) t) E n merged)
        as (r & f & fs & active & Hw & Hfs & Ha & Hrd & Hrep); try done.
      + by destruct Hinv.
      + by destruct Hinv.
      + destruct (d_active (t_disk t) !! n) eqn:Ha; [|done].
        assert (n < t_next_run_id t)%Z; [|lia]. apply (ri_active _ _ Hinv). by rewrite Ha.
      + destruct (new_run_inv t E n merged r f fs active) as [H1 H2]; try done.
        eexists _, (Some n). split_and!; [exact H1|done|done|done|done| |done].
        do 2 eff_step. rewrite Hn. eapply returns_bind.
        { eapply returns_bind; [exact Hw|]. apply returns_ret. }
        eff_step. eff_step. eff_step. unfold returns, mret, eff_ret.
        rewrite !drop_run_levels, drop_runs_insert by done. done. }
  eexists. split; [exact Hret|].
  destruct (drop_runs_spec (upd E n merged) consumed (set_levels levels' t1)) as [Hd Hr].
  assert (cache_inv (t_cache t1)) as Hci by (by destruct Hinv1).
  split_and!; [|by rewrite (dr_levels _ _ Hd)|by rewrite (dr_next _ _ Hd)|].
  - eapply dropped_runs_inv; [done..|]. intros id Hid. simpl.
    destruct (Hids id Hid) as [Hid'|[Hin Hid']].
    + assert (id = n) as -> by (unfold new in Hid'; case_bool_decide; congruence).
      split; [rewrite Hn1; pose proof (ri_next _ _ Hinv); lia|].
      apply Hr; [done|done|]. by apply Hnew.
    + split; [pose proof (ri_ids _ _ Hinv id Hin); lia|]. apply Hr; [done|done|].
      apply (ri_runs _ _ Hinv1). by rewrite Hl1.
  - destruct Hsr as [H1 H2 H3]. split; [by rewrite (dr_mem _ _ Hd)|by rewrite (dr_wal _ _ Hd)|by rewrite (dr_config _ _ Hd)].
Qed.

Lemma sum_join {A} (f : A → nat) (ls : list (list A)) :
  sum_list_with f (mjoin ls) = sum_list_with (sum_list_with f) ls.
Proof.
  induction ls as [|l ls IH]; [done|]. rewrite mjoin_cons, sum_list_with_app, IH. done.
Qed.

Lemma sum_list_with_fmap {A B} (f : B → nat) (g : A → B) l :
  sum_list_with f (g <$> l) = sum_list_with (λ x, f (g x)) l.
Proof. induction l as [|x l IH]; [done|]. rewrite fmap_cons. simpl. by f_equal. Qed.

Lemma length_sum {A} (l : list A) : length l = sum_list_with (λ _, 1) l.
Proof. induction l as [|x l IH]; simpl; [done|]. by rewrite IH. Qed.

Lemma sum_list_with_ext {A} (f g : A → nat) l :
  (∀ x, x ∈ l → f x = g x) → sum_list_with f l = sum_list_with g l.
Proof.
  induction l as [|x l IH]; simpl; intros H; [done|].
  rewrite H by set_solver. rewrite IH; [done|]. set_solver.
Qed.

(** The merge of runs of the tree. *)
Lemma merged_runs t E l b :
  (∀ id, id ∈ l → run_inv t E id) → (Z.of_nat (length l) ≤ SEQ_BASE)%Z →
  let merged := merge_entries (number 0 (E <$> l)) b in
  strict_sorted merged ∧ Forall rs_entry_ok merged ∧
  length merged ≤ sum_list_with (λ id, length (E id)) l ∧
  page_data_size merged ≤ sum_list_with (λ id, page_data_size (E id)) l ∧
  ∀ k, assoc k merged = drop_dead b (lookup_first k (reverse (E <$> l))).
Proof.
  intros Hl Hlen merged.
  assert (Forall strict_sorted (E <$> l)) as Hs.
  { apply Forall_forall. intros es (id & -> & Hid)%list_elem_of_fmap.
    destruct (Hl id Hid) as (r & f & _ & _ & Hrep & _). by eapply rs_rep_sorted. }
  assert (Z.of_nat (length (E <$> l)) ≤ SEQ_BASE)%Z as Hlen' by (by rewrite length_fmap).
  pose proof (number_ok 0 _ Hs Hlen') as Hok.
  pose proof (merge_entries_submseteq _ b Hok) as Hsub. rewrite number_snd in Hsub.
  split_and!.
  - by apply merge_entries_spec.
  - apply Forall_forall. intros e He.
    pose proof (elem_of_submseteq _ _ _ He Hsub) as (es & He' & Hin)%list_elem_of_join.
    apply list_elem_of_fmap in Hin as (id & -> & Hid).
    destruct (Hl id Hid) as (r & f & _ & _ & _ & _ & Hes). rewrite Forall_forall in Hes. auto.
  - rewrite length_sum. etrans; [by eapply sum_list_with_submseteq|].
    rewrite sum_join, sum_list_with_fmap. apply Nat.eq_le_incl, sum_list_with_ext.
    intros. by rewrite <-length_sum.
  - unfold page_data_size. etrans; [by eapply sum_list_with_submseteq|].
    by rewrite sum_join, sum_list_with_fmap.
  - intros k. by apply merge_number.
Qed.

Lemma compacted_levels_app L1 ls lt L2 tgt new :
  compacted_levels (length L1) tgt new (L1 ++ ls :: lt :: L2) =
  L1 ++ clear_level ls ::
    (let l := foldl (λ l id, remove_run id l) lt tgt in
     match new with Some id => add_run id l | None => l end) :: L2.
Proof.
  unfold compacted_levels.
  rewrite (alter_app_r_alt _ L1 _ (length L1)), Nat.sub_diag by lia. simpl.
  rewrite (alter_app_r_alt _ L1 _ (length L1 + 1)) by lia.
  replace (length L1 + 1 - length L1) with 1 by lia. simpl.
  destruct new as [id|]; [|done].
  rewrite (alter_app_r_alt _ L1 _ (length L1 + 1)) by lia.
  replace (length L1 + 1 - length L1) with 1 by lia. done.
Qed.

(** The levels around the compacted one. *)
Lemma split_levels i (levels : list Level) :
  i < length levels →
  ∃ L1 ls lt L2, extend_levels (i + 1) levels = L1 ++ ls :: lt :: L2 ∧ length L1 = i ∧
    levels !! i = Some ls.
Proof.
  intros Hi. set (L := extend_levels (i + 1) levels).
  assert (length L = max (length levels) (S (i + 1))) as HL by apply length_extend_levels.
  destruct (lookup_lt_is_Some_2 L i) as [ls Hls]; [lia|].
  destruct (lookup_lt_is_Some_2 L (S i)) as [lt Hlt]; [lia|].
  exists (take i L), ls, lt, (drop (S (S i)) L). split_and!.
  - rewrite <-(drop_S _ _ _ Hlt), <-(drop_S _ _ _ Hls). by rewrite take_drop.
  - rewrite length_take. lia.
  - unfold L, extend_levels in Hls. by rewrite lookup_app_l in Hls.
Qed.

Lemma extend_inv t E n :
  runs_inv t E → runs_inv (set_levels (extend_levels n (t_levels t)) t) E.
Proof.
  intros []. split; simpl; rewrite ?search_order_extend; auto.
  - intros H. apply (f_equal length) in H. rewrite length_extend_levels in H. simpl in H. lia.
  - by apply numbered_extend.
Qed.

(** What a compaction keeps. *)
Record compacted t t' E E' (b : budget) : Prop := {
  co_inv : runs_inv t' E';
  co_bounds : tree_bounds t' E' b;
  co_view k : mjoin (runs_view t' E' k) = mjoin (runs_view t E k);
  co_rest : same_rest t t';
}.

Lemma upd_old E n merged (ids : list Z) : n ∉ ids → upd E n merged <$> ids = E <$> ids.
Proof.
  intros Hn. apply list_fmap_ext. intros i id Hid. unfold upd. rewrite decide_False; [done|].
  intros ->. apply Hn. by eapply list_elem_of_lookup_2.
Qed.

Lemma upd_sum E n merged (f : list entry → nat) (ids : list Z) :
  n ∉ ids → sum_list_with (λ id, f (upd E n merged id)) ids = sum_list_with (λ id, f (E id)) ids.
Proof.
  intros Hn. apply sum_list_with_ext. intros id Hid. unfold upd. rewrite decide_False; [done|]. congruence.
Qed.

(** Search orders before and after: the runs [src] and, when the target is
    included, [tgt] are replaced by the run [n] of their merge. *)
Section compact_order.
Context (E : Z → list entry) (O1 src tgt O2 : list Z) (incl : bool) (n : Z) (merged : list entry).
Let tgt' := if incl then tgt else [].
Let kept := if incl then [] else tgt.
Let newl := if bool_decide (merged = []) then [] else [n].
Let before := O1 ++ reverse src ++ reverse tgt ++ O2.
Let after := O1 ++ newl ++ reverse kept ++ O2.
Context (Hfresh : n ∉ before).

Lemma compact_order_nodup : NoDup before → NoDup after.
Proof.
  intros Hnd. assert (after ≡ₚ newl ++ (O1 ++ reverse kept ++ O2)) as -> by solve_Permutation.
  assert (O1 ++ reverse kept ++ O2 `sublist_of` before) as Hsub.
  { apply sublist_app; [done|]. apply sublist_inserts_l. apply sublist_app; [|done].
    unfold kept. destruct incl; [apply sublist_nil_l|done]. }
  pose proof (sublist_NoDup _ _ Hnd Hsub) as Hnd'.
  unfold newl. case_bool_decide; [done|]. simpl. constructor; [|done].
  intros Hin. by apply Hfresh, (elem_of_sublist (O1 ++ reverse kept ++ O2)).
Qed.

Lemma compact_order_elem id :
  NoDup before → id ∈ after →
  (if bool_decide (merged = []) then None else Some n) = Some id ∨
  (id ∈ before ∧ id ∉ tgt' ++ src).
Proof.
  unfold before, after, newl, kept, tgt'. rewrite !NoDup_app. intros (_ & H1 & _ & H2 & _ & H3 & _).
  case_bool_decide; destruct incl; simpl; set_solver.
Qed.

Lemma compact_order_sum (f : list entry → nat) :
  f merged ≤ sum_list_with (λ id, f (E id)) (tgt' ++ src) →
  sum_list_with (λ id, f (upd E n merged id)) after ≤ sum_list_with (λ id, f (E id)) before.
Proof.
  unfold after, before in *. intros Hm. rewrite !sum_list_with_app, !sum_list_with_reverse in *.
  rewrite (upd_sum _ _ _ f O1), (upd_sum _ _ _ f O2), (upd_sum _ _ _ f kept) by (unfold kept; destruct incl; set_solver).
  assert (sum_list_with (λ id, f (upd E n merged id)) newl ≤ f merged) as Hn.
  { unfold newl. case_bool_decide; simpl; [lia|]. unfold upd. rewrite decide_True by done. lia. }
  unfold tgt', kept in *. destruct incl; simpl in *; lia.
Qed.

Lemma compact_order_view k :
  (incl = true → O2 = []) →
  assoc k merged = drop_dead incl (lookup_first k (reverse (E <$> (tgt' ++ src)))) →
  mjoin (lookup_first k (upd E n merged <$> after)) = mjoin (lookup_first k (E <$> before)).
Proof.
  intros Hlast Hm. unfold after, before in *. rewrite !fmap_app, !lookup_first_app.
  rewrite (upd_old _ _ _ O1), (upd_old _ _ _ O2), (upd_old _ _ _ (reverse kept)) by (unfold kept; destruct incl; set_solver).
  destruct (lookup_first k (E <$> O1)); [done|].
  assert (lookup_first k (upd E n merged <$> newl) = assoc k merged) as ->.
  { unfold newl. case_bool_decide as Hd; [by rewrite Hd|]. simpl. unfold upd. rewrite decide_True by done.
    by destruct (assoc k merged). }
  rewrite Hm, <-fmap_reverse, reverse_app, fmap_app, lookup_first_app. unfold tgt', kept.
  destruct incl; simpl.
  - rewrite Hlast by done. simpl.
    destruct (lookup_first k (E <$> reverse src)) as [[]|]; [done|done|].
    by destruct (lookup_first k (E <$> reverse tgt)) as [[]|].
  - by destruct (lookup_first k (E <$> reverse src)).
Qed.

End compact_order.

(** The search order of the compacted levels. *)
Lemma compacted_order (L1 : list Level) (ls lt : Level) (L2 : list Level) (incl : bool) (n : Z) (merged : list entry) :
  search_order
    (compacted_levels (length L1) (if incl then l_run_ids lt else [])
       (if bool_decide (merged = []) then None else Some n) (L1 ++ ls :: lt :: L2)) =
  search_order L1 ++ (if bool_decide (merged = []) then [] else [n]) ++
    reverse (if incl then [] else l_run_ids lt) ++ search_order L2.
Proof.
  rewrite compacted_levels_app, search_order_app, !search_order_cons. cbn [clear_level l_run_ids].
  destruct (foldl_remove_run (if incl then l_run_ids lt else []) lt) as [Hids _].
  assert (filter (λ i, i ∉ (if incl then l_run_ids lt else [])) (l_run_ids lt) =
    (if incl then [] else l_run_ids lt)) as Hf.
  { destruct incl; [apply filter_not_elem_self|apply filter_not_elem_nil]. }
  rewrite Hf in Hids. f_equal. change (reverse []) with (@nil Z). rewrite app_nil_l, app_assoc. f_equal.
  cbv zeta. case_bool_decide; simpl; rewrite Hids; [done|]. by rewrite reverse_app.
Qed.

Lemma compacted_numbered i tgt new (levels : list Level) :
  numbered levels → numbered (compacted_levels i tgt new levels).
Proof.
  intros H. unfold compacted_levels.
  destruct new; repeat (apply numbered_alter; [by intros l; try apply foldl_remove_run|]); done.
Qed.

Lemma length_compacted i tgt new (levels : list Level) : length (compacted_levels i tgt new levels) = length levels.
Proof. unfold compacted_levels. destruct new; by rewrite !length_alter. Qed.

Lemma compact_level_spec t E b i :
  runs_inv t E → tree_bounds t E b →
  find_compaction_level (t_levels t) (size_ratio (t_config t)) = Some i →
  (2 ≤ size_ratio (t_config t))%Z →
  ∃ out t' E', returns (compact_level i) t out t' ∧ compacted t t' E E' b ∧
    total_runs (t_levels t') < total_runs (t_levels t).
Proof.
  intros Hinv Hb (_ & ls & Hls & HT)%find_level_spec Hratio. rewrite Nat.sub_0_r in Hls.
  pose proof (lookup_lt_Some _ _ _ Hls) as Hi.
  destruct (split_levels i _ Hi) as (L1 & ls' & lt & L2 & HL & Hlen & Hls').
  assert (ls' = ls) as -> by congruence. clear Hls'.
  set (t1 := set_levels (extend_levels (i + 1) (t_levels t)) t).
  pose proof (extend_inv t E (i + 1) Hinv) as Hinv1. fold t1 in Hinv1.
  set (n := t_next_run_id t).
  set (src := l_run_ids ls) in *. set (tgt := l_run_ids lt).
  set (incl := is_last_level (t_levels t1) (i + 1) && negb (length tgt =? 0)).
  set (tgt' := if incl then tgt else []).
  set (merged := merge_entries (number 0 (E <$> (tgt' ++ src))) incl).
  assert (ids t1 = search_order L1 ++ reverse src ++ reverse tgt ++ search_order L2) as Hids.
  { simpl. by rewrite HL, search_order_app, !search_order_cons. }
  assert (ids t1 = ids t) as Hids0 by apply search_order_extend.
  assert (∀ id, id ∈ tgt' ++ src → id ∈ ids t1) as Hcons.
  { intros id Hid. rewrite Hids. unfold tgt' in Hid. destruct incl; set_solver. }
  assert (length (tgt' ++ src) ≤ total_runs (t_levels t)) as Hcount.
  { rewrite <-length_search_order, <-Hids0, Hids, !length_app, !length_reverse.
    unfold tgt'. destruct incl; simpl; lia. }
  destruct Hb as [Hops Hbud Hcnt Hdep Hent Hbyt]. pose proof (ri_next _ _ Hinv) as Hn0.
  destruct (merged_runs t1 E (tgt' ++ src) incl) as (Hs & He & Hl & Hsz & Hview).
  { intros id Hid. by apply (ri_runs _ _ Hinv1), Hcons. }
  { unfold SEQ_BASE. lia. }
  fold merged in Hs, He, Hl, Hsz, Hview.
  assert (n ∉ search_order L1 ++ reverse src ++ reverse tgt ++ search_order L2) as Hfresh.
  { rewrite <-Hids. intros H%(ri_ids _ _ Hinv1). unfold n in H. simpl in H. lia. }
  pose proof (ri_nodup _ _ Hinv1) as Hnd. rewrite Hids in Hnd.
  pose proof (compact_order_sum E _ src tgt _ incl n merged Hfresh length Hl) as Hsum1.
  pose proof (compact_order_sum E _ src tgt _ incl n merged Hfresh page_data_size Hsz) as Hsum2.
  assert (sum_list_with (λ id, length (E id)) (tgt' ++ src) ≤ runs_entries t E ∧
          sum_list_with (λ id, page_data_size (E id)) (tgt' ++ src) ≤ runs_bytes t E) as [Hle1 Hle2].
  { unfold runs_entries, runs_bytes. rewrite <-Hids0, Hids.
    rewrite !sum_list_with_app, !sum_list_with_reverse. unfold tgt'. destruct incl; simpl; lia. }
  pose proof (compacted_order L1 ls lt L2 incl n merged) as Horder.
  rewrite Hlen, <-HL in Horder. fold tgt tgt' in Horder.
  destruct (install_merged_spec t1 E i tgt' (tgt' ++ src) merged n)
    as (t' & Hret & Hinv' & Hlv' & Hn' & Hsr); try done.
  { eapply rs_budget_mono; [| |exact Hbud]; lia. }
  { intros H. apply (f_equal length) in H. rewrite length_compacted in H. simpl in H.
    rewrite length_extend_levels in H. lia. }
  { apply compacted_numbered, Hinv1. }
  { simpl. rewrite Horder. by eapply compact_order_nodup. }
  { intros id. simpl t_levels at 1. rewrite Horder. rewrite Hids.
    by apply compact_order_elem. }
  simpl in Hlv', Hn'.
  assert (total_runs (t_levels t') < total_runs (t_levels t)) as Hdec.
  { rewrite <-!length_search_order, Hlv', Horder, <-Hids0, Hids, !length_app, !length_reverse.
    assert (length (if bool_decide (merged = []) then [] else [n]) ≤ 1) by (case_bool_decide; simpl; lia).
    unfold num_runs in HT. fold src in HT. destruct incl; simpl; lia. }
  exists (tgt' ++ src, n), t', (upd E n merged). split_and!; [| |done].
  - unfold compact_level. eapply returns_bind; [apply returns_modify|]. fold t1.
    eff_step. eff_step. eff_step.
    assert (t_levels t1 !! i = Some ls) as H1.
    { simpl. rewrite HL, lookup_app_r, Hlen, Nat.sub_diag by lia. done. }
    assert (t_levels t1 !! (i + 1) = Some lt) as H2.
    { simpl. rewrite HL, lookup_app_r, Hlen by lia. by replace (i + 1 - i) with 1 by lia. }
    rewrite H1, H2. cbn [from_option]. fold src tgt incl tgt'.
    eapply returns_bind; [apply returns_lift, (gather_spec t1 E); auto using ri_runs, elem_of_app|].
    { intros id Hid. apply (ri_runs _ _ Hinv1), Hcons. set_solver. }
    eapply returns_bind; [apply returns_lift, (gather_spec t1 E)|].
    { intros id Hid. apply (ri_runs _ _ Hinv1), Hcons. set_solver. }
    rewrite <-(length_fmap E), <-number_app, <-fmap_app.
    replace (is_last_level (t_levels t1) (i + 1) && incl) with incl; [exact Hret|].
    unfold incl. by destruct (is_last_level _ _).
  - split; [done| | |].
    + split; try done.
      * rewrite Hn'. lia.
      * rewrite Hlv', length_compacted, length_extend_levels, Hn'. fold n in Hdep. lia.
      * rewrite (sr_mem _ _ Hsr). unfold runs_entries in *. rewrite Hlv', Horder.
        rewrite <-Hids0, Hids in Hent. simpl t_memtable. lia.
      * rewrite (sr_mem _ _ Hsr). unfold runs_bytes in *. rewrite Hlv', Horder.
        rewrite <-Hids0, Hids in Hbyt. simpl t_memtable. lia.
    + intros k. unfold runs_view. rewrite Hlv', Horder, <-Hids0, Hids.
      apply (compact_order_view E _ src tgt); [done| |done].
      intros [Hlast _]%andb_true_iff.
      eapply (is_last_level_spec _ (i + 1) (L1 ++ [ls]) lt L2); [|by rewrite length_app; simpl; lia|exact Hlast].
      simpl. by rewrite HL, <-app_assoc.
    + destruct Hsr. by split.
Qed.

(** ** The manifest and the compaction loop *)

Definition tree_meta t : SnapshotMetadata :=
  mkMeta manifest_label (runs_meta (t_levels t)) (t_next_run_id t).

(** The manifest on disk describes the tree. *)
Definition manifest_ok t : Prop := d_manifest (t_disk t) = Some (meta_to_bytes (tree_meta t)).

Lemma runs_inv_disk t E d :
  d_fs d = d_fs (t_disk t) → d_active d = d_active (t_disk t) → runs_inv t E →
  runs_inv (set_disk d t) E.
Proof.
  intros H1 H2 []. split; simpl; rewrite ?H1, ?H2; auto.
  intros id (r & f & H)%ri_runs0. exists r, f. unfold run_file in *. simpl. by rewrite H1, H2.
Qed.

Lemma save_manifest_spec t E :
  runs_inv t E →
  ∃ t', returns save_manifest t () t' ∧ runs_inv t' E ∧ manifest_ok t' ∧ same_rest t t' ∧
    t_levels t' = t_levels t ∧ t_next_run_id t' = t_next_run_id t.
Proof.
  intros H. eexists. split; [apply returns_modify|]. split_and!; try done.
  by apply runs_inv_disk.
Qed.

Lemma tree_bounds_ext t t' E b :
  tree_bounds t E b → t_memtable t' = t_memtable t → t_levels t' = t_levels t →
  t_next_run_id t' = t_next_run_id t → tree_bounds t' E b.
Proof.
  intros [] H1 H2 H3. split; unfold runs_entries, runs_bytes in *; rewrite ?H1, ?H2, ?H3; done.
Qed.

Lemma compacted_refl t E b : runs_inv t E → tree_bounds t E b → compacted t t E E b.
Proof. by split. Qed.

Lemma compacted_trans t1 t2 t3 E1 E2 E3 b :
  compacted t1 t2 E1 E2 b → compacted t2 t3 E2 E3 b → compacted t1 t3 E1 E3 b.
Proof.
  intros [_ _ V1 [M1 W1 C1]] [I2 B2 V2 [M2 W2 C2]]. split; [done|done| |split; congruence].
  intros k. by rewrite V2, V1.
Qed.

Lemma compact_loop_spec fuel t E b :
  runs_inv t E → tree_bounds t E b → (2 ≤ size_ratio (t_config t))%Z → manifest_ok t →
  total_runs (t_levels t) ≤ fuel →
  ∃ t' E', returns (compact_loop fuel) t () t' ∧ compacted t t' E E' b ∧ manifest_ok t' ∧
    find_compaction_level (t_levels t') (size_ratio (t_config t')) = None.
Proof.
  revert t E. induction fuel as [|fuel IH]; intros t E Hinv Hb Hr Hm Hf; cbn [compact_loop].
  all: destruct (find_compaction_level (t_levels t) (size_ratio (t_config t))) as [i|] eqn:Hfind.
  2, 4: exists t, E; split_and!; auto using compacted_refl; eff_step; by rewrite Hfind.
  all: destruct (compact_level_spec t E b i Hinv Hb Hfind Hr) as (out & t1 & E1 & Hret & Hc & Hdec).
  { exfalso. lia. }
  destruct Hc as [Hinv1 Hb1 Hv1 Hsr1].
  destruct (save_manifest_spec t1 E1 Hinv1) as (t2 & Hret2 & Hinv2 & Hm2 & Hsr2 & Hl2 & Hn2).
  assert (compacted t t2 E E1 b) as Hc2.
  { destruct Hsr1, Hsr2. split; [done| | |split; congruence].
    - by eapply tree_bounds_ext.
    - intros k. rewrite <-Hv1. unfold runs_view. by rewrite Hl2. }
  destruct (IH t2 E1) as (t3 & E3 & Hret3 & Hc3 & Hm3 & Hfind3); try done.
  - by eapply tree_bounds_ext; [done|destruct Hsr2..|].
  - destruct Hc2 as [_ _ _ []]. congruence.
  - rewrite Hl2. lia.
  - exists t3, E3. split_and!; try done; [|by eapply compacted_trans].
    eff_step. rewrite Hfind. eff_step. eff_step. done.
Qed.

(** ** Flushing *)

(** The log accepts writes, with at most [s] segments opened. *)
Definition wal_inv t (s : Z) : Prop :=
  (segment_num (t_wal t) ≤ s)%Z ∧ (wal_enabled (t_wal t) = false ∨ ∃ ops, wal_rep (t_wal t) ops).

(** The log replays to the memtable. *)
Definition wal_synced t : Prop :=
  ∃ ops, wal_rep (t_wal t) ops ∧ t_memtable t = foldl apply_op mem_new ops.

Definition no_runs t : Prop :=
  d_manifest (t_disk t) = None ∧ search_order (t_levels t) = [] ∧ t_next_run_id t = 0%Z.

(** Everything the tree holds is on disk. *)
Definition durable t : Prop := wal_synced t ∧ (manifest_ok t ∨ no_runs t).

Record tree_core t E (b : budget) : Prop := {
  ti_mem : mem_inv t;
  ti_runs : runs_inv t E;
  ti_bounds : tree_bounds t E b;
  ti_ratio : (2 ≤ size_ratio (t_config t))%Z;
}.

(** A write opens at most two segments: one to log and one after a flush. *)
Record tree_inv t E (b : budget) : Prop := {
  ti_core : tree_core t E b;
  ti_wal : wal_inv t (2 * b_ops b + 1);
}.

Definition add_op (n s : nat) (b : budget) : budget :=
  mkBudget (b_ops b + 1) (b_entries b + n) (b_bytes b + s).

Lemma wal_clear_inv t s :
  wal_inv t s → (s + 1 < 10 ^ 6)%Z →
  ∃ w, returns (zoom t_wal set_wal wal_clear) t () (set_wal w t) ∧
    wal_inv (set_wal w t) (s + 1) ∧ (wal_enabled (t_wal t) = true → wal_rep w []).
Proof.
  intros [Hs [Hd|[ops Hrep]]] Hlt.
  - exists (t_wal t). split_and!.
    + apply returns_zoom. unfold wal_clear. eff_step. by rewrite Hd.
    + split; simpl; [lia|by left].
    + congruence.
  - destruct (wal_clear_spec (t_wal t) ops Hrep) as (w & Hret & Hrep' & Hn); [unfold wal_room; lia|].
    exists w. split_and!; [by apply returns_zoom|split; simpl; [lia|eauto]|done].
Qed.

Lemma mem_ok_nil m : mem_ok m → mem_entries m = [] → m = mem_new.
Proof. destruct m as [es n]. intros [_ Hb] Hes. simpl in *. subst. done. Qed.

(** The state once the memtable is written as a run of level 0. *)
Lemma flush_run_spec t E b :
  tree_core t E b → mem_entries (t_memtable t) ≠ [] → (2 * b_ops b + 5 < 10 ^ 6)%Z →
  let n := t_next_run_id t in
  let es := mem_entries (t_memtable t) in
  ∃ r t1, returns (write_run n es) (set_next_run_id (n + 1) (set_memtable mem_new t)) r t1 ∧
    ∃ t2, returns (add_to_level0 n) t1 () t2 ∧
    let t3 := set_runs (<[n := r]> (t_runs t2)) t2 in
    runs_inv t3 (upd E n es) ∧ tree_bounds t3 (upd E n es) (add_op 0 0 b) ∧
    t_memtable t3 = mem_new ∧ t_wal t3 = t_wal t ∧ t_config t3 = t_config t ∧
    ids t3 = n :: ids t.
Proof.
  intros [[Hmok Hment] Hinv Hb Hr] Hne Hlt n es.
  pose proof (mem_ok_sorted _ Hmok) as Hsorted.
  assert (rs_budget (length es) (page_data_size es)) as Hbud.
  { destruct Hb. eapply rs_budget_mono; [| |exact tb_budget0]; unfold es; lia. }
  set (t0 := set_memtable mem_new t).
  assert (runs_inv t0 E) as Hinv0 by (by destruct Hinv).
  destruct (write_run_spec (set_next_run_id (n + 1) t0) E n es)
    as (r & f & fs & active & Hwr & Hfs & Ha & Hrd & Hrep); try done; try (by destruct Hinv).
  { destruct (d_active (t_disk t) !! n) eqn:Ha; [|done].
    assert (n < t_next_run_id t)%Z; [|unfold n in *; lia]. apply (ri_active _ _ Hinv). by rewrite Ha. }
  destruct (new_run_inv t0 E n es r f fs active) as [Hinv1 Hrun]; try done.
  exists r, (set_disk (set_files fs active (t_disk t0)) (set_next_run_id (n + 1) t0)). split; [done|].
  pose proof (ri_levels _ _ Hinv) as Hl0.
  destruct (t_levels t) as [|l levels] eqn:Hlv; [done|].
  eexists. split; [unfold returns, add_to_level0; simpl; rewrite Hlv; done|].
  assert (search_order (add_run n l :: levels) = n :: ids t) as Hids.
  { rewrite Hlv, !search_order_cons. simpl. by rewrite reverse_app. }
  assert (n ∉ ids t) as Hn by (intros H%(ri_ids _ _ Hinv); unfold n in H; lia).
  simpl. split_and!; try done; [| |by rewrite Hids, Hlv].
  - destruct Hinv1. split; simpl; rewrite ?Hids; auto.
    + simpl in ri_numbered0. rewrite Hlv in ri_numbered0. apply (numbered_alter (add_run n) 0) in ri_numbered0; [|done]. done.
    + constructor; [done|]. by destruct Hinv.
    + intros id [->|Hid]%elem_of_cons; [exact Hrun|]. by apply ri_runs0.
    + intros id [->|Hid]%elem_of_cons; [pose proof (ri_next _ _ Hinv); simpl; unfold n; lia|]. by apply ri_ids0.
  - destruct Hb. split; simpl; try lia.
    + by rewrite !Nat.add_0_r.
    + rewrite Hlv in tb_count0. unfold total_runs in *. simpl in *. unfold num_runs, add_run in *.
      simpl. rewrite length_app. simpl. fold n in tb_count0. lia.
    + rewrite Hlv in tb_depth0. simpl in *. fold n in tb_depth0. lia.
    + unfold runs_entries in *. simpl. rewrite Hids. simpl.
      rewrite (upd_sum E n es length) by done. unfold upd at 1. rewrite decide_True by done.
      unfold es in *. lia.
    + unfold runs_bytes in *. simpl. rewrite Hids. simpl.
      rewrite (upd_sum E n es page_data_size) by done. unfold upd at 1. rewrite decide_True by done.
      unfold es in *. lia.
Qed.

(** An operation that returns, keeps the invariant within budget [b'] and
    leaves the tree with the view [v']. *)
Definition step_ok {A} (m : eff Tree A) t (b' : budget) (out : A) (v' : Key → option Value) : Prop :=
  ∃ t' E', returns m t out t' ∧ tree_inv t' E' b' ∧ (∀ k, tree_view t' E' k = v' k) ∧
    t_config t' = t_config t ∧ (durable t → durable t').

Lemma flush_memtable_spec t E b :
  tree_core t E b → wal_inv t (2 * b_ops b + 2) → (2 * b_ops b + 5 < 10 ^ 6)%Z →
  step_ok flush_memtable t (add_op 0 0 b) () (tree_view t E).
Proof.
  intros Hti Hwal Hlt. unfold step_ok, flush_memtable.
  destruct (decide (mem_entries (t_memtable t) = [])) as [Hnil|Hne].
  { pose proof Hti as [[Hmok Hment] Hinv Hb Hr]. destruct Hwal as [Hw1 Hw2].
    pose proof (mem_ok_nil _ Hmok Hnil) as Hnew.
    assert (set_memtable mem_new t = t) as Heq by (destruct t; simpl in *; by subst).
    exists t, E. split_and!; try done.
    - eapply returns_bind; [done|]. simpl. rewrite Hnil, Heq. done.
    - split; [split; try done|split; [simpl; lia|done]].
      destruct Hb. split; simpl; try lia. by rewrite !Nat.add_0_r. }
  destruct (flush_run_spec t E b Hti Hne Hlt)
    as (r & t1 & Hwr & t2 & Hal & Hinv3 & Hb3 & Hm3 & Hw3 & Hc3 & Hids3).
  set (n := t_next_run_id t) in *. set (es := mem_entries (t_memtable t)) in *.
  set (t3 := set_runs (<[n := r]> (t_runs t2)) t2) in *.
  assert (wal_inv t3 (2 * b_ops b + 2)) as Hwi by (unfold wal_inv; by rewrite Hw3).
  destruct (wal_clear_inv t3 (2 * b_ops b + 2) Hwi) as (w & Hwc & Hwi4 & Hsync); [lia|].
  set (t4 := set_wal w t3) in *.
  assert (runs_inv t4 (upd E n es)) as Hinv4 by (by destruct Hinv3).
  destruct (save_manifest_spec t4 _ Hinv4) as (t5 & Hsm & Hinv5 & Hm5 & [Hsm5 Hsw5 Hsc5] & Hl5 & Hn5).
  assert (tree_bounds t5 (upd E n es) (add_op 0 0 b)) as Hb5 by (by eapply tree_bounds_ext).
  assert (2 ≤ size_ratio (t_config t5))%Z as Hr5.
  { rewrite Hsc5. simpl. change (t_config t2) with (t_config t3). rewrite Hc3. apply Hti. }
  destruct (compact_loop_spec (total_runs (t_levels t5)) t5 (upd E n es) (add_op 0 0 b))
    as (t6 & E6 & Hcl & [Hinv6 Hb6 Hv6 [Hsm6 Hsw6 Hsc6]] & Hm6 & _); try done.
  assert (t_memtable t6 = mem_new) as Hmem6.
  { rewrite Hsm6, Hsm5. exact Hm3. }
  exists t6, E6. split_and!.
  - eapply returns_bind; [done|]. cbv beta. rewrite bool_decide_false by done.
    eff_step. eff_step. eapply returns_bind; [exact Hwr|]. eapply returns_bind; [exact Hal|].
    eff_step. fold t3. eapply returns_bind; [exact Hwc|]. eapply returns_bind; [exact Hsm|]. exact Hcl.
  - split; [split; try done|].
    + split; rewrite Hmem6; [apply mem_new_ok|constructor].
    + congruence.
    + unfold wal_inv. rewrite Hsw6, Hsw5. destruct Hwi4. split; [simpl in *; lia|done].
  - intros k. unfold tree_view. rewrite Hmem6. unfold mem_get at 1. simpl. rewrite Hv6.
    unfold runs_view. rewrite Hl5. change (t_levels t4) with (t_levels t3). rewrite Hids3. simpl.
    unfold upd at 1. rewrite decide_True by done. fold (mem_get (t_memtable t) k).
    change (assoc k es) with (mem_get (t_memtable t) k). destruct (mem_get _ k); [done|].
    rewrite upd_old; [done|]. intros H%(ri_ids _ _ (ti_runs _ _ _ Hti)). unfold n in H. lia.
  - rewrite Hsc6, Hsc5. exact Hc3.
  - intros [Hs _]. split; [|by left]. exists []. rewrite Hmem6, Hsw6, Hsw5. split; [|done].
    simpl. apply Hsync. rewrite Hw3. by destruct Hs as (ops & (? & ? & _ & _ & _ & He & _) & _).
Qed.

(** ** Writes *)

Lemma flush_if_full_spec t E b :
  tree_core t E b → wal_inv t (2 * b_ops b + 2) → (2 * b_ops b + 5 < 10 ^ 6)%Z →
  step_ok flush_if_full t (add_op 0 0 b) () (tree_view t E).
Proof.
  intros Hti Hwal Hlt. destruct (flush_memtable_spec t E b Hti Hwal Hlt) as (t' & E' & Hret & H).
  unfold step_ok, flush_if_full.
  destruct ((memtable_size (t_config t) <=? Z.of_nat (mem_approx_bytes (t_memtable t)))%Z) eqn:Hf.
  - exists t', E'. split; [|done]. eff_step. by rewrite Hf.
  - exists t, E. split_and!; try done; [eff_step; by rewrite Hf|].
    destruct Hti as [Hm Hinv Hb Hr]. destruct Hwal as [Hw1 Hw2].
    split; [split; try done|split; [simpl; lia|done]].
    destruct Hb. split; simpl; try lia. by rewrite !Nat.add_0_r.
Qed.

(** The abstract effect of logged operations on a view. *)
Definition apply_view (v : Key → option Value) (op : WalOp) : Key → option Value := λ k,
  match op with
  | WalInsert k' x => if decide (k = k') then Some x else v k
  | WalDelete k' => if decide (k = k') then None else v k
  end.

Definition op_entry (op : WalOp) : entry :=
  match op with WalInsert k v => (k, Some v) | WalDelete k => (k, None) end.

Definition ops_bytes (ops : list WalOp) : nat := sum_list_with (λ op, entry_size (op_entry op)) ops.

Lemma apply_op_mem_ok m op : mem_ok m → mem_ok (apply_op m op).
Proof. intros H. destruct op; [by apply mem_insert_spec|by apply mem_delete_spec]. Qed.

Lemma apply_op_entries m op :
  mem_entries (apply_op m op) = (btree_insert (op_entry op).1 (op_entry op).2 (mem_entries m)).1.
Proof. destruct op; [apply mem_insert_entries|apply mem_delete_entries]. Qed.

Lemma apply_ops_spec t E ops :
  mem_inv t → Forall rs_entry_ok (op_entry <$> ops) →
  let m := foldl apply_op (t_memtable t) ops in
  mem_inv (set_memtable m t) ∧
  (∀ k, tree_view (set_memtable m t) E k = foldl apply_view (tree_view t E) ops k) ∧
  length (mem_entries m) ≤ length (mem_entries (t_memtable t)) + length ops ∧
  page_data_size (mem_entries m) ≤ page_data_size (mem_entries (t_memtable t)) + ops_bytes ops.
Proof.
  revert t. induction ops as [|op ops IH]; intros t [Hmok Hment] Hops; cbn [foldl length]; cbv zeta.
  { unfold ops_bytes. simpl. split_and!; [by split|done|lia|lia]. }
  rewrite fmap_cons in Hops. apply Forall_cons in Hops as [Hop Hops].
  destruct (IH (set_memtable (apply_op (t_memtable t) op) t)) as (H1 & H2 & H3 & H4); [|done|].
  - split; simpl; [by apply apply_op_mem_ok|]. rewrite apply_op_entries.
    apply btree_insert_Forall; [|done]. by destruct (op_entry op).
  - simpl t_memtable in *. rewrite apply_op_entries in H3, H4.
    pose proof (btree_insert_length (op_entry op).1 (op_entry op).2 (mem_entries (t_memtable t))).
    pose proof (btree_insert_sum entry_size (op_entry op).1 (op_entry op).2 (mem_entries (t_memtable t))) as Hsum.
    rewrite <-surjective_pairing in Hsum.
    split_and!; [done| |lia|].
    + intros k. rewrite H2. assert (∀ ops (f g : Key → option Value), (∀ k, f k = g k) →
        ∀ k, foldl apply_view f ops k = foldl apply_view g ops k) as Hext.
      { clear. intros ops. induction ops as [|op ops IH]; intros f g Hfg k; simpl; [done|].
        apply IH. intros k'. destruct op; simpl; by rewrite Hfg. }
      apply Hext. intros k'. unfold tree_view, runs_view. simpl. destruct op as [k1 v1|k1]; simpl.
      * destruct (mem_insert_spec (t_memtable t) k1 v1 Hmok) as [_ ->]. by case_decide.
      * destruct (mem_delete_spec (t_memtable t) k1 Hmok) as [_ ->]. by case_decide.
    + unfold ops_bytes in *. cbn [sum_list_with]. unfold page_data_size in *. lia.
Qed.

(** Every write logs, updates the memtable and flushes when it is full. *)
Lemma write_spec t E b (log : eff WalWriter ()) (ops : list WalOp) :
  tree_inv t E b → (2 * b_ops b + 5 < 10 ^ 6)%Z →
  rs_budget (b_entries b + length ops) (b_bytes b + ops_bytes ops) →
  Forall rs_entry_ok (op_entry <$> ops) →
  (wal_enabled (t_wal t) = false → returns log (t_wal t) () (t_wal t)) →
  (∀ old, wal_rep (t_wal t) old →
    ∃ w, returns log (t_wal t) () w ∧ wal_rep w (old ++ ops) ∧
      (segment_num w ≤ segment_num (t_wal t) + 1)%Z) →
  step_ok (zoom t_wal set_wal log ;;
           modify (λ t, set_memtable (foldl apply_op (t_memtable t) ops) t) ;;
           flush_if_full) t (add_op (length ops) (ops_bytes ops) b) ()
    (foldl apply_view (tree_view t E) ops).
Proof.
  intros Hti Hlt Hbud Hops Hoff Hon. destruct Hti as [[Hm Hinv Hb Hr] [Hw1 Hw2]].
  assert (∃ w, returns log (t_wal t) () w ∧ (segment_num w ≤ segment_num (t_wal t) + 1)%Z ∧
    (wal_enabled w = false ∨ ∃ ops, wal_rep w ops) ∧
    (∀ old, wal_rep (t_wal t) old → wal_rep w (old ++ ops))) as (w & Hret & Hn & Hw & Hrep).
  { destruct Hw2 as [Hd|[old Hold]].
    - exists (t_wal t). split_and!; auto with lia.
      intros old (? & ? & _ & _ & _ & He & _). congruence.
    - destruct (Hon old Hold) as (w & H1 & H2 & H3). exists w. split_and!; eauto.
      intros old' Hold'. pose proof (wal_rep_replay _ _ Hold) as E1.
      pose proof (wal_rep_replay _ _ Hold') as E2. congruence. }
  destruct (apply_ops_spec t E ops Hm Hops) as (Hm' & Hv & Hl & Hs). simpl in Hl, Hs.
  set (m := foldl apply_op (t_memtable t) ops) in *.
  set (t2 := set_memtable m (set_wal w t)).
  set (b1 := mkBudget (b_ops b) (b_entries b + length ops) (b_bytes b + ops_bytes ops)).
  destruct Hb as [Hb1 Hb2 Hb3 Hb4 Hb5 Hb6].
  destruct (flush_if_full_spec t2 E b1) as (t' & E' & Hret' & Hti' & Hv' & Hc' & Hdur).
  - split; [by destruct Hm'|by destruct Hinv| |done].
    split; unfold runs_entries, runs_bytes in *; simpl in *; try done; lia.
  - split; simpl; [lia|done].
  - done.
  - exists t', E'. split_and!; try done.
    + eapply returns_bind; [by apply returns_zoom|]. eff_step. exact Hret'.
    + destruct Hti' as [[H1 H2 H3 H4] H5]. split; [split; try done|done].
      destruct H3. split; simpl in *; try done; rewrite ?Nat.add_0_r in *; done.
    + intros k. by rewrite Hv', <-Hv.
    + intros [(old & Hold & Hmem) Hman]. apply Hdur. split; [|done].
      exists (old ++ ops). split; [by apply Hrep|]. simpl. by rewrite foldl_app, <-Hmem.
Qed.

(** ** Reads *)

Lemma run_get_inv t E id k :
  runs_inv t E → id ∈ ids t →
  ∃ r c', t_runs t !! id = Some r ∧
    rs_get r (run_file (t_disk t) id) k (t_cache t) = (Ok (assoc k (E id)), c') ∧
    runs_inv (set_cache c' t) E.
Proof.
  intros Hinv Hid. pose proof Hinv as [].
  destruct (ri_runs0 id Hid) as (r & f & Hr & Hf & Hrep & Hcoh & He).
  destruct (rs_get_rep (t_cache t) id r f (E id) k Hrep ri_cache0 Hcoh)
    as (c' & Hget & Hc' & Hcoh' & _ & Hsub).
  exists r, c'. rewrite Hf. split_and!; try done. split; simpl; auto.
  - intros id' Hid'. destruct (decide (id' = id)) as [->|Hne].
    + exists r, f. done.
    + destruct (ri_runs0 id' Hid') as (r' & f' & Hr' & Hf' & Hrep' & Hcoh2 & He').
      exists r', f'. split_and!; try done. simpl.
      eapply rs_coh_mono; [|exact Hcoh2]. intros i p. by apply Hsub.
  - intros id' i Hid'. destruct (cached c' (id', i)) as [p|] eqn:Hp; [|done].
    apply Hsub in Hp; [by rewrite ri_cache_new0 in Hp|].
    simpl. apply ri_ids0 in Hid. lia.
Qed.

Lemma get_runs_spec t E k l :
  runs_inv t E → (∀ id, id ∈ l → id ∈ ids t) →
  ∃ c', get_runs (t_runs t) (t_disk t) k l (t_cache t) = (Ok (mjoin (lookup_first k (E <$> l))), c') ∧
    runs_inv (set_cache c' t) E.
Proof.
  revert t. induction l as [|id l IH]; intros t Hinv Hl; cbn [get_runs].
  { exists (t_cache t). split; [done|]. by destruct Hinv. }
  destruct (run_get_inv t E id k Hinv) as (r & c' & Hr & Hg & Hinv'); [set_solver|].
  rewrite Hr, Hg, fmap_cons. cbn [lookup_first].
  destruct (assoc k (E id)) as [v|]; [by exists c'|].
  destruct (IH (set_cache c' t) Hinv') as (c2 & H1 & H2); [set_solver|].
  by exists c2.
Qed.

Lemma tree_get_spec t E b k :
  tree_inv t E b →
  ∃ t', returns (tree_get k) t (tree_view t E k) t' ∧ tree_inv t' E b ∧
    (∀ k', tree_view t' E k' = tree_view t E k') ∧ t_config t' = t_config t ∧ (durable t → durable t').
Proof.
  intros Hti. unfold returns, tree_get, tree_view at 1.
  destruct (mem_get (t_memtable t) k) as [v|] eqn:Hm; [by exists t|].
  destruct (get_runs_spec t E k (ids t)) as (c' & Hg & Hinv); [apply Hti|done|].
  rewrite Hg. exists (set_cache c' t). split_and!; try done.
  destruct Hti as [[Hm1 Hm2 Hb Hr] Hw]. split; [|done]. split; [by destruct Hm1|done| |done].
  by eapply tree_bounds_ext.
Qed.

Lemma in_range_key from to k (v : option Value) :
  in_range from to (k, v) ↔ key_le from k ∧ key_le k to.
Proof. unfold in_range. simpl. by rewrite !key_leb_le. Qed.

Lemma assoc_in_range from to k es :
  assoc k (filter (in_range from to) es) =
  if decide (in_range from to (k, None)) then assoc k es else None.
Proof.
  induction es as [|[k1 v1] es IH]; [by case_decide|].
  rewrite filter_cons. destruct (decide (in_range from to (k1, v1))) as [H1|H1]; cbn [assoc]; rewrite IH.
  all: repeat case_decide; subst; try done; rewrite in_range_key in *; tauto.
Qed.

Lemma lookup_first_in_range from to k ls :
  lookup_first k (filter (in_range from to) <$> ls) =
  if decide (in_range from to (k, None)) then lookup_first k ls else None.
Proof.
  induction ls as [|l ls IH]; [by case_decide|].
  rewrite fmap_cons. cbn [lookup_first]. rewrite IH, assoc_in_range. by case_decide.
Qed.

Lemma scan_order_search levels : scan_order levels = reverse (search_order levels).
Proof.
  unfold scan_order, search_order. induction levels as [|l levels IH]; [done|].
  rewrite reverse_cons, fmap_app, join_app, IH, (fmap_cons (λ l, reverse (l_run_ids l))).
  rewrite (mjoin_cons (reverse _)), reverse_app, reverse_involutive.
  f_equal. cbn. by rewrite app_nil_r.
Qed.

Lemma range_inputs_spec t E from to seq l :
  (∀ id, id ∈ l → run_inv t E id) →
  range_inputs (t_runs t) (t_disk t) from to seq l =
  number seq (filter (in_range from to) <$> (E <$> l)).
Proof.
  revert seq. induction l as [|id l IH]; intros seq Hl; [done|]. cbn [range_inputs].
  destruct (Hl id) as (r & f & Hr & Hf & Hrep & _); [set_solver|]. rewrite Hr, Hf.
  rewrite (rs_scan_range_rep _ _ _ _ _ _ Hrep), !fmap_cons. cbn [number].
  rewrite IH by set_solver. done.
Qed.

Lemma elem_of_live k v es : (k, v) ∈ live es ↔ (k, Some v) ∈ es.
Proof.
  unfold live. rewrite list_elem_of_omap. split.
  - intros ([k' [v'|]] & Hin & Hv); simpl in Hv; [|done]. by injection Hv as -> ->.
  - intros H. by exists (k, Some v).
Qed.

Lemma live_sorted es : strict_sorted es → strict_sorted (live es).
Proof.
  induction es as [|[k [v|]] es IH]; [done|..]; rewrite strict_sorted_cons; intros [Hall Hs]; simpl.
  - apply strict_sorted_cons. split; [|by apply IH].
    apply Forall_forall. intros k' ([k2 v2] & -> & Hin%elem_of_live)%list_elem_of_fmap.
    rewrite Forall_forall in Hall. apply Hall. simpl. apply list_elem_of_fmap. by exists (k2, Some v2).
  - by apply IH.
Qed.

(** Sources of a range scan, oldest first. *)
Definition range_sources t E (from to : Key) : list (list entry) :=
  let mem := filter (in_range from to) (mem_entries (t_memtable t)) in
  (filter (in_range from to) <$> (E <$> reverse (ids t))) ++
  (if bool_decide (mem = []) then [] else [mem]).

Lemma range_sources_lookup t E from to k :
  lookup_first k (reverse (range_sources t E from to)) =
  if decide (in_range from to (k, None))
  then match mem_get (t_memtable t) k with Some v => Some v | None => runs_view t E k end
  else None.
Proof.
  unfold range_sources. rewrite reverse_app, lookup_first_app, <-fmap_reverse, <-fmap_reverse, reverse_involutive.
  rewrite lookup_first_in_range. fold (runs_view t E k).
  set (mem := filter _ _).
  assert (lookup_first k (reverse (if bool_decide (mem = []) then [] else [mem])) = assoc k mem) as ->.
  { case_bool_decide as Hd; [by rewrite Hd|]. simpl. by destruct (assoc k mem). }
  unfold mem. rewrite assoc_in_range. unfold mem_get. by case_decide.
Qed.

Lemma tree_range_spec t E b from to :
  tree_inv t E b → key_le from to →
  ∃ out, returns (tree_range from to) t out t ∧ strict_sorted out ∧
    ∀ k v, (k, v) ∈ out ↔ key_le from k ∧ key_le k to ∧ tree_view t E k = Some v.
Proof.
  intros [[Hm Hinv Hb Hr] Hw] Hle.
  assert (Forall strict_sorted (range_sources t E from to)) as Hs.
  { apply Forall_app. split.
    - apply Forall_forall. intros l (es & -> & (id & -> & Hid)%list_elem_of_fmap)%list_elem_of_fmap.
      apply strict_sorted_filter. rewrite elem_of_reverse in Hid.
      destruct (ri_runs _ _ Hinv id Hid) as (r & f & _ & _ & Hrep & _). by eapply rs_rep_sorted.
    - case_bool_decide; constructor; [|done]. apply strict_sorted_filter, Hm. }
  assert (Z.of_nat (length (range_sources t E from to)) ≤ SEQ_BASE)%Z as Hlen.
  { unfold range_sources. rewrite length_app, !length_fmap, length_reverse, length_search_order.
    destruct Hb. pose proof (ri_next _ _ Hinv). unfold SEQ_BASE. case_bool_decide; simpl; lia. }
  set (merged := merge_entries (number 0 (range_sources t E from to)) true).
  assert (strict_sorted merged) as Hms by (by apply merge_entries_spec, number_ok).
  exists (live merged). split_and!; [|by apply live_sorted|].
  - unfold returns, tree_range, mem_range.
    assert (key_ltb to from = false) as ->.
    { apply not_true_iff_false. by rewrite key_ltb_lt, key_not_lt. }
    rewrite scan_order_search, (range_inputs_spec t E).
    2:{ intros id Hid. rewrite elem_of_reverse in Hid. by apply (ri_runs _ _ Hinv). }
    unfold merged, range_sources. do 4 f_equal.
    case_bool_decide; [by rewrite app_nil_r|]. rewrite number_app. f_equal. simpl.
    by rewrite length_number.
  - intros k v. rewrite elem_of_live, (elem_of_assoc _ _ _ Hms).
    unfold merged. rewrite merge_number, range_sources_lookup by done.
    unfold tree_view. case_decide as Hd; rewrite in_range_key in Hd; [|simpl; naive_solver].
    destruct (match mem_get _ _ with Some _ => _ | None => _ end) as [[]|]; simpl; naive_solver.
Qed.

End refine.
