(* ===== verification/LsmRecovery.v ===== *)
(** * Reopening a tree

    [load_manifest] rebuilds the levels of a tree from its manifest and [open]
    its memtable from the log, so that a tree closed between two operations,
    or while an entry is appended to the log, comes back with the same view. *)

From S2P Require Import Prelude Order Bytes Effects LsmPage LsmCache LsmRun LsmMerge LsmMemtable LsmWal LsmSnapshot LsmTree LsmRefine LsmSstable.
Local Open Scope nat_scope.


(** ** Levels by index

    Levels that agree on the run ids of every index differ by empty levels at
    the end. *)

Definition ids_at (levels : list Level) (i : nat) : list Z :=
  from_option l_run_ids [] (levels !! i).

Lemma search_order_all_empty l : (∀ i, ids_at l i = []) → search_order l = [].
Proof.
  induction l as [|lv l IH]; intros H; [done|]. rewrite search_order_cons.
  pose proof (H 0) as H0. unfold ids_at in H0. simpl in H0. rewrite H0. apply IH.
  intros i. apply (H (S i)).
Qed.

Lemma search_order_ext l1 l2 : (∀ i, ids_at l1 i = ids_at l2 i) → search_order l1 = search_order l2.
Proof.
  revert l2. induction l1 as [|lv1 l1 IH]; intros [|lv2 l2] H; [done|..].
  - symmetry. apply search_order_all_empty. intros i. by rewrite <-H.
  - apply search_order_all_empty. intros i. by rewrite H.
  - rewrite !search_order_cons. f_equal; [f_equal; apply (H 0)|]. apply IH. intros i. apply (H (S i)).
Qed.

(** Metadata of levels whose numbers start at [n]. *)
Definition meta_from (n : nat) (levels : list Level) : list (nat * Z) :=
  mjoin (imap (λ i l, (λ id, (n + i, id)) <$> l_run_ids l) levels).

Lemma meta_from_cons n l ls :
  meta_from n (l :: ls) = ((λ id, (n, id)) <$> l_run_ids l) ++ meta_from (S n) ls.
Proof.
  unfold meta_from. rewrite imap_cons, mjoin_cons, Nat.add_0_r. do 2 f_equal.
  apply imap_ext. intros i x _. simpl. by rewrite Nat.add_succ_r.
Qed.

Lemma runs_meta_numbered n ls :
  (∀ i l, ls !! i = Some l → l_number l = n + i) → runs_meta ls = meta_from n ls.
Proof.
  intros H. unfold runs_meta, meta_from. f_equal. apply list_eq. intros i.
  rewrite list_lookup_fmap, list_lookup_imap. destruct (ls !! i) as [l|] eqn:E; [|done].
  simpl. by rewrite (H i l).
Qed.

Lemma meta_from_empty n l : (∀ i, ids_at l i = []) → meta_from n l = [].
Proof.
  revert n. induction l as [|lv l IH]; intros n H; [done|]. rewrite meta_from_cons.
  pose proof (H 0) as H0. unfold ids_at in H0. simpl in H0. rewrite H0. apply IH.
  intros i. apply (H (S i)).
Qed.

Lemma meta_from_ext n l1 l2 : (∀ i, ids_at l1 i = ids_at l2 i) → meta_from n l1 = meta_from n l2.
Proof.
  revert n l2. induction l1 as [|lv1 l1 IH]; intros n [|lv2 l2] H; [done|..].
  - symmetry. apply meta_from_empty. intros i. by rewrite <-H.
  - apply meta_from_empty. intros i. by rewrite H.
  - rewrite !meta_from_cons. f_equal; [f_equal; apply (H 0)|]. apply IH. intros i. apply (H (S i)).
Qed.

Lemma meta_from_level n ls i :
  filter (λ lr : nat * Z, lr.1 = n + i) (meta_from n ls) = (λ id, (n + i, id)) <$> ids_at ls i.
Proof.
  revert n i. induction ls as [|l ls IH]; intros n i; [done|].
  rewrite meta_from_cons, filter_app. destruct i as [|i].
  - rewrite Nat.add_0_r. rewrite (filter_none _ (meta_from (S n) ls)), app_nil_r.
    + unfold ids_at. simpl. induction (l_run_ids l) as [|id ids IH']; [done|].
      rewrite fmap_cons, filter_cons_True, IH' by done. done.
    + intros [m id] Hin. assert (S n ≤ m); [|simpl; lia]. clear -Hin. revert n Hin.
      induction ls as [|l ls IH]; intros n; [set_solver|]. rewrite meta_from_cons, elem_of_app.
      intros [(x & [= -> ->] & _)%list_elem_of_fmap|H%IH]; lia.
  - rewrite (filter_none _ ((λ id, (n, id)) <$> _)).
    + simpl. rewrite Nat.add_succ_r. apply (IH (S n) i).
    + intros [m id] (x & [= -> ->] & _)%list_elem_of_fmap. simpl. lia.
Qed.

Lemma meta_from_bound n ls lr :
  lr ∈ meta_from n ls → n ≤ lr.1 < n + length ls ∧ lr.2 ∈ search_order ls.
Proof.
  revert n. induction ls as [|l ls IH]; intros n; [set_solver|].
  rewrite meta_from_cons, search_order_cons, !elem_of_app. cbn [length].
  intros [(x & -> & Hx)%list_elem_of_fmap|[? ?]%IH]; simpl; [|split; [lia|by right]].
  split; [lia|]. left. by apply elem_of_reverse.
Qed.

Lemma length_meta_from n ls : length (meta_from n ls) = total_runs ls.
Proof.
  revert n. induction ls as [|l ls IH]; intros n; [done|].
  rewrite meta_from_cons, length_app, length_fmap, IH. done.
Qed.

Lemma ids_at_extend n ls i : ids_at (extend_levels n ls) i = ids_at ls i.
Proof.
  unfold ids_at, extend_levels. destruct (decide (i < length ls)) as [Hi|Hi].
  - by rewrite lookup_app_l.
  - rewrite lookup_app_r, (lookup_ge_None_2 ls i), list_lookup_fmap by lia.
    by destruct (seq _ _ !! _).
Qed.

Lemma ids_at_add n id ls i :
  n < length ls →
  ids_at (alter (add_run id) n ls) i = ids_at ls i ++ (if decide (i = n) then [id] else []).
Proof.
  intros Hn. unfold ids_at. case_decide as Hd.
  - subst. rewrite list_lookup_alter_eq. destruct (lookup_lt_is_Some_2 _ _ Hn) as [l ->]. done.
  - rewrite list_lookup_alter_ne by done. by rewrite app_nil_r.
Qed.

Section recovery.
Context {CR : Crates} {CROK : CratesOk}.
Context {R F : Type} {RS : RunStore R F} {RSOK : RunStoreOk R F}.
Abbreviation Tree := (LsmTree R F).
Implicit Types (t : Tree) (E : Z → list entry).

(** ** Loading *)

Lemma load_runs_spec (d : Disk F) E meta levels (runs : gmap Z R) n :
  (∀ lr, lr ∈ meta → lr.1 < n ∧ ∃ r f, run_file d lr.2 = Some f ∧ rs_rep lr.2 r f (E lr.2)) →
  numbered levels → length levels ≤ n →
  ∃ levels' runs', load_runs d meta levels runs = (levels', runs') ∧
    (∀ i, ids_at levels' i = ids_at levels i ++ (filter (λ lr : nat * Z, lr.1 = i) meta).*2) ∧
    numbered levels' ∧ length levels' ≤ n ∧
    (∀ id, id ∈ meta.*2 → ∃ r f, runs' !! id = Some r ∧ run_file d id = Some f ∧ rs_rep id r f (E id)) ∧
    (∀ id, id ∉ meta.*2 → runs' !! id = runs !! id).
Proof.
  revert levels runs. induction meta as [|[lv id] meta IH]; intros levels runs Hm Hnum Hlen.
  { exists levels, runs. split_and!; try done; [intros; by rewrite app_nil_r|set_solver]. }
  cbn [load_runs]. destruct (Hm (lv, id)) as (Hlv & r & f & Hf & Hrep); [set_solver|]. simpl in *.
  destruct (rs_open_rep _ _ _ _ Hrep) as (r' & Hop & Hrep'). rewrite Hf, Hop.
  set (levels1 := alter (add_run id) lv (extend_levels lv levels)).
  destruct (IH levels1 (<[id := r']> runs)) as (levels' & runs' & Hl & Hids & Hnum' & Hlen' & Hin & Hout).
  - set_solver.
  - apply numbered_alter; [done|]. by apply numbered_extend.
  - unfold levels1. rewrite length_alter, length_extend_levels. lia.
  - exists levels', runs'. split_and!; try done.
    + intros i. rewrite Hids. unfold levels1. rewrite ids_at_add by (rewrite length_extend_levels; lia).
      rewrite ids_at_extend, <-app_assoc. f_equal. rewrite filter_cons. simpl.
      repeat case_decide; subst; try done.
    + intros id'. destruct (decide (id' ∈ meta.*2)) as [Hi|Hi]; [by intros _; apply Hin|].
      rewrite elem_of_cons. intros [->|?]; [|done].
      exists r', f. rewrite Hout by done. by rewrite lookup_insert_eq.
    + intros id' [Hne Hi]%not_elem_of_cons. rewrite Hout by done. by rewrite lookup_insert_ne.
Qed.

Lemma tree_meta_ok t E b : runs_inv t E → tree_bounds t E b → meta_ok (tree_meta t).
Proof.
  intros Hinv [Hb1 _ Hb3 Hb4 _ _]. pose proof (ri_next _ _ Hinv) as Hn.
  assert (runs_meta (t_levels t) = meta_from 0 (t_levels t)) as Hm by apply runs_meta_numbered, Hinv.
  split; simpl; rewrite ?Hm; [by vm_compute|by vm_compute|lia|rewrite length_meta_from; lia|].
  apply Forall_forall. intros [lv id] [H1 H2%(ri_ids _ _ Hinv)]%meta_from_bound. simpl in *. lia.
Qed.

(** What [load_manifest] rebuilds. *)
Record loaded t E (levels : list Level) (runs : gmap Z R) : Prop := {
  ld_order : search_order levels = search_order (t_levels t);
  ld_meta : runs_meta levels = runs_meta (t_levels t);
  ld_numbered : numbered levels;
  ld_length : length levels ≤ length (t_levels t);
  ld_runs id : id ∈ search_order (t_levels t) →
    ∃ r f, runs !! id = Some r ∧ run_file (t_disk t) id = Some f ∧ rs_rep id r f (E id);
}.

Lemma load_manifest_spec t E b :
  runs_inv t E → tree_bounds t E b → manifest_ok t ∨ no_runs t →
  ∃ levels runs, load_manifest (t_disk t) = Ok (levels, t_next_run_id t, runs) ∧
    loaded t E levels runs.
Proof.
  intros Hinv Hb [Hm|(Hm & Hids & Hn)].
  2:{ exists [], ∅. unfold load_manifest. rewrite Hm, Hn. split; [done|].
      split; rewrite ?Hids; simpl; try done; try lia; try set_solver.
      symmetry. apply nil_length_inv. rewrite (runs_meta_numbered 0) by apply Hinv.
      by rewrite length_meta_from, <-length_search_order, Hids. }
  assert (runs_meta (t_levels t) = meta_from 0 (t_levels t)) as Hmeta by apply runs_meta_numbered, Hinv.
  destruct (load_runs_spec (t_disk t) E (meta_from 0 (t_levels t)) [] ∅ (length (t_levels t)))
    as (levels & runs & Hl & Hat & Hnum & Hlen & Hin & _); [|done|simpl; lia|].
  { intros lr [H1 H2]%meta_from_bound. split; [lia|].
    destruct (ri_runs _ _ Hinv _ H2) as (r & f & _ & Hf & Hrep & _). eauto. }
  exists levels, runs. unfold load_manifest. rewrite Hm.
  rewrite meta_roundtrip_gen by (by eapply tree_meta_ok). simpl. rewrite Hmeta, Hl. split; [done|].
  assert (∀ i, ids_at levels i = ids_at (t_levels t) i) as Hids.
  { intros i. rewrite Hat. pose proof (meta_from_level 0 (t_levels t) i) as Hf.
    cbn [Nat.add] in Hf. rewrite Hf, <-list_fmap_compose. simpl. by rewrite list_fmap_id. }
  split; try done; [by apply search_order_ext| |].
  - rewrite Hmeta, (runs_meta_numbered 0) by done. by apply meta_from_ext.
  - intros id Hid. apply Hin.
    assert (∃ lv, (lv, id) ∈ meta_from 0 (t_levels t)) as [lv Hlv]; [|apply list_elem_of_fmap; by exists (lv, id)].
    clear -Hid. revert Hid. generalize 0. induction (t_levels t) as [|l ls IH]; intros n; [set_solver|].
    rewrite search_order_cons, elem_of_app, elem_of_reverse. intros [Hid|[lv Hlv]%(IH (S n))].
    + exists n. rewrite meta_from_cons, elem_of_app. left. apply list_elem_of_fmap. eauto.
    + exists lv. rewrite meta_from_cons, elem_of_app. by right.
Qed.

(** ** Opening *)

Lemma load_runs_ext (d1 d2 : Disk F) meta levels runs :
  d_fs d1 = d_fs d2 → d_active d1 = d_active d2 →
  load_runs d1 meta levels runs = load_runs d2 meta levels runs.
Proof.
  intros Hf Ha. revert levels runs. induction meta as [|[lv id] meta IH]; intros levels runs; [done|].
  cbn [load_runs]. unfold run_file. rewrite Hf, Ha. destruct (rs_open _ _); apply IH.
Qed.

Lemma load_manifest_ext (d1 d2 : Disk F) :
  d_fs d1 = d_fs d2 → d_active d1 = d_active d2 → d_manifest d1 = d_manifest d2 →
  load_manifest d1 = load_manifest d2.
Proof.
  intros Hf Ha Hm. unfold load_manifest. rewrite Hm. destruct (d_manifest d2); [|done].
  destruct (meta_from_bytes _); [|done]. by rewrite (load_runs_ext d1 d2).
Qed.

Definition config_ok (c : LsmConfig) : Prop :=
  cfg_wal_enabled c = true ∧ page_size c ≠ 0%Z ∧ (2 ≤ size_ratio c)%Z.

Lemma cache_new_empty n : cache_inv (cache_new n) ∧ ∀ k, cached (cache_new n) k = None.
Proof.
  split; [apply cache_new_inv|]. intros k; unfold cached; simpl. by rewrite lookup_empty.
Qed.

Lemma ensure_level_order l : search_order (ensure_level l) = search_order l.
Proof. by destruct l. Qed.

Lemma ensure_level_meta l : runs_meta (ensure_level l) = runs_meta l.
Proof. by destruct l. Qed.

Lemma ensure_level_numbered l : numbered l → numbered (ensure_level l).
Proof.
  destruct l as [|lv l]; [|done]. intros _ i l Hl. destruct i; [|done]. simpl in *.
  by injection Hl as <-.
Qed.

Lemma length_ensure_level l : length (ensure_level l) = max 1 (length l).
Proof. by destruct l; simpl; rewrite ?Nat.max_r by lia. Qed.

(** The tree that [open] builds from the files of [t] and a log [dir]. *)
Lemma reopen_spec t E b dir config :
  tree_core t E b → manifest_ok t ∨ no_runs t → config_ok config →
  (2 * b_ops b + 5 < 10 ^ 6)%Z →
  seg_sorted dir → (find_max_segment (Some dir) ≤ 2 * b_ops b + 2)%Z →
  t_memtable t = foldl apply_op mem_new (replay_wal (Some dir)) →
  ∃ t', tree_open (tree_close t).1 (Some dir) config = Ok t' ∧
    tree_inv t' E (add_op 0 0 b) ∧ (∀ k, tree_view t' E k = tree_view t E k) ∧
    durable t' ∧ t_config t' = config.
Proof.
  intros [Hm Hinv Hb Hr] Hman (Hw & Hps & Hratio) Hlt Hs Hmax Hmem.
  destruct (load_manifest_spec t E b Hinv Hb Hman) as (levels & runs & Hload & [Hord Hmeta Hnum Hlen Hruns]).
  destruct (wal_new_spec dir (Z.to_nat (wal_segment_size config)) Hs) as (w & Hwn & Hwrep & Hseg); [lia|].
  set (d := mkDisk true (d_fs (t_disk t)) (d_active (t_disk t)) (d_manifest (t_disk t)) (d_snapshots (t_disk t))).
  assert (load_manifest d = Ok (levels, t_next_run_id t, runs)) as Hload'
    by (rewrite <-Hload; by apply load_manifest_ext).
  set (n := Z.to_nat (block_cache_size config / page_size config)).
  set (t' := mkTree config (t_memtable t) w runs (ensure_level levels) (t_next_run_id t) (cache_new n) d).
  destruct (cache_new_empty n) as [Hci Hcn].
  exists t'. split_and!.
  - unfold tree_open, tree_close, acquire_lock. cbn [fst d_locked lift_fault mbind result_bind].
    fold d. change (mkDisk true _ _ _ _) with d. rewrite Hload'. cbn [lift_fault mbind result_bind].
    rewrite Hw, Hwn. unfold cache_capacity. rewrite (proj2 (Z.eqb_neq _ _) Hps), <-Hmem. done.
  - split; [split; [by destruct Hm| | |done]|].
    + destruct Hinv as [? ? ? I1 ? ? ? ? ? ?]. split; simpl; rewrite ?ensure_level_order, ?Hord; auto.
      * by destruct levels.
      * by apply ensure_level_numbered.
      * intros id Hid. destruct (I1 id Hid) as (r0 & f0 & _ & Hf0 & _ & _ & He).
        destruct (Hruns id Hid) as (r & f & H1 & H2 & H3). exists r, f. split_and!; try done.
        apply rs_coh_fresh. auto.
    + destruct Hb. pose proof (ri_next _ _ Hinv). split; unfold runs_entries, runs_bytes in *; simpl;
        rewrite ?ensure_level_order, ?Hord, ?length_ensure_level; try lia.
      * by rewrite !Nat.add_0_r.
      * rewrite <-length_search_order, ensure_level_order, Hord, length_search_order. lia.
    + split; simpl; [|eauto]. rewrite Hseg. lia.
  - intros k. unfold tree_view, runs_view. simpl. by rewrite ensure_level_order, Hord.
  - split; [by exists (replay_wal (Some dir))|]. destruct Hman as [Hman|(H1 & H2 & H3)].
    + left. unfold manifest_ok, tree_meta in *. simpl. by rewrite ensure_level_meta, Hmeta.
    + right. split_and!; [done| |done]. simpl. by rewrite ensure_level_order, Hord.
  - done.
Qed.

Lemma find_max_segment_le l n : Forall (λ m, (m ≤ n)%Z) l.*1 → (0 ≤ n)%Z → (find_max_segment (Some l) ≤ n)%Z.
Proof.
  unfold find_max_segment. cbn [default from_option]. unfold id.
  intros H Hn. induction H; simpl; lia.
Qed.

Lemma wal_rep_max w ops :
  wal_rep w ops → ∃ dir, wal_dir w = Some dir ∧ seg_sorted dir ∧
    (find_max_segment (Some dir) ≤ segment_num w)%Z.
Proof.
  intros (segs & cur & Hd & Hs & _). eexists. split_and!; [done|done|].
  apply seg_sorted_snoc in Hs as (_ & Hlt & ?). apply find_max_segment_le; [|lia].
  rewrite fmap_app, Forall_app. split; [|repeat constructor; simpl; lia].
  eapply Forall_impl; [done|]. simpl. lia.
Qed.

(** A log whose open segment ends with a part of a frame. *)
Lemma wal_rep_torn w ops op n :
  wal_rep w ops → op_ok op → n < length (op_frame op) →
  ∃ dir, append_segment (segment_num w) (take n (op_frame op)) <$> wal_dir w = Some dir ∧
    seg_sorted dir ∧ (find_max_segment (Some dir) ≤ segment_num w)%Z ∧ replay_wal (Some dir) = ops.
Proof.
  intros (segs & cur & Hd & Hs & Hw & He & Hcur & ->) Hop Hn.
  rewrite Hd. simpl. rewrite append_segment_last by done. eexists. split; [done|].
  assert (∀ bs, seg_sorted (segs ++ [(segment_num w, bs)])) as Hs'.
  { intros bs. apply seg_sorted_snoc in Hs. by apply seg_sorted_snoc. }
  split_and!; [done| |].
  - specialize (Hs' []). apply seg_sorted_snoc in Hs' as (_ & Hlt & ?).
    apply find_max_segment_le; [|lia]. rewrite fmap_app, Forall_app.
    split; [|repeat constructor; simpl; lia]. eapply Forall_impl; [done|]. simpl. lia.
  - rewrite replay_sorted by done. rewrite fmap_app, join_app. f_equal.
    cbn [fmap list_fmap snd]. rewrite mjoin_cons. change (mjoin []) with (@nil WalOp). rewrite app_nil_r.
    pose proof (replay_truncated (cur ++ [op]) (length (mjoin (op_frame <$> cur)) + n)) as Ht.
    rewrite fmap_app, join_app, take_app_add' in Ht by done. cbn [fmap list_fmap] in Ht.
    rewrite mjoin_cons in Ht. change (mjoin []) with (@nil Z) in Ht. rewrite app_nil_r in Ht.
    rewrite Ht by (apply Forall_app; split; [done|by constructor]). clear -Hn.
    replace (whole_frames (cur ++ [op]) (length (mjoin (op_frame <$> cur)) + n)) with (length cur);
      [by rewrite take_app_length|].
    induction cur as [|c cur IH]; cbn [app length whole_frames].
    + change (length (mjoin (op_frame <$> [])) + n) with n.
      by destruct (Nat.leb_spec (length (op_frame op)) n); [lia|].
    + rewrite fmap_cons, mjoin_cons, length_app.
      destruct (Nat.leb_spec (length (op_frame c)) (length (op_frame c) + length (mjoin (op_frame <$> cur)) + n)); [|lia].
      f_equal. rewrite IH. f_equal. lia.
Qed.

End recovery.

(** * What the LSM tree promises

    The abstract specification: a finite map with insert, delete, batch, get
    and range, and sessions between which the process stops and reopens the
    files. The theorems relate it to the tree of [LsmTree.v] over the runs of
    [LsmRun.v]. *)


(** ** Commands *)

Inductive Cmd : Type :=
| CInsert (k : Key) (v : Value)
| CDelete (k : Key)
| CBatch (inserts : list (Key * Value)) (deletes : list Key)
| CFlush
| CGet (k : Key)
| CRange (from to : Key).

Inductive Out : Type :=
| OUnit
| OGet (v : option Value)
| ORange (l : list (Key * Value)).

#[global] Instance Out_eq_dec : EqDecision Out.
Proof. solve_decision. Defined.

Section exec.
Context {CR : Crates} {R F : Type} {RS : RunStore R F}.

Definition exec_cmd (c : Cmd) : eff (LsmTree R F) Out :=
  match c with
  | CInsert k v => tree_insert k v ;; mret OUnit
  | CDelete k => tree_delete k ;; mret OUnit
  | CBatch ins dels => apply_batch ins dels ;; mret OUnit
  | CFlush => flush ;; mret OUnit
  | CGet k => v ← tree_get k; mret (OGet v)
  | CRange from to => l ← tree_range from to; mret (ORange l)
  end.

Fixpoint exec_cmds (cs : list Cmd) : eff (LsmTree R F) (list Out) :=
  match cs with
  | [] => mret []
  | c :: cs' => o ← exec_cmd c; os ← exec_cmds cs'; mret (o :: os)
  end.

(** Each session opens the files that the previous one left. *)
Fixpoint exec_sessions (config : LsmConfig) (d : Disk F) (wal : option (list Segment))
    (ss : list (list Cmd)) : result Fault (list (list Out)) :=
  match ss with
  | [] => Ok []
  | cs :: ss' =>
      t ← tree_open d wal config;
      match exec_cmds cs t with
      | (Err e, _) => Err e
      | (Ok os, t') =>
          oss ← exec_sessions config (tree_close t').1 (tree_close t').2 ss';
          Ok (os :: oss)
      end
  end.

End exec.

Definition empty_disk {F} : Disk F := mkDisk false (mkFs ∅ 0%Z) ∅ None ∅.

(** ** The specification *)

Abbreviation Map := (gmap Key Value).

Definition cmd_ops (c : Cmd) : list WalOp :=
  match c with
  | CInsert k v => [WalInsert k v]
  | CDelete k => [WalDelete k]
  | CBatch ins dels => batch_ops ins dels
  | _ => []
  end.

Definition spec_op (m : Map) (op : WalOp) : Map :=
  match op with
  | WalInsert k v => <[k := v]> m
  | WalDelete k => delete k m
  end.

Definition spec_map (m : Map) (c : Cmd) : Map := foldl spec_op m (cmd_ops c).

(** The answers a map allows; a range is the sorted list of its bindings. *)
Definition spec_out (m : Map) (c : Cmd) (o : Out) : Prop :=
  match c with
  | CGet k => o = OGet (m !! k)
  | CRange from to =>
      ∃ l, o = ORange l ∧ strict_sorted l ∧
        ∀ k v, (k, v) ∈ l ↔ key_le from k ∧ key_le k to ∧ m !! k = Some v
  | _ => o = OUnit
  end.

Fixpoint spec_run (m : Map) (cs : list Cmd) (os : list Out) : Prop :=
  match cs, os with
  | [], [] => True
  | c :: cs', o :: os' => spec_out m c o ∧ spec_run (spec_map m c) cs' os'
  | _, _ => False
  end.

Fixpoint spec_sessions (m : Map) (ss : list (list Cmd)) (oss : list (list Out)) : Prop :=
  match ss, oss with
  | [], [] => True
  | cs :: ss', os :: oss' => spec_run m cs os ∧ spec_sessions (foldl spec_map m cs) ss' oss'
  | _, _ => False
  end.

(** ** Commands within bounds *)

(** Keys and logged values have a 16-bit length. *)
Definition cmd_ok (c : Cmd) : Prop :=
  Forall op_ok (cmd_ops c) ∧
  match c with CRange from to => key_le from to | _ => True end.

Definition cmds_entries (cs : list Cmd) : nat := sum_list_with (λ c, length (cmd_ops c)) cs.
Definition cmds_bytes (cs : list Cmd) : nat := sum_list_with (λ c, ops_bytes (cmd_ops c)) cs.

Section exec_proofs.
Context {CR : Crates} {CROK : CratesOk}.
Context {R F : Type} {RS : RunStore R F} {RSOK : RunStoreOk R F}.
Abbreviation Tree := (LsmTree R F).
Context (Hentry : ∀ op, op_ok op → rs_entry_ok (op_entry op)).
Implicit Types (t : Tree) (E : Z → list entry).

(** The tree holds the map [m]. *)
Definition holds t E (m : Map) : Prop := ∀ k, tree_view t E k = m !! k.

Lemma holds_ops t E m (v : Key → option Value) ops :
  (∀ k, v k = m !! k) → ∀ k, foldl apply_view v ops k = foldl spec_op m ops !! k.
Proof.
  revert v m. induction ops as [|op ops IH]; intros v m Hv; simpl; [done|].
  apply IH. intros k. destruct op; simpl; rewrite Hv; case_decide; subst.
  - by rewrite lookup_insert_eq.
  - by rewrite lookup_insert_ne.
  - by rewrite lookup_delete_eq.
  - by rewrite lookup_delete_ne.
Qed.

Lemma tree_inv_weaken t E b : (2 * b_ops b + 5 < 10 ^ 6)%Z → tree_inv t E b → tree_inv t E (add_op 0 0 b).
Proof.
  intros Hlt [[Hm Hi Hb Hr] [Hw1 Hw2]]. split; [split; try done|split; [simpl; lia|done]].
  destruct Hb. split; simpl; try lia. by rewrite !Nat.add_0_r.
Qed.

Lemma returns_modify_ext {S A B} (m : eff S A) (f g : S → S) (k : eff S B) s b s' :
  (∀ s, f s = g s) → returns (m ;; modify f ;; k) s b s' → returns (m ;; modify g ;; k) s b s'.
Proof.
  intros Hfg. unfold returns, mbind, eff_bind, modify. destruct (m s) as [[a|e] s1]; [|done].
  by rewrite Hfg.
Qed.

Lemma batch_apply (ins : list (Key * Value)) dels m :
  foldl apply_op m (batch_ops ins dels) =
  foldl mem_delete (foldl (λ m kv, mem_insert m kv.1 kv.2) m ins) dels.
Proof.
  unfold batch_ops. rewrite foldl_app.
  assert (∀ m, foldl apply_op m ((λ kv, WalInsert kv.1 kv.2) <$> ins) =
    foldl (λ m kv, mem_insert m kv.1 kv.2) m ins) as ->.
  { clear m. induction ins as [|kv ins IH]; intros m; [done|]. apply IH. }
  generalize (foldl (λ m kv, mem_insert m kv.1 kv.2) m ins).
  induction dels as [|k dels IH]; intros m'; [done|]. apply IH.
Qed.

(** One command: the outcome, the invariant and the new map. *)
Lemma exec_cmd_spec t E b m c :
  tree_inv t E b → holds t E m → cmd_ok c → (2 * b_ops b + 5 < 10 ^ 6)%Z →
  rs_budget (b_entries b + length (cmd_ops c)) (b_bytes b + ops_bytes (cmd_ops c)) →
  ∃ o t' E', returns (exec_cmd c) t o t' ∧
    tree_inv t' E' (add_op (length (cmd_ops c)) (ops_bytes (cmd_ops c)) b) ∧
    holds t' E' (spec_map m c) ∧ spec_out m c o ∧ (durable t → durable t').
Proof.
  intros Hti Hh [Hok Hrange] Hlt Hbud.
  assert (Forall rs_entry_ok (op_entry <$> cmd_ops c)) as Hents.
  { apply Forall_fmap. eapply Forall_impl; [exact Hok|]. exact Hentry. }
  assert (∀ w old, wal_rep w old → w = t_wal t → wal_room w) as Hroom.
  { intros w old _ ->. destruct Hti as [_ [H _]]. unfold wal_room. lia. }
  destruct c as [k v|k|ins dels| |k|from to]; cbn [cmd_ops exec_cmd spec_out] in *.
  - destruct (write_spec t E b (log_insert k v) [WalInsert k v]) as (t' & E' & Hret & H1 & H2 & H3 & H4);
      try done.
    { intros Hd. unfold log_insert, log_op. eff_step. by rewrite Hd. }
    { intros old Hold. apply log_op_spec; [done|eauto|by inversion Hok]. }
    exists OUnit, t', E'. split_and!; try done; [by eapply returns_bind|].
    intros k'. rewrite H2. by apply (holds_ops t E).
  - destruct (write_spec t E b (log_delete k) [WalDelete k]) as (t' & E' & Hret & H1 & H2 & H3 & H4);
      try done.
    { intros Hd. unfold log_delete, log_op. eff_step. by rewrite Hd. }
    { intros old Hold. apply log_op_spec; [done|eauto|by inversion Hok]. }
    exists OUnit, t', E'. split_and!; try done; [by eapply returns_bind|].
    intros k'. rewrite H2. by apply (holds_ops t E).
  - destruct (write_spec t E b (log_batch ins dels) (batch_ops ins dels)) as (t' & E' & Hret & H1 & H2 & H3 & H4);
      try done.
    { intros Hd. unfold log_batch. eff_step. by rewrite Hd. }
    { intros old Hold. apply log_batch_spec; [done|eauto|done]. }
    exists OUnit, t', E'. split_and!; try done.
    + eapply returns_bind; [|done]. eapply returns_modify_ext; [|exact Hret].
      intros s. cbv beta. by rewrite batch_apply.
    + intros k'. rewrite H2. by apply (holds_ops t E).
  - destruct (flush_memtable_spec t E b) as (t' & E' & Hret & H1 & H2 & H3 & H4); [apply Hti| |done|].
    { destruct Hti as [_ []]. split; [lia|done]. }
    destruct (mem_is_empty (t_memtable t)) eqn:Hem.
    + exists OUnit, t, E. split_and!; try done; [|by apply tree_inv_weaken].
      eapply returns_bind; [|done]. unfold flush. eff_step. by rewrite Hem.
    + exists OUnit, t', E'. split_and!; try done; [|intros k'; by rewrite H2].
      eapply returns_bind; [|done]. unfold flush. eff_step. by rewrite Hem.
  - destruct (tree_get_spec t E b k Hti) as (t' & Hret & H1 & H2 & H3 & H4).
    exists (OGet (tree_view t E k)), t', E. split_and!; try done.
    + by eapply returns_bind.
    + by apply tree_inv_weaken.
    + intros k'. by rewrite H2.
    + by rewrite Hh.
  - destruct (tree_range_spec t E b from to Hti Hrange) as (l & Hret & Hs & Hl).
    exists (ORange l), t, E. split_and!; try done; [by eapply returns_bind|by apply tree_inv_weaken|].
    exists l. split_and!; try done. intros k v. by rewrite Hl, Hh.
Qed.

Definition add_cmds (cs : list Cmd) (b : budget) : budget :=
  mkBudget (b_ops b + Z.of_nat (length cs)) (b_entries b + cmds_entries cs) (b_bytes b + cmds_bytes cs).

Lemma exec_cmds_spec cs t E b m :
  tree_inv t E b → holds t E m → Forall cmd_ok cs →
  (2 * (b_ops b + Z.of_nat (length cs)) + 3 < 10 ^ 6)%Z →
  rs_budget (b_entries b + cmds_entries cs) (b_bytes b + cmds_bytes cs) →
  ∃ os t' E', returns (exec_cmds cs) t os t' ∧ tree_inv t' E' (add_cmds cs b) ∧
    holds t' E' (foldl spec_map m cs) ∧ spec_run m cs os ∧ (durable t → durable t').
Proof.
  revert t E b m. induction cs as [|c cs IH]; intros t E b m Hti Hh Hok Hlt Hbud.
  { exists [], t, E. split_and!; try done. unfold add_cmds. simpl. rewrite Z.add_0_r, !Nat.add_0_r.
    by destruct b. }
  apply Forall_cons in Hok as [Hc Hcs].
  unfold cmds_entries, cmds_bytes in Hbud. cbn [length sum_list_with] in Hlt, Hbud.
  destruct (exec_cmd_spec t E b m c Hti Hh Hc) as (o & t1 & E1 & Hr1 & Hti1 & Hh1 & Ho & Hd1);
    [lia|eapply rs_budget_mono; [| |exact Hbud]; lia|].
  destruct (IH t1 E1 _ _ Hti1 Hh1 Hcs) as (os & t2 & E2 & Hr2 & Hti2 & Hh2 & Hos & Hd2);
    [simpl; lia|eapply rs_budget_mono; [| |exact Hbud]; unfold cmds_entries, cmds_bytes; simpl; lia|].
  exists (o :: os), t2, E2. split_and!; auto.
  - eapply returns_bind; [exact Hr1|]. eapply returns_bind; [exact Hr2|]. done.
  - unfold add_cmds, cmds_entries, cmds_bytes in *. cbn [length sum_list_with b_ops b_entries b_bytes add_op] in *.
    rewrite !Nat.add_assoc. replace (b_ops b + Z.of_nat (S (length cs)))%Z with (b_ops b + 1 + Z.of_nat (length cs))%Z by lia.
    done.
  - done.
Qed.

(** Opening an empty directory. *)
Lemma open_empty config :
  config_ok config → rs_budget 0 0 →
  ∃ t, tree_open empty_disk None config = Ok t ∧ tree_inv t (λ _, []) (mkBudget 0 0 0) ∧
    holds t (λ _, []) ∅ ∧ durable t.
Proof.
  intros (Hw & Hps & Hr) Hbud.
  destruct (wal_new_spec [] (Z.to_nat (wal_segment_size config))) as (w & Hwn & Hwrep & Hseg); [|done|].
  { split; constructor. }
  change (wal_new (Some []) ?x true) with (wal_new None x true) in Hwn.
  set (n := Z.to_nat (block_cache_size config / page_size config)).
  destruct (cache_new_empty n) as [Hci Hcn].
  eexists. split.
  { unfold tree_open. cbn [acquire_lock empty_disk d_locked lift_fault mbind result_bind load_manifest d_manifest].
    rewrite Hw, Hwn. unfold cache_capacity. rewrite (proj2 (Z.eqb_neq _ _) Hps). fold n. done. }
  split_and!.
  - split; [split; [split; [apply mem_new_ok|constructor]| | |done]|].
    + split; simpl; try done; try set_solver.
      * intros i l Hl. destruct i; [|done]. simpl in Hl. by injection Hl as <-.
      * constructor.
      * intros id [x Hx]. by rewrite lookup_empty in Hx.
    + split; try done; simpl; lia.
    + split; [simpl; rewrite Hseg; done|]. right. eexists. exact Hwrep.
  - intros k. by rewrite lookup_empty.
  - split; [eexists; split; [exact Hwrep|done]|]. right. by split_and!.
Qed.

Definition sessions_budget (ss : list (list Cmd)) (b : budget) : Prop :=
  (2 * (b_ops b + Z.of_nat (length ss) + Z.of_nat (length (mjoin ss))) + 5 < 10 ^ 6)%Z ∧
  rs_budget (b_entries b + cmds_entries (mjoin ss)) (b_bytes b + cmds_bytes (mjoin ss)).

Lemma exec_sessions_spec ss config t E b m :
  tree_inv t E b → holds t E m → durable t → config_ok config →
  Forall cmd_ok (mjoin ss) → sessions_budget ss b →
  ∃ oss, exec_sessions config (tree_close t).1 (tree_close t).2 ss = Ok oss ∧ spec_sessions m ss oss.
Proof.
  revert t E b m. induction ss as [|cs ss IH]; intros t E b m Hti Hh Hd Hcfg Hok [Hlt Hbud].
  { by exists []. }
  rewrite mjoin_cons in *. apply Forall_app in Hok as [Hcs Hss].
  unfold cmds_entries, cmds_bytes in Hbud. rewrite length_app in Hlt. rewrite !sum_list_with_app in Hbud.
  fold (cmds_entries cs) (cmds_entries (mjoin ss)) (cmds_bytes cs) (cmds_bytes (mjoin ss)) in Hbud.
  cbn [length] in Hlt.
  destruct Hd as [(ops & Hrep & Hmem) Hman]. destruct Hti as [Hcore [Hseg Hlive]].
  destruct (wal_rep_max _ _ Hrep) as (dir & Hdir & Hsort & Hmax).
  destruct (reopen_spec t E b dir config) as (t1 & Hopen & Hti1 & Hv1 & Hd1 & Hc1); try done; try lia.
  { by rewrite <-Hdir, (wal_rep_replay _ _ Hrep). }
  destruct (exec_cmds_spec cs t1 E _ m Hti1) as (os & t2 & E2 & Hr2 & Hti2 & Hh2 & Hos & Hd2);
    [by intros k; rewrite Hv1|done|simpl; lia|eapply rs_budget_mono; [| |exact Hbud]; simpl; lia|].
  destruct (IH t2 E2 _ _ Hti2 Hh2 (Hd2 Hd1) Hcfg Hss) as (oss & Hoss & Hspec).
  { split; simpl; [lia|]. eapply rs_budget_mono; [| |exact Hbud]; simpl; lia. }
  exists (os :: oss). split; [|done]. cbn [exec_sessions].
  change (tree_close t).2 with (wal_dir (t_wal t)). rewrite Hdir, Hopen. cbn [mbind result_bind].
  rewrite Hr2, Hoss. done.
Qed.

End exec_proofs.
