(* ===== verification/LsmTheorems.v ===== *)
(** * Theorems on [dugite-lsm]

    The claims on the storage engine, stated on the definitions of the other
    [Lsm] files, with their witnesses on a small configuration. *)

From S2P Require Import Prelude Order Bytes Effects LsmPage LsmBloom LsmSstable LsmCache LsmRun LsmMerge LsmMemtable LsmWal LsmSnapshot LsmTree LsmRefine LsmRecovery.
Local Open Scope nat_scope.

(** ** The full stack *)

Definition store_of {CR : Crates} (config : LsmConfig) : RunStore Run RunFiles :=
  run_store (Z.to_nat (page_size config)) (Z.to_nat (bloom_filter_bits_per_key config)).

(** A run of sessions that the configuration and the file formats can hold:
    the log is enabled and the size ratio at least 2 ([config_ok]), the page
    size is above the page header and at most 3 * 65535 + 10, keys and values
    are shorter than 2^16 bytes and no range is empty by its bounds
    ([cmd_ok]), fewer than 10^6 log segments are ever numbered, and the runs
    stay within the 32-bit counters of filters and pages ([run_budget]). *)
Record sessions_ok (config : LsmConfig) (ss : list (list Cmd)) : Prop := {
  so_config : config_ok config;
  so_page : page_size_ok (Z.to_nat (page_size config));
  so_cmds : Forall cmd_ok (mjoin ss);
  so_count : (2 * Z.of_nat (length ss + length (mjoin ss)) + 5 < 10 ^ 6)%Z;
  so_size : run_budget (Z.to_nat (page_size config)) (Z.to_nat (bloom_filter_bits_per_key config))
              (cmds_entries (mjoin ss)) (cmds_bytes (mjoin ss));
}.

Lemma op_entry_fits op : op_ok op → entry_fits (op_entry op).
Proof.
  unfold entry_fits, entry_size, PAGE_HEADER_SIZE.
  destruct op as [k v|k]; simpl; intros; split; destruct_and?; lia.
Qed.

(** C1: over a sequence of sessions that satisfies [sessions_ok], each opening
    the directory that the previous one left, the LSM tree (log, memtable, runs
    with their Bloom filters, fences and pages, block cache, flushes,
    compactions, manifest) succeeds on every command and answers every get and
    range like a finite map that all the sessions share. The conditions are
    that the log is enabled and the size ratio is at least 2, that the page
    size is above the page header and below 3 * 65535 + 11, that every key and
    value is shorter than 2^16 bytes and every range has from <= to, that the
    sessions and their commands are too few to reach the millionth log segment,
    and that the entries written fit the 32-bit counters of a filter and of a
    run's pages. Outside of them the code loses or truncates data (findings
    wal.rs:121, wal.rs:262 and wal.rs:316), and the theorem says nothing. *)
Theorem lsm_sessions_refine_map {CR : Crates} {CROK : CratesOk} (config : LsmConfig) (ss : list (list Cmd)) :
  sessions_ok config ss →
  ∃ oss, exec_sessions (RS := store_of config) config empty_disk None ss = Ok oss ∧
    spec_sessions ∅ ss oss.
Proof.
  intros [Hcfg Hps Hok Hcount Hsize].
  set (RSOK := run_store_ok (Z.to_nat (page_size config)) (Z.to_nat (bloom_filter_bits_per_key config)) Hps).
  destruct ss as [|cs ss]; [by exists []|].
  rewrite mjoin_cons in *. apply Forall_app in Hok as [Hcs Hss].
  unfold cmds_entries, cmds_bytes in Hsize. rewrite !sum_list_with_app in Hsize.
  fold (cmds_entries cs) (cmds_entries (mjoin ss)) (cmds_bytes cs) (cmds_bytes (mjoin ss)) in Hsize.
  rewrite length_app in Hcount. cbn [length] in Hcount.
  change (run_budget _ _ ?n ?s) with (rs_budget (RunStoreOk := RSOK) n s) in Hsize.
  destruct (open_empty (RSOK := RSOK) op_entry_fits config Hcfg) as (t & Hopen & Hti & Hh & Hd).
  { eapply (rs_budget_mono (RunStoreOk := RSOK)); [| |exact Hsize]; lia. }
  destruct (exec_cmds_spec (RSOK := RSOK) op_entry_fits cs t _ _ ∅ Hti Hh Hcs)
    as (os & t2 & E2 & Hr2 & Hti2 & Hh2 & Hos & Hd2).
  { simpl. lia. }
  { eapply (rs_budget_mono (RunStoreOk := RSOK)); [| |exact Hsize]; simpl; lia. }
  destruct (exec_sessions_spec (RSOK := RSOK) op_entry_fits ss config t2 E2 _ _ Hti2 Hh2 (Hd2 Hd) Hcfg Hss)
    as (oss & Hoss & Hspec).
  { split; simpl; [lia|]. eapply (rs_budget_mono (RunStoreOk := RSOK)); [| |exact Hsize]; simpl; lia. }
  exists (os :: oss). split; [|done]. cbn [exec_sessions]. unfold store_of. rewrite Hopen.
  cbn [mbind result_bind]. rewrite Hr2, Hoss. done.
Qed.

(** A configuration with small pages: the memtable flushes every few entries
    and two runs are compacted. *)
Definition demo_config : LsmConfig := mkConfig 40 1024 10 2 true 60 32.

Definition demo_sessions : list (list Cmd) :=
  [[CInsert [1] [10]; CInsert [2] [20; 21]; CDelete [1]; CInsert [5] (replicate 30 7%Z);
    CInsert [6] (replicate 30 8%Z)];
   [CGet [1]; CBatch [([9], [1]); ([1], [3])] [[2]]; CFlush; CInsert [9] [2]; CFlush; CRange [0] [20]];
   [CGet [9]; CGet [2]]]%Z.

Lemma demo_sessions_ok : sessions_ok demo_config demo_sessions.
Proof.
  split; [by split_and!|split; [vm_compute; lia|by vm_compute]| |by vm_compute|split; by vm_compute].
  cbn. repeat constructor. by vm_compute.
Qed.

Lemma lsm_sessions_witness :
  ∃ oss, exec_sessions (CR := demo_crates) (RS := @store_of demo_crates demo_config)
           demo_config empty_disk None demo_sessions = Ok oss ∧
    spec_sessions ∅ demo_sessions oss.
Proof.
  apply (@lsm_sessions_refine_map demo_crates demo_crates_ok demo_config demo_sessions).
  exact demo_sessions_ok.
Defined.

Example demo_sessions_run :
  exec_sessions (CR := demo_crates) (RS := @store_of demo_crates demo_config)
    demo_config empty_disk None demo_sessions =
  Ok [[OUnit; OUnit; OUnit; OUnit; OUnit];
      [OGet None; OUnit; OUnit; OUnit; OUnit;
       ORange [([1], [3]); ([5], replicate 30 7); ([6], replicate 30 8); ([9], [2])]%Z];
      [OGet (Some [2]%Z); OGet None]].
Proof. by vm_compute. Qed.

(** ** Recovery *)

Section recovery_claims.
Context {CR : Crates} {CROK : CratesOk}.
Context {R F : Type} {RS : RunStore R F} {RSOK : RunStoreOk R F}.


(** C3: one compaction step never changes what the tree answers: for the level
    that [find_compaction_level] picks in any tree with the invariant,
    [compact_level] returns (whether it merges the runs of the next level in
    or not, and whether it drops tombstones or keeps them), every key keeps
    the value it had, deleted keys stay deleted, the invariant (handles,
    files, cache, ids) holds again and there are strictly fewer runs. *)
Theorem compaction_preserves_view (t : LsmTree R F) E b i :
  tree_inv t E b →
  find_compaction_level (t_levels t) (size_ratio (t_config t)) = Some i →
  ∃ out t' E', returns (compact_level i) t out t' ∧ tree_inv t' E' b ∧
    (∀ k, tree_view t' E' k = tree_view t E k) ∧
    total_runs (t_levels t') < total_runs (t_levels t).
Proof.
  intros [[Hm Hi Hb Hr] Hw] Hf.
  destruct (compact_level_spec t E b i Hi Hb Hf Hr) as (out & t' & E' & Hret & [Hi' Hb' Hv [S1 S2 S3]] & Hdec).
  exists out, t', E'. split_and!; try done.
  - split; [split|]; try done.
    + destruct Hm. split; by rewrite S1.
    + by rewrite S3.
    + unfold wal_inv. by rewrite S2.
  - intros k. unfold tree_view. rewrite S1. destruct (mem_get _ k); [done|]. apply Hv.
Qed.

(** The compaction loop stops. With a size ratio of at least two,
    [maybe_compact] returns with no level at or above the ratio, in at most as
    many rounds as there are runs, and with the view unchanged. *)
Theorem maybe_compact_terminates (t : LsmTree R F) E b :
  tree_inv t E b → manifest_ok t →
  ∃ t' E', returns maybe_compact t () t' ∧
    find_compaction_level (t_levels t') (size_ratio (t_config t')) = None ∧
    (∀ k, mjoin (runs_view t' E' k) = mjoin (runs_view t E k)) ∧ manifest_ok t'.
Proof.
  intros [[Hm Hi Hb Hr] Hw] Hman.
  destruct (compact_loop_spec (total_runs (t_levels t)) t E b) as (t' & E' & Hret & [_ _ Hv _] & Hm' & Hf); try done.
  by exists t', E'.
Qed.

End recovery_claims.

(** ** Witnesses *)

#[local] Existing Instance demo_crates.
#[local] Existing Instance demo_crates_ok.

Definition demo_store : RunStore Run RunFiles := run_store 32 10.
#[local] Existing Instance demo_store.

Lemma demo_page : page_size_ok 32.
Proof. split; [unfold PAGE_HEADER_SIZE; lia|done]. Qed.

Definition demo_ok : RunStoreOk Run RunFiles := run_store_ok 32 10 demo_page.
#[local] Existing Instance demo_ok.

(** The tree that some commands leave in a new directory. *)
Definition demo_run (config : LsmConfig) (cs : list Cmd) : option (LsmTree Run RunFiles) :=
  match tree_open empty_disk None config with
  | Ok t => match exec_cmds cs t with (Ok _, t') => Some t' | _ => None end
  | Err _ => None
  end.

Lemma demo_run_inv config cs :
  config_ok config → Forall cmd_ok cs → (2 * Z.of_nat (length cs) + 3 < 10 ^ 6)%Z →
  run_budget 32 10 (cmds_entries cs) (cmds_bytes cs) →
  ∃ t E, demo_run config cs = Some t ∧
    tree_inv t E (mkBudget (Z.of_nat (length cs)) (cmds_entries cs) (cmds_bytes cs)) ∧ durable t.
Proof.
  intros Hcfg Hcs Hl Hb.
  destruct (open_empty (RSOK := demo_ok) op_entry_fits config Hcfg) as (t & Ho & Hti & Hh & Hd); [split; by vm_compute|].
  destruct (exec_cmds_spec (RSOK := demo_ok) op_entry_fits cs t _ _ ∅ Hti Hh Hcs)
    as (os & t2 & E2 & Hr & Hti2 & _ & _ & Hd2); [exact Hl|exact Hb|].
  exists t2, E2. split_and!; [|exact Hti2|by apply Hd2]. unfold demo_run. rewrite Ho.
  unfold returns in Hr. by rewrite Hr.
Qed.


(** Two flushed runs under a ratio of three, then a ratio of two: level 0 is
    due for compaction. *)
Definition ratio3_config : LsmConfig := mkConfig 1000 1024 10 3 true 60 32.

Definition two_runs : list Cmd := [CInsert [1] [2]; CFlush; CDelete [1]; CFlush]%Z.

Definition with_config (config : LsmConfig) (t : LsmTree Run RunFiles) : LsmTree Run RunFiles :=
  mkTree config (t_memtable t) (t_wal t) (t_runs t) (t_levels t) (t_next_run_id t) (t_cache t) (t_disk t).

Lemma tree_inv_config (t : LsmTree Run RunFiles) E b config :
  tree_inv t E b → (2 ≤ size_ratio config)%Z → tree_inv (with_config config t) E b.
Proof.
  intros [[[] [] [] Hr] Hw] H. split; [split; [done|by split|by split|done]|done].
Qed.

Lemma two_runs_inv :
  ∃ t E b, tree_inv (with_config demo_config t) E b ∧ manifest_ok (with_config demo_config t) ∧
    find_compaction_level (t_levels t) 2 = Some 0.
Proof.
  destruct (demo_run_inv ratio3_config two_runs) as (t & E & Ht & Hti & Hd);
    [by split_and!|by repeat constructor|done|split; by vm_compute|].
  exists t, E. eexists. split_and!.
  - by apply tree_inv_config; [exact Hti|].
  - destruct Hd as [_ [Hm|(Hm & _)]]; [exact Hm|].
    assert (is_Some (demo_run ratio3_config two_runs ≫= λ t, d_manifest (t_disk t))) as [x Hx].
    { eexists. vm_compute. reflexivity. }
    rewrite Ht in Hx. simpl in Hx. congruence.
  - assert ((λ t, find_compaction_level (t_levels t) 2) <$> demo_run ratio3_config two_runs = Some (Some 0)) as Hx.
    { vm_compute. reflexivity. }
    rewrite Ht in Hx. exact (f_equal (from_option id None) Hx).
Qed.

Lemma compaction_witness :
  ∃ (t t' : LsmTree Run RunFiles) out, returns (compact_level 0) t out t' ∧
    total_runs (t_levels t') < total_runs (t_levels t).
Proof.
  destruct two_runs_inv as (t & E & b & Hti & _ & Hf).
  destruct (compaction_preserves_view (with_config demo_config t) E b 0 Hti Hf)
    as (out & t' & E' & Hret & _ & _ & Hdec).
  by exists (with_config demo_config t), t', out.
Defined.

Lemma maybe_compact_witness :
  ∃ (t t' : LsmTree Run RunFiles), returns maybe_compact t () t' ∧ manifest_ok t'.
Proof.
  destruct two_runs_inv as (t & E & b & Hti & Hm & _).
  destruct (maybe_compact_terminates (with_config demo_config t) E b Hti Hm)
    as (t' & E' & Hret & _ & _ & Hm').
  by exists (with_config demo_config t), t'.
Defined.
