(* ===== verification/LsmFormats.v ===== *)
(** * Claims on the formats and the in-memory structures of [dugite-lsm] *)

From S2P Require Import Prelude Order Bytes Effects LsmPage LsmBloom LsmSstable LsmCache LsmRun LsmMerge LsmMemtable LsmWal LsmSnapshot LsmTree LsmRecovery.
Local Open Scope nat_scope.


(** ** Runs *)

(** A written run answers every lookup like the sorted entries it was
    written from: the Bloom filter, the fence search, the page decoding and
    the block cache never change an answer, whatever the cache holds of other
    runs, and a cached page is never stale. *)
Theorem run_get_correct {CR : Crates} {CROK : CratesOk} ps bpk id es key c :
  page_size_ok ps → strict_sorted es → Forall entry_fits es →
  run_budget ps bpk (length es) (page_data_size es) →
  cache_inv c → (∀ i, cached c (id, i) = None) →
  let '(r, f) := run_write id es ps bpk in
  ∃ c', get_with_cache_insert r (Some f) key c = (Ok (assoc key es), c') ∧ cache_inv c' ∧
    ∀ key2, (get_with_cache_insert r (Some f) key2 c').1 = Ok (assoc key2 es).
Proof.
  intros Hps Hs He Hb Hc Hfresh.
  pose proof (run_write_rep ps bpk Hps id es Hs He Hb) as Hrep.
  destruct (run_write id es ps bpk) as [r f]. simpl in Hrep.
  assert (run_coh ps c id r f) as Hcoh by (intros ? ? ? ? ? ?; by rewrite Hfresh).
  destruct (run_get_rep ps Hps c id r f es key Hrep Hc Hcoh) as (c' & Hg & Hc' & Hcoh' & _ & _).
  exists c'. split_and!; [done|done|]. intros key2.
  destruct (run_get_rep ps Hps c' id r f es key2 Hrep Hc' Hcoh') as (c2 & Hg2 & _). by rewrite Hg2.
Qed.

Definition demo_entries : list entry :=
  [([1], Some [10; 11]); ([2], None); ([2; 0], Some (replicate 40 5)); ([7], Some [9])]%Z.

Lemma demo_entries_ok :
  strict_sorted demo_entries ∧ Forall entry_fits demo_entries ∧
  run_budget 32 10 (length demo_entries) (page_data_size demo_entries) ∧ page_size_ok 32.
Proof.
  split_and!; [|repeat constructor|split; by vm_compute|split; [vm_compute; lia|done]].
  unfold demo_entries. repeat (apply strict_sorted_cons; split; [repeat constructor|]). constructor.
Qed.

Lemma run_get_witness :
  let '(r, f) := run_write (CR := demo_crates) 3 demo_entries 32 10 in
  ∃ c', get_with_cache_insert (CR := demo_crates) r (Some f) [2; 0]%Z (cache_new 4) =
    (Ok (assoc [2; 0]%Z demo_entries), c').
Proof.
  destruct demo_entries_ok as (H1 & H2 & H3 & H4).
  pose proof (@run_get_correct demo_crates demo_crates_ok 32 10 3 demo_entries [2; 0]%Z (cache_new 4)
    H4 H1 H2 H3) as H.
  destruct (run_write (CR := demo_crates) 3 demo_entries 32 10) as [r f].
  destruct H as (c' & Hg & _); [| |by exists c'].
  - split; simpl; [constructor| |by left|vm_compute; lia].
    intros k. rewrite lookup_empty. split; [set_solver|by intros []].
  - intros i. done.
Defined.

(** Opening the files of a written run and scanning a key range returns
    exactly the entries of the range, in order: the fence brackets the right
    pages and jumbo pages are read whole. *)
Theorem run_scan_correct {CR : Crates} {CROK : CratesOk} ps bpk id es from to :
  page_size_ok ps → strict_sorted es → Forall entry_fits es →
  run_budget ps bpk (length es) (page_data_size es) →
  ∃ r, run_open id (Some (run_write id es ps bpk).2) ps = Ok r ∧
    scan_all r (Some (run_write id es ps bpk).2) = Ok es ∧
    scan_range r (Some (run_write id es ps bpk).2) from to = Ok (filter (in_range from to) es).
Proof.
  intros Hps Hs He Hb.
  pose proof (run_write_rep ps bpk Hps id es Hs He Hb) as Hrep.
  destruct (run_open_rep ps Hps id _ _ es Hrep) as (r & Ho & Hrep').
  exists r. split_and!; [done|by eapply run_scan_all_rep|by eapply run_scan_range_rep].
Qed.

Lemma run_scan_witness :
  ∃ r, scan_range (CR := demo_crates) r (Some (run_write (CR := demo_crates) 3 demo_entries 32 10).2) [2]%Z [5]%Z =
    Ok [([2], None); ([2; 0], Some (replicate 40 5))]%Z.
Proof.
  destruct demo_entries_ok as (H1 & H2 & H3 & H4).
  destruct (@run_scan_correct demo_crates demo_crates_ok 32 10 3 demo_entries [2]%Z [5]%Z H4 H1 H2 H3)
    as (r & _ & _ & H).
  exists r. exact H.
Defined.

(** ** Codecs *)

(** A page decodes to the entries it encodes, for normal and for jumbo
    pages: the padding up to the page size, or up to a multiple of it, is
    ignored and the checksum covers the payload. *)
Theorem page_roundtrip {CR : Crates} {CROK : CratesOk} es max_size :
  0 < max_size → page_ok es → page_decode (page_encode (mkPage es) max_size) = Ok (mkPage es).
Proof. intros Hm Hok. rewrite page_encode_payload by done. by apply page_decode_payload. Qed.

Lemma page_roundtrip_witness :
  page_decode (CR := demo_crates) (page_encode (CR := demo_crates) (mkPage demo_entries) 32) = Ok (mkPage demo_entries).
Proof.
  apply (@page_roundtrip demo_crates demo_crates_ok); [lia|].
  split_and!; [repeat constructor|by vm_compute|by vm_compute].
Defined.

(** A Bloom filter has no false negatives, also after it went through its
    file: every key inserted in a filter of the size the writer allocates is
    reported present by the filter read back. *)
Theorem bloom_no_false_negative (keys : list Key) (bits_per_key : nat) key :
  (Z.of_nat (length keys) * Z.of_nat bits_per_key < 2 ^ 32 - 8)%Z → key ∈ keys →
  let b := foldl bloom_insert (bloom_new (Z.of_nat (length keys)) (Z.of_nat bits_per_key)) keys in
  ∃ b', bloom_from_bytes (bloom_to_bytes b) = Some b' ∧ may_contain b' key = true.
Proof.
  intros Hs Hin b. set (b0 := bloom_new _ _) in b.
  destruct (bloom_new_small bits_per_key (length keys) Hs) as [Hnb Hnh]. fold b0 in Hnb, Hnh.
  assert (bloom_ok b0) as Hok by (apply bloom_new_ok; lia).
  destruct (bloom_fields keys b0) as [F1 F2].
  exists b. split; [|apply foldl_bloom_insert_contains; auto].
  apply bloom_roundtrip_gen; [by apply foldl_bloom_insert_ok|unfold b; by rewrite F1|unfold b; by rewrite F2].
Qed.

Lemma bloom_witness :
  ∃ b', bloom_from_bytes (bloom_to_bytes (foldl bloom_insert (bloom_new 2 10) [[1; 2]; [3]]%Z)) = Some b' ∧
    may_contain b' [3]%Z = true.
Proof. apply (bloom_no_false_negative [[1; 2]; [3]]%Z 10 [3]%Z); [done|set_solver]. Defined.

(** Snapshot metadata and the manifest, which share a codec, decode to what
    they encode when the label is UTF-8 and the counts and ids fit their
    fields. *)
Theorem metadata_roundtrip {CR : Crates} {CROK : CratesOk} m :
  meta_ok m → meta_from_bytes (meta_to_bytes m) = Ok m.
Proof. apply meta_roundtrip_gen. Qed.

Lemma metadata_witness :
  let m := mkMeta [109; 195; 169]%Z [(0, 7%Z); (1, 3%Z)] 8 in
  meta_from_bytes (CR := demo_crates) (meta_to_bytes (CR := demo_crates) m) = Ok m.
Proof.
  apply (@metadata_roundtrip demo_crates demo_crates_ok).
  split; [by vm_compute|done|done|done|].
  repeat (constructor; [by split|]). constructor.
Defined.

(** ** Merging and the memtable *)

(** The heap merge of sorted runs returns a sorted list with one entry per
    key, the entry of the newest run that has the key; tombstones stay or go
    with the flag, and a dropped tombstone never uncovers an older value. *)
Theorem merge_entries_correct (inputs : list MergeInput) (drop_tombstones : bool) :
  inputs_ok inputs →
  strict_sorted (merge_entries inputs drop_tombstones) ∧
  ∀ k, assoc k (merge_entries inputs drop_tombstones) =
    match newest k inputs.*2 with
    | Some None => if drop_tombstones then None else Some None
    | o => o
    end.
Proof.
  intros Hok. destruct (merge_entries_spec inputs drop_tombstones Hok) as [Hs Hl].
  split; [done|]. intros k. rewrite Hl. by destruct drop_tombstones, (newest k inputs.*2) as [[]|].
Qed.

Lemma merge_witness :
  strict_sorted (merge_entries [(0, [([1], Some [1]); ([3], Some [3])]); (1, [([1], None); ([2], Some [2])])]%Z true).
Proof.
  apply (merge_entries_correct [(0, [([1], Some [1]); ([3], Some [3])]); (1, [([1], None); ([2], Some [2])])]%Z true).
  split_and!; [by repeat constructor|by repeat constructor|done].
Defined.

(** The byte count that triggers flushes is exact: after any sequence of
    inserts and deletes [approx_bytes] is the sum of the key and value lengths
    of the entries, so the saturating subtraction never saturates, and the
    entries are those of the map that the operations build. *)
Theorem memtable_bytes_exact (ops : list WalOp) :
  let m := foldl apply_op mem_new ops in
  mem_approx_bytes m = sum_list_with (λ e : entry, length e.1 + value_len e.2) (mem_entries m) ∧
  ∀ k, mem_get m k =
    foldl (λ acc op, match op with
                     | WalInsert k' v => if decide (k = k') then Some (Some v) else acc
                     | WalDelete k' => if decide (k = k') then Some None else acc
                     end) None ops.
Proof.
  assert (∀ m, mem_ok m →
    mem_ok (foldl apply_op m ops) ∧
    ∀ k, mem_get (foldl apply_op m ops) k =
      foldl (λ acc op, match op with
                       | WalInsert k' v => if decide (k = k') then Some (Some v) else acc
                       | WalDelete k' => if decide (k = k') then Some None else acc
                       end) (mem_get m k) ops) as H.
  { induction ops as [|op ops IH]; intros m Hm; [done|]. simpl. destruct op as [k v|k]; simpl.
    - destruct (mem_insert_spec m k v Hm) as [H1 H2]. destruct (IH _ H1) as [H3 H4].
      split; [done|]. intros k'. by rewrite H4, H2.
    - destruct (mem_delete_spec m k Hm) as [H1 H2]. destruct (IH _ H1) as [H3 H4].
      split; [done|]. intros k'. by rewrite H4, H2. }
  destruct (H mem_new mem_new_ok) as [[_ Hb] Hg]. done.
Qed.

(** The block cache never holds more pages than its capacity and never
    invents one: an insert keeps the clock invariant, terminates its eviction
    sweep, makes the page available, and every other cached page was there
    before. *)
Theorem cache_insert_correct (c : BlockCache) key page :
  cache_inv c →
  let c' := cache_insert c key page in
  cache_inv c' ∧ size (cmap c') ≤ capacity c ∧
  (capacity c ≠ 0 → (cache_get c' key).1 = Some page) ∧
  ∀ k p, cached c' k = Some p → k = key ∧ p = page ∨ cached c k = Some p.
Proof.
  intros Hc c'. destruct (cache_insert_spec c key page Hc) as (H1 & H2 & H3 & H4).
  fold c' in H1, H2, H3, H4. split_and!; [done|rewrite <-H2; apply H1| |done].
  intros Hcap. pose proof (cache_get_spec c' key H1) as Hg.
  destruct (cache_get c' key) as [r c2]. destruct Hg as [-> _]. by apply H3.
Qed.

Lemma cache_witness :
  (cache_get (cache_insert (cache_new 1) (1, 2)%Z (mkPage [])) (1, 2)%Z).1 = Some (mkPage []).
Proof.
  apply (cache_insert_correct (cache_new 1) (1, 2)%Z (mkPage [])); [|simpl; lia].
  split; simpl; [constructor| |by left|vm_compute; lia].
  intros k. rewrite lookup_empty. split; [set_solver|by intros []].
Defined.

(** ** The log *)

(** Replaying a log segment cut at any byte recovers exactly the
    operations whose frames are whole, in order: a truncated tail is dropped
    and nothing before it is lost. *)
Theorem wal_replay_truncated {CR : Crates} {CROK : CratesOk} (ops : list WalOp) n :
  Forall op_ok ops →
  replay_segment (take n (mjoin (op_frame <$> ops))) = take (whole_frames ops n) ops ∧
  (length (mjoin (op_frame <$> ops)) ≤ n → whole_frames ops n = length ops).
Proof.
  intros Hok. split; [by apply replay_truncated|].
  revert n. induction Hok as [|op ops Hop Hok IH]; intros n Hn; [done|].
  rewrite fmap_cons, mjoin_cons, length_app in Hn. cbn [whole_frames length].
  destruct (Nat.leb_spec (length (op_frame op)) n); [|lia]. f_equal. apply IH. lia.
Qed.

Lemma wal_replay_witness :
  replay_segment (CR := demo_crates)
    (take 20 (mjoin (op_frame (CR := demo_crates) <$> [WalInsert [1] [2]; WalDelete [3]; WalInsert [4] [5]]%Z))) =
  [WalInsert [1] [2]]%Z.
Proof.
  destruct (@wal_replay_truncated demo_crates demo_crates_ok
    [WalInsert [1] [2]; WalDelete [3]; WalInsert [4] [5]]%Z 20) as [H _]; [repeat constructor|].
  exact H.
Defined.

(** A batch writes the bytes that its operations would write one by one,
    so a replay cannot tell them apart. *)
Theorem log_batch_equiv {CR : Crates} {CROK : CratesOk} (w : WalWriter) ops inserts deletes :
  wal_rep w ops → wal_room w → Forall op_ok (batch_ops inserts deletes) →
  ∃ w', returns (log_batch inserts deletes) w () w' ∧
    replay_wal (wal_dir w') =
      ops ++ ((λ kv, WalInsert kv.1 kv.2) <$> inserts) ++ (WalDelete <$> deletes).
Proof.
  intros Hrep Hroom Hok. destruct (log_batch_spec w ops inserts deletes Hrep Hroom Hok) as (w' & Hr & Hrep' & _).
  exists w'. split; [done|]. by apply wal_rep_replay in Hrep'.
Qed.

Lemma log_batch_witness :
  ∃ w w', returns (log_batch (CR := demo_crates) [([1], [2])] [[3]])%Z w () w' ∧
    replay_wal (CR := demo_crates) (wal_dir w') = [WalInsert [1] [2]; WalDelete [3]]%Z.
Proof.
  destruct (@wal_new_spec demo_crates demo_crates_ok [] 60) as (w & Hn & Hrep & Hseg); [split; constructor|done|].
  destruct (@log_batch_equiv demo_crates demo_crates_ok w [] [([1], [2])]%Z [[3]]%Z) as (w' & Hr & Hre);
    [exact Hrep|by unfold wal_room; rewrite Hseg|repeat constructor|].
  exists w, w'. by split.
Defined.

(** The log frame stores the value length in 16 bits while a page stores it
    in 32: an insert of a value of 64 KiB or more is logged with a checksum
    that matches, and replays as a shorter value. *)
Theorem wal_truncates_large_value {CR : Crates} {CROK : CratesOk} k v :
  (Z.of_nat (length k) < 2 ^ 16)%Z → (2 ^ 16 ≤ Z.of_nat (length v) < 2 ^ 31)%Z →
  ∃ v', replay_segment (op_frame (WalInsert k v)) = [WalInsert k v'] ∧
    length v' = Z.to_nat (Z.of_nat (length v) mod 2 ^ 16) ∧ v' ≠ v.
Proof.
  intros Hk Hv. set (v' := take (Z.to_nat (as_u16 (length v))) v).
  assert (length v' = Z.to_nat (Z.of_nat (length v) mod 2 ^ 16)) as Hl.
  { unfold v', as_u16. rewrite length_take.
    pose proof (Z.mod_le (Z.of_nat (length v)) (2 ^ 16)). lia. }
  exists v'. split_and!; [|done|].
  - pose proof (replay_loop_frames (length (op_frame (WalInsert k v))) (length (op_frame (WalInsert k v))) 0
      [WalInsert k v] []) as H.
    unfold replay_segment.
    change (mjoin (op_frame <$> [WalInsert k v])) with (op_frame (WalInsert k v) ++ []) in H.
    rewrite !app_nil_r in H. rewrite H; [done| | | |].
    + constructor; [|constructor]. split; simpl; lia.
    + by left.
    + done.
    + by right.
  - intros Heq. rewrite Heq in Hl. pose proof (Z.mod_pos_bound (Z.of_nat (length v)) (2 ^ 16)). lia.
Qed.

Lemma wal_truncates_witness :
  ∃ v', replay_segment (CR := demo_crates) (op_frame (CR := demo_crates) (WalInsert [1]%Z (replicate (Z.to_nat 65540) 7%Z))) =
    [WalInsert [1]%Z v'] ∧ v' ≠ replicate (Z.to_nat 65540) 7%Z.
Proof.
  destruct (@wal_truncates_large_value demo_crates demo_crates_ok [1]%Z (replicate (Z.to_nat 65540) 7%Z))
    as (v' & H1 & _ & H2); [simpl; lia|rewrite length_replicate; lia|].
  exists v'. split; [exact H1|exact H2].
Defined.

(** Segments are replayed by file name, and a name has six digits: the
    segment after number 999999 sorts before it, so an older write of a key
    overrides the newer one. *)
Theorem wal_segment_names_wrap :
  replay_wal (CR := demo_crates)
    (Some [(999999, op_frame (CR := demo_crates) (WalInsert [1] [1]));
           (1000000, op_frame (CR := demo_crates) (WalInsert [1] [2]))]%Z) =
  [WalInsert [1] [2]; WalInsert [1] [1]]%Z.
Proof. by vm_compute. Qed.

(** * Where a crash or a mode change loses writes

    Executions of the tree in which the files do not hold what the handle
    answered: between the steps of a flush, after a restore, and with the log
    switched off. Each is a run of the definitions of [LsmTree.v]. *)


(** ** Prefixes of a flush *)

Section prefixes.
Context {CR : Crates} {R F : Type} {RS : RunStore R F}.

(** [flush_memtable] up to the removal of the log segments. *)
Definition flush_until_clear : eff (LsmTree R F) () :=
  entries ← drain_memtable;
  run_id ← gets t_next_run_id;
  modify (λ t, set_next_run_id (t_next_run_id t + 1)%Z t) ;;
  run ← write_run run_id entries;
  add_to_level0 run_id ;;
  modify (λ t, set_runs (<[run_id := run]> (t_runs t)) t) ;;
  zoom t_wal set_wal wal_clear.

(** A flush of a memtable with entries is that prefix, the manifest, and the
    compactions. *)
Lemma flush_memtable_split (t : LsmTree R F) :
  mem_entries (t_memtable t) ≠ [] →
  flush_memtable t = (flush_until_clear ;; save_manifest ;; maybe_compact) t.
Proof.
  intros Hne. unfold flush_memtable, flush_until_clear, mbind, eff_bind, drain_memtable, gets, modify, mem_drain.
  rewrite bool_decide_false by done.
  destruct (write_run _ _ _) as [[r|e] t1]; [|done].
  destruct (add_to_level0 _ t1) as [[]  t2]; [|done].
  destruct (zoom _ _ _ _) as [[] t3]; done.
Qed.

(** The process stops after [m]; another one opens the files and reads [k]. *)
Definition crash_and_get (config : LsmConfig) (m : eff (LsmTree R F) ()) (t : LsmTree R F) (k : Key) :
    result Fault (option Value) :=
  let '(_, t1) := m t in
  t2 ← tree_open (tree_close t1).1 (tree_close t1).2 config;
  (tree_get k t2).1.

(** The tree after [cs] in a new directory, then [f]. *)
Definition after {A} (config : LsmConfig) (cs : list Cmd) (f : LsmTree R F → result Fault A) : result Fault A :=
  t ← tree_open empty_disk None config;
  match exec_cmds cs t with
  | (Ok _, t') => f t'
  | (Err e, _) => Err e
  end.

End prefixes.

#[local] Existing Instance demo_crates.
Definition small_store : RunStore Run RunFiles := run_store 32 10.
#[local] Existing Instance small_store.
Definition small_config : LsmConfig := mkConfig 1000 1024 10 2 true 1000 32.

(** A flush removes the log before it saves the manifest. A crash between
    the two steps leaves a run file that no manifest names and an empty log:
    the acknowledged write of a key is gone after the reopen, although it was
    durable before the flush started. *)
Theorem flush_crash_loses_writes :
  after small_config [CInsert [1] [7]]%Z (λ t, crash_and_get small_config (mret ()) t [1]%Z) = Ok (Some [7]%Z) ∧
  after small_config [CInsert [1] [7]]%Z (λ t, crash_and_get small_config flush_until_clear t [1]%Z) = Ok None.
Proof. by vm_compute. Qed.

(** A compaction deletes the runs it consumed before the manifest names the
    merged run. A crash between the two steps leaves a manifest of deleted
    runs, which [load_manifest] skips with a warning: keys that earlier flushes
    had made durable are lost. *)
Theorem compaction_crash_loses_runs :
  let cs := [CInsert [1] [7]; CFlush; CInsert [2] [8]]%Z in
  let m := flush_until_clear ;; save_manifest ;; compact_level 0 ;; mret () in
  after small_config cs (λ t, crash_and_get small_config (mret ()) t [1]%Z) = Ok (Some [7]%Z) ∧
  after small_config cs (λ t, crash_and_get small_config m t [1]%Z) = Ok None ∧
  after small_config cs (λ t, crash_and_get small_config m t [2]%Z) = Ok None.
Proof. by vm_compute. Qed.

(** A restore to a snapshot empties the memtable but keeps the log, so the
    writes that it undid come back at the next open. *)
Theorem restore_leaves_log :
  let undo : eff (LsmTree Run RunFiles) () :=
    tree_save_snapshot "s" [115]%Z ;; tree_insert [2]%Z [8]%Z ;; restore_from_snapshot "s" in
  after small_config [CInsert [1] [7]]%Z (λ t, let '(_, t') := undo t in (tree_get [2]%Z t').1) = Ok None ∧
  after small_config [CInsert [1] [7]]%Z (λ t, crash_and_get small_config undo t [2]%Z) = Ok (Some [8]%Z).
Proof. by vm_compute. Qed.

(** Restoring a snapshot that does not exist fails after it has emptied the
    tree: no run and no level is left, the data is not readable, and the next
    flush panics on [levels[0]]. *)
Theorem restore_missing_snapshot {CR : Crates} {R F : Type} {RS : RunStore R F} (t : LsmTree R F) name :
  d_snapshots (t_disk t) !! name = None →
  ∃ t', restore_from_snapshot name t = (Err (Fail (SnapshotNotFound name)), t') ∧
    t_runs t' = ∅ ∧ t_levels t' = [] ∧ t_memtable t' = mem_new ∧
    ∀ k v, memtable_size (t_config t) = 0%Z → wal_enabled (t_wal t) = false →
      (tree_insert k v t').1 = Err Panic.
Proof.
  intros Hs. eexists. split_and!.
  - unfold restore_from_snapshot, mbind, eff_bind, modify, gets, lift. simpl.
    unfold open_snapshot. rewrite Hs. done.
  - done.
  - done.
  - done.
  - intros k v Hm Hw.
    assert (log_insert k v (t_wal t) = (Ok (), t_wal t)) as Hlog.
    { unfold log_insert, log_op, mbind, eff_bind, gets. by rewrite Hw. }
    unfold tree_insert, mbind, eff_bind, zoom, modify. simpl. rewrite Hlog.
    unfold flush_if_full, mbind, eff_bind, gets. simpl. rewrite Hm.
    rewrite (proj2 (Z.leb_le _ _)) by lia. simpl.
    unfold flush_memtable, mbind, eff_bind, drain_memtable, gets, modify, mem_insert. simpl.
    unfold write_run. destruct (rs_write _ _) as [r f]. by destruct (create_run _ _ _ _).
Qed.

Lemma restore_missing_witness :
  ∃ t' : LsmTree Run RunFiles, t_levels t' = [] ∧ t_runs t' = ∅.
Proof.
  destruct (@restore_missing_snapshot demo_crates Run RunFiles small_store
    (mkTree small_config mem_new (mkWal None None 0 0 10 false) ∅ [level_new 0] 0 (cache_new 4) empty_disk)
    "gone") as (t' & _ & H1 & H2 & _); [done|].
  by exists t'.
Defined.

(** A flush with the log switched off does not clear the log that was
    written before: after the reopen the stale log entry shadows the newer,
    flushed value. *)
Theorem disabled_log_goes_stale :
  let bulk : eff (LsmTree Run RunFiles) () :=
    set_wal_enabled false ;; tree_insert [1]%Z [9]%Z ;; flush in
  after small_config [CInsert [1] [7]]%Z (λ t, let '(_, t') := bulk t in (tree_get [1]%Z t').1) = Ok (Some [9]%Z) ∧
  after small_config [CInsert [1] [7]]%Z (λ t, crash_and_get small_config bulk t [1]%Z) = Ok (Some [7]%Z).
Proof. by vm_compute. Qed.
