(* ===== verification/Overlay.v ===== *)
(** * The BFT overlay schedule ([crates/dugite-consensus/src/overlay.rs])

    The pure schedule functions, with the wrap-around of [i128] written out,
    and what they compute: how many slots are overlay slots and who signs
    them. *)

From S2P Require Import Prelude.
Local Open Scope Z_scope.

(** ** Definitions *)

(** [i128] arithmetic of a release build: the two's complement wrap. *)
Definition wrap_i128 (x : Z) : Z := (x + 2 ^ 127) mod 2 ^ 128 - 2 ^ 127.

(** A [Hash28] is its bytes; a [BTreeSet] of them is a sorted list. *)
Abbreviation Hash28 := (list Z).

Inductive OBftSlot : Type :=
| NonActiveSlot
| ActiveSlot (key : Hash28).

#[global] Instance OBftSlot_eq_dec : EqDecision OBftSlot.
Proof. solve_decision. Defined.

(** [None] is the failed assertion on the denominator. Division and remainder
    of [i128] truncate. *)
Definition ceiling_mul (x numerator denominator : Z) : option Z :=
  if denominator =? 0 then None else
  let product := wrap_i128 (x * numerator) in
  let quot := Z.quot product denominator in
  let rem := Z.rem product denominator in
  Some (if 0 <? rem then wrap_i128 (quot + 1) else quot).

Definition is_overlay_slot (first_slot d_num d_den slot : Z) : option bool :=
  if (d_num =? 0) || (d_den =? 0) then Some false else
  let s := saturating_sub64 slot first_slot in
  left ← ceiling_mul s d_num d_den;
  right ← ceiling_mul (s + 1) d_num d_den;
  Some (left <? right).

Definition classify_overlay_slot (first_slot : Z) (genesis_keys : list Hash28)
    (d_num d_den f_num f_den slot : Z) : option OBftSlot :=
  let n_keys := Z.of_nat (length genesis_keys) in
  if n_keys =? 0 then Some NonActiveSlot else
  let offset := saturating_sub64 slot first_slot in
  position ← ceiling_mul offset d_num d_den;
  match checked_div64 f_den f_num with
  | None => Some NonActiveSlot
  | Some asc_inv =>
      if (asc_inv =? 0) || negb (Z.rem position asc_inv =? 0) then Some NonActiveSlot else
      let key_index := Z.rem (Z.quot position asc_inv) n_keys in
      key ← genesis_keys !! Z.to_nat key_index;
      Some (ActiveSlot key)
  end.

Definition lookup_in_overlay_schedule (first_slot : Z) (genesis_keys : list Hash28)
    (d_num d_den f_num f_den slot : Z) : option (option OBftSlot) :=
  overlay ← is_overlay_slot first_slot d_num d_den slot;
  if negb overlay then Some None else
  c ← classify_overlay_slot first_slot genesis_keys d_num d_den f_num f_den slot;
  Some (Some c).

(** ** Ceilings *)

Lemma wrap_i128_small x : - 2 ^ 127 ≤ x < 2 ^ 127 → wrap_i128 x = x.
Proof. intros H. unfold wrap_i128. rewrite Z.mod_small by lia. lia. Qed.

(** [ceil (x * n / d)] *)
Definition ceil_frac (x n d : Z) : Z := - (- (x * n) / d).

Lemma ceil_frac_spec x n d q :
  0 < d → ceil_frac x n d = q ↔ d * (q - 1) < x * n ≤ d * q.
Proof.
  intros Hd. unfold ceil_frac.
  pose proof (Z.div_mod (- (x * n)) d ltac:(lia)). pose proof (Z.mod_pos_bound (- (x * n)) d Hd).
  split; intros; nia.
Qed.

Lemma ceiling_mul_spec x n d :
  0 < d → 0 ≤ x → 0 ≤ n → x * n < 2 ^ 126 →
  ceiling_mul x n d = Some (ceil_frac x n d).
Proof.
  intros Hd Hx Hn Hb. unfold ceiling_mul. destruct (Z.eqb_spec d 0); [lia|].
  rewrite (wrap_i128_small (x * n)) by nia.
  rewrite Z.quot_div_nonneg, Z.rem_mod_nonneg by nia.
  pose proof (Z.div_mod (x * n) d ltac:(lia)). pose proof (Z.mod_pos_bound (x * n) d Hd).
  assert (0 ≤ x * n / d ≤ x * n) by (split; [apply Z.div_pos; nia|apply Z.div_le_upper_bound; nia]).
  f_equal. symmetry. destruct (Z.ltb_spec 0 ((x * n) mod d)).
  - rewrite wrap_i128_small by lia. apply ceil_frac_spec; [done|]. nia.
  - apply ceil_frac_spec; [done|]. nia.
Qed.

Lemma ceil_frac_step x n d :
  0 < d → 0 ≤ n ≤ d → ceil_frac x n d ≤ ceil_frac (x + 1) n d ≤ ceil_frac x n d + 1.
Proof.
  intros Hd Hn. pose proof (proj1 (ceil_frac_spec x n d _ Hd) eq_refl) as H1.
  pose proof (proj1 (ceil_frac_spec (x + 1) n d _ Hd) eq_refl) as H2.
  set (a := ceil_frac x n d) in *. set (b := ceil_frac (x + 1) n d) in *. nia.
Qed.

(** ** Counting *)

(** Overlay slots among the first [n] slots of the epoch. *)
Fixpoint overlay_count (first d_num d_den : Z) (n : nat) : Z :=
  match n with
  | O => 0
  | S n' =>
      overlay_count first d_num d_den n' +
      match is_overlay_slot first d_num d_den (first + Z.of_nat n') with
      | Some true => 1
      | _ => 0
      end
  end.

Lemma is_overlay_slot_spec first d_num d_den off :
  0 ≤ first → 0 < d_num ≤ d_den → 0 ≤ off → (off + 1) * d_num < 2 ^ 126 →
  is_overlay_slot first d_num d_den (first + off) =
    Some (ceil_frac off d_num d_den <? ceil_frac (off + 1) d_num d_den).
Proof.
  intros Hf Hd Ho Hb. unfold is_overlay_slot.
  destruct (Z.eqb_spec d_num 0), (Z.eqb_spec d_den 0); try lia. simpl orb. cbv iota zeta.
  unfold saturating_sub64. replace (Z.max (first + off - first) 0) with off by lia.
  rewrite !ceiling_mul_spec by nia. done.
Qed.

Lemma overlay_count_ceil first d_num d_den n :
  0 ≤ first → 0 < d_num ≤ d_den → Z.of_nat n * d_num < 2 ^ 126 →
  overlay_count first d_num d_den n = ceil_frac (Z.of_nat n) d_num d_den.
Proof.
  intros Hf Hd. induction n as [|n IH]; intros Hb.
  { simpl. symmetry. apply ceil_frac_spec; lia. }
  cbn [overlay_count]. rewrite IH by nia. rewrite is_overlay_slot_spec by nia.
  replace (Z.of_nat (S n)) with (Z.of_nat n + 1) by lia.
  pose proof (ceil_frac_step (Z.of_nat n) d_num d_den ltac:(lia) ltac:(lia)).
  destruct (Z.ltb_spec (ceil_frac (Z.of_nat n) d_num d_den) (ceil_frac (Z.of_nat n + 1) d_num d_den)); lia.
Qed.

(** ** Claims *)

(** With a decentralisation parameter [d] between 0 and 1, exactly
    [ceil (n * d)] of the first [n] slots of an epoch are overlay slots, for
    every [n]. *)
Theorem overlay_slot_count first d_num d_den n :
  0 ≤ first → 0 ≤ d_num ≤ d_den → 0 < d_den → Z.of_nat n * d_num < 2 ^ 126 →
  d_den * (overlay_count first d_num d_den n - 1) < Z.of_nat n * d_num ≤
  d_den * overlay_count first d_num d_den n.
Proof.
  intros Hf Hd Hd0 Hb. destruct (decide (d_num = 0)) as [->|Hne].
  - assert (overlay_count first 0 d_den n = 0) as ->; [|lia].
    clear Hb. induction n as [|n IH]; simpl; [done|]. rewrite IH. done.
  - rewrite overlay_count_ceil by lia. by apply ceil_frac_spec.
Qed.

Lemma overlay_slot_count_witness :
  10 * (overlay_count 100 9 10 100 - 1) < Z.of_nat 100 * 9 ≤ 10 * overlay_count 100 9 10 100.
Proof. apply (overlay_slot_count 100 9 10 100); lia. Defined.

(** The genesis delegates sign in round robin: the overlay slot that comes
    after [m] other overlay slots of the epoch is active exactly when [m] is a
    multiple of [floor (1/f)], and is then assigned to key number
    [m / floor (1/f)], modulo the number of keys, of the sorted set. *)
Theorem overlay_round_robin first keys d_num d_den f_num f_den (off : nat) :
  0 ≤ first → 0 < d_num ≤ d_den → 0 < f_num ≤ f_den → keys ≠ [] →
  (Z.of_nat off + 1) * d_num < 2 ^ 126 →
  let slot := first + Z.of_nat off in
  let m := overlay_count first d_num d_den off in
  let asc_inv := f_den / f_num in
  lookup_in_overlay_schedule first keys d_num d_den f_num f_den slot =
    if decide (overlay_count first d_num d_den (S off) = m) then Some None
    else if decide (m mod asc_inv = 0)
    then match keys !! Z.to_nat ((m / asc_inv) mod Z.of_nat (length keys)) with
         | Some key => Some (Some (ActiveSlot key))
         | None => None
         end
    else Some (Some NonActiveSlot).
Proof.
  intros Hf Hd Hff Hk Hb slot m asc_inv. unfold lookup_in_overlay_schedule.
  assert (m = ceil_frac (Z.of_nat off) d_num d_den) as Hm by (apply overlay_count_ceil; nia).
  assert (0 ≤ m) as Hm0.
  { pose proof (proj1 (ceil_frac_spec (Z.of_nat off) d_num d_den m ltac:(lia)) (eq_sym Hm)). nia. }
  cbn [overlay_count]. fold m. unfold slot. rewrite is_overlay_slot_spec by nia.
  cbn [mbind option_bind]. rewrite <-Hm.
  destruct (Z.ltb_spec m (ceil_frac (Z.of_nat off + 1) d_num d_den)); simpl negb; cbv iota.
  2: by rewrite decide_True by lia.
  rewrite decide_False by lia.
  assert (1 ≤ asc_inv) as Hasc by (apply Z.div_le_lower_bound; lia).
  unfold classify_overlay_slot.
  destruct (Z.eqb_spec (Z.of_nat (length keys)) 0) as [Hl|Hl]; [destruct keys; simpl in Hl; [done|lia]|].
  unfold saturating_sub64. replace (Z.max (first + Z.of_nat off - first) 0) with (Z.of_nat off) by lia.
  rewrite ceiling_mul_spec by nia. cbn [mbind option_bind]. rewrite <-Hm.
  unfold checked_div64. destruct (Z.eqb_spec f_num 0); [lia|]. fold asc_inv.
  destruct (Z.eqb_spec asc_inv 0); [lia|]. rewrite Z.rem_mod_nonneg by lia. simpl orb.
  destruct (Z.eqb_spec (m mod asc_inv) 0) as [E|E]; simpl negb; cbv iota.
  - rewrite decide_True by done. rewrite Z.quot_div_nonneg by lia.
    rewrite Z.rem_mod_nonneg by (try apply Z.div_pos; lia).
    by destruct (keys !! _).
  - by rewrite decide_False.
Qed.

Lemma overlay_round_robin_witness :
  lookup_in_overlay_schedule 0 [[1]; [2]; [3]] 1 1 1 20 20 = Some (Some (ActiveSlot [2])).
Proof. apply (overlay_round_robin 0 [[1]; [2]; [3]] 1 1 1 20 20); [lia..|done|lia]. Defined.
