(* ===== verification/EraHistory.v ===== *)
(** * Eras and the era history ([primitives/src/era.rs] and [consensus/src/era_history.rs])

    The hard-fork-combinator summary: a chain of era entries with slot, epoch
    and time bounds, and the conversions between slots, epochs and wall-clock
    time. [u64] operators without a check wrap, as in a release build. *)

From S2P Require Import Prelude.
Local Open Scope Z_scope.

(** ** Eras *)

Inductive Era : Type :=
| Byron | Shelley | Allegra | Mary | Alonzo | Babbage | Conway | Dijkstra.

#[global] Instance Era_eq_dec : EqDecision Era.
Proof. solve_decision. Defined.

Definition is_shelley_based (e : Era) : bool := match e with Byron => false | _ => true end.

Definition uses_tpraos (e : Era) : bool :=
  match e with Shelley | Allegra | Mary | Alonzo => true | _ => false end.

Definition from_protocol_major (major : Z) : Era :=
  if major <=? 1 then Byron
  else if major =? 2 then Shelley
  else if major =? 3 then Allegra
  else if major =? 4 then Mary
  else if major <=? 6 then Alonzo
  else if major <=? 8 then Babbage
  else if major <=? 11 then Conway
  else Dijkstra.

Definition from_era_index (index : Z) : option Era :=
  match index with
  | 0 => Some Byron
  | 1 => Some Shelley
  | 2 => Some Allegra
  | 3 => Some Mary
  | 4 => Some Alonzo
  | 5 => Some Babbage
  | 6 => Some Conway
  | 7 => Some Dijkstra
  | _ => None
  end.

Definition to_era_index (e : Era) : Z :=
  match e with
  | Byron => 0 | Shelley => 1 | Allegra => 2 | Mary => 3
  | Alonzo => 4 | Babbage => 5 | Conway => 6 | Dijkstra => 7
  end.

(** ** Bounds and entries *)

Record EraParams := mkParams {
  ep_epoch_size : Z;
  ep_slot_length_ms : Z;
  ep_safe_zone : Z;
  ep_genesis_window : Z;
}.

Record Bound := mkBound { b_time_pico : Z; b_slot : Z; b_epoch : Z }.

Definition bound_origin : Bound := mkBound 0 0 0.

Record EraSummaryEntry := mkEra {
  e_era : Era;
  e_start : Bound;
  e_end : option Bound;
  e_params : EraParams;
}.

(** [contains_slot], [contains_epoch] and [contains_time_pico]. *)
Definition contains_by (f : Bound → Z) (e : EraSummaryEntry) (x : Z) : bool :=
  if x <? f (e_start e) then false
  else match e_end e with
       | Some b => x <? f b
       | None => true
       end.

Definition contains_slot := contains_by b_slot.
Definition contains_epoch := contains_by b_epoch.
Definition contains_time_pico := contains_by b_time_pico.

(** [u128] arithmetic. *)
Definition wrap128 (x : Z) : Z := x mod 2 ^ 128.

Definition slots_pico (slots ms : Z) : Z := wrap128 (wrap128 (slots * ms) * 1000000000).

Definition compute_end_bound (e : EraSummaryEntry) (transition_epoch : Z) : Bound :=
  let epochs_in_era := (transition_epoch -w b_epoch (e_start e))%mach in
  let slots_in_era := (epochs_in_era *w ep_epoch_size (e_params e))%mach in
  let end_slot := (b_slot (e_start e) +w slots_in_era)%mach in
  let time_delta_pico := slots_pico slots_in_era (ep_slot_length_ms (e_params e)) in
  mkBound (wrap128 (b_time_pico (e_start e) + time_delta_pico)) end_slot transition_epoch.

(** ** The history *)

Abbreviation EraHistory := (list EraSummaryEntry).

Definition from_genesis (byron_params shelley_params : EraParams) (shelley_transition_epoch : Z) :
    EraHistory :=
  let byron_end :=
    if shelley_transition_epoch =? 0 then bound_origin
    else
      let slots := (shelley_transition_epoch *w ep_epoch_size byron_params)%mach in
      mkBound (slots_pico slots (ep_slot_length_ms byron_params)) slots shelley_transition_epoch in
  [mkEra Byron bound_origin (Some byron_end) byron_params;
   mkEra Shelley byron_end None shelley_params].

(** [None] is the [expect] on an empty history. *)
Fixpoint record_era_transition (h : EraHistory) (new_era : Era) (transition_epoch : Z) :
    option EraHistory :=
  match h with
  | [] => None
  | [current] =>
      let end_bound := compute_end_bound current transition_epoch in
      Some [mkEra (e_era current) (e_start current) (Some end_bound) (e_params current);
            mkEra new_era end_bound None (e_params current)]
  | e :: h' => h2 ← record_era_transition h' new_era transition_epoch; Some (e :: h2)
  end.

Definition current_era (h : EraHistory) : option Era := e_era <$> last h.

(** The messages of [PastHorizonError]; [DivisionByZero] is not an error value
    but the panic of [/] and [%] on an epoch size of zero. *)
Inductive PastHorizonError : Type :=
| BeyondHistory (x : Z)
| BeforeSystemStart
| SlotLengthZero
| DivisionByZero.

Abbreviation hresult := (result PastHorizonError).

(** [find_era_for_slot], [find_era_for_epoch] and [find_era_for_time_pico]:
    the last entry first, then in order. *)
Definition find_era_by (f : Bound → Z) (h : EraHistory) (x : Z) : hresult EraSummaryEntry :=
  let in_order :=
    match filter (λ e, contains_by f e x = true) h with
    | e :: _ => Ok e
    | [] => Err (BeyondHistory x)
    end in
  match last h with
  | Some e => if contains_by f e x then Ok e else in_order
  | None => in_order
  end.

Definition find_era_for_slot := find_era_by b_slot.
Definition find_era_for_epoch := find_era_by b_epoch.
Definition find_era_for_time_pico := find_era_by b_time_pico.

Definition slot_to_epoch (h : EraHistory) (slot : Z) : hresult (Z * Z) :=
  entry ← find_era_for_slot h slot;
  let slots_into_era := (slot -w b_slot (e_start entry))%mach in
  if ep_epoch_size (e_params entry) =? 0 then Err DivisionByZero else
  let epoch_offset := slots_into_era / ep_epoch_size (e_params entry) in
  let slot_in_epoch := slots_into_era mod ep_epoch_size (e_params entry) in
  Ok ((b_epoch (e_start entry) +w epoch_offset)%mach, slot_in_epoch).

Definition epoch_first_slot (h : EraHistory) (epoch : Z) : hresult Z :=
  entry ← find_era_for_epoch h epoch;
  let epochs_into_era := (epoch -w b_epoch (e_start entry))%mach in
  Ok (b_slot (e_start entry) +w (epochs_into_era *w ep_epoch_size (e_params entry)))%mach.

Definition epoch_size (h : EraHistory) (epoch : Z) : hresult Z :=
  entry ← find_era_for_epoch h epoch; Ok (ep_epoch_size (e_params entry)).

Definition epoch_slot_length_ms (h : EraHistory) (epoch : Z) : hresult Z :=
  entry ← find_era_for_epoch h epoch; Ok (ep_slot_length_ms (e_params entry)).

Definition era_or_last (h : EraHistory) (slot : Z) : option EraSummaryEntry :=
  match find_era_for_slot h slot with Ok e => Some e | Err _ => last h end.

Definition safe_zone_horizon_slot (h : EraHistory) (ledger_tip : Z) : option Z :=
  entry ← era_or_last h ledger_tip;
  let safe_zone := ep_safe_zone (e_params entry) in
  if safe_zone =? 0 then None else
  let era_start_slot := b_slot (e_start entry) in
  let epoch_size := ep_epoch_size (e_params entry) in
  if epoch_size =? 0 then None else
  let anchor := Z.max (ledger_tip +s 1)%mach era_start_slot in
  let raw_hi := (anchor +s safe_zone)%mach in
  let slots_from_era_start := (raw_hi -s era_start_slot)%mach in
  let q := slots_from_era_start / epoch_size in
  let r := slots_from_era_start mod epoch_size in
  let hi_epoch_offset := if r =? 0 then q else (q +w 1)%mach in
  Some (era_start_slot +s (hi_epoch_offset *w epoch_size))%mach.

Definition phase2_apply_horizon_slot (h : EraHistory) (ledger_tip : Z) : option Z :=
  unknown ← safe_zone_horizon_slot h ledger_tip;
  entry ← era_or_last h ledger_tip;
  let epoch_size := ep_epoch_size (e_params entry) in
  if epoch_size =? 0 then Some unknown else
  let era_start_slot := b_slot (e_start entry) in
  let tip_epoch_index := (ledger_tip -s era_start_slot)%mach / epoch_size in
  let known := (era_start_slot +s saturating_mul64 (tip_epoch_index +s 2) epoch_size)%mach in
  Some (Z.max unknown known).

Definition genesis_window_for_slot (h : EraHistory) (slot : Z) : hresult Z :=
  entry ← find_era_for_slot h slot; Ok (ep_genesis_window (e_params entry)).

(** [EraSummaryExport]: slot, epoch and time of the start, the end, and the
    parameters. *)
Definition to_era_summary_exports (h : EraHistory) :
    list (Z * Z * Z * option (Z * Z * Z) * (Z * Z * Z * Z)) :=
  (λ e, (b_slot (e_start e), b_epoch (e_start e), b_time_pico (e_start e),
         (λ b, (b_slot b, b_epoch b, b_time_pico b)) <$> e_end e,
         (ep_epoch_size (e_params e), ep_slot_length_ms (e_params e),
          ep_safe_zone (e_params e), ep_genesis_window (e_params e)))) <$> h.

(** ** Wall-clock time

    [chrono]: a date, a date plus seconds plus nanoseconds, and the
    milliseconds between two dates. *)
Class Chrono := {
  DateTime : Type;
  add_secs_nanos : DateTime → Z → Z → DateTime;
  millis_since : DateTime → DateTime → Z;
}.

(** For dates of the chain: whole milliseconds of a non-negative duration are
    exact, up to 10^12 seconds (the library covers 262000 years). *)
Class ChronoOk {CH : Chrono} : Prop := {
  millis_add start s n :
    0 ≤ s ≤ 10 ^ 12 → 0 ≤ n < 10 ^ 9 →
    millis_since (add_secs_nanos start s n) start = 1000 * s + n / 10 ^ 6;
}.

Section wallclock.
Context {CH : Chrono}.

(** [as i64] *)
Definition as_i64 (x : Z) : Z := (x + 2 ^ 63) mod 2 ^ 64 - 2 ^ 63.

Definition pico_to_utc (relative_pico : Z) (system_start : DateTime) : DateTime :=
  let pico_per_sec := 1000000000000 in
  let total_secs := as_i64 (relative_pico / pico_per_sec) in
  let remaining_pico := relative_pico mod pico_per_sec in
  let remaining_nanos := as_i64 (remaining_pico / 1000) in
  add_secs_nanos system_start total_secs remaining_nanos.

Definition slot_to_wallclock (h : EraHistory) (slot : Z) (system_start : DateTime) : hresult DateTime :=
  entry ← find_era_for_slot h slot;
  let slots_into_era := (slot -w b_slot (e_start entry))%mach in
  let time_delta_pico := slots_pico slots_into_era (ep_slot_length_ms (e_params entry)) in
  let relative_pico := wrap128 (b_time_pico (e_start entry) + time_delta_pico) in
  Ok (pico_to_utc relative_pico system_start).

Definition wallclock_to_slot (h : EraHistory) (time system_start : DateTime) : hresult Z :=
  let elapsed_ms := millis_since time system_start in
  if elapsed_ms <? 0 then Err BeforeSystemStart else
  let elapsed_pico := wrap128 (elapsed_ms * 1000000000) in
  entry ← find_era_for_time_pico h elapsed_pico;
  let time_into_era_pico := wrap128 (elapsed_pico - b_time_pico (e_start entry)) in
  let ms_per_slot := ep_slot_length_ms (e_params entry) in
  if ms_per_slot =? 0 then Err SlotLengthZero else
  let pico_per_slot := wrap128 (ms_per_slot * 1000000000) in
  let slots_into_era := time_into_era_pico / pico_per_slot in
  Ok (b_slot (e_start entry) +w wrap64 slots_into_era)%mach.

End wallclock.

(** ** Invariant *)

Record params_ok (p : EraParams) : Prop := {
  po_epoch : 0 < ep_epoch_size p < 2 ^ 32;
  po_ms : 0 < ep_slot_length_ms p < 2 ^ 32;
  po_zone : 0 ≤ ep_safe_zone p < 2 ^ 32;
}.

(** Bounds of a chain: no more epochs than slots, and times that a [u128] holds
    with room for one more era. *)
Record bound_ok (b : Bound) : Prop := {
  bo_slot : u64 (b_slot b);
  bo_epoch : 0 ≤ b_epoch b ≤ b_slot b;
  bo_time : 0 ≤ b_time_pico b < 2 ^ 127;
}.

(** [b] closes an era that starts at [a]. *)
Record closes (p : EraParams) (a b : Bound) : Prop := {
  cl_epoch : b_epoch a ≤ b_epoch b;
  cl_slot : b_slot b = b_slot a + (b_epoch b - b_epoch a) * ep_epoch_size p;
  cl_time : b_time_pico b = b_time_pico a + (b_slot b - b_slot a) * ep_slot_length_ms p * 10 ^ 9;
}.

(** A history that starts at [a]: each era starts where the previous one ends,
    and exactly the last one is open. *)
Fixpoint hist_from (a : Bound) (h : EraHistory) : Prop :=
  match h with
  | [] => False
  | e :: h' =>
      e_start e = a ∧ params_ok (e_params e) ∧ bound_ok a ∧
      match h' with
      | [] => e_end e = None
      | _ :: _ => ∃ b, e_end e = Some b ∧ closes (e_params e) a b ∧ hist_from b h'
      end
  end.

Definition hist_ok (h : EraHistory) : Prop := hist_from bound_origin h.

(** ** Lookup *)

(** A component of bounds that grows along a history. *)
Definition grows (f : Bound → Z) : Prop :=
  ∀ p a b, params_ok p → closes p a b → f a ≤ f b.

Lemma grows_slot : grows b_slot.
Proof. intros p a b [] []. nia. Qed.

Lemma grows_epoch : grows b_epoch.
Proof. by intros p a b _ []. Qed.

Lemma grows_time : grows b_time_pico.
Proof.
  intros p a b Hp Hc. pose proof (grows_slot p a b Hp Hc) as Hs. destruct Hp, Hc.
  assert (0 ≤ (b_slot b - b_slot a) * ep_slot_length_ms p) by nia. lia.
Qed.

Lemma contains_by_true f e x :
  contains_by f e x = true ↔
  f (e_start e) ≤ x ∧ match e_end e with Some b => x < f b | None => True end.
Proof.
  unfold contains_by. destruct (Z.ltb_spec x (f (e_start e))); [split; [done|lia]|].
  destruct (e_end e); [rewrite Z.ltb_lt|]; intuition lia.
Qed.

Lemma hist_from_starts f a h e :
  grows f → hist_from a h → e ∈ h → f a ≤ f (e_start e).
Proof.
  intros Hf. revert a. induction h as [|e0 h IH]; intros a Hh Hin; [set_solver|].
  destruct Hh as (Hs & Hp & Hb & Hr). apply elem_of_cons in Hin as [->|Hin]; [by rewrite Hs|].
  destruct h as [|e1 h]; [set_solver|]. destruct Hr as (b & He & Hc & Hh).
  pose proof (Hf _ _ _ Hp Hc). specialize (IH b Hh Hin). lia.
Qed.

(** Every value from the start on is in exactly one era, and the lookup finds
    that era. *)
Lemma find_era_by_spec f a h x :
  grows f → hist_from a h → f a ≤ x →
  ∃ e, find_era_by f h x = Ok e ∧ e ∈ h ∧ contains_by f e x = true ∧
    ∀ e', e' ∈ h → contains_by f e' x = true → e' = e.
Proof.
  intros Hf Hh Hx.
  assert (∃ e, e ∈ h ∧ contains_by f e x = true ∧
    ∀ e', e' ∈ h → contains_by f e' x = true → e' = e) as (e & Hin & Hc & Huniq).
  { revert a Hh Hx. induction h as [|e0 h IH]; intros a Hh Hx; [done|].
    destruct Hh as (Hs & Hp & Hb & Hr). destruct h as [|e1 h].
    - exists e0. split_and!; [set_solver| |set_solver].
      apply contains_by_true. rewrite Hs, Hr. done.
    - destruct Hr as (b & He & Hcl & Hh). destruct (decide (x < f b)) as [Hlt|Hge].
      + exists e0. split_and!; [set_solver|apply contains_by_true; by rewrite Hs, He|].
        intros e' [->|Hin]%elem_of_cons Hc'; [done|]. apply contains_by_true in Hc' as [Hc' _].
        pose proof (hist_from_starts f b _ e' Hf Hh Hin). lia.
      + destruct (IH b Hh) as (e & Hin & Hc & Hu); [lia|]. exists e. split_and!; [set_solver|done|].
        intros e' [->|Hin']%elem_of_cons Hc'; [|by apply Hu].
        apply contains_by_true in Hc' as [_ Hc']. rewrite He in Hc'. lia. }
  exists e. split_and!; try done. unfold find_era_by.
  assert (match filter (λ e, contains_by f e x = true) h with
          | e :: _ => Ok e
          | [] => Err (BeyondHistory x)
          end = Ok e) as Hord.
  { destruct (filter _ h) as [|e1 l] eqn:Hfil.
    - assert (e ∈ filter (λ e, contains_by f e x = true) h) as Hf' by (by apply list_elem_of_filter).
      rewrite Hfil in Hf'. set_solver.
    - assert (e1 ∈ filter (λ e, contains_by f e x = true) h) as [? ?]%list_elem_of_filter
        by (rewrite Hfil; set_solver).
      by rewrite (Huniq e1). }
  destruct (last h) as [el|] eqn:Hlast; [|done].
  destruct (contains_by f el x) eqn:Hcl; [|done].
  rewrite (Huniq el); [done| |done]. apply last_Some in Hlast as [l ->]. set_solver.
Qed.

(** Facts on an entry of a history. *)
Record entry_facts (e : EraSummaryEntry) : Prop := {
  ef_params : params_ok (e_params e);
  ef_start : bound_ok (e_start e);
  ef_end b : e_end e = Some b → closes (e_params e) (e_start e) b ∧ bound_ok b;
}.

Lemma hist_from_bound a h : hist_from a h → bound_ok a.
Proof. destruct h; [done|]. by intros (_ & _ & ? & _). Qed.

Lemma hist_entry_facts a h e : hist_from a h → e ∈ h → entry_facts e.
Proof.
  revert a. induction h as [|e0 h IH]; intros a Hh Hin; [set_solver|].
  destruct Hh as (Hs & Hp & Hb & Hr). destruct h as [|e1 h].
  - apply list_elem_of_singleton in Hin as ->. split; [done|by rewrite Hs|]. congruence.
  - destruct Hr as (b & He & Hc & Hh). apply elem_of_cons in Hin as [->|Hin]; [|by eapply IH].
    split; [done|by rewrite Hs|]. intros b' Hb'. rewrite He in Hb'. injection Hb' as <-.
    rewrite Hs. split; [done|]. by eapply hist_from_bound.
Qed.

Lemma slots_pico_small slots ms :
  0 ≤ slots * ms < 2 ^ 96 → slots_pico slots ms = slots * ms * 10 ^ 9.
Proof.
  intros H. unfold slots_pico, wrap128. rewrite (Z.mod_small (slots * ms)) by lia.
  rewrite Z.mod_small by lia. done.
Qed.

(** ** Conversions *)

(** What [slot_to_epoch] computes in an entry. *)
Definition epoch_in (e : EraSummaryEntry) (slot : Z) : Z * Z :=
  (b_epoch (e_start e) + (slot - b_slot (e_start e)) / ep_epoch_size (e_params e),
   (slot - b_slot (e_start e)) mod ep_epoch_size (e_params e)).

Lemma wrapping_sub_small x y : u64 x → 0 ≤ y ≤ x → wrapping_sub64 x y = x - y.
Proof. intros [] ?. unfold wrapping_sub64. apply wrap64_small. split; lia. Qed.

Lemma slot_to_epoch_spec h slot :
  hist_ok h → u64 slot →
  ∃ e, find_era_for_slot h slot = Ok e ∧ e ∈ h ∧ contains_slot e slot = true ∧ entry_facts e ∧
    slot_to_epoch h slot = Ok (epoch_in e slot).
Proof.
  intros Hh Hs. destruct (find_era_by_spec b_slot _ h slot grows_slot Hh) as (e & Hf & Hin & Hc & _).
  { destruct Hs. done. }
  pose proof (hist_entry_facts _ _ _ Hh Hin) as He. exists e. split_and!; try done.
  unfold slot_to_epoch, find_era_for_slot. rewrite Hf. cbn [mbind result_bind].
  apply contains_by_true in Hc as [Hlo _]. destruct He as [[He1 He2 _] [Hb1 Hb2 _] _].
  unfold u64 in *. rewrite wrapping_sub_small by (unfold u64 in *; lia).
  destruct (Z.eqb_spec (ep_epoch_size (e_params e)) 0) as [|_]; [lia|].
  set (n := slot - b_slot (e_start e)) in *. set (es := ep_epoch_size (e_params e)) in *.
  assert (0 ≤ n / es ≤ n) by (split; [apply Z.div_pos; lia|apply Z.div_le_upper_bound; nia]).
  unfold wrapping_add64. rewrite wrap64_small by (unfold u64; lia). done.
Qed.

(** The epoch of a slot is found again, and its first slot does not overflow. *)
Lemma slot_epoch_bounds e slot :
  entry_facts e → contains_slot e slot = true → u64 slot →
  let '(ep, off) := epoch_in e slot in
  0 ≤ off < ep_epoch_size (e_params e) ∧
  b_slot (e_start e) + (ep - b_epoch (e_start e)) * ep_epoch_size (e_params e) = slot - off ∧
  b_slot (e_start e) ≤ slot - off ∧ contains_epoch e ep = true ∧ 0 ≤ ep ≤ slot.
Proof.
  intros [[Hp1 _ _] [Hb1 Hb2 _] Hend] Hc Hs. apply contains_by_true in Hc as [Hlo Hhi].
  unfold epoch_in. set (n := slot - b_slot (e_start e)) in *. set (es := ep_epoch_size (e_params e)) in *.
  pose proof (Z.div_mod n es ltac:(lia)). pose proof (Z.mod_pos_bound n es ltac:(lia)).
  assert (0 ≤ n / es ≤ n) by (split; [apply Z.div_pos; lia|apply Z.div_le_upper_bound; nia]).
  split_and!; try lia. apply contains_by_true. split; [lia|].
  destruct (e_end e) as [b|] eqn:He; [|done]. destruct (Hend b eq_refl) as [[Hc1 Hc2 _] _].
  fold es in Hc2. assert (n / es < b_epoch b - b_epoch (e_start e)); [|lia].
  apply Z.div_lt_upper_bound; lia.
Qed.

(** ** Claims *)

(** Slots and epochs convert back and forth across all eras: for every
    64-bit slot, [slot_to_epoch] succeeds, the offset is below the epoch size
    of that epoch, and [epoch_first_slot] of the epoch is the slot minus the
    offset, without overflow. *)
Theorem slot_epoch_roundtrip h slot :
  hist_ok h → u64 slot →
  ∃ epoch offset size, slot_to_epoch h slot = Ok (epoch, offset) ∧
    epoch_first_slot h epoch = Ok (slot - offset) ∧
    epoch_size h epoch = Ok size ∧ 0 ≤ offset < size.
Proof.
  intros Hh Hs. destruct (slot_to_epoch_spec h slot Hh Hs) as (e & Hf & Hin & Hc & He & Hse).
  pose proof (slot_epoch_bounds e slot He Hc Hs) as Hb. destruct (epoch_in e slot) as [ep off] eqn:Hep.
  destruct Hb as ([Hoff1 Hoff2] & Hfirst & Hge & Hce & Hepr).
  destruct (find_era_by_spec b_epoch _ h ep grows_epoch Hh) as (e' & Hf' & _ & Hc' & Hu'); [simpl; lia|].
  assert (e' = e) as -> by (symmetry; by apply Hu').
  exists ep, off, (ep_epoch_size (e_params e)). split_and!; try done.
  - unfold epoch_first_slot, find_era_for_epoch. rewrite Hf'. cbn [mbind result_bind].
    apply contains_by_true in Hce as [Hlo _]. destruct He as [[Hp1 _ _] [Hb1 Hb2 _] _].
    unfold u64 in *. rewrite wrapping_sub_small by (unfold u64; lia).
    unfold wrapping_mul64. rewrite wrap64_small by (unfold u64; nia).
    unfold wrapping_add64. rewrite wrap64_small by (unfold u64; lia). by rewrite Hfirst.
  - unfold epoch_size, find_era_for_epoch. by rewrite Hf'.
Qed.

(** A mainnet history: 208 Byron epochs of 21600 slots, then Shelley. *)
Definition mainnet_byron : EraParams := mkParams 21600 20000 4320 4320.
Definition mainnet_shelley : EraParams := mkParams 432000 1000 129600 129600.
Definition mainnet_history : EraHistory := from_genesis mainnet_byron mainnet_shelley 208.

Lemma mainnet_history_ok : hist_ok mainnet_history.
Proof.
  assert (∀ b, 0 ≤ b_slot b ≤ u64_max → 0 ≤ b_epoch b ≤ b_slot b → 0 ≤ b_time_pico b < 2 ^ 127 → bound_ok b)
    as Hb by (by split).
  split; [done|]. split; [by split|]. split; [by apply Hb|].
  eexists. split; [done|]. split; [by split|].
  split; [done|]. split; [by split|]. split; [by apply Hb|done].
Qed.

Lemma slot_epoch_roundtrip_witness :
  ∃ epoch offset size, slot_to_epoch mainnet_history 4492800 = Ok (epoch, offset) ∧
    epoch_first_slot mainnet_history epoch = Ok (4492800 - offset) ∧
    epoch_size mainnet_history epoch = Ok size ∧ 0 ≤ offset < size.
Proof. apply (slot_epoch_roundtrip mainnet_history 4492800 mainnet_history_ok). split; done. Defined.

(** The genesis history satisfies the invariant of the era summary (eras
    adjacent, exactly the last one open, slot and time bounds computed from
    the epoch count), also with a zero-width Byron era. *)
Theorem from_genesis_ok byron shelley epoch :
  params_ok byron → params_ok shelley → 0 ≤ epoch → epoch * ep_epoch_size byron ≤ u64_max →
  hist_ok (from_genesis byron shelley epoch).
Proof.
  intros Hb Hs He Hmax. unfold from_genesis, hist_ok.
  set (b := if epoch =? 0 then bound_origin else _).
  assert (closes byron bound_origin b ∧ bound_ok b) as [Hc Hbo].
  { destruct Hb as [Hb1 Hb2 _]. unfold b. destruct (Z.eqb_spec epoch 0) as [->|Hne]; [by repeat split|].
    unfold wrapping_mul64. rewrite (wrap64_small (epoch * _)) by (split; [nia|done]).
    set (slots := epoch * ep_epoch_size byron) in *. unfold u64_max in *.
    assert (0 ≤ slots * ep_slot_length_ms byron < 2 ^ 96) by nia.
    rewrite slots_pico_small by lia.
    assert (epoch ≤ slots) by (unfold slots; nia).
    split; split; simpl; unfold u64, u64_max; lia. }
  split; [done|]. split; [done|]. split; [by repeat split|].
  exists b. split_and!; try done.
Qed.

Lemma from_genesis_witness : hist_ok (from_genesis mainnet_byron mainnet_shelley 0).
Proof. apply from_genesis_ok; [by split|by split|done|done]. Defined.

(** *** Transitions *)

Lemma record_app l cur era te :
  record_era_transition (l ++ [cur]) era te =
  Some (l ++ [mkEra (e_era cur) (e_start cur) (Some (compute_end_bound cur te)) (e_params cur);
              mkEra era (compute_end_bound cur te) None (e_params cur)]).
Proof.
  induction l as [|e l IH]; [done|]. cbn [app record_era_transition].
  destruct (l ++ [cur]) as [|x l'] eqn:E; [by destruct l|]. by rewrite IH.
Qed.

(** The numbers of a transition fit their types. *)
Record transition_ok (cur : EraSummaryEntry) (te : Z) : Prop := {
  to_epoch : b_epoch (e_start cur) ≤ te;
  to_slot : b_slot (e_start cur) + (te - b_epoch (e_start cur)) * ep_epoch_size (e_params cur) ≤ u64_max;
  to_time : b_time_pico (e_start cur) < 2 ^ 126;
}.

Lemma compute_end_bound_closes cur te :
  params_ok (e_params cur) → bound_ok (e_start cur) → transition_ok cur te →
  closes (e_params cur) (e_start cur) (compute_end_bound cur te) ∧ bound_ok (compute_end_bound cur te).
Proof.
  intros [[Hp1 Hp1'] [Hp2 Hp2'] _] [[Hs1 Hs2] [He1 He2] [Ht1 Ht2]] [Hte Hmax Htime].
  set (a := e_start cur) in *. set (es := ep_epoch_size (e_params cur)) in *.
  set (ms := ep_slot_length_ms (e_params cur)) in *.
  set (n := (te - b_epoch a) * es). fold n in Hmax. unfold u64_max in *.
  assert (te - b_epoch a ≤ n) as Hle by (unfold n; nia).
  assert (0 ≤ n * ms < 2 ^ 96) as Hnm by nia.
  assert (compute_end_bound cur te = mkBound (b_time_pico a + n * ms * 10 ^ 9) (b_slot a + n) te) as ->.
  { unfold compute_end_bound. fold a es ms.
    rewrite wrapping_sub_small by (unfold u64, u64_max; lia).
    unfold wrapping_mul64. fold n. rewrite (wrap64_small n) by (unfold u64, u64_max; lia).
    unfold wrapping_add64. rewrite wrap64_small by (unfold u64, u64_max; lia).
    rewrite slots_pico_small by done. unfold wrap128. rewrite Z.mod_small by lia. done. }
  split; split; unfold u64, u64_max; simpl; lia.
Qed.

Lemma hist_from_cons a e h :
  h ≠ [] →
  hist_from a (e :: h) ↔
  e_start e = a ∧ params_ok (e_params e) ∧ bound_ok a ∧
  ∃ b, e_end e = Some b ∧ closes (e_params e) a b ∧ hist_from b h.
Proof. by destruct h. Qed.

Lemma hist_from_close a l cur era te :
  hist_from a (l ++ [cur]) → transition_ok cur te →
  let b := compute_end_bound cur te in
  hist_from a (l ++ [mkEra (e_era cur) (e_start cur) (Some b) (e_params cur); mkEra era b None (e_params cur)]).
Proof.
  revert a. induction l as [|e l IH]; intros a Hh Ht b.
  - destruct Hh as (Hs & Hp & Hb & _). subst a.
    destruct (compute_end_bound_closes cur te Hp Hb Ht) as [Hc Hbo].
    split; [done|]. split; [done|]. split; [done|]. exists b. by split_and!.
  - cbn [app] in *. apply hist_from_cons in Hh as (Hs & Hp & Hb & b' & He & Hc & Hh); [|by destruct l].
    apply hist_from_cons; [by destruct l|]. split_and!; try done. exists b'. split_and!; try done. by apply IH.
Qed.

Lemma hist_last_open a l cur : hist_from a (l ++ [cur]) → e_end cur = None.
Proof.
  revert a. induction l as [|x l IH]; intros a; simpl; [tauto|].
  destruct (l ++ [cur]) eqn:E; [by destruct l|]. intros (_ & _ & _ & b' & _ & _ & H). by apply (IH b').
Qed.

(** An era that continues another one with the same parameters from an epoch
    boundary gives the same epochs. *)
Lemma epoch_in_continue cur era b slot :
  params_ok (e_params cur) → b_epoch (e_start cur) ≤ b_epoch b →
  b_slot b = b_slot (e_start cur) + (b_epoch b - b_epoch (e_start cur)) * ep_epoch_size (e_params cur) →
  epoch_in (mkEra era b None (e_params cur)) slot = epoch_in cur slot.
Proof.
  intros [[Hp _] _ _] He Hs. unfold epoch_in. simpl. rewrite Hs.
  set (es := ep_epoch_size (e_params cur)) in *. set (a := e_start cur) in *.
  replace (slot - b_slot a) with
    (slot - (b_slot a + (b_epoch b - b_epoch a) * es) + (b_epoch b - b_epoch a) * es) by lia.
  rewrite Z.div_add, Z.mod_add by lia. f_equal. lia.
Qed.

(** Recording a hard fork keeps the invariant of the history, adds one open
    era, and never changes a conversion: every slot, before and after the
    transition, keeps its epoch and offset. *)
Theorem record_era_transition_ok h cur era te :
  hist_ok h → last h = Some cur → transition_ok cur te →
  ∃ h', record_era_transition h era te = Some h' ∧ hist_ok h' ∧ current_era h' = Some era ∧
    length h' = S (length h) ∧
    ∀ slot, u64 slot → slot_to_epoch h' slot = slot_to_epoch h slot.
Proof.
  intros Hh [l ->]%last_Some Ht. rewrite record_app. eexists. split; [done|].
  pose proof (hist_from_close _ l cur era te Hh Ht) as Hh'. cbv zeta in Hh'.
  set (b := compute_end_bound cur te) in *.
  set (closed := mkEra (e_era cur) (e_start cur) (Some b) (e_params cur)) in *.
  set (new := mkEra era b None (e_params cur)) in *.
  assert (cur ∈ l ++ [cur]) as Hcur by set_solver.
  pose proof (hist_entry_facts _ _ _ Hh Hcur) as [Hp Hb _].
  destruct (compute_end_bound_closes cur te Hp Hb Ht) as [Hcl Hbo]. fold b in Hcl, Hbo.
  pose proof (grows_slot _ _ _ Hp Hcl) as Hgrow. destruct Hcl as [Hc1 Hc2 _].
  split_and!; [done|by unfold current_era; rewrite (last_app l [closed; new])|rewrite !length_app; simpl; lia|].
  intros slot Hslot.
  destruct (slot_to_epoch_spec _ slot Hh Hslot) as (e & _ & Hin & Hc & _ & ->).
  destruct (find_era_by_spec b_slot _ _ slot grows_slot Hh) as (eu & _ & _ & _ & Hu); [destruct Hslot; done|].
  destruct (slot_to_epoch_spec _ slot Hh' Hslot) as (e' & _ & Hin' & Hc' & _ & ->). f_equal.
  pose proof (Hu e Hin Hc) as ->. pose proof (hist_last_open _ _ _ Hh) as Hopen.
  rewrite elem_of_app, elem_of_cons, list_elem_of_singleton in Hin'.
  destruct Hin' as [Hl|He']; [by rewrite (Hu e') by (set_solver || done)|].
  assert (cur = eu) as <-.
  { apply Hu; [done|]. apply contains_by_true in Hc' as [Hlo _]. apply contains_by_true. rewrite Hopen.
    split; [|done]. destruct He' as [->| ->]; unfold closed, new in Hlo; cbn [e_start] in Hlo; lia. }
  destruct He' as [->| ->]; [done|]. by apply epoch_in_continue.
Qed.

Lemma record_era_transition_witness :
  ∃ h', record_era_transition mainnet_history Allegra 236 = Some h' ∧ hist_ok h' ∧
    slot_to_epoch h' 16588800 = slot_to_epoch mainnet_history 16588800.
Proof.
  destruct (record_era_transition_ok mainnet_history
    (mkEra Shelley (mkBound 89856000000000000000 4492800 208) None mainnet_shelley) Allegra 236
    mainnet_history_ok eq_refl) as (h' & H1 & H2 & _ & _ & H3); [by split|].
  exists h'. split_and!; [done|done|]. apply H3. split; done.
Defined.

(** *** Wall-clock time *)

Lemma as_i64_small x : 0 ≤ x < 2 ^ 63 → as_i64 x = x.
Proof. intros. unfold as_i64. rewrite Z.mod_small by lia. lia. Qed.

(** Era starts are whole milliseconds. *)
Lemma hist_time_millis a h e :
  hist_from a h → b_time_pico a mod 10 ^ 9 = 0 → e ∈ h → b_time_pico (e_start e) mod 10 ^ 9 = 0.
Proof.
  revert a. induction h as [|e0 h IH]; intros a Hh Ha Hin; [set_solver|].
  destruct Hh as (Hs & Hp & Hb & Hr). apply elem_of_cons in Hin as [->|Hin]; [by rewrite Hs|].
  destruct h as [|e1 h]; [set_solver|]. destruct Hr as (b & He & [_ _ Hc] & Hh).
  apply (IH b); [done| |done]. rewrite Hc, Z.mod_add by lia. done.
Qed.

(** Picoseconds since the start of an era to slots. *)
Lemma wallclock_in_era h e n :
  hist_ok h → e ∈ h → 0 ≤ n → contains_slot e (b_slot (e_start e) + n) = true →
  let rel := b_time_pico (e_start e) + n * ep_slot_length_ms (e_params e) * 10 ^ 9 in
  find_era_for_time_pico h rel = Ok e.
Proof.
  intros Hh Hin Hn Hc rel. pose proof (hist_entry_facts _ _ _ Hh Hin) as [Hp Hb He].
  destruct Hp as [_ [Hms _] _]. set (ms := ep_slot_length_ms (e_params e)) in *.
  assert (0 ≤ n * ms) by nia.
  destruct (find_era_by_spec b_time_pico _ h rel grows_time Hh) as (e' & Hf & _ & _ & Hu).
  { simpl. destruct Hb as [_ _ [? _]]. unfold rel. lia. }
  unfold find_era_for_time_pico. rewrite Hf. f_equal. symmetry. apply Hu; [done|].
  apply contains_by_true. split; [unfold rel; lia|]. apply contains_by_true in Hc as [_ Hc].
  destruct (e_end e) as [b|] eqn:Hend; [|done]. destruct (He b eq_refl) as [[_ _ Ht] _].
  fold ms in Ht. rewrite Ht. unfold rel.
  assert (n * ms < (b_slot b - b_slot (e_start e)) * ms) by nia. lia.
Qed.

(** A slot converted to wall-clock time converts back to the same slot, in
    every era, for times within 31000 years of the system start: no
    picosecond is lost on the way through seconds and nanoseconds. *)
Theorem wallclock_roundtrip {CH : Chrono} {CHOK : ChronoOk} h slot start e :
  hist_ok h → u64 slot → find_era_for_slot h slot = Ok e →
  b_time_pico (e_start e) + (slot - b_slot (e_start e)) * ep_slot_length_ms (e_params e) * 10 ^ 9 ≤ 10 ^ 24 →
  ∃ t, slot_to_wallclock h slot start = Ok t ∧ wallclock_to_slot h t start = Ok slot.
Proof.
  intros Hh Hs Hf Hmax.
  destruct (slot_to_epoch_spec h slot Hh Hs) as (e' & Hf' & Hin & Hc & [Hp Hb He] & _).
  assert (e' = e) as -> by congruence. clear Hf'. pose proof Hc as [Hlo _]%contains_by_true.
  destruct Hp as [_ [Hms1 Hms2] _]. destruct Hb as [[Hb1 Hb2] _ [Hb3 Hb4]]. destruct Hs as [Hs1 Hs2].
  pose proof (wallclock_in_era h e (slot - b_slot (e_start e)) Hh Hin) as Hfind.
  pose proof (hist_time_millis _ _ _ Hh eq_refl Hin) as Hmod0.
  set (a := e_start e) in *. set (ms := ep_slot_length_ms (e_params e)) in *.
  set (n := slot - b_slot a) in *. unfold u64_max in *.
  assert (0 ≤ n * ms < 2 ^ 96) as Hnm by nia.
  set (rel := b_time_pico a + n * ms * 10 ^ 9) in *. cbv zeta in Hfind.
  specialize (Hfind ltac:(lia)). replace (b_slot a + n) with slot in Hfind by lia. specialize (Hfind Hc).
  eexists. split.
  { unfold slot_to_wallclock. rewrite Hf. cbn [mbind result_bind]. fold a ms.
    rewrite wrapping_sub_small by (unfold u64, u64_max; lia). fold n.
    rewrite slots_pico_small by done. unfold wrap128. rewrite Z.mod_small by lia. fold rel. done. }
  unfold wallclock_to_slot, pico_to_utc.
  pose proof (Z.div_mod rel 1000000000000 ltac:(lia)) as Hdm.
  pose proof (Z.mod_pos_bound rel 1000000000000 ltac:(lia)) as Hmod.
  set (secs := rel / 1000000000000) in *. set (rem := rel mod 1000000000000) in *.
  assert (0 ≤ secs ≤ 10 ^ 12) as Hsecs by lia.
  assert (rem / 1000 < 10 ^ 9 ∧ 0 ≤ rem / 1000) as [Hn1 Hn2]
    by (split; [apply Z.div_lt_upper_bound; lia|apply Z.div_pos; lia]).
  rewrite !as_i64_small by lia. rewrite millis_add by lia.
  assert (rel mod 10 ^ 9 = 0) as Hrel by (unfold rel; by rewrite Z.mod_add by lia).
  assert ((1000 * secs + rem / 1000 / 10 ^ 6) * 1000000000 = rel) as Hel.
  { rewrite Z.div_div by lia. change (1000 * 10 ^ 6) with (10 ^ 9).
    pose proof (Z.div_mod rem (10 ^ 9) ltac:(lia)). pose proof (Z.mod_pos_bound rem (10 ^ 9) ltac:(lia)).
    pose proof (Z.div_mod rel (10 ^ 9) ltac:(lia)).
    assert (rem mod 10 ^ 9 = 0); [|lia]. symmetry. apply (Z.mod_unique_pos _ _ (rel / 10 ^ 9 - 1000 * secs)); lia. }
  rewrite Hel. destruct (Z.ltb_spec (1000 * secs + rem / 1000 / 10 ^ 6) 0); [lia|].
  unfold wrap128. rewrite (Z.mod_small rel) by lia. rewrite Hfind. cbn [mbind result_bind]. fold a ms.
  destruct (Z.eqb_spec ms 0); [lia|].
  rewrite !Z.mod_small by lia. replace (rel - b_time_pico a) with (n * (ms * 1000000000)) by lia.
  rewrite Z.div_mul by lia. unfold wrapping_add64.
  rewrite (wrap64_small n), wrap64_small by (unfold u64, u64_max; lia). f_equal. lia.
Qed.

(** Dates as nanoseconds. *)
Definition nano_chrono : Chrono := {|
  DateTime := Z;
  add_secs_nanos t s n := t + s * 10 ^ 9 + n;
  millis_since t u := (t - u) / 10 ^ 6;
|}.

Lemma nano_chrono_ok : @ChronoOk nano_chrono.
Proof.
  split. intros start s n Hs Hn. cbn [millis_since add_secs_nanos nano_chrono DateTime] in *.
  replace (start + s * 10 ^ 9 + n - start) with (n + s * 1000 * 10 ^ 6) by lia.
  rewrite Z.div_add by lia. lia.
Qed.

Lemma wallclock_roundtrip_witness :
  ∃ t, slot_to_wallclock (CH := nano_chrono) mainnet_history 5000000 1506203091000000000 = Ok t ∧
    wallclock_to_slot (CH := nano_chrono) mainnet_history t 1506203091000000000 = Ok 5000000.
Proof.
  apply (@wallclock_roundtrip nano_chrono nano_chrono_ok mainnet_history 5000000 1506203091000000000
    (mkEra Shelley (mkBound 89856000000000000000 4492800 208) None mainnet_shelley) mainnet_history_ok);
    [split; done|by vm_compute|by vm_compute].
Defined.

(** *** Horizons *)

(** The safe-zone horizon is the first epoch boundary of the tip's era at
    or after [tip + 1 + safe_zone], and the phase-2 horizon is a boundary that
    is no earlier than it nor than the start of the epoch after the next
    one. *)
Theorem safe_zone_horizon_correct h tip e :
  hist_ok h → 0 ≤ tip < 2 ^ 63 → find_era_for_slot h tip = Ok e → ep_safe_zone (e_params e) ≠ 0 →
  let start := b_slot (e_start e) in
  let size := ep_epoch_size (e_params e) in
  ∃ hz p, safe_zone_horizon_slot h tip = Some hz ∧ phase2_apply_horizon_slot h tip = Some p ∧
    (hz - start) mod size = 0 ∧ (p - start) mod size = 0 ∧
    tip + 1 + ep_safe_zone (e_params e) ≤ hz < tip + 1 + ep_safe_zone (e_params e) + size ∧
    p = Z.max hz (start + ((tip - start) / size + 2) * size).
Proof.
  intros Hh Htip Hf Hz start size.
  destruct (slot_to_epoch_spec h tip Hh) as (e' & Hf' & _ & Hc & [Hp Hb _] & _); [split; unfold u64_max; lia|].
  assert (e' = e) as -> by congruence. clear Hf'. apply contains_by_true in Hc as [Hlo _].
  destruct Hp as [[Hp1 Hp2] _ [Hp3 Hp4]]. destruct Hb as [[Hb1 Hb2] _ _].
  fold start in Hlo, Hb1, Hb2. fold size in Hp1, Hp2. set (zone := ep_safe_zone (e_params e)) in *.
  unfold u64_max in *. set (n := tip + 1 + zone - start).
  pose proof (Z.div_mod n size ltac:(lia)) as Hdm. pose proof (Z.mod_pos_bound n size Hp1) as Hmb.
  set (off := if n mod size =? 0 then n / size else n / size + 1).
  assert (0 ≤ n / size) by (apply Z.div_pos; lia).
  assert (n ≤ off * size < n + size ∧ 0 ≤ off) as [Hoff Hoff0].
  { unfold off. destruct (Z.eqb_spec (n mod size) 0); nia. }
  assert (safe_zone_horizon_slot h tip = Some (start + off * size)) as Hhz.
  { unfold safe_zone_horizon_slot, era_or_last. rewrite Hf. cbn [mbind option_bind]. fold zone start size.
    destruct (Z.eqb_spec zone 0); [lia|]. destruct (Z.eqb_spec size 0); [lia|].
    unfold saturating_add64, saturating_sub64, u64_max.
    replace (Z.max (Z.min (tip + 1) 18446744073709551615) start) with (tip + 1) by lia.
    replace (Z.max (Z.min (tip + 1 + zone) 18446744073709551615 - start) 0) with n by lia.
    unfold wrapping_add64, wrapping_mul64.
    assert (n / size ≤ n) by (apply Z.div_le_upper_bound; nia).
    rewrite (wrap64_small (n / size + 1)) by (unfold u64, u64_max; lia). fold off.
    rewrite (wrap64_small (off * size)) by (unfold u64, u64_max; lia). f_equal. lia. }
  set (idx := (tip - start) / size).
  pose proof (Z.div_mod (tip - start) size ltac:(lia)) as Hdm2. fold idx in Hdm2.
  pose proof (Z.mod_pos_bound (tip - start) size Hp1) as Hmb2.
  assert (0 ≤ idx ≤ tip - start) as Hidx
    by (split; [apply Z.div_pos; lia|apply Z.div_le_upper_bound; nia]).
  assert (0 ≤ (idx + 2) * size ≤ tip - start + 2 * size) as Hidx2 by nia.
  exists (start + off * size), (Z.max (start + off * size) (start + (idx + 2) * size)).
  split_and!; [done| | | |lia|lia|done].
  - unfold phase2_apply_horizon_slot. rewrite Hhz. cbn [mbind option_bind].
    unfold era_or_last. rewrite Hf. cbn [mbind option_bind]. fold start size.
    destruct (Z.eqb_spec size 0); [lia|].
    unfold saturating_sub64. replace (Z.max (tip - start) 0) with (tip - start) by lia. fold idx.
    unfold saturating_add64, saturating_mul64, u64_max.
    do 2 f_equal. rewrite (Z.min_l (idx + 2)) by lia. lia.
  - replace (start + off * size - start) with (off * size) by lia. apply Z.mod_mul. lia.
  - destruct (Z.max_spec (start + off * size) (start + (idx + 2) * size)) as [[_ ->]|[_ ->]].
    + replace (start + (idx + 2) * size - start) with ((idx + 2) * size) by lia. apply Z.mod_mul. lia.
    + replace (start + off * size - start) with (off * size) by lia. apply Z.mod_mul. lia.
Qed.

Lemma safe_zone_horizon_witness :
  ∃ hz p, safe_zone_horizon_slot mainnet_history 4492800 = Some hz ∧
    phase2_apply_horizon_slot mainnet_history 4492800 = Some p ∧ hz ≤ p.
Proof.
  destruct (safe_zone_horizon_correct mainnet_history 4492800
    (mkEra Shelley (mkBound 89856000000000000000 4492800 208) None mainnet_shelley) mainnet_history_ok)
    as (hz & p & H1 & H2 & _ & _ & _ & H3); [lia|by vm_compute|done|].
  exists hz, p. split_and!; [done|done|]. lia.
Defined.

(** The era index of the hard-fork combinator round trips, every index
    outside 0..7 is refused, and the protocol major versions map onto the eras
    in order. *)
Theorem era_index_roundtrip :
  (∀ e, from_era_index (to_era_index e) = Some e) ∧
  (∀ i e, from_era_index i = Some e → to_era_index e = i) ∧
  (∀ m1 m2, m1 ≤ m2 → to_era_index (from_protocol_major m1) ≤ to_era_index (from_protocol_major m2)).
Proof.
  split_and!.
  - by intros [].
  - intros i e. unfold from_era_index. destruct i as [|p|p]; [by intros [= <-]| |done].
    destruct p as [[[p|p|]|[p|p|]|]|[[p|p|]|[p|p|]|]|]; try done; by intros [= <-].
  - intros m1 m2 H. unfold from_protocol_major.
    repeat match goal with
    | |- context [if ?b then _ else _] => destruct b eqn:?
    end; simpl; lia.
Qed.
