(* ===== verification/Block.v ===== *)
(** * Points, tips and block headers ([primitives/src/block.rs], [hash.rs])

    Hashes, keys and proofs are byte strings ([list Z]); a slot and a block
    number are [u64]s. *)

From S2P Require Import Prelude Order EraHistory.
Local Open Scope Z_scope.

Definition Hash32 : Type := list Z.

(** [Hash32::ZERO], the parent hash of the first block of the chain. *)
Definition hash_zero : Hash32 := replicate 32 0.

(** ** Points *)

Inductive Point : Type :=
| Origin
| Specific (slot : Z) (hash : Hash32).

#[global] Instance Point_eq_dec : EqDecision Point.
Proof. solve_decision. Defined.

Definition denotes_origin (p : Point) : bool :=
  match p with
  | Origin => true
  | Specific slot hash => (slot =? 0) && bool_decide (hash = hash_zero)
  end.

Definition point_slot (p : Point) : option Z :=
  match p with Origin => None | Specific slot _ => Some slot end.

Definition point_hash (p : Point) : option Hash32 :=
  match p with Origin => None | Specific _ hash => Some hash end.

Definition point_cmp (p q : Point) : comparison :=
  match p, q with
  | Origin, Origin => Eq
  | Origin, _ => Lt
  | _, Origin => Gt
  | Specific s1 _, Specific s2 _ => s1 ?= s2
  end.

(** ** Headers *)

Record VrfOutput := mkVrf {
  vrf_output : list Z;
  vrf_proof : list Z;
}.

Record OperationalCert := mkOpCert {
  hot_vkey : list Z;
  sequence_number : Z;
  kes_period : Z;
  oc_sigma : list Z;
}.

Record ProtocolVersion := mkVersion {
  pv_major : Z;
  pv_minor : Z;
}.

Definition version_era (v : ProtocolVersion) : Era :=
  let m := pv_major v in
  if (m =? 0) || (m =? 1) then Byron
  else if m =? 2 then Shelley
  else if m =? 3 then Allegra
  else if m =? 4 then Mary
  else if (m =? 5) || (m =? 6) then Alonzo
  else if (m =? 7) || (m =? 8) then Babbage
  else if (9 <=? m) && (m <=? 11) then Conway
  else Dijkstra.

Record BlockHeader := mkHeader {
  header_hash : Hash32;
  prev_hash : Hash32;
  issuer_vkey : list Z;
  vrf_vkey : list Z;
  vrf_result : VrfOutput;
  block_number : Z;
  hdr_slot : Z;
  epoch_nonce : Hash32;
  body_size : Z;
  body_hash : Hash32;
  operational_cert : OperationalCert;
  protocol_version : ProtocolVersion;
  kes_signature : list Z;
  nonce_vrf_output : list Z;
  nonce_vrf_proof : list Z;
  prev_nonce : option Hash32;
  raw_header_body : option (list Z);
}.

#[global] Instance VrfOutput_eq_dec : EqDecision VrfOutput.
Proof. solve_decision. Defined.
#[global] Instance OperationalCert_eq_dec : EqDecision OperationalCert.
Proof. solve_decision. Defined.
#[global] Instance ProtocolVersion_eq_dec : EqDecision ProtocolVersion.
Proof. solve_decision. Defined.
#[global] Instance BlockHeader_eq_dec : EqDecision BlockHeader.
Proof. solve_decision. Defined.

Definition is_tpraos (h : BlockHeader) : bool :=
  (pv_major (protocol_version h) <? 7) || negb (bool_decide (nonce_vrf_proof h = [])).

(** The point of a header, [Point::Specific(h.slot, h.header_hash)]. *)
Definition header_point (h : BlockHeader) : Point := Specific (hdr_slot h) (header_hash h).

(** ** Tips *)

Record Tip := mkTip {
  tip_point : Point;
  tip_no : Z;
}.

#[global] Instance Tip_eq_dec : EqDecision Tip.
Proof. solve_decision. Defined.

Definition tip_origin : Tip := mkTip Origin 0.

(** ** Lemmas *)

Lemma version_era_from_major v :
  0 ≤ pv_major v → version_era v = from_protocol_major (pv_major v).
Proof.
  intros Hv. unfold version_era, from_protocol_major.
  generalize dependent (pv_major v). intros m Hm. cmp_cases; simpl; try done; lia.
Qed.

(** A header used by the concrete examples of the development. *)
Definition demo_header (hash prev : Hash32) (issuer vrf : list Z) (no slot seq major : Z) : BlockHeader :=
  {| header_hash := hash; prev_hash := prev; issuer_vkey := issuer; vrf_vkey := [];
     vrf_result := mkVrf vrf []; block_number := no; hdr_slot := slot;
     epoch_nonce := hash_zero; body_size := 0; body_hash := hash_zero;
     operational_cert := mkOpCert [] seq 0 []; protocol_version := mkVersion major 0;
     kes_signature := []; nonce_vrf_output := []; nonce_vrf_proof := [];
     prev_nonce := None; raw_header_body := None |}.

(** ** Transaction inputs ([primitives/src/transaction.rs]) *)

Record TransactionInput := mkInput { transaction_id : Hash32; tx_index : Z }.

#[global] Instance input_eq_dec : EqDecision TransactionInput.
Proof. solve_decision. Defined.

#[global] Instance input_countable : Countable TransactionInput.
Proof.
  refine (inj_countable' (λ i, (transaction_id i, tx_index i)) (λ p, mkInput p.1 p.2) _).
  by intros [].
Defined.
