(* ===== verification/ChainFragment.v ===== *)
(** * The anchored chain fragment ([consensus/src/chain_fragment.rs])

    The volatile part of the selected chain: an anchor point and the headers
    above it, oldest first. The mutating methods return the new fragment with
    their result. [fragment_ok] is the invariant the documentation of the type
    states; [frag_points] is the abstract value, the list of points of the
    chain from the anchor to the tip. *)

From S2P Require Import Prelude Order EraHistory Block.
Local Open Scope Z_scope.

Record ChainFragment := mkFragment {
  anchor : Point;
  headers : list BlockHeader;
}.

#[global] Instance ChainFragment_eq_dec : EqDecision ChainFragment.
Proof. solve_decision. Defined.

Definition fragment_new (a : Point) : ChainFragment := mkFragment a [].

Definition from_headers (a : Point) (hs : list BlockHeader) : ChainFragment := mkFragment a hs.

Definition frag_tip (f : ChainFragment) : Point :=
  match last (headers f) with
  | Some h => Specific (hdr_slot h) (header_hash h)
  | None => anchor f
  end.

Definition frag_length (f : ChainFragment) : nat := length (headers f).

Definition frag_is_empty (f : ChainFragment) : bool :=
  match headers f with [] => true | _ => false end.

Definition tip_block_no (f : ChainFragment) : Z :=
  match last (headers f) with Some h => block_number h | None => 0 end.

Definition oldest_header (f : ChainFragment) : option BlockHeader := head (headers f).

Definition pop_oldest (f : ChainFragment) : option BlockHeader * ChainFragment :=
  match headers f with
  | [] => (None, f)
  | h :: hs => (Some h, mkFragment (anchor f) hs)
  end.

Definition frag_push (h : BlockHeader) (f : ChainFragment) : ChainFragment :=
  mkFragment (anchor f) (headers f ++ [h]).

(** [Iterator::rposition]: the index of the last element that satisfies [p]. *)
Fixpoint rposition {A} (p : A → bool) (l : list A) : option nat :=
  match l with
  | [] => None
  | x :: l' =>
      match rposition p l' with
      | Some i => Some (S i)
      | None => if p x then Some 0%nat else None
      end
  end.

Definition header_is (slot : Z) (hash : Hash32) (h : BlockHeader) : bool :=
  (hdr_slot h =? slot) && bool_decide (header_hash h = hash).

Definition rollback_to (point : Point) (f : ChainFragment) : bool * ChainFragment :=
  if bool_decide (point = anchor f) then (true, mkFragment (anchor f) [])
  else
    match point with
    | Origin =>
        if bool_decide (anchor f = Origin) then (true, mkFragment (anchor f) []) else (false, f)
    | Specific slot hash =>
        match rposition (header_is slot hash) (headers f) with
        | Some idx => (true, mkFragment (anchor f) (take (S idx) (headers f)))
        | None => (false, f)
        end
    end.

(** The [while let] loop of [advance_anchor]: the headers left, and how many
    were removed. *)
Fixpoint pop_until (new_slot : Z) (hs : list BlockHeader) (removed : nat)
  : list BlockHeader * nat :=
  match hs with
  | [] => ([], removed)
  | front :: hs' =>
      if hdr_slot front <=? new_slot then pop_until new_slot hs' (S removed) else (hs, removed)
  end.

Definition advance_anchor (new_anchor : Point) (f : ChainFragment) : nat * ChainFragment :=
  match new_anchor with
  | Origin => (0%nat, mkFragment new_anchor (headers f))
  | Specific new_slot _ =>
      let '(hs, removed) := pop_until new_slot (headers f) 0 in
      (removed, mkFragment new_anchor hs)
  end.

Definition contains_point (f : ChainFragment) (point : Point) : bool :=
  if bool_decide (point = anchor f) then true
  else
    match point with
    | Origin => bool_decide (anchor f = Origin)
    | Specific slot hash => existsb (header_is slot hash) (headers f)
    end.

Fixpoint find_intersect (f : ChainFragment) (points : list Point) : option Point :=
  match points with
  | [] => None
  | point :: rest => if contains_point f point then Some point else find_intersect f rest
  end.

(** ** The abstract chain and the invariant *)

Definition frag_points (f : ChainFragment) : list Point :=
  anchor f :: (header_point <$> headers f).

(** The hash the first header must name as its parent. *)
Definition link_hash (p : Point) : Hash32 :=
  match p with Origin => hash_zero | Specific _ hash => hash end.

(** [extends (hash, slot, no) hs]: an unbroken chain of headers above a block,
    with increasing slots and block numbers. *)
Fixpoint extends (hash : Hash32) (slot no : Z) (hs : list BlockHeader) : Prop :=
  match hs with
  | [] => True
  | h :: hs' =>
      prev_hash h = hash ∧ slot < hdr_slot h ∧ no < block_number h ∧
      extends (header_hash h) (hdr_slot h) (block_number h) hs'
  end.

Definition anchor_slot (p : Point) : Z := default (-1) (point_slot p).

(** The block number of the anchor is not part of the fragment: the invariant
    says some number below the first header's fits. *)
Definition fragment_ok (f : ChainFragment) : Prop :=
  ∃ no, extends (link_hash (anchor f)) (anchor_slot (anchor f)) no (headers f).

(** ** Lemmas *)

Lemma header_is_spec slot hash h :
  header_is slot hash h = true ↔ header_point h = Specific slot hash.
Proof.
  unfold header_is, header_point. rewrite andb_true_iff, Z.eqb_eq, bool_decide_eq_true.
  naive_solver.
Qed.

Lemma rposition_None {A} (p : A → bool) l :
  rposition p l = None ↔ ∀ x, x ∈ l → p x = false.
Proof.
  induction l as [|x l IH]; simpl.
  { split; [|done]. by intros _ x ?%elem_of_nil. }
  setoid_rewrite elem_of_cons. destruct (rposition p l) as [k|].
  - split; [done|]. intros H. enough (Some k = None) by done. apply IH. naive_solver.
  - destruct (p x) eqn:Ex.
    + split; [done|]. intros H. rewrite H in Ex; [done|by left].
    + split; [|done]. intros _ y [->|Hy]; [done|]. by apply IH.
Qed.

Lemma rposition_Some {A} (p : A → bool) l i :
  rposition p l = Some i →
  ∃ l1 x l2, l = l1 ++ x :: l2 ∧ length l1 = i ∧ p x = true ∧ ∀ y, y ∈ l2 → p y = false.
Proof.
  revert i. induction l as [|x l IH]; intros i; simpl; [done|].
  destruct (rposition p l) as [k|] eqn:E.
  - intros [= <-]. destruct (IH k eq_refl) as (l1 & y & l2 & -> & <- & Hy & Hl2).
    by exists (x :: l1), y, l2.
  - destruct (p x) eqn:Ex; [|done]. intros [= <-].
    exists [], x, l. by rewrite <- rposition_None.
Qed.

Lemma existsb_rposition {A} (p : A → bool) l :
  existsb p l = bool_decide (is_Some (rposition p l)).
Proof.
  apply eq_bool_prop_intro. rewrite bool_decide_spec, Is_true_true, existsb_exists.
  destruct (rposition p l) as [i|] eqn:E.
  - apply rposition_Some in E as (l1 & x & l2 & -> & _ & Hx & _).
    split; [by eexists|]. intros _. exists x. split; [|done]. apply in_app_iff. naive_solver.
  - split; [|by intros [? ?]]. intros (x & Hx & Hp). rewrite rposition_None in E.
    rewrite E in Hp; [done|]. by apply list_elem_of_In.
Qed.

Lemma frag_tip_last f : last (frag_points f) = Some (frag_tip f).
Proof.
  unfold frag_points, frag_tip. destruct f as [a hs]; simpl.
  destruct (last hs) as [h|] eqn:E.
  - apply last_Some in E as [hs' ->]. rewrite fmap_app, app_comm_cons. apply last_snoc.
  - by apply last_None in E as ->.
Qed.

(** [contains_point] is membership in the abstract chain. *)
Lemma contains_point_spec f p : contains_point f p = true ↔ p ∈ frag_points f.
Proof.
  unfold contains_point, frag_points. case_bool_decide as Ha; [set_solver|].
  rewrite elem_of_cons, list_elem_of_fmap. destruct p as [|slot hash].
  - rewrite bool_decide_eq_true. unfold header_point. naive_solver.
  - rewrite existsb_exists. setoid_rewrite <- list_elem_of_In.
    setoid_rewrite header_is_spec. naive_solver.
Qed.

Lemma rollback_contains p f : (rollback_to p f).1 = contains_point f p.
Proof.
  unfold rollback_to, contains_point. case_bool_decide; [done|].
  destruct p as [|slot hash]; [by case_bool_decide|].
  rewrite existsb_rposition. by destruct (rposition _ _).
Qed.

Lemma rollback_false p f : contains_point f p = false → rollback_to p f = (false, f).
Proof.
  rewrite <- rollback_contains. unfold rollback_to.
  repeat case_match; naive_solver.
Qed.

(** What a successful rollback keeps and drops. *)
Lemma rollback_true p f :
  contains_point f p = true →
  ∃ kept dropped,
    headers f = kept ++ dropped ∧
    rollback_to p f = (true, mkFragment (anchor f) kept) ∧
    frag_tip (mkFragment (anchor f) kept) = p.
Proof.
  unfold contains_point, rollback_to. case_bool_decide as Ha.
  { intros _. by exists [], (headers f). }
  destruct p as [|slot hash].
  { rewrite bool_decide_eq_true. congruence. }
  rewrite existsb_rposition, bool_decide_eq_true. intros [i Hi]. rewrite Hi.
  apply rposition_Some in Hi as (l1 & x & l2 & Hf & Hl & Hx & _).
  exists (l1 ++ [x]), l2. apply header_is_spec in Hx. split_and!.
  - by rewrite Hf, <- app_assoc.
  - do 2 f_equal. rewrite Hf, cons_middle, app_assoc, take_app_length' ; [done|].
    rewrite length_app; simpl; lia.
  - unfold frag_tip; simpl. by rewrite last_snoc.
Qed.

Lemma extends_app hash slot no hs1 hs2 :
  extends hash slot no (hs1 ++ hs2) ↔
  extends hash slot no hs1 ∧
  match last hs1 with
  | None => extends hash slot no hs2
  | Some h => extends (header_hash h) (hdr_slot h) (block_number h) hs2
  end.
Proof.
  revert hash slot no. induction hs1 as [|h hs1 IH]; intros; simpl; [tauto|].
  rewrite IH. destruct hs1 as [|h' hs1]; simpl; [tauto|].
  destruct (last (h' :: hs1)) eqn:E; [tauto|]. by apply last_None in E.
Qed.

Lemma extends_slots hash slot no hs h :
  extends hash slot no hs → h ∈ hs → slot < hdr_slot h ∧ no < block_number h.
Proof.
  revert hash slot no. induction hs as [|h' hs IH]; intros hash slot no; simpl.
  { by intros _ ?%elem_of_nil. }
  intros (_ & Hs & Hn & He) [->|Hh]%elem_of_cons; [done|].
  destruct (IH _ _ _ He Hh). lia.
Qed.

(** In a chain the last header of a prefix has the largest slot of it. *)
Lemma extends_last_max hash slot no hs h :
  extends hash slot no hs → h ∈ hs → ∃ l, last hs = Some l ∧ hdr_slot h ≤ hdr_slot l.
Proof.
  revert hash slot no h. induction hs as [|h' hs IH]; intros hash slot no h; simpl.
  { by intros _ ?%elem_of_nil. }
  intros (_ & Hs & Hn & He) Hh. destruct hs as [|h2 hs].
  { apply list_elem_of_singleton in Hh as ->. exists h'. split; [done|lia]. }
  apply elem_of_cons in Hh as [->|Hh].
  - destruct (IH _ _ _ _ He (list_elem_of_here _ _)) as (l & Hl & Hle).
    exists l. split; [done|]. simpl in He. lia.
  - destruct (IH _ _ _ _ He Hh) as (l & Hl & Hle). exists l. done.
Qed.

Lemma anchor_slot_tip a hs h :
  last hs = Some h → anchor_slot (frag_tip (mkFragment a hs)) = hdr_slot h.
Proof. intros Hl. unfold frag_tip; simpl. by rewrite Hl. Qed.

(** The two halves of a chain split at the tip of the first. *)
Lemma extends_split a no kept dropped h :
  extends (link_hash a) (anchor_slot a) no (kept ++ dropped) →
  (h ∈ dropped → anchor_slot (frag_tip (mkFragment a kept)) < hdr_slot h) ∧
  (h ∈ kept → hdr_slot h ≤ anchor_slot (frag_tip (mkFragment a kept))).
Proof.
  rewrite extends_app. intros [Hk Hd]. split; intros Hh.
  - destruct (last kept) as [l|] eqn:E.
    + rewrite (anchor_slot_tip _ _ l E). by eapply extends_slots.
    + apply last_None in E as ->. by eapply extends_slots.
  - destruct (extends_last_max _ _ _ _ _ Hk Hh) as (l & Hl & Hle).
    by rewrite (anchor_slot_tip _ _ l Hl).
Qed.

(** The headers above any point of a chain are a chain above that point. *)
Lemma fragment_ok_suffix a kept rest :
  fragment_ok (mkFragment a (kept ++ rest)) →
  fragment_ok (mkFragment (frag_tip (mkFragment a kept)) rest).
Proof.
  intros [no H]. simpl in H. apply extends_app in H as [_ H]. unfold frag_tip; simpl.
  destruct (last kept) as [l|]; [|by exists no]. exists (block_number l). done.
Qed.

Lemma fragment_ok_prefix a kept rest :
  fragment_ok (mkFragment a (kept ++ rest)) → fragment_ok (mkFragment a kept).
Proof. intros [no H]. exists no. simpl in *. by apply extends_app in H as [? _]. Qed.

Lemma pop_until_split slot gone rest removed :
  (∀ h, h ∈ gone → hdr_slot h ≤ slot) → (∀ h, h ∈ rest → slot < hdr_slot h) →
  pop_until slot (gone ++ rest) removed = (rest, (removed + length gone)%nat).
Proof.
  revert removed. induction gone as [|h gone IH]; intros removed Hg Hr; simpl.
  - rewrite Nat.add_0_r. destruct rest as [|h rest]; [done|]. simpl.
    specialize (Hr h (list_elem_of_here _ _)). by destruct (Z.leb_spec (hdr_slot h) slot); [lia|].
  - pose proof (Hg h (list_elem_of_here _ _)). destruct (Z.leb_spec (hdr_slot h) slot); [|lia].
    rewrite IH; [f_equal; lia| |done]. intros h' Hh. apply Hg. by right.
Qed.

Lemma rollback_ok p f : fragment_ok f → fragment_ok (rollback_to p f).2.
Proof.
  intros H. destruct (contains_point f p) eqn:Hc.
  - destruct (rollback_true p f Hc) as (kept & dropped & Hf & -> & _).
    destruct f as [a hs]; simpl in *. subst hs. by eapply fragment_ok_prefix.
  - by rewrite rollback_false.
Qed.

(** What moving the anchor to a point of the fragment removes. *)
Lemma advance_true p f :
  fragment_ok f → contains_point f p = true →
  ∃ gone rest,
    headers f = gone ++ rest ∧ frag_tip (mkFragment (anchor f) gone) = p ∧
    advance_anchor p f = (length gone, mkFragment p rest).
Proof.
  intros [no H] Hp. destruct (rollback_true p f Hp) as (gone & rest & Hf & _ & Ht).
  exists gone, rest. split_and!; [done..|]. rewrite Hf in H. destruct f as [a hs]; simpl in *.
  subst hs. destruct p as [|slot hash]; simpl.
  - destruct (last gone) as [l|] eqn:E.
    + unfold frag_tip in Ht; simpl in Ht. by rewrite E in Ht.
    + by apply last_None in E as ->.
  - rewrite pop_until_split; [done| |];
      intros h Hh; apply (extends_split _ _ _ _ h H) in Hh; by rewrite Ht in Hh.
Qed.

(** ** Theorems *)

(** [rollback_to] succeeds exactly for the points of the fragment
    ([contains_point], the anchor or a header's point). On a well-formed
    fragment a successful rollback makes the point the tip, keeps exactly the
    headers whose slot is not after it, in order, leaves the anchor alone and
    keeps the invariant; a failed one returns the fragment unchanged. *)
Theorem rollback_to_correct f p (H : fragment_ok f) :
  let '(ok, f') := rollback_to p f in
  (ok = true ↔ p ∈ frag_points f) ∧
  (ok = false → f' = f) ∧
  (ok = true →
     frag_tip f' = p ∧ anchor f' = anchor f ∧ fragment_ok f' ∧
     headers f' = filter (λ h, hdr_slot h ≤ anchor_slot p) (headers f)).
Proof.
  pose proof (contains_point_spec f p) as Hp. destruct (contains_point f p) eqn:Hc.
  2:{ rewrite rollback_false by done. naive_solver. }
  destruct (rollback_true p f Hc) as (kept & dropped & Hf & -> & Ht).
  split_and!; [tauto|done|]. intros _. destruct f as [a hs]; simpl in *. subst hs.
  split_and!; [done|done|by eapply fragment_ok_prefix|].
  destruct H as [no H]. simpl in H. symmetry. apply filter_split; intros h Hh; subst p.
  - by apply (extends_split _ _ _ _ h H).
  - apply (extends_split _ _ _ _ h H) in Hh. lia.
Qed.

(** Moving the anchor up to a point of a well-formed fragment removes from
    the front exactly the headers up to that point, reports their number,
    leaves the tip where it was and keeps the invariant: what
    copy-to-immutable relies on. *)
Theorem advance_anchor_correct f p (H : fragment_ok f) (Hp : contains_point f p = true) :
  let '(removed, f') := advance_anchor p f in
  ∃ gone, headers f = gone ++ headers f' ∧ length gone = removed ∧
    frag_tip (mkFragment (anchor f) gone) = p ∧
    anchor f' = p ∧ frag_tip f' = frag_tip f ∧ fragment_ok f'.
Proof.
  destruct (advance_true p f H Hp) as (gone & rest & Hf & Ht & ->).
  destruct f as [a hs]; simpl in *. subst hs p. exists gone. split_and!; [done..| |].
  - unfold frag_tip; simpl. rewrite last_app. by destruct (last rest).
  - by apply fragment_ok_suffix.
Qed.

(** [find_intersect] answers with the first of the peer's points that is on
    the fragment, and with nothing only when none is. *)
Theorem find_intersect_first f points :
  match find_intersect f points with
  | Some p => ∃ before after,
      points = before ++ p :: after ∧ p ∈ frag_points f ∧ (∀ q, q ∈ before → q ∉ frag_points f)
  | None => ∀ q, q ∈ points → q ∉ frag_points f
  end.
Proof.
  induction points as [|p points IH]; simpl; [set_solver|].
  destruct (contains_point f p) eqn:Hc.
  { apply contains_point_spec in Hc. exists [], points. set_solver. }
  assert (p ∉ frag_points f) as Hp by (rewrite <- contains_point_spec; congruence).
  destruct (find_intersect f points) as [q|].
  - destruct IH as (before & after & -> & Hq & Hb). exists (p :: before), after. set_solver.
  - set_solver.
Qed.

(** *** Reachable fragments *)

(** The obligation the documentation of [push] puts on its caller. *)
Definition extends_tip (f : ChainFragment) (h : BlockHeader) : Prop :=
  prev_hash h = link_hash (frag_tip f) ∧ anchor_slot (frag_tip f) < hdr_slot h ∧
  ∀ l, last (headers f) = Some l → block_number l < block_number h.

(** One mutation of the fragment by its owner: headers are pushed when they
    extend the tip, any rollback may be asked for, and the anchor moves to a
    point of the fragment (after [pop_oldest] too, to the popped header). *)
Inductive frag_step : ChainFragment → ChainFragment → Prop :=
| step_push f h : extends_tip f h → frag_step f (frag_push h f)
| step_rollback f p : frag_step f (rollback_to p f).2
| step_advance f p : contains_point f p = true → frag_step f (advance_anchor p f).2
| step_promote f h f' :
    pop_oldest f = (Some h, f') → frag_step f (mkFragment (header_point h) (headers f')).

Lemma frag_push_ok f h : fragment_ok f → extends_tip f h → fragment_ok (frag_push h f).
Proof.
  intros [no H] (Hp & Hs & Hn). destruct f as [a hs]; simpl in *.
  unfold frag_tip in Hp, Hs; simpl in Hp, Hs.
  destruct (last hs) as [l|] eqn:E.
  - exists no. simpl. apply extends_app. rewrite E. simpl in *. auto 10.
  - apply last_None in E as ->. exists (block_number h - 1). simpl in *. auto 10 with lia.
Qed.

Lemma frag_step_ok f f' : frag_step f f' → fragment_ok f → fragment_ok f'.
Proof.
  destruct 1 as [f h Hh|f p|f p Hc|f h f' Hpop]; intros Hok.
  - by apply frag_push_ok.
  - by apply rollback_ok.
  - destruct (advance_true p f Hok Hc) as (gone & rest & Hf & <- & ->).
    destruct f as [a hs]; simpl in *. subst hs. by apply fragment_ok_suffix.
  - unfold pop_oldest in Hpop. destruct f as [a [|h0 hs]]; simplify_eq/=. by apply (fragment_ok_suffix a [h] hs).
Qed.

(** Every fragment the owner can reach from an empty one, by pushing
    headers that extend the tip, rolling back to arbitrary points, moving the
    anchor up the fragment and promoting the oldest header, satisfies the
    documented invariants: parent hashes link every header down to the anchor,
    and slots and block numbers strictly increase. *)
Theorem fragment_reachable_ok a f (H : rtc frag_step (fragment_new a) f) : fragment_ok f.
Proof.
  remember (fragment_new a) as f0 eqn:E.
  assert (fragment_ok f0) as H0 by (subst; by exists 0).
  clear E. induction H; [done|]. eauto using frag_step_ok.
Qed.

(** ** Witnesses *)

Definition demo_hash (n : Z) : Hash32 := replicate 32 n.

Definition demo_chain : list BlockHeader :=
  [demo_header (demo_hash 1) hash_zero [1] [5] 1 10 0 9;
   demo_header (demo_hash 2) (demo_hash 1) [2] [4] 2 20 0 9;
   demo_header (demo_hash 3) (demo_hash 2) [1] [7] 3 35 0 9].

Lemma demo_chain_ok : fragment_ok (mkFragment Origin demo_chain).
Proof. exists 0. vm_compute. naive_solver. Qed.

Lemma rollback_to_witness :
  (rollback_to (Specific 20 (demo_hash 2)) (mkFragment Origin demo_chain)).1 = true ∧
  frag_tip (rollback_to (Specific 20 (demo_hash 2)) (mkFragment Origin demo_chain)).2
  = Specific 20 (demo_hash 2).
Proof.
  split; [by vm_compute|].
  pose proof (rollback_to_correct _ (Specific 20 (demo_hash 2)) demo_chain_ok) as H.
  destruct (rollback_to _ _) as [ok f'] eqn:E. apply H. by injection E as <- _.
Defined.

Lemma advance_anchor_witness :
  frag_tip (advance_anchor (Specific 20 (demo_hash 2)) (mkFragment Origin demo_chain)).2
  = Specific 35 (demo_hash 3).
Proof.
  pose proof (advance_anchor_correct _ (Specific 20 (demo_hash 2)) demo_chain_ok
                ltac:(by vm_compute)) as H.
  destruct (advance_anchor _ _) as [n f'].
  destruct H as (gone & _ & _ & _ & _ & H & _). simpl. by rewrite H.
Defined.

Lemma fragment_reachable_witness :
  fragment_ok (frag_push (demo_header (demo_hash 1) hash_zero [1] [5] 1 10 0 9) (fragment_new Origin)).
Proof.
  apply (fragment_reachable_ok Origin). eapply rtc_l; [|apply rtc_refl].
  apply step_push. by vm_compute.
Defined.
