(* ===== verification/ChainSelection.v ===== *)
(** * Chain selection ([consensus/src/chain_selection.rs])

    - [ChainSelection]: preference between tips (Byron density, Praos length,
      opcert and VRF tiebreaks), [chain_preference] between fragments.
    - [DensityWindow], [GenesisDensityComparator]: the Ouroboros Genesis
      density rule.
    - [maximal_candidates]: the maximal fork paths through the volatile blocks,
      against the interface [SuccessorProvider].

    [blake2b_224] (a third-party hash) is a parameter. *)

From S2P Require Import Prelude Order EraHistory Block ChainFragment.
Local Open Scope Z_scope.

Inductive ChainPreference : Type := PreferCurrent | PreferCandidate | PrefEqual.

#[global] Instance ChainPreference_eq_dec : EqDecision ChainPreference.
Proof. solve_decision. Defined.

(** ** Comparing two numbers, the candidate's against the current's *)

(** [if candidate > current {PreferCandidate} else if candidate < current
    {PreferCurrent} else {Equal}], the shape shared by the length, density and
    opcert comparisons. *)
Definition prefer_more (current candidate : Z) : ChainPreference :=
  if current <? candidate then PreferCandidate
  else if candidate <? current then PreferCurrent
  else PrefEqual.

(** ** [ChainSelection] *)

Record ChainSelection := mkSelection { current_tip : Tip }.

Definition selection_new : ChainSelection := mkSelection tip_origin.

Definition set_tip (tip : Tip) (s : ChainSelection) : ChainSelection := mkSelection tip.

Definition compare_length (s : ChainSelection) (candidate : Tip) : ChainPreference :=
  prefer_more (tip_no (current_tip s)) (tip_no candidate).

(** [point.slot().map(|s| s.0).unwrap_or(0)] *)
Definition slot_or_zero (p : Point) : Z := default 0 (point_slot p).

(** The [u128] product of two [u64]s. *)
Definition mul_u128 (x y : Z) : Z := wrap128 (x * y).

Definition compare_density (s : ChainSelection) (candidate : Tip) : ChainPreference :=
  let current_slot := slot_or_zero (tip_point (current_tip s)) in
  let candidate_slot := slot_or_zero (tip_point candidate) in
  let current_blocks := tip_no (current_tip s) in
  let candidate_blocks := tip_no candidate in
  if (current_slot =? 0) && (candidate_slot =? 0) then compare_length s candidate
  else
    let lhs := mul_u128 candidate_blocks current_slot in
    let rhs := mul_u128 current_blocks candidate_slot in
    prefer_more rhs lhs.

(** The origin cases the three preference functions share. *)
Definition prefer_points (current candidate : Point) (otherwise : ChainPreference) : ChainPreference :=
  match current, candidate with
  | Origin, Origin => PrefEqual
  | Origin, _ => PreferCandidate
  | _, Origin => PreferCurrent
  | _, _ => otherwise
  end.

Definition prefer (s : ChainSelection) (candidate : Tip) : ChainPreference :=
  prefer_points (tip_point (current_tip s)) (tip_point candidate)
    (prefer_more (tip_no (current_tip s)) (tip_no candidate)).

Definition prefer_chain (s : ChainSelection) (candidate : Tip) (era : Era) : ChainPreference :=
  prefer_points (tip_point (current_tip s)) (tip_point candidate)
    (if bool_decide (era = Byron) then compare_density s candidate
     else compare_length s candidate).

Definition prefers_candidate (p : ChainPreference) : bool :=
  match p with PreferCandidate => true | _ => false end.

Definition should_switch (s : ChainSelection) (candidate : Tip) : bool :=
  prefers_candidate (prefer s candidate).

Definition should_switch_chain (s : ChainSelection) (candidate : Tip) (era : Era) : bool :=
  prefers_candidate (prefer_chain s candidate era).

Definition vrf_tiebreak (current_vrf candidate_vrf : list Z) : ChainPreference :=
  match slice_cmp candidate_vrf current_vrf with
  | Lt => PreferCandidate
  | Gt => PreferCurrent
  | Eq => PrefEqual
  end.

Definition is_conway (era : Era) : bool :=
  match era with Conway | Dijkstra => true | _ => false end.

Section tiebreak.
  Context (blake2b_224 : list Z → list Z).

Definition praos_tiebreak (current candidate : BlockHeader) (era : Era) (slot_window : Z)
  : ChainPreference :=
  let current_pool := blake2b_224 (issuer_vkey current) in
  let candidate_pool := blake2b_224 (issuer_vkey candidate) in
  if bool_decide (current_pool = candidate_pool) && (hdr_slot current =? hdr_slot candidate) then
    prefer_more (sequence_number (operational_cert current))
                (sequence_number (operational_cert candidate))
  else
    let apply_vrf_comparison :=
      if is_conway era then abs_diff64 (hdr_slot current) (hdr_slot candidate) <=? slot_window
      else true in
    if apply_vrf_comparison then
      vrf_tiebreak (vrf_output (vrf_result current)) (vrf_output (vrf_result candidate))
    else PreferCurrent.

Definition prefer_chain_with_headers (s : ChainSelection) (candidate : Tip)
    (current_header candidate_header : BlockHeader) (era : Era) (slot_window : Z)
  : ChainPreference :=
  prefer_points (tip_point (current_tip s)) (tip_point candidate)
    (let primary :=
       if bool_decide (era = Byron) then compare_density s candidate
       else compare_length s candidate in
     match primary with
     | PrefEqual =>
         if bool_decide (era = Byron) then PrefEqual
         else praos_tiebreak current_header candidate_header era slot_window
     | other => other
     end).

Definition should_switch_chain_with_headers (s : ChainSelection) (candidate : Tip)
    (current_header candidate_header : BlockHeader) (era : Era) (slot_window : Z) : bool :=
  prefers_candidate
    (prefer_chain_with_headers s candidate current_header candidate_header era slot_window).

Definition chain_preference (current candidate : ChainFragment) (slot_window : Z)
  : ChainPreference :=
  match tip_block_no candidate ?= tip_block_no current with
  | Gt => PreferCandidate
  | Lt => PreferCurrent
  | Eq =>
      match last (headers current), last (headers candidate) with
      | Some cur, Some cand =>
          praos_tiebreak cur cand (version_era (protocol_version cur)) slot_window
      | _, _ => PrefEqual
      end
  end.

End tiebreak.

(** ** The density window *)

Record DensityWindow := mkWindow {
  intersection_slot : Z;
  window_size : Z;
  win_slots : list Z;
}.

Definition window_new (intersection size : Z) : DensityWindow := mkWindow intersection size [].

Definition end_slot (w : DensityWindow) : Z :=
  saturating_add64 (intersection_slot w) (window_size w).

(** [Vec::insert] at an index within the bounds *)
Definition vec_insert {A} (pos : nat) (x : A) (l : list A) : list A :=
  take pos l ++ x :: drop pos l.

Definition record_block (slot : Z) (w : DensityWindow) : bool * DensityWindow :=
  if (intersection_slot w <? slot) && (slot <=? end_slot w) then
    let pos := partition_point (λ s, (s <? slot)%Z) (win_slots w) in
    (true, mkWindow (intersection_slot w) (window_size w) (vec_insert pos slot (win_slots w)))
  else (false, w).

Definition block_count (w : DensityWindow) : Z := Z.of_nat (length (win_slots w)).

Definition is_closed (w : DensityWindow) (current_tip_slot : Z) : bool :=
  end_slot w <? current_tip_slot.

Definition window_reset (intersection : Z) (w : DensityWindow) : DensityWindow :=
  mkWindow intersection (window_size w) [].

Definition blocks_before (w : DensityWindow) (slot : Z) : Z :=
  Z.of_nat (partition_point (λ s, (s <? slot)%Z) (win_slots w)).

Definition has_block_at_or_after (w : DensityWindow) (slot : Z) : bool :=
  (partition_point (λ s, (s <? slot)%Z) (win_slots w) <? length (win_slots w))%nat.

Definition head_slot (w : DensityWindow) : option Z := last (win_slots w).

Definition total_block_count (w : DensityWindow) : Z := Z.of_nat (length (win_slots w)).

(** ** The genesis density comparator *)

Record CsjDissent := mkDissent {
  objector_blocks : Z;
  dynamo_blocks : Z;
}.

Definition dynamo_wins (d : CsjDissent) : bool := objector_blocks d <=? dynamo_blocks d.

Record GenesisDensityComparator := mkComparator { cmp_window_size : Z }.

Definition length_comparison (current candidate : Tip) : ChainPreference :=
  prefer_more (tip_no current) (tip_no candidate).

Definition density_then_length (current_in_window candidate_in_window : Z)
    (current candidate : Tip) : ChainPreference :=
  match candidate_in_window ?= current_in_window with
  | Gt => PreferCandidate
  | Lt => PreferCurrent
  | Eq => length_comparison current candidate
  end.

Definition genesis_compare (c : GenesisDensityComparator) (intersection : Z)
    (current_blocks candidate_blocks : Z) (candidate_tip current_praos_tip : Tip)
  : ChainPreference :=
  let window_end := saturating_add64 intersection (cmp_window_size c) in
  let candidate_slot := slot_or_zero (tip_point candidate_tip) in
  let current_slot := slot_or_zero (tip_point current_praos_tip) in
  if (candidate_slot <=? intersection) && (current_slot <=? intersection) then PrefEqual
  else if (window_end <? current_slot) && (window_end <? candidate_slot) then
    density_then_length current_blocks candidate_blocks current_praos_tip candidate_tip
  else
    let current_observed := Z.min (saturating_sub64 current_slot intersection) (cmp_window_size c) in
    let candidate_observed :=
      Z.min (saturating_sub64 candidate_slot intersection) (cmp_window_size c) in
    if (current_observed =? 0) && (candidate_observed =? 0) then PrefEqual
    else
      let lhs := mul_u128 candidate_blocks current_observed in
      let rhs := mul_u128 current_blocks candidate_observed in
      match lhs ?= rhs with
      | Gt => PreferCandidate
      | Lt => PreferCurrent
      | Eq => length_comparison current_praos_tip candidate_tip
      end.

Definition compare_with_csj (d : CsjDissent) (candidate_tip current_praos_tip : Tip)
  : ChainPreference :=
  match dynamo_blocks d ?= objector_blocks d with
  | Gt => PreferCurrent
  | Lt => PreferCandidate
  | Eq => length_comparison current_praos_tip candidate_tip
  end.

(** ** Lemmas on preferences *)

(** The same verdict seen from the other chain. *)
Definition flip_pref (p : ChainPreference) : ChainPreference :=
  match p with
  | PreferCurrent => PreferCandidate
  | PreferCandidate => PreferCurrent
  | PrefEqual => PrefEqual
  end.

Lemma prefer_more_flip x y : prefer_more y x = flip_pref (prefer_more x y).
Proof. unfold prefer_more. cmp_cases; done || lia. Qed.

Lemma prefer_more_candidate x y : prefer_more x y = PreferCandidate ↔ x < y.
Proof. unfold prefer_more. cmp_cases; split; done || lia. Qed.

Lemma prefer_more_equal x y : prefer_more x y = PrefEqual ↔ x = y.
Proof. unfold prefer_more. cmp_cases; split; done || lia. Qed.

Lemma vrf_tiebreak_flip a b : vrf_tiebreak b a = flip_pref (vrf_tiebreak a b).
Proof.
  unfold vrf_tiebreak. rewrite (slice_cmp_antisym b a). by destruct (slice_cmp b a).
Qed.

Lemma vrf_tiebreak_candidate a b : vrf_tiebreak a b = PreferCandidate ↔ key_lt b a.
Proof. unfold vrf_tiebreak, key_lt. by destruct (slice_cmp b a). Qed.

Lemma prefer_points_flip p q x : prefer_points q p (flip_pref x) = flip_pref (prefer_points p q x).
Proof. by destruct p, q. Qed.

Lemma compare_density_flip t1 t2 :
  compare_density (mkSelection t2) t1 = flip_pref (compare_density (mkSelection t1) t2).
Proof.
  unfold compare_density, compare_length; simpl. rewrite andb_comm.
  case_match; apply prefer_more_flip.
Qed.

Lemma mul_u128_exact x y : u64 x → u64 y → mul_u128 x y = x * y.
Proof.
  unfold u64, u64_max, mul_u128, wrap128. intros Hx Hy. apply Z.mod_small. split; [nia|].
  apply Z.le_lt_trans with (18446744073709551615 * 18446744073709551615); [nia|done].
Qed.

(** ** The tiebreak *)

Section tiebreak_facts.
  Context (blake2b_224 : list Z → list Z).

Definition same_pool_slot (h1 h2 : BlockHeader) : Prop :=
  blake2b_224 (issuer_vkey h1) = blake2b_224 (issuer_vkey h2) ∧ hdr_slot h1 = hdr_slot h2.

#[local] Instance same_pool_slot_dec h1 h2 : Decision (same_pool_slot h1 h2).
Proof. unfold same_pool_slot. apply _. Defined.

(** [praos_tiebreak] with its two arms as propositions. *)
Lemma praos_tiebreak_same h1 h2 era w :
  same_pool_slot h1 h2 →
  praos_tiebreak blake2b_224 h1 h2 era w
  = prefer_more (sequence_number (operational_cert h1)) (sequence_number (operational_cert h2)).
Proof.
  intros [Hp Hs]. unfold praos_tiebreak. rewrite bool_decide_eq_true_2, Hs, Z.eqb_refl; done.
Qed.

Lemma praos_tiebreak_diff h1 h2 era w :
  ¬ same_pool_slot h1 h2 →
  praos_tiebreak blake2b_224 h1 h2 era w =
    if negb (is_conway era) || (abs_diff64 (hdr_slot h1) (hdr_slot h2) <=? w)
    then vrf_tiebreak (vrf_output (vrf_result h1)) (vrf_output (vrf_result h2))
    else PreferCurrent.
Proof.
  intros Hn. unfold praos_tiebreak. replace (_ && _) with false; [by destruct (is_conway era)|].
  symmetry. apply andb_false_iff. rewrite bool_decide_eq_false, Z.eqb_neq.
  unfold same_pool_slot in Hn. destruct (decide (hdr_slot h1 = hdr_slot h2)); tauto.
Qed.

Lemma praos_tiebreak_flip h1 h2 era w :
  (is_conway era = true → abs_diff64 (hdr_slot h1) (hdr_slot h2) ≤ w) →
  praos_tiebreak blake2b_224 h2 h1 era w = flip_pref (praos_tiebreak blake2b_224 h1 h2 era w).
Proof.
  intros Hw. destruct (decide (same_pool_slot h1 h2)) as [H|H].
  - rewrite !praos_tiebreak_same by (destruct H; split; congruence). apply prefer_more_flip.
  - rewrite !praos_tiebreak_diff; [|done|by intros [? ?]; apply H].
    replace (abs_diff64 (hdr_slot h2) _) with (abs_diff64 (hdr_slot h1) (hdr_slot h2))
      by (unfold abs_diff64; lia).
    destruct (is_conway era); simpl; [|apply vrf_tiebreak_flip]. specialize (Hw eq_refl).
    destruct (Z.leb_spec (abs_diff64 (hdr_slot h1) (hdr_slot h2)) w); [|lia].
    apply vrf_tiebreak_flip.
Qed.

(** When the tiebreak makes a node switch. *)
Lemma praos_tiebreak_candidate h1 h2 era w :
  praos_tiebreak blake2b_224 h1 h2 era w = PreferCandidate ↔
  (same_pool_slot h1 h2 ∧
     sequence_number (operational_cert h1) < sequence_number (operational_cert h2)) ∨
  (¬ same_pool_slot h1 h2 ∧
     (is_conway era = true → abs_diff64 (hdr_slot h1) (hdr_slot h2) ≤ w) ∧
     key_lt (vrf_output (vrf_result h2)) (vrf_output (vrf_result h1))).
Proof.
  destruct (decide (same_pool_slot h1 h2)) as [H|H].
  - rewrite praos_tiebreak_same, prefer_more_candidate by done. tauto.
  - rewrite praos_tiebreak_diff by done. destruct (is_conway era); simpl.
    + destruct (Z.leb_spec (abs_diff64 (hdr_slot h1) (hdr_slot h2)) w).
      * rewrite vrf_tiebreak_candidate. tauto.
      * split; [done|]. intros [[? _]|(_ & Hw & _)]; [tauto|]. specialize (Hw eq_refl). lia.
    + rewrite vrf_tiebreak_candidate. naive_solver.
Qed.

(** The exact condition under which a node on [current] adopts
    [candidate]. A longer chain wins; at equal length two blocks of one pool
    in one slot are ordered by opcert counter, and all others by lower VRF
    output, from Conway on only if the slots are at most [slot_window] apart;
    an empty fragment never wins a tie. *)
Theorem chain_preference_switch_iff current candidate slot_window :
  chain_preference blake2b_224 current candidate slot_window = PreferCandidate ↔
  tip_block_no current < tip_block_no candidate ∨
  (tip_block_no current = tip_block_no candidate ∧ ∃ h1 h2,
     last (headers current) = Some h1 ∧ last (headers candidate) = Some h2 ∧
     ((same_pool_slot h1 h2 ∧
         sequence_number (operational_cert h1) < sequence_number (operational_cert h2)) ∨
      (¬ same_pool_slot h1 h2 ∧
         (is_conway (version_era (protocol_version h1)) = true →
            abs_diff64 (hdr_slot h1) (hdr_slot h2) ≤ slot_window) ∧
         key_lt (vrf_output (vrf_result h2)) (vrf_output (vrf_result h1))))).
Proof.
  unfold chain_preference.
  destruct (Z.compare_spec (tip_block_no candidate) (tip_block_no current)) as [E|E|E].
  - destruct (last (headers current)) as [h1|], (last (headers candidate)) as [h2|];
      [|by (split; [|intros [?|(_ & ? & ? & ? & ? & _)]]; [|lia|])..].
    rewrite praos_tiebreak_candidate. split; [naive_solver|].
    intros [?|(_ & ? & ? & [= <-] & [= <-] & H)]; [lia|done].
  - split; [done|]. intros [?|[? _]]; lia.
  - split; [by left|done].
Qed.

(** A VRF output is determined by the pool's key and the slot. *)
Definition vrf_deterministic (P : BlockHeader → Prop) : Prop :=
  ∀ h1 h2, P h1 → P h2 → same_pool_slot h1 h2 →
    vrf_output (vrf_result h1) = vrf_output (vrf_result h2).

Definition tip_in (P : BlockHeader → Prop) (f : ChainFragment) : Prop :=
  ∀ h, last (headers f) = Some h → P h.

(** A node on [f] offered [g] switches to it, for some slot window. *)
Definition switches (P : BlockHeader → Prop) (f g : ChainFragment) : Prop :=
  tip_in P f ∧ tip_in P g ∧ ∃ w, chain_preference blake2b_224 f g w = PreferCandidate.

(** The strict order every switch climbs: block number, then lower VRF, then
    higher opcert counter. *)
Definition improves (f g : ChainFragment) : Prop :=
  tip_block_no f < tip_block_no g ∨
  (tip_block_no f = tip_block_no g ∧ ∃ h1 h2,
     last (headers f) = Some h1 ∧ last (headers g) = Some h2 ∧
     (key_lt (vrf_output (vrf_result h2)) (vrf_output (vrf_result h1)) ∨
      (vrf_output (vrf_result h2) = vrf_output (vrf_result h1) ∧
       sequence_number (operational_cert h1) < sequence_number (operational_cert h2)))).

Lemma improves_irrefl f : ¬ improves f f.
Proof.
  intros [H|(_ & h1 & h2 & E1 & E2 & [H|[_ H]])]; [lia| |]; simplify_eq; [|lia].
  by apply key_lt_irrefl in H.
Qed.

Lemma improves_trans f g h : improves f g → improves g h → improves f h.
Proof.
  intros [H1|(E1 & h1 & h2 & L1 & L2 & C1)] [H2|(E2 & h3 & h4 & L3 & L4 & C2)];
    [left; lia..|right].
  simplify_eq. split; [lia|]. exists h1, h4. split_and!; [done..|].
  destruct C1 as [C1|[V1 C1]], C2 as [C2|[V2 C2]].
  - left. eauto using key_lt_trans.
  - left. by rewrite V2.
  - left. by rewrite <- V1.
  - right. split; [congruence|lia].
Qed.

Lemma switches_improves P f g : vrf_deterministic P → switches P f g → improves f g.
Proof.
  intros Hv (Hf & Hg & w & H). unfold chain_preference in H.
  destruct (Z.compare_spec (tip_block_no g) (tip_block_no f)) as [E|E|E]; [|done|by left].
  right. split; [done|].
  destruct (last (headers f)) as [h1|] eqn:E1; [|done].
  destruct (last (headers g)) as [h2|] eqn:E2; [|done].
  exists h1, h2. split_and!; [done..|].
  apply praos_tiebreak_candidate in H as [[Hs H]|(_ & _ & H)]; [right|by left].
  split; [|done]. symmetry. by apply Hv; [apply Hf|apply Hg|].
Qed.

(** C5: chain selection cannot oscillate. Whatever the eras and the slot
    windows of the comparisons, a sequence of one or more switches (each to a
    fragment that [chain_preference] prefers) never leads back to the fragment
    it started from, given that a pool's VRF output is determined by its key
    and the slot. *)
Theorem chain_selection_no_cycle P (Hvrf : vrf_deterministic P) f : ¬ tc (switches P) f f.
Proof.
  intros H. apply (improves_irrefl f).
  assert (∀ a b, tc (switches P) a b → improves a b) as Himp; [|by apply Himp].
  induction 1; eauto using switches_improves, improves_trans.
Qed.

(** Outside the slot-window restriction the verdict does not depend on
    which of the two chains is the incumbent: exchanging the current and the
    candidate chain (tips and headers) flips [PreferCurrent] and
    [PreferCandidate] and keeps [Equal], in every era. *)
Theorem preference_symmetric t1 t2 h1 h2 era w
    (Hw : is_conway era = true → abs_diff64 (hdr_slot h1) (hdr_slot h2) ≤ w) :
  prefer_chain_with_headers blake2b_224 (mkSelection t2) t1 h2 h1 era w
  = flip_pref (prefer_chain_with_headers blake2b_224 (mkSelection t1) t2 h1 h2 era w).
Proof.
  unfold prefer_chain_with_headers; simpl. rewrite <- prefer_points_flip. f_equal.
  case_bool_decide.
  - rewrite compare_density_flip. by destruct (compare_density _ _).
  - unfold compare_length; simpl. rewrite prefer_more_flip.
    destruct (prefer_more (tip_no t1) (tip_no t2)); [done..|]. by apply praos_tiebreak_flip.
Qed.

End tiebreak_facts.

(** ** The density window *)

(** [StronglySorted (≤)] with the bounds of the doc comment. *)
Definition window_ok (w : DensityWindow) : Prop :=
  StronglySorted Z.le (win_slots w) ∧
  ∀ s, s ∈ win_slots w → intersection_slot w < s ≤ end_slot w.

Lemma sorted_part_by (slot : Z) l :
  StronglySorted Z.le l → part_by (λ s, (s <? slot)%Z) l.
Proof.
  intros Hs i j x y Hij Hx Hy Hp. apply Z.ltb_lt in Hp. apply Z.ltb_lt.
  enough (x ≤ y) by lia. revert i j Hij Hx Hy.
  induction Hs as [|a l Hs IH Ha]; intros i j Hij Hx Hy; [done|].
  destruct j as [|j]; [lia|]. destruct i as [|i]; simplify_eq/=.
  - rewrite Forall_forall in Ha. apply Ha. by eapply list_elem_of_lookup_2.
  - by eapply (IH i j); [lia|..].
Qed.

(** The binary search splits a sorted list at [slot]. *)
Lemma partition_split (slot : Z) l :
  StronglySorted Z.le l →
  let n := partition_point (λ s, (s <? slot)%Z) l in
  (n ≤ length l)%nat ∧ (∀ s, s ∈ take n l → s < slot) ∧ (∀ s, s ∈ drop n l → slot ≤ s).
Proof.
  intros Hs n. destruct (partition_point_spec _ l (sorted_part_by slot l Hs)) as (Hn & Hlo & Hhi).
  fold n in Hn, Hlo, Hhi. split_and!; [done| |].
  - intros s [j Hj]%list_elem_of_lookup. apply lookup_take_Some in Hj as [Hj Hlt].
    apply Z.ltb_lt. by eapply Hlo.
  - intros s [j Hj]%list_elem_of_lookup. rewrite lookup_drop in Hj.
    assert ((s <? slot) = false) as Hf by (by eapply Hhi; [|done]; lia).
    apply Z.ltb_ge in Hf. done.
Qed.

Lemma StronglySorted_insert (slot : Z) l1 l2 :
  StronglySorted Z.le (l1 ++ l2) → (∀ s, s ∈ l1 → s ≤ slot) → (∀ s, s ∈ l2 → slot ≤ s) →
  StronglySorted Z.le (l1 ++ slot :: l2).
Proof.
  induction l1 as [|x l1 IH]; simpl; intros Hs H1 H2.
  - constructor; [done|]. by apply Forall_forall.
  - apply StronglySorted_inv in Hs as [Hs Hx]. constructor.
    + apply IH; [done| |done]. intros s Hin. apply H1. by right.
    + rewrite Forall_forall in *. intros y [Hy|[->|Hy]%elem_of_cons]%elem_of_app.
      * apply Hx, elem_of_app. by left.
      * apply H1. by left.
      * apply Hx, elem_of_app. by right.
Qed.

Lemma record_block_spec slot w :
  window_ok w →
  let '(ok, w') := record_block slot w in
  ok = bool_decide (intersection_slot w < slot ≤ end_slot w) ∧ window_ok w' ∧
  intersection_slot w' = intersection_slot w ∧ window_size w' = window_size w ∧
  win_slots w' ≡ₚ (if ok then [slot] else []) ++ win_slots w.
Proof.
  intros [Hs Hb]. unfold record_block.
  destruct (Z.ltb_spec (intersection_slot w) slot), (Z.leb_spec slot (end_slot w)); simpl.
  2-4: rewrite bool_decide_eq_false_2 by lia; by split_and!.
  rewrite bool_decide_eq_true_2 by lia.
  destruct (partition_split slot _ Hs) as (Hn & Hlo & Hhi).
  set (n := partition_point _ _) in *. unfold vec_insert.
  assert (take n (win_slots w) ++ slot :: drop n (win_slots w) ≡ₚ slot :: win_slots w) as Hperm.
  { rewrite <- Permutation_middle. by rewrite take_drop. }
  split_and!; [done| |done|done|done]. split; simpl.
  - apply StronglySorted_insert; [by rewrite take_drop| |done].
    intros s Hin. specialize (Hlo s Hin). lia.
  - intros s Hin. rewrite Hperm in Hin. apply elem_of_cons in Hin as [->|Hin]; [done|].
    by apply Hb.
Qed.

(** The window after the blocks of a chain, in any order. *)
Definition record_all (slots : list Z) (w : DensityWindow) : DensityWindow :=
  fold_left (λ w slot, (record_block slot w).2) slots w.

Definition in_window (w : DensityWindow) (s : Z) : Prop := intersection_slot w < s ≤ end_slot w.

#[global] Instance in_window_dec w s : Decision (in_window w s).
Proof. unfold in_window. apply _. Defined.

Lemma record_all_spec slots w :
  window_ok w →
  window_ok (record_all slots w) ∧
  intersection_slot (record_all slots w) = intersection_slot w ∧
  window_size (record_all slots w) = window_size w ∧
  win_slots (record_all slots w) ≡ₚ filter (in_window w) slots ++ win_slots w.
Proof.
  revert w. induction slots as [|s slots IH]; intros w Hw; [done|]. simpl.
  pose proof (record_block_spec s w Hw) as Hr.
  destruct (record_block s w) as [ok w']. destruct Hr as (-> & Hok & Hi & Hz & Hp).
  destruct (IH w' Hok) as (IH1 & IH2 & IH3 & IH4). simpl.
  split_and!; [done|congruence|congruence|]. rewrite IH4, Hp.
  assert (∀ l, filter (in_window w') l = filter (in_window w) l) as ->.
  { intros l. apply list_filter_iff. intros x. unfold in_window, end_slot. by rewrite Hi, Hz. }
  rewrite filter_cons. unfold in_window at 2.
  case_bool_decide; (destruct (decide _); [|try done]); try done; simpl.
  by rewrite <- Permutation_middle.
Qed.

Lemma partition_filter (x : Z) l :
  StronglySorted Z.le l →
  partition_point (λ s, (s <? x)%Z) l = length (filter (λ s, s < x) l).
Proof.
  intros Hs. destruct (partition_split x l Hs) as (Hn & Hlo & Hhi).
  set (n := partition_point _ _) in *.
  rewrite <- (take_drop n l), filter_split; [|done|].
  - rewrite length_take. lia.
  - intros s Hin. specialize (Hhi s Hin). lia.
Qed.

Lemma partition_lt_length (x : Z) l :
  StronglySorted Z.le l →
  (partition_point (λ s, (s <? x)%Z) l < length l)%nat ↔ ∃ s, s ∈ l ∧ x ≤ s.
Proof.
  intros Hs. destruct (partition_split x l Hs) as (Hn & Hlo & Hhi).
  set (n := partition_point _ _) in *. split.
  - intros Hlt. destruct (drop n l) as [|s rest] eqn:E.
    { apply (f_equal length) in E. rewrite length_drop in E. simpl in E. lia. }
    exists s. split; [|apply Hhi; by left]. rewrite <- (take_drop n l), E. set_solver.
  - intros (s & Hin & Hx). destruct (decide (n < length l)%nat); [done|].
    rewrite take_ge in Hlo by lia. specialize (Hlo s Hin). lia.
Qed.

Lemma sorted_last_max l h :
  StronglySorted Z.le l → last l = Some h → ∀ s, s ∈ l → s ≤ h.
Proof.
  intros Hs Hl s Hin. apply last_Some in Hl as [l' ->].
  apply elem_of_app in Hin as [Hin|Hin%list_elem_of_singleton]; [|lia].
  induction l' as [|y l' IH]; [by apply elem_of_nil in Hin|].
  apply StronglySorted_inv in Hs as [Hs Hy]. rewrite Forall_forall in Hy.
  apply elem_of_cons in Hin as [->|Hin]; [|by apply IH]. apply Hy. set_solver.
Qed.

Lemma window_new_ok i size : window_ok (window_new i size).
Proof. split; [constructor|]. by intros s ?%elem_of_nil. Qed.

Lemma window_new_slots i size slots :
  win_slots (record_all slots (window_new i size)) ≡ₚ filter (in_window (window_new i size)) slots.
Proof.
  destruct (record_all_spec slots _ (window_new_ok i size)) as (_ & _ & _ & H).
  by rewrite H, app_nil_r.
Qed.

(** A density window filled with the block slots of a chain, in whatever
    order they arrive, answers every query as the set of slots in
    [(intersection, intersection + size]] demands: the block count, the count
    below a boundary, whether a block lies at or past it, and the highest
    slot; the vector stays sorted, so the binary searches are right. *)
Theorem density_window_correct i size slots :
  let w := record_all slots (window_new i size) in
  let inside := filter (in_window (window_new i size)) slots in
  window_ok w ∧ block_count w = Z.of_nat (length inside) ∧
  (∀ x, blocks_before w x = Z.of_nat (length (filter (λ s, s < x) inside))) ∧
  (∀ x, has_block_at_or_after w x = true ↔ ∃ s, s ∈ inside ∧ x ≤ s) ∧
  (∀ h, head_slot w = Some h → h ∈ inside ∧ ∀ s, s ∈ inside → s ≤ h) ∧
  (head_slot w = None → inside = []).
Proof.
  intros w inside.
  assert (win_slots w ≡ₚ inside) as Hp by apply window_new_slots.
  assert (window_ok w) as Hok by apply record_all_spec, window_new_ok.
  clearbody w inside. pose proof (proj1 Hok) as Hs. split_and!.
  - done.
  - unfold block_count. by rewrite Hp.
  - intros x. unfold blocks_before. rewrite partition_filter by done. by rewrite Hp.
  - intros x. unfold has_block_at_or_after. rewrite Nat.ltb_lt, partition_lt_length by done.
    by setoid_rewrite Hp.
  - intros h Hh. split.
    + rewrite <- Hp. apply last_Some in Hh as [l ->]. set_solver.
    + intros s. rewrite <- Hp. by apply sorted_last_max.
  - intros Hh. unfold head_slot in Hh. apply last_None in Hh. rewrite Hh in Hp.
    by apply Permutation_nil.
Qed.

(** ** The genesis rule *)

Lemma compare_flip (x y : Z) {A} (lt eq gt : A) :
  (match y ?= x with Lt => lt | Eq => eq | Gt => gt end)
  = match x ?= y with Lt => gt | Eq => eq | Gt => lt end.
Proof. rewrite Z.compare_antisym. by destruct (x ?= y). Qed.

(** The genesis comparison does not favour the incumbent: exchanging the
    two chains flips its verdict, in the closed window, in the partly observed
    window and in the fallbacks. *)
Theorem genesis_compare_symmetric c i cur_blocks cand_blocks cand cur :
  genesis_compare c i cand_blocks cur_blocks cur cand
  = flip_pref (genesis_compare c i cur_blocks cand_blocks cand cur).
Proof.
  unfold genesis_compare. rewrite (andb_comm (_ <=? i)). case_match; [done|].
  rewrite (andb_comm (_ <? slot_or_zero (tip_point cand))). case_match.
  - unfold density_then_length, length_comparison.
    rewrite compare_flip, (prefer_more_flip (tip_no cur)). by destruct (cand_blocks ?= cur_blocks).
  - rewrite (andb_comm (_ =? 0)). case_match; [done|].
    rewrite compare_flip. unfold length_comparison. rewrite (prefer_more_flip (tip_no cur)).
    by destruct (mul_u128 cand_blocks _ ?= _).
Qed.

(** Once both chains have passed the genesis window the denser one wins.
    With the density windows of the two chains (the slots of their blocks, in
    any order) the comparator adopts the candidate exactly when it has more
    blocks in [(I, I + s]] than the current chain, however long either chain
    is, and only at equal density when it is longer. *)
Theorem genesis_selects_denser i size cur_slots cand_slots cur cand
    (Hcur : saturating_add64 i size < slot_or_zero (tip_point cur))
    (Hcand : saturating_add64 i size < slot_or_zero (tip_point cand))
    (Hi : u64 i) (Hsize : u64 size) :
  let density slots := length (filter (in_window (window_new i size)) slots) in
  genesis_compare (mkComparator size) i
    (block_count (record_all cur_slots (window_new i size)))
    (block_count (record_all cand_slots (window_new i size))) cand cur = PreferCandidate ↔
  (density cur_slots < density cand_slots)%nat ∨
  (density cur_slots = density cand_slots ∧ tip_no cur < tip_no cand).
Proof.
  intros density. unfold block_count. rewrite !window_new_slots. unfold genesis_compare; simpl.
  fold (density cur_slots). fold (density cand_slots).
  assert (i ≤ saturating_add64 i size) by (unfold saturating_add64, u64, u64_max in *; lia).
  destruct (Z.leb_spec (slot_or_zero (tip_point cand)) i); [lia|]. simpl.
  destruct (Z.ltb_spec (saturating_add64 i size) (slot_or_zero (tip_point cur))); [|lia].
  destruct (Z.ltb_spec (saturating_add64 i size) (slot_or_zero (tip_point cand))); [|lia].
  simpl. unfold density_then_length, length_comparison.
  destruct (Z.compare_spec (Z.of_nat (density cand_slots)) (Z.of_nat (density cur_slots)));
    rewrite ?prefer_more_candidate; (split; [|try done]); try done; try lia.
Qed.

(** Byron density. For [u64] block counts and slots the cross products
    never overflow [u128]: the candidate is adopted exactly when
    [candidate_blocks / candidate_slot > current_blocks / current_slot], and by
    block number alone when both tips are at slot 0. *)
Theorem compare_density_correct cur cand s1 h1 s2 h2
    (Hcur : tip_point cur = Specific s1 h1) (Hcand : tip_point cand = Specific s2 h2)
    (Hs1 : u64 s1) (Hs2 : u64 s2) (Hn1 : u64 (tip_no cur)) (Hn2 : u64 (tip_no cand)) :
  should_switch_chain (mkSelection cur) cand Byron = true ↔
  (s1 = 0 ∧ s2 = 0 ∧ tip_no cur < tip_no cand) ∨
  (¬ (s1 = 0 ∧ s2 = 0) ∧ tip_no cur * s2 < tip_no cand * s1).
Proof.
  unfold should_switch_chain, prefer_chain, compare_density; simpl. rewrite Hcur, Hcand; simpl.
  unfold slot_or_zero, compare_length; simpl. rewrite !mul_u128_exact by done.
  assert (∀ p, prefers_candidate p = true ↔ p = PreferCandidate) as Hpc by (by intros []).
  rewrite Hpc. destruct (Z.eqb_spec s1 0), (Z.eqb_spec s2 0); simpl;
    rewrite prefer_more_candidate; intuition lia.
Qed.

(** ** Witnesses *)

Lemma chain_selection_no_cycle_witness :
  vrf_deterministic id (λ h, h ∈ demo_chain) ∧
  switches id (λ h, h ∈ demo_chain) (mkFragment Origin (take 1 demo_chain))
    (mkFragment Origin (take 2 demo_chain)) ∧
  ¬ tc (switches id (λ h, h ∈ demo_chain)) (mkFragment Origin demo_chain) (mkFragment Origin demo_chain).
Proof.
  assert (vrf_deterministic id (λ h, h ∈ demo_chain)) as Hv.
  { intros h1 h2 Hi1 Hi2 [_ Hs]. unfold demo_chain in Hi1, Hi2. set_unfold.
    destruct_or!; subst; done. }
  split; [done|]. split; [|by apply (chain_selection_no_cycle id _ Hv)].
  split_and!; [intros h [= <-]; unfold demo_chain; set_solver..|]. exists 0. by vm_compute.
Defined.

Lemma preference_symmetric_witness :
  let h1 := demo_header (demo_hash 1) hash_zero [1] [5] 1 10 0 9 in
  let h2 := demo_header (demo_hash 2) hash_zero [2] [4] 1 12 0 9 in
  let t1 := mkTip (Specific 10 (demo_hash 1)) 1 in
  let t2 := mkTip (Specific 12 (demo_hash 2)) 1 in
  prefer_chain_with_headers id (mkSelection t1) t2 h1 h2 Conway 5 = PreferCandidate ∧
  prefer_chain_with_headers id (mkSelection t2) t1 h2 h1 Conway 5 = PreferCurrent.
Proof.
  intros h1 h2 t1 t2. split; [by vm_compute|].
  rewrite (preference_symmetric id t1 t2 h1 h2 Conway 5); [by vm_compute|]. by vm_compute.
Defined.

Lemma genesis_selects_denser_witness :
  let cur := mkTip (Specific 500 (demo_hash 1)) 90 in
  let cand := mkTip (Specific 300 (demo_hash 2)) 40 in
  genesis_compare (mkComparator 100) 10
    (block_count (record_all [120; 30; 20] (window_new 10 100)))
    (block_count (record_all [90; 60; 15; 10] (window_new 10 100))) cand cur = PreferCandidate.
Proof.
  apply (genesis_selects_denser 10 100 [120; 30; 20] [90; 60; 15; 10]); vm_compute; try done.
  left. lia.
Defined.

Lemma compare_density_witness :
  should_switch_chain (mkSelection (mkTip (Specific 100 (demo_hash 1)) 50))
    (mkTip (Specific 60 (demo_hash 2)) 40) Byron = true.
Proof.
  apply (compare_density_correct _ _ 100 (demo_hash 1) 60 (demo_hash 2)); vm_compute; try done.
  right. split; [|done]. by intros [? _].
Defined.
