(* ===== verification/ChainCandidates.v ===== *)
(** * Maximal candidates ([consensus/src/chain_selection.rs], second part)

    [maximal_candidates] enumerates the maximal paths through the volatile
    blocks that contain a new block: a backward walk to the anchor, then an
    iterative depth-first search to the leaves. The volatile store is the
    trait [SuccessorProvider], here a class with the documented contract as its
    laws; that block numbers grow along the stored blocks is a second class,
    [NumberedHeaders]. Both loops take fuel; under the two some fuel suffices. *)

From S2P Require Import Prelude Order EraHistory Block ChainFragment.
Local Open Scope Z_scope.

Class SuccessorProvider := {
  successors_of : Hash32 → list Hash32;
  header_of : Hash32 → option BlockHeader;
}.

(** The documented contract of the trait: [header_of] is keyed by header hash
    and [successors_of] lists the stored blocks with that parent. *)
Class SuccessorProviderOk {SP : SuccessorProvider} : Prop := {
  header_of_hash h hdr : header_of h = Some hdr → header_hash hdr = h;
  successors_spec p c :
    c ∈ successors_of p ↔ ∃ hdr, header_of c = Some hdr ∧ prev_hash hdr = p;
}.

(** What header validation adds about the blocks that reach the store, and the
    trait does not ask for: block numbers are [u64]s that grow from parent to
    child. So no stored block is its own ancestor. *)
Class NumberedHeaders {SP : SuccessorProvider} : Prop := {
  numbers_u64 h hdr : header_of h = Some hdr → u64 (block_number hdr);
  numbers_increase h hdr par :
    header_of h = Some hdr → header_of (prev_hash hdr) = Some par →
    block_number par < block_number hdr;
}.

Section candidates.
  Context {SP : SuccessorProvider}.

Definition is_anchored (immutable_tip : Point) (hdr : BlockHeader) : bool :=
  match immutable_tip with
  | Origin => bool_decide (prev_hash hdr = hash_zero)
  | Specific _ anchor_hash => bool_decide (prev_hash hdr = anchor_hash)
  end.

(** Step 1. [None] when the fuel runs out; [Some None] is the early return of
    an empty vector. *)
Fixpoint walk_back (fuel : nat) (immutable_tip : Point) (current : Hash32)
    (acc : list BlockHeader) : option (option (list BlockHeader)) :=
  match fuel with
  | O => None
  | S fuel =>
      match header_of current with
      | None => Some None
      | Some hdr =>
          if is_anchored immutable_tip hdr || bool_decide (prev_hash hdr = current)
          then Some (Some (reverse (acc ++ [hdr])))
          else walk_back fuel immutable_tip (prev_hash hdr) (acc ++ [hdr])
      end
  end.

(** Step 2. The head of [stack] is the top of the Rust vector. *)
Fixpoint forward_dfs (fuel : nat) (stack : list (Hash32 * list BlockHeader))
    (leaf_suffixes : list (list BlockHeader)) : option (list (list BlockHeader)) :=
  match fuel with
  | O => None
  | S fuel =>
      match stack with
      | [] => Some leaf_suffixes
      | (hash, path) :: stack =>
          match header_of hash with
          | Some hdr =>
              match successors_of hash with
              | [] => forward_dfs fuel stack (leaf_suffixes ++ [path ++ [hdr]])
              | succs =>
                  forward_dfs fuel
                    (reverse ((λ succ_hash, (succ_hash, path ++ [hdr])) <$> succs) ++ stack)
                    leaf_suffixes
              end
          | None => forward_dfs fuel stack leaf_suffixes
          end
      end
  end.

Definition maximal_candidates (fuel : nat) (immutable_tip : Point) (new_block_hash : Hash32)
  : option (list ChainFragment) :=
  match walk_back fuel immutable_tip new_block_hash [] with
  | None => None
  | Some None => Some []
  | Some (Some []) => Some []
  | Some (Some prefix) =>
      match forward_dfs fuel [(new_block_hash, [])] [] with
      | None => None
      | Some leaf_suffixes =>
          Some ((λ suffix, from_headers immutable_tip (prefix ++ drop 1 suffix)) <$> leaf_suffixes)
      end
  end.

(** ** Specification *)

(** Every header names the one before it as its parent. *)
Fixpoint linked (hash : Hash32) (hs : list BlockHeader) : Prop :=
  match hs with
  | [] => True
  | h :: hs' => prev_hash h = hash ∧ linked (header_hash h) hs'
  end.

Definition stored (h : BlockHeader) : Prop := header_of (header_hash h) = Some h.

(** A path of stored blocks from the anchor, through the new block, to a block
    without successors. *)
Definition maximal_candidate (immutable_tip : Point) (new : Hash32) (f : ChainFragment) : Prop :=
  anchor f = immutable_tip ∧ linked (link_hash immutable_tip) (headers f) ∧
  Forall stored (headers f) ∧ new ∈ header_hash <$> headers f ∧
  ∃ leaf, last (headers f) = Some leaf ∧ successors_of (header_hash leaf) = [].

(** The suffixes the depth-first search must find. *)
Inductive maximal_from : Hash32 → list BlockHeader → Prop :=
| maximal_leaf h hdr : header_of h = Some hdr → successors_of h = [] → maximal_from h [hdr]
| maximal_step h hdr c p :
    header_of h = Some hdr → c ∈ successors_of h → maximal_from c p → maximal_from h (hdr :: p).

(** The prefixes the backward walk must find, newest header first. *)
Inductive anchored_path (tip : Point) : Hash32 → list BlockHeader → Prop :=
| anchored_one h hdr :
    header_of h = Some hdr → is_anchored tip hdr = true → anchored_path tip h [hdr]
| anchored_step h hdr p :
    header_of h = Some hdr → is_anchored tip hdr = false →
    anchored_path tip (prev_hash hdr) p → anchored_path tip h (hdr :: p).

Lemma is_anchored_spec tip hdr : is_anchored tip hdr = true ↔ prev_hash hdr = link_hash tip.
Proof. destruct tip; simpl; apply bool_decide_eq_true. Qed.

(** *** The depth-first search *)

Lemma forward_dfs_sound fuel stack leafs out :
  forward_dfs fuel stack leafs = Some out →
  ∀ p, p ∈ out ↔
    p ∈ leafs ∨ ∃ h path q, (h, path) ∈ stack ∧ maximal_from h q ∧ p = path ++ q.
Proof.
  revert stack leafs. induction fuel as [|fuel IH]; intros stack leafs; simpl; [done|].
  destruct stack as [|[hash path] stack].
  { intros [= ->] p. split; [by left|]. intros [?|(? & ? & ? & ?%elem_of_nil & _)]; done. }
  assert (∀ p, (∃ h path0 q, (h, path0) ∈ (hash, path) :: stack ∧ maximal_from h q ∧ p = path0 ++ q) ↔
    (∃ q, maximal_from hash q ∧ p = path ++ q) ∨
    (∃ h path0 q, (h, path0) ∈ stack ∧ maximal_from h q ∧ p = path0 ++ q)) as Hcons.
  { intros p. setoid_rewrite elem_of_cons. naive_solver. }
  intros Hrun p. rewrite Hcons. clear Hcons. revert Hrun.
  destruct (header_of hash) as [hdr|] eqn:Eh; [destruct (successors_of hash) as [|c cs] eqn:Ec|];
    intros Hrun; rewrite (IH _ _ Hrun p).
  - rewrite elem_of_app, list_elem_of_singleton.
    assert ((∃ q, maximal_from hash q ∧ p = path ++ q) ↔ p = path ++ [hdr]) as ->; [|tauto].
    split; [|intros ->; exists [hdr]; split; [by constructor|done]].
    intros (q & Hq & ->). inversion Hq; simplify_eq; [done|].
    match goal with H : _ ∈ successors_of _ |- _ => rewrite Ec in H; by apply elem_of_nil in H end.
  - assert ((∃ q, maximal_from hash q ∧ p = path ++ q) ↔
      ∃ h q, h ∈ c :: cs ∧ maximal_from h q ∧ p = (path ++ [hdr]) ++ q) as ->.
    { split.
      - intros (q & Hq & ->).
        inversion Hq as [h0 hdr0 Hh Hs|h0 hdr0 c0 p0 Hh Hc Hm]; simplify_eq; [congruence|].
        exists c0, p0. rewrite <- Ec, <- app_assoc. done.
      - intros (h & q & Hh & Hq & ->). exists (hdr :: q). rewrite <- app_assoc. split; [|done].
        econstructor; [done|by rewrite Ec|done]. }
    change (_ :: list_fmap _ _ ?f cs) with (f <$> c :: cs).
    setoid_rewrite elem_of_app. setoid_rewrite elem_of_reverse.
    setoid_rewrite list_elem_of_fmap. naive_solver.
  - assert (¬ ∃ q, maximal_from hash q ∧ p = path ++ q) as Hno; [|tauto].
    intros (q & Hq & _). inversion Hq; congruence.
Qed.

Context {SPOK : SuccessorProviderOk} {NUM : NumberedHeaders}.

(** Popping an entry and everything pushed for it takes a number of iterations
    that depends on its hash only. *)
Lemma forward_dfs_entry h :
  ∃ n, ∀ path fuel stack leafs, ∃ leafs',
    forward_dfs (n + fuel) ((h, path) :: stack) leafs = forward_dfs fuel stack leafs'.
Proof.
  remember (match header_of h with
            | Some hdr => Z.to_nat (u64_max - block_number hdr) | None => 0%nat end) as m eqn:Em.
  revert h Em. induction (lt_wf m) as [m _ IH]. intros h ->.
  destruct (header_of h) as [hdr|] eqn:Eh; cycle 1.
  { exists 1%nat. intros. exists leafs. simpl. by rewrite Eh. }
  assert (∀ cs, (∀ c, c ∈ cs → c ∈ successors_of h) →
    ∃ n, ∀ path fuel stack leafs, ∃ leafs',
      forward_dfs (n + fuel) (((λ c, (c, path)) <$> cs) ++ stack) leafs
      = forward_dfs fuel stack leafs') as Hall.
  { induction cs as [|c cs IHcs]; intros Hcs.
    { exists 0%nat. intros. by exists leafs. }
    destruct IHcs as [n Hn]; [set_solver|].
    destruct (proj1 (successors_spec h c)) as (chdr & Ec & Hp); [set_solver|].
    destruct (IH (Z.to_nat (u64_max - block_number chdr))) with (h := c) as [k Hk].
    { pose proof (numbers_u64 _ _ Ec) as Hu. rewrite <- Hp in Eh.
      pose proof (numbers_increase _ _ _ Ec Eh). unfold u64 in Hu. lia. }
    { by rewrite Ec. }
    exists (k + n)%nat. intros path fuel stack leafs. rewrite <- Nat.add_assoc.
    destruct (Hk path (n + fuel)%nat (((λ c, (c, path)) <$> cs) ++ stack) leafs) as [l1 E1].
    destruct (Hn path fuel stack l1) as [l2 E2]. exists l2. rewrite <- E2, <- E1.
    by rewrite fmap_cons. }
  destruct (Hall (reverse (successors_of h))) as [n Hn].
  { intros c. by rewrite elem_of_reverse. }
  exists (S n). intros path fuel stack leafs. cbn [forward_dfs Nat.add]. rewrite Eh.
  destruct (successors_of h) as [|c cs] eqn:Es.
  - destruct (Hn path fuel stack (leafs ++ [path ++ [hdr]])) as [l' Hl]. by exists l'.
  - rewrite <- fmap_reverse. apply Hn.
Qed.

Lemma forward_dfs_total h :
  ∃ n, ∀ fuel, (n ≤ fuel)%nat → ∃ out, forward_dfs fuel [(h, [])] [] = Some out.
Proof.
  destruct (forward_dfs_entry h) as [n Hn]. exists (n + 1)%nat. intros fuel Hf.
  destruct (Hn [] (fuel - n)%nat [] []) as [l Hl].
  replace (n + (fuel - n))%nat with fuel in Hl by lia. rewrite Hl.
  destruct (fuel - n)%nat eqn:E; [lia|]. by exists l.
Qed.

(** *** The backward walk *)

Lemma header_self h hdr : header_of h = Some hdr → prev_hash hdr ≠ h.
Proof. intros Hh Hp. subst h. pose proof (numbers_increase _ _ _ Hh Hh). lia. Qed.

(** The walk ends, finds the path to the anchor when there is one, and
    otherwise returns the empty vector; the self-loop guard never fires. *)
Lemma walk_back_total tip h :
  ∃ n, ∀ fuel acc, (n ≤ fuel)%nat →
    (∃ p, anchored_path tip h p ∧ walk_back fuel tip h acc = Some (Some (reverse (acc ++ p)))) ∨
    ((∀ p, ¬ anchored_path tip h p) ∧ walk_back fuel tip h acc = Some None).
Proof.
  remember (match header_of h with
            | Some hdr => S (Z.to_nat (block_number hdr)) | None => 0%nat end) as m eqn:Em.
  revert h Em. induction (lt_wf m) as [m _ IH]. intros h ->.
  destruct (header_of h) as [hdr|] eqn:Eh; cycle 1.
  { exists 1%nat. intros [|fuel] acc Hf; [lia|]. right. simpl. rewrite Eh. split; [|done].
    intros p Hp. inversion Hp; congruence. }
  destruct (is_anchored tip hdr) eqn:Ea.
  { exists 1%nat. intros [|fuel] acc Hf; [lia|]. left. exists [hdr]. simpl. rewrite Eh, Ea.
    split; [by constructor|done]. }
  edestruct (λ H, IH _ H (prev_hash hdr) eq_refl) as [n Hn].
  { destruct (header_of (prev_hash hdr)) as [par|] eqn:Ep; [|lia].
    pose proof (numbers_increase _ _ _ Eh Ep). pose proof (numbers_u64 _ _ Ep) as Hu.
    unfold u64 in Hu. lia. }
  exists (S n). intros [|fuel] acc Hf; [lia|]. simpl. rewrite Eh, Ea.
  rewrite bool_decide_eq_false_2 by by apply header_self. simpl.
  destruct (Hn fuel (acc ++ [hdr])) as [(p & Hp & ->)|[Hno ->]]; [lia| |].
  - left. exists (hdr :: p). split; [by constructor|]. by rewrite <- app_assoc.
  - right. split; [|done]. intros p Hp. inversion Hp; simplify_eq; [congruence|].
    by eapply Hno.
Qed.

Lemma linked_app hash l1 l2 :
  linked hash (l1 ++ l2) ↔
  linked hash l1 ∧ linked (match last l1 with Some h => header_hash h | None => hash end) l2.
Proof.
  revert hash. induction l1 as [|h l1 IH]; intros hash; simpl; [tauto|]. rewrite IH.
  destruct l1 as [|h' l1]; simpl; [tauto|].
  destruct (last (h' :: l1)) eqn:E; [tauto|]. by apply last_None in E.
Qed.

(** Along stored, linked headers block numbers grow, so the anchor's hash
    cannot occur above the first header. *)
Lemma linked_numbers hash hs h0 h :
  linked hash (h0 :: hs) → Forall stored (h0 :: hs) → h ∈ h0 :: hs →
  block_number h0 ≤ block_number h.
Proof.
  revert hash h0. induction hs as [|h1 hs IH]; intros hash h0 Hl Hs Hin.
  { apply list_elem_of_singleton in Hin as ->. lia. }
  apply elem_of_cons in Hin as [->|Hin]; [lia|].
  destruct Hl as [_ Hl]. apply Forall_cons in Hs as [Hs0 Hs].
  pose proof (IH _ _ Hl Hs Hin). destruct Hl as [Hp _].
  apply Forall_cons in Hs as [Hs1 _]. unfold stored in *. rewrite <- Hp in Hs0.
  pose proof (numbers_increase _ _ _ Hs1 Hs0). lia.
Qed.

Lemma linked_anchor_once tip l g h :
  linked (link_hash tip) (l ++ [g; h]) → Forall stored (l ++ [g; h]) → is_anchored tip h = false.
Proof.
  intros Hl Hs. destruct (is_anchored tip h) eqn:E; [|done]. exfalso.
  apply is_anchored_spec in E.
  assert (prev_hash h = header_hash g) as Hhg.
  { apply linked_app in Hl as [_ Hl]. simpl in Hl. tauto. }
  assert (stored g) as Hg. { rewrite Forall_forall in Hs. apply Hs. set_solver. }
  destruct (l ++ [g; h]) as [|h0 rest] eqn:El; [by destruct l|].
  pose proof (linked_numbers _ _ _ g Hl Hs) as Hn. destruct Hl as [Hp _].
  apply Forall_cons in Hs as [Hs0 _]. unfold stored in *.
  replace (header_hash g) with (prev_hash h0) in Hg by congruence.
  pose proof (numbers_increase _ _ _ Hs0 Hg).
  assert (g ∈ h0 :: rest) by (rewrite <- El; set_solver). specialize (Hn ltac:(done)). lia.
Qed.

Lemma anchored_path_linked tip h p :
  anchored_path tip h p →
  linked (link_hash tip) (reverse p) ∧ Forall stored p ∧
  ∃ hdr p', p = hdr :: p' ∧ header_of h = Some hdr.
Proof.
  induction 1 as [h hdr Hh Ha|h hdr p Hh Ha Hp (IHl & IHs & par & p' & -> & Hpar)].
  - apply is_anchored_spec in Ha. pose proof (header_of_hash _ _ Hh) as <-. split_and!.
    + done.
    + by repeat constructor.
    + by exists hdr, [].
  - pose proof (header_of_hash _ _ Hh) as <-. pose proof (header_of_hash _ _ Hpar) as Hhp.
    split_and!.
    + rewrite reverse_cons. apply linked_app. split; [done|].
      rewrite last_reverse. simpl. split; [by symmetry|done].
    + by constructor.
    + by exists hdr, (par :: p').
Qed.

Lemma linked_anchored_path tip l h :
  linked (link_hash tip) (l ++ [h]) → Forall stored (l ++ [h]) →
  anchored_path tip (header_hash h) (reverse (l ++ [h])).
Proof.
  revert h. induction l as [|g l IH] using rev_ind; intros h Hl Hs.
  - apply Forall_cons in Hs as [Hs _]. destruct Hl as [Hl _].
    apply anchored_one; [done|]. by apply is_anchored_spec.
  - rewrite reverse_snoc. apply anchored_step.
    + rewrite Forall_forall in Hs. apply Hs. set_solver.
    + rewrite <- app_assoc in *. by eapply linked_anchor_once.
    + pose proof Hl as Hl'. apply linked_app in Hl' as [Hl1 Hl2]. rewrite last_snoc in Hl2.
      destruct Hl2 as [-> _]. apply Forall_app in Hs as [Hs _]. by apply IH.
Qed.

Lemma anchored_path_det tip h p q : anchored_path tip h p → anchored_path tip h q → p = q.
Proof.
  intros Hp. revert q. induction Hp as [h hdr Hh Ha|h hdr p Hh Ha Hp IH]; intros q Hq;
    inversion Hq; simplify_eq; try congruence. f_equal. by apply IH.
Qed.

(** *** The suffixes *)

Lemma maximal_from_spec h q :
  maximal_from h q ↔
  ∃ hdr q', q = hdr :: q' ∧ header_of h = Some hdr ∧ Forall stored q ∧ linked h q' ∧
    ∃ leaf, last q = Some leaf ∧ successors_of (header_hash leaf) = [].
Proof.
  split.
  - induction 1 as [h hdr Hh Hs|h hdr c p Hh Hc Hp (chdr & q' & -> & Ech & IHs & IHl & IHleaf)];
      pose proof (header_of_hash _ _ Hh) as Hhh.
    + exists hdr, []. subst h. split_and!; [done|done|by repeat constructor|done|by exists hdr].
    + exists hdr, (chdr :: q'). split_and!; [done|done|subst h; by constructor| |done].
      apply successors_spec in Hc as (chdr' & Ec' & Hpar). simplify_eq. split; [done|].
      by rewrite (header_of_hash _ _ Ec').
  - intros (hdr & q' & -> & Hh & Hs & Hl & leaf & Hlast & Hleaf).
    revert h hdr Hh Hs Hl Hlast. induction q' as [|c q' IH]; intros h hdr Hh Hs Hl Hlast.
    + injection Hlast as ->. apply maximal_leaf; [done|].
      by rewrite (header_of_hash _ _ Hh) in Hleaf.
    + apply Forall_cons in Hs as [_ Hs]. destruct Hl as [Hpar Hl].
      pose proof (proj1 (Forall_cons _ _ _) Hs) as [Hsc _].
      apply maximal_step with (header_hash c); [done| |by apply IH].
      apply successors_spec. by exists c.
Qed.

(** *** Assembly *)

(** The prefix and the suffix share the new block's header. *)
Lemma candidate_assemble tip new p q :
  anchored_path tip new p → maximal_from new q →
  maximal_candidate tip new (from_headers tip (reverse p ++ drop 1 q)).
Proof.
  intros Hp Hq. apply anchored_path_linked in Hp as (Hpl & Hps & hdr & p' & -> & Hh).
  apply maximal_from_spec in Hq as (hdr' & q' & -> & Hh' & Hqs & Hql & leaf & Hlast & Hleaf).
  simplify_eq. pose proof (header_of_hash _ _ Hh) as Hnew. apply Forall_cons in Hqs as [_ Hqs].
  unfold maximal_candidate; simpl. split_and!.
  - done.
  - rewrite drop_0. apply linked_app. split; [done|]. rewrite last_reverse; simpl. by rewrite Hnew.
  - rewrite drop_0. apply Forall_app. split; [by apply Forall_reverse|done].
  - rewrite fmap_app, reverse_cons, fmap_app. set_solver.
  - exists leaf. split; [|done]. rewrite drop_0, last_app.
    destruct (last q') as [l|] eqn:E.
    + rewrite <- Hlast. destruct q' as [|x q']; [done|]. by rewrite <- E.
    + apply last_None in E as ->. rewrite last_reverse. done.
Qed.

Lemma candidate_decompose tip new f :
  maximal_candidate tip new f →
  ∃ p q, anchored_path tip new p ∧ maximal_from new q ∧
    f = from_headers tip (reverse p ++ drop 1 q).
Proof.
  intros (Ha & Hl & Hs & Hin & leaf & Hlast & Hleaf). destruct f as [a hs]; simpl in *. subst a.
  apply list_elem_of_fmap in Hin as (h & -> & Hin).
  apply list_elem_of_split in Hin as (l1 & l2 & ->).
  exists (reverse (l1 ++ [h])), (h :: l2).
  rewrite cons_middle, app_assoc in Hl, Hs.
  pose proof Hl as Hl'. apply linked_app in Hl' as [Hl1 Hl2]. rewrite last_snoc in Hl2.
  pose proof (proj1 (Forall_app _ _ _) Hs) as [Hs1 Hs2]. split_and!.
  - by apply linked_anchored_path.
  - apply maximal_from_spec. exists h, l2. apply Forall_app in Hs1 as [_ Hs1].
    apply Forall_cons in Hs1 as [Hsh _]. split_and!; [done|done|by constructor|done|].
    exists leaf. split; [|done]. rewrite last_app in Hlast. destruct (last (h :: l2)) eqn:E; [done|].
    by apply last_None in E.
  - rewrite reverse_involutive. unfold from_headers. by rewrite <- app_assoc.
Qed.

End candidates.


(** ** A store of headers *)

Definition list_provider (store : list BlockHeader) : SuccessorProvider := {|
  successors_of p := header_hash <$> filter (λ h, prev_hash h = p) store;
  header_of c := head (filter (λ h, header_hash h = c) store);
|}.

Definition store_ok (store : list BlockHeader) : Prop :=
  NoDup (header_hash <$> store) ∧ (∀ h, h ∈ store → u64 (block_number h)) ∧
  ∀ h par, h ∈ store → par ∈ store → prev_hash h = header_hash par →
    block_number par < block_number h.

Lemma list_provider_header store c hdr :
  NoDup (header_hash <$> store) →
  @header_of (list_provider store) c = Some hdr ↔ hdr ∈ store ∧ header_hash hdr = c.
Proof.
  intros Hnd. simpl. split.
  - intros Hh. assert (hdr ∈ filter (λ h, header_hash h = c) store) as Hin.
    { destruct (filter _ store); simplify_eq/=. by left. }
    apply list_elem_of_filter in Hin. tauto.
  - intros [Hin <-]. induction store as [|x store IH]; [by apply elem_of_nil in Hin|].
    apply NoDup_cons in Hnd as [Hx Hnd]. apply elem_of_cons in Hin as [->|Hin].
    + by rewrite filter_cons_True.
    + rewrite filter_cons_False; [by apply IH|]. intros E. apply Hx. rewrite E.
      by apply list_elem_of_fmap_2.
Qed.

Lemma list_provider_ok store :
  NoDup (header_hash <$> store) → @SuccessorProviderOk (list_provider store).
Proof.
  intros Hnd. split.
  - intros h hdr [_ H]%list_provider_header; done.
  - intros p c. setoid_rewrite list_provider_header; [|done]. simpl.
    rewrite list_elem_of_fmap. setoid_rewrite list_elem_of_filter. naive_solver.
Qed.

Lemma list_provider_numbered store : store_ok store → @NumberedHeaders (list_provider store).
Proof.
  intros (Hnd & Hu & Hn). split.
  - intros h hdr [H _]%list_provider_header; [by apply Hu|done].
  - intros h hdr par [H1 _]%list_provider_header [H2 E]%list_provider_header; [|done..].
    by apply Hn.
Qed.

(** A fork above the second block. *)
Definition demo_fork : list BlockHeader :=
  demo_chain ++ [demo_header (demo_hash 4) (demo_hash 2) [3] [1] 3 36 0 9].

Definition store_okb (store : list BlockHeader) : bool :=
  bool_decide (NoDup (header_hash <$> store)) &&
  forallb (λ h, bool_decide (u64 (block_number h))) store &&
  forallb (λ h, forallb (λ par,
    bool_decide (prev_hash h = header_hash par → block_number par < block_number h)) store) store.

Lemma store_okb_ok store : store_okb store = true → store_ok store.
Proof.
  unfold store_okb. rewrite !andb_true_iff, !forallb_forall, bool_decide_eq_true.
  setoid_rewrite forallb_forall. setoid_rewrite <- list_elem_of_In.
  intros [[Hnd Hu] Hn]. split_and!; [done| |].
  - intros h Hh. by eapply bool_decide_eq_true, Hu.
  - intros h par Hh Hp. by eapply bool_decide_eq_true, (Hn h Hh par Hp).
Qed.


(** A store that keeps the contract of the trait, with a block that names
    itself as its parent: its child is not connected to the anchor, and
    [maximal_candidates] returns a fragment that does not link to it. *)
Definition demo_self_parent : list BlockHeader :=
  [demo_header (demo_hash 7) (demo_hash 7) [3] [1] 1 12 0 9;
   demo_header (demo_hash 8) (demo_hash 7) [3] [1] 2 24 0 9].

Lemma self_parent_unanchored :
  @SuccessorProviderOk (list_provider demo_self_parent) ∧
  @maximal_candidates (list_provider demo_self_parent) 10 Origin (demo_hash 8)
  = Some [mkFragment Origin demo_self_parent] ∧
  ¬ linked (link_hash Origin) demo_self_parent.
Proof.
  split_and!.
  - apply list_provider_ok, (bool_decide_unpack _). by vm_compute.
  - by vm_compute.
  - intros [H _]. by vm_compute in H.
Qed.
