(* ===== verification/VolatileWal.v ===== *)
(** * The write-ahead log of the volatile store ([crates/dugite-storage/src/volatile_db.rs], first part)

    Three entry formats: 56-byte headers without a parent hash (legacy),
    88-byte headers, and 88-byte headers with a CRC trailer, which is what
    [append] and [rewrite] write. [vol_replay_wal] detects the format of a file
    from its first entry. A file is its bytes; integers are big endian
    ([to_be_bytes], [from_be_bytes]). *)

From S2P Require Import Prelude Bytes EraHistory Block.
Local Open Scope Z_scope.

Definition WAL_MAGIC : list Z := [84; 87; 65; 76].
Definition WAL_HEADER_SIZE : nat := 88.
Definition WAL_CRC_SIZE : nat := 4.
Definition WAL_HEADER_SIZE_LEGACY : nat := 56.

Record WalEntry := mkWalEntry {
  we_slot : Z;
  we_block_no : Z;
  we_hash : Hash32;
  we_prev_hash : Hash32;
  we_prev_hash_known : bool;
  we_cbor : list Z;
}.

#[global] Instance WalEntry_eq_dec : EqDecision WalEntry.
Proof. solve_decision. Defined.

(** [u32::from_be_bytes(data[off..off + 4])] as a [usize] *)
Definition u32_at (off : nat) (data : list Z) : nat := Z.to_nat (be_value (slice off 4 data)).

Section vol_wal.
Context {CR : Crates}.

(** ** Writing *)

Definition wal_header (slot block_no : Z) (hash prev_hash : Hash32) (cbor_len : Z) : list Z :=
  WAL_MAGIC ++ be_bytes 8 slot ++ be_bytes 8 block_no ++ hash ++ prev_hash ++ be_bytes 4 cbor_len.

(** [None] when the length does not fit [u32]. *)
Definition wal_frame (slot block_no : Z) (hash prev_hash : Hash32) (cbor : list Z) : option (list Z) :=
  if Z.of_nat (length cbor) <=? u32_max then
    let header := wal_header slot block_no hash prev_hash (Z.of_nat (length cbor)) in
    let crc := crc32_hash (header ++ cbor) in
    Some (header ++ cbor ++ be_bytes 4 crc)
  else None.

(** [WalWriter::append]; a failure leaves the file as it was. *)
Definition wal_append (slot block_no : Z) (hash prev_hash : Hash32) (cbor file : list Z) : list Z :=
  match wal_frame slot block_no hash prev_hash cbor with
  | Some frame => file ++ frame
  | None => file
  end.

(** [WalWriter::rewrite] *)
Fixpoint wal_rewrite_frames (entries : list (Z * Z * Hash32 * Hash32 * list Z)) : option (list Z) :=
  match entries with
  | [] => Some []
  | (slot, block_no, hash, prev_hash, cbor) :: rest =>
      frame ← wal_frame slot block_no hash prev_hash cbor;
      frames ← wal_rewrite_frames rest;
      Some (frame ++ frames)
  end.

Definition wal_rewrite (entries : list (Z * Z * Hash32 * Hash32 * list Z)) (file : list Z) : list Z :=
  match wal_rewrite_frames entries with Some bytes => bytes | None => file end.

(** ** Detecting the format *)

Definition starts_with_magic (off : nat) (data : list Z) : bool :=
  bool_decide (slice off 4 data = WAL_MAGIC).

(** The entry that would end at [next] is followed by the end or by an entry. *)
Definition aligns (next : nat) (data : list Z) : bool :=
  (next <=? length data)%nat &&
  ((next =? length data)%nat ||
   ((next + 4 <=? length data)%nat && starts_with_magic next data)).

Definition detect_legacy_format (data : list Z) : bool :=
  if (length data <? WAL_HEADER_SIZE_LEGACY)%nat then false
  else if negb (starts_with_magic 0 data) then false
  else
    let cbor_len := u32_at 52 data in
    let next_pos := (WAL_HEADER_SIZE_LEGACY + cbor_len)%nat in
    if (length data <? next_pos)%nat then false
    else if (next_pos =? length data)%nat then (length data <? WAL_HEADER_SIZE)%nat
    else if (next_pos + 4 <=? length data)%nat && starts_with_magic next_pos data then true
    else if (WAL_HEADER_SIZE <=? length data)%nat then
      let new_cbor_len := u32_at 84 data in
      let new_next_v2 := (WAL_HEADER_SIZE + new_cbor_len)%nat in
      if aligns new_next_v2 data then false
      else
        let new_next_v3 := (WAL_HEADER_SIZE + new_cbor_len + WAL_CRC_SIZE)%nat in
        if aligns new_next_v3 data then false else false
    else false.

Definition detect_crc_format (data : list Z) : bool :=
  if (length data <? WAL_HEADER_SIZE)%nat then false
  else if negb (starts_with_magic 0 data) then false
  else
    let cbor_len := u32_at 84 data in
    let cbor_end := (WAL_HEADER_SIZE + cbor_len)%nat in
    if (length data <? cbor_end + WAL_CRC_SIZE)%nat then false
    else
      let stored_crc := be_value (slice cbor_end WAL_CRC_SIZE data) in
      stored_crc =? crc32_hash (take cbor_end data).

(** ** Replay *)

(** One iteration on the bytes from [pos] on: the entry and its size, or
    [None] where the loop stops. *)
Definition read_entry (legacy has_crc : bool) (data : list Z) : option (WalEntry * nat) :=
  let header_size := if legacy then WAL_HEADER_SIZE_LEGACY else WAL_HEADER_SIZE in
  if (length data <? header_size)%nat then None
  else if negb (starts_with_magic 0 data) then None
  else
    let slot := be_value (slice 4 8 data) in
    let block_no := be_value (slice 12 8 data) in
    let hash := slice 20 32 data in
    let '(prev_hash, cbor_len) :=
      if legacy then (hash_zero, u32_at 52 data) else (slice 52 32 data, u32_at 84 data) in
    let cbor_end := (header_size + cbor_len)%nat in
    if (length data <? cbor_end)%nat then None
    else
      let e := mkWalEntry slot block_no hash prev_hash (negb legacy)
                 (slice header_size cbor_len data) in
      if has_crc then
        if (length data <? cbor_end + WAL_CRC_SIZE)%nat then None
        else
          let stored_crc := be_value (slice cbor_end WAL_CRC_SIZE data) in
          if negb (stored_crc =? crc32_hash (take cbor_end data)) then None
          else Some (e, (cbor_end + WAL_CRC_SIZE)%nat)
      else Some (e, cbor_end).

(** [while pos < data.len()]; an entry has a header, so the length of the file
    bounds the iterations. *)
Fixpoint replay_entries (fuel : nat) (legacy has_crc : bool) (data : list Z) : list WalEntry :=
  match fuel with
  | O => []
  | S fuel =>
      match read_entry legacy has_crc data with
      | None => []
      | Some (e, n) => e :: replay_entries fuel legacy has_crc (drop n data)
      end
  end.

(** [None] is a missing file. *)
Definition vol_replay_wal (file : option (list Z)) : list WalEntry :=
  match file with
  | None => []
  | Some data =>
      if (length data =? 0)%nat then []
      else
        let legacy := detect_legacy_format data in
        let has_crc := negb legacy && detect_crc_format data in
        replay_entries (length data) legacy has_crc data
  end.

(** ** Lemmas *)

Lemma slice_app_skip off n l1 l2 :
  length l1 = off → slice off n (l1 ++ l2) = take n l2.
Proof. intros <-. unfold slice. by rewrite drop_app_length. Qed.

Lemma slice_field off n pre x post :
  length pre = off → length x = n → slice off n (pre ++ x ++ post) = x.
Proof. intros Hp Hx. rewrite slice_app_skip by done. by apply take_app_length'. Qed.

(** What [append] accepts: hashes of 32 bytes, [u64] numbers, a length in 32
    bits. *)
Record entry_wf (e : WalEntry) : Prop := {
  wf_slot : u64 (we_slot e);
  wf_no : u64 (we_block_no e);
  wf_hash : length (we_hash e) = 32%nat;
  wf_prev : length (we_prev_hash e) = 32%nat;
  wf_known : we_prev_hash_known e = true;
  wf_cbor : Z.of_nat (length (we_cbor e)) ≤ u32_max;
}.

Definition entry_header (e : WalEntry) : list Z :=
  wal_header (we_slot e) (we_block_no e) (we_hash e) (we_prev_hash e)
    (Z.of_nat (length (we_cbor e))).

Definition entry_frame (e : WalEntry) : list Z :=
  entry_header e ++ we_cbor e ++ be_bytes 4 (crc32_hash (entry_header e ++ we_cbor e)).

Lemma wal_frame_entry e :
  entry_wf e →
  wal_frame (we_slot e) (we_block_no e) (we_hash e) (we_prev_hash e) (we_cbor e)
  = Some (entry_frame e).
Proof.
  intros [_ _ _ _ _ H]. unfold wal_frame. by destruct (Z.leb_spec (Z.of_nat (length (we_cbor e))) u32_max); [|lia].
Qed.

Lemma length_header e : entry_wf e → length (entry_header e) = 88%nat.
Proof.
  intros [_ _ Hh Hp _ _]. unfold entry_header, wal_header.
  rewrite !length_app, !length_be_bytes, Hh, Hp. done.
Qed.

Lemma header_fields e tail :
  entry_wf e →
  let data := entry_header e ++ tail in
  slice 0 4 data = WAL_MAGIC ∧ be_value (slice 4 8 data) = we_slot e ∧
  be_value (slice 12 8 data) = we_block_no e ∧ slice 20 32 data = we_hash e ∧
  slice 52 32 data = we_prev_hash e ∧ u32_at 84 data = length (we_cbor e).
Proof.
  intros [[Hs1 Hs2] [Hn1 Hn2] Hh Hp _ Hc] data. unfold data, entry_header, wal_header, u32_at.
  set (m := be_bytes 8 (we_slot e)). set (n := be_bytes 8 (we_block_no e)).
  set (l := be_bytes 4 (Z.of_nat (length (we_cbor e)))).
  assert (length m = 8%nat) as Hm by apply length_be_bytes.
  assert (length n = 8%nat) as Hn by apply length_be_bytes.
  assert (length l = 4%nat) as Hl by apply length_be_bytes.
  rewrite <- !app_assoc. unfold u64, u64_max, u32_max in *. split_and!.
  - done.
  - rewrite (slice_field 4 8 WAL_MAGIC m) by done. apply be_value_bytes. simpl. lia.
  - rewrite (app_assoc WAL_MAGIC), (slice_field 12 8 (WAL_MAGIC ++ m) n);
      [apply be_value_bytes; simpl; lia|rewrite length_app, Hm; done|done].
  - rewrite (app_assoc WAL_MAGIC), (app_assoc _ n), (slice_field 20 32 _ (we_hash e));
      [done|rewrite !length_app, Hm, Hn; done|done].
  - rewrite (app_assoc WAL_MAGIC), (app_assoc _ n), (app_assoc _ (we_hash e)),
      (slice_field 52 32 _ (we_prev_hash e));
      [done|rewrite !length_app, Hm, Hn, Hh; done|done].
  - rewrite (app_assoc WAL_MAGIC), (app_assoc _ n), (app_assoc _ (we_hash e)),
      (app_assoc _ (we_prev_hash e)), (slice_field 84 4 _ l);
      [|rewrite !length_app, Hm, Hn, Hh, Hp; done|done].
    unfold l. rewrite be_value_bytes by (simpl; lia). lia.
Qed.

Lemma length_frame e :
  entry_wf e → length (entry_frame e) = (88 + length (we_cbor e) + 4)%nat.
Proof.
  intros H. unfold entry_frame. rewrite !length_app, length_header, length_be_bytes by done. lia.
Qed.

Lemma frame_app e tail :
  entry_frame e ++ tail = entry_header e ++
    (we_cbor e ++ be_bytes 4 (crc32_hash (entry_header e ++ we_cbor e)) ++ tail).
Proof. unfold entry_frame. by rewrite <- !app_assoc. Qed.

Lemma frame_fields e tail :
  entry_wf e →
  let data := entry_frame e ++ tail in
  slice 0 4 data = WAL_MAGIC ∧ be_value (slice 4 8 data) = we_slot e ∧
  be_value (slice 12 8 data) = we_block_no e ∧ slice 20 32 data = we_hash e ∧
  slice 52 32 data = we_prev_hash e ∧ u32_at 84 data = length (we_cbor e).
Proof. intros H data. unfold data. rewrite frame_app. by apply header_fields. Qed.

Context {CROK : CratesOk}.

(** The CRC trailer as the readers see it. *)
Lemma frame_crc e tail :
  entry_wf e →
  let data := entry_frame e ++ tail in
  let cbor_end := (88 + length (we_cbor e))%nat in
  be_value (slice cbor_end 4 data) = crc32_hash (take cbor_end data).
Proof.
  intros H data cbor_end. unfold data, entry_frame. rewrite <- !app_assoc, (app_assoc (entry_header e)).
  assert (length (entry_header e ++ we_cbor e) = cbor_end) as Hl.
  { rewrite length_app, length_header by done. done. }
  rewrite slice_field, take_app_length' by (done || apply length_be_bytes).
  apply be_value_bytes. apply crc32_u32.
Qed.

Lemma read_entry_frame e tail :
  entry_wf e →
  read_entry false true (entry_frame e ++ tail) = Some (e, length (entry_frame e)).
Proof.
  intros H. pose proof (frame_crc e tail H) as Hcrc. cbv zeta in Hcrc.
  unfold read_entry, WAL_HEADER_SIZE, WAL_CRC_SIZE, starts_with_magic.
  rewrite !length_app, length_frame by done.
  destruct (frame_fields e tail H) as (F1 & F2 & F3 & F4 & F5 & F6).
  rewrite F1, F2, F3, F4, F5, F6, bool_decide_eq_true_2 by done. cbn [negb]. cbv zeta iota beta.
  rewrite Hcrc, Z.eqb_refl.
  repeat match goal with |- context [(?x <? ?y)%nat] => destruct (Nat.ltb_spec x y); [lia|] end.
  do 2 f_equal. rewrite frame_app, slice_field by (done || by apply length_header).
  destruct H. destruct e; simpl in *. by subst.
Qed.

Lemma read_entry_torn e n :
  entry_wf e → (n < length (entry_frame e))%nat →
  read_entry false true (take n (entry_frame e)) = None.
Proof.
  intros H Hn. assert (length (take n (entry_frame e)) = n) as Hl by (rewrite length_take; lia).
  rewrite length_frame in Hn by done.
  unfold read_entry, WAL_HEADER_SIZE, WAL_CRC_SIZE. rewrite Hl.
  destruct (Nat.ltb_spec n 88) as [|H88]; [done|]. case_match; [done|].
  assert (take n (entry_frame e) = entry_header e ++
    take (n - 88) (we_cbor e ++ be_bytes 4 (crc32_hash (entry_header e ++ we_cbor e)))) as Hd.
  { unfold entry_frame. rewrite take_app, length_header, take_ge by (rewrite ?length_header; done). done. }
  rewrite Hd. destruct (header_fields e (take (n - 88) (we_cbor e ++
    be_bytes 4 (crc32_hash (entry_header e ++ we_cbor e)))) H) as (_ & _ & _ & _ & _ & F6).
  rewrite F6. repeat (case_match; [done|]). 
  repeat match goal with H : (_ <? _)%nat = false |- _ => apply Nat.ltb_ge in H end. lia.
Qed.

(** Frames followed by a torn frame replay to the entries of the frames. *)
Lemma vol_replay_frames es e n fuel :
  Forall entry_wf es → entry_wf e → (n < length (entry_frame e))%nat → (length es < fuel)%nat →
  replay_entries fuel false true (mjoin (entry_frame <$> es) ++ take n (entry_frame e)) = es.
Proof.
  intros Hes He Hn. revert fuel. induction Hes as [|e0 es He0 Hes IH]; intros [|fuel] Hf;
    [lia| |simpl in Hf; lia|].
  - cbn [fmap list_fmap mjoin list_join app replay_entries]. by rewrite read_entry_torn.
  - rewrite fmap_cons, mjoin_cons, <- app_assoc. cbn [replay_entries].
    rewrite read_entry_frame, drop_app_length by done. f_equal. apply IH. simpl in Hf. lia.
Qed.

Lemma detect_crc_frame e tail : entry_wf e → detect_crc_format (entry_frame e ++ tail) = true.
Proof.
  intros H. pose proof (frame_crc e tail H) as Hcrc. cbv zeta in Hcrc.
  unfold detect_crc_format, WAL_HEADER_SIZE, WAL_CRC_SIZE, starts_with_magic.
  rewrite length_app, length_frame by done.
  destruct (frame_fields e tail H) as (F1 & _ & _ & _ & _ & F6).
  rewrite F1, F6, bool_decide_eq_true_2 by done. cbn [negb]. cbv zeta.
  repeat match goal with |- context [(?x <? ?y)%nat] => destruct (Nat.ltb_spec x y); [lia|] end.
  apply Z.eqb_eq. apply Hcrc.
Qed.

(** The first entry of a file of [len] bytes cannot be read as a legacy entry:
    its parent is the origin, or the number in the first four bytes of the
    parent hash leads past the end. *)
Definition no_alias (e : WalEntry) (len : nat) : Prop :=
  we_prev_hash e = hash_zero ∨ (len < 56 + Z.to_nat (be_value (take 4 (we_prev_hash e))))%nat.

#[global] Instance no_alias_dec e len : Decision (no_alias e len).
Proof. unfold no_alias. apply _. Defined.

Lemma slice_slice off n off' n' data :
  (off' + n' ≤ n)%nat → slice (off + off') n' data = take n' (drop off' (slice off n data)).
Proof.
  intros H. unfold slice. rewrite <- drop_drop, !take_drop_commute, take_take.
  do 3 f_equal. lia.
Qed.

Lemma detect_legacy_header e tail :
  entry_wf e → (4 ≤ length tail)%nat → no_alias e (length (entry_header e ++ tail)) →
  detect_legacy_format (entry_header e ++ tail) = false.
Proof.
  intros H Ht Ha. destruct (header_fields e tail H) as (_ & _ & _ & _ & F5 & _).
  pose proof (slice_slice 52 32 0 4 (entry_header e ++ tail) ltac:(lia)) as S0.
  pose proof (slice_slice 52 32 4 4 (entry_header e ++ tail) ltac:(lia)) as S4.
  rewrite F5 in S0, S4. change (52 + 0)%nat with 52%nat in S0. change (52 + 4)%nat with 56%nat in S4.
  assert (92 ≤ length (entry_header e ++ tail))%nat as Hlen.
  { rewrite length_app, length_header by done. lia. }
  unfold detect_legacy_format, WAL_HEADER_SIZE_LEGACY, WAL_HEADER_SIZE, u32_at, starts_with_magic.
  rewrite S0, drop_0. case_match; [done|]. case_match; [done|]. destruct Ha as [Hz|Hfar].
  - rewrite Hz in S4 |- *. change (Z.to_nat (be_value (take 4 hash_zero))) with 0%nat.
    rewrite Nat.add_0_r, S4. change (bool_decide (take 4 (drop 4 hash_zero) = WAL_MAGIC)) with false.
    rewrite andb_false_r. repeat case_match; try done.
    repeat match goal with H : (_ =? _)%nat = true |- _ => apply Nat.eqb_eq in H end. lia.
  - case_match; [done|]. match goal with H : (_ <? _)%nat = false |- _ => apply Nat.ltb_ge in H end.
    lia.
Qed.

(** The file after a sequence of [append]s. *)
Definition append_all (es : list WalEntry) (file : list Z) : list Z :=
  foldl (λ file e, wal_append (we_slot e) (we_block_no e) (we_hash e) (we_prev_hash e) (we_cbor e) file)
    file es.

Lemma append_all_frames es file :
  Forall entry_wf es → append_all es file = file ++ mjoin (entry_frame <$> es).
Proof.
  intros H. revert file. induction H as [|e es He _ IH]; intros file; [by rewrite app_nil_r|].
  unfold append_all in *. cbn [foldl]. rewrite IH. unfold wal_append.
  rewrite wal_frame_entry by done. by rewrite fmap_cons, mjoin_cons, app_assoc.
Qed.

Lemma length_frames es :
  Forall entry_wf es → (92 * length es ≤ length (mjoin (entry_frame <$> es)))%nat.
Proof.
  induction 1 as [|e es He _ IH]; [done|].
  rewrite fmap_cons, mjoin_cons, length_app, length_frame by done. simpl. lia.
Qed.

(** The log of the volatile store survives a crash while it is appended to.
    After any appends, cutting the last frame at any byte, the replay returns
    exactly the complete entries in order, with their slots, block numbers,
    hashes, parents and bodies, provided that the first entry is complete and
    cannot be taken for one of the old format. *)
Theorem volatile_wal_recovers e0 es e n
    (Hes : Forall entry_wf (e0 :: es)) (He : entry_wf e) (Hn : (n < length (entry_frame e))%nat)
    (Ha : no_alias e0 (length (append_all (e0 :: es) [] ++ take n (entry_frame e)))) :
  vol_replay_wal (Some (append_all (e0 :: es) [] ++ take n (entry_frame e))) = e0 :: es.
Proof.
  rewrite append_all_frames in * by done. rewrite app_nil_l in *.
  pose proof (length_frames _ Hes) as Hl. pose proof (Forall_inv Hes) as He0.
  unfold vol_replay_wal. rewrite fmap_cons, mjoin_cons, <- app_assoc in *.
  rewrite detect_crc_frame by done. rewrite frame_app in Ha |- *.
  rewrite detect_legacy_header; [|done|rewrite !length_app, length_be_bytes; lia|done].
  rewrite <- frame_app in Ha |- *. cbn [negb andb].
  case_match eqn:E0.
  { apply Nat.eqb_eq in E0. rewrite length_app, length_frame in E0 by done. lia. }
  rewrite app_assoc, <- mjoin_cons, <- fmap_cons. apply vol_replay_frames; [done..|].
  rewrite fmap_cons, mjoin_cons, !length_app in *. simpl in *. lia.
Qed.

(** Without checksums a complete body is enough. *)
Lemma read_entry_plain e tail :
  entry_wf e →
  read_entry false false (entry_header e ++ we_cbor e ++ tail)
  = Some (e, (88 + length (we_cbor e))%nat).
Proof.
  intros H. destruct (header_fields e (we_cbor e ++ tail) H) as (F1 & F2 & F3 & F4 & F5 & F6).
  unfold read_entry, WAL_HEADER_SIZE, starts_with_magic.
  rewrite F1, F2, F3, F4, F5, F6, !length_app, length_header, bool_decide_eq_true_2 by done.
  cbn [negb]. cbv zeta iota beta.
  repeat match goal with |- context [(?x <? ?y)%nat] => destruct (Nat.ltb_spec x y); [lia|] end.
  do 2 f_equal. rewrite slice_field by (done || by apply length_header).
  destruct H. destruct e; simpl in *. by subst.
Qed.

Lemma detect_crc_mismatch e crc :
  entry_wf e → 0 ≤ crc < 2 ^ 32 → crc ≠ crc32_hash (entry_header e ++ we_cbor e) →
  detect_crc_format (entry_header e ++ we_cbor e ++ be_bytes 4 crc) = false.
Proof.
  intros H Hr Hne. destruct (header_fields e (we_cbor e ++ be_bytes 4 crc) H) as (_ & _ & _ & _ & _ & F6).
  unfold detect_crc_format, WAL_HEADER_SIZE, WAL_CRC_SIZE. rewrite F6. repeat (case_match; [done|]).
  assert (length (entry_header e ++ we_cbor e) = (88 + length (we_cbor e))%nat) as Hl.
  { by rewrite length_app, length_header. }
  rewrite app_assoc, take_app_length' by done.
  rewrite <- (app_nil_r (be_bytes 4 crc)), slice_field by (done || apply length_be_bytes).
  apply Z.eqb_neq. by rewrite be_value_bytes.
Qed.

(** [e] with another body. *)
Definition with_cbor (cbor : list Z) (e : WalEntry) : WalEntry :=
  mkWalEntry (we_slot e) (we_block_no e) (we_hash e) (we_prev_hash e) (we_prev_hash_known e) cbor.

(** The checksum does not protect the first entry of a file. If the body of
    a file's only entry is damaged, so that its CRC no longer fits, the file is
    taken for one of the format without checksums and the damaged entry is
    replayed as if it were sound. *)
Theorem volatile_wal_first_entry_unchecked e cbor'
    (He : entry_wf e) (Hlen : length cbor' = length (we_cbor e))
    (Hcrc : crc32_hash (entry_header e ++ cbor') ≠ crc32_hash (entry_header e ++ we_cbor e))
    (Ha : no_alias e (length (entry_frame e))) :
  vol_replay_wal
    (Some (entry_header e ++ cbor' ++ be_bytes 4 (crc32_hash (entry_header e ++ we_cbor e))))
  = [with_cbor cbor' e].
Proof.
  set (e' := with_cbor cbor' e).
  assert (entry_wf e') as He' by (destruct He; split; try done; simpl; by rewrite Hlen).
  assert (entry_header e = entry_header e') as Hh by (unfold entry_header; simpl; by rewrite Hlen).
  set (crc := crc32_hash (entry_header e ++ we_cbor e)) in *.
  pose proof (crc32_u32 (entry_header e ++ we_cbor e)) as Hr.
  change cbor' with (we_cbor e') in Hcrc |- * at 1. rewrite Hh in Hcrc |- *.
  assert (length (entry_header e' ++ we_cbor e' ++ be_bytes 4 crc) = (92 + length cbor')%nat) as Hl.
  { rewrite !length_app, length_header, length_be_bytes by done. simpl. lia. }
  unfold vol_replay_wal. rewrite detect_crc_mismatch by done.
  rewrite detect_legacy_header; [|done|rewrite length_app, length_be_bytes; lia|].
  2:{ rewrite Hl. unfold no_alias in *. rewrite length_frame, <- Hlen in Ha by done. simpl.
      destruct Ha; [by left|right; lia]. }
  cbn [negb andb]. rewrite Hl. cbn [Nat.eqb Nat.add replay_entries].
  rewrite read_entry_plain, app_assoc, drop_app_length' by
    (done || by rewrite length_app, length_header). done.
Qed.

End vol_wal.

(** ** Witnesses and examples *)

#[local] Existing Instance demo_crates.
#[local] Existing Instance demo_crates_ok.

Definition demo_entry (n : Z) (prev : Hash32) : WalEntry :=
  mkWalEntry (10 * n) n (replicate 32 n) prev true [n; 0; 255].

Definition entry_wfb (e : WalEntry) : bool :=
  bool_decide (u64 (we_slot e)) && bool_decide (u64 (we_block_no e)) &&
  (length (we_hash e) =? 32)%nat && (length (we_prev_hash e) =? 32)%nat &&
  we_prev_hash_known e && (Z.of_nat (length (we_cbor e)) <=? u32_max).

Lemma entry_wfb_ok e : entry_wfb e = true → entry_wf e.
Proof.
  unfold entry_wfb. rewrite !andb_true_iff, !bool_decide_eq_true, !Nat.eqb_eq, Z.leb_le.
  intros [[[[[? ?] ?] ?] ?] ?]. by split.
Qed.

Lemma volatile_wal_witness :
  let e0 := demo_entry 1 hash_zero in
  let e1 := demo_entry 2 (replicate 32 1) in
  let e2 := demo_entry 3 (replicate 32 2) in
  vol_replay_wal (Some (append_all [e0; e1] [] ++ take 93 (entry_frame e2))) = [e0; e1].
Proof.
  intros e0 e1 e2. apply (volatile_wal_recovers e0 [e1] e2 93).
  - repeat constructor; by apply entry_wfb_ok.
  - by apply entry_wfb_ok.
  - by apply Nat.ltb_lt.
  - by left.
Defined.

Lemma volatile_wal_first_entry_witness :
  let e := demo_entry 1 hash_zero in
  vol_replay_wal (Some (entry_header e ++ [9; 9; 9] ++
    be_bytes 4 (crc32_hash (entry_header e ++ we_cbor e)))) = [with_cbor [9; 9; 9] e].
Proof.
  intros e. apply (volatile_wal_first_entry_unchecked e [9; 9; 9]).
  - by apply entry_wfb_ok.
  - done.
  - by vm_compute.
  - by left.
Defined.

(** A log in the current format can be taken for a legacy one. When the
    first four bytes of the first parent hash, read as a length, lead to the
    second entry, the replay reads 56-byte headers: the entries come back
    without their parents and with bodies cut out of the wrong bytes. *)
Theorem volatile_wal_taken_for_legacy :
  let e0 := demo_entry 1 (be_bytes 4 39 ++ replicate 28 7) in
  let e1 := demo_entry 2 (replicate 32 1) in
  let file := append_all [e0; e1] [] in
  entry_wf e0 ∧ entry_wf e1 ∧
  we_prev_hash <$> vol_replay_wal (Some file) = [hash_zero] ∧
  (we_cbor <$> vol_replay_wal (Some file)) ≠ [we_cbor e0].
Proof. split_and!; [by apply entry_wfb_ok..|by vm_compute|by vm_compute]. Qed.
