(* ===== verification/VolatileDb.v ===== *)
(** * The volatile store ([crates/dugite-storage/src/volatile_db.rs], second part)

    Recent blocks of all forks with their indexes, and the selected chain.
    Every method is a function on the record [VolatileDB]. [Instant::now()] is
    an argument. The iteration order of a [HashMap] is unspecified:
    [map_to_list] stands for it, and the theorems do not depend on it. A
    [BTreeMap] is a finite map whose ranges are read in key order. The log is
    the content of its file, or [None] when the store was made without one;
    log messages and [fsync] are left out. *)

From S2P Require Import Prelude Order Bytes EraHistory Block ChainFragment VolatileWal.
Local Open Scope Z_scope.

Record VolatileBlock := mkVBlock {
  vb_slot : Z;
  vb_block_no : Z;
  vb_prev_hash : Hash32;
  vb_cbor : list Z;
}.

#[global] Instance VolatileBlock_eq_dec : EqDecision VolatileBlock.
Proof. solve_decision. Defined.

Record SwitchPlan := mkPlan {
  sp_intersection : Hash32;
  sp_intersection_slot : Z;
  sp_rollback : list Hash32;
  sp_apply : list Hash32;
}.

Record VolatileDB := mkVol {
  v_blocks : gmap Hash32 VolatileBlock;
  v_slot_index : gmap Z (list Hash32);
  v_block_no_index : gmap Z Hash32;
  v_successors : gmap Hash32 (gset Hash32);
  v_leaves : gset Hash32;
  v_unknown_prev : gset Hash32;
  v_tip : option (Z * Hash32 * Z);
  v_wal : option (list Z);
  v_wal_size_floor : Z;
  v_selected_chain : list Hash32;
  v_gc_schedule : gmap Hash32 Z;
  v_headers : gmap Hash32 BlockHeader;
}.

(** ** Field updates *)

Definition with_blocks x (d : VolatileDB) : VolatileDB :=
  mkVol x (v_slot_index d) (v_block_no_index d) (v_successors d) (v_leaves d) (v_unknown_prev d)
    (v_tip d) (v_wal d) (v_wal_size_floor d) (v_selected_chain d) (v_gc_schedule d) (v_headers d).
Definition with_slot_index x (d : VolatileDB) : VolatileDB :=
  mkVol (v_blocks d) x (v_block_no_index d) (v_successors d) (v_leaves d) (v_unknown_prev d)
    (v_tip d) (v_wal d) (v_wal_size_floor d) (v_selected_chain d) (v_gc_schedule d) (v_headers d).
Definition with_block_no_index x (d : VolatileDB) : VolatileDB :=
  mkVol (v_blocks d) (v_slot_index d) x (v_successors d) (v_leaves d) (v_unknown_prev d)
    (v_tip d) (v_wal d) (v_wal_size_floor d) (v_selected_chain d) (v_gc_schedule d) (v_headers d).
Definition with_successors x (d : VolatileDB) : VolatileDB :=
  mkVol (v_blocks d) (v_slot_index d) (v_block_no_index d) x (v_leaves d) (v_unknown_prev d)
    (v_tip d) (v_wal d) (v_wal_size_floor d) (v_selected_chain d) (v_gc_schedule d) (v_headers d).
Definition with_leaves x (d : VolatileDB) : VolatileDB :=
  mkVol (v_blocks d) (v_slot_index d) (v_block_no_index d) (v_successors d) x (v_unknown_prev d)
    (v_tip d) (v_wal d) (v_wal_size_floor d) (v_selected_chain d) (v_gc_schedule d) (v_headers d).
Definition with_unknown_prev x (d : VolatileDB) : VolatileDB :=
  mkVol (v_blocks d) (v_slot_index d) (v_block_no_index d) (v_successors d) (v_leaves d) x
    (v_tip d) (v_wal d) (v_wal_size_floor d) (v_selected_chain d) (v_gc_schedule d) (v_headers d).
Definition with_tip x (d : VolatileDB) : VolatileDB :=
  mkVol (v_blocks d) (v_slot_index d) (v_block_no_index d) (v_successors d) (v_leaves d)
    (v_unknown_prev d) x (v_wal d) (v_wal_size_floor d) (v_selected_chain d) (v_gc_schedule d) (v_headers d).
Definition with_wal x (d : VolatileDB) : VolatileDB :=
  mkVol (v_blocks d) (v_slot_index d) (v_block_no_index d) (v_successors d) (v_leaves d)
    (v_unknown_prev d) (v_tip d) x (v_wal_size_floor d) (v_selected_chain d) (v_gc_schedule d) (v_headers d).
Definition with_wal_size_floor x (d : VolatileDB) : VolatileDB :=
  mkVol (v_blocks d) (v_slot_index d) (v_block_no_index d) (v_successors d) (v_leaves d)
    (v_unknown_prev d) (v_tip d) (v_wal d) x (v_selected_chain d) (v_gc_schedule d) (v_headers d).
Definition with_selected_chain x (d : VolatileDB) : VolatileDB :=
  mkVol (v_blocks d) (v_slot_index d) (v_block_no_index d) (v_successors d) (v_leaves d)
    (v_unknown_prev d) (v_tip d) (v_wal d) (v_wal_size_floor d) x (v_gc_schedule d) (v_headers d).
Definition with_gc_schedule x (d : VolatileDB) : VolatileDB :=
  mkVol (v_blocks d) (v_slot_index d) (v_block_no_index d) (v_successors d) (v_leaves d)
    (v_unknown_prev d) (v_tip d) (v_wal d) (v_wal_size_floor d) (v_selected_chain d) x (v_headers d).
Definition with_headers x (d : VolatileDB) : VolatileDB :=
  mkVol (v_blocks d) (v_slot_index d) (v_block_no_index d) (v_successors d) (v_leaves d)
    (v_unknown_prev d) (v_tip d) (v_wal d) (v_wal_size_floor d) (v_selected_chain d) (v_gc_schedule d) x.

Definition vol_new : VolatileDB :=
  mkVol ∅ ∅ ∅ ∅ ∅ ∅ None None 0 [] ∅ ∅.

(** ** Shared steps *)

(** [entry(k).or_default().insert(x)] *)
Definition succ_add (p c : Hash32) (m : gmap Hash32 (gset Hash32)) : gmap Hash32 (gset Hash32) :=
  <[p := {[c]} ∪ default ∅ (m !! p)]> m.

(** Remove [c] from the set of [p], and the set when it becomes empty. *)
Definition succ_remove (p c : Hash32) (m : gmap Hash32 (gset Hash32)) : gmap Hash32 (gset Hash32) :=
  match m !! p with
  | None => m
  | Some succs =>
      let succs := succs ∖ {[c]} in
      if decide (succs = ∅) then delete p m else <[p := succs]> m
  end.

(** [successors.get(&h).is_none_or(|s| s.is_empty())] *)
Definition childless (m : gmap Hash32 (gset Hash32)) (h : Hash32) : bool :=
  match m !! h with None => true | Some s => bool_decide (s = ∅) end.

(** Remove a hash from the vector of a slot, and the vector when it is empty. *)
Definition slot_remove (slot : Z) (h : Hash32) (m : gmap Z (list Hash32)) : gmap Z (list Hash32) :=
  match m !! slot with
  | None => m
  | Some hashes =>
      let hashes := filter (λ x, x ≠ h) hashes in
      if decide (hashes = []) then delete slot m else <[slot := hashes]> m
  end.

(** Remove the entry of a block number if it names [h]. *)
Definition no_remove (no : Z) (h : Hash32) (m : gmap Z Hash32) : gmap Z Hash32 :=
  if decide (m !! no = Some h) then delete no m else m.

Definition note_leaf_removal (removed removed_prev : Hash32) (d : VolatileDB) : VolatileDB :=
  let leaves := v_leaves d ∖ {[removed]} in
  with_leaves
    (if bool_decide (is_Some (v_blocks d !! removed_prev)) && childless (v_successors d) removed_prev
     then {[removed_prev]} ∪ leaves else leaves) d.

(** [(b.slot, *h, b.block_no)] of a stored block *)
Definition tip_of (d : VolatileDB) (h : Hash32) : option (Z * Hash32 * Z) :=
  (λ b, (vb_slot b, h, vb_block_no b)) <$> v_blocks d !! h.

Definition recompute_tip (d : VolatileDB) : VolatileDB :=
  with_tip (last (v_selected_chain d) ≫= tip_of d) d.

(** ** The log *)

Section vol_ops.
Context {CR : Crates}.

Definition WAL_COMPACTION_SLACK_BYTES : Z := 400 * 1024 * 1024.

Definition remaining_entries (d : VolatileDB) : list (Z * Z * Hash32 * Hash32 * list Z) :=
  (λ hb : Hash32 * VolatileBlock,
     (vb_slot hb.2, vb_block_no hb.2, hb.1, vb_prev_hash hb.2, vb_cbor hb.2))
  <$> map_to_list (v_blocks d).

Definition rewrite_wal (d : VolatileDB) : VolatileDB :=
  match v_wal d with
  | None => d
  | Some file => with_wal (Some (wal_rewrite (remaining_entries d) file)) d
  end.

Definition compact_wal (d : VolatileDB) : VolatileDB :=
  match v_wal d with
  | None => d
  | Some file =>
      match wal_rewrite_frames (remaining_entries d) with
      | Some bytes =>
          with_wal_size_floor (Z.of_nat (length bytes)) (with_wal (Some bytes) d)
      | None => d
      end
  end.

Definition maybe_compact_wal (d : VolatileDB) : VolatileDB :=
  match v_wal d with
  | None => d
  | Some file =>
      let threshold := saturating_add64 (v_wal_size_floor d) WAL_COMPACTION_SLACK_BYTES in
      if threshold <? Z.of_nat (length file) then compact_wal d else d
  end.

(** ** Adding blocks *)

Definition insert_block_internal (hash : Hash32) (slot block_no : Z) (prev_hash : Hash32)
    (cbor : list Z) (allow_extend : bool) (d : VolatileDB) : bool * VolatileDB :=
  let d := with_successors (succ_add prev_hash hash (v_successors d)) d in
  let d := with_slot_index
             (<[slot := default [] (v_slot_index d !! slot) ++ [hash]]> (v_slot_index d)) d in
  let d := with_blocks (<[hash := mkVBlock slot block_no prev_hash cbor]> (v_blocks d)) d in
  let d := with_leaves (v_leaves d ∖ {[prev_hash]}) d in
  let d := if childless (v_successors d) hash then with_leaves ({[hash]} ∪ v_leaves d) d else d in
  let extends :=
    allow_extend &&
    match last (v_selected_chain d) with
    | Some tip_hash => bool_decide (prev_hash = tip_hash)
    | None => true
    end in
  if extends then
    let d := with_selected_chain (v_selected_chain d ++ [hash]) d in
    let d := with_block_no_index (<[block_no := hash]> (v_block_no_index d)) d in
    (true, with_tip (Some (slot, hash, block_no)) d)
  else (false, d).

Definition append_wal (hash : Hash32) (slot block_no : Z) (prev_hash : Hash32) (cbor : list Z)
    (d : VolatileDB) : VolatileDB :=
  match v_wal d with
  | None => d
  | Some file => with_wal (Some (wal_append slot block_no hash prev_hash cbor file)) d
  end.

Definition add_block (hash : Hash32) (slot block_no : Z) (prev_hash : Hash32) (cbor : list Z)
    (d : VolatileDB) : bool * VolatileDB :=
  let d := maybe_compact_wal d in
  let d := append_wal hash slot block_no prev_hash cbor d in
  insert_block_internal hash slot block_no prev_hash cbor true d.

Definition add_block_gated (hash : Hash32) (slot block_no : Z) (prev_hash : Hash32)
    (cbor : list Z) (allow_extend : bool) (d : VolatileDB) : bool * VolatileDB :=
  if allow_extend then add_block hash slot block_no prev_hash cbor d
  else
    let d := maybe_compact_wal d in
    let d := append_wal hash slot block_no prev_hash cbor d in
    insert_block_internal hash slot block_no prev_hash cbor false d.

Definition add_block_with_header (hash : Hash32) (slot block_no : Z) (prev_hash : Hash32)
    (cbor : list Z) (header : BlockHeader) (d : VolatileDB) : bool * VolatileDB :=
  add_block hash slot block_no prev_hash cbor (with_headers (<[hash := header]> (v_headers d)) d).

Definition add_block_with_header_gated (hash : Hash32) (slot block_no : Z) (prev_hash : Hash32)
    (cbor : list Z) (header : BlockHeader) (allow_extend : bool) (d : VolatileDB)
  : bool * VolatileDB :=
  add_block_gated hash slot block_no prev_hash cbor allow_extend
    (with_headers (<[hash := header]> (v_headers d)) d).

Definition get_header (d : VolatileDB) (hash : Hash32) : option BlockHeader := v_headers d !! hash.

Definition truncate_selection_to_depth (max_depth : Z) (d : VolatileDB) : nat * VolatileDB :=
  let len := Z.of_nat (length (v_selected_chain d)) in
  if len <=? max_depth then (0%nat, d)
  else
    let keep := Z.to_nat max_depth in
    let dropped := drop keep (v_selected_chain d) in
    let d := with_selected_chain (take keep (v_selected_chain d)) d in
    let d := with_block_no_index
      (foldl (λ m h, match v_blocks d !! h with Some b => delete (vb_block_no b) m | None => m end)
         (v_block_no_index d) dropped) d in
    (length dropped, with_tip (last (v_selected_chain d) ≫= tip_of d) d).

(** ** Reading *)

Definition get_block (d : VolatileDB) (hash : Hash32) : option VolatileBlock := v_blocks d !! hash.
Definition get_block_cbor (d : VolatileDB) (hash : Hash32) : option (list Z) :=
  vb_cbor <$> v_blocks d !! hash.
Definition has_block (d : VolatileDB) (hash : Hash32) : bool :=
  bool_decide (is_Some (v_blocks d !! hash)).
Definition get_successors (d : VolatileDB) (hash : Hash32) : option (gset Hash32) :=
  v_successors d !! hash.

(** [BTreeMap::range]: the entries with a key in [lo, hi], in key order *)
Definition btree_range {A} (lo hi : Z) (m : gmap Z A) : list (Z * A) :=
  omap (λ k, (λ x, (k, x)) <$> m !! k)
    (filter (λ k, lo ≤ k ≤ hi) (merge_sort Z.le (map_to_list m).*1)).

(** The first block on the selected chain in a list of slots. *)
Definition first_on_chain (d : VolatileDB) (slots : list (Z * list Hash32))
  : option (Z * Hash32 * list Z) :=
  head (omap (λ sh : Z * Hash32,
          if bool_decide (sh.2 ∈ v_selected_chain d) then
            (λ b, (sh.1, sh.2, vb_cbor b)) <$> v_blocks d !! sh.2
          else None)
        (slots ≫= λ '(slot, hashes), (λ h, (slot, h)) <$> hashes)).

Definition get_next_block_after_slot (d : VolatileDB) (after_slot : Z)
  : option (Z * Hash32 * list Z) :=
  first_on_chain d (btree_range (wrapping_add64 after_slot 1) u64_max (v_slot_index d)).

Definition get_block_at_or_after_slot (d : VolatileDB) (slot : Z) : option (Z * Hash32 * list Z) :=
  first_on_chain d (btree_range slot u64_max (v_slot_index d)).

(** [Iterator::position] *)
Fixpoint position {A} (p : A → bool) (l : list A) : option nat :=
  match l with
  | [] => None
  | x :: l' => if p x then Some 0%nat else S <$> position p l'
  end.

Definition get_next_block_after_point (d : VolatileDB) (hash : Hash32)
  : option (Z * Hash32 * list Z) :=
  pos ← position (λ h, bool_decide (h = hash)) (v_selected_chain d);
  next_hash ← v_selected_chain d !! S pos;
  blk ← v_blocks d !! next_hash;
  Some (vb_slot blk, next_hash, vb_cbor blk).

Definition get_block_by_number (d : VolatileDB) (block_no : Z) : option (Z * Hash32 * list Z) :=
  hash ← v_block_no_index d !! block_no;
  block ← v_blocks d !! hash;
  Some (vb_slot block, hash, vb_cbor block).

(** [None] is the panic of [BTreeMap::range] on a range that ends before it
    starts. *)
Definition get_blocks_in_slot_range (d : VolatileDB) (from_slot to_slot : Z)
  : option (list (Hash32 * list Z)) :=
  if to_slot <? from_slot then None
  else Some (btree_range from_slot to_slot (v_slot_index d) ≫= λ '(_, hashes),
    omap (λ hash, (λ b, (hash, vb_cbor b)) <$> v_blocks d !! hash) hashes).

Definition is_on_selected_chain (d : VolatileDB) (hash : Hash32) : bool :=
  existsb (λ h, bool_decide (h = hash)) (v_selected_chain d).

Definition selected_chain_entries (d : VolatileDB) : list (Hash32 * Z * Z * Hash32) :=
  omap (λ hash, (λ b, (hash, vb_slot b, vb_block_no b, vb_prev_hash b)) <$> v_blocks d !! hash)
    (v_selected_chain d).

Fixpoint bounded_loop (d : VolatileDB) (start_block_no finalize_up_to : Z) (max : nat)
    (hashes : list Hash32) (out : list (Hash32 * Z * Z * Hash32)) : list (Hash32 * Z * Z * Hash32) :=
  match hashes with
  | [] => out
  | hash :: hashes' =>
      match v_blocks d !! hash with
      | None => bounded_loop d start_block_no finalize_up_to max hashes' out
      | Some blk =>
          if wrapping_add64 (vb_block_no blk) 1 <? start_block_no
          then bounded_loop d start_block_no finalize_up_to max hashes' out
          else if finalize_up_to <? vb_block_no blk then out
          else
            let out := out ++ [(hash, vb_slot blk, vb_block_no blk, vb_prev_hash blk)] in
            if (max <=? length out)%nat then out
            else bounded_loop d start_block_no finalize_up_to max hashes' out
      end
  end.

Definition selected_chain_entries_bounded (d : VolatileDB) (start_block_no finalize_up_to : Z)
    (max : nat) : list (Hash32 * Z * Z * Hash32) :=
  bounded_loop d start_block_no finalize_up_to max (v_selected_chain d) [].

(** The ancestors of a block, newest first; the visited set cuts cycles. *)
Fixpoint walk_loop (fuel : nat) (d : VolatileDB) (visited : gset Hash32) (current : Hash32)
    (chain : list Hash32) : list Hash32 :=
  match fuel with
  | O => chain
  | S fuel =>
      match v_blocks d !! current with
      | None => chain
      | Some block =>
          if bool_decide (current ∈ visited) then chain
          else
            let chain := chain ++ [current] in
            if has_block d (vb_prev_hash block)
            then walk_loop fuel d ({[current]} ∪ visited) (vb_prev_hash block) chain
            else chain
      end
  end.

(** Every iteration visits another block, so their number bounds the walk. *)
Definition walk_chain_back (d : VolatileDB) (tip_hash : Hash32) : list Hash32 :=
  reverse (walk_loop (S (size (v_blocks d))) d ∅ tip_hash []).

Definition candidate_contains_invalid (d : VolatileDB) (tip_hash : Hash32) (invalid : gset Hash32)
  : bool :=
  if bool_decide (invalid = ∅) then false
  else existsb (λ h, bool_decide (h ∈ invalid)) (walk_chain_back d tip_hash).

Fixpoint ancestor_loop (fuel : nat) (d : VolatileDB) (visited : gset Hash32) (current : Hash32)
  : option (Z * Hash32 * Z) :=
  match fuel with
  | O => None
  | S fuel =>
      if bool_decide (current ∈ visited) then None
      else if bool_decide (current ∈ v_selected_chain d) then tip_of d current
      else
        block ← v_blocks d !! current;
        ancestor_loop fuel d ({[current]} ∪ visited) (vb_prev_hash block)
  end.

Definition find_selected_chain_ancestor (d : VolatileDB) (start_hash : Hash32)
  : option (Z * Hash32 * Z) :=
  ancestor_loop (S (S (size (v_blocks d)))) d ∅ start_hash.

Definition get_leaf_tips (d : VolatileDB) : list (Hash32 * Z * Z) :=
  (λ hb : Hash32 * VolatileBlock, (hb.1, vb_slot hb.2, vb_block_no hb.2)) <$>
  filter (λ hb : Hash32 * VolatileBlock, childless (v_successors d) hb.1 = true)
    (map_to_list (v_blocks d)).

Definition get_all_fork_tips (d : VolatileDB) : list (Hash32 * Z * Z) :=
  omap (λ h, (λ b, (h, vb_block_no b, vb_slot b)) <$> v_blocks d !! h)
    (filter (λ h, Some h ≠ last (v_selected_chain d)) (elements (v_leaves d))).

(** ** Removing blocks *)

(** After [blocks.remove(hash)] gave [block]: its entries in the block-number
    and the successor index. *)
Definition unlink (hash : Hash32) (block : VolatileBlock) (d : VolatileDB) : VolatileDB :=
  let d := with_block_no_index (no_remove (vb_block_no block) hash (v_block_no_index d)) d in
  with_successors (succ_remove (vb_prev_hash block) hash (v_successors d)) d.

Definition forget (hash : Hash32) (d : VolatileDB) : VolatileDB :=
  let d := with_gc_schedule (delete hash (v_gc_schedule d)) d in
  with_headers (delete hash (v_headers d)) d.

Definition remove_block (hash : Hash32) (d : VolatileDB) : VolatileDB :=
  match v_blocks d !! hash with
  | None => d
  | Some block =>
      let d := with_blocks (delete hash (v_blocks d)) d in
      let d := with_slot_index (slot_remove (vb_slot block) hash (v_slot_index d)) d in
      let d := unlink hash block d in
      let d := with_selected_chain (filter (λ h, h ≠ hash) (v_selected_chain d)) d in
      note_leaf_removal hash (vb_prev_hash block) (forget hash d)
  end.

(** The loop body of [remove_blocks_in_memory]. *)
Definition remove_in_memory (d : VolatileDB) (hash : Hash32) : VolatileDB :=
  match v_blocks d !! hash with
  | None => d
  | Some block =>
      let d := with_blocks (delete hash (v_blocks d)) d in
      let d := with_slot_index (slot_remove (vb_slot block) hash (v_slot_index d)) d in
      let d := unlink hash block d in
      note_leaf_removal hash (vb_prev_hash block) (forget hash d)
  end.

Definition remove_blocks_in_memory (hashes : list Hash32) (d : VolatileDB) : VolatileDB :=
  let d := foldl remove_in_memory d hashes in
  with_selected_chain (filter (λ h, h ∉ hashes) (v_selected_chain d)) d.

Definition remove_blocks_by_hashes (hashes : list Hash32) (d : VolatileDB) : VolatileDB :=
  rewrite_wal (remove_blocks_in_memory hashes d).

Definition remove_flushed_blocks (hashes : list Hash32) (d : VolatileDB) : VolatileDB :=
  maybe_compact_wal (remove_blocks_in_memory hashes d).

(** Breadth-first search from the anchor; every round marks new blocks, so
    their number bounds the rounds. *)
Fixpoint reach_loop (fuel : nat) (d : VolatileDB) (queue : list Hash32) (reachable : gset Hash32)
  : gset Hash32 :=
  match fuel, queue with
  | S fuel, h :: queue =>
      let fresh := elements (default ∅ (v_successors d !! h) ∖ reachable) in
      reach_loop fuel d (queue ++ fresh) (list_to_set fresh ∪ reachable)
  | _, _ => reachable
  end.

Definition reachable_from (d : VolatileDB) (anchor : Hash32) : gset Hash32 :=
  reach_loop (S (size (v_blocks d))) d [anchor] ∅.

Definition prune_unreachable_from (anchor : Hash32) (d : VolatileDB) : nat * VolatileDB :=
  let reachable := reachable_from d anchor in
  let unreachable := filter (λ h, h ∉ reachable) (map_to_list (v_blocks d)).*1 in
  let n := length unreachable in
  (n, if (0 <? n)%nat then remove_blocks_by_hashes unreachable d else d).

(** A block of a slot that is dropped as a whole: the slot's vector is gone
    already. *)
Definition drop_hash (d : VolatileDB) (hash : Hash32) : VolatileDB :=
  let d :=
    match v_blocks d !! hash with
    | None => d
    | Some block =>
        note_leaf_removal hash (vb_prev_hash block)
          (unlink hash block (with_blocks (delete hash (v_blocks d)) d))
    end in
  forget hash d.

Definition drop_slot (acc : list Hash32 * VolatileDB) (s : Z) : list Hash32 * VolatileDB :=
  let '(removed, d) := acc in
  match v_slot_index d !! s with
  | None => (removed, d)
  | Some hashes =>
      let d := with_slot_index (delete s (v_slot_index d)) d in
      (removed ++ hashes, foldl drop_hash d hashes)
  end.

Definition remove_blocks_up_to_slot (slot : Z) (d : VolatileDB) : list Hash32 * VolatileDB :=
  let slots_to_remove := (btree_range 0 slot (v_slot_index d)).*1 in
  let '(removed, d) := foldl drop_slot ([], d) slots_to_remove in
  let d := with_selected_chain (filter (λ h, h ∉ removed) (v_selected_chain d)) d in
  (removed, rewrite_wal d).

(** ** Moving the selection *)

(** Schedule blocks for collection and drop their block-number entries. *)
Definition unselect (now : Z) (d : VolatileDB) (h : Hash32) : VolatileDB :=
  let d := with_gc_schedule (<[h := now]> (v_gc_schedule d)) d in
  match v_blocks d !! h with
  | Some block => with_block_no_index (no_remove (vb_block_no block) h (v_block_no_index d)) d
  | None => d
  end.

Definition rollback_to_point (now : Z) (target_slot : Z) (target_hash : option Hash32)
    (d : VolatileDB) : list Hash32 * VolatileDB :=
  let at_target h :=
    match v_blocks d !! h with
    | Some block =>
        (vb_slot block =? target_slot) &&
        match target_hash with None => true | Some th => bool_decide (h = th) end
    | None => false
    end in
  let at_or_before h :=
    match v_blocks d !! h with Some b => vb_slot b <=? target_slot | None => false end in
  let cut_point :=
    match position at_target (v_selected_chain d) with
    | Some i => Some i
    | None => rposition at_or_before (v_selected_chain d)
    end in
  match cut_point with
  | Some idx =>
      let suffix := reverse (drop (S idx) (v_selected_chain d)) in
      let d := with_selected_chain (take (S idx) (v_selected_chain d)) d in
      let d := foldl (unselect now) d suffix in
      (suffix,
       match last (v_selected_chain d) with
       | Some tip_hash =>
           match tip_of d tip_hash with Some t => with_tip (Some t) d | None => d end
       | None => with_tip None d
       end)
  | None =>
      let all := reverse (v_selected_chain d) in
      let d := with_selected_chain [] d in
      (all, with_tip None (foldl (unselect now) d all))
  end.

(** [block_no_index] of the blocks of the selected chain *)
Definition reindex (d : VolatileDB) : VolatileDB :=
  with_block_no_index
    (foldl (λ m h, match v_blocks d !! h with Some b => <[vb_block_no b := h]> m | None => m end)
       ∅ (v_selected_chain d)) d.

(** [Some(tip_hash) > best_tip_hash.as_ref()] *)
Definition hash_after (h : Hash32) (best : option Hash32) : bool :=
  match best with
  | None => true
  | Some b => match slice_cmp h b with Gt => true | _ => false end
  end.

Definition better_tip (d : VolatileDB) (best : list Hash32 * Z * option Hash32)
    (tip : Hash32 * Z * Z) : list Hash32 * Z * option Hash32 :=
  let '(best_chain, best_block_no, best_tip_hash) := best in
  let '(tip_hash, _, tip_block_no) := tip in
  if best_block_no <? tip_block_no
  then (walk_chain_back d tip_hash, tip_block_no, Some tip_hash)
  else if tip_block_no =? best_block_no then
    let chain := walk_chain_back d tip_hash in
    if (length best_chain <? length chain)%nat ||
       ((length chain =? length best_chain)%nat && hash_after tip_hash best_tip_hash)
    then (chain, best_block_no, Some tip_hash)
    else best
  else best.

Definition select_best (d : VolatileDB) (tips : list (Hash32 * Z * Z))
  : list Hash32 * Z * option Hash32 :=
  foldl (better_tip d) ([], 0, None) tips.

Definition rebuild_selected_chain (d : VolatileDB) : VolatileDB :=
  let best_chain := (select_best d (get_leaf_tips d)).1.1 in
  recompute_tip (reindex (with_selected_chain best_chain d)).

Definition rollback_and_prune (target_slot : Z) (target_hash : option Hash32) (d : VolatileDB)
  : list Hash32 * VolatileDB :=
  let slots_to_remove :=
    (btree_range (wrapping_add64 target_slot 1) u64_max (v_slot_index d)).*1 in
  let at_target :=
    match target_hash with
    | Some target_h => filter (λ h, h ≠ target_h) (default [] (v_slot_index d !! target_slot))
    | None => []
    end in
  let '(removed, d) := foldl drop_slot ([], d) (reverse slots_to_remove) in
  let d := foldl (λ d h, remove_block h d) d at_target in
  (removed ++ at_target, rewrite_wal (rebuild_selected_chain d)).

Definition vol_clear (d : VolatileDB) : VolatileDB :=
  mkVol ∅ ∅ ∅ ∅ ∅ (v_unknown_prev d) None ((λ _, []) <$> v_wal d) 0 [] ∅ ∅.

(** The reachability part of [switch_chain]: intersection, its slot, rollback
    and apply; [None] refuses the switch. *)
Definition switch_diff (d : VolatileDB) (new_chain : list Hash32) (intersection_idx : option nat)
    (immutable_anchor : option (Hash32 * Z)) (allow_genesis_anchor : bool)
  : option (Hash32 * Z * list Hash32 * list Hash32) :=
  let selected := v_selected_chain d in
  match intersection_idx with
  | Some idx =>
      intersection_hash ← selected !! idx;
      intersection_slot ← vb_slot <$> v_blocks d !! intersection_hash;
      let rollback := reverse (drop (S idx) selected) in
      let apply :=
        match position (λ h, bool_decide (h = intersection_hash)) new_chain with
        | Some pos => drop (S pos) new_chain
        | None => new_chain
        end in
      Some (intersection_hash, intersection_slot, rollback, apply)
  | None =>
      let new_root_prev := h ← head new_chain; vb_prev_hash <$> v_blocks d !! h in
      let root_prev_is_known_genesis :=
        match head new_chain with
        | Some h => bool_decide (h ∉ v_unknown_prev d)
        | None => false
        end && bool_decide (new_root_prev = Some hash_zero) in
      if allow_genesis_anchor && root_prev_is_known_genesis
      then Some (hash_zero, 0, reverse selected, new_chain)
      else
        match immutable_anchor, new_root_prev with
        | Some (anchor_hash, anchor_slot), Some prev =>
            if bool_decide (anchor_hash = prev)
            then Some (anchor_hash, anchor_slot, reverse selected, new_chain)
            else None
        | _, _ => None
        end
  end.

Definition switch_chain (now : Z) (new_tip_hash : Hash32) (immutable_anchor : option (Hash32 * Z))
    (max_rollback : Z) (allow_genesis_anchor : bool) (d : VolatileDB)
  : option SwitchPlan * VolatileDB :=
  let new_chain := walk_chain_back d new_tip_hash in
  if bool_decide (new_chain = []) then (None, d)
  else
    let intersection_idx := rposition (λ h, bool_decide (h ∈ new_chain)) (v_selected_chain d) in
    match switch_diff d new_chain intersection_idx immutable_anchor allow_genesis_anchor with
    | None => (None, d)
    | Some (intersection, intersection_slot, rollback, apply) =>
        if max_rollback <? Z.of_nat (length rollback) then (None, d)
        else
          let gc := foldl (λ m h, <[h := now]> m) (v_gc_schedule d) rollback in
          let gc := foldl (λ m h, delete h m) gc apply in
          let d := with_gc_schedule gc d in
          let kept := match intersection_idx with
                      | Some idx => take (S idx) (v_selected_chain d)
                      | None => []
                      end in
          let d := with_selected_chain (kept ++ apply) d in
          (Some (mkPlan intersection intersection_slot rollback apply), recompute_tip (reindex d))
    end.

(** ** Garbage collection *)

(** In nanoseconds. *)
Definition GC_DELAY : Z := 60 * 1000000000.

Definition gc_one (d : VolatileDB) (hash : Hash32) : VolatileDB :=
  let d := with_gc_schedule (delete hash (v_gc_schedule d)) d in
  if bool_decide (hash ∈ v_selected_chain d) then d
  else
    match v_blocks d !! hash with
    | None => d
    | Some block =>
        let d := with_blocks (delete hash (v_blocks d)) d in
        let d := with_slot_index (slot_remove (vb_slot block) hash (v_slot_index d)) d in
        let d := with_successors (succ_remove (vb_prev_hash block) hash (v_successors d)) d in
        let d := with_headers (delete hash (v_headers d)) d in
        note_leaf_removal hash (vb_prev_hash block) d
    end.

Definition gc_orphaned_blocks (now : Z) (d : VolatileDB) : nat * VolatileDB :=
  let expired :=
    (filter (λ hat : Hash32 * Z, GC_DELAY ≤ Z.max 0 (now - hat.2)) (map_to_list (v_gc_schedule d))).*1 in
  let count := length expired in
  let d := foldl gc_one d expired in
  (count, if (0 <? count)%nat then rewrite_wal d else d).

(** ** Opening *)

Definition replay_insert (d : VolatileDB) (e : WalEntry) : VolatileDB :=
  let d := if we_prev_hash_known e then d
           else with_unknown_prev ({[we_hash e]} ∪ v_unknown_prev d) d in
  (insert_block_internal (we_hash e) (we_slot e) (we_block_no e) (we_prev_hash e) (we_cbor e) true d).2.

Definition vol_open (file : option (list Z)) : VolatileDB :=
  let d := foldl replay_insert vol_new (vol_replay_wal file) in
  let d := if bool_decide (v_blocks d = ∅) then d else rebuild_selected_chain d in
  with_wal (Some (default [] file)) d.

End vol_ops.
