(* ===== verification/VolatileInv.v ===== *)
(** * Invariants of the volatile store

    [vol_links]: the successor map is the parent relation of the stored blocks,
    and [leaves] is the set of stored blocks without a child, which is the
    invariant that the field's documentation states. [vol_slots]: the slot
    index. [vol_chain]: the selected chain is a path of stored blocks and the
    tip is its end. *)

From S2P Require Import Prelude Order Bytes EraHistory Block ChainFragment VolatileWal VolatileDb.
Local Open Scope Z_scope.

Abbreviation Blocks := (gmap Hash32 VolatileBlock).

(** ** The block graph *)

Definition child_of (B : Blocks) (p c : Hash32) : Prop :=
  ∃ b, B !! c = Some b ∧ vb_prev_hash b = p.

Definition succs (S : gmap Hash32 (gset Hash32)) (p : Hash32) : gset Hash32 := default ∅ (S !! p).

Record links (B : Blocks) (S : gmap Hash32 (gset Hash32)) (L : gset Hash32) : Prop := {
  lk_succ p c : c ∈ succs S p ↔ child_of B p c;
  lk_leaf h : h ∈ L ↔ is_Some (B !! h) ∧ ∀ c, ¬ child_of B h c;
}.

Definition vol_links (d : VolatileDB) : Prop := links (v_blocks d) (v_successors d) (v_leaves d).

Lemma childless_spec S h : childless S h = true ↔ succs S h = ∅.
Proof. unfold childless, succs. destruct (S !! h); simpl; [apply bool_decide_eq_true|done]. Qed.

Lemma links_childless B S L h : links B S L → childless S h = true ↔ ∀ c, ¬ child_of B h c.
Proof.
  intros [Hs _]. rewrite childless_spec. setoid_rewrite <- Hs. set_solver.
Qed.

Lemma succs_add p c S q : succs (succ_add p c S) q = (if decide (q = p) then {[c]} else ∅) ∪ succs S q.
Proof.
  unfold succs, succ_add. destruct (decide (q = p)) as [->|Hne].
  - by rewrite lookup_insert_eq.
  - rewrite lookup_insert_ne by done. set_solver.
Qed.

Lemma succs_remove p c S q :
  succs (succ_remove p c S) q = if decide (q = p) then succs S q ∖ {[c]} else succs S q.
Proof.
  unfold succs, succ_remove. destruct (S !! p) as [s|] eqn:E; simpl.
  - case_decide as Hs; destruct (decide (q = p)) as [->|Hne];
      rewrite ?lookup_delete_eq, ?lookup_insert_eq, ?lookup_delete_ne, ?lookup_insert_ne, ?E by done;
      simpl; [by rewrite Hs|done..].
  - destruct (decide (q = p)) as [->|]; [|done]. rewrite E; simpl. set_solver.
Qed.

(** A stored hash stands for one block: adding it again keeps the parent. *)
Lemma links_insert B S L h blk :
  links B S L → (∀ b, B !! h = Some b → vb_prev_hash b = vb_prev_hash blk) →
  let S' := succ_add (vb_prev_hash blk) h S in
  links (<[h := blk]> B) S'
    (if childless S' h then {[h]} ∪ (L ∖ {[vb_prev_hash blk]}) else L ∖ {[vb_prev_hash blk]}).
Proof.
  intros Hl Hsame S'.
  assert (∀ p c, child_of (<[h := blk]> B) p c ↔ (p = vb_prev_hash blk ∧ c = h) ∨ child_of B p c) as Hc.
  { intros p c. unfold child_of. destruct (decide (c = h)) as [->|Hne].
    - rewrite lookup_insert_eq. split; [naive_solver|].
      intros [[-> _]|(b & Hb & <-)]; exists blk; [done|]. split; [done|]. symmetry. by apply Hsame.
    - rewrite lookup_insert_ne by done. naive_solver. }
  assert (∀ p c, c ∈ succs S' p ↔ child_of (<[h := blk]> B) p c) as Hs'.
  { intros p c. unfold S'. rewrite succs_add, Hc, elem_of_union, (lk_succ _ _ _ Hl).
    case_decide; set_solver. }
  split; [done|]. intros x.
  assert (childless S' h = true ↔ ∀ c, ¬ child_of (<[h := blk]> B) h c) as Hch.
  { rewrite childless_spec. setoid_rewrite <- Hs'. set_solver. }
  assert (x ≠ h → x ∈ L ∖ {[vb_prev_hash blk]} ↔
    is_Some ((<[h := blk]> B) !! x) ∧ ∀ c, ¬ child_of (<[h := blk]> B) x c) as Hother.
  { intros Hne. rewrite elem_of_difference, not_elem_of_singleton, (lk_leaf _ _ _ Hl),
      lookup_insert_ne by done. setoid_rewrite Hc. naive_solver. }
  destruct (decide (x = h)) as [->|Hne].
  - rewrite lookup_insert_eq. destruct (childless S' h) eqn:E.
    + split; [|set_solver]. intros _. split; [done|]. by apply Hch.
    + assert (¬ ∀ c, ¬ child_of (<[h := blk]> B) h c) as Hno by (rewrite <- Hch; congruence).
      split; [|tauto]. rewrite elem_of_difference, not_elem_of_singleton, (lk_leaf _ _ _ Hl).
      intros [[_ Hx] Hp]. exfalso. apply Hno. intros c. rewrite Hc. naive_solver.
  - rewrite <- Hother by done. destruct (childless S' h); set_solver.
Qed.

Lemma links_delete B S L h b :
  links B S L → B !! h = Some b →
  let S' := succ_remove (vb_prev_hash b) h S in
  links (delete h B) S'
    (if bool_decide (is_Some (delete h B !! vb_prev_hash b)) && childless S' (vb_prev_hash b)
     then {[vb_prev_hash b]} ∪ (L ∖ {[h]}) else L ∖ {[h]}).
Proof.
  intros Hl Hb S'.
  assert (∀ p c, child_of (delete h B) p c ↔ c ≠ h ∧ child_of B p c) as Hc.
  { intros p c. unfold child_of. destruct (decide (c = h)) as [->|Hne].
    - rewrite lookup_delete_eq. naive_solver.
    - rewrite lookup_delete_ne by done. naive_solver. }
  assert (∀ p c, c ∈ succs S' p ↔ child_of (delete h B) p c) as Hs'.
  { intros p c. unfold S'. rewrite succs_remove, Hc. case_decide as Hp.
    - rewrite elem_of_difference, not_elem_of_singleton, (lk_succ _ _ _ Hl). tauto.
    - rewrite (lk_succ _ _ _ Hl). split; [|tauto]. intros H. split; [|done].
      intros ->. destruct H as (b' & Hb' & <-). congruence. }
  split; [done|]. intros x.
  assert (∀ y, childless S' y = true ↔ ∀ c, ¬ child_of (delete h B) y c) as Hch.
  { intros y. rewrite childless_spec. setoid_rewrite <- Hs'. set_solver. }
  set (p := vb_prev_hash b) in *.
  assert (x ∈ L ∖ {[h]} → is_Some (delete h B !! x) ∧ ∀ c, ¬ child_of (delete h B) x c) as Hkeep.
  { rewrite elem_of_difference, not_elem_of_singleton, (lk_leaf _ _ _ Hl). intros [[Hx Hnc] Hne].
    rewrite lookup_delete_ne by done. split; [done|]. intros c. rewrite Hc. naive_solver. }
  assert (is_Some (delete h B !! x) → (∀ c, ¬ child_of (delete h B) x c) → x ∈ L ∖ {[h]} ∨ x = p) as Hback.
  { intros Hx Hnc. destruct (decide (x = h)) as [->|Hne].
    { rewrite lookup_delete_eq in Hx. by destruct Hx. }
    rewrite lookup_delete_ne in Hx by done.
    destruct (decide (x = p)) as [->|Hxp]; [by right|left].
    rewrite elem_of_difference, not_elem_of_singleton, (lk_leaf _ _ _ Hl). split_and!; [done| |done].
    intros c Hcc. apply (Hnc c). rewrite Hc. split; [|done]. intros ->.
    destruct Hcc as (b' & Hb' & Hpp). apply Hxp. by simplify_eq. }
  destruct (bool_decide _) eqn:E1, (childless S' p) eqn:E2; simpl;
    rewrite ?elem_of_union, ?elem_of_singleton;
    [apply bool_decide_eq_true in E1|apply bool_decide_eq_true in E1|apply bool_decide_eq_false in E1..].
  - pose proof (proj1 (Hch p) E2). split; [intros [->|?]; [done|by apply Hkeep]|]. intros [? ?].
    destruct Hback; [done..|by right|by left].
  - split; [apply Hkeep|]. intros [Hx Hnc]. destruct Hback as [|Hxp]; [done..|].
    exfalso. rewrite Hxp in Hnc. pose proof (proj2 (Hch p) Hnc). congruence.
  - split; [apply Hkeep|]. intros [Hx Hnc]. destruct Hback as [|Hxp]; [done..|]. congruence.
  - split; [apply Hkeep|]. intros [Hx Hnc]. destruct Hback as [|Hxp]; [done..|]. congruence.
Qed.

(** ** The slot index *)

Definition slots (B : Blocks) (X : gmap Z (list Hash32)) : Prop :=
  ∀ s h, h ∈ default [] (X !! s) ↔ ∃ b, B !! h = Some b ∧ vb_slot b = s.

Lemma slots_elem B X s h :
  slots B X → h ∈ default [] (X !! s) ↔ ∃ b, B !! h = Some b ∧ vb_slot b = s.
Proof. intros H. apply H. Qed.

Lemma slots_insert B X h blk :
  slots B X → (∀ b, B !! h = Some b → vb_slot b = vb_slot blk) →
  slots (<[h := blk]> B) (<[vb_slot blk := default [] (X !! vb_slot blk) ++ [h]]> X).
Proof.
  intros Hs Hsame s x. destruct (decide (s = vb_slot blk)) as [->|Hne].
  - rewrite lookup_insert_eq; simpl. rewrite elem_of_app, list_elem_of_singleton, (slots_elem _ _ _ _ Hs).
    destruct (decide (x = h)) as [->|Hx]; [rewrite lookup_insert_eq|rewrite lookup_insert_ne by done];
      naive_solver.
  - rewrite lookup_insert_ne by done. rewrite (slots_elem _ _ _ _ Hs).
    destruct (decide (x = h)) as [->|Hx]; [rewrite lookup_insert_eq|by rewrite lookup_insert_ne].
    split; [|naive_solver]. intros (b & Hb & <-). apply Hsame in Hb. congruence.
Qed.

Lemma slot_remove_lookup s h X t :
  default [] (slot_remove s h X !! t)
  = if decide (t = s) then filter (λ x, x ≠ h) (default [] (X !! t)) else default [] (X !! t).
Proof.
  unfold slot_remove. destruct (X !! s) as [l|] eqn:E; simpl.
  - case_decide as Hl; destruct (decide (t = s)) as [->|Hne];
      rewrite ?lookup_delete_eq, ?lookup_insert_eq, ?lookup_delete_ne, ?lookup_insert_ne, ?E by done;
      simpl; [by rewrite Hl|done..].
  - destruct (decide (t = s)) as [->|]; [by rewrite E|done].
Qed.

Lemma slots_delete B X h b :
  slots B X → B !! h = Some b → slots (delete h B) (slot_remove (vb_slot b) h X).
Proof.
  intros Hs Hb s x. rewrite slot_remove_lookup.
  destruct (decide (x = h)) as [->|Hx].
  - rewrite lookup_delete_eq. case_decide as Hd.
    + rewrite list_elem_of_filter. naive_solver.
    + rewrite (slots_elem _ _ _ _ Hs). naive_solver.
  - rewrite lookup_delete_ne by done. case_decide as Hd; [|apply Hs].
    rewrite list_elem_of_filter, (slots_elem _ _ _ _ Hs). naive_solver.
Qed.

(** ** The index of a store *)

Definition graph (d : VolatileDB) : Blocks * gmap Hash32 (gset Hash32) * gset Hash32 * gmap Z (list Hash32) :=
  (v_blocks d, v_successors d, v_leaves d, v_slot_index d).

Definition graph_ok (g : Blocks * gmap Hash32 (gset Hash32) * gset Hash32 * gmap Z (list Hash32)) : Prop :=
  let '(B, Su, L, X) := g in links B Su L ∧ slots B X.

Definition vol_index (d : VolatileDB) : Prop := graph_ok (graph d).

Section ops.
Context {CR : Crates}.

Lemma graph_rewrite_wal d : graph (rewrite_wal d) = graph d.
Proof. unfold rewrite_wal. by destruct (v_wal d). Qed.
Lemma graph_maybe_compact d : graph (maybe_compact_wal d) = graph d.
Proof.
  unfold maybe_compact_wal, compact_wal. destruct (v_wal d); [|done].
  case_match; [|done]. by case_match.
Qed.
Lemma graph_append_wal h s n p c d : graph (append_wal h s n p c d) = graph d.
Proof. unfold append_wal. by destruct (v_wal d). Qed.
Lemma graph_recompute d : graph (recompute_tip (reindex d)) = graph d.
Proof. done. Qed.
Lemma graph_unselect now hs d : graph (foldl (unselect now) d hs) = graph d.
Proof.
  revert d. induction hs as [|h hs IH]; intros d; [done|]. cbn [foldl]. rewrite IH.
  unfold unselect. by case_match.
Qed.

Lemma graph_rollback now s th d : graph (rollback_to_point now s th d).2 = graph d.
Proof.
  unfold rollback_to_point. case_match; cbn [snd].
  - set (d' := foldl _ _ _). assert (graph d' = graph d) as <- by (unfold d'; by rewrite graph_unselect).
    clearbody d'. destruct (last _) as [t|]; [|done]. by destruct (tip_of d' t).
  - set (d' := foldl _ _ _). by assert (graph d' = graph d) as <- by (unfold d'; by rewrite graph_unselect).
Qed.

Lemma graph_switch now tip a k g d : graph (switch_chain now tip a k g d).2 = graph d.
Proof.
  unfold switch_chain. case_bool_decide; [done|]. case_match; [|done].
  destruct p as [[[? ?] ?] ?]. by case_match.
Qed.

Lemma graph_truncate k d : graph (truncate_selection_to_depth k d).2 = graph d.
Proof. unfold truncate_selection_to_depth. by case_match. Qed.

(** *** Adding *)

(** A hash determines its block. *)
Definition same_block (d : VolatileDB) (hash : Hash32) (slot : Z) (prev : Hash32) : Prop :=
  ∀ b, v_blocks d !! hash = Some b → vb_slot b = slot ∧ vb_prev_hash b = prev.

Lemma insert_index hash slot no prev cbor ext d :
  vol_index d → same_block d hash slot prev →
  vol_index (insert_block_internal hash slot no prev cbor ext d).2.
Proof.
  intros [Hl Hs] Hsame. set (blk := mkVBlock slot no prev cbor).
  assert (graph_ok (<[hash := blk]> (v_blocks d), succ_add prev hash (v_successors d),
    if childless (succ_add prev hash (v_successors d)) hash
    then {[hash]} ∪ (v_leaves d ∖ {[prev]}) else v_leaves d ∖ {[prev]},
    <[slot := default [] (v_slot_index d !! slot) ++ [hash]]> (v_slot_index d))) as Hg.
  { split.
    - apply (links_insert _ _ _ hash blk Hl). intros b Hb. by apply Hsame in Hb as [_ ?].
    - apply (slots_insert _ _ hash blk Hs). intros b Hb. by apply Hsame in Hb as [? _]. }
  unfold vol_index, insert_block_internal. cbn [v_successors with_leaves with_blocks with_slot_index
    with_successors].
  destruct (childless _ hash); (destruct (ext && _); exact Hg).
Qed.

Lemma add_block_index hash slot no prev cbor ext d :
  vol_index d → same_block d hash slot prev →
  vol_index (add_block_gated hash slot no prev cbor ext d).2.
Proof.
  intros Hi Hsame.
  assert (graph (append_wal hash slot no prev cbor (maybe_compact_wal d)) = graph d) as Hg.
  { by rewrite graph_append_wal, graph_maybe_compact. }
  assert (∀ x, vol_index (insert_block_internal hash slot no prev cbor x
    (append_wal hash slot no prev cbor (maybe_compact_wal d))).2) as Hx.
  { intros x. apply insert_index; [unfold vol_index; by rewrite Hg|].
    unfold same_block. by injection Hg as -> _ _ _. }
  unfold add_block_gated, add_block. destruct ext; apply Hx.
Qed.

(** *** Removing *)

(** The graph after one stored block is removed. *)
Definition graph_delete (h : Hash32) (d : VolatileDB) :=
  match v_blocks d !! h with
  | None => graph d
  | Some b =>
      let B := delete h (v_blocks d) in
      let S := succ_remove (vb_prev_hash b) h (v_successors d) in
      (B, S,
       if bool_decide (is_Some (B !! vb_prev_hash b)) && childless S (vb_prev_hash b)
       then {[vb_prev_hash b]} ∪ (v_leaves d ∖ {[h]}) else v_leaves d ∖ {[h]},
       slot_remove (vb_slot b) h (v_slot_index d))
  end.

Lemma graph_delete_ok h d : vol_index d → graph_ok (graph_delete h d).
Proof.
  intros [Hl Hs]. unfold graph_delete. destruct (v_blocks d !! h) as [b|] eqn:E; [|by split].
  split; [by apply links_delete|by apply slots_delete].
Qed.

Lemma remove_block_graph h d : graph (remove_block h d) = graph_delete h d.
Proof. unfold remove_block, graph_delete. by destruct (v_blocks d !! h). Qed.

Lemma remove_in_memory_graph h d : graph (remove_in_memory d h) = graph_delete h d.
Proof. unfold remove_in_memory, graph_delete. by destruct (v_blocks d !! h). Qed.

Lemma gc_one_graph h d :
  graph (gc_one d h) = if bool_decide (h ∈ v_selected_chain d) then graph d else graph_delete h d.
Proof.
  unfold gc_one, graph_delete. simpl. case_bool_decide; [done|]. by destruct (v_blocks d !! h).
Qed.

Lemma fold_index (f : VolatileDB → Hash32 → VolatileDB) hs d :
  (∀ d h, vol_index d → vol_index (f d h)) → vol_index d → vol_index (foldl f d hs).
Proof. intros Hf. revert d. induction hs as [|h hs IH]; intros d Hd; simpl; auto. Qed.

Lemma remove_in_memory_index hs d : vol_index d → vol_index (remove_blocks_in_memory hs d).
Proof.
  intros Hi. unfold remove_blocks_in_memory.
  change (vol_index (foldl remove_in_memory d hs)). apply fold_index; [|done].
  intros d' h Hd. unfold vol_index. rewrite remove_in_memory_graph. by apply graph_delete_ok.
Qed.

Lemma drop_hash_spec d h :
  vol_links d →
  vol_links (drop_hash d h) ∧ v_blocks (drop_hash d h) = delete h (v_blocks d) ∧
  v_slot_index (drop_hash d h) = v_slot_index d.
Proof.
  intros Hl. unfold drop_hash. destruct (v_blocks d !! h) as [b|] eqn:E.
  - split_and!; [|done..]. by apply (links_delete _ _ _ h b).
  - split_and!; [done| |done]. simpl. by rewrite delete_id.
Qed.

Lemma drop_hashes_spec hs d :
  vol_links d →
  vol_links (foldl drop_hash d hs) ∧
  (∀ x, v_blocks (foldl drop_hash d hs) !! x = if decide (x ∈ hs) then None else v_blocks d !! x) ∧
  v_slot_index (foldl drop_hash d hs) = v_slot_index d.
Proof.
  revert d. induction hs as [|h hs IH]; intros d Hl; cbn [foldl].
  { split_and!; [done| |done]. intros x. by rewrite decide_False by apply not_elem_of_nil. }
  destruct (drop_hash_spec d h Hl) as (Hl1 & Hb1 & Hx1).
  destruct (IH _ Hl1) as (Hl2 & Hb2 & Hx2). split_and!; [done| |congruence].
  intros x. rewrite Hb2, Hb1. destruct (decide (x ∈ hs)) as [Hin|Hin].
  { by rewrite decide_True by (by right). }
  destruct (decide (x = h)) as [->|Hne].
  - rewrite lookup_delete_eq. by rewrite decide_True by left.
  - rewrite lookup_delete_ne by done. rewrite decide_False; [done|].
    by intros [?|?]%elem_of_cons.
Qed.

Lemma drop_slot_index r s d : vol_index d → vol_index (drop_slot (r, d) s).2.
Proof.
  intros [Hl Hs]. unfold drop_slot. destruct (v_slot_index d !! s) as [hs|] eqn:E; [|by split].
  cbn [snd]. set (d1 := with_slot_index _ d).
  destruct (drop_hashes_spec hs d1 Hl) as (Hl2 & Hb2 & Hx2). split; [done|].
  rewrite Hx2. intros t x. unfold d1; simpl. rewrite Hb2; simpl.
  assert (x ∈ hs ↔ ∃ b, v_blocks d !! x = Some b ∧ vb_slot b = s) as Hin.
  { rewrite <- (slots_elem _ _ s x Hs), E. done. }
  destruct (decide (t = s)) as [->|Hne].
  - rewrite lookup_delete_eq; simpl. split; [by intros ?%elem_of_nil|].
    intros (b & Hb & Hbs). case_decide as Hd; [done|]. exfalso. apply Hd, Hin. by exists b.
  - rewrite lookup_delete_ne by done. rewrite (slots_elem _ _ t x Hs). case_decide as Hd; [|done].
    apply Hin in Hd as (b & Hb & Hbs). naive_solver.
Qed.

Lemma drop_slots_index ss r d : vol_index d → vol_index (foldl drop_slot (r, d) ss).2.
Proof.
  revert r d. induction ss as [|s ss IH]; intros r d Hd; [done|]. cbn [foldl].
  pose proof (drop_slot_index r s d Hd) as H. destruct (drop_slot (r, d) s) as [r' d']. by apply IH.
Qed.

Lemma vol_index_graph d d' : graph d' = graph d → vol_index d → vol_index d'.
Proof. unfold vol_index. by intros ->. Qed.

Lemma up_to_slot_index s d : vol_index d → vol_index (remove_blocks_up_to_slot s d).2.
Proof.
  intros Hd. unfold remove_blocks_up_to_slot.
  pose proof (drop_slots_index (btree_range 0 s (v_slot_index d)).*1 [] d Hd) as H.
  destruct (foldl _ _ _) as [r d']. eapply vol_index_graph; [apply graph_rewrite_wal|done].
Qed.

Lemma remove_block_index h d : vol_index d → vol_index (remove_block h d).
Proof. intros Hd. unfold vol_index. rewrite remove_block_graph. by apply graph_delete_ok. Qed.

Lemma rollback_and_prune_index s th d : vol_index d → vol_index (rollback_and_prune s th d).2.
Proof.
  intros Hd. unfold rollback_and_prune. set (ss := reverse _).
  set (hs := match th with
             | Some target_h => filter (λ h, h ≠ target_h) (default [] (v_slot_index d !! s))
             | None => []
             end).
  pose proof (drop_slots_index ss [] d Hd) as H. destruct (foldl _ _ _) as [r d'].
  eapply vol_index_graph; [cbn [snd]; rewrite graph_rewrite_wal; apply graph_recompute|].
  change (vol_index (foldl (λ d h, remove_block h d) d' hs)).
  apply fold_index; [|done]. intros. by apply remove_block_index.
Qed.

Lemma gc_index now d : vol_index d → vol_index (gc_orphaned_blocks now d).2.
Proof.
  intros Hd. unfold gc_orphaned_blocks. set (hs := fmap _ _). cbn [snd].
  assert (vol_index (foldl gc_one d hs)) as H.
  { apply fold_index; [|done]. intros d' h Hd'. unfold vol_index. rewrite gc_one_graph.
    case_bool_decide; [done|]. by apply graph_delete_ok. }
  case_match; [|done]. eapply vol_index_graph; [apply graph_rewrite_wal|done].
Qed.

Lemma prune_index a d : vol_index d → vol_index (prune_unreachable_from a d).2.
Proof.
  intros Hd. unfold prune_unreachable_from. cbn [snd]. case_match; [|done].
  eapply vol_index_graph; [apply graph_rewrite_wal|by apply remove_in_memory_index].
Qed.

Lemma vol_new_index : vol_index vol_new.
Proof.
  split; [split|].
  - intros p c. unfold succs, child_of. simpl. rewrite !lookup_empty. set_solver.
  - intros h. simpl. rewrite lookup_empty. split; [set_solver|]. by intros [[? ?] _].
  - intros s h. simpl. rewrite !lookup_empty. simpl. split; [by intros ?%elem_of_nil|naive_solver].
Qed.

Lemma vol_clear_index d : vol_index (vol_clear d).
Proof. apply vol_new_index. Qed.

(** *** Reachable stores *)

(** A log in which a hash always stands for one block. *)
Definition entries_agree (es : list WalEntry) : Prop :=
  ∀ e1 e2, e1 ∈ es → e2 ∈ es → we_hash e1 = we_hash e2 →
    we_slot e1 = we_slot e2 ∧ we_prev_hash e1 = we_prev_hash e2.

Lemma replay_index es : entries_agree es → vol_index (foldl replay_insert vol_new es) ∧
  ∀ h b, v_blocks (foldl replay_insert vol_new es) !! h = Some b →
    ∃ e, e ∈ es ∧ we_hash e = h ∧ vb_slot b = we_slot e ∧ vb_prev_hash b = we_prev_hash e.
Proof.
  induction es as [|e es IH] using rev_ind; intros Ha.
  { split; [apply vol_new_index|]. simpl. intros h b. by rewrite lookup_empty. }
  destruct IH as [IH1 IH2]; [intros ?????; apply Ha; set_solver|].
  rewrite foldl_app. cbn [foldl]. set (d := foldl replay_insert vol_new es) in *.
  set (d' := if we_prev_hash_known e then d
             else with_unknown_prev ({[we_hash e]} ∪ v_unknown_prev d) d).
  assert (graph d' = graph d) as Hg by (unfold d'; by case_match).
  assert (same_block d' (we_hash e) (we_slot e) (we_prev_hash e)) as Hsame.
  { intros b. injection Hg as -> _ _ _. intros Hb. apply IH2 in Hb as (e' & He' & Hh & -> & ->).
    apply Ha; [set_solver..|done]. }
  split; [apply insert_index; [by eapply vol_index_graph|done]|].
  intros h b. assert (v_blocks (replay_insert d e)
    = <[we_hash e := mkVBlock (we_slot e) (we_block_no e) (we_prev_hash e) (we_cbor e)]> (v_blocks d)) as ->.
  { unfold replay_insert. fold d'. injection Hg as <- _ _ _.
    unfold insert_block_internal. by destruct (childless _ _), (true && _). }
  destruct (decide (h = we_hash e)) as [->|Hne].
  - rewrite lookup_insert_eq. intros [= <-]. exists e. set_solver.
  - rewrite lookup_insert_ne by done. intros (e' & He' & ?)%IH2. exists e'. set_solver.
Qed.

Lemma open_index file : entries_agree (vol_replay_wal file) → vol_index (vol_open file).
Proof.
  intros He. destruct (replay_index _ He) as [Hi _]. unfold vol_open.
  by case_bool_decide; eapply vol_index_graph.
Qed.

Lemma fork_tips_spec d h n s :
  vol_links d →
  (h, n, s) ∈ get_all_fork_tips d ↔
    last (v_selected_chain d) ≠ Some h ∧ (∀ c, ¬ child_of (v_blocks d) h c) ∧
    ∃ b, v_blocks d !! h = Some b ∧ vb_block_no b = n ∧ vb_slot b = s.
Proof.
  intros Hl. unfold get_all_fork_tips. rewrite list_elem_of_omap.
  setoid_rewrite list_elem_of_filter. setoid_rewrite elem_of_elements.
  setoid_rewrite (lk_leaf _ _ _ Hl). split.
  - intros (x & [Hx [_ Hc]] & Hb). apply fmap_Some in Hb as (b & Hb & [= -> -> ->]).
    split_and!; [by intros ?; apply Hx|done|by exists b].
  - intros (Ht & Hc & b & Hb & <- & <-). exists h. rewrite Hb. split; [|done].
    split; [congruence|]. split; [by eexists|done].
Qed.

(** One call of a mutating method. *)
Inductive vol_step : VolatileDB → VolatileDB → Prop :=
| vs_add d hash slot no prev cbor ext :
    same_block d hash slot prev → vol_step d (add_block_gated hash slot no prev cbor ext d).2
| vs_add_header d hash slot no prev cbor hdr ext :
    same_block d hash slot prev →
    vol_step d (add_block_with_header_gated hash slot no prev cbor hdr ext d).2
| vs_remove d h : vol_step d (remove_block h d)
| vs_remove_hashes d hs : vol_step d (remove_blocks_by_hashes hs d)
| vs_flush d hs : vol_step d (remove_flushed_blocks hs d)
| vs_up_to d s : vol_step d (remove_blocks_up_to_slot s d).2
| vs_prune d a : vol_step d (prune_unreachable_from a d).2
| vs_rollback d now s th : vol_step d (rollback_to_point now s th d).2
| vs_rollback_prune d s th : vol_step d (rollback_and_prune s th d).2
| vs_truncate d k : vol_step d (truncate_selection_to_depth k d).2
| vs_switch d now tip a k g : vol_step d (switch_chain now tip a k g d).2
| vs_gc d now : vol_step d (gc_orphaned_blocks now d).2
| vs_compact d : vol_step d (compact_wal d)
| vs_clear d : vol_step d (vol_clear d).

Lemma vol_step_index d d' : vol_step d d' → vol_index d → vol_index d'.
Proof.
  destruct 1; intros Hd; eauto using add_block_index, remove_block_index, up_to_slot_index,
    prune_index, rollback_and_prune_index, gc_index, vol_clear_index.
  - eapply vol_index_graph; [apply graph_rewrite_wal|by apply remove_in_memory_index].
  - eapply vol_index_graph; [apply graph_maybe_compact|by apply remove_in_memory_index].
  - eapply vol_index_graph; [apply graph_rollback|done].
  - eapply vol_index_graph; [apply graph_truncate|done].
  - eapply vol_index_graph; [apply graph_switch|done].
  - eapply vol_index_graph; [|done]. unfold compact_wal. by repeat case_match.
Qed.

End ops.
