(* ===== verification/VolatileChain.v ===== *)
(** * The selected chain of the volatile store

    Walking back, switching, rolling back and rebuilding the selected chain.
    Hash links cannot form a cycle: [acyclic rank] says so with a rank that
    grows from parent to child, as the documentation of [walk_chain_back]
    argues for block hashes. *)

From S2P Require Import Prelude Order Bytes EraHistory Block ChainFragment VolatileWal VolatileDb VolatileInv.
Local Open Scope Z_scope.

Definition acyclic (rank : Hash32 → Z) (B : Blocks) : Prop :=
  ∀ h b, B !! h = Some b → rank (vb_prev_hash b) < rank h.

(** A chain of stored blocks, oldest first. *)
Fixpoint path (B : Blocks) (l : list Hash32) : Prop :=
  match l with
  | [] => True
  | x :: l' =>
      is_Some (B !! x) ∧ path B l' ∧ match l' with [] => True | y :: _ => child_of B x y end
  end.

Lemma path_app B l1 x l2 : path B (l1 ++ x :: l2) ↔ path B (l1 ++ [x]) ∧ path B (x :: l2).
Proof.
  induction l1 as [|y l1 IH]; [simpl; tauto|].
  destruct l1 as [|z l1]; simpl in *; [tauto|]. rewrite IH. tauto.
Qed.

Lemma path_suffix B l1 l2 : path B (l1 ++ l2) → path B l2.
Proof. induction l1 as [|x l1 IH]; simpl; [done|]. tauto. Qed.

Lemma path_prefix B l1 l2 : path B (l1 ++ l2) → path B l1.
Proof.
  induction l1 as [|x l1 IH]; [done|]. intros (Hx & Hp & Hc).
  split; [done|split; [by apply IH|]]. by destruct l1.
Qed.

Lemma path_stored B l h : path B l → h ∈ l → is_Some (B !! h).
Proof.
  induction l as [|x l IH]; [by intros _ ?%elem_of_nil|]. intros (Hx & Hl & _) [->|Hh]%elem_of_cons; auto.
Qed.

Lemma path_snoc B l h :
  path B l → is_Some (B !! h) → (∀ t, last l = Some t → child_of B t h) → path B (l ++ [h]).
Proof.
  induction l as [|x l IH]; intros Hl Hh Ht; [done|]. destruct Hl as (Hx & Hl & Hc).
  destruct l as [|y l].
  - split; [done|split; [done|]]. by apply Ht.
  - split; [done|split; [|done]]. apply IH; [done..|]. intros t E. by apply Ht.
Qed.

Section rank.
Context (rank : Hash32 → Z).

Lemma path_ranks B x l h : acyclic rank B → path B (x :: l) → h ∈ l → rank x < rank h.
Proof.
  intros Ha. revert x. induction l as [|y l IH]; intros x Hp Hin; [by apply elem_of_nil in Hin|].
  destruct Hp as (_ & Hp & (b & Hb & Hpr)). pose proof (Ha _ _ Hb) as Hr. rewrite Hpr in Hr.
  apply elem_of_cons in Hin as [->|Hin]; [done|]. specialize (IH y Hp Hin). lia.
Qed.

Lemma path_NoDup B l : acyclic rank B → path B l → NoDup l.
Proof.
  intros Ha. induction l as [|x l IH]; intros Hp; [constructor|]. constructor.
  - intros Hin. pose proof (path_ranks B x l x Ha Hp Hin). lia.
  - apply IH. by destruct Hp as (_ & ? & _).
Qed.

(** ** Walking back *)

Inductive ancestors (B : Blocks) : Hash32 → list Hash32 → Prop :=
| anc_root h b : B !! h = Some b → B !! vb_prev_hash b = None → ancestors B h [h]
| anc_step h b l :
    B !! h = Some b → is_Some (B !! vb_prev_hash b) → ancestors B (vb_prev_hash b) l →
    ancestors B h (h :: l).

Lemma walk_loop_spec d fuel visited cur chain :
  acyclic rank (v_blocks d) → is_Some (v_blocks d !! cur) →
  visited ⊆ dom (v_blocks d) → (∀ v, v ∈ visited → rank cur < rank v) →
  (fuel + size visited = S (size (v_blocks d)))%nat →
  ∃ l, ancestors (v_blocks d) cur l ∧ walk_loop fuel d visited cur chain = chain ++ l.
Proof.
  intros Ha. revert visited cur chain. induction fuel as [|fuel IH]; intros visited cur chain Hc Hv Hr Hf.
  { exfalso. apply subseteq_size in Hv. rewrite size_dom in Hv. lia. }
  simpl. destruct Hc as [b Hb]. rewrite Hb.
  assert (cur ∉ visited) as Hcur by (intros Hin; specialize (Hr _ Hin); lia).
  rewrite bool_decide_eq_false_2 by done. unfold has_block.
  case_bool_decide as Hp.
  - destruct (IH ({[cur]} ∪ visited) (vb_prev_hash b) (chain ++ [cur])) as (l & Hl & ->).
    + done.
    + apply elem_of_dom_2 in Hb. set_solver.
    + pose proof (Ha _ _ Hb). intros v [->%elem_of_singleton|Hin]%elem_of_union; [done|].
      specialize (Hr _ Hin). lia.
    + rewrite size_union, size_singleton by set_solver. lia.
    + exists (cur :: l). split; [by eapply anc_step|]. by rewrite <- app_assoc.
  - exists [cur]. split; [|done]. eapply anc_root; [done|]. by apply eq_None_not_Some.
Qed.

Lemma walk_chain_back_spec d tip :
  acyclic rank (v_blocks d) → is_Some (v_blocks d !! tip) →
  ∃ l, ancestors (v_blocks d) tip l ∧ walk_chain_back d tip = reverse l.
Proof.
  intros Ha Ht. unfold walk_chain_back.
  destruct (walk_loop_spec d (S (size (v_blocks d))) ∅ tip []) as (l & Hl & ->);
    [done|done|set_solver|set_solver|rewrite size_empty; lia|]. by exists l.
Qed.

Lemma walk_chain_back_missing d tip : v_blocks d !! tip = None → walk_chain_back d tip = [].
Proof. intros H. unfold walk_chain_back. simpl. by rewrite H. Qed.

Lemma ancestors_head B h l : ancestors B h l → ∃ l', l = h :: l'.
Proof. destruct 1; eauto. Qed.

Lemma ancestors_path B h l : ancestors B h l → path B (reverse l).
Proof.
  induction 1 as [h b Hb Hp|h b l Hb Hp Hl IH].
  - simpl. split_and!; [by eexists|done|done].
  - rewrite reverse_cons. apply path_snoc; [done|by eexists|].
    destruct (ancestors_head _ _ _ Hl) as [l' ->]. rewrite last_reverse. intros t [= <-].
    by exists b.
Qed.

Lemma ancestors_last B h l : ancestors B h l → last (reverse l) = Some h.
Proof. intros H. rewrite last_reverse. by destruct (ancestors_head _ _ _ H) as [l' ->]. Qed.

(** The oldest ancestor has a parent that is not stored. *)
Lemma ancestors_root B h l :
  ancestors B h l → ∃ r b, head (reverse l) = Some r ∧ B !! r = Some b ∧ B !! vb_prev_hash b = None.
Proof.
  rewrite head_reverse. induction 1 as [h b Hb Hp|h b l Hb Hp Hl (r & br & Hr & Hbr & Hn)].
  - by exists h, b.
  - exists r, br. split; [|done]. by destruct l.
Qed.

(** ** Switching *)

Lemma position_Some {A} (p : A → bool) l i :
  position p l = Some i → ∃ l1 x l2, l = l1 ++ x :: l2 ∧ length l1 = i ∧ p x = true.
Proof.
  revert i. induction l as [|x l IH]; intros i; simpl; [done|]. destruct (p x) eqn:E.
  - intros [= <-]. by exists [], x, l.
  - intros Hi. apply fmap_Some in Hi as (j & Hj & ->).
    destruct (IH _ Hj) as (l1 & y & l2 & -> & <- & Hy). by exists (x :: l1), y, l2.
Qed.

Lemma position_mem h (l : list Hash32) :
  h ∈ l → is_Some (position (λ x, bool_decide (x = h)) l).
Proof.
  induction l as [|x l IH]; [by intros ?%elem_of_nil|]. simpl. case_bool_decide as Hx; [done|].
  intros [->|Hin]%elem_of_cons; [done|]. apply fmap_is_Some. auto.
Qed.

Lemma split_middle {A} (l l1 : list A) x l2 :
  l = l1 ++ x :: l2 → take (S (length l1)) l = l1 ++ [x] ∧ drop (S (length l1)) l = l2.
Proof.
  intros ->. rewrite cons_middle, app_assoc.
  by rewrite take_app_length', drop_app_length' by (rewrite length_app; simpl; lia).
Qed.

(** Where a switch may leave the selected chain: what is kept of it, and the
    block (or the immutable tip, or the origin) the new part grows from. *)
Lemma switch_diff_spec d tip l idx anchor g x xs rollback apply :
  acyclic rank (v_blocks d) → path (v_blocks d) (v_selected_chain d) →
  ancestors (v_blocks d) tip l →
  rposition (λ h, bool_decide (h ∈ reverse l)) (v_selected_chain d) = idx →
  switch_diff d (reverse l) idx anchor g = Some (x, xs, rollback, apply) →
  let kept := match idx with Some i => take (S i) (v_selected_chain d) | None => [] end in
  v_selected_chain d = kept ++ reverse rollback ∧
  path (v_blocks d) (kept ++ apply) ∧ last (kept ++ apply) = Some tip ∧
  (∀ h, h ∈ rollback → h ∉ kept ++ apply) ∧
  match last kept with
  | Some h => h = x ∧ ∃ b, v_blocks d !! x = Some b ∧ vb_slot b = xs
  | None => ∃ r b, head apply = Some r ∧ v_blocks d !! r = Some b ∧ vb_prev_hash b = x ∧
      ((x = hash_zero ∧ xs = 0 ∧ g = true ∧ r ∉ v_unknown_prev d) ∨ anchor = Some (x, xs))
  end.
Proof.
  intros Ha Hsel Hanc Hidx. pose proof (ancestors_path _ _ _ Hanc) as Hp.
  pose proof (ancestors_last _ _ _ Hanc) as Hlast. unfold switch_diff.
  destruct idx as [i|].
  - apply rposition_Some in Hidx as (s1 & y & s2 & Hs & Hi & Hy & Hs2).
    apply bool_decide_eq_true in Hy.
    assert (v_selected_chain d !! i = Some y) as Hyi.
    { rewrite Hs, lookup_app_r by lia. by replace (i - length s1)%nat with 0%nat by lia. }
    rewrite Hyi. cbn [mbind option_bind]. destruct (v_blocks d !! y) as [b|] eqn:Hb; [|done].
    cbn [fmap option_fmap option_map mbind option_bind].
    destruct (position_mem y _ Hy) as [pos Hpos]. rewrite Hpos. intros [= <- <- <- <-].
    apply position_Some in Hpos as (n1 & y' & n2 & Hn & Hpl & Hy').
    apply bool_decide_eq_true in Hy'. subst y'.
    destruct (split_middle _ _ _ _ Hs) as [Htake Hdrop]. rewrite Hi in Htake, Hdrop.
    destruct (split_middle _ _ _ _ Hn) as [_ Hnd]. rewrite Hpl in Hnd. rewrite Hnd. clear Hnd.
    cbv zeta. rewrite Htake, Hdrop, reverse_involutive.
    assert ((s1 ++ [y]) ++ n2 = s1 ++ y :: n2) as Hk by (by rewrite <- app_assoc).
    rewrite Hn in Hp, Hlast. rewrite Hs in Hsel. split_and!.
    + by rewrite <- app_assoc.
    + rewrite Hk. apply path_app. apply path_app in Hsel as [? _]. split; [done|].
      by apply path_suffix in Hp.
    + rewrite Hk. rewrite last_app_cons in Hlast |- *. done.
    + intros h Hh. rewrite elem_of_reverse in Hh.
      assert (h ∉ s1 ++ [y]) as Hns.
      { pose proof (path_NoDup _ _ Ha Hsel) as Hnd. rewrite cons_middle, app_assoc in Hnd.
        apply NoDup_app in Hnd as (_ & Hdis & _). intros ?. by eapply Hdis. }
      specialize (Hs2 h Hh). apply bool_decide_eq_false in Hs2. rewrite Hn in Hs2. set_solver.
    + rewrite last_snoc. split; [done|]. by exists b.
  - pose proof (proj1 (rposition_None _ _) Hidx) as Hnone. cbn [last]. intros Hdiff.
    destruct (ancestors_root _ _ _ Hanc) as (r & b & Hr & Hb & _).
    assert (rollback = reverse (v_selected_chain d) ∧ apply = reverse l ∧ x = vb_prev_hash b ∧
      ((x = hash_zero ∧ xs = 0 ∧ g = true ∧ r ∉ v_unknown_prev d) ∨ anchor = Some (x, xs)))
      as (-> & -> & -> & Hx).
    { revert Hdiff. rewrite Hr. cbn [mbind option_bind]. rewrite Hb.
      cbn [fmap option_fmap option_map]. case_match eqn:E.
      - apply andb_true_iff in E as [-> [Hu Hz]%andb_true_iff].
        apply bool_decide_eq_true in Hu, Hz. intros [= <- <- <- <-]. simplify_eq.
        split_and!; [done..|]. by left.
      - clear E. destruct anchor as [[ah as_]|]; [|done]. case_bool_decide as Hah; [|done].
        intros [= <- <- <- <-]. subst ah. split_and!; [done..|]. by right. }
    cbv zeta. rewrite reverse_involutive. split_and!; try done.
    + intros h Hh. rewrite elem_of_reverse in Hh. by apply Hnone, bool_decide_eq_false in Hh.
    + exists r, b. done.
Qed.

(** A switch is refused only when no block that the two chains share is within
    reach. *)
Lemma switch_diff_refused d tip l anchor g h kept rest :
  acyclic rank (v_blocks d) → path (v_blocks d) (v_selected_chain d) →
  ancestors (v_blocks d) tip l → v_selected_chain d = kept ++ h :: rest → h ∈ l →
  ∃ i x xs apply rollback,
    rposition (λ h, bool_decide (h ∈ reverse l)) (v_selected_chain d) = Some i ∧
    switch_diff d (reverse l) (Some i) anchor g = Some (x, xs, rollback, apply) ∧
    (length rollback ≤ length rest)%nat.
Proof.
  intros Ha Hsel Hanc Hk Hh. set (p := λ h, bool_decide (h ∈ reverse l)).
  destruct (rposition p (v_selected_chain d)) as [i|] eqn:E.
  - pose proof E as E'. apply rposition_Some in E as (s1 & y & s2 & Hs & Hi & Hy & Hs2).
    assert (v_selected_chain d !! i = Some y) as Hyi.
    { rewrite Hs, lookup_app_r by lia. by replace (i - length s1)%nat with 0%nat by lia. }
    destruct (path_stored _ _ y Hsel) as [b Hb]; [by eapply list_elem_of_lookup_2|].
    eexists i, _, _, _, _. split; [done|]. unfold switch_diff. rewrite Hyi.
    cbn [mbind option_bind]. rewrite Hb. cbn [fmap option_fmap option_map]. split; [done|].
    rewrite length_reverse, length_drop. rewrite Hk, length_app; simpl.
    enough (length kept ≤ i)%nat by lia. apply Nat.nlt_ge. intros Hlt.
    assert (h ∈ s2) as Hin.
    { apply (list_elem_of_lookup_2 _ (length kept - S i)%nat).
      transitivity (v_selected_chain d !! length kept).
      - rewrite Hs, cons_middle, app_assoc, lookup_app_r by (rewrite length_app; simpl; lia).
        f_equal. rewrite length_app; simpl. lia.
      - by rewrite Hk, list_lookup_middle. }
    apply Hs2 in Hin. unfold p in Hin. apply bool_decide_eq_false in Hin.
    by rewrite elem_of_reverse in Hin.
  - pose proof (proj1 (rposition_None _ _) E h) as Hn. rewrite Hk in Hn.
    unfold p in Hn. rewrite bool_decide_eq_false, elem_of_reverse in Hn. exfalso. apply Hn; set_solver.
Qed.

End rank.

Lemma ancestors_inj B h l1 l2 : ancestors B h l1 → ancestors B h l2 → l1 = l2.
Proof.
  intros H1. revert l2. induction H1 as [h b Hb Hp|h b l Hb Hp Hl IH]; intros l2 H2; inversion H2;
    simplify_eq; [done|..].
  - rewrite Hp in *. by match goal with H : is_Some None |- _ => destruct H end.
  - match goal with H : _ = None |- _ => rewrite H in Hp; by destruct Hp end.
  - f_equal. by apply IH.
Qed.

Lemma gc_apply (X : list Hash32) (m : gmap Hash32 Z) h :
  foldl (λ m h, delete h m) m X !! h = if decide (h ∈ X) then None else m !! h.
Proof.
  revert m. induction X as [|x X IH]; intros m; cbn [foldl].
  { by rewrite decide_False by apply not_elem_of_nil. }
  rewrite IH. destruct (decide (h = x)) as [->|Hne].
  - rewrite lookup_delete_eq, (decide_True (P := x ∈ x :: X)) by left. by case_decide.
  - rewrite lookup_delete_ne by done. apply decide_ext. rewrite elem_of_cons. naive_solver.
Qed.

Lemma gc_schedule (X : list Hash32) (now : Z) (m : gmap Hash32 Z) h :
  foldl (λ m h, <[h := now]> m) m X !! h = if decide (h ∈ X) then Some now else m !! h.
Proof.
  revert m. induction X as [|x X IH]; intros m; cbn [foldl].
  { by rewrite decide_False by apply not_elem_of_nil. }
  rewrite IH. destruct (decide (h = x)) as [->|Hne].
  - rewrite lookup_insert_eq, (decide_True (P := x ∈ x :: X)) by left. by case_decide.
  - rewrite lookup_insert_ne by done. apply decide_ext. rewrite elem_of_cons. naive_solver.
Qed.

(** ** Reachability *)

Record reach_inv (d : VolatileDB) (a : Hash32) (queue : list Hash32) (R : gset Hash32) : Prop := {
  ri_sound h : h ∈ R → tc (child_of (v_blocks d)) a h;
  ri_queue h : h ∈ queue → h = a ∨ h ∈ R;
  ri_closed x y : x = a ∨ x ∈ R → child_of (v_blocks d) x y → x ∈ queue ∨ y ∈ R;
}.

Lemma reach_inv_step d a x queue R :
  vol_links d → reach_inv d a (x :: queue) R →
  let fresh := elements (succs (v_successors d) x ∖ R) in
  reach_inv d a (queue ++ fresh) (list_to_set fresh ∪ R).
Proof.
  intros Hl [Hs Hq Hc] fresh.
  assert (∀ h, h ∈ fresh ↔ child_of (v_blocks d) x h ∧ h ∉ R) as Hf.
  { intros h. unfold fresh. by rewrite elem_of_elements, elem_of_difference, (lk_succ _ _ _ Hl). }
  split.
  - intros h. rewrite elem_of_union, elem_of_list_to_set, Hf. intros [[Hch _]|?]; [|by apply Hs].
    destruct (Hq x) as [->|Hx]; [by left|by apply tc_once|]. eapply tc_r; [by apply Hs|done].
  - intros h. rewrite elem_of_app, elem_of_union, elem_of_list_to_set. intros [Hh|Hh]; [|by right; left].
    destruct (Hq h) as [->|?]; [by right|by left|by right; right].
  - intros u y. rewrite elem_of_app, !elem_of_union, !elem_of_list_to_set. intros Hu Hch.
    destruct (decide (u ∈ queue ++ fresh)) as [Hin|Hin].
    { apply elem_of_app in Hin. by left. }
    rewrite elem_of_app in Hin. right.
    destruct (Hc u y) as [Hux|?]; [tauto|done| |by right].
    apply elem_of_cons in Hux as [->|?]; [|tauto].
    destruct (decide (y ∈ R)); [by right|]. left. by apply Hf.
Qed.

Lemma succs_stored d x y : vol_links d → y ∈ succs (v_successors d) x → y ∈ dom (v_blocks d).
Proof. intros Hl Hy. apply (lk_succ _ _ _ Hl) in Hy as (b & Hb & _). by apply elem_of_dom_2 in Hb. Qed.

Lemma reach_loop_spec fuel d a queue R :
  vol_links d → reach_inv d a queue R → R ⊆ dom (v_blocks d) →
  (length queue + size (v_blocks d) ≤ fuel + size R)%nat →
  reach_inv d a [] (reach_loop fuel d queue R).
Proof.
  intros Hl. revert queue R. induction fuel as [|fuel IH]; intros queue R Hi HR Hf.
  { apply subseteq_size in HR. rewrite size_dom in HR. destruct queue; [done|simpl in Hf; lia]. }
  destruct queue as [|x queue]; [done|]. cbn [reach_loop].
  fold (succs (v_successors d) x). set (fresh := elements _).
  assert (size (list_to_set fresh ∪ R) = length fresh + size R)%nat as Hsz.
  { unfold fresh. rewrite list_to_set_elements_L, size_union by set_solver. done. }
  apply IH.
  - by apply reach_inv_step.
  - intros h. rewrite elem_of_union, elem_of_list_to_set. unfold fresh. rewrite elem_of_elements.
    intros [[Hs _]%elem_of_difference|Hh]; [by eapply succs_stored|by apply HR].
  - rewrite Hsz, length_app. simpl in Hf. lia.
Qed.

(** The search finds the stored descendants of the anchor, and no other. *)
Lemma reachable_from_spec d a h :
  vol_links d → h ∈ reachable_from d a ↔ tc (child_of (v_blocks d)) a h.
Proof.
  intros Hl. unfold reachable_from.
  destruct (reach_loop_spec (S (size (v_blocks d))) d a [a] ∅ Hl) as [Hs _ Hc].
  { split; [set_solver| |].
    - intros x ->%list_elem_of_singleton. by left.
    - intros x y [->|?] _; [left; by left|set_solver]. }
  { set_solver. }
  { cbn [length]. rewrite size_empty. lia. }
  split; [apply Hs|]. revert h. apply tc_ind_r.
  - intros h Hh. by destruct (Hc a h (or_introl eq_refl) Hh) as [?%elem_of_nil|?].
  - intros x h _ Hh Hx. by destruct (Hc x h (or_intror Hx) Hh) as [?%elem_of_nil|?].
Qed.

Section prune.
Context {CR : Crates}.

Lemma remove_in_memory_blocks hs d x :
  v_blocks (foldl remove_in_memory d hs) !! x = if decide (x ∈ hs) then None else v_blocks d !! x.
Proof.
  revert d. induction hs as [|h hs IH]; intros d; cbn [foldl].
  { by rewrite decide_False by apply not_elem_of_nil. }
  rewrite IH.
  assert (v_blocks (remove_in_memory d h) = delete h (v_blocks d)) as ->.
  { unfold remove_in_memory. destruct (v_blocks d !! h) eqn:E; [done|]. by rewrite delete_id. }
  destruct (decide (x = h)) as [->|Hne].
  - rewrite lookup_delete_eq, (decide_True (P := h ∈ h :: hs)) by left. by case_decide.
  - rewrite lookup_delete_ne by done. apply decide_ext. rewrite elem_of_cons. naive_solver.
Qed.

Lemma remove_in_memory_chain hs d :
  v_selected_chain (foldl remove_in_memory d hs) = v_selected_chain d ∧
  v_tip (foldl remove_in_memory d hs) = v_tip d.
Proof.
  revert d. induction hs as [|h hs IH]; intros d; [done|]. cbn [foldl].
  destruct (IH (remove_in_memory d h)) as [-> ->]. unfold remove_in_memory. by case_match.
Qed.

End prune.

Section prune_spec.
Context {CR : Crates}.

Lemma rewrite_wal_mem d : v_blocks (rewrite_wal d) = v_blocks d ∧
  v_selected_chain (rewrite_wal d) = v_selected_chain d ∧ v_tip (rewrite_wal d) = v_tip d.
Proof. unfold rewrite_wal. by destruct (v_wal d). Qed.

Lemma maybe_compact_mem d : v_blocks (maybe_compact_wal d) = v_blocks d ∧
  v_selected_chain (maybe_compact_wal d) = v_selected_chain d ∧ v_tip (maybe_compact_wal d) = v_tip d.
Proof. unfold maybe_compact_wal, compact_wal. by repeat case_match. Qed.

Lemma remove_memory_lookup hs d x :
  v_blocks (remove_blocks_in_memory hs d) !! x = if decide (x ∈ hs) then None else v_blocks d !! x.
Proof. apply remove_in_memory_blocks. Qed.

Lemma elem_of_keys (m : gmap Hash32 VolatileBlock) h : h ∈ (map_to_list m).*1 ↔ is_Some (m !! h).
Proof.
  rewrite list_elem_of_fmap. split.
  - intros ([k b] & -> & Hk). apply elem_of_map_to_list in Hk. by eexists.
  - intros [b Hb]. exists (h, b). by rewrite elem_of_map_to_list.
Qed.

Lemma prune_lookup a d h :
  vol_links d →
  v_blocks (prune_unreachable_from a d).2 !! h =
    if decide (h ∈ reachable_from d a) then v_blocks d !! h else None.
Proof.
  intros Hl. unfold prune_unreachable_from. set (U := filter _ _). cbn [snd].
  assert (h ∈ U ↔ h ∉ reachable_from d a ∧ is_Some (v_blocks d !! h)) as HU.
  { unfold U. by rewrite list_elem_of_filter, elem_of_keys. }
  destruct (Nat.ltb_spec 0 (length U)) as [Hn|Hn].
  - unfold remove_blocks_by_hashes. destruct (rewrite_wal_mem (remove_blocks_in_memory U d)) as [-> _].
    rewrite remove_memory_lookup. destruct (decide (h ∈ U)) as [Hh|Hh]; rewrite HU in Hh; case_decide.
    + tauto.
    + done.
    + done.
    + destruct (v_blocks d !! h) eqn:E; [|done]. exfalso. apply Hh. split; [done|by eexists].
  - assert (U = []) as E by (apply length_zero_iff_nil; lia). rewrite E in HU.
    case_decide; [done|]. destruct (v_blocks d !! h) eqn:Eh; [|done].
    exfalso. eapply not_elem_of_nil. apply HU. split; [done|by eexists].
Qed.

Lemma is_Some_None_iff {A} : is_Some (None : option A) ↔ False.
Proof. split; [apply is_Some_None|done]. Qed.

Lemma prune_count a d :
  vol_links d →
  ((prune_unreachable_from a d).1 + size (v_blocks (prune_unreachable_from a d).2)
   = size (v_blocks d))%nat.
Proof.
  intros Hl. set (U := filter (λ h, h ∉ reachable_from d a) (map_to_list (v_blocks d)).*1).
  change (prune_unreachable_from a d).1 with (length U).
  assert (∀ h, h ∈ U ↔ h ∉ reachable_from d a ∧ is_Some (v_blocks d !! h)) as HU.
  { intros h. unfold U. by rewrite list_elem_of_filter, elem_of_keys. }
  assert (length U = size (list_to_set U : gset Hash32)) as ->.
  { rewrite size_list_to_set; [done|]. apply NoDup_filter, NoDup_fst_map_to_list. }
  rewrite <- !size_dom, <- size_union.
  - f_equal. apply set_eq. intros h.
    rewrite elem_of_union, elem_of_list_to_set, HU, !elem_of_dom, prune_lookup by done.
    case_decide; rewrite ?is_Some_None_iff; tauto.
  - intros h. rewrite elem_of_list_to_set, HU, elem_of_dom, prune_lookup by done.
    case_decide; [tauto|]. by rewrite is_Some_None_iff.
Qed.

Lemma prune_chain a d h :
  vol_links d →
  h ∈ v_selected_chain (prune_unreachable_from a d).2 ↔
  h ∈ v_selected_chain d ∧
  (v_blocks d !! h = None ∨ is_Some (v_blocks (prune_unreachable_from a d).2 !! h)).
Proof.
  intros Hl. rewrite prune_lookup by done. unfold prune_unreachable_from. set (U := filter _ _).
  cbn [snd].
  assert (h ∈ U ↔ h ∉ reachable_from d a ∧ is_Some (v_blocks d !! h)) as HU.
  { unfold U. by rewrite list_elem_of_filter, elem_of_keys. }
  assert (h ∉ U ↔ v_blocks d !! h = None ∨
    is_Some (if decide (h ∈ reachable_from d a) then v_blocks d !! h else None)) as HU'.
  { rewrite HU. destruct (v_blocks d !! h); case_decide; rewrite ?is_Some_None_iff; naive_solver. }
  rewrite <- HU'. destruct (Nat.ltb_spec 0 (length U)) as [Hn|Hn].
  - unfold remove_blocks_by_hashes. rewrite (proj1 (proj2 (rewrite_wal_mem _))).
    unfold remove_blocks_in_memory. cbn [v_selected_chain with_selected_chain].
    rewrite (proj1 (remove_in_memory_chain _ _)), list_elem_of_filter. tauto.
  - assert (U = []) as -> by (apply length_zero_iff_nil; lia). set_solver.
Qed.

(** Nothing below an anchor is among its descendants. *)
Lemma descendants_rank rank B a h : acyclic rank B → tc (child_of B) a h → rank a < rank h.
Proof.
  intros Ha. induction 1 as [x y (b & Hb & <-)|x y z (b & Hb & <-) _ IH]; [by apply Ha|].
  pose proof (Ha _ _ Hb). lia.
Qed.

Lemma ancestor_rank rank B x a : acyclic rank B → rtc (child_of B) x a → rank x ≤ rank a.
Proof.
  intros Ha. induction 1 as [|x y z (b & Hb & <-) _ IH]; [lia|]. pose proof (Ha _ _ Hb). lia.
Qed.

Lemma descendants_without rank B B' a h :
  acyclic rank B → (∀ x, rank a < rank x → B' !! x = B !! x) →
  (∀ x b, B' !! x = Some b → B !! x = Some b) →
  tc (child_of B) a h ↔ tc (child_of B') a h.
Proof.
  intros Ha Hhi Hsub. split.
  - revert h. apply tc_ind_r.
    + intros h Hh. apply tc_once. pose proof (descendants_rank _ _ _ _ Ha (tc_once _ _ _ Hh)).
      destruct Hh as (b & Hb & Hp). exists b. by rewrite Hhi.
    + intros x h Hx Hh IH. eapply tc_r; [done|].
      assert (rank a < rank h) by (apply (descendants_rank rank B); [done|by eapply tc_r]).
      destruct Hh as (b & Hb & Hp). exists b. by rewrite Hhi.
  - apply (tc_congruence id). intros x y (b & Hb & Hp). exists b. eauto.
Qed.

End prune_spec.
