(* ===== verification/VolatileSelect.v ===== *)
(** * The selection of the volatile store

    [tip_le], the order in which [rebuild_selected_chain] compares fork tips,
    with the proof that the scan finds its maximum in whatever order the map
    yields the tips; and [chain_ok], the invariant that ties the selected chain
    to the stored blocks and to [tip]. *)

From S2P Require Import Prelude Order Bytes EraHistory Block ChainFragment VolatileWal VolatileDb VolatileInv VolatileChain.
Local Open Scope Z_scope.

(** ** The best tip *)

Abbreviation LeafTip := (Hash32 * Z * Z)%type.

Definition walk_length (d : VolatileDB) (t : LeafTip) : nat := length (walk_chain_back d t.1.1).

(** Block number, then length of the stored chain, then hash. *)
Definition tip_le (d : VolatileDB) (t1 t2 : LeafTip) : Prop :=
  t1.2 < t2.2 ∨
  (t1.2 = t2.2 ∧
   ((walk_length d t1 < walk_length d t2)%nat ∨
    (walk_length d t1 = walk_length d t2 ∧ key_le t1.1.1 t2.1.1))).

Lemma tip_le_refl d t : tip_le d t t.
Proof. right. split; [done|right; split; [done|]]. unfold key_le. by rewrite slice_cmp_refl. Qed.

Lemma tip_le_trans d t1 t2 t3 : tip_le d t1 t2 → tip_le d t2 t3 → tip_le d t1 t3.
Proof.
  intros [?|[? [?|[? H1]]]] [?|[? [?|[? H2]]]]; unfold tip_le; try lia.
  right. split; [lia|]. right. split; [lia|]. etrans; done.
Qed.

Lemma tip_le_antisym d t1 t2 : tip_le d t1 t2 → tip_le d t2 t1 → t1.1.1 = t2.1.1 ∧ t1.2 = t2.2.
Proof.
  intros [?|[? [?|[? H1]]]] [?|[? [?|[? H2]]]]; try lia. split; [|done]. by apply (anti_symm key_le).
Qed.

Definition chosen (d : VolatileDB) (t : LeafTip) : list Hash32 * Z * option Hash32 :=
  (walk_chain_back d t.1.1, t.2, Some t.1.1).

Lemma better_tip_chosen d t t' :
  better_tip d (chosen d t) t' = chosen d t' ∧ tip_le d t t' ∨
  better_tip d (chosen d t) t' = chosen d t ∧ tip_le d t' t.
Proof.
  destruct t as [[h s] n], t' as [[h' s'] n']. unfold better_tip, chosen, tip_le, walk_length. cbn [fst snd].
  destruct (Z.ltb_spec n n'); [left; auto|].
  destruct (Z.eqb_spec n' n) as [->|]; [|right; split; [done|lia]].
  destruct (Nat.ltb_spec (length (walk_chain_back d h)) (length (walk_chain_back d h'))); cbn [orb].
  { left; auto. }
  destruct (Nat.eqb_spec (length (walk_chain_back d h')) (length (walk_chain_back d h))) as [El|El];
    cbn [andb]; [|right; split; [done|lia]].
  unfold hash_after. destruct (slice_cmp h' h) eqn:E.
  - right. split; [done|]. right. split; [done|]. right. split; [done|]. unfold key_le. by rewrite E.
  - right. split; [done|]. right. split; [done|]. right. split; [done|]. unfold key_le. by rewrite E.
  - left. split; [done|]. right. split; [done|]. right. split; [done|]. unfold key_le.
    rewrite slice_cmp_antisym, E. done.
Qed.

Lemma better_tip_first d t :
  0 ≤ t.2 → (0 < walk_length d t)%nat → better_tip d ([], 0, None) t = chosen d t.
Proof.
  destruct t as [[h s] n]. unfold walk_length, better_tip, chosen. cbn [fst snd]. intros Hn Hl.
  destruct (Z.ltb_spec 0 n); [done|]. assert (n = 0) as -> by lia. cbn [Z.eqb length].
  destruct (Nat.ltb_spec 0 (length (walk_chain_back d h))); [done|lia].
Qed.

Lemma select_best_spec d tips :
  (∀ t, t ∈ tips → 0 ≤ t.2 ∧ (0 < walk_length d t)%nat) → tips ≠ [] →
  ∃ t, t ∈ tips ∧ select_best d tips = chosen d t ∧ ∀ t', t' ∈ tips → tip_le d t' t.
Proof.
  induction tips as [|t tips IH] using rev_ind; [done|]. intros Hok _.
  unfold select_best. rewrite foldl_app. cbn [foldl]. fold (select_best d tips).
  destruct (decide (tips = [])) as [->|Hne].
  { exists t. split; [set_solver|]. split; [apply better_tip_first; apply Hok; set_solver|].
    intros t' ->%list_elem_of_singleton. apply tip_le_refl. }
  destruct IH as (m & Hm & -> & Hmax); [intros; apply Hok; set_solver|done|].
  destruct (better_tip_chosen d m t) as [[-> Hle]|[-> Hle]].
  - exists t. split; [set_solver|split; [done|]].
    intros t' [Ht| ->%list_elem_of_singleton]%elem_of_app; [|apply tip_le_refl].
    eapply tip_le_trans; [by apply Hmax|done].
  - exists m. split; [set_solver|split; [done|]].
    intros t' [Ht| ->%list_elem_of_singleton]%elem_of_app; [by apply Hmax|done].
Qed.

(** The order in which the tips come does not matter. *)
Lemma select_best_perm d tips tips' :
  (∀ t, t ∈ tips → 0 ≤ t.2 ∧ (0 < walk_length d t)%nat) → tips ≡ₚ tips' →
  select_best d tips = select_best d tips'.
Proof.
  intros Hok Hperm. destruct (decide (tips = [])) as [->|Hne].
  { by apply Permutation_nil_l in Hperm as ->. }
  assert (tips' ≠ []) as Hne' by (intros ->; by apply Permutation_nil_r in Hperm).
  destruct (select_best_spec d tips Hok Hne) as (t & Ht & -> & Hmax).
  destruct (select_best_spec d tips') as (t' & Ht' & -> & Hmax'); [|done|].
  { intros x Hx. apply Hok. by rewrite Hperm. }
  destruct (tip_le_antisym d t t') as [Hh Hn].
  - apply Hmax'. by rewrite <- Hperm.
  - apply Hmax. by rewrite Hperm.
  - unfold chosen. by rewrite Hh, Hn.
Qed.

Lemma elem_of_leaf_tips d h s n :
  (h, s, n) ∈ get_leaf_tips d ↔
  ∃ b, v_blocks d !! h = Some b ∧ vb_slot b = s ∧ vb_block_no b = n ∧
    childless (v_successors d) h = true.
Proof.
  unfold get_leaf_tips. rewrite list_elem_of_fmap. split.
  - intros ([h' b] & [= -> -> ->] & [Hc Hb]%list_elem_of_filter).
    apply elem_of_map_to_list in Hb. by exists b.
  - intros (b & Hb & <- & <- & Hc). exists (h, b). split; [done|].
    rewrite list_elem_of_filter, elem_of_map_to_list. done.
Qed.

(** A finite acyclic store has a block without children. *)
Lemma leaf_exists rank d :
  vol_links d → acyclic rank (v_blocks d) → v_blocks d ≠ ∅ → get_leaf_tips d ≠ [].
Proof.
  intros Hl Ha Hne.
  set (R := λ x y : Hash32, rank y ≤ rank x).
  assert (Transitive R) by (intros ???; unfold R; lia).
  assert (∀ x y, Decision (R x y)) by (intros; apply Z.le_dec).
  destruct (minimal_exists_elem_of_L R (dom (v_blocks d))) as (h & Hh & Hmin).
  { intros E. apply Hne. by apply dom_empty_inv_L. }
  apply elem_of_dom in Hh as [b Hb]. intros E.
  eapply not_elem_of_nil. rewrite <- E. apply elem_of_leaf_tips. exists b. split_and!; [done..|].
  apply (links_childless _ _ _ _ Hl). intros c (bc & Hc & Hp).
  pose proof (Ha _ _ Hc) as Hr. rewrite Hp in Hr.
  specialize (Hmin c (elem_of_dom_2 _ _ _ Hc)). unfold R in Hmin. lia.
Qed.

(** ** The selected chain *)

Lemma path_ext B B' l :
  path B l →
  (∀ x b, x ∈ l → B !! x = Some b → ∃ b', B' !! x = Some b' ∧ vb_prev_hash b' = vb_prev_hash b) →
  path B' l.
Proof.
  induction l as [|x l IH]; intros Hp Hx; [done|]. destruct Hp as ([b Hb] & Hp & Hc).
  split; [destruct (Hx x b) as (b' & ? & _); [set_solver|done|by eexists]|].
  split; [apply IH; [done|]; intros; apply Hx; set_solver|].
  destruct l as [|y l]; [done|]. destruct Hc as (by_ & Hy & <-).
  destruct (Hx y by_) as (b' & Hb' & E); [set_solver|done|]. by exists b'.
Qed.

(** Whatever the store holds, walking back gives a path to the tip. *)
Lemma walk_loop_path fuel d visited cur chain :
  (is_Some (v_blocks d !! cur) → path (v_blocks d) (cur :: reverse chain)) →
  path (v_blocks d) (reverse chain) →
  path (v_blocks d) (reverse (walk_loop fuel d visited cur chain)).
Proof.
  revert visited cur chain. induction fuel as [|fuel IH]; intros visited cur chain Hc Hp; [done|].
  simpl. destruct (v_blocks d !! cur) as [b|] eqn:Hb; [|done]. case_bool_decide; [done|].
  assert (path (v_blocks d) (reverse (chain ++ [cur]))) as Hp' by (rewrite reverse_snoc; auto).
  destruct (has_block d (vb_prev_hash b)) eqn:Hh; [|done]. apply IH; [|done].
  intros Hs. rewrite reverse_snoc in *. split; [done|split; [done|]]. by exists b.
Qed.

Lemma walk_chain_back_path d tip : path (v_blocks d) (walk_chain_back d tip).
Proof. unfold walk_chain_back. apply walk_loop_path; [|done]. intros Hs. by split. Qed.

(** Blocks that are closed under taking children are the end of a path. *)
Lemma path_filter_up B (P : Hash32 → Prop) `{!∀ x, Decision (P x)} l :
  path B l → (∀ x y, P x → child_of B x y → P y) → path B (filter P l).
Proof.
  intros Hp Hup. induction l as [|x l IH]; [done|]. destruct (decide (P x)) as [Hx|Hx].
  - enough (filter P (x :: l) = x :: l) as -> by done. clear IH. revert x Hx Hp.
    induction l as [|y l IHl]; intros x Hx (Hs & Hp & Hc); rewrite filter_cons_True by done; [done|].
    f_equal. apply IHl; [by eapply Hup|done].
  - rewrite filter_cons_False by done. apply IH. by destruct Hp as (_ & ? & _).
Qed.

Lemma last_filter {A} (P : A → Prop) `{!∀ x, Decision (P x)} (l : list A) x :
  last l = Some x → P x → last (filter P l) = Some x.
Proof.
  intros Hl Hx. apply last_Some in Hl as [l' ->].
  by rewrite filter_app, filter_cons_True, filter_nil, last_snoc.
Qed.

Section chain_ok.
Context (rank : Hash32 → Z) {CR : Crates}.

Record chain_ok (d : VolatileDB) : Prop := {
  ck_links : acyclic rank (v_blocks d);
  ck_path : path (v_blocks d) (v_selected_chain d);
  ck_tip : v_tip d = last (v_selected_chain d) ≫= tip_of d;
}.

(** Only these fields matter. *)
Lemma chain_ok_same d d' :
  v_blocks d' = v_blocks d → v_selected_chain d' = v_selected_chain d → v_tip d' = v_tip d →
  chain_ok d → chain_ok d'.
Proof.
  intros Hb Hs Ht [Ha Hp Hk]. split; [by rewrite Hb|by rewrite Hb, Hs|].
  rewrite Ht, Hs, Hk. destruct (last _); [|done]. simpl. unfold tip_of. by rewrite Hb.
Qed.

Lemma acyclic_sub B B' : (∀ x b, B' !! x = Some b → B !! x = Some b) → acyclic rank B → acyclic rank B'.
Proof. intros Hs Ha h b Hb. by apply Ha, Hs. Qed.

(** Removing blocks off the selected chain. *)
Lemma chain_ok_remove d d' :
  (∀ x b, v_blocks d' !! x = Some b → v_blocks d !! x = Some b) →
  (∀ x, x ∈ v_selected_chain d → v_blocks d' !! x = v_blocks d !! x) →
  v_selected_chain d' = v_selected_chain d → v_tip d' = v_tip d → chain_ok d → chain_ok d'.
Proof.
  intros Hsub Hsel Hs Ht [Ha Hp Hk]. split.
  - by eapply acyclic_sub.
  - rewrite Hs. eapply path_ext; [done|]. intros x b Hx Hb. exists b. by rewrite Hsel.
  - rewrite Ht, Hs, Hk. destruct (last _) as [t|] eqn:E; [|done]. simpl. unfold tip_of.
    rewrite Hsel; [done|]. apply last_Some in E as [l ->]. set_solver.
Qed.

(** A selection that is a path, with its tip recomputed. *)
Lemma chain_ok_recompute d :
  acyclic rank (v_blocks d) → path (v_blocks d) (v_selected_chain d) → chain_ok (recompute_tip d).
Proof. intros Ha Hp. by split. Qed.

Lemma chain_ok_new : chain_ok vol_new.
Proof. split; [|done..]. intros h b. simpl. by rewrite lookup_empty. Qed.

(** A hash stands for one header. *)
Definition same_header (d : VolatileDB) (hash : Hash32) (slot no : Z) (prev : Hash32) : Prop :=
  ∀ b, v_blocks d !! hash = Some b → vb_slot b = slot ∧ vb_block_no b = no ∧ vb_prev_hash b = prev.

Lemma insert_mem hash slot no prev cbor ext d :
  let r := insert_block_internal hash slot no prev cbor ext d in
  v_blocks r.2 = <[hash := mkVBlock slot no prev cbor]> (v_blocks d) ∧
  (r.1 = true ∧ ext = true ∧ (∀ t, last (v_selected_chain d) = Some t → prev = t) ∧
   v_selected_chain r.2 = v_selected_chain d ++ [hash] ∧ v_tip r.2 = Some (slot, hash, no) ∨
   r.1 = false ∧ v_selected_chain r.2 = v_selected_chain d ∧ v_tip r.2 = v_tip d).
Proof.
  unfold insert_block_internal.
  cbn [v_successors with_leaves with_blocks with_slot_index with_successors].
  set (d1 := if childless _ hash then _ else _).
  assert (v_blocks d1 = <[hash := mkVBlock slot no prev cbor]> (v_blocks d) ∧
    v_selected_chain d1 = v_selected_chain d ∧ v_tip d1 = v_tip d) as (Hb & Hs & Ht)
    by (unfold d1; by destruct (childless _ _)).
  clearbody d1. rewrite Hs. destruct (ext && _) eqn:E; cbn [fst snd]; [|by rewrite Hs, Ht; auto].
  split; [done|left]. cbn [v_selected_chain v_tip with_tip with_block_no_index with_selected_chain].
  apply andb_true_iff in E as [-> E]. split_and!; try done.
  intros t Et. rewrite Et in E. by apply bool_decide_eq_true in E.
Qed.

Lemma insert_chain_ok hash slot no prev cbor ext d :
  chain_ok d → rank prev < rank hash → same_header d hash slot no prev →
  chain_ok (insert_block_internal hash slot no prev cbor ext d).2.
Proof.
  intros [Ha Hp Hk] Hr Hsame. set (blk := mkVBlock slot no prev cbor).
  destruct (insert_mem hash slot no prev cbor ext d) as [Hb Hcase]. fold blk in Hb.
  set (d' := (insert_block_internal hash slot no prev cbor ext d).2) in *.
  assert (∀ x b, v_blocks d !! x = Some b → ∃ b', v_blocks d' !! x = Some b' ∧
    vb_prev_hash b' = vb_prev_hash b ∧ tip_of d' x = tip_of d x) as Hkeep.
  { intros x b Hx. unfold tip_of. rewrite Hb, Hx. destruct (decide (x = hash)) as [->|Hne].
    - rewrite lookup_insert_eq. destruct (Hsame _ Hx) as (E1 & E2 & E3). exists blk. simpl. by rewrite E1, E2, E3.
    - rewrite lookup_insert_ne, Hx by done. by exists b. }
  assert (path (v_blocks d') (v_selected_chain d)) as Hp'.
  { eapply path_ext; [done|]. intros x b _ Hx. destruct (Hkeep x b Hx) as (b' & ? & ? & _). by exists b'. }
  split.
  - rewrite Hb. intros h b. destruct (decide (h = hash)) as [->|Hne].
    + rewrite lookup_insert_eq. by intros [= <-].
    + rewrite lookup_insert_ne by done. apply Ha.
  - destruct Hcase as [(_ & _ & Hext & -> & _)|(_ & -> & _)]; [|done].
    assert (v_blocks d' !! hash = Some blk) as Hh by (by rewrite Hb, lookup_insert_eq).
    apply path_snoc; [done|by eexists|]. intros t Et%Hext. by exists blk.
  - destruct Hcase as [(_ & _ & _ & -> & ->)|(_ & -> & ->)].
    + rewrite last_snoc. simpl. unfold tip_of. by rewrite Hb, lookup_insert_eq.
    + rewrite Hk. destruct (last _) as [t|] eqn:Et; [|done]. simpl.
      destruct (path_stored _ _ t Hp) as [b Hbt]; [apply last_Some in Et as [l ->]; set_solver|].
      by destruct (Hkeep t b Hbt) as (_ & _ & _ & ->).
Qed.

Lemma add_chain_ok hash slot no prev cbor ext d :
  chain_ok d → rank prev < rank hash → same_header d hash slot no prev →
  chain_ok (add_block_gated hash slot no prev cbor ext d).2.
Proof.
  intros Hk Hr Hsame. set (d1 := append_wal hash slot no prev cbor (maybe_compact_wal d)).
  assert (v_blocks d1 = v_blocks d ∧ v_selected_chain d1 = v_selected_chain d ∧ v_tip d1 = v_tip d)
    as (Hb & Hs & Ht).
  { destruct (maybe_compact_mem d) as (<- & <- & <-). unfold d1, append_wal. by case_match. }
  assert (∀ x, chain_ok (insert_block_internal hash slot no prev cbor x d1).2) as Hx.
  { intros x. apply insert_chain_ok; [by eapply chain_ok_same|done|]. unfold same_header. by rewrite Hb. }
  unfold add_block_gated, add_block. destruct ext; apply Hx.
Qed.

(** *** Moving the selection *)

Lemma unselect_mem now hs d :
  v_blocks (foldl (unselect now) d hs) = v_blocks d ∧
  v_selected_chain (foldl (unselect now) d hs) = v_selected_chain d.
Proof.
  revert d. induction hs as [|h hs IH]; intros d; [done|]. cbn [foldl].
  destruct (IH (unselect now d h)) as [-> ->]. unfold unselect. by case_match.
Qed.

Lemma unselect_gc now hs d h :
  h ∈ hs → v_gc_schedule (foldl (unselect now) d hs) !! h = Some now.
Proof.
  assert (∀ d x, v_gc_schedule (unselect now d x) = <[x := now]> (v_gc_schedule d)) as Hu.
  { intros d' x. unfold unselect. by case_match. }
  assert (v_gc_schedule (foldl (unselect now) d hs) = foldl (λ m h, <[h := now]> m) (v_gc_schedule d) hs) as ->.
  { revert d. induction hs as [|x hs IH]; intros d; [done|]. cbn [foldl]. by rewrite IH, Hu. }
  intros Hh. by rewrite gc_schedule, decide_True.
Qed.

(** The block a rollback asks for. *)
Definition is_target (d : VolatileDB) (s : Z) (th : option Hash32) (h : Hash32) : Prop :=
  ∃ b, v_blocks d !! h = Some b ∧ vb_slot b = s ∧ ∀ x, th = Some x → h = x.

Lemma at_target_spec d s th h :
  match v_blocks d !! h with
  | Some block => (vb_slot block =? s) && match th with None => true | Some x => bool_decide (h = x) end
  | None => false
  end = true ↔ is_target d s th h.
Proof.
  unfold is_target. destruct (v_blocks d !! h) as [b|]; [|naive_solver].
  rewrite andb_true_iff, Z.eqb_eq. destruct th as [x|]; [rewrite bool_decide_eq_true|]; naive_solver.
Qed.

Lemma position_None {A} (p : A → bool) l : position p l = None → ∀ x, x ∈ l → p x = false.
Proof.
  induction l as [|x l IH]; [by intros _ x ?%elem_of_nil|]. simpl. destruct (p x) eqn:E; [done|].
  intros Hn%fmap_None y [->|Hy]%elem_of_cons; auto.
Qed.

(** Where a rollback cuts the selected chain [sel]. *)
Definition cut_of (d : VolatileDB) (s : Z) (th : option Hash32) (sel kept gone : list Hash32) : Prop :=
  sel = kept ++ gone ∧
  ((∃ h, last kept = Some h ∧ is_target d s th h) ∨
   ((∀ h, h ∈ sel → ¬ is_target d s th h) ∧
    (∀ h, h ∈ gone → ∃ b, v_blocks d !! h = Some b ∧ s < vb_slot b) ∧
    ∀ h, last kept = Some h → ∃ b, v_blocks d !! h = Some b ∧ vb_slot b ≤ s)).

Lemma rollback_cut now s th d :
  path (v_blocks d) (v_selected_chain d) →
  let r := rollback_to_point now s th d in
  cut_of d s th (v_selected_chain d) (v_selected_chain r.2) (reverse r.1) ∧
  v_blocks r.2 = v_blocks d ∧
  ∀ h, h ∈ r.1 → v_gc_schedule r.2 !! h = Some now.
Proof.
  intros Hp. unfold rollback_to_point.
  set (atp := λ h, match v_blocks d !! h with Some block => _ | None => _ end).
  set (before := λ h, match v_blocks d !! h with Some b => _ | None => _ end).
  assert (∀ h, h ∈ v_selected_chain d → before h = false →
    ∃ b, v_blocks d !! h = Some b ∧ s < vb_slot b) as Hlater.
  { intros h Hh. destruct (path_stored _ _ h Hp Hh) as [b Hb]. unfold before. rewrite Hb, Z.leb_gt. eauto. }
  assert (∀ i, (match position atp (v_selected_chain d) with
      | Some i => Some i | None => rposition before (v_selected_chain d) end) = Some i →
    cut_of d s th (v_selected_chain d) (take (S i) (v_selected_chain d)) (drop (S i) (v_selected_chain d))) as Hsome.
  { intros i. destruct (position atp _) as [j|] eqn:Ep.
    - intros [= <-]. apply position_Some in Ep as (l1 & y & l2 & Hs & <- & Hy).
      destruct (split_middle _ _ _ _ Hs) as [-> ->]. split; [by rewrite <- app_assoc|]. left. exists y.
      rewrite last_snoc. split; [done|]. by apply at_target_spec.
    - intros Ei. apply rposition_Some in Ei as (l1 & y & l2 & Hs & <- & Hy & Hl2).
      destruct (split_middle _ _ _ _ Hs) as [-> ->]. split; [by rewrite <- app_assoc|]. right. split_and!.
      + intros h Hh Ht. apply at_target_spec in Ht. fold (atp h) in Ht.
        pose proof (position_None _ _ Ep h Hh). congruence.
      + intros h Hh. apply Hlater; [rewrite Hs; set_solver|by apply Hl2].
      + intros h. rewrite last_snoc. intros [= <-]. unfold before in Hy.
        destruct (v_blocks d !! y) as [b|]; [|done]. apply Z.leb_le in Hy. eauto. }
  destruct (match position _ _ with Some _ => _ | None => _ end) as [i|] eqn:E; cbn [fst snd].
  - set (d1 := with_selected_chain _ d). set (sfx := reverse _).
    destruct (unselect_mem now sfx d1) as [Hb Hs]. pose proof (unselect_gc now sfx d1) as Hg.
    set (d2 := foldl (unselect now) d1 sfx) in *. clearbody d2.
    set (d3 := match last _ with Some _ => _ | None => _ end).
    assert (v_selected_chain d3 = v_selected_chain d2 ∧ v_blocks d3 = v_blocks d2 ∧
      v_gc_schedule d3 = v_gc_schedule d2) as (-> & -> & ->).
    { unfold d3. destruct (last _) as [t|]; [|done]. by destruct (tip_of d2 t). }
    rewrite Hs, Hb. unfold sfx. rewrite reverse_involutive. split; [by apply Hsome|]. split; [done|apply Hg].
  - set (d1 := with_selected_chain [] d). set (all := reverse _).
    destruct (unselect_mem now all d1) as [Hb Hs]. pose proof (unselect_gc now all d1) as Hg.
    set (d2 := foldl (unselect now) d1 all) in *. clearbody d2.
    cbn [v_selected_chain v_blocks v_gc_schedule with_tip]. rewrite Hs, Hb. unfold all.
    rewrite reverse_involutive. split; [|split; [done|apply Hg]].
    destruct (position atp _) eqn:Ep; [done|]. split; [done|right]. split_and!; [| |done].
    + intros h Hh Ht. apply at_target_spec in Ht. fold (atp h) in Ht.
        pose proof (position_None _ _ Ep h Hh). congruence.
    + intros h Hh. apply Hlater; [done|]. by apply (proj1 (rposition_None _ _) E).
Qed.

Lemma rollback_chain_ok now s th d : chain_ok d → chain_ok (rollback_to_point now s th d).2.
Proof.
  intros [Ha Hp Hk]. unfold rollback_to_point.
  destruct (match position _ _ with Some _ => _ | None => _ end) as [i|]; cbn [snd].
  - set (d1 := with_selected_chain (take (S i) _) d). set (sfx := reverse _).
    destruct (unselect_mem now sfx d1) as [Hb Hs].
    set (d2 := foldl (unselect now) d1 sfx) in *. clearbody d2.
    assert (path (v_blocks d2) (v_selected_chain d2)) as Hp2.
    { rewrite Hb, Hs. apply (path_prefix _ _ (drop (S i) (v_selected_chain d))).
      change (path (v_blocks d) (take (S i) (v_selected_chain d) ++ drop (S i) (v_selected_chain d))).
      by rewrite take_drop. }
    assert (acyclic rank (v_blocks d2)) as Ha2 by (by rewrite Hb).
    destruct (last (v_selected_chain d2)) as [t|] eqn:Et.
    + destruct (path_stored _ _ t Hp2) as [b Hbt]; [apply last_Some in Et as [l ->]; set_solver|].
      destruct (tip_of d2 t) as [x|] eqn:Ex; [|unfold tip_of in Ex; by rewrite Hbt in Ex].
      split; [done|done|]. cbn [v_tip with_tip v_selected_chain]. rewrite Et. simpl. by rewrite <- Ex.
    + split; [done|done|]. cbn [v_tip with_tip v_selected_chain]. by rewrite Et.
  - set (d1 := with_selected_chain [] d). set (all := reverse _).
    destruct (unselect_mem now all d1) as [Hb Hs]. set (d2 := foldl (unselect now) d1 all) in *.
    clearbody d2. assert (acyclic rank (v_blocks d2)) by (by rewrite Hb).
    split; [done|cbn [v_selected_chain with_tip]; by rewrite Hs|].
    cbn [v_tip with_tip v_selected_chain]. by rewrite Hs.
Qed.

Lemma truncate_chain_ok k d : chain_ok d → chain_ok (truncate_selection_to_depth k d).2.
Proof.
  intros [Ha Hp Hk]. unfold truncate_selection_to_depth. case_match; [done|]. cbn [snd].
  split; [done| |done]. cbn [v_selected_chain with_tip with_block_no_index with_selected_chain v_blocks].
  eapply path_prefix. by rewrite take_drop.
Qed.

Lemma switch_chain_ok now tip a k g d : chain_ok d → chain_ok (switch_chain now tip a k g d).2.
Proof.
  intros [Ha Hp Hk]. unfold switch_chain. case_bool_decide as Hw; [done|].
  destruct (v_blocks d !! tip) as [b|] eqn:Ht; [|by rewrite walk_chain_back_missing in Hw].
  destruct (walk_chain_back_spec rank d tip Ha) as (l & Hl & E); [by eexists|]. rewrite E.
  set (idx := rposition _ _). destruct (switch_diff _ _ _ _ _) as [[[[x xs] rb] ap]|] eqn:Ed; [|done].
  case_match; [done|]. cbn [snd].
  destruct (switch_diff_spec rank d tip l idx a g x xs rb ap Ha Hp Hl eq_refl Ed) as (_ & Hnew & _).
  by apply (chain_ok_recompute (reindex _)).
Qed.

Lemma rebuild_chain_ok d :
  acyclic rank (v_blocks d) → chain_ok (rebuild_selected_chain d).
Proof.
  intros Ha. unfold rebuild_selected_chain. apply chain_ok_recompute; [done|].
  cbn [v_blocks v_selected_chain reindex with_block_no_index with_selected_chain].
  generalize (get_leaf_tips d). intros tips. unfold select_best.
  assert (path (v_blocks d) (([], 0, None) : list Hash32 * Z * option Hash32).1.1) as H0 by done.
  revert H0. generalize (([], 0, None) : list Hash32 * Z * option Hash32).
  induction tips as [|t tips IH]; intros [[ch n] o] H0; [done|]. cbn [foldl]. apply IH.
  unfold better_tip. destruct t as [[h s] m]. repeat case_match; simplify_eq; try done;
    apply walk_chain_back_path.
Qed.

(** *** Removing blocks *)

Lemma gc_one_chain_ok d h : chain_ok d → chain_ok (gc_one d h).
Proof.
  intros Hk. unfold gc_one. cbn [v_selected_chain with_gc_schedule v_blocks].
  case_bool_decide as Hin; [by apply (chain_ok_same d)|].
  destruct (v_blocks d !! h) as [b|] eqn:Hb; [|by apply (chain_ok_same d)].
  apply (chain_ok_remove d); [| |done..].
  - intros x bx. cbn. rewrite lookup_delete_Some. tauto.
  - intros x Hx. cbn. rewrite lookup_delete_ne; [done|]. by intros ->.
Qed.

Lemma gc_chain_ok now d : chain_ok d → chain_ok (gc_orphaned_blocks now d).2.
Proof.
  intros Hk. unfold gc_orphaned_blocks. set (hs := fmap _ _). cbn [snd].
  assert (chain_ok (foldl gc_one d hs)) as H.
  { clearbody hs. revert d Hk. induction hs as [|h hs IH]; intros d Hk; [done|].
    cbn [foldl]. by apply IH, gc_one_chain_ok. }
  case_match; [|done]. destruct (rewrite_wal_mem (foldl gc_one d hs)) as (? & ? & ?).
  by eapply chain_ok_same.
Qed.

Lemma filter_id {A} (P : A → Prop) `{!∀ x, Decision (P x)} (l : list A) :
  (∀ x, x ∈ l → P x) → filter P l = l.
Proof.
  induction l as [|x l IH]; intros Hl; [done|].
  rewrite filter_cons_True by (apply Hl; by left). f_equal. apply IH. intros. apply Hl. by right.
Qed.

Lemma filter_on {A} (P Q : A → Prop) `{!∀ x, Decision (P x), !∀ x, Decision (Q x)} (l : list A) :
  (∀ x, x ∈ l → P x ↔ Q x) → filter P l = filter Q l.
Proof.
  induction l as [|x l IH]; intros Hl; [done|]. rewrite !filter_cons.
  rewrite IH by (intros; apply Hl; by right). apply decide_ext, Hl. by left.
Qed.

Lemma remove_block_chain_ok h d :
  h ∉ v_selected_chain d → chain_ok d → chain_ok (remove_block h d).
Proof.
  intros Hin Hk. unfold remove_block. destruct (v_blocks d !! h) as [b|] eqn:Hb; [|done].
  apply (chain_ok_remove d); [| | |done..].
  - intros x bx. cbn. rewrite lookup_delete_Some. tauto.
  - intros x Hx. cbn. rewrite lookup_delete_ne; [done|]. by intros ->.
  - cbn. apply filter_id. by intros x Hx ->.
Qed.

(** Flushing the older part of the selected chain. *)
Lemma flush_chain_ok hs front rest d :
  v_selected_chain d = front ++ rest → rest ≠ [] → (∀ h, h ∈ front → h ∈ hs) →
  (∀ h, h ∈ rest → h ∉ hs) → chain_ok d → chain_ok (remove_flushed_blocks hs d).
Proof.
  intros Hs Hne Hf Hr [Ha Hp Hk]. unfold remove_flushed_blocks.
  set (d1 := remove_blocks_in_memory hs d).
  assert (∀ x, v_blocks d1 !! x = if decide (x ∈ hs) then None else v_blocks d !! x) as Hb
    by apply remove_memory_lookup.
  assert (v_selected_chain d1 = rest) as Hs1.
  { unfold d1, remove_blocks_in_memory. cbn [v_selected_chain with_selected_chain].
    rewrite (proj1 (remove_in_memory_chain _ _)), Hs, filter_app.
    rewrite (filter_id _ rest) by done. enough (filter (λ h, h ∉ hs) front = []) as -> by done.
    apply elem_of_nil_inv. intros x. rewrite list_elem_of_filter. naive_solver. }
  assert (v_tip d1 = v_tip d) as Ht1.
  { unfold d1, remove_blocks_in_memory. apply (proj2 (remove_in_memory_chain hs d)). }
  enough (chain_ok d1) as H1.
  { destruct (maybe_compact_mem d1) as (? & ? & ?). by eapply chain_ok_same. }
  split.
  - eapply acyclic_sub; [|done]. intros x b. rewrite Hb. by case_decide.
  - rewrite Hs1. rewrite Hs in Hp. apply path_suffix in Hp. eapply path_ext; [done|].
    intros x b Hx Hbx. exists b. by rewrite Hb, decide_False by (by apply Hr).
  - rewrite Hs1, Ht1, Hk, Hs. destruct (last rest) as [t|] eqn:Et; [|by destruct rest using rev_ind; rewrite ?last_snoc in Et].
    assert (t ∈ rest) as Hin by (apply last_Some in Et as [l ->]; set_solver).
    rewrite last_app, Et. simpl. unfold tip_of. by rewrite Hb, decide_False by (by apply Hr).
Qed.

(** Pruning keeps a tip that descends from the anchor. *)
Lemma prune_chain_ok a t d :
  vol_links d → last (v_selected_chain d) = Some t → tc (child_of (v_blocks d)) a t →
  chain_ok d → chain_ok (prune_unreachable_from a d).2.
Proof.
  intros Hl Et Hreach [Ha Hp Hk].
  pose proof (prune_lookup a d) as Hb. set (R := reachable_from d a) in *.
  assert (∀ h, h ∈ R ↔ tc (child_of (v_blocks d)) a h) as HR by (intros; by apply reachable_from_spec).
  assert (v_selected_chain (prune_unreachable_from a d).2 = filter (λ h, h ∈ R) (v_selected_chain d) ∧
    v_tip (prune_unreachable_from a d).2 = v_tip d) as [Hs Ht].
  { unfold prune_unreachable_from. fold R. set (U := filter _ _). cbn [snd].
    assert (∀ h, h ∈ v_selected_chain d → h ∈ R ↔ h ∉ U) as HU.
    { intros h Hh. unfold U. rewrite list_elem_of_filter, elem_of_keys.
      pose proof (path_stored _ _ h Hp Hh). destruct (decide (h ∈ R)); tauto. }
    destruct (Nat.ltb_spec 0 (length U)) as [Hn|Hn].
    - unfold remove_blocks_by_hashes. destruct (rewrite_wal_mem (remove_blocks_in_memory U d)) as (_ & -> & ->).
      unfold remove_blocks_in_memory. cbn [v_selected_chain v_tip with_selected_chain].
      destruct (remove_in_memory_chain U d) as [-> ->]. split; [|done].
      apply filter_on. intros h Hh. symmetry. by apply HU.
    - split; [|done]. assert (U = []) as E by (apply length_zero_iff_nil; lia).
      rewrite filter_id; [done|]. intros h Hh. apply HU; [done|]. rewrite E. apply not_elem_of_nil. }
  split.
  - eapply acyclic_sub; [|done]. intros x b. rewrite Hb by done. by case_decide.
  - rewrite Hs. eapply path_ext.
    + apply path_filter_up; [done|]. intros x y. rewrite !HR. intros ? ?. by eapply tc_r.
    + intros x b [Hx _]%list_elem_of_filter Hbx. exists b. by rewrite Hb, decide_True.
  - rewrite Hs, Ht, Hk, Et. rewrite (last_filter _ _ t) by (done || by apply HR). simpl.
    unfold tip_of. by rewrite Hb, decide_True by (done || by apply HR).
Qed.

Definition fewer (d' d : VolatileDB) : Prop :=
  ∀ x b, v_blocks d' !! x = Some b → v_blocks d !! x = Some b.

Lemma fewer_fold (f : VolatileDB → Hash32 → VolatileDB) hs d :
  (∀ d h, fewer (f d h) d) → fewer (foldl f d hs) d.
Proof.
  intros Hf. revert d. induction hs as [|h hs IH]; intros d; [by intros ??|].
  cbn [foldl]. intros x b Hx%IH. by apply Hf in Hx.
Qed.

Lemma drop_hash_fewer d h : fewer (drop_hash d h) d.
Proof.
  intros x b. unfold drop_hash. destruct (v_blocks d !! h); cbn; [|done].
  rewrite lookup_delete_Some. tauto.
Qed.

Lemma remove_block_fewer d h : fewer (remove_block h d) d.
Proof.
  intros x b. unfold remove_block. destruct (v_blocks d !! h); cbn; [|done].
  rewrite lookup_delete_Some. tauto.
Qed.

Lemma drop_slots_fewer ss r d : fewer (foldl drop_slot (r, d) ss).2 d.
Proof.
  revert r d. induction ss as [|s ss IH]; intros r d; [by intros ??|]. cbn [foldl].
  unfold drop_slot at 2. destruct (v_slot_index d !! s) as [hs|]; [|apply IH].
  intros x b Hx%IH. by apply (fewer_fold _ _ _ drop_hash_fewer) in Hx.
Qed.

Lemma rollback_and_prune_chain_ok s th d : chain_ok d → chain_ok (rollback_and_prune s th d).2.
Proof.
  intros [Ha _ _]. unfold rollback_and_prune.
  set (ss := reverse _). set (hs := match th with Some _ => _ | None => _ end).
  pose proof (drop_slots_fewer ss [] d) as Hf. destruct (foldl drop_slot _ _) as [r d1]. cbn [snd] in *.
  set (d2 := foldl _ d1 hs).
  assert (chain_ok (rebuild_selected_chain d2)) as Hk.
  { apply rebuild_chain_ok. eapply acyclic_sub; [|done]. intros x b Hx. apply Hf.
    by apply (fewer_fold _ hs d1 remove_block_fewer) in Hx. }
  destruct (rewrite_wal_mem (rebuild_selected_chain d2)) as (? & ? & ?). by eapply chain_ok_same.
Qed.

(** A log whose entries name their parents. *)
Definition entries_linked (es : list WalEntry) : Prop :=
  Forall (λ e, rank (we_prev_hash e) < rank (we_hash e)) es.

Lemma replay_insert_blocks d e :
  v_blocks (replay_insert d e)
  = <[we_hash e := mkVBlock (we_slot e) (we_block_no e) (we_prev_hash e) (we_cbor e)]> (v_blocks d).
Proof.
  unfold replay_insert. set (d1 := if we_prev_hash_known e then _ else _).
  assert (v_blocks d1 = v_blocks d) as <- by (unfold d1; by case_match).
  by destruct (insert_mem (we_hash e) (we_slot e) (we_block_no e) (we_prev_hash e) (we_cbor e) true d1)
    as [-> _].
Qed.

Lemma replay_acyclic es d :
  entries_linked es → acyclic rank (v_blocks d) → acyclic rank (v_blocks (foldl replay_insert d es)).
Proof.
  intros Hes. revert d. induction Hes as [|e es He Hes IH]; intros d Ha; [done|]. cbn [foldl].
  apply IH. rewrite replay_insert_blocks. intros h b.
  destruct (decide (h = we_hash e)) as [->|Hne].
  - rewrite lookup_insert_eq. by intros [= <-].
  - rewrite lookup_insert_ne by done. apply Ha.
Qed.

Lemma replay_empty es d : v_blocks (foldl replay_insert d es) = ∅ → es = [].
Proof.
  destruct es as [|e es] using rev_ind; [done|]. rewrite foldl_app. cbn [foldl].
  rewrite replay_insert_blocks. intros E. by apply insert_non_empty in E.
Qed.

Lemma open_chain_ok file :
  entries_linked (vol_replay_wal file) → chain_ok (vol_open file).
Proof.
  intros Hes. unfold vol_open.
  pose proof (replay_acyclic _ vol_new Hes (ck_links _ chain_ok_new)) as Ha.
  case_bool_decide as He.
  - apply replay_empty in He. rewrite He. apply (chain_ok_same vol_new); [done..|]. apply chain_ok_new.
  - apply (chain_ok_same (rebuild_selected_chain (foldl replay_insert vol_new (vol_replay_wal file))));
      [done..|]. by apply rebuild_chain_ok.
Qed.

(** The calls that keep the selection in order, with what their callers
    guarantee: a block names its parent, a flush takes the older part of the
    selected chain, only blocks off the chain are removed one by one, and the
    open-time prune runs on a tip that the anchor reaches. *)
Inductive sel_step : VolatileDB → VolatileDB → Prop :=
| ss_add d hash slot no prev cbor ext :
    rank prev < rank hash → same_header d hash slot no prev →
    sel_step d (add_block_gated hash slot no prev cbor ext d).2
| ss_add_header d hash slot no prev cbor hdr ext :
    rank prev < rank hash → same_header d hash slot no prev →
    sel_step d (add_block_with_header_gated hash slot no prev cbor hdr ext d).2
| ss_rollback d now s th : sel_step d (rollback_to_point now s th d).2
| ss_rollback_prune d s th : sel_step d (rollback_and_prune s th d).2
| ss_truncate d k : sel_step d (truncate_selection_to_depth k d).2
| ss_switch d now tip a k g : sel_step d (switch_chain now tip a k g d).2
| ss_gc d now : sel_step d (gc_orphaned_blocks now d).2
| ss_remove d h : h ∉ v_selected_chain d → sel_step d (remove_block h d)
| ss_flush d hs front rest :
    v_selected_chain d = front ++ rest → rest ≠ [] → (∀ h, h ∈ front → h ∈ hs) →
    (∀ h, h ∈ rest → h ∉ hs) → sel_step d (remove_flushed_blocks hs d)
| ss_prune d a t :
    vol_links d → last (v_selected_chain d) = Some t → tc (child_of (v_blocks d)) a t →
    sel_step d (prune_unreachable_from a d).2
| ss_clear d : sel_step d (vol_clear d).

Lemma sel_step_ok d d' : sel_step d d' → chain_ok d → chain_ok d'.
Proof.
  destruct 1; intros Hk; eauto using add_chain_ok, rollback_chain_ok, rollback_and_prune_chain_ok,
    truncate_chain_ok, switch_chain_ok, gc_chain_ok, remove_block_chain_ok, flush_chain_ok,
    prune_chain_ok.
  - apply add_chain_ok; [by apply (chain_ok_same d)|done..].
  - apply (chain_ok_same vol_new); [done..|]. apply chain_ok_new.
Qed.

End chain_ok.
