(* ===== verification/VolatileTheorems.v ===== *)
(** * Correctness of the volatile store

    What the operations on the selected chain promise: switching to a fork,
    rebuilding after a restart, pruning what the immutable tip does not reach,
    and the invariant that ties the tip to the selected chain. *)

From S2P Require Import Prelude Order Bytes EraHistory Block ChainFragment VolatileWal VolatileDb VolatileInv VolatileChain VolatileSelect.
Local Open Scope Z_scope.

(** ** Switching *)

(** C6: For an acyclic block store whose selected chain is a path of stored
    blocks, [switch_chain] either returns no plan and leaves the store as it
    was, which it does only when the new tip is not stored or every block the
    selected chain shares with the new chain would cost more than [k]
    rollbacks; or it returns a plan such that the old selected chain is a kept
    prefix followed by the reversed rollback list, the new one is the same
    prefix followed by the apply list, the new chain is a path of stored blocks
    that ends in the new tip, [tip] describes that block, no more than [k]
    blocks are rolled back and none of them is on the new chain, the
    intersection is the last kept block or the genesis or immutable anchor the
    new chain grows from, and the rolled-back blocks are scheduled for
    collection while the applied ones are not. *)
Theorem switch_chain_correct rank now tip a k g d :
  acyclic rank (v_blocks d) → path (v_blocks d) (v_selected_chain d) →
  match switch_chain now tip a k g d with
  | (None, d') =>
      d' = d ∧
      ∀ kept h rest l, v_selected_chain d = kept ++ h :: rest → ancestors (v_blocks d) tip l →
        h ∈ l → k < Z.of_nat (length rest)
  | (Some plan, d') => ∃ kept,
      v_selected_chain d = kept ++ reverse (sp_rollback plan) ∧
      v_selected_chain d' = kept ++ sp_apply plan ∧
      v_blocks d' = v_blocks d ∧
      path (v_blocks d) (v_selected_chain d') ∧
      last (v_selected_chain d') = Some tip ∧
      (∃ b, v_blocks d !! tip = Some b ∧ v_tip d' = Some (vb_slot b, tip, vb_block_no b)) ∧
      Z.of_nat (length (sp_rollback plan)) ≤ k ∧
      (∀ h, h ∈ sp_rollback plan → h ∉ v_selected_chain d') ∧
      match last kept with
      | Some h => h = sp_intersection plan ∧ ∃ b, v_blocks d !! h = Some b ∧
          vb_slot b = sp_intersection_slot plan
      | None => ∃ r b, head (sp_apply plan) = Some r ∧ v_blocks d !! r = Some b ∧
          vb_prev_hash b = sp_intersection plan ∧
          ((sp_intersection plan = hash_zero ∧ sp_intersection_slot plan = 0 ∧ g = true ∧
            r ∉ v_unknown_prev d) ∨ a = Some (sp_intersection plan, sp_intersection_slot plan))
      end ∧
      (∀ h, h ∈ sp_rollback plan → v_gc_schedule d' !! h = Some now) ∧
      (∀ h, h ∈ sp_apply plan → v_gc_schedule d' !! h = None)
  end.
Proof.
  intros Ha Hp. unfold switch_chain. destruct (v_blocks d !! tip) as [bt|] eqn:Ht.
  2:{ rewrite walk_chain_back_missing by done. rewrite bool_decide_eq_true_2 by done.
      split; [done|]. intros kept h rest l _ Hl _. destruct Hl; congruence. }
  destruct (walk_chain_back_spec rank d tip Ha) as (l & Hl & Hw); [by eexists|]. rewrite Hw.
  rewrite bool_decide_eq_false_2.
  2:{ intros E. pose proof (ancestors_last _ _ _ Hl) as Hlast. by rewrite E in Hlast. }
  set (idx := rposition _ _). destruct (switch_diff _ _ _ _ _) as [[[[x xs] rb] ap]|] eqn:E.
  - destruct (switch_diff_spec rank d tip l idx a g x xs rb ap Ha Hp Hl eq_refl E)
      as (Hold & Hnew & Hlast & Hdis & Hx).
    destruct (Z.ltb_spec k (Z.of_nat (length rb))) as [Hk|Hk].
    + split; [done|]. intros kept h rest l' Hs Hl' Hh.
      rewrite (ancestors_inj _ _ _ _ Hl' Hl) in Hh.
      destruct (switch_diff_refused rank d tip l a g h kept rest Ha Hp Hl Hs Hh)
        as (i & x' & xs' & ap' & rb' & Hi & E' & Hle). fold idx in Hi.
      rewrite Hi, E' in E. simplify_eq. lia.
    + eexists. split; [exact Hold|]. split; [done|]. split; [done|]. split; [exact Hnew|].
      split; [exact Hlast|]. split.
      { exists bt. split; [done|]. unfold recompute_tip, reindex, tip_of.
        cbn [v_tip with_tip v_selected_chain with_block_no_index with_selected_chain v_blocks with_gc_schedule].
        rewrite Hlast. cbn [mbind option_bind]. by rewrite Ht. }
      split; [exact Hk|]. split; [exact Hdis|]. split.
      { revert Hx. generalize (last (match idx with Some i => take (S i) (v_selected_chain d) | None => [] end)).
        intros [hk|] Hx; [by destruct Hx as [-> Hx]|exact Hx]. }
      cbn [sp_rollback sp_apply]. unfold recompute_tip, reindex.
      cbn [v_gc_schedule with_tip with_block_no_index with_selected_chain with_gc_schedule].
      split; intros h Hh; rewrite gc_apply.
      * rewrite decide_False by (intros ?; apply (Hdis h Hh); set_solver).
        by rewrite gc_schedule, decide_True.
      * by rewrite decide_True.
  - split; [done|]. intros kept h rest l' Hs Hl' Hh.
    rewrite (ancestors_inj _ _ _ _ Hl' Hl) in Hh.
    destruct (switch_diff_refused rank d tip l a g h kept rest Ha Hp Hl Hs Hh)
      as (i & x' & xs' & ap' & rb' & Hi & E' & Hle). fold idx in Hi. by rewrite Hi, E' in E.
Qed.

(** ** Pruning at start-up *)

Section pruning.
Context {CR : Crates}.

(** On a store whose indexes are exact, [prune_unreachable_from] keeps
    exactly the blocks that descend from the anchor through stored parents:
    with the breadth-first search bounded by the number of blocks, a block
    survives unchanged if and only if it was stored and a chain of stored
    blocks leads from the anchor to it; the returned count is the number of
    blocks that went; the indexes stay exact; and the selected chain loses
    exactly the removed blocks. *)
Theorem prune_keeps_descendants a d :
  vol_index d →
  let n := (prune_unreachable_from a d).1 in
  let d' := (prune_unreachable_from a d).2 in
  (∀ h b, v_blocks d' !! h = Some b ↔ v_blocks d !! h = Some b ∧ tc (child_of (v_blocks d)) a h) ∧
  (n + size (v_blocks d') = size (v_blocks d))%nat ∧
  vol_index d' ∧
  (∀ h, h ∈ v_selected_chain d' ↔ h ∈ v_selected_chain d ∧
    (v_blocks d !! h = None ∨ is_Some (v_blocks d' !! h))).
Proof.
  intros Hi. pose proof (proj1 Hi : vol_links d) as Hl. cbv zeta.
  set (d' := (prune_unreachable_from a d).2).
  assert (∀ h, v_blocks d' !! h = if decide (h ∈ reachable_from d a) then v_blocks d !! h else None)
    as Hd' by (intros h; by apply prune_lookup).
  split_and!.
  - intros h b. rewrite Hd', <- reachable_from_spec by done. case_decide; naive_solver.
  - apply prune_count. done.
  - by apply prune_index.
  - intros h. by apply prune_chain.
Qed.

(** The deferred rewrite of the log is safe: when the flushed blocks are
    the anchor or ancestors of it, pruning the store that still holds them
    (what a replay of the stale log gives) and pruning the store without them
    leave exactly the same blocks, as the documentation of
    [remove_flushed_blocks] argues. *)
Theorem deferred_rewrite_safe rank a hs d :
  vol_index d → acyclic rank (v_blocks d) →
  (∀ h, h ∈ hs → rtc (child_of (v_blocks d)) h a) →
  v_blocks (prune_unreachable_from a d).2
  = v_blocks (prune_unreachable_from a (remove_flushed_blocks hs d)).2.
Proof.
  intros Hi Ha Hhs. set (df := remove_flushed_blocks hs d).
  assert (∀ x, v_blocks df !! x = if decide (x ∈ hs) then None else v_blocks d !! x) as Hf.
  { intros x. unfold df, remove_flushed_blocks.
    rewrite (proj1 (maybe_compact_mem _)). apply remove_memory_lookup. }
  assert (∀ x, rank a < rank x → v_blocks df !! x = v_blocks d !! x) as Hhi.
  { intros x Hx. rewrite Hf, decide_False; [done|]. intros Hin%Hhs.
    pose proof (ancestor_rank _ _ _ _ Ha Hin). lia. }
  assert (vol_links df) as Hlf.
  { apply (vol_step_index d); [constructor|done]. }
  apply map_eq. intros h. rewrite !prune_lookup by (done || apply Hi).
  assert (h ∈ reachable_from d a ↔ h ∈ reachable_from df a) as Hr.
  { rewrite !reachable_from_spec by (done || apply Hi). apply (descendants_without rank); [done..|].
    intros x b. rewrite Hf. by case_decide. }
  destruct (decide (h ∈ reachable_from d a)) as [Hin|Hin].
  - rewrite decide_True by (by apply Hr). symmetry. apply Hhi.
    apply (descendants_rank rank (v_blocks d)); [done|]. apply reachable_from_spec; [apply Hi|done].
  - by rewrite decide_False by (by rewrite <- Hr).
Qed.

End pruning.

(** ** Reachable stores *)

Section reachable.
Context {CR : Crates}.

(** From an empty store, or from one opened on any log in which a hash
    always stands for the same slot and parent, every sequence of calls of the
    mutating methods (in any order, a re-added hash keeping its slot and
    parent) leads to a store in which the successor map is exactly the parent
    relation of the stored blocks, [leaves] is exactly the set of stored blocks
    that no stored block names as parent, the slot index lists exactly the
    blocks of each slot, and [get_all_fork_tips] returns exactly the leaves
    other than the selected tip. *)
Theorem volatile_index_reachable d0 d :
  (d0 = vol_new ∨ ∃ file, entries_agree (vol_replay_wal file) ∧ d0 = vol_open file) →
  rtc vol_step d0 d →
  (∀ p c, c ∈ default ∅ (get_successors d p) ↔ child_of (v_blocks d) p c) ∧
  (∀ h, h ∈ v_leaves d ↔ has_block d h = true ∧ ∀ c, ¬ child_of (v_blocks d) h c) ∧
  (∀ s h, h ∈ default [] (v_slot_index d !! s) ↔ ∃ b, get_block d h = Some b ∧ vb_slot b = s) ∧
  (∀ h n s, (h, n, s) ∈ get_all_fork_tips d ↔
     last (v_selected_chain d) ≠ Some h ∧ (∀ c, ¬ child_of (v_blocks d) h c) ∧
     ∃ b, get_block d h = Some b ∧ vb_block_no b = n ∧ vb_slot b = s).
Proof.
  intros H0 Hsteps.
  assert (vol_index d0) as Hi0.
  { destruct H0 as [->|(file & He & ->)]; [apply vol_new_index|by apply open_index]. }
  assert (vol_index d) as [Hl Hs].
  { clear H0. induction Hsteps as [|x y z Hxy _ IH]; [done|]. apply IH. by eapply vol_step_index. }
  assert (∀ h, h ∈ v_leaves d ↔ is_Some (v_blocks d !! h) ∧ ∀ c, ¬ child_of (v_blocks d) h c) as Hleaf
    by apply Hl.
  split_and!.
  - intros p c. apply (lk_succ _ _ _ Hl).
  - intros h. unfold has_block. by rewrite bool_decide_eq_true.
  - intros s h. apply Hs.
  - intros h n s. by apply fork_tips_spec.
Qed.

(** C29: Every store reached from an empty one, or from one opened on a log whose
    entries point at their parents, by any sequence of additions, rollbacks,
    truncations, switches, collections, flushes of the older part of the
    chain, prunes that keep the tip and clears, has a selected chain that is a
    path of stored blocks without repetition, each the child of the one before
    it, and [tip] describes exactly its last block, or is empty with it. *)
Theorem selected_chain_reachable rank d0 d :
  (d0 = vol_new ∨ ∃ file, entries_linked rank (vol_replay_wal file) ∧ d0 = vol_open file) →
  rtc (sel_step rank) d0 d →
  path (v_blocks d) (v_selected_chain d) ∧ NoDup (v_selected_chain d) ∧
  match last (v_selected_chain d) with
  | None => v_tip d = None
  | Some h => ∃ b, get_block d h = Some b ∧ v_tip d = Some (vb_slot b, h, vb_block_no b)
  end.
Proof.
  intros H0 Hsteps.
  assert (chain_ok rank d0) as Hk0.
  { destruct H0 as [->|(file & He & ->)]; [apply chain_ok_new|by apply open_chain_ok]. }
  assert (chain_ok rank d) as [Ha Hp Hk].
  { clear H0. induction Hsteps as [|x y z Hxy _ IH]; [done|]. apply IH. by eapply sel_step_ok. }
  split_and!; [done|by eapply path_NoDup|]. destruct (last _) as [h|] eqn:E; [|done].
  destruct (path_stored _ _ h Hp) as [b Hb]; [apply last_Some in E as [l ->]; set_solver|].
  exists b. split; [done|]. rewrite Hk. simpl. unfold tip_of. by rewrite Hb.
Qed.

(** C30: On a non-empty acyclic store with exact indexes,
    [rebuild_selected_chain] selects the whole stored chain of a leaf that is
    maximal among all leaves in block number, then chain length, then hash;
    the tip is that leaf; and the choice does not depend on the order in which
    the hash map yields the leaves. *)
Theorem rebuild_selects_best rank d :
  vol_index d → acyclic rank (v_blocks d) → v_blocks d ≠ ∅ →
  (∀ h b, v_blocks d !! h = Some b → 0 ≤ vb_block_no b) →
  (∃ h b l, v_blocks d !! h = Some b ∧ (∀ c, ¬ child_of (v_blocks d) h c) ∧
    ancestors (v_blocks d) h l ∧
    v_selected_chain (rebuild_selected_chain d) = reverse l ∧
    v_tip (rebuild_selected_chain d) = Some (vb_slot b, h, vb_block_no b) ∧
    ∀ h' b', v_blocks d !! h' = Some b' → (∀ c, ¬ child_of (v_blocks d) h' c) →
      tip_le d (h', vb_slot b', vb_block_no b') (h, vb_slot b, vb_block_no b)) ∧
  (∀ tips, tips ≡ₚ get_leaf_tips d → select_best d tips = select_best d (get_leaf_tips d)).
Proof.
  intros Hi Ha Hne Hno. pose proof (proj1 Hi : vol_links d) as Hl.
  assert (∀ t, t ∈ get_leaf_tips d → 0 ≤ t.2 ∧ (0 < walk_length d t)%nat) as Hok.
  { intros [[h s] n] (b & Hb & _ & <- & _)%elem_of_leaf_tips. split; [by eapply Hno|].
    unfold walk_length. cbn [fst].
    destruct (walk_chain_back_spec rank d h Ha) as (l & Hanc & ->); [by eexists|].
    destruct (ancestors_head _ _ _ Hanc) as [l' ->]. rewrite length_reverse. simpl. lia. }
  split.
  - destruct (select_best_spec d (get_leaf_tips d) Hok) as ([[h s] n] & Ht & Hsel & Hmax);
      [by eapply leaf_exists|].
    apply elem_of_leaf_tips in Ht as (b & Hb & <- & <- & Hc).
    destruct (walk_chain_back_spec rank d h Ha) as (l & Hanc & Hw); [by eexists|].
    assert (v_selected_chain (rebuild_selected_chain d) = reverse l) as Hs.
    { unfold rebuild_selected_chain. rewrite Hsel. exact Hw. }
    exists h, b, l. split_and!; [done|by apply (links_childless _ _ _ _ Hl)|done|done| |].
    + transitivity (last (v_selected_chain (rebuild_selected_chain d)) ≫= tip_of d); [done|].
      rewrite Hs, (ancestors_last _ _ _ Hanc). simpl. unfold tip_of. by rewrite Hb.
    + intros h' b' Hb' Hc'. apply Hmax, elem_of_leaf_tips. exists b'.
      split_and!; [done..|]. by apply (links_childless _ _ _ _ Hl).
  - intros tips Hperm. apply select_best_perm; [|done]. intros t Ht. apply Hok. by rewrite <- Hperm.
Qed.

(** On a store in order, [rollback_to_point] splits the selected chain: the
    returned list, reversed, is exactly what was cut off its end. If the chain
    holds a block at the target slot (with the target hash, when one is given),
    the new end is such a block; otherwise nothing with a slot at or before the
    target is cut and the new end, if any, is not after it. No block is lost,
    [tip] describes the new end, and every block cut off is scheduled for
    collection at the time of the call. *)
Theorem rollback_to_point_correct rank now s th d :
  chain_ok rank d →
  let removed := (rollback_to_point now s th d).1 in
  let d' := (rollback_to_point now s th d).2 in
  cut_of d s th (v_selected_chain d) (v_selected_chain d') (reverse removed) ∧
  v_blocks d' = v_blocks d ∧
  v_tip d' = last (v_selected_chain d') ≫= tip_of d ∧
  ∀ h, h ∈ removed → v_gc_schedule d' !! h = Some now.
Proof.
  intros Hk. destruct (rollback_cut rank now s th d (ck_path _ _ Hk)) as (Hc & Hb & Hg).
  split_and!; [done..| |done]. rewrite (ck_tip _ _ (rollback_chain_ok rank now s th d Hk)).
  destruct (last _); [|done]. simpl. unfold tip_of. by rewrite Hb.
Qed.

End reachable.

(** ** Witnesses and examples *)

#[local] Existing Instance demo_crates.
#[local] Existing Instance demo_crates_ok.

(** Blocks 1 to 4 in a row, and a fork 7, 8 from block 2. *)
Definition demo_parent (n : Z) : Z := if n =? 7 then 2 else n - 1.

Definition demo_add (d : VolatileDB) (n : Z) : VolatileDB :=
  (add_block_gated (demo_hash n) (10 * n) (if n <? 7 then n else n - 4)
     (demo_hash (demo_parent n)) [n] true d).2.

Definition demo_store : VolatileDB := foldl demo_add vol_new [1; 2; 3; 4; 7; 8].

Definition demo_rank (h : Hash32) : Z := default 0 (head h).

Definition acyclicb (B : Blocks) : bool :=
  forallb (λ hb : Hash32 * VolatileBlock, demo_rank (vb_prev_hash hb.2) <? demo_rank hb.1) (map_to_list B).

Lemma acyclicb_ok B : acyclicb B = true → acyclic demo_rank B.
Proof.
  unfold acyclicb. rewrite forallb_forall. intros Hall h b Hb.
  apply elem_of_map_to_list in Hb. apply list_elem_of_In in Hb. specialize (Hall _ Hb).
  by apply Z.ltb_lt in Hall.
Qed.

Fixpoint pathb (B : Blocks) (l : list Hash32) : bool :=
  match l with
  | [] => true
  | x :: l' =>
      bool_decide (is_Some (B !! x)) && pathb B l' &&
      match l' with
      | [] => true
      | y :: _ => bool_decide (vb_prev_hash <$> B !! y = Some x)
      end
  end.

Lemma pathb_ok B l : pathb B l = true → path B l.
Proof.
  induction l as [|x l IH]; [done|]. simpl. rewrite !andb_true_iff. intros [[Hx Hp] Hc].
  apply bool_decide_eq_true in Hx. split_and!; [done|by apply IH|]. destruct l as [|y l]; [done|].
  apply bool_decide_eq_true, fmap_Some in Hc as (b & Hb & ->). by exists b.
Qed.

Lemma demo_store_chain : chain_ok demo_rank demo_store.
Proof. split; [by apply acyclicb_ok; vm_compute|by apply pathb_ok; vm_compute|by vm_compute]. Qed.

Lemma switch_chain_witness :
  let '(plan, d') := switch_chain 5 (demo_hash 8) None 2 false demo_store in
  plan = Some (mkPlan (demo_hash 2) 20 [demo_hash 4; demo_hash 3] [demo_hash 7; demo_hash 8]) ∧
  path (v_blocks demo_store) (v_selected_chain d').
Proof.
  pose proof (switch_chain_correct demo_rank 5 (demo_hash 8) None 2 false demo_store
    (ck_links _ _ demo_store_chain) (ck_path _ _ demo_store_chain)) as H.
  destruct (switch_chain _ _ _ _ _ _) as [plan d'] eqn:E.
  assert (plan = Some (mkPlan (demo_hash 2) 20 [demo_hash 4; demo_hash 3] [demo_hash 7; demo_hash 8])) as Hp.
  { transitivity (switch_chain 5 (demo_hash 8) None 2 false demo_store).1; [by rewrite E|by vm_compute]. }
  split; [done|]. rewrite Hp in H. by destruct H as (kept & _ & _ & _ & H & _).
Defined.

Lemma demo_steps ns d :
  forallb (λ n, (0 <? n) && bool_decide (demo_parent n < n)) ns = true →
  NoDup ns → (∀ n, n ∈ ns → v_blocks d !! demo_hash n = None) →
  rtc vol_step d (foldl demo_add d ns) ∧ rtc (sel_step demo_rank) d (foldl demo_add d ns).
Proof.
  revert d. induction ns as [|n ns IH]; intros d Hb Hnd Hn; [by split|].
  cbn [forallb] in Hb. apply andb_true_iff in Hb as [[Hn0 Hpar]%andb_true_iff Hb].
  apply bool_decide_eq_true in Hpar. apply NoDup_cons in Hnd as [Hnin Hnd].
  assert (v_blocks d !! demo_hash n = None) as Hnew by (apply Hn; by left).
  destruct (IH (demo_add d n) Hb Hnd) as [IH1 IH2].
  { intros m Hm. unfold demo_add, add_block_gated, add_block.
    destruct (insert_mem (demo_hash n) (10 * n) (if n <? 7 then n else n - 4) (demo_hash (demo_parent n)) [n] true
      (append_wal (demo_hash n) (10 * n) (if n <? 7 then n else n - 4) (demo_hash (demo_parent n)) [n]
         (maybe_compact_wal d))) as [-> _].
    assert (v_blocks (append_wal (demo_hash n) (10 * n) (if n <? 7 then n else n - 4)
      (demo_hash (demo_parent n)) [n] (maybe_compact_wal d)) = v_blocks d) as ->.
    { rewrite <- (proj1 (maybe_compact_mem d)). unfold append_wal. by case_match. }
    rewrite lookup_insert_ne; [apply Hn; by right|]. intros E. apply Hnin.
    by injection E as ->. }
  cbn [foldl]. split; (eapply rtc_l; [|done]); constructor; try (intros b; by rewrite Hnew).
  done.
Qed.

Lemma demo_store_steps : rtc vol_step vol_new demo_store ∧ rtc (sel_step demo_rank) vol_new demo_store.
Proof.
  apply (demo_steps [1; 2; 3; 4; 7; 8] vol_new); [done|evaluate|].
  intros n _. apply lookup_empty.
Qed.

Lemma demo_store_index : vol_index demo_store.
Proof.
  destruct demo_store_steps as [Hs _].
  assert (vol_index vol_new) as H0 by apply vol_new_index. revert H0.
  induction Hs as [|x y z Hxy _ IH]; [done|]. intros Hx. apply IH. by eapply vol_step_index.
Qed.

Lemma prune_witness :
  let d' := (prune_unreachable_from (demo_hash 2) demo_store).2 in
  vol_index d' ∧ size (v_blocks d') = 4%nat ∧ v_blocks d' !! demo_hash 2 = None ∧
  is_Some (v_blocks d' !! demo_hash 8).
Proof.
  destruct (prune_keeps_descendants (demo_hash 2) demo_store demo_store_index) as (_ & _ & Hi & _).
  cbv zeta. split; [exact Hi|]. split_and!; [by vm_compute..|evaluate].
Defined.

Lemma deferred_rewrite_witness :
  v_blocks (prune_unreachable_from (demo_hash 2) demo_store).2
  = v_blocks (prune_unreachable_from (demo_hash 2)
      (remove_flushed_blocks [demo_hash 1; demo_hash 2] demo_store)).2.
Proof.
  apply (deferred_rewrite_safe demo_rank); [apply demo_store_index|apply demo_store_chain|].
  intros h [->| ->%list_elem_of_singleton]%elem_of_cons; [|done].
  apply rtc_once. exists (mkVBlock 20 2 (demo_hash 1) [2]). split; by vm_compute.
Defined.

Lemma volatile_index_witness :
  (∀ c, c ∈ default ∅ (get_successors demo_store (demo_hash 2)) ↔
     child_of (v_blocks demo_store) (demo_hash 2) c) ∧
  get_all_fork_tips demo_store = [(demo_hash 8, 4, 80)].
Proof.
  destruct (volatile_index_reachable vol_new demo_store) as (Hs & _).
  - by left.
  - apply demo_store_steps.
  - split; [apply Hs|by vm_compute].
Defined.

Lemma selected_chain_witness :
  path (v_blocks demo_store) (v_selected_chain demo_store) ∧
  v_tip demo_store = Some (40, demo_hash 4, 4).
Proof.
  destruct (selected_chain_reachable demo_rank vol_new demo_store) as (Hp & _ & _).
  - by left.
  - apply demo_store_steps.
  - split; [exact Hp|by vm_compute].
Defined.

(** Both forks end at block number 4 with four blocks: the larger hash wins. *)
Lemma rebuild_witness :
  (∃ h, last (v_selected_chain (rebuild_selected_chain demo_store)) = Some h ∧ h = demo_hash 8) ∧
  select_best demo_store (reverse (get_leaf_tips demo_store)) = select_best demo_store (get_leaf_tips demo_store).
Proof.
  destruct (rebuild_selects_best demo_rank demo_store) as [_ Hperm].
  - apply demo_store_index.
  - apply demo_store_chain.
  - evaluate.
  - intros h b Hb. enough (Forall (λ hb : Hash32 * VolatileBlock, 0 ≤ vb_block_no hb.2)
      (map_to_list (v_blocks demo_store))) as Hall.
    { rewrite Forall_forall in Hall. apply (Hall (h, b)). by apply elem_of_map_to_list. }
    evaluate.
  - split; [|by apply Hperm, reverse_Permutation]. exists (demo_hash 8). by split; [vm_compute|].
Defined.

Lemma rollback_to_point_witness :
  let d' := (rollback_to_point 5 20 (Some (demo_hash 2)) demo_store).2 in
  v_blocks d' = v_blocks demo_store ∧ v_selected_chain d' = [demo_hash 1; demo_hash 2] ∧
  v_tip d' = Some (20, demo_hash 2, 2).
Proof.
  destruct (rollback_to_point_correct demo_rank 5 20 (Some (demo_hash 2)) demo_store demo_store_chain)
    as (_ & Hb & _).
  cbv zeta. split; [exact Hb|]. by split; vm_compute.
Defined.

(** After a crash left a gap, the open-time prune removes every block above
    it, the selected chain becomes empty, and [tip] still names a block that is
    no longer stored. *)
Theorem prune_leaves_stale_tip :
  let entry n prev := mkWalEntry (10 * n) n (demo_hash n) (demo_hash prev) true [n] in
  let d := vol_open (Some (append_all [entry 1 0; entry 4 3; entry 5 4] [])) in
  let d' := (prune_unreachable_from (demo_hash 1) d).2 in
  v_blocks d' = ∅ ∧ v_selected_chain d' = [] ∧ v_tip d' = Some (50, demo_hash 5, 5) ∧
  has_block d' (demo_hash 5) = false.
Proof. by vm_compute. Qed.
