(* ===== verification/Mempool.v ===== *)
(** * The mempool ([crates/dugite-mempool/src/lib.rs])

    Pending transactions with their indexes: insertion order with tombstones,
    fee-density index, claimed inputs, virtual UTxO, dependency graph and the
    totals that admission checks. Every method is a function on the record
    [Mempool]; admission runs under the [all_fifo] lock, so calls are
    sequential. The locks, the wake-up of waiting clients and log messages are
    left out; the events published on [tx_events] are recorded in [m_events].
    Totals are machine integers that wrap. The iteration order of a hash map
    is [map_to_list]. A transaction is what the mempool reads of it, and the
    outputs, which it only stores, are of any type. *)

From S2P Require Import Prelude Order EraHistory Block.
Local Open Scope Z_scope.

Definition ORDER_DEQUE_MAX : Z := 4 * 16384.
Definition VIRTUAL_CHAIN_MAX_DEPTH : nat := 5.

Record MempoolConfig := mkMpConfig {
  max_transactions : Z;
  max_bytes : Z;
  max_ex_mem : Z;
  max_ex_steps : Z;
  max_ref_scripts_bytes : Z;
}.

Definition config_default : MempoolConfig :=
  mkMpConfig 16384 (512 * 1024 * 1024) 28000000000 20000000000000 1048576.

Inductive MempoolRemoveReason := Mined | Evicted | Manual.

#[global] Instance reason_eq_dec : EqDecision MempoolRemoveReason.
Proof. solve_decision. Defined.

Inductive MempoolEvent :=
| Added (tx_hash : Hash32) (raw_cbor : option (list Z))
| Removed (tx_hash : Hash32) (reason : MempoolRemoveReason).

Inductive MempoolError :=
| Full (max : Z)
| TooLarge (size : Z)
| InsufficientPriority
| InputConflict (claimed_by : Hash32)
| VirtualChainTooDeep (depth max : nat).

Inductive MempoolAddResult := TxAdded | AlreadyExists.

(** ** Fee density *)

Record FeeDensityKey := mkKey { k_fee : Z; k_size : Z; k_hash : Hash32 }.

Definition fee_key (fee size : Z) (tx_hash : Hash32) : FeeDensityKey :=
  mkKey fee (if size =? 0 then 1 else size) tx_hash.

(** The products of two [u64]s fit in a [u128]. *)
Definition key_cmp (a b : FeeDensityKey) : comparison :=
  let lhs := k_fee a * k_size b in
  let rhs := k_fee b * k_size a in
  match rhs ?= lhs with
  | Eq => slice_cmp (k_hash a) (k_hash b)
  | c => c
  end.

(** A [BTreeSet]: a sorted list; a key that compares equal is kept, not
    replaced. *)
Fixpoint bts_insert (k : FeeDensityKey) (l : list FeeDensityKey) : list FeeDensityKey :=
  match l with
  | [] => [k]
  | x :: l' =>
      match key_cmp k x with
      | Lt => k :: l
      | Eq => l
      | Gt => x :: bts_insert k l'
      end
  end.

Fixpoint bts_remove (k : FeeDensityKey) (l : list FeeDensityKey) : list FeeDensityKey :=
  match l with
  | [] => []
  | x :: l' =>
      match key_cmp k x with
      | Lt => l
      | Eq => l'
      | Gt => x :: bts_remove k l'
      end
  end.

Section mempool.
Context {TransactionOutput : Type}.

(** ** Data *)

Record Transaction := mkTx {
  tx_inputs : list TransactionInput;
  tx_outputs : list TransactionOutput;
  tx_ttl : option Z;
  tx_redeemers : list (Z * Z);
  tx_raw_cbor : option (list Z);
}.

Record MempoolEntry := mkEntry {
  me_tx : Transaction;
  me_tx_hash : Hash32;
  me_size : Z;
  me_fee : Z;
  me_mem : Z;
  me_steps : Z;
  me_ref : Z;
}.

Record Mempool := mkMempool {
  m_txs : gmap Hash32 MempoolEntry;
  m_order : list Hash32;
  m_tombstones : gset Hash32;
  m_fee_index : list FeeDensityKey;
  m_claimed : gmap TransactionInput Hash32;
  m_virtual : gmap TransactionInput TransactionOutput;
  m_dependents : gmap Hash32 (list Hash32);
  m_total_bytes : Z;
  m_total_mem : Z;
  m_total_steps : Z;
  m_total_ref : Z;
  m_count : Z;
  m_config : MempoolConfig;
  m_events : list MempoolEvent;
}.

(** Sum of the execution units of the redeemers. *)
Definition tx_ex_units (tx : Transaction) : Z * Z :=
  foldl (λ acc r, (saturating_add64 acc.1 r.1, saturating_add64 acc.2 r.2)) (0, 0) (tx_redeemers tx).

Definition mempool_new (config : MempoolConfig) : Mempool :=
  mkMempool ∅ [] ∅ [] ∅ ∅ ∅ 0 0 0 0 0 config [].

(** ** Field updates *)

Definition with_txs x (m : Mempool) : Mempool :=
  mkMempool x (m_order m) (m_tombstones m) (m_fee_index m) (m_claimed m) (m_virtual m) (m_dependents m)
    (m_total_bytes m) (m_total_mem m) (m_total_steps m) (m_total_ref m) (m_count m) (m_config m) (m_events m).
Definition with_order x t (m : Mempool) : Mempool :=
  mkMempool (m_txs m) x t (m_fee_index m) (m_claimed m) (m_virtual m) (m_dependents m)
    (m_total_bytes m) (m_total_mem m) (m_total_steps m) (m_total_ref m) (m_count m) (m_config m) (m_events m).
Definition with_fee_index x (m : Mempool) : Mempool :=
  mkMempool (m_txs m) (m_order m) (m_tombstones m) x (m_claimed m) (m_virtual m) (m_dependents m)
    (m_total_bytes m) (m_total_mem m) (m_total_steps m) (m_total_ref m) (m_count m) (m_config m) (m_events m).
Definition with_claimed x (m : Mempool) : Mempool :=
  mkMempool (m_txs m) (m_order m) (m_tombstones m) (m_fee_index m) x (m_virtual m) (m_dependents m)
    (m_total_bytes m) (m_total_mem m) (m_total_steps m) (m_total_ref m) (m_count m) (m_config m) (m_events m).
Definition with_virtual x (m : Mempool) : Mempool :=
  mkMempool (m_txs m) (m_order m) (m_tombstones m) (m_fee_index m) (m_claimed m) x (m_dependents m)
    (m_total_bytes m) (m_total_mem m) (m_total_steps m) (m_total_ref m) (m_count m) (m_config m) (m_events m).
Definition with_dependents x (m : Mempool) : Mempool :=
  mkMempool (m_txs m) (m_order m) (m_tombstones m) (m_fee_index m) (m_claimed m) (m_virtual m) x
    (m_total_bytes m) (m_total_mem m) (m_total_steps m) (m_total_ref m) (m_count m) (m_config m) (m_events m).
Definition with_totals b me st rf (m : Mempool) : Mempool :=
  mkMempool (m_txs m) (m_order m) (m_tombstones m) (m_fee_index m) (m_claimed m) (m_virtual m) (m_dependents m)
    b me st rf (m_count m) (m_config m) (m_events m).
Definition with_count x (m : Mempool) : Mempool :=
  mkMempool (m_txs m) (m_order m) (m_tombstones m) (m_fee_index m) (m_claimed m) (m_virtual m) (m_dependents m)
    (m_total_bytes m) (m_total_mem m) (m_total_steps m) (m_total_ref m) x (m_config m) (m_events m).
Definition with_config x (m : Mempool) : Mempool :=
  mkMempool (m_txs m) (m_order m) (m_tombstones m) (m_fee_index m) (m_claimed m) (m_virtual m) (m_dependents m)
    (m_total_bytes m) (m_total_mem m) (m_total_steps m) (m_total_ref m) (m_count m) x (m_events m).
(** [tx_events.send(e)] *)
Definition publish e (m : Mempool) : Mempool :=
  mkMempool (m_txs m) (m_order m) (m_tombstones m) (m_fee_index m) (m_claimed m) (m_virtual m) (m_dependents m)
    (m_total_bytes m) (m_total_mem m) (m_total_steps m) (m_total_ref m) (m_count m) (m_config m)
    (m_events m ++ [e]).

(** ** Insertion order *)

Definition maybe_compact_order (m : Mempool) : Mempool :=
  let tombstone_count := Z.of_nat (size (m_tombstones m)) in
  let order_len := Z.of_nat (length (m_order m)) in
  if (100 <? tombstone_count) && (order_len <? tombstone_count * 2)
  then with_order (filter (λ h, h ∉ m_tombstones m) (m_order m)) ∅ m
  else m.

(** ** Removal *)

(** The virtual inputs [(tx_hash, index as u32)] of the outputs of a transaction. *)
Definition virtual_inputs (tx_hash : Hash32) (tx : Transaction) : list TransactionInput :=
  (λ i, mkInput tx_hash (Z.of_nat i mod 2 ^ 32)) <$> seq 0 (length (tx_outputs tx)).

(** What is common to the removal of a transaction and of a dependent: the
    map, the count, the tombstone, the claims, the virtual outputs. *)
Definition release (tx_hash : Hash32) (e : MempoolEntry) (m : Mempool) : Mempool :=
  let m := with_txs (delete tx_hash (m_txs m)) m in
  let m := with_count (wrapping_sub64 (m_count m) 1) m in
  let m := with_order (m_order m) ({[tx_hash]} ∪ m_tombstones m) m in
  let m := with_claimed (foldl (λ c i, delete i c) (m_claimed m) (tx_inputs (me_tx e))) m in
  with_virtual (foldl (λ v i, delete i v) (m_virtual m) (virtual_inputs tx_hash (me_tx e))) m.

(** The level-by-level walk of the dependency graph; it removes the entries it
    follows, so their number bounds the levels. *)
Definition take_edges (acc : list Hash32 * gmap Hash32 (list Hash32)) (h : Hash32)
  : list Hash32 * gmap Hash32 (list Hash32) :=
  (acc.1 ++ default [] (acc.2 !! h), delete h acc.2).

Fixpoint bfs_loop (fuel : nat) (bfs all_children : list Hash32) (dep : gmap Hash32 (list Hash32))
  : list Hash32 * gmap Hash32 (list Hash32) :=
  match fuel, bfs with
  | S fuel, _ :: _ =>
      let '(next, dep) := foldl take_edges ([], dep) bfs in
      bfs_loop fuel next (all_children ++ bfs) dep
  | _, _ => (all_children, dep)
  end.

Record batch := mkBatch { bt_keys : list FeeDensityKey; bt_bytes : Z; bt_mem : Z; bt_steps : Z; bt_ref : Z }.

Definition remove_child (acc : batch * Mempool) (child_hash : Hash32) : batch * Mempool :=
  let '(b, m) := acc in
  match m_txs m !! child_hash with
  | None => (b, m)
  | Some e =>
      (mkBatch (bt_keys b ++ [fee_key (me_fee e) (me_size e) child_hash])
         (wrapping_add64 (bt_bytes b) (me_size e)) (wrapping_add64 (bt_mem b) (me_mem e))
         (wrapping_add64 (bt_steps b) (me_steps e)) (wrapping_add64 (bt_ref b) (me_ref e)),
       publish (Removed child_hash Evicted) (release child_hash e m))
  end.

Definition subtract_totals (b me st rf : Z) (m : Mempool) : Mempool :=
  with_totals (wrapping_sub64 (m_total_bytes m) b) (wrapping_sub64 (m_total_mem m) me)
    (wrapping_sub64 (m_total_steps m) st) (wrapping_sub64 (m_total_ref m) rf) m.

Definition cascade_remove (tx_hash : Hash32) (m : Mempool) : Mempool :=
  let bfs := default [] (m_dependents m !! tx_hash) in
  let dep := delete tx_hash (m_dependents m) in
  let '(all_children, dep) := bfs_loop (S (S (size dep))) bfs [] dep in
  let m := with_dependents dep m in
  match all_children with
  | [] => m
  | _ =>
      let '(b, m) := foldl remove_child (mkBatch [] 0 0 0 0, m) all_children in
      let m := with_fee_index (foldl (λ fi k, bts_remove k fi) (m_fee_index m) (bt_keys b)) m in
      subtract_totals (bt_bytes b) (bt_mem b) (bt_steps b) (bt_ref b) m
  end.

Definition remove_tx_inner (tx_hash : Hash32) (cascade : bool) (reason : MempoolRemoveReason)
    (m : Mempool) : option Transaction * Mempool :=
  match m_txs m !! tx_hash with
  | None => (None, m)
  | Some e =>
      let m := release tx_hash e m in
      let m := with_fee_index (bts_remove (fee_key (me_fee e) (me_size e) tx_hash) (m_fee_index m)) m in
      let m := subtract_totals (me_size e) (me_mem e) (me_steps e) (me_ref e) m in
      let m := publish (Removed tx_hash reason) m in
      if cascade && bool_decide (reason = Mined)
      then (Some (me_tx e), with_dependents (delete tx_hash (m_dependents m)) m)
      else
        let m := if cascade then cascade_remove tx_hash m else m in
        (Some (me_tx e), maybe_compact_order m)
  end.

Definition remove_tx (tx_hash : Hash32) (m : Mempool) : option Transaction * Mempool :=
  remove_tx_inner tx_hash true Manual m.
Definition remove_tx_with_reason (tx_hash : Hash32) (reason : MempoolRemoveReason) (m : Mempool)
  : option Transaction * Mempool :=
  remove_tx_inner tx_hash true reason m.
Definition remove_txs_with_reason (tx_hashes : list Hash32) (reason : MempoolRemoveReason) (m : Mempool)
  : Mempool :=
  foldl (λ m h, (remove_tx_with_reason h reason m).2) m tx_hashes.
Definition remove_txs (tx_hashes : list Hash32) (m : Mempool) : Mempool :=
  remove_txs_with_reason tx_hashes Manual m.

(** ** Admission *)

Definition needs_eviction (new_size new_ex_mem new_ex_steps new_ref_scripts : Z) (m : Mempool) : bool :=
  let cfg := m_config m in
  (max_transactions cfg <=? m_count m) ||
  (max_bytes cfg <? wrapping_add64 (m_total_bytes m) new_size) ||
  (max_ex_mem cfg <? wrapping_add64 (m_total_mem m) new_ex_mem) ||
  (max_ex_steps cfg <? wrapping_add64 (m_total_steps m) new_ex_steps) ||
  (max_ref_scripts_bytes cfg <? wrapping_add64 (m_total_ref m) new_ref_scripts).

(** Every iteration removes a transaction; [None] is running out of fuel. *)
Fixpoint capacity_loop (fuel : nat) (new_size new_fee new_ex_mem new_ex_steps new_ref_scripts : Z)
    (m : Mempool) : option (bool * Mempool) :=
  if negb (needs_eviction new_size new_ex_mem new_ex_steps new_ref_scripts m) then Some (true, m)
  else
    match last (m_fee_index m) with
    | None => Some (true, m)
    | Some worst =>
        let new_size_cmp := if new_size =? 0 then 1 else new_size in
        let new_density := new_fee * k_size worst in
        let worst_density := k_fee worst * new_size_cmp in
        if new_density <=? worst_density then Some (false, m)
        else
          match fuel with
          | O => None
          | S fuel =>
              capacity_loop fuel new_size new_fee new_ex_mem new_ex_steps new_ref_scripts
                (remove_tx (k_hash worst) m).2
          end
    end.

Definition ensure_capacity (new_size new_fee new_ex_mem new_ex_steps new_ref_scripts : Z)
    (m : Mempool) : option (bool * Mempool) :=
  capacity_loop (length (m_fee_index m)) new_size new_fee new_ex_mem new_ex_steps new_ref_scripts m.

(** [dep_map.iter().find_map(|(k, v)| v.contains(&ancestor).then_some(k))] *)
Definition parent_of (dep : gmap Hash32 (list Hash32)) (ancestor : Hash32) : option Hash32 :=
  fst <$> head (filter (λ kv : Hash32 * list Hash32, ancestor ∈ kv.2) (map_to_list dep)).

(** The depth that exceeds the limit, if the walk reaches it. *)
Fixpoint depth_loop (fuel : nat) (dep : gmap Hash32 (list Hash32)) (depth : nat) (ancestor : Hash32)
  : option nat :=
  match parent_of dep ancestor with
  | None => None
  | Some grandparent =>
      let depth := S depth in
      if (VIRTUAL_CHAIN_MAX_DEPTH <=? depth)%nat then Some depth
      else match fuel with O => Some depth | S fuel => depth_loop fuel dep depth grandparent end
  end.

(** Record the new transaction under every pending parent; the graph is
    changed also when a later input hits the limit. *)
Fixpoint link_parents (virt : gmap TransactionInput TransactionOutput) (tx_hash : Hash32)
    (inputs : list TransactionInput) (dep : gmap Hash32 (list Hash32))
  : option nat * gmap Hash32 (list Hash32) :=
  match inputs with
  | [] => (None, dep)
  | input :: inputs =>
      let parent_hash := transaction_id input in
      if bool_decide (is_Some (virt !! input)) && bool_decide (parent_hash ≠ tx_hash) then
        match depth_loop VIRTUAL_CHAIN_MAX_DEPTH dep 1 parent_hash with
        | Some depth => (Some depth, dep)
        | None =>
            link_parents virt tx_hash inputs
              (<[parent_hash := default [] (dep !! parent_hash) ++ [tx_hash]]> dep)
        end
      else link_parents virt tx_hash inputs dep
  end.

(** [virtual_utxo.insert] for every output. *)
Definition publish_outputs (tx_hash : Hash32) (tx : Transaction)
    (virt : gmap TransactionInput TransactionOutput) : gmap TransactionInput TransactionOutput :=
  foldl (λ v io, <[io.1 := io.2]> v) virt (zip (virtual_inputs tx_hash tx) (tx_outputs tx)).

Definition push_order (tx_hash : Hash32) (m : Mempool) : Mempool :=
  let order := if ORDER_DEQUE_MAX <=? Z.of_nat (length (m_order m)) then tail (m_order m) else m_order m in
  with_order (order ++ [tx_hash]) (m_tombstones m) m.

Definition claimed_by (m : Mempool) (inputs : list TransactionInput) : option Hash32 :=
  head (omap (λ i, m_claimed m !! i) inputs).

(** The part of [add_tx_inner] after the reservation of a slot: [tx_count] has
    been incremented. *)
Definition admission (tx_hash : Hash32) (tx : Transaction) (size_bytes fee ex_units_mem ex_units_steps
    ref_scripts_bytes : Z) (m : Mempool) : (MempoolError + MempoolAddResult) * Mempool :=
  let m := with_claimed (foldl (λ c i, <[i := tx_hash]> c) (m_claimed m) (tx_inputs tx)) m in
  let '(too_deep, dep) := link_parents (m_virtual m) tx_hash (tx_inputs tx) (m_dependents m) in
  let m := with_dependents dep m in
  match too_deep with
  | Some depth =>
      let m := with_claimed (foldl (λ c i, delete i c) (m_claimed m) (tx_inputs tx)) m in
      (inl (VirtualChainTooDeep depth VIRTUAL_CHAIN_MAX_DEPTH), with_count (wrapping_sub64 (m_count m) 1) m)
  | None =>
      let m := with_virtual (publish_outputs tx_hash tx (m_virtual m)) m in
      let e := mkEntry tx tx_hash size_bytes fee ex_units_mem ex_units_steps ref_scripts_bytes in
      let m := with_fee_index (bts_insert (fee_key fee size_bytes tx_hash) (m_fee_index m)) m in
      let m := with_txs (<[tx_hash := e]> (m_txs m)) m in
      let m := with_order (m_order m) (m_tombstones m ∖ {[tx_hash]}) m in
      let m := push_order tx_hash (maybe_compact_order m) in
      let m := with_totals (wrapping_add64 (m_total_bytes m) size_bytes)
                 (wrapping_add64 (m_total_mem m) ex_units_mem)
                 (wrapping_add64 (m_total_steps m) ex_units_steps)
                 (wrapping_add64 (m_total_ref m) ref_scripts_bytes) m in
      (inr TxAdded, publish (Added tx_hash (tx_raw_cbor tx)) m)
  end.

Definition add_tx_inner (tx_hash : Hash32) (tx : Transaction) (size_bytes fee ex_units_mem
    ex_units_steps ref_scripts_bytes : Z) (m : Mempool)
  : option ((MempoolError + MempoolAddResult) * Mempool) :=
  if bool_decide (is_Some (m_txs m !! tx_hash)) then Some (inr AlreadyExists, m)
  else
    match claimed_by m (tx_inputs tx) with
    | Some h => Some (inl (InputConflict h), m)
    | None =>
        '(ok, m) ← ensure_capacity size_bytes fee ex_units_mem ex_units_steps ref_scripts_bytes m;
        if negb ok then Some (inl InsufficientPriority, m)
        else
          let cfg_max_txs := max_transactions (m_config m) in
          let cfg_max_bytes := max_bytes (m_config m) in
          let count := m_count m in
          let m := with_count (wrapping_add64 count 1) m in
          if cfg_max_txs <=? count then
            Some (inl (Full cfg_max_txs), with_count (wrapping_sub64 (m_count m) 1) m)
          else if cfg_max_bytes <? wrapping_add64 (m_total_bytes m) size_bytes then
            Some (inl (TooLarge size_bytes), with_count (wrapping_sub64 (m_count m) 1) m)
          else Some (admission tx_hash tx size_bytes fee ex_units_mem ex_units_steps ref_scripts_bytes m)
    end.

(** [add_tx] and [add_tx_with_fee] *)
Definition add_tx_with_fee (tx_hash : Hash32) (tx : Transaction) (size_bytes fee : Z) (m : Mempool) :=
  add_tx_inner tx_hash tx size_bytes fee 0 0 0 m.
Definition add_tx (tx_hash : Hash32) (tx : Transaction) (size_bytes : Z) (m : Mempool) :=
  add_tx_with_fee tx_hash tx size_bytes 0 m.

(** ** Reading *)

Definition get_tx (m : Mempool) (tx_hash : Hash32) : option Transaction := me_tx <$> m_txs m !! tx_hash.
Definition get_tx_size (m : Mempool) (tx_hash : Hash32) : option Z := me_size <$> m_txs m !! tx_hash.
Definition mp_contains (m : Mempool) (tx_hash : Hash32) : bool := bool_decide (is_Some (m_txs m !! tx_hash)).
Definition get_tx_cbor (m : Mempool) (tx_hash : Hash32) : option (list Z) :=
  m_txs m !! tx_hash ≫= λ e, tx_raw_cbor (me_tx e).
Definition lookup_virtual_utxo (m : Mempool) (i : TransactionInput) : option TransactionOutput :=
  m_virtual m !! i.
Definition tx_hashes_ordered (m : Mempool) : list Hash32 := filter (λ h, h ∉ m_tombstones m) (m_order m).
Definition first_tx_hash (m : Mempool) : option Hash32 := head (tx_hashes_ordered m).

Record picked := mkPicked { pk_result : list Transaction; pk_size : Z; pk_mem : Z; pk_steps : Z }.

Fixpoint select_loop (m : Mempool) (max_count max_size max_block_ex_mem max_block_ex_steps : Z)
    (forge_slot : option Z) (order : list Hash32) (seen : gset Hash32) (p : picked) : list Transaction :=
  match order with
  | [] => pk_result p
  | tx_hash :: order =>
      if max_count <=? Z.of_nat (length (pk_result p)) then pk_result p
      else if bool_decide (tx_hash ∈ m_tombstones m) then
        select_loop m max_count max_size max_block_ex_mem max_block_ex_steps forge_slot order seen p
      else if bool_decide (tx_hash ∈ seen) then
        select_loop m max_count max_size max_block_ex_mem max_block_ex_steps forge_slot order seen p
      else
        let seen := {[tx_hash]} ∪ seen in
        match m_txs m !! tx_hash with
        | None =>
            select_loop m max_count max_size max_block_ex_mem max_block_ex_steps forge_slot order seen p
        | Some e =>
            let expired :=
              match forge_slot, tx_ttl (me_tx e) with
              | Some slot, Some ttl => ttl <=? slot
              | _, _ => false
              end in
            if expired then
              select_loop m max_count max_size max_block_ex_mem max_block_ex_steps forge_slot order seen p
            else if max_size <? wrapping_add64 (pk_size p) (me_size e) then pk_result p
            else
              let '(tx_mem, tx_steps) := tx_ex_units (me_tx e) in
              if (max_block_ex_mem <? saturating_add64 (pk_mem p) tx_mem) ||
                 (max_block_ex_steps <? saturating_add64 (pk_steps p) tx_steps)
              then pk_result p
              else
                select_loop m max_count max_size max_block_ex_mem max_block_ex_steps forge_slot order seen
                  (mkPicked (pk_result p ++ [me_tx e]) (wrapping_add64 (pk_size p) (me_size e))
                     (saturating_add64 (pk_mem p) tx_mem) (saturating_add64 (pk_steps p) tx_steps))
        end
  end.

Definition get_txs_for_block_with_ex_units_at (m : Mempool)
    (max_count max_size max_block_ex_mem max_block_ex_steps : Z) (forge_slot : option Z) : list Transaction :=
  select_loop m max_count max_size max_block_ex_mem max_block_ex_steps forge_slot (m_order m) ∅
    (mkPicked [] 0 0 0).
Definition get_txs_for_block_with_ex_units (m : Mempool)
    (max_count max_size max_block_ex_mem max_block_ex_steps : Z) : list Transaction :=
  get_txs_for_block_with_ex_units_at m max_count max_size max_block_ex_mem max_block_ex_steps None.
Definition get_txs_for_block (m : Mempool) (max_count max_size : Z) : list Transaction :=
  get_txs_for_block_with_ex_units m max_count max_size u64_max u64_max.

Fixpoint by_fee_loop (m : Mempool) (max_count max_size : Z) (keys : list FeeDensityKey)
    (result : list Transaction) (total_size : Z) : list Transaction :=
  match keys with
  | [] => result
  | key :: keys =>
      if max_count <=? Z.of_nat (length result) then result
      else
        match m_txs m !! k_hash key with
        | None => by_fee_loop m max_count max_size keys result total_size
        | Some e =>
            if max_size <? wrapping_add64 total_size (me_size e)
            then by_fee_loop m max_count max_size keys result total_size
            else by_fee_loop m max_count max_size keys (result ++ [me_tx e])
                   (wrapping_add64 total_size (me_size e))
        end
  end.

Definition get_txs_for_block_by_fee (m : Mempool) (max_count max_size : Z) : list Transaction :=
  by_fee_loop m max_count max_size (m_fee_index m) [] 0.

(** ** Sweeps *)

Definition update_capacity_from_params (max_block_body_size max_block_ex_mem max_block_ex_steps : Z)
    (m : Mempool) : Mempool :=
  let cfg := m_config m in
  with_config (mkMpConfig (max_transactions cfg) (saturating_mul64 max_block_body_size 2)
    (saturating_mul64 max_block_ex_mem 2) (saturating_mul64 max_block_ex_steps 2)
    (max_ref_scripts_bytes cfg)) m.

(** [.iter().filter(..).map(|e| e.tx_hash).collect()] *)
Definition matching (f : MempoolEntry → bool) (m : Mempool) : list Hash32 :=
  me_tx_hash <$> filter (λ e, f e = true) (map_to_list (m_txs m)).*2.

Definition is_expired (current_slot : Z) (e : MempoolEntry) : bool :=
  match tx_ttl (me_tx e) with Some ttl => ttl <=? current_slot | None => false end.

Definition evict_expired (current_slot : Z) (m : Mempool) : nat * Mempool :=
  let expired := matching (is_expired current_slot) m in
  let count := length expired in
  let m := remove_txs_with_reason expired Evicted m in
  (count, if (0 <? count)%nat then maybe_compact_order m else m).

Definition revalidate_against_inputs (consumed_inputs : gset TransactionInput) (m : Mempool)
  : list Hash32 * Mempool :=
  let conflicting :=
    matching (λ e, existsb (λ i, bool_decide (i ∈ consumed_inputs)) (tx_inputs (me_tx e))) m in
  (conflicting, remove_txs_with_reason conflicting Evicted m).

(** [is_valid] is a closure that may keep state: [V] is what it captures. *)
Definition revalidate_one {V} (is_valid : Transaction → V → bool * V)
    (acc : list Hash32 * V * Mempool) (hash : Hash32) : list Hash32 * V * Mempool :=
  let '(removed, v, m) := acc in
  match m_txs m !! hash with
  | None => (removed, v, m)
  | Some e =>
      let '(valid, v) := is_valid (me_tx e) v in
      if valid then (removed, v, m)
      else (removed ++ [hash], v, (remove_tx_with_reason hash Evicted m).2)
  end.

Definition revalidate_all {V} (is_valid : Transaction → V → bool * V) (v : V) (m : Mempool)
  : list Hash32 * V * Mempool :=
  foldl (revalidate_one is_valid) ([], v, m) (tx_hashes_ordered m).

Definition drain_one (acc : list Transaction * Mempool) (hash : Hash32) : list Transaction * Mempool :=
  let '(txs, m) := acc in
  match m_txs m !! hash with
  | None => (txs, m)
  | Some e => (txs ++ [me_tx e], publish (Removed hash Evicted) (with_txs (delete hash (m_txs m)) m))
  end.

(** Everything but the transactions and the events is reset. *)
Definition reset_indexes (m : Mempool) : Mempool :=
  mkMempool (m_txs m) [] ∅ [] ∅ ∅ ∅ 0 0 0 0 0 (m_config m) (m_events m).

Definition drain_all (m : Mempool) : list Transaction * Mempool :=
  let '(txs, m') := foldl drain_one ([], m) (m_order m) in
  (txs, reset_indexes m').

Definition mp_clear (m : Mempool) : Mempool := reset_indexes (with_txs ∅ m).

End mempool.

Arguments Transaction : clear implicits.
Arguments MempoolEntry : clear implicits.
Arguments Mempool : clear implicits.
