(* ===== verification/MempoolInv.v ===== *)
(** * The fee-density index of the mempool

    [key_cmp] is a total order on keys with a positive size, the sorted list
    that stands for the [BTreeSet] stays sorted, and its last element has the
    lowest fee density. *)

From S2P Require Import Prelude Order EraHistory Block Mempool.
Local Open Scope Z_scope.


Definition kbefore (a b : FeeDensityKey) : Prop := key_cmp a b = Lt.

Definition key_wf (k : FeeDensityKey) : Prop := 0 ≤ k_fee k ∧ 0 < k_size k.

Lemma fee_key_wf fee size h : 0 ≤ fee → 0 ≤ size → key_wf (fee_key fee size h).
Proof. intros. split; [done|]. simpl. destruct (Z.eqb_spec size 0); lia. Qed.

Lemma kbefore_iff a b :
  kbefore a b ↔ k_fee b * k_size a < k_fee a * k_size b ∨
    (k_fee b * k_size a = k_fee a * k_size b ∧ key_lt (k_hash a) (k_hash b)).
Proof.
  unfold kbefore, key_cmp, key_lt. destruct (Z.compare_spec (k_fee b * k_size a) (k_fee a * k_size b)) as [E|E|E].
  - rewrite E. split; [by right|]. intros [?|[_ ?]]; [lia|done].
  - split; [by left|done].
  - split; [done|]. intros [?|[? _]]; lia.
Qed.

Lemma key_cmp_eq a b : key_cmp a b = Eq ↔ k_fee b * k_size a = k_fee a * k_size b ∧ k_hash a = k_hash b.
Proof.
  unfold key_cmp. destruct (Z.compare_spec (k_fee b * k_size a) (k_fee a * k_size b)) as [E|E|E].
  - rewrite slice_cmp_eq. tauto.
  - split; [done|]. intros [? _]. lia.
  - split; [done|]. intros [? _]. lia.
Qed.

Lemma key_cmp_antisym a b : key_cmp b a = CompOpp (key_cmp a b).
Proof.
  unfold key_cmp. rewrite (Z.compare_antisym (k_fee b * k_size a)).
  destruct (k_fee b * k_size a ?= k_fee a * k_size b); simpl; [|done..]. apply slice_cmp_antisym.
Qed.

Lemma key_cmp_gt a b : key_cmp a b = Gt ↔ kbefore b a.
Proof. unfold kbefore. rewrite (key_cmp_antisym a b). by destruct (key_cmp a b). Qed.

(** Cross multiplication orders the ratios, so the comparison is transitive. *)
Lemma kbefore_trans a b c :
  key_wf a → key_wf b → key_wf c → kbefore a b → kbefore b c → kbefore a c.
Proof.
  intros [Ha1 Ha2] [Hb1 Hb2] [Hc1 Hc2]. rewrite !kbefore_iff.
  set (fa := k_fee a) in *. set (fb := k_fee b) in *. set (fc := k_fee c) in *.
  set (sa := k_size a) in *. set (sb := k_size b) in *. set (sc := k_size c) in *.
  assert (∀ x y, x * sb < y * sb → x < y) as Hlt by (intros; nia).
  assert (∀ x y, x * sb = y * sb → x = y) as Heq by (intros; nia).
  intros [H1|[H1 L1]] [H2|[H2 L2]].
  - left. apply Hlt. nia.
  - left. apply Hlt. nia.
  - left. apply Hlt. nia.
  - right. split; [apply Heq; nia|by etrans].
Qed.

(** ** The sorted list *)

Definition index_sorted (l : list FeeDensityKey) : Prop :=
  StronglySorted kbefore l ∧ Forall key_wf l.

Lemma index_sorted_cons x l :
  index_sorted (x :: l) ↔ Forall (kbefore x) l ∧ key_wf x ∧ index_sorted l.
Proof.
  unfold index_sorted. rewrite Forall_cons. split.
  - intros [Hs [Hx Hl]]. apply StronglySorted_inv in Hs as [? ?]. tauto.
  - intros (H1 & H2 & H3 & H4). split; [by constructor|done].
Qed.

Lemma bts_insert_elem k l x :
  (∀ y, y ∈ l → k_hash y ≠ k_hash k) → x ∈ bts_insert k l ↔ x = k ∨ x ∈ l.
Proof.
  induction l as [|y l IH]; intros Hne; simpl; [set_solver|].
  destruct (key_cmp k y) eqn:E.
  - apply key_cmp_eq in E as [_ E]. exfalso. apply (Hne y); [by left|done].
  - set_solver.
  - rewrite elem_of_cons, IH by set_solver. set_solver.
Qed.

Lemma bts_insert_sorted k l :
  key_wf k → (∀ y, y ∈ l → k_hash y ≠ k_hash k) → index_sorted l → index_sorted (bts_insert k l).
Proof.
  intros Hk. induction l as [|y l IH]; intros Hne Hs; simpl.
  { apply index_sorted_cons. split_and!; [constructor|done|done]. }
  pose proof Hs as Hs'. apply index_sorted_cons in Hs as (Hy & Hwy & Hl). destruct (key_cmp k y) eqn:E.
  - done.
  - apply index_sorted_cons. split_and!; [|done|done]. constructor; [done|].
    rewrite Forall_forall in Hy |- *. intros z Hz. apply (kbefore_trans k y); [done..| |done|by apply Hy].
    destruct Hl as [_ Hl]. rewrite Forall_forall in Hl. by apply Hl.
  - apply index_sorted_cons. split_and!; [|done|apply IH; [set_solver|done]].
    rewrite Forall_forall in Hy |- *. intros z. rewrite bts_insert_elem by set_solver.
    intros [->|Hz]; [by apply key_cmp_gt|by apply Hy].
Qed.

Lemma bts_remove_elem k l x :
  (∀ y, y ∈ l → k_hash y = k_hash k → y = k) → key_wf k → index_sorted l →
  x ∈ bts_remove k l ↔ x ∈ l ∧ x ≠ k.
Proof.
  intros Hu Hk. induction l as [|y l IH]; intros Hs; simpl; [set_solver|].
  apply index_sorted_cons in Hs as (Hy & Hwy & Hl).
  assert (∀ z, z ∈ l → kbefore y z) as Hy' by (by rewrite Forall_forall in Hy).
  destruct (key_cmp k y) eqn:E.
  - apply key_cmp_eq in E as [_ E]. rewrite <- (Hu y) by (set_solver || done).
    rewrite elem_of_cons. split; [|naive_solver]. intros Hx. split; [by right|]. intros ->.
    specialize (Hy' _ Hx). unfold kbefore in Hy'.
    by rewrite (proj2 (key_cmp_eq y y)) in Hy' by (split; [lia|done]).
  - split; [|naive_solver]. intros Hx. split; [done|]. intros ->.
    assert (key_cmp k k = Eq) as Hkk by (apply key_cmp_eq; split; [lia|done]).
    apply elem_of_cons in Hx as [<-|Hx]; [congruence|].
    assert (kbefore k k) as Hb; [|unfold kbefore in Hb; congruence].
    apply (kbefore_trans k y k); [done..|]. by apply Hy'.
  - rewrite elem_of_cons, IH by (set_solver || done). rewrite elem_of_cons.
    assert (y ≠ k) as Hyk.
    { intros ->. assert (key_cmp k k = Eq) by (apply key_cmp_eq; split; [lia|done]). congruence. }
    naive_solver.
Qed.

Lemma bts_remove_sublist k l : bts_remove k l `sublist_of` l.
Proof.
  induction l as [|y l IH]; simpl; [done|]. destruct (key_cmp k y).
  - by apply sublist_cons.
  - done.
  - by apply sublist_skip.
Qed.

Lemma index_sorted_sublist l l' : l' `sublist_of` l → index_sorted l → index_sorted l'.
Proof.
  induction 1 as [|x l1 l2 Hs IH|x l1 l2 Hs IH]; [done| |];
    rewrite index_sorted_cons; intros (Hx & Hw & Hl).
  - apply index_sorted_cons. split_and!; [|done|by apply IH].
    rewrite Forall_forall in Hx |- *. intros z Hz. apply Hx. by eapply elem_of_submseteq, sublist_submseteq.
  - by apply IH.
Qed.

Lemma bts_remove_sorted k l : index_sorted l → index_sorted (bts_remove k l).
Proof. apply index_sorted_sublist, bts_remove_sublist. Qed.

(** The last key has the lowest fee density. *)
Lemma index_last_lowest l w k :
  index_sorted l → last l = Some w → k ∈ l → k_fee w * k_size k ≤ k_fee k * k_size w.
Proof.
  intros Hs Hw Hk. apply last_Some in Hw as [l' ->].
  apply elem_of_app in Hk as [Hk| ->%list_elem_of_singleton]; [|lia].
  destruct Hs as [Hs _]. apply StronglySorted_app in Hs as (Hs & _ & _).
  specialize (Hs k w Hk ltac:(by left)). apply kbefore_iff in Hs. lia.
Qed.

(** * Invariant of the mempool

    [mp_ok]: the count and the totals are those of the pending transactions,
    the fee index holds exactly their keys, the claimed inputs are exactly the
    inputs they spend, the virtual UTxO is exactly their outputs, and each of
    them is in the insertion order, not under a tombstone. *)


Section inv.
Context {O : Type}.
Implicit Types (m : Mempool O) (e : MempoolEntry O) (T : gmap Hash32 (MempoolEntry O)).

(** ** Sums over the pending transactions *)

Definition esum (f : MempoolEntry O → Z) T : Z := map_fold (λ _ e acc, f e + acc) 0 T.

Lemma esum_insert f T h e : T !! h = None → esum f (<[h := e]> T) = f e + esum f T.
Proof. intros Hh. unfold esum. rewrite map_fold_insert_L; [done|intros; lia|done]. Qed.

Lemma esum_delete f T h e : T !! h = Some e → esum f T = f e + esum f (delete h T).
Proof. intros Hh. unfold esum. rewrite (map_fold_delete_L _ _ h e T); [done|intros; lia|done]. Qed.

Lemma esum_nonneg f T : (∀ h e, T !! h = Some e → 0 ≤ f e) → 0 ≤ esum f T.
Proof.
  induction T as [|h e T Hh IH] using map_ind; intros Hf; [unfold esum; by rewrite map_fold_empty|].
  rewrite esum_insert by done. specialize (Hf h e) as He. rewrite lookup_insert_eq in He.
  specialize (He eq_refl).
  assert (0 ≤ esum f T); [|lia]. apply IH. intros h' e' Hl. apply (Hf h').
  rewrite lookup_insert_ne; [done|]. congruence.
Qed.

(** ** The invariant *)

Definition entry_key (h : Hash32) e : FeeDensityKey := fee_key (me_fee e) (me_size e) h.

(** What the callers supply: sizes and units far from the ends of their
    machine types, fewer outputs than indexes. *)
Record entry_wf (h : Hash32) e : Prop := {
  ew_hash : me_tx_hash e = h;
  ew_size : 0 ≤ me_size e < 2 ^ 63;
  ew_fee : 0 ≤ me_fee e;
  ew_mem : 0 ≤ me_mem e < 2 ^ 63;
  ew_steps : 0 ≤ me_steps e < 2 ^ 63;
  ew_ref : 0 ≤ me_ref e < 2 ^ 63;
  ew_outputs : Z.of_nat (length (tx_outputs (me_tx e))) ≤ 2 ^ 32;
}.

Record mp_ok m : Prop := {
  ok_entries h e : m_txs m !! h = Some e → entry_wf h e;
  ok_count : m_count m = Z.of_nat (size (m_txs m));
  ok_count_bound : m_count m < 2 ^ 63;
  ok_bytes : m_total_bytes m = esum me_size (m_txs m);
  ok_mem : m_total_mem m = esum me_mem (m_txs m);
  ok_steps : m_total_steps m = esum me_steps (m_txs m);
  ok_ref : m_total_ref m = esum me_ref (m_txs m);
  ok_bounds : m_total_bytes m < 2 ^ 63 ∧ m_total_mem m < 2 ^ 63 ∧ m_total_steps m < 2 ^ 63 ∧
    m_total_ref m < 2 ^ 63;
  ok_sorted : index_sorted (m_fee_index m);
  ok_index k : k ∈ m_fee_index m ↔ ∃ h e, m_txs m !! h = Some e ∧ k = entry_key h e;
  ok_claimed i h : m_claimed m !! i = Some h ↔ ∃ e, m_txs m !! h = Some e ∧ i ∈ tx_inputs (me_tx e);
  ok_virtual i o : m_virtual m !! i = Some o ↔ ∃ e n, m_txs m !! transaction_id i = Some e ∧
    tx_outputs (me_tx e) !! n = Some o ∧ tx_index i = Z.of_nat n;
  ok_order h : is_Some (m_txs m !! h) → h ∈ m_order m ∧ h ∉ m_tombstones m;
}.

Lemma mp_ok_new config : mp_ok (mempool_new config).
Proof.
  assert (∀ h, (∅ : gmap Hash32 (MempoolEntry O)) !! h = None) as He by (intros; apply lookup_empty).
  split; simpl; try done.
  - split; constructor.
  - intros k. split; [by intros ?%elem_of_nil|naive_solver].
  - intros i h. rewrite lookup_empty. naive_solver.
  - intros i o. rewrite lookup_empty. naive_solver.
  - intros h. rewrite He. by intros [? ?].
Qed.

(** The parts of the state that the invariant is about. *)
Definition visible m :=
  (m_txs m, m_order m, m_tombstones m, m_fee_index m, m_claimed m, m_virtual m,
   (m_total_bytes m, m_total_mem m, m_total_steps m, m_total_ref m, m_count m)).

Lemma mp_ok_visible m m' : visible m' = visible m → mp_ok m → mp_ok m'.
Proof.
  unfold visible. intros [= E1 E2 E3 E4 E5 E6 E7 E8 E9 E10 E11] [].
  split; rewrite ?E1, ?E2, ?E3, ?E4, ?E5, ?E6, ?E7, ?E8, ?E9, ?E10, ?E11; done.
Qed.

(** ** Compaction *)

Lemma compact_ok m : mp_ok m → mp_ok (maybe_compact_order m).
Proof.
  intros H. unfold maybe_compact_order. case_match; [|done]. destruct H. split; try done.
  intros h Hh. destruct (ok_order0 h Hh) as [Ho Ht]. simpl. split; [|set_solver].
  by apply list_elem_of_filter.
Qed.

(** ** Removing one transaction *)

Lemma delete_inputs {A} (X : list TransactionInput) (c : gmap TransactionInput A) i :
  foldl (λ c i, delete i c) c X !! i = if decide (i ∈ X) then None else c !! i.
Proof.
  revert c. induction X as [|x X IH]; intros c; cbn [foldl].
  { by rewrite decide_False by apply not_elem_of_nil. }
  rewrite IH. destruct (decide (i = x)) as [->|Hne].
  - rewrite lookup_delete_eq, (decide_True (P := x ∈ x :: X)) by left. by case_decide.
  - rewrite lookup_delete_ne by done. apply decide_ext. rewrite elem_of_cons. naive_solver.
Qed.

Lemma elem_of_virtual_inputs h (tx : Transaction O) i :
  Z.of_nat (length (tx_outputs tx)) ≤ 2 ^ 32 →
  i ∈ virtual_inputs h tx ↔
    transaction_id i = h ∧ ∃ n, (n < length (tx_outputs tx))%nat ∧ tx_index i = Z.of_nat n.
Proof.
  intros Hlen. unfold virtual_inputs. rewrite list_elem_of_fmap. split.
  - intros (n & -> & Hn%elem_of_seq). split; [done|]. exists n. split; [lia|]. simpl.
    apply Z.mod_small. lia.
  - intros (Hi & n & Hn & Hx). exists n. rewrite elem_of_seq. split; [|lia].
    destruct i as [t x]; simpl in *. subst. f_equal. symmetry. apply Z.mod_small. lia.
Qed.

(** Removing a transaction at once, as the batch of a cascade does it piece by
    piece. *)
Definition remove_one (reason : MempoolRemoveReason) m (h : Hash32) : Mempool O :=
  match m_txs m !! h with
  | None => m
  | Some e =>
      publish (Removed h reason)
        (subtract_totals (me_size e) (me_mem e) (me_steps e) (me_ref e)
           (with_fee_index (bts_remove (entry_key h e) (m_fee_index m)) (release h e m)))
  end.

Lemma sub_exact t x s : t = x + s → 0 ≤ x → 0 ≤ s → t < 2 ^ 63 → wrapping_sub64 t x = s.
Proof. intros -> ? ? ?. unfold wrapping_sub64. replace (x + s - x) with s by lia. apply wrap64_small. unfold u64, u64_max. lia. Qed.

Lemma remove_one_totals m h e f t :
  mp_ok m → m_txs m !! h = Some e → (∀ h e, m_txs m !! h = Some e → 0 ≤ f e) →
  t = esum f (m_txs m) → t < 2 ^ 63 →
  wrapping_sub64 t (f e) = esum f (delete h (m_txs m)) ∧ wrapping_sub64 t (f e) < 2 ^ 63.
Proof.
  intros Hok He Hf Ht Hb. rewrite (esum_delete f _ h e) in Ht by done.
  assert (0 ≤ esum f (delete h (m_txs m))) as Hn.
  { apply esum_nonneg. intros h' e' [_ ?]%lookup_delete_Some. by eapply Hf. }
  specialize (Hf h e He). rewrite (sub_exact _ _ _ Ht) by done. split; [done|]. lia.
Qed.

Lemma entry_key_hash h e : k_hash (entry_key h e) = h.
Proof. done. Qed.

Lemma index_unique m h e k :
  mp_ok m → m_txs m !! h = Some e → k ∈ m_fee_index m → k_hash k = h → k = entry_key h e.
Proof. intros Hok He (h' & e' & He' & ->)%(ok_index _ Hok) E. simpl in E. subst h'. by simplify_eq. Qed.

Lemma remove_one_index m h e k :
  mp_ok m → m_txs m !! h = Some e →
  k ∈ bts_remove (entry_key h e) (m_fee_index m) ↔
    ∃ h' e', delete h (m_txs m) !! h' = Some e' ∧ k = entry_key h' e'.
Proof.
  intros Hok He. pose proof (ok_entries _ Hok h e He) as [].
  rewrite bts_remove_elem; [|intros y Hy Hh; by eapply index_unique|apply fee_key_wf; lia|apply Hok].
  rewrite (ok_index _ Hok). split.
  - intros [(h' & e' & He' & ->) Hne]. exists h', e'. split; [|done].
    rewrite lookup_delete_ne; [done|]. intros <-. by simplify_eq.
  - intros (h' & e' & [Hne He']%lookup_delete_Some & ->). split; [by exists h', e'|].
    intros E. apply Hne. by apply (f_equal k_hash) in E.
Qed.

Lemma remove_one_ok reason m h : mp_ok m → mp_ok (remove_one reason m h).
Proof.
  intros Hok. unfold remove_one. destruct (m_txs m !! h) as [e|] eqn:He; [|done].
  pose proof (ok_entries _ Hok) as Hw. pose proof (Hw h e He) as Hwe.
  destruct (ok_bounds _ Hok) as (B1 & B2 & B3 & B4).
  destruct (remove_one_totals m h e me_size (m_total_bytes m) Hok He) as [S1 S1'];
    [intros ? ? []%Hw; lia|apply Hok|done|].
  destruct (remove_one_totals m h e me_mem (m_total_mem m) Hok He) as [S2 S2'];
    [intros ? ? []%Hw; lia|apply Hok|done|].
  destruct (remove_one_totals m h e me_steps (m_total_steps m) Hok He) as [S3 S3'];
    [intros ? ? []%Hw; lia|apply Hok|done|].
  destruct (remove_one_totals m h e me_ref (m_total_ref m) Hok He) as [S4 S4'];
    [intros ? ? []%Hw; lia|apply Hok|done|].
  assert (size (m_txs m) = S (size (delete h (m_txs m)))) as Hsz.
  { rewrite map_size_delete_Some by (by eexists). assert (size (m_txs m) ≠ 0%nat); [|lia].
    apply map_size_non_empty_iff. intros E. by rewrite E, lookup_empty in He. }
  pose proof (ok_count _ Hok) as Hc. pose proof (ok_count_bound _ Hok) as Hcb.
  assert (wrapping_sub64 (m_count m) 1 = Z.of_nat (size (delete h (m_txs m)))) as Hc'.
  { apply sub_exact; lia. }
  split; cbn -[delete foldl bts_remove]; try done.
  - intros h' e' [_ ?]%lookup_delete_Some. by apply Hw.
  - rewrite Hc'. lia.
  - apply bts_remove_sorted, Hok.
  - intros k. by apply remove_one_index.
  - intros i h'. rewrite delete_inputs. split.
    + case_decide as Hi; [done|]. intros (e' & He' & Hin)%(ok_claimed _ Hok). exists e'. split; [|done].
      rewrite lookup_delete_ne; [done|]. intros <-. by simplify_eq.
    + intros (e' & [Hne He']%lookup_delete_Some & Hin).
      assert (m_claimed m !! i = Some h') as Hi by (apply (ok_claimed _ Hok); by exists e').
      case_decide as Hd; [|done]. exfalso. apply Hne.
      assert (m_claimed m !! i = Some h) by (apply (ok_claimed _ Hok); by exists e). congruence.
  - intros i o. rewrite delete_inputs. split.
    + case_decide as Hi; [done|]. intros (e' & n & He' & Ho & Hx)%(ok_virtual _ Hok).
      exists e', n. split; [|done]. rewrite lookup_delete_ne; [done|]. intros E. apply Hi.
      apply elem_of_virtual_inputs; [apply Hwe|]. rewrite <- E in He'. simplify_eq.
      split; [done|]. exists n. split; [by eapply lookup_lt_Some|done].
    + intros (e' & n & [Hne He']%lookup_delete_Some & Ho & Hx). rewrite decide_False.
      * apply (ok_virtual _ Hok). by exists e', n.
      * rewrite elem_of_virtual_inputs by apply Hwe. intros [E _]. by apply Hne.
  - intros h' [e' [Hne He']%lookup_delete_Some]. destruct (ok_order _ Hok h') as [? ?]; [by eexists|].
    split; [done|]. set_solver.
Qed.

Lemma remove_all_ok reason hs m : mp_ok m → mp_ok (foldl (remove_one reason) m hs).
Proof.
  revert m. induction hs as [|h hs IH]; intros m Hm; [done|]. cbn [foldl].
  by apply IH, remove_one_ok.
Qed.

End inv.

(** * Cascading removal in the mempool

    The level-by-level walk collects exactly the descendants in the dependency
    graph, and the batched removal of a cascade is the same as removing the
    descendants one by one. *)


(** ** The walk *)

Abbreviation Graph := (gmap Hash32 (list Hash32)).

Definition edge (dep : Graph) (p c : Hash32) : Prop := c ∈ default [] (dep !! p).

Lemma take_edges_spec (bfs next0 : list Hash32) (dep : Graph) :
  let r := foldl take_edges (next0, dep) bfs in
  (∀ y, y ∈ r.1 ↔ y ∈ next0 ∨ ∃ x, x ∈ bfs ∧ edge dep x y) ∧
  (∀ k, r.2 !! k = if decide (k ∈ bfs) then None else dep !! k).
Proof.
  revert next0 dep. induction bfs as [|x bfs IH]; intros next0 dep; cbn [foldl].
  { split; [set_solver|]. intros k. by rewrite decide_False by apply not_elem_of_nil. }
  unfold take_edges at 2 4. cbn [fst snd].
  destruct (IH (next0 ++ default [] (dep !! x)) (delete x dep)) as [IH1 IH2]. split.
  - intros y. rewrite IH1, elem_of_app. unfold edge. setoid_rewrite elem_of_cons. split.
    + intros [[?|Hy]|(z & Hz & Hy)]; [by left|right; exists x; auto|].
      destruct (decide (z = x)) as [->|Hne]; [by rewrite lookup_delete_eq in Hy; apply elem_of_nil in Hy|].
      rewrite lookup_delete_ne in Hy by done. right. exists z. auto.
    + intros [?|(z & [->|Hz] & Hy)]; [by left; left|by left; right|].
      destruct (decide (z = x)) as [->|Hne]; [by left; right|].
      right. exists z. by rewrite lookup_delete_ne.
  - intros k. rewrite IH2. destruct (decide (k = x)) as [->|Hne].
    + rewrite lookup_delete_eq, (decide_True (P := x ∈ x :: bfs)) by left. by case_decide.
    + rewrite lookup_delete_ne by done. apply decide_ext. rewrite elem_of_cons. naive_solver.
Qed.

Record walk_inv (dep0 : Graph) (h : Hash32) (bfs all : list Hash32) (dep : Graph) : Prop := {
  wi_sound x : x ∈ bfs ∨ x ∈ all → tc (edge dep0) h x;
  wi_closed x y : x = h ∨ x ∈ all → edge dep0 x y → y ∈ bfs ∨ y ∈ all;
  wi_dep k : dep !! k = if decide (k = h ∨ k ∈ all) then None else dep0 !! k;
}.

Lemma walk_inv_step dep0 h bfs all dep :
  walk_inv dep0 h bfs all dep →
  let r := foldl take_edges ([], dep) bfs in walk_inv dep0 h r.1 (all ++ bfs) r.2.
Proof.
  intros [Hs Hc Hd]. destruct (take_edges_spec bfs [] dep) as [Hn Hk].
  destruct (foldl take_edges ([], dep) bfs) as [next dep']. cbn [fst snd] in *.
  assert (∀ x y, edge dep x y → edge dep0 x y) as Hsub.
  { intros x y. unfold edge. rewrite Hd. case_decide; [by intros ?%elem_of_nil|done]. }
  split.
  - intros x. rewrite elem_of_app, Hn. intros [[?%elem_of_nil|(z & Hz & Hx)]|Hx]; [done| |].
    + eapply tc_r; [apply Hs; by left|by apply Hsub].
    + apply Hs. tauto.
  - intros x y. rewrite elem_of_app, Hn. intros Hx Hxy.
    destruct (decide (x = h ∨ x ∈ all)) as [Hin|Hin].
    + destruct (Hc x y Hin Hxy); rewrite elem_of_app; auto.
    + assert (x ∈ bfs) as Hb by tauto. left. right. exists x. split; [done|].
      unfold edge. by rewrite Hd, decide_False.
  - intros k. rewrite Hk, Hd. repeat case_decide; try done; exfalso; rewrite elem_of_app in *; tauto.
Qed.

Lemma bfs_loop_spec fuel dep0 h bfs all dep :
  walk_inv dep0 h bfs all dep → (bfs ≠ [] → S (size dep) ≤ fuel)%nat →
  let r := bfs_loop fuel bfs all dep in walk_inv dep0 h [] r.1 r.2.
Proof.
  revert bfs all dep. induction fuel as [|fuel IH]; intros bfs all dep Hi Hf.
  { destruct bfs; [done|]. assert (S (size dep) ≤ 0)%nat by (by apply Hf). lia. }
  destruct bfs as [|b bfs]; [done|]. cbn [bfs_loop].
  pose proof (walk_inv_step _ _ _ _ _ Hi) as Hi'.
  destruct (take_edges_spec (b :: bfs) [] dep) as [Hn Hk].
  destruct (foldl take_edges ([], dep) (b :: bfs)) as [next dep'] eqn:E. cbn [fst snd] in *.
  apply IH; [done|]. intros Hne. specialize (Hf ltac:(done)).
  enough (size dep' < size dep)%nat by lia.
  destruct next as [|y next]; [done|]. destruct (proj1 (Hn y)) as [?%elem_of_nil|(x & Hx & Hxy)]; [by left|done|].
  unfold edge in Hxy. destruct (dep !! x) as [l|] eqn:Ex; [|by apply elem_of_nil in Hxy].
  assert (dep' ⊆ delete x dep) as Hsub.
  { apply map_subseteq_spec. intros k v. rewrite Hk. case_decide as Hd; [done|]. intros Hkv.
    rewrite lookup_delete_ne; [done|]. by intros ->. }
  apply map_subseteq_size in Hsub. rewrite map_size_delete_Some in Hsub by (by eexists).
  assert (size dep ≠ 0%nat); [|lia]. apply map_size_non_empty_iff. intros E0. by rewrite E0, lookup_empty in Ex.
Qed.

(** The walk from [h] finds exactly the descendants of [h] and drops exactly
    their edges and those of [h]. *)
Lemma bfs_spec (dep : Graph) h :
  let r := bfs_loop (S (S (size (delete h dep)))) (default [] (dep !! h)) [] (delete h dep) in
  (∀ x, x ∈ r.1 ↔ tc (edge dep) h x) ∧
  (∀ k, r.2 !! k = if decide (k = h ∨ k ∈ r.1) then None else dep !! k).
Proof.
  destruct (bfs_loop_spec (S (S (size (delete h dep)))) dep h (default [] (dep !! h)) [] (delete h dep))
    as [Hs Hc Hd].
  { split.
    - intros x [Hx|?%elem_of_nil]; [by apply tc_once|done].
    - intros x y [->|?%elem_of_nil]; [by left|done].
    - intros k. case_decide as Hk.
      + destruct Hk as [->|?%elem_of_nil]; [apply lookup_delete_eq|done].
      + apply lookup_delete_ne. intros <-. by apply Hk; left. }
  { lia. }
  destruct (bfs_loop _ _ _ _) as [all dep']. cbn [fst snd] in *. split; [|done].
  intros x. split; [intros ?; apply Hs; by right|]. revert x. apply tc_ind_r.
  - intros x Hx. by destruct (Hc h x (or_introl eq_refl) Hx) as [?%elem_of_nil|?].
  - intros x y _ Hy Hx. by destruct (Hc x y (or_intror Hx) Hy) as [?%elem_of_nil|?].
Qed.

(** ** The batch *)

Section batch.
Context {O : Type}.
Implicit Types (m : Mempool O) (b : batch).

Definition settle b m : Mempool O :=
  subtract_totals (bt_bytes b) (bt_mem b) (bt_steps b) (bt_ref b)
    (with_fee_index (foldl (λ fi k, bts_remove k fi) (m_fee_index m) (bt_keys b)) m).

Lemma sub_add t x y : wrapping_sub64 t (wrapping_add64 x y) = wrapping_sub64 (wrapping_sub64 t x) y.
Proof.
  unfold wrapping_sub64, wrapping_add64, wrap64. rewrite Zminus_mod_idemp_r, Zminus_mod_idemp_l.
  f_equal. lia.
Qed.

Lemma settle_remove_child b m h :
  settle (remove_child (b, m) h).1 (remove_child (b, m) h).2 = remove_one Evicted (settle b m) h.
Proof.
  unfold remove_child, remove_one. cbn [m_txs settle subtract_totals with_totals with_fee_index].
  destruct (m_txs m !! h) as [e|]; [|done]. unfold settle, subtract_totals, release, publish.
  cbn -[wrapping_sub64 wrapping_add64 foldl]. rewrite !sub_add, foldl_app. done.
Qed.

Lemma settle_remove_children hs b m :
  settle (foldl remove_child (b, m) hs).1 (foldl remove_child (b, m) hs).2
  = foldl (remove_one Evicted) (settle b m) hs.
Proof.
  revert b m. induction hs as [|h hs IH]; intros b m; [done|]. cbn [foldl].
  rewrite <- settle_remove_child. destruct (remove_child (b, m) h) as [b' m']. apply IH.
Qed.

Lemma settle_nothing m : mp_ok m → settle (mkBatch [] 0 0 0 0) m = m.
Proof.
  intros Hok. destruct (ok_bounds _ Hok) as (B1 & B2 & B3 & B4).
  pose proof (ok_entries _ Hok) as Hw.
  assert (∀ f t, t = esum f (m_txs m) → (∀ h e, m_txs m !! h = Some e → 0 ≤ f e) → t < 2 ^ 63 →
    wrapping_sub64 t 0 = t) as Hz.
  { intros f t Ht Hf Hb. apply esum_nonneg in Hf. apply sub_exact; lia. }
  unfold settle, subtract_totals. simpl.
  rewrite (Hz me_size), (Hz me_mem), (Hz me_steps), (Hz me_ref);
    try (apply Hok || done || by intros ? ? []%Hw; lia).
  by destruct m.
Qed.

(** A cascade drops the edges of the descendants and removes them. *)
Definition descendants m (h : Hash32) : list Hash32 * Graph :=
  bfs_loop (S (S (size (delete h (m_dependents m))))) (default [] (m_dependents m !! h)) []
    (delete h (m_dependents m)).

Lemma cascade_remove_eq h m :
  mp_ok m →
  cascade_remove h m
  = foldl (remove_one Evicted) (with_dependents (descendants m h).2 m) (descendants m h).1.
Proof.
  intros Hok. unfold cascade_remove. fold (descendants m h).
  destruct (descendants m h) as [all dep]. cbn [fst snd]. destruct all as [|x all]; [done|].
  pose proof (settle_remove_children (x :: all) (mkBatch [] 0 0 0 0) (with_dependents dep m)) as Hs.
  rewrite settle_nothing in Hs by (by apply (mp_ok_visible m)). rewrite <- Hs.
  by destruct (foldl remove_child _ _) as [b m'].
Qed.

(** What a removal leaves: a transaction goes if it is the one or, unless that
    was mined, a descendant. *)
Definition gone m (h : Hash32) (reason : MempoolRemoveReason) (x : Hash32) : Prop :=
  x = h ∨ (reason ≠ Mined ∧ x ∈ (descendants m h).1).

#[global] Instance gone_dec m h reason x : Decision (gone m h reason x).
Proof. unfold gone. apply _. Defined.

Lemma remove_one_txs reason m h : m_txs (remove_one reason m h) = delete h (m_txs m).
Proof.
  unfold remove_one. destruct (m_txs m !! h) eqn:E; [done|]. by rewrite delete_id.
Qed.

Lemma remove_one_dep reason m h : m_dependents (remove_one reason m h) = m_dependents m.
Proof. unfold remove_one. by destruct (m_txs m !! h). Qed.

Lemma remove_one_config reason m h : m_config (remove_one reason m h) = m_config m.
Proof. unfold remove_one. by destruct (m_txs m !! h). Qed.

Lemma remove_all_fields reason hs m :
  (∀ x, m_txs (foldl (remove_one reason) m hs) !! x = if decide (x ∈ hs) then None else m_txs m !! x) ∧
  m_dependents (foldl (remove_one reason) m hs) = m_dependents m ∧
  m_config (foldl (remove_one reason) m hs) = m_config m.
Proof.
  revert m. induction hs as [|h hs IH]; intros m; cbn [foldl].
  { split; [|done]. intros x. by rewrite decide_False by apply not_elem_of_nil. }
  destruct (IH (remove_one reason m h)) as (IH1 & -> & ->).
  rewrite remove_one_dep, remove_one_config. split; [|done].
  intros x. rewrite IH1, remove_one_txs. destruct (decide (x = h)) as [->|Hne].
  - rewrite lookup_delete_eq, (decide_True (P := h ∈ h :: hs)) by left. by case_decide.
  - rewrite lookup_delete_ne by done. apply decide_ext. rewrite elem_of_cons. naive_solver.
Qed.

Lemma compact_fields m :
  m_txs (maybe_compact_order m) = m_txs m ∧ m_dependents (maybe_compact_order m) = m_dependents m ∧
  m_config (maybe_compact_order m) = m_config m ∧ m_events (maybe_compact_order m) = m_events m.
Proof. unfold maybe_compact_order. by case_match. Qed.

Lemma remove_inner_eq h reason m e :
  mp_ok m → m_txs m !! h = Some e →
  (remove_tx_inner h true reason m).1 = Some (me_tx e) ∧
  (remove_tx_inner h true reason m).2 =
    if decide (reason = Mined)
    then with_dependents (delete h (m_dependents m)) (remove_one Mined m h)
    else maybe_compact_order
      (foldl (remove_one Evicted) (with_dependents (descendants m h).2 (remove_one reason m h))
         (descendants m h).1).
Proof.
  intros Hok He.
  assert (remove_one reason m h = publish (Removed h reason)
    (subtract_totals (me_size e) (me_mem e) (me_steps e) (me_ref e)
      (with_fee_index (bts_remove (fee_key (me_fee e) (me_size e) h) (m_fee_index (release h e m)))
        (release h e m)))) as E.
  { unfold remove_one. by rewrite He. }
  unfold remove_tx_inner. rewrite He. cbv zeta. rewrite <- E. cbn [andb].
  case_bool_decide as Hr; cbn [fst snd].
  - split; [done|]. rewrite decide_True by done. subst reason. by rewrite remove_one_dep.
  - split; [done|]. rewrite decide_False by done.
    rewrite cascade_remove_eq by (by apply remove_one_ok). unfold descendants. by rewrite remove_one_dep.
Qed.

Lemma remove_inner_missing h c reason m :
  m_txs m !! h = None → remove_tx_inner h c reason m = (None, m).
Proof. intros H. unfold remove_tx_inner. by rewrite H. Qed.

Lemma remove_inner_ok h reason m : mp_ok m → mp_ok (remove_tx_inner h true reason m).2.
Proof.
  intros Hok. destruct (m_txs m !! h) as [e|] eqn:He; [|by rewrite remove_inner_missing].
  destruct (remove_inner_eq h reason m e Hok He) as [_ ->]. case_decide.
  - apply (mp_ok_visible (remove_one Mined m h)); [done|by apply remove_one_ok].
  - apply compact_ok, remove_all_ok. apply (mp_ok_visible (remove_one reason m h)); [done|by apply remove_one_ok].
Qed.

Lemma remove_inner_txs h reason m x :
  mp_ok m → is_Some (m_txs m !! h) →
  m_txs (remove_tx_inner h true reason m).2 !! x =
    if decide (gone m h reason x) then None else m_txs m !! x.
Proof.
  intros Hok [e He]. destruct (remove_inner_eq h reason m e Hok He) as [_ ->]. unfold gone.
  destruct (decide (reason = Mined)) as [->|Hr].
  - cbn [m_txs with_dependents]. rewrite remove_one_txs.
    destruct (decide (x = h)) as [->|Hne].
    + rewrite lookup_delete_eq, decide_True by (by left). done.
    + rewrite lookup_delete_ne, decide_False by naive_solver. done.
  - rewrite (proj1 (compact_fields _)), (proj1 (remove_all_fields _ _ _)).
    cbn [m_txs with_dependents]. rewrite remove_one_txs.
    destruct (decide (x = h)) as [->|Hne].
    + rewrite lookup_delete_eq, (decide_True (P := h = h ∨ _)) by (by left). by case_decide.
    + rewrite lookup_delete_ne by done. apply decide_ext. tauto.
Qed.

Lemma remove_inner_config h reason m : m_config (remove_tx_inner h true reason m).2 = m_config m.
Proof.
  unfold remove_tx_inner. destruct (m_txs m !! h) as [e|]; [|done]. cbv zeta. case_match; [done|].
  cbn [snd]. rewrite (proj1 (proj2 (proj2 (compact_fields _)))). cbn [andb].
  unfold cascade_remove. destruct (bfs_loop _ _ _ _) as [[|x all] dep]; [done|].
  set (acc := (mkBatch [] 0 0 0 0, _)). assert (m_config acc.2 = m_config m) as <- by done.
  generalize (x :: all). clearbody acc. intros hs.
  assert (m_config (foldl remove_child acc hs).2 = m_config acc.2) as E.
  { revert acc. induction hs as [|y hs IH]; intros [b m']; [done|]. cbn [foldl]. rewrite IH.
    unfold remove_child. by destruct (m_txs m' !! y). }
  rewrite <- E. by destruct (foldl remove_child acc hs).
Qed.

End batch.
