(* ===== verification/MempoolSteps.v ===== *)
(** * Admission to the mempool

    Eviction terminates and stops with room for the newcomer, with nothing
    left, or at a transaction that is worth at least as much; admission keeps
    the invariant and, when it succeeds, every limit. *)

From S2P Require Import Prelude Order EraHistory Block Mempool MempoolInv.
Local Open Scope Z_scope.


Section admission.
Context {O : Type}.
Implicit Types (m : Mempool O) (e : MempoolEntry O) (tx : Transaction O).

(** ** Eviction *)

Lemma size_list_to_set_le (l : list Hash32) : (size (list_to_set l : gset Hash32) ≤ length l)%nat.
Proof.
  induction l as [|x l IH]; [done|]. rewrite list_to_set_cons, size_union_alt, size_singleton.
  cbn [length]. assert (size (list_to_set l ∖ {[x]} : gset Hash32) ≤ size (list_to_set l : gset Hash32))%nat.
  { apply subseteq_size. set_solver. }
  lia.
Qed.

Lemma index_size m : mp_ok m → (size (m_txs m) ≤ length (m_fee_index m))%nat.
Proof.
  intros Hok. rewrite <- size_dom, <- (length_fmap k_hash).
  rewrite <- (size_list_to_set_le (k_hash <$> m_fee_index m)).
  apply subseteq_size. intros h [e He]%elem_of_dom. apply elem_of_list_to_set, list_elem_of_fmap.
  exists (entry_key h e). split; [done|]. apply (ok_index _ Hok). by exists h, e.
Qed.

Lemma remove_order_le h reason m :
  (length (m_order (remove_tx_inner h true reason m).2) ≤ length (m_order m))%nat.
Proof.
  assert (∀ m, length (m_order (maybe_compact_order m)) ≤ length (m_order m))%nat as Hc.
  { intros m'. unfold maybe_compact_order. case_match; [|done]. apply length_filter. }
  unfold remove_tx_inner. destruct (m_txs m !! h) as [e|]; [|done]. cbv zeta. case_match; [done|].
  cbn [snd]. etrans; [apply Hc|]. unfold cascade_remove.
  destruct (bfs_loop _ _ _ _) as [[|x all] dep]; [done|].
  set (acc := (mkBatch [] 0 0 0 0, _)). assert (m_order acc.2 = m_order m) as <- by done.
  generalize (x :: all). clearbody acc. intros hs.
  assert (m_order (foldl remove_child acc hs).2 = m_order acc.2) as E.
  { revert acc. induction hs as [|y hs IH]; intros [b m']; [done|]. cbn [foldl]. rewrite IH.
    unfold remove_child. by destruct (m_txs m' !! y). }
  rewrite <- E. by destruct (foldl remove_child acc hs).
Qed.

Lemma remove_size h reason m :
  mp_ok m → is_Some (m_txs m !! h) →
  (size (m_txs (remove_tx_inner h true reason m).2) < size (m_txs m))%nat.
Proof.
  intros Hok Hh. apply map_subset_size. apply map_subset_alt. split.
  - apply map_subseteq_spec. intros x e. rewrite remove_inner_txs by done. by case_decide.
  - exists h. split; [|done]. rewrite remove_inner_txs, decide_True by (done || by left). done.
Qed.

(** How an eviction run ends. *)
Record evicted_to (sz fee mem steps ref : Z) (m : Mempool O) (ok : bool) (m' : Mempool O) : Prop := {
  ev_ok : mp_ok m';
  ev_sub h e : m_txs m' !! h = Some e → m_txs m !! h = Some e;
  ev_config : m_config m' = m_config m;
  ev_order : (length (m_order m') ≤ length (m_order m))%nat;
  ev_end : if ok then needs_eviction sz mem steps ref m' = false ∨ m_txs m' = ∅
           else ∃ h e, m_txs m' !! h = Some e ∧
             fee * Z.max 1 (me_size e) ≤ me_fee e * Z.max 1 sz;
}.

Lemma capacity_loop_spec fuel sz fee mem steps ref m :
  mp_ok m → 0 ≤ sz → (size (m_txs m) ≤ fuel)%nat →
  ∃ ok m', capacity_loop fuel sz fee mem steps ref m = Some (ok, m') ∧
    evicted_to sz fee mem steps ref m ok m'.
Proof.
  intros Hok Hsz. revert m Hok. induction fuel as [|fuel IH]; intros m Hok Hf; simpl.
  all: destruct (needs_eviction sz mem steps ref m) eqn:Hn; cbn [negb];
    [|exists true, m; split; [done|split; auto]].
  all: destruct (last (m_fee_index m)) as [w|] eqn:Hw;
    [|exists true, m; split; [done|split; auto]; right; apply map_size_empty_inv;
      pose proof (index_size m Hok); apply last_None in Hw; rewrite Hw in *; simpl in *; lia].
  all: assert (w ∈ m_fee_index m) as Hin by (apply last_Some in Hw as [l ->]; set_solver).
  all: apply (ok_index _ Hok) in Hin as (h & e & He & ->);
    pose proof (ok_entries _ Hok h e He) as Hwf; cbn [k_size k_fee k_hash entry_key fee_key].
  all: assert ((if sz =? 0 then 1 else sz) = Z.max 1 sz) as -> by (destruct (Z.eqb_spec sz 0); lia);
    assert ((if me_size e =? 0 then 1 else me_size e) = Z.max 1 (me_size e)) as ->
      by (destruct Hwf, (Z.eqb_spec (me_size e) 0); lia).
  all: destruct (Z.leb_spec (fee * Z.max 1 (me_size e)) (me_fee e * Z.max 1 sz)) as [Hd|Hd];
    [exists false, m; split; [done|split; eauto]|].
  { assert (m_txs m = ∅) as E by (apply map_size_empty_inv; lia). by rewrite E, lookup_empty in He. }
  unfold remove_tx. pose proof (remove_size h Manual m Hok ltac:(by eexists)) as Hlt.
  destruct (IH (remove_tx_inner h true Manual m).2) as (ok & m' & E & Hev);
    [by apply remove_inner_ok|lia|].
  exists ok, m'. split; [done|]. destruct Hev as [E1 E2 E3 E4 E5]. split; [done| | | |done].
  - intros x ex Hx. apply E2 in Hx. rewrite remove_inner_txs in Hx by (done || by eexists).
    by case_decide.
  - by rewrite E3, remove_inner_config.
  - etrans; [done|]. apply remove_order_le.
Qed.

(** ** Bookkeeping of a newcomer *)

Lemma insert_inputs (h : Hash32) (X : list TransactionInput) (c : gmap TransactionInput Hash32) i :
  foldl (λ c i, <[i := h]> c) c X !! i = if decide (i ∈ X) then Some h else c !! i.
Proof.
  revert c. induction X as [|x X IH]; intros c; cbn [foldl].
  { by rewrite decide_False by apply not_elem_of_nil. }
  rewrite IH. destruct (decide (i = x)) as [->|Hne].
  - rewrite lookup_insert_eq, (decide_True (P := x ∈ x :: X)) by left. by case_decide.
  - rewrite lookup_insert_ne by done. apply decide_ext. rewrite elem_of_cons. naive_solver.
Qed.

Lemma claimed_by_None m X : claimed_by m X = None → ∀ i, i ∈ X → m_claimed m !! i = None.
Proof.
  unfold claimed_by. intros Hn i Hi. destruct (m_claimed m !! i) as [h|] eqn:E; [|done].
  assert (h ∈ omap (λ i, m_claimed m !! i) X) as Hin by (apply list_elem_of_omap; by exists i).
  destruct (omap _ X); [by apply elem_of_nil in Hin|done].
Qed.

Lemma claimed_by_Some m X h : claimed_by m X = Some h → ∃ i, i ∈ X ∧ m_claimed m !! i = Some h.
Proof.
  unfold claimed_by. intros Hh. apply list_elem_of_omap.
  destruct (omap _ X); simplify_eq/=. by left.
Qed.

Lemma foldl_insert_lookup (l : list (TransactionInput * O)) (v : gmap TransactionInput O) i o :
  NoDup l.*1 →
  foldl (λ v io, <[io.1 := io.2]> v) v l !! i = Some o ↔
    (i, o) ∈ l ∨ (i ∉ l.*1 ∧ v !! i = Some o).
Proof.
  revert v. induction l as [|[k x] l IH]; intros v; cbn [foldl fmap list_fmap fst snd].
  { intros _. set_solver. }
  intros [Hk Hnd]%NoDup_cons. rewrite IH by done. destruct (decide (i = k)) as [->|Hne].
  - rewrite lookup_insert_eq. rewrite !elem_of_cons. split.
    + intros [Hin|[_ [= ->]]]; [|by left; left]. exfalso. apply Hk. by apply (list_elem_of_fmap_2 fst) in Hin.
    + intros [[[= ->]|Hin]|[Hn _]]; [by right|by left|]. exfalso. apply Hn. by left.
  - rewrite lookup_insert_ne by done. rewrite !elem_of_cons. naive_solver.
Qed.

Lemma publish_outputs_spec h tx v i o :
  Z.of_nat (length (tx_outputs tx)) ≤ 2 ^ 32 →
  publish_outputs h tx v !! i = Some o ↔
    (transaction_id i = h ∧ ∃ n, tx_index i = Z.of_nat n ∧ tx_outputs tx !! n = Some o) ∨
    (i ∉ virtual_inputs h tx ∧ v !! i = Some o).
Proof.
  intros Hlen. unfold publish_outputs.
  assert (length (virtual_inputs h tx) = length (tx_outputs tx)) as Hl.
  { unfold virtual_inputs. by rewrite length_fmap, length_seq. }
  assert ((zip (virtual_inputs h tx) (tx_outputs tx)).*1 = virtual_inputs h tx) as Hfst.
  { apply fst_zip. lia. }
  rewrite foldl_insert_lookup, Hfst.
  2:{ rewrite Hfst. unfold virtual_inputs. apply NoDup_fmap_2_strong; [|apply NoDup_seq].
      intros a b Ha%elem_of_seq Hb%elem_of_seq [= E].
      rewrite !Z.mod_small in E by lia. lia. }
  apply or_iff_compat_r. rewrite list_elem_of_lookup. split.
  - intros [n Hn]. apply lookup_zip_with_Some in Hn as (x & y & [= -> ->] & Hx & Hy).
    unfold virtual_inputs in Hx. apply list_lookup_fmap_Some in Hx as (k & -> & Hk).
    apply lookup_seq in Hk as [-> Hk]. cbn [transaction_id tx_index]. split; [done|].
    exists n. rewrite Z.mod_small by lia. done.
  - intros (Hi & n & Hx & Hy). exists n. apply lookup_zip_with_Some. exists i, o.
    split_and!; [done| |done]. unfold virtual_inputs. apply list_lookup_fmap_Some. exists n.
    assert (n < length (tx_outputs tx))%nat by (by eapply lookup_lt_Some).
    split; [|apply lookup_seq; lia]. destruct i as [t x]; simpl in *. subst.
    by rewrite Z.mod_small by lia.
Qed.

Definition limits_wf (c : MempoolConfig) : Prop :=
  max_transactions c < 2 ^ 63 ∧ max_bytes c < 2 ^ 63 ∧ max_ex_mem c < 2 ^ 63 ∧
  max_ex_steps c < 2 ^ 63 ∧ max_ref_scripts_bytes c < 2 ^ 63.

(** The newcomer's arguments, as its entry. *)
Abbreviation new_entry h tx sz fee mem steps ref := (mkEntry tx h sz fee mem steps ref).

Lemma add_exact t x : 0 ≤ t → 0 ≤ x → t < 2 ^ 63 → x < 2 ^ 63 → wrapping_add64 t x = t + x.
Proof. intros. unfold wrapping_add64. apply wrap64_small. unfold u64, u64_max. lia. Qed.

(** Room for the newcomer on every count. *)
Definition fits (sz mem steps ref : Z) m : Prop :=
  m_total_bytes m + sz < 2 ^ 63 ∧ m_total_mem m + mem < 2 ^ 63 ∧ m_total_steps m + steps < 2 ^ 63 ∧
  m_total_ref m + ref < 2 ^ 63 ∧ m_count m + 1 < 2 ^ 63.

(** *** The refusal of a deep chain undoes the claims *)

Lemma unclaim (h : Hash32) (X : list TransactionInput) (c : gmap TransactionInput Hash32) :
  (∀ i, i ∈ X → c !! i = None) →
  foldl (λ c i, delete i c) (foldl (λ c i, <[i := h]> c) c X) X = c.
Proof.
  intros Hn. apply map_eq. intros i. rewrite delete_inputs. case_decide as Hi; [by rewrite Hn|].
  by rewrite insert_inputs, decide_False.
Qed.

Lemma totals_nonneg m :
  mp_ok m → 0 ≤ m_total_bytes m ∧ 0 ≤ m_total_mem m ∧ 0 ≤ m_total_steps m ∧ 0 ≤ m_total_ref m.
Proof.
  intros Hok. pose proof (ok_entries _ Hok) as Hw.
  rewrite (ok_bytes _ Hok), (ok_mem _ Hok), (ok_steps _ Hok), (ok_ref _ Hok).
  split_and!; apply esum_nonneg; intros ? ? []%Hw; lia.
Qed.

(** The order after the newcomer is pushed. *)
Lemma push_order_spec h m x :
  Z.of_nat (length (m_order m)) < ORDER_DEQUE_MAX →
  (x ≠ h → x ∈ m_order m ∧ x ∉ m_tombstones m) →
  let m' := push_order h (maybe_compact_order (with_order (m_order m) (m_tombstones m ∖ {[h]}) m)) in
  x ∈ m_order m' ∧ x ∉ m_tombstones m'.
Proof.
  intros Hlen Hx. unfold maybe_compact_order. case_match; unfold push_order; cbn [m_order m_tombstones with_order].
  - set (l := filter _ (m_order m)).
    assert (length l ≤ length (m_order m))%nat by apply length_filter.
    destruct (Z.leb_spec ORDER_DEQUE_MAX (Z.of_nat (length l))); [lia|].
    split; [|set_solver]. apply elem_of_app. destruct (decide (x = h)) as [->|Hne]; [right; by left|].
    left. apply list_elem_of_filter. destruct (Hx Hne). set_solver.
  - destruct (Z.leb_spec ORDER_DEQUE_MAX (Z.of_nat (length (m_order m)))); [lia|].
    rewrite elem_of_app. destruct (decide (x = h)) as [->|Hne]; [split; [right; by left|set_solver]|].
    destruct (Hx Hne). set_solver.
Qed.

Lemma push_order_rest h m :
  let m' := push_order h (maybe_compact_order (with_order (m_order m) (m_tombstones m ∖ {[h]}) m)) in
  m_txs m' = m_txs m ∧ m_fee_index m' = m_fee_index m ∧ m_claimed m' = m_claimed m ∧
  m_virtual m' = m_virtual m ∧ m_total_bytes m' = m_total_bytes m ∧ m_total_mem m' = m_total_mem m ∧
  m_total_steps m' = m_total_steps m ∧ m_total_ref m' = m_total_ref m ∧ m_count m' = m_count m ∧
  m_config m' = m_config m ∧ m_dependents m' = m_dependents m ∧ m_events m' = m_events m.
Proof. unfold push_order, maybe_compact_order. by destruct ((100 <? _) && _). Qed.

Section newcomer.
Context (h : Hash32) (tx : Transaction O) (sz fee mem steps ref : Z) (m : Mempool O).
Context (Hok : mp_ok m) (Hnew : m_txs m !! h = None)
  (Hfree : ∀ i, i ∈ tx_inputs tx → m_claimed m !! i = None)
  (Hwf : entry_wf h (mkEntry tx h sz fee mem steps ref))
  (Hfits : fits sz mem steps ref m)
  (Hlen : Z.of_nat (length (m_order m)) < ORDER_DEQUE_MAX).

Let e : MempoolEntry O := mkEntry tx h sz fee mem steps ref.

Lemma virtual_fresh i : transaction_id i = h → m_virtual m !! i = None.
Proof.
  intros Hi. destruct (m_virtual m !! i) as [o|] eqn:E; [|done].
  apply (ok_virtual _ Hok) in E as (e' & n & He' & _). congruence.
Qed.

Lemma index_fresh k : k ∈ m_fee_index m → k_hash k ≠ h.
Proof.
  intros (h' & e' & He' & ->)%(ok_index _ Hok). rewrite entry_key_hash. congruence.
Qed.

(** The mempool after an admission that the depth limit lets through. *)
Definition admitted (dep : Graph) : Mempool O :=
  let m1 := with_claimed (foldl (λ c i, <[i := h]> c) (m_claimed m) (tx_inputs tx)) (with_count (m_count m + 1) m) in
  let m2 := with_virtual (publish_outputs h tx (m_virtual m)) (with_dependents dep m1) in
  let m3 := with_fee_index (bts_insert (fee_key fee sz h) (m_fee_index m)) m2 in
  let m4 := with_txs (<[h := e]> (m_txs m)) m3 in
  let m5 := push_order h (maybe_compact_order (with_order (m_order m4) (m_tombstones m4 ∖ {[h]}) m4)) in
  publish (Added h (tx_raw_cbor tx))
    (with_totals (m_total_bytes m + sz) (m_total_mem m + mem) (m_total_steps m + steps)
       (m_total_ref m + ref) m5).

Lemma admitted_ok dep : mp_ok (admitted dep).
Proof.
  destruct Hfits as (F1 & F2 & F3 & F4 & F5). destruct Hwf as [W1 W2 W3 W4 W5 W6 W7]. simpl in *.
  pose proof (ok_entries _ Hok) as He. pose proof (ok_count _ Hok) as Hc.
  unfold admitted. set (m4 := with_txs _ _).
  destruct (push_order_rest h m4) as (P1 & P2 & P3 & P4 & P5 & P6 & P7 & P8 & P9 & P10 & P11 & P12).
  set (m5 := push_order h _) in *.
  assert (∀ x, is_Some (m_txs m4 !! x) → x ∈ m_order m5 ∧ x ∉ m_tombstones m5) as Hord.
  { intros x Hx. refine (push_order_spec h m4 x Hlen _). intros Hne. apply (ok_order _ Hok).
    unfold m4 in Hx. cbn [m_txs with_txs] in Hx. by rewrite lookup_insert_ne in Hx. }
  clearbody m5. unfold m4 in *. clear m4.
  cbn [m_txs m_fee_index m_claimed m_virtual m_count with_txs with_fee_index with_virtual with_dependents
       with_claimed with_count] in *.
  split; cbn [m_txs m_fee_index m_claimed m_virtual m_count m_total_bytes m_total_mem m_total_steps
    m_total_ref m_order m_tombstones publish with_totals]; rewrite ?P1, ?P2, ?P3, ?P4, ?P9.
  - intros x ex. destruct (decide (x = h)) as [->|Hne].
    + rewrite lookup_insert_eq. by intros [= <-].
    + rewrite lookup_insert_ne by done. apply He.
  - rewrite map_size_insert_None by done. lia.
  - lia.
  - rewrite esum_insert, (ok_bytes _ Hok) by done. simpl. lia.
  - rewrite esum_insert, (ok_mem _ Hok) by done. simpl. lia.
  - rewrite esum_insert, (ok_steps _ Hok) by done. simpl. lia.
  - rewrite esum_insert, (ok_ref _ Hok) by done. simpl. lia.
  - lia.
  - apply bts_insert_sorted; [apply fee_key_wf; lia|apply index_fresh|apply Hok].
  - intros k. rewrite bts_insert_elem by apply index_fresh. rewrite (ok_index _ Hok). split.
    + intros [->|(x & ex & Hx & ->)].
      * exists h, e. by rewrite lookup_insert_eq.
      * exists x, ex. rewrite lookup_insert_ne; [done|]. congruence.
    + intros (x & ex & Hx & ->). destruct (decide (x = h)) as [->|Hne].
      * rewrite lookup_insert_eq in Hx. left. by simplify_eq.
      * rewrite lookup_insert_ne in Hx by done. right. by exists x, ex.
  - intros i x. rewrite insert_inputs. case_decide as Hi.
    + split; [intros [= <-]; exists e; by rewrite lookup_insert_eq|]. intros (ex & Hx & Hin).
      destruct (decide (x = h)) as [->|Hne]; [done|]. rewrite lookup_insert_ne in Hx by done. exfalso.
      assert (m_claimed m !! i = Some x) as E by (apply (ok_claimed _ Hok); by exists ex).
      by rewrite Hfree in E.
    + rewrite (ok_claimed _ Hok). split; intros (ex & Hx & Hin); exists ex; (split; [|done]).
      * rewrite lookup_insert_ne; [done|]. congruence.
      * destruct (decide (x = h)) as [->|Hne]; [|by rewrite lookup_insert_ne in Hx].
        rewrite lookup_insert_eq in Hx. simplify_eq. by destruct Hi.
  - intros i o. rewrite publish_outputs_spec by done. split.
    + intros [(Hi & n & Hx & Ho)|[Hn Hv]].
      * exists e, n. by rewrite Hi, lookup_insert_eq.
      * apply (ok_virtual _ Hok) in Hv as (ex & n & Hx & Ho & Hi). exists ex, n.
        rewrite lookup_insert_ne; [done|]. congruence.
    + intros (ex & n & Hx & Ho & Hi). destruct (decide (transaction_id i = h)) as [E|Hne].
      * rewrite E, lookup_insert_eq in Hx. simplify_eq. left. eauto.
      * rewrite lookup_insert_ne in Hx by done. right. split.
        -- rewrite elem_of_virtual_inputs by done. by intros [? _].
        -- apply (ok_virtual _ Hok). by exists ex, n.
  - apply Hord.
Qed.

Lemma admit_eq :
  let '(too_deep, dep) := link_parents (m_virtual m) h (tx_inputs tx) (m_dependents m) in
  admission h tx sz fee mem steps ref (with_count (wrapping_add64 (m_count m) 1) m)
  = match too_deep with
    | Some depth => (inl (VirtualChainTooDeep depth VIRTUAL_CHAIN_MAX_DEPTH), with_dependents dep m)
    | None => (inr TxAdded, admitted dep)
    end.
Proof.
  destruct (link_parents _ _ _ _) as [too_deep dep] eqn:E. unfold admission.
  cbn [m_claimed m_virtual m_dependents with_claimed with_count]. rewrite E.
  destruct Hfits as (F1 & F2 & F3 & F4 & F5). destruct (ok_bounds _ Hok) as (B1 & B2 & B3 & B4).
  pose proof (ok_count _ Hok) as Hc. destruct (totals_nonneg m Hok) as (N1 & N2 & N3 & N4).
  destruct Hwf as [W1 W2 W3 W4 W5 W6 W7]. cbn [me_size me_fee me_mem me_steps me_ref] in *.
  rewrite (add_exact (m_count m) 1) by lia. destruct too_deep as [depth|].
  - f_equal. cbn [m_claimed with_claimed with_dependents with_count]. rewrite unclaim by done. unfold with_count, with_claimed, with_dependents. cbn.
    replace (wrapping_sub64 (m_count m + 1) 1) with (m_count m); [done|].
    symmetry. apply sub_exact; lia.
  - unfold admitted. cbv zeta.
    cbn [m_virtual m_fee_index m_txs with_fee_index with_virtual with_dependents with_claimed with_count].
    set (m4 := with_txs _ _).
    destruct (push_order_rest h m4) as (P1 & P2 & P3 & P4 & P5 & P6 & P7 & P8 & P9 & P10 & P11 & P12).
    rewrite P5, P6, P7, P8.
    change (m_total_bytes m4) with (m_total_bytes m). change (m_total_mem m4) with (m_total_mem m).
    change (m_total_steps m4) with (m_total_steps m). change (m_total_ref m4) with (m_total_ref m).
    rewrite !add_exact by lia. done.
Qed.

End newcomer.

End admission.

(** * Runs of the mempool

    Every method keeps the invariant; batches remove exactly the named
    transactions and their descendants; the dependency graph records every
    parent of a pending transaction. *)


Section steps.
Context {O : Type}.
Implicit Types (m : Mempool O) (e : MempoolEntry O) (tx : Transaction O).

(** ** Admission *)

Lemma needs_eviction_false sz mem steps ref m :
  needs_eviction sz mem steps ref m = false →
  m_count m < max_transactions (m_config m) ∧
  wrapping_add64 (m_total_bytes m) sz ≤ max_bytes (m_config m) ∧
  wrapping_add64 (m_total_mem m) mem ≤ max_ex_mem (m_config m) ∧
  wrapping_add64 (m_total_steps m) steps ≤ max_ex_steps (m_config m) ∧
  wrapping_add64 (m_total_ref m) ref ≤ max_ref_scripts_bytes (m_config m).
Proof. unfold needs_eviction. rewrite !orb_false_iff, Z.leb_gt, !Z.ltb_ge. tauto. Qed.

(** The totals with the newcomer stay within the configured limits. *)
Definition within_limits (sz mem steps ref : Z) m : Prop :=
  m_total_bytes m + sz ≤ max_bytes (m_config m) ∧ m_total_mem m + mem ≤ max_ex_mem (m_config m) ∧
  m_total_steps m + steps ≤ max_ex_steps (m_config m) ∧ m_total_ref m + ref ≤ max_ref_scripts_bytes (m_config m).

Lemma empty_totals m :
  mp_ok m → m_txs m = ∅ →
  m_count m = 0 ∧ m_total_bytes m = 0 ∧ m_total_mem m = 0 ∧ m_total_steps m = 0 ∧ m_total_ref m = 0.
Proof.
  intros Hok E. rewrite (ok_count _ Hok), (ok_bytes _ Hok), (ok_mem _ Hok), (ok_steps _ Hok), (ok_ref _ Hok), E.
  by split_and!.
Qed.

Lemma capacity_fits h tx sz fee mem steps ref m :
  mp_ok m → limits_wf (m_config m) → entry_wf h (mkEntry tx h sz fee mem steps ref) →
  needs_eviction sz mem steps ref m = false ∨ m_txs m = ∅ →
  m_count m < max_transactions (m_config m) →
  fits sz mem steps ref m ∧ (m_txs m = ∅ ∨ within_limits sz mem steps ref m).
Proof.
  intros Hok (L1 & L2 & L3 & L4 & L5) [W1 W2 W3 W4 W5 W6 W7] Hend Hcount.
  cbn [me_size me_fee me_mem me_steps me_ref] in *. destruct Hend as [Hn|He].
  - apply needs_eviction_false in Hn as (N1 & N2 & N3 & N4 & N5).
    destruct (ok_bounds _ Hok) as (B1 & B2 & B3 & B4).
    destruct (totals_nonneg m Hok) as (P1 & P2 & P3 & P4).
    rewrite !add_exact in N2, N3, N4, N5 by lia.
    assert (within_limits sz mem steps ref m) as Hw by (by repeat split).
    split; [|by right]. unfold fits. lia.
  - destruct (empty_totals m Hok He) as (E0 & E1 & E2 & E3 & E4).
    split; [|by left]. unfold fits. lia.
Qed.

(** What one submission does, by its answer. *)
Definition add_outcome (h : Hash32) tx (sz fee mem steps ref : Z) m
    (r : MempoolError + MempoolAddResult) (m' : Mempool O) : Prop :=
  let e := mkEntry tx h sz fee mem steps ref in
  match r with
  | inr AlreadyExists => m' = m ∧ is_Some (m_txs m !! h)
  | inl (InputConflict c) =>
      m' = m ∧ ∃ i ec, i ∈ tx_inputs tx ∧ m_txs m !! c = Some ec ∧ i ∈ tx_inputs (me_tx ec)
  | inr TxAdded =>
      ∃ T, (∀ x ex, T !! x = Some ex → m_txs m !! x = Some ex) ∧ m_txs m !! h = None ∧
        m_txs m' = <[h := e]> T ∧
        m_count m' ≤ max_transactions (m_config m) ∧ m_total_bytes m' ≤ max_bytes (m_config m) ∧
        (T = ∅ ∨ within_limits 0 0 0 0 m')
  | inl err =>
      (∀ x ex, m_txs m' !! x = Some ex → m_txs m !! x = Some ex) ∧ m_txs m' !! h = None ∧
      match err with
      | InsufficientPriority => ∃ x ex, m_txs m' !! x = Some ex ∧
          fee * Z.max 1 (me_size ex) ≤ me_fee ex * Z.max 1 sz
      | TooLarge s => s = sz ∧ m_txs m' = ∅ ∧ max_bytes (m_config m) < sz
      | Full c => c = max_transactions (m_config m) ∧ c ≤ 0 ∧ m_txs m' = ∅
      | VirtualChainTooDeep d c => (c ≤ d)%nat
      | InputConflict _ => True
      end
  end.

Lemma depth_loop_deep (fuel : nat) (dep : Graph) (depth : nat) (x : Hash32) (d : nat) :
  depth_loop fuel dep depth x = Some d → (VIRTUAL_CHAIN_MAX_DEPTH ≤ depth + S fuel)%nat →
  (VIRTUAL_CHAIN_MAX_DEPTH ≤ d)%nat.
Proof.
  revert depth x. induction fuel as [|fuel IH]; intros depth x; simpl; destruct (parent_of dep x); try done.
  - case_match eqn:E; intros [= <-] ?; [by apply Nat.leb_le|lia].
  - case_match eqn:E; [intros [= <-] _; by apply Nat.leb_le|]. intros H1 H2. eapply IH; [done|lia].
Qed.

Lemma link_parents_deep (v : gmap TransactionInput O) (h : Hash32) (X : list TransactionInput) (dep dep' : Graph) (d : nat) :
  link_parents v h X dep = (Some d, dep') → (VIRTUAL_CHAIN_MAX_DEPTH ≤ d)%nat.
Proof.
  revert dep. induction X as [|i X IH]; intros dep; cbn [link_parents]; [done|].
  case_match; [|apply IH]. destruct (depth_loop _ _ _ _) eqn:E; [|apply IH].
  intros [= <- _]. eapply depth_loop_deep; [done|]. unfold VIRTUAL_CHAIN_MAX_DEPTH. lia.
Qed.

Lemma sub_one c : 0 ≤ c < 2 ^ 63 → wrapping_sub64 (c + 1) 1 = c.
Proof.
  intros. unfold wrapping_sub64. replace (c + 1 - 1) with c by lia. apply wrap64_small.
  unfold u64, u64_max. lia.
Qed.

(** [m1] is what eviction left of [m]. *)
Lemma admitted_outcome h tx sz fee mem steps ref m m1 dep :
  m_config m1 = m_config m → (∀ x ex, m_txs m1 !! x = Some ex → m_txs m !! x = Some ex) →
  m_txs m !! h = None → m_count m1 < max_transactions (m_config m1) →
  m_total_bytes m1 + sz ≤ max_bytes (m_config m1) →
  m_txs m1 = ∅ ∨ within_limits sz mem steps ref m1 →
  m_config (admitted h tx sz fee mem steps ref m1 dep) = m_config m ∧
  add_outcome h tx sz fee mem steps ref m (inr TxAdded) (admitted h tx sz fee mem steps ref m1 dep).
Proof.
  intros O3 O2 Hnew Hfull Hbig Hw. unfold admitted. set (m4 := with_txs _ _) in *.
  destruct (push_order_rest h m4) as (Q1 & _ & _ & _ & _ & _ & _ & _ & Q9 & Q10 & _).
  set (m5 := push_order h _) in *. clearbody m5.
  split; [cbn [m_config publish with_totals]; by rewrite Q10|].
  exists (m_txs m1). cbn [m_txs m_count m_total_bytes publish with_totals].
  rewrite Q1, Q9. rewrite <- O3. unfold m4. cbn [m_txs m_count with_txs with_fee_index with_virtual with_dependents
    with_claimed with_count]. split_and!; [done|done|done|lia|lia|].
  destruct Hw as [He|(W1 & W2 & W3 & W4)]; [by left|right].
  unfold within_limits. cbn [m_total_bytes m_total_mem m_total_steps m_total_ref m_config publish with_totals].
  rewrite Q10. unfold m4. cbn [m_config with_txs with_fee_index with_virtual with_dependents with_claimed with_count].
  lia.
Qed.

Lemma add_tx_inner_spec h tx sz fee mem steps ref m :
  mp_ok m → limits_wf (m_config m) → entry_wf h (mkEntry tx h sz fee mem steps ref) →
  Z.of_nat (length (m_order m)) < ORDER_DEQUE_MAX →
  ∃ r m', add_tx_inner h tx sz fee mem steps ref m = Some (r, m') ∧ mp_ok m' ∧
    m_config m' = m_config m ∧ add_outcome h tx sz fee mem steps ref m r m'.
Proof.
  intros Hok Hlim Hwf Hlen. unfold add_tx_inner. case_bool_decide as Hex; [by exists (inr AlreadyExists), m|].
  assert (m_txs m !! h = None) as Hnew by (by apply eq_None_not_Some).
  destruct (claimed_by m (tx_inputs tx)) as [c|] eqn:Hcl.
  { exists (inl (InputConflict c)), m. split_and!; [done..|].
    apply claimed_by_Some in Hcl as (i & Hi & Hc). apply (ok_claimed _ Hok) in Hc as (ec & ? & ?).
    split; [done|]. by exists i, ec. }
  pose proof (claimed_by_None _ _ Hcl) as Hfree.
  destruct (capacity_loop_spec (length (m_fee_index m)) sz fee mem steps ref m) as (ok & m1 & E & Hev);
    [done|apply Hwf|by apply index_size|].
  unfold ensure_capacity. rewrite E. cbn [mbind option_bind]. destruct Hev as [O1 O2 O3 O4 O5].
  assert (m_txs m1 !! h = None) as Hnew1.
  { destruct (m_txs m1 !! h) as [e1|] eqn:E1; [|done]. apply O2 in E1. congruence. }
  destruct ok; cbn [negb].
  2:{ exists (inl InsufficientPriority), m1. split_and!; [done..|]. destruct O5 as (x & ex & Hx & Hd).
      split; [done|split; [done|]]. by exists x, ex. }
  pose proof (ok_count _ O1) as Hc1. pose proof (ok_count_bound _ O1) as Hcb1.
  assert (with_count (wrapping_sub64 (wrapping_add64 (m_count m1) 1) 1)
    (with_count (wrapping_add64 (m_count m1) 1) m1) = m1) as Hundo.
  { rewrite (add_exact (m_count m1) 1) by lia. rewrite sub_one by lia. by destruct m1. }
  cbn [m_count m_total_bytes with_count].
  destruct (Z.leb_spec (max_transactions (m_config m1)) (m_count m1)) as [Hfull|Hfull].
  { rewrite Hundo. exists (inl (Full (max_transactions (m_config m1)))), m1. split_and!; [done..|].
    destruct O5 as [Hn|He]; [apply needs_eviction_false in Hn; lia|].
    destruct (empty_totals m1 O1 He) as (E0 & _). unfold add_outcome. rewrite <- O3. split_and!; [done..|lia|done]. }
  destruct (capacity_fits h tx sz fee mem steps ref m1 O1) as [Hfits Hw];
    [by rewrite O3|done|by destruct O5; auto|done|].
  destruct (totals_nonneg m1 O1) as (P1 & _). destruct (ok_bounds _ O1) as (B1 & _).
  pose proof (ew_size _ _ Hwf) as Hs. cbn [me_size] in Hs.
  rewrite add_exact by lia.
  destruct (Z.ltb_spec (max_bytes (m_config m1)) (m_total_bytes m1 + sz)) as [Hbig|Hbig].
  { rewrite Hundo. exists (inl (TooLarge sz)), m1. split_and!; [done..|].
    destruct Hw as [He|(Hw & _)]; [|lia]. destruct (empty_totals m1 O1 He) as (_ & E0 & _).
    unfold add_outcome. rewrite <- O3. split_and!; [done..|lia]. }
  assert (∀ i, i ∈ tx_inputs tx → m_claimed m1 !! i = None) as Hfree1.
  { intros i Hi. destruct (m_claimed m1 !! i) as [c|] eqn:Ec; [|done].
    apply (ok_claimed _ O1) in Ec as (ec & Hec%O2 & Hin).
    assert (m_claimed m !! i = Some c) as Hc by (apply (ok_claimed _ Hok); by exists ec).
    by rewrite Hfree in Hc. }
  pose proof (admit_eq h tx sz fee mem steps ref m1 O1 Hfree1 Hwf Hfits) as Ha.
  destruct (link_parents _ _ _ _) as [[d|] dep] eqn:El; rewrite Ha; clear Ha.
  { exists (inl (VirtualChainTooDeep d VIRTUAL_CHAIN_MAX_DEPTH)), (with_dependents dep m1).
    split_and!; [done|by apply (mp_ok_visible m1)|done|]. split; [done|split; [done|]].
    by eapply link_parents_deep. }
  exists (inr TxAdded), (admitted h tx sz fee mem steps ref m1 dep). split; [done|].
  split; [apply admitted_ok; try done; lia|]. by apply admitted_outcome.
Qed.

(** ** Batches *)

Lemma remove_edges h reason m x y :
  mp_ok m → is_Some (m_txs m !! h) →
  edge (m_dependents (remove_tx_inner h true reason m).2) x y ↔
    ¬ gone m h reason x ∧ edge (m_dependents m) x y.
Proof.
  intros Hok [e He]. destruct (remove_inner_eq h reason m e Hok He) as [_ ->].
  pose proof (bfs_spec (m_dependents m) h) as [_ Hd]. fold (descendants m h) in Hd.
  unfold gone, edge. destruct (decide (reason = Mined)) as [->|Hr].
  - cbn [m_dependents with_dependents]. destruct (decide (x = h)) as [->|Hne].
    + rewrite lookup_delete_eq. set_solver.
    + rewrite lookup_delete_ne by done. naive_solver.
  - rewrite (proj1 (proj2 (compact_fields _))), (proj1 (proj2 (remove_all_fields _ _ _))).
    cbn [m_dependents with_dependents]. rewrite Hd. case_decide as Hx.
    + cbn [default]. split; [by intros ?%elem_of_nil|]. tauto.
    + tauto.
Qed.

Lemma gone_rtc h reason m x :
  reason ≠ Mined → gone m h reason x ↔ rtc (edge (m_dependents m)) h x.
Proof.
  intros Hr. unfold gone. destruct (bfs_spec (m_dependents m) h) as [Hd _].
  fold (descendants m h) in Hd. rewrite Hd. split.
  - intros [->|[_ ?]]; [done|by apply tc_rtc].
  - intros Hx. apply rtc_tc in Hx as [->|?]; auto.
Qed.

(** Off the removed part, reachability is as before. *)
Lemma rtc_off (R R' : Hash32 → Hash32 → Prop) (P : Hash32 → Prop) a x :
  (∀ u v, R' u v ↔ ¬ P u ∧ R u v) → (∀ u v, P u → R u v → P v) → ¬ P x →
  rtc R' a x ↔ rtc R a x.
Proof.
  intros Hr Hup Hx. split.
  - apply rtc_subrel. intros u v [_ ?]%Hr. done.
  - intros H. revert Hx. induction H as [y|u v w Huv Hvw IH]; intros Hx; [done|].
    eapply rtc_l; [|by apply IH]. apply Hr. split; [|done]. intros Hu.
    apply Hx. clear IH. assert (P v) as Hv by (by eapply Hup). clear Huv Hu u.
    induction Hvw as [|u v w Huv _ IH]; [done|]. apply IH; [done|]. by eapply Hup.
Qed.

Lemma batch_spec hs reason m x e :
  mp_ok m → reason ≠ Mined →
  m_txs (remove_txs_with_reason hs reason m) !! x = Some e ↔
    m_txs m !! x = Some e ∧
    ∀ h, h ∈ hs → is_Some (m_txs m !! h) → ¬ rtc (edge (m_dependents m)) h x.
Proof.
  intros Hok Hr. unfold remove_txs_with_reason. revert m Hok.
  induction hs as [|h hs IH]; intros m Hok; cbn [foldl]; [set_solver|].
  unfold remove_tx_with_reason. destruct (decide (is_Some (m_txs m !! h))) as [Hh|Hh].
  2:{ assert (m_txs m !! h = None) as Hn by (by apply eq_None_not_Some).
      rewrite remove_inner_missing by done. cbn [snd]. rewrite IH by done.
      setoid_rewrite elem_of_cons. naive_solver. }
  rewrite IH by (by apply remove_inner_ok). rewrite remove_inner_txs by done.
  set (m1 := (remove_tx_inner h true reason m).2).
  assert (∀ y, gone m h reason y ↔ rtc (edge (m_dependents m)) h y) as Hg by (intros; by apply gone_rtc).
  assert (∀ y, ¬ gone m h reason y → ∀ a, rtc (edge (m_dependents m1)) a y ↔ rtc (edge (m_dependents m)) a y) as Ho.
  { intros y Hy a. apply (rtc_off _ _ (gone m h reason)); [|..|done].
    - intros u v. by apply remove_edges.
    - intros u v. rewrite !Hg. intros. by eapply rtc_r. }
  setoid_rewrite elem_of_cons. destruct (decide (gone m h reason x)) as [Hx|Hx].
  { split; [naive_solver|]. intros [_ Hn]. exfalso. apply (Hn h); [by left|done|by apply Hg]. }
  split; intros [He Hn]; (split; [done|]).
  - intros h' [->|Hin] Hh'; [by rewrite <- Hg|]. rewrite <- (Ho x Hx).
    intros Hrt. apply (Hn h'); [done| |done]. unfold m1. rewrite remove_inner_txs by done.
    rewrite decide_False; [done|]. intros Hg'. apply Hx. apply Hg. etrans; [by apply Hg|].
    by apply (Ho x Hx).
  - intros h' Hin Hh'. rewrite (Ho x Hx). apply Hn; [by right|].
    unfold m1 in Hh'. rewrite remove_inner_txs in Hh' by done. by case_decide; [destruct Hh'|].
Qed.

Lemma remove_txs_ok hs reason m : mp_ok m → mp_ok (remove_txs_with_reason hs reason m).
Proof.
  unfold remove_txs_with_reason. revert m. induction hs as [|h hs IH]; intros m Hok; [done|].
  cbn [foldl]. by apply IH, remove_inner_ok.
Qed.

Lemma elem_of_matching f m h :
  mp_ok m → h ∈ matching f m ↔ ∃ e, m_txs m !! h = Some e ∧ f e = true.
Proof.
  intros Hok. unfold matching. rewrite list_elem_of_fmap. split.
  - intros (e & -> & [Hf He]%list_elem_of_filter). apply list_elem_of_fmap in He as ([h' e'] & -> & He').
    apply elem_of_map_to_list in He'. cbn [snd] in *. exists e'. by rewrite (ew_hash _ _ (ok_entries _ Hok _ _ He')).
  - intros (e & He & Hf). exists e. split; [symmetry; by apply (ok_entries _ Hok)|].
    apply list_elem_of_filter. split; [done|]. apply list_elem_of_fmap. exists (h, e).
    by rewrite elem_of_map_to_list.
Qed.

(** ** Draining *)

Lemma drain_spec hs txs m :
  let r := foldl drain_one (txs, m) hs in
  (∀ x, m_txs r.2 !! x = if decide (x ∈ hs) then None else m_txs m !! x) ∧ m_config r.2 = m_config m.
Proof.
  revert txs m. induction hs as [|h hs IH]; intros txs m; cbn [foldl].
  { split; [|done]. intros x. by rewrite decide_False by apply not_elem_of_nil. }
  assert (∃ txs' m', drain_one (txs, m) h = (txs', m') ∧ m_txs m' = delete h (m_txs m) ∧
    m_config m' = m_config m) as (txs' & m' & -> & Ht & Hc).
  { unfold drain_one. destruct (m_txs m !! h) eqn:E; [by eexists _, _|].
    exists txs, m. by rewrite delete_id. }
  destruct (IH txs' m') as [IH1 IH2]. split; [|by rewrite IH2]. intros x. rewrite IH1, Ht.
  destruct (decide (x = h)) as [->|Hne].
  - rewrite lookup_delete_eq, (decide_True (P := h ∈ h :: hs)) by left. by case_decide.
  - rewrite lookup_delete_ne by done. apply decide_ext. rewrite elem_of_cons. naive_solver.
Qed.

Lemma drain_all_empty m :
  mp_ok m → m_txs (drain_all m).2 = ∅ ∧ m_config (drain_all m).2 = m_config m.
Proof.
  intros Hok. unfold drain_all. destruct (drain_spec (m_order m) [] m) as [Ht Hc].
  destruct (foldl drain_one _ _) as [txs m']. cbn [snd m_txs m_config reset_indexes] in *.
  split; [|done]. apply map_eq. intros x. rewrite Ht, lookup_empty. case_decide as Hx; [done|].
  apply eq_None_not_Some. intros Hs. by apply Hx, (ok_order _ Hok).
Qed.

Lemma drain_all_ok m : mp_ok m → mp_ok (drain_all m).2.
Proof.
  intros Hok. destruct (drain_all_empty m Hok) as [Ht _].
  apply (mp_ok_visible (mempool_new (m_config m))); [|apply mp_ok_new].
  unfold drain_all in *. destruct (foldl drain_one _ _) as [txs m']. cbn [snd] in *.
  unfold visible. cbn [m_txs reset_indexes] in *. by rewrite Ht.
Qed.

(** ** The dependency graph *)

(** Every pending transaction that spends an output of another pending one is
    recorded under it. *)
Definition parents_linked m : Prop :=
  ∀ x e i, m_txs m !! x = Some e → i ∈ tx_inputs (me_tx e) → is_Some (m_virtual m !! i) →
    transaction_id i ≠ x → edge (m_dependents m) (transaction_id i) x.

Lemma virtual_pending m i :
  mp_ok m → is_Some (m_virtual m !! i) → is_Some (m_txs m !! transaction_id i).
Proof. intros Hok [o Ho]. apply (ok_virtual _ Hok) in Ho as (e & n & He & _). by eexists. Qed.

(** The outputs of a transaction that stays pending stay spendable. *)
Lemma virtual_keep m m' i o :
  mp_ok m → mp_ok m' → m_virtual m !! i = Some o →
  m_txs m' !! transaction_id i = m_txs m !! transaction_id i → m_virtual m' !! i = Some o.
Proof.
  intros Hok Hok' Ho E. apply (ok_virtual _ Hok) in Ho as (e & n & He & Ho & Hi).
  apply (ok_virtual _ Hok'). exists e, n. by rewrite E.
Qed.

Lemma virtual_back m m' i o :
  mp_ok m → mp_ok m' → m_virtual m' !! i = Some o →
  (∀ x e, m_txs m' !! x = Some e → m_txs m !! x = Some e) → m_virtual m !! i = Some o.
Proof.
  intros Hok Hok' Ho Hsub. apply (ok_virtual _ Hok') in Ho as (e & n & He & Ho & Hi).
  apply (ok_virtual _ Hok). exists e, n. auto.
Qed.

Lemma remove_inner_sub h reason m x e :
  mp_ok m → m_txs (remove_tx_inner h true reason m).2 !! x = Some e → m_txs m !! x = Some e.
Proof.
  intros Hok. destruct (m_txs m !! h) as [eh|] eqn:Hh; [|by rewrite remove_inner_missing].
  rewrite remove_inner_txs by (done || by eexists). by case_decide.
Qed.

Lemma remove_linked h reason m :
  mp_ok m → parents_linked m → parents_linked (remove_tx_inner h true reason m).2.
Proof.
  intros Hok Hp. destruct (m_txs m !! h) as [eh|] eqn:Hh; [|by rewrite remove_inner_missing].
  assert (is_Some (m_txs m !! h)) as Hs by (by eexists).
  pose proof (remove_inner_ok h reason m Hok) as Hok'. intros x e i He Hi Hv Hne.
  apply remove_edges; [done..|]. pose proof (virtual_pending _ i Hok' Hv) as [ep Hep].
  rewrite remove_inner_txs in Hep by done. case_decide as Hg; [done|]. split; [done|].
  destruct Hv as [o Ho]. eapply Hp; [by eapply remove_inner_sub|done| |done].
  exists o. eapply virtual_back; [done|exact Hok'|done|]. intros. by eapply remove_inner_sub.
Qed.

Lemma remove_txs_linked hs reason m :
  mp_ok m → parents_linked m → parents_linked (remove_txs_with_reason hs reason m).
Proof.
  unfold remove_txs_with_reason. revert m. induction hs as [|h hs IH]; intros m Hok Hp; [done|].
  cbn [foldl]. apply IH; [by apply remove_inner_ok|by apply remove_linked].
Qed.

Lemma capacity_linked fuel sz fee mem steps ref m ok m' :
  mp_ok m → parents_linked m → capacity_loop fuel sz fee mem steps ref m = Some (ok, m') →
  parents_linked m'.
Proof.
  revert m. induction fuel as [|fuel IH]; intros m Hok Hp; simpl.
  all: destruct (negb _); [by intros [= <- <-]|].
  all: destruct (last _) as [w|]; [|by intros [= <- <-]].
  all: destruct (fee * k_size w <=? _); [by intros [= <- <-]|].
  - done.
  - apply IH; [by apply remove_inner_ok|by apply remove_linked].
Qed.

Lemma link_parents_spec (v : gmap TransactionInput O) (h : Hash32) (X : list TransactionInput)
    (dep : Graph) :
  (∀ p c, edge dep p c → edge (link_parents v h X dep).2 p c) ∧
  ((link_parents v h X dep).1 = None → ∀ i, i ∈ X → is_Some (v !! i) → transaction_id i ≠ h →
    edge (link_parents v h X dep).2 (transaction_id i) h).
Proof.
  revert dep. induction X as [|j X IH]; intros dep; cbn [link_parents].
  { split; [done|]. intros _ i ?%elem_of_nil. done. }
  destruct (bool_decide (is_Some (v !! j)) && bool_decide (transaction_id j ≠ h)) eqn:E.
  - destruct (depth_loop _ _ _ _) as [d|]; [by split|]. set (dep1 := <[_ := _]> dep).
    destruct (IH dep1) as [IH1 IH2].
    assert (∀ p c, edge dep p c → edge dep1 p c) as Hmono.
    { intros p c. unfold edge, dep1. destruct (decide (p = transaction_id j)) as [->|Hne].
      - rewrite lookup_insert_eq. cbn [default]. set_solver.
      - by rewrite lookup_insert_ne. }
    split; [auto|]. intros Hn i [->|Hi]%elem_of_cons Hv Hne; [|by apply IH2].
    apply IH1. unfold edge, dep1. rewrite lookup_insert_eq. cbn [default]. set_solver.
  - destruct (IH dep) as [IH1 IH2]. split; [done|].
    intros Hn i [->|Hi]%elem_of_cons Hv Hne; [|by apply IH2]. exfalso.
    apply andb_false_iff in E as [E|E]; apply bool_decide_eq_false in E; done.
Qed.

Lemma admit_linked h tx sz fee mem steps ref c m r m' :
  mp_ok m → m_txs m !! h = None → parents_linked m → mp_ok m' →
  (∀ x e i, m_txs m !! x = Some e → i ∈ tx_inputs (me_tx e) → transaction_id i ≠ h) →
  admission h tx sz fee mem steps ref (with_count c m) = (r, m') → parents_linked m'.
Proof.
  intros Hok Hnew Hp Hok' Hfirst. unfold admission. cbn [m_virtual m_dependents with_claimed with_count].
  destruct (link_parents_spec (m_virtual m) h (tx_inputs tx) (m_dependents m)) as [L1 L2].
  destruct (link_parents _ _ _ _) as [[d|] dep]; cbn [fst snd] in *.
  { intros [= _ <-]. intros x e i He Hi Hv Hne. apply L1. by eapply Hp. }
  set (m4 := with_txs _ _). intros E%(f_equal snd). cbn [snd] in E.
  assert (m_txs m' = <[h := mkEntry tx h sz fee mem steps ref]> (m_txs m) ∧ m_dependents m' = dep) as [Ht Hd].
  { destruct (push_order_rest h m4) as (P1 & _ & _ & _ & _ & _ & _ & _ & _ & _ & P11 & _).
    rewrite <- E. cbn [m_txs m_dependents publish with_totals]. by rewrite P1, P11. }
  clear E. intros x e i. rewrite Ht, Hd. intros He Hi [o Ho] Hne.
  assert (transaction_id i ≠ h → is_Some (m_virtual m !! i)) as Hold.
  { intros Hn. apply (ok_virtual _ Hok') in Ho as (ep & n & Hep & Hon & Hin).
    rewrite Ht, lookup_insert_ne in Hep by done. exists o. apply (ok_virtual _ Hok). by exists ep, n. }
  destruct (decide (x = h)) as [->|Hx].
  - rewrite lookup_insert_eq in He. simplify_eq. apply L2; auto.
  - rewrite lookup_insert_ne in He by done. apply L1, (Hp x e i); try done.
    apply Hold. by eapply Hfirst.
Qed.

(** ** Calls *)

(** A call of a mutating method, with what the callers guarantee: sizes within
    range, room in the order queue, and parents submitted before children. *)
Inductive mp_step : Mempool O → Mempool O → Prop :=
| ms_add m h tx sz fee mem steps ref r m' :
    entry_wf h (mkEntry tx h sz fee mem steps ref) →
    Z.of_nat (length (m_order m)) < ORDER_DEQUE_MAX →
    (∀ x e i, m_txs m !! x = Some e → i ∈ tx_inputs (me_tx e) → transaction_id i ≠ h) →
    add_tx_inner h tx sz fee mem steps ref m = Some (r, m') → mp_step m m'
| ms_remove m hs reason : mp_step m (remove_txs_with_reason hs reason m)
| ms_expire m slot : mp_step m (evict_expired slot m).2
| ms_conflicts m inputs : mp_step m (revalidate_against_inputs inputs m).2
| ms_revalidate m (V : Type) (f : Transaction O → V → bool * V) v :
    mp_step m (revalidate_all f v m).2
| ms_capacity m a b c :
    0 ≤ a < 2 ^ 62 → 0 ≤ b < 2 ^ 62 → 0 ≤ c < 2 ^ 62 → mp_step m (update_capacity_from_params a b c m)
| ms_drain m : mp_step m (drain_all m).2
| ms_clear m : mp_step m (mp_clear m).

Record mp_inv m : Prop := {
  inv_ok : mp_ok m;
  inv_limits : limits_wf (m_config m);
  inv_linked : parents_linked m;
}.

Lemma remove_inner_inv h reason m : mp_inv m → mp_inv (remove_tx_inner h true reason m).2.
Proof.
  intros [Hok Hl Hp]. split; [by apply remove_inner_ok| |by apply remove_linked].
  by rewrite remove_inner_config.
Qed.

Lemma remove_txs_inv hs reason m : mp_inv m → mp_inv (remove_txs_with_reason hs reason m).
Proof.
  unfold remove_txs_with_reason. revert m. induction hs as [|h hs IH]; intros m Hi; [done|].
  cbn [foldl]. by apply IH, remove_inner_inv.
Qed.

Lemma compact_inv m : mp_inv m → mp_inv (maybe_compact_order m).
Proof.
  intros [Hok Hl Hp]. destruct (compact_fields m) as (E1 & E2 & E3 & _).
  split; [by apply compact_ok|by rewrite E3|]. unfold parents_linked. rewrite E1, E2.
  assert (m_virtual (maybe_compact_order m) = m_virtual m) as ->; [|done].
  unfold maybe_compact_order. by case_match.
Qed.

Lemma empty_inv m : m_txs m = ∅ → mp_ok m → limits_wf (m_config m) → mp_inv m.
Proof. intros He Hok Hl. split; [done..|]. intros x e i. by rewrite He, lookup_empty. Qed.

Lemma add_inv h tx sz fee mem steps ref m r m' :
  mp_inv m → entry_wf h (mkEntry tx h sz fee mem steps ref) →
  Z.of_nat (length (m_order m)) < ORDER_DEQUE_MAX →
  (∀ x e i, m_txs m !! x = Some e → i ∈ tx_inputs (me_tx e) → transaction_id i ≠ h) →
  add_tx_inner h tx sz fee mem steps ref m = Some (r, m') → mp_inv m'.
Proof.
  intros [Hok Hl Hp] Hwf Hlen Hfirst E.
  destruct (add_tx_inner_spec h tx sz fee mem steps ref m Hok Hl Hwf Hlen)
    as (r0 & m0 & E0 & Hok' & Hc & Hout).
  rewrite E in E0. simplify_eq. split; [done|by rewrite Hc|]. revert E. unfold add_tx_inner.
  case_bool_decide as Hex; [by intros [= _ <-]|].
  assert (m_txs m !! h = None) as Hnew by (by apply eq_None_not_Some).
  destruct (claimed_by m (tx_inputs tx)) as [c|] eqn:Hcl; [by intros [= _ <-]|].
  destruct (capacity_loop_spec (length (m_fee_index m)) sz fee mem steps ref m) as (ok & m1 & E1 & Hev);
    [done|apply Hwf|by apply index_size|].
  pose proof (capacity_linked _ _ _ _ _ _ _ _ _ Hok Hp E1) as Hp1.
  unfold ensure_capacity. rewrite E1. cbn [mbind option_bind].
  destruct ok; cbn [negb]; [|by intros [= _ <-]]. destruct Hev as [O1 O2 O3 O4 O5].
  cbn [m_count m_total_bytes with_count]. case_match; [by intros [= _ <-]|].
  case_match; [by intros [= _ <-]|]. intros Ha. apply (inj Some) in Ha.
  eapply (admit_linked h tx sz fee mem steps ref _ m1); [done| |done|done| |done].
  - destruct (m_txs m1 !! h) as [e1|] eqn:E2; [|done]. apply O2 in E2. congruence.
  - intros x e i Hx%O2. by apply (Hfirst x e i).
Qed.

Lemma revalidate_inv {V} (f : Transaction O → V → bool * V) hs acc :
  mp_inv acc.2 → mp_inv (foldl (revalidate_one f) acc hs).2.
Proof.
  revert acc. induction hs as [|h hs IH]; intros acc Hi; [done|]. cbn [foldl]. apply IH.
  destruct acc as [[removed v] m]. unfold revalidate_one. cbn [snd] in *.
  destruct (m_txs m !! h); [|done]. destruct (f _ v) as [[] v']; [done|]. by apply remove_inner_inv.
Qed.

Lemma mp_step_inv m m' : mp_step m m' → mp_inv m → mp_inv m'.
Proof.
  destruct 1 as [m h tx sz fee mem steps ref r m' Hwf Hlen Hfirst E|m hs reason|m slot|m inputs|m V f v
    |m a b c Ha Hb Hc|m|m]; intros Hi.
  - by eapply add_inv.
  - by apply remove_txs_inv.
  - unfold evict_expired. cbn [snd]. case_match; [apply compact_inv|]; by apply remove_txs_inv.
  - by apply remove_txs_inv.
  - by apply revalidate_inv.
  - destruct Hi as [Hok (L1 & L2 & L3 & L4 & L5) Hp]. split; [by apply (mp_ok_visible m)| |done].
    unfold limits_wf, update_capacity_from_params, saturating_mul64, u64_max. simpl. lia.
  - destruct Hi as [Hok Hl Hp]. destruct (drain_all_empty m Hok) as [He Hc].
    apply empty_inv; [done|by apply drain_all_ok|by rewrite Hc].
  - destruct Hi as [Hok Hl Hp]. apply empty_inv; [done| |done].
    apply (mp_ok_visible (mempool_new (m_config m))); [done|apply mp_ok_new].
Qed.

Lemma mp_new_inv config : limits_wf config → mp_inv (mempool_new config).
Proof. intros Hl. apply empty_inv; [done|apply mp_ok_new|done]. Qed.

Lemma mp_reachable_inv config m :
  limits_wf config → rtc mp_step (mempool_new config) m → mp_inv m.
Proof.
  intros Hl Hs. assert (mp_inv (mempool_new config)) as H0 by (by apply mp_new_inv). revert H0.
  induction Hs as [|x y z Hxy _ IH]; [done|]. intros Hx. apply IH. by eapply mp_step_inv.
Qed.

End steps.
