(* ===== verification/MempoolTheorems.v ===== *)
(** * Correctness of the mempool

    The invariant of every run, the outcome of a submission, what batches
    remove and what stays resolvable, and the selection for a block. *)

From S2P Require Import Prelude Order EraHistory Block ChainFragment Mempool MempoolInv MempoolSteps.
Local Open Scope Z_scope.

Section theorems.
Context {O : Type}.
Implicit Types (m : Mempool O) (e : MempoolEntry O) (tx : Transaction O).

(** ** Runs *)

(** C35: After any sequence of submissions, removals for any reason, expiry
    sweeps, revalidations, capacity updates, drains and clears (with sizes and
    limits below 2^63, parents submitted before their children and the order
    queue below its cap), the count and the four totals are exactly those of
    the pending transactions, the fee index is sorted and lists exactly their
    keys, an input is claimed by a transaction exactly when that pending
    transaction spends it (so no two spend the same input), the virtual UTxO
    holds exactly their outputs, each is listed in the insertion order, and
    every spent virtual output has its edge in the dependency graph. *)
Theorem mempool_reachable config m :
  limits_wf config → rtc mp_step (mempool_new config) m →
  m_count m = Z.of_nat (size (m_txs m)) ∧
  m_total_bytes m = esum me_size (m_txs m) ∧ m_total_mem m = esum me_mem (m_txs m) ∧
  m_total_steps m = esum me_steps (m_txs m) ∧ m_total_ref m = esum me_ref (m_txs m) ∧
  index_sorted (m_fee_index m) ∧
  (∀ k, k ∈ m_fee_index m ↔ ∃ h e, m_txs m !! h = Some e ∧ k = fee_key (me_fee e) (me_size e) h) ∧
  (∀ i h, m_claimed m !! i = Some h ↔ ∃ tx, get_tx m h = Some tx ∧ i ∈ tx_inputs tx) ∧
  (∀ i o, lookup_virtual_utxo m i = Some o ↔
     ∃ tx n, get_tx m (transaction_id i) = Some tx ∧ tx_outputs tx !! n = Some o ∧ tx_index i = Z.of_nat n) ∧
  (∀ h, mp_contains m h = true → h ∈ tx_hashes_ordered m) ∧
  (∀ x tx i, get_tx m x = Some tx → i ∈ tx_inputs tx → is_Some (lookup_virtual_utxo m i) →
     transaction_id i ≠ x → edge (m_dependents m) (transaction_id i) x).
Proof.
  intros Hl Hs. destruct (mp_reachable_inv config m Hl Hs) as [Hok _ Hp].
  assert (∀ h tx, get_tx m h = Some tx ↔ ∃ e, m_txs m !! h = Some e ∧ me_tx e = tx) as Hg.
  { intros h tx. unfold get_tx. rewrite fmap_Some. naive_solver. }
  split_and!; try apply Hok.
  - intros i h. rewrite (ok_claimed _ Hok). setoid_rewrite Hg. naive_solver.
  - intros i o. unfold lookup_virtual_utxo. rewrite (ok_virtual _ Hok). setoid_rewrite Hg. naive_solver.
  - intros h Hh. apply bool_decide_eq_true in Hh. apply (ok_order _ Hok) in Hh as [? ?].
    by apply list_elem_of_filter.
  - intros x tx i (e & He & <-)%Hg. by apply (Hp x e i).
Qed.

(** C36: On a mempool with its invariant whose order queue is below its cap
    (at the cap a pending transaction can lose its slot, finding lib.rs:603), a
    submission terminates with one of the answers of the interface and keeps the
    counts, totals, indexes, claims, virtual outputs and slots exact; if no
    pending transaction names the new one as a parent (parents are submitted
    before their children), it also keeps every dependency edge, that of the new
    transaction under each pending parent included. A duplicate or a conflict
    changes nothing, and a conflict names a pending transaction that spends the
    same input. A successful submission adds the transaction to what eviction
    left, within the count and byte limits and, unless it ends up alone, within
    every limit. A refusal for low fee leaves a transaction of at least the same
    fee density; a refusal for size happens only when the transaction alone
    exceeds the byte limit, and then nothing is left pending. *)
Theorem add_tx_correct h tx sz fee mem steps ref m :
  mp_inv m → entry_wf h (mkEntry tx h sz fee mem steps ref) →
  Z.of_nat (length (m_order m)) < ORDER_DEQUE_MAX →
  ∃ r m', add_tx_inner h tx sz fee mem steps ref m = Some (r, m') ∧ mp_ok m' ∧
    ((∀ x e i, m_txs m !! x = Some e → i ∈ tx_inputs (me_tx e) → transaction_id i ≠ h) → mp_inv m') ∧
    add_outcome h tx sz fee mem steps ref m r m'.
Proof.
  intros Hi Hwf Hlen.
  destruct (add_tx_inner_spec h tx sz fee mem steps ref m (inv_ok _ Hi) (inv_limits _ Hi) Hwf Hlen)
    as (r & m' & E & Hok & _ & Hout).
  exists r, m'. split_and!; try done. intros Hfirst. by eapply add_inv.
Qed.

(** ** Sweeps *)

(** The expiry sweep keeps exactly the transactions that are not expired at
    the slot and do not descend from an expired one in the dependency graph;
    in particular no expired transaction is left, and its answer counts the
    expired ones. *)
Theorem evict_expired_exact slot m :
  mp_inv m →
  (∀ x e, m_txs (evict_expired slot m).2 !! x = Some e ↔
     m_txs m !! x = Some e ∧
     ∀ h eh, m_txs m !! h = Some eh → is_expired slot eh = true →
       ¬ rtc (edge (m_dependents m)) h x) ∧
  (∀ x e, m_txs (evict_expired slot m).2 !! x = Some e → is_expired slot e = false).
Proof.
  intros [Hok _ _].
  assert (∀ x e, m_txs (evict_expired slot m).2 !! x = Some e ↔
     m_txs m !! x = Some e ∧
     ∀ h eh, m_txs m !! h = Some eh → is_expired slot eh = true →
       ¬ rtc (edge (m_dependents m)) h x) as Hex.
  { intros x e. unfold evict_expired. cbn [snd].
    transitivity (m_txs (remove_txs_with_reason (matching (is_expired slot) m) Evicted m) !! x = Some e).
    { case_match; [|done]. by rewrite (proj1 (compact_fields _)). }
    rewrite batch_spec by done. apply and_iff_compat_l. split.
    - intros Hn h eh Hh Hx. apply Hn; [|by eexists]. apply elem_of_matching; [done|]. by exists eh.
    - intros Hn h (eh & Hh & Hx)%elem_of_matching _; [|done]. by eapply Hn. }
  split; [done|]. intros x e [He Hn]%Hex. destruct (is_expired slot e) eqn:E; [|done].
  exfalso. by apply (Hn x e).
Qed.

(** After a block, [revalidate_against_inputs] keeps exactly the
    transactions that spend none of the consumed inputs and do not descend from
    one that does, and returns exactly the conflicting ones. *)
Theorem revalidate_inputs_exact consumed m :
  mp_inv m →
  let '(gone, m') := revalidate_against_inputs consumed m in
  (∀ h, h ∈ gone ↔ ∃ e i, m_txs m !! h = Some e ∧ i ∈ tx_inputs (me_tx e) ∧ i ∈ consumed) ∧
  (∀ x e, m_txs m' !! x = Some e ↔
     m_txs m !! x = Some e ∧ ∀ h, h ∈ gone → ¬ rtc (edge (m_dependents m)) h x) ∧
  (∀ x e i, m_txs m' !! x = Some e → i ∈ tx_inputs (me_tx e) → i ∉ consumed).
Proof.
  intros [Hok _ _]. unfold revalidate_against_inputs. set (f := λ e, existsb _ _).
  assert (∀ e, f e = true ↔ ∃ i, i ∈ tx_inputs (me_tx e) ∧ i ∈ consumed) as Hf.
  { intros e. unfold f. rewrite existsb_exists. setoid_rewrite <- list_elem_of_In.
    by setoid_rewrite bool_decide_eq_true. }
  assert (∀ h, h ∈ matching f m ↔ ∃ e i, m_txs m !! h = Some e ∧ i ∈ tx_inputs (me_tx e) ∧ i ∈ consumed) as Hm.
  { intros h. rewrite elem_of_matching by done. setoid_rewrite Hf. naive_solver. }
  assert (∀ x e, m_txs (remove_txs_with_reason (matching f m) Evicted m) !! x = Some e ↔
    m_txs m !! x = Some e ∧ ∀ h, h ∈ matching f m → ¬ rtc (edge (m_dependents m)) h x) as Hx.
  { intros x e. rewrite batch_spec by done. apply and_iff_compat_l. split; [|auto].
    intros Hn h Hh. apply Hn; [done|]. apply elem_of_matching in Hh as (? & ? & _); [by eexists|done]. }
  split_and!; [done..|]. intros x e i [He Hn]%Hx Hi Hc. apply (Hn x); [|done]. apply Hm. by exists e, i.
Qed.

(** C37: On a mempool in order, removing a transaction that was not mined
    leaves no dangling spender among those that the dependency graph knows:
    every input of a remaining transaction that resolved to an output of a
    pending transaction still resolves to the same output, if that spender is
    recorded under that parent. This is so for every input when all pending
    spenders are recorded ([parents_linked]), which every operation keeps as
    long as parents are submitted before their children (mempool_reachable). A
    transaction that evicted its own parent on admission and sees it come back
    is not recorded and can dangle (finding lib.rs:644, [unlinked_child_dangles]). *)
Theorem eviction_no_dangling h reason m :
  mp_ok m → reason ≠ Mined →
  ∀ x tx i o, get_tx (remove_tx_with_reason h reason m).2 x = Some tx → i ∈ tx_inputs tx →
    lookup_virtual_utxo m i = Some o →
    (parents_linked m ∨ edge (m_dependents m) (transaction_id i) x) →
    lookup_virtual_utxo (remove_tx_with_reason h reason m).2 i = Some o.
Proof.
  intros Hok Hr x tx i o Hx Hi Ho Hp. unfold remove_tx_with_reason, lookup_virtual_utxo, get_tx in *.
  destruct (m_txs m !! h) as [eh|] eqn:Hh; [|by rewrite remove_inner_missing in *].
  apply fmap_Some in Hx as (e & He & ->).
  assert (is_Some (m_txs m !! h)) as Hs by (by eexists).
  eapply virtual_keep; [exact Hok|by apply remove_inner_ok|done|]. rewrite remove_inner_txs in He |- * by done.
  destruct (decide (gone m h reason x)) as [|Hx]; [done|]. rewrite decide_False; [done|].
  rewrite gone_rtc in Hx |- * by done. intros Hg. apply Hx.
  destruct (decide (transaction_id i = x)) as [<-|Hne]; [done|].
  eapply rtc_r; [done|]. destruct Hp as [Hp|Hp]; [|done]. by eapply Hp.
Qed.

(** ** Blocks *)

(** Each hash at its first place in the queue. *)
Fixpoint first_slots (l : list Hash32) : list Hash32 :=
  match l with
  | [] => []
  | h :: l => h :: filter (λ x, x ≠ h) (first_slots l)
  end.

(** The pending transaction of a slot, unless it is expired at the forge slot. *)
Definition forgeable m (forge_slot : option Z) (h : Hash32) : option (MempoolEntry O) :=
  e ← m_txs m !! h;
  if match forge_slot with Some slot => is_expired slot e | None => false end then None else Some e.

(** Reference: the pending transactions that are not expired at the forge slot,
    each at its first live slot of the order queue. This is the order of arrival
    for transactions that were submitted once. A transaction that was removed
    and submitted again while its old slot was still queued takes the old
    place. *)
Definition eligible m (forge_slot : option Z) : list (MempoolEntry O) :=
  omap (forgeable m forge_slot) (first_slots (tx_hashes_ordered m)).

Lemma elem_of_first_slots l h : h ∈ first_slots l ↔ h ∈ l.
Proof.
  induction l as [|x l IH]; [done|]. cbn. rewrite !elem_of_cons, list_elem_of_filter, IH.
  destruct (decide (h = x)); tauto.
Qed.

Lemma first_slots_NoDup l : NoDup (first_slots l).
Proof.
  induction l as [|x l IH]; cbn; constructor.
  - rewrite list_elem_of_filter. tauto.
  - by apply NoDup_filter.
Qed.

Lemma elem_of_eligible m slot e :
  e ∈ eligible m slot ↔ ∃ h, m_txs m !! h = Some e ∧ h ∈ tx_hashes_ordered m ∧
    ∀ s, slot = Some s → is_expired s e = false.
Proof.
  unfold eligible, forgeable. rewrite list_elem_of_omap. setoid_rewrite elem_of_first_slots.
  split; intros (h & H).
  - destruct H as [Hh He]. exists h. destruct (m_txs m !! h) as [e'|]; [|done]. cbn in He.
    destruct slot as [s|]; [destruct (is_expired s e') eqn:Ex; [done|]|]; simplify_eq; naive_solver.
  - destruct H as (He & Hh & Hx). exists h. split; [done|]. rewrite He. cbn.
    destruct slot as [s|]; [by rewrite (Hx s)|done].
Qed.

(** What the selection loop walks over, from a place in the queue on. *)
Fixpoint walk m (forge_slot : option Z) (order : list Hash32) (seen : gset Hash32) : list (MempoolEntry O) :=
  match order with
  | [] => []
  | h :: order =>
      if bool_decide (h ∈ m_tombstones m) || bool_decide (h ∈ seen) then walk m forge_slot order seen
      else
        match m_txs m !! h with
        | Some e =>
            if match forge_slot with Some slot => is_expired slot e | None => false end
            then walk m forge_slot order ({[h]} ∪ seen)
            else e :: walk m forge_slot order ({[h]} ∪ seen)
        | None => walk m forge_slot order ({[h]} ∪ seen)
        end
  end.

Lemma walk_slots m slot order seen :
  walk m slot order seen =
  omap (forgeable m slot)
    (filter (λ h, h ∉ seen) (first_slots (filter (λ h, h ∉ m_tombstones m) order))).
Proof.
  revert seen. induction order as [|h order IH]; intros seen; [done|]. cbn [walk].
  destruct (decide (h ∈ m_tombstones m)) as [Ht|Ht].
  { rewrite bool_decide_true, filter_cons_False by (done || tauto). apply IH. }
  rewrite bool_decide_false, filter_cons_True by done. cbn [orb first_slots].
  destruct (decide (h ∈ seen)) as [Hs|Hs].
  - rewrite bool_decide_true, filter_cons_False by (done || tauto). rewrite IH, list_filter_filter.
    f_equal. apply list_filter_iff. intros x. set_solver.
  - rewrite bool_decide_false, filter_cons_True by done. rewrite list_filter_filter, !IH.
    rewrite (list_filter_iff (λ x, x ∉ {[h]} ∪ seen) (λ x, x ∉ seen ∧ x ≠ h)) by set_solver.
    match goal with |- _ = omap ?f (h :: ?l) =>
      change (omap f (h :: l)) with (match f h with Some e => e :: omap f l | None => omap f l end) end.
    destruct (forgeable m slot h) as [e'|] eqn:E; unfold forgeable in E;
      (destruct (m_txs m !! h) as [e|]; [|done]); cbn in E;
      (destruct (match slot with Some s => is_expired s e | None => false end); by simplify_eq).
Qed.

Definition over_budget (max_size max_mem max_steps : Z) (p : @picked O) e : bool :=
  (max_size <? wrapping_add64 (pk_size p) (me_size e)) ||
  (max_mem <? saturating_add64 (pk_mem p) (tx_ex_units (me_tx e)).1) ||
  (max_steps <? saturating_add64 (pk_steps p) (tx_ex_units (me_tx e)).2).

Fixpoint greedy (max_count max_size max_mem max_steps : Z) (es : list (MempoolEntry O)) (p : picked)
  : list (Transaction O) :=
  match es with
  | [] => pk_result p
  | e :: es =>
      if max_count <=? Z.of_nat (length (pk_result p)) then pk_result p
      else if over_budget max_size max_mem max_steps p e then pk_result p
      else greedy max_count max_size max_mem max_steps es
        (mkPicked (pk_result p ++ [me_tx e]) (wrapping_add64 (pk_size p) (me_size e))
           (saturating_add64 (pk_mem p) (tx_ex_units (me_tx e)).1)
           (saturating_add64 (pk_steps p) (tx_ex_units (me_tx e)).2))
  end.

Lemma greedy_full mc ms mm mst es p :
  mc ≤ Z.of_nat (length (pk_result p)) → greedy mc ms mm mst es p = pk_result p.
Proof. intros H. destruct es as [|e es]; [done|]. simpl. by rewrite (proj2 (Z.leb_le _ _) H). Qed.

Lemma select_loop_greedy m mc ms mm mst slot order seen p :
  select_loop m mc ms mm mst slot order seen p = greedy mc ms mm mst (walk m slot order seen) p.
Proof.
  revert seen p. induction order as [|h order IH]; intros seen p; [done|]. cbn [select_loop walk].
  destruct (Z.leb_spec mc (Z.of_nat (length (pk_result p)))) as [Hc|Hc]; [by rewrite greedy_full|].
  destruct (bool_decide (h ∈ m_tombstones m)); cbn [orb]; [apply IH|].
  destruct (bool_decide (h ∈ seen)); [apply IH|].
  destruct (m_txs m !! h) as [e|]; [|apply IH].
  assert ((match slot, tx_ttl (me_tx e) with Some slot, Some ttl => ttl <=? slot | _, _ => false end)
    = match slot with Some slot => is_expired slot e | None => false end) as ->.
  { unfold is_expired. destruct slot; [|done]. by destruct (tx_ttl (me_tx e)). }
  destruct (match slot with Some slot => is_expired slot e | None => false end); [apply IH|].
  cbn [greedy]. rewrite (proj2 (Z.leb_gt _ _) Hc). unfold over_budget.
  destruct (ms <? wrapping_add64 (pk_size p) (me_size e)); [done|]. cbn [orb].
  destruct (tx_ex_units (me_tx e)) as [tm ts]. cbn [fst snd].
  destruct ((mm <? saturating_add64 (pk_mem p) tm) || (mst <? saturating_add64 (pk_steps p) ts)); [done|apply IH].
Qed.

Definition sum_of (f : MempoolEntry O → Z) (es : list (MempoolEntry O)) : Z :=
  foldr (λ e acc, f e + acc) 0 es.

Lemma sum_of_app f es1 es2 : sum_of f (es1 ++ es2) = sum_of f es1 + sum_of f es2.
Proof. induction es1 as [|e es1 IH]; simpl; [done|]. unfold sum_of in *. simpl. lia. Qed.

Lemma sum_of_nonneg f es : (∀ e, e ∈ es → 0 ≤ f e) → 0 ≤ sum_of f es.
Proof.
  induction es as [|e es IH]; intros Hf; [done|]. unfold sum_of in *. simpl.
  pose proof (Hf e ltac:(by left)). assert (0 ≤ foldr (λ e acc, f e + acc) 0 es); [|lia].
  apply IH. intros. apply Hf. by right.
Qed.

Definition e_mem e : Z := (tx_ex_units (me_tx e)).1.
Definition e_steps e : Z := (tx_ex_units (me_tx e)).2.

(** A block within its byte and execution budgets; a budget of [u64::MAX] is no
    limit, as sums of execution units saturate there. *)
Definition block_fits (ms mm mst : Z) (es : list (MempoolEntry O)) : Prop :=
  sum_of me_size es ≤ ms ∧ Z.min (sum_of e_mem es) u64_max ≤ mm ∧ Z.min (sum_of e_steps es) u64_max ≤ mst.

(** What a selection holds after the transactions [pre]. *)
Definition picked_of (pre : list (MempoolEntry O)) : picked :=
  mkPicked (me_tx <$> pre) (sum_of me_size pre) (Z.min (sum_of e_mem pre) u64_max)
    (Z.min (sum_of e_steps pre) u64_max).

Definition block_entry_wf e : Prop := 0 ≤ me_size e < 2 ^ 63 ∧ 0 ≤ e_mem e ∧ 0 ≤ e_steps e.

Lemma picked_snoc ms pre e :
  (∀ x, x ∈ pre → block_entry_wf x) → block_entry_wf e → sum_of me_size pre ≤ ms → ms < 2 ^ 63 →
  wrapping_add64 (sum_of me_size pre) (me_size e) = sum_of me_size (pre ++ [e]) ∧
  saturating_add64 (Z.min (sum_of e_mem pre) u64_max) (e_mem e) = Z.min (sum_of e_mem (pre ++ [e])) u64_max ∧
  saturating_add64 (Z.min (sum_of e_steps pre) u64_max) (e_steps e) = Z.min (sum_of e_steps (pre ++ [e])) u64_max.
Proof.
  intros Hpre (E1 & E2 & E3) Hs Hm.
  assert (0 ≤ sum_of me_size pre) by (apply sum_of_nonneg; intros ? []%Hpre; lia).
  assert (0 ≤ sum_of e_mem pre) by (apply sum_of_nonneg; intros ? (? & ? & ?)%Hpre; lia).
  assert (0 ≤ sum_of e_steps pre) by (apply sum_of_nonneg; intros ? (? & ? & ?)%Hpre; lia).
  assert (∀ f, sum_of f [e] = f e) as Hone by (intros f; unfold sum_of; simpl; lia).
  rewrite !sum_of_app, !Hone, add_exact by lia. unfold saturating_add64. lia.
Qed.

Lemma greedy_spec mc ms mm mst es pre :
  ms < 2 ^ 63 → (∀ x, x ∈ pre ++ es → block_entry_wf x) →
  Z.of_nat (length pre) ≤ mc → block_fits ms mm mst pre →
  ∃ k, greedy mc ms mm mst es (picked_of pre) = me_tx <$> (pre ++ take k es) ∧
    (k ≤ length es)%nat ∧ Z.of_nat (length pre + k) ≤ mc ∧ block_fits ms mm mst (pre ++ take k es) ∧
    (k = length es ∨ Z.of_nat (length pre + k) = mc ∨ ¬ block_fits ms mm mst (pre ++ take (S k) es)).
Proof.
  intros Hms. revert pre. induction es as [|e es IH]; intros pre Hwf Hc Hfit.
  { exists 0%nat. rewrite app_nil_r, Nat.add_0_r. by split_and!; [..|left]. }
  cbn [greedy picked_of pk_result pk_size pk_mem pk_steps]. rewrite length_fmap.
  destruct (Z.leb_spec mc (Z.of_nat (length pre))) as [Hfull|Hfull].
  { exists 0%nat. cbn [take]. rewrite app_nil_r, Nat.add_0_r. split_and!; [done|lia|done|done|]. right; left. lia. }
  unfold over_budget. cbn [picked_of pk_size pk_mem pk_steps]. fold (e_mem e) (e_steps e).
  destruct (picked_snoc ms pre e) as (-> & -> & ->);
    [intros; apply Hwf; set_solver|apply Hwf; set_solver|apply Hfit|done|].
  destruct ((ms <? _) || _ || _) eqn:Eb.
  { exists 0%nat. cbn [take]. rewrite app_nil_r, Nat.add_0_r. split_and!; [done|lia|done|done|]. right; right.
    intros (F1 & F2 & F3). rewrite take_0 in F1, F2, F3. apply orb_true_iff in Eb as [[Eb|Eb]%orb_true_iff|Eb]; apply Z.ltb_lt in Eb; lia. }
  apply orb_false_iff in Eb as [[Eb1 Eb2]%orb_false_iff Eb3]. apply Z.ltb_ge in Eb1, Eb2, Eb3.
  destruct (IH (pre ++ [e])) as (k & Hg & Hk & Hkc & Hkf & Hmax).
  - by rewrite <- app_assoc.
  - rewrite length_app. simpl. lia.
  - done.
  - exists (S k). rewrite length_app in Hkc, Hmax. simpl in Hkc, Hmax.
    rewrite <- app_assoc in Hg, Hkf, Hmax. simpl in *.
    replace (length pre + S k)%nat with (length pre + 1 + k)%nat by lia.
    split_and!; [|lia|done|done|].
    + rewrite <- Hg. f_equal. unfold picked_of. by rewrite fmap_app.
    + destruct Hmax as [->|[?|?]]; auto.
Qed.

Lemma select_loop_eligible m mc ms mm mst slot p :
  select_loop m mc ms mm mst slot (m_order m) ∅ p = greedy mc ms mm mst (eligible m slot) p.
Proof.
  rewrite select_loop_greedy, walk_slots. f_equal. unfold eligible, tx_hashes_ordered. f_equal.
  rewrite (list_filter_iff _ (λ _, True)) by set_solver. generalize (first_slots (filter (λ h, h ∉ m_tombstones m) (m_order m))).
  induction l as [|h l IH]; [done|]. by rewrite filter_cons_True, IH.
Qed.

(** C38: The transactions picked for a block are the longest prefix that fits of
    the pending, unexpired transactions in the order of the queue, each taken
    once at its first live slot: the candidates are exactly the pending
    transactions with a live slot that are not expired at the forge slot, the
    count, the bytes and the execution units of the prefix stay within the
    limits, and if it is not everything then the count is reached or the next
    transaction would not fit. The order of the queue is the order of arrival
    for transactions submitted once; one that was removed and submitted again
    takes the place of its stale slot, ahead of transactions that arrived before
    it came back (finding lib.rs:1069, [resubmitted_takes_old_place]). Sizes and
    the byte limit are below 2^63. *)
Theorem block_selection_longest_prefix m mc ms mm mst slot :
  (∀ h e, m_txs m !! h = Some e → block_entry_wf e) → 0 ≤ mc → 0 ≤ ms < 2 ^ 63 → 0 ≤ mm → 0 ≤ mst →
  let es := eligible m slot in
  ∃ k, get_txs_for_block_with_ex_units_at m mc ms mm mst slot = me_tx <$> take k es ∧
    Z.of_nat k ≤ mc ∧ block_fits ms mm mst (take k es) ∧
    (k = length es ∨ Z.of_nat k = mc ∨ ¬ block_fits ms mm mst (take (S k) es)) ∧
    NoDup (first_slots (tx_hashes_ordered m)) ∧
    (∀ e, e ∈ es ↔ ∃ h, m_txs m !! h = Some e ∧ h ∈ tx_hashes_ordered m ∧
       ∀ s, slot = Some s → is_expired s e = false).
Proof.
  intros Hwf Hmc Hms Hmm Hmst es. unfold get_txs_for_block_with_ex_units_at. rewrite select_loop_eligible.
  fold es. pose proof (elem_of_eligible m slot) as Hes. fold es in Hes.
  destruct (greedy_spec mc ms mm mst es []) as (k & Hg & Hk & Hkc & Hkf & Hmax).
  - lia.
  - intros x (h & Hx & _)%Hes. by eapply Hwf.
  - done.
  - unfold block_fits, sum_of. simpl. unfold u64_max. lia.
  - exists k. split_and!; try done. apply first_slots_NoDup.
Qed.

End theorems.

(** ** Witnesses and examples *)

(** A transaction that spends the first outputs of [parents], with one output. *)
Definition demo_tx (n : Z) (parents : list Z) : Transaction Z :=
  mkTx ((λ p, mkInput (demo_hash p) 0) <$> parents) [n] None [] None.

Definition demo_submit (m : Mempool Z) (n : Z) (parents : list Z) (size fee : Z) : Mempool Z :=
  match add_tx_with_fee (demo_hash n) (demo_tx n parents) size fee m with
  | Some (_, m') => m'
  | None => m
  end.

(** A chain 1, 2, 3 and a transaction 4 on its own. *)
Definition demo_pool : Mempool Z :=
  demo_submit (demo_submit (demo_submit (demo_submit (mempool_new config_default)
    1 [101] 10 5) 2 [1] 10 5) 3 [2] 10 5) 4 [104] 10 9.

Lemma demo_limits : limits_wf config_default.
Proof. by unfold limits_wf. Qed.

Lemma demo_entry_wf n parents size fee :
  0 ≤ size < 2 ^ 63 → 0 ≤ fee →
  entry_wf (demo_hash n) (mkEntry (demo_tx n parents) (demo_hash n) size fee 0 0 0).
Proof. intros. split; simpl; try done; lia. Qed.

(** No pending transaction of [m] names [n] as a parent. *)
Definition no_child (n : Z) (m : Mempool Z) : bool :=
  forallb (λ he : Hash32 * MempoolEntry Z,
    forallb (λ i, bool_decide (transaction_id i ≠ demo_hash n)) (tx_inputs (me_tx he.2))) (map_to_list (m_txs m)).

Lemma no_child_spec n m : no_child n m = true →
  ∀ x e i, m_txs m !! x = Some e → i ∈ tx_inputs (me_tx e) → transaction_id i ≠ demo_hash n.
Proof.
  intros Hc x e i He Hi. unfold no_child in Hc. rewrite forallb_forall in Hc.
  apply elem_of_map_to_list, list_elem_of_In in He. specialize (Hc _ He). rewrite forallb_forall in Hc.
  apply list_elem_of_In in Hi. specialize (Hc _ Hi). by apply bool_decide_eq_true in Hc.
Qed.

Lemma demo_submit_step m n parents size fee :
  0 ≤ size < 2 ^ 63 → 0 ≤ fee → Z.of_nat (length (m_order m)) < ORDER_DEQUE_MAX →
  no_child n m = true → rtc mp_step m (demo_submit m n parents size fee).
Proof.
  intros Hs Hf Hl Hc. unfold demo_submit.
  destruct (add_tx_with_fee _ _ _ _ _) as [[r m']|] eqn:E; [|done]. apply rtc_once.
  eapply ms_add; [by apply demo_entry_wf|done| |done].
  by apply no_child_spec.
Qed.

Lemma demo_pool_steps : rtc mp_step (mempool_new config_default) demo_pool.
Proof.
  unfold demo_pool. do 3 (etrans; [|apply demo_submit_step; [lia|lia|by vm_compute|by vm_compute]]).
  apply demo_submit_step; [lia|lia|by vm_compute|by vm_compute].
Qed.

Lemma demo_pool_inv : mp_inv demo_pool.
Proof. eapply mp_reachable_inv; [apply demo_limits|apply demo_pool_steps]. Qed.

Lemma mempool_reachable_witness :
  m_count demo_pool = 4 ∧ m_total_bytes demo_pool = esum me_size (m_txs demo_pool) ∧
  edge (m_dependents demo_pool) (demo_hash 2) (demo_hash 3).
Proof.
  destruct (mempool_reachable config_default demo_pool demo_limits demo_pool_steps) as (_ & Hb & _).
  split; [by vm_compute|]. split; [exact Hb|]. unfold edge. evaluate.
Defined.

(** A conflict, and a child of 3 that is admitted. *)
Lemma add_tx_witness :
  (∃ r m', add_tx_with_fee (demo_hash 5) (demo_tx 5 [104]) 10 1 demo_pool = Some (r, m') ∧ mp_ok m' ∧
    r = inl (InputConflict (demo_hash 4))) ∧
  (∃ m', add_tx_with_fee (demo_hash 5) (demo_tx 5 [3]) 10 1 demo_pool = Some (inr TxAdded, m') ∧ mp_inv m').
Proof.
  split.
  - destruct (add_tx_correct (demo_hash 5) (demo_tx 5 [104]) 10 1 0 0 0 demo_pool demo_pool_inv)
      as (r & m' & E & Hok & _).
    + by apply demo_entry_wf.
    + by vm_compute.
    + exists r, m'. split; [exact E|]. split; [exact Hok|].
      assert (fst <$> Some (r, m') = Some (inl (InputConflict (demo_hash 4)))) as [= ->]; [|done].
      rewrite <- E. by vm_compute.
  - destruct (add_tx_correct (demo_hash 5) (demo_tx 5 [3]) 10 1 0 0 0 demo_pool demo_pool_inv)
      as (r & m' & E & _ & Hi & _).
    + by apply demo_entry_wf.
    + by vm_compute.
    + exists m'. split; [|apply Hi, no_child_spec; by vm_compute].
      assert (fst <$> Some (r, m') = Some (inr TxAdded)) as [= ->]; [|exact E].
      rewrite <- E. by vm_compute.
Defined.

(** A transaction that expires at slot 7, and one that spends its output. *)
Definition demo_pool_ttl : Mempool Z :=
  match add_tx_with_fee (demo_hash 1) (mkTx [] [1] (Some 7) [] None) 10 5 (mempool_new config_default) with
  | Some (_, m) => demo_submit m 2 [1] 10 5
  | None => mempool_new config_default
  end.

Lemma demo_pool_ttl_inv : mp_inv demo_pool_ttl.
Proof.
  eapply mp_reachable_inv; [apply demo_limits|]. unfold demo_pool_ttl.
  destruct (add_tx_with_fee _ _ _ _ _) as [[r m]|] eqn:E; [|done].
  assert (m = match add_tx_with_fee (demo_hash 1) (mkTx [] [1] (Some 7) [] None) 10 5 (mempool_new config_default)
              with Some (_, m) => m | None => m end) as Em by (by rewrite E).
  eapply rtc_l; [eapply ms_add; [|..|exact E]|].
  - by split.
  - by vm_compute.
  - intros x e i. simpl. by rewrite lookup_empty.
  - apply demo_submit_step; [lia|lia|rewrite Em; by vm_compute|rewrite Em; by vm_compute].
Qed.

Lemma evict_expired_witness :
  m_txs (evict_expired 7 demo_pool_ttl).2 = ∅ ∧
  (∀ x e, m_txs (evict_expired 6 demo_pool_ttl).2 !! x = Some e → is_expired 6 e = false).
Proof.
  split; [by vm_compute|].
  exact (proj2 (evict_expired_exact 6 demo_pool_ttl demo_pool_ttl_inv)).
Defined.

Lemma revalidate_inputs_witness :
  let '(gone, m') := revalidate_against_inputs {[mkInput (demo_hash 101) 0]} demo_pool in
  gone = [demo_hash 1] ∧ dom (m_txs m') = {[demo_hash 4]} ∧
  (∀ x e i, m_txs m' !! x = Some e → i ∈ tx_inputs (me_tx e) → i ∉ ({[mkInput (demo_hash 101) 0]} : gset _)).
Proof.
  pose proof (revalidate_inputs_exact {[mkInput (demo_hash 101) 0]} demo_pool demo_pool_inv) as H.
  destruct (revalidate_against_inputs _ _) as [gone m'] eqn:E. destruct H as (_ & _ & H).
  assert (gone = (revalidate_against_inputs {[mkInput (demo_hash 101) 0]} demo_pool).1) as -> by (by rewrite E).
  assert (m' = (revalidate_against_inputs {[mkInput (demo_hash 101) 0]} demo_pool).2) as Em by (by rewrite E).
  split; [by vm_compute|]. split; [rewrite Em; evaluate|exact H].
Defined.

Lemma eviction_no_dangling_witness :
  get_tx (remove_tx_with_reason (demo_hash 3) Evicted demo_pool).2 (demo_hash 2) = Some (demo_tx 2 [1]) ∧
  lookup_virtual_utxo (remove_tx_with_reason (demo_hash 3) Evicted demo_pool).2 (mkInput (demo_hash 1) 0) = Some 1.
Proof.
  split; [by vm_compute|].
  apply (eviction_no_dangling (demo_hash 3) Evicted demo_pool (inv_ok _ demo_pool_inv) ltac:(done) (demo_hash 2) (demo_tx 2 [1])).
  - by vm_compute.
  - by left.
  - by vm_compute.
  - left. apply demo_pool_inv.
Defined.

Lemma block_selection_witness :
  get_txs_for_block_with_ex_units_at demo_pool 10 25 u64_max u64_max None = [demo_tx 1 [101]; demo_tx 2 [1]] ∧
  ∃ k, get_txs_for_block_with_ex_units_at demo_pool 10 25 u64_max u64_max None
    = me_tx <$> take k (eligible demo_pool None).
Proof.
  split; [by vm_compute|].
  destruct (block_selection_longest_prefix demo_pool 10 25 u64_max u64_max None) as (k & Hk & _).
  - intros h e He. enough (Forall (λ he : Hash32 * MempoolEntry Z, block_entry_wf he.2) (map_to_list (m_txs demo_pool))) as Hall.
    { rewrite Forall_forall in Hall. apply (Hall (h, e)). by apply elem_of_map_to_list. }
    unfold block_entry_wf. evaluate.
  - lia.
  - lia.
  - by unfold u64_max.
  - by unfold u64_max.
  - exists k. exact Hk.
Defined.

(** Eviction for a newcomer can evict the newcomer's own parent: with room
    for one transaction, a child with a higher fee pushes out the parent whose
    output it spends and is admitted all the same, with an input that resolves
    nowhere in the mempool and without an edge in the dependency graph. *)
Theorem eviction_orphans_newcomer :
  let config := mkMpConfig 1 1000 1000 1000 1000 in
  let m := demo_submit (mempool_new config) 1 [101] 10 5 in
  let r := add_tx_with_fee (demo_hash 2) (demo_tx 2 [1]) 10 50 m in
  fst <$> r = Some (inr TxAdded) ∧
  (λ p, (get_tx p.2 (demo_hash 1), lookup_virtual_utxo p.2 (mkInput (demo_hash 1) 0), m_dependents p.2)) <$> r
  = Some (None, None, ∅) ∧
  lookup_virtual_utxo m (mkInput (demo_hash 1) 0) = Some 1.
Proof. by vm_compute. Qed.

(** The child that evicted its parent is not recorded under it: when the parent
    is submitted again and evicted once more, the child stays with an input that
    no longer resolves. *)
Lemma unlinked_child_dangles :
  let config := mkMpConfig 2 1000 1000 1000 1000 in
  let m := demo_submit (demo_submit (mempool_new config) 9 [109] 10 90) 1 [101] 10 5 in
  let m := demo_submit (remove_tx (demo_hash 9) (demo_submit m 2 [1] 10 50)).2 1 [101] 10 5 in
  let m' := (remove_tx_with_reason (demo_hash 1) Evicted m).2 in
  lookup_virtual_utxo m (mkInput (demo_hash 1) 0) = Some 1 ∧
  get_tx m' (demo_hash 2) = Some (demo_tx 2 [1]) ∧
  lookup_virtual_utxo m' (mkInput (demo_hash 1) 0) = None.
Proof. by vm_compute. Qed.

(** A refused transaction can empty the mempool: one that is larger than
    the byte limit but pays a higher fee per byte evicts every pending
    transaction before it is refused. *)
Theorem refused_transaction_empties_mempool :
  let config := mkMpConfig 100 50 1000 1000 1000 in
  let m := demo_submit (demo_submit (mempool_new config) 1 [101] 10 5) 2 [102] 10 5 in
  let r := add_tx_with_fee (demo_hash 3) (demo_tx 3 [103]) 60 6000 m in
  m_count m = 2 ∧ fst <$> r = Some (inl (TooLarge 60)) ∧ (λ p, m_txs p.2) <$> r = Some ∅.
Proof. by vm_compute. Qed.

(** A transaction that is removed and submitted again is listed twice. *)
Lemma readmitted_listed_twice :
  let m := demo_submit (mempool_new config_default) 1 [101] 10 5 in
  let m' := demo_submit (remove_tx (demo_hash 1) m).2 1 [101] 10 5 in
  m_count m' = 1 ∧ tx_hashes_ordered m' = [demo_hash 1; demo_hash 1].
Proof. by vm_compute. Qed.

(** Submit 1, remove it, submit 2, submit 1 again: the block takes 1 first,
    through the slot that its removal left in the queue. *)
Lemma resubmitted_takes_old_place :
  let m := demo_submit (mempool_new config_default) 1 [101] 10 5 in
  let m' := demo_submit (demo_submit (remove_tx (demo_hash 1) m).2 2 [102] 10 5) 1 [101] 10 5 in
  get_txs_for_block_with_ex_units_at m' 10 100 u64_max u64_max None = [demo_tx 1 [101]; demo_tx 2 [102]].
Proof. by vm_compute. Qed.
