(* ===== verification/RecordUpdate.v ===== *)
(** * Functional update of record fields

    The ledger state is a tree of large structs that the code mutates field by
    field. [s <| f := v |>] is [s] with field [f] replaced, and [s <| f ::= g |>]
    applies [g] to it; a record type declares its fields once, as the instance
    of [Fields] that rebuilds a value from its projections. *)

From S2P Require Import Prelude.

Class Fields (R : Type) := rebuild : R → R.
Class Setter {R E : Type} (field : R → E) := update : (E → E) → R → R.

(** [rebuild] abstracted over the projection [field] is the setter. *)
Ltac make_setter :=
  match goal with
  | |- @Setter ?R ?E ?field =>
      let inst := constr:(_ : Fields R) in
      let body := eval hnf in inst in
      let abstracted := eval pattern field in body in
      match abstracted with
      | ?F field => exact (λ (g : E → E) (r : R), F (λ r', g (field r')) r)
      end
  end.

#[export] Hint Extern 0 (Setter _) => make_setter : typeclass_instances.

Declare Scope record_scope.
Delimit Scope record_scope with record.

Notation "s <| f ::= g |>" := (update (field := f) g s)
  (at level 14, left associativity, f at level 10, g at level 200,
   format "s  <| f  ::=  g |>") : record_scope.
Notation "s <| f := v |>" := (update (field := f) (λ _, v) s)
  (at level 14, left associativity, f at level 10, v at level 200,
   format "s  <| f  :=  v |>") : record_scope.
