(* ===== verification/Ledger.v ===== *)
(** * The ledger state ([ledger/src/state/mod.rs], [state/substates.rs])

    Credentials, addresses, outputs and the component sub-states of
    [LedgerState]. A [HashMap], [BTreeMap] or persistent map is a [gmap], a set
    is a [gset], an [Arc] is its content. Data that the modelled code only
    stores, compares and copies is a parameter: the types of [Payloads]. *)

From S2P Require Import Prelude Order RecordUpdate EraHistory Block.
Local Open Scope Z_scope.

Definition Hash28 : Type := list Z.
Abbreviation Lovelace := Z (only parsing).
Abbreviation EpochNo := Z (only parsing).

(** ** Credentials and addresses *)

Inductive Credential : Type :=
| VerificationKey (h : Hash28)
| Script (h : Hash28).

#[global] Instance Credential_eq_dec : EqDecision Credential.
Proof. solve_decision. Defined.

#[global] Instance Credential_countable : Countable Credential.
Proof.
  refine (inj_countable'
    (λ c, match c with VerificationKey h => inl h | Script h => inr h end)
    (λ s, match s with inl h => VerificationKey h | inr h => Script h end) _).
  by intros [].
Defined.

Definition cred_hash (c : Credential) : Hash28 :=
  match c with VerificationKey h => h | Script h => h end.

Definition is_script (c : Credential) : bool :=
  match c with Script _ => true | _ => false end.

(** The 28 bytes of the hash, a byte for the kind, three zero bytes. *)
Definition to_typed_hash32 (c : Credential) : Hash32 :=
  cred_hash c ++ (if is_script c then 1 else 0) :: replicate 3 0.

Record Pointer := mkPointer {
  ptr_slot : Z;
  ptr_tx_index : Z;
  ptr_cert_index : Z;
}.

#[global] Instance Pointer_eq_dec : EqDecision Pointer.
Proof. solve_decision. Defined.

#[global] Instance Pointer_countable : Countable Pointer.
Proof.
  refine (inj_countable' (λ p, (ptr_slot p, ptr_tx_index p, ptr_cert_index p))
    (λ t, mkPointer t.1.1 t.1.2 t.2) _).
  by intros [].
Defined.

Inductive NetworkId : Type := Testnet | Mainnet.

#[global] Instance NetworkId_eq_dec : EqDecision NetworkId.
Proof. solve_decision. Defined.

Inductive Address : Type :=
| AddrBase (network : NetworkId) (payment stake : Credential)
| AddrEnterprise (network : NetworkId) (payment : Credential)
| AddrPointer (network : NetworkId) (payment : Credential) (pointer : Pointer)
| AddrReward (network : NetworkId) (stake : Credential)
| AddrByron (payload : list Z).

#[global] Instance Address_eq_dec : EqDecision Address.
Proof. solve_decision. Defined.

(** Where the coins of an output count as stake. *)
Inductive StakeRouting : Type :=
| RouteCredential (cred_hash : Hash32)
| RoutePointer (ptr : Pointer)
| RouteNone.

Definition stake_routing (address : Address) (exclude_ptrs : bool) : StakeRouting :=
  match address with
  | AddrBase _ _ stake => RouteCredential (to_typed_hash32 stake)
  | AddrReward _ stake => RouteCredential (to_typed_hash32 stake)
  | AddrPointer _ _ pointer => if exclude_ptrs then RouteNone else RoutePointer pointer
  | _ => RouteNone
  end.

(** ** Governance identifiers *)

Record Anchor := mkAnchor { anchor_url : list Z; anchor_hash : Hash32 }.
Record Rational := mkRational { numerator : Z; denominator : Z }.
Record Constitution := mkConstitution {
  con_anchor : Anchor;
  con_script_hash : option Hash28;
}.

Inductive DRep : Type :=
| DRepKeyHash (h : Hash32)
| DRepScriptHash (h : Hash28)
| DRepAbstain
| DRepNoConfidence.

Inductive Vote : Type := VoteNo | VoteYes | VoteAbstain.
Record VotingProcedure := mkProcedure { vp_vote : Vote; vp_anchor : option Anchor }.

Record GovActionId := mkActionId { action_tx : Hash32; action_index : Z }.

#[global] Instance GovActionId_eq_dec : EqDecision GovActionId.
Proof. solve_decision. Defined.

#[global] Instance GovActionId_countable : Countable GovActionId.
Proof.
  refine (inj_countable' (λ a, (action_tx a, action_index a)) (λ p, mkActionId p.1 p.2) _).
  by intros [].
Defined.

Inductive Voter : Type :=
| VoterCommittee (c : Credential)
| VoterDRep (c : Credential)
| VoterPool (h : Hash32).

#[global] Instance Voter_eq_dec : EqDecision Voter.
Proof. solve_decision. Defined.

#[global] Instance Voter_countable : Countable Voter.
Proof.
  refine (inj_countable'
    (λ v, match v with VoterCommittee c => inl c | VoterDRep c => inr (inl c) | VoterPool h => inr (inr h) end)
    (λ s, match s with inl c => VoterCommittee c | inr (inl c) => VoterDRep c | inr (inr h) => VoterPool h end) _).
  by intros [].
Defined.

(** ** Pools *)

Inductive Relay : Type :=
| SingleHostAddr (port : option Z) (ipv4 ipv6 : option (list Z))
| SingleHostName (port : option Z) (dns_name : list Z)
| MultiHostName (dns_name : list Z).

#[global] Instance Relay_eq_dec : EqDecision Relay.
Proof. solve_decision. Defined.

Record PoolRegistration := mkPool {
  pool_id : Hash28;
  pool_vrf_keyhash : Hash32;
  pool_pledge : Lovelace;
  pool_cost : Lovelace;
  pool_margin_numerator : Z;
  pool_margin_denominator : Z;
  pool_reward_account : list Z;
  pool_owners : list Hash28;
  pool_relays : list Relay;
  pool_metadata_url : option (list Z);
  pool_metadata_hash : option Hash32;
}.

#[global] Instance PoolRegistration_eq_dec : EqDecision PoolRegistration.
Proof. solve_decision. Defined.

(** ** Parameters *)

(** The parameters that this part reads, beside the others. *)
Record ParametersOf (R : Type) := mkParams {
  protocol_version_major : Z;
  pp_d : Rational;
  pp_key_deposit : Lovelace;
  pp_pool_deposit : Lovelace;
  pp_rest : R;
}.

Arguments mkParams {R} _ _ _ _ _.
Arguments protocol_version_major {R} _.
Arguments pp_d {R} _.
Arguments pp_key_deposit {R} _.
Arguments pp_pool_deposit {R} _.
Arguments pp_rest {R} _.

#[global] Instance parameters_fields R : Fields (ParametersOf R) :=
  λ p, mkParams (protocol_version_major p) (pp_d p) (pp_key_deposit p) (pp_pool_deposit p) (pp_rest p).

(** ** Data that is only stored and copied *)

Class Payloads := {
  OutputRest : Type;            (* datum, script reference and encoding of an output *)
  ParamsRest : Type;            (* the protocol parameters that are not read here *)
  ProposalState : Type;
  ProtocolParamUpdate : Type;
  EpochSnapshots : Type;
  PendingRewardUpdate : Type;
  NonMyopic : Type;
  MonetaryStep : Type;
  PulsingRewUpdate : Type;
  InFlightFold : Type;
  ByronSubState : Type;
  ProposalForest : Type;        (* proposal_roots and proposal_graph *)
  DRepPulsingState : Type;
  FuturePParams : Type;
  ConfigRest : Type;            (* the configuration that is not read here *)
  ValidationRegistry : Type;
  PulsingRewUpdate_eq_dec :: EqDecision PulsingRewUpdate;
  ByronSubState_eq_dec :: EqDecision ByronSubState;
}.

Section state.
Context `{Payloads}.

Record ValueOut := mkValue { coin : Lovelace; multi_asset : gmap Hash28 (gmap (list Z) Z) }.

Record TransactionOutput := mkOutput {
  out_address : Address;
  out_value : ValueOut;
  out_rest : OutputRest;
}.

(** The fields of [LedgerState] that no block changes. *)
Record LedgerConfig := mkLedgerConfig {
  epoch_length : Z;
  shelley_transition_epoch : Z;
  byron_epoch_length : Z;
  config_rest : ConfigRest;
}.

Definition ProtocolParameters : Type := ParametersOf ParamsRest.

Record DRepRegistration := mkDRep {
  dr_credential : Credential;
  dr_deposit : Lovelace;
  dr_anchor : option Anchor;
  dr_registered_epoch : EpochNo;
  dr_drep_expiry : EpochNo;
  dr_active : bool;
  dr_delegs : gset Hash32;
}.

#[global] Instance drep_fields : Fields DRepRegistration :=
  λ s, mkDRep (dr_credential s) (dr_deposit s) (dr_anchor s) (dr_registered_epoch s)
    (dr_drep_expiry s) (dr_active s) (dr_delegs s).

(** ** Differences of the UTxO set ([ledger/src/utxo_diff.rs]) *)

Record UtxoDiff := mkDiff {
  inserts : list (TransactionInput * TransactionOutput);
  deletes : list (TransactionInput * TransactionOutput);
}.

(** The differences of the last blocks, oldest first. *)
Definition DiffSeq : Type := list (Z * Hash32 * UtxoDiff).

(** ** Sub-states *)

Record UtxoSubState := mkUtxo {
  utxo_set : gmap TransactionInput TransactionOutput;
  diff_seq : DiffSeq;
  epoch_fees : Lovelace;
  pending_donations : Lovelace;
}.

#[global] Instance utxo_fields : Fields UtxoSubState :=
  λ s, mkUtxo (utxo_set s) (diff_seq s) (epoch_fees s) (pending_donations s).

Record CertSubState := mkCerts {
  delegations : gmap Hash32 Hash28;
  pool_params : gmap Hash28 PoolRegistration;
  future_pool_params : gmap Hash28 PoolRegistration;
  pending_retirements : gmap Hash28 EpochNo;
  vrf_key_hashes : gmap Hash32 Z;
  reward_accounts : gmap Hash32 Lovelace;
  stake_key_deposits : gmap Hash32 Z;
  pool_deposits : gmap Hash28 Z;
  total_stake_key_deposits : Z;
  pointer_map : gmap Pointer Hash32;
  stake_map : gmap Hash32 Lovelace;
  script_stake_credentials : gset Hash32;
  pending_mir_reserves : gmap Hash32 Z;
  pending_mir_treasury : gmap Hash32 Z;
  pending_mir_delta_reserves : Z;
  pending_mir_delta_treasury : Z;
}.

#[global] Instance certs_fields : Fields CertSubState :=
  λ s, mkCerts (delegations s) (pool_params s) (future_pool_params s) (pending_retirements s)
    (vrf_key_hashes s) (reward_accounts s) (stake_key_deposits s) (pool_deposits s)
    (total_stake_key_deposits s) (pointer_map s) (stake_map s) (script_stake_credentials s)
    (pending_mir_reserves s) (pending_mir_treasury s) (pending_mir_delta_reserves s)
    (pending_mir_delta_treasury s).

(** [GovSubState] is an [Arc] of this. *)
Record GovernanceState := mkGov {
  dreps : gmap Hash32 DRepRegistration;
  vote_delegations : gmap Hash32 DRep;
  committee_hot_keys : gmap Hash32 Hash32;
  committee_expiration : gmap Hash32 EpochNo;
  committee_resigned : gmap Hash32 (option Anchor);
  script_committee_credentials : gset Hash32;
  script_committee_hot_credentials : gset Hash32;
  proposals : gmap GovActionId ProposalState;
  votes_by_action : gmap GovActionId (gmap Voter VotingProcedure);
  proposal_forest : ProposalForest;
  drep_registration_count : Z;
  proposal_count : Z;
  constitution : option Constitution;
  no_confidence : bool;
  committee_threshold : option Rational;
  enacted_pparam_update : option GovActionId;
  enacted_hard_fork : option GovActionId;
  enacted_committee : option GovActionId;
  enacted_constitution : option GovActionId;
  last_ratified : list (GovActionId * ProposalState);
  last_expired : list GovActionId;
  last_ratify_delayed : bool;
  num_dormant_epochs : Z;
  drep_pulsing_state : option DRepPulsingState;
  future_pparams : FuturePParams;
}.

#[global] Instance gov_fields : Fields GovernanceState :=
  λ s, mkGov (dreps s) (vote_delegations s) (committee_hot_keys s) (committee_expiration s)
    (committee_resigned s) (script_committee_credentials s) (script_committee_hot_credentials s)
    (proposals s) (votes_by_action s) (proposal_forest s) (drep_registration_count s)
    (proposal_count s) (constitution s) (no_confidence s) (committee_threshold s)
    (enacted_pparam_update s) (enacted_hard_fork s) (enacted_committee s)
    (enacted_constitution s) (last_ratified s) (last_expired s) (last_ratify_delayed s)
    (num_dormant_epochs s) (drep_pulsing_state s) (future_pparams s).

Record ConsensusSubState := mkConsensus {
  evolving_nonce : Hash32;
  candidate_nonce : Hash32;
  cn_epoch_nonce : Hash32;
  previous_epoch_nonce : Hash32;
  lab_nonce : Hash32;
  last_epoch_block_nonce : Hash32;
  extra_entropy : Hash32;
  rolling_nonce : Hash32;
  first_block_hash_of_epoch : option Hash32;
  prev_epoch_first_block_hash : option Hash32;
  epoch_blocks_by_pool : gmap Hash28 Z;
  epoch_block_count : Z;
  opcert_counters : gmap Hash28 Z;
}.

#[global] Instance consensus_fields : Fields ConsensusSubState :=
  λ s, mkConsensus (evolving_nonce s) (candidate_nonce s) (cn_epoch_nonce s)
    (previous_epoch_nonce s) (lab_nonce s) (last_epoch_block_nonce s) (extra_entropy s)
    (rolling_nonce s) (first_block_hash_of_epoch s) (prev_epoch_first_block_hash s)
    (epoch_blocks_by_pool s) (epoch_block_count s) (opcert_counters s).

Record EpochSubState := mkEpochs {
  snapshots : EpochSnapshots;
  treasury : Lovelace;
  reserves : Lovelace;
  pending_reward_update : option PendingRewardUpdate;
  non_myopic : NonMyopic;
  last_applied_rupd : option PendingRewardUpdate;
  pending_pp_updates : gmap EpochNo (list (Hash32 * ProtocolParamUpdate));
  future_pp_updates : gmap EpochNo (list (Hash32 * ProtocolParamUpdate));
  needs_stake_rebuild : bool;
  ptr_stake : gmap Pointer Z;
  ptr_stake_excluded : bool;
  protocol_params : ProtocolParameters;
  prev_protocol_params : ProtocolParameters;
  prev_protocol_version_major : Z;
  prev_d : Rational;
  rupd_addrs_rew : option (gset Hash32);
  rupd_pulser_started : bool;
  rupd_monetary : option MonetaryStep;
  rupd_snapshot : option PulsingRewUpdate;
  rupd_fold : InFlightFold;
  pending_avvm_return : Z;
}.

#[global] Instance epochs_fields : Fields EpochSubState :=
  λ s, mkEpochs (snapshots s) (treasury s) (reserves s) (pending_reward_update s) (non_myopic s)
    (last_applied_rupd s) (pending_pp_updates s) (future_pp_updates s) (needs_stake_rebuild s)
    (ptr_stake s) (ptr_stake_excluded s) (protocol_params s) (prev_protocol_params s)
    (prev_protocol_version_major s) (prev_d s) (rupd_addrs_rew s) (rupd_pulser_started s)
    (rupd_monetary s) (rupd_snapshot s) (rupd_fold s) (pending_avvm_return s).

(** The constants that no block changes ([epoch_length], [slot_config], [security_param] and
    the like) are the one field [ls_config]. *)
Record LedgerState := mkLedger {
  utxo : UtxoSubState;
  certs : CertSubState;
  gov : GovernanceState;
  consensus : ConsensusSubState;
  epochs : EpochSubState;
  ls_tip : Tip;
  ls_era : Era;
  pending_era_transition : option (Era * Era * EpochNo);
  ls_epoch : EpochNo;
  ls_config : LedgerConfig;
  genesis_delegates : gmap Hash28 (Hash28 * Hash32);
  future_gen_delegs : gmap (Z * Hash28) (Hash28 * Hash32);
  byron : ByronSubState;
  phase2_apply_horizon : option Z;
  cached_validation_registry : option ValidationRegistry;
}.

#[global] Instance ledger_fields : Fields LedgerState :=
  λ s, mkLedger (utxo s) (certs s) (gov s) (consensus s) (epochs s) (ls_tip s) (ls_era s)
    (pending_era_transition s) (ls_epoch s) (ls_config s) (genesis_delegates s)
    (future_gen_delegs s) (byron s) (phase2_apply_horizon s) (cached_validation_registry s).

(** ** Copy without the UTxO set *)

Definition clone_without_utxos (s : LedgerState) : LedgerState :=
  mkLedger (mkUtxo ∅ [] (epoch_fees (utxo s)) (pending_donations (utxo s)))
    (certs s) (gov s) (consensus s) (epochs s) (ls_tip s) (ls_era s)
    (pending_era_transition s) (ls_epoch s) (ls_config s) (genesis_delegates s)
    (future_gen_delegs s) (byron s) None None.

(** Two values are equal when their fields are. *)

Lemma certs_ext (s t : CertSubState) :
  delegations s = delegations t → pool_params s = pool_params t →
  future_pool_params s = future_pool_params t → pending_retirements s = pending_retirements t →
  vrf_key_hashes s = vrf_key_hashes t → reward_accounts s = reward_accounts t →
  stake_key_deposits s = stake_key_deposits t → pool_deposits s = pool_deposits t →
  total_stake_key_deposits s = total_stake_key_deposits t → pointer_map s = pointer_map t →
  stake_map s = stake_map t → script_stake_credentials s = script_stake_credentials t →
  pending_mir_reserves s = pending_mir_reserves t →
  pending_mir_treasury s = pending_mir_treasury t →
  pending_mir_delta_reserves s = pending_mir_delta_reserves t →
  pending_mir_delta_treasury s = pending_mir_delta_treasury t → s = t.
Proof. destruct s, t. cbn. intros. by subst. Qed.

Lemma gov_ext (s t : GovernanceState) :
  dreps s = dreps t → vote_delegations s = vote_delegations t →
  committee_hot_keys s = committee_hot_keys t →
  committee_expiration s = committee_expiration t →
  committee_resigned s = committee_resigned t →
  script_committee_credentials s = script_committee_credentials t →
  script_committee_hot_credentials s = script_committee_hot_credentials t →
  proposals s = proposals t → votes_by_action s = votes_by_action t →
  proposal_forest s = proposal_forest t →
  drep_registration_count s = drep_registration_count t → proposal_count s = proposal_count t →
  constitution s = constitution t → no_confidence s = no_confidence t →
  committee_threshold s = committee_threshold t →
  enacted_pparam_update s = enacted_pparam_update t →
  enacted_hard_fork s = enacted_hard_fork t → enacted_committee s = enacted_committee t →
  enacted_constitution s = enacted_constitution t → last_ratified s = last_ratified t →
  last_expired s = last_expired t → last_ratify_delayed s = last_ratify_delayed t →
  num_dormant_epochs s = num_dormant_epochs t → drep_pulsing_state s = drep_pulsing_state t →
  future_pparams s = future_pparams t → s = t.
Proof. destruct s, t. cbn. intros. by subst. Qed.

Lemma consensus_ext (s t : ConsensusSubState) :
  evolving_nonce s = evolving_nonce t → candidate_nonce s = candidate_nonce t →
  cn_epoch_nonce s = cn_epoch_nonce t → previous_epoch_nonce s = previous_epoch_nonce t →
  lab_nonce s = lab_nonce t → last_epoch_block_nonce s = last_epoch_block_nonce t →
  extra_entropy s = extra_entropy t → rolling_nonce s = rolling_nonce t →
  first_block_hash_of_epoch s = first_block_hash_of_epoch t →
  prev_epoch_first_block_hash s = prev_epoch_first_block_hash t →
  epoch_blocks_by_pool s = epoch_blocks_by_pool t → epoch_block_count s = epoch_block_count t →
  opcert_counters s = opcert_counters t → s = t.
Proof. destruct s, t. cbn. intros. by subst. Qed.

Lemma epochs_ext (s t : EpochSubState) :
  snapshots s = snapshots t → treasury s = treasury t → reserves s = reserves t →
  pending_reward_update s = pending_reward_update t → non_myopic s = non_myopic t →
  last_applied_rupd s = last_applied_rupd t → pending_pp_updates s = pending_pp_updates t →
  future_pp_updates s = future_pp_updates t → needs_stake_rebuild s = needs_stake_rebuild t →
  ptr_stake s = ptr_stake t → ptr_stake_excluded s = ptr_stake_excluded t →
  protocol_params s = protocol_params t → prev_protocol_params s = prev_protocol_params t →
  prev_protocol_version_major s = prev_protocol_version_major t → prev_d s = prev_d t →
  rupd_addrs_rew s = rupd_addrs_rew t → rupd_pulser_started s = rupd_pulser_started t →
  rupd_monetary s = rupd_monetary t → rupd_snapshot s = rupd_snapshot t →
  rupd_fold s = rupd_fold t → pending_avvm_return s = pending_avvm_return t → s = t.
Proof. destruct s, t. cbn. intros. by subst. Qed.

End state.
