(* ===== verification/LedgerDelta.v ===== *)
(** * Per-block deltas of the ledger state ([ledger/src/ledger_seq.rs])

    A [LedgerDelta] records what one block changed; [apply_delta_to_state]
    replays it on a state. *)

From S2P Require Import Prelude Order RecordUpdate EraHistory Block Ledger.
Local Open Scope Z_scope.
Local Open Scope record_scope.


Section delta.
Context `{Payloads}.

(** ** Changes *)

Inductive DelegationChange : Type :=
| DcRegister (credential_hash : Hash32) (is_script : bool) (pointer : option Pointer)
| DcDeregister (credential_hash : Hash32) (pointer : option Pointer)
| DcDelegate (credential_hash : Hash32) (pool : Hash28)
| DcUndelegate (credential_hash : Hash32).

Inductive PoolChange : Type :=
| PcRegister (params : PoolRegistration)
| PcReregister (params : PoolRegistration)
| PcRetire (pool : Hash28) (epoch : EpochNo)
| PcCancelRetirement (pool : Hash28).

Inductive RewardChange : Type :=
| RcCredit (credential_hash : Hash32) (amount : Lovelace)
| RcWithdraw (credential_hash : Hash32) (amount : Lovelace)
| RcCreate (credential_hash : Hash32)
| RcDestroy (credential_hash : Hash32).

Inductive GovernanceChange : Type :=
| GcDRepRegister (credential_hash : Hash32) (registration : DRepRegistration) (is_script : bool)
| GcDRepUpdate (credential_hash : Hash32) (anchor : option Anchor) (drep_expiry : EpochNo)
| GcDRepUnregister (credential_hash : Hash32)
| GcVoteDelegate (credential_hash : Hash32) (drep : DRep)
| GcVoteUndelegate (credential_hash : Hash32)
| GcCommitteeHotAuth (cold hot : Hash32) (cold_is_script hot_is_script : bool)
| GcCommitteeResign (cold : Hash32) (anchor : option Anchor) (is_script : bool)
| GcProposeAction (action_id : GovActionId) (proposal : ProposalState)
| GcCastVote (action_id : GovActionId) (voter : Voter) (procedure : VotingProcedure)
| GcEnacted (action_id : GovActionId) (proposal : ProposalState)
| GcExpired (action_id : GovActionId)
| GcSetConstitution (c : Constitution)
| GcSetNoConfidence (b : bool)
| GcSetCommitteeThreshold (threshold : option Rational)
| GcIncrementDRepCount
| GcIncrementProposalCount.

Record EpochTransitionDelta := mkTransition {
  et_new_epoch : EpochNo;
  et_treasury : Lovelace;
  et_reserves : Lovelace;
  et_snapshots : EpochSnapshots;
  et_protocol_params : ProtocolParameters;
  et_prev_protocol_params : ProtocolParameters;
  et_prev_d : Rational;
  et_prev_protocol_version_major : Z;
  et_pending_pp_updates_cleared : bool;
  et_epoch_nonce : Hash32;
  et_previous_epoch_nonce : Hash32;
  et_last_epoch_block_nonce : Hash32;
  et_extra_entropy : Hash32;
  et_reward_credits : gmap Hash32 Lovelace;
  et_pools_retired : list Hash28;
  et_future_params_promoted : list (Hash28 * PoolRegistration);
  et_drep_activity_updates : gmap Hash32 bool;
  et_last_ratified : list (GovActionId * ProposalState);
  et_last_expired : list GovActionId;
  et_last_ratify_delayed : bool;
  et_new_constitution : option Constitution;
  et_no_confidence : option bool;
  et_committee_threshold : option (option Rational);
  et_proposals_enacted : list GovActionId;
  et_proposals_expired : list GovActionId;
  et_enacted_pparam_update : option (option GovActionId);
  et_enacted_hard_fork : option (option GovActionId);
  et_enacted_committee : option (option GovActionId);
  et_enacted_constitution : option (option GovActionId);
  et_stake_distribution : gmap Hash32 Lovelace;
  et_delegation_changes : list DelegationChange;
}.

Record BlockFieldsDelta := mkBlockFields {
  bf_fees_collected : Lovelace;
  bf_pool_block_increment : option Hash28;
  bf_epoch_block_count : Z;
  bf_evolving_nonce : Hash32;
  bf_candidate_nonce : Hash32;
  bf_lab_nonce : Hash32;
  bf_epoch_fees : Lovelace;
  bf_pending_donations : Lovelace;
  bf_era : Era;
  bf_pending_avvm_return : Z;
  bf_opcert_counter_update : option (Hash28 * Z);
}.

Definition default_block_fields : BlockFieldsDelta :=
  mkBlockFields 0 None 0 hash_zero hash_zero hash_zero 0 0 Byron 0 None.

Record LedgerDelta := mkDelta {
  d_slot : Z;
  d_hash : Hash32;
  d_block_no : Z;
  parent_point : option Point;
  d_utxo_diff : UtxoDiff;
  delegation_changes : list DelegationChange;
  pool_changes : list PoolChange;
  reward_changes : list RewardChange;
  governance_changes : list GovernanceChange;
  epoch_transition : option EpochTransitionDelta;
  block_fields : BlockFieldsDelta;
  reward_accounts_snapshot : option (gmap Hash32 Lovelace);
  delegations_snapshot : option (gmap Hash32 Hash28);
  stake_key_deposits_snapshot : option (gmap Hash32 Z);
  pool_params_snapshot : option (gmap Hash28 PoolRegistration);
  future_pool_params_snapshot : option (gmap Hash28 PoolRegistration);
  pending_retirements_snapshot : option (gmap Hash28 EpochNo);
  pool_deposits_snapshot : option (gmap Hash28 Z);
  gov_snapshot : option GovernanceState;
  epoch_blocks_by_pool_snapshot : option (gmap Hash28 Z);
  pointer_map_snapshot : option (gmap Pointer Hash32);
  script_stake_credentials_snapshot : option (gset Hash32);
  total_stake_key_deposits_snapshot : option Z;
  pending_mir_reserves_snapshot : option (gmap Hash32 Z);
  pending_mir_treasury_snapshot : option (gmap Hash32 Z);
  pending_mir_delta_reserves_snapshot : option Z;
  pending_mir_delta_treasury_snapshot : option Z;
  genesis_delegates_snapshot : option (gmap Hash28 (Hash28 * Hash32));
  future_gen_delegs_snapshot : option (gmap (Z * Hash28) (Hash28 * Hash32));
  pending_pp_updates_snapshot : option (gmap EpochNo (list (Hash32 * ProtocolParamUpdate)));
  future_pp_updates_snapshot : option (gmap EpochNo (list (Hash32 * ProtocolParamUpdate)));
  rupd_addrs_rew_snapshot : option (option (gset Hash32));
  rupd_pulser_started_snapshot : option bool;
  rupd_monetary_snapshot : option (option MonetaryStep);
  rupd_snapshot_delta : option (option PulsingRewUpdate);
  byron_snapshot : option ByronSubState;
}.

#[global] Instance delta_fields : Fields LedgerDelta :=
  λ s, mkDelta (d_slot s) (d_hash s) (d_block_no s) (parent_point s) (d_utxo_diff s)
    (delegation_changes s) (pool_changes s) (reward_changes s) (governance_changes s)
    (epoch_transition s) (block_fields s) (reward_accounts_snapshot s) (delegations_snapshot s)
    (stake_key_deposits_snapshot s) (pool_params_snapshot s) (future_pool_params_snapshot s)
    (pending_retirements_snapshot s) (pool_deposits_snapshot s) (gov_snapshot s)
    (epoch_blocks_by_pool_snapshot s) (pointer_map_snapshot s)
    (script_stake_credentials_snapshot s) (total_stake_key_deposits_snapshot s)
    (pending_mir_reserves_snapshot s) (pending_mir_treasury_snapshot s)
    (pending_mir_delta_reserves_snapshot s) (pending_mir_delta_treasury_snapshot s)
    (genesis_delegates_snapshot s) (future_gen_delegs_snapshot s)
    (pending_pp_updates_snapshot s) (future_pp_updates_snapshot s) (rupd_addrs_rew_snapshot s)
    (rupd_pulser_started_snapshot s) (rupd_monetary_snapshot s) (rupd_snapshot_delta s)
    (byron_snapshot s).

Definition delta_new (slot : Z) (hash : Hash32) (block_no : Z) : LedgerDelta :=
  mkDelta slot hash block_no None (mkDiff [] []) [] [] [] [] None default_block_fields
    None None None None None None None None None None None None None
    None None None None None None None None None None None None.

(** ** Replay *)

(** [if let Some(x) = snapshot { field = x }] *)
Definition restored {A} (snapshot : option A) (current : A) : A := default current snapshot.

(** *** Stake of outputs *)

(** [*map.entry(k).or_insert(0) += coin] on a map of [Lovelace], whose sum saturates. *)
Definition credit_stake (k : Hash32) (amount : Z) (m : gmap Hash32 Lovelace) : gmap Hash32 Lovelace :=
  <[k := (default 0 (m !! k) +s amount)%mach]> m.

(** The same on the [u64]s of [ptr_stake], whose sum wraps. *)
Definition credit_pointer (p : Pointer) (amount : Z) (m : gmap Pointer Z) : gmap Pointer Z :=
  <[p := (default 0 (m !! p) +w amount)%mach]> m.

(** [if let Some(x) = map.get_mut(k) { *x = x.saturating_sub(coin) }] *)
Definition debit `{Countable K} (k : K) (amount : Z) (m : gmap K Z) : gmap K Z :=
  alter (λ x, (x -s amount)%mach) k m.

Definition add_stake (output : TransactionOutput) (s : LedgerState) : LedgerState :=
  match stake_routing (out_address output) (ptr_stake_excluded (epochs s)) with
  | RouteCredential cred =>
      s <| certs ::= λ c, c <| stake_map ::= credit_stake cred (coin (out_value output)) |> |>
  | RoutePointer ptr =>
      s <| epochs ::= λ e, e <| ptr_stake ::= credit_pointer ptr (coin (out_value output)) |> |>
  | RouteNone => s
  end.

Definition sub_stake (output : TransactionOutput) (s : LedgerState) : LedgerState :=
  match stake_routing (out_address output) (ptr_stake_excluded (epochs s)) with
  | RouteCredential cred =>
      s <| certs ::= λ c, c <| stake_map ::= debit cred (coin (out_value output)) |> |>
  | RoutePointer ptr =>
      s <| epochs ::= λ e, e <| ptr_stake ::= debit ptr (coin (out_value output)) |> |>
  | RouteNone => s
  end.

Definition apply_insert (s : LedgerState) (io : TransactionInput * TransactionOutput) : LedgerState :=
  add_stake io.2 s <| utxo ::= λ u, u <| utxo_set ::= <[io.1 := io.2]> |> |>.

Definition apply_delete (s : LedgerState) (io : TransactionInput * TransactionOutput) : LedgerState :=
  sub_stake io.2 s <| utxo ::= λ u, u <| utxo_set ::= delete io.1 |> |>.

Definition apply_utxo_diff (s : LedgerState) (diff : UtxoDiff) : LedgerState :=
  foldl apply_delete (foldl apply_insert s (inserts diff)) (deletes diff).

(** *** Certificates and rewards *)

Definition or_insert_zero (k : Hash32) (m : gmap Hash32 Lovelace) : gmap Hash32 Lovelace :=
  <[k := default 0 (m !! k)]> m.

Definition apply_delegation_change (s : LedgerState) (change : DelegationChange) : LedgerState :=
  s <| certs ::= λ c,
    match change with
    | DcRegister k script pointer =>
        c <| reward_accounts ::= or_insert_zero k |>
          <| script_stake_credentials ::= λ m, if script then {[k]} ∪ m else m |>
          <| pointer_map ::= λ m, match pointer with Some p => <[p := k]> m | None => m end |>
    | DcDeregister k pointer =>
        c <| delegations ::= delete k |>
          <| reward_accounts ::= delete k |>
          <| script_stake_credentials ::= λ m, m ∖ {[k]} |>
          <| pointer_map ::= λ m, match pointer with Some p => delete p m | None => m end |>
    | DcDelegate k pool => c <| delegations ::= <[k := pool]> |>
    | DcUndelegate k => c <| delegations ::= delete k |>
    end |>.

Definition apply_pool_change (s : LedgerState) (change : PoolChange) : LedgerState :=
  s <| certs ::= λ c,
    match change with
    | PcRegister params => c <| pool_params ::= <[pool_id params := params]> |>
    | PcReregister params => c <| future_pool_params ::= <[pool_id params := params]> |>
    | PcRetire pool epoch => c <| pending_retirements ::= <[pool := epoch]> |>
    | PcCancelRetirement pool => c <| pending_retirements ::= delete pool |>
    end |>.

Definition apply_reward_change (s : LedgerState) (change : RewardChange) : LedgerState :=
  s <| certs ::= λ c, c <| reward_accounts ::=
    match change with
    | RcCredit k amount => credit_stake k amount
    | RcWithdraw k amount => debit k amount
    | RcCreate k => or_insert_zero k
    | RcDestroy k => delete k
    end |> |>.

(** *** Governance *)

Definition apply_governance_change (s : LedgerState) (change : GovernanceChange) : LedgerState :=
  s <| gov ::= λ g,
    match change with
    | GcDRepRegister k registration _ =>
        g <| dreps ::= <[k := registration]> |> <| drep_registration_count ::= λ n, (n +w 1)%mach |>
    | GcDRepUpdate k anchor expiry =>
        g <| dreps ::= alter (λ d, d <| dr_anchor := anchor |> <| dr_drep_expiry := expiry |>
                                     <| dr_active := true |>) k |>
    | GcDRepUnregister k =>
        match dreps g !! k with
        | Some d => g <| dreps ::= delete k |>
                      <| vote_delegations ::= λ m, foldl (λ m c, delete c m) m (elements (dr_delegs d)) |>
        | None => g
        end
    | GcVoteDelegate k drep => g <| vote_delegations ::= <[k := drep]> |>
    | GcVoteUndelegate k => g <| vote_delegations ::= delete k |>
    | GcCommitteeHotAuth cold hot cold_script hot_script =>
        g <| committee_hot_keys ::= <[cold := hot]> |>
          <| committee_resigned ::= delete cold |>
          <| script_committee_credentials ::= λ m, if cold_script then {[cold]} ∪ m else m |>
          <| script_committee_hot_credentials ::= λ m, if hot_script then {[hot]} ∪ m else m |>
    | GcCommitteeResign cold anchor script =>
        g <| committee_resigned ::= <[cold := anchor]> |>
          <| committee_hot_keys ::= delete cold |>
          <| script_committee_credentials ::= λ m, if script then {[cold]} ∪ m else m |>
    | GcProposeAction id proposal =>
        g <| proposals ::= <[id := proposal]> |> <| proposal_count ::= λ n, (n +w 1)%mach |>
    | GcCastVote id voter procedure =>
        g <| votes_by_action ::= λ m, <[id := <[voter := procedure]> (default ∅ (m !! id))]> m |>
    | GcEnacted id proposal =>
        g <| proposals ::= delete id |> <| votes_by_action ::= delete id |>
          <| last_ratified ::= λ l, l ++ [(id, proposal)] |>
    | GcExpired id =>
        g <| proposals ::= delete id |> <| votes_by_action ::= delete id |>
          <| last_expired ::= λ l, l ++ [id] |>
    | GcSetConstitution c => g <| constitution := Some c |>
    | GcSetNoConfidence b => g <| no_confidence := b |>
    | GcSetCommitteeThreshold t => g <| committee_threshold := t |>
    | GcIncrementDRepCount => g <| drep_registration_count ::= λ n, (n +w 1)%mach |>
    | GcIncrementProposalCount => g <| proposal_count ::= λ n, (n +w 1)%mach |>
    end |>.

(** *** Epoch boundary *)

Definition delete_all `{Countable K} {A} (ks : list K) (m : gmap K A) : gmap K A :=
  foldl (λ m k, delete k m) m ks.

Definition transition_epochs (et : EpochTransitionDelta) (e : EpochSubState) : EpochSubState :=
  let e := e <| treasury := et_treasury et |> <| reserves := et_reserves et |>
             <| snapshots := et_snapshots et |>
             <| protocol_params := et_protocol_params et |>
             <| prev_protocol_params := et_prev_protocol_params et |>
             <| prev_d := et_prev_d et |>
             <| prev_protocol_version_major := et_prev_protocol_version_major et |> in
  if et_pending_pp_updates_cleared et
  then e <| pending_pp_updates := ∅ |> <| future_pp_updates := ∅ |>
  else e.

Definition transition_certs (et : EpochTransitionDelta) (c : CertSubState) : CertSubState :=
  c <| stake_map := et_stake_distribution et |>
    <| reward_accounts ::= λ m, map_fold (λ k amount m, credit_stake k amount m) m (et_reward_credits et) |>
    <| pool_params ::= delete_all (et_pools_retired et) |>
    <| future_pool_params ::= delete_all (et_pools_retired et) |>
    <| pending_retirements ::= filter (λ '(_, ep), et_new_epoch et < ep) |>
    <| pool_params ::= λ m, foldl (λ m '(k, p), <[k := p]> m) m (et_future_params_promoted et) |>
    <| future_pool_params ::= delete_all (et_future_params_promoted et).*1 |>.

Definition transition_gov (et : EpochTransitionDelta) (g : GovernanceState) : GovernanceState :=
  g <| dreps ::= λ m, map_fold (λ k active m, alter (λ d, d <| dr_active := active |>) k m) m
                        (et_drep_activity_updates et) |>
    <| last_ratified := et_last_ratified et |>
    <| last_expired := et_last_expired et |>
    <| last_ratify_delayed := et_last_ratify_delayed et |>
    <| constitution ::= λ c, match et_new_constitution et with Some c' => Some c' | None => c end |>
    <| no_confidence ::= restored (et_no_confidence et) |>
    <| committee_threshold ::= restored (et_committee_threshold et) |>
    <| proposals ::= λ m, delete_all (et_proposals_expired et) (delete_all (et_proposals_enacted et) m) |>
    <| votes_by_action ::= λ m, delete_all (et_proposals_expired et) (delete_all (et_proposals_enacted et) m) |>
    <| enacted_pparam_update ::= restored (et_enacted_pparam_update et) |>
    <| enacted_hard_fork ::= restored (et_enacted_hard_fork et) |>
    <| enacted_committee ::= restored (et_enacted_committee et) |>
    <| enacted_constitution ::= restored (et_enacted_constitution et) |>.

Definition apply_epoch_transition_delta (s : LedgerState) (et : EpochTransitionDelta) : LedgerState :=
  let s := s <| ls_epoch := et_new_epoch et |>
             <| epochs ::= transition_epochs et |>
             <| consensus ::= λ n, n <| cn_epoch_nonce := et_epoch_nonce et |>
                                     <| previous_epoch_nonce := et_previous_epoch_nonce et |>
                                     <| last_epoch_block_nonce := et_last_epoch_block_nonce et |>
                                     <| extra_entropy := et_extra_entropy et |> |>
             <| certs ::= transition_certs et |>
             <| gov ::= transition_gov et |> in
  foldl apply_delegation_change s (et_delegation_changes et)
    <| utxo ::= λ u, u <| epoch_fees := 0 |> |>
    <| consensus ::= λ n, n <| epoch_blocks_by_pool := ∅ |> <| epoch_block_count := 0 |> |>.

(** *** Per-block fields *)

Definition apply_block_fields (s : LedgerState) (f : BlockFieldsDelta) : LedgerState :=
  s <| utxo ::= λ u, u <| epoch_fees := bf_epoch_fees f |>
                       <| pending_donations := bf_pending_donations f |> |>
    <| ls_era := bf_era f |>
    <| epochs ::= λ e, e <| pending_avvm_return := bf_pending_avvm_return f |> |>
    <| consensus ::= λ n,
       n <| epoch_block_count := bf_epoch_block_count f |>
         <| evolving_nonce := bf_evolving_nonce f |>
         <| candidate_nonce := bf_candidate_nonce f |>
         <| lab_nonce := bf_lab_nonce f |>
         <| epoch_blocks_by_pool ::= λ m,
              match bf_pool_block_increment f with
              | Some pool => <[pool := (default 0 (m !! pool) +w 1)%mach]> m
              | None => m
              end |>
         <| opcert_counters ::= λ m,
              match bf_opcert_counter_update f with
              | Some (pool, seq) => <[pool := seq]> m
              | None => m
              end |> |>.

(** *** The whole delta *)

Definition restore_certs (d : LedgerDelta) (c : CertSubState) : CertSubState :=
  c <| reward_accounts ::= restored (reward_accounts_snapshot d) |>
    <| delegations ::= restored (delegations_snapshot d) |>
    <| stake_key_deposits ::= restored (stake_key_deposits_snapshot d) |>
    <| pool_params ::= restored (pool_params_snapshot d) |>
    <| future_pool_params ::= restored (future_pool_params_snapshot d) |>
    <| pending_retirements ::= restored (pending_retirements_snapshot d) |>
    <| pool_deposits ::= restored (pool_deposits_snapshot d) |>
    <| pointer_map ::= restored (pointer_map_snapshot d) |>
    <| script_stake_credentials ::= restored (script_stake_credentials_snapshot d) |>
    <| total_stake_key_deposits ::= restored (total_stake_key_deposits_snapshot d) |>
    <| pending_mir_reserves ::= restored (pending_mir_reserves_snapshot d) |>
    <| pending_mir_treasury ::= restored (pending_mir_treasury_snapshot d) |>
    <| pending_mir_delta_reserves ::= restored (pending_mir_delta_reserves_snapshot d) |>
    <| pending_mir_delta_treasury ::= restored (pending_mir_delta_treasury_snapshot d) |>.

Definition restore_epochs (d : LedgerDelta) (e : EpochSubState) : EpochSubState :=
  e <| pending_pp_updates ::= restored (pending_pp_updates_snapshot d) |>
    <| future_pp_updates ::= restored (future_pp_updates_snapshot d) |>
    <| rupd_addrs_rew ::= restored (rupd_addrs_rew_snapshot d) |>
    <| rupd_pulser_started ::= restored (rupd_pulser_started_snapshot d) |>
    <| rupd_monetary ::= restored (rupd_monetary_snapshot d) |>
    <| rupd_snapshot ::= restored (rupd_snapshot_delta d) |>.

Definition delta_point (d : LedgerDelta) : Point := Specific (d_slot d) (d_hash d).

Definition apply_delta_to_state (s : LedgerState) (d : LedgerDelta) : LedgerState :=
  let s := apply_utxo_diff s (d_utxo_diff d) in
  let s := foldl apply_delegation_change s (delegation_changes d) in
  let s := foldl apply_pool_change s (pool_changes d) in
  let s := foldl apply_reward_change s (reward_changes d) in
  let s := s <| certs ::= restore_certs d |>
             <| gov ::= restored (gov_snapshot d) |>
             <| genesis_delegates ::= restored (genesis_delegates_snapshot d) |>
             <| future_gen_delegs ::= restored (future_gen_delegs_snapshot d) |>
             <| byron ::= restored (byron_snapshot d) |> in
  let s := foldl apply_governance_change s (governance_changes d) in
  let s := match epoch_transition d with
           | Some et => apply_epoch_transition_delta s et
           | None => s
           end in
  let s := apply_block_fields s (block_fields d) in
  s <| consensus ::= λ n, n <| epoch_blocks_by_pool ::= restored (epoch_blocks_by_pool_snapshot d) |> |>
    <| epochs ::= restore_epochs d |>
    <| ls_tip := mkTip (delta_point d) (d_block_no d) |>.

End delta.

(** * Differences of the UTxO set ([ledger/src/utxo_diff.rs])

    Recording, merging and sequencing the differences, and the undo loop of
    [LedgerState::rollback_via_seq]: re-insert what a block spent, then remove
    what it created. *)


Section diff.
Context `{Payloads}.
Implicit Types (m : gmap TransactionInput TransactionOutput) (d : UtxoDiff) (q : DiffSeq).

(** ** One block *)

Definition diff_new : UtxoDiff := mkDiff [] [].

Definition record_insert d (input : TransactionInput) (output : TransactionOutput) : UtxoDiff :=
  mkDiff (inserts d ++ [(input, output)]) (deletes d).

Definition record_delete d (input : TransactionInput) (output : TransactionOutput) : UtxoDiff :=
  mkDiff (inserts d) (deletes d ++ [(input, output)]).

Definition diff_merge d (other : UtxoDiff) : UtxoDiff :=
  mkDiff (inserts d ++ inserts other) (deletes d ++ deletes other).

Definition diff_is_empty d : bool :=
  match inserts d, deletes d with [], [] => true | _, _ => false end.

(** ** The last blocks *)

Definition diff_push q (slot : Z) (hash : Hash32) d : DiffSeq := q ++ [(slot, hash, d)].

(** The evicted difference and the new sequence. *)
Definition push_bounded q (slot : Z) (hash : Hash32) d (max_len : nat)
    : option (Z * Hash32 * UtxoDiff) * DiffSeq :=
  if (0 <? max_len)%nat && (max_len <=? length q)%nat then
    (head q, tail q ++ [(slot, hash, d)])
  else (None, q ++ [(slot, hash, d)]).

(** What was removed, newest first, and what is left. *)
Definition diff_rollback q (n : nat) : list (Z * Hash32 * UtxoDiff) * DiffSeq :=
  let n := (n `min` length q)%nat in
  (reverse (drop (length q - n) q), take (length q - n) q).

Fixpoint flush_up_to q (slot : Z) : list UtxoDiff * DiffSeq :=
  match q with
  | (s, h, d) :: q' =>
      if s <=? slot then let '(flushed, rest) := flush_up_to q' slot in (d :: flushed, rest)
      else ([], q)
  | [] => ([], [])
  end.

(** ** Effect on the set *)

Definition insert_all (l : list (TransactionInput * TransactionOutput)) m :=
  foldl (λ m io, <[io.1 := io.2]> m) m l.

Definition remove_all_inputs (l : list (TransactionInput * TransactionOutput)) m :=
  foldl (λ m io, delete io.1 m) m l.

(** Forward: the two loops of [apply_utxo_diff] on the set. *)
Definition diff_apply m d := remove_all_inputs (deletes d) (insert_all (inserts d) m).

(** Backward: the two inner loops of [rollback_via_seq]. *)
Definition diff_undo m d := remove_all_inputs (inserts d) (insert_all (deletes d) m).

Definition diff_undo_all m (l : list (Z * Hash32 * UtxoDiff)) :=
  foldl (λ m e, diff_undo m e.2) m l.

(** What a difference recorded on [m] satisfies: it creates new inputs only, and
    what it spends is there, before the block or created by it. *)
Definition diff_wf m d : Prop :=
  (∀ i o, (i, o) ∈ inserts d → m !! i = None) ∧
  (∀ i o, (i, o) ∈ deletes d → insert_all (inserts d) m !! i = Some o).

Lemma insert_all_notin l m i : i ∉ l.*1 → insert_all l m !! i = m !! i.
Proof.
  unfold insert_all. revert m. induction l as [|[j o] l IH]; intros m Hi; [done|].
  cbn. cbn in Hi. apply not_elem_of_cons in Hi as [? ?]. rewrite IH by done.
  by apply lookup_insert_ne.
Qed.

Lemma insert_all_in l m i : i ∈ l.*1 → ∃ o, (i, o) ∈ l ∧ insert_all l m !! i = Some o.
Proof.
  unfold insert_all. revert m. induction l as [|[j o] l IH]; intros m Hi; [by apply elem_of_nil in Hi|].
  destruct (decide (i ∈ l.*1)) as [Hin|Hout].
  - destruct (IH (<[j := o]> m) Hin) as (o' & ? & ?). exists o'. by rewrite elem_of_cons; auto.
  - cbn in Hi. apply elem_of_cons in Hi as [->|?]; [|done]. exists o.
    split; [by constructor|]. cbn. pose proof (insert_all_notin l (<[j := o]> m) j Hout) as E.
    unfold insert_all in E. rewrite E. apply lookup_insert_eq.
Qed.

Lemma remove_all_lookup l m i :
  remove_all_inputs l m !! i = if decide (i ∈ l.*1) then None else m !! i.
Proof.
  unfold remove_all_inputs. revert m. induction l as [|[j o] l IH]; intros m; [done|].
  cbn. rewrite IH. case_decide as H1; case_decide as H2; [done| | |].
  - by destruct H2; constructor.
  - apply elem_of_cons in H2 as [->|?]; [apply lookup_delete_eq|done].
  - apply not_elem_of_cons in H2 as [? _]. by apply lookup_delete_ne.
Qed.

Lemma diff_undo_apply m d : diff_wf m d → diff_undo (diff_apply m d) d = m.
Proof.
  intros [Hnew Hold]. apply map_eq. intros i. unfold diff_undo.
  rewrite remove_all_lookup. case_decide as Hi.
  - apply list_elem_of_fmap in Hi as ([? o] & -> & Hi). by rewrite (Hnew _ o).
  - destruct (decide (i ∈ (deletes d).*1)) as [Hd|Hd].
    + destruct (insert_all_in _ (diff_apply m d) _ Hd) as (o & Ho & ->).
      apply Hold in Ho. by rewrite insert_all_notin in Ho.
    + rewrite insert_all_notin by done. unfold diff_apply. rewrite remove_all_lookup.
      rewrite decide_False by done. by apply insert_all_notin.
Qed.

End diff.
