(* ===== verification/LedgerSeq.v ===== *)
(** * The ledger sequence ([ledger/src/ledger_seq.rs])

    An anchor state and the deltas of the last [k] blocks, with checkpoints of
    reconstructed states. [usize] is [nat]; an out-of-range access and a loop
    that does not end are [None]. *)

From S2P Require Import Prelude Order RecordUpdate EraHistory Block Ledger LedgerDelta.
Local Open Scope record_scope.

Section seq.
Context `{Payloads}.

Record LedgerSeq := mkSeq {
  sq_anchor : LedgerState;
  sq_anchor_point : Point;
  sq_deltas : list LedgerDelta;
  sq_checkpoints : gmap nat LedgerState;
  sq_interval : nat;
  sq_k : nat;
  sq_catchup : bool;
  sq_incoherent : bool;
}.

#[global] Instance seq_fields : Fields LedgerSeq :=
  λ s, mkSeq (sq_anchor s) (sq_anchor_point s) (sq_deltas s) (sq_checkpoints s) (sq_interval s)
    (sq_k s) (sq_catchup s) (sq_incoherent s).

Implicit Types (q : LedgerSeq) (s t : LedgerState) (d : LedgerDelta).

(** ** Construction and accessors *)

Definition seq_new (anchor : LedgerState) (k checkpoint_interval : nat) : LedgerSeq :=
  mkSeq anchor (tip_point (ls_tip anchor)) [] ∅ checkpoint_interval k false false.

Definition seq_with_defaults (anchor : LedgerState) (k : nat) : LedgerSeq := seq_new anchor k 100.

Definition set_catchup_mode (catchup : bool) q : bool * LedgerSeq :=
  (negb (eqb (sq_catchup q) catchup), q <| sq_catchup := catchup |>).

Definition seq_len q : nat := length (sq_deltas q).
Definition max_rollback q : nat := length (sq_deltas q).

Definition seq_tip_point q : Point :=
  match last (sq_deltas q) with
  | Some d => delta_point d
  | None => sq_anchor_point q
  end.

(** ** Reconstruction *)

(** [checkpoints.range(..=index).next_back()] *)
Fixpoint nearest (cps : gmap nat LedgerState) (index : nat) : option (nat * LedgerState) :=
  match cps !! index with
  | Some st => Some (index, st)
  | None => match index with O => None | S i => nearest cps i end
  end.

(** [for i in idxs { apply_delta_to_state(&mut state, &deltas[i]) }] *)
Fixpoint apply_range (deltas : list LedgerDelta) (idxs : list nat) s : option LedgerState :=
  match idxs with
  | [] => Some s
  | i :: idxs' =>
      match deltas !! i with
      | Some d => apply_range deltas idxs' (apply_delta_to_state s d)
      | None => None
      end
  end.

Definition state_at_index q (index : nat) : option LedgerState :=
  let '(start_index, base_state) :=
    match nearest (sq_checkpoints q) index with
    | Some (cp_idx, cp_state) => (S cp_idx, cp_state)
    | None => (0, clone_without_utxos (sq_anchor q))
    end in
  apply_range (sq_deltas q) (seq start_index (S index - start_index)) base_state.

Definition tip_state q : option LedgerState :=
  match sq_deltas q with
  | [] => Some (clone_without_utxos (sq_anchor q))
  | _ => state_at_index q (length (sq_deltas q) - 1)
  end.

(** The index of the newest delta that satisfies [p]. *)
Definition newest_index (p : LedgerDelta → bool) (deltas : list LedgerDelta) : option nat :=
  List.find (λ i, match deltas !! i with Some d => p d | None => false end)
    (rev (seq 0 (length deltas))).

Definition state_at q (slot : Z) (hash : Hash32) : option (option LedgerState) :=
  match newest_index (λ d, (d_slot d =? slot)%Z && bool_decide (d_hash d = hash)) (sq_deltas q) with
  | Some idx => Some (state_at_index q idx)
  | None => None
  end.

(** ** Mutation *)

(** Every index shifts down by one; the checkpoint at 0 is dropped. *)
Definition reindex_checkpoints (cps : gmap nat LedgerState) : gmap nat LedgerState :=
  map_fold (λ idx st m, match idx with O => m | S i => <[i := st]> m end) ∅ cps.

Definition seq_advance_anchor q : LedgerSeq :=
  match sq_deltas q with
  | [] => q
  | oldest :: rest =>
      q <| sq_deltas := rest |>
        <| sq_anchor ::= λ s, apply_delta_to_state s oldest |>
        <| sq_anchor_point := delta_point oldest |>
        <| sq_checkpoints ::= reindex_checkpoints |>
  end.

(** [while self.deltas.len() >= k { self.advance_anchor() }] *)
Fixpoint make_room (fuel : nat) q : option LedgerSeq :=
  match fuel with
  | O => None
  | S fuel => if sq_k q <=? length (sq_deltas q) then make_room fuel (seq_advance_anchor q) else Some q
  end.

(** [parent != tip && !incoherent] sets the flag. *)
Definition check_parent d q : LedgerSeq :=
  match parent_point d with
  | Some parent => if bool_decide (parent = seq_tip_point q) then q else q <| sq_incoherent := true |>
  | None => q
  end.

(** [(n).is_multiple_of(m)]: of 0 only 0 is a multiple. *)
Definition is_multiple_of (n m : nat) : bool :=
  match m with O => n =? 0 | _ => n mod m =? 0 end.

Definition seq_push d q : option LedgerSeq :=
  let q := check_parent d q in
  match make_room (S (S (length (sq_deltas q)))) q with
  | None => None
  | Some q =>
      let q := q <| sq_deltas ::= λ l, l ++ [d] |> in
      let new_idx := length (sq_deltas q) - 1 in
      if negb (sq_catchup q) && is_multiple_of (new_idx + 1) (sq_interval q) then
        match state_at_index q new_idx with
        | Some cp => Some (q <| sq_checkpoints ::= <[new_idx := cp]> |>)
        | None => None
        end
      else Some q
  end.

Definition seq_rollback (n : nat) q : LedgerSeq :=
  let n := n `min` length (sq_deltas q) in
  let new_len := length (sq_deltas q) - n in
  q <| sq_deltas ::= take new_len |>
    <| sq_checkpoints ::= filter (λ '(idx, _), idx < new_len) |>.

Definition find_rollback_n (target : Point) q : option nat :=
  if sq_incoherent q then None
  else if bool_decide (sq_anchor_point q = target)
          || (denotes_origin (sq_anchor_point q) && denotes_origin target) then
    Some (length (sq_deltas q))
  else
    match newest_index (λ d, bool_decide (delta_point d = target)) (sq_deltas q) with
    | Some i => Some (length (sq_deltas q) - i - 1)
    | None => None
    end.

Definition seq_rollback_to_point (target : Point) q : option nat * LedgerSeq :=
  match find_rollback_n target q with
  | Some n => (Some n, seq_rollback n q)
  | None => (None, q)
  end.

Definition reset_anchor (new_anchor : LedgerState) q : LedgerSeq :=
  q <| sq_anchor_point := tip_point (ls_tip new_anchor) |>
    <| sq_anchor := new_anchor |>
    <| sq_deltas := [] |>
    <| sq_checkpoints := ∅ |>
    <| sq_incoherent := false |>.

(** ** Agreement up to the UTxO set *)

Definition same_ledger s t : Prop := clone_without_utxos s = clone_without_utxos t.

#[global] Instance same_ledger_equiv : Equivalence same_ledger.
Proof. split; unfold same_ledger; [done|by intros ? ? ->|by intros ? ? ? -> ->]. Qed.

End seq.

Infix "≅" := same_ledger (at level 70).

(** Takes two states that agree apart and makes their shared fields equal. *)
Ltac same_cases s t E :=
  destruct s as [[] ??????????????], t as [[] ??????????????];
  unfold same_ledger, clone_without_utxos in *; cbn in E; injection E; clear E; intros; subst.

Section same.
Context `{Payloads}.
Implicit Types (s t : LedgerState) (d : LedgerDelta).

Lemma clone_same s : clone_without_utxos s ≅ s.
Proof. done. Qed.

Lemma same_fields s t : s ≅ t →
  certs s = certs t ∧ gov s = gov t ∧ consensus s = consensus t ∧ epochs s = epochs t ∧
  ls_tip s = ls_tip t ∧ ls_era s = ls_era t ∧ pending_era_transition s = pending_era_transition t ∧
  ls_epoch s = ls_epoch t ∧ ls_config s = ls_config t ∧ genesis_delegates s = genesis_delegates t ∧
  future_gen_delegs s = future_gen_delegs t ∧ byron s = byron t ∧
  epoch_fees (utxo s) = epoch_fees (utxo t) ∧ pending_donations (utxo s) = pending_donations (utxo t).
Proof. unfold same_ledger, clone_without_utxos. intros E. injection E; intros. by split_and!. Qed.

Lemma same_ledger_iff s t : s ≅ t ↔
  certs s = certs t ∧ gov s = gov t ∧ consensus s = consensus t ∧ epochs s = epochs t ∧
  ls_tip s = ls_tip t ∧ ls_era s = ls_era t ∧ pending_era_transition s = pending_era_transition t ∧
  ls_epoch s = ls_epoch t ∧ ls_config s = ls_config t ∧ genesis_delegates s = genesis_delegates t ∧
  future_gen_delegs s = future_gen_delegs t ∧ byron s = byron t ∧
  epoch_fees (utxo s) = epoch_fees (utxo t) ∧ pending_donations (utxo s) = pending_donations (utxo t).
Proof.
  split; [apply same_fields|].
  intros (? & ? & ? & ? & ? & ? & ? & ? & ? & ? & ? & ? & ? & ?).
  unfold same_ledger, clone_without_utxos. by f_equal; [f_equal|..].
Qed.

(** Each step of a replay depends on the shared fields only. *)

#[local] Ltac same_step := intros s t E a ? <-; same_cases s t E; reflexivity.

#[global] Instance apply_delegation_change_same :
  Proper (same_ledger ==> eq ==> same_ledger) apply_delegation_change.
Proof. same_step. Qed.

#[global] Instance apply_pool_change_same :
  Proper (same_ledger ==> eq ==> same_ledger) apply_pool_change.
Proof. same_step. Qed.

#[global] Instance apply_reward_change_same :
  Proper (same_ledger ==> eq ==> same_ledger) apply_reward_change.
Proof. same_step. Qed.

#[global] Instance apply_governance_change_same :
  Proper (same_ledger ==> eq ==> same_ledger) apply_governance_change.
Proof. same_step. Qed.

#[global] Instance apply_block_fields_same :
  Proper (same_ledger ==> eq ==> same_ledger) apply_block_fields.
Proof. same_step. Qed.

#[global] Instance apply_insert_same :
  Proper (same_ledger ==> eq ==> same_ledger) apply_insert.
Proof.
  intros s t E a ? <-. same_cases s t E. unfold apply_insert, add_stake. cbn.
  by destruct (stake_routing _ _).
Qed.

#[global] Instance apply_delete_same :
  Proper (same_ledger ==> eq ==> same_ledger) apply_delete.
Proof.
  intros s t E a ? <-. same_cases s t E. unfold apply_delete, sub_stake. cbn.
  by destruct (stake_routing _ _).
Qed.

#[global] Instance foldl_same {A} (f : LedgerState → A → LedgerState) :
  Proper (same_ledger ==> eq ==> same_ledger) f →
  Proper (same_ledger ==> eq ==> same_ledger) (foldl f).
Proof.
  intros Hf s t E l ? <-. revert s t E.
  induction l as [|a l IH]; intros s t E; [done|]. apply IH. by rewrite E.
Qed.

#[global] Instance apply_utxo_diff_same :
  Proper (same_ledger ==> eq ==> same_ledger) apply_utxo_diff.
Proof. intros s t E a ? <-. unfold apply_utxo_diff. by rewrite E. Qed.

#[global] Instance apply_epoch_transition_same :
  Proper (same_ledger ==> eq ==> same_ledger) apply_epoch_transition_delta.
Proof.
  intros s t E et ? <-. unfold apply_epoch_transition_delta. cbn zeta.
  assert (∀ s t, s ≅ t →
    s <| utxo ::= λ u, u <| epoch_fees := 0%Z |> |>
      <| consensus ::= λ n, n <| epoch_blocks_by_pool := ∅ |> <| epoch_block_count := 0%Z |> |> ≅
    t <| utxo ::= λ u, u <| epoch_fees := 0%Z |> |>
      <| consensus ::= λ n, n <| epoch_blocks_by_pool := ∅ |> <| epoch_block_count := 0%Z |> |>) as Hend.
  { clear. intros s t E. same_cases s t E. reflexivity. }
  apply Hend, foldl_same; [apply _| |done]. same_cases s t E. reflexivity.
Qed.

(** Replaying a delta on states that agree gives states that agree. *)
#[global] Instance apply_delta_same :
  Proper (same_ledger ==> eq ==> same_ledger) apply_delta_to_state.
Proof.
  intros s t E d ? <-. unfold apply_delta_to_state. cbn zeta.
  assert (∀ (f : LedgerState → LedgerState), Proper (same_ledger ==> same_ledger) f →
    ∀ s t, s ≅ t → f s ≅ f t) as Hf by (intros f Pf ? ?; apply Pf).
  eapply (Hf (λ s, s <| consensus ::= _ |> <| epochs ::= _ |> <| ls_tip := _ |>)).
  { clear. intros s t E. same_cases s t E. reflexivity. }
  apply apply_block_fields_same; [|done].
  match goal with |- match ?x with _ => _ end ≅ _ => destruct x as [et|] end.
  1: apply apply_epoch_transition_same; [|done].
  all: apply foldl_same; [apply _| |done].
  all: eapply (Hf (λ s, s <| certs ::= _ |> <| gov ::= _ |> <| genesis_delegates ::= _ |>
    <| future_gen_delegs ::= _ |> <| byron ::= _ |>)); [clear; intros s t E; same_cases s t E; reflexivity|].
  all: by rewrite E.
Qed.

End same.
