(* ===== verification/LedgerSeqTheorems.v ===== *)
(** * Invariant of the ledger sequence and its abstract specification

    The abstract ledger database is the list of the states of the last blocks,
    oldest first; [abs] reads it off a sequence, and every operation of the
    sequence is the corresponding operation on that list. *)

From S2P Require Import Prelude Order RecordUpdate EraHistory Block Ledger LedgerDelta LedgerSeq.
Local Open Scope record_scope.


Section inv.
Context `{Payloads}.
Implicit Types (q : LedgerSeq) (s t : LedgerState) (d : LedgerDelta) (ds : list LedgerDelta).

(** ** Reference semantics *)

(** The state after the deltas, from scratch. *)
Definition replay s ds : LedgerState := foldl apply_delta_to_state s ds.

Definition Db : Type := list (Point * LedgerState).

(** The states after each of the deltas. *)
Fixpoint hist s ds : Db :=
  match ds with
  | [] => []
  | d :: ds' => let s' := apply_delta_to_state s d in (delta_point d, s') :: hist s' ds'
  end.

Definition abs q : Db := (sq_anchor_point q, sq_anchor q) :: hist (sq_anchor q) (sq_deltas q).

(** A block extends the database with its state; at most [k + 1] states stay. *)
Definition db_push (k : nat) d (db : Db) : Db :=
  match last db with
  | Some (_, s) =>
      let db' := db ++ [(delta_point d, apply_delta_to_state s d)] in
      drop (length db' - S k) db'
  | None => db
  end.

(** The oldest state always stays. *)
Definition db_rollback (n : nat) (db : Db) : Db := take (1 `max` (length db - n)) db.

Definition db_prune (db : Db) : Db := match db with _ :: (_ :: _) as db' => db' | _ => db end.

Lemma length_hist s ds : length (hist s ds) = length ds.
Proof. revert s. induction ds as [|d ds IH]; intros s; [done|]. cbn. by rewrite IH. Qed.

Lemma hist_app s ds1 ds2 : hist s (ds1 ++ ds2) = hist s ds1 ++ hist (replay s ds1) ds2.
Proof. revert s. induction ds1 as [|d ds1 IH]; intros s; [done|]. cbn. by rewrite IH. Qed.

Lemma hist_take s ds n : hist s (take n ds) = take n (hist s ds).
Proof. revert s n. induction ds as [|d ds IH]; intros s [|n]; [done..|]. cbn. by rewrite IH. Qed.

Lemma hist_lookup s ds i d :
  ds !! i = Some d → hist s ds !! i = Some (delta_point d, replay s (take (S i) ds)).
Proof.
  revert s i. induction ds as [|d' ds IH]; intros s i Hd; [done|].
  destruct i as [|i]; cbn in *; [by simplify_eq|]. by rewrite (IH _ _ Hd).
Qed.

Lemma hist_last s ds p : last ((p, s) :: hist s ds) = Some (default p (delta_point <$> last ds), replay s ds).
Proof.
  revert s p. induction ds as [|d ds IH]; intros s p; [done|].
  change (last ((p, s) :: hist s (d :: ds)))
    with (last ((delta_point d, apply_delta_to_state s d) :: hist (apply_delta_to_state s d) ds)).
  rewrite IH. change (replay s (d :: ds)) with (replay (apply_delta_to_state s d) ds).
  rewrite last_cons. by destruct (last ds).
Qed.

(** ** Checkpoints *)

Lemma nearest_Some cps i j st : nearest cps i = Some (j, st) → j ≤ i ∧ cps !! j = Some st.
Proof.
  induction i as [|i IH]; cbn; case_match; intros; simplify_eq; [done..|].
  destruct IH; [done|]. auto with lia.
Qed.

Lemma apply_range_spec ds a n s :
  a + n ≤ length ds → apply_range ds (seq a n) s = Some (replay s (take n (drop a ds))).
Proof.
  revert a s. induction n as [|n IH]; intros a s Hn; [done|].
  cbn [seq apply_range]. destruct (lookup_lt_is_Some_2 ds a) as [d Hd]; [lia|].
  rewrite Hd, IH by lia. by rewrite (drop_S _ _ _ Hd).
Qed.

Lemma reindex_lookup cps i : reindex_checkpoints cps !! i = cps !! S i.
Proof.
  unfold reindex_checkpoints. revert i.
  apply (map_fold_weak_ind (λ r m, ∀ i, r !! i = m !! S i)); [done|].
  intros [|j] st m r Hj IH i; [by rewrite IH, lookup_insert_ne by lia|].
  destruct (decide (i = j)) as [->|]; [by rewrite !lookup_insert_eq|].
  by rewrite !lookup_insert_ne by lia.
Qed.

(** Every checkpoint is the state after the deltas up to its index. *)
Record seq_ok q : Prop := {
  ok_point : sq_anchor_point q = tip_point (ls_tip (sq_anchor q));
  ok_cps : ∀ j st, sq_checkpoints q !! j = Some st →
    j < length (sq_deltas q) ∧ st ≅ replay (sq_anchor q) (take (S j) (sq_deltas q));
}.

#[global] Instance replay_same : Proper (same_ledger ==> eq ==> same_ledger) replay.
Proof. apply foldl_same, _. Qed.

Lemma state_at_index_spec q i : seq_ok q → i < length (sq_deltas q) →
  ∃ st, state_at_index q i = Some st ∧ st ≅ replay (sq_anchor q) (take (S i) (sq_deltas q)).
Proof.
  intros Hq Hi. unfold state_at_index.
  destruct (nearest (sq_checkpoints q) i) as [[j st]|] eqn:E.
  - apply nearest_Some in E as [Hj Hst]. apply (ok_cps _ Hq) in Hst as [_ Hst].
    eexists. split; [apply apply_range_spec; lia|]. rewrite Hst.
    unfold replay. rewrite <- foldl_app, take_drop_commute, Nat.add_comm.
    replace (S i - S j + S j) with (S i) by lia.
    rewrite <- (take_drop (S j) (take (S i) (sq_deltas q))) at 2. by rewrite take_take, Nat.min_l by lia.
  - eexists. split; [apply apply_range_spec; lia|]. rewrite clone_same, drop_0, Nat.sub_0_r. done.
Qed.

Lemma tip_state_spec q : seq_ok q →
  ∃ st, tip_state q = Some st ∧ st ≅ replay (sq_anchor q) (sq_deltas q).
Proof.
  intros Hq. unfold tip_state. destruct (sq_deltas q) as [|d ds] eqn:E.
  - eexists. by split; [done|apply clone_same].
  - destruct (state_at_index_spec q (length (d :: ds) - 1) Hq) as (st & Hst & Est).
    { rewrite E. cbn. lia. }
    exists st. split; [done|]. rewrite Est, E, take_ge; [done|]. cbn. lia.
Qed.

(** ** Operations *)

Lemma seq_new_ok a k ci : seq_ok (seq_new a k ci).
Proof. split; [done|]. intros j st Hj. cbn in Hj. by rewrite lookup_empty in Hj. Qed.

Lemma reset_ok a q : seq_ok (reset_anchor a q).
Proof. split; [done|]. intros j st Hj. cbn in Hj. by rewrite lookup_empty in Hj. Qed.

Lemma replay_cons s d ds : replay s (d :: ds) = replay (apply_delta_to_state s d) ds.
Proof. done. Qed.

Lemma advance_ok q : seq_ok q → seq_ok (seq_advance_anchor q).
Proof.
  intros Hq. unfold seq_advance_anchor. destruct (sq_deltas q) as [|d ds] eqn:E; [done|].
  split; [done|]. cbn. intros j st Hj. rewrite reindex_lookup in Hj.
  apply (ok_cps _ Hq) in Hj as [Hlt Hst]. rewrite E in *. cbn in Hlt. split; [lia|].
  by rewrite Hst, firstn_cons, replay_cons.
Qed.

Lemma advance_abs q : abs (seq_advance_anchor q) = db_prune (abs q).
Proof. unfold abs, seq_advance_anchor. by destruct (sq_deltas q) as [|d ds] eqn:E; cbn; rewrite ?E. Qed.

Lemma advance_fields q :
  sq_k (seq_advance_anchor q) = sq_k q ∧ sq_interval (seq_advance_anchor q) = sq_interval q ∧
  sq_catchup (seq_advance_anchor q) = sq_catchup q ∧ sq_incoherent (seq_advance_anchor q) = sq_incoherent q ∧
  sq_deltas (seq_advance_anchor q) = tail (sq_deltas q).
Proof. unfold seq_advance_anchor. by destruct (sq_deltas q) as [|d ds] eqn:E; cbn; rewrite ?E. Qed.

Lemma length_abs q : length (abs q) = S (length (sq_deltas q)).
Proof. cbn. by rewrite length_hist. Qed.

Lemma last_drop_lt {A} (l : list A) n : n < length l → last (drop n l) = last l.
Proof.
  intros Hn. rewrite !last_lookup, lookup_drop, length_drop. f_equal. lia.
Qed.

Lemma prune_drop (db : Db) : 1 < length db → db_prune db = drop 1 db.
Proof. destruct db as [|x [|y db]]; cbn; (done || lia). Qed.

(** Making room ends when [k] is positive: the oldest deltas go into the anchor
    until fewer than [k] are left. *)
Lemma make_room_spec fuel q : seq_ok q → 0 < sq_k q → length (sq_deltas q) < fuel →
  ∃ q', make_room fuel q = Some q' ∧ seq_ok q' ∧ sq_k q' = sq_k q ∧ sq_interval q' = sq_interval q ∧
    sq_catchup q' = sq_catchup q ∧ sq_incoherent q' = sq_incoherent q ∧
    sq_deltas q' = drop (S (length (sq_deltas q)) - sq_k q) (sq_deltas q) ∧
    abs q' = drop (S (length (sq_deltas q)) - sq_k q) (abs q).
Proof.
  revert q. induction fuel as [|fuel IH]; intros q Hq Hk Hf; [lia|]. cbn.
  destruct (Nat.leb_spec (sq_k q) (length (sq_deltas q))) as [Hle|Hgt].
  - destruct (advance_fields q) as (Ek & Ei & Ec & En & Ed).
    destruct (IH (seq_advance_anchor q)) as (q' & Hr & Hok & ? & ? & ? & ? & Hd & Ha).
    { by apply advance_ok. }
    { by rewrite Ek. }
    { rewrite Ed. destruct (sq_deltas q); cbn in *; lia. }
    exists q'. split_and!; try congruence; try done.
    + rewrite Hd, Ed, Ek. destruct (sq_deltas q) as [|d ds]; [cbn in *; lia|]. cbn [tail length] in *.
      by replace (S (S (length ds)) - sq_k q) with (S (S (length ds) - sq_k q)) by lia.
    + rewrite Ha, advance_abs, Ed, Ek, prune_drop, drop_drop; [|rewrite length_abs; lia]. f_equal.
      destruct (sq_deltas q) as [|d ds]; cbn [tail length] in *; lia.
  - exists q. replace (S (length (sq_deltas q)) - sq_k q) with 0 by lia. by rewrite !drop_0.
Qed.

Lemma check_parent_fields d q :
  sq_anchor (check_parent d q) = sq_anchor q ∧ sq_anchor_point (check_parent d q) = sq_anchor_point q ∧
  sq_deltas (check_parent d q) = sq_deltas q ∧ sq_checkpoints (check_parent d q) = sq_checkpoints q ∧
  sq_k (check_parent d q) = sq_k q ∧ sq_interval (check_parent d q) = sq_interval q ∧
  sq_catchup (check_parent d q) = sq_catchup q.
Proof. unfold check_parent. by repeat case_match. Qed.

Lemma check_parent_ok d q : seq_ok q → seq_ok (check_parent d q) ∧ abs (check_parent d q) = abs q.
Proof.
  intros Hq. destruct (check_parent_fields d q) as (Ea & Ep & Ed & Ec & _).
  split; [|by unfold abs; rewrite Ea, Ep, Ed].
  split; rewrite ?Ea, ?Ep; [apply Hq|]. intros j st. rewrite Ec, Ed. apply Hq.
Qed.

Lemma append_ok d q : seq_ok q → seq_ok (q <| sq_deltas ::= λ l, l ++ [d] |>).
Proof.
  intros Hq. split; cbn; [apply Hq|]. intros j st Hj. apply (ok_cps _ Hq) in Hj as [Hlt Hst].
  rewrite length_app. split; [cbn; lia|]. by rewrite take_app_le by lia.
Qed.

Lemma append_abs d q :
  abs (q <| sq_deltas ::= λ l, l ++ [d] |>) =
  abs q ++ [(delta_point d, apply_delta_to_state (replay (sq_anchor q) (sq_deltas q)) d)].
Proof. unfold abs. cbn. by rewrite hist_app. Qed.

Lemma push_spec d q : seq_ok q → 0 < sq_k q →
  ∃ q', seq_push d q = Some q' ∧ seq_ok q' ∧ sq_k q' = sq_k q ∧ sq_interval q' = sq_interval q ∧
    sq_catchup q' = sq_catchup q ∧ sq_incoherent q' = sq_incoherent (check_parent d q) ∧
    sq_deltas q' = drop (S (length (sq_deltas q)) - sq_k q) (sq_deltas q) ++ [d] ∧
    abs q' = db_push (sq_k q) d (abs q).
Proof.
  intros Hq Hk. unfold seq_push.
  destruct (check_parent_ok d q Hq) as [Hc Eabs].
  destruct (check_parent_fields d q) as (Ea & Ep & Ed & Ecp & Ek & Ei & Ect).
  destruct (make_room_spec (S (S (length (sq_deltas (check_parent d q))))) (check_parent d q) Hc)
    as (q1 & -> & Hok & Hk1 & Hi1 & Hc1 & Hn1 & Hd1 & Ha1); [by rewrite Ek|lia|].
  rewrite Ed, Ek in *. rewrite Eabs in Ha1.
  assert (abs (q1 <| sq_deltas ::= λ l, l ++ [d] |>) = db_push (sq_k q) d (abs q)) as Habs.
  { rewrite append_abs. unfold db_push. unfold abs at 2. rewrite hist_last.
    rewrite Ha1, length_app, length_abs. cbn [length].
    replace (S (length (sq_deltas q)) + 1 - S (sq_k q)) with (S (length (sq_deltas q)) - sq_k q) by lia.
    rewrite drop_app_le by (rewrite length_abs; lia). do 4 f_equal.
    pose proof (hist_last (sq_anchor q1) (sq_deltas q1) (sq_anchor_point q1)) as E1.
    change ((sq_anchor_point q1, sq_anchor q1) :: hist (sq_anchor q1) (sq_deltas q1)) with (abs q1) in E1.
    rewrite Ha1, last_drop_lt in E1 by (rewrite length_abs; lia).
    unfold abs in E1. rewrite hist_last in E1. congruence. }
  assert (seq_ok (q1 <| sq_deltas ::= λ l, l ++ [d] |>)) as Hok2 by by apply append_ok.
  set (q2 := q1 <| sq_deltas ::= λ l, l ++ [d] |>) in *.
  assert (sq_deltas q2 = drop (S (length (sq_deltas q)) - sq_k q) (sq_deltas q) ++ [d]) as Hd2.
  { cbn. by rewrite Hd1. }
  assert (length (sq_deltas q2) - 1 < length (sq_deltas q2)) as Hlt.
  { rewrite Hd2, length_app. cbn. lia. }
  destruct (negb _ && _) eqn:Eb; [|by exists q2; split_and!; cbn; try congruence].
  destruct (state_at_index_spec q2 _ Hok2 Hlt) as (st & Est & Hst).
  rewrite Est. eexists. split; [reflexivity|]. split_and!; cbn; try congruence; try done.
  split; [apply Hok2|]. cbn [sq_checkpoints sq_deltas update sq_anchor].
  intros j st'. destruct (decide (j = length (sq_deltas q2) - 1)) as [->|].
  - cbn. rewrite lookup_insert_eq. intros [= <-]. by split.
  - cbn. rewrite lookup_insert_ne by done. apply Hok2.
Qed.

Lemma seq_rollback_ok n q : seq_ok q → seq_ok (seq_rollback n q).
Proof.
  intros Hq. split; [apply Hq|]. cbn. intros j st [Hj Hlt]%map_lookup_filter_Some.
  apply (ok_cps _ Hq) in Hj as [Hj Hst]. split; [rewrite length_take; lia|].
  by rewrite take_take, Nat.min_l by lia.
Qed.

Lemma rollback_abs n q : abs (seq_rollback n q) = db_rollback n (abs q).
Proof.
  unfold db_rollback. rewrite length_abs. unfold abs. cbn -[Nat.max Nat.sub]. rewrite hist_take.
  replace (1 `max` (S (length (sq_deltas q)) - n)) with (S (length (sq_deltas q) - n `min` length (sq_deltas q)))
    by lia.
  done.
Qed.

End inv.

(** * Correctness of the ledger sequence

    The sequence implements the abstract database of the last states; a
    rollback to a point lands on it; what becomes of the checkpoints once the
    window is full. *)


Section theorems.
Context `{Payloads}.
Implicit Types (q : LedgerSeq) (s t : LedgerState) (d : LedgerDelta) (ds : list LedgerDelta).

(** ** Refinement *)

Inductive SeqOp : Type :=
| OpPush (d : LedgerDelta)
| OpRollback (n : nat)
| OpAdvance
| OpReset (a : LedgerState)
| OpCatchup (b : bool).

Definition seq_step (op : SeqOp) q : option LedgerSeq :=
  match op with
  | OpPush d => seq_push d q
  | OpRollback n => Some (seq_rollback n q)
  | OpAdvance => Some (seq_advance_anchor q)
  | OpReset a => Some (reset_anchor a q)
  | OpCatchup b => Some (set_catchup_mode b q).2
  end.

Definition db_step (k : nat) (op : SeqOp) (db : Db) : Db :=
  match op with
  | OpPush d => db_push k d db
  | OpRollback n => db_rollback n db
  | OpAdvance => db_prune db
  | OpReset a => [(tip_point (ls_tip a), a)]
  | OpCatchup _ => db
  end.

Fixpoint seq_run (ops : list SeqOp) q : option LedgerSeq :=
  match ops with
  | [] => Some q
  | op :: ops' => q' ← seq_step op q; seq_run ops' q'
  end.

Definition db_run (k : nat) (ops : list SeqOp) (db : Db) : Db := foldl (λ db op, db_step k op db) db ops.

Lemma seq_step_spec op q : seq_ok q → 0 < sq_k q → length (sq_deltas q) ≤ sq_k q →
  ∃ q', seq_step op q = Some q' ∧ seq_ok q' ∧ sq_k q' = sq_k q ∧ length (sq_deltas q') ≤ sq_k q ∧
    abs q' = db_step (sq_k q) op (abs q).
Proof.
  intros Hq Hk Hl. destruct op as [d|n| |a|b]; cbn.
  - destruct (push_spec d q Hq Hk) as (q' & -> & ? & Ek & _ & _ & _ & Ed & Ea).
    exists q'. split_and!; try done. rewrite Ed, length_app, length_drop. cbn. lia.
  - eexists. split_and!; [done|by apply seq_rollback_ok|done| |apply rollback_abs]. cbn. rewrite length_take. lia.
  - eexists. destruct (advance_fields q) as (Ek & _ & _ & _ & Ed).
    split_and!; [done|by apply advance_ok|done| |apply advance_abs]. rewrite Ed.
    destruct (sq_deltas q); cbn in *; lia.
  - eexists. split_and!; [done|apply reset_ok|done|cbn; lia|done].
  - eexists. split_and!; [done| |done..]. destruct Hq. by split.
Qed.

Lemma seq_run_spec ops q : seq_ok q → 0 < sq_k q → length (sq_deltas q) ≤ sq_k q →
  ∃ q', seq_run ops q = Some q' ∧ seq_ok q' ∧ sq_k q' = sq_k q ∧ length (sq_deltas q') ≤ sq_k q ∧
    abs q' = db_run (sq_k q) ops (abs q).
Proof.
  revert q. induction ops as [|op ops IH]; intros q Hq Hk Hl; [by exists q|].
  destruct (seq_step_spec op q Hq Hk Hl) as (q1 & Hs & Hok & Ek & Hl1 & Ea).
  destruct (IH q1) as (q' & ? & ? & ? & ? & Ea'); [done|congruence|by rewrite Ek|].
  exists q'. cbn. rewrite Hs. cbn. rewrite Ek in *. rewrite Ea' , Ea. done.
Qed.

(** C32: The ledger sequence implements the database of the last states. For
    any sequence of pushed blocks, rollbacks, anchor advances and resets with a
    positive security parameter, every operation ends, the states that the
    sequence denotes are exactly those of the abstract database (the states of
    the last [k] blocks and the one before them), and the state it reconstructs
    at the tip or at any block of the window, from whatever checkpoint it
    starts, agrees with the database on everything but the UTxO set. *)
Theorem ledger_seq_refines a k ci ops : 0 < k →
  ∃ q, seq_run ops (seq_new a k ci) = Some q ∧
    abs q = db_run k ops [(tip_point (ls_tip a), a)] ∧ length (abs q) ≤ S k ∧
    (∃ s st, last (abs q) = Some (seq_tip_point q, s) ∧ tip_state q = Some st ∧ st ≅ s) ∧
    (∀ i p s, abs q !! S i = Some (p, s) → ∃ st, state_at_index q i = Some st ∧ st ≅ s).
Proof.
  intros Hk. destruct (seq_run_spec ops (seq_new a k ci)) as (q & ? & Hq & _ & Hl & Ea);
    [apply seq_new_ok|done|cbn; lia|].
  exists q. split_and!; [done|done|rewrite length_abs; cbn in Hl; lia| |].
  - destruct (tip_state_spec q Hq) as (st & ? & ?). eexists _, st. split_and!; [|done..].
    unfold abs. rewrite hist_last. unfold seq_tip_point. by destruct (last (sq_deltas q)).
  - intros i p s Hi. cbn in Hi.
    assert (i < length (sq_deltas q)) as Hlt.
    { apply lookup_lt_Some in Hi. by rewrite length_hist in Hi. }
    destruct (lookup_lt_is_Some_2 _ _ Hlt) as [d Hd]. rewrite (hist_lookup _ _ _ _ Hd) in Hi.
    simplify_eq. by apply state_at_index_spec.
Qed.

(** ** Rollback to a point *)

Lemma find_agree {A} (f g : A → bool) (l : list A) :
  (∀ x, In x l → f x = g x) → List.find f l = List.find g l.
Proof.
  induction l as [|x l IH]; intros E; [done|]. cbn. rewrite (E x) by by left.
  rewrite IH; [done|]. intros y Hy. apply E. by right.
Qed.

Lemma newest_index_Some p ds i : newest_index p ds = Some i →
  ∃ d, ds !! i = Some d ∧ p d = true ∧ ∀ j d', i < j → ds !! j = Some d' → p d' = false.
Proof.
  unfold newest_index. induction ds as [|d0 ds IH] using rev_ind; [done|].
  rewrite length_app, seq_app, rev_app_distr. cbn. rewrite lookup_app_r, Nat.sub_diag by lia. cbn.
  destruct (p d0) eqn:E.
  - intros [= <-]. exists d0. rewrite lookup_app_r, Nat.sub_diag by lia. split_and!; [done..|].
    intros j d' Hj Hd'. apply lookup_lt_Some in Hd'. rewrite length_app in Hd'. cbn in Hd'. lia.
  - intros Hf.
    assert (newest_index p ds = Some i) as Hn.
    { unfold newest_index. rewrite <- Hf. apply find_agree. intros j Hj. apply in_rev, in_seq in Hj.
      by rewrite lookup_app_l by lia. }
    destruct (IH Hn) as (d & Hd & Hp & Hnew). exists d.
    rewrite lookup_app_l by by apply lookup_lt_Some in Hd. split_and!; [done..|].
    intros j d' Hj [Hd'|[_ Hd']]%lookup_app_Some; [by apply (Hnew j)|].
    by destruct (j - length ds); [simplify_list_eq|].
Qed.

Lemma newest_index_None p ds d : newest_index p ds = None → d ∈ ds → p d = false.
Proof.
  unfold newest_index. intros Hn [i Hi]%list_elem_of_lookup.
  assert (In i (rev (seq 0 (length ds)))) as Hin.
  { apply in_rev. rewrite rev_involutive. apply in_seq. apply lookup_lt_Some in Hi. lia. }
  pose proof (find_none _ _ Hn i Hin) as E. cbn in E. by rewrite Hi in E.
Qed.

(** The state at the rollback target is the newest with that point, or the anchor. *)
Definition rolls_to (target : Point) q q' : Prop :=
  (sq_anchor_point q = target ∨
    denotes_origin (sq_anchor_point q) = true ∧ denotes_origin target = true) ∧
    abs q' = [(sq_anchor_point q, sq_anchor q)] ∨
  ∃ i s, abs q' = take (S (S i)) (abs q) ∧ abs q !! S i = Some (target, s) ∧
    (∀ j t, abs q !! j = Some (target, t) → j ≤ S i).

Lemma elem_of_hist p s0 s ds : (p, s0) ∈ hist s ds → ∃ d, d ∈ ds ∧ delta_point d = p.
Proof.
  revert s. induction ds as [|d ds IH]; intros s; cbn; [by intros ?%elem_of_nil|].
  intros [?|Hin]%elem_of_cons; simplify_eq; [by exists d; split; [constructor|]|].
  apply IH in Hin as (d' & ? & ?). exists d'. by split; [constructor|].
Qed.

Lemma find_rollback_spec target q : seq_ok q → sq_incoherent q = false →
  match find_rollback_n target q with
  | Some n => n ≤ length (sq_deltas q) ∧ rolls_to target q (seq_rollback n q)
  | None => ∀ p s, (p, s) ∈ abs q → p ≠ target
  end.
Proof.
  intros Hq Hc. unfold find_rollback_n. rewrite Hc.
  destruct (bool_decide _ || _) eqn:Ea; [|destruct (newest_index _ _) as [n|] eqn:En].
  - split; [done|]. left. split.
    + apply orb_true_iff in Ea as [?%bool_decide_eq_true|[? ?]%andb_true_iff]; [by left|right; by split].
    + rewrite rollback_abs. unfold db_rollback. rewrite length_abs.
      by replace (S (length (sq_deltas q)) - length (sq_deltas q)) with 1 by lia.
  - apply orb_false_iff in Ea as [Ha%bool_decide_eq_false _].
    apply newest_index_Some in En as (d & Hd & Hp%bool_decide_eq_true & Hnew).
    pose proof (lookup_lt_Some _ _ _ Hd) as Hlt. split; [lia|]. right.
    eexists n, _. split_and!.
    + rewrite rollback_abs. unfold db_rollback. rewrite length_abs. f_equal. lia.
    + cbn. by rewrite (hist_lookup _ _ _ _ Hd), Hp.
    + intros [|j] t Hj; [lia|]. cbn in Hj. destruct (sq_deltas q !! j) as [d'|] eqn:E.
      * rewrite (hist_lookup _ _ _ _ E) in Hj. simplify_eq.
        destruct (decide (n < j)); [|lia]. apply Hnew in E; [|done].
        apply bool_decide_eq_false in E. destruct E. unfold delta_point. congruence.
      * apply lookup_ge_None in E. apply lookup_lt_Some in Hj. rewrite length_hist in Hj. lia.
  - apply orb_false_iff in Ea as [Ha%bool_decide_eq_false _].
    intros p s [?|(d & Hd & <-)%elem_of_hist]%elem_of_cons; [by simplify_eq|].
    apply (newest_index_None _ _ _ En) in Hd. by apply bool_decide_eq_false in Hd.
Qed.

(** ** Checkpoints of a full window *)

Fixpoint push_all ds q : option LedgerSeq :=
  match ds with
  | [] => Some q
  | d :: ds' => q' ← seq_push d q; push_all ds' q'
  end.

Lemma push_full d q : seq_ok q → 0 < sq_k q → length (sq_deltas q) = sq_k q →
  is_multiple_of (sq_k q) (sq_interval q) = false →
  ∃ q', seq_push d q = Some q' ∧ seq_ok q' ∧ sq_k q' = sq_k q ∧ sq_interval q' = sq_interval q ∧
    length (sq_deltas q') = sq_k q ∧ ∀ i, sq_checkpoints q' !! i = sq_checkpoints q !! S i.
Proof.
  intros Hq Hk Hl Hm. destruct (push_spec d q Hq Hk) as (q' & Hp & Hok & Ek & Ei & _ & _ & Ed & _).
  exists q'. split_and!; try done.
  { rewrite Ed, length_app, length_drop. cbn. lia. }
  intros i. revert Hp. unfold seq_push.
  destruct (check_parent_fields d q) as (Ea & Ep & Edl & Ecp & Ekk & Eii & Ecc).
  set (p := check_parent d q) in *. rewrite Edl, Hl. cbn [make_room].
  rewrite Edl, Ekk, Hl, Nat.leb_refl.
  destruct (advance_fields p) as (Fk & Fi & Fc & Fn & Fd). rewrite Fk, Fd, Ekk, Edl.
  destruct (sq_deltas q) as [|d0 ds0] eqn:E0; [cbn in Hl; lia|]. cbn [tail].
  cbn [length] in Hl. rewrite (proj2 (Nat.leb_gt _ _)) by lia.
  cbn [sq_deltas sq_catchup sq_interval update]. rewrite Fd, Edl. cbn [tail].
  rewrite length_app. cbn [length].
  replace (length ds0 + 1 - 1 + 1) with (sq_k q) by lia. rewrite Fi, Eii, Hm, andb_false_r.
  intros [= <-]. cbn. unfold seq_advance_anchor. rewrite Edl. cbn.
  by rewrite reindex_lookup, Ecp.
Qed.

Lemma push_all_full ds q : seq_ok q → 0 < sq_k q → length (sq_deltas q) = sq_k q →
  is_multiple_of (sq_k q) (sq_interval q) = false →
  ∃ q', push_all ds q = Some q' ∧ seq_ok q' ∧
    ∀ i, sq_checkpoints q' !! i = sq_checkpoints q !! (i + length ds).
Proof.
  revert q. induction ds as [|d ds IH]; intros q Hq Hk Hl Hm.
  { exists q. split_and!; [done..|]. intros i. by rewrite Nat.add_0_r. }
  destruct (push_full d q Hq Hk Hl Hm) as (q1 & Hp & Hok & Ek & Ei & Hl1 & Hc).
  destruct (IH q1) as (q' & Hr & Hok' & Hc'); [done|congruence..|].
  exists q'. cbn. rewrite Hp. split_and!; [done..|]. intros i. rewrite Hc', Hc. f_equal. cbn. lia.
Qed.

(** Once the window is full, checkpoints are not renewed unless [k] is a
    multiple of the checkpoint interval (2160 is not a multiple of the default
    100): no push stores one, and after [k] more blocks none is left, so every
    reconstruction replays the whole window from the anchor. *)
Theorem full_window_loses_checkpoints ds q :
  seq_ok q → 0 < sq_k q → length (sq_deltas q) = sq_k q →
  is_multiple_of (sq_k q) (sq_interval q) = false → sq_k q ≤ length ds →
  ∃ q', push_all ds q = Some q' ∧ sq_checkpoints q' = ∅ ∧
    ∀ i, state_at_index q' i =
      apply_range (sq_deltas q') (seq 0 (S i)) (clone_without_utxos (sq_anchor q')).
Proof.
  intros Hq Hk Hl Hm Hds. destruct (push_all_full ds q Hq Hk Hl Hm) as (q' & Hp & _ & Hc).
  assert (sq_checkpoints q' = ∅) as Hemp.
  { apply map_empty. intros i. rewrite Hc. destruct (sq_checkpoints q !! _) as [st|] eqn:E; [|done].
    apply (ok_cps _ Hq) in E as [E _]. lia. }
  exists q'. split_and!; [done..|]. intros i. unfold state_at_index. rewrite Hemp.
  assert (nearest ∅ i = None) as -> by by induction i.
  by rewrite Nat.sub_0_r.
Qed.

(** With [k = 0] the loop of a push never ends. *)
Lemma push_zero_diverges fuel q : sq_k q = 0 → make_room fuel q = None.
Proof.
  revert q. induction fuel as [|fuel IH]; intros q Hk; [done|]. cbn. rewrite Hk. cbn.
  apply IH. by rewrite (proj1 (advance_fields q)).
Qed.

End theorems.
