(* ===== verification/LedgerCapture.v ===== *)
(** * Capturing a block as a delta, and rolling the ledger back
    ([ledger/src/state/apply.rs], [ledger/src/state/mod.rs])

    [capture] is [apply_block_with_delta_impl] around the block rules: from the
    state before and after a block it builds the delta that is pushed on the
    ledger sequence. [rollback_via_seq] is the rollback of the live state. The
    pool id hash is a parameter. *)

From S2P Require Import Prelude Order RecordUpdate EraHistory Block Ledger LedgerDelta LedgerSeq.
Local Open Scope Z_scope.
Local Open Scope record_scope.

(** ** Overlay slots as the ledger counts them *)

Definition first_slot_of_shelley_epoch (epoch shelley_transition byron_length shelley_length : Z) : Z :=
  let byron_slots := saturating_mul64 shelley_transition byron_length in
  (byron_slots +s saturating_mul64 (epoch -s shelley_transition) shelley_length)%mach.

(** [div_ceil] of [u128]s; the products of two [u64]s fit. *)
Definition overlay_steps (x d_num d_den : Z) : Z := (x * d_num + d_den - 1) / d_den.

Definition ledger_is_overlay_slot (first_slot block_slot d_num d_den : Z) : bool :=
  if d_num =? 0 then false
  else if (d_den =? 0) || (d_den <=? d_num) then true
  else
    let s := (block_slot -s first_slot)%mach in
    overlay_steps s d_num d_den <? overlay_steps (s +w 1)%mach d_num d_den.

Section capture.
Context `{Payloads} (blake2b_224 : list Z → Hash28).
Implicit Types (pre post : LedgerState).

(** ** What is read of a block *)

Record BlockInfo := mkBlockInfo {
  bi_slot : Z;
  bi_hash : Hash32;
  bi_number : Z;
  bi_issuer_vkey : list Z;
  bi_fees : list (bool * Lovelace);   (* validity and fee of each transaction *)
}.

(** Which shared pointers the block rules replaced ([Arc::ptr_eq] is false). *)
Record Moves := mkMoves {
  mv_pool_params : bool;
  mv_gov : bool;
  mv_epoch_blocks : bool;
  mv_rupd_addrs : bool;
}.

Definition pool_state_changed (mv : Moves) pre post : bool :=
  mv_pool_params mv
  || negb (bool_decide (pending_retirements (certs post) = pending_retirements (certs pre)))
  || negb (bool_decide (future_pool_params (certs post) = future_pool_params (certs pre))).

Definition mir_changed pre post : bool :=
  negb (bool_decide (pending_mir_reserves (certs post) = pending_mir_reserves (certs pre)))
  || negb (bool_decide (pending_mir_treasury (certs post) = pending_mir_treasury (certs pre)))
  || negb (pending_mir_delta_reserves (certs post) =? pending_mir_delta_reserves (certs pre))
  || negb (pending_mir_delta_treasury (certs post) =? pending_mir_delta_treasury (certs pre)).

Definition rupd_changed (mv : Moves) pre post : bool :=
  match rupd_addrs_rew (epochs pre), rupd_addrs_rew (epochs post) with
  | None, None => false
  | Some _, Some _ => mv_rupd_addrs mv
  | _, _ => true
  end.

Definition captured_when {A} (b : bool) (x : A) : option A := if b then Some x else None.

Definition capture_transition post : EpochTransitionDelta :=
  let g := gov post in
  mkTransition (ls_epoch post) (treasury (epochs post)) (reserves (epochs post))
    (snapshots (epochs post)) (protocol_params (epochs post)) (prev_protocol_params (epochs post))
    (prev_d (epochs post)) (prev_protocol_version_major (epochs post))
    (bool_decide (pending_pp_updates (epochs post) = ∅) && bool_decide (future_pp_updates (epochs post) = ∅))
    (cn_epoch_nonce (consensus post)) (previous_epoch_nonce (consensus post))
    (last_epoch_block_nonce (consensus post)) (extra_entropy (consensus post))
    ∅ [] [] (dr_active <$> dreps g)
    (last_ratified g) (last_expired g) (last_ratify_delayed g)
    (constitution g) (Some (no_confidence g)) (Some (committee_threshold g))
    (last_ratified g).*1 (last_expired g)
    (Some (enacted_pparam_update g)) (Some (enacted_hard_fork g))
    (Some (enacted_committee g)) (Some (enacted_constitution g))
    (stake_map (certs post)) [].

(** From protocol version 7 on the decentralisation parameter counts as 0. *)
Definition pool_block_increment (b : BlockInfo) post : option Hash28 :=
  if bool_decide (bi_issuer_vkey b = []) then None else
  let pp := protocol_params (epochs post) in
  let '(d_num, d_den) :=
    if 7 <=? protocol_version_major pp then (0, 1)
    else (numerator (pp_d pp), Z.max (denominator (pp_d pp)) 1) in
  let cfg := ls_config post in
  let first_slot := first_slot_of_shelley_epoch (ls_epoch post) (shelley_transition_epoch cfg)
                      (byron_epoch_length cfg) (epoch_length cfg) in
  if ledger_is_overlay_slot first_slot (bi_slot b) d_num d_den then None
  else Some (blake2b_224 (bi_issuer_vkey b)).

Definition opcert_counter_update (b : BlockInfo) post : option (Hash28 * Z) :=
  if bool_decide (bi_issuer_vkey b = []) then None else
  let pool := blake2b_224 (bi_issuer_vkey b) in
  (λ n, (pool, n)) <$> opcert_counters (consensus post) !! pool.

Definition fees_collected (b : BlockInfo) : Lovelace :=
  foldl (λ acc '(valid, fee), if valid : bool then (acc +s fee)%mach else acc) 0 (bi_fees b).

Definition capture_block_fields (b : BlockInfo) post : BlockFieldsDelta :=
  mkBlockFields (fees_collected b) (pool_block_increment b post)
    (epoch_block_count (consensus post)) (evolving_nonce (consensus post))
    (candidate_nonce (consensus post)) (lab_nonce (consensus post))
    (epoch_fees (utxo post)) (pending_donations (utxo post)) (ls_era post)
    (pending_avvm_return (epochs post)) (opcert_counter_update b post).

(** The delta of a block that took [pre] to [post]. *)
Definition capture (b : BlockInfo) (mv : Moves) pre post : LedgerDelta :=
  let pool := pool_state_changed mv pre post in
  let mir := mir_changed pre post in
  let pulser := negb (eqb (rupd_pulser_started (epochs pre)) (rupd_pulser_started (epochs post))) in
  delta_new (bi_slot b) (bi_hash b) (bi_number b)
    <| parent_point := Some (tip_point (ls_tip pre)) |>
    <| reward_accounts_snapshot := Some (reward_accounts (certs post)) |>
    <| delegations_snapshot := Some (delegations (certs post)) |>
    <| stake_key_deposits_snapshot := Some (stake_key_deposits (certs post)) |>
    <| pool_params_snapshot := captured_when pool (pool_params (certs post)) |>
    <| future_pool_params_snapshot := captured_when pool (future_pool_params (certs post)) |>
    <| pending_retirements_snapshot := captured_when pool (pending_retirements (certs post)) |>
    <| pool_deposits_snapshot := captured_when pool (pool_deposits (certs post)) |>
    <| gov_snapshot := captured_when (mv_gov mv) (gov post) |>
    <| epoch_blocks_by_pool_snapshot := captured_when (mv_epoch_blocks mv) (epoch_blocks_by_pool (consensus post)) |>
    <| pointer_map_snapshot :=
         captured_when (negb (bool_decide (pointer_map (certs post) = pointer_map (certs pre)))) (pointer_map (certs post)) |>
    <| script_stake_credentials_snapshot :=
         captured_when (negb (bool_decide (script_stake_credentials (certs post) = script_stake_credentials (certs pre))))
           (script_stake_credentials (certs post)) |>
    <| total_stake_key_deposits_snapshot := Some (total_stake_key_deposits (certs post)) |>
    <| pending_mir_reserves_snapshot := captured_when mir (pending_mir_reserves (certs post)) |>
    <| pending_mir_treasury_snapshot := captured_when mir (pending_mir_treasury (certs post)) |>
    <| pending_mir_delta_reserves_snapshot := captured_when mir (pending_mir_delta_reserves (certs post)) |>
    <| pending_mir_delta_treasury_snapshot := captured_when mir (pending_mir_delta_treasury (certs post)) |>
    <| genesis_delegates_snapshot :=
         captured_when (negb (bool_decide (genesis_delegates post = genesis_delegates pre))) (genesis_delegates post) |>
    <| future_gen_delegs_snapshot :=
         captured_when (negb (bool_decide (future_gen_delegs post = future_gen_delegs pre))) (future_gen_delegs post) |>
    <| byron_snapshot := captured_when (negb (bool_decide (byron post = byron pre))) (byron post) |>
    <| pending_pp_updates_snapshot := Some (pending_pp_updates (epochs post)) |>
    <| future_pp_updates_snapshot := Some (future_pp_updates (epochs post)) |>
    <| rupd_addrs_rew_snapshot := captured_when (rupd_changed mv pre post) (rupd_addrs_rew (epochs post)) |>
    <| rupd_pulser_started_snapshot := captured_when pulser (rupd_pulser_started (epochs post)) |>
    <| rupd_monetary_snapshot := captured_when pulser (rupd_monetary (epochs post)) |>
    <| rupd_snapshot_delta :=
         captured_when (negb (bool_decide (rupd_snapshot (epochs pre) = rupd_snapshot (epochs post))))
           (rupd_snapshot (epochs post)) |>
    <| d_utxo_diff ::= λ d, match last (diff_seq (utxo post)) with Some e => e.2 | None => d end |>
    <| epoch_transition := captured_when (ls_epoch pre <? ls_epoch post) (capture_transition post) |>
    <| block_fields := capture_block_fields b post |>.

(** ** Rolling the live state back *)

(** [None] is the panic of an out-of-range reconstruction. *)
Definition rollback_via_seq (target : Point) (live : LedgerState) (q : LedgerSeq)
    : option (option nat * LedgerState * LedgerSeq) :=
  match find_rollback_n target q with
  | None => Some (None, live, q)
  | Some O => Some (Some O, live, q)
  | Some n =>
      if (length (diff_seq (utxo live)) <? n)%nat then Some (None, live, q) else
      let '(diffs, rest) := diff_rollback (diff_seq (utxo live)) n in
      let set := diff_undo_all (utxo_set (utxo live)) diffs in
      let q := seq_rollback n q in
      match tip_state q with
      | None => None
      | Some new_state =>
          let live := live
            <| utxo := mkUtxo set rest (epoch_fees (utxo new_state)) (pending_donations (utxo new_state)) |>
            <| certs := certs new_state |>
            <| gov := gov new_state |>
            <| consensus := consensus new_state |>
            <| epochs := epochs new_state |>
            <| ls_tip := ls_tip new_state |>
            <| ls_era := ls_era new_state |>
            <| ls_epoch := ls_epoch new_state |>
            <| pending_era_transition := pending_era_transition new_state |>
            <| genesis_delegates := genesis_delegates new_state |>
            <| future_gen_delegs := future_gen_delegs new_state |>
            <| byron := byron new_state |> in
          Some (Some n, live, q)
      end
  end.

End capture.
