(* ===== verification/LedgerRollback.v ===== *)
(** * Replaying captured blocks and rolling back, correctness

    When the delta captured from a block reproduces the block, which fields no
    delta records, and that a rollback gives back the state and the UTxO set
    that were live at its target. *)

From S2P Require Import Prelude Order RecordUpdate EraHistory Block Ledger LedgerDelta LedgerSeq LedgerSeqTheorems LedgerCapture.
Local Open Scope Z_scope.
Local Open Scope record_scope.

Section frozen.
Context `{Payloads}.
Implicit Types (s t : LedgerState) (d : LedgerDelta).

(** The mutable fields that no delta records. *)
Definition frozen s :=
  (vrf_key_hashes (certs s), ptr_stake_excluded (epochs s), needs_stake_rebuild (epochs s),
   pending_reward_update (epochs s), non_myopic (epochs s), last_applied_rupd (epochs s),
   rupd_fold (epochs s), pending_era_transition s, rolling_nonce (consensus s),
   first_block_hash_of_epoch (consensus s), prev_epoch_first_block_hash (consensus s), ls_config s).

Lemma insert_frozen s io : frozen (apply_insert s io) = frozen s.
Proof. unfold apply_insert, add_stake. by destruct (stake_routing _ _). Qed.

Lemma delete_frozen s io : frozen (apply_delete s io) = frozen s.
Proof. unfold apply_delete, sub_stake. by destruct (stake_routing _ _). Qed.

Lemma utxo_diff_frozen s diff : frozen (apply_utxo_diff s diff) = frozen s.
Proof.
  unfold apply_utxo_diff. rewrite (foldl_keeps frozen) by apply delete_frozen.
  by rewrite (foldl_keeps frozen) by apply insert_frozen.
Qed.

Lemma delegation_frozen s c : frozen (apply_delegation_change s c) = frozen s.
Proof. by destruct c. Qed.

Lemma transition_frozen s et : frozen (apply_epoch_transition_delta s et) = frozen s.
Proof.
  unfold apply_epoch_transition_delta. cbn zeta.
  match goal with |- frozen (?x <| utxo ::= _ |> <| consensus ::= _ |>) = _ => transitivity (frozen x) end; [done|].
  rewrite (foldl_keeps frozen) by apply delegation_frozen.
  unfold transition_epochs. cbn zeta. by destruct (et_pending_pp_updates_cleared et).
Qed.

Lemma delta_frozen s d : frozen (apply_delta_to_state s d) = frozen s.
Proof.
  unfold apply_delta_to_state. cbn zeta.
  match goal with
  | |- frozen (apply_block_fields ?x _ <| consensus ::= _ |> <| epochs ::= _ |> <| ls_tip := _ |>) = _ =>
      transitivity (frozen x); [done|]
  end.
  destruct (epoch_transition d) as [et|]; [rewrite transition_frozen|].
  all: rewrite (foldl_keeps frozen) by by intros ? [].
  all: match goal with
  | |- frozen (?x <| certs ::= _ |> <| gov ::= _ |> <| genesis_delegates ::= _ |>
                  <| future_gen_delegs ::= _ |> <| byron ::= _ |>) = _ => transitivity (frozen x); [done|]
  end.
  all: rewrite (foldl_keeps frozen) by by intros ? [].
  all: rewrite (foldl_keeps frozen) by by intros ? [].
  all: rewrite (foldl_keeps frozen) by apply delegation_frozen.
  all: apply utxo_diff_frozen.
Qed.

Lemma replay_frozen s ds : frozen (replay s ds) = frozen s.
Proof. apply foldl_keeps, delta_frozen. Qed.

Lemma same_frozen s t : s ≅ t → frozen s = frozen t.
Proof. intros E. same_cases s t E. reflexivity. Qed.

End frozen.

Section capture.
Context `{Payloads} (blake2b_224 : list Z → Hash28).
Implicit Types (s pre post : LedgerState) (b : BlockInfo) (mv : Moves).

(** ** Blocks that a delta describes *)

Definition block_diff post : UtxoDiff :=
  match last (diff_seq (utxo post)) with Some e => e.2 | None => mkDiff [] [] end.

(** A pointer that did not move points at the same content. *)
Record moves_honest mv pre post : Prop := {
  mh_pool : mv_pool_params mv = false → pool_params (certs pre) = pool_params (certs post);
  mh_gov : mv_gov mv = false → gov pre = gov post;
  mh_blocks : mv_epoch_blocks mv = false →
    epoch_blocks_by_pool (consensus pre) = epoch_blocks_by_pool (consensus post);
  mh_rupd : mv_rupd_addrs mv = false → ∀ x y, rupd_addrs_rew (epochs pre) = Some x →
    rupd_addrs_rew (epochs post) = Some y → x = y;
}.

(** What only changes at an epoch boundary, the stake map apart. *)
Definition boundary_fields s :=
  (ls_epoch s, treasury (epochs s), reserves (epochs s), snapshots (epochs s), protocol_params (epochs s),
   prev_protocol_params (epochs s), prev_d (epochs s), prev_protocol_version_major (epochs s),
   cn_epoch_nonce (consensus s), previous_epoch_nonce (consensus s), last_epoch_block_nonce (consensus s),
   extra_entropy (consensus s)).

(** A block whose effect the delta format can carry: it leaves the unrecorded
    fields alone, moves stake as its UTxO difference says, and the boundary
    fields change at a boundary only, where enacted and expired proposals are
    gone and due retirements are done. *)
Record block_recorded b mv pre post : Prop := {
  br_moves : moves_honest mv pre post;
  br_frozen : frozen post = frozen pre;
  br_tip : ls_tip post = mkTip (Specific (bi_slot b) (bi_hash b)) (bi_number b);
  br_ptr : ptr_stake (epochs post) = ptr_stake (epochs (apply_utxo_diff pre (block_diff post)));
  br_deposits : pool_state_changed mv pre post = false →
    pool_deposits (certs pre) = pool_deposits (certs post);
  br_monetary : rupd_pulser_started (epochs pre) = rupd_pulser_started (epochs post) →
    rupd_monetary (epochs pre) = rupd_monetary (epochs post);
  br_counted : mv_epoch_blocks mv = false →
    pool_block_increment blake2b_224 b post = None ∧
    (ls_epoch pre < ls_epoch post → epoch_blocks_by_pool (consensus post) = ∅);
  br_opcert : opcert_counters (consensus post) =
    match opcert_counter_update blake2b_224 b post with
    | Some (pool, n) => <[pool := n]> (opcert_counters (consensus pre))
    | None => opcert_counters (consensus pre)
    end;
  br_within : ¬ ls_epoch pre < ls_epoch post → boundary_fields post = boundary_fields pre ∧
    stake_map (certs post) = stake_map (certs (apply_utxo_diff pre (block_diff post)));
  br_boundary : ls_epoch pre < ls_epoch post →
    map_Forall (λ _ ep, ls_epoch post < ep) (pending_retirements (certs post)) ∧
    (∀ id, id ∈ (last_ratified (gov post)).*1 ++ last_expired (gov post) →
       proposals (gov post) !! id = None ∧ votes_by_action (gov post) !! id = None);
}.

(** ** Lemmas *)

Lemma restored_when {A} (c : bool) (x y : A) : (c = false → y = x) → restored (captured_when c x) y = x.
Proof. destruct c; cbn; auto. Qed.

Lemma negb_decide_same (P : Prop) `{Decision P} : negb (bool_decide P) = false → P.
Proof. intros E%negb_false_iff. by apply bool_decide_eq_true in E. Qed.

Lemma delete_all_absent `{Countable K} {A} (ks : list K) (m : gmap K A) :
  (∀ k, k ∈ ks → m !! k = None) → delete_all ks m = m.
Proof.
  unfold delete_all. induction ks as [|k ks IH]; intros Hm; [done|]. cbn.
  rewrite delete_id by (apply Hm; constructor). apply IH. intros k' Hk'. apply Hm. by constructor.
Qed.

Lemma activity_same (m : gmap Hash32 DRepRegistration) (l : gmap Hash32 bool) :
  (∀ k a d, l !! k = Some a → m !! k = Some d → dr_active d = a) →
  map_fold (λ k active m, alter (λ d, d <| dr_active := active |>) k m) m l = m.
Proof.
  apply (map_fold_weak_ind (λ r l,
    (∀ k a d, l !! k = Some a → m !! k = Some d → dr_active d = a) → r = m)); [done|].
  clear l. intros k a l r Hk IH Hl. rewrite IH.
  - apply alter_id. intros d Hd. specialize (Hl k a d). rewrite lookup_insert_eq in Hl.
    specialize (Hl eq_refl Hd). destruct d. cbn in *. by subst.
  - intros k' a' d Ha. apply Hl. rewrite lookup_insert_ne; congruence.
Qed.

Lemma transition_gov_same post :
  (∀ id, id ∈ (last_ratified (gov post)).*1 ++ last_expired (gov post) →
     proposals (gov post) !! id = None ∧ votes_by_action (gov post) !! id = None) →
  transition_gov (capture_transition post) (gov post) = gov post.
Proof.
  intros Hgone. apply gov_ext; cbn -[delete_all]; try reflexivity.
  - apply activity_same. intros k a d. rewrite lookup_fmap. intros Ha Hd. rewrite Hd in Ha. by simplify_eq/=.
  - rewrite (delete_all_absent _ (proposals (gov post))), delete_all_absent; [done| |]; intros id Hid; apply Hgone; set_solver.
  - rewrite (delete_all_absent _ (votes_by_action (gov post))), delete_all_absent; [done| |]; intros id Hid; apply Hgone; set_solver.
  - by destruct (constitution (gov post)).
Qed.

(** Moving stake and outputs leaves the rest of the state alone. *)
Definition apart_from_utxo s :=
  (gov s, consensus s, ls_tip s, ls_era s, ls_epoch s, genesis_delegates s, future_gen_delegs s, byron s,
   epoch_fees (utxo s), pending_donations (utxo s)).

Lemma utxo_diff_apart s diff : apart_from_utxo (apply_utxo_diff s diff) = apart_from_utxo s.
Proof.
  unfold apply_utxo_diff. rewrite !(foldl_keeps apart_from_utxo); [done| |]; intros t io.
  - unfold apply_insert, add_stake. by destruct (stake_routing _ _).
  - unfold apply_delete, sub_stake. by destruct (stake_routing _ _).
Qed.

Lemma utxo_diff_certs s diff :
  certs (apply_utxo_diff s diff) <| stake_map := ∅ |> = certs s <| stake_map := ∅ |>.
Proof.
  unfold apply_utxo_diff. rewrite !(foldl_keeps (λ s, certs s <| stake_map := ∅ |>)); [done| |]; intros t io.
  - unfold apply_insert, add_stake. by destruct (stake_routing _ _).
  - unfold apply_delete, sub_stake. by destruct (stake_routing _ _).
Qed.

Lemma utxo_diff_epochs s diff :
  epochs (apply_utxo_diff s diff) <| ptr_stake := ∅ |> = epochs s <| ptr_stake := ∅ |>.
Proof.
  unfold apply_utxo_diff. rewrite !(foldl_keeps (λ s, epochs s <| ptr_stake := ∅ |>)); [done| |]; intros t io.
  - unfold apply_insert, add_stake. by destruct (stake_routing _ _).
  - unfold apply_delete, sub_stake. by destruct (stake_routing _ _).
Qed.

(** What [apply_delta_to_state] is on a captured delta, which has no change lists. *)
Definition replayed b mv pre post : LedgerState :=
  let d := capture blake2b_224 b mv pre post in
  let s := apply_utxo_diff pre (block_diff post)
             <| certs ::= restore_certs d |> <| gov ::= restored (gov_snapshot d) |>
             <| genesis_delegates ::= restored (genesis_delegates_snapshot d) |>
             <| future_gen_delegs ::= restored (future_gen_delegs_snapshot d) |>
             <| byron ::= restored (byron_snapshot d) |> in
  let s := if ls_epoch pre <? ls_epoch post then apply_epoch_transition_delta s (capture_transition post) else s in
  apply_block_fields s (capture_block_fields blake2b_224 b post)
    <| consensus ::= λ n, n <| epoch_blocks_by_pool ::= restored (epoch_blocks_by_pool_snapshot d) |> |>
    <| epochs ::= restore_epochs d |>
    <| ls_tip := mkTip (delta_point d) (d_block_no d) |>.

Lemma replayed_eq b mv pre post :
  apply_delta_to_state pre (capture blake2b_224 b mv pre post) = replayed b mv pre post.
Proof.
  unfold apply_delta_to_state, replayed. cbn zeta.
  change (delegation_changes (capture blake2b_224 b mv pre post)) with (@nil DelegationChange).
  change (pool_changes (capture blake2b_224 b mv pre post)) with (@nil PoolChange).
  change (reward_changes (capture blake2b_224 b mv pre post)) with (@nil RewardChange).
  change (governance_changes (capture blake2b_224 b mv pre post)) with (@nil GovernanceChange).
  change (d_utxo_diff (capture blake2b_224 b mv pre post)) with (block_diff post).
  change (epoch_transition (capture blake2b_224 b mv pre post))
    with (captured_when (ls_epoch pre <? ls_epoch post) (capture_transition post)).
  change (block_fields (capture blake2b_224 b mv pre post)) with (capture_block_fields blake2b_224 b post).
  cbn [foldl]. by destruct (ls_epoch pre <? ls_epoch post).
Qed.

#[local] Ltac field_simpl :=
  cbn -[delete_all apply_utxo_diff block_diff pool_state_changed mir_changed rupd_changed map_fold filter
        restored captured_when pool_block_increment opcert_counter_update].

Lemma pool_state_same mv pre post : moves_honest mv pre post → pool_state_changed mv pre post = false →
  pool_params (certs pre) = pool_params (certs post) ∧
  pending_retirements (certs pre) = pending_retirements (certs post) ∧
  future_pool_params (certs pre) = future_pool_params (certs post).
Proof.
  intros Hm. unfold pool_state_changed. rewrite !orb_false_iff.
  intros [[Hp Hr%negb_decide_same] Hf%negb_decide_same]. by split_and!; [apply Hm| |].
Qed.

Lemma mir_same pre post : mir_changed pre post = false →
  pending_mir_reserves (certs pre) = pending_mir_reserves (certs post) ∧
  pending_mir_treasury (certs pre) = pending_mir_treasury (certs post) ∧
  pending_mir_delta_reserves (certs pre) = pending_mir_delta_reserves (certs post) ∧
  pending_mir_delta_treasury (certs pre) = pending_mir_delta_treasury (certs post).
Proof.
  unfold mir_changed. rewrite !orb_false_iff.
  intros [[[Hr%negb_decide_same Ht%negb_decide_same] Hdr%negb_false_iff] Hdt%negb_false_iff].
  apply Z.eqb_eq in Hdr, Hdt. by split_and!.
Qed.

Lemma restore_certs_eq b mv pre post : block_recorded b mv pre post →
  restore_certs (capture blake2b_224 b mv pre post) (certs (apply_utxo_diff pre (block_diff post))) =
  certs post <| stake_map := stake_map (certs (apply_utxo_diff pre (block_diff post))) |>.
Proof.
  intros Hr. pose proof (utxo_diff_certs pre (block_diff post)) as Ec.
  set (u := apply_utxo_diff pre (block_diff post)) in *.
  pose proof (pool_state_same mv pre post (br_moves _ _ _ _ Hr)) as Hpool.
  pose proof (mir_same pre post) as Hmir. pose proof (br_frozen _ _ _ _ Hr) as Hz.
  apply certs_ext; field_simpl; try reflexivity.
  all: try (apply restored_when; intros Hc).
  - rewrite (f_equal pool_params Ec : pool_params (certs u) = _). by apply Hpool.
  - rewrite (f_equal future_pool_params Ec : future_pool_params (certs u) = _). by apply Hpool.
  - rewrite (f_equal pending_retirements Ec : pending_retirements (certs u) = _). by apply Hpool.
  - rewrite (f_equal vrf_key_hashes Ec : vrf_key_hashes (certs u) = _). unfold frozen in Hz. by simplify_eq.
  - rewrite (f_equal pool_deposits Ec : pool_deposits (certs u) = _). by apply Hr.
  - rewrite (f_equal pointer_map Ec : pointer_map (certs u) = _). by apply negb_decide_same in Hc.
  - rewrite (f_equal script_stake_credentials Ec : script_stake_credentials (certs u) = _).
    by apply negb_decide_same in Hc.
  - rewrite (f_equal pending_mir_reserves Ec : pending_mir_reserves (certs u) = _). by apply Hmir.
  - rewrite (f_equal pending_mir_treasury Ec : pending_mir_treasury (certs u) = _). by apply Hmir.
  - rewrite (f_equal pending_mir_delta_reserves Ec : pending_mir_delta_reserves (certs u) = _). by apply Hmir.
  - rewrite (f_equal pending_mir_delta_treasury Ec : pending_mir_delta_treasury (certs u) = _). by apply Hmir.
Qed.

Lemma transition_certs_same post sm :
  map_Forall (λ _ ep, ls_epoch post < ep) (pending_retirements (certs post)) →
  transition_certs (capture_transition post) (certs post <| stake_map := sm |>) = certs post.
Proof.
  intros Hret. apply certs_ext; field_simpl; try reflexivity.
  apply map_filter_id. intros k ep Hk. by apply (Hret k).
Qed.

Lemma replayed_certs b mv pre post :
  block_recorded b mv pre post → certs (replayed b mv pre post) = certs post.
Proof.
  intros Hr. pose proof (restore_certs_eq b mv pre post Hr) as Ec. unfold replayed. cbn zeta.
  destruct (Z.ltb_spec (ls_epoch pre) (ls_epoch post)) as [Hlt|Hge].
  - trans (transition_certs (capture_transition post) (restore_certs (capture blake2b_224 b mv pre post)
      (certs (apply_utxo_diff pre (block_diff post))))); [reflexivity|].
    rewrite Ec. apply transition_certs_same, (br_boundary _ _ _ _ Hr Hlt).
  - trans (restore_certs (capture blake2b_224 b mv pre post)
      (certs (apply_utxo_diff pre (block_diff post)))); [reflexivity|]. rewrite Ec.
    rewrite <- (proj2 (br_within _ _ _ _ Hr ltac:(lia))). by apply certs_ext.
Qed.

Lemma replayed_gov b mv pre post :
  block_recorded b mv pre post → gov (replayed b mv pre post) = gov post.
Proof.
  intros Hr. pose proof (utxo_diff_apart pre (block_diff post)) as Ea.
  assert (restored (captured_when (mv_gov mv) (gov post)) (gov (apply_utxo_diff pre (block_diff post))) = gov post) as Eg.
  { apply restored_when. intros Hm. unfold apart_from_utxo in Ea.
    rewrite (f_equal (λ x, x.1.1.1.1.1.1.1.1.1) Ea : gov _ = gov pre). by apply (br_moves _ _ _ _ Hr). }
  unfold replayed. cbn zeta.
  destruct (Z.ltb_spec (ls_epoch pre) (ls_epoch post)) as [Hlt|Hge].
  - trans (transition_gov (capture_transition post)
      (restored (captured_when (mv_gov mv) (gov post)) (gov (apply_utxo_diff pre (block_diff post))))); [reflexivity|].
    rewrite Eg. apply transition_gov_same, (br_boundary _ _ _ _ Hr Hlt).
  - exact Eg.
Qed.

Lemma replayed_consensus b mv pre post :
  block_recorded b mv pre post → consensus (replayed b mv pre post) = consensus post.
Proof.
  intros Hr. pose proof (utxo_diff_apart pre (block_diff post)) as Ea.
  set (u := apply_utxo_diff pre (block_diff post)) in *.
  assert (consensus u = consensus pre) as En by exact (f_equal (λ x, x.1.1.1.1.1.1.1.1.2) Ea).
  pose proof (br_frozen _ _ _ _ Hr) as Hz. unfold frozen in Hz. injection Hz as Hz.
  pose proof (br_opcert _ _ _ _ Hr) as Ho. pose proof (br_counted _ _ _ _ Hr) as Hcount.
  pose proof (mh_blocks _ _ _ (br_moves _ _ _ _ Hr)) as Hblocks.
  unfold replayed. cbn zeta. fold u.
  destruct (Z.ltb_spec (ls_epoch pre) (ls_epoch post)) as [Hlt|Hge].
  - apply consensus_ext; field_simpl; rewrite ?En; try congruence.
    apply restored_when. intros [-> Hempty]%Hcount. by rewrite Hempty.
  - pose proof (proj1 (br_within _ _ _ _ Hr ltac:(lia))) as Hw. unfold boundary_fields in Hw.
    injection Hw as ? ? ? ? ? ? ? ? ? ? ? ?.
    apply consensus_ext; field_simpl; rewrite ?En; try congruence.
    apply restored_when. intros Hm. destruct (Hcount Hm) as [-> _]. by apply Hblocks.
Qed.

Definition epochs_rest (e : EpochSubState) :=
  (pending_reward_update e, non_myopic e, last_applied_rupd e, needs_stake_rebuild e, ptr_stake_excluded e,
   rupd_addrs_rew e, rupd_pulser_started e, rupd_monetary e, rupd_snapshot e, rupd_fold e).

Definition epochs_bound (e : EpochSubState) :=
  (snapshots e, treasury e, reserves e, protocol_params e, prev_protocol_params e,
   prev_protocol_version_major e, prev_d e, ptr_stake e).

Lemma rupd_same mv pre post : moves_honest mv pre post → rupd_changed mv pre post = false →
  rupd_addrs_rew (epochs pre) = rupd_addrs_rew (epochs post).
Proof.
  intros Hm. unfold rupd_changed. destruct (rupd_addrs_rew (epochs pre)) eqn:E1, (rupd_addrs_rew (epochs post)) eqn:E2;
    try done. intros Hc. f_equal. by eapply (mh_rupd _ _ _ Hm Hc).
Qed.

Lemma restore_epochs_eq b mv pre post (e : EpochSubState) : block_recorded b mv pre post →
  epochs_rest e = epochs_rest (epochs pre) → epochs_bound e = epochs_bound (epochs post) →
  restore_epochs (capture blake2b_224 b mv pre post)
    (e <| pending_avvm_return := pending_avvm_return (epochs post) |>) = epochs post.
Proof.
  intros Hr E1 E2. injection E1 as ? ? ? ? ? ? ? ? ? ?. injection E2 as ? ? ? ? ? ? ? ?.
  pose proof (br_frozen _ _ _ _ Hr) as Hz. injection Hz as ? ? ? ? ? ? ? ? ? ? ? ?.
  pose proof (rupd_same _ _ _ (br_moves _ _ _ _ Hr)) as Hrupd.
  apply epochs_ext; field_simpl; try congruence; try reflexivity.
  all: apply restored_when; intros Hc.
  - rewrite <- Hrupd; congruence.
  - apply negb_false_iff, eqb_prop in Hc. congruence.
  - apply negb_false_iff, eqb_prop in Hc. rewrite <- (br_monetary _ _ _ _ Hr Hc). congruence.
  - apply negb_decide_same in Hc. congruence.
Qed.

Lemma replayed_epochs b mv pre post :
  block_recorded b mv pre post → epochs (replayed b mv pre post) = epochs post.
Proof.
  intros Hr. pose proof (utxo_diff_epochs pre (block_diff post)) as Ee.
  pose proof (br_ptr _ _ _ _ Hr) as Hptr.
  assert (∀ e : EpochSubState, epochs_rest e = epochs_rest (e <| ptr_stake := ∅ |>)) as Hrest by done.
  unfold replayed. cbn zeta. set (u := apply_utxo_diff pre (block_diff post)) in *.
  destruct (Z.ltb_spec (ls_epoch pre) (ls_epoch post)) as [Hlt|Hge].
  - apply (restore_epochs_eq b mv pre post (transition_epochs (capture_transition post) (epochs u)) Hr).
    + rewrite (Hrest (epochs pre)), <- Ee. unfold transition_epochs. cbn zeta.
      by destruct (et_pending_pp_updates_cleared _).
    + unfold epochs_bound. rewrite Hptr. unfold transition_epochs. cbn zeta.
      by destruct (et_pending_pp_updates_cleared _).
  - apply (restore_epochs_eq b mv pre post (epochs u) Hr).
    + by rewrite Hrest, Ee.
    + pose proof (proj1 (br_within _ _ _ _ Hr ltac:(lia))) as Hw. injection Hw as ? ? ? ? ? ? ? ? ? ? ? ?.
      assert (epochs_bound (epochs u) = epochs_bound (epochs pre <| ptr_stake := ptr_stake (epochs u) |>)) as ->.
      { pose proof (f_equal (λ e, (snapshots e, treasury e, reserves e, protocol_params e, prev_protocol_params e,
          prev_protocol_version_major e, prev_d e)) Ee) as E. injection E as ? ? ? ? ? ? ?.
        unfold epochs_bound. field_simpl. congruence. }
      unfold epochs_bound. field_simpl. congruence.
Qed.

Lemma capture_replays b mv pre post : block_recorded b mv pre post →
  apply_delta_to_state pre (capture blake2b_224 b mv pre post) ≅ post.
Proof.
  intros Hr. rewrite replayed_eq. pose proof (utxo_diff_apart pre (block_diff post)) as Ea.
  pose proof (utxo_diff_frozen pre (block_diff post)) as Ef.
  pose proof (br_frozen _ _ _ _ Hr) as Hz. rewrite <- Ef in Hz.
  apply same_ledger_iff.
  split_and!; [by apply replayed_certs|by apply replayed_gov|by apply replayed_consensus|by apply replayed_epochs|..].
  all: unfold replayed; cbn zeta; set (u := apply_utxo_diff pre (block_diff post)) in *.
  all: injection Ea as ? ? ? ? ? ? ? ? ? ?; injection Hz as ? ? ? ? ? ? ? ? ? ? ? ?.
  - symmetry. apply Hr.
  - by destruct (ls_epoch pre <? ls_epoch post).
  - destruct (ls_epoch pre <? ls_epoch post); field_simpl; congruence.
  - destruct (Z.ltb_spec (ls_epoch pre) (ls_epoch post)) as [Hlt|Hge]; [done|]. field_simpl.
    pose proof (proj1 (br_within _ _ _ _ Hr ltac:(lia))) as Hw. injection Hw as ? ? ? ? ? ? ? ? ? ? ? ?. congruence.
  - destruct (ls_epoch pre <? ls_epoch post); field_simpl; congruence.
  - destruct (ls_epoch pre <? ls_epoch post); field_simpl; apply restored_when; intros Hc%negb_decide_same; congruence.
  - destruct (ls_epoch pre <? ls_epoch post); field_simpl; apply restored_when; intros Hc%negb_decide_same; congruence.
  - destruct (ls_epoch pre <? ls_epoch post); field_simpl; apply restored_when; intros Hc%negb_decide_same; congruence.
  - by destruct (ls_epoch pre <? ls_epoch post).
  - by destruct (ls_epoch pre <? ls_epoch post).
Qed.

End capture.
