(* ===== verification/LedgerTheorems.v ===== *)
(** * The live ledger and its sequence in step

    The live state, the ledger sequence and the list of the states that were
    live, newest first: applying blocks and rolling back keep them in step, so
    a rollback gives back the ledger that was live at its target. *)

From S2P Require Import Prelude Order RecordUpdate EraHistory Block Ledger LedgerDelta LedgerSeq LedgerSeqTheorems LedgerCapture LedgerRollback Overlay.
Local Open Scope Z_scope.
Local Open Scope record_scope.


Section rebase.
Context `{Payloads}.
Implicit Types (a s t : LedgerState).

(** The state [s] with the mutable fields that no delta records ([frozen]) as
    they are in [a]. *)
Definition rebase_certs (a c : CertSubState) : CertSubState :=
  c <| vrf_key_hashes := vrf_key_hashes a |>.

Definition rebase_consensus (a c : ConsensusSubState) : ConsensusSubState :=
  mkConsensus (evolving_nonce c) (candidate_nonce c) (cn_epoch_nonce c) (previous_epoch_nonce c)
    (lab_nonce c) (last_epoch_block_nonce c) (extra_entropy c) (rolling_nonce a)
    (first_block_hash_of_epoch a) (prev_epoch_first_block_hash a) (epoch_blocks_by_pool c)
    (epoch_block_count c) (opcert_counters c).

Definition rebase_epochs (a e : EpochSubState) : EpochSubState :=
  mkEpochs (snapshots e) (treasury e) (reserves e) (pending_reward_update a) (non_myopic a)
    (last_applied_rupd a) (pending_pp_updates e) (future_pp_updates e) (needs_stake_rebuild a)
    (ptr_stake e) (ptr_stake_excluded a) (protocol_params e) (prev_protocol_params e)
    (prev_protocol_version_major e) (prev_d e) (rupd_addrs_rew e) (rupd_pulser_started e)
    (rupd_monetary e) (rupd_snapshot e) (rupd_fold a) (pending_avvm_return e).

Definition rebase a s : LedgerState :=
  mkLedger (utxo s) (rebase_certs (certs a) (certs s)) (gov s)
    (rebase_consensus (consensus a) (consensus s)) (rebase_epochs (epochs a) (epochs s))
    (ls_tip s) (ls_era s) (pending_era_transition a) (ls_epoch s) (ls_config s)
    (genesis_delegates s) (future_gen_delegs s) (byron s) (phase2_apply_horizon s)
    (cached_validation_registry s).

#[global] Instance rebase_same : Proper (eq ==> same_ledger ==> same_ledger) rebase.
Proof.
  intros a ? <- s t E. apply same_fields in E as (Ec & Eg & En & Ee & Et & Er & Ep & Eo & Ek & E).
  apply same_ledger_iff. unfold rebase. cbn. rewrite Ec, Eg, En, Ee, Et, Er, Eo, Ek.
  destruct E as (? & ? & ? & ? & ?). by split_and!.
Qed.

Lemma rebase_idem a s : rebase a (rebase a s) = rebase a s.
Proof. reflexivity. Qed.

(** Nothing moves when the unrecorded fields agree. *)
Lemma rebase_id a s : frozen s = frozen a → rebase a s = s.
Proof.
  intros E. destruct s as [? [] ? [] [] ??????????]. unfold frozen in E. cbn in E.
  injection E as -> -> -> -> -> -> -> -> -> -> -> ->. reflexivity.
Qed.

End rebase.

Section track.
Context `{Payloads} (blake2b_224 : list Z → Hash28) (a : LedgerState).
Implicit Types (live pre post l : LedgerState) (q : LedgerSeq) (back : list LedgerState).

(** A block that the delta format can carry up to the unrecorded fields, which
    it may change at will: [block_recorded] holds of the states with these
    fields as in the anchor [a], so stake moves as the UTxO difference says
    under the anchor's pointer switch. With the UTxO set that the block leaves
    and the difference it appends; [max_len] is the security parameter. *)
Record block_step (max_len : nat) (b : BlockInfo) (mv : Moves) pre post : Prop := {
  bs_recorded : block_recorded blake2b_224 b mv (rebase a pre) (rebase a post);
  bs_set : utxo_set (utxo post) = diff_apply (utxo_set (utxo pre)) (block_diff post);
  bs_wf : diff_wf (utxo_set (utxo pre)) (block_diff post);
  bs_seq : diff_seq (utxo post) =
    (push_bounded (diff_seq (utxo pre)) (bi_slot b) (bi_hash b) (block_diff post) max_len).2;
}.

(** The UTxO set with the last [n] differences undone. *)
Definition undone (n : nat) l := diff_undo_all (utxo_set (utxo l)) (take n (reverse (diff_seq (utxo l)))).

(** The sequence keeps a state with the unrecorded fields of its anchor. *)
Definition tracked (e : Point * LedgerState) l : Prop := e.1 = tip_point (ls_tip l) ∧ e.2 ≅ rebase a l.

Record tracks live q back : Prop := {
  tk_ok : seq_ok q;
  tk_k : (0 < sq_k q)%nat;
  tk_coherent : sq_incoherent q = false;
  tk_back : Forall2 tracked (reverse (abs q)) back;
  tk_live : head back = Some live;
  tk_undo : ∀ n l, (n ≤ length (diff_seq (utxo live)))%nat → back !! n = Some l →
    undone n live = utxo_set (utxo l);
}.

(** ** Lists *)

Lemma reverse_drop_take {A} (l : list A) n : reverse (drop n l) = take (length l - n) (reverse l).
Proof.
  rewrite <- (take_drop n l) at 3. rewrite reverse_app, take_app_length'; [done|].
  by rewrite length_reverse, length_drop.
Qed.

Lemma reverse_take_drop {A} (l : list A) n : reverse (take n l) = drop (length l - n) (reverse l).
Proof.
  rewrite <- (take_drop n l) at 3. rewrite reverse_app, drop_app_length'; [done|].
  by rewrite length_reverse, length_drop.
Qed.

Lemma diff_rollback_rev (s : DiffSeq) n : (n ≤ length s)%nat →
  (diff_rollback s n).1 = take n (reverse s) ∧ reverse (diff_rollback s n).2 = drop n (reverse s).
Proof.
  intros Hn. unfold diff_rollback. rewrite Nat.min_l by done. cbn [fst snd].
  rewrite reverse_drop_take, reverse_take_drop. split; f_equal; lia.
Qed.

Lemma push_bounded_rev (s : DiffSeq) slot hash d m :
  ∃ j, reverse (push_bounded s slot hash d m).2 = (slot, hash, d) :: take j (reverse s) ∧
    (j ≤ length s)%nat ∧ length (push_bounded s slot hash d m).2 = S j.
Proof.
  unfold push_bounded. destruct ((0 <? m)%nat && (m <=? length s)%nat).
  - exists (length s - 1)%nat. cbn [snd]. rewrite reverse_snoc, length_app. cbn [length].
    destruct s as [|e s]; cbn [tail length]; [by split_and!|]. rewrite reverse_cons, Nat.sub_succ, Nat.sub_0_r.
    rewrite take_app_length' by by rewrite length_reverse. split_and!; [done|lia..].
  - exists (length s). cbn [snd]. rewrite reverse_snoc, length_app, take_ge by by rewrite length_reverse.
    split_and!; [done|lia|cbn; lia].
Qed.

Lemma take_add_drop_eq {A} (l : list A) n m : take n l ++ take m (drop n l) = take (n + m) l.
Proof.
  revert n. induction l as [|x l IH]; intros [|n]; cbn; [done|by rewrite take_nil|done|]. by rewrite IH.
Qed.

(** ** Steps *)

Lemma tracks_new k ci : (0 < k)%nat → tracks a (seq_new a k ci) [a].
Proof.
  intros Hk. split; [apply seq_new_ok|done|done| |done|].
  - repeat constructor. cbn. by rewrite rebase_id.
  - intros [|n] l Hn Hl; [by simplify_eq/=|done].
Qed.

Lemma abs_last q : last (abs q) = Some (seq_tip_point q, replay (sq_anchor q) (sq_deltas q)).
Proof. unfold abs. rewrite hist_last. unfold seq_tip_point. by destruct (last (sq_deltas q)). Qed.

Lemma tracks_tip live q back : tracks live q back →
  seq_tip_point q = tip_point (ls_tip live) ∧ replay (sq_anchor q) (sq_deltas q) ≅ rebase a live.
Proof.
  intros Ht. pose proof (tk_back _ _ _ Ht) as HF. pose proof (tk_live _ _ _ Ht) as Hl.
  destruct back as [|l back]; [done|]. simplify_eq/=.
  apply Forall2_cons_inv_r in HF as (e & r & [E1 E2] & _ & Er).
  pose proof (abs_last q) as E. rewrite <- head_reverse, Er in E. by simplify_eq/=.
Qed.

(** Applying a block and pushing its delta. *)
Lemma tracks_block m b mv live post q back : tracks live q back → block_step m b mv live post →
  ∃ q', seq_push (capture blake2b_224 b mv live post) q = Some q' ∧ sq_k q' = sq_k q ∧
    tracks post q' (take (S (sq_k q)) (post :: back)).
Proof.
  intros Ht Hb. set (d := capture blake2b_224 b mv live post).
  destruct (tracks_tip _ _ _ Ht) as [Htip Hreplay].
  destruct (push_spec d q (tk_ok _ _ _ Ht) (tk_k _ _ _ Ht)) as (q' & Hp & Hok & Ek & _ & _ & Ei & _ & Ea).
  exists q'. split_and!; [done..|]. split; [done|by rewrite Ek; apply Ht| | |done|].
  - rewrite Ei. unfold check_parent. change (parent_point d) with (Some (tip_point (ls_tip live))).
    rewrite Htip, bool_decide_true by done. apply Ht.
  - rewrite Ea. unfold db_push. rewrite abs_last. cbn zeta.
    rewrite reverse_drop_take, reverse_snoc, length_app. cbn [length].
    replace (length (abs q) + 1 - (length (abs q) + 1 - S (sq_k q)))%nat
      with (S (sq_k q) `min` (length (abs q) + 1))%nat by lia.
    rewrite <- take_take. rewrite (take_ge _ (length (abs q) + 1)) by (cbn [length]; rewrite length_reverse; lia).
    apply Forall2_take. constructor; [|apply Ht]. split; cbn [fst snd].
    + pose proof (br_tip _ _ _ _ _ (bs_recorded _ _ _ _ _ Hb)) as Et.
      change (ls_tip (rebase a post)) with (ls_tip post) in Et. by rewrite Et.
    + rewrite Hreplay. change d with (capture blake2b_224 b mv (rebase a live) (rebase a post)).
      apply capture_replays, Hb.
  - intros n l Hn. cbn [firstn].
    destruct (push_bounded_rev (diff_seq (utxo live)) (bi_slot b) (bi_hash b) (block_diff post) m) as (j & Er & Hj & Hlen).
    rewrite <- (bs_seq _ _ _ _ _ Hb) in Er, Hlen. rewrite Hlen in Hn.
    destruct n as [|n]; [by intros ?; simplify_eq/=|]. cbn [lookup list_lookup].
    intros Hl. apply lookup_take_Some in Hl as [Hl _].
    unfold undone. rewrite Er. cbn [firstn]. unfold diff_undo_all. cbn [foldl snd].
    rewrite (bs_set _ _ _ _ _ Hb), diff_undo_apply by apply Hb.
    rewrite take_take, Nat.min_l by lia. apply (tk_undo _ _ _ Ht); [lia|done].
Qed.

Lemma rolled_last target q q' : rolls_to target q q' →
  ∃ p s, last (abs q') = Some (p, s) ∧ (p = target ∨ denotes_origin p = true ∧ denotes_origin target = true).
Proof.
  intros [[Hp E]|(i & s & E & Hs & _)].
  - rewrite E. by eexists _, _.
  - exists target, s. split; [|by left]. rewrite E, last_lookup, length_take.
    rewrite Nat.min_l by (apply lookup_lt_Some in Hs; lia). cbn [pred].
    by rewrite lookup_take_lt by lia.
Qed.

(** The state at the rollback target, as it is tracked. *)
Lemma rollback_target target n live q back : tracks live q back → find_rollback_n target q = Some n →
  (n ≤ length (sq_deltas q))%nat ∧ reverse (abs (seq_rollback n q)) = drop n (reverse (abs q)) ∧
  ∃ l, back !! n = Some l ∧
    (tip_point (ls_tip l) = target ∨ denotes_origin (tip_point (ls_tip l)) = true ∧ denotes_origin target = true) ∧
    replay (sq_anchor q) (sq_deltas (seq_rollback n q)) ≅ rebase a l.
Proof.
  intros Ht Hf. pose proof (find_rollback_spec target q (tk_ok _ _ _ Ht) (tk_coherent _ _ _ Ht)) as Hspec.
  rewrite Hf in Hspec. destruct Hspec as [Hn Hto].
  assert (reverse (abs (seq_rollback n q)) = drop n (reverse (abs q))) as Er.
  { rewrite rollback_abs. unfold db_rollback. rewrite reverse_take_drop, length_abs. f_equal. lia. }
  split_and!; [done..|]. destruct (rolled_last _ _ _ Hto) as (p & s & Hlast & Hp).
  rewrite abs_last in Hlast. pose proof (abs_last (seq_rollback n q)) as Hl. rewrite Hlast in Hl.
  rewrite <- head_reverse, Er in Hl. simplify_eq.
  assert (reverse (abs q) !! n = Some (seq_tip_point (seq_rollback n q),
    replay (sq_anchor q) (sq_deltas (seq_rollback n q)))) as He.
  { rewrite head_lookup, lookup_drop, Nat.add_0_r in Hl. exact Hl. }
  destruct (Forall2_lookup_l _ _ _ _ _ (tk_back _ _ _ Ht) He) as (l & Hb & [E1 E2]).
  exists l. cbn in E1, E2. rewrite <- E1. by split_and!.
Qed.

(** What a rollback of the live state does: nothing, or it gives the tracked
    state back, as it was when no block is undone, and otherwise with the
    unrecorded fields of the anchor. *)
Definition rollback_outcome target live q back (r : option nat * LedgerState * LedgerSeq) : Prop :=
  match r with
  | (None, live', q') => live' = live ∧ q' = q ∧
      ((∀ l, l ∈ back → tip_point (ls_tip l) ≠ target) ∨
       ∃ n, find_rollback_n target q = Some n ∧ (length (diff_seq (utxo live)) < n)%nat)
  | (Some n, live', q') => ∃ l, back !! n = Some l ∧
      (tip_point (ls_tip l) = target ∨
       denotes_origin (tip_point (ls_tip l)) = true ∧ denotes_origin target = true) ∧
      (if n is O then live' = l else live' ≅ rebase a l) ∧ utxo_set (utxo live') = utxo_set (utxo l) ∧
      tracks live' q' (live' :: drop (S n) back)
  end.

Lemma back_points target q back : Forall2 tracked (reverse (abs q)) back →
  (∀ p s, (p, s) ∈ abs q → p ≠ target) → ∀ l, l ∈ back → tip_point (ls_tip l) ≠ target.
Proof.
  intros HF Hno l [i Hi]%list_elem_of_lookup.
  destruct (Forall2_lookup_r _ _ _ _ _ HF Hi) as ([p s] & He & [E _]). cbn in E. rewrite <- E.
  apply (Hno _ s). apply elem_of_reverse. by apply list_elem_of_lookup_2 in He.
Qed.

Lemma rollback_spec target live q back : tracks live q back →
  ∃ r, rollback_via_seq target live q = Some r ∧ rollback_outcome target live q back r.
Proof.
  intros Ht. unfold rollback_via_seq. destruct (find_rollback_n target q) as [[|n]|] eqn:Hf.
  - eexists. split; [done|]. destruct (rollback_target _ _ _ _ _ Ht Hf) as (_ & _ & l & Hb & Hp & _).
    exists l. pose proof (tk_live _ _ _ Ht) as Hl. destruct back as [|l0 back]; [done|]. simplify_eq/=.
    by split_and!.
  - destruct (rollback_target _ _ _ _ _ Ht Hf) as (Hn & Er & l & Hb & Hp & Hl).
    destruct (Nat.ltb_spec (length (diff_seq (utxo live))) (S n)) as [Hshort|Hlong].
    { eexists. split; [done|]. cbn. split_and!; [done..|]. right. by exists (S n). }
    destruct (tip_state_spec (seq_rollback (S n) q)) as (st & Hst & Est); [by apply seq_rollback_ok, Ht|].
    destruct (diff_rollback_rev (diff_seq (utxo live)) (S n)) as [Ed1 Ed2]; [done|].
    destruct (diff_rollback (diff_seq (utxo live)) (S n)) as [diffs rest]. cbn [fst snd] in Ed1, Ed2.
    rewrite Hst. eexists. split; [done|]. exists l.
    assert (st ≅ rebase a l) as Esl by by rewrite Est.
    match goal with |- context [tracks ?x _ _] => set (live' := x) end.
    assert (live' ≅ st) as Els.
    { apply same_ledger_iff. split_and!; try reflexivity.
      change (ls_config live = ls_config st). apply same_frozen in Est. rewrite replay_frozen in Est.
      pose proof (same_frozen _ _ (proj2 (tracks_tip _ _ _ Ht))) as El. rewrite replay_frozen in El.
      injection Est as ? ? ? ? ? ? ? ? ? ? ? ?. injection El as ? ? ? ? ? ? ? ? ? ? ? ?.
      change (sq_anchor (seq_rollback (S n) q)) with (sq_anchor q) in *. congruence. }
    assert (∀ j l', (S n + j ≤ length (diff_seq (utxo live)))%nat → back !! (S n + j)%nat = Some l' →
      undone j live' = utxo_set (utxo l')) as Hundo.
    { intros j l' Hj Hl'. rewrite <- (tk_undo _ _ _ Ht (S n + j) l' Hj Hl'). unfold undone.
      cbn [utxo update utxo_set diff_seq]. change (diff_seq (utxo live')) with rest.
      change (utxo_set (utxo live')) with (diff_undo_all (utxo_set (utxo live)) diffs).
      rewrite Ed1, Ed2. unfold diff_undo_all. rewrite <- foldl_app. by rewrite take_add_drop_eq. }
    assert (utxo_set (utxo live') = utxo_set (utxo l)) as Eset.
    { apply (Hundo 0%nat); by rewrite Nat.add_0_r. }
    assert (live' ≅ rebase a l) as Ell by by rewrite Els.
    split_and!; [done..|]. split; [by apply seq_rollback_ok, Ht|by apply Ht|by apply Ht| |done|].
    + rewrite Er. pose proof (Forall2_drop _ _ _ (S n) (tk_back _ _ _ Ht)) as HF.
      rewrite (drop_S _ _ _ Hb) in HF. apply Forall2_cons_inv_r in HF as (e & r & [E1 E2] & HF & ->).
      constructor; [|done]. split; [|by rewrite E2, Ell].
      rewrite E1. by apply same_fields in Ell as (_ & _ & _ & _ & -> & _).
    + change (diff_seq (utxo live')) with rest. intros j l' Hj Hl'.
      assert (length rest = length (diff_seq (utxo live)) - S n)%nat as Hlen.
      { rewrite <- length_reverse, Ed2, length_drop. by rewrite length_reverse. }
      destruct j as [|j]; [by simplify_eq/=|]. change (drop (S (S n)) back !! j = Some l') in Hl'. rewrite lookup_drop in Hl'.
      apply Hundo; [lia|]. by replace (S n + S j)%nat with (S (S n) + j)%nat by lia.
  - eexists. split; [done|]. cbn. split_and!; [done..|]. left.
    pose proof (find_rollback_spec target q (tk_ok _ _ _ Ht) (tk_coherent _ _ _ Ht)) as Hspec.
    rewrite Hf in Hspec. by eapply back_points; [apply Ht|].
Qed.

(** Advancing the anchor when blocks become immutable. *)
Lemma tracks_advance live q back : tracks live q back →
  tracks live (seq_advance_anchor q) (take (S (length (tail (sq_deltas q)))) back).
Proof.
  intros Ht. destruct (advance_fields q) as (Ek & _ & _ & En & Ed).
  split; [apply advance_ok, Ht|rewrite Ek; apply Ht|rewrite En; apply Ht| | |].
  - rewrite advance_abs. destruct (sq_deltas q) as [|d ds] eqn:E.
    + unfold abs. rewrite E. cbn [tail length hist db_prune]. pose proof (tk_back _ _ _ Ht) as HF.
      unfold abs in HF. rewrite E in HF. cbn in HF. by apply (Forall2_take _ _ _ 1) in HF.
    + cbn [tail]. rewrite prune_drop by (rewrite length_abs, E; cbn; lia).
      rewrite reverse_drop_take, length_abs, E. cbn [length]. rewrite Nat.sub_succ, Nat.sub_0_r.
      apply Forall2_take, Ht.
  - pose proof (tk_live _ _ _ Ht) as Hl. by destruct back.
  - intros n l Hn Hl. apply lookup_take_Some in Hl as [Hl _]. by apply (tk_undo _ _ _ Ht).
Qed.

(** Saving a snapshot clears the differences ([save_ledger_snapshot]). *)
Lemma tracks_clear live q back : tracks live q back →
  tracks (live <| utxo ::= λ u, u <| diff_seq := [] |> |>) q
    (live <| utxo ::= λ u, u <| diff_seq := [] |> |> :: tail back).
Proof.
  intros Ht. split; [apply Ht..| |done|].
  - pose proof (tk_back _ _ _ Ht) as HF. pose proof (tk_live _ _ _ Ht) as Hl.
    destruct back as [|l back]; [done|]. simplify_eq/=.
    apply Forall2_cons_inv_r in HF as (e & r & He & HF & ->). by constructor.
  - intros n l Hn Hl. cbn in Hn. replace n with 0%nat in * by lia. by simplify_eq/=.
Qed.

(** What the node does to its ledger; the list holds the states that were live,
    newest first. *)
Inductive node_step (max_len : nat)
    : LedgerState * LedgerSeq * list LedgerState → LedgerState * LedgerSeq * list LedgerState → Prop :=
| NodeBlock b mv live post q q' back : block_step max_len b mv live post →
    seq_push (capture blake2b_224 b mv live post) q = Some q' →
    node_step max_len (live, q, back) (post, q', take (S (sq_k q)) (post :: back))
| NodeRollback target live q back n live' q' :
    rollback_via_seq target live q = Some (Some n, live', q') →
    node_step max_len (live, q, back) (live', q', live' :: drop (S n) back)
| NodeAdvance live q back :
    node_step max_len (live, q, back)
      (live, seq_advance_anchor q, take (S (length (tail (sq_deltas q)))) back)
| NodeSnapshot live q back :
    node_step max_len (live, q, back)
      (live <| utxo ::= λ u, u <| diff_seq := [] |> |>, q,
       live <| utxo ::= λ u, u <| diff_seq := [] |> |> :: tail back).

Lemma node_step_tracks m x y : node_step m x y → tracks x.1.1 x.1.2 x.2 → tracks y.1.1 y.1.2 y.2.
Proof.
  intros [b mv live post q q' back Hb Hp|target live q back n live' q' Hr|live q back|live q back] Ht; cbn in *.
  - destruct (tracks_block m b mv live post q back Ht Hb) as (q'' & Hp' & _ & ?). by simplify_eq.
  - destruct (rollback_spec target live q back Ht) as (r & Hr' & Ho). rewrite Hr in Hr'.
    injection Hr' as <-. by destruct Ho as (l & _ & _ & _ & _ & ?).
  - by apply tracks_advance.
  - by apply tracks_clear.
Qed.

Lemma node_tracks m k ci live q back : (0 < k)%nat →
  rtc (node_step m) (a, seq_new a k ci, [a]) (live, q, back) → tracks live q back.
Proof.
  intros Hk Hs. assert (∀ x y, rtc (node_step m) x y → tracks x.1.1 x.1.2 x.2 → tracks y.1.1 y.1.2 y.2) as Hrtc.
  { induction 1 as [|x y z Hxy _ IH]; [done|]. intros Hx. by apply IH, (node_step_tracks m x y). }
  apply (Hrtc _ _ Hs). by apply tracks_new.
Qed.

End track.

(** * Correctness of delta capture and rollback

    The delta of a block replays it; a rollback restores the ledger that was
    live; what a rollback resets because no delta records it; how the two
    overlay tests of the program relate. Witnesses run a small chain. *)


Section theorems.
Context `{Payloads} (blake2b_224 : list Z → Hash28).
Implicit Types (live pre post : LedgerState) (q : LedgerSeq).

(** C33: Capturing a block and replaying the delta is the block. From the state
    before a block, the delta captured from the states before and after it
    gives the state after it, in every field but the UTxO set, whatever the
    block did, provided that it left the unrecorded fields alone, moved stake as
    its UTxO difference says and changed the boundary fields at an epoch
    boundary only. *)
Theorem delta_replays_block b mv pre post : block_recorded blake2b_224 b mv pre post →
  apply_delta_to_state pre (capture blake2b_224 b mv pre post) ≅ post.
Proof. apply capture_replays. Qed.


Lemma rollback_frozen target live q n live' q' : seq_ok q →
  rollback_via_seq target live q = Some (Some (S n), live', q') →
  ∃ st, certs live' = certs st ∧ epochs live' = epochs st ∧ frozen st = frozen (sq_anchor q).
Proof.
  intros Hq. unfold rollback_via_seq. destruct (find_rollback_n target q) as [[|n']|]; [done| |done].
  destruct (_ <? _)%nat; [done|]. destruct (diff_rollback _ _) as [diffs rest].
  destruct (tip_state_spec (seq_rollback (S n') q)) as (st & -> & Est); [by apply seq_rollback_ok|].
  intros [= _ <- _]. apply same_frozen in Est. rewrite replay_frozen in Est.
  exists st. by split_and!.
Qed.

(** No delta records the VRF keys of pools, the pointer-stake switch, the
    non-myopic likelihoods or the last applied reward update: a rollback that
    undoes at least one block puts the values of the anchor, up to [k] blocks
    back, in these fields of the live ledger, whatever they were at the
    target. *)
Theorem rollback_resets_unrecorded target live q n live' q' : seq_ok q →
  rollback_via_seq target live q = Some (Some (S n), live', q') →
  vrf_key_hashes (certs live') = vrf_key_hashes (certs (sq_anchor q)) ∧
  ptr_stake_excluded (epochs live') = ptr_stake_excluded (epochs (sq_anchor q)) ∧
  non_myopic (epochs live') = non_myopic (epochs (sq_anchor q)) ∧
  last_applied_rupd (epochs live') = last_applied_rupd (epochs (sq_anchor q)).
Proof.
  intros Hq Hr. destruct (rollback_frozen _ _ _ _ _ _ Hq Hr) as (st & -> & -> & Est).
  injection Est as ? ? ? ? ? ? ? ? ? ? ? ?. by split_and!.
Qed.

End theorems.

(** ** Overlay slots *)

Lemma overlay_steps_ceil x n d : 0 < d → overlay_steps x n d = ceil_frac x n d.
Proof.
  intros Hd. symmetry. apply ceil_frac_spec; [done|]. unfold overlay_steps.
  pose proof (Z.div_mod (x * n + d - 1) d ltac:(lia)). pose proof (Z.mod_pos_bound (x * n + d - 1) d Hd). nia.
Qed.

(** The ledger's own test for overlay slots, which decides whose block
    counts are credited, agrees with the one of the consensus layer on every
    slot, for a decentralisation parameter between 0 and 1. *)
Theorem overlay_tests_agree first slot d_num d_den :
  0 ≤ first → 0 ≤ slot < 2 ^ 63 → 0 < d_den < 2 ^ 62 → 0 ≤ d_num ≤ d_den →
  is_overlay_slot first d_num d_den slot = Some (ledger_is_overlay_slot first slot d_num d_den).
Proof.
  intros Hf Hs Hd Hn. unfold is_overlay_slot, ledger_is_overlay_slot.
  destruct (Z.eqb_spec d_num 0) as [->|Hn0]; [done|].
  rewrite (proj2 (Z.eqb_neq d_den 0)) by lia. cbn [orb].
  set (s := saturating_sub64 slot first).
  assert (0 ≤ s < 2 ^ 63) as Hs' by (subst s; unfold saturating_sub64; lia).
  assert ((s + 1) * d_num ≤ 2 ^ 63 * 2 ^ 62) as Hp by (apply Z.mul_le_mono_nonneg; lia).
  assert (s * d_num ≤ (s + 1) * d_num) as Hp' by lia.
  rewrite !ceiling_mul_spec by lia. cbn.
  destruct (Z.leb_spec d_den d_num) as [Hge|Hlt].
  - replace d_num with d_den by lia. f_equal. apply Z.ltb_lt.
    assert (∀ x, ceil_frac x d_den d_den = x) as Hc by (intros x; apply ceil_frac_spec; nia).
    rewrite !Hc. lia.
  - rewrite !overlay_steps_ceil by lia.
    unfold wrapping_add64. by rewrite wrap64_small by (unfold u64, u64_max; lia).
Qed.

(** ** A small chain *)

#[local] Instance demo_payloads : Payloads :=
  Build_Payloads unit unit unit unit unit unit unit unit unit unit unit unit unit unit unit unit _ _.

Definition demo_params : ProtocolParameters := mkParams 11 (mkRational 0 1) 2 500 tt.

Definition demo_start : LedgerState :=
  mkLedger (mkUtxo ∅ [] 0 0)
    (mkCerts ∅ ∅ ∅ ∅ ∅ ∅ ∅ ∅ 0 ∅ ∅ ∅ ∅ ∅ 0 0)
    (mkGov ∅ ∅ ∅ ∅ ∅ ∅ ∅ ∅ ∅ tt 0 0 None false None None None None None [] [] false 0 None tt)
    (mkConsensus [] [] [] [] [] [] [] [] None None ∅ 0 ∅)
    (mkEpochs tt 0 0 None tt None ∅ ∅ false ∅ false demo_params demo_params 11 (mkRational 0 1)
       None false None None tt 0)
    (mkTip Origin 0) Conway None 0 (mkLedgerConfig 100 0 0 tt) ∅ ∅ tt None None.

Definition demo_cred : Credential := VerificationKey (replicate 28 9).
Definition demo_output (amount : Z) : TransactionOutput :=
  mkOutput (AddrBase Testnet demo_cred demo_cred) (mkValue amount ∅) tt.
Definition demo_in (n : Z) : TransactionInput := mkInput [n] 0.

Definition demo_hash (v : list Z) : Hash28 := v.
Definition demo_still : Moves := mkMoves false false false false.
Definition demo_block (n : Z) : BlockInfo := mkBlockInfo n [n] n [] [].

(** A block that spends and creates outputs and registers a VRF key. *)
Definition demo_apply (n : Z) (d : UtxoDiff) (stake : Z) (keys : gmap Hash32 Z) (s : LedgerState) : LedgerState :=
  s <| utxo ::= λ u, u <| utxo_set ::= λ m, diff_apply m d |> <| diff_seq ::= λ l, l ++ [(n, [n], d)] |> |>
    <| certs ::= λ c, c <| stake_map := {[to_typed_hash32 demo_cred := stake]} |> <| vrf_key_hashes := keys |> |>
    <| ls_tip := mkTip (Specific n [n]) n |>.

Definition demo_diff1 : UtxoDiff := mkDiff [(demo_in 1, demo_output 5)] [].
Definition demo_diff2 : UtxoDiff := mkDiff [(demo_in 2, demo_output 3)] [(demo_in 1, demo_output 5)].

Definition demo_one := demo_apply 1 demo_diff1 5 ∅ demo_start.
Definition demo_two := demo_apply 2 demo_diff2 3 ∅ demo_one.

(** The same blocks, the first of which registers a VRF key. *)
Definition demo_key : gmap Hash32 Z := {[ [7] := 1 ]}.
Definition demo_one' := demo_apply 1 demo_diff1 5 demo_key demo_start.
Definition demo_two' := demo_apply 2 demo_diff2 3 demo_key demo_one'.

Definition demo_seq0 := seq_new demo_start 2 1.
Definition demo_seq1' :=
  default demo_seq0 (seq_push (capture demo_hash (demo_block 1) demo_still demo_start demo_one') demo_seq0).
Definition demo_seq2' :=
  default demo_seq1' (seq_push (capture demo_hash (demo_block 2) demo_still demo_one' demo_two') demo_seq1').

#[local] Ltac demo_recorded :=
  split; [split; try done; by intros _ ? ? ?|done|done|vm_compute; reflexivity|done|done| |done| |];
  [intros _; split; [done|intros Hlt; exfalso; revert Hlt; vm_compute; done]
  |intros _; split; [done|vm_compute; reflexivity]
  |intros Hlt; exfalso; revert Hlt; vm_compute; done].

Lemma demo_step_one : block_step demo_hash demo_start 10 (demo_block 1) demo_still demo_start demo_one'.
Proof.
  split; [demo_recorded|done| |done].
  split; [intros i o [?|[]%elem_of_nil]%elem_of_cons; by simplify_eq|by intros i o []%elem_of_nil].
Qed.

Lemma demo_step_two : block_step demo_hash demo_start 10 (demo_block 2) demo_still demo_one' demo_two'.
Proof.
  split; [demo_recorded|done| |done].
  split; intros i o [?|[]%elem_of_nil]%elem_of_cons; simplify_eq; vm_compute; reflexivity.
Qed.

Lemma demo_run : rtc (node_step demo_hash demo_start 10)
  (demo_start, seq_new demo_start 2 1, [demo_start]) (demo_two', demo_seq2', [demo_two'; demo_one'; demo_start]).
Proof.
  eapply rtc_l; [apply (NodeBlock _ _ _ (demo_block 1) demo_still _ demo_one' _ demo_seq1');
    [apply demo_step_one|vm_compute; reflexivity]|].
  eapply rtc_l; [apply (NodeBlock _ _ _ (demo_block 2) demo_still _ demo_two' _ demo_seq2');
    [apply demo_step_two|vm_compute; reflexivity]|].
  apply rtc_refl.
Qed.

Lemma demo_two_recorded : block_recorded demo_hash (demo_block 2) demo_still demo_one demo_two.
Proof. demo_recorded. Qed.

Lemma delta_replays_witness :
  block_recorded demo_hash (demo_block 2) demo_still demo_one demo_two ∧
  apply_delta_to_state demo_one (capture demo_hash (demo_block 2) demo_still demo_one demo_two) ≅ demo_two.
Proof.
  split; [exact demo_two_recorded|]. apply (delta_replays_block demo_hash _ _ _ _ demo_two_recorded).
Defined.


Lemma ledger_seq_witness :
  ∃ q, seq_run [OpPush (delta_new 1 [1] 1); OpPush (delta_new 2 [2] 2); OpPush (delta_new 3 [3] 3); OpRollback 1]
         (seq_new demo_start 2 2) = Some q ∧
    abs q = db_run 2 [OpPush (delta_new 1 [1] 1); OpPush (delta_new 2 [2] 2); OpPush (delta_new 3 [3] 3); OpRollback 1]
              [(Origin, demo_start)] ∧ (length (abs q) ≤ 3)%nat ∧
    (∃ s st, last (abs q) = Some (seq_tip_point q, s) ∧ tip_state q = Some st ∧ st ≅ s) ∧
    (∀ i p s, abs q !! S i = Some (p, s) → ∃ st, state_at_index q i = Some st ∧ st ≅ s).
Proof. apply (ledger_seq_refines demo_start 2 2). lia. Defined.

(** A window of three blocks with the default interval of two: the checkpoint
    that is there goes, and none comes. *)
Definition demo_full : LedgerSeq :=
  default demo_seq0 (push_all [delta_new 1 [1] 1; delta_new 2 [2] 2; delta_new 3 [3] 3] (seq_new demo_start 3 2)).

Lemma push_all_ok ds q q' : seq_ok q → (0 < sq_k q)%nat → push_all ds q = Some q' → seq_ok q'.
Proof.
  revert q. induction ds as [|d ds IH]; intros q Hq Hk; cbn; [by intros [= <-]|].
  destruct (push_spec d q Hq Hk) as (q1 & -> & Hok & Ek & _). cbn. intros Hp.
  apply (IH q1); [done|by rewrite Ek|done].
Qed.

Lemma full_window_witness :
  (is_Some (sq_checkpoints demo_full !! 1%nat)) ∧
  ∃ q', push_all [delta_new 4 [4] 4; delta_new 5 [5] 5; delta_new 6 [6] 6] demo_full = Some q' ∧
    sq_checkpoints q' = ∅ ∧
    ∀ i, state_at_index q' i =
      apply_range (sq_deltas q') (seq 0 (S i)) (clone_without_utxos (sq_anchor q')).
Proof.
  split; [eexists; vm_compute; reflexivity|].
  apply full_window_loses_checkpoints; [|vm_compute; lia|reflexivity|reflexivity|vm_compute; lia].
  apply (push_all_ok [delta_new 1 [1] 1; delta_new 2 [2] 2; delta_new 3 [3] 3] (seq_new demo_start 3 2));
    [apply seq_new_ok|cbn; lia|vm_compute; reflexivity].
Defined.

(** Block 1 registers a VRF key, which is there after block 2; the rollback to
    block 1 takes it away. *)
Lemma rollback_resets_witness :
  vrf_key_hashes (certs demo_one') = {[ [7] := 1 ]} ∧
  ∃ live' q', rollback_via_seq (Specific 1 [1]) demo_two' demo_seq2' = Some (Some 1%nat, live', q') ∧
    ls_tip live' = ls_tip demo_one' ∧ vrf_key_hashes (certs live') = ∅.
Proof.
  split; [reflexivity|]. eexists _, _. split; [vm_compute; reflexivity|]. split; [vm_compute; reflexivity|].
  eapply (rollback_resets_unrecorded (Specific 1 [1]) demo_two' demo_seq2' 0); [|vm_compute; reflexivity].
  apply (push_all_ok [capture demo_hash (demo_block 1) demo_still demo_start demo_one';
                      capture demo_hash (demo_block 2) demo_still demo_one' demo_two'] demo_seq0);
    [apply seq_new_ok|cbn; lia|vm_compute; reflexivity].
Defined.

Lemma overlay_tests_witness :
  is_overlay_slot 0 1 2 3 = Some (ledger_is_overlay_slot 0 3 1 2) ∧
  is_overlay_slot 0 1 2 4 = Some (ledger_is_overlay_slot 0 4 1 2) ∧
  ledger_is_overlay_slot 0 4 1 2 = true ∧ ledger_is_overlay_slot 0 3 1 2 = false.
Proof. split_and!; [apply overlay_tests_agree; lia|apply overlay_tests_agree; lia|reflexivity|reflexivity]. Defined.
