(* ===== verification/UtxoApply.v ===== *)
(** * Applying transactions to the UTxO set ([ledger/src/eras/common.rs], [state/epoch.rs])

    [apply_utxo_changes] for valid transactions and
    [apply_collateral_consumption] for invalid ones, with the stake they move,
    and [rebuild_stake_distribution], which recomputes the stake from the whole
    UTxO set. *)

From S2P Require Import Prelude Order RecordUpdate EraHistory Block Ledger LedgerDelta.
Local Open Scope Z_scope.
Local Open Scope record_scope.

Section apply.
Context `{Payloads}.
Implicit Types (s : LedgerState).

(** What is read of a transaction. *)
Record LedgerTx := mkLedgerTx {
  lt_hash : Hash32;
  lt_inputs : list TransactionInput;
  lt_outputs : list TransactionOutput;
  lt_collateral : list TransactionInput;
  lt_collateral_return : option TransactionOutput;
  lt_total_collateral : option Lovelace;
  lt_fee : Lovelace;
}.

(** [filter(|i| seen.insert(i))]: the first occurrence of each. *)
Fixpoint first_occurrences (seen : gset TransactionInput) (l : list TransactionInput) : list TransactionInput :=
  match l with
  | [] => []
  | i :: l' =>
      if decide (i ∈ seen) then first_occurrences seen l'
      else i :: first_occurrences ({[i]} ∪ seen) l'
  end.

Definition spent_outputs (inputs : list TransactionInput) (m : gmap TransactionInput TransactionOutput) :=
  omap (λ i, (λ o, (i, o)) <$> m !! i) (first_occurrences ∅ inputs).

(** The outputs with their references; [idx as u32]. *)
Definition new_outputs (tx : LedgerTx) : list (TransactionInput * TransactionOutput) :=
  imap (λ idx o, (mkInput (lt_hash tx) (Z.of_nat idx mod 2 ^ 32), o)) (lt_outputs tx).

Definition with_set (f : gmap TransactionInput TransactionOutput → gmap TransactionInput TransactionOutput) s :=
  s <| utxo ::= λ u, u <| utxo_set ::= f |> |>.

Definition add_fee (fee : Lovelace) s :=
  s <| utxo ::= λ u, u <| epoch_fees ::= λ x, (x +s fee)%mach |> |>.

Definition apply_utxo_changes (tx : LedgerTx) s : UtxoDiff * LedgerState :=
  let spent := spent_outputs (lt_inputs tx) (utxo_set (utxo s)) in
  let s := foldl (λ s io, sub_stake io.2 s) s spent in
  let s := with_set (λ m, foldl (λ m i, delete i m) m (lt_inputs tx)) s in
  let s := with_set (insert_all (new_outputs tx)) s in
  let s := foldl (λ s o, add_stake o s) s (lt_outputs tx) in
  let s := add_fee (lt_fee tx) s in
  (mkDiff (new_outputs tx) spent, s).

(** The loop over the collateral inputs: the difference, the value found, the state. *)
Fixpoint consume_collateral (inputs : list TransactionInput) (diff : UtxoDiff) (value : Z) s
    : UtxoDiff * Z * LedgerState :=
  match inputs with
  | [] => (diff, value, s)
  | i :: inputs' =>
      match utxo_set (utxo s) !! i with
      | Some spent =>
          consume_collateral inputs' (record_delete diff i spent) (value +w coin (out_value spent))%mach
            (with_set (delete i) (sub_stake spent s))
      | None => consume_collateral inputs' diff value (with_set (delete i) s)
      end
  end.

Definition apply_collateral_consumption (tx : LedgerTx) s : UtxoDiff * LedgerState :=
  let '(diff, input_value, s) :=
    consume_collateral (first_occurrences ∅ (lt_collateral tx)) diff_new 0 s in
  let '(diff, return_value, s) :=
    match lt_collateral_return tx with
    | Some o =>
        let i := mkInput (lt_hash tx) (Z.of_nat (length (lt_outputs tx)) mod 2 ^ 32) in
        (record_insert diff i o, coin (out_value o), with_set <[i := o]> (add_stake o s))
    | None => (diff, 0, s)
    end in
  let fee := match lt_total_collateral tx with
             | Some tc => tc
             | None => (input_value -s return_value)%mach
             end in
  (diff, add_fee fee s).

(** ** Recomputing the stake *)

Definition scan_output (exclude_ptrs : bool) (o : TransactionOutput)
    (acc : gmap Hash32 Lovelace * gmap Pointer Z) : gmap Hash32 Lovelace * gmap Pointer Z :=
  match stake_routing (out_address o) exclude_ptrs with
  | RouteCredential c => (credit_stake c (coin (out_value o)) acc.1, acc.2)
  | RoutePointer p => (acc.1, credit_pointer p (coin (out_value o)) acc.2)
  | RouteNone => acc
  end.

(** Every delegated credential gets an entry. *)
Definition rebuild_stake_distribution s : LedgerState :=
  let '(new_map, new_ptr) :=
    map_fold (λ _ o acc, scan_output (ptr_stake_excluded (epochs s)) o acc) (∅, ∅) (utxo_set (utxo s)) in
  let new_map := map_fold (λ c _ m, or_insert_zero c m) new_map (delegations (certs s)) in
  s <| certs ::= λ c, c <| stake_map := new_map |> |>
    <| epochs ::= λ e, e <| ptr_stake := new_ptr |> |>.

End apply.

(** ** Sums over maps *)

Section sums.
Context `{Countable K} {A : Type}.
Implicit Types (f : A → Z) (m : gmap K A).

Definition msum f m : Z := map_fold (λ _ x acc, f x + acc) 0 m.

Lemma msum_insert f m k x : m !! k = None → msum f (<[k := x]> m) = f x + msum f m.
Proof. intros Hk. unfold msum. rewrite map_fold_insert_L; [done|intros; lia|done]. Qed.

Lemma msum_delete f m k x : m !! k = Some x → msum f m = f x + msum f (delete k m).
Proof. intros Hk. unfold msum. rewrite (map_fold_delete_L _ _ k x m); [done|intros; lia|done]. Qed.

Lemma msum_le f g m : (∀ k x, m !! k = Some x → f x ≤ g x) → msum f m ≤ msum g m.
Proof.
  induction m as [|k x m Hk IH] using map_ind; intros Hle; [done|].
  rewrite !msum_insert by done. specialize (Hle k x) as Hx. rewrite lookup_insert_eq in Hx.
  specialize (Hx eq_refl). assert (msum f m ≤ msum g m); [|lia]. apply IH. intros k' x' Hk'.
  apply (Hle k'). by rewrite lookup_insert_ne by congruence.
Qed.

End sums.
