(* ===== verification/UtxoBlock.v ===== *)
(** * Incremental stake, correctness

    The stake that transactions move one at a time is the stake of the UTxO
    set. *)

From S2P Require Import Prelude Order RecordUpdate EraHistory Block Ledger LedgerDelta UtxoApply LedgerTheorems.
Local Open Scope Z_scope.
Local Open Scope record_scope.


Section stake.
Context `{Payloads}.
Implicit Types (s : LedgerState) (m : gmap TransactionInput TransactionOutput) (o : TransactionOutput).

Definition out_coin o : Z := coin (out_value o).

(** What an output adds to a credential, and to a pointer. *)
Definition cred_part (ex : bool) (c : Hash32) o : Z :=
  match stake_routing (out_address o) ex with
  | RouteCredential c' => if decide (c = c') then out_coin o else 0
  | _ => 0
  end.

Definition ptr_part (ex : bool) (p : Pointer) o : Z :=
  match stake_routing (out_address o) ex with
  | RoutePointer p' => if decide (p = p') then out_coin o else 0
  | _ => 0
  end.

(** The stake maps of [s] are those of the set [m]. *)
Definition agrees s m : Prop :=
  (∀ c, default 0 (stake_map (certs s) !! c) = msum (cred_part (ptr_stake_excluded (epochs s)) c) m) ∧
  (∀ p, default 0 (ptr_stake (epochs s) !! p) = msum (ptr_part (ptr_stake_excluded (epochs s)) p) m).

(** Amounts are not negative and their total fits. *)
Definition coins_ok m : Prop :=
  map_Forall (λ _ o, 0 ≤ out_coin o) m ∧ msum out_coin m ≤ u64_max.

Lemma parts_range ex c p o : 0 ≤ out_coin o →
  0 ≤ cred_part ex c o ≤ out_coin o ∧ 0 ≤ ptr_part ex p o ≤ out_coin o.
Proof. intros Ho. unfold cred_part, ptr_part. destruct (stake_routing _ _); repeat case_decide; lia. Qed.

Lemma parts_sum ex c p m : coins_ok m →
  0 ≤ msum (cred_part ex c) m ≤ u64_max ∧ 0 ≤ msum (ptr_part ex p) m ≤ u64_max.
Proof.
  intros [Hpos Htot].
  assert (∀ f, (∀ o, 0 ≤ out_coin o → 0 ≤ f o ≤ out_coin o) → 0 ≤ msum f m ≤ u64_max) as Hf.
  { intros f Hf. split.
    - transitivity (msum (λ _ : TransactionOutput, 0) m).
      + clear. induction m as [|i o m Hi IH] using map_ind; [done|]. by rewrite msum_insert.
      + apply msum_le. intros i o Hi. apply Hf, (Hpos i o Hi).
    - etransitivity; [|exact Htot]. apply msum_le. intros i o Hi. apply Hf, (Hpos i o Hi). }
  split; apply Hf; intros o Ho; by apply (parts_range ex c p).
Qed.

Lemma coins_ok_delete m i : coins_ok m → coins_ok (delete i m).
Proof.
  intros [Hpos Htot]. split; [by apply map_Forall_delete|].
  destruct (m !! i) as [o|] eqn:E; [|by rewrite delete_id].
  rewrite (msum_delete _ _ _ _ E) in Htot. specialize (Hpos i o E). cbn in Hpos. lia.
Qed.

Lemma coins_ok_insert m i o : m !! i = None → 0 ≤ out_coin o → coins_ok m →
  msum out_coin m + out_coin o ≤ u64_max → coins_ok (<[i := o]> m).
Proof.
  intros Hi Ho [Hpos Htot] Hle. split; [by apply map_Forall_insert|]. rewrite msum_insert by done. lia.
Qed.

Lemma parts_routing ex o :
  match stake_routing (out_address o) ex with
  | RouteCredential c =>
      (∀ c', cred_part ex c' o = if decide (c' = c) then out_coin o else 0) ∧ ∀ p, ptr_part ex p o = 0
  | RoutePointer p =>
      (∀ c, cred_part ex c o = 0) ∧ ∀ p', ptr_part ex p' o = if decide (p' = p) then out_coin o else 0
  | RouteNone => (∀ c, cred_part ex c o = 0) ∧ ∀ p, ptr_part ex p o = 0
  end.
Proof. unfold cred_part, ptr_part. by destruct (stake_routing _ _). Qed.

Lemma debit_default `{Countable K} (k k' : K) (x r : Z) (m : gmap K Z) :
  0 ≤ x → 0 ≤ r → default 0 (m !! k') = (if decide (k' = k) then x else 0) + r →
  default 0 (debit k x m !! k') = r.
Proof.
  unfold debit. case_decide as E; [subst k'|]; intros Hx Hr Hm.
  - rewrite lookup_alter_eq. destruct (m !! k); cbn in *; unfold saturating_sub64; lia.
  - rewrite lookup_alter_ne by done. lia.
Qed.

Lemma credit_stake_default (c c' : Hash32) (x r : Z) (m : gmap Hash32 Lovelace) :
  (if decide (c' = c) then x else 0) + r ≤ u64_max → default 0 (m !! c') = r →
  default 0 (credit_stake c x m !! c') = (if decide (c' = c) then x else 0) + r.
Proof.
  unfold credit_stake. case_decide as E; [subst c'|]; intros Hr Hm.
  - rewrite lookup_insert_eq, Hm. cbn. unfold saturating_add64. lia.
  - rewrite lookup_insert_ne, Hm by done. lia.
Qed.

Lemma credit_pointer_default (p p' : Pointer) (x r : Z) (m : gmap Pointer Z) :
  0 ≤ (if decide (p' = p) then x else 0) + r ≤ u64_max → default 0 (m !! p') = r →
  default 0 (credit_pointer p x m !! p') = (if decide (p' = p) then x else 0) + r.
Proof.
  unfold credit_pointer. case_decide as E; [subst p'|]; intros Hr Hm.
  - rewrite lookup_insert_eq, Hm. cbn. unfold wrapping_add64. rewrite wrap64_small; unfold u64; lia.
  - rewrite lookup_insert_ne, Hm by done. lia.
Qed.

Lemma sub_stake_agrees s m i o : agrees s m → coins_ok m → m !! i = Some o →
  agrees (sub_stake o s) (delete i m).
Proof.
  intros [Hc Hp] Hok Hi. pose proof (coins_ok_delete m i Hok) as Hok'.
  assert (∀ c p, 0 ≤ msum (cred_part (ptr_stake_excluded (epochs s)) c) (delete i m) ∧
    0 ≤ msum (ptr_part (ptr_stake_excluded (epochs s)) p) (delete i m)) as Hpos.
  { intros c p. destruct (parts_sum (ptr_stake_excluded (epochs s)) c p _ Hok') as [[? _] [? _]]. done. }
  setoid_rewrite (msum_delete _ _ _ _ Hi) in Hc. setoid_rewrite (msum_delete _ _ _ _ Hi) in Hp.
  pose proof (parts_routing (ptr_stake_excluded (epochs s)) o) as Hparts. unfold sub_stake.
  destruct (stake_routing _ _) as [c|p|]; destruct Hparts as [Ec Ep];
    setoid_rewrite Ec in Hc; setoid_rewrite Ep in Hp; split; cbn; intros k.
  - apply debit_default; [by apply (proj1 Hok i)|apply (Hpos k (mkPointer 0 0 0))|apply Hc].
  - apply Hp.
  - apply Hc.
  - apply debit_default; [by apply (proj1 Hok i)|apply (Hpos [] k)|apply Hp].
  - apply Hc.
  - apply Hp.
Qed.

Lemma add_stake_agrees s m i o : agrees s m → coins_ok (<[i := o]> m) → m !! i = None →
  agrees (add_stake o s) (<[i := o]> m).
Proof.
  intros [Hc Hp] Hok Hi.
  pose proof (λ c p, parts_sum (ptr_stake_excluded (epochs s)) c p _ Hok) as Hsum.
  setoid_rewrite (msum_insert _ _ _ _ Hi) in Hsum.
  pose proof (parts_routing (ptr_stake_excluded (epochs s)) o) as Hparts. unfold add_stake.
  destruct (stake_routing _ _) as [c|p|]; destruct Hparts as [Ec Ep];
    setoid_rewrite Ec in Hsum; setoid_rewrite Ep in Hsum; split; cbn; intros k;
    rewrite (msum_insert _ _ _ _ Hi), ?Ec, ?Ep; try (rewrite Z.add_0_l; auto; fail).
  - apply credit_stake_default; [apply (Hsum k (mkPointer 0 0 0))|apply Hc].
  - apply credit_pointer_default; [apply (Hsum [] k)|apply Hp].
Qed.

(** ** Transactions *)

Lemma agrees_ext s s' m : stake_map (certs s') = stake_map (certs s) → ptr_stake (epochs s') = ptr_stake (epochs s) →
  ptr_stake_excluded (epochs s') = ptr_stake_excluded (epochs s) → agrees s m → agrees s' m.
Proof. unfold agrees. by intros -> -> ->. Qed.

Lemma first_occurrences_spec seen l : NoDup (first_occurrences seen l) ∧
  ∀ i, i ∈ first_occurrences seen l ↔ i ∈ l ∧ i ∉ seen.
Proof.
  revert seen. induction l as [|j l IH]; intros seen; cbn.
  { split; [constructor|]. intros i. rewrite elem_of_nil. naive_solver. }
  case_decide as Hj.
  - destruct (IH seen) as [Hnd Hin]. split; [done|]. intros i. rewrite Hin, elem_of_cons. naive_solver.
  - destruct (IH ({[j]} ∪ seen)) as [Hnd Hin]. split.
    + constructor; [|done]. rewrite Hin. set_solver.
    + intros i. rewrite !elem_of_cons, Hin. destruct (decide (i = j)); set_solver.
Qed.

Lemma sub_all_agrees l s m : agrees s m → coins_ok m → NoDup l.*1 →
  (∀ i o, (i, o) ∈ l → m !! i = Some o) →
  agrees (foldl (λ s io, sub_stake io.2 s) s l) (remove_all_inputs l m) ∧ coins_ok (remove_all_inputs l m).
Proof.
  revert s m. induction l as [|[i o] l IH]; intros s m Ha Hok Hnd Hl; [done|].
  cbn in Hnd. apply NoDup_cons in Hnd as [Hi Hnd]. cbn. apply IH.
  - apply sub_stake_agrees; [done..|]. apply Hl. constructor.
  - by apply coins_ok_delete.
  - done.
  - intros j o' Hj. rewrite lookup_delete_ne; [apply Hl; by constructor|].
    intros ->. apply Hi, list_elem_of_fmap. by exists (j, o').
Qed.

Definition coins_of (l : list (TransactionInput * TransactionOutput)) : Z :=
  foldr (λ io acc, out_coin io.2 + acc) 0 l.

Lemma coins_of_cons i o l : coins_of ((i, o) :: l) = out_coin o + coins_of l.
Proof. done. Qed.

Lemma coins_of_nonneg l : (∀ i o, (i, o) ∈ l → 0 ≤ out_coin o) → 0 ≤ coins_of l.
Proof.
  induction l as [|[i o] l IH]; intros Hl; [done|]. rewrite coins_of_cons.
  assert (0 ≤ out_coin o) by (apply (Hl i); constructor).
  assert (0 ≤ coins_of l); [|lia]. apply IH. intros j o' Hj. apply (Hl j). by constructor.
Qed.

Lemma add_all_agrees l s m : agrees s m → coins_ok m → NoDup l.*1 →
  (∀ i o, (i, o) ∈ l → m !! i = None ∧ 0 ≤ out_coin o) → msum out_coin m + coins_of l ≤ u64_max →
  agrees (foldl (λ s o, add_stake o s) s l.*2) (insert_all l m) ∧ coins_ok (insert_all l m).
Proof.
  revert s m. induction l as [|[i o] l IH]; intros s m Ha Hok Hnd Hl Htot; [done|].
  cbn in Hnd. apply NoDup_cons in Hnd as [Hi Hnd]. cbn. rewrite coins_of_cons in Htot.
  destruct (Hl i o) as [Hm Ho]; [constructor|].
  assert (0 ≤ coins_of l) as Hpos.
  { apply coins_of_nonneg. intros j o' Hj. apply (Hl j). by constructor. }
  assert (coins_ok (<[i := o]> m)) as Hok' by (apply coins_ok_insert; auto with lia; lia).
  apply IH.
  - by apply add_stake_agrees.
  - done.
  - done.
  - intros j o' Hj. destruct (Hl j o') as [? ?]; [by constructor|]. split; [|done].
    rewrite lookup_insert_ne; [done|]. intros ->. apply Hi, list_elem_of_fmap. by exists (j, o').
  - rewrite msum_insert by done. lia.
Qed.

(** What a transaction needs to be applied: its outputs are new, their number
    and amounts are in range, and the total stays in range. *)
Record tx_fits (tx : LedgerTx) s : Prop := {
  tf_fresh : ∀ n, utxo_set (utxo s) !! mkInput (lt_hash tx) n = None;
  tf_count : Z.of_nat (length (lt_outputs tx)) < 2 ^ 32;
  tf_coins : ∀ o, o ∈ lt_outputs tx ∨ lt_collateral_return tx = Some o → 0 ≤ out_coin o;
  tf_total : msum out_coin (utxo_set (utxo s)) + coins_of (new_outputs tx)
    + default 0 (out_coin <$> lt_collateral_return tx) ≤ u64_max;
}.

Lemma new_outputs_lookup tx i o : (i, o) ∈ new_outputs tx ↔
  ∃ n, lt_outputs tx !! n = Some o ∧ i = mkInput (lt_hash tx) (Z.of_nat n mod 2 ^ 32).
Proof.
  unfold new_outputs. rewrite list_elem_of_lookup. setoid_rewrite list_lookup_imap. split.
  - intros [n Hn]. destruct (lt_outputs tx !! n) as [o'|] eqn:E; simplify_eq/=. by exists n.
  - intros (n & Hn & ->). exists n. by rewrite Hn.
Qed.

Lemma new_outputs_snd tx : (new_outputs tx).*2 = lt_outputs tx.
Proof.
  apply list_eq. intros n. unfold new_outputs. rewrite list_lookup_fmap, list_lookup_imap.
  by destruct (lt_outputs tx !! n).
Qed.

Lemma new_outputs_NoDup tx : Z.of_nat (length (lt_outputs tx)) < 2 ^ 32 → NoDup (new_outputs tx).*1.
Proof.
  intros Hlen. apply NoDup_alt. intros i j x. unfold new_outputs.
  rewrite !list_lookup_fmap, !list_lookup_imap.
  destruct (lt_outputs tx !! i) eqn:Ei; [|done]. destruct (lt_outputs tx !! j) eqn:Ej; [|done].
  apply lookup_lt_Some in Ei, Ej. cbn. intros [= <-] [= E]. rewrite !Z.mod_small in E by lia. lia.
Qed.

Lemma spent_spec inputs m : NoDup (spent_outputs inputs m).*1 ∧
  ∀ i o, (i, o) ∈ spent_outputs inputs m ↔ i ∈ inputs ∧ m !! i = Some o.
Proof.
  unfold spent_outputs. destruct (first_occurrences_spec ∅ inputs) as [Hnd Hin]. split.
  - clear Hin. induction Hnd as [|i l Hi Hnd IH]; cbn; [constructor|].
    destruct (m !! i) as [o|]; cbn; [|done]. constructor; [|done].
    intros ([i' o'] & ? & Hx)%list_elem_of_fmap. cbn in *. subst i'. apply list_elem_of_omap in Hx as (j & Hj & E).
    destruct (m !! j); by simplify_eq/=.
  - intros i o. rewrite list_elem_of_omap. setoid_rewrite Hin. split.
    + intros (j & [Hj _] & E). destruct (m !! j) eqn:Em; by simplify_eq/=.
    + intros [Hi Hm]. exists i. rewrite Hm. split; [|done]. split; [done|set_solver].
Qed.

Lemma foldl_delete_lookup (l : list TransactionInput) m i :
  foldl (λ m i, delete i m) m l !! i = if decide (i ∈ l) then None else m !! i.
Proof.
  revert m. induction l as [|j l IH]; intros m; [done|]. cbn. rewrite IH.
  destruct (decide (i = j)) as [->|Hne].
  - rewrite lookup_delete_eq, (decide_True (P := j ∈ j :: l)) by constructor. by case_decide.
  - rewrite lookup_delete_ne by done.
    by destruct (decide (i ∈ l)), (decide (i ∈ j :: l)); set_solver.
Qed.

Lemma remove_spent inputs m :
  foldl (λ m i, delete i m) m inputs = remove_all_inputs (spent_outputs inputs m) m.
Proof.
  apply map_eq. intros i. rewrite foldl_delete_lookup, remove_all_lookup.
  destruct (m !! i) as [o|] eqn:E; [|by repeat case_decide].
  destruct (spent_spec inputs m) as [_ Hs].
  assert (i ∈ inputs ↔ i ∈ (spent_outputs inputs m).*1) as Hiff.
  { rewrite list_elem_of_fmap. split.
    - intros Hi. exists (i, o). split; [done|]. by apply Hs.
    - intros ([i' o'] & ? & Hx). cbn in *. subst. by apply Hs in Hx as [? _]. }
  destruct (decide (i ∈ inputs)), (decide (i ∈ (spent_outputs inputs m).*1)); tauto.
Qed.

Lemma insert_all_indep l m m' i : i ∈ l.*1 → insert_all l m !! i = insert_all l m' !! i.
Proof.
  unfold insert_all. revert m m'. induction l as [|[j o] l IH]; intros m m' Hi; [by apply elem_of_nil in Hi|].
  cbn. destruct (decide (i ∈ l.*1)) as [Hin|Hout]; [by apply IH|].
  cbn in Hi. apply elem_of_cons in Hi as [->|?]; [|done].
  pose proof (insert_all_notin l) as E. unfold insert_all in E. rewrite !E by done.
  by rewrite !lookup_insert_eq.
Qed.

(** Inserting new outputs and removing old ones commute. *)
Lemma insert_remove_comm l1 l2 m : (∀ i, i ∈ l1.*1 → i ∉ l2.*1) →
  insert_all l1 (remove_all_inputs l2 m) = remove_all_inputs l2 (insert_all l1 m).
Proof.
  intros Hd. apply map_eq. intros i. rewrite remove_all_lookup.
  destruct (decide (i ∈ l1.*1)) as [Hi|Hi].
  - rewrite decide_False by by apply Hd. by apply insert_all_indep.
  - rewrite !insert_all_notin by done. by rewrite remove_all_lookup.
Qed.

Lemma msum_delete_le m i : coins_ok m → msum out_coin (delete i m) ≤ msum out_coin m.
Proof.
  intros [Hpos _]. destruct (m !! i) as [o|] eqn:E; [|by rewrite delete_id].
  rewrite (msum_delete out_coin m i o E). specialize (Hpos i o E). cbn in Hpos. lia.
Qed.

Lemma msum_remove_le l m : coins_ok m → msum out_coin (remove_all_inputs l m) ≤ msum out_coin m.
Proof.
  unfold remove_all_inputs. revert m. induction l as [|[i o] l IH]; intros m Hok; [done|]. cbn.
  etransitivity; [apply IH, coins_ok_delete, Hok|by apply msum_delete_le].
Qed.

Lemma sub_fold_utxo l s : utxo (foldl (λ s (io : TransactionInput * TransactionOutput), sub_stake io.2 s) s l) = utxo s.
Proof. apply foldl_keeps. intros t io. unfold sub_stake. by destruct (stake_routing _ _). Qed.

Lemma add_fold_utxo l s : utxo (foldl (λ s o, add_stake o s) s l) = utxo s.
Proof. apply foldl_keeps. intros t o. unfold add_stake. by destruct (stake_routing _ _). Qed.

(** The stake maps are those of the UTxO set, whose amounts are in range. *)
Definition stake_ok s : Prop := agrees s (utxo_set (utxo s)) ∧ coins_ok (utxo_set (utxo s)).

(** A difference on [m] that names each input once. *)
Definition diff_exact m (d : UtxoDiff) : Prop :=
  diff_wf m d ∧ NoDup (inserts d).*1 ∧ NoDup (deletes d).*1.

(** The difference that is recorded is the effect on the set. *)
Definition effect (r : UtxoDiff * LedgerState) s : Prop :=
  utxo_set (utxo r.2) = diff_apply (utxo_set (utxo s)) r.1 ∧ diff_exact (utxo_set (utxo s)) r.1 ∧
  stake_ok r.2 ∧ diff_seq (utxo r.2) = diff_seq (utxo s).

Lemma utxo_changes_spec tx s : stake_ok s → tx_fits tx s → effect (apply_utxo_changes tx s) s.
Proof.
  intros [Ha Hok] Hf. unfold apply_utxo_changes. cbn zeta. set (m := utxo_set (utxo s)) in *.
  destruct (spent_spec (lt_inputs tx) m) as [Hnd Hs].
  destruct (sub_all_agrees _ s m Ha Hok Hnd) as [Ha1 Hok1]; [by intros i o [_ ?]%Hs|].
  set (s1 := foldl (λ s io, sub_stake io.2 s) s _) in *.
  assert (utxo s1 = utxo s) as Eu by apply sub_fold_utxo.
  assert (∀ i o, (i, o) ∈ new_outputs tx → m !! i = None ∧ 0 ≤ out_coin o) as Hnew.
  { intros i o (n & Hn & ->)%new_outputs_lookup. split; [apply (tf_fresh _ _ Hf)|].
    apply (tf_coins _ _ Hf). left. by apply list_elem_of_lookup_2 in Hn. }
  assert (∀ i, i ∈ (new_outputs tx).*1 → i ∉ (spent_outputs (lt_inputs tx) m).*1) as Hdisj.
  { intros i ([? o] & -> & [Hi _]%Hnew)%list_elem_of_fmap ([? o'] & ? & [_ Hx]%Hs)%list_elem_of_fmap.
    cbn in *. subst. congruence. }
  match goal with |- effect (_, add_fee _ (foldl _ ?x _)) _ => set (s3 := x) end.
  assert (utxo_set (utxo s3) = insert_all (new_outputs tx) (remove_all_inputs (spent_outputs (lt_inputs tx) m) m)) as E3.
  { unfold s3, with_set. cbn. rewrite Eu. fold m. by rewrite remove_spent. }
  destruct (add_all_agrees (new_outputs tx) s3 (remove_all_inputs (spent_outputs (lt_inputs tx) m) m)) as [Ha2 Hok2].
  - by apply (agrees_ext s1).
  - done.
  - apply new_outputs_NoDup, Hf.
  - intros i o Hi. destruct (Hnew i o Hi) as [Hm Ho]. split; [|done]. rewrite remove_all_lookup. by case_decide.
  - pose proof (msum_remove_le (spent_outputs (lt_inputs tx) m) m Hok).
    pose proof (tf_total _ _ Hf) as Ht. fold m in Ht.
    assert (0 ≤ default 0 (out_coin <$> lt_collateral_return tx)); [|lia].
    destruct (lt_collateral_return tx) as [o|] eqn:E; [|done]. apply (tf_coins _ _ Hf). by right.
  - rewrite new_outputs_snd in Ha2.
    assert (utxo_set (utxo (foldl (λ s o, add_stake o s) s3 (lt_outputs tx))) =
      diff_apply m (mkDiff (new_outputs tx) (spent_outputs (lt_inputs tx) m))) as E4.
    { rewrite add_fold_utxo, E3. by apply insert_remove_comm. }
    split_and!.
    + exact E4.
    + split; [|split; [apply new_outputs_NoDup, Hf|done]].
      split; cbn [inserts deletes]; [by intros i o [? _]%Hnew|]. intros i o [Hi Hm]%Hs. rewrite insert_all_notin; [done|].
      intros Hx. apply (Hdisj i Hx), list_elem_of_fmap. exists (i, o). split; [done|]. by apply Hs.
    + unfold stake_ok. change (utxo_set (utxo (_, add_fee ?f ?x).2)) with (utxo_set (utxo x)).
      rewrite add_fold_utxo, E3. split; [|done]. by eapply agrees_ext, Ha2.
    + change (diff_seq (utxo (foldl (λ s o, add_stake o s) s3 (lt_outputs tx))) = diff_seq (utxo s)).
      rewrite add_fold_utxo. unfold s3, with_set. cbn. by rewrite Eu.
Qed.

(** ** Invalid transactions *)

Definition found (l : list TransactionInput) m := omap (λ i, (λ o, (i, o)) <$> m !! i) l.

Lemma found_cons i l m : found (i :: l) m =
  match m !! i with Some o => (i, o) :: found l m | None => found l m end.
Proof. unfold found. cbn. by destruct (m !! i). Qed.

Lemma found_delete l m i : i ∉ l → found l (delete i m) = found l m.
Proof.
  induction l as [|j l IH]; intros Hi; [done|]. apply not_elem_of_cons in Hi as [? ?].
  by rewrite !found_cons, lookup_delete_ne, IH by done.
Qed.

Lemma found_NoDup l m : NoDup l → NoDup (found l m).*1.
Proof.
  induction 1 as [|i l Hi Hnd IH]; [constructor|]. rewrite found_cons.
  destruct (m !! i) as [o|]; [|done]. cbn. constructor; [|done].
  intros ([i' o'] & ? & Hx)%list_elem_of_fmap. cbn in *. subst i'. apply list_elem_of_omap in Hx as (j & Hj & E).
  destruct (m !! j); by simplify_eq/=.
Qed.

Lemma sub_stake_utxo o s : utxo (sub_stake o s) = utxo s.
Proof. unfold sub_stake. by destruct (stake_routing _ _). Qed.

Lemma add_stake_utxo o s : utxo (add_stake o s) = utxo s.
Proof. unfold add_stake. by destruct (stake_routing _ _). Qed.

Lemma consume_spec l diff v s : NoDup l → stake_ok s →
  ∃ d' v' s', consume_collateral l diff v s = (d', v', s') ∧
    d' = mkDiff (inserts diff) (deletes diff ++ found l (utxo_set (utxo s))) ∧
    utxo_set (utxo s') = remove_all_inputs (found l (utxo_set (utxo s))) (utxo_set (utxo s)) ∧
    stake_ok s' ∧ diff_seq (utxo s') = diff_seq (utxo s).
Proof.
  intros Hnd. revert diff v s. induction Hnd as [|i l Hi Hnd IH]; intros diff v s [Ha Hok].
  { eexists _, _, s. cbn. rewrite app_nil_r. by destruct diff. }
  cbn [consume_collateral]. destruct (utxo_set (utxo s) !! i) as [o|] eqn:E.
  - destruct (IH (record_delete diff i o) (v +w coin (out_value o))%mach (with_set (delete i) (sub_stake o s)))
      as (d' & v' & s' & -> & -> & Eset & Hst & Eseq).
    { unfold stake_ok, with_set. cbn. rewrite sub_stake_utxo. split; [|by apply coins_ok_delete].
      by eapply agrees_ext, (sub_stake_agrees s _ i o). }
    unfold with_set in *. cbn [utxo utxo_set diff_seq update] in *. rewrite sub_stake_utxo, found_delete in * by done.
    eexists _, _, s'. rewrite found_cons, E. split_and!; try done. cbn [inserts deletes record_delete].
    by rewrite <- app_assoc.
  - destruct (IH diff v (with_set (delete i) s)) as (d' & v' & s' & -> & -> & Eset & Hst & Eseq).
    { unfold stake_ok, with_set. cbn. rewrite delete_id by done. split; [|done]. by eapply agrees_ext, Ha. }
    unfold with_set in *. cbn [utxo utxo_set diff_seq update] in *. rewrite delete_id in * by done.
    eexists _, _, s'. by rewrite found_cons, E.
Qed.

Lemma collateral_spec tx s : stake_ok s → tx_fits tx s → effect (apply_collateral_consumption tx s) s.
Proof.
  intros Hst Hf. unfold apply_collateral_consumption.
  destruct (first_occurrences_spec ∅ (lt_collateral tx)) as [Hnd _].
  destruct (consume_spec _ diff_new 0 s Hnd Hst) as (d' & v' & s' & -> & -> & Eset & [Ha' Hok'] & Eseq).
  set (m := utxo_set (utxo s)) in *. set (l := first_occurrences ∅ (lt_collateral tx)) in *.
  assert (∀ i o, (i, o) ∈ found l m → m !! i = Some o) as Hfound.
  { intros i o (j & _ & E)%list_elem_of_omap. destruct (m !! j) eqn:Em; by simplify_eq/=. }
  destruct (lt_collateral_return tx) as [o|] eqn:Er.
  - set (i := mkInput _ _). assert (m !! i = None) as Hi by apply (tf_fresh _ _ Hf).
    assert (remove_all_inputs (found l m) m !! i = None) as Hi' by (rewrite remove_all_lookup; by case_decide).
    assert (utxo_set (utxo (with_set <[i:=o]> (add_stake o s'))) =
      diff_apply m (mkDiff [(i, o)] (found l m))) as E.
    { unfold with_set. cbn. rewrite add_stake_utxo, Eset.
      apply (insert_remove_comm [(i, o)]). cbn. intros j ->%list_elem_of_singleton ([? o'] & ? & ?%Hfound)%list_elem_of_fmap.
      cbn in *. subst. congruence. }
    assert (0 ≤ out_coin o) as Ho by (apply (tf_coins _ _ Hf); by right).
    assert (coins_ok (<[i := o]> (remove_all_inputs (found l m) m))) as Hok2.
    { apply coins_ok_insert; [done..|by rewrite <- Eset|].
      pose proof (msum_remove_le (found l m) m (proj2 Hst)). pose proof (tf_total _ _ Hf) as Ht.
      rewrite Er in Ht. fold m in Ht. cbn in Ht.
      assert (0 ≤ coins_of (new_outputs tx)); [|lia]. apply coins_of_nonneg.
      intros j o' (n & Hn & _)%new_outputs_lookup. apply (tf_coins _ _ Hf). left. by apply list_elem_of_lookup_2 in Hn. }
    split_and!; [exact E| | |].
    + split; [|split; [cbn; apply NoDup_singleton|by apply found_NoDup]].
      split; cbn [inserts deletes diff_new app].
      * by intros j o' ?%list_elem_of_singleton; simplify_eq.
      * intros j o' Hj%Hfound. rewrite insert_all_notin; [done|]. cbn.
        rewrite list_elem_of_singleton. intros ->. congruence.
    + unfold stake_ok. change (utxo_set (utxo (_, add_fee ?f ?x).2)) with (utxo_set (utxo x)).
      unfold with_set. cbn. rewrite add_stake_utxo, Eset. split; [|done].
      rewrite <- Eset in Hok2 |- *. eapply agrees_ext; [done..|]. apply add_stake_agrees; [done..|by rewrite Eset].
    + unfold with_set, add_fee. cbn. by rewrite add_stake_utxo.
  - split_and!; [exact Eset| |by split|done].
    split; [|split; [constructor|by apply found_NoDup]].
    split; cbn [inserts deletes diff_new app]; [by intros ? ? []%elem_of_nil|by apply Hfound].
Qed.

End stake.

(** * The transactions of a block, correctness

    Running the transactions of a block one after the other, merging their
    differences: the merged difference is the effect of the block on the UTxO
    set, it can be undone, and replaying it moves the same stake. *)


Section block.
Context `{Payloads}.
Implicit Types (s : LedgerState) (m : gmap TransactionInput TransactionOutput) (d : UtxoDiff).

(** ** Rebuilding *)

Definition acc_agrees (ex : bool) (acc : gmap Hash32 Lovelace * gmap Pointer Z) m : Prop :=
  (∀ c, default 0 (acc.1 !! c) = msum (cred_part ex c) m) ∧
  (∀ p, default 0 (acc.2 !! p) = msum (ptr_part ex p) m).

Lemma scan_agrees ex acc m i o : m !! i = None → coins_ok (<[i := o]> m) →
  acc_agrees ex acc m → acc_agrees ex (scan_output ex o acc) (<[i := o]> m).
Proof.
  intros Hi Hok [Hc Hp].
  pose proof (λ c p, parts_sum ex c p _ Hok) as Hsum. setoid_rewrite (msum_insert _ _ _ _ Hi) in Hsum.
  pose proof (parts_routing ex o) as Hparts. unfold scan_output.
  destruct (stake_routing _ _) as [c|p|]; destruct Hparts as [Ec Ep];
    setoid_rewrite Ec in Hsum; setoid_rewrite Ep in Hsum; split; cbn; intros k;
    rewrite (msum_insert _ _ _ _ Hi), ?Ec, ?Ep; try (rewrite Z.add_0_l; auto; fail).
  - apply credit_stake_default; [apply (Hsum k (mkPointer 0 0 0))|apply Hc].
  - apply credit_pointer_default; [apply (Hsum [] k)|apply Hp].
Qed.

Lemma or_insert_default (c k : Hash32) (sm : gmap Hash32 Lovelace) :
  default 0 (or_insert_zero c sm !! k) = default 0 (sm !! k).
Proof.
  unfold or_insert_zero. destruct (decide (c = k)) as [->|]; [by rewrite lookup_insert_eq|].
  by rewrite lookup_insert_ne.
Qed.

Lemma rebuild_agrees s : coins_ok (utxo_set (utxo s)) →
  agrees (rebuild_stake_distribution s) (utxo_set (utxo s)).
Proof.
  intros Hok. unfold rebuild_stake_distribution.
  destruct (map_fold (λ _ o acc, scan_output _ o acc) _ _) as [new_map new_ptr] eqn:E.
  assert (acc_agrees (ptr_stake_excluded (epochs s)) (new_map, new_ptr) (utxo_set (utxo s))) as [Hc Hp].
  { rewrite <- E. clear E. revert Hok.
    apply (map_fold_weak_ind (λ acc m, coins_ok m → acc_agrees (ptr_stake_excluded (epochs s)) acc m)).
    - intros _. by split.
    - intros i o m acc Hi IH Hok. apply scan_agrees; [done..|]. apply IH.
      apply (coins_ok_delete _ i) in Hok. by rewrite delete_insert_id in Hok. }
  split; cbn; [|exact Hp]. intros c. cbn in Hc. rewrite <- Hc. clear E Hc.
  apply (map_fold_weak_ind (λ sm _, default 0 (sm !! c) = default 0 (new_map !! c))); [done|].
  intros c' _ _ sm _ IH. by rewrite or_insert_default.
Qed.

(** ** Running a block *)

(** A transaction with its validity tag; the UTxO part of [apply_valid_tx] and
    [apply_invalid_tx]. *)
Definition run_tx (t : bool * LedgerTx) s : UtxoDiff * LedgerState :=
  if t.1 then apply_utxo_changes t.2 s else apply_collateral_consumption t.2 s.

Fixpoint run_txs (txs : list (bool * LedgerTx)) d s : UtxoDiff * LedgerState :=
  match txs with
  | [] => (d, s)
  | t :: txs' => let '(d', s') := run_tx t s in run_txs txs' (diff_merge d d') s'
  end.

Lemma run_tx_spec t s : stake_ok s → tx_fits t.2 s → effect (run_tx t s) s.
Proof. unfold run_tx. destruct t.1; [apply utxo_changes_spec|apply collateral_spec]. Qed.

(** The outputs that a transaction creates carry its hash. *)
Lemma run_tx_hash t s i o : (i, o) ∈ inserts (run_tx t s).1 → transaction_id i = lt_hash t.2.
Proof.
  unfold run_tx. destruct t as [[|] tx]; cbn [fst snd].
  - intros (n & _ & ->)%new_outputs_lookup. done.
  - unfold apply_collateral_consumption.
    assert (∀ l d v s, inserts (consume_collateral l d v s).1.1 = inserts d) as Hins.
    { clear. induction l as [|i l IH]; intros d v s; [done|]. cbn. destruct (_ !! i); by rewrite IH. }
    specialize (Hins (first_occurrences ∅ (lt_collateral tx)) diff_new 0 s).
    destruct (consume_collateral _ _ _ _) as [[d v] s']. cbn in Hins.
    destruct (lt_collateral_return tx); cbn; rewrite Hins.
    + by intros ?%list_elem_of_singleton; simplify_eq.
    + by intros []%elem_of_nil.
Qed.

(** ** Merging *)

Lemma insert_all_app l1 l2 m : insert_all (l1 ++ l2) m = insert_all l2 (insert_all l1 m).
Proof. apply foldl_app. Qed.

Lemma remove_all_app l1 l2 m : remove_all_inputs (l1 ++ l2) m = remove_all_inputs l2 (remove_all_inputs l1 m).
Proof. apply foldl_app. Qed.

(** Two differences in a row, where the second creates nothing that the first
    knew, are their merge. *)
Lemma merge_exact m d d' : diff_exact m d → diff_exact (diff_apply m d) d' →
  (∀ i o, (i, o) ∈ inserts d' → m !! i = None ∧ i ∉ (inserts d).*1) →
  diff_apply (diff_apply m d) d' = diff_apply m (diff_merge d d') ∧ diff_exact m (diff_merge d d').
Proof.
  intros [[Hi Hd] [Hni Hnd]] [[Hi' Hd'] [Hni' Hnd']] Hnew.
  assert (∀ i, i ∈ (inserts d').*1 → i ∉ (inserts d).*1 ∧ i ∉ (deletes d).*1) as Hfresh.
  { intros i ([? o] & -> & [Hm Hx]%Hnew)%list_elem_of_fmap. split; [done|].
    intros ([? o'] & ? & Hy)%list_elem_of_fmap. cbn in *. subst. apply Hd in Hy.
    rewrite insert_all_notin in Hy by done. congruence. }
  assert (∀ i, i ∈ (deletes d').*1 → i ∉ (deletes d).*1) as Honce.
  { intros i ([? o] & -> & Hx%Hd')%list_elem_of_fmap Hy. cbn in *.
    destruct (decide (t ∈ (inserts d').*1)) as [Ht|Ht]; [by apply Hfresh in Ht as [_ ?]|].
    rewrite insert_all_notin in Hx by done. unfold diff_apply in Hx.
    rewrite remove_all_lookup, decide_True in Hx by done. done. }
  split.
  - unfold diff_apply, diff_merge. cbn [inserts deletes]. rewrite insert_all_app, remove_all_app.
    f_equal. apply insert_remove_comm. intros i Hx. by apply Hfresh.
  - split; [|unfold diff_merge; cbn [inserts deletes]; rewrite !fmap_app; split; apply NoDup_app; split_and!; try done;
      [intros i Hx Hy; by apply Hfresh in Hy as [? _]|intros i Hx Hy; by apply Honce in Hy]].
    split; cbn [inserts deletes diff_merge].
    + intros i o [?|?]%elem_of_app; [by apply (Hi i o)|by apply (Hnew i o)].
    + intros i o [Hx|Hx]%elem_of_app; rewrite insert_all_app.
      * rewrite insert_all_notin; [by apply Hd|]. intros Hy. apply Hfresh in Hy as [_ Hy].
        apply Hy, list_elem_of_fmap. by exists (i, o).
      * apply Hd' in Hx. destruct (decide (i ∈ (inserts d').*1)) as [Hy|Hy].
        -- by rewrite (insert_all_indep _ _ (diff_apply m d)).
        -- rewrite insert_all_notin in Hx |- * by done. unfold diff_apply in Hx.
           rewrite remove_all_lookup in Hx. by case_decide.
Qed.

(** Each transaction fits when its turn comes. *)
Fixpoint block_fits (txs : list (bool * LedgerTx)) s : Prop :=
  match txs with
  | [] => True
  | t :: txs' => tx_fits t.2 s ∧ block_fits txs' (run_tx t s).2
  end.

Lemma run_txs_spec m txs d s :
  stake_ok s → block_fits txs s → utxo_set (utxo s) = diff_apply m d → diff_exact m d →
  NoDup (lt_hash ∘ snd <$> txs) →
  (∀ t n, t ∈ txs → m !! mkInput (lt_hash t.2) n = None) →
  (∀ t i o, t ∈ txs → (i, o) ∈ inserts d → transaction_id i ≠ lt_hash t.2) →
  let '(d', s') := run_txs txs d s in
  stake_ok s' ∧ utxo_set (utxo s') = diff_apply m d' ∧ diff_exact m d' ∧ diff_seq (utxo s') = diff_seq (utxo s).
Proof.
  revert d s. induction txs as [|t txs IH]; intros d s Hst Hfit Eset Hex Hnd Hm Hdone; [done|].
  destruct Hfit as [Hf Hfit]. cbn [run_txs]. pose proof (run_tx_spec t s Hst Hf) as (E1 & E2 & E3 & E4).
  pose proof (run_tx_hash t s) as Hh. destruct (run_tx t s) as [d1 s1]. cbn [fst snd] in *.
  cbn in Hnd. apply NoDup_cons in Hnd as [Hnot Hnd].
  rewrite Eset in E1, E2.
  destruct (merge_exact m d d1 Hex E2) as [Ea Hex'].
  { intros i o Hi. pose proof (Hh i o Hi) as Et. split.
    - destruct i as [h n]. cbn in Et. subst h. apply Hm. constructor.
    - intros ([? o'] & ? & Hx)%list_elem_of_fmap. cbn in *. subst.
      apply (Hdone t _ _ ltac:(constructor) Hx). done. }
  specialize (IH (diff_merge d d1) s1 E3 Hfit). rewrite E1, Ea in IH.
  destruct (run_txs txs (diff_merge d d1) s1) as [d' s'].
  destruct IH as (? & ? & ? & ?); [done..| | |].
  - intros t' n Ht. apply Hm. by constructor.
  - intros t' i o Ht [Hi|Hi]%elem_of_app; [apply (Hdone t' i o); [by constructor|done]|].
    rewrite (Hh i o Hi). intros E. apply Hnot, list_elem_of_fmap. exists t'. by split.
  - split_and!; [done..|congruence].
Qed.

(** ** Replaying the difference of a block *)

Definition excluded s : bool := ptr_stake_excluded (epochs s).

(** The stake maps have an entry for [r]. *)
Definition keyed s (r : StakeRouting) : Prop :=
  match r with
  | RouteCredential c => is_Some (stake_map (certs s) !! c)
  | RoutePointer p => is_Some (ptr_stake (epochs s) !! p)
  | RouteNone => True
  end.

(** Some output of [l] goes to [r]. *)
Definition pays (ex : bool) (l : list (TransactionInput * TransactionOutput)) (r : StakeRouting) : Prop :=
  ∃ io, io ∈ l ∧ stake_routing (out_address io.2) ex = r.

(** [s'] has the entries of [s] and those of the outputs [l]. *)
Definition keys_added s l s' : Prop :=
  excluded s' = excluded s ∧ ∀ r, keyed s' r ↔ keyed s r ∨ pays (excluded s) l r.

Lemma insert_is_Some `{Countable K} {A} (k k' : K) (x : A) (m' : gmap K A) :
  is_Some (<[k := x]> m' !! k') ↔ is_Some (m' !! k') ∨ k = k'.
Proof. rewrite lookup_insert_is_Some. destruct (decide (k = k')); naive_solver. Qed.

Lemma pays_singleton ex i o r : pays ex [(i, o)] r ↔ stake_routing (out_address o) ex = r.
Proof.
  unfold pays. split.
  - by intros (? & ->%list_elem_of_singleton & ?).
  - intros ?. exists (i, o). split; [constructor|done].
Qed.

Lemma add_keyed s i o : keys_added s [(i, o)] (add_stake o s).
Proof.
  unfold add_stake, keys_added. setoid_rewrite pays_singleton. fold (excluded s).
  destruct (stake_routing (out_address o) (excluded s)) as [c|p|] eqn:E; (split; [done|]);
    intros [c'|p'|]; cbn; try naive_solver.
  - unfold credit_stake. rewrite insert_is_Some. naive_solver.
  - unfold credit_pointer. rewrite insert_is_Some. naive_solver.
Qed.

Lemma sub_keyed s o : keys_added s [] (sub_stake o s).
Proof.
  assert (∀ r, pays (excluded s) [] r ↔ False) as Hnil.
  { intros r. split; [|done]. by intros (? & []%elem_of_nil & _). }
  unfold sub_stake, keys_added. setoid_rewrite Hnil. fold (excluded s).
  destruct (stake_routing (out_address o) (excluded s)) as [c|p|]; (split; [done|]);
    intros [c'|p'|]; cbn; unfold debit; rewrite ?lookup_alter_is_Some; naive_solver.
Qed.

Lemma keys_added_trans s1 l1 s2 l2 s3 : keys_added s1 l1 s2 → keys_added s2 l2 s3 → keys_added s1 (l1 ++ l2) s3.
Proof.
  intros [E1 H1] [E2 H2]. split; [congruence|]. intros r. rewrite H2, H1, E1. unfold pays.
  setoid_rewrite elem_of_app. naive_solver.
Qed.

Lemma keys_added_same s s' : stake_map (certs s') = stake_map (certs s) → ptr_stake (epochs s') = ptr_stake (epochs s) →
  excluded s' = excluded s → keys_added s [] s'.
Proof.
  intros E1 E2 E3. split; [done|]. intros r. assert (keyed s' r ↔ keyed s r) as ->.
  { destruct r; cbn; by rewrite ?E1, ?E2. }
  split; [by left|]. by intros [?|(? & []%elem_of_nil & _)].
Qed.

Lemma sub_fold_keyed (l : list (TransactionInput * TransactionOutput)) s :
  keys_added s [] (foldl (λ s io, sub_stake io.2 s) s l).
Proof.
  revert s. induction l as [|io l IH]; intros s; [by apply keys_added_same|].
  apply (keys_added_trans _ [] (sub_stake io.2 s) []); [apply sub_keyed|apply IH].
Qed.

Lemma add_fold_keyed (l : list (TransactionInput * TransactionOutput)) s :
  keys_added s l (foldl (λ s o, add_stake o s) s l.*2).
Proof.
  revert s. induction l as [|[i o] l IH]; intros s; [by apply keys_added_same|].
  apply (keys_added_trans _ [(i, o)] (add_stake o s) l); [apply add_keyed|apply IH].
Qed.

Lemma run_tx_keyed t s : keys_added s (inserts (run_tx t s).1) (run_tx t s).2.
Proof.
  unfold run_tx. destruct t as [[|] tx]; cbn [fst snd].
  - unfold apply_utxo_changes. cbn zeta. cbn [fst snd inserts].
    apply (keys_added_trans _ [] (foldl (λ s io, sub_stake io.2 s) s (spent_outputs (lt_inputs tx) (utxo_set (utxo s))))
      (new_outputs tx)).
    { apply sub_fold_keyed. }
    match goal with |- keys_added _ _ (add_fee _ (foldl _ ?x _)) => set (s3 := x) end.
    apply (keys_added_trans _ [] s3 (new_outputs tx)); [by apply keys_added_same|].
    rewrite <- (app_nil_r (new_outputs tx)).
    eapply keys_added_trans; [|by apply (keys_added_same (foldl (λ s o, add_stake o s) s3 (lt_outputs tx)))].
    rewrite <- new_outputs_snd. apply add_fold_keyed.
  - unfold apply_collateral_consumption.
    assert (∀ l d v s, inserts (consume_collateral l d v s).1.1 = inserts d ∧
      keys_added s [] (consume_collateral l d v s).2) as Hc.
    { clear. induction l as [|i l IH]; intros d v s; [by split; [|apply keys_added_same]|]. cbn.
      destruct (_ !! i) as [o|]; (split; [by rewrite (proj1 (IH _ _ _))|]).
      - eapply (keys_added_trans _ [] _ []); [apply (sub_keyed s o)|].
        eapply (keys_added_trans _ [] _ []); [|apply IH]. by apply keys_added_same.
      - eapply (keys_added_trans _ [] _ []); [|apply IH]. by apply keys_added_same. }
    specialize (Hc (first_occurrences ∅ (lt_collateral tx)) diff_new 0 s).
    destruct (consume_collateral _ _ _ _) as [[d v] s']. cbn in Hc. destruct Hc as [Hins Hk].
    destruct (lt_collateral_return tx) as [o|]; cbn [fst snd inserts record_insert]; rewrite Hins.
    + apply (keys_added_trans _ [] s'); [done|]. cbn.
      apply (keys_added_trans _ [_] (add_stake o s') []); [apply add_keyed|by apply keys_added_same].
    + apply (keys_added_trans _ [] s' []); [done|by apply keys_added_same].
Qed.

Lemma run_txs_keyed s0 txs d s : keys_added s0 (inserts d) s →
  keys_added s0 (inserts (run_txs txs d s).1) (run_txs txs d s).2.
Proof.
  revert d s. induction txs as [|t txs IH]; intros d s Hk; [done|]. cbn [run_txs].
  pose proof (run_tx_keyed t s) as Ht. destruct (run_tx t s) as [d' s']. apply IH.
  by apply (keys_added_trans _ _ s).
Qed.

Lemma replay_insert_keyed l s : keys_added s l (foldl apply_insert s l).
Proof.
  revert s. induction l as [|[i o] l IH]; intros s; [by apply keys_added_same|].
  apply (keys_added_trans _ [(i, o)] (apply_insert s (i, o)) l); [|apply IH].
  apply (keys_added_trans _ [(i, o)] (add_stake o s) []); [apply add_keyed|by apply keys_added_same].
Qed.

Lemma replay_delete_keyed l s : keys_added s [] (foldl apply_delete s l).
Proof.
  revert s. induction l as [|[i o] l IH]; intros s; [by apply keys_added_same|].
  apply (keys_added_trans _ [] (apply_delete s (i, o)) []); [|apply IH].
  apply (keys_added_trans _ [] (sub_stake o s) []); [apply sub_keyed|by apply keys_added_same].
Qed.

(** Entry for entry, the same stake. *)
Lemma stake_maps_eq s s' m :
  agrees s m → agrees s' m → excluded s' = excluded s → (∀ r, keyed s' r ↔ keyed s r) →
  stake_map (certs s') = stake_map (certs s) ∧ ptr_stake (epochs s') = ptr_stake (epochs s).
Proof.
  assert (∀ `{Countable K} (m1 m2 : gmap K Z), (∀ k, default 0 (m1 !! k) = default 0 (m2 !! k)) →
    (∀ k, is_Some (m1 !! k) ↔ is_Some (m2 !! k)) → m1 = m2) as Heq.
  { intros K ?? m1 m2 Hd Hk. apply map_eq. intros k. specialize (Hd k). specialize (Hk k).
    destruct (m1 !! k), (m2 !! k); cbn in *; [by subst|..|done].
    - by destruct (proj1 Hk (mk_is_Some _ _ eq_refl)).
    - by destruct (proj2 Hk (mk_is_Some _ _ eq_refl)). }
  unfold excluded. intros [Hc Hp] [Hc' Hp'] E Hk. rewrite E in *. split; apply Heq.
  - intros c. by rewrite Hc, Hc'.
  - intros c. apply (Hk (RouteCredential c)).
  - intros p. by rewrite Hp, Hp'.
  - intros p. apply (Hk (RoutePointer p)).
Qed.

Definition stakes s := (stake_map (certs s), ptr_stake (epochs s), excluded s).

Lemma agrees_stakes s s' m : stakes s' = stakes s → agrees s m → agrees s' m.
Proof. intros E. injection E as ? ? ?. by apply agrees_ext. Qed.

Lemma replay_insert_stakes l s t : stakes s = stakes t →
  stakes (foldl apply_insert s l) = stakes (foldl (λ s o, add_stake o s) t l.*2).
Proof.
  revert s t. induction l as [|[i o] l IH]; intros s t E; [done|]. cbn. apply IH.
  injection E as E1 E2 E3. unfold apply_insert, add_stake, stakes, excluded in *. cbn. rewrite E3.
  destruct (stake_routing _ _); cbn; congruence.
Qed.

Lemma replay_delete_stakes l s t : stakes s = stakes t →
  stakes (foldl apply_delete s l) = stakes (foldl (λ s io, sub_stake io.2 s) t l).
Proof.
  revert s t. induction l as [|[i o] l IH]; intros s t E; [done|]. cbn. apply IH.
  injection E as E1 E2 E3. unfold apply_delete, sub_stake, stakes, excluded in *. cbn. rewrite E3.
  destruct (stake_routing _ _); cbn; congruence.
Qed.

Lemma replay_agrees s d : stake_ok s → diff_exact (utxo_set (utxo s)) d →
  (∀ i o, (i, o) ∈ inserts d → 0 ≤ out_coin o) →
  msum out_coin (utxo_set (utxo s)) + coins_of (inserts d) ≤ u64_max →
  agrees (apply_utxo_diff s d) (diff_apply (utxo_set (utxo s)) d).
Proof.
  intros [Ha Hok] [[Hi Hd] [Hni Hnd]] Hpos Htot. unfold apply_utxo_diff, diff_apply.
  destruct (add_all_agrees (inserts d) s _ Ha Hok Hni) as [Ha1 Hok1]; [by split; [eapply Hi|eapply Hpos]|done|].
  eapply agrees_stakes; [by apply replay_delete_stakes|].
  apply sub_all_agrees; [|done..]. eapply agrees_stakes; [by apply replay_insert_stakes|done].
Qed.

(** ** Theorems *)

(** What a block needs: each transaction fits when its turn comes, and the
    hashes are distinct and new. *)
Record block_ready (txs : list (bool * LedgerTx)) s : Prop := {
  rd_fits : block_fits txs s;
  rd_hashes : NoDup (lt_hash ∘ snd <$> txs);
  rd_new : ∀ t n, t ∈ txs → utxo_set (utxo s) !! mkInput (lt_hash t.2) n = None;
}.

Lemma run_block_spec txs s d s' : stake_ok s → block_ready txs s → run_txs txs diff_new s = (d, s') →
  stake_ok s' ∧ utxo_set (utxo s') = diff_apply (utxo_set (utxo s)) d ∧ diff_exact (utxo_set (utxo s)) d.
Proof.
  intros Hst [Hf Hn Hm] Er.
  pose proof (run_txs_spec (utxo_set (utxo s)) txs diff_new s Hst Hf) as Hs. rewrite Er in Hs.
  destruct Hs as (? & ? & ? & _); try done; [..|by intros ? ? ? _ []%elem_of_nil].
  split_and!; try constructor; by intros ? ? []%elem_of_nil.
Qed.

(** C34: The stake that the transactions of a block move one at a time, valid
    ones through their inputs and outputs and invalid ones through their
    collateral, is the stake that a scan of the whole UTxO set finds: for every
    credential and every pointer, the incremental map and the rebuilt one hold
    the same amount. *)
Theorem incremental_stake_exact txs s d s' :
  stake_ok s → block_ready txs s → run_txs txs diff_new s = (d, s') →
  (∀ c, default 0 (stake_map (certs s') !! c) =
        default 0 (stake_map (certs (rebuild_stake_distribution s')) !! c)) ∧
  (∀ p, default 0 (ptr_stake (epochs s') !! p) =
        default 0 (ptr_stake (epochs (rebuild_stake_distribution s')) !! p)).
Proof.
  intros Hst Hr Er. destruct (run_block_spec txs s d s' Hst Hr Er) as ([[Hc Hp] Hok] & _).
  destruct (rebuild_agrees s' Hok) as [Rc Rp].
  assert (ptr_stake_excluded (epochs (rebuild_stake_distribution s')) = ptr_stake_excluded (epochs s')) as E.
  { unfold rebuild_stake_distribution. by destruct (map_fold _ _ _). }
  rewrite E in *. split; [intros c; by rewrite Hc, Rc|intros p; by rewrite Hp, Rp].
Qed.

(** The difference recorded for a block is its effect: applied to the UTxO
    set before the block it gives the set after it, undoing it gives the set
    before, even when outputs are created and spent within the block; and
    replaying it on the state before moves stake exactly as the block did, entry
    for entry. *)
Theorem block_diff_exact txs s d s' :
  stake_ok s → block_ready txs s → run_txs txs diff_new s = (d, s') →
  (∀ i o, (i, o) ∈ inserts d → 0 ≤ out_coin o) →
  msum out_coin (utxo_set (utxo s)) + coins_of (inserts d) ≤ u64_max →
  utxo_set (utxo s') = diff_apply (utxo_set (utxo s)) d ∧
  diff_undo (utxo_set (utxo s')) d = utxo_set (utxo s) ∧
  stake_map (certs (apply_utxo_diff s d)) = stake_map (certs s') ∧
  ptr_stake (epochs (apply_utxo_diff s d)) = ptr_stake (epochs s').
Proof.
  intros Hst Hr Er Hpos Htot. destruct (run_block_spec txs s d s' Hst Hr Er) as ([Ha Hok] & Eset & Hex).
  split; [done|]. split; [rewrite Eset; apply diff_undo_apply, Hex|].
  pose proof (run_txs_keyed s txs diff_new s ltac:(by apply keys_added_same)) as [Ex Hk]. rewrite Er in Ex, Hk.
  assert (keys_added s (inserts d) (apply_utxo_diff s d)) as [Ex' Hk'].
  { rewrite <- (app_nil_r (inserts d)).
    eapply keys_added_trans; [apply replay_insert_keyed|apply replay_delete_keyed]. }
  cbn in Ex, Hk. apply (stake_maps_eq _ _ (diff_apply (utxo_set (utxo s)) d)).
  - by rewrite <- Eset.
  - by apply replay_agrees.
  - congruence.
  - intros r. by rewrite Hk, Hk'.
Qed.

(** ** Checking the conditions on concrete blocks *)

Definition freshb (h : Hash32) m : bool :=
  forallb (λ io : TransactionInput * TransactionOutput, negb (bool_decide (transaction_id io.1 = h))) (map_to_list m).

Lemma freshb_ok h m : freshb h m = true → ∀ n, m !! mkInput h n = None.
Proof.
  intros Hf n. destruct (m !! mkInput h n) as [o|] eqn:E; [|done]. apply elem_of_map_to_list in E.
  unfold freshb in Hf. rewrite forallb_forall in Hf. apply list_elem_of_In, Hf, negb_true_iff in E.
  by apply bool_decide_eq_false in E.
Qed.

Definition tx_fitsb (tx : LedgerTx) s : bool :=
  freshb (lt_hash tx) (utxo_set (utxo s))
  && (Z.of_nat (length (lt_outputs tx)) <? 2 ^ 32)
  && forallb (λ o, 0 <=? out_coin o) (lt_outputs tx)
  && match lt_collateral_return tx with Some o => 0 <=? out_coin o | None => true end
  && (msum out_coin (utxo_set (utxo s)) + coins_of (new_outputs tx)
        + default 0 (out_coin <$> lt_collateral_return tx) <=? u64_max).

Lemma tx_fitsb_ok tx s : tx_fitsb tx s = true → tx_fits tx s.
Proof.
  unfold tx_fitsb. rewrite !andb_true_iff. intros [[[[Hf Hc] Ho] Hr] Ht].
  split; [by apply freshb_ok|by apply Z.ltb_lt| |by apply Z.leb_le].
  intros o [Hin|Hret].
  - rewrite forallb_forall in Ho. by apply Z.leb_le, Ho, list_elem_of_In.
  - rewrite Hret in Hr. by apply Z.leb_le.
Qed.

Fixpoint block_fitsb (txs : list (bool * LedgerTx)) s : bool :=
  match txs with
  | [] => true
  | t :: txs' => tx_fitsb t.2 s && block_fitsb txs' (run_tx t s).2
  end.

Definition block_readyb (txs : list (bool * LedgerTx)) s : bool :=
  block_fitsb txs s && bool_decide (NoDup (lt_hash ∘ snd <$> txs))
  && forallb (λ t, freshb (lt_hash t.2) (utxo_set (utxo s))) txs.

Lemma block_readyb_ok txs s : block_readyb txs s = true → block_ready txs s.
Proof.
  unfold block_readyb. rewrite !andb_true_iff. intros [[Hf Hn%bool_decide_eq_true] Hm]. split; [|done|].
  - clear Hm. revert s Hf. induction txs as [|t txs IH]; intros s; [done|]. cbn. rewrite andb_true_iff.
    intros [Hf Hr]. split; [by apply tx_fitsb_ok|]. apply IH; [|done]. cbn in Hn. by apply NoDup_cons in Hn as [_ ?].
  - intros t n Ht. rewrite forallb_forall in Hm. by apply freshb_ok, Hm, list_elem_of_In.
Qed.

End block.

(** ** A block *)

#[local] Existing Instance demo_payloads.

(** A first transaction creates two outputs, a second spends one of them, a
    third fails and pays with its collateral, returning some. *)
Definition demo_txs : list (bool * LedgerTx) :=
  [(true, mkLedgerTx [1] [] [demo_output 5; demo_output 7] [] None None 0);
   (true, mkLedgerTx [2] [mkInput [1] 0; mkInput [1] 0] [demo_output 4] [] None None 1);
   (false, mkLedgerTx [3] [mkInput [2] 0] [demo_output 9] [mkInput [1] 1] (Some (demo_output 6)) None 2)].

Definition demo_ran := run_txs demo_txs diff_new demo_start.

Lemma demo_start_stake : stake_ok demo_start.
Proof. split; [by split|]. by split; [apply map_Forall_empty|]. Qed.

Lemma incremental_stake_witness :
  stake_map (certs demo_ran.2) = {[to_typed_hash32 demo_cred := 10]} ∧
  (∀ c, default 0 (stake_map (certs demo_ran.2) !! c) =
        default 0 (stake_map (certs (rebuild_stake_distribution demo_ran.2)) !! c)) ∧
  (∀ p, default 0 (ptr_stake (epochs demo_ran.2) !! p) =
        default 0 (ptr_stake (epochs (rebuild_stake_distribution demo_ran.2)) !! p)).
Proof.
  split; [vm_compute; reflexivity|].
  apply (incremental_stake_exact demo_txs demo_start demo_ran.1 demo_ran.2);
    [apply demo_start_stake|apply block_readyb_ok; vm_compute; reflexivity|by unfold demo_ran; destruct (run_txs _ _ _)].
Defined.

Lemma block_diff_witness :
  utxo_set (utxo demo_ran.2) = diff_apply (utxo_set (utxo demo_start)) demo_ran.1 ∧
  diff_undo (utxo_set (utxo demo_ran.2)) demo_ran.1 = utxo_set (utxo demo_start) ∧
  stake_map (certs (apply_utxo_diff demo_start demo_ran.1)) = stake_map (certs demo_ran.2) ∧
  ptr_stake (epochs (apply_utxo_diff demo_start demo_ran.1)) = ptr_stake (epochs demo_ran.2).
Proof.
  apply (block_diff_exact demo_txs).
  - apply demo_start_stake.
  - apply block_readyb_ok. vm_compute. reflexivity.
  - by unfold demo_ran; destruct (run_txs _ _ _).
  - assert (Forall (λ io, 0 ≤ out_coin io.2) (inserts demo_ran.1)) as HF by (vm_compute; repeat constructor; done).
    rewrite Forall_forall in HF. intros i o Hio. apply (HF (i, o) Hio).
  - vm_compute. done.
Defined.
