(* ===== verification/Cbor.v ===== *)
(** * CBOR primitives ([crates/dugite-serialization/src])

    The encoders of [cbor.rs], the decoders of
    [haskell_snapshot/cbor_utils.rs] and its [skip_cbor_value]. A decoder
    takes a buffer and returns the value with the number of bytes consumed.
    The texts of error messages are left out; a panic of the code (an index
    out of range) is a fault of its own. [num_bigint] is not part of the
    repository: [BigInt] is [Z], and [to_bytes_be] a parameter. *)

From S2P Require Import Prelude Bytes EraHistory Block.
Local Open Scope Z_scope.

(** ** Errors ([error.rs]) *)

Inductive SerializationError : Type :=
| CborEncode
| CborDecode
| SerInvalidData
| UnexpectedTag (tag : Z)
| MissingField
| InvalidLength (expected got : Z).

Inductive cbor_fault : Type :=
| CborPanic
| CborLoop
| CborErr (e : SerializationError).

#[global] Instance SerializationError_eq_dec : EqDecision SerializationError.
Proof. solve_decision. Defined.
#[global] Instance cbor_fault_eq_dec : EqDecision cbor_fault.
Proof. solve_decision. Defined.

Abbreviation dec := (result cbor_fault).

Definition eof {A} : dec A := Err (CborErr CborDecode).
Definition malformed {A} : dec A := Err (CborErr CborDecode).

(** ** Encoders ([cbor.rs]) *)

(** The header of an item with major type [base / 32]: the shortest form of
    the argument. Integers have the five forms, *)
Definition head64 (base value : Z) : list Z :=
  if value <? 24 then [Z.lor base value]
  else if value <? 256 then [base + 0x18; value]
  else if value <? 65536 then base + 0x19 :: be_bytes 2 value
  else if value <? 4294967296 then base + 0x1a :: be_bytes 4 value
  else base + 0x1b :: be_bytes 8 value.

(** strings, arrays, maps and tags only four, the last with [as u32]. *)
Definition head32 (base value : Z) : list Z :=
  if value <? 24 then [Z.lor base value]
  else if value <? 256 then [base + 0x18; value]
  else if value <? 65536 then base + 0x19 :: be_bytes 2 value
  else base + 0x1a :: be_bytes 4 value.

Definition encode_uint (value : Z) : list Z := head64 0x00 value.

Definition encode_nint_from_magnitude (m : Z) : list Z := head64 0x20 m.

(** [value as u64] truncates. *)
Definition encode_int (value : Z) : list Z :=
  if 0 <=? value then encode_uint (wrap64 value)
  else head64 0x20 (wrap64 (-1 - value)).

Definition encode_bytes (data : list Z) : list Z := head32 0x40 (Z.of_nat (length data)) ++ data.
Definition encode_text (text : list Z) : list Z := head32 0x60 (Z.of_nat (length text)) ++ text.
Definition encode_array_header (len : nat) : list Z := head32 0x80 (Z.of_nat len).
Definition encode_map_header (len : nat) : list Z := head32 0xa0 (Z.of_nat len).
Definition encode_tag (tag : Z) : list Z := head32 0xc0 tag.
Definition encode_bool (value : bool) : list Z := [if value then 0xf5 else 0xf4].
Definition encode_null : list Z := [0xf6].

Definition encode_hash32 (hash : Hash32) : list Z := 0x58 :: 32 :: hash.
Definition encode_hash28 (hash : list Z) : list Z := 0x58 :: 28 :: hash.

Definition encode_point (p : Point) : list Z :=
  match p with
  | Origin => [0x82; 0x00; 0x80]
  | Specific slot hash => 0x82 :: encode_uint slot ++ encode_hash32 hash
  end.

Definition encode_tx_input (i : TransactionInput) : list Z :=
  encode_array_header 2 ++ encode_hash32 (transaction_id i) ++ encode_uint (tx_index i).

Definition ENCODE_MAP_DEFINITE_MAX : nat := 23.
Definition ENCODE_ARRAY_DEFINITE_MAX : nat := 23.

Definition encode_map_open (len : nat) : list Z :=
  if (len <=? ENCODE_MAP_DEFINITE_MAX)%nat then encode_map_header len else [0xbf].
Definition encode_map_close (buf : list Z) (len : nat) : list Z :=
  if (ENCODE_MAP_DEFINITE_MAX <? len)%nat then buf ++ [0xff] else buf.
Definition encode_array_open (len : nat) : list Z :=
  if (len <=? ENCODE_ARRAY_DEFINITE_MAX)%nat then encode_array_header len else [0x9f].
Definition encode_array_close (buf : list Z) (len : nat) : list Z :=
  if (ENCODE_ARRAY_DEFINITE_MAX <? len)%nat then buf ++ [0xff] else buf.

(** [slice::chunks(n)]: pieces of [n] elements, the last one possibly
    shorter. *)
Fixpoint chunks_fuel (fuel n : nat) (data : list Z) : list (list Z) :=
  match fuel, data with
  | S fuel', _ :: _ => take n data :: chunks_fuel fuel' n (drop n data)
  | _, _ => []
  end.
Definition chunks (n : nat) (data : list Z) : list (list Z) := chunks_fuel (length data) n data.

Definition PLUTUS_LEAF_MAX : nat := 64.

Definition encode_bounded_plutus_bytes (data : list Z) : list Z :=
  if (length data <=? PLUTUS_LEAF_MAX)%nat then encode_bytes data
  else 0x5f :: mjoin (encode_bytes <$> chunks PLUTUS_LEAF_MAX data) ++ [0xff].

(** [BigInt::to_bytes_be] of a magnitude: the shortest big-endian form. *)
Class NumBigint := { to_bytes_be : Z → list Z }.

Class NumBigintOk (B : NumBigint) : Prop := {
  to_bytes_be_value : ∀ n, 0 < n → be_value (to_bytes_be n) = n;
  to_bytes_be_bytes : ∀ n, 0 < n → Forall (λ b, 0 ≤ b < 256) (to_bytes_be n);
}.

(** [PlutusData] and [TransactionMetadatum] of [primitives/src/transaction.rs]
    (texts are their UTF-8 bytes). *)
Inductive PlutusData : Type :=
| PdConstr (tag : Z) (fields : list PlutusData)
| PdMap (entries : list (PlutusData * PlutusData))
| PdList (items : list PlutusData)
| PdInteger (n : Z)
| PdBytes (b : list Z).

Inductive TransactionMetadatum : Type :=
| MdInt (n : Z)
| MdBytes (b : list Z)
| MdText (t : list Z)
| MdList (items : list TransactionMetadatum)
| MdMap (entries : list (TransactionMetadatum * TransactionMetadatum)).

Section encoders.
Context {NB : NumBigint}.

Definition encode_plutus_int (value : Z) : list Z :=
  if 0 <=? value then
    if value <=? u64_max then encode_uint value
    else encode_tag 2 ++ encode_bounded_plutus_bytes (to_bytes_be value)
  else
    let magnitude := - value - 1 in
    if magnitude <=? u64_max then encode_nint_from_magnitude magnitude
    else encode_tag 3 ++ encode_bounded_plutus_bytes (to_bytes_be magnitude).

Fixpoint encode_plutus_data (data : PlutusData) : list Z :=
  match data with
  | PdConstr tag fields =>
      let items := encode_array_header (length fields) ++ List.flat_map encode_plutus_data fields in
      if tag <? 7 then 0xd8 :: (121 + tag) mod 256 :: items
      else if tag <? 128 then 0xd9 :: be_bytes 2 (1280 + (tag - 7)) ++ items
      else 0xd8 :: 0x66 :: encode_array_header 2 ++ encode_uint tag ++ items
  | PdMap entries =>
      encode_map_header (length entries) ++
      List.flat_map (λ '(k, v), encode_plutus_data k ++ encode_plutus_data v) entries
  | PdList items =>
      encode_array_header (length items) ++ List.flat_map encode_plutus_data items
  | PdInteger n => encode_plutus_int n
  | PdBytes b => encode_bounded_plutus_bytes b
  end.

End encoders.

Fixpoint encode_metadatum (m : TransactionMetadatum) : list Z :=
  match m with
  | MdInt n => encode_int n
  | MdBytes b => encode_bytes b
  | MdText t => encode_text t
  | MdList items => encode_array_header (length items) ++ List.flat_map encode_metadatum items
  | MdMap entries =>
      encode_map_header (length entries) ++
      List.flat_map (λ '(k, v), encode_metadatum k ++ encode_metadatum v) entries
  end.

(** ** Decoders ([cbor_utils.rs]) *)

(** [data[0] >> 5] and [data[0] & 0x1f] *)
Definition major_of (b : Z) : Z := Z.shiftr b 5.
Definition info_of (b : Z) : Z := Z.land b 0x1f.

Definition decode_uint_info (data : list Z) (info : Z) : dec (Z * nat) :=
  if info <=? 23 then Ok (info, 1%nat)
  else if info =? 24 then
    if (length data <? 2)%nat then eof else Ok (be_value (slice 1 1 data), 2%nat)
  else if info =? 25 then
    if (length data <? 3)%nat then eof else Ok (be_value (slice 1 2 data), 3%nat)
  else if info =? 26 then
    if (length data <? 5)%nat then eof else Ok (be_value (slice 1 4 data), 5%nat)
  else if info =? 27 then
    if (length data <? 9)%nat then eof else Ok (be_value (slice 1 8 data), 9%nat)
  else malformed.

Definition decode_uint (data : list Z) : dec (Z * nat) :=
  match data with
  | [] => malformed
  | b :: _ => if negb (major_of b =? 0) then malformed else decode_uint_info data (info_of b)
  end.

(** [v as i64], and [-1 - v as i64] *)
Definition as_i64 (v : Z) : Z := if v <? 2 ^ 63 then v else v - 2 ^ 64.

Definition decode_int (data : list Z) : dec (Z * nat) :=
  match data with
  | [] => malformed
  | b :: _ =>
      if major_of b =? 0 then
        '(v, n) ← decode_uint_info data (info_of b); Ok (as_i64 v, n)
      else if major_of b =? 1 then
        '(v, n) ← decode_uint_info data (info_of b); Ok (-1 - as_i64 v, n)
      else malformed
  end.

(** [hdr + len] wraps in a release build; [&data[hdr..hdr + len]] panics when
    the end is before the start. *)
Definition decode_bytes (data : list Z) : dec (list Z * nat) :=
  match data with
  | [] => eof
  | b :: _ =>
      if negb (major_of b =? 2) then malformed else
      '(len, hdr) ← decode_uint_info data (info_of b);
      let total := wrapping_add64 (Z.of_nat hdr) len in
      if Z.of_nat (length data) <? total then eof
      else if total <? Z.of_nat hdr then Err CborPanic
      else Ok (slice hdr (Z.to_nat total - hdr) data, Z.to_nat total)
  end.

Definition decode_bigint_or_uint (data : list Z) : dec (Z * nat) :=
  match data with
  | [] => eof
  | b :: rest =>
      if major_of b =? 0 then decode_uint data
      else if b =? 0xc2 then
        '(bytes, n) ← decode_bytes rest;
        if (8 <? length bytes)%nat then malformed else
        Ok (foldl (λ val b, Z.lor (wrap64 (Z.shiftl val 8)) b) 0 bytes, (1 + n)%nat)
      else malformed
  end.

Definition decode_array_len (data : list Z) : dec (Z * nat) :=
  match data with
  | [] => eof
  | b :: _ =>
      if negb (major_of b =? 4) then malformed
      else if info_of b =? 31 then malformed
      else decode_uint_info data (info_of b)
  end.

Definition decode_map_len (data : list Z) : dec (option Z * nat) :=
  match data with
  | [] => eof
  | b :: _ =>
      if negb (major_of b =? 5) then malformed
      else if info_of b =? 31 then Ok (None, 1%nat)
      else '(len, consumed) ← decode_uint_info data (info_of b); Ok (Some len, consumed)
  end.

Definition decode_array_len_or_indef (data : list Z) : dec (option Z * nat) :=
  match data with
  | [] => eof
  | b :: _ =>
      if negb (major_of b =? 4) then malformed
      else if info_of b =? 31 then Ok (None, 1%nat)
      else '(len, consumed) ← decode_uint_info data (info_of b); Ok (Some len, consumed)
  end.

Definition decode_hash28 (data : list Z) : dec (list Z * nat) :=
  '(bytes, n) ← decode_bytes data;
  if negb (length bytes =? 28)%nat
  then Err (CborErr (InvalidLength 28 (Z.of_nat (length bytes)))) else Ok (bytes, n).

Definition snapshot_decode_hash32 (data : list Z) : dec (Hash32 * nat) :=
  '(bytes, n) ← decode_bytes data;
  if negb (length bytes =? 32)%nat
  then Err (CborErr (InvalidLength 32 (Z.of_nat (length bytes)))) else Ok (bytes, n).

(** [decode_hash32] of [cbor.rs] *)
Definition decode_hash32 (data : list Z) : dec (Hash32 * nat) :=
  match data with
  | b :: l :: rest =>
      if b =? 0x58 then
        if negb (l =? 32) || (length data <? 34)%nat then Err (CborErr (InvalidLength 32 l))
        else Ok (slice 2 32 data, 34%nat)
      else if Z.land b 0xe0 =? 0x40 then
        let len := Z.land b 0x1f in
        if negb (len =? 32) || (length data <? 33)%nat then Err (CborErr (InvalidLength 32 len))
        else Ok (slice 1 32 data, 33%nat)
      else malformed
  | _ => Err (CborErr (InvalidLength 34 (Z.of_nat (length data))))
  end.

(** [&data[off..]]; the callers stay within the buffer. *)
Definition decode_nonce (data : list Z) : dec (Hash32 * nat) :=
  '(arr_len, off) ← decode_array_len data;
  '(tag, n) ← decode_uint (drop off data);
  let off := (off + n)%nat in
  if (arr_len =? 1) && (tag =? 0) then Ok (hash_zero, off)
  else if (arr_len =? 2) && (tag =? 1) then
    '(hash, n) ← snapshot_decode_hash32 (drop off data); Ok (hash, (off + n)%nat)
  else malformed.

(** The tag is returned [as u8]. *)
Definition decode_credential (data : list Z) : dec ((Z * list Z) * nat) :=
  '(arr_len, off) ← decode_array_len data;
  if negb (arr_len =? 2) then Err (CborErr (InvalidLength 2 arr_len)) else
  '(tag, n) ← decode_uint (drop off data);
  let off := (off + n)%nat in
  '(hash, n) ← decode_hash28 (drop off data);
  Ok ((tag mod 256, hash), (off + n)%nat).

Definition decode_with_origin_len (data : list Z) : dec (option Z * nat) :=
  '(arr_len, off) ← decode_array_len data;
  if arr_len =? 0 then Ok (None, off)
  else if arr_len =? 1 then Ok (Some 1, off)
  else malformed.

Definition decode_rational (data : list Z) : dec ((Z * Z) * nat) :=
  let off := match data with
             | b0 :: b1 :: _ => if (b0 =? 0xd8) && (b1 =? 0x1e) then 2%nat else 0%nat
             | _ => 0%nat
             end in
  '(arr_len, n) ← decode_array_len (drop off data);
  let off := (off + n)%nat in
  if negb (arr_len =? 2) then Err (CborErr (InvalidLength 2 arr_len)) else
  '(num, n) ← decode_bigint_or_uint (drop off data);
  let off := (off + n)%nat in
  '(den, n) ← decode_bigint_or_uint (drop off data);
  Ok ((num, den), (off + n)%nat).

Definition decode_null (data : list Z) : dec (bool * nat) :=
  match data with
  | [] => eof
  | b :: _ => if b =? 0xf6 then Ok (true, 1%nat) else Ok (false, 0%nat)
  end.

(** ** Skipping a value *)

Definition CBOR_SKIP_MAX_DEPTH : nat := 1024.

(** One iteration of the loops: [off += skip(&data[off..])?], guarded by
    [off > data.len()]. *)
Definition skip_item (skip : list Z → dec nat) (data : list Z) (off : nat) : dec nat :=
  if (length data <? off)%nat then eof else
  n ← skip (drop off data); Ok (off + n)%nat.

Definition skip_pair (skip : list Z → dec nat) (data : list Z) (off : nat) : dec nat :=
  off ← skip_item skip data off; skip_item skip data off.

(** [for _ in 0..count] *)
Fixpoint skip_count (fuel : nat) (step : nat → dec nat) (count : Z) (off : nat) : dec nat :=
  if count <=? 0 then Ok off else
  match fuel with
  | O => Err CborLoop
  | S fuel' => off ← step off; skip_count fuel' step (count - 1) off
  end.

(** [while off < data.len() && data[off] != 0xff], then the test for the end
    of the buffer and the break byte *)
Fixpoint skip_break (fuel : nat) (step : nat → dec nat) (data : list Z) (off : nat) : dec nat :=
  match data !! off with
  | None => eof
  | Some b =>
      if b =? 0xff then Ok (off + 1)%nat else
      match fuel with
      | O => Err CborLoop
      | S fuel' => off ← step off; skip_break fuel' step data off
      end
  end.

(** [hdr_len.checked_add(payload_len)] and the test against the buffer *)
Definition skip_string (data : list Z) (info : Z) : dec nat :=
  '(payload_len, hdr_len) ← decode_uint_info data info;
  let total := Z.of_nat hdr_len + payload_len in
  if (u64_max <? total) then malformed
  else if Z.of_nat (length data) <? total then eof
  else Ok (Z.to_nat total).

Definition simple_size (info : Z) : option nat :=
  if info <=? 23 then Some 1%nat
  else if info =? 24 then Some 2%nat
  else if info =? 25 then Some 3%nat
  else if info =? 26 then Some 5%nat
  else if info =? 27 then Some 9%nat
  else if info =? 31 then Some 1%nat
  else None.

(** [skip_cbor_value_depth]; [left] is the number of levels that remain,
    [CBOR_SKIP_MAX_DEPTH + 1 - depth], so that [depth > CBOR_SKIP_MAX_DEPTH]
    is [left = 0]. *)
Fixpoint skip_cbor_value_depth (left : nat) (data : list Z) : dec nat :=
  match left with
  | O => malformed
  | S left' =>
      match data with
      | [] => eof
      | b :: _ =>
          let major := major_of b in
          let info := info_of b in
          let skip := skip_cbor_value_depth left' in
          let fuel := S (length data) in
          if (major =? 0) || (major =? 1) then
            '(_, n) ← decode_uint_info data info; Ok n
          else if (major =? 2) || (major =? 3) then
            if info =? 31 then skip_break fuel (skip_item skip data) data 1
            else skip_string data info
          else if major =? 4 then
            if info =? 31 then skip_break fuel (skip_item skip data) data 1
            else '(count, off) ← decode_uint_info data info;
                 skip_count fuel (skip_item skip data) count off
          else if major =? 5 then
            if info =? 31 then skip_break fuel (skip_pair skip data) data 1
            else '(count, off) ← decode_uint_info data info;
                 skip_count fuel (skip_pair skip data) count off
          else if major =? 6 then
            '(_, n) ← decode_uint_info data info;
            skip_item skip data n
          else
            match simple_size info with
            | None => malformed
            | Some size => if (length data <? size)%nat then eof else Ok size
            end
      end
  end.

Definition skip_cbor_value (data : list Z) : dec nat :=
  skip_cbor_value_depth (S CBOR_SKIP_MAX_DEPTH) data.
