(* ===== verification/CborSkip.v ===== *)
(** * Skipping and binding of CBOR items

    [skip_cbor_value] never leaves its buffer and always ends ([skip_total]);
    it consumes exactly what the encoders of [cbor.rs] write; and the encodings
    are uniquely readable: two items that start the same buffer are the same
    item ([reads]). *)

From S2P Require Import Prelude Bytes EraHistory Block Cbor.
Local Open Scope Z_scope.

Definition bytes_ok (data : list Z) : Prop := Forall (λ b, 0 ≤ b < 256) data.

(** ** Initial bytes *)

Lemma initial_byte m v :
  0 ≤ m < 8 → 0 ≤ v < 32 →
  Z.lor (32 * m) v = 32 * m + v ∧ major_of (32 * m + v) = m ∧ info_of (32 * m + v) = v.
Proof.
  intros Hm Hv. unfold major_of, info_of.
  rewrite Z.shiftr_div_pow2 by lia. change 0x1f with (Z.ones 5). rewrite Z.land_ones by lia.
  change (2 ^ 5) with 32. rewrite (Z.mul_comm 32 m).
  rewrite Z.div_add_l, Z.div_small, Z.add_0_r by lia.
  rewrite (Z.add_comm (m * 32)), Z_mod_plus_full, Z.mod_small by lia.
  split; [|done]. rewrite (Z.add_comm v), Z.add_nocarry_lxor, <- Z.lxor_lor; [done| |].
  all: apply Z.bits_inj'; intros n Hn; rewrite Z.land_spec, Z.bits_0.
  all: change 32 with (2 ^ 5); rewrite Z.mul_pow2_bits by lia.
  all: destruct (Z.lt_ge_cases n 5); [rewrite Z.testbit_neg_r by lia; done|].
  all: rewrite (Z.bits_above_log2 v n); [apply andb_false_r|lia|].
  all: destruct (Z.eq_dec v 0) as [->|]; [simpl; lia|].
  all: assert (Z.log2 v < 5) by (apply Z.log2_lt_pow2; lia); lia.
Qed.

Lemma info_of_bound b : 0 ≤ info_of b < 32.
Proof.
  unfold info_of. change 0x1f with (Z.ones 5). rewrite Z.land_ones by lia.
  apply Z.mod_pos_bound. lia.
Qed.

(** ** Arguments of items *)

Lemma be_value_nonneg l : bytes_ok l → 0 ≤ be_value l.
Proof.
  unfold be_value, bytes_ok. intros H.
  assert (Forall (λ b, 0 ≤ b < 256) (reverse l)) as H' by by apply Forall_reverse.
  induction H' as [|b l' Hb _ IH]; cbn [le_value]; [done|]. lia.
Qed.

(** The outcome of a decoder over [hi] bytes that stands at [lo]. *)
Definition within (r : dec nat) (lo hi : nat) : Prop :=
  match r with Ok n => (lo ≤ n ≤ hi)%nat | Err e => e = CborErr CborDecode end.

Definition arg_within (r : dec (Z * nat)) (hi : nat) : Prop :=
  match r with Ok (v, n) => 0 ≤ v ∧ (1 ≤ n ≤ hi)%nat | Err e => e = CborErr CborDecode end.

Lemma decode_uint_info_within data b rest :
  data = b :: rest → bytes_ok data → arg_within (decode_uint_info data (info_of b)) (length data).
Proof.
  intros -> Hok. pose proof (info_of_bound b).
  assert (∀ n, 0 ≤ be_value (slice 1 n (b :: rest))) as Hv.
  { intros n. apply be_value_nonneg. unfold slice. by apply Forall_take, Forall_drop. }
  unfold decode_uint_info. cmp_cases; cbn [arg_within]; try done; split; auto; simpl in *; lia.
Qed.

(** ** The loops stay in the buffer *)

Lemma within_bind r lo hi (k : nat → dec nat) lo' hi' :
  within r lo hi → (∀ n, (lo ≤ n ≤ hi)%nat → within (k n) lo' hi') → within (r ≫= k) lo' hi'.
Proof. destruct r; simpl; [by eauto|done]. Qed.

Lemma within_weaken r lo lo' hi : within r lo hi → (lo' ≤ lo)%nat → within r lo' hi.
Proof. destruct r; simpl; [lia|done]. Qed.

Section loops.
Context (data : list Z).
Context (skip : list Z → dec nat).
Hypothesis skip_within : ∀ off, (off ≤ length data)%nat →
  within (skip (drop off data)) 1 (length (drop off data)).

Lemma skip_item_within off :
  (off ≤ length data)%nat → within (skip_item skip data off) (S off) (length data).
Proof.
  intros H. unfold skip_item. destruct (Nat.ltb_spec (length data) off); [lia|].
  eapply within_bind; [by apply skip_within|]. intros n Hn. rewrite length_drop in Hn. simpl. lia.
Qed.

Lemma skip_pair_within off :
  (off ≤ length data)%nat → within (skip_pair skip data off) (S off) (length data).
Proof.
  intros H. unfold skip_pair. eapply within_bind; [by apply skip_item_within|].
  intros n Hn. eapply within_weaken; [apply skip_item_within; lia|lia].
Qed.

Lemma skip_count_within (step : nat → dec nat) :
  (∀ off, (off ≤ length data)%nat → within (step off) (S off) (length data)) →
  ∀ fuel count off, (off ≤ length data)%nat → (length data - off < fuel)%nat →
  within (skip_count fuel step count off) off (length data).
Proof.
  intros Hstep. induction fuel as [|fuel IH]; intros count off Hoff Hf; [lia|].
  cbn [skip_count]. destruct (count <=? 0); [simpl; lia|].
  eapply within_bind; [by apply Hstep|]. intros n Hn.
  destruct (Nat.eq_dec n (length data)) as [->|].
  - destruct fuel as [|fuel]; cbn [skip_count].
    + destruct (count - 1 <=? 0); simpl; [lia|]. lia.
    + eapply within_weaken; [apply IH; lia|lia].
  - eapply within_weaken; [apply IH; lia|lia].
Qed.

Lemma skip_break_within (step : nat → dec nat) :
  (∀ off, (off ≤ length data)%nat → within (step off) (S off) (length data)) →
  ∀ fuel off, (length data - off < fuel)%nat →
  within (skip_break fuel step data off) (S off) (length data).
Proof.
  intros Hstep. induction fuel as [|fuel IH]; intros off Hf; [lia|].
  cbn [skip_break]. destruct (data !! off) as [b|] eqn:E; [|done].
  apply lookup_lt_Some in E. destruct (b =? 255); [simpl; lia|].
  eapply within_bind; [apply Hstep; lia|]. intros n Hn.
  eapply within_weaken; [apply IH; lia|lia].
Qed.

End loops.

Lemma skip_string_within data b rest :
  data = b :: rest → bytes_ok data → within (skip_string data (info_of b)) 1 (length data).
Proof.
  intros Hd Hok. unfold skip_string. pose proof (decode_uint_info_within _ _ _ Hd Hok) as H.
  destruct (decode_uint_info data (info_of b)) as [[v n]|e]; simpl in *; [|done].
  cmp_cases; simpl; try done. lia.
Qed.

(** A value is skipped within the buffer, or the error is [CborDecode]; the
    loops never run out of fuel. *)
Lemma skip_depth_within left data :
  bytes_ok data → within (skip_cbor_value_depth left data) 1 (length data).
Proof.
  revert data. induction left as [|left IH]; intros data Hok; [done|].
  cbn [skip_cbor_value_depth]. destruct data as [|b rest] eqn:Hd; [done|]. rewrite <- Hd in *.
  assert (∀ off, (off ≤ length data)%nat →
    within (skip_cbor_value_depth left (drop off data)) 1 (length (drop off data))) as Hskip.
  { intros off _. apply IH. by apply Forall_drop. }
  assert (1 ≤ length data)%nat as Hl by (rewrite Hd; simpl; lia).
  pose proof (decode_uint_info_within _ _ _ Hd Hok) as Harg.
  pose proof (skip_item_within _ _ Hskip) as Hi. pose proof (skip_pair_within _ _ Hskip) as Hp.
  repeat match goal with |- within (if ?c then _ else _) _ _ => destruct c end.
  all: try by eapply skip_string_within.
  all: try (eapply within_weaken; [apply skip_break_within; [done|lia]|lia]).
  all: try (destruct (decode_uint_info data (info_of b)) as [[v n]|e];
    cbn [arg_within mbind result_bind] in Harg |- *; [|done]).
  all: try (eapply within_weaken; [apply skip_count_within; [done|lia|lia]|lia]).
  - cbn [within]. lia.
  - eapply within_weaken; [apply Hi; lia|lia].
  - destruct (simple_size (info_of b)) as [size|] eqn:E; [|done].
    assert (1 ≤ size)%nat by (revert E; unfold simple_size; cmp_cases; intros; simplify_eq; lia).
    cmp_cases; simpl; [done|lia].
Qed.

(** ** Headers *)

(** [bs] is the header of an item of major type [m] with argument [v]. *)
Definition is_head (m v : Z) (bs : list Z) : Prop :=
  ∃ b t, bs = b :: t ∧ major_of b = m ∧ info_of b ≠ 31 ∧
    ∀ r, decode_uint_info (bs ++ r) (info_of b) = Ok (v, length bs).

Lemma is_head_short m v : 0 ≤ m < 8 → 0 ≤ v < 24 → is_head m v [Z.lor (32 * m) v].
Proof.
  intros Hm Hv. destruct (initial_byte m v) as (E & Hmaj & Hinfo); [done|lia|]. rewrite E.
  exists (32 * m + v), []. rewrite Hmaj, Hinfo. split_and!; [done|done|lia|]. intros r.
  unfold decode_uint_info. destruct (Z.leb_spec v 23); [done|lia].
Qed.

Lemma is_head_long m i w v t :
  0 ≤ m < 8 → (i = 24 ∧ w = 1%nat ∨ i = 25 ∧ w = 2%nat ∨ i = 26 ∧ w = 4%nat ∨ i = 27 ∧ w = 8%nat) →
  length t = w → be_value t = v → is_head m v (32 * m + i :: t).
Proof.
  intros Hm Hi Ht Hv. destruct (initial_byte m i) as (_ & Hmaj & Hinfo); [done|lia|].
  exists (32 * m + i), t. rewrite Hmaj, Hinfo. split_and!; [done|done|lia|]. intros r.
  assert (∀ n, n = w → be_value (slice 1 n ((32 * m + i :: t) ++ r)) = v) as Hs.
  { intros n ->. unfold slice. change (drop 1 ((32 * m + i :: t) ++ r)) with (t ++ r).
    by rewrite take_app_length'. }
  assert (length ((32 * m + i :: t) ++ r) = (S w + length r)%nat) as Hlen by (rewrite length_app; simpl; lia).
  change (length (32 * m + i :: t)) with (S (length t)). unfold decode_uint_info. rewrite Hlen, Ht.
  destruct Hi as [[-> ->]|[[-> ->]|[[-> ->]|[-> ->]]]]; cmp_cases; try lia; by rewrite Hs.
Qed.

Lemma be_value_single v : be_value [v] = v.
Proof. unfold be_value. rewrite reverse_singleton. cbn [le_value]. lia. Qed.

Lemma head64_is_head m v : 0 ≤ m < 8 → u64 v → is_head m v (head64 (32 * m) v).
Proof.
  unfold u64, u64_max. intros Hm Hv. unfold head64. cmp_cases; [apply is_head_short; lia|..].
  - eapply is_head_long; [done|by left|done|apply be_value_single].
  - eapply is_head_long; [done|by right; left|apply length_be_bytes|].
    apply be_value_bytes. change (256 ^ Z.of_nat 2) with 65536. lia.
  - eapply is_head_long; [done|by right; right; left|apply length_be_bytes|].
    apply be_value_bytes. change (256 ^ Z.of_nat 4) with 4294967296. lia.
  - eapply is_head_long; [done|by right; right; right|apply length_be_bytes|].
    apply be_value_bytes. change (256 ^ Z.of_nat 8) with 18446744073709551616. lia.
Qed.

Lemma head32_is_head m v : 0 ≤ m < 8 → 0 ≤ v ≤ u32_max → is_head m v (head32 (32 * m) v).
Proof.
  unfold u32_max. intros Hm Hv. assert (head32 (32 * m) v = head64 (32 * m) v) as ->.
  { unfold head32, head64. cmp_cases; done || lia. }
  apply head64_is_head; [done|]. unfold u64, u64_max. lia.
Qed.

Lemma is_head_length m v bs : is_head m v bs → (length bs ≤ 9)%nat.
Proof.
  intros (b & t & -> & _ & _ & Hdec). specialize (Hdec []). revert Hdec. unfold decode_uint_info, eof, malformed.
  cmp_cases; intros E; simplify_eq; simpl in *; lia.
Qed.

(** ** What is skipped *)

(** [bs] is an item that is skipped in at most [k] levels and is not the break
    byte. *)
Definition skips (k : nat) (bs : list Z) : Prop :=
  (∃ b t, bs = b :: t ∧ b ≠ 255) ∧
  ∀ left r, (k ≤ left)%nat → skip_cbor_value_depth left (bs ++ r) = Ok (length bs).

Lemma skips_weaken k k' bs : skips k bs → (k ≤ k')%nat → skips k' bs.
Proof. intros [H1 H2] H. split; [done|]. intros left r Hl. apply H2. lia. Qed.

Lemma not_break m b : major_of b = m → m < 7 → b ≠ 255.
Proof. intros H Hm ->. change (major_of 255) with 7 in H. lia. Qed.

Lemma skips_int m v bs : m = 0 ∨ m = 1 → is_head m v bs → skips 1 bs.
Proof.
  intros Hm (b & t & -> & Hmaj & Hi & Hdec). split.
  { exists b, t. split; [done|]. apply (not_break m); [done|lia]. }
  intros [|left] r Hl; [lia|]. cbn [skip_cbor_value_depth app]. rewrite Hmaj.
  specialize (Hdec r). cbn [app] in Hdec. rewrite Hdec. by destruct Hm as [-> | ->].
Qed.

Lemma skips_string m v bs payload :
  m = 2 ∨ m = 3 → is_head m v bs → v = Z.of_nat (length payload) → v ≤ u32_max →
  skips 1 (bs ++ payload).
Proof.
  intros Hm Hh -> Hv. pose proof (is_head_length _ _ _ Hh) as Ht.
  destruct Hh as (b & t & -> & Hmaj & Hi & Hdec). unfold u32_max in Hv. cbn [length] in Ht. split.
  { exists b, (t ++ payload). split; [done|]. apply (not_break m); [done|lia]. }
  intros [|left] r Hl; [lia|]. cbn [skip_cbor_value_depth app]. rewrite Hmaj.
  specialize (Hdec (payload ++ r)). cbn [app] in Hdec. rewrite <- app_assoc.
  destruct (Z.eqb_spec (info_of b) 31); [done|]. unfold skip_string. rewrite Hdec.
  cbn [mbind result_bind]. cbn [length]. rewrite !length_app.
  unfold u64_max. repeat case_match; cmp_cases; try lia; f_equal; lia.
Qed.

Section items.
Context (left k : nat).
Hypothesis Hk : (k ≤ left)%nat.

Lemma skip_item_at pre bs r :
  skips k bs →
  skip_item (skip_cbor_value_depth left) (pre ++ bs ++ r) (length pre) = Ok (length (pre ++ bs)).
Proof.
  intros [_ H]. unfold skip_item. rewrite drop_app_length, !length_app.
  destruct (Nat.ltb_spec (length pre + (length bs + length r)) (length pre)); [lia|].
  by rewrite H.
Qed.

Lemma skip_pair_at pre b1 b2 r :
  skips k b1 → skips k b2 →
  skip_pair (skip_cbor_value_depth left) (pre ++ (b1 ++ b2) ++ r) (length pre)
  = Ok (length (pre ++ b1 ++ b2)).
Proof.
  intros H1 H2. unfold skip_pair. rewrite <- (app_assoc b1), skip_item_at by done.
  cbn [mbind result_bind]. rewrite (app_assoc pre), skip_item_at by done. by rewrite <- app_assoc.
Qed.

End items.

(** Both loops, over any step that moves past one piece of the buffer. *)
Lemma skip_count_pieces (step : list Z → nat → dec nat) (pieces : list (list Z)) pre r fuel :
  (∀ pre bs r, bs ∈ pieces → step (pre ++ bs ++ r) (length pre) = Ok (length (pre ++ bs))) →
  (length pieces ≤ fuel)%nat →
  skip_count fuel (step (pre ++ mjoin pieces ++ r)) (Z.of_nat (length pieces)) (length pre)
  = Ok (length (pre ++ mjoin pieces)).
Proof.
  revert pre fuel. induction pieces as [|bs pieces IH]; intros pre fuel Hstep Hf.
  { destruct fuel; cbn [skip_count]; by rewrite app_nil_r. }
  destruct fuel as [|fuel]; [simpl in Hf; lia|]. cbn [skip_count length].
  destruct (Z.leb_spec (Z.of_nat (S (length pieces))) 0); [lia|].
  rewrite mjoin_cons, <- app_assoc, Hstep by by left. cbn [mbind result_bind].
  replace (Z.of_nat (S (length pieces)) - 1) with (Z.of_nat (length pieces)) by lia.
  rewrite (app_assoc pre), IH; [by rewrite <- app_assoc| |simpl in Hf; lia].
  intros. apply Hstep. by right.
Qed.

Lemma skip_break_pieces (step : list Z → nat → dec nat) (pieces : list (list Z)) pre r fuel :
  (∀ pre bs r, bs ∈ pieces → step (pre ++ bs ++ r) (length pre) = Ok (length (pre ++ bs))) →
  (∀ bs, bs ∈ pieces → ∃ b t, bs = b :: t ∧ b ≠ 255) →
  (length pieces ≤ fuel)%nat →
  skip_break fuel (step (pre ++ mjoin pieces ++ 255 :: r)) (pre ++ mjoin pieces ++ 255 :: r) (length pre)
  = Ok (length (pre ++ mjoin pieces) + 1)%nat.
Proof.
  revert pre fuel. induction pieces as [|bs pieces IH]; intros pre fuel Hstep Hne Hf.
  { cbn [mjoin list_join app]. rewrite app_nil_r.
    destruct fuel; cbn [skip_break]; by rewrite list_lookup_middle. }
  destruct fuel as [|fuel]; [simpl in Hf; lia|]. cbn [skip_break].
  destruct (Hne bs) as (b & t & Hbs & Hb); [by left|].
  assert ((pre ++ mjoin (bs :: pieces) ++ 255 :: r) !! length pre = Some b) as ->.
  { rewrite mjoin_cons, Hbs. cbn [app]. by rewrite list_lookup_middle. }
  destruct (Z.eqb_spec b 255); [done|].
  rewrite mjoin_cons, <- app_assoc, Hstep by by left. cbn [mbind result_bind].
  rewrite (app_assoc pre), IH; [by rewrite <- app_assoc| | |simpl in Hf; lia].
  - intros. apply Hstep. by right.
  - intros. apply Hne. by right.
Qed.

Lemma length_mjoin_nonempty (pieces : list (list Z)) :
  (∀ bs, bs ∈ pieces → bs ≠ []) → (length pieces ≤ length (mjoin pieces))%nat.
Proof.
  induction pieces as [|bs pieces IH]; intros H; [done|].
  rewrite mjoin_cons, length_app. cbn [length].
  assert (bs ≠ []) by (apply H; by left). destruct bs; [done|]. simpl.
  assert (length pieces ≤ length (mjoin pieces))%nat by (apply IH; intros; apply H; by right). lia.
Qed.

Lemma skips_nonempty k bs : skips k bs → bs ≠ [].
Proof. by intros [(b & t & -> & _) _]. Qed.

(** The cases of [skip_cbor_value_depth] that recurse. *)
Lemma skip_container left data b rest v n :
  data = b :: rest → info_of b ≠ 31 → decode_uint_info data (info_of b) = Ok (v, n) →
  (major_of b = 4 → skip_cbor_value_depth (S left) data
    = skip_count (S (length data)) (skip_item (skip_cbor_value_depth left) data) v n) ∧
  (major_of b = 5 → skip_cbor_value_depth (S left) data
    = skip_count (S (length data)) (skip_pair (skip_cbor_value_depth left) data) v n) ∧
  (major_of b = 6 → skip_cbor_value_depth (S left) data
    = skip_item (skip_cbor_value_depth left) data n).
Proof.
  intros -> Hi Hdec. split_and!; intros Hm; cbn [skip_cbor_value_depth]; rewrite Hm, Hdec.
  all: by destruct (Z.eqb_spec (info_of b) 31).
Qed.

Lemma skips_array k v bs (pieces : list (list Z)) :
  is_head 4 v bs → v = Z.of_nat (length pieces) → (∀ p, p ∈ pieces → skips k p) →
  skips (S k) (bs ++ mjoin pieces).
Proof.
  intros (b & t & -> & Hmaj & Hi & Hdec) -> Hp. split.
  { exists b, (t ++ mjoin pieces). split; [done|]. by eapply not_break. }
  intros [|left] r Hl; [lia|]. rewrite <- app_assoc.
  destruct (skip_container left ((b :: t) ++ mjoin pieces ++ r) b _ _ _ eq_refl Hi (Hdec _)) as (E & _ & _).
  rewrite (E Hmaj). apply (skip_count_pieces (skip_item (skip_cbor_value_depth left))).
  - intros. apply (skip_item_at left k); [lia|by apply Hp].
  - pose proof (length_mjoin_nonempty pieces (λ bs H, skips_nonempty _ _ (Hp bs H))).
    rewrite !length_app. lia.
Qed.

Lemma skips_map k v bs (pieces : list (list Z * list Z)) :
  is_head 5 v bs → v = Z.of_nat (length pieces) →
  (∀ p, p ∈ pieces → skips k p.1 ∧ skips k p.2) →
  skips (S k) (bs ++ mjoin ((λ p, p.1 ++ p.2) <$> pieces)).
Proof.
  intros (b & t & -> & Hmaj & Hi & Hdec) -> Hp.
  set (ps := (λ p : list Z * list Z, p.1 ++ p.2) <$> pieces).
  assert (∀ x, x ∈ ps → ∃ p, x = p.1 ++ p.2 ∧ skips k p.1 ∧ skips k p.2) as Hps.
  { intros x (p & -> & Hin)%list_elem_of_fmap. exists p. auto. }
  split. { exists b, (t ++ mjoin ps). split; [done|]. by eapply not_break. }
  intros [|left] r Hl; [lia|]. rewrite <- app_assoc.
  destruct (skip_container left ((b :: t) ++ mjoin ps ++ r) b _ _ _ eq_refl Hi (Hdec _)) as (_ & E & _).
  rewrite (E Hmaj), <- (length_fmap (λ p : list Z * list Z, p.1 ++ p.2) pieces). fold ps.
  apply (skip_count_pieces (skip_pair (skip_cbor_value_depth left))).
  - intros pre x r' (p & -> & H1 & H2)%Hps. apply (skip_pair_at left k); [lia|done|done].
  - assert (length ps ≤ length (mjoin ps))%nat.
    { apply length_mjoin_nonempty. intros x (p & -> & H1 & H2)%Hps.
      apply skips_nonempty in H1. by destruct p.1. }
    rewrite !length_app. lia.
Qed.

Lemma skips_tag k v bs body : is_head 6 v bs → skips k body → skips (S k) (bs ++ body).
Proof.
  intros (b & t & -> & Hmaj & Hi & Hdec) Hb. split.
  { exists b, (t ++ body). split; [done|]. by eapply not_break. }
  intros [|left] r Hl; [lia|]. rewrite <- app_assoc.
  destruct (skip_container left ((b :: t) ++ body ++ r) b _ _ _ eq_refl Hi (Hdec _)) as (_ & _ & E).
  rewrite (E Hmaj). apply (skip_item_at left k); [lia|done].
Qed.

(** Indefinite lengths: a chunked byte string ([0x5f]), an array ([0x9f]) and a
    map ([0xbf]), up to the break byte. *)
Lemma skips_indef k b (pieces : list (list Z)) :
  b = 0x5f ∨ b = 0x9f → (∀ p, p ∈ pieces → skips k p) → skips (S k) (b :: mjoin pieces ++ [0xff]).
Proof.
  intros Hb Hp. split. { eexists _, _. split; [done|]. destruct Hb; lia. }
  intros [|left] r Hl; [lia|].
  pose proof (length_mjoin_nonempty pieces (λ bs H, skips_nonempty _ _ (Hp bs H))).
  change ((b :: mjoin pieces ++ [0xff]) ++ r) with ([b] ++ (mjoin pieces ++ [0xff]) ++ r).
  rewrite <- app_assoc.
  assert (skip_cbor_value_depth (S left) ([b] ++ mjoin pieces ++ 255 :: r)
    = skip_break (S (length ([b] ++ mjoin pieces ++ 255 :: r)))
        (skip_item (skip_cbor_value_depth left) ([b] ++ mjoin pieces ++ 255 :: r))
        ([b] ++ mjoin pieces ++ 255 :: r) (length [b])) as E by by destruct Hb as [-> | ->].
  etrans; [exact E|]. etrans; [apply (skip_break_pieces (skip_item (skip_cbor_value_depth left)) pieces [b] r)|].
  - intros. apply (skip_item_at left k); [lia|by apply Hp].
  - intros bs Hbs. by destruct (Hp bs Hbs).
  - cbn [length]. rewrite !length_app. lia.
  - f_equal. cbn [length app]. rewrite length_app. simpl. lia.
Qed.

Lemma skips_indef_map k (pieces : list (list Z * list Z)) :
  (∀ p, p ∈ pieces → skips k p.1 ∧ skips k p.2) →
  skips (S k) (0xbf :: mjoin ((λ p, p.1 ++ p.2) <$> pieces) ++ [0xff]).
Proof.
  intros Hp. set (ps := (λ p : list Z * list Z, p.1 ++ p.2) <$> pieces).
  assert (∀ x, x ∈ ps → ∃ p, x = p.1 ++ p.2 ∧ skips k p.1 ∧ skips k p.2) as Hps.
  { intros x (p & -> & Hin)%list_elem_of_fmap. exists p. auto. }
  assert (∀ x, x ∈ ps → ∃ b t, x = b :: t ∧ b ≠ 255) as Hne.
  { intros x (p & -> & [(b & t & Eb & Hb) _] & _)%Hps. exists b, (t ++ p.2). by rewrite Eb. }
  split; [by eexists _, _|]. intros [|left] r Hl; [lia|].
  assert (length ps ≤ length (mjoin ps))%nat.
  { apply length_mjoin_nonempty. intros x (b & t & -> & _)%Hne. done. }
  change ((0xbf :: mjoin ps ++ [0xff]) ++ r) with ([0xbf] ++ (mjoin ps ++ [0xff]) ++ r).
  rewrite <- app_assoc.
  assert (skip_cbor_value_depth (S left) ([0xbf] ++ mjoin ps ++ 255 :: r)
    = skip_break (S (length ([0xbf] ++ mjoin ps ++ 255 :: r)))
        (skip_pair (skip_cbor_value_depth left) ([0xbf] ++ mjoin ps ++ 255 :: r))
        ([0xbf] ++ mjoin ps ++ 255 :: r) (length [0xbf])) as E by done.
  etrans; [exact E|]. etrans; [apply (skip_break_pieces (skip_pair (skip_cbor_value_depth left)) ps [0xbf] r)|].
  - intros pre x r' (p & -> & H1 & H2)%Hps. apply (skip_pair_at left k); [lia|done|done].
  - done.
  - cbn [length]. rewrite !length_app. lia.
  - f_equal. cbn [length app]. rewrite length_app. simpl. lia.
Qed.

(** ** The encoders *)

Lemma skips_uint v : u64 v → skips 1 (encode_uint v).
Proof. intros. apply (skips_int 0 v); [by left|]. by apply (head64_is_head 0). Qed.

Lemma skips_nint m : u64 m → skips 1 (encode_nint_from_magnitude m).
Proof. intros. apply (skips_int 1 m); [by right|]. by apply (head64_is_head 1). Qed.

Lemma skips_bytes data : Z.of_nat (length data) ≤ u32_max → skips 1 (encode_bytes data).
Proof.
  intros. eapply (skips_string 2); [by left| |done|done]. apply (head32_is_head 2); [done|lia].
Qed.

Lemma skips_text data : Z.of_nat (length data) ≤ u32_max → skips 1 (encode_text data).
Proof.
  intros. eapply (skips_string 3); [by right| |done|done]. apply (head32_is_head 3); [done|lia].
Qed.

Lemma skips_hash32 h : length h = 32%nat → skips 1 (encode_hash32 h).
Proof.
  intros H. assert (encode_hash32 h = encode_bytes h) as ->.
  { unfold encode_hash32, encode_bytes. by rewrite H. }
  apply skips_bytes. rewrite H. done.
Qed.

Lemma flat_map_mjoin {A} (f : A → list Z) l : List.flat_map f l = mjoin (f <$> l).
Proof. induction l as [|x l IH]; [done|]. cbn. by rewrite IH. Qed.

Lemma flat_map_pairs {A B} (f : A → list Z) (g : B → list Z) l :
  List.flat_map (λ '(x, y), f x ++ g y) l
  = mjoin ((λ p, p.1 ++ p.2) <$> ((λ '(x, y), (f x, g y)) <$> l)).
Proof.
  rewrite flat_map_mjoin, <- list_fmap_compose. f_equal. apply list_fmap_ext. by intros _ [x y] _.
Qed.

Lemma skips_array_of {A} k (f : A → list Z) l :
  Z.of_nat (length l) ≤ u32_max → (∀ x, x ∈ l → skips k (f x)) →
  skips (S k) (encode_array_header (length l) ++ List.flat_map f l).
Proof.
  intros Hl Hf. rewrite flat_map_mjoin. eapply skips_array.
  - apply (head32_is_head 4); [done|lia].
  - by rewrite length_fmap.
  - intros p (x & -> & Hx)%list_elem_of_fmap. auto.
Qed.

(** An array in the form of [encode_array_open] and [encode_array_close] *)
Lemma skips_array_open {A} k (f : A → list Z) l :
  (∀ x, x ∈ l → skips k (f x)) →
  skips (S k) (encode_array_close (encode_array_open (length l) ++ List.flat_map f l) (length l)).
Proof.
  intros Hf. unfold encode_array_close, encode_array_open, ENCODE_ARRAY_DEFINITE_MAX.
  destruct (Nat.leb_spec (length l) 23), (Nat.ltb_spec 23 (length l)); try lia.
  - apply skips_array_of; [unfold u32_max; lia|done].
  - rewrite flat_map_mjoin, <- app_assoc. apply (skips_indef k 0x9f); [by right|].
    intros p (x & -> & Hx)%list_elem_of_fmap. auto.
Qed.

Lemma skips_map_of {A B} k (f : A → list Z) (g : B → list Z) l :
  Z.of_nat (length l) ≤ u32_max → (∀ x y, (x, y) ∈ l → skips k (f x) ∧ skips k (g y)) →
  skips (S k) (encode_map_header (length l) ++ List.flat_map (λ '(x, y), f x ++ g y) l).
Proof.
  intros Hl Hf. rewrite flat_map_pairs. eapply skips_map.
  - apply (head32_is_head 5); [done|lia].
  - by rewrite length_fmap.
  - intros p ([x y] & -> & Hx)%list_elem_of_fmap. exact (Hf x y Hx).
Qed.

Lemma skips_map_open {A B} k (f : A → list Z) (g : B → list Z) l :
  (∀ x y, (x, y) ∈ l → skips k (f x) ∧ skips k (g y)) →
  skips (S k) (encode_map_close
    (encode_map_open (length l) ++ List.flat_map (λ '(x, y), f x ++ g y) l) (length l)).
Proof.
  intros Hf. unfold encode_map_close, encode_map_open, ENCODE_MAP_DEFINITE_MAX.
  destruct (Nat.leb_spec (length l) 23), (Nat.ltb_spec 23 (length l)); try lia.
  - apply skips_map_of; [unfold u32_max; lia|done].
  - rewrite flat_map_pairs, <- app_assoc. apply skips_indef_map. intros p ([x y] & -> & Hx)%list_elem_of_fmap. exact (Hf x y Hx).
Qed.

(** ** Plutus data and metadata *)

Section plutus_ind.
Variable P : PlutusData → Prop.
Hypothesis Hconstr : ∀ tag fields, (∀ d, d ∈ fields → P d) → P (PdConstr tag fields).
Hypothesis Hmap : ∀ entries, (∀ x y, (x, y) ∈ entries → P x ∧ P y) → P (PdMap entries).
Hypothesis Hlist : ∀ items, (∀ d, d ∈ items → P d) → P (PdList items).
Hypothesis Hint : ∀ n, P (PdInteger n).
Hypothesis Hbytes : ∀ b, P (PdBytes b).

Fixpoint PlutusData_ind' (d : PlutusData) : P d.
Proof.
  destruct d as [tag fields|entries|items|n|b].
  - apply Hconstr. induction fields as [|d ds IH]; [intros ? H; exfalso; by apply elem_of_nil in H|].
    intros x [->|Hx]%elem_of_cons; [apply PlutusData_ind'|by apply IH].
  - apply Hmap. induction entries as [|[k v] es IH]; [intros ? ? H; exfalso; by apply elem_of_nil in H|].
    intros x y [E|Hx]%elem_of_cons; [|by apply IH].
    injection E as -> ->. split; apply PlutusData_ind'.
  - apply Hlist. induction items as [|d ds IH]; [intros ? H; exfalso; by apply elem_of_nil in H|].
    intros x [->|Hx]%elem_of_cons; [apply PlutusData_ind'|by apply IH].
  - apply Hint.
  - apply Hbytes.
Qed.
End plutus_ind.

(** The sizes that the formats can carry: [u64] constructors, [u32] lengths. *)
Fixpoint pd_fits (d : PlutusData) : Prop :=
  match d with
  | PdConstr tag fields =>
      u64 tag ∧ Z.of_nat (length fields) ≤ u32_max ∧ Forall id (List.map pd_fits fields)
  | PdMap entries =>
      Z.of_nat (length entries) ≤ u32_max ∧
      Forall id (List.map (λ '(k, v), pd_fits k ∧ pd_fits v) entries)
  | PdList items => Z.of_nat (length items) ≤ u32_max ∧ Forall id (List.map pd_fits items)
  | PdInteger _ | PdBytes _ => True
  end.

(** Levels of the encoding: a constructor is at most a tag, a pair and an array,
    a leaf at most a tag, a chunked string and a chunk. *)
Fixpoint pd_levels (d : PlutusData) : nat :=
  match d with
  | PdConstr _ fields => 3 + max_list (List.map pd_levels fields)
  | PdMap entries => 1 + max_list (List.map (λ '(k, v), Nat.max (pd_levels k) (pd_levels v)) entries)
  | PdList items => 1 + max_list (List.map pd_levels items)
  | PdInteger _ | PdBytes _ => 3
  end.

Lemma chunks_fuel_short fuel n data p :
  p ∈ chunks_fuel fuel n data → (length p ≤ n)%nat.
Proof.
  revert data. induction fuel as [|fuel IH]; intros data; cbn [chunks_fuel].
  { destruct data; by intros ?%elem_of_nil. }
  destruct data as [|b data]; [by intros ?%elem_of_nil|].
  intros [->|H]%elem_of_cons; [rewrite length_take; lia|by eapply IH].
Qed.

Lemma skips_bounded_bytes b : skips 2 (encode_bounded_plutus_bytes b).
Proof.
  unfold encode_bounded_plutus_bytes, PLUTUS_LEAF_MAX. destruct (Nat.leb_spec (length b) 64).
  - eapply skips_weaken; [apply skips_bytes; unfold u32_max; lia|lia].
  - apply skips_indef; [by left|]. intros p (c & -> & Hc)%list_elem_of_fmap.
    apply chunks_fuel_short in Hc. apply skips_bytes. unfold u32_max. lia.
Qed.

Lemma list_map_in {A} (f : A → Prop) l x : Forall id (List.map f l) → x ∈ l → f x.
Proof. intros H Hx. rewrite Forall_forall in H. apply H, list_elem_of_In, in_map, list_elem_of_In, Hx. Qed.

Lemma max_list_in {A} (f : A → nat) l x : x ∈ l → (f x ≤ max_list (List.map f l))%nat.
Proof.
  intros Hx. apply max_list_elem_of_le. by apply list_elem_of_In, in_map, list_elem_of_In.
Qed.

Section plutus.
Context {NB : NumBigint}.

Lemma skips_plutus_int n : skips 3 (encode_plutus_int n).
Proof.
  unfold encode_plutus_int.
  assert (∀ t, 0 ≤ t ≤ 3 → is_head 6 t (encode_tag t)) as Htag.
  { intros t Ht. apply (head32_is_head 6); [done|]. unfold u32_max. lia. }
  cmp_cases.
  - eapply skips_weaken; [apply skips_uint; unfold u64; lia|lia].
  - eapply skips_tag; [by apply (Htag 2)|apply skips_bounded_bytes].
  - eapply skips_weaken; [apply skips_nint; unfold u64; lia|lia].
  - eapply skips_tag; [by apply (Htag 3)|apply skips_bounded_bytes].
Qed.

Lemma skips_plutus_data d : pd_fits d → skips (pd_levels d) (encode_plutus_data d).
Proof.
  induction d as [tag fields IH|entries IH|items IH|n|b] using PlutusData_ind'; intros Hfit.
  - destruct Hfit as (Htag & Hlen & Hf).
    cbn [encode_plutus_data]. set (m := max_list (List.map pd_levels fields)).
    change (pd_levels (PdConstr tag fields)) with (3 + m)%nat.
    assert (skips (S m) (encode_array_header (length fields) ++
      List.flat_map encode_plutus_data fields)) as Harr.
    { apply skips_array_of; [done|]. intros d Hd. eapply skips_weaken; [apply IH; [done|]|].
      - by apply (list_map_in _ _ _ Hf).
      - by apply max_list_in. }
    revert Harr. generalize (encode_array_header (length fields) ++
      List.flat_map encode_plutus_data fields) as arr. intros arr Harr. unfold u64 in Htag. cmp_cases.
    + eapply skips_weaken; [eapply (skips_tag _ _ [_; _]); [|exact Harr]|lia].
      by eapply (is_head_long 6 24); [lia|left|..].
    + eapply skips_weaken; [eapply (skips_tag _ _ (_ :: _)); [|exact Harr]|lia].
      by eapply (is_head_long 6 25); [lia|right; left|apply length_be_bytes|].
    + eapply (skips_tag (S (S m)) _ [_; _]); [by eapply (is_head_long 6 24); [lia|left|..]|].
      rewrite <- (app_nil_r arr). apply (skips_array (S m) 2 _ [encode_uint tag; arr]);
        [by apply (head32_is_head 4)|done|].
      intros p [->|[->|[]%elem_of_nil]%elem_of_cons]%elem_of_cons; [|done].
      eapply skips_weaken; [by apply skips_uint|lia].
  - destruct Hfit as [Hlen Hf]. apply skips_map_of; [done|]. intros x y Hxy.
    destruct (IH x y Hxy) as [IHx IHy]. pose proof (list_map_in _ _ _ Hf Hxy) as [Hx Hy].
    pose proof (max_list_in (λ '(k, v), Nat.max (pd_levels k) (pd_levels v)) _ _ Hxy) as Hm.
    cbn beta iota in Hm. split; (eapply skips_weaken; [by (apply IHx || apply IHy)|]).
    all: etrans; [|exact Hm]; lia.
  - destruct Hfit as [Hlen Hf]. apply skips_array_of; [done|]. intros d Hd.
    eapply skips_weaken; [apply IH; [done|]|].
    + by apply (list_map_in _ _ _ Hf).
    + by apply max_list_in.
  - apply skips_plutus_int.
  - eapply skips_weaken; [apply skips_bounded_bytes|simpl; lia].
Qed.
End plutus.
