(* ===== verification/ConsensusError.v ===== *)
(** * Errors of header and body validation ([dugite-consensus/src/praos.rs])

    [ConsensusError] with the constructors of the source. The texts of
    [InvalidBlock] are the cases in which the code builds them. *)

From S2P Require Import Prelude EraHistory Block.
Local Open Scope Z_scope.

(** [OutsideForecastRange] of [forecast.rs] *)
Record OutsideForecastRange := mkOutside {
  ofr_at : option Z;
  ofr_max_for : Z;
  ofr_requested : Z;
}.

#[global] Instance OutsideForecastRange_eq_dec : EqDecision OutsideForecastRange.
Proof. solve_decision. Defined.

(** [VrfError] of [dugite-crypto/src/vrf.rs] *)
Inductive VrfError : Type :=
| VrfInvalidProof
| VrfInvalidPublicKey
| VrfVerificationFailed.

#[global] Instance VrfError_eq_dec : EqDecision VrfError.
Proof. solve_decision. Defined.

(** The messages of [InvalidBlock] *)
Inductive InvalidReason : Type :=
| KesPeriodLengthZero
| VrfOutputMismatch
| NonceVrfOutputMismatch
| LeaderCheckFailed (slot proto_major : Z)
| KesOffsetTooLarge (offset : Z).

#[global] Instance InvalidReason_eq_dec : EqDecision InvalidReason.
Proof. solve_decision. Defined.

(** The names of the header fields whose sizes are checked *)
Inductive HeaderField : Type :=
| FIssuerVkey | FVrfVkey | FVrfOutput | FOpcertSigma | FOpcertHotVkey | FKesSignature
| FNonceVrfProof | FNonceVrfOutput.

#[global] Instance HeaderField_eq_dec : EqDecision HeaderField.
Proof. solve_decision. Defined.

Inductive ConsensusError : Type :=
| InvalidBlock (reason : InvalidReason)
| FutureBlock (current block : Z)
| NotSlotLeader
| InvalidVrfProof
| InvalidKesSignature
| InvalidOperationalCert
| DoesNotExtendChain
| KesExpired (current cert_start max_evolutions : Z)
| KesPeriodBeforeCert (block_period cert_start : Z)
| EmptyVrfKey
| EmptyIssuerVkey
| CheckpointMismatch (block_no : Z) (expected got : Hash32)
| VrfVerification (nonce : bool) (e : VrfError)
| OpcertSequenceRegression (got expected : Z)
| VrfKeyMismatch
| UnknownBlockIssuer (pool : list Z)
| OpcertCounterOverIncremented (got last_seen : Z)
| ObsoleteNode (chain_pv node_max_pv : Z)
| HeaderProtVerTooHigh (supplied max_expected : Z)
| BodyHashMismatch (header_hash computed_hash : Hash32)
| BodyExtractionFailed
| UnregisteredPool (pool_id : list Z)
| BlockBodyTooLarge (body_size max_block_body_size : Z)
| BlockHeaderTooLarge (header_size max_block_header_size : Z)
| NotActiveOverlaySlot (slot : Z)
| WrongGenesisDelegate (genesis_key issuer : list Z)
| UnknownGenesisKey (key : list Z)
| GenesisVrfKeyMismatch (expected got : Hash32)
| OutsideForecast (e : OutsideForecastRange)
| MalformedHeaderField (field : HeaderField) (expected_len actual_len : Z).

#[global] Instance ConsensusError_eq_dec : EqDecision ConsensusError.
Proof. solve_decision. Defined.
