(* ===== verification/BlockCbor.v ===== *)
(** * Blocks on the wire

    The block encoders of [encode/block.rs], the walkers over raw blocks of
    [decode/cbor_helpers.rs], and the check of the body hash
    ([dugite-consensus/src/praos.rs]). Blake2b is third-party code: the class
    [Blake2b] carries it. The encoders of transaction parts
    ([encode/transaction.rs]) are another component: [TxEncoders] is what this
    one uses of it. *)

From S2P Require Import Prelude Bytes EraHistory Block ConsensusError Cbor CborSkip.
Local Open Scope Z_scope.

Class Blake2b := {
  blake2b_256 : list Z → Hash32;
  blake2b_224 : list Z → list Z;
}.

(** The output lengths. *)
Class Blake2bOk (B : Blake2b) : Prop := {
  blake2b_256_length : ∀ data, length (blake2b_256 data) = 32%nat;
  blake2b_224_length : ∀ data, length (blake2b_224 data) = 28%nat;
}.

(** ** Headers ([encode/block.rs]) *)

Definition encode_operational_cert (cert : OperationalCert) : list Z :=
  encode_array_header 4 ++ encode_bytes (hot_vkey cert) ++ encode_uint (sequence_number cert) ++
  encode_uint (kes_period cert) ++ encode_bytes (oc_sigma cert).

Definition encode_vrf_result (vrf : VrfOutput) : list Z :=
  encode_array_header 2 ++ encode_bytes (vrf_output vrf) ++ encode_bytes (vrf_proof vrf).

Definition encode_protocol_version (pv : ProtocolVersion) : list Z :=
  encode_array_header 2 ++ encode_uint (pv_major pv) ++ encode_uint (pv_minor pv).

Definition encode_prev_hash (h : Hash32) : list Z :=
  if bool_decide (h = hash_zero) then encode_null else encode_hash32 h.

Definition encode_block_header_body (header : BlockHeader) : list Z :=
  encode_array_header 10 ++ encode_uint (block_number header) ++ encode_uint (hdr_slot header) ++
  encode_prev_hash (prev_hash header) ++ encode_bytes (issuer_vkey header) ++
  encode_bytes (vrf_vkey header) ++ encode_vrf_result (vrf_result header) ++
  encode_uint (body_size header) ++ encode_hash32 (body_hash header) ++
  encode_operational_cert (operational_cert header) ++
  encode_protocol_version (protocol_version header).

Definition encode_block_header (header : BlockHeader) (kes_signature : list Z) : list Z :=
  encode_array_header 2 ++ encode_block_header_body header ++ encode_bytes kes_signature.

(** ** Blocks *)

Record AuxiliaryData := mkAux { aux_raw_cbor : option (list Z); aux_content : list Z }.

(** The parts of [Transaction] that a block body is made of. *)
Record BodyTx := mkBodyTx {
  bt_body : list Z;
  bt_witness_set : list Z;
  bt_is_valid : bool;
  bt_auxiliary_data : option AuxiliaryData;
  bt_raw_body_cbor : option (list Z);
  bt_raw_witness_cbor : option (list Z);
}.

Record WireBlock := mkWireBlock {
  wb_header : BlockHeader;
  wb_transactions : list BodyTx;
  wb_era : Era;
}.

(** [encode_transaction_body_for_era], [encode_witness_set_for_era] and
    [encode_auxiliary_data], on an opaque content. *)
Class TxEncoders := {
  encode_transaction_body : list Z → list Z;
  encode_witness_set : list Z → list Z;
  encode_auxiliary_data : list Z → list Z;
}.

Section blocks.
Context {TE : TxEncoders} {BL : Blake2b}.

Definition tx_body_bytes (tx : BodyTx) : list Z :=
  match bt_raw_body_cbor tx with
  | Some raw => raw
  | None => encode_transaction_body (bt_body tx)
  end.

Definition tx_witness_bytes (tx : BodyTx) : list Z :=
  match bt_raw_witness_cbor tx with
  | Some raw => raw
  | None => encode_witness_set (bt_witness_set tx)
  end.

Definition aux_bytes (aux : AuxiliaryData) : list Z :=
  match aux_raw_cbor aux with
  | Some raw => raw
  | None => encode_auxiliary_data (aux_content aux)
  end.

Definition encode_tx_bodies_segment (txs : list BodyTx) : list Z :=
  encode_array_close (encode_array_open (length txs) ++ List.flat_map tx_body_bytes txs) (length txs).

Definition encode_witness_sets_segment (txs : list BodyTx) : list Z :=
  encode_array_close (encode_array_open (length txs) ++ List.flat_map tx_witness_bytes txs) (length txs).

(** [iter().enumerate().filter(..).map(..)] *)
Definition invalid_indices (txs : list BodyTx) : list nat :=
  fst <$> filter (λ p, bt_is_valid p.2 = false) (zip (seq 0 (length txs)) txs).

Definition encode_invalid_indices_segment (txs : list BodyTx) : list Z :=
  let idx := invalid_indices txs in
  encode_array_close
    (encode_array_open (length idx) ++ List.flat_map (λ i, encode_uint (Z.of_nat i)) idx) (length idx).

Definition aux_entries (txs : list BodyTx) : list (nat * AuxiliaryData) :=
  omap (λ p, (λ aux, (p.1, aux)) <$> bt_auxiliary_data p.2) (zip (seq 0 (length txs)) txs).

Definition encode_aux_data_segment (txs : list BodyTx) : list Z :=
  let entries := aux_entries txs in
  encode_map_close
    (encode_map_open (length entries) ++
     List.flat_map (λ '(i, aux), encode_uint (Z.of_nat i) ++ aux_bytes aux) entries)
    (length entries).

Definition era_storage_tag (e : Era) : Z :=
  match e with
  | Byron => 0 | Shelley => 2 | Allegra => 3 | Mary => 4
  | Alonzo => 5 | Babbage => 6 | Conway => 7 | Dijkstra => 8
  end.

Definition encode_block (block : WireBlock) (kes_signature : list Z) : list Z :=
  let txs := wb_transactions block in
  encode_array_header 2 ++ encode_uint (era_storage_tag (wb_era block)) ++
  encode_array_header 5 ++ encode_block_header (wb_header block) kes_signature ++
  encode_tx_bodies_segment txs ++ encode_witness_sets_segment txs ++
  encode_aux_data_segment txs ++ encode_invalid_indices_segment txs.

(** [compute_block_body_hash] of [encode/block.rs]: the forger's side *)
Definition forge_block_body_hash (txs : list BodyTx) : Hash32 :=
  blake2b_256 (blake2b_256 (encode_tx_bodies_segment txs) ++
               blake2b_256 (encode_witness_sets_segment txs) ++
               blake2b_256 (encode_aux_data_segment txs) ++
               blake2b_256 (encode_invalid_indices_segment txs)).

End blocks.

(** ** Walkers ([decode/cbor_helpers.rs]) *)

(** A one- or two-byte argument, [0..=23] or [24] with the byte present; the
    header's bytes. *)
Definition short_arg (data : list Z) (off : nat) : option (Z * nat) :=
  b ← data !! off;
  if info_of b <=? 23 then Some (info_of b, 1%nat)
  else if info_of b =? 24 then v ← data !! S off; Some (v, 2%nat)
  else None.

(** Up to the first body component: the offset and the number of components. *)
Definition walk_to_body (raw : list Z) : option (nat * Z) :=
  b ← raw !! 0%nat;
  if negb (major_of b =? 4) then None else
  '(outer_len, off) ← short_arg raw 0;
  if negb (outer_len =? 2) then None else
  era_byte ← raw !! off;
  if negb (major_of era_byte =? 0) then None else
  '(era_tag, _) ← short_arg raw off;
  if era_tag <=? 1 then None else
  era_size ← result_ok (skip_cbor_value (drop off raw));
  let off := (off + era_size)%nat in
  inner_byte ← raw !! off;
  if negb (major_of inner_byte =? 4) then None else
  '(inner_len, hdr_bytes) ← short_arg raw off;
  if inner_len <? 4 then None else
  let off := (off + hdr_bytes)%nat in
  header_size ← result_ok (skip_cbor_value (drop off raw));
  Some ((off + header_size)%nat, inner_len - 1).

(** [for _ in 0..n { off += skip(&raw[off..]).ok()?; }] *)
Fixpoint walk_components (n : nat) (raw : list Z) (off : nat) : option nat :=
  match n with
  | O => Some off
  | S n' => item_size ← result_ok (skip_cbor_value (drop off raw)); walk_components n' raw (off + item_size)
  end.

Definition compute_block_body_size_from_cbor (raw : list Z) : option Z :=
  '(body_start, n) ← walk_to_body raw;
  off ← walk_components (Z.to_nat n) raw body_start;
  Some (Z.of_nat (off - body_start)).

Definition extract_block_body_cbor (raw : list Z) : option (list Z) :=
  '(body_start, n) ← walk_to_body raw;
  off ← walk_components (Z.to_nat n) raw body_start;
  Some (slice body_start (off - body_start) raw).

Fixpoint collect_components (n : nat) (raw : list Z) (off : nat) : option (list (list Z)) :=
  match n with
  | O => Some []
  | S n' =>
      item_size ← result_ok (skip_cbor_value (drop off raw));
      rest ← collect_components n' raw (off + item_size);
      Some (slice off item_size raw :: rest)
  end.

Definition extract_block_body_components (raw : list Z) : option (list (list Z)) :=
  '(body_start, n) ← walk_to_body raw;
  collect_components (Z.to_nat n) raw body_start.

(** ** The body hash ([praos.rs]) *)

Section body_hash.
Context {BL : Blake2b}.

Definition compute_block_body_hash (components : list (list Z)) : Hash32 :=
  blake2b_256 (List.flat_map blake2b_256 components).

Definition validate_block_body_hash (header : BlockHeader) (raw : list Z) : result ConsensusError unit :=
  match extract_block_body_components raw with
  | None => Err BodyExtractionFailed
  | Some components =>
      let computed := compute_block_body_hash components in
      if bool_decide (body_hash header = computed) then Ok tt
      else Err (BodyHashMismatch (body_hash header) computed)
  end.

End body_hash.
