(* ===== verification/BlockCborTheorems.v ===== *)
(** * Theorems about CBOR and blocks on the wire

    What a signed header and a hashed body bind, the agreement of the three
    block walkers, and the round trip from [encode_block] to
    [validate_block_body_hash]. *)

From S2P Require Import Prelude Bytes EraHistory Block ConsensusError Cbor CborSkip BlockCbor.
Local Open Scope Z_scope.

(** ** Unique reading *)

(** Two encodings that start the same buffer encode the same value and leave
    the same rest. *)
Definition reads {A} (P : A → Prop) (enc : A → list Z) : Prop :=
  ∀ x y r s, P x → P y → enc x ++ r = enc y ++ s → x = y ∧ r = s.

Lemma is_head_reads m v v' bs bs' r s :
  is_head m v bs → is_head m v' bs' → bs ++ r = bs' ++ s → v = v' ∧ bs = bs' ∧ r = s.
Proof.
  intros (b & t & -> & _ & _ & H) (b' & t' & -> & _ & _ & H') E.
  assert (b = b') as <- by by injection E.
  specialize (H r). specialize (H' s). rewrite E, H' in H. injection H as <- Hl.
  split; [done|]. apply app_inj_1; [|done]. simpl in Hl |- *. lia.
Qed.

Lemma reads_uint : reads u64 encode_uint.
Proof.
  intros x y r s Hx Hy E.
  destruct (is_head_reads 0 x y (encode_uint x) (encode_uint y) r s) as (-> & _ & ->);
    [by apply (head64_is_head 0)..|done|done].
Qed.

Definition short (data : list Z) : Prop := Z.of_nat (length data) ≤ u32_max.

Lemma reads_bytes : reads short encode_bytes.
Proof.
  intros x y r s Hx Hy E. unfold encode_bytes in E. rewrite <- !app_assoc in E.
  destruct (is_head_reads 2 (Z.of_nat (length x)) (Z.of_nat (length y)) _ _ _ _
    ltac:(apply (head32_is_head 2); [done|unfold short in *; lia])
    ltac:(apply (head32_is_head 2); [done|unfold short in *; lia]) E) as (Hl & _ & E').
  apply app_inj_1 in E' as [-> ->]; [done|lia].
Qed.

Lemma reads_hash32 : reads (λ h : Hash32, length h = 32%nat) encode_hash32.
Proof.
  intros x y r s Hx Hy E. injection E as E. apply app_inj_1 in E as [-> ->]; [done|].
  by rewrite Hx, Hy.
Qed.

Lemma reads_prev_hash : reads (λ h : Hash32, length h = 32%nat) encode_prev_hash.
Proof.
  intros x y r s Hx Hy. unfold encode_prev_hash.
  repeat case_bool_decide; intros E; [|discriminate E|discriminate E|by eapply reads_hash32].
  injection E as ->. by simplify_eq.
Qed.

Lemma reads_drop (h r s : list Z) : h ++ r = h ++ s → r = s.
Proof. apply app_inv_head. Qed.

Definition opcert_fits (c : OperationalCert) : Prop :=
  short (hot_vkey c) ∧ u64 (sequence_number c) ∧ u64 (kes_period c) ∧ short (oc_sigma c).

Lemma reads_opcert : reads opcert_fits encode_operational_cert.
Proof.
  intros [a1 b1 c1 d1] [a2 b2 c2 d2] r s (Ha & Hb & Hc & Hd) (Ha' & Hb' & Hc' & Hd') E.
  unfold encode_operational_cert in E. cbn in Ha, Hb, Hc, Hd, Ha', Hb', Hc', Hd'.
  cbn [hot_vkey sequence_number kes_period oc_sigma] in E. rewrite <- !app_assoc in E.
  apply reads_drop in E. apply reads_bytes in E as [<- E]; [|done|done].
  apply reads_uint in E as [<- E]; [|done|done]. apply reads_uint in E as [<- E]; [|done|done].
  by apply reads_bytes in E as [<- <-].
Qed.

Lemma reads_vrf : reads (λ v, short (vrf_output v) ∧ short (vrf_proof v)) encode_vrf_result.
Proof.
  intros [a1 b1] [a2 b2] r s [Ha Hb] [Ha' Hb'] E. unfold encode_vrf_result in E.
  cbn [vrf_output vrf_proof] in *. rewrite <- !app_assoc in E.
  apply reads_drop in E. apply reads_bytes in E as [<- E]; [|done|done].
  by apply reads_bytes in E as [<- <-].
Qed.

Lemma reads_version : reads (λ v, u64 (pv_major v) ∧ u64 (pv_minor v)) encode_protocol_version.
Proof.
  intros [a1 b1] [a2 b2] r s [Ha Hb] [Ha' Hb'] E. unfold encode_protocol_version in E.
  cbn [pv_major pv_minor] in *. rewrite <- !app_assoc in E.
  apply reads_drop in E. apply reads_uint in E as [<- E]; [|done|done].
  by apply reads_uint in E as [<- <-].
Qed.

(** ** What a header's signature covers *)

(** The widths of the fields: [u64] numbers, 32-byte hashes, byte strings of
    less than 4 GiB. *)
Definition header_fits (h : BlockHeader) : Prop :=
  u64 (block_number h) ∧ u64 (hdr_slot h) ∧ length (prev_hash h) = 32%nat ∧
  short (issuer_vkey h) ∧ short (vrf_vkey h) ∧
  (short (vrf_output (vrf_result h)) ∧ short (vrf_proof (vrf_result h))) ∧
  u64 (body_size h) ∧ length (body_hash h) = 32%nat ∧ opcert_fits (operational_cert h) ∧
  (u64 (pv_major (protocol_version h)) ∧ u64 (pv_minor (protocol_version h))).

Definition signed_fields (h : BlockHeader) :=
  (block_number h, hdr_slot h, prev_hash h, issuer_vkey h, vrf_vkey h, vrf_result h,
   body_size h, body_hash h, operational_cert h, protocol_version h).

Lemma reads_header_body h1 h2 r s :
  header_fits h1 → header_fits h2 →
  encode_block_header_body h1 ++ r = encode_block_header_body h2 ++ s →
  signed_fields h1 = signed_fields h2 ∧ r = s.
Proof.
  intros (A1 & A2 & A3 & A4 & A5 & A6 & A7 & A8 & A9 & A10)
    (B1 & B2 & B3 & B4 & B5 & B6 & B7 & B8 & B9 & B10) E.
  unfold encode_block_header_body in E. rewrite <- !app_assoc in E. unfold signed_fields.
  apply reads_drop in E. apply reads_uint in E as [-> E]; [|done|done].
  apply reads_uint in E as [-> E]; [|done|done]. apply reads_prev_hash in E as [-> E]; [|done|done].
  apply reads_bytes in E as [-> E]; [|done|done]. apply reads_bytes in E as [-> E]; [|done|done].
  apply reads_vrf in E as [-> E]; [|done|done]. apply reads_uint in E as [-> E]; [|done|done].
  apply reads_hash32 in E as [-> E]; [|done|done]. apply reads_opcert in E as [-> E]; [|done|done].
  by apply reads_version in E as [-> ->].
Qed.

(** ** The walkers *)

Lemma skip_at_bound raw off n :
  bytes_ok raw → skip_cbor_value (drop off raw) = Ok n → (off + n ≤ length raw)%nat.
Proof.
  intros Hok E. pose proof (skip_depth_within (S CBOR_SKIP_MAX_DEPTH) (drop off raw)
    ltac:(by apply Forall_drop)) as H. unfold skip_cbor_value in E. rewrite E in H.
  cbn [within] in H. rewrite length_drop in H. lia.
Qed.

Lemma result_ok_Some {E A} (r : result E A) a : result_ok r = Some a → r = Ok a.
Proof. destruct r; simpl; intros; by simplify_eq. Qed.

Lemma slice_split off n m (raw : list Z) :
  slice off (n + m) raw = slice off n raw ++ slice (off + n) m raw.
Proof. unfold slice. by rewrite <- drop_drop, take_take_drop. Qed.

(** The components that are collected are the consecutive pieces of the bytes
    that are walked over. *)
Lemma collect_walk n raw off :
  bytes_ok raw → (off ≤ length raw)%nat →
  match collect_components n raw off with
  | Some cs => walk_components n raw off = Some (off + length (mjoin cs))%nat ∧
      slice off (length (mjoin cs)) raw = mjoin cs ∧ (off + length (mjoin cs) ≤ length raw)%nat
  | None => walk_components n raw off = None
  end.
Proof.
  intros Hok. revert off. induction n as [|n IH]; intros off Hoff.
  { cbn. rewrite Nat.add_0_r. done. }
  cbn [collect_components walk_components].
  destruct (result_ok _) as [k|] eqn:E; cbn [mbind option_bind]; [|done].
  apply result_ok_Some in E. apply skip_at_bound in E; [|done].
  specialize (IH (off + k)%nat E). destruct (collect_components n raw (off + k)) as [cs|]; [|done].
  destruct IH as (-> & Hs & Hb). cbn [mbind option_bind]. rewrite mjoin_cons, length_app.
  assert (length (slice off k raw) = k) as Hk.
  { unfold slice. rewrite length_take, length_drop. lia. }
  rewrite Hk. split_and!; [f_equal; lia| |lia]. by rewrite slice_split, Hs.
Qed.

Lemma walk_to_body_bound raw off n :
  bytes_ok raw → walk_to_body raw = Some (off, n) → (off ≤ length raw)%nat.
Proof.
  intros Hok H. unfold walk_to_body in H.
  repeat first
    [ case_match; [done|]
    | match type of H with (?m ≫= _) = Some _ => destruct m as [?|] eqn:?; cbn [mbind option_bind] in H; [|done] end
    | case_match ].
  all: try done. simplify_eq.
  match goal with E : result_ok (skip_cbor_value (drop ?o raw)) = Some ?k |- (?o + ?k ≤ _)%nat =>
    apply result_ok_Some in E; exact (skip_at_bound _ _ _ Hok E) end.
Qed.

(** ** Blocks that dugite encodes *)

Lemma skip_at pre bs r k :
  skips k bs → (k ≤ S CBOR_SKIP_MAX_DEPTH)%nat →
  skip_cbor_value (drop (length pre) (pre ++ bs ++ r)) = Ok (length bs).
Proof. intros [_ H] Hk. rewrite drop_app_length. by apply H. Qed.

Lemma collect_pieces k pieces pre :
  (∀ p, p ∈ pieces → skips k p) → (k ≤ S CBOR_SKIP_MAX_DEPTH)%nat →
  collect_components (length pieces) (pre ++ mjoin pieces) (length pre) = Some pieces.
Proof.
  intros Hp Hk. revert pre. induction pieces as [|p pieces IH]; intros pre; [done|].
  cbn [collect_components length]. rewrite mjoin_cons, (skip_at _ _ _ k); [|apply Hp; by left|done].
  cbn [result_ok mbind option_bind]. rewrite (app_assoc pre), <- length_app, IH.
  2: { intros. apply Hp. by right. }
  cbn [mbind option_bind]. unfold slice. rewrite <- app_assoc, drop_app_length.
  by rewrite take_app_length.
Qed.

Lemma walk_to_body_block k tag hdr body :
  2 ≤ tag < 24 → skips k hdr → (k ≤ S CBOR_SKIP_MAX_DEPTH)%nat →
  walk_to_body ([0x82; tag; 0x85] ++ hdr ++ body) = Some (length ([0x82; tag; 0x85] ++ hdr), 4).
Proof.
  intros Htag Hh Hk. destruct (initial_byte 0 tag) as (_ & Hmaj & Hinfo); [done|lia|].
  change (32 * 0 + tag) with tag in Hmaj, Hinfo.
  assert (skip_cbor_value (drop 1 ([0x82; tag; 0x85] ++ hdr ++ body)) = Ok 1%nat) as Htagsz.
  { pose proof (skip_at [0x82] (encode_uint tag) (0x85 :: hdr ++ body) 1
      ltac:(apply skips_uint; unfold u64, u64_max; lia) ltac:(unfold CBOR_SKIP_MAX_DEPTH; lia)) as E.
    unfold encode_uint, head64 in E. destruct (Z.ltb_spec tag 24); [|lia].
    exact E. }
  pose proof (skip_at [0x82; tag; 0x85] hdr body k Hh Hk) as Hhdr.
  change (length [0x82; tag; 0x85]) with 3%nat in Hhdr.
  unfold walk_to_body, short_arg. cbn [lookup list_lookup app mbind option_bind].
  change (major_of 0x82) with 4. change (info_of 0x82) with 2. cbn -[drop skip_cbor_value major_of info_of].
  rewrite Hmaj, Hinfo. cbn -[drop skip_cbor_value major_of info_of].
  destruct (Z.leb_spec tag 23); [|lia]. cbn -[drop skip_cbor_value major_of info_of].
  destruct (Z.leb_spec tag 1); [lia|]. cbn [app] in Htagsz, Hhdr. rewrite Htagsz.
  cbn -[drop skip_cbor_value major_of info_of].
  change (major_of 0x85) with 4. change (info_of 0x85) with 5. cbn -[drop skip_cbor_value].
  by rewrite Hhdr.
Qed.

Ltac all_pieces := repeat first [apply Forall_nil_2 | apply Forall_cons_2].

Lemma skips_record k pieces :
  (length pieces < 24)%nat → Forall (skips k) pieces →
  skips (S k) (encode_array_header (length pieces) ++ mjoin pieces).
Proof.
  intros Hl Hp. eapply skips_array; [|done|by apply Forall_forall].
  apply (head32_is_head 4); [done|unfold u32_max; lia].
Qed.

Lemma mjoin_singleton (a : list Z) : mjoin [a] = a.
Proof. apply app_nil_r. Qed.

Lemma skips_null : skips 1 encode_null.
Proof. split; [by eexists _, _|]. intros [|left] r H; [lia|]. done. Qed.

Lemma skips_prev_hash h : length h = 32%nat → skips 1 (encode_prev_hash h).
Proof. intros. unfold encode_prev_hash. case_bool_decide; [apply skips_null|by apply skips_hash32]. Qed.

Lemma skips_header h kes :
  header_fits h → short kes → skips 4 (encode_block_header h kes).
Proof.
  intros (H1 & H2 & H3 & H4 & H5 & (H6 & H6') & H7 & H8 & (H9 & H10 & H11 & H12) & (H13 & H14)) Hk.
  assert (∀ bs, skips 1 bs → skips 2 bs) as Hw by (intros; eapply skips_weaken; [done|lia]).
  assert (skips 2 (encode_vrf_result (vrf_result h))).
  { pose proof (skips_record 1 [encode_bytes (vrf_output (vrf_result h));
      encode_bytes (vrf_proof (vrf_result h))]) as Hr. rewrite mjoin_cons, mjoin_singleton in Hr.
    apply Hr; [simpl; lia|]. all_pieces; by apply skips_bytes. }
  assert (skips 2 (encode_operational_cert (operational_cert h))).
  { set (c := operational_cert h) in *.
    pose proof (skips_record 1 [encode_bytes (hot_vkey c); encode_uint (sequence_number c);
      encode_uint (kes_period c); encode_bytes (oc_sigma c)]) as Hr.
    rewrite !mjoin_cons in Hr. rewrite app_nil_r in Hr. apply Hr; [simpl; lia|].
    all_pieces; by (apply skips_bytes || apply skips_uint). }
  assert (skips 2 (encode_protocol_version (protocol_version h))).
  { pose proof (skips_record 1 [encode_uint (pv_major (protocol_version h));
      encode_uint (pv_minor (protocol_version h))]) as Hr. rewrite mjoin_cons, mjoin_singleton in Hr.
    apply Hr; [simpl; lia|]. all_pieces; by apply skips_uint. }
  assert (skips 3 (encode_block_header_body h)) as Hb.
  { pose proof (skips_record 2 [encode_uint (block_number h); encode_uint (hdr_slot h);
      encode_prev_hash (prev_hash h); encode_bytes (issuer_vkey h); encode_bytes (vrf_vkey h);
      encode_vrf_result (vrf_result h); encode_uint (body_size h); encode_hash32 (body_hash h);
      encode_operational_cert (operational_cert h); encode_protocol_version (protocol_version h)]) as Hr.
    rewrite !mjoin_cons in Hr. rewrite app_nil_r in Hr. apply Hr; [simpl; lia|].
    all_pieces; try done; apply Hw;
      by (apply skips_bytes || apply skips_uint || apply skips_prev_hash || apply skips_hash32). }
  pose proof (skips_record 3 [encode_block_header_body h; encode_bytes kes]) as Hr.
  rewrite mjoin_cons, mjoin_singleton in Hr. apply Hr; [simpl; lia|].
  all_pieces; [done|]. eapply skips_weaken; [by apply skips_bytes|lia].
Qed.

Section forged.
Context {TE : TxEncoders} {BL : Blake2b}.

(** The parts of a transaction are single CBOR items of at most [k] levels, as
    those of a decoded transaction are. *)
Definition tx_items (k : nat) (tx : BodyTx) : Prop :=
  skips k (tx_body_bytes tx) ∧ skips k (tx_witness_bytes tx) ∧
  ∀ aux, bt_auxiliary_data tx = Some aux → skips k (aux_bytes aux).

Definition body_segments (txs : list BodyTx) : list (list Z) :=
  [encode_tx_bodies_segment txs; encode_witness_sets_segment txs;
   encode_aux_data_segment txs; encode_invalid_indices_segment txs].

Lemma indices_bound (txs : list BodyTx) i :
  i ∈ invalid_indices txs → (i < length txs)%nat.
Proof.
  intros ([j tx] & -> & [_ Hin]%list_elem_of_filter)%list_elem_of_fmap.
  apply elem_of_zip_l, elem_of_seq in Hin. simpl. lia.
Qed.

Lemma aux_entries_in (txs : list BodyTx) i aux :
  (i, aux) ∈ aux_entries txs → (i < length txs)%nat ∧ ∃ tx, tx ∈ txs ∧ bt_auxiliary_data tx = Some aux.
Proof.
  intros ([j tx] & Hin & E)%list_elem_of_omap. cbn [fst snd] in E.
  apply fmap_Some in E as (a & Ha & E). injection E as -> ->.
  pose proof (elem_of_zip_l _ _ _ _ Hin) as Hj%elem_of_seq.
  split; [lia|]. exists tx. split; [by eapply elem_of_zip_r|done].
Qed.

Lemma skips_segments k txs seg :
  (1 ≤ k)%nat → (∀ tx, tx ∈ txs → tx_items k tx) → Z.of_nat (length txs) ≤ u32_max →
  seg ∈ body_segments txs → skips (S k) seg.
Proof.
  intros Hk Htx Hlen. unfold u32_max in Hlen.
  assert (∀ i, (i < length txs)%nat → skips k (encode_uint (Z.of_nat i))) as Hidx.
  { intros i Hi. eapply skips_weaken; [apply skips_uint; unfold u64, u64_max; lia|done]. }
  intros [->|[->|[->|[->|[]%elem_of_nil]%elem_of_cons]%elem_of_cons]%elem_of_cons]%elem_of_cons.
  - apply skips_array_open. intros tx Hin. by apply Htx.
  - apply skips_array_open. intros tx Hin. by apply Htx.
  - apply skips_map_open. intros i aux (Hi & tx & Hin & E)%aux_entries_in.
    split; [by apply Hidx|by apply (Htx tx Hin)].
  - apply skips_array_open. intros i Hi%indices_bound. by apply Hidx.
Qed.

Lemma extract_forged k block kes :
  (1 ≤ k ≤ CBOR_SKIP_MAX_DEPTH)%nat → (∀ tx, tx ∈ wb_transactions block → tx_items k tx) →
  Z.of_nat (length (wb_transactions block)) ≤ u32_max → header_fits (wb_header block) → short kes →
  wb_era block ≠ Byron →
  extract_block_body_components (encode_block block kes) = Some (body_segments (wb_transactions block)).
Proof.
  intros Hk Htx Hlen Hh Hkes Hera. set (txs := wb_transactions block) in *.
  set (hdr := encode_block_header (wb_header block) kes).
  set (tag := era_storage_tag (wb_era block)).
  assert (2 ≤ tag < 24) as Htag by (unfold tag; destruct (wb_era block); simpl; done || lia).
  assert (encode_block block kes = ([0x82; tag; 0x85] ++ hdr) ++ mjoin (body_segments txs)) as ->.
  { unfold encode_block, body_segments. rewrite !mjoin_cons, app_nil_r, <- app_assoc. fold txs hdr tag.
    assert (encode_uint tag = [tag]) as -> by (unfold tag; by destruct (wb_era block)). done. }
  unfold extract_block_body_components. rewrite <- app_assoc, (walk_to_body_block 4).
  2: done. 2: by apply skips_header. 2: unfold CBOR_SKIP_MAX_DEPTH; lia.
  cbn [mbind option_bind]. rewrite app_assoc.
  change (Z.to_nat 4) with (length (body_segments txs)).
  apply (collect_pieces (S k)); [|lia]. intros p. apply skips_segments; [lia|done|done].
Qed.

End forged.

(** ** Hashes of components *)

Lemma flat_map_hash_inj {BL : Blake2b} {BO : Blake2bOk BL} cs1 cs2 :
  List.flat_map blake2b_256 cs1 = List.flat_map blake2b_256 cs2 →
  cs1 = cs2 ∨ ∃ x y, x ≠ y ∧ blake2b_256 x = blake2b_256 y.
Proof.
  revert cs2. induction cs1 as [|c1 cs1 IH]; intros [|c2 cs2] E; [by left|..].
  1, 2: apply (f_equal length) in E; revert E; cbn [List.flat_map];
    rewrite length_app, blake2b_256_length; simpl; lia.
  cbn [List.flat_map] in E. apply app_inj_1 in E as [E1 E2]; [|by rewrite !blake2b_256_length].
  destruct (decide (c1 = c2)) as [->|]; [|right; eauto].
  destruct (IH _ E2) as [-> |]; auto.
Qed.

(** ** A declared length of [u64::MAX] *)

Lemma huge_length_arg rest :
  decode_uint_info ([0x5b; 255; 255; 255; 255; 255; 255; 255; 255] ++ rest) (info_of 0x5b)
  = Ok (u64_max, 9%nat).
Proof. vm_compute. reflexivity. Qed.

Lemma huge_length_wraps : wrapping_add64 (Z.of_nat 9) u64_max = 8.
Proof. reflexivity. Qed.

Lemma skip_depth_string left data b rest :
  data = b :: rest → major_of b = 2 → info_of b ≠ 31 →
  skip_cbor_value_depth (S left) data = skip_string data (info_of b).
Proof.
  intros -> Hm Hi. cbn [skip_cbor_value_depth]. rewrite Hm. by destruct (Z.eqb_spec (info_of b) 31).
Qed.

(** The body of a block, its components in order, and its size *)
Definition body_bytes (components : list (list Z)) : list Z := mjoin components.
Definition body_bytes_size (components : list (list Z)) : Z := Z.of_nat (length (body_bytes components)).

(** ** Theorems *)

(** A KES signature over the header body binds every field that the encoder
    writes: two headers of legal widths with the same encoded body agree on
    number, slot, parent, keys, VRF result, body size and hash, certificate and
    version (the null of a first block is not the encoding of any hash). *)
Theorem header_signature_binds (h1 h2 : BlockHeader) :
  header_fits h1 → header_fits h2 →
  encode_block_header_body h1 = encode_block_header_body h2 →
  signed_fields h1 = signed_fields h2.
Proof.
  intros H1 H2 E. apply (reads_header_body h1 h2 [] []); [done..|]. by rewrite !app_nil_r.
Qed.

(** [skip_cbor_value] is total on every buffer: it ends, without leaving the
    buffer, with the size of a value of at least one byte or with the decoding
    error; nesting beyond the limit and lengths beyond the buffer are errors. *)
Theorem skip_total (data : list Z) :
  bytes_ok data →
  (∃ n, skip_cbor_value data = Ok n ∧ (1 ≤ n ≤ length data)%nat) ∨
  skip_cbor_value data = Err (CborErr CborDecode).
Proof.
  intros H. pose proof (skip_depth_within (S CBOR_SKIP_MAX_DEPTH) data H) as Hw.
  unfold skip_cbor_value. destruct (skip_cbor_value_depth _ data) as [n|e]; simpl in Hw; [|by subst; right].
  left. eauto.
Qed.

(** Skipping consumes exactly what the encoder of Plutus data writes, bignums
    and chunked byte strings included, whatever follows, as long as the value
    nests within the limit of 1025 levels. *)
Theorem skip_plutus_data {NB : NumBigint} (d : PlutusData) (rest : list Z) :
  pd_fits d → (pd_levels d ≤ S CBOR_SKIP_MAX_DEPTH)%nat →
  skip_cbor_value (encode_plutus_data d ++ rest) = Ok (length (encode_plutus_data d)).
Proof. intros Hf Hl. by apply skips_plutus_data. Qed.

(** The three walkers over a raw block agree on every input: the body is the
    concatenation of the components, its size the sum of their sizes, and they
    fail on the same blocks. *)
Theorem walkers_agree (raw : list Z) :
  bytes_ok raw →
  extract_block_body_cbor raw = body_bytes <$> extract_block_body_components raw ∧
  compute_block_body_size_from_cbor raw = body_bytes_size <$> extract_block_body_components raw.
Proof.
  intros Hok. unfold extract_block_body_cbor, compute_block_body_size_from_cbor,
    extract_block_body_components, body_bytes_size, body_bytes.
  destruct (walk_to_body raw) as [[off n]|] eqn:E; cbn [mbind option_bind]; [|done].
  pose proof (collect_walk (Z.to_nat n) raw off Hok (walk_to_body_bound _ _ _ Hok E)) as Hc.
  destruct (collect_components (Z.to_nat n) raw off) as [cs|]; [|by rewrite Hc].
  destruct Hc as (-> & Hs & _). cbn [mbind option_bind fmap option_fmap option_map].
  replace (off + length (mjoin cs) - off)%nat with (length (mjoin cs)) by lia. by rewrite Hs.
Qed.

(** C9: A block that dugite forges passes the body check of a receiving node: when
    the header carries the hash that the forger computes, the bytes of
    [encode_block] are accepted by [validate_block_body_hash], in every era but
    Byron and for any transactions whose parts are CBOR items. *)
Theorem forged_block_verifies {TE : TxEncoders} {BL : Blake2b} (k : nat) (block : WireBlock) (kes : list Z) :
  (1 ≤ k ≤ CBOR_SKIP_MAX_DEPTH)%nat → (∀ tx, tx ∈ wb_transactions block → tx_items k tx) →
  Z.of_nat (length (wb_transactions block)) ≤ u32_max → header_fits (wb_header block) → short kes →
  wb_era block ≠ Byron →
  body_hash (wb_header block) = forge_block_body_hash (wb_transactions block) →
  validate_block_body_hash (wb_header block) (encode_block block kes) = Ok tt.
Proof.
  intros Hk Htx Hlen Hh Hkes Hera Hhash. unfold validate_block_body_hash.
  rewrite (extract_forged k) by done. rewrite bool_decide_true; [done|]. rewrite Hhash.
  unfold forge_block_body_hash, compute_block_body_hash, body_segments. cbn [List.flat_map].
  by rewrite app_nil_r.
Qed.

(** A header binds its body: two raw blocks accepted for the same header have
    the same components, or they exhibit a collision of Blake2b-256. *)
Theorem body_hash_binds {BL : Blake2b} {BO : Blake2bOk BL} (header : BlockHeader) (raw1 raw2 : list Z) :
  validate_block_body_hash header raw1 = Ok tt → validate_block_body_hash header raw2 = Ok tt →
  extract_block_body_components raw1 = extract_block_body_components raw2 ∨
  ∃ x y, x ≠ y ∧ blake2b_256 x = blake2b_256 y.
Proof.
  unfold validate_block_body_hash, compute_block_body_hash.
  destruct (extract_block_body_components raw1) as [cs1|]; [|done].
  destruct (extract_block_body_components raw2) as [cs2|]; [|done].
  intros E1 E2. repeat case_bool_decide; try done.
  destruct (decide (List.flat_map blake2b_256 cs1 = List.flat_map blake2b_256 cs2)) as [E|];
    [|right; eexists _, _; split; [done|congruence]].
  destruct (flat_map_hash_inj _ _ E) as [-> |]; auto.
Qed.

(** [decode_bytes] adds header and declared length in [usize] without a check,
    unlike [skip_cbor_value]: a declared length of [u64::MAX] wraps past the
    bounds test and the slice panics, on any snapshot that contains these bytes,
    while the skipper reports an error. *)
Theorem decode_bytes_length_overflow (rest : list Z) :
  let data := [0x5b; 255; 255; 255; 255; 255; 255; 255; 255] ++ rest in
  decode_bytes data = Err CborPanic ∧ skip_cbor_value data = Err (CborErr CborDecode).
Proof.
  intros data. pose proof (huge_length_arg rest) as E.
  assert (9 ≤ length data)%nat as Hl by (subst data; rewrite length_app; simpl; lia).
  split.
  - unfold decode_bytes, data. cbn [app]. change (major_of 0x5b =? 2) with true. cbn [negb].
    cbn [app] in E. rewrite E. cbn [mbind result_bind].
    rewrite huge_length_wraps.
    match goal with |- context [Z.of_nat (length ?l) <? 8] => destruct (Z.ltb_spec (Z.of_nat (length l)) 8) end.
    + simpl in *. lia.
    + reflexivity.
  - unfold skip_cbor_value. rewrite (skip_depth_string _ data 0x5b _ eq_refl) by done.
    unfold skip_string. fold data in E. by rewrite E.
Qed.

(** ** Concrete instances *)

#[local] Instance demo_bigint : NumBigint := {| to_bytes_be n := be_bytes 16 n |}.

#[local] Instance demo_blake : Blake2b :=
  {| blake2b_256 d := resize 32 d; blake2b_224 d := resize 28 d |}.

#[local] Instance demo_blake_ok : Blake2bOk demo_blake.
Proof. split; intros; apply length_resize. Qed.

#[local] Instance demo_encoders : TxEncoders :=
  {| encode_transaction_body c := encode_bytes c; encode_witness_set c := encode_bytes c;
     encode_auxiliary_data c := encode_bytes c |}.

Definition demo_wire_header (hash bhash : Hash32) : BlockHeader :=
  {| header_hash := hash; prev_hash := hash_zero; issuer_vkey := replicate 32 1;
     vrf_vkey := replicate 32 2; vrf_result := mkVrf (replicate 64 3) (replicate 80 4);
     block_number := 42; hdr_slot := 1000; epoch_nonce := hash_zero; body_size := 512;
     body_hash := bhash; operational_cert := mkOpCert (replicate 32 5) 7 3 (replicate 64 6);
     protocol_version := mkVersion 9 0; kes_signature := []; nonce_vrf_output := [];
     nonce_vrf_proof := []; prev_nonce := None; raw_header_body := None |}.

Lemma demo_wire_header_fits hash bhash : length bhash = 32%nat → header_fits (demo_wire_header hash bhash).
Proof. intros H. unfold header_fits, opcert_fits, short, u64. cbn -[u64_max u32_max]. by rewrite H. Qed.

(** The empty body ([a0]), an encoded witness set and no auxiliary data *)
Definition demo_body_tx : BodyTx := mkBodyTx [] [1; 2] false None (Some [0xa0]) None.

Definition demo_wire_block : WireBlock :=
  mkWireBlock (demo_wire_header hash_zero (forge_block_body_hash [demo_body_tx])) [demo_body_tx] Conway.

Lemma demo_body_tx_items : tx_items 2 demo_body_tx.
Proof.
  split_and!; [| |done].
  - eapply (skips_weaken 1); [|lia].
    exact (skips_map_of 0 id id (@nil (list Z * list Z)) ltac:(done) ltac:(by intros ? ? ?%elem_of_nil)).
  - eapply (skips_weaken 1); [by apply skips_bytes|lia].
Qed.

Lemma header_signature_witness :
  signed_fields (demo_wire_header hash_zero hash_zero)
  = signed_fields (demo_wire_header (replicate 32 9) hash_zero).
Proof.
  apply (header_signature_binds (demo_wire_header hash_zero hash_zero)
           (demo_wire_header (replicate 32 9) hash_zero)).
  - by apply demo_wire_header_fits.
  - by apply demo_wire_header_fits.
  - reflexivity.
Defined.

Lemma skip_total_witness :
  let data := [0x82; 0x01; 0x41; 0x05] in
  (∃ n, skip_cbor_value data = Ok n ∧ (1 ≤ n ≤ length data)%nat) ∨
  skip_cbor_value data = Err (CborErr CborDecode).
Proof. apply (skip_total [0x82; 0x01; 0x41; 0x05]). unfold bytes_ok. repeat constructor; lia. Defined.

Lemma skip_plutus_witness :
  let d := PdConstr 200 [PdInteger (2 ^ 70); PdMap [(PdList [], PdBytes [1])]] in
  skip_cbor_value (encode_plutus_data d ++ [1]) = Ok (length (encode_plutus_data d)).
Proof.
  apply (skip_plutus_data (PdConstr 200 [PdInteger (2 ^ 70); PdMap [(PdList [], PdBytes [1])]]) [1]).
  - cbn. unfold id, u64, u64_max, u32_max. repeat constructor; lia.
  - cbn. unfold CBOR_SKIP_MAX_DEPTH. lia.
Defined.

Lemma walkers_witness :
  let raw := [0x82; 0x18; 0x05; 0x84; 0x80; 0x80; 0x80; 0x80] in
  extract_block_body_cbor raw = body_bytes <$> extract_block_body_components raw ∧
  compute_block_body_size_from_cbor raw = body_bytes_size <$> extract_block_body_components raw.
Proof.
  apply (walkers_agree [0x82; 0x18; 0x05; 0x84; 0x80; 0x80; 0x80; 0x80]).
  unfold bytes_ok. repeat constructor; lia.
Defined.

Lemma forged_block_witness :
  validate_block_body_hash (wb_header demo_wire_block) (encode_block demo_wire_block [1]) = Ok tt.
Proof.
  apply (forged_block_verifies 2 demo_wire_block [1]).
  - unfold CBOR_SKIP_MAX_DEPTH. lia.
  - intros tx [->|[]%elem_of_nil]%elem_of_cons. apply demo_body_tx_items.
  - done.
  - apply demo_wire_header_fits. apply blake2b_256_length.
  - done.
  - done.
  - reflexivity.
Defined.

Lemma body_hash_witness :
  extract_block_body_components (encode_block demo_wire_block [1])
    = extract_block_body_components (encode_block demo_wire_block [2]) ∨
  ∃ x y, x ≠ y ∧ blake2b_256 x = blake2b_256 y.
Proof.
  apply (body_hash_binds (wb_header demo_wire_block) (encode_block demo_wire_block [1])
           (encode_block demo_wire_block [2])); vm_compute; reflexivity.
Defined.
