(* ===== verification/LeaderCheck.v ===== *)
(** * The slot leader check ([crates/dugite-crypto/src/vrf.rs], [leader_check])

    A pool leads a slot when its VRF value [p] satisfies
    [p < 1 - (1 - f) ^ sigma]. The code decides
    [1 / (1 - p) < exp (sigma * |ln (1 - f)|)] in integers scaled by [10 ^ 34]:
    [exp] by a bounded Taylor series, [ln] by a continued fraction. An [IBig]
    is a [Z]; its division truncates. [None] stands for a panic of the code (a
    division by zero, an exponent outside [i64]) or a loop that does not end
    within the fuel; the fuels are the iteration bounds of the code, and for the
    two searches of [find_e] the number of doublings an [i64] allows. *)

From Stdlib Require Import Reals Lra.
From S2P Require Import Prelude Bytes.
Local Open Scope Z_scope.


Definition PRECISION : Z := 10 ^ 34.
Definition EPS : Z := 10 ^ 10.
Definition ONE : Z := 1 * PRECISION.

Definition cert_nat_max : Z := 2 ^ 256.

Definition fp_div (x y : Z) : option Z :=
  if y =? 0 then None else
  let temp_q := Z.quot x y in
  let temp_r := Z.rem x y in
  let temp := temp_q * PRECISION in
  let q2 := Z.quot (temp_r * PRECISION) y in
  Some (temp + q2).

Definition fp_scale (rop : Z) : Z :=
  let a := Z.quot rop PRECISION in
  let remainder := Z.rem rop PRECISION in
  if (rop <? 0) && negb (remainder =? 0) then a - 1 else a.

(** At most two calls per bit of an [i64]. *)
Fixpoint ipow_inner (fuel : nat) (x n : Z) : option Z :=
  if n =? 0 then Some ONE else
  match fuel with
  | O => None
  | S fuel' =>
      if Z.rem n 2 =? 0 then
        res ← ipow_inner fuel' x (Z.quot n 2);
        Some (fp_scale (res * res))
      else
        res ← ipow_inner fuel' x (n - 1);
        Some (fp_scale (res * x))
  end.

Definition ipow (x n : Z) : option Z :=
  if n <? 0 then temp ← ipow_inner 128 x (- n); fp_div ONE temp
  else ipow_inner 128 x n.

Definition div_round_ceil (x y : Z) : option Z :=
  if y =? 0 then None else
  let q := Z.quot x y in
  let r := Z.rem x y in
  Some (if (0 <=? q) && negb (r =? 0) then q + 1 else q).

(** The loop of [mp_exp_taylor]; [fuel] is [max_n - n]. *)
Fixpoint exp_taylor_loop (fuel : nat) (x epsilon divisor last_x rop : Z) : option Z :=
  match fuel with
  | O => Some rop
  | S fuel' =>
      next_x ← fp_div (fp_scale (x * last_x)) divisor;
      if Z.abs next_x <? Z.abs epsilon then Some rop
      else exp_taylor_loop fuel' x epsilon (divisor + ONE) next_x (rop + next_x)
  end.

Definition mp_exp_taylor (max_n : nat) (x epsilon : Z) : option Z :=
  exp_taylor_loop max_n x epsilon ONE ONE ONE.

Definition i64_max : Z := 9223372036854775807.

(** [ref_exp] of a positive argument *)
Definition ref_exp_pos (x : Z) : option Z :=
  n_exponent ← div_round_ceil x PRECISION;
  if n_exponent =? 0 then None else
  rop ← mp_exp_taylor 1000 (Z.quot x n_exponent) EPS;
  if i64_max <? n_exponent then None else ipow rop n_exponent.

Definition ref_exp (x : Z) : option Z :=
  match x ?= 0 with
  | Eq => Some ONE
  | Lt => temp ← ref_exp_pos (- x); fp_div ONE temp
  | Gt => ref_exp_pos x
  end.

(** The loop of [mp_ln_n], [while n <= max_n + 2]; [last] is [None] in the
    first iteration. The result is the last convergent. *)
Fixpoint ln_loop (fuel : nat) (n x epsilon : Z) (last : option Z)
    (an_m2 bn_m2 an_m1 bn_m1 curr_a b_acc : Z) : option Z :=
  match fuel with
  | O => Some (default 0 last)
  | S fuel' =>
      let a := x * (curr_a * curr_a) in
      let curr_a := if (1 <? n) && (Z.rem n 2 =? 1) then curr_a + 1 else curr_a in
      let a_ := fp_scale (b_acc * an_m1) + fp_scale (a * an_m2) in
      let b_ := fp_scale (b_acc * bn_m1) + fp_scale (a * bn_m2) in
      convergent ← fp_div a_ b_;
      let stop := match last with
                  | None => false
                  | Some l => Z.abs (convergent - l) <? Z.abs epsilon
                  end in
      if stop then Some convergent
      else ln_loop fuel' (n + 1) x epsilon (Some convergent) an_m1 bn_m1 a_ b_ curr_a (b_acc + ONE)
  end.

Definition mp_ln_n (max_n : nat) (x epsilon : Z) : option Z :=
  ln_loop (max_n + 2) 1 x epsilon None ONE 0 0 ONE 1 ONE.

Definition E_const : option Z := ref_exp ONE.

(** The first loop of [find_e]: double the exponents until [e^l <= x <= e^u]. *)
Fixpoint find_e_widen (fuel : nat) (x x_ x__ l u : Z) : option (Z * Z) :=
  if (x <? x_) || (x__ <? x) then
    match fuel with
    | O => None
    | S fuel' => find_e_widen fuel' x (fp_scale (x_ * x_)) (fp_scale (x__ * x__)) (l * 2) (u * 2)
    end
  else Some (l, u).

Fixpoint find_e_bisect (fuel : nat) (e x l u : Z) : option Z :=
  if l + 1 =? u then Some l else
  match fuel with
  | O => None
  | S fuel' =>
      let mid := l + Z.quot (u - l) 2 in
      x_ ← ipow e mid;
      if x <? x_ then find_e_bisect fuel' e x l mid else find_e_bisect fuel' e x mid u
  end.

Definition find_e (x : Z) : option Z :=
  e ← E_const;
  x_ ← fp_div ONE e;
  '(l, u) ← find_e_widen 62 x x_ e (-1) 1;
  find_e_bisect 64 e x l u.

(** [rop] keeps its value, zero in the callers, for a non-positive argument. *)
Definition ref_ln (x : Z) : option Z :=
  if x <=? 0 then Some 0 else
  n ← find_e x;
  let rop := n * PRECISION in
  factor ← ref_exp rop;
  x_ ← fp_div x factor;
  x_ ← mp_ln_n 1000 (x_ - ONE) EPS;
  Some (rop + x_).

Inductive ExpCmpResult : Type := ExpGT | ExpLT | ExpUnknown.

#[global] Instance ExpCmpResult_eq_dec : EqDecision ExpCmpResult.
Proof. solve_decision. Defined.

(** The loop of [ref_exp_cmp]; [fuel] is [max_n - n]. *)
Fixpoint exp_cmp_loop (fuel : nat) (x bound_x compare rop divisor error : Z) : option ExpCmpResult :=
  match fuel with
  | O => Some ExpUnknown
  | S fuel' =>
      let next_x := error in
      if Z.abs next_x <? Z.abs EPS then Some ExpUnknown else
      let divisor := divisor + ONE in
      error ← fp_div (fp_scale (error * x)) divisor;
      let error_term := error * bound_x in
      let rop := rop + next_x in
      if rop + error_term <? compare then Some ExpGT
      else if compare <? rop - error_term then Some ExpLT
      else exp_cmp_loop fuel' x bound_x compare rop divisor error
  end.

Definition ref_exp_cmp (max_n : nat) (x bound_x compare : Z) : option ExpCmpResult :=
  exp_cmp_loop max_n x bound_x compare ONE ONE x.

(** [UBig::from_be_bytes(&vrf_output[..n])], or the whole output if shorter *)
Definition cert_nat_of (tpraos : bool) (vrf_output : list Z) : Z :=
  let n := if tpraos then 64%nat else 32%nat in
  if (n <=? length vrf_output)%nat then be_value (take n vrf_output) else be_value vrf_output.

Definition cert_max_of (tpraos : bool) : Z := if tpraos then 2 ^ 512 else cert_nat_max.

(** The part common to both checks, from [q] to the comparison. *)
Definition leader_compare (vrf_output : list Z) (sigma_num sigma_den c : Z) (tpraos : bool) : option bool :=
  let cert_max := cert_max_of tpraos in
  let cert_nat := cert_nat_of tpraos vrf_output in
  let q := cert_max - cert_nat in
  if q <=? 0 then Some false else
  recip_q ← fp_div cert_max q;
  let sigma_fp := Z.quot (sigma_num * PRECISION) sigma_den in
  let x := fp_scale (sigma_fp * c) in
  r ← ref_exp_cmp 1000 x 3 recip_q;
  Some (match r with ExpLT => true | ExpGT | ExpUnknown => false end).

Definition one_minus_f (f_num f_den : Z) : Z := Z.quot ((f_den - f_num) * PRECISION) f_den.

Definition check_leader_value_all_rational (vrf_output : list Z)
    (sigma_num sigma_den f_num f_den : Z) (tpraos : bool) : option bool :=
  if (sigma_num =? 0) || (sigma_den =? 0) then Some false else
  if (f_den =? 0) || (f_den <=? f_num) then Some true else
  if cert_max_of tpraos - cert_nat_of tpraos vrf_output <=? 0 then Some false else
  ln_one_minus_f ← ref_ln (one_minus_f f_num f_den);
  leader_compare vrf_output sigma_num sigma_den (- ln_one_minus_f) tpraos.

(** [CachedLog] is its field [c]. The outer option is the model's. *)
Definition compute_log (f_num f_den : Z) : option (option Z) :=
  if (f_num =? 0) || (f_den =? 0) || (f_den <=? f_num) then Some None else
  ln_one_minus_f ← ref_ln (one_minus_f f_num f_den);
  Some (Some (- ln_one_minus_f)).

Definition check_leader_value_with_cached_log (vrf_output : list Z)
    (sigma_num sigma_den log : Z) (tpraos : bool) : option bool :=
  if (sigma_num =? 0) || (sigma_den =? 0) then Some false else
  leader_compare vrf_output sigma_num sigma_den log tpraos.

(** The public wrappers *)
Definition check_leader_value_full_rational (vrf_output : list Z) (sigma_num sigma_den f_num f_den : Z) :=
  check_leader_value_all_rational vrf_output sigma_num sigma_den f_num f_den false.
Definition check_leader_value_tpraos_rational (vrf_output : list Z) (sigma_num sigma_den f_num f_den : Z) :=
  check_leader_value_all_rational vrf_output sigma_num sigma_den f_num f_den true.
Definition compute_active_slot_log (f_num f_den : Z) : option (option Z) := compute_log f_num f_den.
Definition check_leader_value_full_rational_cached (vrf_output : list Z) (sigma_num sigma_den log : Z) :=
  check_leader_value_with_cached_log vrf_output sigma_num sigma_den log false.
Definition check_leader_value_tpraos_rational_cached (vrf_output : list Z) (sigma_num sigma_den log : Z) :=
  check_leader_value_with_cached_log vrf_output sigma_num sigma_den log true.

(** * What the leader check decides

    The fixed-point comparison against the real exponential: a pool that the
    check elects is below the Praos threshold of the logarithm it computed, and
    eligibility is monotone in the VRF value. *)


(** ** Fixed-point operations on non-negative numbers *)

Lemma PRECISION_pos : 0 < PRECISION.
Proof. done. Qed.

#[local] Opaque PRECISION EPS.

(** Division rounds down: [y * (x / y) <= x * 10^34 < y * (x / y + 1)]. *)
Lemma fp_div_floor x y z :
  0 ≤ x → 0 < y → fp_div x y = Some z → z = x * PRECISION / y.
Proof.
  intros Hx Hy. unfold fp_div. destruct (Z.eqb_spec y 0); [lia|]. intros E. simplify_eq.
  pose proof PRECISION_pos. rewrite Z.quot_div_nonneg, Z.rem_mod_nonneg by lia.
  pose proof (Z.mod_pos_bound x y Hy). rewrite Z.quot_div_nonneg by nia.
  rewrite (Z.div_mod x y) at 3 by lia.
  rewrite Z.mul_add_distr_r, <- Z.mul_assoc, (Z.mul_comm y), Z.div_add_l by lia. done.
Qed.

Lemma fp_div_pos_some x y : 0 < y → ∃ z, fp_div x y = Some z.
Proof. intros. unfold fp_div. destruct (Z.eqb_spec y 0); [lia|eauto]. Qed.

Lemma fp_scale_floor a : 0 ≤ a → fp_scale a = a / PRECISION.
Proof.
  intros Ha. pose proof PRECISION_pos. unfold fp_scale. destruct (Z.ltb_spec a 0); [lia|]. cbn.
  apply Z.quot_div_nonneg; lia.
Qed.

(** ** The comparison loop *)

(** For a fixed argument a smaller number to compare with stays below. *)
Lemma exp_cmp_loop_mono fuel x b c c' rop divisor error :
  c' ≤ c → exp_cmp_loop fuel x b c rop divisor error = Some ExpLT →
  0 ≤ error → 0 ≤ x → 0 ≤ b → 0 < divisor →
  exp_cmp_loop fuel x b c' rop divisor error = Some ExpLT.
Proof.
  intros Hc. revert rop divisor error. pose proof PRECISION_pos as HP.
  induction fuel as [|fuel IH]; intros rop divisor error H He Hx Hb Hd; [done|].
  cbn [exp_cmp_loop] in *. destruct (Z.abs error <? Z.abs EPS); [done|].
  destruct (fp_div_pos_some (fp_scale (error * x)) (divisor + ONE)) as [z Hz]; [unfold ONE; lia|].
  rewrite Hz in *. cbn [mbind option_bind] in *.
  assert (0 ≤ z) as Hz0.
  { apply fp_div_floor in Hz as ->; [|rewrite fp_scale_floor by nia; apply Z.div_pos; nia|unfold ONE; lia].
    rewrite fp_scale_floor by nia. apply Z.div_pos; [|unfold ONE; lia].
    apply Z.mul_nonneg_nonneg; [apply Z.div_pos; nia|lia]. }
  cmp_cases; try done; try nia. by apply IH; unfold ONE; try lia.
Qed.

(** ** The real exponential *)

(** The terms and partial sums of the series. *)
Definition exp_term (t : R) (n : nat) : R := (/ INR (fact n) * t ^ n)%R.
Definition exp_sum (t : R) (n : nat) : R := sum_f_R0 (exp_term t) n.

Lemma exp_term_nonneg t n : (0 <= t)%R → (0 <= exp_term t n)%R.
Proof.
  intros Ht. unfold exp_term. apply Rmult_le_pos; [|by apply pow_le].
  left. apply Rinv_0_lt_compat, INR_fact_lt_0.
Qed.

Lemma exp_sum_le t n : (0 <= t)%R → (exp_sum t n <= exp t)%R.
Proof.
  intros Ht. apply sum_incr; [|intros; by apply exp_term_nonneg].
  unfold exp. destruct (exist_exp t) as [l Hl]. exact Hl.
Qed.

Lemma exp_term_S t n : exp_term t (S n) = (exp_term t n * t / INR (S n))%R.
Proof.
  unfold exp_term. rewrite fact_simpl, mult_INR. cbn [pow].
  field. split; [apply INR_fact_neq_0|apply not_0_INR; lia].
Qed.

(** A scaled integer as a real number. *)
Definition fpR (z : Z) : R := (IZR z / IZR PRECISION)%R.

Lemma precision_R : (0 < IZR PRECISION)%R.
Proof. apply IZR_lt. exact PRECISION_pos. Qed.

Lemma fpR_le a b : a ≤ b → (fpR a <= fpR b)%R.
Proof.
  intros H. unfold fpR. apply Rmult_le_compat_r; [|by apply IZR_le].
  left. apply Rinv_0_lt_compat, precision_R.
Qed.

Lemma fpR_nonneg a : 0 ≤ a → (0 <= fpR a)%R.
Proof. intros H. apply fpR_le in H. unfold fpR in *. unfold Rdiv in *. rewrite Rmult_0_l in H. done. Qed.

Lemma fpR_add a b : fpR (a + b) = (fpR a + fpR b)%R.
Proof. unfold fpR. rewrite plus_IZR. field. pose proof precision_R. lra. Qed.

Lemma fpR_one : fpR ONE = 1%R.
Proof. unfold fpR, ONE. rewrite Z.mul_1_l. field. pose proof precision_R. lra. Qed.

Lemma div_R_le a b : 0 < b → (IZR (a / b) <= IZR a / IZR b)%R.
Proof.
  intros Hb. assert (0 < IZR b)%R by by apply IZR_lt.
  apply (Rmult_le_reg_r (IZR b)); [done|]. unfold Rdiv. rewrite Rmult_assoc, Rinv_l, Rmult_1_r by lra.
  rewrite <- mult_IZR. apply IZR_le. pose proof (Z.mul_div_le a b Hb). lia.
Qed.

(** One step of the loop: the next term is rounded down. *)
Lemma error_step error x (n : nat) e' :
  0 ≤ error → 0 ≤ x → fp_div (fp_scale (error * x)) (Z.of_nat (S n) * PRECISION) = Some e' →
  0 ≤ e' ∧ (fpR e' <= fpR error * fpR x / INR (S n))%R.
Proof.
  intros He Hx Hz. pose proof PRECISION_pos as HP. pose proof precision_R as HPR.
  rewrite fp_scale_floor in Hz by nia. set (a := error * x / PRECISION) in *.
  assert (0 ≤ a) as Ha by (apply Z.div_pos; nia).
  apply fp_div_floor in Hz; [|done|nia]. rewrite Z.div_mul_cancel_r in Hz by lia.
  split; [subst e'; by apply Z.div_pos; lia|].
  assert (0 < INR (S n))%R as Hn by (apply lt_0_INR; lia).
  assert (IZR e' <= IZR a / INR (S n))%R as H1.
  { subst e'. rewrite INR_IZR_INZ. apply div_R_le. lia. }
  assert (IZR a <= IZR error * IZR x / IZR PRECISION)%R as H2.
  { unfold a. rewrite <- mult_IZR. by apply div_R_le. }
  unfold fpR. apply (Rmult_le_reg_r (IZR PRECISION * INR (S n))); [by apply Rmult_lt_0_compat|].
  replace (IZR e' / IZR PRECISION * (IZR PRECISION * INR (S n)))%R with (IZR e' * INR (S n))%R by (field; lra).
  replace (IZR error / IZR PRECISION * (IZR x / IZR PRECISION) / INR (S n) * (IZR PRECISION * INR (S n)))%R
    with (IZR error * IZR x / IZR PRECISION)%R by (field; lra).
  apply (Rmult_le_compat_r (INR (S n))) in H1; [|lra].
  replace (IZR a / INR (S n) * INR (S n))%R with (IZR a) in H1 by (field; lra). lra.
Qed.

(** When the loop answers "below", a unit of the last place lies between the
    number compared with and the exponential. *)
Lemma exp_cmp_loop_sound fuel x b c rop error (n : nat) :
  0 ≤ x → 0 ≤ b → 0 ≤ error →
  (fpR rop <= exp_sum (fpR x) n)%R → (fpR error <= exp_term (fpR x) (S n))%R →
  exp_cmp_loop fuel x b c rop (Z.of_nat (S n) * PRECISION) error = Some ExpLT →
  (fpR (c + 1) <= exp (fpR x))%R.
Proof.
  intros Hx Hb. revert rop error n. induction fuel as [|fuel IH]; intros rop error n He Hrop Herr H; [done|].
  cbn [exp_cmp_loop] in H. destruct (Z.abs error <? Z.abs EPS); [done|].
  replace (Z.of_nat (S n) * PRECISION + ONE) with (Z.of_nat (S (S n)) * PRECISION) in H by (unfold ONE; lia).
  destruct (fp_div _ _) as [e'|] eqn:Hz; [|done]. cbn [mbind option_bind] in H.
  destruct (error_step _ _ _ _ He Hx Hz) as [He' Hstep].
  assert (0 <= fpR x)%R as HxR by by apply fpR_nonneg.
  assert (fpR (rop + error) <= exp_sum (fpR x) (S n))%R as Hrop'.
  { rewrite fpR_add. unfold exp_sum in *. cbn [sum_f_R0]. lra. }
  cmp_cases; [done| |].
  - eapply Rle_trans; [|by apply (exp_sum_le _ (S n))]. eapply Rle_trans; [|exact Hrop'].
    apply fpR_le. nia.
  - apply (IH (rop + error) e' (S n)); [done|done| |done]. rewrite exp_term_S.
    eapply Rle_trans; [exact Hstep|]. unfold Rdiv. apply Rmult_le_compat_r.
    + left. apply Rinv_0_lt_compat, lt_0_INR. lia.
    + by apply Rmult_le_compat_r.
Qed.

Lemma ref_exp_cmp_sound max_n x b c :
  0 ≤ x → 0 ≤ b → ref_exp_cmp max_n x b c = Some ExpLT → (fpR (c + 1) <= exp (fpR x))%R.
Proof.
  intros Hx Hb. unfold ref_exp_cmp.
  replace ONE with (Z.of_nat 1 * PRECISION) at 2 by (unfold ONE; lia).
  apply (exp_cmp_loop_sound _ _ _ _ _ _ 0); [done..| |].
  - rewrite fpR_one. unfold exp_sum, exp_term. simpl. lra.
  - unfold exp_term. simpl. lra.
Qed.

(** ** Cached and uncached checks *)

Lemma check_uncached vrf sn sd fn fd tp c :
  compute_log fn fd = Some (Some c) →
  check_leader_value_all_rational vrf sn sd fn fd tp
  = check_leader_value_with_cached_log vrf sn sd c tp.
Proof.
  unfold compute_log, check_leader_value_all_rational, check_leader_value_with_cached_log.
  destruct (fn =? 0), (fd =? 0), (fd <=? fn); cbn [orb]; try done. intros E.
  destruct (ref_ln _) as [l|]; [|done]. cbn [mbind option_bind] in *. simplify_eq.
  destruct ((sn =? 0) || (sd =? 0)); [done|]. unfold leader_compare.
  by destruct (cert_max_of tp - cert_nat_of tp vrf <=? 0).
Qed.

(** What an elected VRF value means: the comparison with the scaled argument. *)
Lemma leader_compare_true vrf sn sd c tp :
  leader_compare vrf sn sd c tp = Some true →
  ∃ recip, cert_nat_of tp vrf < cert_max_of tp ∧
    fp_div (cert_max_of tp) (cert_max_of tp - cert_nat_of tp vrf) = Some recip ∧
    ref_exp_cmp 1000 (fp_scale (Z.quot (sn * PRECISION) sd * c)) 3 recip = Some ExpLT.
Proof.
  unfold leader_compare. destruct (Z.leb_spec (cert_max_of tp - cert_nat_of tp vrf) 0); [done|].
  destruct (fp_div _ _) as [recip|]; [|done]. cbn [mbind option_bind].
  destruct (ref_exp_cmp _ _ _ _) as [[]|] eqn:E; cbn [mbind option_bind]; intros H0; simplify_eq.
  exists recip. split; [lia|done].
Qed.

Lemma cert_max_pos tp : 0 < cert_max_of tp.
Proof. by destruct tp. Qed.

Lemma scaled_stake sn sd c :
  0 ≤ sn → 0 < sd → 0 ≤ c →
  0 ≤ fp_scale (Z.quot (sn * PRECISION) sd * c) ∧
  (fpR (fp_scale (Z.quot (sn * PRECISION) sd * c)) <= IZR sn / IZR sd * fpR c)%R.
Proof.
  intros Hs Hd Hc. pose proof PRECISION_pos as HP. pose proof precision_R as HPR.
  assert (0 < IZR sd)%R as Hd' by by apply IZR_lt.
  rewrite Z.quot_div_nonneg by nia. set (s := sn * PRECISION / sd).
  assert (0 ≤ s) by (apply Z.div_pos; nia). rewrite fp_scale_floor by nia.
  split; [apply Z.div_pos; nia|].
  assert (IZR s <= IZR sn * IZR PRECISION / IZR sd)%R as H1.
  { unfold s. rewrite <- mult_IZR. by apply div_R_le. }
  pose proof (div_R_le (s * c) PRECISION HP) as H2. rewrite mult_IZR in H2.
  assert (0 <= IZR c)%R by by apply IZR_le. unfold fpR.
  apply (Rmult_le_reg_r (IZR PRECISION)); [done|].
  replace (IZR (s * c / PRECISION) / IZR PRECISION * IZR PRECISION)%R
    with (IZR (s * c / PRECISION)) by (field; lra).
  eapply Rle_trans; [exact H2|].
  replace (IZR sn / IZR sd * (IZR c / IZR PRECISION) * IZR PRECISION)%R
    with (IZR sn * IZR PRECISION / IZR sd * IZR c / IZR PRECISION)%R by (field; lra).
  unfold Rdiv. apply Rmult_le_compat_r; [left; by apply Rinv_0_lt_compat|].
  apply Rmult_le_compat_r; [done|exact H1].
Qed.

(** The reciprocal is rounded down to the unit of the last place. *)
Lemma recip_bound m q recip :
  0 < q → 0 ≤ m → fp_div m q = Some recip → (IZR m / IZR q < fpR (recip + 1))%R.
Proof.
  intros Hq Hm H. apply fp_div_floor in H; [|done|done]. pose proof precision_R as HPR.
  assert (0 < IZR q)%R as Hq' by by apply IZR_lt.
  assert (IZR m * IZR PRECISION < IZR q * IZR (recip + 1))%R as H1.
  { rewrite <- !mult_IZR. apply IZR_lt. subst recip.
    pose proof (Z.mul_succ_div_gt (m * PRECISION) q Hq). lia. }
  unfold fpR. apply (Rmult_lt_reg_r (IZR q * IZR PRECISION)); [by apply Rmult_lt_0_compat|].
  replace (IZR m / IZR q * (IZR q * IZR PRECISION))%R with (IZR m * IZR PRECISION)%R by (field; lra).
  replace (IZR (recip + 1) / IZR PRECISION * (IZR q * IZR PRECISION))%R
    with (IZR q * IZR (recip + 1))%R by (field; lra). done.
Qed.

(** ** Theorems *)

(** C8: The leader check never elects a pool at or above the Praos threshold: when
    it answers yes, the VRF value as a fraction of its range is strictly below
    [1 - exp (- sigma * c)] over the real numbers, where [c] is the logarithm
    [|ln (1 - f)|] that the code computed; all roundings of the fixed-point
    arithmetic are on the safe side. *)
Theorem leader_below_threshold (vrf : list Z) (sn sd fn fd c : Z) (tp : bool) :
  0 < sn → 0 < sd → 0 ≤ cert_nat_of tp vrf → compute_log fn fd = Some (Some c) → 0 ≤ c →
  check_leader_value_all_rational vrf sn sd fn fd tp = Some true →
  (IZR (cert_nat_of tp vrf) / IZR (cert_max_of tp) < 1 - exp (- (IZR sn / IZR sd * fpR c)))%R.
Proof.
  intros Hs Hd Hv Hlog Hc H. rewrite (check_uncached _ _ _ _ _ _ _ Hlog) in H.
  unfold check_leader_value_with_cached_log in H. destruct ((sn =? 0) || (sd =? 0)); [done|].
  apply leader_compare_true in H as (recip & Hlt & Hdiv & Hcmp).
  set (m := cert_max_of tp) in *. set (v := cert_nat_of tp vrf) in *.
  destruct (scaled_stake sn sd c) as [Hx Hxle]; [lia|done|done|].
  apply ref_exp_cmp_sound in Hcmp; [|done|done].
  pose proof (recip_bound m (m - v) recip ltac:(lia) ltac:(pose proof (cert_max_pos tp); lia) Hdiv) as Hr.
  set (y := (IZR sn / IZR sd * fpR c)%R) in *.
  assert (IZR m / IZR (m - v) < exp y)%R as Hexp.
  { eapply Rlt_le_trans; [exact Hr|]. eapply Rle_trans; [exact Hcmp|].
    destruct Hxle as [Hl|Hl]; [left; by apply exp_increasing|rewrite Hl; apply Rle_refl]. }
  assert (0 < IZR m)%R as Hm by (apply IZR_lt, cert_max_pos).
  assert (0 < IZR (m - v))%R as Hq by (apply IZR_lt; lia).
  pose proof (exp_pos y). rewrite exp_Ropp, minus_IZR in *.
  apply (Rmult_lt_compat_r (/ exp y * (IZR m - IZR v) / IZR m)) in Hexp.
  - replace (IZR m / (IZR m - IZR v) * (/ exp y * (IZR m - IZR v) / IZR m))%R with (/ exp y)%R in Hexp by (field; lra).
    replace (exp y * (/ exp y * (IZR m - IZR v) / IZR m))%R with (1 - IZR v / IZR m)%R in Hexp by (field; lra). lra.
  - apply Rmult_lt_0_compat; [apply Rmult_lt_0_compat; [by apply Rinv_0_lt_compat|done]|by apply Rinv_0_lt_compat].
Qed.

(** Eligibility is monotone in the VRF value: when a value is elected for some
    stake and coefficient, every smaller value is elected too. *)
Theorem leader_monotone (v1 v2 : list Z) (sn sd fn fd : Z) (tp : bool) :
  0 < sn → 0 < sd → 0 ≤ cert_nat_of tp v2 ≤ cert_nat_of tp v1 →
  (∀ c, compute_log fn fd = Some (Some c) → 0 ≤ c) → 0 < fn →
  check_leader_value_all_rational v1 sn sd fn fd tp = Some true →
  check_leader_value_all_rational v2 sn sd fn fd tp = Some true.
Proof.
  intros Hs Hd Hv Hlog Hf H.
  destruct (compute_log fn fd) as [[c|]|] eqn:E.
  - specialize (Hlog c eq_refl). rewrite (check_uncached v1 _ _ _ _ _ _ E) in H.
    rewrite (check_uncached v2 _ _ _ _ _ _ E).
    unfold check_leader_value_with_cached_log in *. destruct ((sn =? 0) || (sd =? 0)); [done|].
    apply leader_compare_true in H as (recip & Hlt & Hdiv & Hcmp).
    destruct (scaled_stake sn sd c) as [Hx _]; [lia|done|done|].
    unfold leader_compare. destruct (Z.leb_spec (cert_max_of tp - cert_nat_of tp v2) 0); [lia|].
    destruct (fp_div_pos_some (cert_max_of tp) (cert_max_of tp - cert_nat_of tp v2)) as [r2 Hr2]; [lia|].
    rewrite Hr2. cbn [mbind option_bind].
    assert (r2 ≤ recip) as Hle.
    { pose proof (cert_max_pos tp). pose proof PRECISION_pos.
      apply fp_div_floor in Hr2 as ->; [|lia|lia]. apply fp_div_floor in Hdiv as ->; [|lia|lia].
      apply Z.div_le_compat_l; [nia|lia]. }
    unfold ref_exp_cmp in *. rewrite (exp_cmp_loop_mono _ _ _ _ _ _ _ _ Hle Hcmp); try done.
  - revert E H. unfold compute_log, check_leader_value_all_rational.
    destruct (Z.eqb_spec fn 0); [lia|]. destruct ((sn =? 0) || (sd =? 0)); [done|]. cbn [orb].
    destruct ((fd =? 0) || (fd <=? fn)); [done|]. by destruct (ref_ln _).
  - revert E H. unfold compute_log, check_leader_value_all_rational.
    destruct (Z.eqb_spec fn 0); [lia|]. destruct ((sn =? 0) || (sd =? 0)); [done|]. cbn [orb].
    destruct ((fd =? 0) || (fd <=? fn)); [done|].
    destruct (cert_max_of tp - cert_nat_of tp v1 <=? 0); [done|]. by destruct (ref_ln _).
Qed.
