(* ===== verification/SlotLeader.v ===== *)
(** * Keys, VRF inputs and the leader schedule

    The wrappers of [dugite-crypto] around the signature crates ([vrf.rs],
    [kes.rs], [keys.rs], [ocert.rs]) and [dugite-consensus/src/slot_leader.rs].
    The crates themselves are the class [Crypto]; [CryptoOk] states that an
    honest VRF proof verifies, with the documented lengths. *)

From S2P Require Import Prelude Bytes EraHistory Block ConsensusError Cbor CborSkip BlockCbor LeaderCheck.
Local Open Scope Z_scope.

Class Crypto := {
  (** [VrfProof03::from_bytes] accepts the bytes *)
  vrf03_proof_ok : list Z → bool;
  (** [VrfProof03::verify(public_key, seed)] *)
  vrf03_verify : list Z → list Z → list Z → option (list Z);
  (** the public key of a secret key; proof and output of [VrfProof03::generate] *)
  vrf03_public : list Z → list Z;
  vrf03_generate : list Z → list Z → list Z * list Z;
  (** [Sum6KesSig::from_bytes], [KesPublicKey::from_bytes], [Sum6KesSig::verify] *)
  kes_sig_ok : list Z → bool;
  kes_key_ok : list Z → bool;
  kes_sig_verify : Z → list Z → list Z → list Z → bool;
  (** [VerifyingKey::from_bytes] and [verify_strict] of [ed25519_dalek] *)
  ed25519_key_ok : list Z → bool;
  ed25519_verify_strict : list Z → list Z → list Z → bool;
}.

Class CryptoOk (C : Crypto) : Prop := {
  vrf03_public_length : ∀ sk, length (vrf03_public sk) = 32%nat;
  vrf03_proof_length : ∀ sk seed, length (vrf03_generate sk seed).1 = 80%nat;
  vrf03_output_length : ∀ sk seed, length (vrf03_generate sk seed).2 = 64%nat;
  vrf03_generate_ok : ∀ sk seed, vrf03_proof_ok (vrf03_generate sk seed).1 = true;
  vrf03_complete : ∀ sk seed,
    vrf03_verify (vrf03_public sk) (vrf03_generate sk seed).1 seed = Some (vrf03_generate sk seed).2;
}.

Section crypto.
Context {C : Crypto}.

(** [verify_vrf_proof] *)
Definition crypto_verify_vrf_proof (vrf_vkey proof seed : list Z) : result VrfError (list Z) :=
  if negb (length vrf_vkey =? 32)%nat then Err VrfInvalidPublicKey
  else if negb (length proof =? 80)%nat then Err VrfInvalidProof
  else if negb (vrf03_proof_ok proof) then Err VrfInvalidProof
  else match vrf03_verify vrf_vkey proof seed with
       | Some output => Ok output
       | None => Err VrfVerificationFailed
       end.

Definition generate_vrf_proof (secret_key seed : list Z) : result VrfError (list Z * list Z) :=
  Ok (vrf03_generate secret_key seed).

Definition kes_verify (pk : list Z) (period : Z) (sig message : list Z) : bool :=
  kes_key_ok pk && kes_sig_verify period pk sig message.

Definition kes_verify_bytes (pk : list Z) (period : Z) (sig message : list Z) : bool :=
  kes_sig_ok sig && kes_verify pk period sig message.

(** [PaymentVerificationKey::from_bytes] followed by [verify] *)
Definition ed25519_verify (key message signature : list Z) : bool :=
  (length key =? 32)%nat && ed25519_key_ok key &&
  (length signature =? 64)%nat && ed25519_verify_strict key message signature.

End crypto.

Definition ocert_signable_bytes (kes_vkey : list Z) (sequence_number kes_period : Z) : list Z :=
  kes_vkey ++ be_bytes 8 sequence_number ++ be_bytes 8 kes_period.

(** ** VRF inputs ([slot_leader.rs]) *)

Section inputs.
Context {BL : Blake2b}.

Definition vrf_input (epoch_nonce : Hash32) (slot : Z) : list Z :=
  blake2b_256 (be_bytes 8 slot ++ epoch_nonce).

(** [b'L'] and [b'N'] *)
Definition vrf_leader_value (vrf_output : list Z) : list Z := blake2b_256 (76 :: vrf_output).
Definition vrf_nonce_value (vrf_output : list Z) : list Z := blake2b_256 (blake2b_256 (78 :: vrf_output)).

Definition tpraos_tag_eta : list Z := blake2b_256 (be_bytes 8 0).
Definition tpraos_tag_l : list Z := blake2b_256 (be_bytes 8 1).

Definition tpraos_vrf_input (epoch_nonce : Hash32) (slot : Z) (tag : list Z) : list Z :=
  zip_with Z.lxor (blake2b_256 (be_bytes 8 slot ++ epoch_nonce)) tag.

Definition tpraos_leader_vrf_input (epoch_nonce : Hash32) (slot : Z) : list Z :=
  tpraos_vrf_input epoch_nonce slot tpraos_tag_l.
Definition tpraos_nonce_vrf_input (epoch_nonce : Hash32) (slot : Z) : list Z :=
  tpraos_vrf_input epoch_nonce slot tpraos_tag_eta.

Definition is_slot_leader_rational (vrf_output : list Z) (sigma_num sigma_den f_num f_den : Z) : option bool :=
  check_leader_value_full_rational (vrf_leader_value vrf_output) sigma_num sigma_den f_num f_den.

(** ** The schedule *)

Record LeaderSlot := mkLeaderSlot {
  ls_slot : Z;
  ls_vrf_output : list Z;
  ls_vrf_proof : list Z;
}.

Context {C : Crypto}.

(** The body of the loop: the entry of one slot, if the pool leads it. *)
Definition schedule_slot (vrf_skey : list Z) (epoch_nonce : Hash32) (pool_stake total_active_stake : Z)
    (all_slots_active : bool) (active_slot_log : Z) (slot : Z) : option (option LeaderSlot) :=
  match generate_vrf_proof vrf_skey (vrf_input epoch_nonce slot) with
  | Err _ => Some None
  | Ok (proof, output) =>
      is_leader ← (if all_slots_active then Some true
                   else check_leader_value_full_rational_cached (vrf_leader_value output)
                          pool_stake total_active_stake active_slot_log);
      Some (if is_leader : bool then Some (mkLeaderSlot slot output proof) else None)
  end.

Fixpoint schedule_loop (body : Z → option (option LeaderSlot)) (slots : list Z) : option (list LeaderSlot) :=
  match slots with
  | [] => Some []
  | slot :: rest =>
      entry ← body slot;
      entries ← schedule_loop body rest;
      Some (match entry with Some e => e :: entries | None => entries end)
  end.

Definition epoch_slots (epoch_start_slot epoch_length : Z) : list Z :=
  (λ offset, wrapping_add64 epoch_start_slot offset) <$> seqZ 0 epoch_length.

(** The outer [None] is a panic of the leader arithmetic. *)
Definition compute_leader_schedule (vrf_skey : list Z) (epoch_nonce : Hash32)
    (epoch_start_slot epoch_length pool_stake total_active_stake f_num f_den : Z) : option (list LeaderSlot) :=
  if (pool_stake =? 0) || (total_active_stake =? 0) then Some [] else
  if f_num =? 0 then Some [] else
  let all_slots_active := f_den <=? f_num in
  log ← (if negb all_slots_active then compute_active_slot_log f_num f_den
         else compute_active_slot_log 1 2);
  match log with
  | None => Some []
  | Some active_slot_log =>
      schedule_loop
        (schedule_slot vrf_skey epoch_nonce pool_stake total_active_stake all_slots_active active_slot_log)
        (epoch_slots epoch_start_slot epoch_length)
  end.

End inputs.
