(* ===== verification/Praos.v ===== *)
(** * Header validation ([crates/dugite-consensus/src/praos.rs], [forecast.rs],
    [epoch.rs], [lib.rs])

    The engine [OuroborosPraos] and its checks, in the order of the source. A
    check is pure or, where the code takes [&mut self], a function to its result
    and the engine it leaves: the opcert counters that were recorded before an
    error stay recorded. The signature crates are [Crypto], Blake2b is
    [Blake2b]; of floating point the code uses the text of a number and a
    fallback formula, which the class [Float64] carries. *)

From S2P Require Import Prelude Bytes EraHistory Block Overlay ConsensusError Cbor CborSkip BlockCbor LeaderCheck SlotLeader RecordUpdate.
Local Open Scope Z_scope.
Local Open Scope record_scope.

(** ** Stability windows and forecasts *)

Class Float64 := {
  F64 : Type;
  f64_finite : F64 → bool;
  f64_le_zero : F64 → bool;
  (** [format!("{f}")], as character codes *)
  f64_display : F64 → list Z;
  (** the fallback of [stability_window_slots], computed in [f64] *)
  f64_window : Z → F64 → Z;
  (** [protocol_params::f64_to_rational], computed in [f64] *)
  f64_to_rational : F64 → Z * Z;
}.

Definition u128_max : Z := 2 ^ 128 - 1.
Definition wrap128 (x : Z) : Z := x mod 2 ^ 128.
Definition div_ceil (a b : Z) : Z := (a + b - 1) / b.

(** [str::parse::<u128>] on a string of digits *)
Definition parse_u128 (s : list Z) : option Z :=
  if bool_decide (s = []) then None
  else if forallb (λ c, (48 <=? c) && (c <=? 57)) s then
    let v := foldl (λ acc c, 10 * acc + (c - 48)) 0 s in
    if v <=? u128_max then Some v else None
  else None.

(** [str::split_once('.')] *)
Fixpoint split_once (c : Z) (s : list Z) : option (list Z * list Z) :=
  match s with
  | [] => None
  | x :: s' => if x =? c then Some ([], s') else
      '(a, b) ← split_once c s'; Some (x :: a, b)
  end.

Section windows.
Context {FL : Float64}.

Definition f64_to_decimal_rational (f : F64) : option (Z * Z) :=
  if negb (f64_finite f) || f64_le_zero f then None else
  let s := f64_display f in
  if existsb (λ c, (c =? 101) || (c =? 69)) s then None else
  let '(int_part, frac_part) := default (s, []) (split_once 46 s) in
  if (30 <? length frac_part)%nat then None else
  let den := 10 ^ Z.of_nat (length frac_part) in
  int_val ← parse_u128 int_part;
  frac_val ← (if bool_decide (frac_part = []) then Some 0 else parse_u128 frac_part);
  if u128_max <? int_val * den then None
  else if u128_max <? int_val * den + frac_val then None
  else let num := int_val * den + frac_val in
       if num =? 0 then None else Some (num, den).

Definition stability_window_slots (k : Z) (f : F64) : Z :=
  if f64_le_zero f then u64_max else
  match f64_to_decimal_rational f with
  | Some (num, den) =>
      let ceiled := div_ceil (wrap128 (wrap128 (3 * k) * den)) num in
      if ceiled <=? u64_max then ceiled else f64_window k f
  | None => f64_window k f
  end.

End windows.

(** [None] is the failed assertion. *)
Definition ceiling_div_by_rational (multiplier k f_num f_den : Z) : option Z :=
  if 0 <? f_num then
    Some (wrap64 (div_ceil (wrap128 (wrap128 (multiplier * k) * f_den)) f_num))
  else None.

Definition forecast_for (at_ : option Z) (stability_window requested : Z) : result OutsideForecastRange unit :=
  let succ_at := match at_ with Some s => saturating_add64 s 1 | None => 0 end in
  let max_for := saturating_add64 succ_at stability_window in
  if requested <? max_for then Ok tt else Err (mkOutside at_ max_for requested).

(** [epoch.rs] *)
Definition compute_epoch_nonce `{BL : Blake2b} (prev_nonce eta_v : Hash32) : Hash32 :=
  blake2b_256 (prev_nonce ++ eta_v).

Definition in_nonce_contribution_window (slot epoch_length stability_window : Z) : bool :=
  match checked_rem64 slot epoch_length with
  | Some slot_in_epoch => slot_in_epoch <? stability_window
  | None => false
  end.

(** ** Data *)

Definition KES_PERIOD_SLOTS : Z := 129600.
Definition MAX_KES_EVOLUTIONS : Z := 62.
Definition CLOCK_SKEW_SLOTS : Z := 2.
Definition SECURITY_PARAM : Z := 2160.
Definition MAX_OPCERT_ENTRIES : nat := 50000.

Record BlockIssuerInfo := mkIssuer {
  vrf_keyhash : Hash32;
  pool_stake : Z;
  total_active_stake : Z;
}.

Inductive ValidationMode : Type := FullMode | ReplayMode.

Record OverlayContext := mkOverlay {
  genesis_delegates : gmap (list Z) (list Z * Hash32);
  genesis_keys : list (list Z);
  oc_d : Z * Z;
  first_slot_of_epoch : Z;
}.

Record CryptoVerificationParams := mkCryptoParams {
  cp_strict_verification : bool;
  cp_slots_per_kes_period : Z;
  cp_max_kes_evolutions : Z;
}.

Record OuroborosPraos `{FL : Float64} := mkPraos {
  pr_active_slot_coeff : F64;
  pr_active_slot_coeff_rational : Z * Z;
  pr_security_param : Z;
  pr_epoch_length : Z;
  pr_slots_per_kes_period : Z;
  pr_max_kes_evolutions : Z;
  pr_tip : Tip;
  pr_strict_verification : bool;
  pr_snapshots_established : bool;
  pr_checkpoints : gmap Z Hash32;
  pr_max_major_prot_ver : Z;
  pr_opcert_counters : gmap (list Z) Z;
  pr_opcert_upper_bound_advisory : bool;
}.

#[global] Instance praos_fields `{FL : Float64} : Fields OuroborosPraos :=
  λ p, mkPraos _ (pr_active_slot_coeff p) (pr_active_slot_coeff_rational p) (pr_security_param p)
    (pr_epoch_length p) (pr_slots_per_kes_period p) (pr_max_kes_evolutions p) (pr_tip p)
    (pr_strict_verification p) (pr_snapshots_established p) (pr_checkpoints p)
    (pr_max_major_prot_ver p) (pr_opcert_counters p) (pr_opcert_upper_bound_advisory p).

(** A check passes, rejects with an error, or panics. *)
Inductive praos_fault : Type :=
| PraosPanic
| Reject (e : ConsensusError).

#[global] Instance praos_fault_eq_dec : EqDecision praos_fault.
Proof. solve_decision. Defined.

Abbreviation check := (result praos_fault unit).

Definition pass : check := Ok tt.
Definition reject (e : ConsensusError) : check := Err (Reject e).

(** [if bad { return Err(e) }] *)
Definition ensure (ok : bool) (e : ConsensusError) : check := if ok then pass else reject e.

(** [if bad { if strict { return Err(e) } }]: fatal only in strict mode *)
Definition ensure_strict (strict ok : bool) (e : ConsensusError) : check :=
  if negb ok && strict then reject e else pass.

(** ** Field sizes *)

(** The macro [check_field!]: empty fields are skipped. *)
Definition check_field (strict : bool) (field : HeaderField) (value : list Z) (expected : Z) : check :=
  let actual := Z.of_nat (length value) in
  ensure_strict strict ((actual =? 0) || (actual =? expected)) (MalformedHeaderField field expected actual).

Definition check_header_field_sizes (header : BlockHeader) (strict : bool) : check :=
  check_field strict FIssuerVkey (issuer_vkey header) 32;;
  check_field strict FVrfVkey (vrf_vkey header) 32;;
  check_field strict FVrfOutput (vrf_output (vrf_result header)) 64;;
  check_field strict FOpcertSigma (oc_sigma (operational_cert header)) 64;;
  check_field strict FOpcertHotVkey (hot_vkey (operational_cert header)) 32;;
  check_field strict FKesSignature (kes_signature header) 448;;
  if is_tpraos header then
    check_field strict FNonceVrfProof (nonce_vrf_proof header) 80;;
    check_field strict FNonceVrfOutput (nonce_vrf_output header) 64
  else pass.

Section praos.
Context {FL : Float64} {BL : Blake2b} {C : Crypto}.
Implicit Types self : OuroborosPraos.

(** ** Construction and setters *)

Definition with_genesis_params (active_slot_coeff : F64) (security_param epoch_length
    slots_per_kes_period max_kes_evolutions max_major_prot_ver : Z) : OuroborosPraos :=
  mkPraos _ active_slot_coeff (f64_to_rational active_slot_coeff) security_param epoch_length
    slots_per_kes_period max_kes_evolutions tip_origin false false ∅ max_major_prot_ver ∅ false.

Definition with_params (active_slot_coeff : F64) (security_param epoch_length max_major_prot_ver : Z) :=
  with_genesis_params active_slot_coeff security_param epoch_length KES_PERIOD_SLOTS MAX_KES_EVOLUTIONS
    max_major_prot_ver.

Definition set_strict_verification (strict : bool) self : OuroborosPraos :=
  self <| pr_strict_verification := strict |>.
Definition set_checkpoints (checkpoints : gmap Z Hash32) self : OuroborosPraos :=
  self <| pr_checkpoints := checkpoints |>.
Definition set_opcert_counters (counters : gmap (list Z) Z) self : OuroborosPraos :=
  self <| pr_opcert_counters := counters |>.
Definition update_tip (tip : Tip) self : OuroborosPraos := self <| pr_tip := tip |>.

(** [HashMap::retain] *)
Definition prune_opcert_counters (active_pool_ids : gset (list Z)) self : OuroborosPraos :=
  self <| pr_opcert_counters ::= filter (λ kv, kv.1 ∈ active_pool_ids) |>.

Definition crypto_params self : CryptoVerificationParams :=
  mkCryptoParams (pr_strict_verification self) (pr_slots_per_kes_period self) (pr_max_kes_evolutions self).

(** ** Cryptographic checks *)

Definition leader_seed (header : BlockHeader) : list Z :=
  if is_tpraos header then tpraos_leader_vrf_input (epoch_nonce header) (hdr_slot header)
  else vrf_input (epoch_nonce header) (hdr_slot header).

Definition verify_vrf_proof self (header : BlockHeader) : check :=
  let vrf_is_fatal := pr_strict_verification self in
  match crypto_verify_vrf_proof (vrf_vkey header) (vrf_proof (vrf_result header)) (leader_seed header) with
  | Ok output =>
      ensure_strict vrf_is_fatal
        (negb ((length (vrf_output (vrf_result header)) =? 64)%nat &&
               negb (bool_decide (vrf_output (vrf_result header) = output))))
        (InvalidBlock VrfOutputMismatch)
  | Err e => ensure_strict vrf_is_fatal false (VrfVerification false e)
  end.

Definition verify_nonce_vrf_proof self (header : BlockHeader) : check :=
  if negb (is_tpraos header) then pass else
  let vrf_is_fatal := pr_strict_verification self in
  let seed := tpraos_nonce_vrf_input (epoch_nonce header) (hdr_slot header) in
  match crypto_verify_vrf_proof (vrf_vkey header) (nonce_vrf_proof header) seed with
  | Ok output =>
      ensure_strict vrf_is_fatal
        (negb ((length (nonce_vrf_output header) =? 64)%nat &&
               negb (bool_decide (nonce_vrf_output header = output))))
        (InvalidBlock NonceVrfOutputMismatch)
  | Err e => ensure_strict vrf_is_fatal false (VrfVerification true e)
  end.

Definition validate_kes_period self (header : BlockHeader) : check :=
  match checked_div64 (hdr_slot header) (pr_slots_per_kes_period self) with
  | None => reject (InvalidBlock KesPeriodLengthZero)
  | Some block_kes_period =>
      let cert_kes_period := kes_period (operational_cert header) in
      ensure (cert_kes_period <=? block_kes_period) (KesPeriodBeforeCert block_kes_period cert_kes_period);;
      let kes_evolutions := block_kes_period - cert_kes_period in
      ensure (kes_evolutions <? pr_max_kes_evolutions self)
        (KesExpired block_kes_period cert_kes_period (pr_max_kes_evolutions self))
  end.

Definition verify_opcert_signature (cold_vkey hot_vkey : list Z) (sequence_number kes_period : Z)
    (signature : list Z) : bool :=
  ed25519_verify cold_vkey (ocert_signable_bytes hot_vkey sequence_number kes_period) signature.

Definition validate_operational_cert self (header : BlockHeader) : check :=
  let opcert := operational_cert header in
  ensure (negb (bool_decide (hot_vkey opcert = []))) InvalidOperationalCert;;
  ensure (negb (bool_decide (oc_sigma opcert = []))) InvalidOperationalCert;;
  if (length (issuer_vkey header) =? 32)%nat && (length (oc_sigma opcert) =? 64)%nat then
    ensure_strict (pr_strict_verification self)
      (verify_opcert_signature (issuer_vkey header) (hot_vkey opcert) (sequence_number opcert)
         (kes_period opcert) (oc_sigma opcert)) InvalidOperationalCert
  else pass.

(** From the size test on; [body] is the signed message. *)
Definition kes_signature_check (strict : bool) (slots_per_kes_period : Z) (header : BlockHeader)
    (body : list Z) : check :=
  if bool_decide (kes_signature header = []) then pass else
  let opcert := operational_cert header in
  if negb (length (hot_vkey opcert) =? 32)%nat || negb (length (kes_signature header) =? 448)%nat
  then ensure_strict strict false InvalidKesSignature else
  match checked_div64 (hdr_slot header) slots_per_kes_period with
  | None => reject InvalidKesSignature
  | Some block_kes_period =>
      let kes_period_offset := saturating_sub64 block_kes_period (kes_period opcert) in
      ensure (kes_period_offset <=? u32_max) (InvalidBlock (KesOffsetTooLarge kes_period_offset));;
      ensure_strict strict
        (kes_verify_bytes (hot_vkey opcert) kes_period_offset (kes_signature header) body)
        InvalidKesSignature
  end.

Definition verify_kes_signature self (header : BlockHeader) : check :=
  kes_signature_check (pr_strict_verification self) (pr_slots_per_kes_period self) header
    (match raw_header_body header with
     | Some bytes => bytes
     | None => encode_block_header_body header
     end).

(** The four checks that both entry points run in [Full] mode *)
Definition crypto_checks self (header : BlockHeader) (mode : ValidationMode) : check :=
  match mode with
  | FullMode =>
      verify_vrf_proof self header;;
      verify_nonce_vrf_proof self header;;
      validate_operational_cert self header;;
      verify_kes_signature self header
  | ReplayMode => pass
  end.

(** ** Operational certificate counters *)

Definition record_opcert_counter (pool_id : list Z) (n : Z) self : OuroborosPraos :=
  if (size (pr_opcert_counters self) <? MAX_OPCERT_ENTRIES)%nat ||
     bool_decide (is_Some (pr_opcert_counters self !! pool_id)) then
    self <| pr_opcert_counters ::= λ counters,
      match counters !! pool_id with
      | Some v => <[pool_id := if v <? n then n else v]> counters
      | None => <[pool_id := n]> counters
      end |>
  else self.

(** [currentIssueNo] *)
Definition current_issue_no (pool_id : list Z) (issuer_info : option BlockIssuerInfo) self : option Z :=
  match pr_opcert_counters self !! pool_id with
  | Some stored => Some stored
  | None => if issuer_info then Some 0 else None
  end.

Definition check_opcert_counter (header : BlockHeader) (issuer_info : option BlockIssuerInfo) self :
    check * OuroborosPraos :=
  if bool_decide (issuer_vkey header = []) then (pass, self) else
  let pool_id := blake2b_224 (issuer_vkey header) in
  let n := sequence_number (operational_cert header) in
  let recorded := record_opcert_counter pool_id n self in
  match current_issue_no pool_id issuer_info self with
  | None => (pass, recorded)
  | Some m =>
      if n <? m then
        if pr_strict_verification self then (reject (OpcertSequenceRegression n m), self)
        else (pass, recorded)
      else if negb (is_tpraos header) && (saturating_add64 m 1 <? n) then
        if pr_opcert_upper_bound_advisory self then (reject (OpcertCounterOverIncremented n m), recorded)
        else if pr_strict_verification self then (reject (OpcertCounterOverIncremented n m), self)
        else (pass, recorded)
      else (pass, recorded)
  end.

(** [self.check_opcert_counter(..)?; ...]: the later checks see the engine with
    the recorded counter, and an error leaves it so. *)
Definition run_tail_checks (header : BlockHeader) (issuer_info : option BlockIssuerInfo)
    (mode : ValidationMode) self : check * OuroborosPraos :=
  let '(r, self) := check_opcert_counter header issuer_info self in
  (r;; validate_kes_period self header;; crypto_checks self header mode, self).

(** ** [validate_header] *)

Definition check_checkpoint self (header : BlockHeader) : check :=
  match pr_checkpoints self !! block_number header with
  | Some expected =>
      ensure (bool_decide (header_hash header = expected))
        (CheckpointMismatch (block_number header) expected (header_hash header))
  | None => pass
  end.

Definition check_future (header : BlockHeader) (current_slot : Z) : check :=
  ensure (hdr_slot header <=? saturating_add64 current_slot CLOCK_SKEW_SLOTS)
    (FutureBlock current_slot (hdr_slot header)).

Definition check_keys_present (header : BlockHeader) : check :=
  ensure (negb (bool_decide (issuer_vkey header = []))) EmptyIssuerVkey;;
  ensure (negb (bool_decide (vrf_vkey header = []))) EmptyVrfKey.

Definition check_protocol_version self (ledger_pv_major : option Z) : check :=
  match ledger_pv_major with
  | Some pv_major => ensure (pv_major <=? pr_max_major_prot_ver self)
                       (ObsoleteNode pv_major (pr_max_major_prot_ver self))
  | None => pass
  end.

Definition validate_header self (header : BlockHeader) (current_slot : Z) (mode : ValidationMode)
    (ledger_pv_major : option Z) : check :=
  check_checkpoint self header;;
  check_future header current_slot;;
  check_keys_present header;;
  check_header_field_sizes header (pr_strict_verification self);;
  check_protocol_version self ledger_pv_major;;
  validate_kes_period self header;;
  crypto_checks self header mode.

(** ** [validate_header_full] *)

Definition check_forecast self (header : BlockHeader) (ledger_tip_slot : option Z) : check :=
  match ledger_tip_slot with
  | None => pass
  | Some tip =>
      let stability_window := stability_window_slots (pr_security_param self) (pr_active_slot_coeff self) in
      match forecast_for (Some tip) stability_window (hdr_slot header) with
      | Ok _ => pass
      | Err e => reject (OutsideForecast e)
      end
  end.

(** What the overlay schedule says of the header's slot: [Some None] is the
    Praos path, the outer [None] a panic. *)
Definition overlay_slot self (overlay_ctx : option OverlayContext) (header : BlockHeader) :
    option (option OBftSlot) :=
  match overlay_ctx with
  | None => Some None
  | Some ctx =>
      let '(d_num, d_den) := oc_d ctx in
      if (0 <? d_num) && (0 <? d_den) then
        let '(f_num, f_den) := pr_active_slot_coeff_rational self in
        lookup_in_overlay_schedule (first_slot_of_epoch ctx) (genesis_keys ctx) d_num d_den f_num f_den
          (hdr_slot header)
      else Some None
  end.

(** The issuer and the VRF key of an active overlay slot *)
Definition check_delegate self (header : BlockHeader) (genesis_key delegate_key_hash : list Z)
    (delegate_vrf_hash : Hash32) : check :=
  let strict := pr_strict_verification self in
  let issuer_hash := blake2b_224 (issuer_vkey header) in
  ensure_strict strict (bool_decide (issuer_hash = delegate_key_hash))
    (WrongGenesisDelegate genesis_key issuer_hash);;
  if (length (vrf_vkey header) =? 32)%nat then
    let header_vrf_hash := blake2b_256 (vrf_vkey header) in
    ensure_strict strict (bool_decide (header_vrf_hash = delegate_vrf_hash))
      (GenesisVrfKeyMismatch delegate_vrf_hash header_vrf_hash)
  else pass.

Definition check_registered self (header : BlockHeader) (issuer_info : option BlockIssuerInfo) : check :=
  match issuer_info with
  | None => ensure_strict (pr_strict_verification self) false
              (UnregisteredPool (blake2b_224 (issuer_vkey header)))
  | Some _ => pass
  end.

Definition check_vrf_binding self (header : BlockHeader) (info : BlockIssuerInfo) : check :=
  if (length (vrf_vkey header) =? 32)%nat then
    ensure_strict (pr_strict_verification self)
      (bool_decide (blake2b_256 (vrf_vkey header) = vrf_keyhash info)) VrfKeyMismatch
  else pass.

Definition leader_verdict self (header : BlockHeader) (info : BlockIssuerInfo) : option bool :=
  let output := vrf_output (vrf_result header) in
  let '(f_num, f_den) := pr_active_slot_coeff_rational self in
  if negb (is_tpraos header) then
    check_leader_value_full_rational (vrf_leader_value output) (pool_stake info)
      (total_active_stake info) f_num f_den
  else
    check_leader_value_tpraos_rational output (pool_stake info) (total_active_stake info) f_num f_den.

Definition check_leader self (header : BlockHeader) (info : BlockIssuerInfo) : check :=
  if (length (vrf_output (vrf_result header)) =? 64)%nat then
    match leader_verdict self header info with
    | None => Err PraosPanic
    | Some is_leader =>
        ensure_strict (pr_strict_verification self && pr_snapshots_established self) is_leader
          (InvalidBlock (LeaderCheckFailed (hdr_slot header) (pv_major (protocol_version header))))
    end
  else pass.

(** Steps 2 and 3 *)
Definition pool_checks self (header : BlockHeader) (issuer_info : option BlockIssuerInfo) : check :=
  check_registered self header issuer_info;;
  match issuer_info with
  | None => pass
  | Some info => check_vrf_binding self header info;; check_leader self header info
  end.

(** Step 1 *)
Definition structural_checks self (header : BlockHeader) (current_slot : Z) (ledger_pv_major : option Z)
    (ledger_tip_slot : option Z) : check :=
  check_future header current_slot;;
  check_keys_present header;;
  check_header_field_sizes header (pr_strict_verification self);;
  check_protocol_version self ledger_pv_major;;
  check_forecast self header ledger_tip_slot.

(** [c?; k] where [k] takes [&mut self] *)
Definition then_state (c : check) self (k : OuroborosPraos → check * OuroborosPraos) :
    check * OuroborosPraos :=
  match c with Ok _ => k self | Err e => (Err e, self) end.

Definition validate_header_full (header : BlockHeader) (current_slot : Z)
    (issuer_info : option BlockIssuerInfo) (overlay_ctx : option OverlayContext) (mode : ValidationMode)
    (ledger_pv_major ledger_tip_slot : option Z) self : check * OuroborosPraos :=
  then_state (structural_checks self header current_slot ledger_pv_major ledger_tip_slot) self (λ self,
  match overlay_slot self overlay_ctx header with
  | None => (Err PraosPanic, self)
  | Some (Some NonActiveSlot) =>
      (ensure_strict (pr_strict_verification self) false (NotActiveOverlaySlot (hdr_slot header)), self)
  | Some (Some (ActiveSlot genesis_key)) =>
      match overlay_ctx ≫= λ ctx, genesis_delegates ctx !! genesis_key with
      | None =>
          then_state (ensure_strict (pr_strict_verification self) false (UnknownGenesisKey genesis_key)) self
            (run_tail_checks header issuer_info mode)
      | Some (delegate_key_hash, delegate_vrf_hash) =>
          then_state (check_delegate self header genesis_key delegate_key_hash delegate_vrf_hash) self
            (run_tail_checks header issuer_info mode)
      end
  | Some None =>
      then_state (pool_checks self header issuer_info) self (run_tail_checks header issuer_info mode)
  end).

(** [self] is cloned: only the counters of the peer change. *)
Definition validate_header_full_with_counters self (peer_counters : gmap (list Z) Z)
    (header : BlockHeader) (current_slot : Z) (issuer_info : option BlockIssuerInfo)
    (overlay_ctx : option OverlayContext) (mode : ValidationMode)
    (ledger_pv_major ledger_tip_slot : option Z) : check * gmap (list Z) Z :=
  let temp := self <| pr_opcert_counters := peer_counters |> <| pr_opcert_upper_bound_advisory := true |> in
  let '(result, temp) := validate_header_full header current_slot issuer_info overlay_ctx mode
                           ledger_pv_major ledger_tip_slot temp in
  (result, pr_opcert_counters temp).

Definition validate_envelope (body_size : Z) (header_cbor_size : option Z)
    (max_block_body_size max_block_header_size : Z) : check :=
  ensure (body_size <=? max_block_body_size) (BlockBodyTooLarge body_size max_block_body_size);;
  match header_cbor_size with
  | Some header_size =>
      ensure (header_size <=? max_block_header_size) (BlockHeaderTooLarge header_size max_block_header_size)
  | None => pass
  end.

(** ** The standalone checks *)

Definition verify_vrf_proof_static (params : CryptoVerificationParams) (header : BlockHeader) : check :=
  match crypto_verify_vrf_proof (vrf_vkey header) (vrf_proof (vrf_result header)) (leader_seed header) with
  | Ok output =>
      ensure_strict (cp_strict_verification params)
        (negb ((length (vrf_output (vrf_result header)) =? 64)%nat &&
               negb (bool_decide (vrf_output (vrf_result header) = output))))
        (InvalidBlock VrfOutputMismatch)
  | Err e => ensure_strict (cp_strict_verification params) false (VrfVerification false e)
  end.

Definition verify_opcert_static (params : CryptoVerificationParams) (header : BlockHeader) : check :=
  let opcert := operational_cert header in
  ensure (negb (bool_decide (hot_vkey opcert = []))) InvalidOperationalCert;;
  ensure (negb (bool_decide (oc_sigma opcert = []))) InvalidOperationalCert;;
  if (length (issuer_vkey header) =? 32)%nat && (length (oc_sigma opcert) =? 64)%nat then
    ensure_strict (cp_strict_verification params)
      (verify_opcert_signature (issuer_vkey header) (hot_vkey opcert) (sequence_number opcert)
         (kes_period opcert) (oc_sigma opcert)) InvalidOperationalCert
  else pass.

Definition verify_kes_signature_static (params : CryptoVerificationParams) (header : BlockHeader) : check :=
  kes_signature_check (cp_strict_verification params) (cp_slots_per_kes_period params) header
    (encode_block_header_body header).

Definition verify_header_crypto (params : CryptoVerificationParams) (header : BlockHeader) : check :=
  check_header_field_sizes header (cp_strict_verification params);;
  verify_vrf_proof_static params header;;
  verify_opcert_static params header;;
  verify_kes_signature_static params header.

(** ** Windows of the engine *)

Definition stability_window_for_version self (protocol_major : Z) : option Z :=
  let multiplier := if 10 <=? protocol_major then 4 else 3 in
  let '(f_num, f_den) := pr_active_slot_coeff_rational self in
  ceiling_div_by_rational multiplier (pr_security_param self) f_num f_den.

Definition stability_window self : option Z := stability_window_for_version self 0.

Definition is_in_stability_window self (slot : Z) : option bool :=
  match point_slot (tip_point (pr_tip self)) with
  | Some tip_slot => w ← stability_window self; Some (saturating_sub64 tip_slot w <=? slot)
  | None => Some true
  end.

(** The [None]s are divisions by zero. *)
Definition praos_slot_to_epoch self (slot : Z) : option Z := checked_div64 slot (pr_epoch_length self).
Definition praos_epoch_first_slot self (epoch : Z) : Z := wrapping_mul64 epoch (pr_epoch_length self).
Definition is_epoch_boundary self (slot : Z) : bool :=
  if pr_epoch_length self =? 0 then slot =? 0 else slot mod pr_epoch_length self =? 0.
Definition max_rollback self : Z := pr_security_param self.

(** ** Eager validation of a peer's headers ([dugite-node/src/node/sync.rs]) *)

Definition seed_peer_counter_from_global (peer_counters global_counters : gmap (list Z) Z)
    (pool_id : list Z) : gmap (list Z) Z :=
  match peer_counters !! pool_id, global_counters !! pool_id with
  | None, Some seeded => <[pool_id := seeded]> peer_counters
  | _, _ => peer_counters
  end.

Definition classify_eager_validation_result (r : check) : result praos_fault bool :=
  match r with
  | Ok _ => Ok true
  | Err (Reject (OpcertCounterOverIncremented _ _)) => Ok false
  | Err (Reject (OutsideForecast _)) => Ok false
  | Err e => Err e
  end.

Definition decide_skip_apply_header_crypto (flag_enabled : bool) (current_epoch : Z)
    (recorded_epoch_for_hash : option Z) : bool * bool :=
  if negb flag_enabled then (false, false) else
  match recorded_epoch_for_hash with
  | Some epoch => if epoch =? current_epoch then (true, true) else (false, true)
  | None => (false, false)
  end.

(** The end of [eager_validate_header], for a decoded header whose issuer was
    looked up: the counter is seeded and the header is checked in replay mode at
    its own slot, without an overlay context. *)
Definition eager_validate self (peer_counters : gmap (list Z) Z) (header : BlockHeader)
    (issuer_info : option BlockIssuerInfo) (ledger_pv_major ledger_tip_slot : option Z) :
    result praos_fault bool * gmap (list Z) Z :=
  let pool_id := blake2b_224 (issuer_vkey header) in
  let peer_counters := seed_peer_counter_from_global peer_counters (pr_opcert_counters self) pool_id in
  let '(result, peer_counters) :=
    validate_header_full_with_counters self peer_counters header (hdr_slot header) issuer_info None
      ReplayMode ledger_pv_major ledger_tip_slot in
  (classify_eager_validation_result result, peer_counters).

End praos.
