(* ===== verification/PraosChecks.v ===== *)
(** * Lemmas about the header checks

    When a sequence of checks passes, what each check of a strict engine means,
    and the opcert counters. *)

From S2P Require Import Prelude Bytes EraHistory Block Overlay ConsensusError Cbor CborSkip BlockCbor LeaderCheck SlotLeader RecordUpdate Praos.
Local Open Scope Z_scope.

(** ** Sequences of checks *)

Lemma ensure_pass ok e : ensure ok e = pass ↔ ok = true.
Proof. by destruct ok. Qed.

Lemma ensure_strict_pass ok e : ensure_strict true ok e = pass ↔ ok = true.
Proof. by destruct ok. Qed.

Lemma ensure_lenient ok e : ensure_strict false ok e = pass.
Proof. by destruct ok. Qed.

Lemma seq_pass (a b : check) : (a;; b) = pass ↔ a = pass ∧ b = pass.
Proof. destruct a as [[]|e]; cbn; split; try done; by intros []. Qed.

Lemma seq_assoc (a b c : check) : ((a;; b);; c) = (a;; b;; c).
Proof. by destruct a. Qed.

(** ** Field sizes in strict mode *)

Definition absent_or (n : nat) (value : list Z) : Prop := value = [] ∨ length value = n.

Lemma check_field_pass field value (n : nat) :
  check_field true field value (Z.of_nat n) = pass ↔ absent_or n value.
Proof.
  unfold check_field, absent_or. rewrite ensure_strict_pass, orb_true_iff, !Z.eqb_eq.
  destruct value; simpl; split; intros [?|?]; try lia; auto; try done; right; lia.
Qed.

Definition sizes_ok (header : BlockHeader) : Prop :=
  absent_or 32 (issuer_vkey header) ∧ absent_or 32 (vrf_vkey header) ∧
  absent_or 64 (vrf_output (vrf_result header)) ∧ absent_or 64 (oc_sigma (operational_cert header)) ∧
  absent_or 32 (hot_vkey (operational_cert header)) ∧ absent_or 448 (kes_signature header) ∧
  (is_tpraos header = true → absent_or 80 (nonce_vrf_proof header) ∧ absent_or 64 (nonce_vrf_output header)).

Lemma check_header_field_sizes_pass header :
  check_header_field_sizes header true = pass ↔ sizes_ok header.
Proof.
  unfold check_header_field_sizes, sizes_ok. rewrite !seq_pass.
  rewrite (check_field_pass _ _ 32), (check_field_pass _ _ 32), (check_field_pass _ _ 64),
    (check_field_pass _ _ 64), (check_field_pass _ _ 32), (check_field_pass _ _ 448).
  destruct (is_tpraos header).
  - rewrite seq_pass, (check_field_pass _ _ 80), (check_field_pass _ _ 64). naive_solver.
  - naive_solver.
Qed.

(** ** The checks of a strict engine *)

Section strict.
Context {FL : Float64} {BL : Blake2b} {C : Crypto}.
Implicit Types self : OuroborosPraos.

Lemma verify_vrf_proof_pass self header :
  pr_strict_verification self = true →
  verify_vrf_proof self header = pass ↔
  ∃ output, crypto_verify_vrf_proof (vrf_vkey header) (vrf_proof (vrf_result header)) (leader_seed header)
              = Ok output ∧
    (length (vrf_output (vrf_result header)) = 64%nat → vrf_output (vrf_result header) = output).
Proof.
  intros Hs. unfold verify_vrf_proof. rewrite Hs.
  destruct (crypto_verify_vrf_proof _ _ _) as [output|e].
  - rewrite ensure_strict_pass, negb_true_iff, andb_false_iff, Nat.eqb_neq, negb_false_iff, bool_decide_eq_true.
    split.
    + intros H. exists output. split; [done|]. by destruct H.
    + intros (o & [= <-] & H). destruct (decide (length (vrf_output (vrf_result header)) = 64%nat)); auto.
  - split; [done|]. by intros (? & ? & _).
Qed.

Lemma verify_nonce_vrf_proof_pass self header :
  pr_strict_verification self = true →
  verify_nonce_vrf_proof self header = pass ↔
  (is_tpraos header = true → ∃ output,
    crypto_verify_vrf_proof (vrf_vkey header) (nonce_vrf_proof header)
      (tpraos_nonce_vrf_input (epoch_nonce header) (hdr_slot header)) = Ok output ∧
    (length (nonce_vrf_output header) = 64%nat → nonce_vrf_output header = output)).
Proof.
  intros Hs. unfold verify_nonce_vrf_proof. rewrite Hs. destruct (is_tpraos header); cbn [negb]; [|naive_solver].
  destruct (crypto_verify_vrf_proof _ _ _) as [output|e].
  - rewrite ensure_strict_pass, negb_true_iff, andb_false_iff, Nat.eqb_neq, negb_false_iff, bool_decide_eq_true.
    split.
    + intros H _. exists output. split; [done|]. by destruct H.
    + intros H. destruct (H eq_refl) as (o & [= <-] & H').
      destruct (decide (length (nonce_vrf_output header) = 64%nat)); auto.
  - split; [done|]. intros H. by destruct (H eq_refl) as (? & ? & _).
Qed.

Lemma validate_kes_period_pass self header :
  0 ≤ hdr_slot header → 0 ≤ pr_slots_per_kes_period self →
  validate_kes_period self header = pass ↔
  0 < pr_slots_per_kes_period self ∧
  kes_period (operational_cert header) ≤ hdr_slot header / pr_slots_per_kes_period self <
    kes_period (operational_cert header) + pr_max_kes_evolutions self.
Proof.
  intros Hs Hp. unfold validate_kes_period, checked_div64.
  destruct (Z.eqb_spec (pr_slots_per_kes_period self) 0); [split; [done|lia]|].
  rewrite seq_pass, !ensure_pass, Z.leb_le, Z.ltb_lt. lia.
Qed.

Lemma validate_operational_cert_pass self header :
  pr_strict_verification self = true → sizes_ok header → issuer_vkey header ≠ [] →
  validate_operational_cert self header = pass ↔
  hot_vkey (operational_cert header) ≠ [] ∧ oc_sigma (operational_cert header) ≠ [] ∧
  verify_opcert_signature (issuer_vkey header) (hot_vkey (operational_cert header))
    (sequence_number (operational_cert header)) (kes_period (operational_cert header))
    (oc_sigma (operational_cert header)) = true.
Proof.
  intros Hs (Hi & _ & _ & Hsig & _) Hne. unfold validate_operational_cert.
  rewrite !seq_pass, !ensure_pass, !negb_true_iff, !bool_decide_eq_false, Hs.
  destruct Hi as [|Hi]; [done|]. rewrite Hi. cbn [Nat.eqb andb].
  destruct Hsig as [E|E].
  - rewrite E. split; [naive_solver|]. intros (_ & ? & _). done.
  - rewrite E. cbn [Nat.eqb]. rewrite ensure_strict_pass. done.
Qed.

(** The signed message *)
Definition signed_body (header : BlockHeader) : list Z :=
  match raw_header_body header with Some bytes => bytes | None => encode_block_header_body header end.

Lemma verify_kes_signature_pass self header :
  pr_strict_verification self = true → sizes_ok header →
  hot_vkey (operational_cert header) ≠ [] → 0 < pr_slots_per_kes_period self →
  verify_kes_signature self header = pass ↔
  kes_signature header = [] ∨
  let offset := saturating_sub64 (hdr_slot header / pr_slots_per_kes_period self)
                  (kes_period (operational_cert header)) in
  offset ≤ u32_max ∧
  kes_verify_bytes (hot_vkey (operational_cert header)) offset (kes_signature header) (signed_body header) = true.
Proof.
  intros Hs (_ & _ & _ & _ & Hh & Hk & _) Hne Hp. unfold verify_kes_signature, kes_signature_check.
  fold (signed_body header). rewrite Hs. destruct Hh as [|Hh]; [done|].
  destruct Hk as [E|E]; [rewrite bool_decide_true by done; naive_solver|].
  rewrite bool_decide_false by (intros E'; by rewrite E' in E).
  rewrite Hh, E. cbn [Nat.eqb negb orb]. unfold checked_div64.
  destruct (Z.eqb_spec (pr_slots_per_kes_period self) 0); [lia|].
  rewrite seq_pass, ensure_pass, ensure_strict_pass, Z.leb_le.
  split; [by right|]. intros [E'|H]; [by rewrite E' in E|done].
Qed.

(** ** Counters *)

(** The opcert counter that validation expects of a known pool *)
Definition counter_of self (pool_id : list Z) : Z := default 0 (pr_opcert_counters self !! pool_id).

Definition counter_ok self (header : BlockHeader) : Prop :=
  let n := sequence_number (operational_cert header) in
  let m := counter_of self (blake2b_224 (issuer_vkey header)) in
  m ≤ n ∧ (is_tpraos header = false → n ≤ saturating_add64 m 1).

Lemma check_opcert_counter_pass self header info :
  pr_strict_verification self = true → issuer_vkey header ≠ [] →
  (check_opcert_counter header (Some info) self).1 = pass ↔ counter_ok self header.
Proof.
  intros Hs Hne. unfold check_opcert_counter, counter_ok, counter_of, current_issue_no.
  rewrite bool_decide_false by done. set (p := blake2b_224 _).
  assert (match pr_opcert_counters self !! p with Some stored => Some stored | None => Some 0 end
    = Some (default 0 (pr_opcert_counters self !! p))) as -> by by destruct (_ !! p).
  rewrite Hs. destruct (Z.ltb_spec (sequence_number (operational_cert header))
    (default 0 (pr_opcert_counters self !! p))); cbn [fst].
  { split; [done|]. intros [? _]. lia. }
  destruct (is_tpraos header); cbn [negb andb fst]; [split; [by split|done]|].
  destruct (Z.ltb_spec (saturating_add64 (default 0 (pr_opcert_counters self !! p)) 1)
    (sequence_number (operational_cert header))).
  - destruct (pr_opcert_upper_bound_advisory self); cbn [fst]; split; try done.
    all: intros [_ H']; specialize (H' eq_refl); lia.
  - cbn [fst]. split; [by split|done].
Qed.

(** Whatever the outcome, counters only grow, and only that of the issuer
    changes. *)
Definition counters_le (c1 c2 : gmap (list Z) Z) : Prop :=
  ∀ p v, c1 !! p = Some v → ∃ v', c2 !! p = Some v' ∧ v ≤ v'.

#[global] Instance counters_le_preorder : PreOrder counters_le.
Proof.
  split.
  - intros c p v H. eauto with lia.
  - intros c1 c2 c3 H1 H2 p v H. destruct (H1 _ _ H) as (v' & H' & ?).
    destruct (H2 _ _ H') as (v'' & ? & ?). exists v''. split; [done|lia].
Qed.

Lemma record_opcert_counter_le p n self :
  counters_le (pr_opcert_counters self) (pr_opcert_counters (record_opcert_counter p n self)).
Proof.
  unfold record_opcert_counter. destruct (_ || _); [|reflexivity]. cbn. intros q v Hq.
  destruct (pr_opcert_counters self !! p) as [w|] eqn:E; destruct (decide (q = p)) as [->|Hne].
  - rewrite lookup_insert_eq. simplify_eq. eexists. split; [done|]. cmp_cases; lia.
  - rewrite lookup_insert_ne by done. eauto with lia.
  - congruence.
  - rewrite lookup_insert_ne by done. eauto with lia.
Qed.

(** The fields other than the counters *)
Definition same_settings self self' : Prop :=
  ∃ counters, self' = set_opcert_counters counters self.

Lemma set_counters_same self : set_opcert_counters (pr_opcert_counters self) self = self.
Proof. by destruct self. Qed.

Lemma record_same_settings p n self : same_settings self (record_opcert_counter p n self).
Proof.
  unfold record_opcert_counter. destruct (_ || _).
  - by eexists.
  - exists (pr_opcert_counters self). by rewrite set_counters_same.
Qed.

Lemma check_opcert_counter_state header info self :
  let self' := (check_opcert_counter header info self).2 in
  self' = self ∨
  self' = record_opcert_counter (blake2b_224 (issuer_vkey header)) (sequence_number (operational_cert header)) self.
Proof.
  unfold check_opcert_counter. repeat (case_match; cbn [snd]; auto).
Qed.

Lemma check_opcert_counter_recorded header info self :
  (check_opcert_counter header (Some info) self).1 = pass → issuer_vkey header ≠ [] →
  (check_opcert_counter header (Some info) self).2
  = record_opcert_counter (blake2b_224 (issuer_vkey header)) (sequence_number (operational_cert header)) self.
Proof.
  intros H Hne. revert H. unfold check_opcert_counter. rewrite bool_decide_false by done.
  repeat (case_match; cbn [fst snd]; try done).
Qed.

(** ** The tail of both validators *)

Lemma run_tail_checks_state header info mode self :
  (run_tail_checks header info mode self).2 = (check_opcert_counter header info self).2.
Proof. unfold run_tail_checks. by destruct (check_opcert_counter header info self). Qed.

Lemma run_tail_checks_result header info mode self :
  (run_tail_checks header info mode self).1
  = ((check_opcert_counter header info self).1;;
     validate_kes_period (check_opcert_counter header info self).2 header;;
     crypto_checks (check_opcert_counter header info self).2 header mode).
Proof. unfold run_tail_checks. by destruct (check_opcert_counter header info self). Qed.

(** Recording a counter does not change the other checks. *)
Lemma same_settings_checks self self' header mode :
  same_settings self self' →
  validate_kes_period self' header = validate_kes_period self header ∧
  crypto_checks self' header mode = crypto_checks self header mode.
Proof. by intros [counters ->]. Qed.

Lemma counter_state_same header info self :
  same_settings self (check_opcert_counter header info self).2.
Proof.
  destruct (check_opcert_counter_state header info self) as [-> | ->].
  - exists (pr_opcert_counters self). by rewrite set_counters_same.
  - apply record_same_settings.
Qed.

Lemma run_tail_checks_result' header info mode self :
  (run_tail_checks header info mode self).1
  = ((check_opcert_counter header info self).1;; validate_kes_period self header;; crypto_checks self header mode).
Proof.
  rewrite run_tail_checks_result.
  destruct (same_settings_checks self _ header mode (counter_state_same header info self)) as [-> ->]. done.
Qed.

End strict.
