(* ===== verification/PraosTheorems.v ===== *)
(** * Theorems about header validation

    What a strict engine accepts, what it records, and the ways in which the
    code departs from what its comments promise. *)

From S2P Require Import Prelude Bytes EraHistory Block Overlay ConsensusError Cbor CborSkip BlockCbor LeaderCheck SlotLeader RecordUpdate Praos PraosChecks.
Local Open Scope Z_scope.


Section theorems.
Context {FL : Float64} {BL : Blake2b} {C : Crypto}.
Implicit Types self : OuroborosPraos.

(** ** Acceptance *)

(** The first slot that the ledger at [tip] cannot forecast *)
Definition forecast_end self (tip : Z) : Z :=
  saturating_add64 (saturating_add64 tip 1)
    (stability_window_slots (pr_security_param self) (pr_active_slot_coeff self)).

(** What a strict engine with established snapshots requires of a header outside
    the overlay schedule. An absent VRF output or KES signature is not checked. *)
Record header_acceptable self (header : BlockHeader) (current_slot : Z) (info : BlockIssuerInfo)
    (ledger_pv_major ledger_tip_slot : option Z) : Prop := {
  ha_not_future : hdr_slot header ≤ saturating_add64 current_slot CLOCK_SKEW_SLOTS;
  ha_issuer : issuer_vkey header ≠ [];
  ha_vrf_key : vrf_vkey header ≠ [];
  ha_sizes : sizes_ok header;
  ha_version : ∀ v, ledger_pv_major = Some v → v ≤ pr_max_major_prot_ver self;
  ha_forecast : ∀ tip, ledger_tip_slot = Some tip → hdr_slot header < forecast_end self tip;
  ha_binding : blake2b_256 (vrf_vkey header) = vrf_keyhash info;
  ha_leader : vrf_output (vrf_result header) ≠ [] → leader_verdict self header info = Some true;
  ha_counter : counter_ok self header;
  ha_kes_period : 0 < pr_slots_per_kes_period self ∧
    kes_period (operational_cert header) ≤ hdr_slot header / pr_slots_per_kes_period self <
      kes_period (operational_cert header) + pr_max_kes_evolutions self;
  ha_vrf : ∃ output,
    crypto_verify_vrf_proof (vrf_vkey header) (vrf_proof (vrf_result header)) (leader_seed header) = Ok output ∧
    (vrf_output (vrf_result header) = [] ∨ vrf_output (vrf_result header) = output);
  ha_nonce : is_tpraos header = true → ∃ output,
    crypto_verify_vrf_proof (vrf_vkey header) (nonce_vrf_proof header)
      (tpraos_nonce_vrf_input (epoch_nonce header) (hdr_slot header)) = Ok output ∧
    (nonce_vrf_output header = [] ∨ nonce_vrf_output header = output);
  ha_opcert : hot_vkey (operational_cert header) ≠ [] ∧ oc_sigma (operational_cert header) ≠ [] ∧
    verify_opcert_signature (issuer_vkey header) (hot_vkey (operational_cert header))
      (sequence_number (operational_cert header)) (kes_period (operational_cert header))
      (oc_sigma (operational_cert header)) = true;
  ha_kes : kes_signature header = [] ∨
    let offset := saturating_sub64 (hdr_slot header / pr_slots_per_kes_period self)
                    (kes_period (operational_cert header)) in
    offset ≤ u32_max ∧
    kes_verify_bytes (hot_vkey (operational_cert header)) offset (kes_signature header) (signed_body header) = true;
}.

Lemma structural_checks_pass self header current_slot pv tip :
  pr_strict_verification self = true →
  structural_checks self header current_slot pv tip = pass ↔
  hdr_slot header ≤ saturating_add64 current_slot CLOCK_SKEW_SLOTS ∧
  (issuer_vkey header ≠ [] ∧ vrf_vkey header ≠ []) ∧ sizes_ok header ∧
  (∀ v, pv = Some v → v ≤ pr_max_major_prot_ver self) ∧
  (∀ t, tip = Some t → hdr_slot header < forecast_end self t).
Proof.
  intros Hs. unfold structural_checks, check_future, check_keys_present. rewrite Hs.
  rewrite !seq_pass, !ensure_pass, !negb_true_iff, !bool_decide_eq_false, Z.leb_le,
    check_header_field_sizes_pass.
  unfold check_protocol_version, check_forecast, forecast_for.
  destruct pv as [v|], tip as [t|]; fold (forecast_end self t) || idtac.
  all: try rewrite ensure_pass, Z.leb_le.
  all: try (destruct (Z.ltb_spec (hdr_slot header) (forecast_end self t))).
  all: naive_solver lia.
Qed.

Lemma check_leader_pass self header info :
  pr_strict_verification self = true → pr_snapshots_established self = true → sizes_ok header →
  check_leader self header info = pass ↔
  (vrf_output (vrf_result header) ≠ [] → leader_verdict self header info = Some true).
Proof.
  intros Hs He (_ & _ & Ho & _). unfold check_leader. rewrite Hs, He. cbn [andb].
  destruct Ho as [E|E].
  - rewrite E. split; [|done]. intros _ H. done.
  - rewrite E. cbn [Nat.eqb]. assert (vrf_output (vrf_result header) ≠ []) by (intros E'; by rewrite E' in E).
    destruct (leader_verdict self header info) as [[]|]; naive_solver.
Qed.

Lemma pool_checks_pass self header info :
  pr_strict_verification self = true → pr_snapshots_established self = true → sizes_ok header →
  vrf_vkey header ≠ [] →
  pool_checks self header (Some info) = pass ↔
  blake2b_256 (vrf_vkey header) = vrf_keyhash info ∧
  (vrf_output (vrf_result header) ≠ [] → leader_verdict self header info = Some true).
Proof.
  intros Hs He Hsz Hne. unfold pool_checks, check_registered, check_vrf_binding.
  rewrite !seq_pass, check_leader_pass by done.
  destruct Hsz as (_ & [|Hv] & _); [done|]. rewrite Hv, Hs. cbn [Nat.eqb].
  rewrite ensure_strict_pass, bool_decide_eq_true. naive_solver.
Qed.

Lemma absent_or_output (n : nat) (value output : list Z) :
  absent_or n value → (length value = n → value = output) → value = [] ∨ value = output.
Proof. intros [->|H] Ho; auto. Qed.

(** Outside the overlay schedule the validator is the two pure stages and then
    the tail. *)
Lemma validate_full_pool self header current_slot info ctx mode pv tip :
  overlay_slot self ctx header = Some None →
  validate_header_full header current_slot info ctx mode pv tip self
  = then_state (structural_checks self header current_slot pv tip) self (λ self,
    then_state (pool_checks self header info) self (run_tail_checks header info mode)).
Proof.
  intros Ho. unfold validate_header_full. destruct (structural_checks _ _ _ _ _); [|done].
  cbn [then_state]. by rewrite Ho.
Qed.

(** A strict engine knows the issuer of every header that it passes on. *)
Lemma pool_checks_registered self header issuer_info :
  pr_strict_verification self = true → pool_checks self header issuer_info = pass →
  ∃ info, issuer_info = Some info.
Proof.
  intros Hs. unfold pool_checks, check_registered. rewrite Hs.
  destruct issuer_info as [info|]; [by exists info|done].
Qed.

Lemma then_state_pass c self k :
  (then_state c self k).1 = pass ↔ c = pass ∧ (k self).1 = pass.
Proof. destruct c as [[]|]; cbn; naive_solver. Qed.

Lemma header_accepted self (header : BlockHeader) (current_slot : Z) (info : BlockIssuerInfo)
    (ctx : option OverlayContext) (pv tip : option Z) :
  pr_strict_verification self = true → pr_snapshots_established self = true →
  overlay_slot self ctx header = Some None →
  0 ≤ hdr_slot header → 0 ≤ pr_slots_per_kes_period self →
  (validate_header_full header current_slot (Some info) ctx FullMode pv tip self).1 = pass ↔
  header_acceptable self header current_slot info pv tip.
Proof.
  intros Hs He Hov H0 Hp. rewrite validate_full_pool, !then_state_pass, run_tail_checks_result' by done.
  unfold crypto_checks. rewrite !seq_pass, structural_checks_pass by done. split.
  - intros ((Hf & (Hi & Hv) & Hsz & Hpv & Htip) & Hpool & Hc & Hk & Hvrf & Hn & Hop & Hkes).
    apply (pool_checks_pass self header info Hs He Hsz Hv) in Hpool as [Hb Hl].
    apply (check_opcert_counter_pass self header info Hs Hi) in Hc.
    apply (validate_kes_period_pass self header H0 Hp) in Hk.
    apply verify_vrf_proof_pass in Hvrf as (o & Ho & Heq); [|done].
    rewrite (verify_nonce_vrf_proof_pass self header Hs) in Hn.
    apply (validate_operational_cert_pass self header Hs Hsz Hi) in Hop.
    apply verify_kes_signature_pass in Hkes; [|done|done|by destruct Hop|by destruct Hk].
    pose proof Hsz as (_ & _ & Hout & _ & _ & _ & Hnon).
    split; try done.
    + exists o. split; [done|]. by eapply absent_or_output.
    + intros Ht. destruct (Hn Ht) as (o' & Ho' & Heq'). exists o'. split; [done|].
      destruct (Hnon Ht) as [_ ?]. by eapply absent_or_output.
  - intros [Hf Hi Hv Hsz Hpv Htip Hb Hl Hc Hk Hvrf Hn Hop Hkes].
    split_and!; try done.
    + apply pool_checks_pass; done.
    + by apply check_opcert_counter_pass.
    + by apply validate_kes_period_pass.
    + apply verify_vrf_proof_pass; [done|]. destruct Hvrf as (o & Ho & [E|E]); exists o; split; try done.
      by rewrite E.
    + apply verify_nonce_vrf_proof_pass; [done|]. intros Ht. destruct (Hn Ht) as (o & Ho & [E|E]);
        exists o; split; try done. by rewrite E.
    + by apply validate_operational_cert_pass.
    + apply verify_kes_signature_pass; try done; [by destruct Hop|by destruct Hk].
Qed.

(** The fields of a header that neither the KES signature alone nor the ledger
    checks: everything but number, parent, body, hash and signature. The VRF
    output may be absent. *)
Definition same_claims (h h' : BlockHeader) : Prop :=
  hdr_slot h' = hdr_slot h ∧ issuer_vkey h' = issuer_vkey h ∧ vrf_vkey h' = vrf_vkey h ∧
  epoch_nonce h' = epoch_nonce h ∧ operational_cert h' = operational_cert h ∧
  protocol_version h' = protocol_version h ∧ nonce_vrf_output h' = nonce_vrf_output h ∧
  nonce_vrf_proof h' = nonce_vrf_proof h ∧ vrf_proof (vrf_result h') = vrf_proof (vrf_result h).

Lemma same_claims_tpraos h h' : same_claims h h' → is_tpraos h' = is_tpraos h.
Proof. intros (_ & _ & _ & _ & _ & Hv & _ & Hn & _). unfold is_tpraos. by rewrite Hv, Hn. Qed.

Lemma acceptable_unsigned self h h' current_slot info info' pv tip :
  header_acceptable self h current_slot info pv tip → same_claims h h' → kes_signature h' = [] →
  (vrf_output (vrf_result h') = [] ∨ info' = info ∧ vrf_output (vrf_result h') = vrf_output (vrf_result h)) →
  vrf_keyhash info' = vrf_keyhash info →
  header_acceptable self h' current_slot info' pv tip.
Proof.
  intros [Hf Hi Hv Hsz Hpv Htip Hb Hl Hc Hk Hvrf Hn Hop Hkes] Hsame Hsig Hout Hkey.
  pose proof (same_claims_tpraos _ _ Hsame) as Ht.
  destruct Hsame as (E1 & E2 & E3 & E4 & E5 & E6 & E7 & E8 & E9).
  assert (leader_seed h' = leader_seed h) as Hseed by (unfold leader_seed; by rewrite Ht, E1, E4).
  destruct Hsz as (S1 & S2 & S3 & S4 & S5 & S6 & S7).
  split; rewrite ?E1, ?E2, ?E3, ?E4, ?E5, ?E7, ?E8, ?E9, ?Ht, ?Hseed, ?Hkey; try done.
  - unfold sizes_ok. rewrite E2, E3, E5, E7, E8, Ht, Hsig. split_and!; try done; [|by left].
    destruct Hout as [-> |[_ ->]]; [by left|done].
  - intros Hne. destruct Hout as [|[-> Eo]]; [done|]. rewrite <- Hl by by rewrite <- Eo.
    unfold leader_verdict. by rewrite Ht, Eo.
  - revert Hc. unfold counter_ok. by rewrite E2, E5, Ht.
  - destruct Hvrf as (o & Ho & Heq). exists o. split; [done|].
    destruct Hout as [->|[_ ->]]; [by left|done].
  - by left.
Qed.


(** An absent signature is not missed. From one header that a strict node
    accepts, anyone can make others that it accepts: keep slot, keys, VRF proof
    and certificate, change number, parent, body size, body hash and header hash
    at will, and leave the KES signature empty. If the VRF output is left empty
    too, the header is accepted whatever stake the pool has. *)
Theorem unsigned_header_accepted self (h h' : BlockHeader) (current_slot : Z) (info info' : BlockIssuerInfo)
    (pv tip : option Z) :
  pr_strict_verification self = true → pr_snapshots_established self = true →
  0 ≤ hdr_slot h → 0 ≤ pr_slots_per_kes_period self →
  (validate_header_full h current_slot (Some info) None FullMode pv tip self).1 = pass →
  same_claims h h' → kes_signature h' = [] → vrf_keyhash info' = vrf_keyhash info →
  (vrf_output (vrf_result h') = [] ∨ info' = info ∧ vrf_output (vrf_result h') = vrf_output (vrf_result h)) →
  (validate_header_full h' current_slot (Some info') None FullMode pv tip self).1 = pass.
Proof.
  intros Hs He H0 Hp Hacc Hsame Hsig Hkey Hout. pose proof (proj1 Hsame) as Eslot.
  apply header_accepted in Hacc; [|done..]. apply header_accepted; [done|done|done|lia|done|].
  by eapply acceptable_unsigned.
Qed.

(** ** Counters across validations *)

Lemma full_pass_tail header current_slot info ctx mode pv tip self :
  pr_strict_verification self = true →
  (validate_header_full header current_slot info ctx mode pv tip self).1 = pass →
  issuer_vkey header ≠ [] ∧ (run_tail_checks header info mode self).1 = pass ∧
  (validate_header_full header current_slot info ctx mode pv tip self).2
    = (run_tail_checks header info mode self).2.
Proof.
  intros Hs. unfold validate_header_full.
  destruct (structural_checks _ _ _ _ _) as [[]|] eqn:E; [|done]. cbn [then_state].
  apply (structural_checks_pass self header current_slot pv tip Hs) in E as (_ & [Hi _] & _).
  destruct (overlay_slot self ctx header) as [[[|key]|]|]; rewrite ?Hs; try done.
  - destruct (ctx ≫= _) as [[k v]|]; [|done].
    destruct (check_delegate _ _ _ _ _) as [[]|]; [|done]. by cbn [then_state].
  - destruct (pool_checks _ _ _) as [[]|]; [|done]. by cbn [then_state].
Qed.

Lemma check_opcert_pass_recorded header info self :
  (check_opcert_counter header info self).1 = pass → issuer_vkey header ≠ [] →
  (check_opcert_counter header info self).2
  = record_opcert_counter (blake2b_224 (issuer_vkey header)) (sequence_number (operational_cert header)) self.
Proof.
  intros H Hne. revert H. unfold check_opcert_counter. rewrite bool_decide_false by done.
  repeat (case_match; cbn [fst snd]; try done).
Qed.

Lemma check_opcert_pass_bound header info self v :
  pr_strict_verification self = true → issuer_vkey header ≠ [] →
  pr_opcert_counters self !! blake2b_224 (issuer_vkey header) = Some v →
  (check_opcert_counter header info self).1 = pass →
  v ≤ sequence_number (operational_cert header) ∧
  (is_tpraos header = false → sequence_number (operational_cert header) ≤ saturating_add64 v 1).
Proof.
  intros Hs Hne Hv. unfold check_opcert_counter, current_issue_no.
  rewrite bool_decide_false by done. rewrite Hv, Hs.
  destruct (Z.ltb_spec (sequence_number (operational_cert header)) v); [done|].
  destruct (is_tpraos header); cbn [negb andb]; [done|].
  destruct (Z.ltb_spec (saturating_add64 v 1) (sequence_number (operational_cert header))); [|done].
  by destruct (pr_opcert_upper_bound_advisory self).
Qed.

Lemma run_tail_pass_counter header info mode self :
  (run_tail_checks header info mode self).1 = pass → (check_opcert_counter header info self).1 = pass.
Proof. rewrite run_tail_checks_result, seq_pass. by intros []. Qed.

(** What a running node does with its engine, the wholesale replacement and the
    pruning of the counters apart *)
Inductive praos_step : OuroborosPraos → OuroborosPraos → Prop :=
| step_validate header current_slot info ctx mode pv tip self :
    praos_step self (validate_header_full header current_slot info ctx mode pv tip self).2
| step_strict strict self : praos_step self (set_strict_verification strict self)
| step_checkpoints cps self : praos_step self (set_checkpoints cps self)
| step_tip t self : praos_step self (update_tip t self).

Lemma validate_full_counters header current_slot info ctx mode pv tip self :
  counters_le (pr_opcert_counters self)
    (pr_opcert_counters (validate_header_full header current_slot info ctx mode pv tip self).2).
Proof.
  assert (counters_le (pr_opcert_counters self) (pr_opcert_counters (run_tail_checks header info mode self).2)) as Ht.
  { rewrite run_tail_checks_state. destruct (check_opcert_counter_state header info self) as [-> | ->];
      [reflexivity|apply record_opcert_counter_le]. }
  unfold validate_header_full. destruct (structural_checks _ _ _ _ _); cbn [then_state snd]; [|reflexivity].
  destruct (overlay_slot self ctx header) as [[[|key]|]|]; cbn [snd]; try reflexivity.
  - destruct (ctx ≫= _) as [[k v]|]; (destruct (check_delegate _ _ _ _ _) || destruct (ensure_strict _ _ _));
      cbn [then_state snd]; done || reflexivity.
  - destruct (pool_checks _ _ _); cbn [then_state snd]; done || reflexivity.
Qed.

Lemma praos_steps_counters self self' :
  rtc praos_step self self' → counters_le (pr_opcert_counters self) (pr_opcert_counters self').
Proof.
  induction 1 as [|s1 s2 s3 Hstep _ IH]; [reflexivity|]. etrans; [|exact IH].
  destruct Hstep; [apply validate_full_counters|reflexivity..].
Qed.

Definition has_room self (pool_id : list Z) : Prop :=
  (size (pr_opcert_counters self) < MAX_OPCERT_ENTRIES)%nat ∨ is_Some (pr_opcert_counters self !! pool_id).

Lemma record_with_room p n self :
  has_room self p → ∃ v, pr_opcert_counters (record_opcert_counter p n self) !! p = Some v ∧ n ≤ v.
Proof.
  intros Hroom. unfold record_opcert_counter.
  assert ((size (pr_opcert_counters self) <? MAX_OPCERT_ENTRIES)%nat ||
    bool_decide (is_Some (pr_opcert_counters self !! p)) = true) as ->.
  { apply orb_true_iff. destruct Hroom; [left; by apply Nat.ltb_lt|right; by apply bool_decide_eq_true]. }
  cbn. destruct (pr_opcert_counters self !! p) as [w|] eqn:E; rewrite lookup_insert_eq; eexists; split; try done.
  cmp_cases; lia.
Qed.

(** C28: Certificates are not replayed. After a strict engine has accepted a header
    of a pool and through any further validations, mode switches, checkpoint and
    tip updates, every header of that pool that it accepts carries a sequence
    number at least as large, as long as the table of counters had room for the
    pool when the first one was recorded. *)
Theorem opcert_no_replay self1 self2 (h1 h2 : BlockHeader) (slot1 slot2 : Z)
    (info1 info2 : option BlockIssuerInfo) (ctx1 ctx2 : option OverlayContext)
    (mode1 mode2 : ValidationMode) (pv1 tip1 pv2 tip2 : option Z) :
  pr_strict_verification self1 = true → pr_strict_verification self2 = true →
  has_room self1 (blake2b_224 (issuer_vkey h1)) → issuer_vkey h2 = issuer_vkey h1 →
  (validate_header_full h1 slot1 info1 ctx1 mode1 pv1 tip1 self1).1 = pass →
  rtc praos_step (validate_header_full h1 slot1 info1 ctx1 mode1 pv1 tip1 self1).2 self2 →
  (validate_header_full h2 slot2 info2 ctx2 mode2 pv2 tip2 self2).1 = pass →
  sequence_number (operational_cert h1) ≤ sequence_number (operational_cert h2).
Proof.
  intros Hs1 Hs2 Hroom Hkey Hacc1 Hsteps Hacc2.
  apply full_pass_tail in Hacc1 as (Hi1 & Ht1 & E1); [|done].
  apply full_pass_tail in Hacc2 as (Hi2 & Ht2 & _); [|done].
  apply run_tail_pass_counter in Ht1, Ht2. rewrite run_tail_checks_state in E1.
  rewrite (check_opcert_pass_recorded _ _ _ Ht1 Hi1) in E1. rewrite E1 in Hsteps.
  apply praos_steps_counters in Hsteps.
  destruct (record_with_room _ (sequence_number (operational_cert h1)) _ Hroom) as (v & Hv & Hle).
  destruct (Hsteps _ _ Hv) as (v' & Hv' & Hle').
  rewrite <- Hkey in Hv'. destruct (check_opcert_pass_bound _ _ _ _ Hs2 Hi2 Hv' Ht2). lia.
Qed.
End theorems.

(** * Where header validation stops short

    Effects that the comments of [praos.rs] and [sync.rs] do not promise: a
    rejected header leaves its counter behind, checkpoints bind only the entry
    point that the node does not call, and eager validation looks at no
    signature. *)


Section gaps.
Context {FL : Float64} {BL : Blake2b} {C : Crypto}.
Implicit Types self : OuroborosPraos.

(** ** Counters of rejected headers *)

Lemma record_tracked p n m self :
  pr_opcert_counters self !! p = Some m → m < n →
  record_opcert_counter p n self = set_opcert_counters (<[p := n]> (pr_opcert_counters self)) self.
Proof.
  intros Hm Hlt. unfold record_opcert_counter. rewrite (bool_decide_true (is_Some _)) by by rewrite Hm.
  rewrite orb_true_r. unfold set_opcert_counters, update. cbv beta. rewrite Hm.
  by destruct (Z.ltb_spec m n); [|lia].
Qed.

Lemma then_state_ok self k : then_state pass self k = k self.
Proof. done. Qed.

(** The stages before the tail do not read the counters. *)
Lemma stages_ignore_counters counters header current_slot info pv tip self :
  structural_checks (set_opcert_counters counters self) header current_slot pv tip
    = structural_checks self header current_slot pv tip ∧
  pool_checks (set_opcert_counters counters self) header info = pool_checks self header info.
Proof. done. Qed.

Lemma check_opcert_regression header info n m self :
  pr_strict_verification self = true → issuer_vkey header ≠ [] →
  pr_opcert_counters self !! blake2b_224 (issuer_vkey header) = Some m →
  sequence_number (operational_cert header) = n → n < m →
  check_opcert_counter header info self = (reject (OpcertSequenceRegression n m), self).
Proof.
  intros Hs Hne Hm <- Hlt. unfold check_opcert_counter, current_issue_no.
  rewrite bool_decide_false by done. rewrite Hm, Hs. by destruct (Z.ltb_spec (sequence_number (operational_cert header)) m); [|lia].
Qed.

Lemma check_opcert_next header info m self :
  issuer_vkey header ≠ [] → pr_opcert_counters self !! blake2b_224 (issuer_vkey header) = Some m →
  sequence_number (operational_cert header) = m + 1 → m + 1 ≤ u64_max →
  check_opcert_counter header info self
  = (pass, record_opcert_counter (blake2b_224 (issuer_vkey header)) (m + 1) self).
Proof.
  intros Hne Hm Hn Hb. unfold check_opcert_counter, current_issue_no.
  rewrite bool_decide_false by done. rewrite Hm, Hn. unfold saturating_add64.
  destruct (Z.ltb_spec (m + 1) m); [lia|]. rewrite Z.min_l by done.
  rewrite Z.ltb_irrefl, andb_false_r. done.
Qed.

(** A rejected header poisons its pool's counter. The counter is recorded
    before the KES period and the signatures are checked and is not taken back:
    a header with the next sequence number that fails those checks is rejected,
    and from then on the engine rejects the pool's own header, with the current
    sequence number, that it would have accepted. *)
Theorem rejected_header_poisons_counter self (forged honest : BlockHeader) (slot1 slot2 : Z)
    (info : BlockIssuerInfo) (mode : ValidationMode) (pv tip : option Z) (m : Z) :
  pr_strict_verification self = true →
  issuer_vkey forged ≠ [] → issuer_vkey honest = issuer_vkey forged →
  pr_opcert_counters self !! blake2b_224 (issuer_vkey forged) = Some m → m + 1 ≤ u64_max →
  sequence_number (operational_cert forged) = m + 1 → sequence_number (operational_cert honest) = m →
  structural_checks self forged slot1 pv tip = pass → pool_checks self forged (Some info) = pass →
  (validate_kes_period self forged;; crypto_checks self forged mode) ≠ pass →
  (validate_header_full honest slot2 (Some info) None mode pv tip self).1 = pass →
  let '(r, self') := validate_header_full forged slot1 (Some info) None mode pv tip self in
  r ≠ pass ∧
  (validate_header_full honest slot2 (Some info) None mode pv tip self').1
    = reject (OpcertSequenceRegression m (m + 1)).
Proof.
  intros Hs Hne Hkey Hm Hb Hn Hn' Hst Hpool Hbad Hacc.
  rewrite validate_full_pool, Hst, then_state_ok, Hpool, then_state_ok by done.
  unfold run_tail_checks. rewrite (check_opcert_next _ _ _ _ Hne Hm Hn Hb). cbv iota beta.
  rewrite (record_tracked _ _ _ _ Hm) by lia.
  set (c' := <[blake2b_224 (issuer_vkey forged) := m + 1]> (pr_opcert_counters self)).
  split; [exact Hbad|].
  rewrite validate_full_pool, !then_state_pass in Hacc by done. destruct Hacc as (Hst2 & Hpool2 & _).
  rewrite validate_full_pool by done.
  destruct (stages_ignore_counters c' honest slot2 (Some info) pv tip self) as [-> _].
  rewrite Hst2, then_state_ok.
  destruct (stages_ignore_counters c' honest slot2 (Some info) pv tip self) as [_ ->].
  rewrite Hpool2, then_state_ok, run_tail_checks_result, (check_opcert_regression honest (Some info) m (m + 1)); try done.
  - by rewrite Hkey.
  - rewrite Hkey. apply lookup_insert_eq.
  - lia.
Qed.

(** ** Checkpoints *)

Lemma checkpoints_opcert cps header info self :
  (check_opcert_counter header info (set_checkpoints cps self)).1 = (check_opcert_counter header info self).1.
Proof.
  unfold check_opcert_counter. case_bool_decide; [done|].
  set (p := blake2b_224 _). set (n := sequence_number _).
  change (current_issue_no p info (set_checkpoints cps self)) with (current_issue_no p info self).
  change (pr_strict_verification (set_checkpoints cps self)) with (pr_strict_verification self).
  change (pr_opcert_upper_bound_advisory (set_checkpoints cps self))
    with (pr_opcert_upper_bound_advisory self).
  repeat (case_match; cbn [fst]; try done).
Qed.

(** Checkpoints do not reach the validator of the node. [validate_header]
    rejects a header that contradicts a checkpoint, but [validate_header_full],
    which is what the node calls on every header, gives the same verdict whatever
    checkpoints are installed. *)
Theorem checkpoints_not_enforced self (header : BlockHeader) (current_slot : Z) (info : option BlockIssuerInfo)
    (ctx : option OverlayContext) (mode : ValidationMode) (pv tip : option Z)
    (cps : gmap Z Hash32) (expected : Hash32) :
  cps !! block_number header = Some expected → header_hash header ≠ expected →
  validate_header (set_checkpoints cps self) header current_slot mode pv
    = reject (CheckpointMismatch (block_number header) expected (header_hash header)) ∧
  (validate_header_full header current_slot info ctx mode pv tip (set_checkpoints cps self)).1
    = (validate_header_full header current_slot info ctx mode pv tip self).1.
Proof.
  intros Hcp Hne. split.
  - unfold validate_header, check_checkpoint. cbn [set_checkpoints pr_checkpoints]. cbn.
    rewrite Hcp, bool_decide_false by done. done.
  - unfold validate_header_full.
    change (structural_checks (set_checkpoints cps self)) with (structural_checks self).
    destruct (structural_checks self header current_slot pv tip); [|done]. cbn [then_state].
    change (overlay_slot (set_checkpoints cps self)) with (overlay_slot self).
    destruct (overlay_slot self ctx header) as [[[|key]|]|]; [done| | |done].
    all: assert ((run_tail_checks header info mode (set_checkpoints cps self)).1
      = (run_tail_checks header info mode self).1) as Htail
      by (rewrite !run_tail_checks_result', checkpoints_opcert; done).
    + destruct (ctx ≫= _) as [[k v]|].
      * change (check_delegate (set_checkpoints cps self)) with (check_delegate self).
        destruct (check_delegate self header key k v); [exact Htail|done].
      * change (pr_strict_verification (set_checkpoints cps self)) with (pr_strict_verification self).
        destruct (ensure_strict _ _ _); [exact Htail|done].
    + change (pool_checks (set_checkpoints cps self)) with (pool_checks self).
      destruct (pool_checks self header info); [exact Htail|done].
Qed.

(** ** Standalone verification *)

(** The standalone verifier meant for parallel use agrees with the engine on
    Praos headers whose wire bytes are the re-encoding (or are unknown): the same
    verdict, error included, as the size checks followed by the full-mode
    cryptographic checks. *)
Theorem standalone_crypto_agrees self (header : BlockHeader) :
  is_tpraos header = false →
  (raw_header_body header = None ∨ raw_header_body header = Some (encode_block_header_body header)) →
  verify_header_crypto (crypto_params self) header
  = (check_header_field_sizes header (pr_strict_verification self);; crypto_checks self header FullMode).
Proof.
  intros Ht Hraw. unfold verify_header_crypto, crypto_checks, verify_nonce_vrf_proof. rewrite Ht. cbn [negb].
  assert (verify_kes_signature self header = verify_kes_signature_static (crypto_params self) header) as ->.
  { unfold verify_kes_signature, verify_kes_signature_static. by destruct Hraw as [-> | ->]. }
  change (verify_opcert_static (crypto_params self)) with (validate_operational_cert self).
  change (verify_vrf_proof_static (crypto_params self)) with (verify_vrf_proof self).
  destruct (check_header_field_sizes _ _); [|done]. cbn [mbind result_bind].
  by destruct (verify_vrf_proof self header).
Qed.

End gaps.

(** ** Eager validation *)

(** Eager validation sees no signature: its outcome and the counters it leaves
    are the same for any two signature libraries, one that accepts everything and
    one that rejects everything included; yet with the skip flag on, a header it
    has passed in the same epoch is not validated again when its block is
    applied. *)
Theorem eager_ignores_signatures {FL : Float64} {BL : Blake2b} (C1 C2 : Crypto) (self : OuroborosPraos)
    (peer_counters : gmap (list Z) Z) (header : BlockHeader) (info : option BlockIssuerInfo)
    (pv tip : option Z) (epoch : Z) :
  eager_validate (C := C1) self peer_counters header info pv tip
    = eager_validate (C := C2) self peer_counters header info pv tip ∧
  decide_skip_apply_header_crypto true epoch (Some epoch) = (true, true).
Proof.
  split; [|unfold decide_skip_apply_header_crypto; cbn; by rewrite Z.eqb_refl].
  reflexivity.
Qed.
