(* ===== verification/LeaderSchedule.v ===== *)
(** * The leader schedule and header validation

    The schedule that a forger computes lists exactly the slots that the
    validators' leader check accepts, and its entries make headers that pass. *)

From Stdlib Require Import Reals.
From S2P Require Import Prelude Bytes EraHistory Block ConsensusError Cbor CborSkip BlockCbor LeaderCheck SlotLeader RecordUpdate Praos PraosChecks Overlay PraosTheorems.
Local Open Scope Z_scope.


Section schedule.
Context {FL : Float64} {BL : Blake2b} {C : Crypto}.

Lemma schedule_loop_elem body slots entries e :
  schedule_loop body slots = Some entries →
  e ∈ entries ↔ ∃ slot, slot ∈ slots ∧ body slot = Some (Some e).
Proof.
  revert entries. induction slots as [|s slots IH]; intros entries H; cbn [schedule_loop] in H.
  { simplify_eq. split; [by intros ?%elem_of_nil|]. by intros (? & ?%elem_of_nil & _). }
  destruct (body s) as [entry|] eqn:Eb; [|done]. cbn [mbind option_bind] in H.
  destruct (schedule_loop body slots) as [rest|]; [|done]. cbn [mbind option_bind] in H.
  specialize (IH rest eq_refl). destruct entry as [e'|]; simplify_eq.
  - rewrite elem_of_cons, IH. split.
    + intros [->|(t & Ht & E)]; [exists s|exists t]; by split; [constructor|].
    + intros (t & [->|Ht]%elem_of_cons & E); [left; congruence|right; eauto].
  - rewrite IH. split.
    + intros (t & Ht & E). exists t. by split; [constructor|].
    + intros (t & [->|Ht]%elem_of_cons & E); [congruence|eauto].
Qed.

Lemma schedule_slot_elem sk nonce ps ts fn fd log slot e :
  (if negb (fd <=? fn) then compute_active_slot_log fn fd = Some (Some log) else True) →
  ps ≠ 0 → ts ≠ 0 →
  schedule_slot sk nonce ps ts (fd <=? fn) log slot = Some (Some e) ↔
  e = mkLeaderSlot slot (vrf03_generate sk (vrf_input nonce slot)).2
        (vrf03_generate sk (vrf_input nonce slot)).1 ∧
  is_slot_leader_rational (vrf03_generate sk (vrf_input nonce slot)).2 ps ts fn fd = Some true.
Proof.
  intros Hlog Hps Hts. unfold schedule_slot, generate_vrf_proof, is_slot_leader_rational.
  destruct (vrf03_generate sk (vrf_input nonce slot)) as [proof output]. cbn [fst snd].
  destruct (fd <=? fn) eqn:Ef; cbn [negb] in Hlog.
  - unfold check_leader_value_full_rational, check_leader_value_all_rational.
    rewrite Ef, orb_true_r. destruct (Z.eqb_spec ps 0), (Z.eqb_spec ts 0); try done.
    cbn. split; [intros; by simplify_eq|]. by intros [-> _].
  - unfold check_leader_value_full_rational. rewrite (check_uncached _ _ _ _ _ _ _ Hlog).
    unfold check_leader_value_full_rational_cached.
    destruct (check_leader_value_with_cached_log _ _ _ _ _) as [[]|]; cbn; try naive_solver.
Qed.

Lemma schedule_elem sk nonce start len ps ts fn fd sched e :
  ps ≠ 0 → ts ≠ 0 → 0 < fn → 0 ≤ fd →
  compute_leader_schedule sk nonce start len ps ts fn fd = Some sched →
  e ∈ sched ↔
  ∃ offset, 0 ≤ offset < len ∧
    let slot := wrapping_add64 start offset in
    e = mkLeaderSlot slot (vrf03_generate sk (vrf_input nonce slot)).2
          (vrf03_generate sk (vrf_input nonce slot)).1 ∧
    is_slot_leader_rational (vrf03_generate sk (vrf_input nonce slot)).2 ps ts fn fd = Some true.
Proof.
  intros Hps Hts Hf Hfd H. unfold compute_leader_schedule in H.
  destruct (Z.eqb_spec ps 0), (Z.eqb_spec ts 0); try done. cbn [orb] in H.
  destruct (Z.eqb_spec fn 0); [lia|].
  set (cached := if negb (fd <=? fn) then compute_active_slot_log fn fd else compute_active_slot_log 1 2) in H.
  destruct cached as [[log|]|] eqn:Elog; cbn [mbind option_bind] in H; [| |done].
  - rewrite (schedule_loop_elem _ _ _ _ H). setoid_rewrite schedule_slot_elem; [| |done|done].
    + unfold epoch_slots. split.
      * intros (slot & (offset & -> & Hin%elem_of_seqZ)%list_elem_of_fmap & He). exists offset. split; [lia|done].
      * intros (offset & Hoff & He). exists (wrapping_add64 start offset). split; [|done].
        apply list_elem_of_fmap. exists offset. split; [done|]. apply elem_of_seqZ. lia.
    + unfold cached in Elog. by destruct (negb (fd <=? fn)).
  - exfalso. unfold cached, compute_active_slot_log in Elog. revert Elog.
    destruct (Z.leb_spec fd fn) as [|Hlt]; cbn [negb].
    + unfold compute_log. cbn [Z.eqb orb Z.leb Z.compare Pos.compare Pos.compare_cont].
      by destruct (ref_ln _).
    + unfold compute_log. destruct (Z.eqb_spec fn 0), (Z.eqb_spec fd 0), (Z.leb_spec fd fn); try lia.
      cbn [orb]. by destruct (ref_ln _).
Qed.

(** The leader schedule is exact: it lists a slot of the epoch if and only if
    the pool's VRF output for that slot passes the leader check that validators
    apply, with that output and its proof; the cached logarithm, the case of an
    active slot coefficient of one and the slots' wrap-around included. *)
Theorem leader_schedule_exact (sk : list Z) (nonce : Hash32) (start len ps ts fn fd : Z)
    (sched : list LeaderSlot) (e : LeaderSlot) :
  ps ≠ 0 → ts ≠ 0 → 0 < fn → 0 ≤ fd →
  compute_leader_schedule sk nonce start len ps ts fn fd = Some sched →
  e ∈ sched ↔
  ∃ offset, 0 ≤ offset < len ∧
    let slot := wrapping_add64 start offset in
    e = mkLeaderSlot slot (vrf03_generate sk (vrf_input nonce slot)).2
          (vrf03_generate sk (vrf_input nonce slot)).1 ∧
    is_slot_leader_rational (vrf03_generate sk (vrf_input nonce slot)).2 ps ts fn fd = Some true.
Proof. apply schedule_elem. Qed.

(** C39: A scheduled slot validates: a Praos header forged with an entry of the
    schedule passes the VRF proof check and the leader check of every engine with
    the same stake and active slot coefficient, strict or not. *)
Theorem scheduled_header_leads {CO : CryptoOk C} (self : OuroborosPraos) (info : BlockIssuerInfo)
    (sk : list Z) (start len fn fd : Z) (sched : list LeaderSlot) (header : BlockHeader) :
  pool_stake info ≠ 0 → total_active_stake info ≠ 0 → 0 < fn → 0 ≤ fd →
  pr_active_slot_coeff_rational self = (fn, fd) →
  compute_leader_schedule sk (epoch_nonce header) start len (pool_stake info) (total_active_stake info) fn fd
    = Some sched →
  mkLeaderSlot (hdr_slot header) (vrf_output (vrf_result header)) (vrf_proof (vrf_result header)) ∈ sched →
  vrf_vkey header = vrf03_public sk → is_tpraos header = false →
  verify_vrf_proof self header = pass ∧ check_leader self header info = pass.
Proof.
  intros Hps Hts Hf Hfd Hcoeff Hs Hin Hkey Ht.
  apply (schedule_elem _ _ _ _ _ _ _ _ _ _ Hps Hts Hf Hfd Hs) in Hin as (offset & _ & He & Hl).
  cbv zeta in He, Hl. injection He as Eslot Eout Eproof.
  set (slot := wrapping_add64 start offset) in *. set (seed := vrf_input (epoch_nonce header) slot) in *.
  assert (length (vrf_output (vrf_result header)) = 64%nat) as Hlen by (rewrite Eout; apply vrf03_output_length).
  split.
  - unfold verify_vrf_proof, leader_seed. rewrite Ht, Hkey, Eslot, Eproof. fold seed.
    unfold crypto_verify_vrf_proof.
    rewrite vrf03_public_length, vrf03_proof_length, vrf03_generate_ok, vrf03_complete. cbn [Nat.eqb negb].
    rewrite Eout, bool_decide_true by done. rewrite andb_false_r. by destruct (pr_strict_verification self).
  - unfold check_leader, leader_verdict. rewrite Hlen, Hcoeff, Ht. cbn [Nat.eqb negb]. rewrite Eout.
    unfold is_slot_leader_rational in Hl. rewrite Hl. by destruct (_ && _).
Qed.

End schedule.

(** * Header validation on concrete headers

    A small instance of hashing, signatures and floating point, and the theorems
    about headers, the leader check and the schedule applied to it. *)


(** Blake2b cuts its input; a VRF output is zero; a KES signature is good when
    its first byte is 1. *)
#[local] Instance toy_blake : Blake2b :=
  {| blake2b_256 d := resize 32 d; blake2b_224 d := resize 28 d |}.

#[local] Instance toy_crypto : Crypto :=
  {| vrf03_proof_ok _ := true; vrf03_verify _ _ _ := Some (replicate 64 0);
     vrf03_public sk := resize 32 sk; vrf03_generate _ _ := (replicate 80 0, replicate 64 0);
     kes_sig_ok _ := true; kes_key_ok _ := true;
     kes_sig_verify _ _ sig _ := bool_decide (head sig = Some 1);
     ed25519_key_ok _ := true; ed25519_verify_strict _ _ _ := true |}.

#[local] Instance toy_crypto_ok : CryptoOk toy_crypto.
Proof. split; intros; try done. apply length_resize. Qed.

(** The one float is 0.5, which displays as [0.5]. *)
#[local] Instance toy_float : Float64 :=
  {| F64 := unit; f64_finite _ := true; f64_le_zero _ := false; f64_display _ := [48; 46; 53];
     f64_window k _ := 6 * k; f64_to_rational _ := (1, 2) |}.

Definition toy_engine : OuroborosPraos :=
  set_opcert_counters {[ resize 28 (replicate 32 1) := 7 ]}
    (mkPraos _ tt (1, 2) 2160 432000 129600 62 tip_origin true true ∅ 10 ∅ false).

Definition toy_issuer : BlockIssuerInfo := mkIssuer (replicate 32 2) 1 1.

Definition toy_header (bhash : Hash32) (output kes : list Z) (seq : Z) : BlockHeader :=
  {| header_hash := hash_zero; prev_hash := hash_zero; issuer_vkey := replicate 32 1;
     vrf_vkey := replicate 32 2; vrf_result := mkVrf output (replicate 80 0); block_number := 42;
     hdr_slot := 1000; epoch_nonce := hash_zero; body_size := 512; body_hash := bhash;
     operational_cert := mkOpCert (replicate 32 5) seq 0 (replicate 64 6);
     protocol_version := mkVersion 9 0; kes_signature := kes; nonce_vrf_output := [];
     nonce_vrf_proof := []; prev_nonce := None; raw_header_body := None |}.

Definition good_header : BlockHeader := toy_header hash_zero (replicate 64 0) (replicate 448 1) 7.

Lemma good_header_accepted :
  (validate_header_full good_header 1000 (Some toy_issuer) None FullMode (Some 9) (Some 990) toy_engine).1 = pass.
Proof. vm_compute. reflexivity. Qed.

(** An epoch of which half the slots belong to one genesis key: slot 1000 is
    not among them. *)
Definition toy_overlay : OverlayContext := mkOverlay ∅ [replicate 28 3] (1, 2) 999.


(** The same slot and keys with another body, no VRF output, no signature, and no
    stake. *)
Lemma unsigned_header_witness :
  (validate_header_full (toy_header (replicate 32 9) [] [] 7) 1000 (Some (mkIssuer (replicate 32 2) 0 1))
     None FullMode (Some 9) (Some 990) toy_engine).1 = pass.
Proof.
  apply (unsigned_header_accepted toy_engine good_header (toy_header (replicate 32 9) [] [] 7) 1000
           toy_issuer (mkIssuer (replicate 32 2) 0 1) (Some 9) (Some 990)).
  - reflexivity.
  - reflexivity.
  - vm_compute. discriminate.
  - vm_compute. discriminate.
  - exact good_header_accepted.
  - repeat split.
  - reflexivity.
  - reflexivity.
  - by left.
Defined.

Lemma opcert_witness :
  sequence_number (operational_cert good_header)
  ≤ sequence_number (operational_cert (toy_header hash_zero (replicate 64 0) (replicate 448 1) 8)).
Proof.
  apply (opcert_no_replay toy_engine
    (validate_header_full good_header 1000 (Some toy_issuer) None FullMode (Some 9) (Some 990) toy_engine).2
    good_header (toy_header hash_zero (replicate 64 0) (replicate 448 1) 8) 1000 1000
    (Some toy_issuer) (Some toy_issuer) None None FullMode FullMode (Some 9) (Some 990) (Some 9) (Some 990)).
  - reflexivity.
  - vm_compute. reflexivity.
  - right. vm_compute. by eexists.
  - reflexivity.
  - exact good_header_accepted.
  - apply rtc_refl.
  - vm_compute. reflexivity.
Defined.

(** A header with the next sequence number and a bad signature *)
Definition forged_header : BlockHeader := toy_header hash_zero (replicate 64 0) (replicate 448 0) 8.

Lemma poison_witness :
  let '(r, self') :=
    validate_header_full forged_header 1000 (Some toy_issuer) None FullMode (Some 9) (Some 990) toy_engine in
  r ≠ pass ∧
  (validate_header_full good_header 1000 (Some toy_issuer) None FullMode (Some 9) (Some 990) self').1
    = reject (OpcertSequenceRegression 7 (7 + 1)).
Proof.
  apply (rejected_header_poisons_counter toy_engine forged_header good_header 1000 1000 toy_issuer FullMode
           (Some 9) (Some 990) 7).
  - reflexivity.
  - discriminate.
  - reflexivity.
  - vm_compute. reflexivity.
  - vm_compute. discriminate.
  - reflexivity.
  - reflexivity.
  - vm_compute. reflexivity.
  - vm_compute. reflexivity.
  - vm_compute. discriminate.
  - exact good_header_accepted.
Defined.

Lemma checkpoints_witness :
  validate_header (set_checkpoints {[ 42 := replicate 32 7 ]} toy_engine) good_header 1000 FullMode (Some 9)
    = reject (CheckpointMismatch 42 (replicate 32 7) hash_zero) ∧
  (validate_header_full good_header 1000 (Some toy_issuer) None FullMode (Some 9) (Some 990)
     (set_checkpoints {[ 42 := replicate 32 7 ]} toy_engine)).1
  = (validate_header_full good_header 1000 (Some toy_issuer) None FullMode (Some 9) (Some 990) toy_engine).1.
Proof.
  apply (checkpoints_not_enforced toy_engine good_header 1000 (Some toy_issuer) None FullMode (Some 9) (Some 990)
           {[ 42 := replicate 32 7 ]} (replicate 32 7)).
  - vm_compute. reflexivity.
  - discriminate.
Defined.

Lemma standalone_witness :
  verify_header_crypto (crypto_params toy_engine) good_header
  = (check_header_field_sizes good_header true;; crypto_checks toy_engine good_header FullMode).
Proof. apply (standalone_crypto_agrees toy_engine good_header); [reflexivity|by left]. Defined.

Lemma toy_schedule_ok :
  ∃ sched, compute_leader_schedule [3] hash_zero 1000 1 1 1 1 2 = Some sched ∧
    sched = [mkLeaderSlot 1000 (replicate 64 0) (replicate 80 0)].
Proof. eexists. split; [vm_compute; reflexivity|reflexivity]. Qed.

Lemma schedule_witness :
  ∃ sched, compute_leader_schedule [3] hash_zero 1000 1 1 1 1 2 = Some sched ∧
  (mkLeaderSlot 1000 (replicate 64 0) (replicate 80 0) ∈ sched ↔
   ∃ offset, 0 ≤ offset < 1 ∧
    let slot := wrapping_add64 1000 offset in
    mkLeaderSlot 1000 (replicate 64 0) (replicate 80 0)
      = mkLeaderSlot slot (vrf03_generate [3] (vrf_input hash_zero slot)).2
          (vrf03_generate [3] (vrf_input hash_zero slot)).1 ∧
    is_slot_leader_rational (vrf03_generate [3] (vrf_input hash_zero slot)).2 1 1 1 2 = Some true).
Proof.
  destruct toy_schedule_ok as (sched & E & _). exists sched. split; [exact E|].
  apply (leader_schedule_exact [3] hash_zero 1000 1 1 1 1 2 sched
           (mkLeaderSlot 1000 (replicate 64 0) (replicate 80 0))); [done|done|lia|lia|exact E].
Defined.

Definition scheduled_header : BlockHeader :=
  {| header_hash := hash_zero; prev_hash := hash_zero; issuer_vkey := replicate 32 1;
     vrf_vkey := resize 32 [3]; vrf_result := mkVrf (replicate 64 0) (replicate 80 0); block_number := 42;
     hdr_slot := 1000; epoch_nonce := hash_zero; body_size := 512; body_hash := hash_zero;
     operational_cert := mkOpCert (replicate 32 5) 7 0 (replicate 64 6);
     protocol_version := mkVersion 9 0; kes_signature := []; nonce_vrf_output := [];
     nonce_vrf_proof := []; prev_nonce := None; raw_header_body := None |}.

Lemma scheduled_header_witness :
  verify_vrf_proof toy_engine scheduled_header = pass ∧ check_leader toy_engine scheduled_header toy_issuer = pass.
Proof.
  destruct toy_schedule_ok as (sched & E & Hs).
  apply (scheduled_header_leads toy_engine toy_issuer [3] 1000 1 1 2 sched scheduled_header).
  - done.
  - done.
  - lia.
  - lia.
  - reflexivity.
  - exact E.
  - rewrite Hs. constructor.
  - reflexivity.
  - reflexivity.
Defined.

(** ** The leader check at [f = 1/2] *)

Definition log_half : Z := 6931471805599453094172321354910343.

Lemma compute_log_half : compute_log 1 2 = Some (Some log_half).
Proof. vm_compute. reflexivity. Qed.

Definition demo_value : list Z := 76 :: replicate 31 0.

Lemma leader_threshold_witness :
  (IZR (cert_nat_of false demo_value) / IZR (cert_max_of false)
   < 1 - exp (- (IZR 1 / IZR 1 * fpR log_half)))%R.
Proof.
  apply (leader_below_threshold demo_value 1 1 1 2 log_half false).
  - lia.
  - lia.
  - vm_compute. discriminate.
  - exact compute_log_half.
  - vm_compute. discriminate.
  - vm_compute. reflexivity.
Defined.

Lemma leader_monotone_witness :
  check_leader_value_all_rational (replicate 32 3) 1 1 1 2 false = Some true.
Proof.
  apply (leader_monotone (76 :: replicate 31 0) (replicate 32 3) 1 1 1 2 false).
  - lia.
  - lia.
  - vm_compute. split; discriminate.
  - intros c E. rewrite compute_log_half in E. injection E as <-. vm_compute. discriminate.
  - lia.
  - vm_compute. reflexivity.
Defined.
