(* ===== verification/Uplc.v ===== *)
(** * Untyped Plutus Core: terms, values, budgets

    The data of [crates/dugite-uplc/src]: [term.rs] (terms, constants, types,
    builtin identifiers), [data.rs] (the type [Data]), [error.rs],
    [builtin/semantics.rs], [builtin/arity.rs], and of the machine [value.rs],
    [env.rs], [context.rs], [mod.rs] and [cost.rs]. A [BigInt] is a [Z], a byte
    string a list of bytes, a [String] the list of its UTF-8 bytes. [Rc] and
    [Box] share immutable values and are left out. Texts of error messages are
    left out; a builtin error names its builtin. *)

From S2P Require Import Prelude Order Bytes RecordUpdate.
Local Open Scope Z_scope.
Local Open Scope record_scope.

(** ** Builtin identifiers *)

Inductive BuiltinId :=
| AddInteger | SubtractInteger | MultiplyInteger | DivideInteger | QuotientInteger
| RemainderInteger | ModInteger | EqualsInteger | LessThanInteger | LessThanEqualsInteger
| AppendByteString | ConsByteString | SliceByteString | LengthOfByteString
| IndexByteString | EqualsByteString | LessThanByteString | LessThanEqualsByteString
| Sha2_256 | Sha3_256 | Blake2b_256 | VerifyEd25519Signature | AppendString | EqualsString
| EncodeUtf8 | DecodeUtf8 | IfThenElse | ChooseUnit | Trace | FstPair | SndPair
| ChooseList | MkCons | HeadList | TailList | NullList | ChooseData | ConstrData | MapData
| ListData | IData | BData | UnConstrData | UnMapData | UnListData | UnIData | UnBData
| EqualsData | MkPairData | MkNilData | MkNilPairData | SerialiseData
| VerifyEcdsaSecp256k1Signature | VerifySchnorrSecp256k1Signature | Bls12_381_G1_Add
| Bls12_381_G1_Neg | Bls12_381_G1_ScalarMul | Bls12_381_G1_Equal | Bls12_381_G1_Compress
| Bls12_381_G1_Uncompress | Bls12_381_G1_HashToGroup | Bls12_381_G2_Add | Bls12_381_G2_Neg
| Bls12_381_G2_ScalarMul | Bls12_381_G2_Equal | Bls12_381_G2_Compress
| Bls12_381_G2_Uncompress | Bls12_381_G2_HashToGroup | Bls12_381_MillerLoop
| Bls12_381_MulMlResult | Bls12_381_FinalVerify | Keccak_256 | Blake2b_224
| IntegerToByteString | ByteStringToInteger | AndByteString | OrByteString | XorByteString
| ComplementByteString | ReadBit | WriteBits | ReplicateByte | ShiftByteString
| RotateByteString | CountSetBits | FindFirstSetBit | Ripemd_160 | ExpModInteger
| DropList | LengthOfArray | ListToArray | IndexArray | Bls12_381_G1_MultiScalarMul
| Bls12_381_G2_MultiScalarMul | InsertCoin | LookupCoin | UnionValue | ValueContains
| ValueData | UnValueData | ScaleValue.

Definition as_u8 (id : BuiltinId) : Z :=
  match id with
  | AddInteger => 0 | SubtractInteger => 1 | MultiplyInteger => 2 | DivideInteger => 3
  | QuotientInteger => 4 | RemainderInteger => 5 | ModInteger => 6 | EqualsInteger => 7
  | LessThanInteger => 8 | LessThanEqualsInteger => 9 | AppendByteString => 10
  | ConsByteString => 11 | SliceByteString => 12 | LengthOfByteString => 13
  | IndexByteString => 14 | EqualsByteString => 15 | LessThanByteString => 16
  | LessThanEqualsByteString => 17 | Sha2_256 => 18 | Sha3_256 => 19 | Blake2b_256 => 20
  | VerifyEd25519Signature => 21 | AppendString => 22 | EqualsString => 23
  | EncodeUtf8 => 24 | DecodeUtf8 => 25 | IfThenElse => 26 | ChooseUnit => 27
  | Trace => 28 | FstPair => 29 | SndPair => 30 | ChooseList => 31 | MkCons => 32
  | HeadList => 33 | TailList => 34 | NullList => 35 | ChooseData => 36 | ConstrData => 37
  | MapData => 38 | ListData => 39 | IData => 40 | BData => 41 | UnConstrData => 42
  | UnMapData => 43 | UnListData => 44 | UnIData => 45 | UnBData => 46 | EqualsData => 47
  | MkPairData => 48 | MkNilData => 49 | MkNilPairData => 50 | SerialiseData => 51
  | VerifyEcdsaSecp256k1Signature => 52 | VerifySchnorrSecp256k1Signature => 53
  | Bls12_381_G1_Add => 54 | Bls12_381_G1_Neg => 55 | Bls12_381_G1_ScalarMul => 56
  | Bls12_381_G1_Equal => 57 | Bls12_381_G1_Compress => 58 | Bls12_381_G1_Uncompress => 59
  | Bls12_381_G1_HashToGroup => 60 | Bls12_381_G2_Add => 61 | Bls12_381_G2_Neg => 62
  | Bls12_381_G2_ScalarMul => 63 | Bls12_381_G2_Equal => 64 | Bls12_381_G2_Compress => 65
  | Bls12_381_G2_Uncompress => 66 | Bls12_381_G2_HashToGroup => 67
  | Bls12_381_MillerLoop => 68 | Bls12_381_MulMlResult => 69 | Bls12_381_FinalVerify => 70
  | Keccak_256 => 71 | Blake2b_224 => 72 | IntegerToByteString => 73
  | ByteStringToInteger => 74 | AndByteString => 75 | OrByteString => 76
  | XorByteString => 77 | ComplementByteString => 78 | ReadBit => 79 | WriteBits => 80
  | ReplicateByte => 81 | ShiftByteString => 82 | RotateByteString => 83
  | CountSetBits => 84 | FindFirstSetBit => 85 | Ripemd_160 => 86 | ExpModInteger => 87
  | DropList => 88 | LengthOfArray => 89 | ListToArray => 90 | IndexArray => 91
  | Bls12_381_G1_MultiScalarMul => 92 | Bls12_381_G2_MultiScalarMul => 93
  | InsertCoin => 94 | LookupCoin => 95 | UnionValue => 96 | ValueContains => 97
  | ValueData => 98 | UnValueData => 99 | ScaleValue => 100
  end.

(** The order of the enumeration, which is the order of the wire identifiers. *)
Definition builtin_table : list BuiltinId :=
  [AddInteger; SubtractInteger; MultiplyInteger; DivideInteger; QuotientInteger;
   RemainderInteger; ModInteger; EqualsInteger; LessThanInteger; LessThanEqualsInteger;
   AppendByteString; ConsByteString; SliceByteString; LengthOfByteString; IndexByteString;
   EqualsByteString; LessThanByteString; LessThanEqualsByteString; Sha2_256; Sha3_256;
   Blake2b_256; VerifyEd25519Signature; AppendString; EqualsString; EncodeUtf8;
   DecodeUtf8; IfThenElse; ChooseUnit; Trace; FstPair; SndPair; ChooseList; MkCons;
   HeadList; TailList; NullList; ChooseData; ConstrData; MapData; ListData; IData; BData;
   UnConstrData; UnMapData; UnListData; UnIData; UnBData; EqualsData; MkPairData;
   MkNilData; MkNilPairData; SerialiseData; VerifyEcdsaSecp256k1Signature;
   VerifySchnorrSecp256k1Signature; Bls12_381_G1_Add; Bls12_381_G1_Neg;
   Bls12_381_G1_ScalarMul; Bls12_381_G1_Equal; Bls12_381_G1_Compress;
   Bls12_381_G1_Uncompress; Bls12_381_G1_HashToGroup; Bls12_381_G2_Add; Bls12_381_G2_Neg;
   Bls12_381_G2_ScalarMul; Bls12_381_G2_Equal; Bls12_381_G2_Compress;
   Bls12_381_G2_Uncompress; Bls12_381_G2_HashToGroup; Bls12_381_MillerLoop;
   Bls12_381_MulMlResult; Bls12_381_FinalVerify; Keccak_256; Blake2b_224;
   IntegerToByteString; ByteStringToInteger; AndByteString; OrByteString; XorByteString;
   ComplementByteString; ReadBit; WriteBits; ReplicateByte; ShiftByteString;
   RotateByteString; CountSetBits; FindFirstSetBit; Ripemd_160; ExpModInteger; DropList;
   LengthOfArray; ListToArray; IndexArray; Bls12_381_G1_MultiScalarMul;
   Bls12_381_G2_MultiScalarMul; InsertCoin; LookupCoin; UnionValue; ValueContains;
   ValueData; UnValueData; ScaleValue].

Definition from_u8 (raw : Z) : option BuiltinId := builtin_table !! Z.to_nat raw.

Lemma from_as_u8 id : from_u8 (as_u8 id) = Some id.
Proof. by destruct id. Qed.

#[global] Instance as_u8_inj : Inj (=) (=) as_u8.
Proof. intros x y H. apply (f_equal from_u8) in H. rewrite !from_as_u8 in H. by inversion H. Qed.

#[global] Instance BuiltinId_eq_dec : EqDecision BuiltinId.
Proof.
  refine (λ x y, cast_if (decide (as_u8 x = as_u8 y))).
  - abstract (by apply as_u8_inj).
  - abstract (intros Hxy; by subst).
Defined.

Inductive ScriptLanguage := PlutusV1 | PlutusV2 | PlutusV3 | PlutusV4.

Definition is_available_in (id : BuiltinId) (language : ScriptLanguage) (major_pv : Z) : bool :=
  let raw := as_u8 id in
  let earliest_pv :=
    if raw <=? 50 then match language with PlutusV1 => 5 | PlutusV2 => 7 | _ => 9 end
    else if raw =? 51 then match language with PlutusV1 => 11 | PlutusV2 => 7 | _ => 9 end
    else if raw <=? 53 then match language with PlutusV1 => 11 | PlutusV2 => 8 | _ => 9 end
    else if raw <=? 72 then match language with PlutusV1 => 11 | PlutusV2 => 11 | _ => 9 end
    else if raw <=? 74 then match language with PlutusV1 => 11 | PlutusV2 => 10 | _ => 9 end
    else if raw <=? 86 then match language with PlutusV1 => 11 | PlutusV2 => 11 | _ => 10 end
    else 11 in
  earliest_pv <=? major_pv.

(** ** Semantics variants *)

Inductive SemanticsVariant := VariantA | VariantB | VariantC | VariantD | VariantE.

Definition CHANG_PV : Z := 9.
Definition VAN_ROSSEM_PV : Z := 11.
Definition LATEST : SemanticsVariant := VariantE.

Definition for_script (language : ScriptLanguage) (major_pv : Z) : SemanticsVariant :=
  match language with
  | PlutusV1 | PlutusV2 =>
      if major_pv <? CHANG_PV then VariantA
      else if major_pv <? VAN_ROSSEM_PV then VariantB else VariantD
  | PlutusV3 | PlutusV4 => if major_pv <? VAN_ROSSEM_PV then VariantC else VariantE
  end.

Definition cons_byte_string_strict (v : SemanticsVariant) : bool :=
  match v with VariantC | VariantE => true | _ => false end.
Definition bitwise_max_input_enforced (v : SemanticsVariant) : bool :=
  match v with VariantD | VariantE => true | _ => false end.
Definition text_costed_by_byte_length (v : SemanticsVariant) : bool :=
  match v with VariantD | VariantE => true | _ => false end.
Definition case_on_constant_available (v : SemanticsVariant) : bool :=
  match v with VariantD | VariantE => true | _ => false end.
Definition constr_data_requires_word64 (v : SemanticsVariant) : bool :=
  match v with VariantD | VariantE => true | _ => false end.

(** ** Data, types, constants, terms *)

Inductive Data :=
| DConstr (tag : Z) (args : list Data)
| DMap (entries : list (Data * Data))
| DList (items : list Data)
| DI (n : Z)
| DB (bs : list Z).

Inductive TypeTag :=
| TyInteger | TyByteString | TyString | TyUnit | TyBool | TyData
| TyList (a : TypeTag) | TyPair (a b : TypeTag)
| TyG1 | TyG2 | TyMlResult
| TyArray (a : TypeTag) | TyValue.

#[global] Instance TypeTag_eq_dec : EqDecision TypeTag.
Proof. solve_decision. Defined.

(** [BTreeMap<Vec<u8>, BTreeMap<Vec<u8>, i128>>], in key order. *)
Abbreviation ValueMap := (list (list Z * list (list Z * Z))).

Inductive Constant :=
| CInteger (n : Z)
| CByteString (bs : list Z)
| CString (s : list Z)
| CUnit
| CBool (b : bool)
| CList (elem_type : TypeTag) (elements : list Constant)
| CPair (a_type b_type : TypeTag) (a b : Constant)
| CData (d : Data)
| CG1 (bs : list Z)
| CG2 (bs : list Z)
| CMlResult (bs : list Z)
| CArray (elem_type : TypeTag) (elements : list Constant)
| CValue (v : ValueMap).

Definition type_tag (c : Constant) : TypeTag :=
  match c with
  | CInteger _ => TyInteger
  | CByteString _ => TyByteString
  | CString _ => TyString
  | CUnit => TyUnit
  | CBool _ => TyBool
  | CList a _ => TyList a
  | CPair a b _ _ => TyPair a b
  | CData _ => TyData
  | CG1 _ => TyG1
  | CG2 _ => TyG2
  | CMlResult _ => TyMlResult
  | CArray a _ => TyArray a
  | CValue _ => TyValue
  end.

Inductive Term :=
| TVar (i : Z)
| TLam (body : Term)
| TApp (fn arg : Term)
| TConst (c : Constant)
| TDelay (body : Term)
| TForce (body : Term)
| TError
| TBuiltin (id : BuiltinId)
| TConstr (tag : Z) (args : list Term)
| TCase (scrutinee : Term) (branches : list Term).

(** ** Errors *)

(** What the message of a machine error says. *)
Inductive MachineReason := OpenTerm | NonFunction | NonDelay | NonConstr.

Inductive UplcError :=
| FlatDecode
| UplcCborDecode
| EncodeError
| ScriptError
| BudgetExhausted (cpu_remaining mem_remaining : Z)
| BuiltinTypeError (builtin : BuiltinId)
| BuiltinFailure (builtin : BuiltinId)
| NonUnitReturn
| FreeVariable (i : Z)
| MachineError (reason : MachineReason)
| InternalError.

Abbreviation uplc_result := (result UplcError).

(** ** Arities ([builtin/arity.rs]) *)

Definition arity_of (id : BuiltinId) : nat * nat :=
  match id with
  | AddInteger | SubtractInteger | MultiplyInteger | DivideInteger | QuotientInteger
  | RemainderInteger | ModInteger | EqualsInteger | LessThanInteger | LessThanEqualsInteger => (0, 2)
  | AppendByteString | ConsByteString => (0, 2)
  | SliceByteString => (0, 3)
  | LengthOfByteString => (0, 1)
  | IndexByteString => (0, 2)
  | EqualsByteString | LessThanByteString | LessThanEqualsByteString => (0, 2)
  | Sha2_256 | Sha3_256 | Blake2b_256 => (0, 1)
  | VerifyEd25519Signature => (0, 3)
  | AppendString | EqualsString => (0, 2)
  | EncodeUtf8 | DecodeUtf8 => (0, 1)
  | IfThenElse => (1, 3)
  | ChooseUnit => (1, 2)
  | Trace => (1, 2)
  | FstPair | SndPair => (2, 1)
  | ChooseList => (2, 3)
  | MkCons => (1, 2)
  | HeadList | TailList | NullList => (1, 1)
  | ChooseData => (1, 6)
  | ConstrData => (0, 2)
  | MapData | ListData | IData | BData => (0, 1)
  | UnConstrData | UnMapData | UnListData | UnIData | UnBData => (0, 1)
  | EqualsData => (0, 2)
  | MkPairData => (0, 2)
  | MkNilData | MkNilPairData => (0, 1)
  | SerialiseData => (0, 1)
  | VerifyEcdsaSecp256k1Signature | VerifySchnorrSecp256k1Signature => (0, 3)
  | Bls12_381_G1_Add | Bls12_381_G1_Equal => (0, 2)
  | Bls12_381_G1_Neg | Bls12_381_G1_Compress | Bls12_381_G1_Uncompress => (0, 1)
  | Bls12_381_G1_ScalarMul | Bls12_381_G1_HashToGroup => (0, 2)
  | Bls12_381_G2_Add | Bls12_381_G2_Equal => (0, 2)
  | Bls12_381_G2_Neg | Bls12_381_G2_Compress | Bls12_381_G2_Uncompress => (0, 1)
  | Bls12_381_G2_ScalarMul | Bls12_381_G2_HashToGroup => (0, 2)
  | Bls12_381_MillerLoop | Bls12_381_MulMlResult => (0, 2)
  | Bls12_381_FinalVerify => (0, 2)
  | Keccak_256 | Blake2b_224 => (0, 1)
  | Ripemd_160 => (0, 1)
  | IntegerToByteString => (0, 3)
  | ByteStringToInteger => (0, 2)
  | AndByteString | OrByteString | XorByteString => (0, 3)
  | ComplementByteString => (0, 1)
  | ReadBit => (0, 2)
  | WriteBits => (0, 3)
  | ReplicateByte => (0, 2)
  | ShiftByteString | RotateByteString => (0, 2)
  | CountSetBits | FindFirstSetBit => (0, 1)
  | ExpModInteger => (0, 3)
  | DropList => (1, 2)
  | IndexArray => (1, 2)
  | LengthOfArray => (1, 1)
  | ListToArray => (1, 1)
  | InsertCoin => (0, 4)
  | LookupCoin => (0, 3)
  | ScaleValue => (0, 2)
  | UnValueData => (0, 1)
  | ValueData => (0, 1)
  | ValueContains => (0, 2)
  | UnionValue => (0, 2)
  | Bls12_381_G1_MultiScalarMul => (0, 2)
  | Bls12_381_G2_MultiScalarMul => (0, 2)
  end%nat.

(** ** Machine values, environments and frames *)

(** An environment is the chain of its cells, innermost binder first; the cached
    [depth] of the code is its length. *)
Inductive Value :=
| VConst (c : Constant)
| VLambda (body : Term) (env : list Value)
| VDelay (body : Term) (env : list Value)
| VBuiltin (id : BuiltinId) (forces : nat) (args : list Value)
| VConstr (tag : Z) (args : list Value).

Abbreviation Env := (list Value).

Definition env_depth (env : Env) : Z := Z.of_nat (length env).
Definition env_extend (env : Env) (v : Value) : Env := v :: env.

Definition env_lookup (env : Env) (index : Z) : uplc_result Value :=
  if index =? 0 then Err (MachineError OpenTerm)
  else if env_depth env <? index then Err (MachineError OpenTerm)
  else match env !! Z.to_nat (index - 1) with
       | Some v => Ok v
       | None => Err (MachineError OpenTerm)
       end.

(** The pending arguments of a [Constr] frame are kept reversed and popped from
    the end in the code; here the next one is the head. *)
Inductive Frame :=
| FAwaitArg (function : Value) (env : Env)
| FAwaitFunTerm (argument : Term) (env : Env)
| FForce
| FApplyValue (argument : Value)
| FConstr (tag : Z) (pending : list Term) (evaluated : list Value) (env : Env)
| FCases (branches : list Term) (env : Env).

(** The top of the stack is the head. *)
Abbreviation Kont := (list Frame).

Inductive State :=
| Compute (term : Term) (env : Env) (kont : Kont)
| Return (value : Value) (kont : Kont)
| Done (value : Value).

(** ** Budgets *)

Definition i64_min : Z := -9223372036854775808.
Definition i64_max : Z := 9223372036854775807.
Definition sat64 (x : Z) : Z := Z.max i64_min (Z.min x i64_max).

Record ExBudget := mkBudget { cpu : Z; mem : Z }.

Definition budget_zero : ExBudget := mkBudget 0 0.

Definition saturating_sum (a b : ExBudget) : ExBudget :=
  mkBudget (sat64 (cpu a + cpu b)) (sat64 (mem a + mem b)).

Definition subtract_saturating (self other : ExBudget) : ExBudget :=
  mkBudget (sat64 (cpu self - cpu other)) (sat64 (mem self - mem other)).

(** [None] leaves the budget as it is. *)
Definition try_subtract (self other : ExBudget) : option ExBudget :=
  let new := subtract_saturating self other in
  if (cpu new <? 0) || (mem new <? 0) then None else Some new.

Record MachineCosts := mkMachineCosts {
  mc_startup : ExBudget;
  mc_var : ExBudget;
  mc_constant : ExBudget;
  mc_lam : ExBudget;
  mc_delay : ExBudget;
  mc_force : ExBudget;
  mc_apply : ExBudget;
  mc_builtin : ExBudget;
  mc_constr : ExBudget;
  mc_case : ExBudget;
}.

Definition machine_costs_default : MachineCosts :=
  let step := mkBudget 16000 100 in
  mkMachineCosts (mkBudget 100 100) step step step step step step step step step.

Definition cost_for (self : MachineCosts) (term : Term) : ExBudget :=
  match term with
  | TVar _ => mc_var self
  | TConst _ => mc_constant self
  | TLam _ => mc_lam self
  | TDelay _ => mc_delay self
  | TForce _ => mc_force self
  | TApp _ _ => mc_apply self
  | TBuiltin _ => mc_builtin self
  | TConstr _ _ => mc_constr self
  | TCase _ _ => mc_case self
  | TError => budget_zero
  end.

Definition SLIPPAGE : Z := 200.

(** The cost table of the builtins as the function that charges for a saturated
    application ([BuiltinCosts::charge_for_args]). *)
Abbreviation BuiltinCosts := (BuiltinId → list Value → SemanticsVariant → ExBudget).

Record BudgetTracker := mkTracker {
  bt_remaining : ExBudget;
  bt_starting : ExBudget;
  bt_costs : MachineCosts;
  bt_builtin_costs : BuiltinCosts;
  bt_pending : ExBudget;
  bt_pending_count : Z;
  bt_counting : bool;
  bt_counting_spent : ExBudget;
}.

#[global] Instance BudgetTracker_fields : Fields BudgetTracker := λ s,
  mkTracker (bt_remaining s) (bt_starting s) (bt_costs s) (bt_builtin_costs s)
    (bt_pending s) (bt_pending_count s) (bt_counting s) (bt_counting_spent s).

(** [with_costs] and [with_applied]: the startup cost is subtracted even when
    the budget does not cover it. *)
Definition tracker_with_applied (initial : ExBudget) (costs : MachineCosts) (builtins : BuiltinCosts) :
    BudgetTracker :=
  mkTracker (subtract_saturating initial (mc_startup costs)) initial costs builtins
    budget_zero 0 false budget_zero.

Definition tracker_new_counting (builtins : BuiltinCosts) : BudgetTracker :=
  let top := mkBudget i64_max i64_max in
  mkTracker top top machine_costs_default builtins budget_zero 0 true
    (saturating_sum budget_zero (mc_startup machine_costs_default)).

(** What [flush] and [charge] share: account for [cost] at once. *)
Definition spend (cost : ExBudget) (t : BudgetTracker) : uplc_result () * BudgetTracker :=
  if bt_counting t then
    (Ok (), t <| bt_counting_spent := saturating_sum (bt_counting_spent t) cost |>)
  else
    match try_subtract (bt_remaining t) cost with
    | Some rest => (Ok (), t <| bt_remaining := rest |>)
    | None => (Err (BudgetExhausted (cpu (bt_remaining t)) (mem (bt_remaining t))), t)
    end.

Definition tracker_flush (t : BudgetTracker) : uplc_result () * BudgetTracker :=
  let cost := bt_pending t in
  let t := t <| bt_pending := budget_zero |> <| bt_pending_count := 0 |> in
  if (cpu cost =? 0) && (mem cost =? 0) then (Ok (), t) else spend cost t.

Definition compute_step (term : Term) (t : BudgetTracker) : uplc_result () * BudgetTracker :=
  let cost := cost_for (bt_costs t) term in
  let t := t <| bt_pending := saturating_sum (bt_pending t) cost |>
             <| bt_pending_count := saturating_add64 (bt_pending_count t) 1 |> in
  if SLIPPAGE <=? bt_pending_count t then tracker_flush t else (Ok (), t).

Definition tracker_charge (cost : ExBudget) (t : BudgetTracker) : uplc_result () * BudgetTracker :=
  match tracker_flush t with
  | (Ok _, t) => spend cost t
  | (Err e, t) => (Err e, t)
  end.

Definition tracker_consumed (t : BudgetTracker) : ExBudget :=
  if bt_counting t then saturating_sum (bt_counting_spent t) (bt_pending t)
  else mkBudget (sat64 (cpu (bt_starting t) - cpu (bt_remaining t) + cpu (bt_pending t)))
                (sat64 (mem (bt_starting t) - mem (bt_remaining t) + mem (bt_pending t))).

(** ** What an evaluation changes: the tracker and the trace log, if any *)

Record World := mkWorld {
  w_tracker : option BudgetTracker;
  w_trace_log : option (list (list Z));
}.

#[global] Instance World_fields : Fields World := λ w, mkWorld (w_tracker w) (w_trace_log w).

Definition ueff (A : Type) : Type := World → uplc_result A * World.

#[global] Instance ueff_ret : MRet ueff := λ A a w, (Ok a, w).
#[global] Instance ueff_bind : MBind ueff := λ A B k m w,
  match m w with
  | (Ok a, w') => k a w'
  | (Err e, w') => (Err e, w')
  end.

Definition ulift {A} (r : uplc_result A) : ueff A := λ w, (r, w).

(** [if let Some(t) = tracker { op(t)? }] *)
Definition with_tracker (op : BudgetTracker → uplc_result () * BudgetTracker) : ueff () := λ w,
  match w_tracker w with
  | None => (Ok (), w)
  | Some t => let '(r, t') := op t in (r, w <| w_tracker := Some t' |>)
  end.

(** [if let Some(log) = trace_log { log.push(s) }] *)
Definition emit (s : list Z) : ueff () := λ w,
  (Ok (), w <| w_trace_log ::= fmap (λ log, log ++ [s]) |>).
