(* ===== verification/UplcBls.v ===== *)
(** * BLS12-381 builtins ([crates/dugite-uplc/src/builtin/bls.rs])

    The curve arithmetic of the [blst] library is a parameter ([Blst]): a point is
    an abstract value, [uncompress] is [blst_p1_uncompress] followed by
    [blst_p1_from_affine] ([None] when the library reports an error), and an
    element of the target field is its 576 bytes, which the code copies in and out
    of the library's struct. The code has a function per group; they are the
    instances of one definition here. The decompression cache is modelled on its
    own and shown to be transparent. *)

From S2P Require Import Prelude Bytes Uplc.
Local Open Scope Z_scope.

(** ** The library *)

Class BlstGroup (P : Type) := {
  blst_default : P;
  blst_uncompress : list Z → option P;
  blst_compress : P → list Z;
  blst_in_group : P → bool;
  blst_add_or_double : P → P → P;
  blst_cneg : P → P;
  blst_mult : P → list Z → P;
  blst_is_equal : P → P → bool;
  blst_hash_to : list Z → list Z → P;
}.

Class Blst := {
  blst_p1 : Type;
  blst_p2 : Type;
  blst_g1 :: BlstGroup blst_p1;
  blst_g2 :: BlstGroup blst_p2;
  (** from affine coordinates, the point of the second group first *)
  blst_miller_loop : blst_p2 → blst_p1 → list Z;
  blst_fp12_mul : list Z → list Z → list Z;
  blst_fp12_finalverify : list Z → list Z → bool;
}.

Definition G1_COMPRESSED_BYTES : nat := 48.
Definition G2_COMPRESSED_BYTES : nat := 96.
Definition FP12_BYTES : nat := 576.
Definition MAX_HASH_TO_GROUP_DST_BYTES : nat := 255.
Definition BLS_DECOMPRESS_CACHE_CAP : nat := 1024.

(** ** Scalars *)

Definition bls_scalar_r : Z :=
  0x73eda753299d7d483339d80809a1d80553bda402fffe5bfeffffffff00000001.

Definition bigint_in_msm_scalar_range (n : Z) : bool :=
  if n =? 0 then true
  else let bound := 2 ^ 4095 in
       if 0 <? n then Z.abs n <? bound else Z.abs n <=? bound.

Definition bigint_to_blst_scalar (n : Z) : list Z :=
  let r := bls_scalar_r in
  let reduced := Z.rem (Z.rem n r + r) r in
  le_bytes 32 reduced.

(** ** Arguments *)

Definition unwrap_integer_for_bls (v : option Value) (id : BuiltinId) : uplc_result Z :=
  match v with
  | Some (VConst (CInteger i)) => Ok i
  | Some _ => Err (BuiltinTypeError id)
  | None => Err InternalError
  end.

Definition unwrap_bytes (v : option Value) (id : BuiltinId) : uplc_result (list Z) :=
  match v with
  | Some (VConst (CByteString b)) => Ok b
  | Some _ => Err (BuiltinTypeError id)
  | None => Err InternalError
  end.

Definition unwrap_ml_bytes (v : option Value) (id : BuiltinId) : uplc_result (list Z) :=
  match v with
  | Some (VConst (CMlResult b)) => Ok b
  | Some _ => Err (BuiltinTypeError id)
  | None => Err InternalError
  end.

(** [.into_iter().map(..).collect::<Result<Vec<_>, _>>()] *)
Fixpoint collect_results {A B} (f : A → uplc_result B) (l : list A) : uplc_result (list B) :=
  match l with
  | [] => Ok []
  | x :: rest => y ← f x; ys ← collect_results f rest; Ok (y :: ys)
  end.

(** The elements of a list constant declared with the element type [t]. *)
Definition typed_list {A} (id : BuiltinId) (t : TypeTag) (f : Constant → option A) (v : Value) :
    uplc_result (list A) :=
  match v with
  | VConst (CList elem_type elements) =>
      if bool_decide (elem_type = t)
      then collect_results
             (λ c, match f c with Some a => Ok a | None => Err (BuiltinTypeError id) end) elements
      else Err (BuiltinTypeError id)
  | _ => Err (BuiltinTypeError id)
  end.

Definition const_integer (c : Constant) : option Z :=
  match c with CInteger i => Some i | _ => None end.
Definition const_g1 (c : Constant) : option (list Z) :=
  match c with CG1 b => Some b | _ => None end.
Definition const_g2 (c : Constant) : option (list Z) :=
  match c with CG2 b => Some b | _ => None end.

(** ** The operations of one group *)

Section group.
Context {P : Type} {G : BlstGroup P}.
Context (bytes : nat) (elem_type : TypeTag) (con : list Z → Constant) (uncon : Constant → option (list Z)).

Definition unwrap_group_bytes (v : option Value) (id : BuiltinId) : uplc_result (list Z) :=
  match v with
  | Some (VConst c) => match uncon c with Some b => Ok b | None => Err (BuiltinTypeError id) end
  | Some _ => Err (BuiltinTypeError id)
  | None => Err InternalError
  end.

Definition to_value (p : P) : Constant := con (blst_compress p).

(** [uncompress_g1]: raw bytes are checked for their length and the subgroup. *)
Definition uncompress (bs : list Z) (id : BuiltinId) : uplc_result P :=
  if negb (length bs =? bytes)%nat then Err (BuiltinFailure id) else
  match blst_uncompress bs with
  | None => Err (BuiltinFailure id)
  | Some p => if blst_in_group p then Ok p else Err (BuiltinFailure id)
  end.

(** [validate_g1_compressed] *)
Definition validate_compressed (bs : list Z) : bool :=
  (length bs =? bytes)%nat &&
  match blst_uncompress bs with Some p => blst_in_group p | None => false end.

(** The bytes of an element are decoded without the subgroup check. *)
Definition decompress_trusted_uncached (bs : list Z) : uplc_result P :=
  match blst_uncompress bs with Some p => Ok p | None => Err InternalError end.

(** The thread-local cache, cleared when it is full. *)
Definition decompress_trusted (bs : list Z) (cache : gmap (list Z) P) : uplc_result P * gmap (list Z) P :=
  match cache !! bs with
  | Some p => (Ok p, cache)
  | None =>
      match decompress_trusted_uncached bs with
      | Err e => (Err e, cache)
      | Ok p =>
          let cache := if (BLS_DECOMPRESS_CACHE_CAP <=? size cache)%nat then ∅ else cache in
          (Ok p, <[bs := p]> cache)
      end
  end.

Definition take_one (args : list Value) (id : BuiltinId) : uplc_result P :=
  p_bytes ← unwrap_group_bytes (args !! 0%nat) id; decompress_trusted_uncached p_bytes.

Definition take_two (args : list Value) (id : BuiltinId) : uplc_result (P * P) :=
  a_bytes ← unwrap_group_bytes (args !! 0%nat) id;
  b_bytes ← unwrap_group_bytes (args !! 1%nat) id;
  a ← decompress_trusted_uncached a_bytes;
  b ← decompress_trusted_uncached b_bytes;
  Ok (a, b).

Definition group_binop (args : list Value) (id : BuiltinId) (op : P → P → P) : uplc_result Constant :=
  '(a, b) ← take_two args id; Ok (to_value (op a b)).

Definition group_unop (args : list Value) (id : BuiltinId) (op : P → P) : uplc_result Constant :=
  p ← take_one args id; Ok (to_value (op p)).

Definition scalar_mul (args : list Value) (id : BuiltinId) : uplc_result Constant :=
  s ← unwrap_integer_for_bls (args !! 0%nat) id;
  p_bytes ← unwrap_group_bytes (args !! 1%nat) id;
  p ← decompress_trusted_uncached p_bytes;
  Ok (to_value (blst_mult p (bigint_to_blst_scalar s))).

Definition group_eq (args : list Value) (id : BuiltinId) : uplc_result Constant :=
  '(a, b) ← take_two args id; Ok (CBool (blst_is_equal a b)).

Definition hash_to_group (args : list Value) (id : BuiltinId) : uplc_result Constant :=
  msg ← unwrap_bytes (args !! 0%nat) id;
  dst ← unwrap_bytes (args !! 1%nat) id;
  if (MAX_HASH_TO_GROUP_DST_BYTES <? length dst)%nat then Err (BuiltinFailure id)
  else Ok (to_value (blst_hash_to msg dst)).

Definition group_compress (args : list Value) (id : BuiltinId) : uplc_result Constant :=
  p ← take_one args id; Ok (CByteString (blst_compress p)).

(** The checked input is returned as it is. *)
Definition group_uncompress (args : list Value) (id : BuiltinId) : uplc_result Constant :=
  bs ← unwrap_bytes (args !! 0%nat) id;
  if negb (length bs =? bytes)%nat then Err (BuiltinFailure id) else
  _ ← uncompress bs id;
  Ok (con bs).

Fixpoint msm_loop (id : BuiltinId) (pairs : list (Z * list Z)) (acc : P) : uplc_result P :=
  match pairs with
  | [] => Ok acc
  | (s, p_bytes) :: rest =>
      if negb (bigint_in_msm_scalar_range s) then Err (BuiltinFailure id) else
      p ← decompress_trusted_uncached p_bytes;
      msm_loop id rest (blst_add_or_double acc (blst_mult p (bigint_to_blst_scalar s)))
  end.

(** Excess entries of the longer list are ignored. *)
Definition multi_scalar_mul (id : BuiltinId) (scalars_val points_val : Value) : uplc_result Constant :=
  scalars ← typed_list id TyInteger const_integer scalars_val;
  points ← typed_list id elem_type uncon points_val;
  acc ← msm_loop id (combine scalars points) blst_default;
  Ok (to_value acc).

End group.

(** ** Dispatch *)

Section dispatch.
Context {B : Blst}.

Definition miller_loop (args : list Value) (id : BuiltinId) : uplc_result Constant :=
  g1_bytes ← unwrap_group_bytes const_g1 (args !! 0%nat) id;
  g2_bytes ← unwrap_group_bytes const_g2 (args !! 1%nat) id;
  g1 ← decompress_trusted_uncached (G := blst_g1) g1_bytes;
  g2 ← decompress_trusted_uncached (G := blst_g2) g2_bytes;
  Ok (CMlResult (blst_miller_loop g2 g1)).

Definition mul_ml (args : list Value) (id : BuiltinId) : uplc_result Constant :=
  a ← unwrap_ml_bytes (args !! 0%nat) id;
  b ← unwrap_ml_bytes (args !! 1%nat) id;
  Ok (CMlResult (blst_fp12_mul a b)).

Definition final_verify (args : list Value) (id : BuiltinId) : uplc_result Constant :=
  a ← unwrap_ml_bytes (args !! 0%nat) id;
  b ← unwrap_ml_bytes (args !! 1%nat) id;
  Ok (CBool (blst_fp12_finalverify a b)).

Definition denote_bls (id : BuiltinId) (args : list Value) : uplc_result Constant :=
  match id with
  | Bls12_381_G1_Add => group_binop (G := blst_g1) CG1 const_g1 args id blst_add_or_double
  | Bls12_381_G1_Neg => group_unop (G := blst_g1) CG1 const_g1 args id blst_cneg
  | Bls12_381_G1_ScalarMul => scalar_mul (G := blst_g1) CG1 const_g1 args id
  | Bls12_381_G1_Equal => group_eq (G := blst_g1) const_g1 args id
  | Bls12_381_G1_HashToGroup => hash_to_group (G := blst_g1) CG1 args id
  | Bls12_381_G1_Compress => group_compress (G := blst_g1) const_g1 args id
  | Bls12_381_G1_Uncompress => group_uncompress (G := blst_g1) G1_COMPRESSED_BYTES CG1 args id
  | Bls12_381_G2_Add => group_binop (G := blst_g2) CG2 const_g2 args id blst_add_or_double
  | Bls12_381_G2_Neg => group_unop (G := blst_g2) CG2 const_g2 args id blst_cneg
  | Bls12_381_G2_ScalarMul => scalar_mul (G := blst_g2) CG2 const_g2 args id
  | Bls12_381_G2_Equal => group_eq (G := blst_g2) const_g2 args id
  | Bls12_381_G2_HashToGroup => hash_to_group (G := blst_g2) CG2 args id
  | Bls12_381_G2_Compress => group_compress (G := blst_g2) const_g2 args id
  | Bls12_381_G2_Uncompress => group_uncompress (G := blst_g2) G2_COMPRESSED_BYTES CG2 args id
  | Bls12_381_MillerLoop => miller_loop args id
  | Bls12_381_MulMlResult => mul_ml args id
  | Bls12_381_FinalVerify => final_verify args id
  | _ => Err InternalError
  end.

Definition denote_multi_scalar_mul (id : BuiltinId) (args : list Value) : uplc_result Constant :=
  match args !! 0%nat, args !! 1%nat with
  | Some scalars_val, Some points_val =>
      match id with
      | Bls12_381_G1_MultiScalarMul =>
          multi_scalar_mul (G := blst_g1) TyG1 CG1 const_g1 id scalars_val points_val
      | Bls12_381_G2_MultiScalarMul =>
          multi_scalar_mul (G := blst_g2) TyG2 CG2 const_g2 id scalars_val points_val
      | _ => _ ← typed_list id TyInteger const_integer scalars_val; Err InternalError
      end
  | _, _ => Err InternalError
  end.

End dispatch.

(** ** The cache *)

(** Whatever the cache holds, decompression gives what it gives without one, and
    the cache stays a table of that function, no larger than its capacity. *)
Definition cache_ok {P} {G : BlstGroup P} (cache : gmap (list Z) P) : Prop :=
  (∀ bs p, cache !! bs = Some p → blst_uncompress bs = Some p) ∧
  (size cache ≤ BLS_DECOMPRESS_CACHE_CAP)%nat.

Lemma cache_transparent {P} {G : BlstGroup P} (bs : list Z) (cache : gmap (list Z) P) :
  cache_ok cache →
  (decompress_trusted bs cache).1 = decompress_trusted_uncached bs ∧
  cache_ok (decompress_trusted bs cache).2.
Proof.
  intros [Hc Hs]. unfold decompress_trusted, decompress_trusted_uncached.
  destruct (cache !! bs) as [p|] eqn:Hb; [by rewrite (Hc _ _ Hb)|].
  destruct (blst_uncompress bs) as [p|] eqn:Hu; [|done]. split; [done|]. cbn [snd].
  destruct (Nat.leb_spec BLS_DECOMPRESS_CACHE_CAP (size cache)) as [Hle|Hlt].
  - split.
    + intros bs' p'. rewrite lookup_insert_Some, lookup_empty. by intros [[-> ->]|[_ ?]].
    + rewrite map_size_insert_None, map_size_empty by done. unfold BLS_DECOMPRESS_CACHE_CAP. lia.
  - split.
    + intros bs' p'. rewrite lookup_insert_Some. intros [[-> ->]|[_ H']]; [done|by apply Hc].
    + rewrite map_size_insert_None by done. lia.
Qed.
