(* ===== verification/UplcBuiltins.v ===== *)
(** * Denotations of the builtin functions ([crates/dugite-uplc/src/builtin/denotations.rs])

    [denote] is called with the arguments of a saturated builtin. A helper that
    takes the next argument fails with an internal error when there is none. The
    digest and signature libraries are parameters ([UplcCrypto], with [Blst]);
    [SerialiseData] is the encoder of [data.rs] over the header forms of the
    [minicbor] crate. *)

From Stdlib Require Import Zpow_facts.
From S2P Require Import Prelude Order Bytes Cbor Uplc UplcBls.
Local Open Scope Z_scope.

(** ** Third-party primitives *)

Class UplcCrypto := {
  sha2_256_digest : list Z → list Z;
  sha3_256_digest : list Z → list Z;
  blake2b_256_digest : list Z → list Z;
  blake2b_224_digest : list Z → list Z;
  keccak_256_digest : list Z → list Z;
  ripemd_160_digest : list Z → list Z;
  (** [VerifyingKey::from_bytes(pk).is_ok()] and [verify_strict(..).is_ok()] *)
  dalek_key_ok : list Z → bool;
  dalek_verify_strict : list Z → list Z → list Z → bool;
  (** [k256]: key and signature parsing, [s().is_high()], verification *)
  ecdsa_key_ok : list Z → bool;
  ecdsa_sig_ok : list Z → bool;
  ecdsa_s_high : list Z → bool;
  ecdsa_verify_prehash : list Z → list Z → list Z → bool;
  schnorr_key_ok : list Z → bool;
  schnorr_sig_ok : list Z → bool;
  schnorr_verify_raw : list Z → list Z → list Z → bool;
  (** the [blst] library *)
  uc_blst :: Blst;
}.

(** ** Arguments *)

Definition arg (args : list Value) (n : nat) : uplc_result Value :=
  match args !! n with Some v => Ok v | None => Err InternalError end.

Definition unwrap_integer (id : BuiltinId) (v : Value) : uplc_result Z :=
  match v with VConst (CInteger i) => Ok i | _ => Err (BuiltinTypeError id) end.
Definition unwrap_byte_string (id : BuiltinId) (v : Value) : uplc_result (list Z) :=
  match v with VConst (CByteString b) => Ok b | _ => Err (BuiltinTypeError id) end.
Definition unwrap_string (id : BuiltinId) (v : Value) : uplc_result (list Z) :=
  match v with VConst (CString s) => Ok s | _ => Err (BuiltinTypeError id) end.
Definition unwrap_bool (id : BuiltinId) (v : Value) : uplc_result bool :=
  match v with VConst (CBool b) => Ok b | _ => Err (BuiltinTypeError id) end.
Definition unwrap_proto_list (id : BuiltinId) (v : Value) : uplc_result (TypeTag * list Constant) :=
  match v with VConst (CList t l) => Ok (t, l) | _ => Err (BuiltinTypeError id) end.
Definition unwrap_proto_pair (id : BuiltinId) (v : Value) : uplc_result (Constant * Constant) :=
  match v with VConst (CPair _ _ a b) => Ok (a, b) | _ => Err (BuiltinTypeError id) end.
Definition unwrap_data (id : BuiltinId) (v : Value) : uplc_result Data :=
  match v with VConst (CData d) => Ok d | _ => Err (BuiltinTypeError id) end.
Definition unwrap_array (id : BuiltinId) (v : Value) : uplc_result (TypeTag * list Constant) :=
  match v with VConst (CArray t l) => Ok (t, l) | _ => Err (BuiltinTypeError id) end.
Definition unwrap_value (id : BuiltinId) (v : Value) : uplc_result ValueMap :=
  match v with VConst (CValue m) => Ok m | _ => Err (BuiltinTypeError id) end.

Definition int_arg id args n := v ← arg args n; unwrap_integer id v.
Definition bytes_arg id args n := v ← arg args n; unwrap_byte_string id v.
Definition string_arg id args n := v ← arg args n; unwrap_string id v.
Definition bool_arg id args n := v ← arg args n; unwrap_bool id v.
Definition list_arg id args n := v ← arg args n; unwrap_proto_list id v.
Definition data_arg id args n := v ← arg args n; unwrap_data id v.
Definition value_arg id args n := v ← arg args n; unwrap_value id v.

Definition ret_int (n : Z) : uplc_result Value := Ok (VConst (CInteger n)).
Definition ret_bool (b : bool) : uplc_result Value := Ok (VConst (CBool b)).
Definition ret_bytes (b : list Z) : uplc_result Value := Ok (VConst (CByteString b)).
Definition ret_data (d : Data) : uplc_result Value := Ok (VConst (CData d)).

(** ** Integer conversions *)

Definition i128_min : Z := -170141183460469231731687303715884105728.
Definition i128_max : Z := 170141183460469231731687303715884105727.

Definition to_i128 (n : Z) : option Z :=
  if (i128_min <=? n) && (n <=? i128_max) then Some n else None.

Definition bigint_to_u8 (id : BuiltinId) (i : Z) : uplc_result Z :=
  if (i <? 0) || (255 <? i) then Err (BuiltinFailure id) else Ok i.

Definition bigint_to_usize_or_failure (id : BuiltinId) (i : Z) : uplc_result nat :=
  if (i <? 0) || (u64_max <? i) then Err (BuiltinFailure id) else Ok (Z.to_nat i).

Definition bigint_to_i64_or_failure (id : BuiltinId) (i : Z) : uplc_result Z :=
  if (i64_min <=? i) && (i <=? i64_max) then Ok i else Err (BuiltinFailure id).

(** Clamped to [[0, usize::MAX]]; no list is longer than that. *)
Definition bigint_to_usize_clamped (i : Z) : Z :=
  if i <? 0 then 0 else if u64_max <? i then u64_max else i.

Definition i64_to_usize_clamped (n : Z) : Z := Z.max n 0.

Definition divide_haskell_div (a b : Z) : Z :=
  let q := Z.quot a b in
  let r := Z.rem a b in
  if negb (r =? 0) && negb (Bool.eqb (a <? 0) (b <? 0)) then q - 1 else q.

Definition mod_haskell_mod (a b : Z) : Z :=
  let r := Z.rem a b in
  if negb (r =? 0) && negb (Bool.eqb (a <? 0) (b <? 0)) then r + b else r.

(** [BigInt::to_bytes_be] of a magnitude: the fewest bytes, one for zero. *)
Definition byte_length (n : Z) : nat := Z.to_nat (Z.log2 n / 8 + 1).
Definition magnitude_be (n : Z) : list Z := be_bytes (byte_length n) n.

(** [BigInt::modpow], and [BigInt::modinv] by the extended Euclidean algorithm *)
Definition modpow (base e m : Z) : Z := Zpow_mod base e m.

Fixpoint egcd (fuel : nat) (r0 r1 s0 s1 : Z) : Z * Z :=
  match fuel with
  | O => (r0, s0)
  | S fuel' =>
      if r1 =? 0 then (r0, s0)
      else egcd fuel' r1 (r0 mod r1) s1 (s0 - (r0 / r1) * s1)
  end.

Definition modinv (base m : Z) : option Z :=
  let b := base mod m in
  let '(g, s) := egcd (S (Z.to_nat (2 * (Z.log2 m + 1)))) b m 1 0 in
  if g =? 1 then Some (s mod m) else None.

(** ** Byte strings *)

(** Bit [i] of a byte string: the last byte holds bits 0 to 7. *)
Definition byte_at (bs : list Z) (i : nat) : Z := nth (length bs - 1 - i / 8) bs 0.
Definition bit_of (bs : list Z) (i : nat) : bool :=
  negb (Z.land (Z.shiftr (byte_at bs i) (Z.of_nat (i mod 8))) 1 =? 0).

(** [out[len - 1 - i / 8] |= 1u8 << (i % 8)], and the clearing of the bit *)
Definition mask_of (i : nat) : Z := Z.shiftl 1 (Z.of_nat (i mod 8)).
Definition set_bit_at (i : nat) (out : list Z) : list Z :=
  alter (λ b, Z.lor b (mask_of i)) (length out - 1 - i / 8)%nat out.
Definition clear_bit_at (i : nat) (out : list Z) : list Z :=
  alter (λ b, Z.land b (255 - mask_of i)) (length out - 1 - i / 8)%nat out.

(** The loops of [ShiftByteString] and [RotateByteString]: bit [t] of the result
    is bit [src t] of the input. *)
Definition move_bits (bs : list Z) (src : nat → option nat) : list Z :=
  foldl (λ out t,
    match src t with
    | Some s => if (s <? length bs * 8)%nat && bit_of bs s then set_bit_at t out else out
    | None => out
    end) (zeroes (length bs)) (seq 0 (length bs * 8)).

Definition shift_byte_string (bs : list Z) (shift : Z) : list Z :=
  let len_bits := (length bs * 8)%nat in
  if Z.of_nat len_bits <=? Z.abs shift then zeroes (length bs) else
  let n := Z.to_nat (Z.abs shift) in
  move_bits bs (λ t, if shift <? 0 then Some (t + n)%nat
                     else if (t <? n)%nat then None else Some (t - n)%nat).

Definition rotate_byte_string (bs : list Z) (rotate : Z) : list Z :=
  let len_bits := (length bs * 8)%nat in
  let len_bi := Z.of_nat len_bits in
  let r := Z.to_nat (Z.rem (Z.rem rotate len_bi + len_bi) len_bi) in
  move_bits bs (λ t, Some ((t + len_bits - r) mod len_bits)%nat).

Definition count_ones (b : Z) : Z :=
  foldr Z.add 0 ((λ i, Z.land (Z.shiftr b i) 1) <$> [0; 1; 2; 3; 4; 5; 6; 7]).

(** [u8::trailing_zeros] of a non-zero byte *)
Fixpoint trailing_zeros (fuel : nat) (b : Z) : Z :=
  match fuel with
  | O => 0
  | S fuel' => if Z.odd b then 0 else 1 + trailing_zeros fuel' (Z.shiftr b 1)
  end.

(** The bytes from the last one; [offset] of them are zero. *)
Fixpoint find_first_set (rev_bytes : list Z) (offset : Z) : Z :=
  match rev_bytes with
  | [] => -1
  | b :: rest =>
      if b =? 0 then find_first_set rest (offset + 1)
      else offset * 8 + trailing_zeros 8 b
  end.

Definition bitwise_byte_string (op : Z → Z → Z) (padded : bool) (a b : list Z) : list Z :=
  let '(shorter, longer) := if (length a <=? length b)%nat then (a, b) else (b, a) in
  zip_with op shorter longer ++ (if padded then drop (length shorter) longer else []).

Fixpoint write_bits (id : BuiltinId) (value : bool) (indices : list Constant) (out : list Z) :
    uplc_result (list Z) :=
  match indices with
  | [] => Ok out
  | CInteger i :: rest =>
      idx ← bigint_to_usize_or_failure id i;
      if (length out * 8 <=? idx)%nat then Err (BuiltinFailure id)
      else write_bits id value rest (if value then set_bit_at idx out else clear_bit_at idx out)
  | _ :: _ => Err (BuiltinTypeError id)
  end.

Definition WRITE_BITS_MAX_INPUT_LENGTH : nat := 4096.
Definition MAX_INT_TO_BS_WIDTH : nat := 8192.
Definition MAX_REPLICATE : nat := 8192.

Definition integer_to_byte_string (id : BuiltinId) (big_endian : bool) (width : nat) (n : Z) :
    uplc_result Value :=
  if (MAX_INT_TO_BS_WIDTH <? width)%nat then Err (BuiltinFailure id) else
  let be := magnitude_be n in
  if bool_decide (be = [0]) && (width =? 0)%nat then ret_bytes [] else
  if (width =? 0)%nat then
    if (MAX_INT_TO_BS_WIDTH <? length be)%nat then Err (BuiltinFailure id)
    else ret_bytes (if big_endian then be else reverse be)
  else if (width <? length be)%nat then Err (BuiltinFailure id)
  else
    let be := zeroes (width - length be) ++ be in
    ret_bytes (if big_endian then be else reverse be).

Definition byte_string_to_integer (big_endian : bool) (bs : list Z) : Z :=
  be_value (if big_endian then bs else reverse bs).

Definition EXP_MOD_BOUND : Z := 2 ^ 8191.

Definition exp_mod_integer (id : BuiltinId) (base e m : Z) : uplc_result Value :=
  if m <=? 0 then Err (BuiltinFailure id)
  else if EXP_MOD_BOUND <=? m then Err (BuiltinFailure id)
  else if m =? 1 then ret_int 0
  else if (base <? - EXP_MOD_BOUND) || (EXP_MOD_BOUND <=? base) ||
          (e <? - EXP_MOD_BOUND) || (EXP_MOD_BOUND <=? e) then Err (BuiltinFailure id)
  else if e <? 0 then
    if base =? 0 then Err (BuiltinFailure id)
    else match modinv base m with
         | Some inv => ret_int (modpow inv (- e) m)
         | None => Err (BuiltinFailure id)
         end
  else ret_int (modpow base e m).

(** ** [data.rs]: equality and CBOR *)

(** Derived structural equality: same variant, same fields, in order. *)
Fixpoint data_eqb (a b : Data) : bool :=
  match a, b with
  | DConstr ta fa, DConstr tb fb =>
      (ta =? tb) &&
      (fix go (xs ys : list Data) : bool :=
         match xs, ys with
         | [], [] => true
         | x :: xs', y :: ys' => data_eqb x y && go xs' ys'
         | _, _ => false
         end) fa fb
  | DMap ea, DMap eb =>
      (fix go (xs ys : list (Data * Data)) : bool :=
         match xs, ys with
         | [], [] => true
         | (kx, vx) :: xs', (ky, vy) :: ys' => data_eqb kx ky && data_eqb vx vy && go xs' ys'
         | _, _ => false
         end) ea eb
  | DList la, DList lb =>
      (fix go (xs ys : list Data) : bool :=
         match xs, ys with
         | [], [] => true
         | x :: xs', y :: ys' => data_eqb x y && go xs' ys'
         | _, _ => false
         end) la lb
  | DI x, DI y => x =? y
  | DB x, DB y => bool_decide (x = y)
  | _, _ => false
  end.

Definition DATA_CHUNK_LIMIT : nat := 64.

Definition mc_bytes (bs : list Z) : list Z := head64 0x40 (Z.of_nat (length bs)) ++ bs.

Definition encode_bytes_raw (bs : list Z) : list Z :=
  if (length bs <=? DATA_CHUNK_LIMIT)%nat then mc_bytes bs
  else 0x5f :: mjoin (mc_bytes <$> chunks DATA_CHUNK_LIMIT bs) ++ [0xff].

Definition encode_bignum (n : Z) : list Z :=
  if n <? 0 then head64 0xc0 3 ++ encode_bytes_raw (magnitude_be (-1 - n))
  else head64 0xc0 2 ++ encode_bytes_raw (magnitude_be n).

Definition encode_integer (n : Z) : list Z :=
  if 0 <=? n then if n <=? u64_max then head64 0x00 n else encode_bignum n
  else
    let k := - n - 1 in
    if k <=? u64_max then head64 0x20 k else encode_bignum n.

Fixpoint encode_data (d : Data) : list Z :=
  let encode_list (items : list Data) : list Z :=
    match items with
    | [] => head64 0x80 0
    | _ => 0x9f :: List.flat_map encode_data items ++ [0xff]
    end in
  match d with
  | DConstr tag args =>
      if (0 <=? tag) && (tag <=? 6) then head64 0xc0 (121 + tag) ++ encode_list args
      else if (0 <=? tag) && (tag <=? 127) then head64 0xc0 (1280 + (tag - 7)) ++ encode_list args
      else head64 0xc0 102 ++ head64 0x80 2 ++ encode_integer tag ++ encode_list args
  | DMap entries =>
      head64 0xa0 (Z.of_nat (length entries)) ++
      List.flat_map (λ '(k, v), encode_data k ++ encode_data v) entries
  | DList items => encode_list items
  | DI n => encode_integer n
  | DB bs => encode_bytes_raw bs
  end.

(** ** Values ([BTreeMap]s in key order) *)

Fixpoint bt_insert {V} (k : list Z) (v : V) (m : list (list Z * V)) : list (list Z * V) :=
  match m with
  | [] => [(k, v)]
  | (k', v') :: m' =>
      match slice_cmp k k' with
      | Lt => (k, v) :: m
      | Eq => (k, v) :: m'
      | Gt => (k', v') :: bt_insert k v m'
      end
  end.

Definition bt_remove {V} (k : list Z) (m : list (list Z * V)) : list (list Z * V) :=
  filter (λ e, e.1 ≠ k) m.

Definition MAX_KEY : nat := 32.

Definition insert_coin (id : BuiltinId) (policy token : list Z) (amount : Z) (val : ValueMap) :
    uplc_result Value :=
  if amount =? 0 then
    match assoc policy val with
    | Some inner =>
        let inner := bt_remove token inner in
        Ok (VConst (CValue (if bool_decide (inner = []) then bt_remove policy val
                            else bt_insert policy inner val)))
    | None => Ok (VConst (CValue val))
    end
  else if (MAX_KEY <? length policy)%nat then Err (BuiltinFailure id)
  else if (MAX_KEY <? length token)%nat then Err (BuiltinFailure id)
  else
    match to_i128 amount with
    | None => Err (BuiltinFailure id)
    | Some amount =>
        Ok (VConst (CValue (bt_insert policy (bt_insert token amount (default [] (assoc policy val))) val)))
    end.

Definition lookup_coin (policy token : list Z) (val : ValueMap) : Z :=
  default 0 (inner ← assoc policy val; assoc token inner).

Fixpoint scale_inner (id : BuiltinId) (factor : Z) (inner : list (list Z * Z)) :
    uplc_result (list (list Z * Z)) :=
  match inner with
  | [] => Ok []
  | (token, amt) :: rest =>
      match to_i128 (amt * factor) with
      | None => Err (BuiltinFailure id)
      | Some new_amt =>
          scaled ← scale_inner id factor rest;
          Ok (if new_amt =? 0 then scaled else (token, new_amt) :: scaled)
      end
  end.

Fixpoint scale_value (id : BuiltinId) (factor : Z) (val : ValueMap) : uplc_result ValueMap :=
  match val with
  | [] => Ok []
  | (policy, inner) :: rest =>
      new_inner ← scale_inner id factor inner;
      scaled ← scale_value id factor rest;
      Ok (match new_inner with [] => scaled | _ => (policy, new_inner) :: scaled end)
  end.

(** [if let Some(ref prev) = prev { if key <= *prev { fail } }] *)
Definition ascends (prev : option (list Z)) (key : list Z) : bool :=
  match prev with Some p => negb (key_leb key p) | None => true end.

Fixpoint un_value_inner (id : BuiltinId) (prev : option (list Z)) (pairs : list (Data * Data)) :
    uplc_result (list (list Z * Z)) :=
  match pairs with
  | [] => Ok []
  | (DB token, tv) :: rest =>
      if (MAX_KEY <? length token)%nat then Err (BuiltinFailure id)
      else if negb (ascends prev token) then Err (BuiltinFailure id)
      else match tv with
           | DI amount_bi =>
               match to_i128 amount_bi with
               | None => Err (BuiltinFailure id)
               | Some amount =>
                   if amount =? 0 then Err (BuiltinFailure id) else
                   inner ← un_value_inner id (Some token) rest;
                   Ok (bt_insert token amount inner)
               end
           | _ => Err (BuiltinFailure id)
           end
  | _ :: _ => Err (BuiltinFailure id)
  end.

Fixpoint un_value_outer (id : BuiltinId) (prev : option (list Z)) (pairs : list (Data * Data)) :
    uplc_result ValueMap :=
  match pairs with
  | [] => Ok []
  | (DB policy, v) :: rest =>
      if (MAX_KEY <? length policy)%nat then Err (BuiltinFailure id)
      else if negb (ascends prev policy) then Err (BuiltinFailure id)
      else match v with
           | DMap [] => Err (BuiltinFailure id)
           | DMap inner_pairs =>
               inner ← un_value_inner id None inner_pairs;
               outer ← un_value_outer id (Some policy) rest;
               Ok (bt_insert policy inner outer)
           | _ => Err (BuiltinFailure id)
           end
  | _ :: _ => Err (BuiltinFailure id)
  end.

Definition un_value_data (id : BuiltinId) (d : Data) : uplc_result Value :=
  match d with
  | DMap outer_pairs => m ← un_value_outer id None outer_pairs; Ok (VConst (CValue m))
  | _ => Err (BuiltinFailure id)
  end.

Definition value_data (val : ValueMap) : Data :=
  DMap ((λ '(policy, inner), (DB policy, DMap ((λ '(token, amt), (DB token, DI amt)) <$> inner))) <$> val).

Definition has_negative (val : ValueMap) : bool :=
  existsb (λ e, existsb (λ t, t.2 <? 0) e.2) val.

Definition value_contains (id : BuiltinId) (sup sub : ValueMap) : uplc_result Value :=
  if has_negative sup then Err (BuiltinFailure id)
  else if has_negative sub then Err (BuiltinFailure id)
  else ret_bool (forallb (λ '(policy, inner_sub),
         match assoc policy sup with
         | None => false
         | Some inner_sup =>
             forallb (λ '(token, sub_amt), negb (default 0 (assoc token inner_sup) <? sub_amt)) inner_sub
         end) sub).

Fixpoint union_inner (id : BuiltinId) (inner_b inner_a : list (list Z * Z)) :
    uplc_result (list (list Z * Z)) :=
  match inner_b with
  | [] => Ok inner_a
  | (token, amt_b) :: rest =>
      match to_i128 (default 0 (assoc token inner_a) + amt_b) with
      | None => Err (BuiltinFailure id)
      | Some slot => union_inner id rest (bt_insert token slot inner_a)
      end
  end.

Fixpoint union_loop (id : BuiltinId) (b a : ValueMap) : uplc_result ValueMap :=
  match b with
  | [] => Ok a
  | (policy, inner_b) :: rest =>
      inner ← union_inner id inner_b (default [] (assoc policy a));
      union_loop id rest (bt_insert policy inner a)
  end.

Definition drop_zeros (a : ValueMap) : ValueMap :=
  filter (λ e, e.2 ≠ []) ((λ '(policy, inner), (policy, filter (λ t, t.2 ≠ 0) inner)) <$> a).

Definition union_value (id : BuiltinId) (a b : ValueMap) : uplc_result Value :=
  merged ← union_loop id b a;
  Ok (VConst (CValue (drop_zeros merged))).

(** ** Signatures *)

(** [2^255 - 19], little endian *)
Definition ed25519_p : list Z := 0xed :: replicate 30 0xff ++ [0x7f].

(** The comparison from the most significant byte *)
Fixpoint lt_from_top (a b : list Z) : bool :=
  match a, b with
  | x :: a', y :: b' => match x ?= y with Lt => true | Gt => false | Eq => lt_from_top a' b' end
  | _, _ => false
  end.

Definition pk_is_canonical (pk : list Z) : bool :=
  let magnitude := alter (λ b, Z.land b 0x7f) 31%nat pk in
  lt_from_top (reverse magnitude) (reverse ed25519_p).

Section denotations.
Context {UC : UplcCrypto}.

Definition verify_ed25519 (id : BuiltinId) (pk msg sig : list Z) : uplc_result Value :=
  if negb (length pk =? 32)%nat then Err (BuiltinFailure id)
  else if negb (length sig =? 64)%nat then Err (BuiltinFailure id)
  else if negb (pk_is_canonical pk) then ret_bool false
  else if negb (dalek_key_ok pk) then ret_bool false
  else ret_bool (dalek_verify_strict pk msg sig).

Definition verify_ecdsa (id : BuiltinId) (pk msg sig : list Z) : uplc_result Value :=
  if negb (length pk =? 33)%nat then Err (BuiltinFailure id)
  else if negb (length msg =? 32)%nat then Err (BuiltinFailure id)
  else if negb (length sig =? 64)%nat then Err (BuiltinFailure id)
  else if negb (ecdsa_key_ok pk) then Err (BuiltinFailure id)
  else if forallb (λ b, b =? 0) (take 32 sig) || forallb (λ b, b =? 0) (drop 32 sig) then ret_bool false
  else if negb (ecdsa_sig_ok sig) then Err (BuiltinFailure id)
  else if ecdsa_s_high sig then ret_bool false
  else ret_bool (ecdsa_verify_prehash pk msg sig).

Definition verify_schnorr (id : BuiltinId) (pk msg sig : list Z) : uplc_result Value :=
  if negb (length pk =? 32)%nat then Err (BuiltinFailure id)
  else if negb (length sig =? 64)%nat then Err (BuiltinFailure id)
  else if negb (schnorr_key_ok pk) then Err (BuiltinFailure id)
  else if negb (schnorr_sig_ok sig) then ret_bool false
  else ret_bool (schnorr_verify_raw pk msg sig).

(** ** The table *)

Definition int_binop (id : BuiltinId) (args : list Value) (op : Z → Z → uplc_result Z) :
    uplc_result Value :=
  a ← int_arg id args 0; b ← int_arg id args 1; r ← op a b; ret_int r.

Definition int_cmp (id : BuiltinId) (args : list Value) (op : Z → Z → bool) : uplc_result Value :=
  a ← int_arg id args 0; b ← int_arg id args 1; ret_bool (op a b).

Definition nonzero (id : BuiltinId) (op : Z → Z → Z) (a b : Z) : uplc_result Z :=
  if b =? 0 then Err (BuiltinFailure id) else Ok (op a b).

Definition bytes_binop (id : BuiltinId) (args : list Value) (op : list Z → list Z → uplc_result Value) :
    uplc_result Value :=
  a ← bytes_arg id args 0; b ← bytes_arg id args 1; op a b.

Definition hash_one (id : BuiltinId) (args : list Value) (hash : list Z → list Z) : uplc_result Value :=
  input ← bytes_arg id args 0; ret_bytes (hash input).

Definition three_bytes (id : BuiltinId) (args : list Value)
    (verify : BuiltinId → list Z → list Z → list Z → uplc_result Value) : uplc_result Value :=
  pk ← bytes_arg id args 0; msg ← bytes_arg id args 1; sig ← bytes_arg id args 2; verify id pk msg sig.

Definition bitwise (id : BuiltinId) (args : list Value) (op : Z → Z → Z) : uplc_result Value :=
  padded ← bool_arg id args 0; a ← bytes_arg id args 1; b ← bytes_arg id args 2;
  ret_bytes (bitwise_byte_string op padded a b).

Definition const_data (id : BuiltinId) (c : Constant) : uplc_result Data :=
  match c with CData d => Ok d | _ => Err (BuiltinTypeError id) end.

Definition const_data_pair (id : BuiltinId) (c : Constant) : uplc_result (Data * Data) :=
  match c with
  | CPair _ _ (CData k) (CData v) => Ok (k, v)
  | _ => Err (BuiltinTypeError id)
  end.

(** Every builtin but [Trace], which also writes to the log. *)
(** Byte strings and text *)
Definition denote_byte_string (id : BuiltinId) (args : list Value) (variant : SemanticsVariant) :
    uplc_result Value :=
  match id with
  | AppendByteString => bytes_binop id args (λ a b, ret_bytes (a ++ b))
  | ConsByteString =>
      i ← int_arg id args 0; bs ← bytes_arg id args 1;
      b ← (if cons_byte_string_strict variant then bigint_to_u8 id i else Ok (i mod 256));
      ret_bytes (b :: bs)
  | SliceByteString =>
      start ← int_arg id args 0; len ← int_arg id args 1; bs ← bytes_arg id args 2;
      start ← bigint_to_i64_or_failure id start;
      len ← bigint_to_i64_or_failure id len;
      let size := Z.of_nat (length bs) in
      let start_clamped := Z.min (i64_to_usize_clamped start) size in
      let end_clamped := Z.min (saturating_add64 start_clamped (i64_to_usize_clamped len)) size in
      ret_bytes (slice (Z.to_nat start_clamped) (Z.to_nat (end_clamped - start_clamped)) bs)
  | LengthOfByteString => bs ← bytes_arg id args 0; ret_int (Z.of_nat (length bs))
  | IndexByteString =>
      bs ← bytes_arg id args 0; i ← int_arg id args 1;
      if (0 <=? i) && (i <? Z.of_nat (length bs)) then ret_int (nth (Z.to_nat i) bs 0)
      else Err (BuiltinFailure id)
  | EqualsByteString => bytes_binop id args (λ a b, ret_bool (bool_decide (a = b)))
  | LessThanByteString => bytes_binop id args (λ a b, ret_bool (key_ltb a b))
  | LessThanEqualsByteString => bytes_binop id args (λ a b, ret_bool (key_leb a b))
  | AppendString => a ← string_arg id args 0; b ← string_arg id args 1; Ok (VConst (CString (a ++ b)))
  | EqualsString => a ← string_arg id args 0; b ← string_arg id args 1; ret_bool (bool_decide (a = b))
  | EncodeUtf8 => s ← string_arg id args 0; ret_bytes s
  | DecodeUtf8 =>
      bs ← bytes_arg id args 0;
      if utf8_valid bs then Ok (VConst (CString bs)) else Err (BuiltinFailure id)
  | _ => Err InternalError
  end.

(** Lists and pairs *)
Definition denote_list (id : BuiltinId) (args : list Value) (variant : SemanticsVariant) :
    uplc_result Value :=
  match id with
  | HeadList =>
      '(_, elems) ← list_arg id args 0;
      match elems with c :: _ => Ok (VConst c) | [] => Err (BuiltinFailure id) end
  | TailList =>
      '(t, elems) ← list_arg id args 0;
      match elems with _ :: rest => Ok (VConst (CList t rest)) | [] => Err (BuiltinFailure id) end
  | NullList => '(_, elems) ← list_arg id args 0; ret_bool (match elems with [] => true | _ => false end)
  | ChooseList =>
      l ← arg args 0; nil_case ← arg args 1; cons_case ← arg args 2;
      '(_, elems) ← unwrap_proto_list id l;
      Ok (match elems with [] => nil_case | _ => cons_case end)
  | MkCons =>
      h ← arg args 0; l ← arg args 1;
      '(t, elems) ← unwrap_proto_list id l;
      match h with
      | VConst c => if bool_decide (type_tag c = t) then Ok (VConst (CList t (c :: elems)))
                    else Err (BuiltinTypeError id)
      | _ => Err (BuiltinTypeError id)
      end
  | MkNilData =>
      v ← arg args 0;
      match v with VConst CUnit => Ok (VConst (CList TyData [])) | _ => Err (BuiltinTypeError id) end
  | MkNilPairData =>
      v ← arg args 0;
      match v with
      | VConst CUnit => Ok (VConst (CList (TyPair TyData TyData) []))
      | _ => Err (BuiltinTypeError id)
      end
  | FstPair => v ← arg args 0; '(a, _) ← unwrap_proto_pair id v; Ok (VConst a)
  | SndPair => v ← arg args 0; '(_, b) ← unwrap_proto_pair id v; Ok (VConst b)
  | _ => Err InternalError
  end.

(** Data *)
Definition denote_data (id : BuiltinId) (args : list Value) (variant : SemanticsVariant) :
    uplc_result Value :=
  match id with
  | ChooseData =>
      d ← data_arg id args 0;
      constr_case ← arg args 1; map_case ← arg args 2; list_case ← arg args 3;
      i_case ← arg args 4; b_case ← arg args 5;
      Ok (match d with
          | DConstr _ _ => constr_case | DMap _ => map_case | DList _ => list_case
          | DI _ => i_case | DB _ => b_case
          end)
  | ConstrData =>
      tag ← int_arg id args 0; l ← arg args 1; '(_, elems) ← unwrap_proto_list id l;
      if constr_data_requires_word64 variant && ((tag <? 0) || (u64_max <? tag))
      then Err (BuiltinFailure id)
      else fields ← collect_results (const_data id) elems; ret_data (DConstr tag fields)
  | MapData =>
      '(_, elems) ← list_arg id args 0;
      pairs ← collect_results (const_data_pair id) elems; ret_data (DMap pairs)
  | ListData =>
      '(_, elems) ← list_arg id args 0;
      datas ← collect_results (const_data id) elems; ret_data (DList datas)
  | IData => i ← int_arg id args 0; ret_data (DI i)
  | BData => b ← bytes_arg id args 0; ret_data (DB b)
  | UnConstrData =>
      d ← data_arg id args 0;
      match d with
      | DConstr tag fields =>
          Ok (VConst (CPair TyInteger (TyList TyData) (CInteger tag) (CList TyData (CData <$> fields))))
      | _ => Err (BuiltinFailure id)
      end
  | UnMapData =>
      d ← data_arg id args 0;
      match d with
      | DMap entries =>
          Ok (VConst (CList (TyPair TyData TyData)
                (map (λ '(k, v), CPair TyData TyData (CData k) (CData v)) entries)))
      | _ => Err (BuiltinFailure id)
      end
  | UnListData =>
      d ← data_arg id args 0;
      match d with DList items => Ok (VConst (CList TyData (CData <$> items))) | _ => Err (BuiltinFailure id) end
  | UnIData => d ← data_arg id args 0; match d with DI i => ret_int i | _ => Err (BuiltinFailure id) end
  | UnBData => d ← data_arg id args 0; match d with DB b => ret_bytes b | _ => Err (BuiltinFailure id) end
  | EqualsData => a ← data_arg id args 0; b ← data_arg id args 1; ret_bool (data_eqb a b)
  | MkPairData =>
      a ← data_arg id args 0; b ← data_arg id args 1;
      Ok (VConst (CPair TyData TyData (CData a) (CData b)))
  | SerialiseData => d ← data_arg id args 0; ret_bytes (encode_data d)
  | _ => Err InternalError
  end.

(** Conversions and bitwise operations *)
Definition denote_bits (id : BuiltinId) (args : list Value) (variant : SemanticsVariant) :
    uplc_result Value :=
  match id with
  | IntegerToByteString =>
      endian ← bool_arg id args 0; width ← int_arg id args 1; n ← int_arg id args 2;
      if n <? 0 then Err (BuiltinFailure id) else
      width_u ← bigint_to_usize_or_failure id width;
      integer_to_byte_string id endian width_u n
  | ByteStringToInteger =>
      endian ← bool_arg id args 0; bs ← bytes_arg id args 1; ret_int (byte_string_to_integer endian bs)
  | AndByteString => bitwise id args Z.land
  | OrByteString => bitwise id args Z.lor
  | XorByteString => bitwise id args Z.lxor
  | ComplementByteString => bs ← bytes_arg id args 0; ret_bytes ((λ b, 255 - b) <$> bs)
  | ReadBit =>
      bs ← bytes_arg id args 0; i ← int_arg id args 1;
      idx ← bigint_to_usize_or_failure id i;
      if (length bs * 8 <=? idx)%nat then Err (BuiltinFailure id) else ret_bool (bit_of bs idx)
  | ReplicateByte =>
      count ← int_arg id args 0; byte ← int_arg id args 1;
      count_u ← bigint_to_usize_or_failure id count;
      if (MAX_REPLICATE <? count_u)%nat then Err (BuiltinFailure id) else
      b ← bigint_to_u8 id byte; ret_bytes (replicate count_u b)
  | CountSetBits => bs ← bytes_arg id args 0; ret_int (foldr Z.add 0 (count_ones <$> bs))
  | FindFirstSetBit => bs ← bytes_arg id args 0; ret_int (find_first_set (reverse bs) 0)
  | ExpModInteger =>
      base ← int_arg id args 0; e ← int_arg id args 1; m ← int_arg id args 2; exp_mod_integer id base e m
  | ShiftByteString =>
      bs ← bytes_arg id args 0; shift_int ← int_arg id args 1;
      match bs with
      | [] => ret_bytes []
      | _ => shift ← bigint_to_i64_or_failure id shift_int; ret_bytes (shift_byte_string bs shift)
      end
  | RotateByteString =>
      bs ← bytes_arg id args 0; rot_int ← int_arg id args 1;
      match bs with
      | [] => ret_bytes []
      | _ => rot ← bigint_to_i64_or_failure id rot_int; ret_bytes (rotate_byte_string bs rot)
      end
  | WriteBits =>
      bs ← bytes_arg id args 0; indices_val ← arg args 1; value ← bool_arg id args 2;
      '(_, idx_elems) ← unwrap_proto_list id indices_val;
      if bitwise_max_input_enforced variant && (WRITE_BITS_MAX_INPUT_LENGTH <? length bs)%nat
      then Err (BuiltinFailure id)
      else out ← write_bits id value idx_elems bs; ret_bytes out
  | _ => Err InternalError
  end.

(** Arrays and ledger values *)
Definition denote_batch6 (id : BuiltinId) (args : list Value) (variant : SemanticsVariant) :
    uplc_result Value :=
  match id with
  | DropList =>
      count ← int_arg id args 0; l ← arg args 1; '(t, elems) ← unwrap_proto_list id l;
      let n := bigint_to_usize_clamped count in
      Ok (VConst (CList t (if Z.of_nat (length elems) <=? n then [] else drop (Z.to_nat n) elems)))
  | IndexArray =>
      arr ← arg args 0; i_val ← arg args 1; '(_, elems) ← unwrap_array id arr;
      i ← unwrap_integer id i_val;
      match (if 0 <=? i then elems !! Z.to_nat i else None) with
      | Some c => Ok (VConst c)
      | None => Err (BuiltinFailure id)
      end
  | LengthOfArray => v ← arg args 0; '(_, elems) ← unwrap_array id v; ret_int (Z.of_nat (length elems))
  | ListToArray => '(t, elems) ← list_arg id args 0; Ok (VConst (CArray t elems))
  | InsertCoin =>
      policy ← bytes_arg id args 0; token ← bytes_arg id args 1; amount ← int_arg id args 2;
      val ← value_arg id args 3; insert_coin id policy token amount val
  | LookupCoin =>
      policy ← bytes_arg id args 0; token ← bytes_arg id args 1; val ← value_arg id args 2;
      ret_int (lookup_coin policy token val)
  | ScaleValue =>
      factor_bi ← int_arg id args 0; val ← value_arg id args 1;
      match to_i128 factor_bi with
      | None => Err (BuiltinFailure id)
      | Some factor => out ← scale_value id factor val; Ok (VConst (CValue out))
      end
  | UnValueData => d ← data_arg id args 0; un_value_data id d
  | ValueData => val ← value_arg id args 0; ret_data (value_data val)
  | ValueContains => sup ← value_arg id args 0; sub ← value_arg id args 1; value_contains id sup sub
  | UnionValue => a ← value_arg id args 0; b ← value_arg id args 1; union_value id a b
  | _ => Err InternalError
  end.

Definition denote_pure (id : BuiltinId) (args : list Value) (variant : SemanticsVariant) :
    uplc_result Value :=
  match id with
  | AddInteger => int_binop id args (λ a b, Ok (a + b))
  | SubtractInteger => int_binop id args (λ a b, Ok (a - b))
  | MultiplyInteger => int_binop id args (λ a b, Ok (a * b))
  | DivideInteger => int_binop id args (nonzero id divide_haskell_div)
  | QuotientInteger => int_binop id args (nonzero id Z.quot)
  | RemainderInteger => int_binop id args (nonzero id Z.rem)
  | ModInteger => int_binop id args (nonzero id mod_haskell_mod)
  | EqualsInteger => int_cmp id args Z.eqb
  | LessThanInteger => int_cmp id args Z.ltb
  | LessThanEqualsInteger => int_cmp id args Z.leb
  | IfThenElse =>
      c ← arg args 0; then_branch ← arg args 1; else_branch ← arg args 2;
      match c with
      | VConst (CBool true) => Ok then_branch
      | VConst (CBool false) => Ok else_branch
      | _ => Err (BuiltinTypeError id)
      end
  | ChooseUnit =>
      u ← arg args 0; rest ← arg args 1;
      match u with VConst CUnit => Ok rest | _ => Err (BuiltinTypeError id) end
  | Trace => Err InternalError
  | Sha2_256 => hash_one id args sha2_256_digest
  | Sha3_256 => hash_one id args sha3_256_digest
  | Blake2b_256 => hash_one id args blake2b_256_digest
  | Blake2b_224 => hash_one id args blake2b_224_digest
  | Keccak_256 => hash_one id args keccak_256_digest
  | Ripemd_160 => hash_one id args ripemd_160_digest
  | VerifyEd25519Signature => three_bytes id args verify_ed25519
  | VerifyEcdsaSecp256k1Signature => three_bytes id args verify_ecdsa
  | VerifySchnorrSecp256k1Signature => three_bytes id args verify_schnorr
  | Bls12_381_G1_Add | Bls12_381_G1_Neg | Bls12_381_G1_ScalarMul | Bls12_381_G1_Equal
  | Bls12_381_G1_HashToGroup | Bls12_381_G1_Compress | Bls12_381_G1_Uncompress
  | Bls12_381_G2_Add | Bls12_381_G2_Neg | Bls12_381_G2_ScalarMul | Bls12_381_G2_Equal
  | Bls12_381_G2_HashToGroup | Bls12_381_G2_Compress | Bls12_381_G2_Uncompress
  | Bls12_381_MillerLoop | Bls12_381_MulMlResult | Bls12_381_FinalVerify =>
      c ← denote_bls id args; Ok (VConst c)
  | Bls12_381_G1_MultiScalarMul | Bls12_381_G2_MultiScalarMul =>
      c ← denote_multi_scalar_mul id args; Ok (VConst c)
  | AppendByteString | ConsByteString | SliceByteString | LengthOfByteString | IndexByteString
  | EqualsByteString | LessThanByteString | LessThanEqualsByteString | AppendString
  | EqualsString | EncodeUtf8 | DecodeUtf8 => denote_byte_string id args variant
  | HeadList | TailList | NullList | ChooseList | MkCons | MkNilData | MkNilPairData | FstPair
  | SndPair => denote_list id args variant
  | ChooseData | ConstrData | MapData | ListData | IData | BData | UnConstrData | UnMapData
  | UnListData | UnIData | UnBData | EqualsData | MkPairData | SerialiseData => denote_data id args variant
  | IntegerToByteString | ByteStringToInteger | AndByteString | OrByteString | XorByteString
  | ComplementByteString | ReadBit | ReplicateByte | CountSetBits | FindFirstSetBit
  | ExpModInteger | ShiftByteString | RotateByteString | WriteBits => denote_bits id args variant
  | DropList | IndexArray | LengthOfArray | ListToArray | InsertCoin | LookupCoin | ScaleValue
  | UnValueData | ValueData | ValueContains | UnionValue => denote_batch6 id args variant
  end.

Definition denote (id : BuiltinId) (args : list Value) (variant : SemanticsVariant) : ueff Value :=
  match id with
  | Trace =>
      msg ← ulift (arg args 0); rest ← ulift (arg args 1);
      match msg with
      | VConst (CString s) => _ ← emit s; mret rest
      | _ => ulift (Err (BuiltinTypeError id))
      end
  | _ => ulift (denote_pure id args variant)
  end.

End denotations.
