(* ===== verification/UplcValue.v ===== *)
(** * Values of the ledger as builtins see them

    The [Value] builtins keep a canonical form: policies and tokens in strictly
    ascending order, keys of at most 32 bytes, no empty policy, no zero amount, and
    amounts of 128 bits. In that form a value is determined by its amounts, and the
    builtins compute on amounts: union adds them, scaling multiplies them,
    insertion replaces one. *)

From Stdlib Require Import Zpow_facts.
From S2P Require Import Prelude Order Uplc UplcBls UplcBuiltins Bytes.
Local Open Scope Z_scope.


(** ** Sorted association lists *)

Lemma assoc_bt_insert {V} k k' (x : V) m :
  assoc k' (bt_insert k x m) = if decide (k' = k) then Some x else assoc k' m.
Proof.
  induction m as [|[k0 x0] m IH]; simpl; [done|]. destruct (slice_cmp k k0) eqn:E; simpl.
  - apply slice_cmp_eq in E as ->. by case_decide.
  - done.
  - rewrite IH. repeat case_decide; try done. subst. by rewrite slice_cmp_refl in E.
Qed.

Lemma bt_insert_Forall {V} (P : list Z * V → Prop) k x m :
  P (k, x) → Forall P m → Forall P (bt_insert k x m).
Proof.
  intros Hx. induction m as [|[k0 x0] m IH]; simpl; intros Hm; [by constructor|].
  apply Forall_cons in Hm as [H0 Hm]. destruct (slice_cmp k k0); eauto.
Qed.

Lemma keys_Forall {V} (P : list Z → Prop) (m : list (list Z * V)) :
  Forall P m.*1 ↔ Forall (λ e, P e.1) m.
Proof. apply Forall_fmap. Qed.

Lemma bt_insert_sorted {V} k (x : V) m : strict_sorted m → strict_sorted (bt_insert k x m).
Proof.
  induction m as [|[k0 x0] m IH]; simpl; intros Hm; [apply strict_sorted_cons; by split|].
  pose proof Hm as Hm'. apply strict_sorted_cons in Hm' as [H0 H1]. destruct (slice_cmp k k0) eqn:E.
  - apply slice_cmp_eq in E as ->. by apply strict_sorted_cons.
  - apply strict_sorted_cons. split; [|done]. simpl. constructor; [done|].
    eapply Forall_impl; [exact H0|]. intros k1 ?. by eapply key_lt_trans.
  - apply key_gt_lt in E. apply strict_sorted_cons. split; [|by apply IH].
    apply keys_Forall, bt_insert_Forall; [done|by apply keys_Forall].
Qed.

Lemma assoc_ext {V} (l1 l2 : list (list Z * V)) :
  strict_sorted l1 → strict_sorted l2 → (∀ k, assoc k l1 = assoc k l2) → l1 = l2.
Proof.
  revert l2. induction l1 as [|[k x] l1 IH]; intros [|[k' x'] l2] H1 H2 Hk; [done| | |].
  1-2: specialize (Hk ltac:(assumption)); simpl in Hk; by rewrite decide_True in Hk.
  apply strict_sorted_cons in H1 as [F1 H1], H2 as [F2 H2].
  assert (k = k') as <-.
  { destruct (key_trichotomy k k') as [Hlt|[->|Hlt]]; [|done|].
    - specialize (Hk k). simpl in Hk. rewrite decide_True in Hk by done.
      rewrite decide_False in Hk by (intros ->; by eapply key_lt_irrefl).
      rewrite assoc_lt_None in Hk; [done|]. eapply Forall_impl; [exact F2|]. intros ??. by eapply key_lt_trans.
    - specialize (Hk k'). simpl in Hk. rewrite (decide_True (P := k' = k')) in Hk by done.
      rewrite decide_False in Hk by (intros ->; by eapply key_lt_irrefl).
      rewrite assoc_lt_None in Hk; [done|]. eapply Forall_impl; [exact F1|]. intros ??. by eapply key_lt_trans. }
  pose proof (Hk k) as Hx. simpl in Hx. rewrite !decide_True in Hx by done. injection Hx as <-.
  f_equal. apply IH; [done..|]. intros k1. specialize (Hk k1). simpl in Hk. case_decide as Hd; [|done].
  subst. by rewrite !assoc_lt_None.
Qed.

Lemma Forall_kept {A} (P Q : A → Prop) `{∀ x, Decision (Q x)} l : Forall P l → Forall P (filter Q l).
Proof. rewrite !Forall_forall. intros H1 x [_ Hx]%list_elem_of_filter. by apply H1. Qed.

(** ** Amounts *)

Definition in_i128 (n : Z) : Prop := i128_min ≤ n ≤ i128_max.

Lemma to_i128_spec n : to_i128 n = if decide (in_i128 n) then Some n else None.
Proof.
  unfold to_i128, in_i128. case_decide as H.
  - by rewrite (proj2 (Z.leb_le _ _)), (proj2 (Z.leb_le _ _)) by lia.
  - destruct (i128_min <=? n) eqn:E1, (n <=? i128_max) eqn:E2; simpl; try done. lia.
Qed.

Definition amt (inner : list (list Z * Z)) (t : list Z) : Z := default 0 (assoc t inner).

Lemma lookup_coin_amt p t v : lookup_coin p t v = amt (default [] (assoc p v)) t.
Proof. unfold lookup_coin, amt. by destruct (assoc p v). Qed.

(** Zero amounts and empty policies are allowed while a union is computed. *)
Definition raw_inner (inner : list (list Z * Z)) : Prop :=
  strict_sorted inner ∧ Forall (λ e, (length e.1 ≤ MAX_KEY)%nat ∧ in_i128 e.2) inner.

Definition raw_value (v : ValueMap) : Prop :=
  strict_sorted v ∧ Forall (λ e, (length e.1 ≤ MAX_KEY)%nat ∧ raw_inner e.2) v.

Definition canonical (v : ValueMap) : Prop :=
  raw_value v ∧ Forall (λ e, e.2 ≠ [] ∧ Forall (λ t, t.2 ≠ 0) e.2) v.

Lemma raw_nil : raw_inner [].
Proof. split; constructor. Qed.

Lemma amt_bt_insert t t' x inner : amt (bt_insert t x inner) t' = if decide (t' = t) then x else amt inner t'.
Proof. unfold amt. rewrite assoc_bt_insert. by case_decide. Qed.

Lemma raw_insert t x inner :
  (length t ≤ MAX_KEY)%nat → in_i128 x → raw_inner inner → raw_inner (bt_insert t x inner).
Proof. intros Ht Hx [H1 H2]. split; [by apply bt_insert_sorted|by apply bt_insert_Forall]. Qed.

Lemma raw_assoc p v : raw_value v → raw_inner (default [] (assoc p v)).
Proof.
  intros [_ H]. destruct (assoc p v) as [inner|] eqn:E; [|apply raw_nil]. simpl.
  apply assoc_elem in E. rewrite Forall_forall in H. by destruct (H _ E).
Qed.

Lemma raw_value_insert p inner v :
  (length p ≤ MAX_KEY)%nat → raw_inner inner → raw_value v → raw_value (bt_insert p inner v).
Proof. intros Hp Hi [H1 H2]. split; [by apply bt_insert_sorted|by apply bt_insert_Forall]. Qed.

Lemma lookup_insert_policy p p' t inner v :
  lookup_coin p' t (bt_insert p inner v) = if decide (p' = p) then amt inner t else lookup_coin p' t v.
Proof. rewrite !lookup_coin_amt, assoc_bt_insert. by case_decide. Qed.

Lemma amt_cons t0 x b t : amt ((t0, x) :: b) t = if decide (t = t0) then x else amt b t.
Proof. unfold amt. simpl. by case_decide. Qed.

Lemma amt_lt_zero t b : Forall (key_lt t) b.*1 → amt b t = 0.
Proof. intros H. unfold amt. by rewrite assoc_lt_None. Qed.

(** ** Union *)

Lemma union_inner_spec id b a :
  raw_inner b → raw_inner a →
  match union_inner id b a with
  | Ok c => raw_inner c ∧ ∀ t, amt c t = amt a t + amt b t
  | Err e => e = BuiltinFailure id ∧ ∃ t, ¬ in_i128 (amt a t + amt b t)
  end.
Proof.
  revert a. induction b as [|[t0 x] b IH]; intros a [Hs Hf] Ha.
  { split; [done|]. intros t. unfold amt. simpl. lia. }
  apply strict_sorted_cons in Hs as [Hlt Hs]. apply Forall_cons in Hf as [[Hk Hx] Hf]. cbn [union_inner].
  rewrite to_i128_spec. fold (amt a t0).
  assert (∀ t, amt a t + amt ((t0, x) :: b) t =
    amt (bt_insert t0 (amt a t0 + x) a) t + amt b t) as Heq.
  { intros t. rewrite amt_bt_insert, amt_cons. case_decide as Ht; [|done].
    subst. rewrite (amt_lt_zero t0 b) by done. lia. }
  case_decide as Hr.
  - specialize (IH (bt_insert t0 (amt a t0 + x) a) (conj Hs Hf) (raw_insert _ _ _ Hk Hr Ha)).
    destruct (union_inner id b _) as [c|e].
    + destruct IH as [Hc Hamt]. split; [done|]. intros t. by rewrite Hamt, Heq.
    + destruct IH as (-> & t & Ht). split; [done|]. exists t. by rewrite Heq.
  - split; [done|]. exists t0. intros Hin. apply Hr.
    by rewrite amt_cons, decide_True in Hin.
Qed.

Lemma union_loop_spec id b a :
  raw_value b → raw_value a →
  match union_loop id b a with
  | Ok c => raw_value c ∧ ∀ p t, lookup_coin p t c = lookup_coin p t a + lookup_coin p t b
  | Err e => e = BuiltinFailure id ∧ ∃ p t, ¬ in_i128 (lookup_coin p t a + lookup_coin p t b)
  end.
Proof.
  revert a. induction b as [|[p0 ib] b IH]; intros a [Hs Hf] Ha.
  { split; [done|]. intros p t. change (lookup_coin p t []) with 0. simpl. lia. }
  apply strict_sorted_cons in Hs as [Hlt Hs]. apply Forall_cons in Hf as [[Hk Hi] Hf]. cbn [union_loop].
  assert (∀ p t, lookup_coin p t ((p0, ib) :: b) =
    if decide (p = p0) then amt ib t else lookup_coin p t b) as Hcons.
  { intros p t. rewrite !lookup_coin_amt. simpl. by case_decide. }
  assert (∀ t, lookup_coin p0 t b = 0) as Hz.
  { intros t. by rewrite lookup_coin_amt, assoc_lt_None. }
  pose proof (union_inner_spec id ib _ Hi (raw_assoc p0 a Ha)) as Hu.
  destruct (union_inner id ib _) as [inner|e]; simpl.
  - destruct Hu as [Hinner Hamt].
    specialize (IH _ (conj Hs Hf) (raw_value_insert p0 inner a Hk Hinner Ha)).
    assert (∀ p t, lookup_coin p t (bt_insert p0 inner a) + lookup_coin p t b =
      lookup_coin p t a + lookup_coin p t ((p0, ib) :: b)) as Heq.
    { intros p t. rewrite lookup_insert_policy, Hcons. case_decide; [|done]. subst.
      rewrite Hamt, Hz, lookup_coin_amt. lia. }
    destruct (union_loop id b _) as [c|e].
    + destruct IH as [Hc Hl]. split; [done|]. intros p t. by rewrite Hl, Heq.
    + destruct IH as (-> & p & t & Hn). split; [done|]. exists p, t. by rewrite <-Heq.
  - destruct Hu as (-> & t & Ht). split; [done|]. exists p0, t.
    rewrite Hcons, decide_True, lookup_coin_amt by done. done.
Qed.

(** ** Normalisation *)

Lemma amt_filter inner t : strict_sorted inner → amt (filter (λ e, e.2 ≠ 0) inner) t = amt inner t.
Proof.
  induction inner as [|[k x] inner IH]; [done|]. rewrite strict_sorted_cons. intros [Hlt Hs].
  rewrite filter_cons. simpl. specialize (IH Hs). unfold amt in *. simpl. destruct (decide (x ≠ 0)) as [Hx|Hx].
  - simpl. by case_decide.
  - rewrite IH. case_decide; [|done]. subst. rewrite assoc_lt_None by done. simpl. lia.
Qed.

Lemma raw_inner_filter inner : raw_inner inner → raw_inner (filter (λ e, e.2 ≠ 0) inner).
Proof. intros [H1 H2]. split; [by apply strict_sorted_filter|by apply Forall_kept]. Qed.

Definition clean (v : ValueMap) : ValueMap :=
  (λ '(policy, inner), (policy, filter (λ t, t.2 ≠ 0) inner)) <$> v.

Lemma clean_raw v : raw_value v → raw_value (clean v).
Proof.
  intros [H1 H2]. split.
  - unfold strict_sorted, clean in *. rewrite <-list_fmap_compose.
    erewrite list_fmap_ext; [exact H1|]. by intros ? [].
  - apply Forall_fmap. eapply Forall_impl; [exact H2|]. intros [p inner] [? ?].
    split; [done|]. by apply raw_inner_filter.
Qed.

Lemma clean_lookup p t v : raw_value v → lookup_coin p t (clean v) = lookup_coin p t v.
Proof.
  intros [_ H]. rewrite !lookup_coin_amt. induction v as [|[p0 inner] v IH]; [done|].
  apply Forall_cons in H as [[_ [Hs _]] Hv]. simpl. case_decide; [by apply amt_filter|by apply IH].
Qed.

Lemma drop_empty_lookup p t (v : ValueMap) :
  strict_sorted v → lookup_coin p t (filter (λ e, e.2 ≠ []) v) = lookup_coin p t v.
Proof.
  rewrite !lookup_coin_amt. induction v as [|[p0 inner] v IH]; [done|].
  rewrite strict_sorted_cons. intros [Hlt Hs]. rewrite filter_cons. simpl. specialize (IH Hs).
  destruct (decide (inner ≠ [])) as [Hx|Hx].
  - simpl. by case_decide.
  - rewrite IH. case_decide; [|done]. subst. rewrite assoc_lt_None by done.
    apply dec_stable in Hx. by subst.
Qed.

Lemma drop_zeros_canonical v :
  raw_value v → canonical (drop_zeros v) ∧ ∀ p t, lookup_coin p t (drop_zeros v) = lookup_coin p t v.
Proof.
  intros Hv. pose proof (clean_raw v Hv) as [H1 H2]. unfold drop_zeros. fold (clean v). split.
  - split; [split; [by apply strict_sorted_filter|by apply Forall_kept]|].
    apply Forall_forall. intros e [He Hin]%list_elem_of_filter. split; [done|].
    apply list_elem_of_fmap in Hin as ([p inner] & -> & _). simpl.
    apply Forall_forall. by intros x [? _]%list_elem_of_filter.
  - intros p t. rewrite drop_empty_lookup by done. by apply clean_lookup.
Qed.

Lemma union_value_spec id a b :
  canonical a → canonical b →
  match union_value id a b with
  | Ok r => ∃ c, r = VConst (CValue c) ∧ canonical c ∧
              ∀ p t, lookup_coin p t c = lookup_coin p t a + lookup_coin p t b
  | Err e => e = BuiltinFailure id ∧ ∃ p t, ¬ in_i128 (lookup_coin p t a + lookup_coin p t b)
  end.
Proof.
  intros [Ha _] [Hb _]. unfold union_value. pose proof (union_loop_spec id b a Hb Ha) as Hu.
  destruct (union_loop id b a) as [c|e]; simpl; [|done]. destruct Hu as [Hc Hl].
  destruct (drop_zeros_canonical c Hc) as [Hd Hdl]. eexists. split; [done|]. split; [done|].
  intros p t. by rewrite Hdl, Hl.
Qed.

(** ** A canonical value is its amounts *)

Lemma inner_amount_ext i1 i2 :
  raw_inner i1 → raw_inner i2 → Forall (λ t, t.2 ≠ 0) i1 → Forall (λ t, t.2 ≠ 0) i2 →
  (∀ t, amt i1 t = amt i2 t) → i1 = i2.
Proof.
  intros [H1 _] [H2 _] Z1 Z2 H. apply assoc_ext; [done..|]. intros t. specialize (H t). unfold amt in H.
  rewrite Forall_forall in Z1, Z2.
  destruct (assoc t i1) as [x|] eqn:E1, (assoc t i2) as [y|] eqn:E2; simpl in H; subst; try done.
  - apply assoc_elem, Z1 in E1. done.
  - apply assoc_elem, Z2 in E2. done.
Qed.

Lemma canonical_assoc p inner v :
  canonical v → assoc p v = Some inner → raw_inner inner ∧ inner ≠ [] ∧ Forall (λ t, t.2 ≠ 0) inner.
Proof.
  intros [[_ H1] H2] E%assoc_elem. rewrite Forall_forall in H1, H2.
  destruct (H1 _ E), (H2 _ E). done.
Qed.

Lemma nonempty_amount inner : raw_inner inner → inner ≠ [] → Forall (λ t, t.2 ≠ 0) inner → ∃ t, amt inner t ≠ 0.
Proof.
  destruct inner as [|[k x] inner]; [done|]. intros _ _ H. apply Forall_cons in H as [Hx _].
  exists k. unfold amt. simpl. by rewrite decide_True.
Qed.

Lemma canonical_ext a b :
  canonical a → canonical b → (∀ p t, lookup_coin p t a = lookup_coin p t b) → a = b.
Proof.
  intros Ha Hb H. apply assoc_ext; [apply Ha|apply Hb|]. intros p.
  assert (∀ t, amt (default [] (assoc p a)) t = amt (default [] (assoc p b)) t) as Hp.
  { intros t. rewrite <-!lookup_coin_amt. apply H. }
  destruct (assoc p a) as [i1|] eqn:E1, (assoc p b) as [i2|] eqn:E2; [| | |done].
  - destruct (canonical_assoc _ _ _ Ha E1) as (? & _ & ?), (canonical_assoc _ _ _ Hb E2) as (? & _ & ?).
    f_equal. by apply inner_amount_ext.
  - destruct (canonical_assoc _ _ _ Ha E1) as (? & ? & ?).
    destruct (nonempty_amount i1) as [t Ht]; [done..|]. by destruct (Ht (Hp t)).
  - destruct (canonical_assoc _ _ _ Hb E2) as (? & ? & ?).
    destruct (nonempty_amount i2) as [t Ht]; [done..|]. by destruct (Ht (eq_sym (Hp t))).
Qed.

(** ** Insertion *)

Lemma canonical_insert p inner v :
  (length p ≤ MAX_KEY)%nat → raw_inner inner → inner ≠ [] → Forall (λ t, t.2 ≠ 0) inner → canonical v →
  canonical (bt_insert p inner v).
Proof.
  intros Hp Hr Hn Hz [Hv Hc]. split; [by apply raw_value_insert|]. by apply bt_insert_Forall.
Qed.

Lemma bt_insert_nonempty {V} k (x : V) m : bt_insert k x m ≠ [].
Proof. destruct m as [|[]]; simpl; [done|]. by destruct (slice_cmp _ _). Qed.

Lemma bt_remove_assoc {V} k k' (m : list (list Z * V)) :
  assoc k' (bt_remove k m) = if decide (k' = k) then None else assoc k' m.
Proof.
  unfold bt_remove. induction m as [|[k0 x0] m IH]; simpl; [by case_decide|].
  rewrite filter_cons. simpl. destruct (decide (k0 ≠ k)) as [Hk|Hk].
  - simpl. rewrite IH. repeat case_decide; congruence.
  - apply dec_stable in Hk as ->. rewrite IH. by repeat case_decide.
Qed.

Lemma canonical_remove p v : canonical v → canonical (bt_remove p v).
Proof.
  intros [[H1 H2] H3]. unfold bt_remove.
  split; [split; [by apply strict_sorted_filter|by apply Forall_kept]|by apply Forall_kept].
Qed.

Lemma amt_bt_remove t t' inner : amt (bt_remove t inner) t' = if decide (t' = t) then 0 else amt inner t'.
Proof. unfold amt. rewrite bt_remove_assoc. by case_decide. Qed.

Lemma insert_coin_spec id p t x v :
  canonical v → in_i128 x → (length p ≤ MAX_KEY)%nat → (length t ≤ MAX_KEY)%nat →
  ∃ c, insert_coin id p t x v = Ok (VConst (CValue c)) ∧ canonical c ∧
    ∀ p' t', lookup_coin p' t' c = if decide (p' = p ∧ t' = t) then x else lookup_coin p' t' v.
Proof.
  intros Hv Hx Hp Ht. unfold insert_coin. destruct (Z.eqb_spec x 0) as [->|Hx0].
  - destruct (assoc p v) as [inner|] eqn:E.
    2:{ exists v. split; [done|]. split; [done|]. intros p' t'. case_decide as Hd; [|done].
        destruct Hd as [-> ->]. by rewrite lookup_coin_amt, E. }
    destruct (canonical_assoc _ _ _ Hv E) as (Hr & Hn & Hz).
    assert (∀ p' t', (if decide (p' = p) then amt (bt_remove t inner) t' else lookup_coin p' t' v) =
      if decide (p' = p ∧ t' = t) then 0 else lookup_coin p' t' v) as Hl.
    { intros p' t'. rewrite amt_bt_remove. repeat case_decide; subst; try tauto.
      by rewrite lookup_coin_amt, E. }
    eexists. split; [done|]. case_bool_decide as He.
    + split; [by apply canonical_remove|]. intros p' t'. rewrite <-Hl, He, lookup_coin_amt, bt_remove_assoc.
      case_decide; [done|]. by rewrite lookup_coin_amt.
    + split.
      * apply canonical_insert; try done; [|unfold bt_remove; by apply Forall_kept].
        destruct Hr. split; [by apply strict_sorted_filter|by apply Forall_kept].
      * intros p' t'. by rewrite lookup_insert_policy, Hl.
  - rewrite !(proj2 (Nat.ltb_ge _ _)) by done. rewrite to_i128_spec, decide_True by done.
    eexists. split; [done|].
    assert (raw_inner (default [] (assoc p v))) as Hr by (apply raw_assoc, Hv).
    assert (Forall (λ t, t.2 ≠ 0) (default [] (assoc p v))) as Hz.
    { destruct (assoc p v) eqn:E; [|constructor]. by eapply canonical_assoc. }
    split.
    + apply canonical_insert; [done|by apply raw_insert|apply bt_insert_nonempty|by apply bt_insert_Forall|done].
    + intros p' t'. rewrite lookup_insert_policy, amt_bt_insert.
      repeat case_decide; subst; try tauto. by rewrite lookup_coin_amt.
Qed.

(** ** Scaling *)

Lemma scale_inner_spec id f inner :
  raw_inner inner →
  match scale_inner id f inner with
  | Ok c => raw_inner c ∧ Forall (λ t, t.2 ≠ 0) c ∧ (∀ t, amt c t = amt inner t * f) ∧
            ∀ q, Forall (key_lt q) inner.*1 → Forall (key_lt q) c.*1
  | Err e => e = BuiltinFailure id ∧ ∃ t, ¬ in_i128 (amt inner t * f)
  end.
Proof.
  intros [Hs Hf]. induction inner as [|[k x] inner IH]; [by split_and!|].
  apply strict_sorted_cons in Hs as [Hlt Hs]. apply Forall_cons in Hf as [[Hk Hx] Hf]. cbn [scale_inner].
  specialize (IH Hs Hf). rewrite to_i128_spec. case_decide as Hr.
  2:{ split; [done|]. exists k. by rewrite amt_cons, decide_True. }
  destruct (scale_inner id f inner) as [c|e]; simpl.
  2:{ destruct IH as (-> & t & Ht). split; [done|]. exists t. rewrite amt_cons. case_decide; [|done]. subst.
      rewrite amt_lt_zero in Ht by done. destruct Ht. unfold in_i128, i128_min, i128_max. lia. }
  destruct IH as ([Hcs Hcf] & Hcz & Hamt & Hsub). specialize (Hsub k Hlt) as Hkc.
  destruct (Z.eqb_spec (x * f) 0) as [H0|H0].
  - split; [done|]. split; [done|]. split; [|intros q Hq; apply Forall_cons in Hq as [_ Hq]; auto].
    intros t. rewrite Hamt, amt_cons. case_decide; [|done]. subst. rewrite (amt_lt_zero k inner) by done. lia.
  - split; [split; [by apply strict_sorted_cons|by constructor]|]. split; [by constructor|]. split.
    + intros t. rewrite !amt_cons. by case_decide.
    + intros q Hq. apply Forall_cons in Hq as [? Hq]. constructor; auto.
Qed.

Lemma scale_value_spec id f v :
  raw_value v →
  match scale_value id f v with
  | Ok c => canonical c ∧ (∀ p t, lookup_coin p t c = lookup_coin p t v * f) ∧
            ∀ q, Forall (key_lt q) v.*1 → Forall (key_lt q) c.*1
  | Err e => e = BuiltinFailure id ∧ ∃ p t, ¬ in_i128 (lookup_coin p t v * f)
  end.
Proof.
  intros [Hs Hf]. induction v as [|[p0 inner] v IH].
  { split; [split; [split; constructor|constructor]|]. by split. }
  apply strict_sorted_cons in Hs as [Hlt Hs]. apply Forall_cons in Hf as [[Hk Hr] Hf]. cbn [scale_value].
  specialize (IH Hs Hf). pose proof (scale_inner_spec id f inner Hr) as Hi.
  assert (∀ p t i w, lookup_coin p t ((p0, i) :: w) = if decide (p = p0) then amt i t else lookup_coin p t w) as Hcons.
  { intros p t i w. rewrite !lookup_coin_amt. simpl. by case_decide. }
  assert (∀ t, lookup_coin p0 t v = 0) as Hz. { intros t. by rewrite lookup_coin_amt, assoc_lt_None. }
  destruct (scale_inner id f inner) as [ci|e]; simpl.
  2:{ destruct Hi as (-> & t & Ht). split; [done|]. exists p0, t. by rewrite Hcons, decide_True. }
  destruct Hi as (Hcr & Hcz & Hca & _).
  destruct (scale_value id f v) as [c|e]; simpl.
  2:{ destruct IH as (-> & p & t & Ht). split; [done|]. exists p, t. rewrite Hcons. case_decide; [|done]. subst.
      rewrite Hz in Ht. destruct Ht. unfold in_i128, i128_min, i128_max. lia. }
  destruct IH as ([[Hcs Hcf] Hcc] & Hl & Hsub). specialize (Hsub p0 Hlt) as Hkc.
  assert (∀ p t, (if decide (p = p0) then amt ci t else lookup_coin p t c) =
    lookup_coin p t ((p0, inner) :: v) * f) as Hlk.
  { intros p t. rewrite Hcons. case_decide; [by rewrite Hca|apply Hl]. }
  destruct ci as [|e ci].
  - split; [done|]. split; [|intros q Hq; apply Forall_cons in Hq as [_ Hq]; auto].
    intros p t. rewrite <-Hlk. case_decide; [|done]. subst. by rewrite lookup_coin_amt, assoc_lt_None.
  - split; [|split].
    + split; [split; [by apply strict_sorted_cons|by constructor]|by constructor].
    + intros p t. by rewrite Hcons, Hlk.
    + intros q Hq. apply Forall_cons in Hq as [? Hq]. constructor; auto.
Qed.

(** ** Through [Data] and back *)

Lemma ascends_lt prev k : (∀ q, prev = Some q → key_lt q k) → ascends prev k = true.
Proof.
  intros H. destruct prev as [q|]; [|done]. simpl. specialize (H q eq_refl). apply negb_true_iff.
  destruct (key_leb k q) eqn:E; [|done]. apply key_leb_le, key_not_lt in E. done.
Qed.

Lemma bt_insert_head {V} k (x : V) m : Forall (key_lt k) m.*1 → bt_insert k x m = (k, x) :: m.
Proof.
  destruct m as [|[k0 x0] m]; [done|]. simpl. intros H. apply Forall_cons in H as [H _]. by rewrite H.
Qed.

Lemma un_value_inner_data id prev inner :
  raw_inner inner → Forall (λ t, t.2 ≠ 0) inner →
  (∀ q, prev = Some q → Forall (key_lt q) inner.*1) →
  un_value_inner id prev ((λ '(token, x), (DB token, DI x)) <$> inner) = Ok inner.
Proof.
  intros [Hs Hf] Hz. revert prev. induction inner as [|[k x] inner IH]; intros prev Hp; [done|].
  apply strict_sorted_cons in Hs as [Hlt Hs]. apply Forall_cons in Hf as [[Hk Hx] Hf].
  apply Forall_cons in Hz as [Hx0 Hz]. simpl in *.
  rewrite (proj2 (Nat.ltb_ge _ _)) by done. rewrite ascends_lt.
  2:{ intros q Hq. specialize (Hp q Hq). by apply Forall_cons in Hp as [? _]. }
  simpl. rewrite to_i128_spec, decide_True by done. rewrite (proj2 (Z.eqb_neq _ _)) by done.
  rewrite IH; [|done..|by intros q [= <-]]. simpl. by rewrite bt_insert_head.
Qed.

Lemma un_value_outer_data id prev v :
  canonical v → (∀ q, prev = Some q → Forall (key_lt q) v.*1) →
  un_value_outer id prev
    ((λ '(policy, inner), (DB policy, DMap ((λ '(token, x), (DB token, DI x)) <$> inner))) <$> v) = Ok v.
Proof.
  intros [[Hs Hf] Hc]. revert prev. induction v as [|[p inner] v IH]; intros prev Hp; [done|].
  apply strict_sorted_cons in Hs as [Hlt Hs]. apply Forall_cons in Hf as [[Hk Hr] Hf].
  apply Forall_cons in Hc as [[Hne Hz] Hc]. simpl in *.
  rewrite (proj2 (Nat.ltb_ge _ _)) by done. rewrite ascends_lt.
  2:{ intros q Hq. specialize (Hp q Hq). by apply Forall_cons in Hp as [? _]. }
  simpl. destruct inner as [|[k x] inner]; [done|].
  pose proof (un_value_inner_data id None ((k, x) :: inner) Hr Hz (λ q (Hq : None = Some q), ltac:(done))) as Hu.
  cbn [fmap list_fmap] in Hu |- *. rewrite Hu. simpl. rewrite IH; [|done..|by intros q [= <-]].
  simpl. by rewrite bt_insert_head.
Qed.

(** * Integer, byte string and data builtins

    What the arithmetic of [denotations.rs] computes: Haskell's [div] and [mod]
    from the truncated operations, modular exponentiation with its inverse case,
    the two conversions between integers and byte strings, and equality of data. *)


(** ** Division *)

Lemma haskell_div_mod a b :
  b ≠ 0 → divide_haskell_div a b = a / b ∧ mod_haskell_mod a b = a mod b.
Proof.
  intros Hb. unfold divide_haskell_div, mod_haskell_mod.
  pose proof (Z.quot_rem' a b) as Hq.
  pose proof (Z.rem_bound_abs a b Hb) as Hr. pose proof (Z.rem_sign_nz a b Hb) as Hs.
  set (q := Z.quot a b) in *. set (r := Z.rem a b) in *.
  assert (∀ q' r', a = b * q' + r' → (0 ≤ r' < b ∨ b < r' ≤ 0) → q' = a / b ∧ r' = a mod b) as Hu.
  { intros q' r' He Hb'. split; [by eapply Z.div_unique|by eapply Z.mod_unique]. }
  destruct (Z.eqb_spec r 0) as [H0|H0]; simpl.
  { destruct (Hu q r) as [<- <-]; [lia|destruct (decide (0 < b)); lia|done]. }
  specialize (Hs H0).
  destruct (Z.ltb_spec a 0) as [Ha|Ha], (Z.ltb_spec b 0) as [Hb0|Hb0]; simpl.
  - destruct (Hu q r) as [<- <-]; [lia|right; lia|done].
  - destruct (Hu (q - 1) (r + b)) as [<- <-]; [lia|left; lia|done].
  - destruct (Hu (q - 1) (r + b)) as [<- <-]; [lia|right; lia|done].
  - destruct (Hu q r) as [<- <-]; [lia|left; lia|done].
Qed.

(** ** Modular exponentiation *)

(** The second component halves in two turns, so the fuel of [modinv] is enough. *)
Lemma egcd_spec k fuel b m r0 r1 s0 s1 :
  0 ≤ r0 → 0 ≤ r1 < 2 ^ Z.of_nat k → (2 * k < fuel)%nat →
  (m | r0 - s0 * b) → (m | r1 - s1 * b) →
  let '(g, s) := egcd fuel r0 r1 s0 s1 in g = Z.gcd r0 r1 ∧ (m | g - s * b).
Proof.
  revert fuel r0 r1 s0 s1. induction k as [|k IH]; intros fuel r0 r1 s0 s1 H0 H1 Hf Hd0 Hd1.
  { destruct fuel as [|fuel]; [lia|]. simpl in H1 |- *. replace r1 with 0 by lia. simpl.
    rewrite Z.gcd_0_r, Z.abs_eq by lia. done. }
  destruct fuel as [|[|fuel]]; [lia|lia|]. simpl.
  destruct (Z.eqb_spec r1 0) as [->|Hr1]; [rewrite Z.gcd_0_r, Z.abs_eq by lia; done|].
  assert (0 ≤ r0 mod r1 < r1) as H2 by (apply Z.mod_pos_bound; lia).
  assert (Z.gcd r1 (r0 mod r1) = Z.gcd r0 r1) as Hg1.
  { rewrite (Z.gcd_comm r1), Z.gcd_mod by lia. apply Z.gcd_comm. }
  set (r2 := r0 mod r1) in *. set (s2 := s0 - r0 / r1 * s1).
  assert (m | r2 - s2 * b) as Hd2.
  { replace (r2 - s2 * b) with ((r0 - s0 * b) - (r0 / r1) * (r1 - s1 * b)).
    - apply Z.divide_sub_r; [done|by apply Z.divide_mul_r].
    - unfold s2. pose proof (Z.div_mod r0 r1 Hr1) as Hdm. fold r2 in Hdm. lia. }
  destruct (Z.eqb_spec r2 0) as [Hr2|Hr2].
  { rewrite Hr2 in Hg1. rewrite Z.gcd_0_r, Z.abs_eq in Hg1 by lia. done. }
  assert (0 ≤ r1 mod r2 < r2) as H3 by (apply Z.mod_pos_bound; lia).
  assert (r1 mod r2 < 2 ^ Z.of_nat k) as Hhalf.
  { rewrite Nat2Z.inj_succ, Z.pow_succ_r in H1 by lia. pose proof (Z.div_mod r1 r2 Hr2) as Hdm.
    assert (1 ≤ r1 / r2) by (apply Z.div_le_lower_bound; lia). nia. }
  set (r3 := r1 mod r2) in *. set (s3 := s1 - r1 / r2 * s2).
  assert (m | r3 - s3 * b) as Hd3.
  { replace (r3 - s3 * b) with ((r1 - s1 * b) - (r1 / r2) * (r2 - s2 * b)).
    - apply Z.divide_sub_r; [done|by apply Z.divide_mul_r].
    - unfold s3. pose proof (Z.div_mod r1 r2 Hr2) as Hdm. fold r3 in Hdm. lia. }
  specialize (IH fuel r2 r3 s2 s3 ltac:(lia) ltac:(lia) ltac:(lia) Hd2 Hd3).
  destruct (egcd fuel r2 r3 s2 s3) as [g s]. destruct IH as [-> Hs]. split; [|done].
  rewrite <-Hg1. unfold r3. rewrite (Z.gcd_comm r2), Z.gcd_mod by lia. apply Z.gcd_comm.
Qed.

Lemma modinv_spec base m :
  1 < m →
  match modinv base m with
  | Some inv => 0 ≤ inv < m ∧ (inv * base) mod m = 1
  | None => Z.gcd base m ≠ 1
  end.
Proof.
  intros Hm. unfold modinv. set (b := base mod m).
  assert (0 ≤ b < m) as Hb by (apply Z.mod_pos_bound; lia).
  pose proof (Z.log2_nonneg m) as Hl. pose proof (Z.log2_spec m ltac:(lia)) as [_ Hl2].
  pose proof (egcd_spec (Z.to_nat (Z.log2 m + 1)) (S (Z.to_nat (2 * (Z.log2 m + 1)))) b m b m 1 0
    ltac:(lia) ltac:(rewrite Z2Nat.id by lia; replace (Z.log2 m + 1) with (Z.succ (Z.log2 m)) by lia; lia)
    ltac:(lia) ltac:(exists 0; lia) ltac:(exists 1; lia)) as He.
  destruct (egcd _ b m 1 0) as [g s]. destruct He as [-> Hs].
  assert (Z.gcd b m = Z.gcd base m) as Hgcd.
  { unfold b. rewrite Z.gcd_mod by lia. apply Z.gcd_comm. }
  rewrite Hgcd in *. destruct (Z.eqb_spec (Z.gcd base m) 1) as [H1|H1]; [|done].
  split; [apply Z.mod_pos_bound; lia|]. rewrite Z.mul_mod_idemp_l by lia.
  rewrite <-Z.mul_mod_idemp_r by lia. fold b.
  destruct Hs as [c Hc]. rewrite H1 in Hc. replace (s * b) with (1 + (- c) * m) by lia.
  rewrite Z.mod_add by lia. by apply Z.mod_1_l.
Qed.

Lemma exp_mod_spec id base e m :
  0 < m < EXP_MOD_BOUND → - EXP_MOD_BOUND ≤ base < EXP_MOD_BOUND → - EXP_MOD_BOUND ≤ e < EXP_MOD_BOUND →
  match exp_mod_integer id base e m with
  | Ok r => ∃ n, r = VConst (CInteger n) ∧ 0 ≤ n < m ∧
             (0 ≤ e → n = base ^ e mod m) ∧ (e < 0 → (n * base ^ (- e)) mod m = 1 mod m)
  | Err err => err = BuiltinFailure id ∧ e < 0 ∧ Z.gcd base m ≠ 1
  end.
Proof.
  intros Hm Hb He. unfold exp_mod_integer, ret_int.
  rewrite (proj2 (Z.leb_gt m 0)), (proj2 (Z.leb_gt EXP_MOD_BOUND m)) by lia.
  destruct (Z.eqb_spec m 1) as [->|Hm1].
  { exists 0. split; [done|]. split; [lia|]. by rewrite !Z.mod_1_r. }
  rewrite (proj2 (Z.ltb_ge base _)), (proj2 (Z.leb_gt _ base)), (proj2 (Z.ltb_ge e _)), (proj2 (Z.leb_gt _ e)) by lia.
  cbn [orb]. unfold modpow. destruct (Z.ltb_spec e 0) as [Hn|Hn].
  - destruct (Z.eqb_spec base 0) as [->|Hb0].
    { split; [done|]. split; [done|]. rewrite Z.gcd_0_l. lia. }
    pose proof (modinv_spec base m ltac:(lia)) as Hi. destruct (modinv base m) as [inv|]; [|done].
    destruct Hi as [Hi1 Hi2]. rewrite Zpow_mod_correct by lia. eexists. split; [done|].
    split; [apply Z.mod_pos_bound; lia|]. split; [lia|]. intros _.
    rewrite Z.mul_mod_idemp_l, <-Z.pow_mul_l by lia. rewrite Zpower_mod by lia. rewrite Hi2.
    by rewrite Z.pow_1_l by lia.
  - rewrite Zpow_mod_correct by lia. eexists. split; [done|].
    split; [apply Z.mod_pos_bound; lia|]. by split; [|lia].
Qed.

(** ** Equality of data *)

Section data_induction.
Context (P : Data → Prop).
Context (HC : ∀ tag args, Forall P args → P (DConstr tag args)).
Context (HM : ∀ entries, Forall (λ e, P e.1 ∧ P e.2) entries → P (DMap entries)).
Context (HL : ∀ items, Forall P items → P (DList items)).
Context (HI : ∀ n, P (DI n)) (HB : ∀ bs, P (DB bs)).

Fixpoint data_ind (d : Data) : P d :=
  match d with
  | DConstr tag args =>
      HC tag args ((fix go l : Forall P l :=
        match l with [] => Forall_nil_2 P | x :: l' => Forall_cons_2 P x l' (data_ind x) (go l') end) args)
  | DMap entries =>
      HM entries ((fix go l : Forall (λ e, P e.1 ∧ P e.2) l :=
        match l with
        | [] => Forall_nil_2 _
        | (k, v) :: l' => Forall_cons_2 (λ e, P e.1 ∧ P e.2) (k, v) l' (conj (data_ind k) (data_ind v)) (go l')
        end) entries)
  | DList items =>
      HL items ((fix go l : Forall P l :=
        match l with [] => Forall_nil_2 P | x :: l' => Forall_cons_2 P x l' (data_ind x) (go l') end) items)
  | DI n => HI n
  | DB bs => HB bs
  end.
End data_induction.

Lemma data_eqb_spec a b : data_eqb a b = true ↔ a = b.
Proof.
  revert b. induction a as [tag args IH|entries IH|items IH|n|bs] using data_ind; intros [tag' args'|entries'|items'|n'|bs'];
    simpl; try done.
  - rewrite andb_true_iff, Z.eqb_eq.
    enough (∀ l, _ args l = true ↔ args = l) as Hl by (rewrite Hl; naive_solver).
    induction IH as [|x args Hx _ IHl]; intros [|y l]; try done.
    rewrite andb_true_iff, Hx, IHl. naive_solver.
  - enough (∀ l, _ entries l = true ↔ entries = l) as Hl by (rewrite Hl; naive_solver).
    induction IH as [|[k v] entries [Hk Hv] _ IHl]; intros [|[k' v'] l]; try done. simpl in Hk, Hv.
    rewrite !andb_true_iff, Hk, Hv, IHl. naive_solver.
  - enough (∀ l, _ items l = true ↔ items = l) as Hl by (rewrite Hl; naive_solver).
    induction IH as [|x items Hx _ IHl]; intros [|y l]; try done.
    rewrite andb_true_iff, Hx, IHl. naive_solver.
  - rewrite Z.eqb_eq. naive_solver.
  - rewrite bool_decide_eq_true. naive_solver.
Qed.

(** ** Integers as byte strings *)

Lemma byte_length_bound n : 0 ≤ n → n < 256 ^ Z.of_nat (byte_length n).
Proof.
  intros Hn. unfold byte_length. pose proof (Z.log2_nonneg n) as Hl.
  assert (0 ≤ Z.log2 n / 8) by (apply Z.div_pos; lia).
  rewrite Z2Nat.id by lia. change 256 with (2 ^ 8). rewrite <-Z.pow_mul_r by lia.
  destruct (decide (n = 0)) as [->|]; [apply Z.pow_pos_nonneg; lia|].
  pose proof (Z.log2_spec n ltac:(lia)) as [_ Hlt]. eapply Z.lt_le_trans; [exact Hlt|].
  apply Z.pow_le_mono_r; [lia|]. pose proof (Z.div_mod (Z.log2 n) 8). pose proof (Z.mod_pos_bound (Z.log2 n) 8). lia.
Qed.

Lemma byte_length_least n w : 0 < n → n < 256 ^ Z.of_nat w → (byte_length n ≤ w)%nat.
Proof.
  intros Hn Hw. unfold byte_length. change 256 with (2 ^ 8) in Hw. rewrite <-Z.pow_mul_r in Hw by lia.
  apply Z.log2_lt_pow2 in Hw; [|lia]. pose proof (Z.log2_nonneg n).
  assert (Z.log2 n / 8 < Z.of_nat w) by (apply Z.div_lt_upper_bound; lia). lia.
Qed.

Lemma le_value_zeroes bs k : le_value (bs ++ zeroes k) = le_value bs.
Proof.
  induction bs as [|b bs IH]; simpl; [|by rewrite IH].
  induction k as [|k IHk]; simpl; [done|]. unfold zeroes in IHk. by rewrite IHk.
Qed.

Lemma magnitude_zero n : 0 ≤ n → magnitude_be n = [0] ↔ n = 0.
Proof.
  intros Hn. split; [|by intros ->]. intros Hm.
  rewrite <-(be_value_bytes (byte_length n) n); [|pose proof (byte_length_bound n Hn); lia].
  unfold magnitude_be in Hm. by rewrite Hm.
Qed.

(** The encoding when it is defined: as short as possible, or padded to [width]. *)
Lemma integer_to_byte_string_spec id big_endian width n :
  0 ≤ n →
  match integer_to_byte_string id big_endian width n with
  | Ok r => ∃ bs, r = VConst (CByteString bs) ∧ byte_string_to_integer big_endian bs = n ∧
              (width ≠ 0%nat → length bs = width) ∧ (length bs ≤ MAX_INT_TO_BS_WIDTH)%nat
  | Err e => e = BuiltinFailure id ∧
             ((MAX_INT_TO_BS_WIDTH < width)%nat ∨ 256 ^ Z.of_nat width ≤ n ∧ width ≠ 0%nat ∨
              256 ^ Z.of_nat MAX_INT_TO_BS_WIDTH ≤ n)
  end.
Proof.
  intros Hn. unfold integer_to_byte_string, ret_bytes.
  destruct (Nat.ltb_spec MAX_INT_TO_BS_WIDTH width) as [Hw|Hw]; [by split; [|left]|].
  assert (∀ w, (w < length (magnitude_be n))%nat → (0 < w)%nat → 256 ^ Z.of_nat w ≤ n) as Hbig.
  { intros w Hlen Hpos. unfold magnitude_be in Hlen. rewrite length_be_bytes in Hlen.
    destruct (decide (256 ^ Z.of_nat w ≤ n)) as [|Hlt]; [done|].
    destruct (decide (n = 0)) as [->|]; [change (byte_length 0) with 1%nat in Hlen; lia|].
    pose proof (byte_length_least n w ltac:(lia) ltac:(lia)). lia. }
  assert (∀ k, byte_string_to_integer big_endian
      (if big_endian then zeroes k ++ magnitude_be n else reverse (zeroes k ++ magnitude_be n)) = n) as Hval.
  { intros k. unfold byte_string_to_integer.
    replace (if big_endian then _ else _) with (zeroes k ++ magnitude_be n)
      by (destruct big_endian; [done|by rewrite reverse_involutive]).
    unfold be_value. rewrite reverse_app. unfold zeroes at 1. rewrite reverse_replicate.
    fold (zeroes k). rewrite le_value_zeroes. unfold magnitude_be.
    apply be_value_bytes. pose proof (byte_length_bound n Hn). lia. }
  case_bool_decide as H0; [apply magnitude_zero in H0; [|done]|]; simpl.
  - destruct (Nat.eqb_spec width 0) as [->|Hw0]; simpl.
    { subst. exists []. split; [done|]. by destruct big_endian. }
    rewrite (proj2 (Nat.ltb_ge _ _)) by (subst; simpl; lia).
    eexists. split; [done|]. split; [apply Hval|].
    assert (length (zeroes (width - length (magnitude_be n)) ++ magnitude_be n) = width) as Hlen.
    { subst. rewrite length_app. unfold zeroes. rewrite length_replicate. change (length (magnitude_be 0)) with 1%nat. lia. }
    destruct big_endian; [|rewrite length_reverse]; lia.
  - destruct (Nat.eqb_spec width 0) as [->|Hw0].
    + destruct (Nat.ltb_spec MAX_INT_TO_BS_WIDTH (length (magnitude_be n))) as [Hl|Hl].
      { split; [done|]. right. right. apply Hbig; [done|]. by apply Nat.ltb_lt. }
      exists (if big_endian then magnitude_be n else reverse (magnitude_be n)). split; [done|].
      split; [apply (Hval 0%nat)|]. split; [done|]. by destruct big_endian; [|rewrite length_reverse].
    + destruct (Nat.ltb_spec width (length (magnitude_be n))) as [Hl|Hl].
      { split; [done|]. right. left. split; [apply Hbig; [done|lia]|done]. }
      eexists. split; [done|]. split; [apply Hval|].
      assert (length (zeroes (width - length (magnitude_be n)) ++ magnitude_be n) = width) as Hlen.
      { rewrite length_app. unfold zeroes. rewrite length_replicate. lia. }
      destruct big_endian; [|rewrite length_reverse]; lia.
Qed.
