(* ===== verification/UplcMachine.v ===== *)
(** * The CEK machine ([crates/dugite-uplc/src/machine/step.rs])

    [compute], [return_compute], [apply] and [force_value] are the transitions;
    [builtin/dispatch.rs] fires a builtin when its forces and arguments are
    complete. [evaluate_with_budget] charges a [Compute] state before it steps;
    the loop takes fuel and [None] is a run that needs more. [scope_check.rs] runs
    before the machine. *)

From S2P Require Import Prelude Uplc UplcBuiltins.
Local Open Scope Z_scope.

Section machine.
Context {UC : UplcCrypto}.

(** ** Dispatch *)

Inductive ForceOutcome :=
| Pending (v : Value)
| FDone (v : Value)
| Excess.

(** [let cost = t.builtin_costs.charge_for_args(..); t.charge(cost)?] *)
Definition charge_builtin (id : BuiltinId) (args : list Value) (variant : SemanticsVariant) : ueff () :=
  with_tracker (λ t, tracker_charge (bt_builtin_costs t id args variant) t).

Definition force_builtin (id : BuiltinId) (forces : nat) (args : list Value)
    (variant : SemanticsVariant) : ueff ForceOutcome :=
  let '(required_forces, required_arity) := arity_of id in
  if (forces <? required_forces)%nat then
    let new_forces := S forces in
    if (new_forces =? required_forces)%nat && (required_arity =? 0)%nat then
      _ ← charge_builtin id [] variant;
      result ← denote id [] variant;
      mret (FDone result)
    else mret (Pending (VBuiltin id new_forces args))
  else mret Excess.

Definition apply_builtin (id : BuiltinId) (forces : nat) (args : list Value) (a : Value)
    (variant : SemanticsVariant) : ueff Value :=
  let '(required_forces, required_arity) := arity_of id in
  if (forces <? required_forces)%nat then ulift (Err (BuiltinTypeError id)) else
  let args := args ++ [a] in
  let arg_count := (length args mod 256)%nat in
  if (arg_count <? required_arity)%nat then mret (VBuiltin id forces args)
  else if (required_arity <? arg_count)%nat then ulift (Err (BuiltinTypeError id))
  else
    _ ← charge_builtin id args variant;
    denote id args variant.

(** ** Transitions *)

Definition compute (term : Term) (env : Env) (kont : Kont) : uplc_result State :=
  match term with
  | TVar i => v ← env_lookup env i; Ok (Return v kont)
  | TLam body => Ok (Return (VLambda body env) kont)
  | TApp fn a => Ok (Compute fn env (FAwaitFunTerm a env :: kont))
  | TConst c => Ok (Return (VConst c) kont)
  | TDelay body => Ok (Return (VDelay body env) kont)
  | TForce body => Ok (Compute body env (FForce :: kont))
  | TError => Err ScriptError
  | TBuiltin id =>
      let '(required_forces, required_arity) := arity_of id in
      if (required_forces =? 0)%nat && (required_arity =? 0)%nat then Err InternalError
      else Ok (Return (VBuiltin id 0 []) kont)
  | TConstr tag [] => Ok (Return (VConstr tag []) kont)
  | TConstr tag (first :: pending) => Ok (Compute first env (FConstr tag pending [] env :: kont))
  | TCase scrutinee branches => Ok (Compute scrutinee env (FCases branches env :: kont))
  end.

Definition apply (function a : Value) (kont : Kont) (variant : SemanticsVariant) : ueff State :=
  match function with
  | VLambda body env => mret (Compute body (env_extend env a) kont)
  | VBuiltin id forces args => v ← apply_builtin id forces args a variant; mret (Return v kont)
  | _ => ulift (Err (MachineError NonFunction))
  end.

Definition force_value (value : Value) (kont : Kont) (variant : SemanticsVariant) : ueff State :=
  match value with
  | VDelay body env => mret (Compute body env kont)
  | VBuiltin id forces args =>
      outcome ← force_builtin id forces args variant;
      match outcome with
      | Pending v | FDone v => mret (Return v kont)
      | Excess => ulift (Err (BuiltinTypeError id))
      end
  | _ => ulift (Err (MachineError NonDelay))
  end.

(** The scrutinee as a constructor index, its fields, and the number of branches
    allowed. *)
Definition case_project (value : Value) (branch_count : nat) (variant : SemanticsVariant) :
    uplc_result (Z * list Value * option nat) :=
  match value with
  | VConstr tag args => Ok (tag, args, None)
  | VConst c =>
      if negb (case_on_constant_available variant) then Err ScriptError else
      match c with
      | CBool false => Ok (0, [], Some 2%nat)
      | CBool true => Ok (1, [], Some 2%nat)
      | CUnit => Ok (0, [], Some 1%nat)
      | CList t [] => Ok (1, [], Some 2%nat)
      | CList t (h :: tail) => Ok (0, [VConst h; VConst (CList t tail)], Some 2%nat)
      | CPair _ _ a b => Ok (0, [VConst a; VConst b], Some 1%nat)
      | CInteger n =>
          if (0 <=? n) && (n <? Z.of_nat branch_count) then Ok (n, [], None) else Err ScriptError
      | _ => Err (MachineError NonConstr)
      end
  | _ => Err (MachineError NonConstr)
  end.

(** Frames are pushed in reverse, so that the first field is applied first. *)
Definition case_dispatch (value : Value) (branches : list Term) (env : Env) (kont : Kont)
    (variant : SemanticsVariant) : uplc_result State :=
  let branch_count := length branches in
  '(tag, payload, max_branches) ← case_project value branch_count variant;
  if match max_branches with Some max => (max <? branch_count)%nat | None => false end
  then Err ScriptError else
  match (if Z.of_nat branch_count <=? tag then None else branches !! Z.to_nat tag) with
  | None => Err ScriptError
  | Some branch => Ok (Compute branch env ((FApplyValue <$> payload) ++ kont))
  end.

Definition return_compute (value : Value) (kont : Kont) (variant : SemanticsVariant) : ueff State :=
  match kont with
  | [] => mret (Done value)
  | FAwaitFunTerm argument env :: kont => mret (Compute argument env (FAwaitArg value env :: kont))
  | FAwaitArg function _ :: kont => apply function value kont variant
  | FForce :: kont => force_value value kont variant
  | FApplyValue argument :: kont => apply value argument kont variant
  | FConstr tag (next :: pending) evaluated env :: kont =>
      mret (Compute next env (FConstr tag pending (evaluated ++ [value]) env :: kont))
  | FConstr tag [] evaluated env :: kont => mret (Return (VConstr tag (evaluated ++ [value])) kont)
  | FCases branches env :: kont => ulift (case_dispatch value branches env kont variant)
  end.

Definition step (state : State) (variant : SemanticsVariant) : ueff State :=
  match state with
  | Compute term env kont => ulift (compute term env kont)
  | Return value kont => return_compute value kont variant
  | Done _ => ulift (Err InternalError)
  end.

(** One iteration of the loop: a [Compute] state is charged before the step. *)
Definition iteration (state : State) (variant : SemanticsVariant) : ueff State :=
  _ ← match state with
      | Compute term _ _ => with_tracker (compute_step term)
      | _ => mret ()
      end;
  step state variant.

Fixpoint eval_loop (fuel : nat) (state : State) (variant : SemanticsVariant) (w : World) :
    option (uplc_result Value * World) :=
  match fuel with
  | O => None
  | S fuel' =>
      match iteration state variant w with
      | (Err e, w) => Some (Err e, w)
      | (Ok (Done v), w) =>
          match with_tracker tracker_flush w with
          | (Ok _, w) => Some (Ok v, w)
          | (Err e, w) => Some (Err e, w)
          end
      | (Ok state', w) => eval_loop fuel' state' variant w
      end
  end.

(** [evaluate_with_budget]; without a tracker it is [evaluate] *)
Definition evaluate_with_budget (fuel : nat) (term : Term) (variant : SemanticsVariant) (w : World) :
    option (uplc_result Value * World) :=
  eval_loop fuel (Compute term [] []) variant w.

Definition evaluate (fuel : nat) (term : Term) : option (uplc_result Value) :=
  fst <$> evaluate_with_budget fuel term LATEST (mkWorld None None).

End machine.

(** ** Scope check *)

Fixpoint check_scope_at (term : Term) (lvl : Z) : uplc_result () :=
  match term with
  | TVar i => if (i =? 0) || (lvl <? i) then Err (FreeVariable i) else Ok ()
  | TLam body => check_scope_at body (lvl + 1)
  | TApp fn a => _ ← check_scope_at fn lvl; check_scope_at a lvl
  | TForce body | TDelay body => check_scope_at body lvl
  | TConst _ | TBuiltin _ | TError | TConstr _ _ | TCase _ _ => Ok ()
  end.

Definition check_scope (term : Term) : uplc_result () := check_scope_at term 0.
