(* ===== verification/UplcBudget.v ===== *)
(** * Budget accounting of the machine

    Invariants of [BudgetTracker] under the machine: charges of a block of
    [SLIPPAGE] steps are buffered, so the remaining budget lags behind. The lemmas
    of this file say how one iteration moves the tracker; from them follow that
    every evaluation with a budget ends, and that the verdict depends on the total
    cost alone. *)

From S2P Require Import Prelude RecordUpdate Uplc UplcBuiltins UplcMachine.
Local Open Scope Z_scope.
Local Open Scope record_scope.


(** ** Cost models *)

Definition nonneg (b : ExBudget) : Prop := 0 ≤ cpu b ∧ 0 ≤ mem b.
Definition fits (a b : ExBudget) : Prop := cpu a ≤ cpu b ∧ mem a ≤ mem b.

(** A step of each kind costs at least one unit of CPU, and [SLIPPAGE] of them
    do not overflow. *)
Definition step_cost_ok (b : ExBudget) : Prop :=
  1 ≤ cpu b ∧ 0 ≤ mem b ∧ SLIPPAGE * cpu b ≤ i64_max ∧ SLIPPAGE * mem b ≤ i64_max.

Record costs_ok (costs : MachineCosts) (builtins : BuiltinCosts) : Prop := {
  ok_startup : nonneg (mc_startup costs) ∧ fits (mc_startup costs) (mkBudget i64_max i64_max);
  ok_steps : ∀ t, t ≠ TError → step_cost_ok (cost_for costs t);
  ok_builtins : ∀ id args variant, nonneg (builtins id args variant);
}.

(** ** The tracker *)

(** Each of the buffered steps costs between one and [i64_max / SLIPPAGE]. *)
Record tracker_ok (t : BudgetTracker) : Prop := {
  to_restricting : bt_counting t = false;
  to_costs : costs_ok (bt_costs t) (bt_builtin_costs t);
  to_count : 0 ≤ bt_pending_count t ≤ SLIPPAGE;
  to_cpu : bt_pending_count t ≤ cpu (bt_pending t) ∧
           SLIPPAGE * cpu (bt_pending t) ≤ bt_pending_count t * i64_max;
  to_mem : 0 ≤ mem (bt_pending t) ∧
           SLIPPAGE * mem (bt_pending t) ≤ bt_pending_count t * i64_max;
  to_remaining : fits (bt_remaining t) (mkBudget i64_max i64_max);
}.

Definition budget_add (a b : ExBudget) : ExBudget := mkBudget (cpu a + cpu b) (mem a + mem b).
Definition budget_sub (a b : ExBudget) : ExBudget := mkBudget (cpu a - cpu b) (mem a - mem b).

Lemma budget_eq a b : cpu a = cpu b → mem a = mem b → a = b.
Proof. destruct a, b; simpl. by intros -> ->. Qed.

Lemma sat64_id x : i64_min ≤ x ≤ i64_max → sat64 x = x.
Proof. unfold sat64, i64_min, i64_max. lia. Qed.

Lemma try_subtract_spec self other :
  fits self (mkBudget i64_max i64_max) → nonneg other →
  try_subtract self other =
    if decide (fits other self) then Some (budget_sub self other) else None.
Proof.
  unfold try_subtract, subtract_saturating, fits, nonneg, budget_sub, sat64, i64_min, i64_max. simpl.
  intros [Hc Hm] [Hoc Hom]. case_decide as Hf.
  - destruct (orb _ _) eqn:E; [|f_equal; apply budget_eq; simpl; lia].
    apply orb_true_iff in E. lia.
  - destruct (orb _ _) eqn:E; [done|]. apply orb_false_iff in E. lia.
Qed.

(** ** One iteration, seen from the tracker *)

Definition restricting (t : BudgetTracker) : Prop :=
  bt_counting t = false ∧ fits (bt_remaining t) (mkBudget i64_max i64_max).

Lemma spend_spec cost t :
  restricting t → nonneg cost →
  spend cost t =
    if decide (fits cost (bt_remaining t))
    then (Ok (), t <| bt_remaining := budget_sub (bt_remaining t) cost |>)
    else (Err (BudgetExhausted (cpu (bt_remaining t)) (mem (bt_remaining t))), t).
Proof.
  intros [Hc Hr] Hn. unfold spend. rewrite Hc, try_subtract_spec by done. by case_decide.
Qed.

(** The tracker after a successful flush *)
Definition flushed (t : BudgetTracker) : BudgetTracker :=
  t <| bt_pending := budget_zero |> <| bt_pending_count := 0 |>
    <| bt_remaining := budget_sub (bt_remaining t) (bt_pending t) |>.

Lemma tracker_ok_empty t : tracker_ok t → bt_pending_count t = 0 → bt_pending t = budget_zero.
Proof.
  intros [] H0. unfold SLIPPAGE, i64_max in *. apply budget_eq; simpl; rewrite H0 in *; lia.
Qed.

Lemma flush_spec t :
  tracker_ok t →
  (bt_pending_count t = 0 ∧ tracker_flush t = (Ok (), t)) ∨
  (0 < bt_pending_count t ∧ fits (bt_pending t) (bt_remaining t) ∧ tracker_flush t = (Ok (), flushed t)) ∨
  (0 < bt_pending_count t ∧ ¬ fits (bt_pending t) (bt_remaining t) ∧
   ∃ c m t', tracker_flush t = (Err (BudgetExhausted c m), t')).
Proof.
  intros Hok. pose proof Hok as [Hc _ Hn Hcpu Hmem Hr]. unfold tracker_flush.
  destruct (decide (bt_pending_count t = 0)) as [H0|H0].
  - left. split; [done|]. pose proof (tracker_ok_empty t Hok H0) as Hp.
    rewrite Hp. simpl. f_equal. destruct t; cbn in *. by subst.
  - right. replace (_ && _) with false by (symmetry; apply andb_false_iff; left; lia).
    rewrite spend_spec; [|done|split; simpl; lia]. cbn.
    case_decide; [left|right]; (split; [lia|]); (split; [done|]); [done|by eexists _, _, _].
Qed.

Lemma flushed_ok t : tracker_ok t → fits (bt_pending t) (bt_remaining t) → tracker_ok (flushed t).
Proof.
  intros [] [? ?]. split; try done; unfold fits, SLIPPAGE, i64_max in *; cbn in *; lia.
Qed.

(** The charge of a step and, when its flush succeeds, of a builtin *)
Lemma compute_step_spec term t :
  tracker_ok t → bt_pending_count t < SLIPPAGE → term ≠ TError →
  let t1 := t <| bt_pending := budget_add (bt_pending t) (cost_for (bt_costs t) term) |>
              <| bt_pending_count := bt_pending_count t + 1 |> in
  tracker_ok t1 ∧
  compute_step term t = if decide (bt_pending_count t1 < SLIPPAGE) then (Ok (), t1) else tracker_flush t1.
Proof.
  intros Hok Hlt Ht t1. pose proof Hok as [Hc Hcosts Hn Hcpu Hmem Hr].
  destruct (ok_steps _ _ Hcosts term Ht) as (H1 & H2 & H3 & H4).
  assert (Hok1 : tracker_ok t1).
  { split; try done; cbn; unfold SLIPPAGE, i64_max in *; lia. }
  split; [done|]. unfold compute_step.
  assert (Hsum : saturating_sum (bt_pending t) (cost_for (bt_costs t) term) =
                 budget_add (bt_pending t) (cost_for (bt_costs t) term)).
  { pose proof (to_cpu _ Hok1). pose proof (to_mem _ Hok1). cbn in *.
    unfold SLIPPAGE, i64_max in *.
    apply budget_eq; simpl; apply sat64_id; unfold i64_min, i64_max; lia. }
  rewrite Hsum.
  replace (saturating_add64 (bt_pending_count t) 1) with (bt_pending_count t + 1)
    by (unfold saturating_add64, u64_max, SLIPPAGE in *; lia).
  fold t1. cbn. case_decide; [rewrite (proj2 (Z.leb_gt _ _)) by lia|rewrite (proj2 (Z.leb_le _ _)) by lia]; done.
Qed.

Section accounting.
Context {UC : UplcCrypto}.
Implicit Types (s : State) (t : BudgetTracker) (v : SemanticsVariant).

(** The builtin that a step fires, with its arguments. *)
Definition fires (function a : Value) : option (BuiltinId * list Value) :=
  match function with
  | VBuiltin id forces args =>
      let '(required_forces, required_arity) := arity_of id in
      if (forces <? required_forces)%nat then None
      else if (length (args ++ [a]) mod 256 =? required_arity)%nat then Some (id, args ++ [a])
      else None
  | _ => None
  end.

Definition fires_forced (value : Value) : option (BuiltinId * list Value) :=
  match value with
  | VBuiltin id forces args =>
      let '(required_forces, required_arity) := arity_of id in
      if (forces <? required_forces)%nat && (S forces =? required_forces)%nat && (required_arity =? 0)%nat
      then Some (id, []) else None
  | _ => None
  end.

Definition firing s : option (BuiltinId * list Value) :=
  match s with
  | Return value (FAwaitArg function _ :: _) => fires function value
  | Return value (FApplyValue argument :: _) => fires value argument
  | Return value (FForce :: _) => fires_forced value
  | _ => None
  end.

(** The charge of an iteration from the state [s]. *)
Definition tick s v t : uplc_result () * BudgetTracker :=
  match s with
  | Compute term _ _ => compute_step term t
  | _ => match firing s with
         | Some (id, args) => tracker_charge (bt_builtin_costs t id args v) t
         | None => (Ok (), t)
         end
  end.

Definition free log : World := mkWorld None log.

(** The denotation of a builtin does not look at the tracker. *)
Lemma denote_tracker id args v t log :
  denote id args v (mkWorld (Some t) log) =
    let '(r, w) := denote id args v (free log) in (r, mkWorld (Some t) (w_trace_log w)).
Proof.
  destruct id; try done. unfold denote, ulift, mbind, ueff_bind, arg, emit.
  destruct (args !! 0%nat) as [[[]| | | |]|]; try done; by destruct (args !! 1%nat).
Qed.

Lemma charge_builtin_tracker id args v t log :
  charge_builtin id args v (mkWorld (Some t) log) =
    let '(r, t') := tracker_charge (bt_builtin_costs t id args v) t in (r, mkWorld (Some t') log).
Proof. done. Qed.

(** A fired builtin is charged first; the rest does not depend on the tracker. *)
Definition with_charge {A} (m : ueff A) (fired : option (BuiltinId * list Value)) v t log :
    uplc_result A * World :=
  match match fired with
        | Some (id, args) => tracker_charge (bt_builtin_costs t id args v) t
        | None => (Ok (), t)
        end with
  | (Ok _, t') => let '(r, w) := m (free log) in (r, mkWorld (Some t') (w_trace_log w))
  | (Err e, t') => (Err e, mkWorld (Some t') log)
  end.

Lemma apply_builtin_tracker id forces args a v t log :
  apply_builtin id forces args a v (mkWorld (Some t) log) =
    with_charge (apply_builtin id forces args a v) (fires (VBuiltin id forces args) a) v t log.
Proof.
  unfold apply_builtin, with_charge, fires. destruct (arity_of id) as [rf ra].
  destruct (forces <? rf)%nat; [done|].
  destruct (Nat.ltb_spec (length (args ++ [a]) mod 256) ra) as [H1|H1].
  { by rewrite (proj2 (Nat.eqb_neq _ _)) by lia. }
  destruct (Nat.ltb_spec ra (length (args ++ [a]) mod 256)) as [H2|H2].
  { by rewrite (proj2 (Nat.eqb_neq _ _)) by lia. }
  rewrite (proj2 (Nat.eqb_eq _ _)) by lia.
  unfold mbind, ueff_bind. rewrite charge_builtin_tracker.
  destruct (tracker_charge _ t) as [[[]|e] t']; [|done].
  change (charge_builtin id (args ++ [a]) v (free log)) with (Ok () : uplc_result (), free log).
  apply denote_tracker.
Qed.

Lemma force_builtin_tracker id forces args v t log :
  force_builtin id forces args v (mkWorld (Some t) log) =
    with_charge (force_builtin id forces args v) (fires_forced (VBuiltin id forces args)) v t log.
Proof.
  unfold force_builtin, with_charge, fires_forced. destruct (arity_of id) as [rf ra].
  destruct (forces <? rf)%nat; [|done]. simpl. destruct (_ && _); [|done].
  unfold mbind, ueff_bind. rewrite charge_builtin_tracker.
  destruct (tracker_charge _ t) as [[[]|e] t']; [|done].
  change (charge_builtin id [] v (free log)) with (Ok () : uplc_result (), free log).
  cbn [mbind ueff_bind]. rewrite denote_tracker.
  destruct (denote id [] v (free log)) as [[r|e] w]; done.
Qed.

Lemma with_charge_none {A} (m : ueff A) v t log :
  m (mkWorld (Some t) log) = (let '(r, w) := m (free log) in (r, mkWorld (Some t) (w_trace_log w))) →
  m (mkWorld (Some t) log) = with_charge m None v t log.
Proof. done. Qed.

(** A pure continuation after a charged operation *)
Lemma with_charge_bind {A B} (m : ueff A) (k : A → uplc_result B) fired v t log :
  m (mkWorld (Some t) log) = with_charge m fired v t log →
  (m ≫= λ a, ulift (k a)) (mkWorld (Some t) log) = with_charge (m ≫= λ a, ulift (k a)) fired v t log.
Proof.
  unfold mbind, ueff_bind, with_charge, ulift. intros ->.
  destruct (match fired with Some _ => _ | None => _ end) as [[[]|e] t']; [|done].
  by destruct (m (free log)) as [[a|e] w].
Qed.

Lemma apply_tracker fn a k v t log :
  apply fn a k v (mkWorld (Some t) log) = with_charge (apply fn a k v) (fires fn a) v t log.
Proof.
  destruct fn as [c|body env|body env|id forces args|tag args]; try done.
  change (apply (VBuiltin id forces args) a k v)
    with (apply_builtin id forces args a v ≫= λ r, ulift (Ok (Return r k))).
  apply with_charge_bind, apply_builtin_tracker.
Qed.

Lemma force_value_tracker value k v t log :
  force_value value k v (mkWorld (Some t) log) =
    with_charge (force_value value k v) (fires_forced value) v t log.
Proof.
  destruct value as [c|body env|body env|id forces args|tag args]; try done.
  change (force_value (VBuiltin id forces args) k v) with
    (force_builtin id forces args v ≫= λ outcome,
       match outcome with
       | Pending r | FDone r => mret (Return r k)
       | Excess => ulift (Err (BuiltinTypeError id))
       end).
  pose proof (with_charge_bind (force_builtin id forces args v)
    (λ outcome, match outcome with
                | Pending r | FDone r => Ok (Return r k)
                | Excess => Err (BuiltinTypeError id)
                end) _ v t log (force_builtin_tracker id forces args v t log)) as H.
  unfold mbind, ueff_bind, with_charge in *.
  destruct (force_builtin id forces args v (mkWorld (Some t) log)) as [[[]|] w];
    destruct (match fires_forced _ with Some _ => _ | None => _ end) as [[[]|] t'];
    destruct (force_builtin id forces args v (free log)) as [[[]|] w']; exact H.
Qed.

Lemma step_tracker s v t log :
  step s v (mkWorld (Some t) log) = with_charge (step s v) (firing s) v t log.
Proof.
  destruct s as [term env k|value k|value]; [done| |done].
  destruct k as [|[] k]; try done; simpl.
  - apply apply_tracker.
  - apply force_value_tracker.
  - apply apply_tracker.
  - by destruct pending.
Qed.

(** An iteration charges, then takes the step of the machine without a budget. *)
Lemma iteration_tracker s v t log :
  iteration s v (mkWorld (Some t) log) =
    match tick s v t with
    | (Ok _, t') => let '(r, w) := step s v (free log) in (r, mkWorld (Some t') (w_trace_log w))
    | (Err e, t') => (Err e, mkWorld (Some t') log)
    end.
Proof.
  unfold iteration, tick, mbind, ueff_bind. destruct s as [term env k|value k|value].
  - unfold with_tracker. cbn. destruct (compute_step term t) as [[[]|e] t']; [|done].
    cbn. unfold ulift. done.
  - cbn [mret ueff_ret]. rewrite step_tracker. unfold with_charge. done.
  - done.
Qed.

(** Without a tracker the machine keeps none. *)
Lemma denote_free id args v log r w : denote id args v (free log) = (r, w) → w = free (w_trace_log w).
Proof.
  assert (∀ (m : uplc_result Value), ulift m (free log) = (r, w) → w = free (w_trace_log w)) as Hl.
  { unfold ulift. intros m [= <- <-]. done. }
  destruct id; try apply Hl. unfold denote, ulift, mbind, ueff_bind, arg, emit.
  destruct (args !! 0%nat) as [[[]| | | |]|], (args !! 1%nat); intros [= <- <-]; done.
Qed.

End accounting.

(** * Every evaluation with a budget ends

    The order on states of a run: the remaining CPU budget, then the room left in
    the slippage buffer, then the depth of the continuation. A [Compute] state is
    charged, which moves one of the first two; a [Return] state that is not charged
    pops a frame or enters a term. *)


Section termination.
Context {UC : UplcCrypto}.
Implicit Types (s : State) (t : BudgetTracker) (v : SemanticsVariant).

Definition ready t : Prop := tracker_ok t ∧ bt_pending_count t < SLIPPAGE.

(** What a charge does to the remaining budget and the buffer *)
Definition spent t t' : Prop := 0 ≤ cpu (bt_remaining t') < cpu (bt_remaining t).

Lemma flush_progress t t' :
  tracker_ok t → tracker_flush t = (Ok (), t') →
  ready t' ∧ (spent t t' ∨ bt_pending_count t = 0 ∧ t' = t).
Proof.
  intros Hok. destruct (flush_spec t Hok) as [[H0 ->]|[(H0 & Hf & ->)|(H0 & Hf & c & m & t1 & ->)]];
    intros [= <-].
  - split; [split; [done|unfold SLIPPAGE; lia]|by right].
  - split; [split; [by apply flushed_ok|unfold SLIPPAGE; cbn; lia]|left].
    destruct Hf. pose proof (to_cpu _ Hok). unfold spent. cbn. lia.
Qed.

Lemma tick_compute term env k v t t' :
  ready t → term ≠ TError → tick (Compute term env k) v t = (Ok (), t') →
  ready t' ∧
  (spent t t' ∨ bt_remaining t' = bt_remaining t ∧ bt_pending_count t' = bt_pending_count t + 1).
Proof.
  intros [Hok Hlt] Ht. simpl. destruct (compute_step_spec term t Hok Hlt Ht) as [Hok1 ->].
  case_decide as Hs.
  - intros [= <-]. split; [by split|]. by right.
  - intros Hf. destruct (flush_progress _ _ Hok1 Hf) as [Hr [Hsp|[H0 _]]].
    + split; [done|]. by left.
    + cbn in H0. pose proof (to_count _ Hok). lia.
Qed.

Lemma charge_progress cost t t' :
  ready t → nonneg cost → tracker_charge cost t = (Ok (), t') →
  ready t' ∧
  (spent t t' ∨
   cpu (bt_remaining t') = cpu (bt_remaining t) ∧ bt_pending_count t' = bt_pending_count t).
Proof.
  intros [Hok Hlt] Hn. unfold tracker_charge.
  destruct (tracker_flush t) as [[[]|e] t1] eqn:Hf; [|done].
  destruct (flush_progress t t1 Hok Hf) as [[Hok1 Hlt1] Hp].
  rewrite spend_spec; [|split; by apply Hok1|done]. case_decide as Hfit; [|done]. intros [= <-].
  destruct Hfit, Hn. split.
  - split; [|done]. destruct Hok1 as [? ? ? ? ? [? ?]]. split; try done. split; cbn in *; lia.
  - destruct Hp as [Hp|[_ ->]]; unfold spent in *; cbn; [left|]; lia.
Qed.

Lemma tick_return value k v t t' :
  ready t → tick (Return value k) v t = (Ok (), t') →
  ready t' ∧
  (spent t t' ∨
   cpu (bt_remaining t') = cpu (bt_remaining t) ∧ bt_pending_count t' = bt_pending_count t).
Proof.
  intros Hr. unfold tick. destruct (firing _) as [[id args]|].
  - apply charge_progress; [done|]. apply (ok_builtins (bt_costs t)), Hr.
  - intros [= <-]. split; [done|]. by right.
Qed.

(** ** The continuation *)

Definition weight s : nat :=
  match s with Return _ k => S (length k) | _ => 0 end.

Lemma apply_weight fn a k v w s' w' : apply fn a k v w = (Ok s', w') → (weight s' ≤ S (length k))%nat.
Proof.
  destruct fn; try done; simpl.
  - intros [= <- <-]. simpl. lia.
  - unfold mbind, ueff_bind. destruct (apply_builtin _ _ _ _ _ _) as [[]]; [|done].
    intros [= <- <-]. simpl. lia.
Qed.

Lemma force_weight value k v w s' w' :
  force_value value k v w = (Ok s', w') → (weight s' ≤ S (length k))%nat.
Proof.
  destruct value; try done; simpl.
  - intros [= <- <-]. simpl. lia.
  - unfold mbind, ueff_bind. destruct (force_builtin _ _ _ _ _) as [[[]|]]; try done;
      intros [= <- <-]; simpl; lia.
Qed.

Lemma return_weight value k v w s' w' :
  step (Return value k) v w = (Ok s', w') → (weight s' < weight (Return value k))%nat.
Proof.
  destruct k as [|[] k]; simpl.
  - intros [= <- <-]. simpl. lia.
  - intros H%apply_weight. lia.
  - intros [= <- <-]. simpl. lia.
  - intros H%force_weight. lia.
  - intros H%apply_weight. lia.
  - destruct pending; intros [= <- <-]; simpl; lia.
  - unfold ulift, case_dispatch. destruct (case_project _ _ _) as [[[tag payload] max]|]; [|done].
    simpl. destruct (match max with Some _ => _ | None => _ end); [done|].
    destruct (if _ : bool then _ else _) as [branch|]; [|done]. intros [= <- <-]. simpl. lia.
Qed.

(** ** The order *)

Definition lt3 (a b : nat * nat * nat) : Prop :=
  let '(a1, a2, a3) := a in
  let '(b1, b2, b3) := b in
  (a1 < b1 ∨ a1 = b1 ∧ (a2 < b2 ∨ a2 = b2 ∧ a3 < b3))%nat.

Lemma lt3_wf : well_founded lt3.
Proof.
  intros [[a b] c]. revert b c. induction a as [a IHa] using lt_wf_ind.
  intros b. induction b as [b IHb] using lt_wf_ind.
  intros c. induction c as [c IHc] using lt_wf_ind.
  constructor. intros [[a' b'] c'] [H|[-> [H|[-> H]]]]; eauto.
Qed.

Definition measure s t : nat * nat * nat :=
  (Z.to_nat (cpu (bt_remaining t)), Z.to_nat (SLIPPAGE - bt_pending_count t), weight s).

Lemma iteration_decreases s v t log s' w' :
  ready t → iteration s v (mkWorld (Some t) log) = (Ok s', w') →
  ∃ t', w_tracker w' = Some t' ∧ ready t' ∧ lt3 (measure s' t') (measure s t).
Proof.
  intros Hr. rewrite iteration_tracker.
  destruct (tick s v t) as [[[]|e] t'] eqn:Ht; [|done].
  destruct (step s v (free log)) as [r w] eqn:Hs. intros [= -> <-]. exists t'. split; [done|].
  pose proof Hr as [Hok Hlt]. pose proof (to_count _ Hok).
  destruct s as [term env k|value k|value]; [| |done].
  - assert (term ≠ TError) as Hne by (by intros ->).
    destruct (tick_compute _ _ _ _ _ _ Hr Hne Ht) as [Hr' [Hsp|[Hrem Hcount]]]; (split; [done|]).
    + unfold spent in Hsp. left. lia.
    + unfold lt3, measure. rewrite Hrem, Hcount. right. split; [done|]. left. lia.
  - apply return_weight in Hs.
    destruct (tick_return _ _ _ _ _ Hr Ht) as [Hr' [Hsp|[Hrem Hcount]]]; (split; [done|]).
    + unfold spent in Hsp. left. lia.
    + unfold lt3, measure. rewrite Hrem, Hcount. right. split; [done|]. by right.
Qed.

Lemma loop_terminates s v t log :
  ready t → ∃ fuel r, eval_loop fuel s v (mkWorld (Some t) log) = Some r.
Proof.
  remember (measure s t) as m eqn:Hm. revert s t log Hm.
  induction m as [m IH] using (well_founded_induction lt3_wf). intros s t log -> Hr.
  destruct (iteration s v (mkWorld (Some t) log)) as [r w] eqn:Hi.
  destruct r as [s'|e]; [|exists 1%nat; eexists; simpl; by rewrite Hi].
  assert ((∃ r, s' = Done r) ∨ ∀ r, s' ≠ Done r) as [[r ->]|Hd].
  { destruct s'; [by right|by right|left; by eexists]. }
  { exists 1%nat. simpl. rewrite Hi. destruct (with_tracker tracker_flush w) as [[] ?]; by eexists. }
  destruct (iteration_decreases _ _ _ _ _ _ Hr Hi) as (t' & Hw & Hr' & Hlt).
  destruct w as [tw lw]. simpl in Hw. subst tw.
  destruct (IH _ Hlt s' t' lw eq_refl Hr') as (fuel & r & Hl).
  exists (S fuel), r. simpl. rewrite Hi. destruct s'; try done. by edestruct Hd.
Qed.

End termination.

(** * The budget verdict depends on the total cost alone

    [metered] is the reference: it runs the machine without a tracker and adds up
    the cost of every iteration. The tracker buffers the charges of [SLIPPAGE]
    steps and charges builtins at once; the theorems say that it accepts exactly
    the runs whose total fits the budget and then reports that total. *)


Section meter.
Context {UC : UplcCrypto}.
Implicit Types (s : State) (t : BudgetTracker) (v : SemanticsVariant) (log : option (list (list Z))).

(** The cost of one iteration *)
Definition iteration_cost (costs : MachineCosts) (builtins : BuiltinCosts) s v : ExBudget :=
  match s with
  | Compute term _ _ => cost_for costs term
  | _ => match firing s with
         | Some (id, args) => builtins id args v
         | None => budget_zero
         end
  end.

Fixpoint metered (costs : MachineCosts) (builtins : BuiltinCosts) (fuel : nat) s v log :
    option (uplc_result Value * option (list (list Z)) * ExBudget) :=
  match fuel with
  | O => None
  | S fuel' =>
      let cost := iteration_cost costs builtins s v in
      match step s v (free log) with
      | (Err e, w) => Some (Err e, w_trace_log w, cost)
      | (Ok (Done value), w) => Some (Ok value, w_trace_log w, cost)
      | (Ok s', w) =>
          '(r, log', rest) ← metered costs builtins fuel' s' v (w_trace_log w);
          Some (r, log', budget_add cost rest)
      end
  end.

(** What is left when the buffered charges are counted *)
Definition account t : ExBudget := budget_sub (bt_remaining t) (bt_pending t).

(** The remaining budget was compared with a charge, or will be. *)
Definition settled t : Prop := 0 < bt_pending_count t ∨ nonneg (bt_remaining t).

Definition is_compute s : Prop := match s with Compute _ _ _ => True | _ => False end.

Definition same_terms t t' : Prop :=
  bt_costs t' = bt_costs t ∧ bt_builtin_costs t' = bt_builtin_costs t ∧ bt_starting t' = bt_starting t.

Lemma iteration_cost_nonneg costs builtins s v :
  costs_ok costs builtins → nonneg (iteration_cost costs builtins s v).
Proof.
  intros [_ Hs Hb]. assert (nonneg budget_zero) as Hz by (split; simpl; lia).
  unfold iteration_cost. destruct s as [term env k| |].
  - destruct term; try exact Hz.
    all: match goal with |- nonneg (cost_for _ ?x) => destruct (Hs x) as (? & ? & _); [done|split; lia] end.
  - destruct (firing _) as [[id args]|]; [apply Hb|done].
  - done.
Qed.

Lemma metered_nonneg costs builtins fuel s v log r log' c :
  costs_ok costs builtins → metered costs builtins fuel s v log = Some (r, log', c) → nonneg c.
Proof.
  intros Hok. revert s log r log' c. induction fuel as [|fuel IH]; [done|]. intros s log r log' c. simpl.
  pose proof (iteration_cost_nonneg costs builtins s v Hok) as Hc.
  assert (∀ s' log1, (x ← metered costs builtins fuel s' v log1; let '(r, log', rest) := x in
      Some (r, log', budget_add (iteration_cost costs builtins s v) rest)) = Some (r, log', c) → nonneg c) as Hrec.
  { intros s' log1. destruct (metered _ _ _ _ _ _) as [[[r1 l1] c1]|] eqn:Hm; [|done].
    intros [= <- <- <-]. destruct (IH _ _ _ _ _ Hm), Hc. split; simpl; lia. }
  destruct (step s v (free log)) as [[[]|e] w]; try (by intros [= <- <- <-]); apply Hrec.
Qed.

(** ** One iteration of the tracker *)

Lemma flush_error t e t' : tracker_flush t = (Err e, t') → ∃ c m, e = BudgetExhausted c m.
Proof.
  unfold tracker_flush, spend. destruct (_ && _); [done|]. destruct (bt_counting _); [done|].
  destruct (try_subtract _ _); [done|]. intros [= <- <-]. by eexists _, _.
Qed.

Lemma tick_error s v t e t' : tick s v t = (Err e, t') → ∃ c m, e = BudgetExhausted c m.
Proof.
  unfold tick. destruct s as [term env k|value k|value].
  - unfold compute_step. destruct (_ <=? _); [apply flush_error|done].
  - destruct (firing _) as [[id args]|]; [|done]. unfold tracker_charge.
    destruct (tracker_flush t) as [[[]|e1] t1] eqn:Hf.
    + unfold spend. destruct (bt_counting _); [done|]. destruct (try_subtract _ _); [done|].
      intros [= <- <-]. by eexists _, _.
    + intros [= <- <-]. by eapply flush_error.
  - done.
Qed.

Lemma flush_exact t :
  tracker_ok t → settled t →
  match tracker_flush t with
  | (Ok _, t') => ready t' ∧ account t' = account t ∧ bt_pending t' = budget_zero ∧
                  nonneg (bt_remaining t') ∧ same_terms t t'
  | (Err _, _) => ¬ nonneg (account t)
  end.
Proof.
  intros Hok Hset.
  destruct (flush_spec t Hok) as [[H0 ->]|[(H0 & Hf & ->)|(H0 & Hf & c & m & t1 & ->)]].
  - destruct Hset as [?|Hn]; [lia|]. pose proof (tracker_ok_empty t Hok H0).
    split; [split; [done|unfold SLIPPAGE; lia]|]. done.
  - pose proof Hf as [? ?]. split; [split; [by apply flushed_ok|unfold SLIPPAGE; cbn; lia]|].
    split; [apply budget_eq; cbn; lia|]. split; [done|]. split; [split; cbn; lia|done].
  - intros [H1 H2]. apply Hf. split; simpl in *; lia.
Qed.

Lemma tick_compute_exact term env k v t :
  ready t → term ≠ TError →
  match tick (Compute term env k) v t with
  | (Ok _, t') => ready t' ∧ settled t' ∧ same_terms t t' ∧
                  account t' = budget_sub (account t) (cost_for (bt_costs t) term)
  | (Err _, _) => ¬ nonneg (budget_sub (account t) (cost_for (bt_costs t) term))
  end.
Proof.
  intros [Hok Hlt] Ht. simpl. destruct (compute_step_spec term t Hok Hlt Ht) as [Hok1 ->].
  match type of Hok1 with tracker_ok ?x => set (t1 := x) in * end.
  assert (account t1 = budget_sub (account t) (cost_for (bt_costs t) term)) as <-.
  { apply budget_eq; cbn; lia. }
  assert (settled t1) as Hset1. { left. cbn. pose proof (to_count _ Hok). lia. }
  case_decide as Hs; [done|]. pose proof (flush_exact t1 Hok1 Hset1) as Hf.
  destruct (tracker_flush t1) as [[] t']; [|done].
  destruct Hf as (? & ? & ? & ? & ?). split; [done|]. split; [by right|]. done.
Qed.

Lemma charge_exact cost t :
  ready t → settled t → nonneg cost →
  match tracker_charge cost t with
  | (Ok _, t') => ready t' ∧ settled t' ∧ same_terms t t' ∧ account t' = budget_sub (account t) cost
  | (Err _, _) => ¬ nonneg (budget_sub (account t) cost)
  end.
Proof.
  intros [Hok Hlt] Hset Hn. unfold tracker_charge. pose proof (flush_exact t Hok Hset) as Hf.
  destruct (tracker_flush t) as [[[]|e] t1]; [|intros [H1 H2]; apply Hf; destruct Hn; split; cbn in *; lia].
  destruct Hf as ([Hok1 Hlt1] & Ha & Hp & Hr & Hst). pose proof Hok1 as [? ? ? ? ? Hrem].
  rewrite <-Ha. unfold account. rewrite Hp. rewrite spend_spec by done.
  case_decide as Hfit.
  - destruct Hfit, Hn, Hrem. cbn in *. rewrite Hp. split; [|split; [|split; [done|]]].
    + split; [|done]. split; try done. split; cbn in *; lia.
    + right. split; cbn; lia.
    + apply budget_eq; cbn; lia.
  - intros [H1 H2]. apply Hfit. split; cbn in *; lia.
Qed.

Lemma tick_exact s v t :
  ready t → is_compute s ∨ settled t → (∀ env k, s ≠ Compute TError env k) →
  let c := iteration_cost (bt_costs t) (bt_builtin_costs t) s v in
  match tick s v t with
  | (Ok _, t') => ready t' ∧ settled t' ∧ same_terms t t' ∧ account t' = budget_sub (account t) c
  | (Err _, _) => ¬ nonneg (budget_sub (account t) c)
  end.
Proof.
  intros Hr Hset Ht c. destruct s as [term env k|value k|value].
  - apply tick_compute_exact; [done|]. intros ->. by eapply Ht.
  - destruct Hset as [[]|Hset]. subst c. unfold tick, iteration_cost.
    destruct (firing (Return value k)) as [[id args]|].
    + apply charge_exact; [done..|]. apply (ok_builtins (bt_costs t)), Hr.
    + split; [done|]. split; [done|]. split; [done|]. apply budget_eq; cbn; lia.
  - destruct Hset as [[]|Hset]. split; [done|]. split; [done|]. split; [done|]. apply budget_eq; cbn; lia.
Qed.

(** ** The whole run *)

(** The outcome of a run with the tracker [t], given the metered one *)
Definition verdict t (r : uplc_result Value) log' (c : ExBudget)
    (outcome : option (uplc_result Value * World)) : Prop :=
  match r with
  | Ok value =>
      if decide (nonneg (budget_sub (account t) c)) then
        ∃ t', outcome = Some (Ok value, mkWorld (Some t') log') ∧ ready t' ∧ same_terms t t' ∧
              bt_pending t' = budget_zero ∧ bt_remaining t' = budget_sub (account t) c
      else ∃ cp mm w, outcome = Some (Err (BudgetExhausted cp mm), w)
  | Err e => ∃ e' w, outcome = Some (Err e', w) ∧ (e' = e ∨ ∃ cp mm, e' = BudgetExhausted cp mm)
  end.

#[local] Instance nonneg_dec b : Decision (nonneg b).
Proof. unfold nonneg. apply _. Defined.

(** A charge that fails settles the verdict. *)
Lemma verdict_exhausted t r log' c cp mm w :
  ¬ nonneg (budget_sub (account t) c) → verdict t r log' c (Some (Err (BudgetExhausted cp mm), w)).
Proof.
  intros Hn. destruct r; simpl.
  - rewrite decide_False by done. by eexists _, _, _.
  - eexists _, _. split; [done|]. right. by eexists _, _.
Qed.

Lemma verdict_step t t' r log' c1 c2 outcome :
  same_terms t t' → account t' = budget_sub (account t) c1 →
  verdict t' r log' c2 outcome → verdict t r log' (budget_add c1 c2) outcome.
Proof.
  intros (H1 & H2 & H3) Ha. unfold verdict. destruct r; [|done]. rewrite Ha.
  assert (budget_sub (budget_sub (account t) c1) c2 = budget_sub (account t) (budget_add c1 c2)) as ->
    by (apply budget_eq; cbn; lia).
  case_decide; [|done]. intros (t2 & -> & Hr & (G1 & G2 & G3) & Hp & Hrem).
  exists t2. split; [done|]. split; [done|]. split; [|done]. split; [congruence|]. split; congruence.
Qed.

Lemma sub_more a c1 c2 :
  nonneg c2 → ¬ nonneg (budget_sub a c1) → ¬ nonneg (budget_sub a (budget_add c1 c2)).
Proof. intros [] Hn [H1 H2]. apply Hn. split; cbn in *; lia. Qed.

(** One iteration: either it fails, and so does the run with the tracker, or the
    charge fails, or both go on. *)
Lemma metered_loop fuel s v t log r log' c :
  ready t → is_compute s ∨ settled t →
  metered (bt_costs t) (bt_builtin_costs t) fuel s v log = Some (r, log', c) →
  verdict t r log' c (eval_loop fuel s v (mkWorld (Some t) log)).
Proof.
  revert s t log c. induction fuel as [|fuel IH]; [done|]. intros s t log c Hr Hset. simpl.
  rewrite iteration_tracker.
  set (c1 := iteration_cost (bt_costs t) (bt_builtin_costs t) s v).
  destruct (step s v (free log)) as [rs w] eqn:Hs.
  destruct rs as [s'|e].
  2:{ intros [= <- <- <-]. simpl. destruct (tick s v t) as [[[]|e'] t'] eqn:Ht; eexists _, _; (split; [done|]).
      - by left.
      - right. by eapply tick_error. }
  assert (∀ env k, s ≠ Compute TError env k) as Hne by (intros env k ->; done).
  pose proof (tick_exact s v t Hr Hset Hne) as Htick. simpl in Htick. fold c1 in Htick.
  assert (Hex : ∀ e t' c', tick s v t = (Err e, t') → nonneg c' →
    verdict t r log' (budget_add c1 c') (Some (Err e, mkWorld (Some t') log))).
  { intros e t' c' Ht Hc'. rewrite Ht in Htick. destruct (tick_error _ _ _ _ _ Ht) as (cp & mm & ->).
    apply verdict_exhausted. by apply sub_more. }
  assert (Hgo : ∀ c', metered (bt_costs t) (bt_builtin_costs t) fuel s' v (w_trace_log w) = Some (r, log', c') →
    verdict t r log' (budget_add c1 c')
      (match tick s v t with
       | (Ok _, t') => eval_loop fuel s' v (mkWorld (Some t') (w_trace_log w))
       | (Err e, t') => Some (Err e, mkWorld (Some t') log)
       end)).
  { intros c' Hm. destruct (tick s v t) as [[[]|e] t'] eqn:Ht.
    - destruct Htick as (Hr' & Hset' & Hst & Ha). eapply verdict_step; [done..|].
      pose proof Hst as (E1 & E2 & _). apply IH; [done|by right|]. by rewrite E1, E2.
    - apply Hex; [done|]. eapply metered_nonneg; [|done]. apply Hr. }
  destruct s' as [term' env' k'|value' k'|value].
  1-2: destruct (metered _ _ _ _ _ _) as [[[r1 l1] c']|] eqn:Hm; [|done];
    intros [= <- <- <-]; specialize (Hgo c' eq_refl); by destruct (tick s v t) as [[[]|e] t'].
  intros [= <- <- <-]. replace c1 with (budget_add c1 budget_zero) by (apply budget_eq; cbn; lia).
  destruct (tick s v t) as [[[]|e] t'] eqn:Ht; [|apply Hex; [done|split; cbn; lia]].
  destruct Htick as ([Hok' Hlt'] & Hset' & Hst & Ha). eapply verdict_step; [done..|].
  pose proof (flush_exact t' Hok' Hset') as Hf. unfold with_tracker. simpl.
  destruct (tracker_flush t') as [[[]|e] t2] eqn:Hfl.
  - destruct Hf as (Hr2 & Ha2 & Hp2 & Hn2 & Hst2).
    assert (bt_remaining t2 = budget_sub (account t') budget_zero) as Hrem.
    { rewrite <-Ha2. apply budget_eq; unfold account; rewrite Hp2; cbn; lia. }
    rewrite decide_True by (by rewrite <-Hrem). by exists t2.
  - destruct (flush_error _ _ _ Hfl) as (cp & mm & ->).
    rewrite decide_False; [by eexists _, _, _|]. intros [H1 H2]. apply Hf. split; cbn in *; lia.
Qed.

(** A run that succeeds with a tracker is a run of the machine without one. *)
Lemma loop_metered fuel s v t log value w :
  eval_loop fuel s v (mkWorld (Some t) log) = Some (Ok value, w) →
  ∀ costs builtins, ∃ log' c, metered costs builtins fuel s v log = Some (Ok value, log', c).
Proof.
  intros H costs builtins. revert s t log H. induction fuel as [|fuel IH]; [done|]. intros s t log. simpl.
  rewrite iteration_tracker. destruct (tick s v t) as [[[]|e] t']; [|done].
  destruct (step s v (free log)) as [[s'|e] w1]; [|done].
  destruct s' as [term' env' k'|value' k'|value'].
  1-2: intros H; destruct (IH _ _ _ H) as (l & c & ->); by eexists _, _.
  destruct (with_tracker _ _) as [[] ?]; [|done]. intros [= <- _]. by eexists _, _.
Qed.

End meter.
