(* ===== verification/UplcSafety.v ===== *)
(** * No evaluation reaches an internal error

    [UplcError::Internal] marks states the code believes unreachable: a builtin
    without its arguments, a point that does not decode, a step of a finished
    machine. The invariant of the machine that excludes them: a partial builtin
    has fewer arguments than its arity, and every group element in sight decodes.
    The same invariant, with scopes, excludes unbound variables. *)

From S2P Require Import Prelude RecordUpdate Uplc UplcBls UplcBuiltins UplcMachine.
Local Open Scope Z_scope.

(** ** What [blst] promises *)

(** A decoded point lies on the curve, the operations stay on the curve, and the
    encoding of a point on the curve decodes. *)
Class BlstGroupLaws (P : Type) {G : BlstGroup P} := {
  on_curve : P → Prop;
  blst_default_on : on_curve blst_default;
  blst_uncompress_on bs p : blst_uncompress bs = Some p → on_curve p;
  blst_add_on p q : on_curve p → on_curve q → on_curve (blst_add_or_double p q);
  blst_cneg_on p : on_curve p → on_curve (blst_cneg p);
  blst_mult_on p s : on_curve p → on_curve (blst_mult p s);
  blst_hash_on msg dst : on_curve (blst_hash_to msg dst);
  blst_compress_decodes p : on_curve p → is_Some (blst_uncompress (blst_compress p));
}.

Class BlstLaws {B : Blst} := {
  blst_laws1 :: BlstGroupLaws blst_p1;
  blst_laws2 :: BlstGroupLaws blst_p2;
}.

(** ** The predicates *)

(** All the elements, as a fold so that it can be used in nested recursion. *)
Definition all {A} (P : A → Prop) (l : list A) : Prop := foldr (λ x acc, P x ∧ acc) True l.

Lemma all_Forall {A} (P : A → Prop) l : all P l ↔ Forall P l.
Proof.
  induction l as [|x l IH]; simpl; [by split; intros|]. rewrite Forall_cons. by rewrite <-IH.
Qed.

Section safety.
Context {UC : UplcCrypto} {BL : BlstLaws (B := uc_blst)}.

(** Group elements decode, in every constant that holds one. *)
Fixpoint const_ok (c : Constant) : Prop :=
  match c with
  | CG1 bs => is_Some (blst_uncompress (BlstGroup := blst_g1) bs)
  | CG2 bs => is_Some (blst_uncompress (BlstGroup := blst_g2) bs)
  | CList _ l | CArray _ l => all const_ok l
  | CPair _ _ a b => const_ok a ∧ const_ok b
  | _ => True
  end.

(** With [scoped], every variable is bound by one of the [n] enclosing binders. *)
Fixpoint term_ok (scoped : bool) (n : Z) (t : Term) : Prop :=
  match t with
  | TVar i => scoped = true → 1 ≤ i ≤ n
  | TLam body => term_ok scoped (n + 1) body
  | TApp fn a => term_ok scoped n fn ∧ term_ok scoped n a
  | TConst c => const_ok c
  | TDelay body | TForce body => term_ok scoped n body
  | TError | TBuiltin _ => True
  | TConstr _ args => all (term_ok scoped n) args
  | TCase s branches => term_ok scoped n s ∧ all (term_ok scoped n) branches
  end.

Context (scoped : bool).

Fixpoint value_ok (v : Value) : Prop :=
  match v with
  | VConst c => const_ok c
  | VLambda body env => term_ok scoped (env_depth env + 1) body ∧ all value_ok env
  | VDelay body env => term_ok scoped (env_depth env) body ∧ all value_ok env
  | VBuiltin id _ args => (length args < (arity_of id).2)%nat ∧ all value_ok args
  | VConstr _ args => all value_ok args
  end.

Definition frame_ok (f : Frame) : Prop :=
  match f with
  | FAwaitFunTerm a env => term_ok scoped (env_depth env) a ∧ all value_ok env
  | FAwaitArg fn env => value_ok fn
  | FForce => True
  | FApplyValue v => value_ok v
  | FConstr _ pending evaluated env =>
      all (term_ok scoped (env_depth env)) pending ∧ all value_ok evaluated ∧ all value_ok env
  | FCases branches env => all (term_ok scoped (env_depth env)) branches ∧ all value_ok env
  end.

Definition state_ok (s : State) : Prop :=
  match s with
  | Compute t env k => term_ok scoped (env_depth env) t ∧ all value_ok env ∧ all frame_ok k
  | Return v k => value_ok v ∧ all frame_ok k
  | Done v => value_ok v
  end.

(** The errors that are allowed, and computations that only give those. *)
Definition benign (e : UplcError) : Prop :=
  match e with
  | InternalError => False
  | MachineError OpenTerm => scoped = false
  | _ => True
  end.

Definition good {A} (Q : A → Prop) (r : uplc_result A) : Prop :=
  match r with Ok a => Q a | Err e => benign e end.

Lemma good_bind {A B} (Q : A → Prop) (R : B → Prop) (m : uplc_result A) (k : A → uplc_result B) :
  good Q m → (∀ a, Q a → good R (k a)) → good R (m ≫= k).
Proof. destruct m; simpl; [|done]. intros HQ Hk. by apply Hk. Qed.

(** Computations whose result carries no obligation *)
Definition calm {A} (r : uplc_result A) : Prop := good (λ _, True) r.

Lemma good_bind_true {A B} (R : B → Prop) (m : uplc_result A) (k : A → uplc_result B) :
  calm m → (∀ a, good R (k a)) → good R (m ≫= k).
Proof. intros Hm Hk. eapply good_bind; [done|]. intros a _. apply Hk. Qed.

Lemma calm_bind {A B} (m : uplc_result A) (k : A → uplc_result B) :
  calm m → (∀ a, calm (k a)) → calm (m ≫= k).
Proof. apply good_bind_true. Qed.

(** ** Arguments *)

Section arguments.
Context (id : BuiltinId) (args : list Value) (Hok : all value_ok args).

Lemma arg_good n : (n < length args)%nat → good value_ok (arg args n).
Proof.
  intros Hn. unfold arg. destruct (lookup_lt_is_Some_2 args n Hn) as [v Hv]. rewrite Hv. simpl.
  apply all_Forall in Hok. by eapply Forall_lookup_1.
Qed.

Lemma arg_calm {A} n (f : Value → uplc_result A) :
  (n < length args)%nat → (∀ v, calm (f v)) → calm (v ← arg args n; f v).
Proof. intros Hn Hf. eapply good_bind; [by apply arg_good|]. intros v _. apply Hf. Qed.

Lemma int_arg_calm n : (n < length args)%nat → calm (int_arg id args n).
Proof. intros. apply arg_calm; [done|]. by intros [[]| | | |]. Qed.
Lemma bytes_arg_calm n : (n < length args)%nat → calm (bytes_arg id args n).
Proof. intros. apply arg_calm; [done|]. by intros [[]| | | |]. Qed.
Lemma string_arg_calm n : (n < length args)%nat → calm (string_arg id args n).
Proof. intros. apply arg_calm; [done|]. by intros [[]| | | |]. Qed.
Lemma bool_arg_calm n : (n < length args)%nat → calm (bool_arg id args n).
Proof. intros. apply arg_calm; [done|]. by intros [[]| | | |]. Qed.
Lemma data_arg_calm n : (n < length args)%nat → calm (data_arg id args n).
Proof. intros. apply arg_calm; [done|]. by intros [[]| | | |]. Qed.
Lemma value_arg_calm n : (n < length args)%nat → calm (value_arg id args n).
Proof. intros. apply arg_calm; [done|]. by intros [[]| | | |]. Qed.

Lemma list_good v : value_ok v → good (λ p, all const_ok p.2) (unwrap_proto_list id v).
Proof. by destruct v as [[]| | | |]. Qed.
Lemma array_good v : value_ok v → good (λ p, all const_ok p.2) (unwrap_array id v).
Proof. by destruct v as [[]| | | |]. Qed.
Lemma pair_good v : value_ok v → good (λ p, const_ok p.1 ∧ const_ok p.2) (unwrap_proto_pair id v).
Proof. by destruct v as [[]| | | |]. Qed.
Lemma integer_calm v : calm (unwrap_integer id v).
Proof. by destruct v as [[]| | | |]. Qed.
Lemma list_arg_good n : (n < length args)%nat → good (λ p, all const_ok p.2) (list_arg id args n).
Proof. intros. eapply good_bind; [by apply arg_good|apply list_good]. Qed.

End arguments.

Lemma collect_calm {A B} (f : A → uplc_result B) l : (∀ a, calm (f a)) → calm (collect_results f l).
Proof.
  intros Hf. induction l as [|a l IH]; [done|]. simpl. apply calm_bind; [done|]. intros b.
  apply calm_bind; [done|]. done.
Qed.

(** ** Pure helpers of the denotations *)

Lemma Ok_calm {A} (a : A) : calm (Ok a).
Proof. done. Qed.
Lemma nonzero_calm id op a b : calm (nonzero id op a b).
Proof. unfold nonzero. by destruct (_ =? _). Qed.
Lemma bigint_to_u8_calm id i : calm (bigint_to_u8 id i).
Proof. unfold bigint_to_u8. by destruct (_ || _). Qed.
Lemma bigint_to_usize_calm id i : calm (bigint_to_usize_or_failure id i).
Proof. unfold bigint_to_usize_or_failure. by destruct (_ || _). Qed.
Lemma bigint_to_i64_calm id i : calm (bigint_to_i64_or_failure id i).
Proof. unfold bigint_to_i64_or_failure. by destruct (_ && _). Qed.
Lemma const_data_calm id c : calm (const_data id c).
Proof. by destruct c. Qed.
Lemma const_data_pair_calm id c : calm (const_data_pair id c).
Proof. destruct c as [| | | | | |? ? [] []| | | | | |]; done. Qed.
Lemma collect_data_calm id l : calm (collect_results (const_data id) l).
Proof. apply collect_calm, const_data_calm. Qed.
Lemma collect_pairs_calm id l : calm (collect_results (const_data_pair id) l).
Proof. apply collect_calm, const_data_pair_calm. Qed.

(** Constants that hold no group element *)
Lemma data_consts_ok (l : list Data) : all const_ok (CData <$> l).
Proof. induction l; by simpl. Qed.
Lemma data_pairs_ok (l : list (Data * Data)) :
  all const_ok (map (λ '(k, v), CPair TyData TyData (CData k) (CData v)) l).
Proof. induction l as [|[]]; by simpl. Qed.

Lemma all_drop {A} (Q : A → Prop) n l : all Q l → all Q (drop n l).
Proof. rewrite !all_Forall. apply Forall_drop. Qed.
Lemma all_lookup {A} (Q : A → Prop) (l : list A) n x : all Q l → l !! n = Some x → Q x.
Proof. rewrite all_Forall. intros. by eapply Forall_lookup_1. Qed.
Lemma all_app {A} (Q : A → Prop) l1 l2 : all Q (l1 ++ l2) ↔ all Q l1 ∧ all Q l2.
Proof. rewrite !all_Forall. apply Forall_app. Qed.

Lemma scale_inner_calm id f l : calm (scale_inner id f l).
Proof.
  induction l as [|[k a] l IH]; [done|]. simpl. destruct (to_i128 _); [|done].
  by apply calm_bind.
Qed.

Lemma scale_value_calm id f l : calm (scale_value id f l).
Proof.
  induction l as [|[k a] l IH]; [done|]. simpl. apply calm_bind; [apply scale_inner_calm|].
  intros inner. by apply calm_bind.
Qed.

Lemma un_value_inner_calm id prev l : calm (un_value_inner id prev l).
Proof.
  revert prev. induction l as [|[[] tv] l IH]; intros prev; try done. simpl.
  destruct (_ <? _)%nat; [done|]. destruct (negb _); [done|]. destruct tv; try done.
  destruct (to_i128 _); [|done]. destruct (_ =? 0); [done|]. apply calm_bind; [apply IH|done].
Qed.

Lemma un_value_outer_calm id prev l : calm (un_value_outer id prev l).
Proof.
  revert prev. induction l as [|[[] v] l IH]; intros prev; try done. simpl.
  destruct (_ <? _)%nat; [done|]. destruct (negb _); [done|]. destruct v as [|[|e es]| | |]; try done.
  apply calm_bind; [apply un_value_inner_calm|]. intros inner. apply calm_bind; [apply IH|done].
Qed.

Lemma union_inner_calm id b a : calm (union_inner id b a).
Proof.
  revert a. induction b as [|[k x] b IH]; intros a; [done|]. simpl. destruct (to_i128 _); [apply IH|done].
Qed.

Lemma union_loop_calm id b a : calm (union_loop id b a).
Proof.
  revert a. induction b as [|[k x] b IH]; intros a; [done|]. simpl.
  apply calm_bind; [apply union_inner_calm|]. intros inner. apply IH.
Qed.

Lemma write_bits_calm id value idxs out : calm (write_bits id value idxs out).
Proof.
  revert out. induction idxs as [|c idxs IH]; intros out; [done|]. destruct c; try done. simpl.
  apply calm_bind; [unfold bigint_to_usize_or_failure; by destruct (_ || _)|].
  intros idx. destruct (_ <=? _)%nat; [done|]. apply IH.
Qed.

Lemma collect_good {A} id t (f : Constant → option A) (Q : A → Prop) v :
  value_ok v → (∀ c a, const_ok c → f c = Some a → Q a) → good (all Q) (typed_list id t f v).
Proof.
  intros Hv Hf. destruct v as [[]| | | |]; try done. simpl. destruct (bool_decide _); [|done].
  simpl in Hv. induction elements as [|c l IH]; [done|]. destruct Hv as [Hc Hl]. simpl.
  destruct (f c) as [a|] eqn:Hfc; [|done]. simpl. eapply good_bind; [by apply IH|].
  intros as' Has. split; [by eapply Hf|done].
Qed.

(** ** Groups *)

Section groups.
Context {P : Type} {G : BlstGroup P} {L : BlstGroupLaws P}.
Context (con : list Z → Constant) (uncon : Constant → option (list Z)).
Context (Hcon : ∀ bs, is_Some (blst_uncompress bs) → const_ok (con bs)).
Context (Huncon : ∀ c bs, const_ok c → uncon c = Some bs → is_Some (blst_uncompress bs)).
Context (id : BuiltinId) (args : list Value) (Hok : all value_ok args).

Lemma to_value_ok p : on_curve p → const_ok (to_value con p).
Proof. intros Hp. by apply Hcon, blst_compress_decodes. Qed.

Lemma group_bytes_good n :
  (n < length args)%nat → good (λ bs, is_Some (blst_uncompress bs)) (unwrap_group_bytes uncon (args !! n) id).
Proof.
  intros Hn. destruct (lookup_lt_is_Some_2 args n Hn) as [v Hv]. rewrite Hv. simpl.
  apply all_Forall in Hok. pose proof (Forall_lookup_1 _ _ _ _ Hok Hv) as Hvok.
  destruct v as [c| | | |]; try done. destruct (uncon c) eqn:Hc; [|done]. simpl. by eapply Huncon.
Qed.

Lemma decompress_good bs :
  is_Some (blst_uncompress bs) → good on_curve (decompress_trusted_uncached bs).
Proof.
  intros [p Hp]. unfold decompress_trusted_uncached. rewrite Hp. simpl. by eapply blst_uncompress_on.
Qed.

Lemma take_one_good : (0 < length args)%nat → good on_curve (take_one uncon args id).
Proof. intros. eapply good_bind; [by apply group_bytes_good|apply decompress_good]. Qed.

Lemma take_two_good :
  (1 < length args)%nat → good (λ p, on_curve p.1 ∧ on_curve p.2) (take_two uncon args id).
Proof.
  intros. eapply good_bind; [apply group_bytes_good; lia|]. intros a Ha.
  eapply good_bind; [apply group_bytes_good; lia|]. intros b Hb.
  eapply good_bind; [by apply decompress_good|]. intros p Hp.
  eapply good_bind; [by apply decompress_good|]. done.
Qed.

Lemma group_binop_good op :
  (1 < length args)%nat → (∀ p q, on_curve p → on_curve q → on_curve (op p q)) →
  good const_ok (group_binop con uncon args id op).
Proof.
  intros Hl Hop. eapply good_bind; [by apply take_two_good|]. intros [p q] [Hp Hq].
  by apply to_value_ok, Hop.
Qed.

Lemma group_unop_good op :
  (0 < length args)%nat → (∀ p, on_curve p → on_curve (op p)) →
  good const_ok (group_unop con uncon args id op).
Proof.
  intros Hl Hop. eapply good_bind; [by apply take_one_good|]. intros p Hp. by apply to_value_ok, Hop.
Qed.

Lemma raw_arg_calm {A} (f : option Value → uplc_result A) n :
  (n < length args)%nat → (∀ v, calm (f (Some v))) → calm (f (args !! n)).
Proof. intros Hn Hf. by destruct (lookup_lt_is_Some_2 args n Hn) as [v ->]. Qed.

Lemma scalar_mul_good : (1 < length args)%nat → good const_ok (scalar_mul con uncon args id).
Proof.
  intros Hl. apply good_bind_true.
  { apply (raw_arg_calm (λ v, unwrap_integer_for_bls v id)); [lia|]. by intros [[]| | | |]. }
  intros s. eapply good_bind; [by apply group_bytes_good|]. intros bs Hbs.
  eapply good_bind; [by apply decompress_good|]. intros p Hp. by apply to_value_ok, blst_mult_on.
Qed.

Lemma group_eq_good : (1 < length args)%nat → good const_ok (group_eq uncon args id).
Proof. intros Hl. eapply good_bind; [by apply take_two_good|]. by intros [p q]. Qed.

Lemma hash_to_group_good : (1 < length args)%nat → good const_ok (hash_to_group con args id).
Proof.
  intros Hl. apply good_bind_true; [apply (raw_arg_calm (λ v, unwrap_bytes v id)); [lia|by intros [[]| | | |]]|].
  intros msg. apply good_bind_true; [apply (raw_arg_calm (λ v, unwrap_bytes v id)); [lia|by intros [[]| | | |]]|].
  intros dst. destruct (_ <? _)%nat; [done|]. apply to_value_ok, blst_hash_on.
Qed.

Lemma group_compress_good : (0 < length args)%nat → good const_ok (group_compress uncon args id).
Proof. intros Hl. eapply good_bind; [by apply take_one_good|]. done. Qed.

Lemma group_uncompress_good size :
  (0 < length args)%nat → good const_ok (group_uncompress size con args id).
Proof.
  intros Hl. apply good_bind_true; [apply (raw_arg_calm (λ v, unwrap_bytes v id)); [lia|by intros [[]| | | |]]|].
  intros bs. destruct (negb _) eqn:Hn; [done|]. unfold uncompress. rewrite Hn.
  destruct (blst_uncompress bs) as [p|] eqn:Hp; [|done]. destruct (blst_in_group p); [|done].
  simpl. apply Hcon. by rewrite Hp.
Qed.

Lemma msm_loop_good pairs acc :
  all (λ e, is_Some (blst_uncompress e.2)) pairs → on_curve acc → good on_curve (msm_loop id pairs acc).
Proof.
  revert acc. induction pairs as [|[s bs] pairs IH]; intros acc Hall Hacc; [done|].
  destruct Hall as [Hbs Hall]. cbn [msm_loop]. destruct (negb _); [done|].
  eapply good_bind; [by apply decompress_good|]. intros p Hp. apply IH; [done|].
  by apply blst_add_on, blst_mult_on.
Qed.

Lemma msm_good t sv pv :
  value_ok sv → value_ok pv → good const_ok (multi_scalar_mul t con uncon id sv pv).
Proof.
  intros Hs Hp. eapply good_bind; [by apply (collect_good id TyInteger const_integer (λ _, True))|].
  intros scalars _. eapply good_bind; [apply (collect_good id t uncon _ pv Hp Huncon)|]. intros points Hpts.
  eapply good_bind; [apply msm_loop_good; [|apply blst_default_on]|intros; by apply to_value_ok].
  apply all_Forall, Forall_forall. intros [s bs] Hin%list_elem_of_In%in_combine_r.
  apply all_Forall in Hpts. rewrite Forall_forall in Hpts. by apply Hpts, list_elem_of_In.
Qed.

End groups.

(** ** Denotations *)

Lemma g1_con bs : is_Some (blst_uncompress (BlstGroup := blst_g1) bs) → const_ok (CG1 bs).
Proof. done. Qed.
Lemma g1_uncon c bs : const_ok c → const_g1 c = Some bs → is_Some (blst_uncompress (BlstGroup := blst_g1) bs).
Proof. destruct c; try done. by intros Hc [= <-]. Qed.
Lemma g2_con bs : is_Some (blst_uncompress (BlstGroup := blst_g2) bs) → const_ok (CG2 bs).
Proof. done. Qed.
Lemma g2_uncon c bs : const_ok c → const_g2 c = Some bs → is_Some (blst_uncompress (BlstGroup := blst_g2) bs).
Proof. destruct c; try done. by intros Hc [= <-]. Qed.

Lemma miller_loop_good args id :
  all value_ok args → (1 < length args)%nat → good const_ok (miller_loop args id).
Proof.
  intros Hok Hl.
  eapply good_bind; [apply (group_bytes_good (G := blst_g1) _ g1_uncon id args Hok); lia|]. intros a Ha.
  eapply good_bind; [apply (group_bytes_good (G := blst_g2) _ g2_uncon id args Hok); lia|]. intros b Hb.
  eapply good_bind; [by apply decompress_good|]. intros p Hp.
  eapply good_bind; [by apply decompress_good|]. done.
Qed.

Lemma ml_calm args id n : (n < length args)%nat → calm (unwrap_ml_bytes (args !! n) id).
Proof. intros Hn. apply (raw_arg_calm args (λ v, unwrap_ml_bytes v id)); [done|]. by intros [[]| | | |]. Qed.

Definition is_bls (id : BuiltinId) : bool :=
  match id with
  | Bls12_381_G1_Add | Bls12_381_G1_Neg | Bls12_381_G1_ScalarMul | Bls12_381_G1_Equal
  | Bls12_381_G1_HashToGroup | Bls12_381_G1_Compress | Bls12_381_G1_Uncompress
  | Bls12_381_G2_Add | Bls12_381_G2_Neg | Bls12_381_G2_ScalarMul | Bls12_381_G2_Equal
  | Bls12_381_G2_HashToGroup | Bls12_381_G2_Compress | Bls12_381_G2_Uncompress
  | Bls12_381_MillerLoop | Bls12_381_MulMlResult | Bls12_381_FinalVerify => true
  | _ => false
  end.

Lemma denote_bls_good id args :
  is_bls id = true → all value_ok args → length args = (arity_of id).2 → good const_ok (denote_bls id args).
Proof.
  intros Hb Hok Hl. destruct id; try discriminate Hb; cbn [arity_of snd] in Hl; cbn [denote_bls].
  - apply group_binop_good; [apply g1_con|apply g1_uncon|done|lia|apply blst_add_on].
  - apply group_unop_good; [apply g1_con|apply g1_uncon|done|lia|apply blst_cneg_on].
  - apply scalar_mul_good; [apply g1_con|apply g1_uncon|done|lia].
  - apply group_eq_good; [apply g1_uncon|done|lia].
  - apply group_compress_good; [apply g1_uncon|done|lia].
  - apply group_uncompress_good; [apply g1_con|lia].
  - apply hash_to_group_good; [apply g1_con|lia].
  - apply group_binop_good; [apply g2_con|apply g2_uncon|done|lia|apply blst_add_on].
  - apply group_unop_good; [apply g2_con|apply g2_uncon|done|lia|apply blst_cneg_on].
  - apply scalar_mul_good; [apply g2_con|apply g2_uncon|done|lia].
  - apply group_eq_good; [apply g2_uncon|done|lia].
  - apply group_compress_good; [apply g2_uncon|done|lia].
  - apply group_uncompress_good; [apply g2_con|lia].
  - apply hash_to_group_good; [apply g2_con|lia].
  - apply miller_loop_good; [done|lia].
  - apply good_bind_true; [apply ml_calm; lia|]. intros a. apply good_bind_true; [apply ml_calm; lia|]. done.
  - apply good_bind_true; [apply ml_calm; lia|]. intros a. apply good_bind_true; [apply ml_calm; lia|]. done.
Qed.

Lemma denote_msm_good id args :
  id = Bls12_381_G1_MultiScalarMul ∨ id = Bls12_381_G2_MultiScalarMul →
  all value_ok args → length args = 2%nat → good const_ok (denote_multi_scalar_mul id args).
Proof.
  intros Hid Hok Hl. destruct args as [|s [|p [|]]]; try discriminate Hl. destruct Hok as (Hs & Hp & _).
  destruct Hid as [-> | ->]; cbn.
  - apply msm_good; [apply g1_con|apply g1_uncon|done|done].
  - apply msm_good; [apply g2_con|apply g2_uncon|done|done].
Qed.

End safety.

Create HintDb uplc.
#[export] Hint Resolve int_arg_calm bytes_arg_calm string_arg_calm bool_arg_calm data_arg_calm
  value_arg_calm integer_calm scale_value_calm un_value_outer_calm union_loop_calm write_bits_calm
  list_arg_good list_good array_good pair_good arg_good
  Ok_calm nonzero_calm bigint_to_u8_calm bigint_to_usize_calm bigint_to_i64_calm
  collect_data_calm collect_pairs_calm : uplc.
#[export] Hint Extern 1 (_ < _)%nat => lia : uplc.

(** One argument after the other, then the cases of what is computed from them. *)
Ltac good_step :=
  match goal with
  | |- good _ _ (_ ≫= _) =>
      first [ eapply good_bind; [solve [eauto with uplc]|intros ? ?]
            | apply good_bind_true; [solve [eauto with uplc]|intros ?] ]
  | |- good _ _ (let '(_, _) := ?p in _) => destruct p
  | |- good _ _ (match ?x with _ => _ end) => destruct x eqn:?
  | |- good _ _ (Ok (match ?x with _ => _ end)) => destruct x
  | H : ?l !! _ = Some ?c |- good _ _ (Ok (VConst ?c)) => exact (all_lookup _ _ _ _ ltac:(eassumption) H)
  | |- good _ _ (Ok _) =>
      first [ simpl in *; tauto | simpl; eauto using data_consts_ok, data_pairs_ok ]
  | |- good _ _ (Err _) => exact I
  | |- good _ _ (ret_int _) => exact I
  | |- good _ _ (ret_bool _) => exact I
  | |- good _ _ (ret_bytes _) => exact I
  | |- good _ _ (ret_data _) => exact I
  end.

Section denotations.
Context {UC : UplcCrypto} {BL : BlstLaws (B := uc_blst)} (scoped : bool).

Lemma denote_pure_good id args variant :
  id ≠ Trace → all (value_ok scoped) args → length args = (arity_of id).2 →
  good scoped (value_ok scoped) (denote_pure id args variant).
Proof.
  intros Hid Hok Hl. destruct id; try done; cbn [arity_of snd] in Hl;
    cbn [denote_pure denote_byte_string denote_list denote_data denote_bits denote_batch6].
  all: unfold int_binop, int_cmp, bytes_binop, hash_one, three_bytes, bitwise; repeat good_step.
  all: try (eapply good_bind; [by apply denote_bls_good|done]).
  all: try (eapply good_bind; [apply denote_msm_good; [tauto|done|done]|done]).
  all: unfold verify_ed25519, verify_ecdsa, verify_schnorr, integer_to_byte_string, exp_mod_integer,
    insert_coin, union_value, value_contains, un_value_data; repeat good_step.
  - destruct (cons_byte_string_strict _); repeat good_step.
  - destruct (_ <=? _); [done|]. by apply all_drop.
  - destruct (0 <=? _); [|done]. by eapply all_lookup.
Qed.

(** ** Transitions *)

(** A computation of the machine, whatever the tracker and the log *)
Definition goodw {A} (Q : A → Prop) (m : ueff A) : Prop := ∀ w, good scoped Q (m w).1.

Lemma goodw_bind {A B} (Q : A → Prop) (R : B → Prop) (m : ueff A) (k : A → ueff B) :
  goodw Q m → (∀ a, Q a → goodw R (k a)) → goodw R (m ≫= k).
Proof.
  intros Hm Hk w. specialize (Hm w). unfold mbind, ueff_bind. destruct (m w) as [[a|e] w']; [|done].
  by apply Hk.
Qed.

Lemma goodw_lift {A} (Q : A → Prop) (r : uplc_result A) : good scoped Q r → goodw Q (ulift r).
Proof. by intros H w. Qed.

Lemma goodw_tracker op : (∀ t, calm scoped (op t).1) → goodw (λ _, True) (with_tracker op).
Proof.
  intros H [[t|] log]; [|done]. unfold with_tracker. simpl. specialize (H t). by destruct (op t).
Qed.

Lemma spend_calm cost t : calm scoped (spend cost t).1.
Proof. unfold spend. destruct (bt_counting t); [done|]. by destruct (try_subtract _ _). Qed.
Lemma flush_calm t : calm scoped (tracker_flush t).1.
Proof. unfold tracker_flush. destruct (_ && _); [done|]. apply spend_calm. Qed.
Lemma charge_calm cost t : calm scoped (tracker_charge cost t).1.
Proof.
  unfold tracker_charge. pose proof (flush_calm t) as Hf. destruct (tracker_flush t) as [[] t']; [|done].
  apply spend_calm.
Qed.
Lemma compute_step_calm term t : calm scoped (compute_step term t).1.
Proof. unfold compute_step. destruct (_ <=? _); [apply flush_calm|done]. Qed.

Lemma denote_goodw id args variant :
  all (value_ok scoped) args → length args = (arity_of id).2 → goodw (value_ok scoped) (denote id args variant).
Proof.
  intros Hok Hl. destruct (decide (id = Trace)) as [->|Hne].
  - destruct args as [|m [|r [|]]]; try discriminate Hl. destruct Hok as (Hm & Hr & _).
    intros w. by destruct m as [[]| | | |].
  - assert (denote id args variant = ulift (denote_pure id args variant)) as -> by (by destruct id).
    by apply goodw_lift, denote_pure_good.
Qed.

Lemma arity_pos id : (0 < (arity_of id).2)%nat.
Proof. destruct id; simpl; lia. Qed.
Lemma arity_small id : ((arity_of id).2 < 256)%nat.
Proof. destruct id; simpl; lia. Qed.

Lemma apply_builtin_goodw id forces args a variant :
  value_ok scoped (VBuiltin id forces args) → value_ok scoped a →
  goodw (value_ok scoped) (apply_builtin id forces args a variant).
Proof.
  intros [Hlt Hargs] Ha. unfold apply_builtin. pose proof (arity_small id) as Hs.
  pose proof (denote_goodw id (args ++ [a]) variant) as Hd.
  assert (all (value_ok scoped) (args ++ [a])) as Hall by (rewrite all_app; by split).
  destruct (arity_of id) as [rf ra] eqn:Har. cbn [snd] in *. destruct (_ <? rf)%nat; [done|].
  rewrite length_app in *. cbn [length] in *. rewrite Nat.mod_small by lia.
  destruct (Nat.ltb_spec (length args + 1) ra) as [H1|H1].
  { intros w. split; [by rewrite Har, length_app|done]. }
  rewrite (proj2 (Nat.ltb_ge _ _)) by lia.
  eapply goodw_bind; [apply goodw_tracker; intros; apply charge_calm|]. intros _ _.
  apply Hd; [done|]. lia.
Qed.


Lemma force_builtin_goodw id forces args variant :
  value_ok scoped (VBuiltin id forces args) →
  goodw (λ o, match o with Pending v | FDone v => value_ok scoped v | Excess => True end)
    (force_builtin id forces args variant).
Proof.
  intros Hv. unfold force_builtin. pose proof (arity_pos id) as Hp.
  destruct (arity_of id) as [rf ra] eqn:Har. cbn [snd] in *.
  destruct (_ <? rf)%nat; [|done]. rewrite (proj2 (Nat.eqb_neq ra 0)) by lia. rewrite andb_false_r.
  intros w. exact Hv.
Qed.

Lemma apply_goodw fn a k variant :
  value_ok scoped fn → value_ok scoped a → all (frame_ok scoped) k →
  goodw (state_ok scoped) (apply fn a k variant).
Proof.
  intros Hfn Ha Hk. destruct fn; try done.
  - destruct Hfn as [Hb He]. intros w. simpl. unfold env_extend, env_depth in *. simpl.
    replace (Z.of_nat (S (length env))) with (Z.of_nat (length env) + 1) by lia. done.
  - eapply goodw_bind; [by apply apply_builtin_goodw|]. intros v Hv w. done.
Qed.

Lemma force_value_goodw v k variant :
  value_ok scoped v → all (frame_ok scoped) k → goodw (state_ok scoped) (force_value v k variant).
Proof.
  intros Hv Hk. destruct v; try done.
  - intros w. by destruct Hv.
  - eapply goodw_bind; [by apply force_builtin_goodw|]. by intros [] Ho w.
Qed.

Lemma compute_good term env k :
  state_ok scoped (Compute term env k) → good scoped (state_ok scoped) (compute term env k).
Proof.
  intros (Ht & He & Hk). destruct term as [i|body|fn a|c|body|body| |id|tag args|scr brs]; simpl in Ht; try done.
  - simpl. eapply (good_bind _ (value_ok scoped)); [|done]. unfold env_lookup.
    destruct (i =? 0) eqn:E0.
    { simpl. destruct scoped; [|done]. specialize (Ht eq_refl). lia. }
    destruct (env_depth env <? i) eqn:E1.
    { simpl. destruct scoped; [|done]. specialize (Ht eq_refl). lia. }
    destruct (env !! _) as [v|] eqn:Hl; [exact (all_lookup _ _ _ _ He Hl)|]. simpl. destruct scoped; [|done].
    specialize (Ht eq_refl). apply lookup_ge_None_1 in Hl. unfold env_depth in *. lia.
  - by destruct Ht.
  - simpl. pose proof (arity_pos id). destruct (arity_of id) as [rf ra] eqn:Har. cbn [snd] in *.
    rewrite (proj2 (Nat.eqb_neq ra 0)) by lia. rewrite andb_false_r. simpl. rewrite Har. done.
  - simpl. destruct args as [|t ts]; [done|]. by destruct Ht.
  - by destruct Ht.
Qed.

(** The fields of a scrutinee, and no more than the fields of the case *)
Lemma case_project_good v n variant :
  value_ok scoped v → good scoped (λ p, all (value_ok scoped) p.1.2) (case_project v n variant).
Proof.
  intros Hv. destruct v as [c| | | |]; try done. simpl. destruct (negb _); [done|].
  destruct c as [| | | |[]|t [|h l]|? ? a b| | | | | |]; simpl in *; try done; try tauto.
  destruct (_ && _); done.
Qed.

Lemma case_dispatch_good v branches env k variant :
  value_ok scoped v → all (term_ok scoped (env_depth env)) branches → all (value_ok scoped) env →
  all (frame_ok scoped) k → good scoped (state_ok scoped) (case_dispatch v branches env k variant).
Proof.
  intros Hv Hb He Hk. unfold case_dispatch.
  eapply good_bind; [by apply case_project_good|]. intros [[tag payload] max] Hp. cbn [fst snd] in Hp.
  destruct (match max with Some _ => _ | None => _ end); [done|].
  destruct (if _ : bool then _ else _) as [branch|] eqn:Hbr; [|done].
  destruct (_ <=? tag); [done|]. split; [by eapply all_lookup|]. split; [done|].
  rewrite all_app. split; [|done]. clear -Hp. induction payload as [|p ps IH]; [done|].
  destruct Hp. split; [done|]. by apply IH.
Qed.

Lemma step_goodw s variant :
  state_ok scoped s → (∀ v, s ≠ Done v) → goodw (state_ok scoped) (step s variant).
Proof.
  intros Hs Hd. destruct s as [term env k|v k|v]; [by apply goodw_lift, compute_good| |by edestruct Hd].
  destruct Hs as [Hv Hk]. destruct k as [|f k]; [by intros w|]. destruct Hk as [Hf Hk].
  destruct f as [fn env|arg env| |arg|tag pending evaluated env|branches env]; cbn [step return_compute] in *.
  - by apply apply_goodw.
  - intros w. destruct Hf. done.
  - by apply force_value_goodw.
  - by apply apply_goodw.
  - destruct Hf as (Hp & He & Henv). destruct pending as [|t ts]; intros w; simpl.
    + rewrite all_app. done.
    + destruct Hp. rewrite all_app. done.
  - apply goodw_lift. destruct Hf. by apply case_dispatch_good.
Qed.

Lemma iteration_goodw s variant :
  state_ok scoped s → (∀ v, s ≠ Done v) → goodw (state_ok scoped) (iteration s variant).
Proof.
  intros Hs Hd. eapply (goodw_bind (λ _, True)); [|intros _ _; by apply step_goodw].
  destruct s; [|done|done]. apply goodw_tracker. intros t. apply compute_step_calm.
Qed.

(** The result of a run is well formed, or its error is a benign one. *)
Lemma loop_good fuel s variant w r w' :
  state_ok scoped s → (∀ v, s ≠ Done v) → eval_loop fuel s variant w = Some (r, w') →
  good scoped (value_ok scoped) r.
Proof.
  revert s w. induction fuel as [|fuel IH]; [done|]. intros s w Hs Hd. simpl.
  pose proof (iteration_goodw s variant Hs Hd w) as Hi.
  destruct (iteration s variant w) as [[s'|e] w1]; [|by intros [= <- <-]]. cbn [fst good] in Hi.
  destruct s' as [term env k|v k|v]; [by apply IH|by apply IH|].
  pose proof (goodw_tracker tracker_flush flush_calm w1) as Hf.
  destruct (with_tracker tracker_flush w1) as [[[]|e] w2]; intros [= <- <-]; done.
Qed.

End denotations.
