(* ===== verification/UplcBigStep.v ===== *)
(** * The machine and the evaluation of terms

    A natural semantics of Untyped Plutus Core, in environments: what a term
    evaluates to, what applying a value and forcing a value give. It does not know
    frames or states. The CEK machine of [step.rs] computes exactly this relation:
    an evaluation is a run of the machine, in any continuation, and a run of the
    machine that ends with a value is an evaluation. *)

From S2P Require Import Prelude RecordUpdate Uplc UplcBls UplcBuiltins UplcMachine UplcBudget.
Local Open Scope Z_scope.

Section semantics.
Context {UC : UplcCrypto} (variant : SemanticsVariant).
Notation tlog := (option (list (list Z))).
Implicit Types (log : option (list (list Z))) (k : Kont).

(** [evals env t log x log']: in [env], [t] evaluates to [x], and its trace
    messages take [log] to [log']. *)
Inductive evals : Env → Term → tlog → Value → tlog → Prop :=
| ev_var env i log x : env_lookup env i = Ok x → evals env (TVar i) log x log
| ev_lam env body log : evals env (TLam body) log (VLambda body env) log
| ev_const env c log : evals env (TConst c) log (VConst c) log
| ev_delay env body log : evals env (TDelay body) log (VDelay body env) log
| ev_builtin env id log : evals env (TBuiltin id) log (VBuiltin id 0 []) log
| ev_app env fn a log0 f log1 x log2 y log3 :
    evals env fn log0 f log1 → evals env a log1 x log2 → applies f x log2 y log3 →
    evals env (TApp fn a) log0 y log3
| ev_force env body log0 d log1 y log2 :
    evals env body log0 d log1 → forces d log1 y log2 → evals env (TForce body) log0 y log2
| ev_constr env tag ts log0 xs log1 :
    evals_list env ts log0 xs log1 → evals env (TConstr tag ts) log0 (VConstr tag xs) log1
| ev_case env scrutinee branches log0 x log1 tag payload max branch f log2 y log3 :
    evals env scrutinee log0 x log1 →
    case_project x (length branches) variant = Ok (tag, payload, max) →
    (∀ m, max = Some m → (length branches ≤ m)%nat) →
    tag < Z.of_nat (length branches) → branches !! Z.to_nat tag = Some branch →
    evals env branch log1 f log2 → applies_all f payload log2 y log3 →
    evals env (TCase scrutinee branches) log0 y log3
with evals_list : Env → list Term → tlog → list Value → tlog → Prop :=
| evl_nil env log : evals_list env [] log [] log
| evl_cons env t ts log0 x log1 xs log2 :
    evals env t log0 x log1 → evals_list env ts log1 xs log2 →
    evals_list env (t :: ts) log0 (x :: xs) log2
with applies : Value → Value → tlog → Value → tlog → Prop :=
| app_lambda body env x log y log' :
    evals (x :: env) body log y log' → applies (VLambda body env) x log y log'
| app_builtin id forces args x log y log' :
    apply_builtin id forces args x variant (free log) = (Ok y, free log') →
    applies (VBuiltin id forces args) x log y log'
with applies_all : Value → list Value → tlog → Value → tlog → Prop :=
| appa_nil f log : applies_all f [] log f log
| appa_cons f x xs log0 g log1 y log2 :
    applies f x log0 g log1 → applies_all g xs log1 y log2 → applies_all f (x :: xs) log0 y log2
with forces : Value → tlog → Value → tlog → Prop :=
| force_delay body env log y log' : evals env body log y log' → forces (VDelay body env) log y log'
| force_pending id n args log y log' :
    force_builtin id n args variant (free log) = (Ok (Pending y), free log') →
    forces (VBuiltin id n args) log y log'
| force_done id n args log y log' :
    force_builtin id n args variant (free log) = (Ok (FDone y), free log') →
    forces (VBuiltin id n args) log y log'.

Scheme evals_mut := Induction for evals Sort Prop
with evals_list_mut := Induction for evals_list Sort Prop
with applies_mut := Induction for applies Sort Prop
with applies_all_mut := Induction for applies_all Sort Prop
with forces_mut := Induction for forces Sort Prop.
Combined Scheme evaluation_ind from evals_mut, evals_list_mut, applies_mut, applies_all_mut, forces_mut.

(** ** Runs of the machine without a tracker *)

Abbreviation run n s log := (eval_loop n s variant (free log)).
Abbreviation outcome := (option (uplc_result Value * World)).

Lemma iteration_free s log : iteration s variant (free log) = step s variant (free log).
Proof. by destruct s. Qed.

Lemma run_step n s log s' log' :
  step s variant (free log) = (Ok s', free log') → (∀ x, s' ≠ Done x) → run (S n) s log = run n s' log'.
Proof.
  intros Hs Hd. cbn [eval_loop]. rewrite iteration_free, Hs. destruct s'; [done|done|by edestruct Hd].
Qed.

(** From [s] the machine reaches [s'], whatever comes next. *)
Definition leads s log s' log' : Prop :=
  ∀ n (r : uplc_result Value * World), run n s' log' = Some r → ∃ m, run m s log = Some r.

Lemma leads_refl s log : leads s log s log.
Proof. intros n r H. by exists n. Qed.

Lemma leads_trans s1 l1 s2 l2 s3 l3 : leads s1 l1 s2 l2 → leads s2 l2 s3 l3 → leads s1 l1 s3 l3.
Proof. intros H1 H2 n r H. destruct (H2 n r H) as [m Hm]. by apply (H1 m). Qed.

Lemma leads_step s log s' log' :
  step s variant (free log) = (Ok s', free log') → (∀ x, s' ≠ Done x) → leads s log s' log'.
Proof. intros Hs Hd n r Hr. exists (S n). by rewrite (run_step _ _ _ _ _ Hs Hd). Qed.

Lemma leads_cons s log s1 log1 s' log' :
  step s variant (free log) = (Ok s1, free log1) → (∀ x, s1 ≠ Done x) →
  leads s1 log1 s' log' → leads s log s' log'.
Proof. intros Hs Hd. by apply leads_trans, leads_step. Qed.

(** ** Evaluations are runs *)

Definition apply_frames (payload : list Value) k : Kont := (FApplyValue <$> payload) ++ k.

Ltac advance := eapply leads_cons; [reflexivity|done|].

Lemma evaluation_runs :
  (∀ env t log x log', evals env t log x log' → ∀ k, leads (Compute t env k) log (Return x k) log') ∧
  (∀ env ts log xs log', evals_list env ts log xs log' → ∀ tag done t rest k,
     ts = t :: rest →
     leads (Compute t env (FConstr tag rest done env :: k)) log (Return (VConstr tag (done ++ xs)) k) log') ∧
  (∀ f x log y log', applies f x log y log' → ∀ env k,
     leads (Return x (FAwaitArg f env :: k)) log (Return y k) log' ∧
     leads (Return f (FApplyValue x :: k)) log (Return y k) log') ∧
  (∀ f xs log y log', applies_all f xs log y log' → ∀ k,
     leads (Return f (apply_frames xs k)) log (Return y k) log') ∧
  (∀ d log y log', forces d log y log' → ∀ k, leads (Return d (FForce :: k)) log (Return y k) log').
Proof.
  apply evaluation_ind.
  - intros env i log x Hx k. apply leads_step; [|done]. simpl. unfold ulift. by rewrite Hx.
  - intros env body log k. by apply leads_step.
  - intros env c log k. by apply leads_step.
  - intros env body log k. by apply leads_step.
  - intros env id log k. apply leads_step; [|done]. by destruct id.
  - intros env fn a log0 f log1 x log2 y log3 _ IHf _ IHa _ IHy k. advance.
    eapply leads_trans; [apply IHf|]. advance. eapply leads_trans; [apply IHa|]. by apply IHy.
  - intros env body log0 d log1 y log2 _ IHd _ IHy k. advance. eapply leads_trans; [apply IHd|]. apply IHy.
  - intros env tag ts log0 xs log1 Hl IHl k. destruct ts as [|t ts].
    + inversion Hl; subst. by apply leads_step.
    + advance. by apply (IHl tag [] t ts k).
  - intros env scr brs log0 x log1 tag payload max branch f log2 y log3 _ IHx Hp Hmax Htag Hbr _ IHf _ IHy k.
    advance. eapply leads_trans; [apply IHx|].
    eapply leads_cons with (s1 := Compute branch env (apply_frames payload k)); [|done|].
    { simpl. unfold ulift, case_dispatch. rewrite Hp. simpl.
      replace (match max with Some m => _ | None => false end) with false.
      2:{ destruct max as [m|]; [|done]. symmetry. apply Nat.ltb_ge. by apply Hmax. }
      rewrite (proj2 (Z.leb_gt _ _)) by done. by rewrite Hbr. }
    eapply leads_trans; [apply IHf|]. apply IHy.
  - done.
  - intros env t ts log0 x log1 xs log2 _ IHx Hl IHl tag done t' rest k [= <- <-].
    eapply leads_trans; [apply IHx|]. destruct ts as [|t2 ts].
    + inversion Hl; subst. by apply leads_step.
    + advance. pose proof (IHl tag (done ++ [x]) t2 ts k eq_refl) as H.
      by rewrite <-app_assoc in H.
  - intros body env x log y log' _ IH env' k.
    split; (eapply leads_cons; [reflexivity|done|apply IH]).
  - intros id n args x log y log' Hb env k. split; (apply leads_step; [|done]).
    all: simpl; unfold mbind, ueff_bind; by rewrite Hb.
  - intros f log k. apply leads_refl.
  - intros f x xs log0 g log1 y log2 _ IHx _ IHxs k. eapply leads_trans; [apply (IHx [])|]. apply IHxs.
  - intros body env log y log' _ IH k. advance. apply IH.
  - intros id n args log y log' Hf k. apply leads_step; [|done].
    simpl. unfold mbind, ueff_bind. by rewrite Hf.
  - intros id n args log y log' Hf k. apply leads_step; [|done].
    simpl. unfold mbind, ueff_bind. by rewrite Hf.
Qed.

(** ** Runs are evaluations *)

Lemma apply_builtin_free id n args x log r w :
  apply_builtin id n args x variant (free log) = (r, w) → w = free (w_trace_log w).
Proof.
  unfold apply_builtin. destruct (arity_of id) as [rf ra]. destruct (_ <? rf)%nat; [by intros [= _ <-]|].
  destruct (_ <? ra)%nat; [by intros [= _ <-]|]. destruct (ra <? _)%nat; [by intros [= _ <-]|].
  apply denote_free.
Qed.

Lemma force_builtin_free id n args log r w :
  force_builtin id n args variant (free log) = (r, w) → w = free (w_trace_log w).
Proof.
  unfold force_builtin. destruct (arity_of id) as [rf ra]. destruct (_ <? rf)%nat; [|by intros [= _ <-]].
  destruct (_ && _); [|by intros [= _ <-]]. unfold mbind, ueff_bind.
  change (charge_builtin id [] variant (free log)) with (Ok () : uplc_result (), free log). cbn beta iota.
  destruct (denote id [] variant (free log)) as [[v|e] w1] eqn:Hd; intros [= _ <-]; by eapply denote_free.
Qed.

Definition ok_run n s log (out : Value * World) : Prop := run n s log = Some (Ok out.1, out.2).

(** What is left of a run after the part that the big steps account for *)
Definition resumes n (Q : Value → tlog → Prop) k (out : Value * World) : Prop :=
  ∃ x log m, (m < n)%nat ∧ Q x log ∧ ok_run m (Return x k) log out.

Lemma compute_not_done t env k s : compute t env k = Ok s → ∀ x, s ≠ Done x.
Proof.
  intros H x ->. destruct t as [i| | | | | | |id|tag [|]|]; try discriminate H; simpl in H.
  - by destruct (env_lookup env i).
  - by destruct (arity_of id) as [[] []].
Qed.

Lemma run_compute n t env k log out :
  ok_run n (Compute t env k) log out →
  ∃ n' s, n = S n' ∧ compute t env k = Ok s ∧ ok_run n' s log out.
Proof.
  unfold ok_run. destruct n as [|n]; [done|]. cbn [eval_loop]. rewrite iteration_free. simpl. unfold ulift.
  destruct (compute t env k) as [s|e] eqn:Hc; [|done]. intros H. exists n, s. split; [done|]. split; [done|].
  pose proof (compute_not_done t env k s Hc) as Hd. destruct s; [done|done|by edestruct Hd].
Qed.

Lemma run_apply n f x k log out s :
  (∀ w, step s variant w = apply f x k variant w) → ok_run n s log out →
  ∃ n', n = S n' ∧
    ((∃ body env, f = VLambda body env ∧ ok_run n' (Compute body (x :: env) k) log out) ∨
     (∃ y log', applies f x log y log' ∧ ok_run n' (Return y k) log' out)).
Proof.
  unfold ok_run. intros Hs. destruct n as [|n]; [done|]. cbn [eval_loop]. rewrite iteration_free, Hs. intros H.
  exists n. split; [done|]. destruct f as [|body env| |id m args|]; try discriminate H.
  - left. by exists body, env.
  - right. simpl in H. unfold mbind, ueff_bind in H.
    destruct (apply_builtin id m args x variant (free log)) as [[y|e] w] eqn:Hb; [|done].
    pose proof (apply_builtin_free _ _ _ _ _ _ _ Hb) as Hw. destruct w as [tr l]. injection Hw as ->.
    exists y, l. split; [by constructor|done].
Qed.

Lemma run_force n d k log out :
  ok_run n (Return d (FForce :: k)) log out →
  ∃ n', n = S n' ∧
    ((∃ body env, d = VDelay body env ∧ ok_run n' (Compute body env k) log out) ∨
     (∃ y log', forces d log y log' ∧ ok_run n' (Return y k) log' out)).
Proof.
  unfold ok_run. destruct n as [|n]; [done|]. cbn [eval_loop]. rewrite iteration_free. intros H.
  exists n. split; [done|]. destruct d as [| |body env|id m args|]; try discriminate H.
  - left. by exists body, env.
  - right. simpl in H. unfold mbind, ueff_bind in H.
    destruct (force_builtin id m args variant (free log)) as [[o|e] w] eqn:Hb; [|done].
    pose proof (force_builtin_free _ _ _ _ _ _ Hb) as Hw. destruct w as [tr l]. injection Hw as ->.
    destruct o as [y|y|]; [| |done]; exists y, l; (split; [|done]).
    + by apply force_pending.
    + by apply force_done.
Qed.

Section completeness.
(** The claim for shorter runs *)
Context (n : nat).
Context (IH : ∀ n' t env k log out, (n' < n)%nat → ok_run n' (Compute t env k) log out →
  resumes n' (evals env t log) k out).

Lemma applies_complete n' f x k log out s :
  (n' < n)%nat → (∀ w, step s variant w = apply f x k variant w) → ok_run n' s log out →
  resumes n' (applies f x log) k out.
Proof.
  intros Hn Hs Hr. destruct (run_apply _ _ _ _ _ _ _ Hs Hr) as (m & -> & [(body & env & -> & Hb)|(y & l & Hy & Hb)]).
  - destruct (IH m _ _ _ _ _ ltac:(lia) Hb) as (y & l & m' & Hm & Hev & Hr').
    exists y, l, m'. split; [lia|]. split; [by constructor|done].
  - exists y, l, m. split; [lia|]. done.
Qed.

Lemma applies_all_complete xs n' f k log out :
  (n' < n)%nat → ok_run n' (Return f (apply_frames xs k)) log out →
  resumes (S n') (applies_all f xs log) k out.
Proof.
  revert n' f log. induction xs as [|x xs IHx]; intros n' f log Hn Hr.
  - exists f, log, n'. split; [lia|]. split; [constructor|done].
  - destruct (applies_complete n' f x (apply_frames xs k) log out (Return f (apply_frames (x :: xs) k)) Hn (λ w, eq_refl) Hr)
      as (g & l & m & Hm & Hg & Hr').
    destruct (IHx m g l ltac:(lia) Hr') as (y & l' & m' & Hm' & Hy & Hr'').
    exists y, l', m'. split; [lia|]. split; [by econstructor|done].
Qed.

Lemma list_complete ts n' env tag acc t k log out :
  (n' < n)%nat → ok_run n' (Compute t env (FConstr tag ts acc env :: k)) log out →
  ∃ xs, resumes n' (λ x log', x = VConstr tag (acc ++ xs) ∧ evals_list env (t :: ts) log xs log') k out.
Proof.
  revert n' acc t log. induction ts as [|t2 ts IHt]; intros n' acc t log Hn Hr.
  - destruct (IH n' _ _ _ _ _ Hn Hr) as (x & l & m & Hm & Hx & Hr'). exists [x].
    destruct m as [|m]; [done|]. exists (VConstr tag (acc ++ [x])), l, m. split; [lia|].
    split; [split; [done|]; econstructor; [done|constructor]|done].
  - destruct (IH n' _ _ _ _ _ Hn Hr) as (x & l & m & Hm & Hx & Hr'). destruct m as [|m]; [done|].
    change (ok_run m (Compute t2 env (FConstr tag ts (acc ++ [x]) env :: k)) l out) in Hr'.
    destruct (IHt m (acc ++ [x]) t2 l ltac:(lia) Hr') as (xs & y & l' & m' & Hm' & [-> Hxs] & Hr'').
    exists (x :: xs), (VConstr tag ((acc ++ [x]) ++ xs)), l', m'. split; [lia|].
    split; [split; [by rewrite <-app_assoc|by econstructor]|done].
Qed.

Lemma case_complete n' x branches env k log out :
  (n' < n)%nat → ok_run n' (Return x (FCases branches env :: k)) log out →
  resumes n' (λ y log', ∃ tag payload max branch f log1,
    case_project x (length branches) variant = Ok (tag, payload, max) ∧
    (∀ m, max = Some m → (length branches ≤ m)%nat) ∧ tag < Z.of_nat (length branches) ∧
    branches !! Z.to_nat tag = Some branch ∧ evals env branch log f log1 ∧
    applies_all f payload log1 y log') k out.
Proof.
  intros Hn Hr. destruct n' as [|n']; [done|]. unfold ok_run in Hr. cbn [eval_loop] in Hr.
  rewrite iteration_free in Hr. simpl in Hr. unfold ulift, case_dispatch in Hr.
  destruct (case_project x (length branches) variant) as [[[tag payload] max]|e]; [|done]. simpl in Hr.
  destruct (match max with Some _ => _ | None => _ end) eqn:Hmax; [done|].
  destruct (Z.leb_spec (Z.of_nat (length branches)) tag) as [Ht|Ht]; [done|].
  destruct (branches !! Z.to_nat tag) as [branch|] eqn:Hbr; [|done].
  change (ok_run n' (Compute branch env (apply_frames payload k)) log out) in Hr.
  destruct (IH n' _ _ _ _ _ ltac:(lia) Hr) as (f & l & m & Hm & Hf & Hr').
  destruct (applies_all_complete payload m f k l out ltac:(lia) Hr') as (y & l' & m' & Hm' & Hy & Hr'').
  exists y, l', m'. split; [lia|]. split; [|done]. exists tag, payload, max, branch, f, l.
  split; [done|]. split; [|done]. intros mx ->. by apply Nat.ltb_ge.
Qed.

Lemma compute_complete t env k log out :
  ok_run n (Compute t env k) log out → resumes n (evals env t log) k out.
Proof.
  intros Hr. destruct (run_compute _ _ _ _ _ _ Hr) as (n' & s & Hn & Hs & Hr'). clear Hr.
  assert (∀ x, s = Return x k → evals env t log x log → resumes n (evals env t log) k out) as Hret.
  { intros x -> Hx. exists x, log, n'. split; [lia|]. done. }
  destruct t as [i|body|fn a|c|body|body| |id|tag ts|scr brs]; simpl in Hs.
  - destruct (env_lookup env i) as [x|e] eqn:Hl; [|done]. injection Hs as <-. eapply Hret; [done|by constructor].
  - injection Hs as <-. eapply Hret; [done|constructor].
  - injection Hs as <-. destruct (IH n' _ _ _ _ _ ltac:(lia) Hr') as (f & l1 & m1 & Hm1 & Hf & Hr1).
    destruct m1 as [|m1]; [done|]. change (ok_run m1 (Compute a env (FAwaitArg f env :: k)) l1 out) in Hr1.
    destruct (IH m1 _ _ _ _ _ ltac:(lia) Hr1) as (x & l2 & m2 & Hm2 & Hx & Hr2).
    destruct (applies_complete m2 f x k l2 out (Return x (FAwaitArg f env :: k)) ltac:(lia) (λ w, eq_refl) Hr2) as (y & l3 & m3 & Hm3 & Hy & Hr3).
    exists y, l3, m3. split; [lia|]. split; [by econstructor|done].
  - injection Hs as <-. eapply Hret; [done|constructor].
  - injection Hs as <-. eapply Hret; [done|constructor].
  - injection Hs as <-. destruct (IH n' _ _ _ _ _ ltac:(lia) Hr') as (d & l1 & m1 & Hm1 & Hd & Hr1).
    destruct (run_force _ _ _ _ _ Hr1) as (m2 & -> & [(body' & env' & -> & Hb)|(y & l & Hy & Hb)]).
    + destruct (IH m2 _ _ _ _ _ ltac:(lia) Hb) as (y & l2 & m3 & Hm3 & Hy & Hr3).
      exists y, l2, m3. split; [lia|]. split; [|done]. econstructor; [done|by constructor].
    + exists y, l, m2. split; [lia|]. split; [by econstructor|done].
  - done.
  - destruct (arity_of id) as [rf ra]. destruct (_ && _); [done|]. injection Hs as <-.
    eapply Hret; [done|constructor].
  - destruct ts as [|t ts]; injection Hs as <-; [eapply Hret; [done|repeat constructor]|].
    destruct (list_complete ts n' env tag [] t k log out ltac:(lia) Hr') as (xs & y & l & m & Hm & [-> Hxs] & Hr1).
    exists (VConstr tag xs), l, m. split; [lia|]. split; [by constructor|done].
  - injection Hs as <-. destruct (IH n' _ _ _ _ _ ltac:(lia) Hr') as (x & l1 & m1 & Hm1 & Hx & Hr1).
    destruct (case_complete m1 x brs env k l1 out ltac:(lia) Hr1)
      as (y & l2 & m2 & Hm2 & (tag & payload & max & branch & f & l3 & ? & ? & ? & ? & ? & ?) & Hr2).
    exists y, l2, m2. split; [lia|]. split; [by econstructor|done].
Qed.

End completeness.

Lemma runs_evaluate n t env k log out :
  ok_run n (Compute t env k) log out → resumes n (evals env t log) k out.
Proof.
  revert t env k log out. induction n as [n IH] using lt_wf_ind. intros t env k log out.
  apply compute_complete. intros n' t' env' k' log' out' Hn. by apply IH.
Qed.

Lemma machine_evaluates t log x log' :
  (∃ fuel, run fuel (Compute t [] []) log = Some (Ok x, free log')) ↔ evals [] t log x log'.
Proof.
  split.
  - intros [n Hn]. destruct (runs_evaluate n t [] [] log (x, free log') Hn) as (y & l & m & _ & Hy & Hr).
    destruct m as [|m]; [done|]. unfold ok_run in Hr. simpl in Hr. by injection Hr as <- <-.
  - intros H. destruct evaluation_runs as [Hrun _]. apply (Hrun _ _ _ _ _ H [] 1%nat (Ok x, free log')). done.
Qed.

End semantics.
