(* ===== verification/UplcTheorems.v ===== *)
(** * The evaluator of Untyped Plutus Core: main theorems

    Properties of [evaluate_with_budget] from its initial state, with the tracker
    that [BudgetTracker::with_applied] builds, and of the builtins on values,
    integers and byte strings. The witnesses use a toy instance of the crypto
    libraries. *)

From S2P Require Import Prelude RecordUpdate Order Uplc UplcBls UplcBuiltins UplcValue UplcMachine UplcBudget UplcSafety UplcBigStep.
Local Open Scope Z_scope.

Section budget.
Context {UC : UplcCrypto}.

(** What the caller starts the machine with *)
Definition world_with (initial : ExBudget) (costs : MachineCosts) (builtins : BuiltinCosts)
    (log : option (list (list Z))) : World :=
  mkWorld (Some (tracker_with_applied initial costs builtins)) log.

Definition budget_in_range (b : ExBudget) : Prop := nonneg b ∧ fits b (mkBudget i64_max i64_max).

Lemma startup_account initial costs builtins :
  costs_ok costs builtins → budget_in_range initial →
  account (tracker_with_applied initial costs builtins) = budget_sub initial (mc_startup costs).
Proof.
  intros [[[? ?] [? ?]] _ _] [[? ?] [? ?]]. simpl in *.
  apply budget_eq; cbn; rewrite sat64_id; unfold i64_min, i64_max in *; lia.
Qed.

Lemma tracker_start_ready initial costs builtins :
  costs_ok costs builtins → budget_in_range initial → ready (tracker_with_applied initial costs builtins).
Proof.
  intros Hc [[? ?] [? ?]]. pose proof Hc as [[[? ?] [? ?]] _ _]. simpl in *. split; [|cbn; unfold SLIPPAGE; lia].
  split; try done; cbn; unfold SLIPPAGE, i64_max in *; try lia.
  split; cbn; unfold sat64, i64_min, i64_max; lia.
Qed.

Lemma verdict_ok initial costs builtins value log' c outcome :
  costs_ok costs builtins → budget_in_range initial → nonneg c →
  verdict (tracker_with_applied initial costs builtins) (Ok value) log' c outcome →
  nonneg (budget_sub (budget_sub initial (mc_startup costs)) c) →
  ∃ t', outcome = Some (Ok value, mkWorld (Some t') log') ∧
        tracker_consumed t' = budget_add (mc_startup costs) c.
Proof.
  intros Hc Hb [? ?] Hv Hn. unfold verdict in Hv. rewrite startup_account, decide_True in Hv by done.
  destruct Hv as (t' & Ho & [Hr _] & (_ & _ & Hst) & Hp & Hrem). exists t'. split; [done|].
  unfold tracker_consumed. rewrite (to_restricting _ Hr), Hst, Hp, Hrem. cbn.
  pose proof Hc as [[[? ?] [? ?]] _ _]. destruct Hb as [[? ?] [? ?]], Hn. cbn in *.
  apply budget_eq; cbn; rewrite sat64_id; unfold i64_min, i64_max in *; lia.
Qed.

Lemma fits_account initial startup c :
  nonneg (budget_sub (budget_sub initial startup) c) ↔ fits (budget_add startup c) initial.
Proof. unfold nonneg, fits. cbn. lia. Qed.

(** C13: Evaluation with a budget ends for every term, closed or not: some number of
    iterations is enough for a result, because every step of the machine costs at
    least one unit of CPU. *)
Theorem uplc_terminates initial costs builtins term variant log :
  costs_ok costs builtins → budget_in_range initial →
  ∃ fuel r, evaluate_with_budget fuel term variant (world_with initial costs builtins log) = Some r.
Proof. intros Hc Hb. by apply loop_terminates, tracker_start_ready. Qed.

(** C10: The tracker's buffer of 200 steps does not change the verdict: evaluation
    succeeds with a value exactly when the machine without a budget reaches that
    value, with the same trace log, and the sum of the startup cost and of the cost
    of every step and builtin fits the budget; and the tracker then reports exactly
    that sum as consumed. *)
Theorem budget_exact initial costs builtins fuel term variant log value log' total :
  costs_ok costs builtins → budget_in_range initial →
  (∃ t', evaluate_with_budget fuel term variant (world_with initial costs builtins log) =
           Some (Ok value, mkWorld (Some t') log') ∧ tracker_consumed t' = total) ↔
  (∃ c, metered costs builtins fuel (Compute term [] []) variant log = Some (Ok value, log', c) ∧
        total = budget_add (mc_startup costs) c ∧ fits total initial).
Proof.
  intros Hc Hb. pose proof (tracker_start_ready initial costs builtins Hc Hb) as Hr.
  assert (∀ r log1 c, metered costs builtins fuel (Compute term [] []) variant log = Some (r, log1, c) →
    verdict (tracker_with_applied initial costs builtins) r log1 c
      (evaluate_with_budget fuel term variant (world_with initial costs builtins log))) as Hloop.
  { intros r log1 c Hm. apply metered_loop; [done|by left|done]. }
  split.
  - intros (t' & Ht & Hcons). destruct (loop_metered _ _ _ _ _ _ _ Ht costs builtins) as (log1 & c & Hm).
    specialize (Hloop _ _ _ Hm) as Hv. pose proof (metered_nonneg _ _ _ _ _ _ _ _ _ Hc Hm) as Hnn.
    destruct (decide (nonneg (budget_sub (budget_sub initial (mc_startup costs)) c))) as [Hn|Hn].
    + destruct (verdict_ok _ _ _ _ _ _ _ Hc Hb Hnn Hv Hn) as (t1 & Ho & Hcons1).
      rewrite Ho in Ht. injection Ht as -> ->. exists c. rewrite Hcons1 in Hcons. subst.
      split; [done|]. split; [done|by apply fits_account].
    + unfold verdict in Hv. rewrite startup_account, decide_False in Hv by done.
      destruct Hv as (? & ? & ? & Hv). by rewrite Ht in Hv.
  - intros (c & Hm & -> & Hf). apply fits_account in Hf.
    pose proof (metered_nonneg _ _ _ _ _ _ _ _ _ Hc Hm) as Hnn.
    destruct (verdict_ok _ _ _ _ _ _ _ Hc Hb Hnn (Hloop _ _ _ Hm) Hf) as (t1 & Ho & Hcons). by exists t1.
Qed.

End budget.

(** ** Safety *)

Section soundness.
Context {UC : UplcCrypto}.

(** C12: Evaluation never reports an internal error, for any term, scoped or not, whose
    group elements decode: builtins fire with exactly their arguments, and every
    group element a builtin makes decodes again. When every variable of the term is
    bound it also never reports an open term, and a value it returns satisfies the
    same invariant. *)
Theorem uplc_never_internal {BL : BlstLaws (B := uc_blst)} scoped fuel term variant w r w' :
  term_ok scoped 0 term → evaluate_with_budget fuel term variant w = Some (r, w') →
  match r with
  | Ok value => value_ok scoped value
  | Err e => e ≠ InternalError ∧ (scoped = true → e ≠ MachineError OpenTerm)
  end.
Proof.
  intros Ht Hr. pose proof (loop_good scoped fuel (Compute term [] []) variant w r w') as H.
  destruct r as [value|e]; (assert (Hg := H (conj Ht (conj I I)) (λ x (Hx : _ = Done x), ltac:(discriminate Hx)) Hr)).
  - done.
  - simpl in Hg. split; [by intros ->|]. intros -> ->. done.
Qed.

(** The terms that [scope_check.rs] looks into: no [Constr] and no [Case], indices
    that are not negative and group elements that decode. *)
Fixpoint plain (t : Term) : Prop :=
  match t with
  | TVar i => 0 ≤ i
  | TLam body | TDelay body | TForce body => plain body
  | TApp fn a => plain fn ∧ plain a
  | TConst c => const_ok c
  | TConstr _ _ | TCase _ _ => False
  | _ => True
  end.

Lemma check_scope_closed t n : plain t → (check_scope_at t n = Ok () ↔ term_ok true n t).
Proof.
  revert n. induction t as [i|body IH|fn IHf a IHa|c|body IH|body IH| |id|tag args|scr IH branches];
    intros n Hp; simpl in *; try done; [|by apply IH| |by apply IH|by apply IH].
  - destruct (Z.eqb_spec i 0) as [->|Hi]; simpl; [split; [done|intros H; specialize (H eq_refl); lia]|].
    destruct (Z.ltb_spec n i) as [Hn|Hn]; simpl; [split; [done|intros H; specialize (H eq_refl); lia]|].
    split; [|done]. lia.
  - destruct Hp as [Hf Ha]. rewrite <-IHf, <-IHa by done.
    destruct (check_scope_at fn n) as [[]|e]; simpl; [|naive_solver]. tauto.
Qed.

(** A free variable that the spine of variables, abstractions, applications,
    forces and delays leads to; nothing under [Constr] and [Case]. *)
Inductive spine_free : Z → Term → Z → Prop :=
| sf_var lvl i : i = 0 ∨ lvl < i → spine_free lvl (TVar i) i
| sf_lam lvl body i : spine_free (lvl + 1) body i → spine_free lvl (TLam body) i
| sf_fun lvl fn a i : spine_free lvl fn i → spine_free lvl (TApp fn a) i
| sf_arg lvl fn a i : spine_free lvl a i → spine_free lvl (TApp fn a) i
| sf_delay lvl body i : spine_free lvl body i → spine_free lvl (TDelay body) i
| sf_force lvl body i : spine_free lvl body i → spine_free lvl (TForce body) i.

Lemma check_scope_spine t lvl :
  match check_scope_at t lvl with
  | Ok _ => ∀ i, ¬ spine_free lvl t i
  | Err e => ∃ i, e = FreeVariable i ∧ spine_free lvl t i
  end.
Proof.
  revert lvl. induction t as [i|body IH|fn IHf a IHa|c|body IH|body IH| |id|tag args|scr IH branches]; intros lvl; simpl;
    try (by intros i Hi; inversion Hi).
  - destruct (Z.eqb_spec i 0) as [->|Hi]; simpl; [exists 0; split; [done|by apply sf_var; left]|].
    destruct (Z.ltb_spec lvl i) as [Hl|Hl]; [exists i; split; [done|by apply sf_var; right]|].
    intros j Hj. inversion Hj as [? ? [H0|H0] | | | | |]; subst; [done|lia].
  - specialize (IH (lvl + 1)). destruct (check_scope_at body (lvl + 1)) as [[]|e].
    + intros i Hi. inversion Hi; subst. by eapply IH.
    + destruct IH as (i & -> & Hi). exists i. split; [done|by apply sf_lam].
  - specialize (IHf lvl). specialize (IHa lvl). destruct (check_scope_at fn lvl) as [[]|e]; simpl.
    + destruct (check_scope_at a lvl) as [[]|e].
      * intros i Hi. inversion Hi; subst; [by eapply IHf|by eapply IHa].
      * destruct IHa as (i & -> & Hi). exists i. split; [done|by apply sf_arg].
    + destruct IHf as (i & -> & Hi). exists i. split; [done|by apply sf_fun].
  - specialize (IH lvl). destruct (check_scope_at body lvl) as [[]|e].
    + intros i Hi. inversion Hi; subst. by eapply IH.
    + destruct IH as (i & -> & Hi). exists i. split; [done|by constructor].
  - specialize (IH lvl). destruct (check_scope_at body lvl) as [[]|e].
    + intros i Hi. inversion Hi; subst. by eapply IH.
    + destruct IH as (i & -> & Hi). exists i. split; [done|by constructor].
Qed.

(** C40: The scope check rejects exactly the terms with a free variable on the spine of
    abstractions, applications, forces and delays, and names one. It never
    looks under [Constr] or [Case], whatever is there, so that an accepted term
    of either kind can still fail with an open term in the machine. On terms
    without [Constr] and [Case] it accepts exactly the closed ones, and those
    never do. *)
Theorem scope_check_exact {BL : BlstLaws (B := uc_blst)} t :
  (check_scope t = Ok () ↔ ∀ i, ¬ spine_free 0 t i) ∧
  (∀ e, check_scope t = Err e → ∃ i, e = FreeVariable i ∧ spine_free 0 t i) ∧
  (∀ tag args scr branches, check_scope (TConstr tag args) = Ok () ∧ check_scope (TCase scr branches) = Ok ()) ∧
  (∀ t', t' = TConstr 0 [TVar 1] ∨ t' = TCase (TVar 1) [] →
     evaluate_with_budget 9 t' LATEST (free None) = Some (Err (MachineError OpenTerm), free None)) ∧
  (plain t → (check_scope t = Ok () ↔ term_ok true 0 t) ∧
     ∀ fuel variant w e w', check_scope t = Ok () →
       evaluate_with_budget fuel t variant w = Some (Err e, w') → e ≠ MachineError OpenTerm).
Proof.
  pose proof (check_scope_spine t 0) as Hs. fold (check_scope t) in Hs. split_and!.
  - destruct (check_scope t) as [[]|e]; [done|]. destruct Hs as (i & -> & Hi). split; [done|]. intros Hn. by destruct (Hn i).
  - intros e He. by rewrite He in Hs.
  - done.
  - by intros t' [->| ->].
  - intros Hp. pose proof (check_scope_closed t 0 Hp) as Hc.
    split; [done|]. intros fuel variant w e w' Hok Hr. apply Hc in Hok.
    pose proof (loop_good true fuel (Compute t [] []) variant w (Err e) w') as H.
    intros ->. discriminate (H (conj Hok (conj I I)) (λ x (Hx : _ = Done x), ltac:(discriminate Hx)) Hr).
Qed.

(** C11: The machine computes the natural semantics: some number of steps takes it from
    the term to the value, with the same trace messages, exactly when the term
    evaluates to that value. *)
Theorem cek_refines_big_step variant term log value log' :
  (∃ fuel, evaluate_with_budget fuel term variant (free log) = Some (Ok value, free log')) ↔
  evals variant [] term log value log'.
Proof. apply machine_evaluates. Qed.

End soundness.

(** ** Builtins *)

(** Ledger values: [UnionValue] of canonical values is canonical and adds the
    amount of every token, and fails only when an amount leaves 128 bits; it is
    commutative, because a canonical value is determined by its amounts. *)
Theorem union_value_adds id a b :
  canonical a → canonical b →
  match union_value id a b with
  | Ok r => ∃ c, r = VConst (CValue c) ∧ canonical c ∧
              (∀ p t, lookup_coin p t c = lookup_coin p t a + lookup_coin p t b) ∧
              union_value id b a = Ok r
  | Err e => e = BuiltinFailure id ∧ ∃ p t, ¬ in_i128 (lookup_coin p t a + lookup_coin p t b)
  end.
Proof.
  intros Ha Hb. pose proof (union_value_spec id a b Ha Hb) as H1.
  pose proof (union_value_spec id b a Hb Ha) as H2.
  destruct (union_value id a b) as [r|e] eqn:Hu; [|done]. destruct H1 as (c & -> & Hc & Hl).
  exists c. split; [done|]. split; [done|]. split; [done|].
  destruct (union_value id b a) as [r|e].
  - destruct H2 as (c' & -> & Hc' & Hl'). do 3 f_equal. apply canonical_ext; [done..|].
    intros p t. rewrite Hl, Hl'. lia.
  - destruct H2 as (_ & p & t & Hn). destruct Hn. rewrite Z.add_comm, <-Hl.
    rewrite lookup_coin_amt. unfold amt. destruct (assoc p c) as [inner|] eqn:E1; simpl.
    + destruct (canonical_assoc _ _ _ Hc E1) as ([_ Hf] & _).
      destruct (assoc t inner) as [x|] eqn:E2; simpl; [|unfold in_i128, i128_min, i128_max; lia].
      apply assoc_elem in E2. rewrite Forall_forall in Hf. by apply (Hf (t, x)).
    + unfold in_i128, i128_min, i128_max. lia.
Qed.

(** [InsertCoin] sets one amount, removing it when it is zero, and [ScaleValue]
    multiplies every amount; both keep the canonical form. *)
Theorem coin_updates_canonical id p t x f v :
  canonical v → in_i128 x → (length p ≤ MAX_KEY)%nat → (length t ≤ MAX_KEY)%nat →
  (∃ c, insert_coin id p t x v = Ok (VConst (CValue c)) ∧ canonical c ∧
     ∀ p' t', lookup_coin p' t' c = if decide (p' = p ∧ t' = t) then x else lookup_coin p' t' v) ∧
  match scale_value id f v with
  | Ok c => canonical c ∧ ∀ p' t', lookup_coin p' t' c = lookup_coin p' t' v * f
  | Err e => e = BuiltinFailure id ∧ ∃ p' t', ¬ in_i128 (lookup_coin p' t' v * f)
  end.
Proof.
  intros Hv Hx Hp Ht. split; [by apply insert_coin_spec|].
  pose proof (scale_value_spec id f v (proj1 Hv)) as Hs. destruct (scale_value id f v); [|done].
  by destruct Hs as (? & ? & _).
Qed.

(** [UnValueData] reads back what [ValueData] wrote, for every canonical value. *)
Theorem value_data_roundtrip id v :
  canonical v → un_value_data id (value_data v) = Ok (VConst (CValue v)).
Proof. intros Hv. unfold un_value_data, value_data. by rewrite (un_value_outer_data id None v Hv). Qed.

(** [ExpModInteger] within its bounds: the residue of the power, or of the power of
    the inverse for a negative exponent; it fails only for a negative exponent of a
    base that has no inverse. *)
Theorem exp_mod_correct id base e m :
  0 < m < EXP_MOD_BOUND → - EXP_MOD_BOUND ≤ base < EXP_MOD_BOUND → - EXP_MOD_BOUND ≤ e < EXP_MOD_BOUND →
  match exp_mod_integer id base e m with
  | Ok r => ∃ n, r = VConst (CInteger n) ∧ 0 ≤ n < m ∧
             (0 ≤ e → n = base ^ e mod m) ∧ (e < 0 → (n * base ^ (- e)) mod m = 1 mod m)
  | Err err => err = BuiltinFailure id ∧ e < 0 ∧ Z.gcd base m ≠ 1
  end.
Proof. apply exp_mod_spec. Qed.

(** [IntegerToByteString] then [ByteStringToInteger] is the identity in either byte
    order; the string has the requested width, and the encoding fails only when the
    width exceeds 8192 bytes or the integer does not fit. *)
Theorem integer_bytes_roundtrip id big_endian width n :
  0 ≤ n →
  match integer_to_byte_string id big_endian width n with
  | Ok r => ∃ bs, r = VConst (CByteString bs) ∧ byte_string_to_integer big_endian bs = n ∧
              (width ≠ 0%nat → length bs = width) ∧ (length bs ≤ MAX_INT_TO_BS_WIDTH)%nat
  | Err e => e = BuiltinFailure id ∧
             ((MAX_INT_TO_BS_WIDTH < width)%nat ∨ 256 ^ Z.of_nat width ≤ n ∧ width ≠ 0%nat ∨
              256 ^ Z.of_nat MAX_INT_TO_BS_WIDTH ≤ n)
  end.
Proof. apply integer_to_byte_string_spec. Qed.

(** ** Witnesses *)

(** A group whose points are their encodings *)
#[local] Instance demo_group : BlstGroup (list Z) := {|
  blst_default := []; blst_uncompress bs := Some bs; blst_compress p := p; blst_in_group _ := true;
  blst_add_or_double p q := p ++ q; blst_cneg p := p; blst_mult p _ := p;
  blst_is_equal p q := bool_decide (p = q); blst_hash_to msg dst := msg ++ dst |}.

#[local] Instance demo_blst : Blst := {|
  blst_g1 := demo_group; blst_g2 := demo_group; blst_miller_loop _ _ := [];
  blst_fp12_mul a b := a; blst_fp12_finalverify a b := bool_decide (a = b) |}.

#[local] Instance demo_group_laws : BlstGroupLaws (list Z).
Proof. by refine (Build_BlstGroupLaws _ demo_group (λ _, True) _ _ _ _ _ _ _); [..|intros; eexists]. Defined.

#[local] Instance demo_blst_laws : BlstLaws (B := demo_blst) :=
  {| blst_laws1 := demo_group_laws; blst_laws2 := demo_group_laws |}.

#[local] Instance demo_crypto : UplcCrypto := {|
  sha2_256_digest bs := bs; sha3_256_digest bs := bs; blake2b_256_digest bs := bs;
  blake2b_224_digest bs := bs; keccak_256_digest bs := bs; ripemd_160_digest bs := bs;
  dalek_key_ok _ := true; dalek_verify_strict _ _ _ := true;
  ecdsa_key_ok _ := true; ecdsa_sig_ok _ := true; ecdsa_s_high _ := false; ecdsa_verify_prehash _ _ _ := true;
  schnorr_key_ok _ := true; schnorr_sig_ok _ := true; schnorr_verify_raw _ _ _ := true;
  uc_blst := demo_blst |}.

Definition demo_builtins : BuiltinCosts := λ _ _ _, mkBudget 1000 10.

Lemma demo_costs_ok : costs_ok machine_costs_default demo_builtins.
Proof.
  split.
  - unfold nonneg, fits; simpl; unfold i64_max; lia.
  - intros t Ht. unfold step_cost_ok, SLIPPAGE, i64_max. destruct t; try done; simpl; lia.
  - intros. split; simpl; lia.
Defined.

Definition demo_budget (c : Z) : ExBudget := mkBudget c 1000000.

Lemma demo_in_range c : 0 ≤ c ≤ i64_max → budget_in_range (demo_budget c).
Proof. intros []. split; split; simpl; unfold i64_max in *; lia. Defined.

(** [(\x. x x) (\x. x x)] *)
Definition omega : Term := let w := TLam (TApp (TVar 1) (TVar 1)) in TApp w w.

Lemma uplc_terminates_witness :
  ∃ fuel r, evaluate_with_budget fuel omega VariantE
    (world_with (demo_budget 10000000) machine_costs_default demo_builtins None) = Some r.
Proof. apply (uplc_terminates _ _ _ omega VariantE None); [apply demo_costs_ok|apply demo_in_range]. unfold i64_max. lia. Defined.

(** [1 + 2] takes three constants or builtins, two applications and one builtin. *)
Definition one_plus_two : Term :=
  TApp (TApp (TBuiltin AddInteger) (TConst (CInteger 1))) (TConst (CInteger 2)).

Lemma budget_exact_witness :
  (∃ t', evaluate_with_budget 20 one_plus_two VariantE
     (world_with (demo_budget 81100) machine_costs_default demo_builtins None) =
       Some (Ok (VConst (CInteger 3)), mkWorld (Some t') None) ∧ tracker_consumed t' = mkBudget 81100 610) ∧
  match evaluate_with_budget 20 one_plus_two VariantE
     (world_with (demo_budget 81099) machine_costs_default demo_builtins None) with
  | Some (Err (BudgetExhausted _ _), _) => true
  | _ => false
  end = true.
Proof.
  split; [|by vm_compute].
  apply (budget_exact (demo_budget 81100) machine_costs_default demo_builtins 20 one_plus_two VariantE None
    (VConst (CInteger 3)) None (mkBudget 81100 610) demo_costs_ok);
    [apply demo_in_range; unfold i64_max; lia|].
  exists (mkBudget 81000 510). split; [by vm_compute|]. split; [done|]. split; by vm_compute.
Defined.

Lemma uplc_never_internal_witness :
  evaluate_with_budget 20 one_plus_two VariantE (free None) = Some (Ok (VConst (CInteger 3)), free None) ∧
  value_ok true (VConst (CInteger 3)).
Proof.
  split; [by vm_compute|].
  apply (uplc_never_internal true 20 one_plus_two VariantE (free None) (Ok (VConst (CInteger 3))) (free None));
    [repeat split; done|by vm_compute].
Defined.

Lemma scope_check_witness :
  plain omega ∧ (check_scope omega = Ok () ↔ term_ok true 0 omega).
Proof.
  assert (plain omega) as Hp by (simpl; lia). split; [done|].
  destruct (scope_check_exact omega) as (_ & _ & _ & _ & Hplain). exact (proj1 (Hplain Hp)).
Defined.

Definition demo_value (x : Z) : ValueMap := [([1], [([2], x)])].

Lemma demo_value_canonical x : x ≠ 0 → in_i128 x → canonical (demo_value x).
Proof.
  intros Hx Hr. assert (∀ V (k : list Z) (y : V), strict_sorted [(k, y)]) as Hone.
  { intros V k y. apply strict_sorted_cons. split; [apply Forall_nil_2|apply SSorted_nil]. }
  assert (length [1] ≤ MAX_KEY)%nat as Hk by (by apply Nat.leb_le).
  split; [split; [apply Hone|apply Forall_singleton; split; [done|]]|apply Forall_singleton; split; [done|]].
  - split; [apply Hone|by apply Forall_singleton].
  - by apply Forall_singleton.
Defined.

Lemma union_value_witness :
  union_value UnionValue (demo_value 5) (demo_value (-5)) = Ok (VConst (CValue [])) ∧
  union_value UnionValue (demo_value (-5)) (demo_value 5) = Ok (VConst (CValue [])).
Proof.
  split; [by vm_compute|].
  destruct (union_value_adds UnionValue (demo_value 5) (demo_value (-5))) as (c & Hc & _ & _ & H);
    [apply demo_value_canonical; [done|by split; vm_compute]..|].
  exact H.
Defined.

Lemma coin_updates_witness :
  ∃ c, insert_coin InsertCoin [1] [3] 7 (demo_value 5) = Ok (VConst (CValue c)) ∧ canonical c.
Proof.
  destruct (coin_updates_canonical InsertCoin [1] [3] 7 2 (demo_value 5)) as [(c & Hc & Hk & _) _].
  - apply demo_value_canonical; [done|by split; vm_compute].
  - by split; vm_compute.
  - by apply Nat.leb_le.
  - by apply Nat.leb_le.
  - by exists c.
Defined.

Lemma value_data_witness :
  un_value_data UnValueData (value_data (demo_value 5)) = Ok (VConst (CValue (demo_value 5))).
Proof. apply (value_data_roundtrip UnValueData). apply demo_value_canonical; [done|by split; vm_compute]. Defined.

Lemma exp_mod_witness :
  exp_mod_integer ExpModInteger 3 (-2) 7 = Ok (VConst (CInteger 4)) ∧ (4 * 3 ^ 2) mod 7 = 1 mod 7.
Proof.
  split; [by vm_compute|].
  pose proof (exp_mod_correct ExpModInteger 3 (-2) 7) as H.
  assert (exp_mod_integer ExpModInteger 3 (-2) 7 = Ok (VConst (CInteger 4))) as He by (by vm_compute).
  rewrite He in H. destruct H as (n & [= <-] & _ & _ & H); [split; by vm_compute..|]. by apply H.
Defined.

Lemma integer_bytes_witness :
  integer_to_byte_string IntegerToByteString true 4 1000 = Ok (VConst (CByteString [0; 0; 3; 232])) ∧
  byte_string_to_integer true [0; 0; 3; 232] = 1000.
Proof.
  split; [by vm_compute|].
  pose proof (integer_bytes_roundtrip IntegerToByteString true 4 1000) as H.
  assert (integer_to_byte_string IntegerToByteString true 4 1000 = Ok (VConst (CByteString [0; 0; 3; 232]))) as He
    by (by vm_compute).
  rewrite He in H. by destruct H as (bs & [= <-] & H & _).
Defined.
