(* ===== verification/RewardRat.v ===== *)
(** * Exact rationals of the reward calculation ([ledger/src/state/rewards.rs])

    [Rat] is the normalised fraction of two big integers in which rewards are
    computed, [floor_u64] the one rounding step. The lemmas give its meaning as
    a rational number of the Standard Library: every operation is the operation
    of [Q], division by zero included (zero on both sides), and rounding is
    downwards and clamped. *)

From S2P Require Import Prelude.
From Stdlib Require Import QArith Qround Lqa Qfield.
Local Open Scope Z_scope.

Record Rat := mkRat { rn : Z; rd : Z }.

#[global] Instance Rat_eq_dec : EqDecision Rat.
Proof. solve_decision. Defined.

(** Euclid's loop; [%] of big integers truncates, and both are non-negative. *)
Fixpoint gcd_loop (fuel : nat) (a b : Z) : Z :=
  match fuel with
  | O => a
  | S fuel => if b =? 0 then a else gcd_loop fuel b (Z.rem a b)
  end.

(** Two steps at least halve the second number. *)
Definition gcd_fuel (b : Z) : nat := S (2 * Z.to_nat (Z.log2 b + 1)).

Definition bigint_gcd (a b : Z) : Z :=
  let g := gcd_loop (gcd_fuel (Z.abs b)) (Z.abs a) (Z.abs b) in
  if g =? 0 then 1 else g.

Definition rat_new (n d : Z) : Rat :=
  if d =? 0 then mkRat 0 1
  else
    let g := bigint_gcd n d in
    let n := Z.quot n g in
    let d := Z.quot d g in
    if d <? 0 then mkRat (- n) (- d) else mkRat n d.

Definition from_i128 (n d : Z) : Rat := rat_new n d.

Definition rat_add (x y : Rat) : Rat := rat_new (rn x * rd y + rn y * rd x) (rd x * rd y).
Definition rat_sub (x y : Rat) : Rat := rat_new (rn x * rd y - rn y * rd x) (rd x * rd y).
Definition rat_mul (x y : Rat) : Rat := rat_new (rn x * rn y) (rd x * rd y).
Definition rat_div (x y : Rat) : Rat :=
  if rn y =? 0 then rat_new 0 1 else rat_new (rn x * rd y) (rd x * rn y).
Definition min_rat (x y : Rat) : Rat := if rn x * rd y <=? rn y * rd x then x else y.

Definition floor_u64 (x : Rat) : Z :=
  if (rd x =? 0) || (rn x <=? 0) then 0
  else let r := Z.quot (rn x) (rd x) in if (0 <=? r) && (r <=? u64_max) then r else u64_max.

(** ** Euclid's loop computes the greatest common divisor *)

Lemma mod_halves b r : 0 < r ≤ b → 2 * (b mod r) < b + 1.
Proof.
  intros [Hr Hle]. pose proof (Z.mod_pos_bound b r Hr).
  pose proof (Z.div_mod b r ltac:(lia)). pose proof (Z.div_le_lower_bound b r 1 Hr ltac:(lia)). nia.
Qed.

Lemma gcd_loop_spec k a b :
  0 ≤ a → 0 ≤ b < 2 ^ Z.of_nat k → gcd_loop (S (2 * k)) a b = Z.gcd a b.
Proof.
  revert a b. induction k as [|k IH]; intros a b Ha Hb.
  { assert (b = 0) as -> by (change (2 ^ Z.of_nat 0) with 1 in Hb; lia). simpl.
    rewrite Z.gcd_0_r. lia. }
  replace (2 * S k)%nat with (S (S (2 * k)))%nat by lia. cbn [gcd_loop].
  destruct (b =? 0) eqn:Hb0; [apply Z.eqb_eq in Hb0 as ->; rewrite Z.gcd_0_r; lia|].
  apply Z.eqb_neq in Hb0. rewrite Z.rem_mod_nonneg by lia.
  pose proof (Z.mod_pos_bound a b ltac:(lia)).
  assert (Z.gcd b (a mod b) = Z.gcd a b) as Hg by (rewrite Z.gcd_comm, Z.gcd_mod by lia; apply Z.gcd_comm).
  destruct (a mod b =? 0) eqn:Hr0.
  { apply Z.eqb_eq in Hr0. rewrite Hr0, Z.gcd_0_r in Hg. lia. }
  apply Z.eqb_neq in Hr0. rewrite Z.rem_mod_nonneg by lia.
  pose proof (Z.mod_pos_bound b (a mod b) ltac:(lia)).
  transitivity (gcd_loop (S (2 * k)) (a mod b) (b mod (a mod b))); [done|].
  rewrite IH; [|lia|].
  - rewrite (Z.gcd_comm (a mod b)), Z.gcd_mod by lia. by rewrite Z.gcd_comm.
  - pose proof (mod_halves b (a mod b) ltac:(lia)).
    rewrite Nat2Z.inj_succ, Z.pow_succ_r in Hb by lia. lia.
Qed.

Lemma bigint_gcd_spec a b : b ≠ 0 → bigint_gcd a b = Z.gcd a b.
Proof.
  intros Hb. unfold bigint_gcd, gcd_fuel. rewrite gcd_loop_spec; [|lia|].
  - rewrite Z.gcd_abs_l, Z.gcd_abs_r. pose proof (Z.gcd_nonneg a b).
    destruct (Z.eqb_spec (Z.gcd a b) 0) as [He|]; [|done]. by apply Z.gcd_eq_0_r in He.
  - rewrite Z2Nat.id by (pose proof (Z.log2_nonneg (Z.abs b)); lia).
    pose proof (Z.log2_spec (Z.abs b) ltac:(lia)). lia.
Qed.

(** ** The rational that a [Rat] stands for *)

Definition ratq (x : Rat) : Q := (inject_Z (rn x) / inject_Z (rd x))%Q.

Definition rat_ok (x : Rat) : Prop := 0 < rd x.

Lemma rat_new_ok n d : rat_ok (rat_new n d).
Proof.
  unfold rat_new, rat_ok. destruct (Z.eqb_spec d 0) as [|Hd]; [done|].
  rewrite bigint_gcd_spec by done.
  pose proof (Z.gcd_nonneg n d). assert (Z.gcd n d ≠ 0) by (by intros ?%Z.gcd_eq_0_r).
  destruct (Z.gcd_divide_r n d) as [c Hc]. set (g := Z.gcd n d) in *.
  assert (Z.quot d g = c) as -> by (rewrite Hc; apply Z.quot_mul; lia).
  destruct (Z.ltb_spec c 0); cbn; nia.
Qed.

Lemma inject_nonneg z : 0 ≤ z → (0 <= inject_Z z)%Q.
Proof. intros H. change 0%Q with (inject_Z 0). by rewrite <- Zle_Qle. Qed.

Lemma inject_pos z : 0 < z → (0 < inject_Z z)%Q.
Proof. intros H. change 0%Q with (inject_Z 0). by rewrite <- Zlt_Qlt. Qed.

Lemma inject_nonzero z : z ≠ 0 → ¬ (inject_Z z == 0)%Q.
Proof. intros Hz H. apply Hz. unfold inject_Z, Qeq in H. cbn in H. lia. Qed.

Lemma inject_0_div n : (inject_Z n / inject_Z 0 == 0)%Q.
Proof. unfold Qdiv. change (/ inject_Z 0)%Q with 0%Q. ring. Qed.

Lemma rat_new_q n d : (ratq (rat_new n d) == inject_Z n / inject_Z d)%Q.
Proof.
  unfold rat_new. destruct (Z.eqb_spec d 0) as [->|Hd]; [by rewrite inject_0_div|].
  rewrite bigint_gcd_spec by done.
  assert (Z.gcd n d ≠ 0) as Hg by (by intros ?%Z.gcd_eq_0_r).
  destruct (Z.gcd_divide_r n d) as [c Hc]. destruct (Z.gcd_divide_l n d) as [e He].
  set (g := Z.gcd n d) in *.
  assert (Z.quot d g = c) as -> by (rewrite Hc; apply Z.quot_mul; lia).
  assert (Z.quot n g = e) as -> by (rewrite He; apply Z.quot_mul; lia).
  assert (c ≠ 0) by (intros ->; lia).
  assert (inject_Z n == inject_Z e * inject_Z g)%Q as -> by (by rewrite <- inject_Z_mult, <- He).
  assert (inject_Z d == inject_Z c * inject_Z g)%Q as -> by (by rewrite <- inject_Z_mult, <- Hc).
  pose proof (inject_nonzero c ltac:(done)). pose proof (inject_nonzero g ltac:(done)).
  destruct (Z.ltb_spec c 0); unfold ratq; cbn [rn rd]; rewrite ?inject_Z_opp; field; auto.
Qed.

Lemma ratq_ok_nonzero x : rat_ok x → ¬ (inject_Z (rd x) == 0)%Q.
Proof. intros H. apply inject_nonzero. unfold rat_ok in H. lia. Qed.

Lemma rat_add_q x y : rat_ok x → rat_ok y → (ratq (rat_add x y) == ratq x + ratq y)%Q.
Proof.
  intros ?%ratq_ok_nonzero ?%ratq_ok_nonzero. unfold rat_add. rewrite rat_new_q.
  unfold ratq. rewrite inject_Z_plus, !inject_Z_mult. field; auto.
Qed.

Lemma rat_sub_q x y : rat_ok x → rat_ok y → (ratq (rat_sub x y) == ratq x - ratq y)%Q.
Proof.
  intros ?%ratq_ok_nonzero ?%ratq_ok_nonzero. unfold rat_sub. rewrite rat_new_q.
  unfold ratq, Z.sub. rewrite inject_Z_plus, inject_Z_opp, !inject_Z_mult. field; auto.
Qed.

Lemma rat_mul_q x y : rat_ok x → rat_ok y → (ratq (rat_mul x y) == ratq x * ratq y)%Q.
Proof.
  intros ?%ratq_ok_nonzero ?%ratq_ok_nonzero. unfold rat_mul. rewrite rat_new_q.
  unfold ratq. rewrite !inject_Z_mult. field; auto.
Qed.

Lemma rat_div_q x y : rat_ok x → rat_ok y → (ratq (rat_div x y) == ratq x / ratq y)%Q.
Proof.
  intros Hx%ratq_ok_nonzero Hy%ratq_ok_nonzero. unfold rat_div.
  destruct (Z.eqb_spec (rn y) 0) as [Hn|Hn]; rewrite rat_new_q; unfold ratq.
  - rewrite Hn. unfold Qdiv. change (inject_Z 0) with 0%Q.
    assert (0 * / inject_Z (rd y) == 0)%Q as -> by ring. change (/ 0)%Q with 0%Q. ring.
  - apply inject_nonzero in Hn. rewrite !inject_Z_mult. field; auto.
Qed.

Lemma rat_add_ok x y : rat_ok (rat_add x y).
Proof. apply rat_new_ok. Qed.
Lemma rat_sub_ok x y : rat_ok (rat_sub x y).
Proof. apply rat_new_ok. Qed.
Lemma rat_mul_ok x y : rat_ok (rat_mul x y).
Proof. apply rat_new_ok. Qed.
Lemma rat_div_ok x y : rat_ok (rat_div x y).
Proof. unfold rat_div. case_match; apply rat_new_ok. Qed.
Lemma min_rat_ok x y : rat_ok x → rat_ok y → rat_ok (min_rat x y).
Proof. unfold min_rat. by case_match. Qed.
Lemma from_i128_ok n d : rat_ok (from_i128 n d).
Proof. apply rat_new_ok. Qed.
Lemma from_i128_q n d : (ratq (from_i128 n d) == inject_Z n / inject_Z d)%Q.
Proof. apply rat_new_q. Qed.

Create HintDb rat.
#[export] Hint Resolve rat_add_ok rat_sub_ok rat_mul_ok rat_div_ok min_rat_ok from_i128_ok rat_new_ok : rat.

(** Rewrites the value of a [Rat] expression to the rational expression. *)
Ltac rat_eval :=
  repeat first
    [ rewrite rat_add_q by eauto with rat | rewrite rat_sub_q by eauto with rat
    | rewrite rat_mul_q by eauto with rat | rewrite rat_div_q by eauto with rat
    | rewrite from_i128_q | rewrite rat_new_q ].

Lemma ratq_le x y : rat_ok x → rat_ok y → rn x * rd y ≤ rn y * rd x → (ratq x <= ratq y)%Q.
Proof.
  intros Hx Hy Hle. unfold ratq.
  apply Qle_shift_div_l; [by apply inject_pos|].
  setoid_replace (inject_Z (rn x) / inject_Z (rd x) * inject_Z (rd y))%Q
    with ((inject_Z (rn x) * inject_Z (rd y)) / inject_Z (rd x))%Q using relation Qeq
    by (field; by apply ratq_ok_nonzero).
  apply Qle_shift_div_r; [by apply inject_pos|].
  rewrite <- !inject_Z_mult, <- Zle_Qle. done.
Qed.

Lemma min_rat_le x y : rat_ok x → rat_ok y →
  (ratq (min_rat x y) <= ratq x)%Q ∧ (ratq (min_rat x y) <= ratq y)%Q.
Proof.
  intros Hx Hy. unfold min_rat. destruct (Z.leb_spec (rn x * rd y) (rn y * rd x)) as [H|H].
  - split; [apply Qle_refl|by apply ratq_le].
  - split; [apply ratq_le; auto; lia|apply Qle_refl].
Qed.

Lemma min_rat_cases x y : min_rat x y = x ∨ min_rat x y = y.
Proof. unfold min_rat. case_match; auto. Qed.

Lemma min_rat_glb x y q : (q <= ratq x)%Q → (q <= ratq y)%Q → (q <= ratq (min_rat x y))%Q.
Proof. by destruct (min_rat_cases x y) as [-> | ->]. Qed.

(** ** Rounding *)

Lemma floor_u64_range x : u64 (floor_u64 x).
Proof.
  unfold floor_u64, u64. repeat case_match; try (unfold u64_max; lia).
  apply andb_true_iff in H0 as [H0 H1]. apply Z.leb_le in H0, H1. lia.
Qed.

Lemma floor_u64_le x : rat_ok x → (0 <= ratq x)%Q → (inject_Z (floor_u64 x) <= ratq x)%Q.
Proof.
  intros Hok Hq. unfold floor_u64. unfold rat_ok in Hok.
  destruct (_ || _) eqn:H; [done|].
  apply orb_false_iff in H as [_ H2]. apply Z.leb_gt in H2.
  unfold ratq. apply Qle_shift_div_l; [by apply inject_pos|].
  rewrite <- inject_Z_mult, <- Zle_Qle.
  pose proof (Z.mul_quot_le (rn x) (rd x) ltac:(lia) ltac:(lia)).
  pose proof (Z.quot_pos (rn x) (rd x) ltac:(lia) ltac:(lia)).
  destruct ((0 <=? _) && _) eqn:Hr; [lia|].
  apply andb_false_iff in Hr as [Hr|Hr]; [apply Z.leb_gt in Hr; lia|].
  apply Z.leb_gt in Hr. nia.
Qed.

(** Rounding loses less than one unit where the result fits. *)
Lemma floor_u64_gt x : rat_ok x → (0 <= ratq x)%Q → (ratq x < inject_Z (u64_max + 1))%Q →
  (ratq x < inject_Z (floor_u64 x) + 1)%Q.
Proof.
  intros Hok Hq Hlt. unfold floor_u64. unfold rat_ok in Hok. unfold ratq in *.
  assert (Hrd : (0 < inject_Z (rd x))%Q) by (by apply inject_pos).
  change 1%Q with (inject_Z 1). rewrite <- inject_Z_plus.
  apply Qlt_shift_div_r; [done|]. rewrite <- inject_Z_mult, <- Zlt_Qlt.
  destruct (_ || _) eqn:H.
  { apply orb_true_iff in H as [H%Z.eqb_eq|H%Z.leb_le]; lia. }
  apply orb_false_iff in H as [_ H2%Z.leb_gt].
  assert (rn x < (u64_max + 1) * rd x) as Hb.
  { rewrite Zlt_Qlt, inject_Z_mult. apply (Qmult_lt_compat_r _ _ (inject_Z (rd x))) in Hlt; [|done].
    assert (inject_Z (rn x) / inject_Z (rd x) * inject_Z (rd x) == inject_Z (rn x))%Q as Hf
      by (field; by apply ratq_ok_nonzero).
    by rewrite Hf in Hlt. }
  rewrite Z.quot_div_nonneg by lia.
  pose proof (Z.div_pos (rn x) (rd x) ltac:(lia) ltac:(lia)).
  pose proof (Z.div_lt_upper_bound (rn x) (rd x) (u64_max + 1) ltac:(lia) ltac:(lia)).
  rewrite (proj2 (Z.leb_le 0 _)) by lia. rewrite (proj2 (Z.leb_le _ u64_max)) by lia. cbn.
  pose proof (Z.mod_pos_bound (rn x) (rd x) Hok). pose proof (Z.div_mod (rn x) (rd x) ltac:(lia)). nia.
Qed.

Lemma Qdiv_nonneg a b : 0 ≤ a → 0 ≤ b → (0 <= inject_Z a / inject_Z b)%Q.
Proof.
  intros Ha Hb. destruct (decide (b = 0)) as [->|]; [by rewrite inject_0_div|].
  apply Qle_shift_div_l; [apply inject_pos; lia|]. rewrite Qmult_0_l. by apply inject_nonneg.
Qed.

Lemma Qdiv_le_1 a b : 0 ≤ a ≤ b → (inject_Z a / inject_Z b <= 1)%Q.
Proof.
  intros Hab. destruct (decide (b = 0)) as [->|]; [rewrite inject_0_div; done|].
  apply Qle_shift_div_r; [apply inject_pos; lia|]. rewrite Qmult_1_l. rewrite <- Zle_Qle. lia.
Qed.
