(* ===== verification/RewardPulser.v ===== *)
(** * The reward pulser ([ledger/src/state/reward_pulser.rs])

    The window in which rewards are computed, the monetary step that is frozen
    at its start, and the fold over the delegating credentials that blocks
    advance piece by piece. The estimates of pool performance are vectors of
    floats ([non_myopic.rs]); their type and arithmetic are the class
    [Likelihoods], and no amount depends on them. *)

From S2P Require Import Prelude Order Block Ledger RewardRat.
Local Open Scope Z_scope.
Local Open Scope mach_scope.

(** ** The window *)

Inductive RewardTiming : Type := TooEarly | JustRight | TooLate.

#[global] Instance RewardTiming_eq_dec : EqDecision RewardTiming.
Proof. solve_decision. Defined.

Record RewardWindow := mkWindow { start_after : Z; window_end : Z }.

Definition reward_window_new (epoch_first_slot sr : Z) : RewardWindow :=
  mkWindow (epoch_first_slot +s sr) (epoch_first_slot +s sr +s sr).

Definition classify (w : RewardWindow) (current : Z) : RewardTiming :=
  if window_end w <? current then TooLate
  else if current <=? start_after w then TooEarly
  else JustRight.

(** [u64::div_ceil] *)
Definition div_ceil (x y : Z) : Z := x / y + (if 0 <? x mod y then 1 else 0).

Definition pulse_size (num_stake_creds security_param : Z) : Z :=
  let denom := Z.max (saturating_mul64 security_param 4) 1 in
  Z.max (div_ceil num_stake_creds denom) 1.

(** ** The monetary step *)

Record MonetaryStep := mkMonetary {
  ms_delta_r1 : Z;
  ms_delta_t1 : Z;
  ms_r : Z;
  ms_expected_blocks : Z;
  ms_total_stake : Z;
}.

#[global] Instance MonetaryStep_eq_dec : EqDecision MonetaryStep.
Proof. solve_decision. Defined.

(** [floor((1 - d) * f * slotsPerEpoch)] *)
Definition expected_blocks_raw (d active_slot_coeff : Z * Z) (slots_per_epoch : Z) : Z :=
  let '(d_num, d_den) := (d.1, Z.max d.2 1) in
  let one_minus_d := from_i128 (d_den - d_num) d_den in
  let f := from_i128 active_slot_coeff.1 (Z.max active_slot_coeff.2 1) in
  let slots := from_i128 slots_per_epoch 1 in
  floor_u64 (rat_mul (rat_mul one_minus_d f) slots).

(** The overlay gate, [d >= 4/5]. *)
Definition d_ge_4_5 (d : Z * Z) : bool := 4 * Z.max d.2 1 <=? 5 * d.1.

Definition start_step_monetary (rho tau d active_slot_coeff : Z * Z)
    (reserves epoch_fees blocks_made slots_per_epoch max_lovelace_supply : Z) : MonetaryStep :=
  let rho_r := from_i128 rho.1 (Z.max rho.2 1) in
  let '(expansion, expected_blocks) :=
    if d_ge_4_5 d then (floor_u64 (rat_mul rho_r (from_i128 reserves 1)), 0)
    else
      let expected := Z.max (expected_blocks_raw d active_slot_coeff slots_per_epoch) 1 in
      let effective := Z.min blocks_made expected in
      (floor_u64 (rat_mul (rat_mul rho_r (from_i128 reserves 1)) (from_i128 effective expected)),
       expected) in
  let r_pot := expansion +w epoch_fees in
  let delta_t1 := floor_u64 (rat_mul (from_i128 tau.1 (Z.max tau.2 1)) (from_i128 r_pot 1)) in
  mkMonetary expansion delta_t1 (r_pot -w delta_t1) expected_blocks
    (max_lovelace_supply -s reserves).

Record StartStepEta := mkEta { eta_expected_blocks : Z; eta_value : option (Z * Z) }.

(** [gcd] of [reward_pulser.rs]: Euclid's loop, never zero. *)
Definition gcd64 (a b : Z) : Z := Z.max (gcd_loop (gcd_fuel b) a b) 1.

Definition start_step_eta (d active_slot_coeff : Z * Z) (blocks_made slots_per_epoch : Z) : StartStepEta :=
  let expected_blocks := expected_blocks_raw d active_slot_coeff slots_per_epoch in
  let eta :=
    if d_ge_4_5 d then Some (1, 1)
    else if expected_blocks =? 0 then None
    else
      let g := gcd64 blocks_made expected_blocks in
      Some (blocks_made / g, expected_blocks / g) in
  mkEta expected_blocks eta.

(** ** Performance estimates *)

Class Likelihoods := {
  Likelihood : Type;
  Likelihood_eq_dec :: EqDecision Likelihood;
  Probability : Type;
  leader_probability : Z * Z → Z * Z → Z * Z → Probability;
  likelihood_empty : Likelihood;
  likelihood_new : Z → Probability → Z → Likelihood;
  apply_decay : Likelihood → Likelihood;    (* by the constant DECAY_FACTOR *)
  combine : Likelihood → Likelihood → Likelihood;
}.

Section pulser.
Context `{Likelihoods}.

Record NonMyopic := mkNonMyopic {
  nm_likelihoods : gmap Hash28 Likelihood;
  nm_reward_pot : Lovelace;
}.

#[global] Instance NonMyopic_eq_dec : EqDecision NonMyopic.
Proof. solve_decision. Defined.

Definition non_myopic_default : NonMyopic := mkNonMyopic ∅ 0.

Definition non_myopic_update (nm : NonMyopic) (reward_pot : Lovelace)
    (new_likelihoods : gmap Hash28 Likelihood) : NonMyopic :=
  mkNonMyopic
    (map_imap (λ pool_id new_perf,
       let decayed :=
         match nm_likelihoods nm !! pool_id with
         | Some prev => apply_decay prev
         | None => likelihood_empty
         end in
       Some (combine decayed new_perf)) new_likelihoods)
    reward_pot.

(** ** The frozen snapshot *)

Record RewardEntry := mkEntry { re_is_member : bool; re_pool_id : Hash28; re_amount : Z }.

#[global] Instance RewardEntry_eq_dec : EqDecision RewardEntry.
Proof. solve_decision. Defined.

Record FreeVars := mkFreeVars {
  fv_addrs_rew : option (gset Hash32);
  fv_total_stake : Z;
  fv_prot_ver : Z * Z;
}.

#[global] Instance FreeVars_eq_dec : EqDecision FreeVars.
Proof. solve_decision. Defined.

Record RewardSnapShot := mkRewardSnap {
  rs_fees : Lovelace;
  rs_protocol_version : Z * Z;
  rs_non_myopic : NonMyopic;
  rs_delta_r1 : Lovelace;
  rs_r : Lovelace;
  rs_delta_t1 : Lovelace;
  rs_likelihoods : gmap Hash28 Likelihood;
  rs_leaders : gmap Hash32 (list RewardEntry);
  rs_free_vars : FreeVars;
}.

#[global] Instance RewardSnapShot_eq_dec : EqDecision RewardSnapShot.
Proof. solve_decision. Defined.

(** The frozen monetary terms; the expected blocks are not part of the snapshot. *)
Definition snap_monetary_step (s : RewardSnapShot) : MonetaryStep :=
  mkMonetary (rs_delta_r1 s) (rs_delta_t1 s) (rs_r s) 0 (fv_total_stake (rs_free_vars s)).

Inductive PulsingRewUpdate : Type :=
| Pulsing (s : RewardSnapShot)
| Complete (s : RewardSnapShot).

#[global] Instance PulsingRewUpdate_eq_dec : EqDecision PulsingRewUpdate.
Proof. solve_decision. Defined.

Definition pru_snapshot (p : PulsingRewUpdate) : RewardSnapShot :=
  match p with Pulsing s | Complete s => s end.

(** [snapshot_mut]: the constructor stays, the snapshot changes. *)
Definition pru_snapshot_mut (f : RewardSnapShot → RewardSnapShot) (p : PulsingRewUpdate) : PulsingRewUpdate :=
  match p with Pulsing s => Pulsing (f s) | Complete s => Complete (f s) end.

Definition pru_complete (p : PulsingRewUpdate) : PulsingRewUpdate :=
  match p with Pulsing s => Complete s | Complete s => Complete s end.

Definition applies_at_boundary (p : PulsingRewUpdate) : bool := true.

Definition is_json_visible (p : PulsingRewUpdate) : bool :=
  match p with Complete _ => true | Pulsing _ => false end.

End pulser.

(** ** The member fold *)

Record PoolRewardInfo := mkPoolReward {
  pri_pool_id : Hash28;
  pri_pool_active_stake : Z;
  pri_pool_reward : Z;
  pri_cost : Z;
  pri_margin_num : Z;
  pri_margin_den : Z;
  pri_owner_set : gset Hash32;
  pri_leader : option (Hash32 * Z);
}.

Definition member_reward (i : PoolRewardInfo) (member_stake : Z) : Z :=
  if (member_stake =? 0) || (pri_pool_active_stake i =? 0) || (pri_pool_reward i <=? pri_cost i)
  then 0
  else
    let remainder := pri_pool_reward i - pri_cost i in
    let one_minus_margin := from_i128 (pri_margin_den i - pri_margin_num i) (pri_margin_den i) in
    let member_frac := from_i128 member_stake (pri_pool_active_stake i) in
    floor_u64 (rat_mul (rat_mul (from_i128 remainder 1) one_minus_margin) member_frac).

Record MemberFoldCtx := mkFoldCtx {
  ctx_table : gmap Hash28 PoolRewardInfo;
  ctx_delegations : gmap Hash32 Hash28;
  ctx_stake : gmap Hash32 Lovelace;
  ctx_pv_major : Z;
  ctx_registered : Hash32 → bool;
}.

(** [(is_member, producing_pool, amount)] *)
Definition RewardEntryTriple : Type := bool * Hash28 * Z.

Record RewardFold := mkFold {
  fold_queue : list Hash32;
  fold_cursor : nat;
  fold_acc : gmap Hash32 (list RewardEntryTriple);
}.

Definition reward_fold_new (delegations : gmap Hash32 Hash28) : RewardFold :=
  mkFold (merge_sort key_le (map_to_list delegations).*1) 0 ∅.

(** The product [4 * k] wraps. *)
Definition fold_pulse_size (num_credentials : nat) (security_param_k : Z) : nat :=
  let denom := Z.max (4 *w security_param_k) 1 in
  Nat.max (Z.to_nat (div_ceil (Z.of_nat num_credentials) denom)) 1.

Definition fold_remaining (f : RewardFold) : list Hash32 := drop (fold_cursor f) (fold_queue f).

Definition fold_is_done (f : RewardFold) : bool := bool_decide (length (fold_queue f) ≤ fold_cursor f)%nat.

(** The entry that a credential earns as a member, if any. *)
Definition member_entry (ctx : MemberFoldCtx) (cred : Hash32) : option RewardEntryTriple :=
  match ctx_delegations ctx !! cred with
  | None => None
  | Some pool_id =>
      match ctx_table ctx !! pool_id with
      | None => None
      | Some info =>
          if bool_decide (cred ∈ pri_owner_set info) then None
          else if (ctx_pv_major ctx <=? 6) && negb (ctx_registered ctx cred) then None
          else
            let member_stake := default 0 (ctx_stake ctx !! cred) in
            let share := member_reward info member_stake in
            if 0 <? share then Some (true, pool_id, share) else None
      end
  end.

(** [acc.entry(cred).or_default().push(e)] *)
Definition entry_push {A} (cred : Hash32) (e : A) (acc : gmap Hash32 (list A)) : gmap Hash32 (list A) :=
  <[cred := default [] (acc !! cred) ++ [e]]> acc.

Definition fold_one (ctx : MemberFoldCtx) (acc : gmap Hash32 (list RewardEntryTriple)) (cred : Hash32) :
    gmap Hash32 (list RewardEntryTriple) :=
  match member_entry ctx cred with
  | Some e => entry_push cred e acc
  | None => acc
  end.

(** The number consumed and the advanced fold. *)
Definition fold_pulse (n : nat) (ctx : MemberFoldCtx) (f : RewardFold) : nat * RewardFold :=
  let stop := Nat.min (fold_cursor f + n) (length (fold_queue f)) in
  let consumed := (stop - fold_cursor f)%nat in
  let chunk := take consumed (drop (fold_cursor f) (fold_queue f)) in
  (consumed, mkFold (fold_queue f) stop (foldl (fold_one ctx) (fold_acc f) chunk)).

Definition fold_complete (ctx : MemberFoldCtx) (f : RewardFold) : RewardFold :=
  let left := (length (fold_queue f) - fold_cursor f)%nat in
  (fold_pulse left ctx f).2.

(** [None] is the panic of the assertion. *)
Definition fold_into_entries (f : RewardFold) : option (gmap Hash32 (list RewardEntryTriple)) :=
  if fold_is_done f then Some (fold_acc f) else None.

Record InFlightFold := mkInFlight {
  if_table : gmap Hash28 PoolRewardInfo;
  if_fold : option RewardFold;
}.

Definition in_flight_is_complete (i : InFlightFold) : bool :=
  match if_fold i with Some f => fold_is_done f | None => false end.

Definition in_flight_remaining (i : InFlightFold) : nat :=
  match if_fold i with Some f => length (fold_remaining f) | None => 0%nat end.
