(* ===== verification/Rewards.v ===== *)
(** * Reward updates ([ledger/src/state/rewards.rs], [state/apply.rs], [eras/shelley.rs])

    The pot of an epoch, the share of every pool, the reward of every
    credential, and their application at the epoch boundary. The state is the
    [LedgerState] of the ledger with the payloads of the reward components
    made concrete: the instance [reward_payloads]. A panic is [None]. *)

From S2P Require Import Prelude Order RecordUpdate EraHistory Block Ledger RewardRat RewardPulser.
Local Open Scope Z_scope.
Local Open Scope mach_scope.
Local Open Scope record_scope.

(** ** Stake snapshots and parameters *)

Record StakeSnapshot := mkSnapshot {
  snap_epoch : EpochNo;
  snap_delegations : gmap Hash32 Hash28;
  snap_pool_stake : gmap Hash28 Lovelace;
  snap_pool_params : gmap Hash28 PoolRegistration;
  snap_stake_distribution : gmap Hash32 Lovelace;
  snap_epoch_fees : Lovelace;
  snap_epoch_block_count : Z;
  snap_epoch_blocks_by_pool : gmap Hash28 Z;
}.

Definition stake_snapshot_empty (epoch : EpochNo) : StakeSnapshot :=
  mkSnapshot epoch ∅ ∅ ∅ ∅ 0 0 ∅.

Record EpochSnapshots := mkSnapshots {
  es_mark : option StakeSnapshot;
  es_set : option StakeSnapshot;
  es_go : option StakeSnapshot;
  es_ss_fee : Lovelace;
  es_bprev_block_count : Z;
  es_bprev_blocks_by_pool : gmap Hash28 Z;
  es_rupd_ready : bool;
}.

#[global] Instance snapshots_fields : Fields EpochSnapshots :=
  λ s, mkSnapshots (es_mark s) (es_set s) (es_go s) (es_ss_fee s) (es_bprev_block_count s)
    (es_bprev_blocks_by_pool s) (es_rupd_ready s).

(** The protocol parameters that rewards read; the active slot coefficient is
    the fraction that [active_slot_coeff_rational] makes of the stored float. *)
Record RewardParamsOf (R : Type) := mkRewardParams {
  par_rho : Rational;
  par_tau : Rational;
  par_a0 : Rational;
  par_n_opt : Z;
  par_active_slot_coeff : Z * Z;
  par_protocol_version_minor : Z;
  par_rest : R;
}.

Arguments mkRewardParams {R} _ _ _ _ _ _ _.
Arguments par_rho {R} _.
Arguments par_tau {R} _.
Arguments par_a0 {R} _.
Arguments par_n_opt {R} _.
Arguments par_active_slot_coeff {R} _.
Arguments par_protocol_version_minor {R} _.
Arguments par_rest {R} _.

#[global] Instance reward_params_fields R : Fields (RewardParamsOf R) :=
  λ p, mkRewardParams (par_rho p) (par_tau p) (par_a0 p) (par_n_opt p) (par_active_slot_coeff p)
    (par_protocol_version_minor p) (par_rest p).

(** What the ledger state holds beside the data of the rewards. *)
Class RewardRest := {
  rr_likelihoods :: Likelihoods;
  rr_output : Type;
  rr_params : Type;
  rr_proposal : Type;
  rr_update : Type;
  rr_byron : Type;
  rr_forest : Type;
  rr_drep_pulser : Type;
  rr_future : Type;
  rr_config : Type;
  rr_registry : Type;
  rr_byron_eq_dec :: EqDecision rr_byron;
}.

Section rewards.
Context `{RewardRest}.

Definition RewardParams : Type := RewardParamsOf rr_params.

(** The configuration that rewards read. *)
Record RewardConfig := mkRewardConfig {
  security_param : Z;
  randomness_stabilisation_window : Z;
  max_lovelace_supply : Z;
  conf_rest : rr_config;
}.

Record PendingRewardUpdate := mkRupd {
  rupd_rewards : gmap Hash32 Lovelace;
  rupd_delta_treasury : Z;
  rupd_delta_reserves : Z;
  rupd_non_myopic : NonMyopic;
  rupd_raw_rewards : gmap Hash32 (list RewardEntry);
}.

#[global] Instance reward_payloads : Payloads :=
  Build_Payloads rr_output RewardParams rr_proposal rr_update EpochSnapshots PendingRewardUpdate
    NonMyopic MonetaryStep PulsingRewUpdate InFlightFold rr_byron rr_forest rr_drep_pulser rr_future
    RewardConfig rr_registry _ _.

(** ** Likelihoods of the pools *)

Definition build_new_likelihoods (go_snapshot : option StakeSnapshot) (bprev : gmap Hash28 Z)
    (active_slot_coeff : Z * Z) (prev_d : Rational) (total_stake epoch_length : Z) :
    gmap Hash28 Likelihood :=
  match go_snapshot with
  | None => ∅
  | Some go =>
      let d := (numerator prev_d, Z.max (denominator prev_d) 1) in
      map_imap (λ pool_id _,
        let pool_stake := default 0 (snap_pool_stake go !! pool_id) in
        let blocks := default 0 (bprev !! pool_id) in
        let t := leader_probability active_slot_coeff (pool_stake, total_stake) d in
        Some (likelihood_new blocks t epoch_length)) (snap_pool_params go)
  end.

(** ** The table of pool rewards *)

(** [Hash28::to_hash32_padded] *)
Definition to_hash32_padded (h : Hash28) : Hash32 := h ++ replicate 4 0.

Definition reward_account_to_hash (reward_account : list Z) : Hash32 :=
  if (29 <=? length reward_account)%nat then
    take 28 (drop 1 reward_account) ++
      (if Z.land (default 0 (head reward_account)) 16 =? 0 then 0 else 1) :: replicate 3 0
  else replicate 32 0.

(** [iter().sum::<u64>()]: the sum wraps. *)
Definition wsum (l : list Z) : Z := foldl wrapping_add64 0 l.

Definition map_values {K A} `{Countable K} (m : gmap K A) : list A := (map_to_list m).*2.

Definition owner_stake (go : StakeSnapshot) (pool_id : Hash28) (reg : PoolRegistration) : Z :=
  foldl (λ owner_stake owner,
    let owner_key := to_hash32_padded owner in
    if bool_decide (snap_delegations go !! owner_key = Some pool_id)
    then owner_stake +w default 0 (snap_stake_distribution go !! owner_key)
    else owner_stake) 0 (pool_owners reg).

(** [maxPool']: the most that a pool can earn of the pot. *)
Definition max_pool (a0 : Rational) (n_opt reward_pot total_stake pool_active_stake pledge : Z) : Z :=
  let a0_r := from_i128 (numerator a0) (Z.max (denominator a0) 1) in
  let z0 := from_i128 1 n_opt in
  let sigma_raw := from_i128 pool_active_stake total_stake in
  let p_raw := from_i128 pledge total_stake in
  let sigma := min_rat sigma_raw z0 in
  let p := min_rat p_raw z0 in
  let f4 := rat_div (rat_sub z0 sigma) z0 in
  let f3 := rat_div (rat_sub sigma (rat_mul p f4)) z0 in
  let f2 := rat_add sigma (rat_mul (rat_mul p a0_r) f3) in
  let f1 := rat_div (from_i128 reward_pot 1) (rat_add (from_i128 1 1) a0_r) in
  floor_u64 (rat_mul f1 f2).

(** The pool's reward, by its apparent performance. *)
Definition pool_reward (gate : bool) (max_pool pool_active_stake blocks_made total_blocks_in_epoch
    total_active_stake : Z) : Z :=
  if pool_active_stake =? 0 then 0
  else if gate then max_pool
  else if blocks_made =? 0 then 0
  else
    let perf := rat_mul (from_i128 blocks_made total_blocks_in_epoch)
                        (from_i128 total_active_stake pool_active_stake) in
    floor_u64 (rat_mul perf (from_i128 max_pool 1)).

Definition operator_reward (pool_reward cost margin_num margin_den self_delegated pool_active_stake : Z) : Z :=
  if pool_reward <=? cost then pool_reward
  else
    let remainder := pool_reward - cost in
    let margin := from_i128 margin_num margin_den in
    let one_minus_margin := from_i128 (margin_den - margin_num) margin_den in
    let s_over_sigma := from_i128 self_delegated pool_active_stake in
    let share := rat_add margin (rat_mul one_minus_margin s_over_sigma) in
    let op_extra := floor_u64 (rat_mul share (from_i128 remainder 1)) in
    cost +w op_extra.

(** What the table is built from, apart from the snapshot. *)
Record TableInputs := mkTableInputs {
  ti_bprev : gmap Hash28 Z;
  ti_a0 : Rational;
  ti_n_opt : Z;
  ti_reward_pot : Z;
  ti_total_stake : Z;
  ti_total_active_stake : Z;
  ti_total_blocks : Z;
  ti_gate : bool;
  ti_pv_major : Z;
  ti_registered : Hash32 → bool;
}.

Definition pool_info (go : StakeSnapshot) (ti : TableInputs) (pool_id : Hash28) (pool_active_stake : Lovelace) :
    option PoolRewardInfo :=
  let blocks_made := default 0 (ti_bprev ti !! pool_id) in
  if blocks_made =? 0 then None
  else
    match snap_pool_params go !! pool_id with
    | None => None
    | Some reg =>
        let self_delegated := owner_stake go pool_id reg in
        if self_delegated <? pool_pledge reg then None
        else
          let mx := max_pool (ti_a0 ti) (ti_n_opt ti) (ti_reward_pot ti) (ti_total_stake ti)
                      pool_active_stake (pool_pledge reg) in
          let reward := pool_reward (ti_gate ti) mx pool_active_stake blocks_made (ti_total_blocks ti)
                          (ti_total_active_stake ti) in
          if reward =? 0 then None
          else
            let cost := pool_cost reg in
            let margin_num := pool_margin_numerator reg in
            let margin_den := Z.max (pool_margin_denominator reg) 1 in
            let operator := operator_reward reward cost margin_num margin_den self_delegated pool_active_stake in
            let owner_set := list_to_set (to_hash32_padded <$> pool_owners reg) in
            let op_key := reward_account_to_hash (pool_reward_account reg) in
            let included := (7 <=? ti_pv_major ti) || ti_registered ti op_key in
            let leader := if included then Some (op_key, operator) else None in
            Some (mkPoolReward pool_id pool_active_stake reward cost margin_num margin_den owner_set leader)
    end.

Definition build_pool_reward_table (go : StakeSnapshot) (ti : TableInputs) : gmap Hash28 PoolRewardInfo :=
  map_imap (pool_info go ti) (snap_pool_stake go).

(** ** Delivered rewards *)

(** [leader] before [member], then by pool. *)
Definition triple_le (x y : RewardEntryTriple) : Prop :=
  match x.1.1, y.1.1 with
  | false, true => True
  | true, false => False
  | _, _ => key_le x.1.2 y.1.2
  end.

#[global] Instance triple_le_dec : RelDecision triple_le.
Proof. intros x y. unfold triple_le. repeat case_match; apply _. Defined.

(** The entries of the pools' leaders, with those of amount zero or without. *)
Definition push_leaders (keep_zero : bool) (table : gmap Hash28 PoolRewardInfo)
    (entries : gmap Hash32 (list RewardEntryTriple)) : gmap Hash32 (list RewardEntryTriple) :=
  foldl (λ entries info,
    match pri_leader info with
    | Some (op_key, amount) =>
        if keep_zero || (0 <? amount)
        then entry_push op_key (false, pri_pool_id info, amount) entries
        else entries
    | None => entries
    end) entries (map_values table).

(** From protocol version 3 on a credential gets the sum of its entries, before
    it the first one. *)
Definition delivered (aggregate_rewards : bool) (entries : list RewardEntryTriple) : Z :=
  if aggregate_rewards then wsum entries.*2
  else match merge_sort triple_le entries with e :: _ => e.2 | [] => 0 end.

Definition deliver_rewards (pv_major : Z) (entries : gmap Hash32 (list RewardEntryTriple)) :
    gmap Hash32 Lovelace :=
  omap (λ es, let d := delivered (2 <? pv_major) es in if 0 <? d then Some d else None) entries.

Definition to_reward_entry (e : RewardEntryTriple) : RewardEntry := mkEntry e.1.1 e.1.2 e.2.

(** ** The reward update *)

Definition total_active_stake (go : StakeSnapshot) : Z :=
  foldl saturating_add64 0 (map_values (snap_pool_stake go)).

Definition reward_expansion (pp : RewardParams) (prev_d : Rational) (bprev : gmap Hash28 Z)
    (reserves epoch_length : Z) : Z :=
  let d := (numerator prev_d, denominator prev_d) in
  let rho := from_i128 (numerator (par_rho pp)) (Z.max (denominator (par_rho pp)) 1) in
  if d_ge_4_5 d then floor_u64 (rat_mul rho (from_i128 reserves 1))
  else
    let expected_blocks := Z.max (expected_blocks_raw d (par_active_slot_coeff pp) epoch_length) 1 in
    let effective_blocks := Z.min (wsum (map_values bprev)) expected_blocks in
    floor_u64 (rat_mul (rat_mul rho (from_i128 reserves 1)) (from_i128 effective_blocks expected_blocks)).

(** The distribution of the pot over the snapshot: credited rewards, the total
    and the entries on the wire. *)
Definition distribute (go : StakeSnapshot) (ti : TableInputs) (prepulsed : option RewardFold) :
    option (gmap Hash32 Lovelace * Z * gmap Hash32 (list RewardEntry)) :=
  let table := build_pool_reward_table go ti in
  let ctx := mkFoldCtx table (snap_delegations go) (snap_stake_distribution go) (ti_pv_major ti)
               (ti_registered ti) in
  let fold := fold_complete ctx (default (reward_fold_new (snap_delegations go)) prepulsed) in
  members ← fold_into_entries fold;
  let raw := push_leaders true table members in
  let rewards := deliver_rewards (ti_pv_major ti) (push_leaders false table members) in
  Some (rewards, wsum (map_values rewards), (λ es : list RewardEntryTriple, to_reward_entry <$> es) <$> raw).

Definition compute_reward_update (pp : RewardParams) (prev_d : Rational) (prev_pv_major : Z)
    (go_snapshot : option StakeSnapshot) (bprev : gmap Hash28 Z) (ss_fee reserves : Lovelace)
    (reward_accounts : gmap Hash32 Lovelace) (startstep_addrs_rew : option (gset Hash32))
    (epoch_length max_supply : Z) (prev_non_myopic : NonMyopic)
    (frozen_monetary : option MonetaryStep) (prepulsed : option RewardFold) :
    option PendingRewardUpdate :=
  let total_stake :=
    match frozen_monetary with Some m => ms_total_stake m | None => max_supply -s reserves end in
  let new_likelihoods := build_new_likelihoods go_snapshot bprev (par_active_slot_coeff pp) prev_d
                           total_stake epoch_length in
  let registered cred :=
    match startstep_addrs_rew with
    | Some addrs => bool_decide (cred ∈ addrs)
    | None => bool_decide (is_Some (reward_accounts !! cred))
    end in
  let '(expansion, frozen_delta_t1, frozen_r) :=
    match frozen_monetary with
    | Some m => (ms_delta_r1 m, Some (ms_delta_t1 m), Some (ms_r m))
    | None => (reward_expansion pp prev_d bprev reserves epoch_length, None, None)
    end in
  let available := expansion +w ss_fee in
  if available =? 0 then
    Some (mkRupd ∅ 0 0 (non_myopic_update prev_non_myopic 0 new_likelihoods) ∅)
  else
    let tau := from_i128 (numerator (par_tau pp)) (Z.max (denominator (par_tau pp)) 1) in
    let treasury_cut := default (floor_u64 (rat_mul tau (from_i128 available 1))) frozen_delta_t1 in
    let reward_pot := default (available -w treasury_cut) frozen_r in
    let nm := non_myopic_update prev_non_myopic reward_pot new_likelihoods in
    let undistributed := mkRupd ∅ treasury_cut (treasury_cut - ss_fee) nm ∅ in
    if total_stake =? 0 then Some undistributed
    else
      match go_snapshot with
      | None => Some undistributed
      | Some go =>
          let active := total_active_stake go in
          if active =? 0 then Some undistributed
          else
            let ti := mkTableInputs bprev (par_a0 pp) (Z.max (par_n_opt pp) 1) reward_pot total_stake active
                        (Z.max (wsum (map_values bprev)) 1)
                        (d_ge_4_5 (numerator prev_d, denominator prev_d)) prev_pv_major registered in
            '(rewards, total_distributed, raw) ← distribute go ti prepulsed;
            Some (mkRupd rewards treasury_cut (treasury_cut + total_distributed - ss_fee) nm raw)
      end.

(** ** Application *)

Definition checked_add64 (x y : Z) : option Z := if x + y <=? u64_max then Some (x + y) else None.
Definition checked_sub64 (x y : Z) : option Z := if y <=? x then Some (x - y) else None.

(** The casts of the [i128] to [u64] truncate. *)
Definition apply_reserves_delta (reserves delta_reserves : Z) : option Z :=
  if 0 <=? delta_reserves then checked_sub64 reserves (wrap64 delta_reserves)
  else checked_add64 reserves (wrap64 (- delta_reserves)).

(** One reward: to the account if it is registered, to the treasury otherwise.
    The account saturates, the treasury panics. *)
Definition credit_reward (st : gmap Hash32 Lovelace * Z) (r : Hash32 * Lovelace) :
    option (gmap Hash32 Lovelace * Z) :=
  let '(accounts, treasury) := st in
  let '(cred, reward) := r in
  if 0 <? reward then
    match accounts !! cred with
    | Some balance => Some (<[cred := balance +s reward]> accounts, treasury)
    | None => treasury ← checked_add64 treasury reward; Some (accounts, treasury)
    end
  else Some st.

Fixpoint credit_rewards (st : gmap Hash32 Lovelace * Z) (rs : list (Hash32 * Lovelace)) :
    option (gmap Hash32 Lovelace * Z) :=
  match rs with
  | [] => Some st
  | r :: rs => st' ← credit_reward st r; credit_rewards st' rs
  end.

Definition apply_rupd (rupd : PendingRewardUpdate) (s : LedgerState) : option LedgerState :=
  reserves' ← apply_reserves_delta (reserves (epochs s)) (rupd_delta_reserves rupd);
  treasury' ← checked_add64 (treasury (epochs s)) (rupd_delta_treasury rupd);
  '(accounts, treasury'') ← credit_rewards (reward_accounts (certs s), treasury')
                               (map_to_list (rupd_rewards rupd));
  Some (s <| epochs ::= λ e, e <| reserves := reserves' |> <| treasury := treasury'' |> |>
          <| certs ::= λ c, c <| reward_accounts := accounts |> |>).

(** [LedgerState::apply_pending_reward_update] *)
Definition apply_pending_reward_update (s : LedgerState) : option LedgerState :=
  match pending_reward_update (epochs s) with
  | None => Some s
  | Some rupd => apply_rupd rupd (s <| epochs ::= λ e, e <| pending_reward_update := None |> |>)
  end.

End rewards.
