(* ===== verification/RewardEpoch.v ===== *)
(** * Rewards within an epoch and at its boundary

    The tick of every block (freezing the monetary step, capturing the
    registered accounts, one pulse of the member fold: [state/apply.rs],
    [state/rewards.rs]) and the first steps of the epoch transition
    (donations, the reward update, the fee pot, MIR transfers, snapshot
    rotation: [eras/shelley.rs], [eras/conway.rs], [state/certificates.rs]). *)

From S2P Require Import Prelude Order RecordUpdate EraHistory Block Ledger RewardRat RewardPulser Rewards.
Local Open Scope Z_scope.
Local Open Scope mach_scope.
Local Open Scope record_scope.

Section epoch.
Context `{RewardRest}.

#[global] Instance in_flight_fields : Fields InFlightFold := λ i, mkInFlight (if_table i) (if_fold i).

#[global] Instance reward_snap_fields : Fields RewardSnapShot :=
  λ s, mkRewardSnap (rs_fees s) (rs_protocol_version s) (rs_non_myopic s) (rs_delta_r1 s) (rs_r s)
    (rs_delta_t1 s) (rs_likelihoods s) (rs_leaders s) (rs_free_vars s).

#[global] Instance free_vars_fields : Fields FreeVars :=
  λ f, mkFreeVars (fv_addrs_rew f) (fv_total_stake f) (fv_prot_ver f).

(** ** One pulse per block *)

(** The leaders on the wire: every credential's entries by ascending pool. *)
Definition entry_le (x y : RewardEntry) : Prop := key_le (re_pool_id x) (re_pool_id y).

#[global] Instance entry_le_dec : RelDecision entry_le.
Proof. intros x y. unfold entry_le. apply _. Defined.

Definition wire_leaders (table : gmap Hash28 PoolRewardInfo) : gmap Hash32 (list RewardEntry) :=
  merge_sort entry_le <$>
    foldl (λ leaders info,
      match pri_leader info with
      | Some (op_key, amount) => entry_push op_key (mkEntry false (pri_pool_id info) amount) leaders
      | None => leaders
      end) ∅ (map_values table).

(** The captured accounts; without a capture every credential passes. *)
Definition registered_in (addrs : option (gset Hash32)) (cred : Hash32) : bool :=
  match addrs with Some s => bool_decide (cred ∈ s) | None => true end.

(** The inputs of the table as they are frozen. *)
Definition frozen_inputs (e : EpochSubState) (go : StakeSnapshot) (monetary : MonetaryStep) (prev_d : Rational)
    (prev_pv_major : Z) : TableInputs :=
  let pp := pp_rest (prev_protocol_params e) in
  let bprev := es_bprev_blocks_by_pool (snapshots e) in
  mkTableInputs bprev (par_a0 pp) (Z.max (par_n_opt pp) 1) (ms_r monetary) (ms_total_stake monetary)
    (total_active_stake go) (Z.max (wsum (map_values bprev)) 1)
    (d_ge_4_5 (numerator prev_d, denominator prev_d)) prev_pv_major (registered_in (rupd_addrs_rew e)).

Definition pulse_rupd_member_fold (prev_d : Rational) (prev_pv_major security_param_k epoch_length : Z)
    (e : EpochSubState) : EpochSubState :=
  match rupd_monetary e with
  | None => e
  | Some monetary =>
      let go := default (stake_snapshot_empty 0) (es_go (snapshots e)) in
      if in_flight_is_complete (rupd_fold e) then
        e <| rupd_snapshot ::= fmap pru_complete |>
      else if (prev_pv_major <=? 6) && bool_decide (rupd_addrs_rew e = None) then e
      else
        match if_fold (rupd_fold e) with
        | None =>
            let table := build_pool_reward_table go (frozen_inputs e go monetary prev_d prev_pv_major) in
            let likelihoods :=
              build_new_likelihoods (Some go) (es_bprev_blocks_by_pool (snapshots e))
                (par_active_slot_coeff (pp_rest (prev_protocol_params e))) prev_d
                (ms_total_stake monetary) epoch_length in
            e <| rupd_fold := mkInFlight table (Some (reward_fold_new (snap_delegations go))) |>
              <| rupd_snapshot ::= fmap (pru_snapshot_mut (λ s,
                   s <| rs_likelihoods := likelihoods |> <| rs_leaders := wire_leaders table |>)) |>
        | Some fold =>
            let n := fold_pulse_size (size (snap_delegations go)) security_param_k in
            let ctx := mkFoldCtx (if_table (rupd_fold e)) (snap_delegations go) (snap_stake_distribution go)
                         prev_pv_major (registered_in (rupd_addrs_rew e)) in
            e <| rupd_fold ::= λ i, i <| if_fold := Some (fold_pulse n ctx fold).2 |> |>
        end
  end.

(** [LedgerState::first_slot_of_epoch] *)
Definition ledger_first_slot (c : LedgerConfig) (epoch : EpochNo) : Z :=
  if epoch <? shelley_transition_epoch c then saturating_mul64 epoch (byron_epoch_length c)
  else
    saturating_mul64 (byron_epoch_length c) (shelley_transition_epoch c) +s
      saturating_mul64 (epoch - shelley_transition_epoch c) (epoch_length c).

(** The freeze at the first block after the mark. *)
Definition start_pulser (s : LedgerState) : LedgerState :=
  let e := epochs s in
  let pp := pp_rest (prev_protocol_params e) in
  let blocks := wsum (map_values (es_bprev_blocks_by_pool (snapshots e))) in
  let monetary :=
    start_step_monetary (numerator (par_rho pp), denominator (par_rho pp))
      (numerator (par_tau pp), denominator (par_tau pp))
      (numerator (prev_d e), denominator (prev_d e)) (par_active_slot_coeff pp) (reserves e)
      (es_ss_fee (snapshots e)) blocks (epoch_length (ls_config s))
      (max_lovelace_supply (config_rest (ls_config s))) in
  let version := (prev_protocol_version_major e, par_protocol_version_minor pp) in
  let snap :=
    mkRewardSnap (es_ss_fee (snapshots e)) version (non_myopic e) (ms_delta_r1 monetary) (ms_r monetary)
      (ms_delta_t1 monetary) ∅ ∅ (mkFreeVars None (ms_total_stake monetary) version) in
  s <| epochs ::= λ e, e <| rupd_pulser_started := true |> <| rupd_monetary := Some monetary |>
                         <| rupd_snapshot := Some (Pulsing snap) |> |>.

(** The capture of the registered accounts, up to protocol version 6. *)
Definition capture_addrs_rew (slot : Z) (s : LedgerState) : LedgerState :=
  if (prev_protocol_version_major (epochs s) <=? 6) && bool_decide (rupd_addrs_rew (epochs s) = None) then
    let startstep_slot := ledger_first_slot (ls_config s) (ls_epoch s) +s
                            randomness_stabilisation_window (config_rest (ls_config s)) in
    if startstep_slot <? slot then
      let frozen : gset Hash32 := dom (reward_accounts (certs s)) in
      s <| epochs ::= λ e, e
             <| rupd_snapshot ::= fmap (pru_snapshot_mut (λ r,
                  r <| rs_free_vars ::= λ f, f <| fv_addrs_rew := Some frozen |> |>)) |>
             <| rupd_addrs_rew := Some frozen |> |>
    else s
  else s.

(** What the block application does for rewards before the block's body. *)
Definition rupd_tick (block_era : Era) (slot : Z) (s : LedgerState) : LedgerState :=
  if bool_decide (block_era = Byron) then s
  else
    let s :=
      if rupd_pulser_started (epochs s) then s
      else
        let window := reward_window_new (ledger_first_slot (ls_config s) (ls_epoch s))
                        (randomness_stabilisation_window (config_rest (ls_config s))) in
        if bool_decide (classify window slot = TooEarly) then s else start_pulser s in
    let s := capture_addrs_rew slot s in
    s <| epochs ::= λ e, pulse_rupd_member_fold (prev_d e) (prev_protocol_version_major e)
           (security_param (config_rest (ls_config s))) (epoch_length (ls_config s)) e |>.

(** ** The boundary *)

Definition flush_donations (s : LedgerState) : option LedgerState :=
  if 0 <? pending_donations (utxo s) then
    treasury' ← checked_add64 (treasury (epochs s)) (pending_donations (utxo s));
    Some (s <| epochs ::= λ e, e <| treasury := treasury' |> |>
            <| utxo ::= λ u, u <| pending_donations := 0 |> |>)
  else Some s.

(** The update that old snapshots carry. *)
Definition apply_carried_rupd (s : LedgerState) : option LedgerState :=
  match pending_reward_update (epochs s) with
  | Some rupd =>
      s' ← apply_rupd rupd (s <| epochs ::= λ e, e <| pending_reward_update := None |> |>);
      Some (s' <| epochs ::= λ e, e <| last_applied_rupd := Some rupd |> |>)
  | None => Some (s <| epochs ::= λ e, e <| last_applied_rupd := None |> |>)
  end.

(** The update of the closed epoch, computed from the given reserves; the fold
    in flight is consumed. *)
Definition boundary_rupd (reward_reserves : Z) (s : LedgerState) : option PendingRewardUpdate :=
  let e := epochs s in
  compute_reward_update (pp_rest (prev_protocol_params e)) (prev_d e) (prev_protocol_version_major e)
    (es_go (snapshots e)) (es_bprev_blocks_by_pool (snapshots e)) (es_ss_fee (snapshots e))
    reward_reserves (reward_accounts (certs s)) (rupd_addrs_rew e) (epoch_length (ls_config s))
    (max_lovelace_supply (config_rest (ls_config s))) (non_myopic e) (rupd_monetary e)
    (if_fold (rupd_fold e)).

Definition apply_closed_rupd (reward_reserves : Z) (s : LedgerState) : option LedgerState :=
  rupd ← boundary_rupd reward_reserves s;
  s' ← apply_rupd rupd (s <| epochs ::= λ e, e <| rupd_fold ::= λ i, i <| if_fold := None |> |> |>);
  Some (s' <| epochs ::= λ e, e <| non_myopic := rupd_non_myopic rupd |>
                                <| last_applied_rupd := Some rupd |> |>).

Definition drain_fees (s : LedgerState) : LedgerState :=
  if rupd_pulser_started (epochs s)
  then s <| utxo ::= λ u, u <| epoch_fees ::= λ f, f -s es_ss_fee (snapshots (epochs s)) |> |>
  else s.

(** Shelley to Babbage: no update at the fork from Byron; the coin that the
    Allegra translation returned to the reserves is taken off again. *)
Definition shelley_rupd (new_epoch : EpochNo) (s : LedgerState) : option LedgerState :=
  s ← flush_donations s;
  s ← apply_carried_rupd s;
  let c := ls_config s in
  let is_byron_to_shelley_fork :=
    (0 <? shelley_transition_epoch c) && (new_epoch =? shelley_transition_epoch c) in
  s ← (if negb is_byron_to_shelley_fork && rupd_pulser_started (epochs s) then
         let reward_reserves := reserves (epochs s) -s pending_avvm_return (epochs s) in
         apply_closed_rupd reward_reserves (s <| epochs ::= λ e, e <| pending_avvm_return := 0 |> |>)
       else Some (s <| epochs ::= λ e, e <| last_applied_rupd := None |> |>));
  Some (drain_fees s).

Definition conway_rupd (s : LedgerState) : option LedgerState :=
  s ← flush_donations s;
  s ← apply_carried_rupd s;
  s ← (if rupd_pulser_started (epochs s) then apply_closed_rupd (reserves (epochs s)) s
       else Some (s <| epochs ::= λ e, e <| last_applied_rupd := None |> |>));
  Some (drain_fees s).

(** After the transition the block application clears what the epoch froze. *)
Definition clear_rupd (s : LedgerState) : LedgerState :=
  s <| epochs ::= λ e, e <| rupd_addrs_rew := None |> <| rupd_pulser_started := false |>
                         <| rupd_monetary := None |> <| rupd_snapshot := None |> |>.

(** ** MIR transfers *)

Definition zsum (l : list Z) : Z := foldr Z.add 0 l.

(** All of it or nothing: the pots must cover the transfers, and no account may
    become negative. The pending transfers are dropped in either case. *)
Definition apply_pending_mir (s : LedgerState) : LedgerState :=
  let c := certs s in
  let '(dr, dt) := (pending_mir_delta_reserves c, pending_mir_delta_treasury c) in
  let accounts := reward_accounts c in
  let taken := c <| pending_mir_reserves := ∅ |> <| pending_mir_treasury := ∅ |>
                 <| pending_mir_delta_reserves := 0 |> <| pending_mir_delta_treasury := 0 |> in
  if bool_decide (pending_mir_reserves c = ∅) && bool_decide (pending_mir_treasury c = ∅) && (dr =? 0) && (dt =? 0)
  then s <| certs := taken |>
  else
    let registered := filter (λ kv : Hash32 * Z, is_Some (accounts !! kv.1)) in
    let filtered_reserves := registered (pending_mir_reserves c) in
    let filtered_treasury := registered (pending_mir_treasury c) in
    let tot_r := zsum (map_values filtered_reserves) in
    let tot_t := zsum (map_values filtered_treasury) in
    let available_reserves := reserves (epochs s) - dr + dt in
    let available_treasury := treasury (epochs s) + dr - dt in
    let combined_deltas := union_with (λ a b, Some (a + b)) filtered_reserves filtered_treasury in
    let solvent := (tot_r <=? available_reserves) && (tot_t <=? available_treasury) in
    let all_non_negative :=
      forallb (λ kv : Hash32 * Z, 0 <=? default 0 (accounts !! kv.1) + kv.2) (map_to_list combined_deltas) in
    if negb solvent || negb all_non_negative then s <| certs := taken |>
    else
      let credited := map_imap (λ cred balance,
        Some (match combined_deltas !! cred with
              | Some delta => wrap64 (balance + delta)
              | None => balance
              end)) accounts in
      s <| certs := taken <| reward_accounts := credited |> |>
        <| epochs ::= λ e, e <| reserves := wrap64 (available_reserves - tot_r) |>
                             <| treasury := wrap64 (available_treasury - tot_t) |> |>.

(** ** Snapshot rotation *)

(** [*m.entry(k).or_insert(Lovelace(0)) += x], which saturates. *)
Definition entry_add {K} `{Countable K} (k : K) (x : Lovelace) (m : gmap K Lovelace) : gmap K Lovelace :=
  <[k := default 0 (m !! k) +s x]> m.

Definition cred_stake (c : CertSubState) (cred : Hash32) : Lovelace :=
  default 0 (stake_map c !! cred) +s default 0 (reward_accounts c !! cred).

(** The credential that a pointer stands for, if it is registered. *)
Definition pointer_cred (c : CertSubState) (ptr : Pointer) : option Hash32 :=
  match pointer_map c !! ptr with
  | Some cred => if bool_decide (is_Some (reward_accounts c !! cred)) then Some cred else None
  | None => None
  end.

Definition delegated_pool_stake (c : CertSubState) : gmap Hash28 Lovelace :=
  foldl (λ m kv, entry_add kv.2 (cred_stake c kv.1) m) ∅ (map_to_list (delegations c)).

Definition pointer_pool_stake (c : CertSubState) (ptrs : gmap Pointer Z) (m : gmap Hash28 Lovelace) :
    gmap Hash28 Lovelace :=
  foldl (λ m kv,
    if kv.2 =? 0 then m
    else match pointer_cred c kv.1 ≫= λ cred, delegations c !! cred with
         | Some pool_id => entry_add pool_id kv.2 m
         | None => m
         end) m (map_to_list ptrs).

Definition delegated_stake (c : CertSubState) : gmap Hash32 Lovelace :=
  map_imap (λ cred _, let total := cred_stake c cred in if 0 <? total then Some total else None) (delegations c).

Definition pointer_stake (c : CertSubState) (ptrs : gmap Pointer Z) (m : gmap Hash32 Lovelace) :
    gmap Hash32 Lovelace :=
  foldl (λ m kv,
    if kv.2 =? 0 then m
    else match pointer_cred c kv.1 with
         | Some cred => if bool_decide (is_Some (delegations c !! cred)) then entry_add cred kv.2 m else m
         | None => m
         end) m (map_to_list ptrs).

(** SNAP: the snapshots move on, the fees and block counts of the closed epoch
    are taken over, and the new mark is built. Conway has no pointer stake. *)
Definition snap_rotate (with_pointers : bool) (new_epoch : EpochNo) (s : LedgerState) : LedgerState :=
  let c := certs s in
  let ptrs := if with_pointers then ptr_stake (epochs s) else ∅ in
  let mark :=
    mkSnapshot new_epoch (delegations c) (pointer_pool_stake c ptrs (delegated_pool_stake c))
      (pool_params c) (pointer_stake c ptrs (delegated_stake c)) (epoch_fees (utxo s))
      (epoch_block_count (consensus s)) (epoch_blocks_by_pool (consensus s)) in
  let snaps := snapshots (epochs s) in
  s <| epochs ::= λ e, e
         <| snapshots := mkSnapshots (Some mark) (es_mark snaps) (es_set snaps) (epoch_fees (utxo s))
              (epoch_block_count (consensus s)) (epoch_blocks_by_pool (consensus s)) true |>
         <| needs_stake_rebuild := false |> |>.

End epoch.
