(* ===== verification/RewardBounds.v ===== *)
(** * Sums over finite maps

    Keyed sums, their exchange, and the conditions under which the wrapping and
    the saturating sums of the code are the sums. *)

From Stdlib Require Import QArith Lqa.
From Stdlib Require Import QArith Lqa Qfield.
From S2P Require Import Prelude Order Block Ledger RewardRat RewardPulser Rewards RewardEpoch.
Local Open Scope Z_scope.


Lemma zsum_cons x l : zsum (x :: l) = x + zsum l.
Proof. done. Qed.

Lemma zsum_perm l1 l2 : l1 ≡ₚ l2 → zsum l1 = zsum l2.
Proof. induction 1; rewrite ?zsum_cons; lia. Qed.

Section ksum.
Context `{Countable K} {A : Type}.
Implicit Types (f g : K → A → Z) (m : gmap K A).

Definition ksum f m : Z := map_fold (λ k x acc, f k x + acc) 0 m.

Lemma ksum_empty f : ksum f ∅ = 0.
Proof. unfold ksum. by rewrite map_fold_empty. Qed.

Lemma ksum_insert f m k x : m !! k = None → ksum f (<[k := x]> m) = f k x + ksum f m.
Proof. intros Hk. unfold ksum. rewrite map_fold_insert_L; [done|intros; lia|done]. Qed.

Lemma ksum_delete f m k x : m !! k = Some x → ksum f m = f k x + ksum f (delete k m).
Proof. intros Hk. unfold ksum. rewrite (map_fold_delete_L _ _ k x m); [done|intros; lia|done]. Qed.

Lemma ksum_le f g m : (∀ k x, m !! k = Some x → f k x ≤ g k x) → ksum f m ≤ ksum g m.
Proof.
  induction m as [|k x m Hk IH] using map_ind; intros Hle; [by rewrite !ksum_empty|].
  rewrite !ksum_insert by done. specialize (Hle k x) as Hx. rewrite lookup_insert_eq in Hx.
  specialize (Hx eq_refl). assert (ksum f m ≤ ksum g m); [|lia]. apply IH. intros k' x' Hk'.
  apply (Hle k'). by rewrite lookup_insert_ne by congruence.
Qed.

Lemma ksum_ext f g m : (∀ k x, m !! k = Some x → f k x = g k x) → ksum f m = ksum g m.
Proof. intros He. apply Z.le_antisymm; apply ksum_le; intros k x Hk; rewrite (He k x Hk); lia. Qed.

Lemma ksum_zero m : ksum (λ _ _, 0) m = 0.
Proof. induction m as [|k x m Hk IH] using map_ind; [apply ksum_empty|by rewrite ksum_insert, IH]. Qed.

Lemma ksum_nonneg f m : (∀ k x, m !! k = Some x → 0 ≤ f k x) → 0 ≤ ksum f m.
Proof. intros Hf. rewrite <- (ksum_zero m). by apply ksum_le. Qed.

Lemma ksum_elem_le f m k x : (∀ k x, m !! k = Some x → 0 ≤ f k x) → m !! k = Some x → f k x ≤ ksum f m.
Proof.
  intros Hf Hk. rewrite (ksum_delete f m k x Hk). assert (0 ≤ ksum f (delete k m)); [|lia].
  apply ksum_nonneg. intros k' x' Hk'. apply Hf. by apply lookup_delete_Some in Hk' as [_ ?].
Qed.

Lemma ksum_plus f g m : ksum (λ k x, f k x + g k x) m = ksum f m + ksum g m.
Proof.
  induction m as [|k x m Hk IH] using map_ind; [by rewrite !ksum_empty|].
  rewrite !ksum_insert by done. lia.
Qed.

(** Only one key counts. *)
Lemma ksum_single f m k0 :
  ksum (λ k x, if decide (k = k0) then f k x else 0) m = match m !! k0 with Some x => f k0 x | None => 0 end.
Proof.
  induction m as [|k x m Hk IH] using map_ind; [by rewrite ksum_empty|].
  rewrite ksum_insert by done. rewrite IH. case_decide as Hd.
  - subst. rewrite Hk, lookup_insert_eq. lia.
  - by rewrite lookup_insert_ne.
Qed.

Lemma ksum_list f m : ksum f m = zsum ((λ kv, f kv.1 kv.2) <$> map_to_list m).
Proof.
  induction m as [|k x m Hk IH] using map_ind.
  - by rewrite ksum_empty, map_to_list_empty.
  - rewrite ksum_insert by done. rewrite IH.
    rewrite (zsum_perm _ _ (fmap_Permutation _ _ _ (map_to_list_insert m k x Hk))). done.
Qed.

Lemma ksum_inject_le f g m (c : Q) :
  (∀ k x, m !! k = Some x → (inject_Z (f k x) <= c * inject_Z (g k x))%Q) →
  (inject_Z (ksum f m) <= c * inject_Z (ksum g m))%Q.
Proof.
  induction m as [|k x m Hk IH] using map_ind; intros Hle.
  { rewrite !ksum_empty. change (inject_Z 0) with 0%Q. lra. }
  rewrite !ksum_insert by done. rewrite !inject_Z_plus. specialize (Hle k x) as Hx.
  rewrite lookup_insert_eq in Hx. specialize (Hx eq_refl).
  assert (inject_Z (ksum f m) <= c * inject_Z (ksum g m))%Q; [|lra]. apply IH. intros k' x' Hk'.
  apply (Hle k'). by rewrite lookup_insert_ne by congruence.
Qed.

End ksum.

(** A sum over some of the keys. *)
Lemma ksum_sub_le `{Countable K} {A} (m : gmap K A) (b : gmap K Z) :
  (∀ k x, b !! k = Some x → 0 ≤ x) →
  ksum (λ k _, default 0 (b !! k)) m ≤ ksum (λ _ x, x) b.
Proof.
  revert b. induction m as [|k x m Hk IH] using map_ind; intros b Hb.
  { rewrite ksum_empty. by apply ksum_nonneg. }
  rewrite ksum_insert by done.
  assert (ksum (λ k _, default 0 (b !! k)) m = ksum (λ k' _, default 0 (delete k b !! k')) m) as ->.
  { apply ksum_ext. intros k' x' Hk'. rewrite lookup_delete_ne; [done|]. congruence. }
  assert (∀ k' x', delete k b !! k' = Some x' → 0 ≤ x') as Hb'.
  { intros k' x' [_ ?]%lookup_delete_Some. by apply (Hb k'). }
  specialize (IH (delete k b) Hb').
  destruct (b !! k) as [y|] eqn:Hy; cbn.
  - rewrite (ksum_delete _ b k y Hy). lia.
  - rewrite delete_id in IH by done. rewrite delete_id by done. lia.
Qed.

(** A sum over keys that include all keys of another map. *)
Lemma ksum_sub_eq `{Countable K} {A} (m : gmap K A) (b : gmap K Z) :
  (∀ k x, b !! k = Some x → is_Some (m !! k)) →
  ksum (λ k _, default 0 (b !! k)) m = ksum (λ _ x, x) b.
Proof.
  revert b. induction m as [|k x m Hk IH] using map_ind; intros b Hb.
  { assert (b = ∅) as ->; [|by rewrite !ksum_empty]. apply map_empty. intros k.
    destruct (b !! k) as [y|] eqn:Hy; [|done]. destruct (Hb k y Hy) as [? Hx]. by rewrite lookup_empty in Hx. }
  rewrite ksum_insert by done.
  assert (ksum (λ k _, default 0 (b !! k)) m = ksum (λ k' _, default 0 (delete k b !! k')) m) as ->.
  { apply ksum_ext. intros k' x' Hk'. rewrite lookup_delete_ne; [done|]. congruence. }
  rewrite IH.
  - destruct (b !! k) as [y|] eqn:Hy; cbn; [by rewrite (ksum_delete _ b k y Hy)|by rewrite delete_id].
  - intros k' y [Hne Hy]%lookup_delete_Some. specialize (Hb k' y Hy). by rewrite lookup_insert_ne in Hb.
Qed.

(** The sum over one map, grouped by the values as keys of another. *)
Lemma ksum_group `{Countable K, Countable P} {B} (m1 : gmap K P) (m2 : gmap P B) (g : K → P → B → Z) :
  ksum (λ c p, match m2 !! p with Some i => g c p i | None => 0 end) m1 =
  ksum (λ p i, ksum (λ c p', if decide (p' = p) then g c p i else 0) m1) m2.
Proof.
  induction m1 as [|c p m1 Hc IH] using map_ind.
  { rewrite ksum_empty. transitivity (ksum (λ (_ : P) (_ : B), 0) m2); [by rewrite ksum_zero|].
    apply ksum_ext. intros. by rewrite ksum_empty. }
  rewrite ksum_insert by done. rewrite IH.
  transitivity (ksum (λ p0 i, (if decide (p0 = p) then g c p0 i else 0) +
                  ksum (λ c p', if decide (p' = p0) then g c p0 i else 0) m1) m2).
  - rewrite ksum_plus, ksum_single. done.
  - apply ksum_ext. intros p0 i Hi. rewrite ksum_insert by done. f_equal.
    destruct (decide (p0 = p)), (decide (p = p0)); congruence.
Qed.

Lemma ksum_omap `{Countable K} {A} (g : A → option Z) (m : gmap K A) :
  ksum (λ _ x, x) (omap g m) = ksum (λ _ a, default 0 (g a)) m.
Proof.
  induction m as [|k x m Hk IH] using map_ind; [by rewrite omap_empty, !ksum_empty|].
  rewrite omap_insert, ksum_insert by done. destruct (g x) as [y|] eqn:Hg; cbn.
  - rewrite ksum_insert; [lia|]. by rewrite lookup_omap, Hk.
  - rewrite delete_id by (by rewrite lookup_omap, Hk). lia.
Qed.

Lemma ksum_imap `{Countable K} {A B} (f : K → B → Z) (g : K → A → option B) (m : gmap K A) :
  ksum f (map_imap g m) = ksum (λ k a, match g k a with Some b => f k b | None => 0 end) m.
Proof.
  induction m as [|k x m Hk IH] using map_ind; [by rewrite map_imap_empty, !ksum_empty|].
  rewrite (ksum_insert (λ k a, match g k a with Some b => f k b | None => 0 end)) by done.
  destruct (g k x) as [y|] eqn:Hg.
  - rewrite (map_imap_insert_Some g k x _ y) by done. rewrite ksum_insert; [lia|].
    by rewrite map_lookup_imap, Hk.
  - rewrite (map_imap_insert_None g k x) by done. rewrite delete_id by (by rewrite map_lookup_imap, Hk). lia.
Qed.

(** ** Machine sums *)

Lemma zsum_nonneg l : (∀ x, x ∈ l → 0 ≤ x) → 0 ≤ zsum l.
Proof.
  induction l as [|x l IH]; intros Hl; [done|]. rewrite zsum_cons.
  pose proof (Hl x ltac:(left)). assert (0 ≤ zsum l); [|lia]. apply IH. intros. apply Hl. by right.
Qed.

Lemma zsum_app l1 l2 : zsum (l1 ++ l2) = zsum l1 + zsum l2.
Proof. induction l1 as [|x l1 IH]; [done|]. rewrite <- app_comm_cons, !zsum_cons. lia. Qed.

Lemma wsum_acc l acc : (∀ x, x ∈ l → 0 ≤ x) → 0 ≤ acc → acc + zsum l ≤ u64_max →
  foldl wrapping_add64 acc l = acc + zsum l.
Proof.
  revert acc. induction l as [|x l IH]; intros acc Hl Hacc Hle; [cbn; lia|]. rewrite zsum_cons in *. cbn [foldl].
  pose proof (Hl x ltac:(left)). assert (∀ y, y ∈ l → 0 ≤ y) as Hl' by (intros; apply Hl; by right).
  pose proof (zsum_nonneg l Hl').
  unfold wrapping_add64 at 2. rewrite wrap64_small by (unfold u64; lia). rewrite IH; [lia|done|lia|lia].
Qed.

Lemma wsum_small l : (∀ x, x ∈ l → 0 ≤ x) → zsum l ≤ u64_max → wsum l = zsum l.
Proof. intros Hl Hle. unfold wsum. rewrite wsum_acc; [lia|done|lia|lia]. Qed.

Lemma saturating_acc l acc : (∀ x, x ∈ l → 0 ≤ x) → 0 ≤ acc → acc + zsum l ≤ u64_max →
  foldl saturating_add64 acc l = acc + zsum l.
Proof.
  revert acc. induction l as [|x l IH]; intros acc Hl Hacc Hle; [cbn; lia|]. rewrite zsum_cons in *. cbn [foldl].
  pose proof (Hl x ltac:(left)). assert (∀ y, y ∈ l → 0 ≤ y) as Hl' by (intros; apply Hl; by right).
  pose proof (zsum_nonneg l Hl').
  unfold saturating_add64 at 2. rewrite Z.min_l by lia. rewrite IH; [lia|done|lia|lia].
Qed.

Section values.
Context `{Countable K}.
Implicit Types (m : gmap K Z).

Definition nonneg_map m : Prop := ∀ k x, m !! k = Some x → 0 ≤ x.

Lemma nonneg_by_forall m : map_Forall (λ _ x, 0 ≤ x) m → nonneg_map m.
Proof. intros Hm k x Hk. by apply (Hm k x). Qed.

Lemma map_values_nonneg m : nonneg_map m → ∀ x, x ∈ map_values m → 0 ≤ x.
Proof.
  intros Hm x Hx. unfold map_values in Hx. apply list_elem_of_fmap in Hx as ([k y] & -> & Hk).
  apply elem_of_map_to_list in Hk. by apply (Hm k).
Qed.

Lemma zsum_values m : zsum (map_values m) = ksum (λ _ x, x) m.
Proof. rewrite ksum_list. unfold map_values. f_equal. Qed.

Lemma wsum_values m : nonneg_map m → ksum (λ _ x, x) m ≤ u64_max →
  wsum (map_values m) = ksum (λ _ x, x) m.
Proof. intros Hm Hle. rewrite wsum_small, zsum_values; [done|by apply map_values_nonneg|by rewrite zsum_values]. Qed.

Lemma saturating_values m : nonneg_map m → ksum (λ _ x, x) m ≤ u64_max →
  foldl saturating_add64 0 (map_values m) = ksum (λ _ x, x) m.
Proof.
  intros Hm Hle. rewrite saturating_acc, zsum_values; [lia|by apply map_values_nonneg|lia|rewrite zsum_values; lia].
Qed.

End values.

(** * How much a pool, its operator and its members earn

    The bounds of the reward formulas, over the rationals: a pool earns at most
    its share of the pot, and what its operator and its members get is within
    what the pool earns. *)


(** ** Inequalities between rationals *)

Lemma q_mul_nonneg a b : (0 <= a → 0 <= b → 0 <= a * b)%Q.
Proof. intros Ha Hb. setoid_replace 0%Q with (0 * b)%Q using relation Qeq by ring. by apply Qmult_le_compat_r. Qed.

Lemma q_mul_le_l a b c : (0 <= c → a <= b → c * a <= c * b)%Q.
Proof. intros Hc Hab. rewrite !(Qmult_comm c). by apply Qmult_le_compat_r. Qed.

Lemma q_mul_le a b c d : (0 <= a → a <= b → 0 <= c → c <= d → a * c <= b * d)%Q.
Proof.
  intros Ha Hab Hc Hcd. apply Qle_trans with (b * c)%Q; [by apply Qmult_le_compat_r|].
  apply q_mul_le_l; [by apply Qle_trans with a|done].
Qed.

Lemma q_div_nonneg a b : (0 <= a → 0 < b → 0 <= a / b)%Q.
Proof. intros Ha Hb. apply Qle_shift_div_l; [done|]. by rewrite Qmult_0_l. Qed.

Lemma q_div_le a b c : (0 < b → a <= c * b → a / b <= c)%Q.
Proof. intros Hb Hle. by apply Qle_shift_div_r. Qed.

Lemma q_pos_nonzero a : (0 < a → ~ a == 0)%Q.
Proof. intros Ha He. rewrite He in Ha. by apply (Qlt_irrefl 0). Qed.

(** The formula of [max_pool], with [sg] and [p] already capped by [z]. *)
Lemma max_pool_formula (a z sg p R : Q) :
  (0 <= a → 0 < z → 0 <= p → p <= sg → sg <= z → 0 <= R →
   let f4 := (z - sg) / z in
   let f3 := (sg - p * f4) / z in
   let f2 := sg + p * a * f3 in
   let f1 := R / (1 + a) in
   0 <= f1 * f2 /\ f1 * f2 <= R * sg)%Q.
Proof.
  intros Ha Hz Hp Hps Hsz HR f4 f3 f2 f1.
  assert (0 <= f4)%Q as H40 by (apply q_div_nonneg; [lra|done]).
  assert (f4 <= 1)%Q as H41 by (apply q_div_le; [done|lra]).
  assert (0 <= p * f4)%Q as Hpf by (by apply q_mul_nonneg).
  assert (p * f4 <= p * 1)%Q as Hpf1 by (by apply q_mul_le_l).
  assert (0 <= f3)%Q as H30 by (apply q_div_nonneg; [lra|done]).
  assert (f3 <= 1)%Q as H31 by (apply q_div_le; [done|lra]).
  assert (0 <= p * a)%Q as Hpa by (by apply q_mul_nonneg).
  assert (p * a * f3 <= p * a * 1)%Q as Hpa1 by (by apply q_mul_le_l).
  assert (p * a <= sg * a)%Q as Hpa2 by (by apply Qmult_le_compat_r).
  assert (0 <= p * a * f3)%Q as Hpa3 by (by apply q_mul_nonneg).
  assert (0 <= f2)%Q as H20 by (unfold f2; lra).
  assert (f2 <= sg * (1 + a))%Q as H21 by (unfold f2; lra).
  assert (0 <= f1)%Q as H10 by (apply q_div_nonneg; [done|lra]).
  split; [by apply q_mul_nonneg|].
  apply Qle_trans with (f1 * (sg * (1 + a)))%Q; [by apply q_mul_le_l|].
  unfold f1. apply Qle_lteq. right. field. lra.
Qed.

(** ** Pools *)

Definition rational_ok (r : Rational) : Prop := 0 ≤ numerator r.

Lemma max_pool_bound a0 n_opt pot total stake pledge :
  rational_ok a0 → 1 ≤ n_opt → 0 ≤ pot → 0 ≤ total → 0 ≤ pledge ≤ stake →
  (inject_Z (max_pool a0 n_opt pot total stake pledge) <= inject_Z pot * (inject_Z stake / inject_Z total))%Q.
Proof.
  intros Ha Hn Hpot Htotal Hstake. unfold max_pool.
  set (a := from_i128 (numerator a0) _). set (z := from_i128 1 n_opt).
  set (s := from_i128 stake total). set (pl := from_i128 pledge total).
  assert (rat_ok a ∧ rat_ok z ∧ rat_ok s ∧ rat_ok pl) as (Oa & Oz & Os & Op)
    by (repeat split; apply from_i128_ok).
  assert (0 <= ratq a)%Q as Qa by (unfold a; rewrite from_i128_q; apply Qdiv_nonneg; unfold rational_ok in Ha; lia).
  assert (0 < ratq z)%Q as Qz
    by (unfold z; rewrite from_i128_q; apply Qlt_shift_div_l; [apply inject_pos; lia|rewrite Qmult_0_l; done]).
  assert (0 <= ratq pl)%Q as Qp by (unfold pl; rewrite from_i128_q; apply Qdiv_nonneg; lia).
  assert (ratq pl <= ratq s)%Q as Qps.
  { unfold pl, s. rewrite !from_i128_q. destruct (decide (total = 0)) as [->|Ht]; [by rewrite !inject_0_div|].
    unfold Qdiv. apply Qmult_le_compat_r; [rewrite <- Zle_Qle; lia|].
    apply Qinv_le_0_compat, inject_nonneg. lia. }
  assert (rat_ok (min_rat s z) ∧ rat_ok (min_rat pl z)) as [Oms Omp] by (split; by apply min_rat_ok).
  destruct (min_rat_le s z Os Oz) as [Ms1 Ms2]. destruct (min_rat_le pl z Op Oz) as [Mp1 Mp2].
  assert (0 <= ratq (min_rat pl z))%Q by (apply min_rat_glb; [done|by apply Qlt_le_weak]).
  assert (ratq (min_rat pl z) <= ratq (min_rat s z))%Q
    by (apply min_rat_glb; [by apply Qle_trans with (ratq pl)|done]).
  destruct (max_pool_formula (ratq a) (ratq z) (ratq (min_rat s z)) (ratq (min_rat pl z)) (inject_Z pot))
    as [F0 F1]; [done..|by apply inject_nonneg|].
  match goal with |- (inject_Z (floor_u64 ?x) <= _)%Q => assert (ratq x ==
    inject_Z pot / (1 + ratq a) * (ratq (min_rat s z) + ratq (min_rat pl z) * ratq a *
      ((ratq (min_rat s z) - ratq (min_rat pl z) * ((ratq z - ratq (min_rat s z)) / ratq z)) / ratq z)))%Q as Hx end.
  { rewrite rat_mul_q by eauto with rat. rewrite rat_div_q by eauto with rat.
    rewrite !rat_add_q by eauto with rat. rewrite !rat_mul_q by eauto with rat.
    rewrite !rat_div_q by eauto with rat. rewrite rat_sub_q by eauto with rat.
    rewrite rat_mul_q by eauto with rat. rewrite rat_div_q by eauto with rat. rewrite rat_sub_q by eauto with rat.
    rewrite (from_i128_q pot 1), (from_i128_q 1 1).
    assert (inject_Z pot / inject_Z 1 == inject_Z pot)%Q as -> by (change (inject_Z 1) with 1%Q; field).
    assert (inject_Z 1 / inject_Z 1 == 1)%Q as -> by done. reflexivity. }
  eapply Qle_trans; [apply floor_u64_le; [eauto with rat|by rewrite Hx]|]. rewrite Hx.
  eapply Qle_trans; [exact F1|]. apply q_mul_le_l; [by apply inject_nonneg|].
  eapply Qle_trans; [exact Ms1|]. unfold s. rewrite from_i128_q. apply Qle_refl.
Qed.

(** The pool's part of the pot: its stake in the overlay phase, its blocks
    afterwards. *)
Definition pool_share (gate : bool) (stake total blocks total_blocks : Z) : Q :=
  if gate then (inject_Z stake / inject_Z total)%Q else (inject_Z blocks / inject_Z total_blocks)%Q.

Lemma pool_share_nonneg gate stake total blocks total_blocks :
  0 ≤ stake → 0 ≤ total → 0 ≤ blocks → 0 ≤ total_blocks →
  (0 <= pool_share gate stake total blocks total_blocks)%Q.
Proof. intros. unfold pool_share. destruct gate; by apply Qdiv_nonneg. Qed.

Lemma pool_reward_range gate mx stake blocks total_blocks active :
  u64 mx → u64 (pool_reward gate mx stake blocks total_blocks active).
Proof.
  intros Hmx. unfold pool_reward. repeat case_match; try done; [unfold u64, u64_max; lia..|].
  apply floor_u64_range.
Qed.

Lemma pool_reward_bound gate mx pot stake total blocks total_blocks active :
  0 ≤ mx → (inject_Z mx <= inject_Z pot * (inject_Z stake / inject_Z total))%Q →
  0 ≤ pot → 0 ≤ stake → 0 < total → 0 ≤ blocks → 0 < total_blocks → 0 ≤ active ≤ total →
  (inject_Z (pool_reward gate mx stake blocks total_blocks active) <=
   inject_Z pot * pool_share gate stake total blocks total_blocks)%Q.
Proof.
  intros Hmx Hmax Hpot Hstake Htotal Hblocks Htb Hact. unfold pool_reward, pool_share.
  assert (forall q, 0 <= q -> inject_Z 0 <= inject_Z pot * q)%Q as Hzero
    by (intros q Hq; apply q_mul_nonneg; [by apply inject_nonneg|done]).
  destruct (Z.eqb_spec stake 0) as [->|Hs]; [apply Hzero; destruct gate; apply Qdiv_nonneg; lia|].
  destruct gate; [done|].
  destruct (Z.eqb_spec blocks 0) as [->|Hb]; [apply Hzero, Qdiv_nonneg; lia|].
  set (b := inject_Z blocks). set (tb := inject_Z total_blocks). set (st := inject_Z stake).
  set (tt := inject_Z total). set (ac := inject_Z active).
  assert (0 < st /\ 0 < tt /\ 0 < tb)%Q as (Pst & Ptt & Ptb) by (repeat split; apply inject_pos; lia).
  assert (0 <= b / tb)%Q by (apply Qdiv_nonneg; lia).
  assert (0 <= ac / st)%Q by (apply Qdiv_nonneg; lia).
  match goal with |- (inject_Z (floor_u64 ?x) <= _)%Q =>
    assert (ratq x == b / tb * (ac / st) * inject_Z mx)%Q as Hx end.
  { rewrite !rat_mul_q by eauto with rat. rewrite !from_i128_q. fold b tb ac st.
    change (inject_Z 1) with 1%Q. field. split; by apply q_pos_nonzero. }
  eapply Qle_trans; [apply floor_u64_le; [eauto with rat|]; rewrite Hx|rewrite Hx].
  { apply q_mul_nonneg; [by apply q_mul_nonneg|by apply inject_nonneg]. }
  apply Qle_trans with (b / tb * (ac / st) * (inject_Z pot * (st / tt)))%Q.
  { apply q_mul_le_l; [by apply q_mul_nonneg|done]. }
  setoid_replace (b / tb * (ac / st) * (inject_Z pot * (st / tt)))%Q
    with (inject_Z pot * (b / tb) * (ac / tt))%Q using relation Qeq
    by (field; repeat split; by apply q_pos_nonzero).
  setoid_replace (inject_Z pot * (b / tb))%Q with (inject_Z pot * (b / tb) * 1)%Q using relation Qeq at 2 by ring.
  apply q_mul_le_l; [apply q_mul_nonneg; [by apply inject_nonneg|done]|]. by apply Qdiv_le_1.
Qed.

(** ** Operators and members *)

Definition msum_list (f : Z → Z) (ts : list Z) : Z := foldr (λ t acc, f t + acc) 0 ts.

Lemma msum_list_cons f t ts : msum_list f (t :: ts) = f t + msum_list f ts.
Proof. done. Qed.

Lemma msum_list_nonneg f ts : (∀ t, t ∈ ts → 0 ≤ f t) → 0 ≤ msum_list f ts.
Proof.
  induction ts as [|t ts IH]; intros Hf; [done|]. rewrite msum_list_cons.
  pose proof (Hf t ltac:(left)). assert (0 ≤ msum_list f ts); [|lia]. apply IH. intros. apply Hf. by right.
Qed.

Lemma inject_sum_le (f : Z → Z) (c : Q) ts :
  (∀ t, t ∈ ts → (inject_Z (f t) <= c * inject_Z t)%Q) →
  (inject_Z (msum_list f ts) <= c * inject_Z (msum_list id ts))%Q.
Proof.
  induction ts as [|t ts IH]; intros Hf; cbn [msum_list foldr]; [change (inject_Z 0) with 0%Q; lra|].
  rewrite !inject_Z_plus. fold (msum_list f ts) (msum_list id ts).
  specialize (Hf t ltac:(left)) as Ht. assert (forall t, t ∈ ts -> inject_Z (f t) <= c * inject_Z t)%Q as Hr
    by (intros; apply Hf; by right).
  specialize (IH Hr). unfold id at 1. lra.
Qed.

Lemma member_reward_bound i t :
  0 ≤ t → 0 < pri_pool_active_stake i → 0 ≤ pri_margin_num i ≤ pri_margin_den i → 0 < pri_margin_den i →
  pri_cost i < pri_pool_reward i →
  (inject_Z (member_reward i t) <=
   inject_Z (pri_pool_reward i - pri_cost i) *
     (1 - inject_Z (pri_margin_num i) / inject_Z (pri_margin_den i)) / inject_Z (pri_pool_active_stake i)
     * inject_Z t)%Q.
Proof.
  intros Ht Hst Hm Hmd Hcost. unfold member_reward.
  set (rem := pri_pool_reward i - pri_cost i). set (mn := pri_margin_num i) in *. set (md := pri_margin_den i) in *.
  set (st := pri_pool_active_stake i) in *.
  assert (0 < inject_Z md /\ 0 < inject_Z st)%Q as [Pmd Pst] by (split; by apply inject_pos).
  assert (0 <= 1 - inject_Z mn / inject_Z md)%Q as Hm1
    by (pose proof (Qdiv_le_1 mn md ltac:(lia)); lra).
  assert (0 <= inject_Z rem)%Q as Hrem by (apply inject_nonneg; unfold rem; lia).
  assert (0 <= inject_Z rem * (1 - inject_Z mn / inject_Z md) / inject_Z st * inject_Z t)%Q as Hpos.
  { apply q_mul_nonneg; [apply q_div_nonneg; [by apply q_mul_nonneg|done]|by apply inject_nonneg]. }
  destruct (_ || _); [exact Hpos|].
  match goal with |- (inject_Z (floor_u64 ?x) <= ?q)%Q => assert (ratq x == q)%Q as Hx end.
  { rewrite !rat_mul_q by eauto with rat. rewrite !from_i128_q. unfold Z.sub at 1.
    rewrite inject_Z_plus, inject_Z_opp. change (inject_Z 1) with 1%Q. field.
    split; by apply q_pos_nonzero. }
  rewrite <- Hx. apply floor_u64_le; [eauto with rat|by rewrite Hx].
Qed.

Lemma member_reward_nonneg i t : 0 ≤ member_reward i t.
Proof. unfold member_reward. destruct (_ || _); [lia|]. apply floor_u64_range. Qed.

Lemma operator_extra_bound rem mn md s st : 0 ≤ rem → 0 ≤ mn ≤ md → 0 < md → 0 ≤ s ≤ st → 0 < st →
  let x := floor_u64 (rat_mul (rat_add (from_i128 mn md)
             (rat_mul (from_i128 (md - mn) md) (from_i128 s st))) (from_i128 rem 1)) in
  0 ≤ x ∧
  (inject_Z x <= inject_Z rem * (inject_Z mn / inject_Z md + (1 - inject_Z mn / inject_Z md) *
                                                             (inject_Z s / inject_Z st)))%Q.
Proof.
  intros Hrem Hm Hmd Hs Hst x. split; [apply floor_u64_range|]. unfold x. clear x.
  assert (0 < inject_Z md /\ 0 < inject_Z st)%Q as [Pmd Pst] by (split; by apply inject_pos).
  assert (0 <= inject_Z mn / inject_Z md)%Q as Hm0 by (apply Qdiv_nonneg; lia).
  assert (inject_Z mn / inject_Z md <= 1)%Q as Hm1 by (apply Qdiv_le_1; lia).
  assert (0 <= inject_Z s / inject_Z st)%Q as Hs0 by (apply Qdiv_nonneg; lia).
  match goal with |- (inject_Z (floor_u64 ?x) <= ?q)%Q => assert (ratq x == q)%Q as Hx end.
  { rewrite rat_mul_q by eauto with rat. rewrite rat_add_q by eauto with rat.
    rewrite rat_mul_q by eauto with rat. rewrite !from_i128_q. unfold Z.sub.
    rewrite inject_Z_plus, inject_Z_opp. change (inject_Z 1) with 1%Q. field.
    split; by apply q_pos_nonzero. }
  rewrite <- Hx. apply floor_u64_le; [eauto with rat|rewrite Hx].
  assert (0 <= (1 - inject_Z mn / inject_Z md) * (inject_Z s / inject_Z st))%Q as Hp
    by (apply q_mul_nonneg; [lra|done]).
  apply q_mul_nonneg; [by apply inject_nonneg|lra].
Qed.

(** The operator and the members share the pool's reward. *)
Lemma pool_split_bound i s ts :
  u64 (pri_pool_reward i) → 0 ≤ pri_cost i → 0 ≤ pri_margin_num i ≤ pri_margin_den i → 0 < pri_margin_den i →
  0 ≤ s → (∀ t, t ∈ ts → 0 ≤ t) → s + msum_list id ts ≤ pri_pool_active_stake i → 0 < pri_pool_active_stake i →
  operator_reward (pri_pool_reward i) (pri_cost i) (pri_margin_num i) (pri_margin_den i) s
    (pri_pool_active_stake i) + msum_list (member_reward i) ts ≤ pri_pool_reward i ∧
  0 ≤ operator_reward (pri_pool_reward i) (pri_cost i) (pri_margin_num i) (pri_margin_den i) s
    (pri_pool_active_stake i).
Proof.
  intros Hr Hc Hm Hmd Hs Hts Hsum Hst. unfold operator_reward.
  assert (0 ≤ msum_list id ts) as Hts0.
  { by apply msum_list_nonneg. }
  destruct (Z.leb_spec (pri_pool_reward i) (pri_cost i)) as [Hle|Hlt].
  { assert (msum_list (member_reward i) ts = 0) as ->; [|split; [lia|apply Hr]].
    clear -Hle. induction ts as [|t ts IH]; [done|]. rewrite msum_list_cons, IH.
    unfold member_reward. rewrite (proj2 (Z.leb_le _ _) Hle), orb_true_r. done. }
  set (rem := pri_pool_reward i - pri_cost i).
  destruct (operator_extra_bound rem (pri_margin_num i) (pri_margin_den i) s (pri_pool_active_stake i))
    as [Hx0 Hx]; [unfold rem; lia|done|done|lia|done|].
  set (x := floor_u64 _) in *.
  pose proof (inject_sum_le (member_reward i) _ ts
    (λ t Ht, member_reward_bound i t (Hts t Ht) Hst Hm Hmd Hlt)) as Hmem.
  fold rem in Hmem. set (mem := msum_list (member_reward i) ts) in *.
  set (m := (inject_Z (pri_margin_num i) / inject_Z (pri_margin_den i))%Q) in *.
  set (st := inject_Z (pri_pool_active_stake i)) in *.
  assert (0 < st)%Q as Pst by (by apply inject_pos).
  assert (m <= 1)%Q as Hm1 by (apply Qdiv_le_1; lia).
  assert (0 <= inject_Z rem)%Q as Hrem by (apply inject_nonneg; unfold rem; lia).
  assert (inject_Z (x + mem) <= inject_Z rem)%Q as Htot.
  { rewrite inject_Z_plus.
    assert ((inject_Z s + inject_Z (msum_list id ts)) / st <= 1)%Q as Hfrac.
    { apply q_div_le; [done|]. rewrite <- inject_Z_plus, Qmult_1_l. unfold st. by rewrite <- Zle_Qle. }
    assert (inject_Z rem * (m + (1 - m) * ((inject_Z s + inject_Z (msum_list id ts)) / st)) <=
            inject_Z rem * 1)%Q as Hb.
    { apply q_mul_le_l; [done|].
      assert ((1 - m) * ((inject_Z s + inject_Z (msum_list id ts)) / st) <= (1 - m) * 1)%Q
        by (apply q_mul_le_l; [lra|done]). lra. }
    assert (inject_Z rem * (m + (1 - m) * ((inject_Z s + inject_Z (msum_list id ts)) / st)) ==
            inject_Z rem * (m + (1 - m) * (inject_Z s / st)) +
            inject_Z rem * (1 - m) / st * inject_Z (msum_list id ts))%Q as He
      by (field; by apply q_pos_nonzero).
    lra. }
  rewrite <- Zle_Qle in Htot.
  assert (0 ≤ mem).
  { apply msum_list_nonneg. intros. apply member_reward_nonneg. }
  unfold wrapping_add64. rewrite wrap64_small; [|split; [lia|]]; unfold rem in *; [lia|].
  destruct Hr. lia.
Qed.
