(* ===== verification/RewardDistribution.v ===== *)
(** * The member fold and the distribution of the pot

    Pulsing the fold in any chunks computes the map of the members' entries,
    one credential at a time ([member_map]); the rewards that a distribution
    delivers add up to at most the pot. *)

From Stdlib Require Import QArith Lqa.
From Stdlib Require Import QArith Lqa Qfield.
From S2P Require Import Prelude Order Block Ledger RewardRat RewardPulser Rewards RewardEpoch RewardBounds.
Local Open Scope Z_scope.


(** ** The fold *)

(** Every delegating credential with its entry. *)
Definition member_map (ctx : MemberFoldCtx) : gmap Hash32 (list RewardEntryTriple) :=
  map_imap (λ cred _, (λ e, [e]) <$> member_entry ctx cred) (ctx_delegations ctx).

(** Pulses of the given sizes. *)
Definition pulses (ctx : MemberFoldCtx) (f : RewardFold) (ns : list nat) : RewardFold :=
  foldl (λ f n, (fold_pulse n ctx f).2) f ns.

(** A fold over the queue [q] that has done its first credentials. *)
Definition fold_at (ctx : MemberFoldCtx) (q : list Hash32) (f : RewardFold) : Prop :=
  fold_queue f = q ∧ (fold_cursor f ≤ length q)%nat ∧
  fold_acc f = foldl (fold_one ctx) ∅ (take (fold_cursor f) q).

Definition fold_queue_of (delegations : gmap Hash32 Hash28) : list Hash32 :=
  merge_sort key_le (map_to_list delegations).*1.

Lemma fold_at_new ctx dels : fold_at ctx (fold_queue_of dels) (reward_fold_new dels).
Proof. unfold fold_at. cbn. repeat split. lia. Qed.

Lemma fold_at_pulse ctx q f n : fold_at ctx q f → fold_at ctx q (fold_pulse n ctx f).2.
Proof.
  intros (Hq & Hc & Ha). unfold fold_at, fold_pulse. cbn. rewrite Hq in *. split; [done|]. split; [lia|].
  rewrite Ha, <- foldl_app. f_equal. rewrite take_take_drop. f_equal. lia.
Qed.

Lemma fold_at_pulses ctx q ns f : fold_at ctx q f → fold_at ctx q (pulses ctx f ns).
Proof. revert f. induction ns as [|n ns IH]; intros f Hf; [done|]. cbn. by apply IH, fold_at_pulse. Qed.

Lemma fold_complete_at ctx q f : fold_at ctx q f →
  fold_into_entries (fold_complete ctx f) = Some (foldl (fold_one ctx) ∅ q).
Proof.
  intros Hf. pose proof Hf as (Hq & Hc & _).
  pose proof (fold_at_pulse ctx q f (length (fold_queue f) - fold_cursor f) Hf) as (Hq' & _ & Ha).
  unfold fold_into_entries, fold_complete, fold_is_done. rewrite Hq'.
  assert (fold_cursor (fold_pulse (length (fold_queue f) - fold_cursor f) ctx f).2 = length q) as Hcur
    by (cbn; rewrite Hq; lia).
  rewrite Hcur in *. rewrite bool_decide_true by lia. rewrite Ha. by rewrite take_ge.
Qed.

Lemma foldl_fold_one ctx l acc cred : NoDup l →
  foldl (fold_one ctx) acc l !! cred =
  if decide (cred ∈ l)
  then match member_entry ctx cred with Some e => Some (default [] (acc !! cred) ++ [e]) | None => acc !! cred end
  else acc !! cred.
Proof.
  revert acc. induction l as [|c l IH]; intros acc Hnd; [done|].
  apply NoDup_cons in Hnd as [Hc Hnd]. cbn [foldl]. rewrite IH by done.
  assert (fold_one ctx acc c !! cred =
    if decide (cred = c) then match member_entry ctx c with Some e => Some (default [] (acc !! c) ++ [e]) | None => acc !! c end
    else acc !! cred) as ->.
  { unfold fold_one, entry_push. destruct (decide (cred = c)) as [->|]; destruct (member_entry ctx c); [|done| |done].
    - by rewrite lookup_insert_eq.
    - by rewrite lookup_insert_ne. }
  destruct (decide (cred = c)) as [->|Hne].
  - rewrite decide_False by done. rewrite decide_True by (by left). done.
  - destruct (decide (cred ∈ l)) as [Hl|Hl].
    + by rewrite decide_True by (by right).
    + by rewrite decide_False by (rewrite elem_of_cons; tauto).
Qed.

Lemma fold_queue_NoDup dels : NoDup (fold_queue_of dels).
Proof.
  unfold fold_queue_of. rewrite merge_sort_Permutation. apply NoDup_fst_map_to_list.
Qed.

Lemma elem_of_fold_queue dels cred : cred ∈ fold_queue_of dels ↔ is_Some (dels !! cred).
Proof.
  unfold fold_queue_of. rewrite merge_sort_Permutation, list_elem_of_fmap. split.
  - intros ([c p] & -> & Hp%elem_of_map_to_list). by exists p.
  - intros [p Hp]. exists (cred, p). split; [done|]. by apply elem_of_map_to_list.
Qed.

Lemma fold_all_members ctx :
  foldl (fold_one ctx) ∅ (fold_queue_of (ctx_delegations ctx)) = member_map ctx.
Proof.
  apply map_eq. intros cred. rewrite foldl_fold_one by apply fold_queue_NoDup.
  unfold member_map. rewrite map_lookup_imap, lookup_empty. cbn.
  destruct (ctx_delegations ctx !! cred) as [p|] eqn:Hp; cbn.
  - rewrite decide_True by (rewrite elem_of_fold_queue, Hp; eauto). by destruct (member_entry ctx cred).
  - rewrite decide_False; [done|]. rewrite elem_of_fold_queue, Hp. by intros [].
Qed.

(** ** The total of all entries *)

Definition esum (es : list RewardEntryTriple) : Z := zsum es.*2.

Definition entries_total (m : gmap Hash32 (list RewardEntryTriple)) : Z := ksum (λ _ es, esum es) m.

Lemma esum_snoc es e : esum (es ++ [e]) = esum es + e.2.
Proof. unfold esum. rewrite fmap_app, zsum_app. change ([e].*2) with [e.2]. rewrite zsum_cons. change (zsum []) with 0. lia. Qed.

Lemma entry_push_total cred (e : RewardEntryTriple) m : entries_total (entry_push cred e m) = entries_total m + e.2.
Proof.
  unfold entry_push, entries_total.
  rewrite (ksum_delete _ (<[cred := default [] (m !! cred) ++ [e]]> m) cred (default [] (m !! cred) ++ [e]))
    by (by rewrite lookup_insert_eq).
  rewrite delete_insert_eq.
  rewrite esum_snoc. destruct (m !! cred) as [es|] eqn:He.
  - rewrite (ksum_delete _ m cred es He). change (default [] (Some es)) with es. lia.
  - rewrite delete_id by done. change (esum (default [] None)) with 0. lia.
Qed.

(** All amounts are non-negative. *)
Definition entries_nonneg (m : gmap Hash32 (list RewardEntryTriple)) : Prop :=
  ∀ cred es e, m !! cred = Some es → e ∈ es → 0 ≤ e.2.

Lemma entry_push_nonneg cred (e : RewardEntryTriple) m : 0 ≤ e.2 → entries_nonneg m → entries_nonneg (entry_push cred e m).
Proof.
  intros He Hm c es x. unfold entry_push. destruct (decide (c = cred)) as [->|Hc].
  - rewrite lookup_insert_eq. intros [= <-] [Hx|Hx%list_elem_of_singleton]%elem_of_app; [|by subst].
    destruct (m !! cred) as [es|] eqn:Hes; [exact (Hm cred es x Hes Hx)|by apply not_elem_of_nil in Hx].
  - rewrite lookup_insert_ne by done. apply Hm.
Qed.

(** What the leader of a pool gets. *)
Definition leader_amount (i : PoolRewardInfo) : Z :=
  match pri_leader i with Some (_, amount) => Z.max 0 amount | None => 0 end.

Lemma push_leaders_list l m :
  entries_nonneg m →
  let push := λ (entries : gmap Hash32 (list RewardEntryTriple)) info,
    match pri_leader info with
    | Some (op_key, amount) =>
        if false || (0 <? amount) then entry_push op_key (false, pri_pool_id info, amount) entries else entries
    | None => entries
    end in
  entries_nonneg (foldl push m l) ∧
  entries_total (foldl push m l) = entries_total m + zsum (leader_amount <$> l).
Proof.
  intros Hm push. revert m Hm. induction l as [|i l IH]; intros m Hm; [split; [done|cbn; lia]|].
  cbn [foldl fmap list_fmap]. rewrite zsum_cons.
  assert (entries_nonneg (push m i) ∧ entries_total (push m i) = entries_total m + leader_amount i) as [H1 H2].
  { unfold push, leader_amount. destruct (pri_leader i) as [[op a]|]; [|split; [done|lia]]. cbn.
    destruct (Z.ltb_spec 0 a); [|split; [done|lia]].
    split; [by apply entry_push_nonneg; [cbn; lia|]|]. rewrite entry_push_total. cbn. lia. }
  destruct (IH (push m i) H1) as [H3 H4]. split; [done|]. rewrite H4, H2. lia.
Qed.

Lemma push_leaders_total table m : entries_nonneg m →
  entries_nonneg (push_leaders false table m) ∧
  entries_total (push_leaders false table m) = entries_total m + ksum (λ _ i, leader_amount i) table.
Proof.
  intros Hm. destruct (push_leaders_list (map_values table) m Hm) as [H1 H2]. split; [done|].
  etransitivity; [exact H2|]. rewrite ksum_list. unfold map_values. by rewrite <- list_fmap_compose.
Qed.

Lemma delivered_bound aggregate es :
  (∀ e, e ∈ es → 0 ≤ e.2) → esum es ≤ u64_max → 0 ≤ delivered aggregate es ≤ esum es.
Proof.
  intros Hes Hle.
  assert (∀ x, x ∈ es.*2 → 0 ≤ x) as Hx by (intros x (e & -> & He)%list_elem_of_fmap; by apply Hes).
  unfold delivered. destruct aggregate.
  { unfold esum in *. rewrite wsum_small by done. pose proof (zsum_nonneg es.*2 Hx). lia. }
  pose proof (merge_sort_Permutation triple_le es) as Hp.
  destruct (merge_sort triple_le es) as [|e l]; [split; [done|by apply zsum_nonneg]|].
  assert (zsum (e :: l).*2 = esum es) as He by (apply zsum_perm; by rewrite Hp).
  rewrite fmap_cons, zsum_cons in He.
  assert (0 ≤ zsum l.*2).
  { apply zsum_nonneg. intros x (e' & -> & He')%list_elem_of_fmap. apply Hes. rewrite <- Hp. by right. }
  assert (0 ≤ e.2) by (apply Hes; rewrite <- Hp; left). lia.
Qed.

(** What is delivered is at most what was entered, and no sum wraps. *)
Lemma deliver_rewards_total pv m :
  entries_nonneg m → entries_total m ≤ u64_max →
  let rewards := deliver_rewards pv m in
  (∀ cred x, rewards !! cred = Some x → 0 < x) ∧
  0 ≤ ksum (λ _ x, x) rewards ≤ entries_total m ∧
  wsum (map_values rewards) = ksum (λ _ x, x) rewards.
Proof.
  intros Hm Hle rewards.
  assert (∀ cred es, m !! cred = Some es → 0 ≤ esum es) as Hes.
  { intros cred es He. apply zsum_nonneg. intros x (e & -> & Hx)%list_elem_of_fmap. by eapply Hm. }
  assert (∀ cred es, m !! cred = Some es → 0 ≤ delivered (2 <? pv) es ≤ esum es) as Hd.
  { intros cred es He. apply delivered_bound; [intros e Hx; by eapply Hm|].
    etransitivity; [|exact Hle]. unfold entries_total. by apply (ksum_elem_le (λ _ es, esum es)) with (k := cred). }
  assert (∀ cred x, rewards !! cred = Some x → 0 < x) as Hpos.
  { intros cred x. unfold rewards, deliver_rewards. rewrite lookup_omap. destruct (m !! cred) as [es|]; [|done].
    cbn. destruct (Z.ltb_spec 0 (delivered (2 <? pv) es)); [|done]. by intros [= <-]. }
  assert (0 ≤ ksum (λ _ x, x) rewards) by (apply ksum_nonneg; intros k x Hk; apply Hpos in Hk; lia).
  assert (ksum (λ _ x, x) rewards ≤ entries_total m).
  { unfold rewards, deliver_rewards. rewrite ksum_omap. apply ksum_le. intros cred es He.
    specialize (Hd cred es He). destruct (0 <? delivered (2 <? pv) es); cbn; lia. }
  split; [done|]. split; [lia|]. apply wsum_values; [intros k x Hk; apply Hpos in Hk; lia|lia].
Qed.

(** * A distribution stays within the pot

    [snapshot_ok]: the snapshot's pools hold at least the stake of their
    delegators and list their owners once, as the ledger's certificates and the
    snapshot rotation make them. [inputs_ok]: the pot, the stake and the blocks
    of the epoch are consistent. Under both, whatever has been pulsed before,
    the rewards that are delivered add up to at most the pot. *)


Definition stake_of (go : StakeSnapshot) (cred : Hash32) : Z := default 0 (snap_stake_distribution go !! cred).

(** The stake of the delegators of a pool that satisfy [P]. *)
Definition delegated_where (go : StakeSnapshot) (pool : Hash28) (P : Hash32 → bool) : Z :=
  ksum (λ c p, if decide (p = pool) then if P c then stake_of go c else 0 else 0) (snap_delegations go).

Record pool_ok (reg : PoolRegistration) : Prop := {
  po_owners : NoDup (pool_owners reg);
  po_pledge : 0 ≤ pool_pledge reg;
  po_cost : 0 ≤ pool_cost reg;
  po_margin : 0 ≤ pool_margin_numerator reg ≤ Z.max (pool_margin_denominator reg) 1;
}.

Record snapshot_ok (go : StakeSnapshot) : Prop := {
  so_stake : nonneg_map (snap_stake_distribution go);
  so_pool_stake p st : snap_pool_stake go !! p = Some st →
    delegated_where go p (λ _, true) ≤ st ≤ u64_max;
  so_pools p reg : snap_pool_params go !! p = Some reg → pool_ok reg;
}.

Record inputs_ok (go : StakeSnapshot) (ti : TableInputs) : Prop := {
  io_a0 : rational_ok (ti_a0 ti);
  io_n_opt : 1 ≤ ti_n_opt ti;
  io_pot : u64 (ti_reward_pot ti);
  io_total : 0 < ti_total_stake ti;
  io_active : 0 ≤ ti_total_active_stake ti ≤ ti_total_stake ti;
  io_pools : ksum (λ _ x, x) (snap_pool_stake go) ≤ ti_total_stake ti;
  io_blocks : nonneg_map (ti_bprev ti);
  io_total_blocks : 0 < ti_total_blocks ti ∧ ksum (λ _ x, x) (ti_bprev ti) ≤ ti_total_blocks ti;
}.

Section snapshot.
Context (go : StakeSnapshot) (Hgo : snapshot_ok go).

Lemma stake_of_nonneg c : 0 ≤ stake_of go c.
Proof. unfold stake_of. destruct (_ !! c) as [x|] eqn:Hx; [|done]. by apply (so_stake go Hgo c). Qed.

Lemma delegated_where_nonneg pool P : 0 ≤ delegated_where go pool P.
Proof.
  apply ksum_nonneg. intros c p _. pose proof (stake_of_nonneg c). repeat case_match; lia.
Qed.

Lemma delegated_where_split pool P :
  delegated_where go pool (λ _, true) = delegated_where go pool P + delegated_where go pool (λ c, negb (P c)).
Proof.
  unfold delegated_where. rewrite <- ksum_plus. apply ksum_ext. intros c p _.
  case_decide; [|done]. destruct (P c); cbn; lia.
Qed.

Lemma pool_stake_nonneg p st : snap_pool_stake go !! p = Some st → 0 ≤ st.
Proof. intros Hp. pose proof (so_pool_stake go Hgo p st Hp). pose proof (delegated_where_nonneg p (λ _, true)). lia. Qed.

Definition is_owner (os : list Hash28) (c : Hash32) : bool := bool_decide (c ∈ to_hash32_padded <$> os).

#[local] Instance padded_inj : Inj (=) (=) to_hash32_padded.
Proof. intros x y Hxy. unfold to_hash32_padded in Hxy. by apply app_inj_2 in Hxy as [? _]. Qed.

(** Owners that are listed once count once. *)
Lemma owner_stake_acc pool os acc :
  NoDup os → 0 ≤ acc → acc + delegated_where go pool (is_owner os) ≤ u64_max →
  foldl (λ owner_stake owner,
    let owner_key := to_hash32_padded owner in
    if bool_decide (snap_delegations go !! owner_key = Some pool)
    then wrapping_add64 owner_stake (default 0 (snap_stake_distribution go !! owner_key))
    else owner_stake) acc os = acc + delegated_where go pool (is_owner os).
Proof.
  revert acc. induction os as [|o os IH]; intros acc Hnd Hacc Hle.
  { cbn. unfold delegated_where. rewrite (ksum_ext _ (λ _ _, 0)); [rewrite ksum_zero; lia|].
    intros c p _. by case_decide. }
  apply NoDup_cons in Hnd as [Ho Hnd].
  assert (delegated_where go pool (is_owner (o :: os)) =
    (if bool_decide (snap_delegations go !! to_hash32_padded o = Some pool) then stake_of go (to_hash32_padded o) else 0)
    + delegated_where go pool (is_owner os)) as Hsplit.
  { transitivity (ksum (λ c p, (if decide (c = to_hash32_padded o) then if decide (p = pool) then stake_of go c else 0 else 0)
        + (if decide (p = pool) then if is_owner os c then stake_of go c else 0 else 0)) (snap_delegations go)).
    - apply ksum_ext. intros c p _. unfold is_owner. rewrite fmap_cons.
      destruct (decide (c = to_hash32_padded o)) as [->|Hc].
      + rewrite (bool_decide_true (_ ∈ _ :: _)) by (by left).
        rewrite bool_decide_false; [destruct (decide (p = pool)); lia|]. rewrite list_elem_of_fmap.
        intros (o' & Heq%(inj to_hash32_padded) & Ho'). by subst.
      + rewrite (bool_decide_ext (c ∈ _ :: _) (c ∈ to_hash32_padded <$> os)) by (rewrite elem_of_cons; tauto). lia.
    - rewrite ksum_plus. unfold delegated_where. f_equal.
      rewrite (ksum_single (λ c p, if decide (p = pool) then stake_of go c else 0)).
      destruct (_ !! to_hash32_padded o) as [p|]; [|by rewrite bool_decide_false].
      destruct (decide (p = pool)) as [->|]; [by rewrite bool_decide_true|by rewrite bool_decide_false by congruence]. }
  rewrite Hsplit in *. cbn [foldl]. pose proof (delegated_where_nonneg pool (is_owner os)).
  pose proof (stake_of_nonneg (to_hash32_padded o)) as Hst. unfold stake_of in *. cbv zeta.
  destruct (bool_decide _); [|rewrite IH; [lia|done|lia|lia]].
  unfold wrapping_add64 at 2. rewrite wrap64_small by (unfold u64; lia). rewrite IH; [lia|done|lia|lia].
Qed.

Lemma owner_stake_spec pool reg st :
  snap_pool_params go !! pool = Some reg → snap_pool_stake go !! pool = Some st →
  owner_stake go pool reg = delegated_where go pool (is_owner (pool_owners reg)).
Proof.
  intros Hreg Hst. unfold owner_stake. rewrite owner_stake_acc; [lia|by apply (so_pools go Hgo pool)|lia|].
  pose proof (so_pool_stake go Hgo pool st Hst). rewrite (delegated_where_split pool (is_owner (pool_owners reg))) in *.
  pose proof (delegated_where_nonneg pool (λ c, negb (is_owner (pool_owners reg) c))). lia.
Qed.

(** What the table says of a pool. *)
Lemma table_lookup ti p i : build_pool_reward_table go ti !! p = Some i →
  ∃ st reg, snap_pool_stake go !! p = Some st ∧ snap_pool_params go !! p = Some reg ∧
    pool_pledge reg ≤ owner_stake go p reg ∧
    let r := pool_reward (ti_gate ti)
      (max_pool (ti_a0 ti) (ti_n_opt ti) (ti_reward_pot ti) (ti_total_stake ti) st (pool_pledge reg))
      st (default 0 (ti_bprev ti !! p)) (ti_total_blocks ti) (ti_total_active_stake ti) in
    r ≠ 0 ∧ pri_pool_reward i = r ∧ pri_pool_active_stake i = st ∧ pri_cost i = pool_cost reg ∧
    pri_margin_num i = pool_margin_numerator reg ∧ pri_margin_den i = Z.max (pool_margin_denominator reg) 1 ∧
    pri_owner_set i = list_to_set (to_hash32_padded <$> pool_owners reg) ∧
    (pri_leader i = None ∨ ∃ k, pri_leader i = Some (k,
       operator_reward r (pool_cost reg) (pool_margin_numerator reg) (Z.max (pool_margin_denominator reg) 1)
         (owner_stake go p reg) st)).
Proof.
  unfold build_pool_reward_table. rewrite map_lookup_imap.
  destruct (snap_pool_stake go !! p) as [st|] eqn:Hst; [|done]. cbn. unfold pool_info.
  destruct (_ =? 0); [done|]. destruct (snap_pool_params go !! p) as [reg|] eqn:Hreg; [|done].
  destruct (Z.ltb_spec (owner_stake go p reg) (pool_pledge reg)); [done|].
  destruct (Z.eqb_spec (pool_reward (ti_gate ti) (max_pool (ti_a0 ti) (ti_n_opt ti) (ti_reward_pot ti)
    (ti_total_stake ti) st (pool_pledge reg)) st (default 0 (ti_bprev ti !! p)) (ti_total_blocks ti)
    (ti_total_active_stake ti)) 0) as [|Hr]; [done|].
  intros [= <-]. exists st, reg. cbn. repeat split; try done.
  destruct (_ || _); [right; eauto|by left].
Qed.

(** ** One pool *)

Lemma pool_stake_positive ti p i st : build_pool_reward_table go ti !! p = Some i →
  snap_pool_stake go !! p = Some st → 0 < st.
Proof.
  intros Hi Hst. destruct (table_lookup ti p i Hi) as (st' & reg & Hst' & _ & _ & Hr & _).
  rewrite Hst in Hst'. injection Hst' as <-. pose proof (pool_stake_nonneg p st Hst).
  destruct (decide (st = 0)) as [->|]; [|lia]. done.
Qed.

Section inputs.
Context (ti : TableInputs) (Hti : inputs_ok go ti).

Lemma table_reward_range p i : build_pool_reward_table go ti !! p = Some i → u64 (pri_pool_reward i).
Proof.
  intros Hi. destruct (table_lookup ti p i Hi) as (st & reg & _ & _ & _ & _ & -> & _).
  apply pool_reward_range, floor_u64_range.
Qed.

(** The weight of a pool in the division of the pot. *)
Definition weight (p : Hash28) : Z :=
  if ti_gate ti then default 0 (snap_pool_stake go !! p) else default 0 (ti_bprev ti !! p).
Definition total_weight : Z := if ti_gate ti then ti_total_stake ti else ti_total_blocks ti.

Lemma total_weight_pos : 0 < total_weight.
Proof. unfold total_weight. destruct (ti_gate ti); apply Hti. Qed.

Lemma blocks_nonneg p : 0 ≤ default 0 (ti_bprev ti !! p).
Proof. destruct (_ !! p) eqn:Hp; [|done]. by apply (io_blocks go ti Hti p). Qed.

Lemma table_reward_bound p i : build_pool_reward_table go ti !! p = Some i →
  (inject_Z (pri_pool_reward i) <=
   inject_Z (ti_reward_pot ti) / inject_Z total_weight * inject_Z (weight p))%Q.
Proof.
  intros Hi. destruct (table_lookup ti p i Hi) as (st & reg & Hst & Hreg & Hpl & _ & -> & _).
  pose proof (so_pools go Hgo p reg Hreg) as Hpool. pose proof (pool_stake_nonneg p st Hst) as Hst0.
  pose proof total_weight_pos. destruct (io_pot go ti Hti) as [Hpot0 _]. pose proof (io_total go ti Hti).
  pose proof (io_total_blocks go ti Hti) as [Htb _]. pose proof (blocks_nonneg p).
  eapply Qle_trans.
  - apply pool_reward_bound with (pot := ti_reward_pot ti) (total := ti_total_stake ti);
      [apply floor_u64_range| |done|done|done|done|done|apply Hti].
    apply max_pool_bound; [apply Hti|apply Hti|done|lia|]. split; [apply Hpool|].
    rewrite (owner_stake_spec p reg st Hreg Hst) in Hpl.
    pose proof (so_pool_stake go Hgo p st Hst). rewrite (delegated_where_split p (is_owner (pool_owners reg))) in *.
    pose proof (delegated_where_nonneg p (λ c, negb (is_owner (pool_owners reg) c))). lia.
  - unfold pool_share, weight, total_weight. rewrite Hst. cbn [default].
    apply Qle_lteq. right. destruct (ti_gate ti); cbn; unfold id; field;
      apply inject_nonzero; lia.
Qed.

Lemma table_total_bound :
  ksum (λ _ i, pri_pool_reward i) (build_pool_reward_table go ti) ≤ ti_reward_pot ti.
Proof.
  pose proof total_weight_pos as Hw. destruct (io_pot go ti Hti) as [Hpot0 _].
  pose proof (ksum_inject_le (λ _ i, pri_pool_reward i) (λ p _, weight p) (build_pool_reward_table go ti)
    _ (λ p i Hi, table_reward_bound p i Hi)) as Hsum.
  assert (ksum (λ p _, weight p) (build_pool_reward_table go ti) ≤ total_weight) as Hle.
  { unfold weight, total_weight. destruct (ti_gate ti).
    - etransitivity; [apply ksum_sub_le; exact pool_stake_nonneg|apply Hti].
    - etransitivity; [apply ksum_sub_le; apply Hti|apply Hti]. }
  assert (0 ≤ ksum (λ p _, weight p) (build_pool_reward_table go ti)) as Hnn.
  { apply ksum_nonneg. intros p _ _. unfold weight. destruct (ti_gate ti); [|apply blocks_nonneg].
    destruct (_ !! p) eqn:Hp; [|done]. by apply (pool_stake_nonneg p). }
  rewrite Zle_Qle. eapply Qle_trans; [exact Hsum|].
  setoid_replace (inject_Z (ti_reward_pot ti) / inject_Z total_weight *
      inject_Z (ksum (λ p _, weight p) (build_pool_reward_table go ti)))%Q
    with (inject_Z (ti_reward_pot ti) * (inject_Z (ksum (λ p _, weight p) (build_pool_reward_table go ti)) /
      inject_Z total_weight))%Q using relation Qeq by (field; apply inject_nonzero; lia).
  rewrite <- (Qmult_1_r (inject_Z (ti_reward_pot ti))) at 2.
  apply q_mul_le_l; [by apply inject_nonneg|]. apply Qdiv_le_1. lia.
Qed.

(** The context in which the members of the snapshot are folded. *)
Definition snapshot_ctx : MemberFoldCtx :=
  mkFoldCtx (build_pool_reward_table go ti) (snap_delegations go) (snap_stake_distribution go)
    (ti_pv_major ti) (ti_registered ti).

(** The amount that a delegator of the pool gets. *)
Definition member_amount (c : Hash32) (i : PoolRewardInfo) : Z :=
  if bool_decide (c ∈ pri_owner_set i) then 0
  else if (ti_pv_major ti <=? 6) && negb (ti_registered ti c) then 0
  else member_reward i (stake_of go c).

Lemma member_map_total : entries_total (member_map snapshot_ctx) =
  ksum (λ c p, match build_pool_reward_table go ti !! p with Some i => member_amount c i | None => 0 end)
    (snap_delegations go).
Proof.
  unfold entries_total, member_map. rewrite ksum_imap. apply ksum_ext. intros c p Hc.
  unfold member_entry. cbn [snapshot_ctx ctx_delegations ctx_table ctx_stake ctx_pv_major ctx_registered].
  rewrite Hc. destruct (build_pool_reward_table go ti !! p) as [i|]; [|done]. unfold member_amount.
  destruct (bool_decide _); [done|]. destruct (_ && _); [done|].
  fold (stake_of go c). pose proof (member_reward_nonneg i (stake_of go c)).
  destruct (Z.ltb_spec 0 (member_reward i (stake_of go c))); cbn [fmap option_fmap option_map]; [|lia].
  change (member_reward i (stake_of go c) + 0 = member_reward i (stake_of go c)). lia.
Qed.

Lemma member_map_nonneg : entries_nonneg (member_map snapshot_ctx).
Proof.
  intros c es e. unfold member_map. rewrite map_lookup_imap.
  destruct (_ !! c) as [p|]; [|done]. cbn. destruct (member_entry snapshot_ctx c) as [x|] eqn:Hx; [|done].
  intros [= <-] He%list_elem_of_singleton. subst. revert Hx. unfold member_entry.
  destruct (_ !! c) as [p'|]; [|done]. destruct (_ !! p') as [i|]; [|done].
  destruct (bool_decide _); [done|]. destruct (_ && _); [done|]. cbv zeta.
  destruct (Z.ltb_spec 0 (member_reward i (default 0 (ctx_stake snapshot_ctx !! c)))) as [Hlt|]; [|done].
  intros [= <-]. by apply Z.lt_le_incl.
Qed.

(** The leader and the members of a pool get at most what the pool earned. *)
Lemma pool_within p i : build_pool_reward_table go ti !! p = Some i →
  leader_amount i + ksum (λ c p', if decide (p' = p) then member_amount c i else 0) (snap_delegations go)
  ≤ pri_pool_reward i.
Proof.
  intros Hi. pose proof (table_reward_range p i Hi) as Hrange.
  destruct (table_lookup ti p i Hi) as (st & reg & Hst & Hreg & _ & Hr & Hpr & Hpas & Hcost & Hmn & Hmd & Hos & Hl).
  pose proof (so_pools go Hgo p reg Hreg) as Hpool. pose proof (pool_stake_positive ti p i st Hi Hst) as Hpos.
  set (ts := (λ kv : Hash32 * Hash28, if decide (kv.2 = p) then
               if negb (is_owner (pool_owners reg) kv.1) then stake_of go kv.1 else 0 else 0)
             <$> map_to_list (snap_delegations go)).
  assert (msum_list id ts = delegated_where go p (λ c, negb (is_owner (pool_owners reg) c))) as Hts.
  { unfold delegated_where. rewrite ksum_list. unfold ts, msum_list, zsum. by rewrite !foldr_fmap. }
  destruct (pool_split_bound i (delegated_where go p (is_owner (pool_owners reg))) ts) as [Hsplit Hop];
    [done|rewrite Hcost; apply Hpool|rewrite Hmn, Hmd; apply Hpool|rewrite Hmd; lia
    |by apply delegated_where_nonneg| |rewrite Hts, Hpas|by rewrite Hpas|].
  { intros t (kv & -> & _)%list_elem_of_fmap. pose proof (stake_of_nonneg kv.1). repeat case_match; lia. }
  { rewrite <- delegated_where_split. by apply (so_pool_stake go Hgo). }
  assert (leader_amount i ≤ operator_reward (pri_pool_reward i) (pri_cost i) (pri_margin_num i) (pri_margin_den i)
    (delegated_where go p (is_owner (pool_owners reg))) (pri_pool_active_stake i)).
  { unfold leader_amount. destruct Hl as [->|[k ->]]; [done|].
    rewrite Hpr, Hcost, Hmn, Hmd, Hpas in Hop |- *.
    rewrite (owner_stake_spec p reg st Hreg Hst). lia. }
  assert (ksum (λ c p', if decide (p' = p) then member_amount c i else 0) (snap_delegations go) ≤
          msum_list (member_reward i) ts); [|lia].
  transitivity (ksum (λ c p', member_reward i (if decide (p' = p) then
     if negb (is_owner (pool_owners reg) c) then stake_of go c else 0 else 0)) (snap_delegations go)).
  - apply ksum_le. intros c p' _. unfold member_amount. rewrite Hos.
    pose proof (member_reward_nonneg i (stake_of go c)). assert (member_reward i 0 = 0) as Hz by done.
    case_decide; [|lia]. unfold is_owner.
    rewrite (bool_decide_ext (c ∈ list_to_set _) (c ∈ to_hash32_padded <$> pool_owners reg)) by set_solver.
    destruct (bool_decide (c ∈ _ <$> _)); cbn [negb]; [lia|]. destruct (_ && _); lia.
  - rewrite ksum_list. unfold ts, msum_list, zsum. by rewrite !foldr_fmap.
Qed.

(** The leaders and the members of all pools. *)
Lemma distribution_within :
  entries_total (push_leaders false (build_pool_reward_table go ti) (member_map snapshot_ctx)) ≤ ti_reward_pot ti.
Proof.
  destruct (push_leaders_total (build_pool_reward_table go ti) _ member_map_nonneg) as [_ ->].
  rewrite member_map_total, (ksum_group (snap_delegations go) _ (λ c _ i, member_amount c i)).
  rewrite Z.add_comm, <- ksum_plus. etransitivity; [|apply table_total_bound].
  apply ksum_le. intros p i Hi. by apply pool_within.
Qed.

(** The distribution returns, pays positive amounts, and pays within the pot. *)
Lemma distribute_spec prepulsed :
  (∀ f, prepulsed = Some f → fold_at snapshot_ctx (fold_queue_of (snap_delegations go)) f) →
  let entries := push_leaders false (build_pool_reward_table go ti) (member_map snapshot_ctx) in
  let rewards := deliver_rewards (ti_pv_major ti) entries in
  (∃ raw, distribute go ti prepulsed = Some (rewards, ksum (λ _ x, x) rewards, raw)) ∧
  (∀ c x, rewards !! c = Some x → 0 < x) ∧ 0 ≤ ksum (λ _ x, x) rewards ≤ ti_reward_pot ti.
Proof.
  intros Hf entries rewards.
  destruct (push_leaders_total (build_pool_reward_table go ti) _ member_map_nonneg) as [Hnn _].
  pose proof distribution_within as Hw. destruct (io_pot go ti Hti) as [_ Hmax].
  destruct (deliver_rewards_total (ti_pv_major ti) entries Hnn) as (Hpos & Hle & Hws); [unfold entries; lia|].
  fold rewards in Hpos, Hle, Hws. split; [|split; [done|unfold entries in Hle; lia]].
  eexists. unfold distribute. fold snapshot_ctx.
  rewrite (fold_complete_at snapshot_ctx (fold_queue_of (snap_delegations go))).
  - cbn [mbind option_bind].
    change (fold_queue_of (snap_delegations go)) with (fold_queue_of (ctx_delegations snapshot_ctx)).
    rewrite fold_all_members. fold entries rewards. by rewrite Hws.
  - destruct prepulsed as [f|]; cbn; [by apply Hf|apply fold_at_new].
Qed.

End inputs.
End snapshot.
