(* ===== verification/RewardUpdate.v ===== *)
(** * The reward update and its application

    The monetary step that is frozen mid-epoch is the one that the boundary
    computes; an update takes from the reserves and the fees exactly what it
    gives to the treasury and the accounts; applying it does not panic and
    moves exactly these amounts. *)

From Stdlib Require Import QArith Lqa Qfield.
From S2P Require Import Prelude Order RecordUpdate EraHistory Block Ledger RewardRat RewardPulser Rewards RewardEpoch RewardBounds RewardDistribution.
Local Open Scope Z_scope.
Local Open Scope record_scope.


(** ** The monetary step *)

Definition unit_interval (r : Rational) : Prop := 0 ≤ numerator r ≤ Z.max (denominator r) 1.

Definition rational_pair (r : Rational) : Z * Z := (numerator r, denominator r).

Lemma scaled_floor num den x : 0 ≤ num ≤ Z.max den 1 → 0 ≤ x →
  0 ≤ floor_u64 (rat_mul (from_i128 num (Z.max den 1)) (from_i128 x 1)) ≤ x.
Proof.
  intros Hn Hx. split; [apply floor_u64_range|]. rewrite Zle_Qle.
  set (r := rat_mul _ _).
  assert (ratq r == inject_Z num / inject_Z (Z.max den 1) * inject_Z x)%Q as Hr.
  { unfold r. rewrite rat_mul_q by eauto with rat. rewrite !from_i128_q. change (inject_Z 1) with 1%Q. field.
    apply inject_nonzero. lia. }
  assert (0 <= inject_Z num / inject_Z (Z.max den 1))%Q by (apply Qdiv_nonneg; lia).
  eapply Qle_trans; [apply floor_u64_le; [apply rat_mul_ok|]|]; rewrite Hr.
  - apply q_mul_nonneg; [done|by apply inject_nonneg].
  - rewrite <- (Qmult_1_l (inject_Z x)) at 2. apply Qmult_le_compat_r; [|by apply inject_nonneg].
    apply Qdiv_le_1. lia.
Qed.

Lemma scaled_floor_fraction num den x eff expected : 0 ≤ num ≤ Z.max den 1 → 0 ≤ x → 0 ≤ eff ≤ expected →
  0 < expected →
  0 ≤ floor_u64 (rat_mul (rat_mul (from_i128 num (Z.max den 1)) (from_i128 x 1)) (from_i128 eff expected)) ≤ x.
Proof.
  intros Hn Hx He Hpos. split; [apply floor_u64_range|]. rewrite Zle_Qle.
  set (r := rat_mul _ _).
  assert (ratq r == (inject_Z num / inject_Z (Z.max den 1) * inject_Z x) * (inject_Z eff / inject_Z expected))%Q as Hr.
  { unfold r. rewrite !rat_mul_q by eauto with rat. rewrite !from_i128_q. change (inject_Z 1) with 1%Q. field.
    split; apply inject_nonzero; lia. }
  assert (0 <= inject_Z num / inject_Z (Z.max den 1))%Q by (apply Qdiv_nonneg; lia).
  assert (0 <= inject_Z num / inject_Z (Z.max den 1) * inject_Z x)%Q
    by (apply q_mul_nonneg; [done|by apply inject_nonneg]).
  eapply Qle_trans; [apply floor_u64_le; [apply rat_mul_ok|]|]; rewrite Hr.
  - apply q_mul_nonneg; [done|by apply Qdiv_nonneg; lia].
  - eapply Qle_trans; [apply q_mul_le_l; [done|by apply Qdiv_le_1]|]. rewrite Qmult_1_r.
    rewrite <- (Qmult_1_l (inject_Z x)) at 2. apply Qmult_le_compat_r; [|by apply inject_nonneg].
    apply Qdiv_le_1. lia.
Qed.

(** The pot is made of the expansion and the fees, and divided into the
    treasury's cut and the rest. *)
Lemma monetary_bounds rho tau d asc reserves fees blocks slots supply :
  unit_interval rho → unit_interval tau → 0 ≤ reserves → 0 ≤ fees → reserves + fees ≤ u64_max → 0 ≤ blocks →
  let m := start_step_monetary (rational_pair rho) (rational_pair tau) d asc reserves fees blocks slots supply in
  0 ≤ ms_delta_r1 m ≤ reserves ∧ 0 ≤ ms_delta_t1 m ∧ 0 ≤ ms_r m ∧
  ms_delta_t1 m + ms_r m = ms_delta_r1 m + fees.
Proof.
  intros Hrho Htau Hres Hfee Hsum Hbl m. unfold m, start_step_monetary. cbn [rational_pair fst snd].
  assert (∀ x, 0 ≤ x ≤ reserves →
    let t := floor_u64 (rat_mul (from_i128 (numerator tau) (Z.max (denominator tau) 1)) (from_i128 (wrapping_add64 x fees) 1)) in
    0 ≤ t ∧ 0 ≤ wrapping_sub64 (wrapping_add64 x fees) t ∧ t + wrapping_sub64 (wrapping_add64 x fees) t = x + fees) as Ht.
  { intros x Hx t. assert (wrapping_add64 x fees = x + fees) as Hw
      by (unfold wrapping_add64; apply wrap64_small; unfold u64; lia).
    pose proof (scaled_floor (numerator tau) (denominator tau) (x + fees) Htau ltac:(lia)) as Hs.
    unfold t. rewrite Hw in *. unfold wrapping_sub64. rewrite wrap64_small by (unfold u64; lia). lia. }
  destruct (d_ge_4_5 d); cbn [ms_delta_r1 ms_delta_t1 ms_r].
  - pose proof (scaled_floor (numerator rho) (denominator rho) reserves Hrho Hres) as Hx.
    specialize (Ht _ Hx). cbv zeta in Ht. lia.
  - pose proof (scaled_floor_fraction (numerator rho) (denominator rho) reserves
      (Z.min blocks (Z.max (expected_blocks_raw d asc slots) 1)) (Z.max (expected_blocks_raw d asc slots) 1)
      Hrho Hres ltac:(lia) ltac:(lia)) as Hx.
    specialize (Ht _ Hx). cbv zeta in Ht. lia.
Qed.

Section update.
Context `{RewardRest}.

(** The monetary step of the inputs of an update. *)
Definition update_monetary (pp : RewardParams) (prev_d : Rational) (bprev : gmap Hash28 Z)
    (ss_fee reserves epoch_length max_supply : Z) : MonetaryStep :=
  start_step_monetary (rational_pair (par_rho pp)) (rational_pair (par_tau pp)) (rational_pair prev_d)
    (par_active_slot_coeff pp) reserves ss_fee (wsum (map_values bprev)) epoch_length max_supply.

Lemma compute_with pp prev_d pv go bprev ss_fee reserves accounts addrs len max nm prepulsed r1 t1 r eb ts :
  r1 = reward_expansion pp prev_d bprev reserves len →
  t1 = floor_u64 (rat_mul (from_i128 (numerator (par_tau pp)) (Z.max (denominator (par_tau pp)) 1))
                          (from_i128 (wrapping_add64 r1 ss_fee) 1)) →
  r = wrapping_sub64 (wrapping_add64 r1 ss_fee) t1 →
  ts = saturating_sub64 max reserves →
  compute_reward_update pp prev_d pv go bprev ss_fee reserves accounts addrs len max nm
    (Some (mkMonetary r1 t1 r eb ts)) prepulsed =
  compute_reward_update pp prev_d pv go bprev ss_fee reserves accounts addrs len max nm None prepulsed.
Proof.
  intros H1 H2 H3 H4. unfold compute_reward_update. cbv beta iota zeta. cbn [default from_option].
  unfold id. cbn [ms_delta_r1 ms_delta_t1 ms_r ms_total_stake]. rewrite <- H1, <- H2, <- H3, <- H4. reflexivity.
Qed.

(** The step frozen mid-epoch is the one that the boundary would compute. *)
Lemma compute_frozen pp prev_d pv go bprev ss_fee reserves accounts addrs len max nm prepulsed :
  compute_reward_update pp prev_d pv go bprev ss_fee reserves accounts addrs len max nm
    (Some (update_monetary pp prev_d bprev ss_fee reserves len max)) prepulsed =
  compute_reward_update pp prev_d pv go bprev ss_fee reserves accounts addrs len max nm None prepulsed.
Proof.
  assert (update_monetary pp prev_d bprev ss_fee reserves len max =
    let m := update_monetary pp prev_d bprev ss_fee reserves len max in
    mkMonetary (ms_delta_r1 m) (ms_delta_t1 m) (ms_r m) (ms_expected_blocks m) (ms_total_stake m)) as ->
    by (by destruct (update_monetary pp prev_d bprev ss_fee reserves len max)).
  apply compute_with; unfold update_monetary, start_step_monetary, reward_expansion, rational_pair;
    cbn [fst snd]; destruct (d_ge_4_5 _); reflexivity.
Qed.

(** The inputs of the table at the boundary, with the given step and prefilter. *)
Definition table_inputs (pp : RewardParams) (prev_d : Rational) (pv : Z) (go : StakeSnapshot)
    (bprev : gmap Hash28 Z) (m : MonetaryStep) (registered : Hash32 → bool) : TableInputs :=
  mkTableInputs bprev (par_a0 pp) (Z.max (par_n_opt pp) 1) (ms_r m) (ms_total_stake m) (total_active_stake go)
    (Z.max (wsum (map_values bprev)) 1) (d_ge_4_5 (rational_pair prev_d)) pv registered.

(** What an update is asked to divide, and what it finds in the snapshot. *)
Record update_ok (pp : RewardParams) (go : option StakeSnapshot) (bprev : gmap Hash28 Z)
    (ss_fee reserves max_supply : Z) : Prop := {
  uo_rho : unit_interval (par_rho pp);
  uo_tau : unit_interval (par_tau pp);
  uo_a0 : rational_ok (par_a0 pp);
  uo_fee : 0 ≤ ss_fee;
  uo_reserves : 0 ≤ reserves;
  uo_pot : reserves + ss_fee ≤ u64_max;
  uo_blocks : nonneg_map bprev ∧ ksum (λ _ x, x) bprev ≤ u64_max;
  uo_go g : go = Some g → snapshot_ok g ∧ ksum (λ _ x, x) (snap_pool_stake g) ≤ max_supply - reserves ≤ u64_max;
}.

Lemma wsum_nonneg l : 0 ≤ wsum l.
Proof.
  unfold wsum. destruct l as [|x l] using rev_ind; [done|]. rewrite foldl_app. cbn.
  unfold wrapping_add64, wrap64. apply Z.mod_pos_bound. lia.
Qed.

(** The registration test of [compute_reward_update]. *)
Definition registered_at (accounts : gmap Hash32 Lovelace) (addrs : option (gset Hash32)) (cred : Hash32) : bool :=
  match addrs with
  | Some addrs => bool_decide (cred ∈ addrs)
  | None => bool_decide (is_Some (accounts !! cred))
  end.

Lemma table_inputs_ok pp prev_d pv go bprev ss_fee reserves len max registered :
  update_ok pp (Some go) bprev ss_fee reserves max → total_active_stake go ≠ 0 →
  let m := update_monetary pp prev_d bprev ss_fee reserves len max in
  inputs_ok go (table_inputs pp prev_d pv go bprev m registered).
Proof.
  intros Hok Hact m. destruct (uo_go _ _ _ _ _ _ Hok go eq_refl) as [Hgo Hsum].
  destruct (uo_blocks _ _ _ _ _ _ Hok) as [Hb1 Hb2].
  destruct (monetary_bounds (par_rho pp) (par_tau pp) (rational_pair prev_d) (par_active_slot_coeff pp) reserves
    ss_fee (wsum (map_values bprev)) len max) as (Hr1 & Ht1 & Hr & Heq); [apply Hok..|apply wsum_nonneg|].
  fold (update_monetary pp prev_d bprev ss_fee reserves len max) m in Hr1, Ht1, Hr, Heq.
  assert (ms_total_stake m = max - reserves) as Hts.
  { unfold m, update_monetary, start_step_monetary. destruct (d_ge_4_5 _); cbn; unfold saturating_sub64.
    all: assert (0 ≤ ksum (λ _ x, x) (snap_pool_stake go)) by (apply ksum_nonneg; by apply pool_stake_nonneg); lia. }
  assert (total_active_stake go = ksum (λ _ x, x) (snap_pool_stake go)) as Ha.
  { unfold total_active_stake. apply saturating_values; [intros p st; by apply pool_stake_nonneg|lia]. }
  assert (0 ≤ ksum (λ _ x, x) (snap_pool_stake go)) by (apply ksum_nonneg; by apply pool_stake_nonneg).
  pose proof (uo_pot _ _ _ _ _ _ Hok).
  constructor; cbn; try done; try lia; [apply Hok|unfold u64; lia|].
  rewrite wsum_values by done. lia.
Qed.
(** ** The update balances *)

(** What an update moves: [delta_treasury] and the rewards, out of the reserves
    and the fees. *)
Definition update_balances (rupd : PendingRewardUpdate) (ss_fee reserves : Z) : Prop :=
  let paid := ksum (λ _ x, x) (rupd_rewards rupd) in
  (∀ c x, rupd_rewards rupd !! c = Some x → 0 < x) ∧ 0 ≤ rupd_delta_treasury rupd ∧ 0 ≤ paid ∧
  rupd_delta_reserves rupd + ss_fee = rupd_delta_treasury rupd + paid ∧
  rupd_delta_reserves rupd ≤ reserves.

(** The fold in flight belongs to this snapshot and this step. *)
Definition prepulsed_ok (pp : RewardParams) (prev_d : Rational) (pv : Z) (go : option StakeSnapshot)
    (bprev : gmap Hash28 Z) (m : MonetaryStep) (registered : Hash32 → bool) (prepulsed : option RewardFold) : Prop :=
  ∀ g f, go = Some g → prepulsed = Some f →
    fold_at (snapshot_ctx g (table_inputs pp prev_d pv g bprev m registered)) (fold_queue_of (snap_delegations g)) f.

Lemma compute_balances pp prev_d pv go bprev ss_fee reserves accounts addrs len max nm prepulsed :
  update_ok pp go bprev ss_fee reserves max →
  let m := update_monetary pp prev_d bprev ss_fee reserves len max in
  prepulsed_ok pp prev_d pv go bprev m (registered_at accounts addrs) prepulsed →
  ∃ rupd, compute_reward_update pp prev_d pv go bprev ss_fee reserves accounts addrs len max nm (Some m) prepulsed
    = Some rupd ∧ update_balances rupd ss_fee reserves ∧ ksum (λ _ x, x) (rupd_rewards rupd) ≤ ms_r m.
Proof.
  intros Hok m Hpre.
  destruct (monetary_bounds (par_rho pp) (par_tau pp) (rational_pair prev_d) (par_active_slot_coeff pp) reserves
    ss_fee (wsum (map_values bprev)) len max) as (Hr1 & Ht1 & Hr & Heq); [apply Hok..|apply wsum_nonneg|].
  fold (update_monetary pp prev_d bprev ss_fee reserves len max) m in Hr1, Ht1, Hr, Heq.
  pose proof (uo_fee _ _ _ _ _ _ Hok) as Hfee. pose proof (uo_pot _ _ _ _ _ _ Hok) as Hpot.
  assert (∀ d n raw, d = ms_delta_t1 m - ss_fee →
    update_balances (mkRupd ∅ (ms_delta_t1 m) d n raw) ss_fee reserves ∧
    ksum (λ _ x, x) (rupd_rewards (mkRupd ∅ (ms_delta_t1 m) d n raw)) ≤ ms_r m) as Hempty.
  { intros d n raw ->. unfold update_balances. cbn. rewrite ksum_empty. repeat split; try done; lia. }
  unfold compute_reward_update. cbv beta iota zeta. cbn [default from_option]. unfold id.
  assert (wrapping_add64 (ms_delta_r1 m) ss_fee = ms_delta_r1 m + ss_fee) as ->
    by (unfold wrapping_add64; apply wrap64_small; unfold u64; lia).
  destruct (Z.eqb_spec (ms_delta_r1 m + ss_fee) 0) as [H0|H0].
  { eexists. split; [reflexivity|]. unfold update_balances. cbn. rewrite ksum_empty. repeat split; try done; lia. }
  destruct (ms_total_stake m =? 0); [eexists; split; [reflexivity|by apply Hempty]|].
  destruct go as [g|]; [|eexists; split; [reflexivity|by apply Hempty]].
  destruct (Z.eqb_spec (total_active_stake g) 0) as [|Hact]; [eexists; split; [reflexivity|by apply Hempty]|].
  destruct (uo_go _ _ _ _ _ _ Hok g eq_refl) as [Hgo _].
  pose proof (table_inputs_ok pp prev_d pv g bprev ss_fee reserves len max (registered_at accounts addrs) Hok Hact)
    as Hti. fold m in Hti.
  destruct (distribute_spec g Hgo _ Hti prepulsed) as ((raw & Hd) & Hpos & Hle); [intros f Hf; by apply Hpre|].
  set (rewards := deliver_rewards _ _) in Hd, Hpos, Hle. clearbody rewards.
  unfold table_inputs, rational_pair, registered_at in Hd. rewrite Hd. cbn [mbind option_bind].
  eexists. split; [reflexivity|]. unfold update_balances. cbn [rupd_rewards rupd_delta_treasury rupd_delta_reserves].
  change (ti_reward_pot _) with (ms_r m) in Hle.
  destruct Hle as [Hle0 Hle1]. split; [|done]. split; [exact Hpos|]. lia.
Qed.

(** ** Application *)

Lemma reserves_delta_ok reserves delta : 0 ≤ reserves → delta ≤ reserves → reserves - delta ≤ u64_max →
  delta ≤ u64_max → apply_reserves_delta reserves delta = Some (reserves - delta).
Proof.
  intros Hr Hd Hu Hd'. unfold apply_reserves_delta, checked_sub64, checked_add64.
  destruct (Z.leb_spec 0 delta).
  - rewrite wrap64_small by (unfold u64; lia). by rewrite (proj2 (Z.leb_le _ _)) by lia.
  - rewrite wrap64_small by (unfold u64; lia). rewrite (proj2 (Z.leb_le _ _)) by lia. done.
Qed.

(** Crediting rewards moves them to the accounts that exist and to the treasury. *)
Lemma credit_rewards_ok rs accounts treasury :
  nonneg_map accounts → 0 ≤ treasury → (∀ r, r ∈ rs → 0 < r.2) →
  ksum (λ _ x, x) accounts + treasury + zsum rs.*2 ≤ u64_max →
  ∃ accounts' treasury', credit_rewards (accounts, treasury) rs = Some (accounts', treasury') ∧
    nonneg_map accounts' ∧ treasury ≤ treasury' ∧
    ksum (λ _ x, x) accounts' + treasury' = ksum (λ _ x, x) accounts + treasury + zsum rs.*2 ∧
    (∀ c, is_Some (accounts' !! c) ↔ is_Some (accounts !! c)) ∧
    (∀ c b b', accounts !! c = Some b → accounts' !! c = Some b' → b ≤ b').
Proof.
  revert accounts treasury. induction rs as [|[c x] rs IH]; intros accounts treasury Ha Ht Hrs Hle.
  { exists accounts, treasury. repeat split; try done; [cbn; lia|]. intros c b b' Hb Hb'.
    rewrite Hb in Hb'. injection Hb' as <-. lia. }
  cbn [fmap list_fmap snd] in *. rewrite zsum_cons in *. pose proof (Hrs (c, x) ltac:(left)) as Hx. cbn in Hx.
  assert (∀ r, r ∈ rs → 0 < r.2) as Hrs' by (intros; apply Hrs; by right).
  assert (0 ≤ zsum rs.*2).
  { apply zsum_nonneg. intros y (r & -> & Hr)%list_elem_of_fmap. apply Hrs' in Hr. lia. }
  pose proof (ksum_nonneg (λ _ x, x) accounts Ha). cbn [credit_rewards].
  unfold credit_reward. rewrite (proj2 (Z.ltb_lt 0 x) Hx).
  destruct (accounts !! c) as [b|] eqn:Hb.
  - cbn [mbind option_bind]. pose proof (Ha c b Hb).
    pose proof (ksum_elem_le (λ _ x, x) accounts c b Ha Hb) as Hbs. cbv beta in Hbs.
    assert (saturating_add64 b x = b + x) as -> by (unfold saturating_add64; lia).
    assert (ksum (λ _ x, x) (<[c := b + x]> accounts) = ksum (λ _ x, x) accounts + x) as Hsum.
    { rewrite <- insert_delete_eq, ksum_insert by apply lookup_delete_eq. rewrite (ksum_delete _ _ c b Hb). lia. }
    destruct (IH (<[c := b + x]> accounts) treasury) as (a' & t' & Heq & Hn & Htr & Hs & Hd & Hg); [|done|done|lia|].
    { intros k y. rewrite lookup_insert_Some. intros [[_ <-]|[_ ?]]; [lia|by apply (Ha k)]. }
    exists a', t'. split; [done|]. split; [done|]. split; [done|]. split; [lia|]. split.
    + intros k. rewrite Hd. destruct (decide (c = k)) as [<-|]; [|by rewrite lookup_insert_ne].
      rewrite lookup_insert_eq, Hb. split; eauto.
    + intros k y y' Hy Hy'. destruct (decide (c = k)) as [<-|Hne].
      * rewrite Hb in Hy. injection Hy as <-.
        pose proof (Hg c (b + x) y' ltac:(by rewrite lookup_insert_eq) Hy'). lia.
      * apply (Hg k y y'); [by rewrite lookup_insert_ne|done].
  - unfold checked_add64. rewrite (proj2 (Z.leb_le _ _)) by lia. cbn [mbind option_bind].
    destruct (IH accounts (treasury + x)) as (a' & t' & Heq & Hn & Htr & Hs & Hd & Hg); [done|lia|done|lia|].
    exists a', t'. repeat split; try done; try lia; apply Hd.
Qed.

(** The pots of the ledger that rewards move coin between. *)
Definition pots (s : LedgerState) : Z :=
  reserves (epochs s) + treasury (epochs s) + ksum (λ _ x, x) (reward_accounts (certs s)) + epoch_fees (utxo s)
  + pending_donations (utxo s).

Record pots_ok (s : LedgerState) : Prop := {
  pk_reserves : 0 ≤ reserves (epochs s);
  pk_treasury : 0 ≤ treasury (epochs s);
  pk_accounts : nonneg_map (reward_accounts (certs s));
  pk_fees : 0 ≤ epoch_fees (utxo s);
  pk_donations : 0 ≤ pending_donations (utxo s);
  pk_total : pots s ≤ u64_max;
}.

(** The accounts of [s'] are those of [s], and hold at least as much. *)
Definition accounts_grow (s s' : LedgerState) : Prop :=
  (∀ c, is_Some (reward_accounts (certs s') !! c) ↔ is_Some (reward_accounts (certs s) !! c)) ∧
  (∀ c b b', reward_accounts (certs s) !! c = Some b → reward_accounts (certs s') !! c = Some b' → b ≤ b').

Lemma apply_rupd_ok rupd s ss_fee :
  pots_ok s → update_balances rupd ss_fee (reserves (epochs s)) → 0 ≤ ss_fee ≤ epoch_fees (utxo s) →
  ∃ s', apply_rupd rupd s = Some s' ∧ accounts_grow s s' ∧
    nonneg_map (reward_accounts (certs s')) ∧ 0 ≤ reserves (epochs s') ∧ treasury (epochs s) ≤ treasury (epochs s') ∧
    reserves (epochs s') = reserves (epochs s) - rupd_delta_reserves rupd ∧
    treasury (epochs s') + ksum (λ _ x, x) (reward_accounts (certs s')) =
      treasury (epochs s) + ksum (λ _ x, x) (reward_accounts (certs s)) + rupd_delta_reserves rupd + ss_fee ∧
    utxo s' = utxo s ∧ ls_config s' = ls_config s ∧
    ∃ r t a, s' = s <| epochs ::= λ e, e <| reserves := r |> <| treasury := t |> |>
                    <| certs ::= λ c, c <| reward_accounts := a |> |>.
Proof.
  intros Hp (Hpos & Ht & Hpaid & Hbal & Hres) Hfee. pose proof (pk_total s Hp) as Htot. unfold pots in Htot.
  pose proof (pk_reserves s Hp). pose proof (pk_treasury s Hp). pose proof (pk_fees s Hp). pose proof (pk_donations s Hp).
  pose proof (ksum_nonneg (λ _ x, x) _ (pk_accounts s Hp)).
  unfold apply_rupd. rewrite reserves_delta_ok by lia. cbn [mbind option_bind].
  unfold checked_add64. rewrite (proj2 (Z.leb_le _ _)) by lia. cbn [mbind option_bind].
  destruct (credit_rewards_ok (map_to_list (rupd_rewards rupd)) (reward_accounts (certs s))
    (treasury (epochs s) + rupd_delta_treasury rupd)) as (a' & t' & -> & Hn & Htr & Hs & Hd & Hg);
    [apply Hp|lia| | |].
  { intros [c x] Hc%elem_of_map_to_list. by apply (Hpos c). }
  { fold (map_values (rupd_rewards rupd)). rewrite zsum_values. lia. }
  fold (map_values (rupd_rewards rupd)) in Hs. rewrite zsum_values in Hs. cbn [mbind option_bind].
  eexists. split; [reflexivity|]. split; [by split|]. cbn. repeat split; try done; try lia. eauto.
Qed.

End update.

(** * Snapshots and MIR transfers

    The snapshot that a boundary takes gives every pool exactly the stake of its
    delegators, pointers included, so the snapshots that the rewards of later
    epochs read satisfy [snapshot_ok]. MIR transfers move coin between the
    reserves, the treasury and the accounts. *)


Section snapshots.
Context `{RewardRest}.

(** ** Adding to an entry *)

Lemma entry_add_sum `{Countable K} (k : K) x (m : gmap K Lovelace) :
  nonneg_map m → 0 ≤ x → ksum (λ _ y, y) m + x ≤ u64_max →
  nonneg_map (entry_add k x m) ∧ ksum (λ _ y, y) (entry_add k x m) = ksum (λ _ y, y) m + x ∧
  (∀ k', default 0 (entry_add k x m !! k') = default 0 (m !! k') + if decide (k' = k) then x else 0).
Proof.
  intros Hm Hx Hle. unfold entry_add.
  pose proof (ksum_nonneg (λ _ y, y) m Hm) as H0'.
  assert (0 ≤ default 0 (m !! k) ≤ ksum (λ _ y, y) m) as Hk.
  { destruct (m !! k) as [y|] eqn:Hy; cbn; [|lia]. split; [by apply (Hm k)|].
    by apply (ksum_elem_le (λ _ y, y) m k y Hm). }
  assert (saturating_add64 (default 0 (m !! k)) x = default 0 (m !! k) + x) as -> by (unfold saturating_add64; lia).
  split; [|split].
  - intros k' y. rewrite lookup_insert_Some. intros [[_ <-]|[_ ?]]; [lia|by apply (Hm k')].
  - rewrite <- insert_delete_eq, ksum_insert by apply lookup_delete_eq.
    destruct (m !! k) as [y|] eqn:Hy; cbn.
    + rewrite (ksum_delete _ m k y Hy). unfold id. lia.
    + rewrite delete_id by done. lia.
  - intros k'. destruct (decide (k' = k)) as [->|]; [by rewrite lookup_insert_eq|].
    rewrite lookup_insert_ne by congruence. lia.
Qed.

(** ** Stake of credentials and of pools *)

Section certs.
Context (c : CertSubState).
Hypothesis Hstake : nonneg_map (stake_map c).
Hypothesis Haccounts : nonneg_map (reward_accounts c).

Lemma cred_stake_nonneg cred : 0 ≤ cred_stake c cred.
Proof.
  unfold cred_stake, saturating_add64.
  assert (0 ≤ default 0 (stake_map c !! cred)) by (destruct (_ !! cred) eqn:E; [by apply (Hstake cred)|done]).
  assert (0 ≤ default 0 (reward_accounts c !! cred))
    by (destruct (reward_accounts c !! cred) eqn:E; [by apply (Haccounts cred)|done]).
  unfold u64_max. lia.
Qed.

Definition pool_part (p : Hash28) (l : list (Hash32 * Hash28)) : Z :=
  zsum ((λ kv, if decide (kv.2 = p) then cred_stake c kv.1 else 0) <$> l).

Lemma pool_stake_list l m :
  nonneg_map m → ksum (λ _ y, y) m + zsum ((λ kv, cred_stake c kv.1) <$> l) ≤ u64_max →
  let m' := foldl (λ m kv, entry_add kv.2 (cred_stake c kv.1) m) m l in
  nonneg_map m' ∧ ksum (λ _ y, y) m' = ksum (λ _ y, y) m + zsum ((λ kv, cred_stake c kv.1) <$> l) ∧
  (∀ p, default 0 (m' !! p) = default 0 (m !! p) + pool_part p l).
Proof.
  revert m. induction l as [|kv l IH]; intros m Hm Hle.
  { split; [done|]. split; [cbn; lia|]. intros p. cbn. lia. }
  cbn [fmap list_fmap] in *. rewrite zsum_cons in *. pose proof (cred_stake_nonneg kv.1).
  assert (0 ≤ zsum ((λ kv : Hash32 * Hash28, cred_stake c kv.1) <$> l)).
  { apply zsum_nonneg. intros x (kv' & -> & _)%list_elem_of_fmap. apply cred_stake_nonneg. }
  destruct (entry_add_sum kv.2 (cred_stake c kv.1) m) as (E1 & E2 & E3); [done|done|lia|].
  destruct (IH (entry_add kv.2 (cred_stake c kv.1) m)) as (G1 & G2 & G3); [done|lia|].
  cbn [foldl]. split; [done|]. split; [lia|]. intros p. rewrite G3, E3. unfold pool_part. rewrite fmap_cons, zsum_cons.
  destruct (decide (p = kv.2)), (decide (kv.2 = p)); try congruence; lia.
Qed.

(** The stakes of the credentials and of the pools agree. *)
Definition stakes_agree (M : gmap Hash32 Lovelace) (N : gmap Hash28 Lovelace) : Prop :=
  ∀ p, ksum (λ cred p', if decide (p' = p) then default 0 (M !! cred) else 0) (delegations c) = default 0 (N !! p).

Lemma delegated_agree :
  ksum (λ cred _, cred_stake c cred) (delegations c) ≤ u64_max →
  nonneg_map (delegated_stake c) ∧ nonneg_map (delegated_pool_stake c) ∧
  stakes_agree (delegated_stake c) (delegated_pool_stake c) ∧
  ksum (λ _ y, y) (delegated_pool_stake c) = ksum (λ cred _, cred_stake c cred) (delegations c).
Proof.
  intros Hle. rewrite ksum_list in Hle.
  destruct (pool_stake_list (map_to_list (delegations c)) ∅) as (E1 & E2 & E3);
    [by intros k x ?%lookup_empty_Some|rewrite ksum_empty; lia|].
  fold (delegated_pool_stake c) in E1, E2, E3.
  split; [|split; [done|split; [|rewrite E2, ksum_empty, ksum_list; lia]]].
  { intros k x. unfold delegated_stake. rewrite map_lookup_imap. destruct (delegations c !! k); [|done]. cbn.
    destruct (Z.ltb_spec 0 (cred_stake c k)); [|done]. intros [= <-]. lia. }
  intros p. rewrite E3, lookup_empty. change (default 0 None) with 0. rewrite Z.add_0_l. unfold pool_part.
  transitivity (ksum (λ cred p', if decide (p' = p) then cred_stake c cred else 0) (delegations c)); [|by rewrite ksum_list].
  apply ksum_ext. intros cred p' Hc. case_decide; [|done]. unfold delegated_stake. rewrite map_lookup_imap, Hc. cbn.
  pose proof (cred_stake_nonneg cred). destruct (Z.ltb_spec 0 (cred_stake c cred)); cbn; unfold id; lia.
Qed.

Lemma pointer_agree l M N :
  nonneg_map M → nonneg_map N → stakes_agree M N → (∀ kv : Pointer * Z, kv ∈ l → 0 ≤ kv.2) →
  ksum (λ _ y, y) N + zsum l.*2 ≤ u64_max → ksum (λ _ y, y) M + zsum l.*2 ≤ u64_max →
  let M' := foldl (λ m kv, if kv.2 =? 0 then m else
      match pointer_cred c kv.1 with
      | Some cred => if bool_decide (is_Some (delegations c !! cred)) then entry_add cred kv.2 m else m
      | None => m end) M l in
  let N' := foldl (λ m kv, if kv.2 =? 0 then m else
      match pointer_cred c kv.1 ≫= λ cred, delegations c !! cred with
      | Some pool_id => entry_add pool_id kv.2 m
      | None => m end) N l in
  nonneg_map M' ∧ nonneg_map N' ∧ stakes_agree M' N' ∧ ksum (λ _ y, y) N' ≤ ksum (λ _ y, y) N + zsum l.*2.
Proof.
  revert M N. induction l as [|kv l IH]; intros M N HM HN Hag Hl HleN HleM; [split_and!; try done; cbn; lia|].
  cbn [fmap list_fmap foldl] in *. rewrite zsum_cons in *. pose proof (Hl kv ltac:(left)) as Hkv.
  assert (∀ kv, kv ∈ l → 0 ≤ kv.2) as Hl' by (intros; apply Hl; by right).
  assert (0 ≤ zsum l.*2) by (apply zsum_nonneg; intros x (kv' & -> & ?)%list_elem_of_fmap; by apply Hl').
  destruct (Z.eqb_spec kv.2 0) as [Hz|Hz].
  { destruct (IH M N) as (G1 & G2 & G3 & G4); try done; [lia..|]. split_and!; try done. lia. }
  destruct (pointer_cred c kv.1) as [cred|]; cbn [mbind option_bind].
  2: { destruct (IH M N) as (G1 & G2 & G3 & G4); try done; [lia..|]. split_and!; try done. lia. }
  destruct (delegations c !! cred) as [p|] eqn:Hd.
  2: { rewrite bool_decide_false by (by intros []). destruct (IH M N) as (G1 & G2 & G3 & G4); try done; [lia..|].
       split_and!; try done. lia. }
  rewrite bool_decide_true by eauto.
  destruct (entry_add_sum cred kv.2 M) as (A1 & A2 & A3); [done|lia|lia|].
  destruct (entry_add_sum p kv.2 N) as (B1 & B2 & B3); [done|lia|lia|].
  destruct (IH (entry_add cred kv.2 M) (entry_add p kv.2 N)) as (G1 & G2 & G3 & G4); try done; [|lia|lia|].
  - intros q. rewrite B3, <- Hag.
    transitivity (ksum (λ cred0 p', (if decide (p' = q) then default 0 (M !! cred0) else 0) +
      (if decide (cred0 = cred) then if decide (p' = q) then kv.2 else 0 else 0)) (delegations c)).
    + apply ksum_ext. intros cred0 p' _. rewrite A3. repeat case_decide; lia.
    + rewrite ksum_plus, (ksum_single (λ _ p', if decide (p' = q) then kv.2 else 0)), Hd.
      destruct (decide (p = q)), (decide (q = p)); try congruence; lia.
  - split_and!; try done. lia.
Qed.

End certs.

(** ** The rotation *)

Record certs_ok (s : LedgerState) : Prop := {
  co_stake : nonneg_map (stake_map (certs s));
  co_accounts : nonneg_map (reward_accounts (certs s));
  co_ptrs : nonneg_map (ptr_stake (epochs s));
  co_total : ksum (λ cred _, cred_stake (certs s) cred) (delegations (certs s)) +
    ksum (λ _ x, x) (ptr_stake (epochs s)) ≤ u64_max;
  co_pools p reg : pool_params (certs s) !! p = Some reg → pool_ok reg;
}.

Definition snapshots_ok (s : LedgerState) : Prop :=
  ∀ g, es_mark (snapshots (epochs s)) = Some g ∨ es_set (snapshots (epochs s)) = Some g ∨
       es_go (snapshots (epochs s)) = Some g → snapshot_ok g.

(** The sums of the stakes per credential are below the sums per pool. *)
Lemma delegated_stake_total c : nonneg_map (stake_map c) → nonneg_map (reward_accounts c) →
  ksum (λ _ y, y) (delegated_stake c) ≤ ksum (λ cred _, cred_stake c cred) (delegations c).
Proof.
  intros Hs Ha. unfold delegated_stake. rewrite ksum_imap. apply ksum_le. intros cred p _.
  pose proof (cred_stake_nonneg c Hs Ha cred). destruct (Z.ltb_spec 0 (cred_stake c cred)); lia.
Qed.

(** The stake of the registered pointers to a credential. *)
Definition pointed_stake (c : CertSubState) (ptrs : gmap Pointer Z) (cred : Hash32) : Z :=
  ksum (λ ptr x, if decide (pointer_cred c ptr = Some cred) then x else 0) ptrs.

Lemma pointer_stake_list c l M cred p :
  delegations c !! cred = Some p → nonneg_map M → (∀ kv : Pointer * Z, kv ∈ l → 0 ≤ kv.2) →
  ksum (λ _ y, y) M + zsum l.*2 ≤ u64_max →
  let M' := foldl (λ m kv, if kv.2 =? 0 then m else
      match pointer_cred c kv.1 with
      | Some cred => if bool_decide (is_Some (delegations c !! cred)) then entry_add cred kv.2 m else m
      | None => m end) M l in
  default 0 (M' !! cred) =
    default 0 (M !! cred) + zsum ((λ kv, if decide (pointer_cred c kv.1 = Some cred) then kv.2 else 0) <$> l).
Proof.
  intros Hd. revert M. induction l as [|kv l IH]; intros M HM Hl Hle; [cbn; lia|].
  cbn [fmap list_fmap foldl] in *. rewrite zsum_cons in *. pose proof (Hl kv ltac:(left)) as Hkv.
  assert (∀ kv, kv ∈ l → 0 ≤ kv.2) as Hl' by (intros; apply Hl; by right).
  assert (0 ≤ zsum l.*2) by (apply zsum_nonneg; intros x (kv' & -> & ?)%list_elem_of_fmap; by apply Hl').
  cbv zeta. destruct (Z.eqb_spec kv.2 0) as [Hz|Hz].
  { rewrite IH by (done || lia). rewrite Hz. destruct (decide _); lia. }
  destruct (pointer_cred c kv.1) as [cr|]; [|rewrite decide_False by done; rewrite IH by (done || lia); lia].
  destruct (delegations c !! cr) as [q|] eqn:Hq.
  - rewrite bool_decide_true by eauto. destruct (entry_add_sum cr kv.2 M) as (A1 & A2 & A3); [done|lia|lia|].
    rewrite IH by (done || lia). rewrite A3. destruct (decide (cred = cr)), (decide (Some cr = Some cred)); try congruence; lia.
  - rewrite bool_decide_false by (by intros []). rewrite IH by (done || lia).
    rewrite decide_False by congruence. lia.
Qed.

(** What the new mark holds: per credential, per pool and in all. *)
Lemma mark_ok s (b : bool) : certs_ok s →
  let c := certs s in
  let ptrs := if b then ptr_stake (epochs s) else ∅ in
  let M := pointer_stake c ptrs (delegated_stake c) in
  let N := pointer_pool_stake c ptrs (delegated_pool_stake c) in
  nonneg_map M ∧ nonneg_map N ∧ stakes_agree c M N ∧
  ksum (λ _ y, y) N ≤ ksum (λ cred _, cred_stake c cred) (delegations c) + ksum (λ _ x, x) ptrs ∧
  (∀ cred p, delegations c !! cred = Some p → default 0 (M !! cred) = cred_stake c cred + pointed_stake c ptrs cred) ∧
  ksum (λ _ y, y) N ≤ u64_max.
Proof.
  intros [Hs Ha Hp Ht _] c ptrs M N.
  assert (nonneg_map ptrs ∧ ksum (λ _ x, x) ptrs ≤ ksum (λ _ x, x) (ptr_stake (epochs s))) as [Hptr Hle].
  { unfold ptrs. destruct b; [done|]. rewrite ksum_empty. split; [by intros k x ?%lookup_empty_Some|by apply ksum_nonneg]. }
  pose proof (ksum_nonneg (λ _ x, x) ptrs Hptr). pose proof (delegated_stake_total c Hs Ha).
  destruct (delegated_agree c Hs Ha) as (D1 & D2 & D3 & D4); [unfold c; lia|].
  pose proof (zsum_values ptrs) as Hsum. unfold map_values in Hsum.
  assert (∀ kv, kv ∈ map_to_list ptrs → 0 ≤ kv.2) as Hin.
  { intros [k x] Hk%elem_of_map_to_list. by apply (Hptr k). }
  destruct (pointer_agree c (map_to_list ptrs) (delegated_stake c) (delegated_pool_stake c) D1 D2 D3)
    as (G1 & G2 & G3 & G4); [done|unfold c in *; lia|unfold c in *; lia|].
  split; [exact G1|]. split; [exact G2|]. split; [exact G3|]. split; [etransitivity; [exact G4|]; unfold c in *; lia|].
  split; [|etransitivity; [exact G4|]; unfold c in *; lia].
  intros cred p Hd. unfold M, pointer_stake.
  rewrite (pointer_stake_list c (map_to_list ptrs) (delegated_stake c) cred p Hd D1 Hin) by (unfold c in *; lia).
  unfold pointed_stake. rewrite ksum_list. f_equal. unfold delegated_stake. rewrite map_lookup_imap, Hd. cbn.
  pose proof (cred_stake_nonneg c Hs Ha cred). destruct (Z.ltb_spec 0 (cred_stake c cred)); cbn; unfold id; lia.
Qed.

Lemma rotate_ok s b new_epoch : certs_ok s → snapshots_ok s → snapshots_ok (snap_rotate b new_epoch s).
Proof.
  intros Hc Hs g [Hg|[Hg|Hg]]; cbn in Hg; [|apply Hs; auto..].
  injection Hg as <-. destruct (mark_ok s b Hc) as (HM & HN & Hag & _ & _ & Hle).
  constructor; cbn [snap_stake_distribution snap_pool_stake snap_pool_params]; [exact HM| |apply Hc].
  intros p st Hst. split.
  - specialize (Hag p). rewrite Hst in Hag. apply Z.eq_le_incl. exact Hag.
  - etransitivity; [|exact Hle]. by apply (ksum_elem_le (λ _ y, y)) with (k := p).
Qed.

(** The new mark: what each credential has, the sum of it per pool, and no more. *)
Definition mark_exact (s : LedgerState) (ptrs : gmap Pointer Z) (mark : StakeSnapshot) : Prop :=
  let c := certs s in
  snap_delegations mark = delegations c ∧ snap_pool_params mark = pool_params c ∧
  (∀ cred p, delegations c !! cred = Some p → stake_of mark cred = cred_stake c cred + pointed_stake c ptrs cred) ∧
  (∀ p, default 0 (snap_pool_stake mark !! p) = delegated_where mark p (λ _, true)) ∧
  ksum (λ _ x, x) (snap_pool_stake mark) ≤
    ksum (λ cred _, cred_stake c cred) (delegations c) + ksum (λ _ x, x) ptrs.

Lemma rotate_exact s (b : bool) new_epoch : certs_ok s →
  let snaps := snapshots (epochs (snap_rotate b new_epoch s)) in
  es_set snaps = es_mark (snapshots (epochs s)) ∧ es_go snaps = es_set (snapshots (epochs s)) ∧
  ∃ mark, es_mark snaps = Some mark ∧ mark_exact s (if b then ptr_stake (epochs s) else ∅) mark.
Proof.
  intros Hc. destruct (mark_ok s b Hc) as (HM & HN & Hag & Htot & Hcred & _). split; [done|]. split; [done|].
  eexists. split; [reflexivity|]. unfold mark_exact, delegated_where, stake_of. cbn -[cred_stake pointed_stake].
  split_and!; [done|done|exact Hcred| |exact Htot]. intros p. symmetry. apply Hag.
Qed.

(** ** MIR transfers *)

Definition mir_registered (accounts : gmap Hash32 Lovelace) (m : gmap Hash32 Z) : gmap Hash32 Z :=
  filter (λ kv : Hash32 * Z, is_Some (accounts !! kv.1)) m.

Lemma combined_lookup (a b : gmap Hash32 Z) k :
  default 0 (union_with (λ x y, Some (x + y)) a b !! k) = default 0 (a !! k) + default 0 (b !! k).
Proof. rewrite lookup_union_with. destruct (a !! k), (b !! k); cbn; unfold id; lia. Qed.

Lemma mir_sum (accounts : gmap Hash32 Lovelace) (m : gmap Hash32 Z) :
  ksum (λ c _, default 0 (mir_registered accounts m !! c)) accounts = zsum (map_values (mir_registered accounts m)).
Proof. rewrite zsum_values. apply ksum_sub_eq. intros k x Hk. by apply map_lookup_filter_Some in Hk as [_ ?]. Qed.

(** The credited accounts: none negative, and the sum moves by the totals. *)
Lemma mir_credited (accounts : gmap Hash32 Lovelace) (a b : gmap Hash32 Z) :
  let fr := mir_registered accounts a in
  let ft := mir_registered accounts b in
  let combined := union_with (λ x y, Some (x + y)) fr ft in
  nonneg_map accounts →
  forallb (λ kv : Hash32 * Z, 0 <=? default 0 (accounts !! kv.1) + kv.2) (map_to_list combined) = true →
  let total := ksum (λ _ x, x) accounts + zsum (map_values fr) + zsum (map_values ft) in
  total ≤ u64_max →
  let credited := map_imap (λ cred balance,
     Some (match combined !! cred with Some delta => wrap64 (balance + delta) | None => balance end)) accounts in
  nonneg_map credited ∧ ksum (λ _ x, x) credited = total.
Proof.
  intros fr ft combined Hacc Hall total Hle credited.
  set (f := λ (c : Hash32) (balance : Z), balance + (default 0 (fr !! c) + default 0 (ft !! c))).
  assert (∀ c balance, accounts !! c = Some balance → 0 ≤ f c balance) as Hf.
  { intros c balance Hc. unfold f. rewrite <- combined_lookup. fold combined.
    destruct (combined !! c) as [d|] eqn:Hd; cbn; [|pose proof (Hacc c balance Hc); lia].
    rewrite forallb_forall in Hall. specialize (Hall (c, d)). cbn in Hall. rewrite Hc in Hall. cbn in Hall. unfold id in *.
    apply Z.leb_le, Hall. apply list_elem_of_In. by apply elem_of_map_to_list. }
  assert (ksum f accounts = total) as Hsum.
  { unfold f, total. rewrite (ksum_plus (λ _ x, x) (λ c _, default 0 (fr !! c) + default 0 (ft !! c))).
    rewrite (ksum_plus (λ c _, default 0 (fr !! c)) (λ c _, default 0 (ft !! c))).
    unfold fr, ft. rewrite !mir_sum. lia. }
  assert (∀ c balance, accounts !! c = Some balance →
    (match combined !! c with Some delta => wrap64 (balance + delta) | None => balance end) = f c balance) as Heq.
  { intros c balance Hc. pose proof (Hf c balance Hc) as H0'.
    pose proof (ksum_elem_le f accounts c balance Hf Hc) as H1'. rewrite Hsum in H1'. unfold f in H0', H1' |- *.
    rewrite <- combined_lookup in H0', H1' |- *. fold combined in H0', H1' |- *.
    destruct (combined !! c) as [d|]; cbn in H0', H1' |- *; unfold id in *; [|lia].
    apply wrap64_small. unfold u64. lia. }
  split.
  - intros c x. unfold credited. rewrite map_lookup_imap. destruct (accounts !! c) as [bal|] eqn:Hc; [|done]. cbn.
    intros [= <-]. rewrite (Heq c bal Hc). by apply Hf.
  - unfold credited. rewrite ksum_imap, <- Hsum. apply ksum_ext. intros c bal Hc. by apply Heq.
Qed.

Lemma mir_ok s : pots_ok s → pots (apply_pending_mir s) = pots s ∧ pots_ok (apply_pending_mir s) ∧
  pending_mir_reserves (certs (apply_pending_mir s)) = ∅ ∧ pending_mir_treasury (certs (apply_pending_mir s)) = ∅.
Proof.
  intros Hp. unfold apply_pending_mir. cbv zeta.
  assert (∀ c, reward_accounts c = reward_accounts (certs s) → pots (s <| certs := c |>) = pots s ∧ pots_ok (s <| certs := c |>)) as Hkeep.
  { intros c Hc. assert (pots (s <| certs := c |>) = pots s) as Hpots by (unfold pots; cbn; by rewrite Hc).
    split; [done|]. destruct Hp. constructor; try done; [cbn; by rewrite Hc|by rewrite Hpots]. }
  destruct (_ && _ && _ && _); [split_and!; [by apply Hkeep..|done|done]|].
  fold (mir_registered (reward_accounts (certs s)) (pending_mir_reserves (certs s))).
  fold (mir_registered (reward_accounts (certs s)) (pending_mir_treasury (certs s))).
  destruct (negb _ || negb _) eqn:Hb; [split_and!; [by apply Hkeep..|done|done]|].
  apply orb_false_iff in Hb as [Hsolv%negb_false_iff Hall%negb_false_iff].
  apply andb_true_iff in Hsolv as [Hr%Z.leb_le Ht%Z.leb_le].
  pose proof (pk_total s Hp) as Htot. unfold pots in Htot. pose proof (pk_fees s Hp). pose proof (pk_donations s Hp).
  destruct (mir_credited (reward_accounts (certs s)) _ _ (pk_accounts s Hp) Hall) as [Hnn Hsum]; [lia|].
  pose proof (ksum_nonneg (λ _ x, x) _ Hnn) as Hpos. rewrite Hsum in Hpos.
  assert (∀ x, 0 ≤ x ≤ u64_max → wrap64 x = x) as Hwrap by (intros; by apply wrap64_small).
  unfold pots. split; [|split].
  - cbn. rewrite Hsum, !Hwrap by lia. lia.
  - constructor; cbn; try done; [rewrite Hwrap; lia..|]. unfold pots. cbn. rewrite Hsum, !Hwrap by lia. lia.
  - done.
Qed.

End snapshots.
