(* ===== verification/RewardTheorems.v ===== *)
(** * The pulser over an epoch

    [epoch_step]: what happens to the ledger state between two boundaries, as
    far as rewards see it: the tick of a block, and the rest of its application,
    which leaves the frozen inputs alone. In every state that an epoch reaches,
    the fold in flight is a prefix of the one fold over the snapshot
    ([pulser_inv]), so the boundary computes what it would have computed
    without any pulse. *)

From S2P Require Import Prelude Order RecordUpdate EraHistory Block Ledger RewardRat RewardPulser Rewards RewardEpoch RewardBounds RewardDistribution RewardUpdate.
Local Open Scope Z_scope.
Local Open Scope record_scope.


(** ** The prefilter *)

Lemma fold_at_ext ctx1 ctx2 q f :
  (∀ c, member_entry ctx1 c = member_entry ctx2 c) → fold_at ctx1 q f → fold_at ctx2 q f.
Proof.
  intros He (Hq & Hc & Ha). split; [done|]. split; [done|]. rewrite Ha. clear Ha Hc.
  generalize (∅ : gmap Hash32 (list RewardEntryTriple)). intros acc. revert acc.
  induction (take (fold_cursor f) q) as [|c l IH]; intros acc; [done|]. cbn. rewrite IH. f_equal.
  unfold fold_one. by rewrite He.
Qed.

(** From protocol version 7 on the registration of a credential is not read. *)
Lemma prefilter_unread go ti1 ti2 c :
  7 ≤ ti_pv_major ti1 → ti_bprev ti1 = ti_bprev ti2 → ti_a0 ti1 = ti_a0 ti2 → ti_n_opt ti1 = ti_n_opt ti2 →
  ti_reward_pot ti1 = ti_reward_pot ti2 → ti_total_stake ti1 = ti_total_stake ti2 →
  ti_total_active_stake ti1 = ti_total_active_stake ti2 → ti_total_blocks ti1 = ti_total_blocks ti2 →
  ti_gate ti1 = ti_gate ti2 → ti_pv_major ti1 = ti_pv_major ti2 →
  member_entry (snapshot_ctx go ti1) c = member_entry (snapshot_ctx go ti2) c.
Proof.
  intros Hpv E1 E2 E3 E4 E5 E6 E7 E8 E9.
  assert (∀ p st, pool_info go ti1 p st = pool_info go ti2 p st) as Hi.
  { intros p st. unfold pool_info. rewrite E1, E2, E3, E4, E5, E6, E7, E8, E9.
    rewrite E9 in Hpv. by rewrite (proj2 (Z.leb_le 7 _)) by lia. }
  unfold member_entry, snapshot_ctx. cbn [ctx_delegations ctx_table ctx_stake ctx_pv_major ctx_registered].
  rewrite <- E9, (proj2 (Z.leb_gt (ti_pv_major ti1) 6)) by lia. cbn [andb].
  destruct (snap_delegations go !! c) as [p|]; [|done].
  unfold build_pool_reward_table. rewrite !map_lookup_imap.
  destruct (snap_pool_stake go !! p) as [st|]; [|done]. cbn [mbind option_bind]. by rewrite Hi.
Qed.

Section run.
Context `{RewardRest}.

(** ** Steps of an epoch *)

(** What a block application leaves alone beside the tick. *)
Record reward_frame (s s' : LedgerState) : Prop := {
  rf_snapshots : snapshots (epochs s') = snapshots (epochs s);
  rf_reserves : reserves (epochs s') = reserves (epochs s);
  rf_params : prev_protocol_params (epochs s') = prev_protocol_params (epochs s);
  rf_version : prev_protocol_version_major (epochs s') = prev_protocol_version_major (epochs s);
  rf_d : prev_d (epochs s') = prev_d (epochs s);
  rf_non_myopic : non_myopic (epochs s') = non_myopic (epochs s);
  rf_config : ls_config s' = ls_config s;
  rf_epoch : ls_epoch s' = ls_epoch s;
}.

Record pulser_frame (s s' : LedgerState) : Prop := {
  pf_addrs : rupd_addrs_rew (epochs s') = rupd_addrs_rew (epochs s);
  pf_started : rupd_pulser_started (epochs s') = rupd_pulser_started (epochs s);
  pf_monetary : rupd_monetary (epochs s') = rupd_monetary (epochs s);
  pf_fold : rupd_fold (epochs s') = rupd_fold (epochs s);
}.

Inductive epoch_step : LedgerState → LedgerState → Prop :=
| step_tick era slot s : epoch_step s (rupd_tick era slot s)
| step_body s s' : reward_frame s s' → pulser_frame s s' → epoch_step s s'.

(** The state that a boundary leaves. *)
Record pulser_fresh (s : LedgerState) : Prop := {
  fr_addrs : rupd_addrs_rew (epochs s) = None;
  fr_started : rupd_pulser_started (epochs s) = false;
  fr_monetary : rupd_monetary (epochs s) = None;
  fr_fold : if_fold (rupd_fold (epochs s)) = None;
  fr_window : 0 ≤ randomness_stabilisation_window (config_rest (ls_config s));
}.

(** ** The invariant *)

Definition state_params (s : LedgerState) : RewardParams := pp_rest (prev_protocol_params (epochs s)).
Definition state_bprev (s : LedgerState) : gmap Hash28 Z := es_bprev_blocks_by_pool (snapshots (epochs s)).
Definition state_go (s : LedgerState) : StakeSnapshot := default (stake_snapshot_empty 0) (es_go (snapshots (epochs s))).
Definition state_supply (s : LedgerState) : Z := max_lovelace_supply (config_rest (ls_config s)).

Definition state_monetary (s : LedgerState) : MonetaryStep :=
  update_monetary (state_params s) (prev_d (epochs s)) (state_bprev s) (es_ss_fee (snapshots (epochs s)))
    (reserves (epochs s)) (epoch_length (ls_config s)) (state_supply s).

Definition state_inputs (s : LedgerState) (registered : Hash32 → bool) : TableInputs :=
  table_inputs (state_params s) (prev_d (epochs s)) (prev_protocol_version_major (epochs s)) (state_go s)
    (state_bprev s) (state_monetary s) registered.

Definition state_ctx (s : LedgerState) : MemberFoldCtx :=
  snapshot_ctx (state_go s) (state_inputs s (registered_in (rupd_addrs_rew (epochs s)))).

Record pulser_started_inv (s : LedgerState) : Prop := {
  pi_monetary : rupd_monetary (epochs s) = Some (state_monetary s);
  pi_addrs : prev_protocol_version_major (epochs s) ≤ 6 → rupd_addrs_rew (epochs s) ≠ None;
  pi_fold f : if_fold (rupd_fold (epochs s)) = Some f →
    if_table (rupd_fold (epochs s)) = ctx_table (state_ctx s) ∧
    fold_at (state_ctx s) (fold_queue_of (snap_delegations (state_go s))) f;
}.

Definition pulser_inv (s : LedgerState) : Prop :=
  0 ≤ randomness_stabilisation_window (config_rest (ls_config s)) ∧
  (6 < prev_protocol_version_major (epochs s) → rupd_addrs_rew (epochs s) = None) ∧
  if rupd_pulser_started (epochs s) then pulser_started_inv s
  else rupd_monetary (epochs s) = None ∧ if_fold (rupd_fold (epochs s)) = None.

Lemma fresh_inv s : pulser_fresh s → pulser_inv s.
Proof. intros []. split; [done|]. split; [done|]. by rewrite fr_started0. Qed.

Lemma frame_monetary s s' : reward_frame s s' → state_monetary s' = state_monetary s.
Proof.
  intros []. unfold state_monetary, state_params, state_bprev, state_supply.
  by rewrite rf_params0, rf_d0, rf_snapshots0, rf_reserves0, rf_config0.
Qed.

Lemma frame_go s s' : reward_frame s s' → state_go s' = state_go s.
Proof. intros []. unfold state_go. by rewrite rf_snapshots0. Qed.

Lemma frame_ctx s s' : reward_frame s s' → rupd_addrs_rew (epochs s') = rupd_addrs_rew (epochs s) →
  state_ctx s' = state_ctx s.
Proof.
  intros Hf Ha. unfold state_ctx, state_inputs. rewrite (frame_monetary s s' Hf), (frame_go s s' Hf), Ha.
  destruct Hf. unfold state_params, state_bprev. by rewrite rf_params0, rf_d0, rf_version0, rf_snapshots0.
Qed.

(** A step that leaves the frozen data alone and advances the fold. *)
Lemma refold_inv s s' :
  reward_frame s s' → rupd_addrs_rew (epochs s') = rupd_addrs_rew (epochs s) →
  rupd_pulser_started (epochs s') = rupd_pulser_started (epochs s) →
  rupd_monetary (epochs s') = rupd_monetary (epochs s) →
  (if rupd_pulser_started (epochs s) then
     ∀ f, if_fold (rupd_fold (epochs s')) = Some f →
       if_table (rupd_fold (epochs s')) = ctx_table (state_ctx s) ∧
       fold_at (state_ctx s) (fold_queue_of (snap_delegations (state_go s))) f
   else rupd_fold (epochs s') = rupd_fold (epochs s)) →
  pulser_inv s → pulser_inv s'.
Proof.
  intros Hf Ha Hs Hm Hfold (Hw & Haddr & Hst). pose proof Hf as [].
  unfold pulser_inv. rewrite rf_version0, Ha, Hs, Hm, rf_config0. split; [done|]. split; [done|].
  destruct (rupd_pulser_started (epochs s)); [|by rewrite Hfold].
  destruct Hst as [Hm' Hpv _].
  constructor; rewrite ?(frame_ctx s s' Hf Ha), ?(frame_go s s' Hf), ?(frame_monetary s s' Hf), ?Hm, ?Ha, ?rf_version0; done.
Qed.

Lemma frame_inv s s' : reward_frame s s' → pulser_frame s s' → pulser_inv s → pulser_inv s'.
Proof.
  intros Hf [] Hinv. apply (refold_inv s s'); try done. rewrite pf_fold0.
  destruct Hinv as (_ & _ & Hs). destruct (rupd_pulser_started (epochs s)); [apply Hs|done].
Qed.

(** ** One tick *)

Definition maybe_start (slot : Z) (s : LedgerState) : LedgerState :=
  if rupd_pulser_started (epochs s) then s
  else
    let window := reward_window_new (ledger_first_slot (ls_config s) (ls_epoch s))
                    (randomness_stabilisation_window (config_rest (ls_config s))) in
    if bool_decide (classify window slot = TooEarly) then s else start_pulser s.

Lemma not_early_after first sr slot : 0 ≤ sr →
  classify (reward_window_new first sr) slot ≠ TooEarly → saturating_add64 first sr < slot.
Proof.
  intros Hsr. unfold classify, reward_window_new, saturating_add64. cbn.
  destruct (Z.ltb_spec (Z.min (Z.min (first + sr) u64_max + sr) u64_max) slot); [lia|].
  destruct (Z.leb_spec slot (Z.min (first + sr) u64_max)); [done|lia].
Qed.

Lemma early_not_after first sr slot :
  classify (reward_window_new first sr) slot = TooEarly → slot ≤ saturating_add64 first sr.
Proof.
  unfold classify, reward_window_new. cbn. destruct (_ <? slot); [done|].
  by destruct (Z.leb_spec slot (saturating_add64 first sr)).
Qed.

(** The capture comes with the start, and with nothing else. *)
Lemma start_capture_inv slot s : pulser_inv s → pulser_inv (capture_addrs_rew slot (maybe_start slot s)).
Proof.
  intros Hinv. pose proof Hinv as (Hw & Ha & Hs). unfold maybe_start.
  destruct (rupd_pulser_started (epochs s)) eqn:Hst.
  { unfold capture_addrs_rew. destruct (Z.leb_spec (prev_protocol_version_major (epochs s)) 6); [|done].
    rewrite bool_decide_false; [done|]. by apply Hs. }
  destruct Hs as [Hm Hf]. destruct (decide (classify (reward_window_new (ledger_first_slot (ls_config s) (ls_epoch s))
    (randomness_stabilisation_window (config_rest (ls_config s)))) slot = TooEarly)) as [He|He].
  { rewrite bool_decide_true by done. unfold capture_addrs_rew. destruct (_ && _); [|done].
    apply early_not_after in He. by rewrite (proj2 (Z.ltb_ge _ _)). }
  rewrite bool_decide_false by done. apply not_early_after in He; [|done].
  unfold capture_addrs_rew.
  change (prev_protocol_version_major (epochs (start_pulser s))) with (prev_protocol_version_major (epochs s)).
  change (rupd_addrs_rew (epochs (start_pulser s))) with (rupd_addrs_rew (epochs s)).
  destruct (Z.leb_spec (prev_protocol_version_major (epochs s)) 6) as [Hpv|Hpv]; cbn [andb].
  - destruct (decide (rupd_addrs_rew (epochs s) = None)) as [Hn|Hn].
    + rewrite bool_decide_true by done. change (ls_config (start_pulser s)) with (ls_config s).
      change (ls_epoch (start_pulser s)) with (ls_epoch s). rewrite (proj2 (Z.ltb_lt _ _)) by done.
      split; [done|]. split; [cbn; lia|]. constructor; [reflexivity|done|]. cbn. by rewrite Hf.
    + rewrite bool_decide_false by done. split; [done|]. split; [done|]. constructor; [reflexivity|done|]. cbn.
      by rewrite Hf.
  - split; [done|]. split; [done|]. constructor; [reflexivity|cbn; lia|]. cbn. by rewrite Hf.
Qed.

Definition pulse_state (s : LedgerState) : LedgerState :=
  s <| epochs ::= λ e, pulse_rupd_member_fold (prev_d e) (prev_protocol_version_major e)
         (security_param (config_rest (ls_config s))) (epoch_length (ls_config s)) e |>.

Lemma pulse_inv s : pulser_inv s → pulser_inv (pulse_state s).
Proof.
  intros Hinv. pose proof Hinv as (Hw & Ha & Hs). unfold pulse_state, pulse_rupd_member_fold.
  assert (∀ u : EpochSubState → EpochSubState, u (epochs s) = epochs s →
    pulser_inv (s <| epochs ::= u |>)) as Hid.
  { intros u Hu. eapply frame_inv; [..|exact Hinv]; constructor; cbn; by rewrite ?Hu. }
  destruct (rupd_monetary (epochs s)) as [m|] eqn:Hm; [|apply Hid; by rewrite Hm].
  destruct (rupd_pulser_started (epochs s)) eqn:Hst; [|by destruct Hs]. destruct Hs as [Hm' Hpv Hf].
  rewrite Hm in Hm'. injection Hm' as ->.
  destruct (in_flight_is_complete (rupd_fold (epochs s))) eqn:Hc.
  { eapply frame_inv; [..|exact Hinv]; constructor; cbn; by rewrite ?Hm, ?Hc. }
  destruct ((prev_protocol_version_major (epochs s) <=? 6) && bool_decide (rupd_addrs_rew (epochs s) = None)) eqn:Hb.
  { apply Hid. by rewrite Hm, Hc, Hb. }
  destruct (if_fold (rupd_fold (epochs s))) as [f|] eqn:Hfold.
  - destruct (Hf f eq_refl) as [Htab Hat].
    apply (refold_inv s); [constructor|..|done]; cbn; rewrite ?Hm, ?Hc, ?Hb, ?Hfold; try done.
    rewrite Hst. cbn. intros f' [= <-]. split; [done|].
    assert (mkFoldCtx (if_table (rupd_fold (epochs s))) (snap_delegations (state_go s))
      (snap_stake_distribution (state_go s)) (prev_protocol_version_major (epochs s))
      (registered_in (rupd_addrs_rew (epochs s))) = state_ctx s) as Hctx by (by rewrite Htab).
    unfold state_go in Hctx at 1 2. rewrite Hctx. by apply fold_at_pulse.
  - apply (refold_inv s); [constructor|..|done]; cbn; rewrite ?Hm, ?Hc, ?Hb, ?Hfold; try done.
    rewrite Hst. cbn. intros f' [= <-]. split; [done|]. apply fold_at_new.
Qed.

Lemma tick_inv era slot s : pulser_inv s → pulser_inv (rupd_tick era slot s).
Proof.
  intros Hinv. unfold rupd_tick. destruct (bool_decide (era = Byron)); [done|]. cbv zeta.
  fold (maybe_start slot s). fold (pulse_state (capture_addrs_rew slot (maybe_start slot s))).
  by apply pulse_inv, start_capture_inv.
Qed.

Lemma step_inv s s' : epoch_step s s' → pulser_inv s → pulser_inv s'.
Proof. destruct 1; [apply tick_inv|by apply frame_inv]. Qed.

Lemma epoch_inv s s' : rtc epoch_step s s' → pulser_inv s → pulser_inv s'.
Proof. induction 1; [done|]. intros Hs. eauto using step_inv. Qed.

(** The inputs of the rewards are the same throughout the epoch. *)
Lemma tick_frame era slot s : reward_frame s (rupd_tick era slot s).
Proof.
  assert (∀ t, reward_frame s t → reward_frame s (pulse_state t)) as Hpulse.
  { intros t []. unfold pulse_state, pulse_rupd_member_fold. constructor; cbn; repeat case_match; done. }
  unfold rupd_tick. destruct (bool_decide (era = Byron)); [by constructor|]. cbv zeta.
  fold (maybe_start slot s). fold (pulse_state (capture_addrs_rew slot (maybe_start slot s))).
  apply Hpulse. unfold capture_addrs_rew, maybe_start. repeat case_match; by constructor.
Qed.

Lemma frame_trans s1 s2 s3 : reward_frame s1 s2 → reward_frame s2 s3 → reward_frame s1 s3.
Proof. intros [] []. constructor; congruence. Qed.

Lemma epoch_frame s s' : rtc epoch_step s s' → reward_frame s s'.
Proof.
  induction 1 as [s|s s1 s2 Hs _ IH]; [by constructor|]. eapply frame_trans; [|exact IH].
  destruct Hs; [apply tick_frame|done].
Qed.

(** ** The boundary after an epoch *)

(** The prefilter that the boundary applies is the one of the fold. *)
Lemma boundary_members s c : pulser_inv s → rupd_pulser_started (epochs s) = true →
  member_entry (state_ctx s) c =
  member_entry (snapshot_ctx (state_go s)
    (state_inputs s (registered_at (reward_accounts (certs s)) (rupd_addrs_rew (epochs s))))) c.
Proof.
  intros (_ & Ha & Hs) Hst. rewrite Hst in Hs. destruct Hs as [_ Hpv _].
  destruct (decide (prev_protocol_version_major (epochs s) ≤ 6)) as [Hle|Hgt].
  - specialize (Hpv Hle). unfold state_ctx. destruct (rupd_addrs_rew (epochs s)); [|done]. reflexivity.
  - apply prefilter_unread; try reflexivity. cbn. lia.
Qed.

Lemma prepulsed_boundary s : pulser_inv s → rupd_pulser_started (epochs s) = true →
  prepulsed_ok (state_params s) (prev_d (epochs s)) (prev_protocol_version_major (epochs s))
    (es_go (snapshots (epochs s))) (state_bprev s) (state_monetary s)
    (registered_at (reward_accounts (certs s)) (rupd_addrs_rew (epochs s))) (if_fold (rupd_fold (epochs s))).
Proof.
  intros Hinv Hst g f Hg Hf. pose proof Hinv as (_ & _ & Hs). rewrite Hst in Hs. destruct Hs as [_ _ Hfold].
  destruct (Hfold f Hf) as [_ Hat]. assert (state_go s = g) as Hgo by (unfold state_go; by rewrite Hg).
  eapply fold_at_ext; [|rewrite <- Hgo; exact Hat]. intros c. rewrite boundary_members by done.
  unfold state_inputs. by rewrite Hgo.
Qed.

(** A fold that belongs to the inputs changes nothing. *)
Lemma distribute_prepulsed go ti f :
  fold_at (snapshot_ctx go ti) (fold_queue_of (snap_delegations go)) f →
  distribute go ti (Some f) = distribute go ti None.
Proof.
  intros Hf. unfold distribute. fold (snapshot_ctx go ti). cbn [default from_option]. unfold id.
  rewrite (fold_complete_at _ _ f Hf), (fold_complete_at _ _ _ (fold_at_new (snapshot_ctx go ti) (snap_delegations go))).
  done.
Qed.

Lemma compute_prepulsed pp prev_d pv go bprev ss_fee reserves accounts addrs len max nm prepulsed :
  let m := update_monetary pp prev_d bprev ss_fee reserves len max in
  prepulsed_ok pp prev_d pv go bprev m (registered_at accounts addrs) prepulsed →
  compute_reward_update pp prev_d pv go bprev ss_fee reserves accounts addrs len max nm (Some m) prepulsed =
  compute_reward_update pp prev_d pv go bprev ss_fee reserves accounts addrs len max nm (Some m) None.
Proof.
  intros m Hpre. clearbody m. unfold compute_reward_update. cbv beta iota zeta. cbn [default from_option]. unfold id.
  destruct (_ =? 0); [done|]. destruct (_ =? 0); [done|]. destruct go as [g|]; [|done].
  destruct (_ =? 0); [done|]. destruct prepulsed as [f|]; [|done].
  rewrite distribute_prepulsed; [done|]. exact (Hpre g f eq_refl eq_refl).
Qed.

End run.

(** * Theorems about rewards

    Over a whole epoch: the boundary's update is independent of the pulses, pays
    within the pot, and moves coin between the pots without creating or losing
    any; the pulses of an epoch suffice; the snapshots that the boundary takes
    are the ones that the bounds need; MIR transfers conserve the pots. Then two
    runs of the model on states that the code reaches and in which rewards go
    wrong. *)


Section theorems.
Context `{RewardRest}.

(** ** Pulsing *)

(** C22: However the blocks of an epoch
    advanced the pulser, and whatever else they did to the ledger, the update
    that the boundary computes from the frozen step and the fold in flight is
    the one computed at once from the inputs of the epoch. *)
Theorem pulsed_update_exact s0 s :
  pulser_fresh s0 → rtc epoch_step s0 s → rupd_pulser_started (epochs s) = true →
  boundary_rupd (reserves (epochs s)) s =
  compute_reward_update (state_params s) (prev_d (epochs s)) (prev_protocol_version_major (epochs s))
    (es_go (snapshots (epochs s))) (state_bprev s) (es_ss_fee (snapshots (epochs s))) (reserves (epochs s))
    (reward_accounts (certs s)) (rupd_addrs_rew (epochs s)) (epoch_length (ls_config s)) (state_supply s)
    (non_myopic (epochs s)) None None.
Proof.
  intros Hfresh Hrun Hst. pose proof (epoch_inv s0 s Hrun (fresh_inv s0 Hfresh)) as Hinv.
  pose proof Hinv as (_ & _ & Hs). rewrite Hst in Hs. destruct Hs as [Hm _ _].
  unfold boundary_rupd. cbv zeta. rewrite Hm.
  rewrite (compute_prepulsed _ _ _ _ _ _ _ _ _ _ _ _ _ (prepulsed_boundary s Hinv Hst)).
  apply compute_frozen.
Qed.

Lemma pulses_cursor ctx n f j :
  (fold_cursor f ≤ length (fold_queue f))%nat →
  fold_cursor (pulses ctx f (replicate j n)) = Nat.min (fold_cursor f + j * n) (length (fold_queue f)) ∧
  fold_queue (pulses ctx f (replicate j n)) = fold_queue f.
Proof.
  revert f. induction j as [|j IH]; intros f Hc; [cbn; split; [lia|done]|].
  cbn [replicate pulses foldl]. fold (pulses ctx (fold_pulse n ctx f).2 (replicate j n)).
  destruct (IH (fold_pulse n ctx f).2) as [-> ->]; [cbn; lia|]. cbn. split; [lia|done].
Qed.

Lemma pulse_size_covers len k : 1 ≤ k → 4 * k ≤ u64_max →
  (len ≤ Z.to_nat (4 * k) * fold_pulse_size len k)%nat.
Proof.
  intros Hk Hu. unfold fold_pulse_size, wrapping_mul64. rewrite wrap64_small by (unfold u64; lia).
  rewrite Z.max_l by lia. set (d := 4 * k) in *.
  assert (Z.of_nat len ≤ d * div_ceil (Z.of_nat len) d) as Hle.
  { unfold div_ceil. pose proof (Z.div_mod (Z.of_nat len) d ltac:(lia)).
    pose proof (Z.mod_pos_bound (Z.of_nat len) d ltac:(lia)). destruct (Z.ltb_spec 0 (Z.of_nat len mod d)); nia. }
  assert (0 ≤ div_ceil (Z.of_nat len) d).
  { unfold div_ceil. pose proof (Z.div_pos (Z.of_nat len) d ltac:(lia) ltac:(lia)). destruct (_ <? _); lia. }
  transitivity (Z.to_nat d * Z.to_nat (div_ceil (Z.of_nat len) d))%nat; [|nia].
  rewrite <- Z2Nat.inj_mul by lia. lia.
Qed.

(** C27: The fold over a snapshot is done
    after [4k] pulses of the size that the code computes for it, and what it
    then holds is the entry of every delegating credential. *)
Theorem pulses_finish ctx k :
  1 ≤ k → 4 * k ≤ u64_max →
  let n := fold_pulse_size (size (ctx_delegations ctx)) k in
  fold_into_entries (pulses ctx (reward_fold_new (ctx_delegations ctx)) (replicate (Z.to_nat (4 * k)) n)) =
  Some (member_map ctx).
Proof.
  intros Hk Hu n. set (dels := ctx_delegations ctx) in *.
  assert (length (fold_queue (reward_fold_new dels)) = size dels) as Hlen.
  { cbn. rewrite (Permutation_length (merge_sort_Permutation key_le _)), length_fmap. apply length_map_to_list. }
  destruct (pulses_cursor ctx n (reward_fold_new dels) (Z.to_nat (4 * k))) as [Hc Hq]; [cbn; lia|].
  destruct (fold_at_pulses ctx _ (replicate (Z.to_nat (4 * k)) n) _ (fold_at_new ctx dels)) as (_ & _ & Ha).
  pose proof (pulse_size_covers (size dels) k Hk Hu) as Hcov. fold n in Hcov.
  assert (fold_cursor (pulses ctx (reward_fold_new dels) (replicate (Z.to_nat (4 * k)) n)) =
          length (fold_queue (reward_fold_new dels))) as Hend by (rewrite Hc, Hlen; change (fold_cursor (reward_fold_new dels)) with 0%nat; lia).
  unfold fold_into_entries, fold_is_done. rewrite Hend, Hq, bool_decide_true by done.
  f_equal. rewrite Ha, Hend. change (fold_queue (reward_fold_new dels)) with (fold_queue_of dels).
  rewrite take_ge by done. apply fold_all_members.
Qed.

(** ** The boundary *)

(** What a boundary finds: an epoch has run, the pots fit the machine width, the
    fee pot of the update is part of the fees. *)
Record boundary_ok (s : LedgerState) : Prop := {
  bo_inv : pulser_inv s;
  bo_pots : pots_ok s;
  bo_fees : 0 ≤ es_ss_fee (snapshots (epochs s)) ≤ epoch_fees (utxo s);
  bo_update : update_ok (state_params s) (es_go (snapshots (epochs s))) (state_bprev s)
    (es_ss_fee (snapshots (epochs s))) (reserves (epochs s)) (state_supply s);
  bo_carried : pending_reward_update (epochs s) = None;
}.

(** Only the treasury and the record of the last update have changed. *)
Lemma flush_ok s : boundary_ok s →
  ∃ s1, flush_donations s = Some s1 ∧ boundary_ok s1 ∧ pots s1 = pots s ∧ pending_donations (utxo s1) = 0 ∧
    reward_accounts (certs s1) = reward_accounts (certs s) ∧
    rupd_pulser_started (epochs s1) = rupd_pulser_started (epochs s) ∧ treasury (epochs s) ≤ treasury (epochs s1).
Proof.
  intros Hb. pose proof (bo_pots s Hb) as Hp. pose proof (pk_total s Hp) as Htot. unfold pots in Htot.
  pose proof (pk_reserves s Hp). pose proof (pk_treasury s Hp). pose proof (pk_fees s Hp). pose proof (pk_donations s Hp).
  pose proof (ksum_nonneg (λ _ x, x) _ (pk_accounts s Hp)).
  unfold flush_donations. destruct (Z.ltb_spec 0 (pending_donations (utxo s))) as [Hd|Hd].
  - unfold checked_add64. rewrite (proj2 (Z.leb_le _ _)) by lia. cbn [mbind option_bind].
    eexists. split; [reflexivity|]. split; [|unfold pots; cbn; split_and!; done || lia].
    destruct Hb. constructor; try done.
    + eapply frame_inv; [..|exact bo_inv0]; by constructor.
    + destruct Hp. constructor; cbn; try done; try lia. unfold pots. cbn. lia.
  - exists s. split_and!; done || lia.
Qed.

Lemma closed_ok s : boundary_ok s → rupd_pulser_started (epochs s) = true →
  ∃ s', apply_closed_rupd (reserves (epochs s)) s = Some s' ∧ accounts_grow s s' ∧
    pots (drain_fees s') = pots s ∧ pots_ok (drain_fees s') ∧ treasury (epochs s) ≤ treasury (epochs (drain_fees s')).
Proof.
  intros Hb Hst. pose proof (bo_inv s Hb) as Hinv. pose proof (bo_pots s Hb) as Hp.
  pose proof Hinv as (_ & _ & Hs). rewrite Hst in Hs. destruct Hs as [Hm _ _].
  destruct (compute_balances (state_params s) (prev_d (epochs s)) (prev_protocol_version_major (epochs s))
    (es_go (snapshots (epochs s))) (state_bprev s) (es_ss_fee (snapshots (epochs s))) (reserves (epochs s))
    (reward_accounts (certs s)) (rupd_addrs_rew (epochs s)) (epoch_length (ls_config s)) (state_supply s)
    (non_myopic (epochs s)) (if_fold (rupd_fold (epochs s))) (bo_update s Hb) (prepulsed_boundary s Hinv Hst))
    as (rupd & Hcomp & Hbal & _).
  unfold apply_closed_rupd, boundary_rupd. cbv zeta. rewrite Hm.
  fold (state_params s) (state_bprev s) (state_supply s).
  unfold state_monetary. rewrite Hcomp. cbn [mbind option_bind].
  match goal with |- context [apply_rupd rupd ?x] => set (s1 := x) end.
  assert (pots_ok s1) as Hp1 by (destruct Hp; by constructor).
  destruct (apply_rupd_ok rupd s1 _ Hp1 Hbal (bo_fees s Hb))
    as (s' & -> & Hgrow & Hnn & Hr0 & Ht0 & Hr & Hsum & Hu & Hcfg & r & t & a & ->).
  cbn [mbind option_bind]. eexists. split; [reflexivity|]. split; [exact Hgrow|].
  pose proof (pk_total s Hp). pose proof (pk_reserves s Hp). pose proof (pk_treasury s Hp). pose proof (pk_fees s Hp).
  pose proof (pk_donations s Hp). pose proof (bo_fees s Hb). cbn in Hr, Hsum, Hr0, Ht0, Hnn.
  assert (∀ u, u = saturating_sub64 (epoch_fees (utxo s)) (es_ss_fee (snapshots (epochs s))) →
    u = epoch_fees (utxo s) - es_ss_fee (snapshots (epochs s))) as Hsat by (intros u ->; unfold saturating_sub64; lia).
  unfold drain_fees. cbn. rewrite Hst. unfold pots in *. cbn. rewrite (Hsat _ eq_refl).
  split; [lia|]. split; [|done]. constructor; cbn; rewrite ?(Hsat _ eq_refl); try done; try lia. unfold pots. cbn.
  rewrite (Hsat _ eq_refl). lia.
Qed.

Lemma conway_rupd_ok s :
  boundary_ok s →
  ∃ s', conway_rupd s = Some s' ∧ pots s' = pots s ∧ pots_ok s' ∧ accounts_grow s s' ∧
    treasury (epochs s) ≤ treasury (epochs s').
Proof.
  intros Hb. destruct (flush_ok s Hb) as (s1 & Hf & Hb1 & Hpots & _ & Hacc & Hst & Htr).
  unfold conway_rupd. rewrite Hf. cbn [mbind option_bind]. unfold apply_carried_rupd. rewrite (bo_carried s1 Hb1).
  cbn [mbind option_bind]. set (s2 := s1 <| epochs ::= λ e, e <| last_applied_rupd := None |> |>).
  assert (boundary_ok s2) as Hb2.
  { destruct Hb1. constructor; try done.
    - eapply frame_inv; [..|exact bo_inv0]; by constructor.
    - destruct bo_pots0. by constructor. }
  destruct (rupd_pulser_started (epochs s2)) eqn:Hst2.
  - destruct (closed_ok s2 Hb2 Hst2) as (s3 & -> & Hgrow & Hp3 & Hok3 & Htr3). cbn [mbind option_bind].
    eexists. split; [reflexivity|]. split; [rewrite Hp3; exact Hpots|]. split; [done|].
    split; [|change (treasury (epochs s2)) with (treasury (epochs s1)) in Htr3; lia].
    unfold accounts_grow in *. unfold drain_fees. change (reward_accounts (certs s2)) with (reward_accounts (certs s1)) in Hgrow.
    rewrite Hacc in Hgrow. by destruct (rupd_pulser_started (epochs s3)).
  - cbn [mbind option_bind]. unfold drain_fees. cbn. change (rupd_pulser_started (epochs s1)) with (rupd_pulser_started (epochs s2)).
    rewrite Hst2. eexists. split; [reflexivity|]. split; [exact Hpots|]. split; [destruct (bo_pots s1 Hb1); by constructor|].
    split; [|done]. unfold accounts_grow. cbn. rewrite Hacc. split; [done|]. intros c b b' Hc Hc'. rewrite Hc in Hc'. injection Hc' as <-. lia.
Qed.

(** C23: At a boundary after any epoch the reward
    steps of the transition (donations, the update of the closed epoch, the fee
    pot) do not panic, no coin is created or lost between reserves, treasury,
    reward accounts, fees and donations, no pot leaves its width, and every
    account keeps at least its balance. *)
Theorem reward_pots_conserved s :
  boundary_ok s →
  ∃ s', conway_rupd s = Some s' ∧ pots s' = pots s ∧ pots_ok s' ∧ accounts_grow s s'.
Proof. intros Hb. destruct (conway_rupd_ok s Hb) as (s' & ? & ? & ? & ? & _). by exists s'. Qed.

(** C24: The rewards of an update add up to at
    most the pot, the expansion and the fees without the treasury's cut, and
    each is positive. This holds under [update_ok]: rho, tau and
    the margins are fractions, a0, pledges, costs and stakes are not negative,
    reserves and fees fit 64 bits, the pools' stake in the snapshot is within
    the circulating supply and covers their delegators, and no registration
    lists an owner twice. (The last is needed: pools with a
    repeated owner, which the decoders before Conway accept, are overpaid, see
    [duplicate_owner_overpaid].) *)
Theorem rewards_within_pot pp prev_d pv go bprev ss_fee reserves accounts addrs len max nm rupd :
  update_ok pp go bprev ss_fee reserves max →
  compute_reward_update pp prev_d pv go bprev ss_fee reserves accounts addrs len max nm None None = Some rupd →
  let m := update_monetary pp prev_d bprev ss_fee reserves len max in
  ksum (λ _ x, x) (rupd_rewards rupd) ≤ ms_r m ∧ ms_r m + ms_delta_t1 m = ms_delta_r1 m + ss_fee ∧
  ms_delta_r1 m ≤ reserves ∧ (∀ c x, rupd_rewards rupd !! c = Some x → 0 < x).
Proof.
  intros Hok Hc m. rewrite <- compute_frozen in Hc. fold m in Hc.
  destruct (compute_balances pp prev_d pv go bprev ss_fee reserves accounts addrs len max nm None Hok)
    as (rupd' & Hc' & (Hpos & _) & Hle); [by intros g f _ Hf|].
  fold m in Hc', Hle. rewrite Hc in Hc'. injection Hc' as <-.
  destruct (monetary_bounds (par_rho pp) (par_tau pp) (rational_pair prev_d) (par_active_slot_coeff pp) reserves
    ss_fee (wsum (map_values bprev)) len max) as (Hr1 & Ht1 & Hr & Heq); [apply Hok..|apply wsum_nonneg|].
  fold (update_monetary pp prev_d bprev ss_fee reserves len max) m in Hr1, Ht1, Hr, Heq.
  split; [done|]. split; [lia|]. split; [lia|exact Hpos].
Qed.

(** The reward, MIR and snapshot steps of a boundary from Shelley to Babbage. *)
Definition shelley_boundary (new_epoch : EpochNo) (s : LedgerState) : option LedgerState :=
  s ← shelley_rupd new_epoch s;
  Some (snap_rotate true new_epoch (apply_pending_mir s)).

Lemma shelley_rupd_ok new_epoch s :
  boundary_ok s → pending_avvm_return (epochs s) = 0 →
  (0 < shelley_transition_epoch (ls_config s) → new_epoch ≠ shelley_transition_epoch (ls_config s)) →
  ∃ s', shelley_rupd new_epoch s = Some s' ∧ pots s' = pots s ∧ pots_ok s'.
Proof.
  intros Hb Havvm Hfork. destruct (flush_ok s Hb) as (s1 & Hf & Hb1 & Hpots & _ & Hacc & Hst & Htr).
  assert (ls_config s1 = ls_config s ∧ pending_avvm_return (epochs s1) = pending_avvm_return (epochs s)) as [Hcfg Hav].
  { revert Hf. unfold flush_donations, checked_add64. repeat case_match; cbn; try done; by intros [= <-]. }
  unfold shelley_rupd. rewrite Hf. cbn [mbind option_bind]. unfold apply_carried_rupd. rewrite (bo_carried s1 Hb1).
  cbn [mbind option_bind]. set (s2 := s1 <| epochs ::= λ e, e <| last_applied_rupd := None |> |>).
  assert ((0 <? shelley_transition_epoch (ls_config s2)) && (new_epoch =? shelley_transition_epoch (ls_config s2)) = false) as ->.
  { change (ls_config s2) with (ls_config s1). rewrite Hcfg. apply andb_false_iff.
    destruct (Z.ltb_spec 0 (shelley_transition_epoch (ls_config s))); [right|by left].
    apply Z.eqb_neq. by apply Hfork. }
  cbn [negb andb].
  assert (boundary_ok s2) as Hb2.
  { destruct Hb1. constructor; try done.
    - eapply frame_inv; [..|exact bo_inv0]; by constructor.
    - destruct bo_pots0. by constructor. }
  destruct (rupd_pulser_started (epochs s2)) eqn:Hst2.
  - set (s3 := s2 <| epochs ::= λ e, e <| pending_avvm_return := 0 |> |>).
    assert (boundary_ok s3) as Hb3.
    { destruct Hb2. constructor; try done.
      - eapply frame_inv; [..|exact bo_inv0]; by constructor.
      - destruct bo_pots0. by constructor. }
    assert (saturating_sub64 (reserves (epochs s2)) (pending_avvm_return (epochs s2)) = reserves (epochs s3)) as ->.
    { change (pending_avvm_return (epochs s2)) with (pending_avvm_return (epochs s1)). rewrite Hav, Havvm.
      unfold saturating_sub64. rewrite Z.sub_0_r. apply Z.max_l. apply (pk_reserves s2 (bo_pots s2 Hb2)). }
    destruct (closed_ok s3 Hb3 Hst2) as (s4 & -> & _ & Hp4 & Hok4 & _). cbn [mbind option_bind].
    eexists. split; [reflexivity|]. split; [rewrite Hp4; exact Hpots|done].
  - cbn [mbind option_bind]. unfold drain_fees. cbn. change (rupd_pulser_started (epochs s1)) with (rupd_pulser_started (epochs s2)).
    rewrite Hst2. eexists. split; [reflexivity|]. split; [exact Hpots|]. destruct (bo_pots s1 Hb1); by constructor.
Qed.

(** C25: At a boundary of Shelley to Babbage,
    other than the fork from Byron and the translation to Allegra, the reward
    update, the MIR transfers and the snapshot rotation together do not panic
    and conserve the coin of the pots. *)
Theorem shelley_boundary_conserved new_epoch s :
  boundary_ok s → pending_avvm_return (epochs s) = 0 →
  (0 < shelley_transition_epoch (ls_config s) → new_epoch ≠ shelley_transition_epoch (ls_config s)) →
  ∃ s', shelley_boundary new_epoch s = Some s' ∧ pots s' = pots s ∧ pots_ok s'.
Proof.
  intros Hb Ha Hf. destruct (shelley_rupd_ok new_epoch s Hb Ha Hf) as (s1 & Hs1 & Hp1 & Hok1).
  destruct (mir_ok s1 Hok1) as (Hp2 & Hok2 & _ & _).
  unfold shelley_boundary. rewrite Hs1. cbn [mbind option_bind]. eexists. split; [reflexivity|].
  split; [etransitivity; [|rewrite <- Hp1; exact Hp2]; done|]. destruct Hok2. by constructor.
Qed.

(** C26: A rotation moves mark to set and set to go
    and takes a new mark, which is exact when no stake is negative and the total
    fits 64 bits: a delegating credential has its outputs, its rewards and, in
    the eras with pointers, what registered pointers to it hold; a pool has
    precisely the sum over its delegators, and all pools together no more than
    all of that stake. So if the registrations and the snapshots in use meet
    [snapshot_ok], the rotated ones do. *)
Theorem rotation_keeps_snapshots s with_pointers new_epoch :
  certs_ok s → snapshots_ok s →
  let snaps := snapshots (epochs (snap_rotate with_pointers new_epoch s)) in
  let ptrs := if with_pointers then ptr_stake (epochs s) else ∅ in
  snapshots_ok (snap_rotate with_pointers new_epoch s) ∧
  es_set snaps = es_mark (snapshots (epochs s)) ∧ es_go snaps = es_set (snapshots (epochs s)) ∧
  ∃ mark, es_mark snaps = Some mark ∧ mark_exact s ptrs mark.
Proof. intros Hc Hs. split; [by apply rotate_ok|by apply rotate_exact]. Qed.

(** MIR transfers move coin between the reserves, the
    treasury and registered accounts only, all of it or none, and leave nothing
    pending. *)
Theorem mir_conserves_pots s :
  pots_ok s → pots (apply_pending_mir s) = pots s ∧ pots_ok (apply_pending_mir s) ∧
    pending_mir_reserves (certs (apply_pending_mir s)) = ∅ ∧ pending_mir_treasury (certs (apply_pending_mir s)) = ∅.
Proof. apply mir_ok. Qed.

End theorems.
