(* ===== verification/RewardGaps.v ===== *)
(** * Rewards: a small ledger, witnesses, and where rewards go wrong

    A pool with an owner and two delegators, on which the theorems about rewards
    are evaluated. Then: an owner listed twice, which the decoder accepts before
    Conway, makes the rewards exceed the pot; and a rollback brings back the
    fold of the anchor, which no later block replaces and the boundary pays. *)

From S2P Require Import Prelude Order RecordUpdate EraHistory Block Ledger LedgerDelta LedgerSeq LedgerSeqTheorems LedgerCapture LedgerRollback LedgerTheorems RewardRat RewardPulser Rewards RewardEpoch RewardBounds RewardDistribution RewardUpdate RewardTheorems.
Local Open Scope Z_scope.
Local Open Scope record_scope.

(** ** The fold in flight across a rollback *)

Section stale.
Context `{RewardRest}.

(** A finished fold stays in flight, whatever snapshot the epoch has. *)
Lemma finished_fold_kept s s' f :
  if_fold (rupd_fold (epochs s)) = Some f → fold_is_done f = true → rtc epoch_step s s' →
  if_fold (rupd_fold (epochs s')) = Some f.
Proof.
  intros Hf Hd Hrun. induction Hrun as [|s s1 s2 Hstep _ IH]; [done|]. apply IH. clear IH.
  destruct Hstep as [era slot s|s s1 _ Hp]; [|by rewrite (pf_fold s s1 Hp)].
  unfold rupd_tick. destruct (bool_decide (era = Byron)); [done|]. cbv zeta. fold (maybe_start slot s).
  assert (rupd_fold (epochs (capture_addrs_rew slot (maybe_start slot s))) = rupd_fold (epochs s)) as Hk.
  { unfold capture_addrs_rew, maybe_start. repeat case_match; done. }
  set (t := capture_addrs_rew slot (maybe_start slot s)) in *.
  change (if_fold (rupd_fold (pulse_rupd_member_fold (prev_d (epochs t)) (prev_protocol_version_major (epochs t))
    (security_param (config_rest (ls_config t))) (epoch_length (ls_config t)) (epochs t))) = Some f).
  unfold pulse_rupd_member_fold. destruct (rupd_monetary (epochs t)); [|by rewrite Hk].
  assert (in_flight_is_complete (rupd_fold (epochs t)) = true) as ->
    by (unfold in_flight_is_complete; by rewrite Hk, Hf). cbn. by rewrite Hk.
Qed.

(** The entries of a finished fold are paid as they are, for every snapshot. *)
Lemma finished_fold_paid go ti f : fold_is_done f = true →
  ∃ raw, distribute go ti (Some f) =
    Some (let rewards := deliver_rewards (ti_pv_major ti) (push_leaders false (build_pool_reward_table go ti) (fold_acc f)) in
          (rewards, wsum (map_values rewards), raw)).
Proof.
  intros Hd. unfold distribute. cbn [default from_option]. unfold id.
  assert (∀ ctx, fold_into_entries (fold_complete ctx f) = Some (fold_acc f)) as Hc.
  { intros ctx. unfold fold_is_done in Hd. apply bool_decide_eq_true in Hd.
    unfold fold_complete, fold_pulse, fold_into_entries, fold_is_done. cbn.
    rewrite bool_decide_true by lia.
    by replace (Nat.min (fold_cursor f + (length (fold_queue f) - fold_cursor f)) (length (fold_queue f)) - fold_cursor f)%nat
      with 0%nat by lia. }
  rewrite Hc. cbn [mbind option_bind]. eauto.
Qed.

(** No delta records the fold in flight. A
    rollback of at least one block therefore brings back the fold of the
    anchor; if that fold is finished, as after the window of the epoch in which
    the anchor was set, every later state of the epoch still holds it, and the
    boundary pays its entries to its credentials, whichever snapshot the
    rewards are due for. *)
Theorem rollback_pays_stale_fold target live q n live' q' f s go ti :
  seq_ok q → rollback_via_seq target live q = Some (Some (S n), live', q') →
  if_fold (rupd_fold (epochs (sq_anchor q))) = Some f → fold_is_done f = true →
  rtc epoch_step live' s →
  if_fold (rupd_fold (epochs s)) = Some f ∧
  ∃ raw, distribute go ti (if_fold (rupd_fold (epochs s))) =
    Some (let rewards := deliver_rewards (ti_pv_major ti) (push_leaders false (build_pool_reward_table go ti) (fold_acc f)) in
          (rewards, wsum (map_values rewards), raw)).
Proof.
  intros Hq Hr Hf Hd Hrun. destruct (rollback_frozen _ _ _ _ _ _ Hq Hr) as (st & _ & He & Est).
  injection Est as ? ? ? ? ? ? Hfold ? ? ? ? ?.
  assert (if_fold (rupd_fold (epochs s)) = Some f) as ->.
  { eapply finished_fold_kept; [|exact Hd|exact Hrun]. by rewrite He, Hfold. }
  split; [done|]. by apply finished_fold_paid.
Qed.

End stale.

(** ** A small ledger *)

#[local] Instance small_likelihoods : Likelihoods :=
  {| Likelihood := unit; Likelihood_eq_dec := _; Probability := unit;
     leader_probability := λ _ _ _, tt; likelihood_empty := tt; likelihood_new := λ _ _ _, tt;
     apply_decay := λ _, tt; combine := λ _ _, tt |}.

#[local] Instance small_rest : RewardRest :=
  {| rr_likelihoods := small_likelihoods; rr_output := unit; rr_params := unit; rr_proposal := unit;
     rr_update := unit; rr_byron := unit; rr_forest := unit; rr_drep_pulser := unit; rr_future := unit;
     rr_config := unit; rr_registry := unit; rr_byron_eq_dec := _ |}.

Definition small_key (n : Z) : Hash28 := replicate 28 n.
Definition small_cred (n : Z) : Hash32 := to_hash32_padded (small_key n).

(** Pool 9, owned by credential 1, with delegators 2 and 3. *)
Definition small_pool (owners : list Hash28) : PoolRegistration :=
  mkPool (small_key 9) [] 100 10 1 10 (225 :: small_key 1) owners [] None None.

Definition small_go (owners : list Hash28) : StakeSnapshot :=
  mkSnapshot 1 {[small_cred 1 := small_key 9; small_cred 2 := small_key 9; small_cred 3 := small_key 9]}
    {[small_key 9 := 10000]} {[small_key 9 := small_pool owners]}
    {[small_cred 1 := 6000; small_cred 2 := 3000; small_cred 3 := 1000]} 0 0 ∅.

Definition small_params : RewardParams :=
  mkRewardParams (mkRational 3 1000) (mkRational 1 5) (mkRational 0 1) 1 (1, 20) 0 tt.

Definition small_blocks : gmap Hash28 Z := {[small_key 9 := 20]}.

Definition small_snapshots (go : StakeSnapshot) : EpochSnapshots :=
  mkSnapshots None None (Some go) 500 20 small_blocks true.

Definition small_pp : ProtocolParameters := mkParams 9 (mkRational 0 1) 2 500 small_params.

Definition small_state (go : StakeSnapshot) : LedgerState :=
  mkLedger (mkUtxo ∅ [] 700 40)
    (mkCerts ∅ ∅ ∅ ∅ ∅ {[small_cred 1 := 5; small_cred 2 := 0]} ∅ ∅ 0 ∅ ∅ ∅ ∅ ∅ 0 0)
    (mkGov ∅ ∅ ∅ ∅ ∅ ∅ ∅ ∅ ∅ tt 0 0 None false None None None None None [] [] false 0 None tt)
    (mkConsensus [] [] [] [] [] [] [] [] None None ∅ 0 ∅)
    (mkEpochs (small_snapshots go) 1000 1000000 None non_myopic_default None ∅ ∅ false ∅ false small_pp small_pp 9
       (mkRational 0 1) None false None None (mkInFlight ∅ None) 0)
    (mkTip Origin 0) Conway None 0 (mkLedgerConfig 400 0 0 (mkRewardConfig 40 320 1010000 tt)) ∅ ∅ tt None None.

Definition small_start : LedgerState := small_state (small_go [small_key 1]).

(** The state after blocks at the given slots. *)
Definition small_ticks (slots : list Z) (s : LedgerState) : LedgerState :=
  foldl (λ s slot, rupd_tick Conway slot s) s slots.

Lemma small_ticks_run slots s : rtc epoch_step s (small_ticks slots s).
Proof.
  revert s. induction slots as [|x l IH]; intros s; [constructor|]. eapply rtc_l; [apply (step_tick Conway x)|apply IH].
Qed.

Definition small_end : LedgerState := small_ticks [10; 330; 340; 350; 360] small_start.

Lemma small_fresh : pulser_fresh small_start.
Proof. constructor; done. Qed.

Definition small_rewards (r : option PendingRewardUpdate) : list (option Lovelace) :=
  (λ n, r ≫= λ r, rupd_rewards r !! small_cred n) <$> [1; 2; 3].

Lemma pulsed_update_exact_witness :
  rupd_pulser_started (epochs small_end) = true ∧
  small_rewards (boundary_rupd (reserves (epochs small_end)) small_end) = [Some 1795; Some 753; Some 251] ∧
  boundary_rupd (reserves (epochs small_end)) small_end =
  compute_reward_update (state_params small_end) (prev_d (epochs small_end))
    (prev_protocol_version_major (epochs small_end))
    (es_go (snapshots (epochs small_end))) (state_bprev small_end) (es_ss_fee (snapshots (epochs small_end)))
    (reserves (epochs small_end))
    (reward_accounts (certs small_end)) (rupd_addrs_rew (epochs small_end)) (epoch_length (ls_config small_end))
    (state_supply small_end) (non_myopic (epochs small_end)) None None.
Proof.
  split; [vm_compute; reflexivity|]. split; [vm_compute; reflexivity|].
  apply (pulsed_update_exact small_start small_end small_fresh (small_ticks_run _ _)). vm_compute. reflexivity.
Defined.

(** ** Witnesses *)

(** The update of the small epoch and what it pays. *)
Definition small_update (owners : list Hash28) : option PendingRewardUpdate :=
  compute_reward_update small_params (mkRational 0 1) 9 (Some (small_go owners)) small_blocks 500 1000000
    ∅ None 400 1010000 non_myopic_default None None.

Definition small_paid (owners : list Hash28) : option Z :=
  (λ r, ksum (λ _ x, x) (rupd_rewards r)) <$> small_update owners.

Lemma small_paid_inv owners n : small_paid owners = Some n →
  ∃ rupd, small_update owners = Some rupd ∧ ksum (λ _ x, x) (rupd_rewards rupd) = n.
Proof. unfold small_paid. destruct (small_update owners) as [r|]; [|done]. intros [= <-]. eauto. Qed.

Lemma small_go_ok : snapshot_ok (small_go [small_key 1]).
Proof.
  constructor.
  - apply nonneg_by_forall. evaluate.
  - intros p st Hp. cbn in Hp. apply lookup_singleton_Some in Hp as [<- <-]. split; evaluate.
  - intros p reg Hp. cbn in Hp. apply lookup_singleton_Some in Hp as [<- <-].
    constructor; cbn; [apply NoDup_singleton|lia..].
Qed.

Lemma small_update_ok : update_ok small_params (Some (small_go [small_key 1])) small_blocks 500 1000000 1010000.
Proof.
  constructor; try (unfold unit_interval, rational_ok, u64_max; cbn; lia).
  - split; [apply nonneg_by_forall|]; evaluate.
  - intros g [= <-]. split; [exact small_go_ok|]. split; evaluate.
Qed.

Lemma small_boundary_ok : boundary_ok small_end.
Proof.
  constructor.
  - apply (epoch_inv small_start); [apply small_ticks_run|apply fresh_inv, small_fresh].
  - constructor; [evaluate|evaluate|apply nonneg_by_forall; evaluate|evaluate|evaluate|evaluate].
  - split; evaluate.
  - destruct (epoch_frame small_start small_end (small_ticks_run _ _)).
    unfold state_params, state_bprev, state_supply. rewrite rf_snapshots, rf_reserves, rf_params, rf_config.
    exact small_update_ok.
  - vm_compute. reflexivity.
Qed.

Lemma reward_pots_conserved_witness :
  pots small_end = 1001745 ∧
  ∃ s', conway_rupd small_end = Some s' ∧ pots s' = pots small_end ∧ pots_ok s' ∧ accounts_grow small_end s'.
Proof. split; [vm_compute; reflexivity|]. apply (reward_pots_conserved small_end small_boundary_ok). Defined.

Lemma shelley_boundary_conserved_witness :
  ∃ s', shelley_boundary 1 small_end = Some s' ∧ pots s' = pots small_end ∧ pots_ok s'.
Proof.
  apply (shelley_boundary_conserved 1 small_end small_boundary_ok); [vm_compute; reflexivity|].
  rewrite (rf_config _ _ (epoch_frame small_start small_end (small_ticks_run _ _))). cbn. lia.
Defined.

Lemma rewards_within_pot_witness :
  ∃ rupd, small_update [small_key 1] = Some rupd ∧ ksum (λ _ x, x) (rupd_rewards rupd) = 2799 ∧
    let m := update_monetary small_params (mkRational 0 1) small_blocks 500 1000000 400 1010000 in
    ms_r m = 2800 ∧ ksum (λ _ x, x) (rupd_rewards rupd) ≤ ms_r m ∧ ms_r m + ms_delta_t1 m = ms_delta_r1 m + 500 ∧
    ms_delta_r1 m ≤ 1000000 ∧ (∀ c x, rupd_rewards rupd !! c = Some x → 0 < x).
Proof.
  destruct (small_paid_inv [small_key 1] 2799) as (rupd & Hc & Hs); [vm_compute; reflexivity|].
  exists rupd. split; [done|]. split; [done|]. split; [vm_compute; reflexivity|]. unfold small_update in Hc.
  exact (rewards_within_pot small_params (mkRational 0 1) 9 (Some (small_go [small_key 1])) small_blocks 500 1000000
    ∅ None 400 1010000 non_myopic_default rupd small_update_ok Hc).
Defined.

Definition small_ctx : MemberFoldCtx :=
  snapshot_ctx (small_go [small_key 1])
    (table_inputs small_params (mkRational 0 1) 9 (small_go [small_key 1]) small_blocks
       (update_monetary small_params (mkRational 0 1) small_blocks 500 1000000 400 1010000) (λ _, true)).

Lemma pulses_finish_witness :
  fold_pulse_size (size (ctx_delegations small_ctx)) 1 = 1%nat ∧
  fold_into_entries (pulses small_ctx (reward_fold_new (ctx_delegations small_ctx))
    (replicate (Z.to_nat (4 * 1)) (fold_pulse_size (size (ctx_delegations small_ctx)) 1))) = Some (member_map small_ctx).
Proof. split; [vm_compute; reflexivity|]. apply (pulses_finish small_ctx 1); unfold u64_max; lia. Defined.

Definition small_mir : LedgerState :=
  small_start <| certs ::= λ c, c <| pending_mir_reserves := {[small_cred 2 := 30; small_cred 7 := 50]} |> |>.

Lemma small_mir_ok : pots_ok small_mir.
Proof. constructor; [evaluate|evaluate|apply nonneg_by_forall; evaluate|evaluate..]. Qed.

Lemma mir_conserves_pots_witness :
  reward_accounts (certs (apply_pending_mir small_mir)) !! small_cred 2 = Some 30 ∧
  reserves (epochs (apply_pending_mir small_mir)) = 999970 ∧ pots (apply_pending_mir small_mir) = pots small_mir.
Proof.
  split; [vm_compute; reflexivity|]. split; [vm_compute; reflexivity|].
  exact (proj1 (mir_conserves_pots small_mir small_mir_ok)).
Defined.

(** A certificate state with two delegators, one of them also through a pointer. *)
Definition small_mark : LedgerState :=
  small_start <| certs ::= λ c, c <| delegations := {[small_cred 1 := small_key 9; small_cred 2 := small_key 9]} |>
                   <| stake_map := {[small_cred 1 := 100; small_cred 2 := 50; small_cred 3 := 7]} |>
                   <| pool_params := {[small_key 9 := small_pool [small_key 1]]} |>
                   <| pointer_map := {[mkPointer 1 2 3 := small_cred 2]} |> |>
              <| epochs ::= λ e, e <| ptr_stake := {[mkPointer 1 2 3 := 11]} |> |>.

Lemma rotation_keeps_snapshots_witness :
  (es_mark (snapshots (epochs (snap_rotate true 1 small_mark))) ≫= λ g, snap_pool_stake g !! small_key 9) = Some 166 ∧
  snapshots_ok (snap_rotate true 1 small_mark).
Proof.
  split; [vm_compute; reflexivity|]. refine (proj1 (rotation_keeps_snapshots small_mark true 1 _ _)).
  - constructor; [apply nonneg_by_forall; evaluate|apply nonneg_by_forall; evaluate|apply nonneg_by_forall; evaluate|evaluate|].
    intros p reg Hp. cbn in Hp. apply lookup_singleton_Some in Hp as [<- <-].
    constructor; cbn; [apply NoDup_singleton|lia..].
  - intros g [Hg|[Hg|Hg]]; cbn in Hg; [discriminate|discriminate|]. injection Hg as <-. exact small_go_ok.
Defined.

(** ** An owner listed twice *)

(** The decoder of pool registrations keeps
    duplicate owners before Conway, and the owners' stake is summed over the
    list: with its owner listed twice the same pool gets rewards beyond the
    pot, although everything else is as in the bound on rewards. *)
Theorem duplicate_owner_overpaid :
  let go := small_go [small_key 1; small_key 1] in
  let m := update_monetary small_params (mkRational 0 1) small_blocks 500 1000000 400 1010000 in
  owner_stake go (small_key 9) (small_pool [small_key 1; small_key 1]) = 12000 ∧
  ms_r m = 2800 ∧
  ∃ rupd, small_update [small_key 1; small_key 1] = Some rupd ∧ ksum (λ _ x, x) (rupd_rewards rupd) = 4306.
Proof.
  split; [vm_compute; reflexivity|]. split; [vm_compute; reflexivity|].
  apply small_paid_inv. vm_compute. reflexivity.
Qed.

(** The next epoch: another snapshot, nothing frozen, no fold; and a block more. *)
Definition small_go2 : StakeSnapshot :=
  mkSnapshot 2 {[small_cred 1 := small_key 9]} {[small_key 9 := 10000]}
    {[small_key 9 := small_pool [small_key 1]]} {[small_cred 1 := 10000]} 0 0 ∅.

Definition small_block (n : Z) (s : LedgerState) : LedgerState :=
  s <| utxo ::= λ u, u <| diff_seq ::= λ l, l ++ [(n, [n], mkDiff [] [])] |> |>
    <| ls_tip := mkTip (Specific n [n]) n |>.

Definition small_next : LedgerState :=
  small_block 401 (clear_rupd (small_end
    <| epochs ::= λ e, e <| snapshots := small_snapshots small_go2 |> <| rupd_fold := mkInFlight ∅ None |> |>
    <| ls_epoch := 1 |>)).
Definition small_live : LedgerState := small_block 402 small_next.

Definition small_delta (n : Z) (pre post : LedgerState) : LedgerDelta :=
  capture (λ v, v) (mkBlockInfo n [n] n [] []) (mkMoves false false false false) pre post.

Definition small_q0 : LedgerSeq := seq_new small_end 2 1.
Definition small_q : LedgerSeq :=
  default small_q0
    (seq_push (small_delta 401 small_end small_next) small_q0 ≫= seq_push (small_delta 402 small_next small_live)).

Definition small_inputs2 : TableInputs :=
  table_inputs small_params (mkRational 0 1) 9 small_go2 small_blocks
    (update_monetary small_params (mkRational 0 1) small_blocks 500 1000000 400 1010000) (λ _, true).

Definition small_fold : RewardFold :=
  default (reward_fold_new ∅) (if_fold (rupd_fold (epochs small_end))).

(** The parts of the outcome of a rollback. *)
Definition rolled_blocks (r : option (option nat * LedgerState * LedgerSeq)) : option (option nat) := (λ x, x.1.1) <$> r.
Definition rolled_state (r : option (option nat * LedgerState * LedgerSeq)) : LedgerState :=
  match r with Some (_, l, _) => l | None => small_live end.
Definition rolled_seq (r : option (option nat * LedgerState * LedgerSeq)) : LedgerSeq :=
  match r with Some (_, _, q) => q | None => small_q end.

Lemma rolled_eq r n : rolled_blocks r = Some (Some n) → r = Some (Some n, rolled_state r, rolled_seq r).
Proof. destruct r as [[[o l] q]|]; cbn; [by intros [= ->]|done]. Qed.

Definition small_back : LedgerState := rolled_state (rollback_via_seq (Specific 401 [401]) small_live small_q).

Lemma small_rolled : rolled_blocks (rollback_via_seq (Specific 401 [401]) small_live small_q) = Some (Some 1%nat).
Proof. vm_compute. reflexivity. Qed.

Lemma small_fold_done : fold_is_done small_fold = true.
Proof. vm_compute. reflexivity. Qed.

Lemma two_pushes_ok d1 d2 q0 : seq_ok q0 → (0 < sq_k q0)%nat →
  seq_ok (default q0 (seq_push d1 q0 ≫= seq_push d2)).
Proof.
  intros Hq Hk. destruct (push_spec d1 q0 Hq Hk) as (q1 & -> & Hok & Ek & _). cbn.
  destruct (push_spec d2 q1 Hok) as (q2 & -> & Hok2 & _); [by rewrite Ek|done].
Qed.

Lemma small_q_ok : seq_ok small_q.
Proof. apply two_pushes_ok; [apply seq_new_ok|cbn; lia]. Qed.

Lemma small_anchor : if_fold (rupd_fold (epochs (sq_anchor small_q))) = Some small_fold.
Proof. vm_compute. reflexivity. Qed.

(** After the rollback of one block the boundary of the second epoch pays
    credential 2 the reward of the first, although it does not delegate. *)
Lemma rollback_pays_stale_fold_witness :
  snap_delegations small_go2 !! small_cred 2 = None ∧
  deliver_rewards (ti_pv_major small_inputs2)
    (push_leaders false (build_pool_reward_table small_go2 small_inputs2) (fold_acc small_fold)) !! small_cred 2
    = Some 753 ∧
  if_fold (rupd_fold (epochs (small_ticks [730; 740] small_back))) = Some small_fold ∧
  ∃ raw, distribute small_go2 small_inputs2 (if_fold (rupd_fold (epochs (small_ticks [730; 740] small_back)))) =
    Some (let rewards := deliver_rewards (ti_pv_major small_inputs2)
            (push_leaders false (build_pool_reward_table small_go2 small_inputs2) (fold_acc small_fold)) in
          (rewards, wsum (map_values rewards), raw)).
Proof.
  split; [vm_compute; reflexivity|]. split; [vm_compute; reflexivity|].
  exact (rollback_pays_stale_fold _ _ _ 0 _ _ small_fold (small_ticks [730; 740] small_back) small_go2 small_inputs2
    small_q_ok (rolled_eq _ _ small_rolled) small_anchor small_fold_done (small_ticks_run _ _)).
Defined.
