(* ===== verification/GovTypes.v ===== *)
(** * Governance data ([primitives/src/transaction.rs], [ledger/src/state/mod.rs])

    Governance actions, proposals, the forest of proposals of each purpose, the
    frozen DRep pulser, protocol parameters and their updates. The class
    [GovRest] names what the ledger state still only copies; under it the state
    of [Ledger] is the one whose proposals, forest, pulser and parameters are
    the concrete ones of this file. *)

From S2P Require Import Prelude Order RecordUpdate EraHistory Block Ledger RewardRat RewardPulser Rewards.
Local Open Scope Z_scope.
Local Open Scope record_scope.

(** ** Parameters and their updates *)

Record ExUnits := mkExUnits { ex_mem : Z; ex_steps : Z }.
Record ExUnitPrices := mkPrices { mem_price : Rational; step_price : Rational }.

Record CostModels := mkCostModels {
  plutus_v1 : option (list Z);
  plutus_v2 : option (list Z);
  plutus_v3 : option (list Z);
  plutus_v4 : option (list Z);
  unknown_cost_models : gmap Z (list Z);
}.

Record ProtocolParamUpdate := mkUpdate {
  u_min_fee_a : option Z;
  u_min_fee_b : option Z;
  u_max_block_body_size : option Z;
  u_max_tx_size : option Z;
  u_max_block_header_size : option Z;
  u_key_deposit : option Lovelace;
  u_pool_deposit : option Lovelace;
  u_e_max : option Z;
  u_n_opt : option Z;
  u_a0 : option Rational;
  u_rho : option Rational;
  u_tau : option Rational;
  u_min_pool_cost : option Lovelace;
  u_ada_per_utxo_byte : option Lovelace;
  u_min_utxo_value : option Lovelace;
  u_cost_models : option CostModels;
  u_execution_costs : option ExUnitPrices;
  u_max_tx_ex_units : option ExUnits;
  u_max_block_ex_units : option ExUnits;
  u_max_val_size : option Z;
  u_collateral_percentage : option Z;
  u_max_collateral_inputs : option Z;
  u_min_fee_ref_script_cost_per_byte : option Rational;
  u_d : option Rational;
  u_extra_entropy : option Hash32;
  u_protocol_version_major : option Z;
  u_protocol_version_minor : option Z;
  u_drep_deposit : option Lovelace;
  u_gov_action_deposit : option Lovelace;
  u_gov_action_lifetime : option Z;
  u_dvt_pp_network_group : option Rational;
  u_dvt_pp_economic_group : option Rational;
  u_dvt_pp_technical_group : option Rational;
  u_dvt_pp_gov_group : option Rational;
  u_dvt_hard_fork : option Rational;
  u_dvt_no_confidence : option Rational;
  u_dvt_committee_normal : option Rational;
  u_dvt_committee_no_confidence : option Rational;
  u_dvt_constitution : option Rational;
  u_dvt_treasury_withdrawal : option Rational;
  u_pvt_motion_no_confidence : option Rational;
  u_pvt_committee_normal : option Rational;
  u_pvt_committee_no_confidence : option Rational;
  u_pvt_hard_fork : option Rational;
  u_pvt_pp_security_group : option Rational;
  u_min_committee_size : option Z;
  u_committee_term_limit : option Z;
  u_drep_activity : option Z;
  u_max_ref_script_size_per_block : option Z;
  u_max_ref_script_size_per_tx : option Z;
  u_ref_script_cost_stride : option Z;
  u_ref_script_cost_multiplier : option Rational;
}.

Definition no_update : ProtocolParamUpdate := {|
  u_min_fee_a := None; u_min_fee_b := None; u_max_block_body_size := None; u_max_tx_size := None;
  u_max_block_header_size := None; u_key_deposit := None; u_pool_deposit := None; u_e_max := None;
  u_n_opt := None; u_a0 := None; u_rho := None; u_tau := None; u_min_pool_cost := None;
  u_ada_per_utxo_byte := None; u_min_utxo_value := None; u_cost_models := None; u_execution_costs := None;
  u_max_tx_ex_units := None; u_max_block_ex_units := None; u_max_val_size := None;
  u_collateral_percentage := None; u_max_collateral_inputs := None; u_min_fee_ref_script_cost_per_byte := None;
  u_d := None; u_extra_entropy := None; u_protocol_version_major := None; u_protocol_version_minor := None;
  u_drep_deposit := None; u_gov_action_deposit := None; u_gov_action_lifetime := None;
  u_dvt_pp_network_group := None; u_dvt_pp_economic_group := None; u_dvt_pp_technical_group := None;
  u_dvt_pp_gov_group := None; u_dvt_hard_fork := None; u_dvt_no_confidence := None;
  u_dvt_committee_normal := None; u_dvt_committee_no_confidence := None; u_dvt_constitution := None;
  u_dvt_treasury_withdrawal := None; u_pvt_motion_no_confidence := None; u_pvt_committee_normal := None;
  u_pvt_committee_no_confidence := None; u_pvt_hard_fork := None; u_pvt_pp_security_group := None;
  u_min_committee_size := None; u_committee_term_limit := None; u_drep_activity := None;
  u_max_ref_script_size_per_block := None; u_max_ref_script_size_per_tx := None;
  u_ref_script_cost_stride := None; u_ref_script_cost_multiplier := None
|}.

(** The parameters beside those that the ledger state and the rewards read. *)
Record GovParams := mkGovParams {
  min_fee_a : Z;
  min_fee_b : Z;
  max_block_body_size : Z;
  max_tx_size : Z;
  max_block_header_size : Z;
  e_max : Z;
  min_pool_cost : Lovelace;
  ada_per_utxo_byte : Lovelace;
  min_utxo_value : Lovelace;
  coins_per_utxo_word : Lovelace;
  cost_models : CostModels;
  execution_costs : ExUnitPrices;
  max_tx_ex_units : ExUnits;
  max_block_ex_units : ExUnits;
  max_val_size : Z;
  collateral_percentage : Z;
  max_collateral_inputs : Z;
  min_fee_ref_script_cost_per_byte : Rational;
  drep_deposit : Lovelace;
  drep_activity : Z;
  gov_action_deposit : Lovelace;
  gov_action_lifetime : Z;
  committee_min_size : Z;
  committee_max_term_length : Z;
  dvt_pp_network_group : Rational;
  dvt_pp_economic_group : Rational;
  dvt_pp_technical_group : Rational;
  dvt_pp_gov_group : Rational;
  dvt_hard_fork : Rational;
  dvt_no_confidence : Rational;
  dvt_committee_normal : Rational;
  dvt_committee_no_confidence : Rational;
  dvt_constitution : Rational;
  dvt_treasury_withdrawal : Rational;
  pvt_motion_no_confidence : Rational;
  pvt_committee_normal : Rational;
  pvt_committee_no_confidence : Rational;
  pvt_hard_fork : Rational;
  pvt_pp_security_group : Rational;
  max_ref_script_size_per_block : option Z;
  max_ref_script_size_per_tx : option Z;
  ref_script_cost_stride : option Z;
  ref_script_cost_multiplier : option Rational;
}.

#[global] Instance cost_models_fields : Fields CostModels :=
  λ m, mkCostModels (plutus_v1 m) (plutus_v2 m) (plutus_v3 m) (plutus_v4 m) (unknown_cost_models m).

#[global] Instance update_fields : Fields ProtocolParamUpdate :=
  λ u, mkUpdate
    (u_min_fee_a u) (u_min_fee_b u) (u_max_block_body_size u) (u_max_tx_size u) (u_max_block_header_size u)
    (u_key_deposit u) (u_pool_deposit u) (u_e_max u) (u_n_opt u) (u_a0 u) (u_rho u) (u_tau u)
    (u_min_pool_cost u) (u_ada_per_utxo_byte u) (u_min_utxo_value u) (u_cost_models u) (u_execution_costs u)
    (u_max_tx_ex_units u) (u_max_block_ex_units u) (u_max_val_size u) (u_collateral_percentage u)
    (u_max_collateral_inputs u) (u_min_fee_ref_script_cost_per_byte u) (u_d u) (u_extra_entropy u)
    (u_protocol_version_major u) (u_protocol_version_minor u) (u_drep_deposit u) (u_gov_action_deposit u)
    (u_gov_action_lifetime u) (u_dvt_pp_network_group u) (u_dvt_pp_economic_group u)
    (u_dvt_pp_technical_group u) (u_dvt_pp_gov_group u) (u_dvt_hard_fork u) (u_dvt_no_confidence u)
    (u_dvt_committee_normal u) (u_dvt_committee_no_confidence u) (u_dvt_constitution u)
    (u_dvt_treasury_withdrawal u) (u_pvt_motion_no_confidence u) (u_pvt_committee_normal u)
    (u_pvt_committee_no_confidence u) (u_pvt_hard_fork u) (u_pvt_pp_security_group u) (u_min_committee_size u)
    (u_committee_term_limit u) (u_drep_activity u) (u_max_ref_script_size_per_block u)
    (u_max_ref_script_size_per_tx u) (u_ref_script_cost_stride u) (u_ref_script_cost_multiplier u).

#[global] Instance gov_params_fields : Fields GovParams :=
  λ g, mkGovParams (min_fee_a g) (min_fee_b g) (max_block_body_size g) (max_tx_size g)
    (max_block_header_size g) (e_max g) (min_pool_cost g) (ada_per_utxo_byte g) (min_utxo_value g)
    (coins_per_utxo_word g) (cost_models g) (execution_costs g) (max_tx_ex_units g) (max_block_ex_units g)
    (max_val_size g) (collateral_percentage g) (max_collateral_inputs g) (min_fee_ref_script_cost_per_byte g)
    (drep_deposit g) (drep_activity g) (gov_action_deposit g) (gov_action_lifetime g) (committee_min_size g)
    (committee_max_term_length g) (dvt_pp_network_group g) (dvt_pp_economic_group g)
    (dvt_pp_technical_group g) (dvt_pp_gov_group g) (dvt_hard_fork g) (dvt_no_confidence g)
    (dvt_committee_normal g) (dvt_committee_no_confidence g) (dvt_constitution g) (dvt_treasury_withdrawal g)
    (pvt_motion_no_confidence g) (pvt_committee_normal g) (pvt_committee_no_confidence g) (pvt_hard_fork g)
    (pvt_pp_security_group g) (max_ref_script_size_per_block g) (max_ref_script_size_per_tx g)
    (ref_script_cost_stride g) (ref_script_cost_multiplier g).

Abbreviation FullParameters := (ParametersOf (RewardParamsOf GovParams)).

Definition protocol_version_minor (p : FullParameters) : Z := par_protocol_version_minor (pp_rest p).
Definition gov_params (p : FullParameters) : GovParams := par_rest (pp_rest p).

(** Is the parameter in the update? *)
Definition touched {A} (o : option A) : bool := match o with Some _ => true | None => false end.

(** *** Applying an update *)

Definition validate_threshold (r : Rational) : bool :=
  negb (denominator r =? 0) && (numerator r <=? denominator r).

Definition valid_opt (o : option Rational) : bool := match o with Some r => validate_threshold r | None => true end.

(** The checks that run before the first write. *)
Definition validate_update (u : ProtocolParamUpdate) : bool :=
  forallb valid_opt
    [u_rho u; u_tau u; u_d u; u_dvt_pp_network_group u; u_dvt_pp_economic_group u;
     u_dvt_pp_technical_group u; u_dvt_pp_gov_group u; u_dvt_hard_fork u; u_dvt_no_confidence u;
     u_dvt_committee_normal u; u_dvt_committee_no_confidence u; u_dvt_constitution u;
     u_dvt_treasury_withdrawal u; u_pvt_motion_no_confidence u; u_pvt_committee_normal u;
     u_pvt_committee_no_confidence u; u_pvt_hard_fork u; u_pvt_pp_security_group u].

(** Key 17 is a price per word up to version 6 and per byte after it. *)
Definition key17_byte (major : Z) (g : GovParams) (u : ProtocolParamUpdate) : Lovelace :=
  match u_ada_per_utxo_byte u with
  | Some v => if major <=? 6 then v / 8 else v
  | None => ada_per_utxo_byte g
  end.

Definition key17_word (major : Z) (g : GovParams) (u : ProtocolParamUpdate) : Lovelace :=
  match u_ada_per_utxo_byte u with
  | Some v => if major <=? 6 then v else coins_per_utxo_word g
  | None => coins_per_utxo_word g
  end.

Definition overwrite {A} (old new : option A) : option A := match new with Some _ => new | None => old end.

Definition merge_cost_models (old : CostModels) (u : option CostModels) : CostModels :=
  match u with
  | None => old
  | Some v =>
      mkCostModels (overwrite (plutus_v1 old) (plutus_v1 v)) (overwrite (plutus_v2 old) (plutus_v2 v))
        (overwrite (plutus_v3 old) (plutus_v3 v)) (overwrite (plutus_v4 old) (plutus_v4 v))
        (unknown_cost_models v ∪ unknown_cost_models old)
  end.

(** The version that decides about key 17 is the one before the update. *)
Definition apply_gov_params (major : Z) (g : GovParams) (u : ProtocolParamUpdate) : GovParams :=
  mkGovParams
    (default (min_fee_a g) (u_min_fee_a u)) (default (min_fee_b g) (u_min_fee_b u))
    (default (max_block_body_size g) (u_max_block_body_size u)) (default (max_tx_size g) (u_max_tx_size u))
    (default (max_block_header_size g) (u_max_block_header_size u)) (default (e_max g) (u_e_max u))
    (default (min_pool_cost g) (u_min_pool_cost u)) (key17_byte major g u)
    (default (min_utxo_value g) (u_min_utxo_value u)) (key17_word major g u)
    (merge_cost_models (cost_models g) (u_cost_models u))
    (default (execution_costs g) (u_execution_costs u)) (default (max_tx_ex_units g) (u_max_tx_ex_units u))
    (default (max_block_ex_units g) (u_max_block_ex_units u)) (default (max_val_size g) (u_max_val_size u))
    (default (collateral_percentage g) (u_collateral_percentage u))
    (default (max_collateral_inputs g) (u_max_collateral_inputs u))
    (default (min_fee_ref_script_cost_per_byte g) (u_min_fee_ref_script_cost_per_byte u))
    (default (drep_deposit g) (u_drep_deposit u)) (default (drep_activity g) (u_drep_activity u))
    (default (gov_action_deposit g) (u_gov_action_deposit u))
    (default (gov_action_lifetime g) (u_gov_action_lifetime u))
    (default (committee_min_size g) (u_min_committee_size u))
    (default (committee_max_term_length g) (u_committee_term_limit u))
    (default (dvt_pp_network_group g) (u_dvt_pp_network_group u))
    (default (dvt_pp_economic_group g) (u_dvt_pp_economic_group u))
    (default (dvt_pp_technical_group g) (u_dvt_pp_technical_group u))
    (default (dvt_pp_gov_group g) (u_dvt_pp_gov_group u)) (default (dvt_hard_fork g) (u_dvt_hard_fork u))
    (default (dvt_no_confidence g) (u_dvt_no_confidence u))
    (default (dvt_committee_normal g) (u_dvt_committee_normal u))
    (default (dvt_committee_no_confidence g) (u_dvt_committee_no_confidence u))
    (default (dvt_constitution g) (u_dvt_constitution u))
    (default (dvt_treasury_withdrawal g) (u_dvt_treasury_withdrawal u))
    (default (pvt_motion_no_confidence g) (u_pvt_motion_no_confidence u))
    (default (pvt_committee_normal g) (u_pvt_committee_normal u))
    (default (pvt_committee_no_confidence g) (u_pvt_committee_no_confidence u))
    (default (pvt_hard_fork g) (u_pvt_hard_fork u))
    (default (pvt_pp_security_group g) (u_pvt_pp_security_group u)) (max_ref_script_size_per_block g)
    (max_ref_script_size_per_tx g) (ref_script_cost_stride g) (ref_script_cost_multiplier g).

Definition write_update (p : FullParameters) (u : ProtocolParamUpdate) : FullParameters :=
  let r := pp_rest p in
  mkParams (default (protocol_version_major p) (u_protocol_version_major u)) (default (pp_d p) (u_d u))
    (default (pp_key_deposit p) (u_key_deposit u)) (default (pp_pool_deposit p) (u_pool_deposit u))
    (mkRewardParams (default (par_rho r) (u_rho u)) (default (par_tau r) (u_tau u))
      (default (par_a0 r) (u_a0 u)) (default (par_n_opt r) (u_n_opt u)) (par_active_slot_coeff r)
      (default (par_protocol_version_minor r) (u_protocol_version_minor u))
      (apply_gov_params (protocol_version_major p) (par_rest r) u)).

(** [None] is the error; no parameter is written then. *)
Definition apply_protocol_param_update_impl (p : FullParameters) (u : ProtocolParamUpdate) :
    option FullParameters :=
  if validate_update u then Some (write_update p u) else None.

(** *** Voting groups of the parameters *)

Inductive DRepPPGroup : Type := GroupNetwork | GroupEconomic | GroupTechnical | GroupGov.
Inductive StakePoolPPGroup : Type := GroupSecurity | GroupNoVote.

#[global] Instance DRepPPGroup_eq_dec : EqDecision DRepPPGroup.
Proof. solve_decision. Defined.

#[global] Instance StakePoolPPGroup_eq_dec : EqDecision StakePoolPPGroup.
Proof. solve_decision. Defined.

Definition PPGroup : Type := DRepPPGroup * StakePoolPPGroup.

Definition group_if (b : bool) (g : PPGroup) : list PPGroup := if b then [g] else [].

Definition modified_pp_groups (u : ProtocolParamUpdate) : list PPGroup :=
  group_if (touched (u_max_block_body_size u)) (GroupNetwork, GroupSecurity) ++
  group_if (touched (u_max_tx_size u)) (GroupNetwork, GroupSecurity) ++
  group_if (touched (u_max_block_header_size u)) (GroupNetwork, GroupSecurity) ++
  group_if (touched (u_max_block_ex_units u)) (GroupNetwork, GroupSecurity) ++
  group_if (touched (u_max_val_size u)) (GroupNetwork, GroupSecurity) ++
  group_if (touched (u_max_tx_ex_units u)) (GroupNetwork, GroupNoVote) ++
  group_if (touched (u_max_collateral_inputs u)) (GroupNetwork, GroupNoVote) ++
  group_if (touched (u_min_fee_a u)) (GroupEconomic, GroupSecurity) ++
  group_if (touched (u_min_fee_b u)) (GroupEconomic, GroupSecurity) ++
  group_if (touched (u_ada_per_utxo_byte u)) (GroupEconomic, GroupSecurity) ++
  group_if (touched (u_min_fee_ref_script_cost_per_byte u)) (GroupEconomic, GroupSecurity) ++
  group_if (touched (u_key_deposit u)) (GroupEconomic, GroupNoVote) ++
  group_if (touched (u_pool_deposit u)) (GroupEconomic, GroupNoVote) ++
  group_if (touched (u_rho u)) (GroupEconomic, GroupNoVote) ++
  group_if (touched (u_tau u)) (GroupEconomic, GroupNoVote) ++
  group_if (touched (u_min_pool_cost u)) (GroupEconomic, GroupNoVote) ++
  group_if (touched (u_execution_costs u)) (GroupEconomic, GroupNoVote) ++
  group_if (touched (u_e_max u)) (GroupTechnical, GroupNoVote) ++
  group_if (touched (u_n_opt u)) (GroupTechnical, GroupNoVote) ++
  group_if (touched (u_a0 u)) (GroupTechnical, GroupNoVote) ++
  group_if (touched (u_cost_models u)) (GroupTechnical, GroupNoVote) ++
  group_if (touched (u_collateral_percentage u)) (GroupTechnical, GroupNoVote) ++
  group_if (touched (u_gov_action_deposit u)) (GroupGov, GroupSecurity) ++
  group_if (touched (u_dvt_pp_network_group u) || touched (u_dvt_pp_economic_group u) ||
            touched (u_dvt_pp_technical_group u) || touched (u_dvt_pp_gov_group u) ||
            touched (u_dvt_hard_fork u) || touched (u_dvt_no_confidence u) ||
            touched (u_dvt_committee_normal u) || touched (u_dvt_committee_no_confidence u) ||
            touched (u_dvt_constitution u) || touched (u_dvt_treasury_withdrawal u)) (GroupGov, GroupNoVote) ++
  group_if (touched (u_pvt_motion_no_confidence u) || touched (u_pvt_committee_normal u) ||
            touched (u_pvt_committee_no_confidence u) || touched (u_pvt_hard_fork u) ||
            touched (u_pvt_pp_security_group u)) (GroupGov, GroupNoVote) ++
  group_if (touched (u_min_committee_size u)) (GroupGov, GroupNoVote) ++
  group_if (touched (u_committee_term_limit u)) (GroupGov, GroupNoVote) ++
  group_if (touched (u_gov_action_lifetime u)) (GroupGov, GroupNoVote) ++
  group_if (touched (u_drep_deposit u)) (GroupGov, GroupNoVote) ++
  group_if (touched (u_drep_activity u)) (GroupGov, GroupNoVote).

(** ** Actions and proposals *)

Inductive GovAction : Type :=
| ParameterChange (prev_action_id : option GovActionId) (protocol_param_update : ProtocolParamUpdate)
    (policy_hash : option Hash28)
| HardForkInitiation (prev_action_id : option GovActionId) (protocol_version : Z * Z)
| TreasuryWithdrawals (withdrawals : gmap (list Z) Lovelace) (policy_hash : option Hash28)
| NoConfidence (prev_action_id : option GovActionId)
| UpdateCommittee (prev_action_id : option GovActionId) (members_to_remove : list Credential)
    (members_to_add : gmap Credential Z) (threshold : Rational)
| NewConstitution (prev_action_id : option GovActionId) (new_constitution : Constitution)
| InfoAction.

Record ProposalProcedure := mkProposal {
  prop_deposit : Lovelace;
  return_addr : list Z;
  gov_action : GovAction;
  prop_anchor : Anchor;
}.

Record ProposalState := mkProposalState {
  procedure : ProposalProcedure;
  proposed_epoch : EpochNo;
  expires_epoch : EpochNo;
  yes_votes : Z;
  no_votes : Z;
  abstain_votes : Z;
  submission_index : Z;
}.

Definition gov_action_raw_prev_id (action : GovAction) : option GovActionId :=
  match action with
  | ParameterChange prev _ _ | HardForkInitiation prev _ | NoConfidence prev
  | UpdateCommittee prev _ _ _ | NewConstitution prev _ => prev
  | TreasuryWithdrawals _ _ | InfoAction => None
  end.

(** The four purposes; withdrawals and info actions have none. *)
Inductive Purpose : Type := PParam | HardFork | Committee | ConstitutionPurpose.

#[global] Instance Purpose_eq_dec : EqDecision Purpose.
Proof. solve_decision. Defined.

Definition gov_action_purpose_tag (action : GovAction) : option Purpose :=
  match action with
  | ParameterChange _ _ _ => Some PParam
  | HardForkInitiation _ _ => Some HardFork
  | NoConfidence _ | UpdateCommittee _ _ _ _ => Some Committee
  | NewConstitution _ _ => Some ConstitutionPurpose
  | TreasuryWithdrawals _ _ | InfoAction => None
  end.

Definition gov_action_priority (action : GovAction) : Z :=
  match action with
  | NoConfidence _ => 0
  | UpdateCommittee _ _ _ _ => 1
  | NewConstitution _ _ => 2
  | HardForkInitiation _ _ => 3
  | ParameterChange _ _ _ => 4
  | TreasuryWithdrawals _ _ => 5
  | InfoAction => 6
  end.

Definition is_delaying_action (action : GovAction) : bool :=
  match action with
  | NoConfidence _ | HardForkInitiation _ _ | UpdateCommittee _ _ _ _ | NewConstitution _ _ => true
  | _ => false
  end.

(** ** The forest of proposals *)

Record PEdges := mkEdges { parent : option GovActionId; children : gset GovActionId }.
Record PRoot := mkRoot { root : option GovActionId; root_children : gset GovActionId }.

Abbreviation PGraph := (gmap GovActionId PEdges).

Record GovRelation (T : Type) := mkRelation {
  rel_pparam : T;
  rel_hard_fork : T;
  rel_committee : T;
  rel_constitution : T;
}.

Arguments mkRelation {T} _ _ _ _.
Arguments rel_pparam {T} _.
Arguments rel_hard_fork {T} _.
Arguments rel_committee {T} _.
Arguments rel_constitution {T} _.

#[global] Instance edges_fields : Fields PEdges := λ e, mkEdges (parent e) (children e).
#[global] Instance root_fields : Fields PRoot := λ r, mkRoot (root r) (root_children r).

Definition rel_get {T} (r : GovRelation T) (p : Purpose) : T :=
  match p with
  | PParam => rel_pparam r
  | HardFork => rel_hard_fork r
  | Committee => rel_committee r
  | ConstitutionPurpose => rel_constitution r
  end.

(** [get_mut] as the write it is used for. *)
Definition rel_set {T} (p : Purpose) (x : T) (r : GovRelation T) : GovRelation T :=
  match p with
  | PParam => mkRelation x (rel_hard_fork r) (rel_committee r) (rel_constitution r)
  | HardFork => mkRelation (rel_pparam r) x (rel_committee r) (rel_constitution r)
  | Committee => mkRelation (rel_pparam r) (rel_hard_fork r) x (rel_constitution r)
  | ConstitutionPurpose => mkRelation (rel_pparam r) (rel_hard_fork r) (rel_committee r) x
  end.

Definition rel_const {T} (x : T) : GovRelation T := mkRelation x x x x.

(** [proposal_roots] and [proposal_graph] *)
Record Forest := mkForest { proposal_roots : GovRelation PRoot; proposal_graph : GovRelation PGraph }.

#[global] Instance forest_fields : Fields Forest := λ f, mkForest (proposal_roots f) (proposal_graph f).

(** ** The DRep pulser *)

Record EnactedGovTerms := mkEnactedTerms {
  eg_committee_expiration : gmap Hash32 EpochNo;
  eg_committee_threshold : option Rational;
  eg_constitution : option Constitution;
  eg_prev_gov_action_ids : GovRelation (option GovActionId);
}.

Record PulsedRatifyState := mkPulsed {
  computed_at_epoch : EpochNo;
  enacted : list GovActionId;
  expired : list GovActionId;
  delayed : bool;
  cur_pparams : FullParameters;
  has_pparams_changes : bool;
  enact_state : EnactedGovTerms;
}.

Record PulsingSnapshot := mkPulsing {
  ps_proposals : gmap GovActionId ProposalState;
  ps_votes_by_action : gmap GovActionId (gmap Voter VotingProcedure);
  ps_committee_hot_keys : gmap Hash32 Hash32;
  ps_committee_expiration : gmap Hash32 EpochNo;
  ps_committee_resigned : gmap Hash32 (option Anchor);
  ps_committee_threshold : option Rational;
  ps_no_confidence : bool;
  ps_enacted : GovRelation (option GovActionId);
  ps_snapshot_epoch : EpochNo;
  ps_treasury : Z;
  ps_vote_delegations : gmap Hash32 DRep;
  ps_drep_distr : gmap Hash32 Z;
  ps_drep_expiry : gmap Hash32 EpochNo;
  ps_drep_no_confidence : Z;
  ps_drep_abstain : Z;
  ps_drep_no_confidence_delegated : bool;
  ps_drep_abstain_delegated : bool;
}.

Definition drep_is_expired (s : PulsingSnapshot) (cred : Hash32) : bool :=
  match ps_drep_expiry s !! cred with
  | Some expiry => expiry <? ps_snapshot_epoch s
  | None => false
  end.

Record DRepPulsingState := mkDRepPulsing { pulser_snapshot : PulsingSnapshot; ratify_state : PulsedRatifyState }.

Inductive FuturePParams : Type :=
| NoPParamsUpdate
| DefinitePParamsUpdate (pp : FullParameters)
| PotentialPParamsUpdate (pp : option FullParameters).

Definition solidify (f : FuturePParams) : FuturePParams :=
  match f with
  | PotentialPParamsUpdate None => NoPParamsUpdate
  | PotentialPParamsUpdate (Some pp) => DefinitePParamsUpdate pp
  | other => other
  end.

(** ** The ledger state with this data *)

Class GovRest := {
  gr_likelihoods :: Likelihoods;
  gr_output : Type;
  gr_byron : Type;
  gr_config : Type;
  gr_registry : Type;
  gr_byron_eq_dec :: EqDecision gr_byron;
}.

#[global] Instance gov_rest `{GovRest} : RewardRest :=
  Build_RewardRest _ gr_output GovParams ProposalState ProtocolParamUpdate gr_byron Forest
    DRepPulsingState FuturePParams gr_config gr_registry _.
