(* ===== verification/GovForest.v ===== *)
(** * The forest of proposals ([ledger/src/state/governance.rs])

    Each purpose has a tree of proposals under its last enacted action:
    the root with its direct children, and a graph of edges for deeper nodes.
    The operations keep it beside the flat map of proposals. *)

From S2P Require Import Prelude Order RecordUpdate EraHistory Block Ledger RewardRat RewardPulser Rewards GovTypes.
Local Open Scope Z_scope.
Local Open Scope record_scope.

(** The derived order of [GovActionId]: the hash, then the index. *)
Definition action_key (a : GovActionId) : list Z := action_tx a ++ [action_index a].
Definition action_le (a b : GovActionId) : Prop := key_le (action_key a) (action_key b).

#[global] Instance action_le_dec : RelDecision action_le.
Proof. intros a b. unfold action_le. apply _. Defined.

(** The elements of a [BTreeSet] in order. *)
Definition sorted_ids (s : gset GovActionId) : list GovActionId := merge_sort action_le (elements s).

Definition purpose_of (st : ProposalState) : option Purpose := gov_action_purpose_tag (gov_action (procedure st)).
Definition prev_of (st : ProposalState) : option GovActionId := gov_action_raw_prev_id (gov_action (procedure st)).

(** ** Insertion *)

(** The new node and the edge from its parent; a parent that is a child of the
    root gets its node only now. *)
Definition graph_add (id : GovActionId) (prev : option GovActionId) (g : PGraph) : PGraph :=
  let g := <[id := mkEdges prev ∅]> g in
  match prev with
  | Some q =>
      match g !! q with
      | Some e => <[q := e <| children ::= union {[id]} |>]> g
      | None => <[q := mkEdges None {[id]}]> g
      end
  | None => g
  end.

Definition forest_add_proposal (id : GovActionId) (prev : option GovActionId) (p : Purpose) (f : Forest) : Forest :=
  let r := rel_get (proposal_roots f) p in
  if bool_decide (prev = root r)
  then f <| proposal_roots ::= rel_set p (r <| root_children ::= union {[id]} |>) |>
  else f <| proposal_graph ::= rel_set p (graph_add id prev (rel_get (proposal_graph f) p)) |>.

(** ** Removal *)

(** The children of a node; a child of the root has them in the graph, too. *)
Definition kids (g : PGraph) (id : GovActionId) : gset GovActionId :=
  match g !! id with Some e => children e | None => ∅ end.

(** Every identifier that is a child: the recursion inserts each at most once. *)
Definition graph_ids (g : PGraph) : gset GovActionId := map_fold (λ _ e acc, children e ∪ acc) ∅ g.

Fixpoint collect_descendants (fuel : nat) (g : PGraph) (id : GovActionId) (out : gset GovActionId) :
    gset GovActionId :=
  match fuel with
  | O => out
  | S fuel =>
      foldl (λ out child,
        if bool_decide (child ∈ out) then out else collect_descendants fuel g child ({[child]} ∪ out))
        out (elements (kids g id))
  end.

Definition descendants_fuel (g : PGraph) : nat := S (size (graph_ids g)).

(** One node, from the children of the root and from the graph. *)
Definition graph_remove (id : GovActionId) (g : PGraph) : PGraph :=
  match g !! id with
  | Some e =>
      let g := delete id g in
      match parent e with
      | Some q => alter (λ e, e <| children ::= λ c, c ∖ {[id]} |>) q g
      | None => g
      end
  | None => g
  end.

Definition forest_remove_node (id : GovActionId) (p : Purpose) (f : Forest) : Forest :=
  let r := rel_get (proposal_roots f) p in
  f <| proposal_roots ::= rel_set p (r <| root_children ::= λ c, c ∖ {[id]} |>) |>
    <| proposal_graph ::= rel_set p (graph_remove id (rel_get (proposal_graph f) p)) |>.

(** The identifiers and everything below them. *)
Definition removal_step (props : gmap GovActionId ProposalState) (f : Forest) (out : gset GovActionId)
    (id : GovActionId) : gset GovActionId :=
  let out := {[id]} ∪ out in
  match props !! id ≫= purpose_of with
  | Some p =>
      let g := rel_get (proposal_graph f) p in
      collect_descendants (descendants_fuel g) g id out
  | None => out
  end.

Definition removal_set (ids : list GovActionId) (props : gmap GovActionId ProposalState) (f : Forest) :
    gset GovActionId :=
  foldl (removal_step props f) ∅ ids.

Definition remove_nodes (ids : list GovActionId) (props : gmap GovActionId ProposalState) (f : Forest) : Forest :=
  foldl (λ f id,
    match props !! id ≫= purpose_of with
    | Some p => forest_remove_node id p f
    | None => f
    end) f ids.

Definition delete_ids {V} (ids : list GovActionId) (m : gmap GovActionId V) : gmap GovActionId V :=
  foldl (λ m id, delete id m) m ids.

(** The removed proposals come back, for their deposits. *)
Definition forest_remove_with_descendants {V} (ids : list GovActionId) (props : gmap GovActionId ProposalState)
    (f : Forest) (votes : gmap GovActionId V) :
    list (GovActionId * ProposalState) * (gmap GovActionId ProposalState * Forest * gmap GovActionId V) :=
  let to_remove := sorted_ids (removal_set ids props f) in
  (omap (λ id, pair id <$> props !! id) to_remove,
   (delete_ids to_remove props, remove_nodes to_remove props f, delete_ids to_remove votes)).

(** ** Promotion of an enacted proposal *)

Definition clear_parents (ids : gset GovActionId) (g : PGraph) : PGraph :=
  foldl (λ g child, alter (λ e, e <| parent := None |>) child g) g (elements ids).

Definition forest_promote_root (id : GovActionId) (p : Purpose) (f : Forest) : Forest :=
  let g := rel_get (proposal_graph f) p in
  match g !! id with
  | Some e =>
      f <| proposal_roots ::= rel_set p (mkRoot (Some id) (children e)) |>
        <| proposal_graph ::= rel_set p (clear_parents (children e) (delete id g)) |>
  | None => f <| proposal_roots ::= rel_set p (mkRoot (Some id) ∅) |>
  end.

(** ** Reconstruction *)

Definition sorted_proposals (props : gmap GovActionId ProposalState) : list (GovActionId * ProposalState) :=
  omap (λ id, pair id <$> props !! id) (sorted_ids (dom props)).

Definition add_to_forest (f : Forest) (e : GovActionId * ProposalState) : Forest :=
  match purpose_of e.2 with
  | Some p => forest_add_proposal e.1 (prev_of e.2) p f
  | None => f
  end.

Definition rebuild_forest_from_flat (props : gmap GovActionId ProposalState)
    (enacted : GovRelation (option GovActionId)) : Forest :=
  let roots :=
    mkRelation (mkRoot (rel_pparam enacted) ∅) (mkRoot (rel_hard_fork enacted) ∅)
      (mkRoot (rel_committee enacted) ∅) (mkRoot (rel_constitution enacted) ∅) in
  foldl add_to_forest (mkForest roots (rel_const ∅)) (sorted_proposals props).

(** ** The removed set is the closure *)

Definition child_in (g : PGraph) (x y : GovActionId) : Prop := y ∈ kids g x.

Lemma graph_ids_spec (g : PGraph) x : x ∈ graph_ids g ↔ ∃ y, child_in g y x.
Proof.
  unfold child_in, kids, graph_ids.
  induction g as [|k e g Hk Hfold IH] using map_first_key_ind.
  { rewrite map_fold_empty. split; [set_solver|]. intros [y Hy]. rewrite lookup_empty in Hy. set_solver. }
  rewrite map_fold_insert_first_key by done. rewrite elem_of_union, IH. split.
  - intros [Hx|[y Hy]]; [exists k; by rewrite lookup_insert_eq|].
    exists y. destruct (decide (y = k)) as [->|Hne]; [by rewrite Hk in Hy; set_solver|]. by rewrite lookup_insert_ne.
  - intros [y Hy]. destruct (decide (y = k)) as [->|Hne].
    + rewrite lookup_insert_eq in Hy. by left.
    + rewrite lookup_insert_ne in Hy by done. right. by exists y.
Qed.

(** What one traversal adds: descendants only, and with a node its children. *)
Definition explored (g : PGraph) (id : GovActionId) (out out' : gset GovActionId) : Prop :=
  out ⊆ out' ∧ kids g id ⊆ out' ∧
  ∀ x, x ∈ out' → x ∉ out → tc (child_in g) id x ∧ kids g x ⊆ out'.

Lemma collect_explores fuel g id out :
  (size (graph_ids g ∖ out) < fuel)%nat → explored g id out (collect_descendants fuel g id out).
Proof.
  induction fuel as [|n IH] in id, out |- *; intros Hfuel; [lia|]. cbn [collect_descendants].
  assert (∀ l out', (∀ x, x ∈ l → child_in g id x) → out ⊆ out' →
    (∀ x, x ∈ out' → x ∉ out → tc (child_in g) id x ∧ kids g x ⊆ out') →
    let r := foldl (λ out child, if bool_decide (child ∈ out) then out
                                 else collect_descendants n g child ({[child]} ∪ out)) out' l in
    out' ⊆ r ∧ (∀ x, x ∈ l → x ∈ r) ∧ ∀ x, x ∈ r → x ∉ out → tc (child_in g) id x ∧ kids g x ⊆ r) as Hloop.
  { induction l as [|c l IHl]; intros out' Hl Hsub Hnew; [cbn; set_solver|]. cbn [foldl].
    assert (child_in g id c) as Hc by (apply Hl; by left).
    assert (∀ x, x ∈ l → child_in g id x) as Hl' by (intros; apply Hl; by right).
    case_bool_decide as Hin.
    - destruct (IHl out' Hl' Hsub Hnew) as (H1 & H2 & H3). split_and!; [done| |done].
      intros x [->|Hx]%elem_of_cons; [by apply H1|by apply H2].
    - assert (c ∈ graph_ids g) as Hg by (apply graph_ids_spec; by exists id).
      assert (size (graph_ids g ∖ ({[c]} ∪ out')) < n)%nat as Hn.
      { apply (Nat.lt_le_trans _ (size (graph_ids g ∖ out'))).
        - apply subset_size. split; [set_solver|]. intros Hs. specialize (Hs c). set_solver.
        - apply Nat.lt_succ_r. eapply Nat.le_lt_trans; [|exact Hfuel]. apply subseteq_size. set_solver. }
      destruct (IH c ({[c]} ∪ out') Hn) as (E1 & E2 & E3). set (o2 := collect_descendants n g c ({[c]} ∪ out')) in *.
      destruct (IHl o2 Hl') as (H1 & H2 & H3); [set_solver| |].
      { intros x Hx Hxo. destruct (decide (x ∈ out')) as [Hx'|Hx'].
        - destruct (Hnew x Hx' Hxo). split; [done|set_solver].
        - destruct (decide (x = c)) as [->|Hne]; [split; [by apply tc_once|done]|].
          destruct (E3 x Hx) as [Ht Hk]; [set_solver|]. split; [|done]. by eapply tc_l. }
      split_and!; [set_solver| |done].
      intros x [->|Hx]%elem_of_cons; [apply H1; set_solver|by apply H2]. }
  destruct (Hloop (elements (kids g id)) out) as (H1 & H2 & H3).
  { intros x Hx. by apply elem_of_elements in Hx. }
  { done. }
  { intros x Hx Hx'. by destruct Hx'. }
  split_and!; [done| |done]. intros x Hx. apply H2. by apply elem_of_elements.
Qed.

Lemma tc_last {A} (R : relation A) x y : tc R x y → ∃ z, R z y.
Proof. induction 1 as [x y HR|x y z _ _ IH]; [by exists x|done]. Qed.

(** Each child is a proposal of the purpose of its tree. *)
Definition forest_typed (props : gmap GovActionId ProposalState) (f : Forest) : Prop :=
  ∀ p x y, child_in (rel_get (proposal_graph f) p) x y → props !! y ≫= purpose_of = Some p.

Definition descends (props : gmap GovActionId ProposalState) (f : Forest) (x y : GovActionId) : Prop :=
  ∃ p, props !! x ≫= purpose_of = Some p ∧ child_in (rel_get (proposal_graph f) p) x y.

Lemma tc_descends props f p x y : forest_typed props f → props !! x ≫= purpose_of = Some p →
  tc (child_in (rel_get (proposal_graph f) p)) x y → tc (descends props f) x y.
Proof.
  intros Hty Hx Ht. induction Ht as [x y Hxy|x z y Hxz _ IH].
  - apply tc_once. by exists p.
  - eapply tc_l; [by exists p|]. apply IH. by eapply Hty.
Qed.

Lemma removal_set_acc ids props f out : forest_typed props f →
  (∀ x y, x ∈ out → descends props f x y → y ∈ out) →
  ∀ x, x ∈ foldl (removal_step props f) out ids ↔ x ∈ out ∨ ∃ id, id ∈ ids ∧ rtc (descends props f) id x.
Proof.
  intros Hty. induction ids as [|id ids IH] in out |- *; intros Hclosed x.
  { split; [by left|]. intros [Hx|(id & Hid & _)]; [done|by apply not_elem_of_nil in Hid]. }
  cbn [foldl]. set (o1 := removal_step props f out id).
  assert (∀ y, y ∈ o1 ↔ y ∈ out ∨ rtc (descends props f) id y) as Ho1.
  { unfold o1, removal_step. cbv zeta. destruct (props !! id ≫= purpose_of) as [p|] eqn:Ep.
    - set (g := rel_get (proposal_graph f) p).
      destruct (collect_explores (descendants_fuel g) g id ({[id]} ∪ out)) as (E1 & E2 & E3).
      { apply Nat.lt_succ_r. apply subseteq_size. set_solver. }
      set (o2 := collect_descendants _ g id _) in *. intros y. split.
      + intros Hy. destruct (decide (y ∈ {[id]} ∪ out)) as [Hin|Hni].
        { apply elem_of_union in Hin as [->%elem_of_singleton|Hin]; [by right|by left]. }
        destruct (E3 y Hy Hni) as [Ht _]. right. apply tc_rtc. by eapply tc_descends.
      + intros [Hy|Hy]; [set_solver|].
        assert (∀ a b, rtc (descends props f) a b → a ∈ o2 → b ∈ o2) as Hcl.
        { clear y Hy. intros a b Hab. induction Hab as [a|a b c (q & Hq & Hab) _ IHab]; [done|].
          intros Ha. apply IHab. destruct (decide (a ∈ {[id]} ∪ out)) as [Hin|Hni].
          - apply elem_of_union in Hin as [->%elem_of_singleton|Hin].
            + rewrite Ep in Hq. injection Hq as <-. by apply E2.
            + apply E1, elem_of_union. right. apply (Hclosed a); [done|by exists q].
          - destruct (E3 a Ha Hni) as [Ht Hk]. apply Hk.
            assert (props !! a ≫= purpose_of = Some p) as Hp.
            { destruct (tc_last _ _ _ Ht) as [z Hz]. by eapply Hty. }
            rewrite Hp in Hq. by injection Hq as <-. }
        eapply Hcl; [exact Hy|]. apply E1. set_solver.
    - intros y. rewrite elem_of_union, elem_of_singleton. split.
      + intros [->|Hy]; [by right|by left].
      + intros [Hy|Hy]; [by right|]. left. inversion Hy as [|? z ? (p & Hp & _)]; [done|]. congruence. }
  rewrite (IH o1), Ho1.
  - split.
    + intros [[Hx|Hx]|(i & Hi & Hx)]; [by left|right; exists id; split; [by left|done]|right; exists i; split; [by right|done]].
    + intros [Hx|(i & [->|Hi]%elem_of_cons & Hx)]; [by left; left|by left; right|right; by exists i].
  - intros a b Ha Hab. apply Ho1. apply Ho1 in Ha as [Ha|Ha]; [left; by eapply Hclosed|].
    right. by eapply rtc_r.
Qed.

Lemma removal_set_spec ids props f x : forest_typed props f →
  x ∈ removal_set ids props f ↔ ∃ id, id ∈ ids ∧ rtc (descends props f) id x.
Proof.
  intros Hty. unfold removal_set. rewrite (removal_set_acc ids props f ∅ Hty) by set_solver. set_solver.
Qed.

Lemma sorted_ids_elem (s : gset GovActionId) x : x ∈ sorted_ids s ↔ x ∈ s.
Proof. unfold sorted_ids. by rewrite merge_sort_Permutation, elem_of_elements. Qed.

Lemma delete_all_spec {V} ids (m : gmap GovActionId V) x :
  delete_ids ids m !! x = if bool_decide (x ∈ ids) then None else m !! x.
Proof.
  unfold delete_ids. induction ids as [|id ids IH] in m |- *; [done|]. cbn [foldl]. rewrite IH.
  case_bool_decide as Hx; [by rewrite bool_decide_true by (by right)|].
  destruct (decide (x = id)) as [->|Hne].
  - by rewrite lookup_delete_eq, bool_decide_true by (by left).
  - rewrite lookup_delete_ne by done. rewrite bool_decide_false; [done|]. by intros [?|?]%elem_of_cons.
Qed.

(** ** The invariant of the forest *)

(** A child knows its parent. *)
Definition graph_ok (g : PGraph) : Prop := ∀ x y, child_in g x y → ∃ e, g !! y = Some e ∧ parent e = Some x.

(** [y] was proposed under the live proposal [x] of its purpose. *)
Definition extends (props : gmap GovActionId ProposalState) (x y : GovActionId) : Prop :=
  ∃ p, props !! x ≫= purpose_of = Some p ∧ props !! y ≫= purpose_of = Some p ∧ props !! y ≫= prev_of = Some x.

(** The edges that start at a live proposal are those that the live proposals
    declare: none is missing, and none is left over. A root is not live. *)
Record forest_ok (props : gmap GovActionId ProposalState) (f : Forest) : Prop := {
  fk_typed : forest_typed props f;
  fk_graph : ∀ p, graph_ok (rel_get (proposal_graph f) p);
  fk_prev : ∀ p x y, child_in (rel_get (proposal_graph f) p) x y → props !! y ≫= prev_of = Some x;
  fk_edges : ∀ p x y, props !! x ≫= purpose_of = Some p → props !! y ≫= purpose_of = Some p →
    props !! y ≫= prev_of = Some x → child_in (rel_get (proposal_graph f) p) x y;
  fk_root : ∀ p r, root (rel_get (proposal_roots f) p) = Some r → props !! r = None;
}.

Lemma descends_extends props f x y : forest_ok props f → descends props f x y ↔ extends props x y.
Proof.
  intros Hok. split.
  - intros (p & Hx & Hc). exists p. split_and!; [done|by eapply (fk_typed _ _ Hok)|by eapply (fk_prev _ _ Hok)].
  - intros (p & Hx & Hy & Hprev). exists p. split; [done|by apply (fk_edges _ _ Hok)].
Qed.

Lemma live_delete {A} (φ : ProposalState → option A) (props : gmap GovActionId ProposalState) id x a :
  delete id props !! x ≫= φ = Some a → props !! x ≫= φ = Some a ∧ x ≠ id.
Proof.
  destruct (decide (x = id)) as [->|Hne]; [by rewrite lookup_delete_eq|]. by rewrite lookup_delete_ne.
Qed.

Lemma rel_get_set {T} (r : GovRelation T) p q x : rel_get (rel_set p x r) q = if decide (p = q) then x else rel_get r q.
Proof. by destruct p, q. Qed.

Lemma child_in_node g x y e : g !! x = Some e → child_in g x y ↔ y ∈ children e.
Proof. unfold child_in, kids. by intros ->. Qed.

(** After the removal a node is nobody's child. *)
Lemma graph_remove_child id g x y : graph_ok g →
  child_in (graph_remove id g) x y → child_in g x y ∧ y ≠ id.
Proof.
  intros Hg. unfold graph_remove, child_in, kids. destruct (g !! id) as [e|] eqn:He.
  2:{ intros Hc. split; [done|]. intros ->. destruct (Hg x id Hc) as (e & He' & _). congruence. }
  destruct (parent e) as [q|] eqn:Hp.
  - destruct (decide (x = q)) as [->|Hq].
    + rewrite lookup_alter_eq. destruct (decide (q = id)) as [->|Hne].
      { rewrite lookup_delete_eq. cbn. set_solver. }
      rewrite lookup_delete_ne by done. destruct (g !! q) as [e'|]; cbn; set_solver.
    + rewrite lookup_alter_ne by done. destruct (decide (x = id)) as [->|Hne].
      { rewrite lookup_delete_eq. set_solver. }
      rewrite lookup_delete_ne by done. intros Hc. split; [done|]. intros ->.
      destruct (Hg x id Hc) as (e' & He' & Hp'). congruence.
  - destruct (decide (x = id)) as [->|Hne]; [rewrite lookup_delete_eq; set_solver|].
    rewrite lookup_delete_ne by done. intros Hc. split; [done|]. intros ->.
    destruct (Hg x id Hc) as (e' & He' & Hp'). congruence.
Qed.

Lemma graph_remove_keeps id g x y : child_in g x y → x ≠ id → y ≠ id → child_in (graph_remove id g) x y.
Proof.
  unfold graph_remove, child_in, kids. intros Hc Hx Hy. destruct (g !! id) as [e|]; [|done].
  destruct (parent e) as [q|]; [|by rewrite lookup_delete_ne].
  destruct (decide (x = q)) as [->|Hq]; [|by rewrite lookup_alter_ne, lookup_delete_ne].
  rewrite lookup_alter_eq, lookup_delete_ne by done. destruct (g !! q); cbn; set_solver.
Qed.

Lemma graph_remove_ok id g : graph_ok g → graph_ok (graph_remove id g).
Proof.
  intros Hg x y Hc. destruct (graph_remove_child id g x y Hg Hc) as [Hc' Hne].
  destruct (Hg x y Hc') as (e & He & Hp). unfold graph_remove. destruct (g !! id) as [e0|]; [|by exists e].
  destruct (parent e0) as [q|]; [|by exists e; rewrite lookup_delete_ne].
  destruct (decide (y = q)) as [->|Hq].
  - rewrite lookup_alter_eq, lookup_delete_ne, He by done. by eexists.
  - rewrite lookup_alter_ne, lookup_delete_ne by done. by exists e.
Qed.

Lemma remove_node_graph id p q f :
  rel_get (proposal_graph (forest_remove_node id p f)) q =
    if decide (p = q) then graph_remove id (rel_get (proposal_graph f) p) else rel_get (proposal_graph f) q.
Proof. unfold forest_remove_node. cbn. by rewrite rel_get_set. Qed.

Lemma remove_node_root id p q f :
  root (rel_get (proposal_roots (forest_remove_node id p f)) q) = root (rel_get (proposal_roots f) q).
Proof. unfold forest_remove_node. cbn. rewrite rel_get_set. by destruct (decide (p = q)) as [->|]. Qed.

(** Removing nodes and proposals together keeps the invariant. *)
Lemma remove_node_ok id p props f : forest_ok props f → props !! id ≫= purpose_of = Some p →
  forest_ok (delete id props) (forest_remove_node id p f).
Proof.
  intros [Hty Hg Hpv He Hr] Hid.
  assert (∀ q x y, child_in (rel_get (proposal_graph (forest_remove_node id p f)) q) x y →
    child_in (rel_get (proposal_graph f) q) x y ∧ y ≠ id) as Hsub.
  { intros q x y. rewrite remove_node_graph. destruct (decide (p = q)) as [<-|Hne]; [by apply graph_remove_child|].
    intros Hc. split; [done|]. intros ->. specialize (Hty q x id Hc). congruence. }
  constructor.
  - intros q x y [Hc Hy]%Hsub. rewrite lookup_delete_ne by done. by eapply Hty.
  - intros q. rewrite remove_node_graph. case_match; [by apply graph_remove_ok|done].
  - intros q x y [Hc Hy]%Hsub. rewrite lookup_delete_ne by done. by eapply Hpv.
  - intros q x y [Hx Hxi]%live_delete [Hy Hyi]%live_delete [Hxy _]%live_delete. rewrite remove_node_graph.
    destruct (decide (p = q)) as [<-|Hne]; [apply graph_remove_keeps; try done|]; by apply He.
  - intros q r. rewrite remove_node_root. intros Hq. apply lookup_delete_None. right. by apply (Hr q).
Qed.

Lemma absent_ok id props f : forest_ok props f → props !! id ≫= purpose_of = None → forest_ok (delete id props) f.
Proof.
  intros [Hty Hg Hpv He Hr] Hid.
  assert (∀ q x y, child_in (rel_get (proposal_graph f) q) x y → delete id props !! y = props !! y) as Hsame.
  { intros q x y Hc. apply lookup_delete_ne. intros ->. specialize (Hty q x y Hc). congruence. }
  constructor; [|done| | |].
  - intros q x y Hc. rewrite (Hsame q x y Hc). by eapply Hty.
  - intros q x y Hc. rewrite (Hsame q x y Hc). by eapply Hpv.
  - intros q x y [Hx _]%live_delete [Hy _]%live_delete [Hxy _]%live_delete. by apply He.
  - intros q r Hq. apply lookup_delete_None. right. by apply (Hr q).
Qed.

Lemma remove_nodes_ok ids props props0 f : forest_ok props f → NoDup ids →
  (∀ id, id ∈ ids → props0 !! id = props !! id) → forest_ok (delete_ids ids props) (remove_nodes ids props0 f).
Proof.
  unfold delete_ids, remove_nodes. induction ids as [|id ids IH] in props, f |- *; intros Hok Hnd Hsame; [done|].
  cbn [foldl]. apply NoDup_cons in Hnd as [Hid Hnd]. apply IH; [|done|].
  - rewrite (Hsame id (list_elem_of_here _ _)). destruct (props !! id ≫= purpose_of) as [p|] eqn:E;
      [by apply remove_node_ok|by apply absent_ok].
  - intros i Hi. rewrite lookup_delete_ne by (intros ->; done). apply Hsame. by right.
Qed.

Lemma edgeless_ok props f : (∀ p, rel_get (proposal_graph f) p = ∅) → map_Forall (λ _ st, prev_of st = None) props →
  (∀ p, root (rel_get (proposal_roots f) p) = None) → forest_ok props f.
Proof.
  intros He Hprev Hroot. assert (∀ p x y, ¬ child_in (rel_get (proposal_graph f) p) x y) as Hno.
  { intros p x y. unfold child_in, kids. rewrite He, lookup_empty. set_solver. }
  constructor.
  - intros p x y Hc. by apply Hno in Hc.
  - intros p x y Hc. by apply Hno in Hc.
  - intros p x y Hc. by apply Hno in Hc.
  - intros p x y _ _ (st & Hst & Hs)%bind_Some. rewrite (Hprev y st Hst) in Hs. done.
  - intros p r Hr. by rewrite Hroot in Hr.
Qed.

(** A new proposal joins the tree of its purpose. *)
Lemma graph_add_ok id prev g : graph_ok g → g !! id = None → (∀ x, ¬ child_in g x id) → prev ≠ Some id →
  graph_ok (graph_add id prev g) ∧ ∀ x y, child_in (graph_add id prev g) x y → child_in g x y ∨ y = id.
Proof.
  intros Hg Hid Hnc Hprev. unfold graph_add.
  assert (∀ x y, child_in (<[id := mkEdges prev ∅]> g) x y → child_in g x y) as Hc0.
  { intros x y. unfold child_in, kids. destruct (decide (x = id)) as [->|Hne].
    - rewrite lookup_insert_eq. set_solver.
    - by rewrite lookup_insert_ne. }
  assert (∀ x y e, child_in g x y → g !! y = Some e → <[id := mkEdges prev ∅]> g !! y = Some e) as Hk0.
  { intros x y e Hc He. rewrite lookup_insert_ne; [done|]. intros ->. by apply (Hnc x). }
  destruct prev as [q|].
  2:{ split; [|intros x y Hc; left; by apply Hc0].
      intros x y Hc%Hc0. destruct (Hg x y Hc) as (e & He & Hp). exists e. split; [by eapply Hk0|done]. }
  assert (q ≠ id) as Hq by congruence. rewrite lookup_insert_ne by done.
  destruct (g !! q) as [eq|] eqn:Eq.
  - set (e1 := eq <| children ::= union {[id]} |>).
    assert (∀ x y, child_in (<[q := e1]> (<[id := mkEdges (Some q) ∅]> g)) x y → child_in g x y ∨ x = q ∧ y = id) as Hc1.
    { intros x y. unfold child_in at 1, kids. destruct (decide (x = q)) as [->|Hx].
      - rewrite lookup_insert_eq. cbn. intros [->%elem_of_singleton|Hy]%elem_of_union; [by right|].
        left. by apply (child_in_node g q y eq).
      - rewrite lookup_insert_ne by done. intros Hc. left. by apply Hc0. }
    split; [|intros x y [?|[_ ?]]%Hc1; [by left|by right]].
    intros x y [Hc|[-> ->]]%Hc1.
    + destruct (Hg x y Hc) as (e & He & Hp). destruct (decide (y = q)) as [->|Hy].
      * rewrite lookup_insert_eq. exists e1. split; [done|]. cbn. congruence.
      * rewrite lookup_insert_ne by done. exists e. split; [by eapply Hk0|done].
    + rewrite lookup_insert_ne, lookup_insert_eq by done. by eexists.
  - set (e1 := mkEdges None {[id]}).
    assert (∀ x y, child_in (<[q := e1]> (<[id := mkEdges (Some q) ∅]> g)) x y → child_in g x y ∨ x = q ∧ y = id) as Hc1.
    { intros x y. unfold child_in at 1, kids. destruct (decide (x = q)) as [->|Hx].
      - rewrite lookup_insert_eq. cbn. intros ->%elem_of_singleton. by right.
      - rewrite lookup_insert_ne by done. intros Hc. left. by apply Hc0. }
    split; [|intros x y [?|[_ ?]]%Hc1; [by left|by right]].
    intros x y [Hc|[-> ->]]%Hc1.
    + destruct (Hg x y Hc) as (e & He & Hp). destruct (decide (y = q)) as [->|Hy]; [congruence|].
      rewrite lookup_insert_ne by done. exists e. split; [by eapply Hk0|done].
    + rewrite lookup_insert_ne, lookup_insert_eq by done. by eexists.
Qed.

Lemma graph_add_keeps id prev g x y : child_in g x y → x ≠ id → child_in (graph_add id prev g) x y.
Proof.
  unfold graph_add, child_in, kids. intros Hc Hx. destruct prev as [q|]; [|by rewrite lookup_insert_ne].
  destruct (decide (q = id)) as [->|Hq]; [by rewrite lookup_insert_eq, !lookup_insert_ne|].
  rewrite (lookup_insert_ne g id q) by done. destruct (decide (x = q)) as [->|Hxq].
  - destruct (g !! q); [|set_solver]. rewrite lookup_insert_eq. cbn. set_solver.
  - destruct (g !! q); by rewrite !lookup_insert_ne.
Qed.

Lemma graph_add_edge id q g : q ≠ id → child_in (graph_add id (Some q) g) q id.
Proof.
  intros Hq. unfold graph_add, child_in, kids. rewrite (lookup_insert_ne g id q) by done.
  destruct (g !! q); rewrite lookup_insert_eq; cbn; set_solver.
Qed.

(** The only new edge is the one to the new node. *)
Lemma graph_add_new id prev g x y : child_in (graph_add id prev g) x y → child_in g x y ∨ y = id ∧ prev = Some x.
Proof.
  unfold graph_add, child_in, kids. destruct prev as [q|].
  - destruct (decide (q = id)) as [->|Hq].
    + rewrite lookup_insert_eq. destruct (decide (x = id)) as [->|Hx];
        [rewrite lookup_insert_eq; cbn; set_solver|rewrite !lookup_insert_ne by done; by left].
    + rewrite (lookup_insert_ne g id q) by done. destruct (decide (x = q)) as [->|Hx].
      * destruct (g !! q); rewrite lookup_insert_eq; cbn; set_solver.
      * destruct (decide (x = id)) as [->|Hxi]; destruct (g !! q);
          rewrite lookup_insert_ne by done; rewrite ?lookup_insert_eq, ?lookup_insert_ne by done; cbn; set_solver.
  - destruct (decide (x = id)) as [->|Hx]; [rewrite lookup_insert_eq; cbn; set_solver|].
    rewrite lookup_insert_ne by done. by left.
Qed.

Lemma graph_add_nodes id prev g i : graph_add id prev g !! i = None ↔ g !! i = None ∧ i ≠ id ∧ prev ≠ Some i.
Proof.
  unfold graph_add. destruct prev as [q|].
  - destruct (decide (q = id)) as [->|Hq].
    { rewrite lookup_insert_eq, !lookup_insert_None. naive_solver. }
    rewrite lookup_insert_ne by done. destruct (g !! q) eqn:E; rewrite !lookup_insert_None; naive_solver.
  - rewrite lookup_insert_None. naive_solver.
Qed.

Definition no_node (f : Forest) (id : GovActionId) : Prop := ∀ p, rel_get (proposal_graph f) p !! id = None.

Lemma add_forest_graph id prev p f q :
  rel_get (proposal_graph (forest_add_proposal id prev p f)) q = rel_get (proposal_graph f) q ∨
  q = p ∧ rel_get (proposal_graph (forest_add_proposal id prev p f)) q = graph_add id prev (rel_get (proposal_graph f) p).
Proof.
  unfold forest_add_proposal. case_bool_decide; [by left|]. cbn. rewrite rel_get_set.
  destruct (decide (p = q)) as [->|]; [by right|by left].
Qed.

Lemma add_forest_root id prev p f q :
  root (rel_get (proposal_roots (forest_add_proposal id prev p f)) q) = root (rel_get (proposal_roots f) q).
Proof.
  unfold forest_add_proposal. case_bool_decide; [|done]. cbn. rewrite rel_get_set. by destruct (decide (p = q)) as [->|].
Qed.

(** An identifier that nothing live and no root refers to. *)
Record unreferenced (props : gmap GovActionId ProposalState) (f : Forest) (id : GovActionId) : Prop := {
  ur_node : no_node f id;
  ur_prev : ∀ y, props !! y ≫= prev_of ≠ Some id;
  ur_root : ∀ p, root (rel_get (proposal_roots f) p) ≠ Some id;
}.

Lemma live_insert {A} (φ : ProposalState → option A) (props : gmap GovActionId ProposalState) id st x a :
  <[id := st]> props !! x ≫= φ = Some a → x ≠ id ∧ props !! x ≫= φ = Some a ∨ x = id ∧ φ st = Some a.
Proof.
  destruct (decide (x = id)) as [->|Hne]; [rewrite lookup_insert_eq; by right|]. rewrite lookup_insert_ne by done. by left.
Qed.

Lemma add_forest_edges id st props f p : forest_ok props f → unreferenced props f id → prev_of st ≠ Some id →
  purpose_of st = Some p → ∀ q x y, <[id := st]> props !! x ≫= purpose_of = Some q →
  <[id := st]> props !! y ≫= purpose_of = Some q → <[id := st]> props !! y ≫= prev_of = Some x →
  child_in (rel_get (proposal_graph (forest_add_proposal id (prev_of st) p f)) q) x y.
Proof.
  intros [_ _ _ He Hr] Hur Hprev Hp q x y Hx Hy Hxy.
  assert (x ≠ id) as Hxi.
  { intros ->. apply live_insert in Hxy as [[_ Hxy]|[_ Hxy]]; [by apply (ur_prev _ _ _ Hur) in Hxy|done]. }
  apply live_insert in Hx as [[_ Hx]|[-> _]]; [|done].
  destruct (decide (y = id)) as [->|Hyi].
  - rewrite lookup_insert_eq in Hy, Hxy. cbn in Hy, Hxy. rewrite Hp in Hy. injection Hy as <-. rewrite Hxy.
    unfold forest_add_proposal. case_bool_decide as Hroot.
    + symmetry in Hroot. rewrite (Hr p x Hroot) in Hx. done.
    + cbn. rewrite rel_get_set, decide_True by done. by apply graph_add_edge.
  - rewrite lookup_insert_ne in Hy, Hxy by done. specialize (He q x y Hx Hy Hxy).
    destruct (add_forest_graph id (prev_of st) p f q) as [->|[-> ->]]; [done|by apply graph_add_keeps].
Qed.

Lemma add_to_forest_ok id st props f : forest_ok props f → unreferenced props f id → prev_of st ≠ Some id →
  forest_ok (<[id := st]> props) (add_to_forest f (id, st)).
Proof.
  intros Hok Hur Hprev. pose proof Hok as [Hty Hg Hpv He Hr]. pose proof (ur_node _ _ _ Hur) as Hno.
  assert (∀ p x, ¬ child_in (rel_get (proposal_graph f) p) x id) as Hnc.
  { intros p x Hc. destruct (Hg p x id Hc) as (e & Hed & _). by rewrite Hno in Hed. }
  assert (∀ p x y, child_in (rel_get (proposal_graph f) p) x y → <[id := st]> props !! y = props !! y) as Hold.
  { intros p x y Hc. apply lookup_insert_ne. intros ->. by eapply Hnc. }
  assert (∀ p r, root (rel_get (proposal_roots f) p) = Some r → <[id := st]> props !! r = None) as Hr'.
  { intros p r Hq. apply lookup_insert_None. split; [by apply (Hr p)|]. intros ->. by apply (ur_root _ _ _ Hur p). }
  unfold add_to_forest. cbn [fst snd]. destruct (purpose_of st) as [p|] eqn:Ep.
  2:{ constructor; [| | | |done].
      - intros q x y Hc. rewrite (Hold q x y Hc). by eapply Hty.
      - done.
      - intros q x y Hc. rewrite (Hold q x y Hc). by eapply Hpv.
      - intros q x y [[_ Hx]|[_ Hx]]%live_insert; [|congruence]. intros [[Hyi Hy]|[_ Hy]]%live_insert; [|congruence].
        rewrite lookup_insert_ne by done. by apply He. }
  destruct (graph_add_ok id (prev_of st) _ (Hg p) (Hno p) (Hnc p) Hprev) as [Hgok _]. constructor.
  - intros q x y. destruct (add_forest_graph id (prev_of st) p f q) as [->|[-> ->]].
    { intros Hc. rewrite (Hold q x y Hc). by eapply Hty. }
    intros [Hc|[-> _]]%graph_add_new; [rewrite (Hold p x y Hc); by eapply Hty|]. by rewrite lookup_insert_eq.
  - intros q. destruct (add_forest_graph id (prev_of st) p f q) as [->|[_ ->]]; done.
  - intros q x y. destruct (add_forest_graph id (prev_of st) p f q) as [->|[-> ->]].
    { intros Hc. rewrite (Hold q x y Hc). by eapply Hpv. }
    intros [Hc|[-> Hx]]%graph_add_new; [rewrite (Hold p x y Hc); by eapply Hpv|]. by rewrite lookup_insert_eq.
  - by apply add_forest_edges.
  - intros q r. rewrite add_forest_root. apply Hr'.
Qed.

Lemma add_to_forest_nodes f id st i : no_node f i → i ≠ id → prev_of st ≠ Some i → no_node (add_to_forest f (id, st)) i.
Proof.
  intros Hno Hne Hprev q. unfold add_to_forest. cbn [fst snd]. destruct (purpose_of st) as [p|]; [|done].
  destruct (add_forest_graph id (prev_of st) p f q) as [->|[-> ->]]; [done|]. by apply graph_add_nodes.
Qed.

Lemma unreferenced_add id st props f i : unreferenced props f i → i ≠ id → prev_of st ≠ Some i →
  unreferenced (<[id := st]> props) (add_to_forest f (id, st)) i.
Proof.
  intros [Hn Hp Hr] Hne Hprev. constructor.
  - by apply add_to_forest_nodes.
  - intros y [[_ Hy]|[_ Hy]]%live_insert; [by apply (Hp y)|done].
  - intros p. unfold add_to_forest. cbn [fst snd]. destruct (purpose_of st); [rewrite add_forest_root|]; apply Hr.
Qed.

(** A root that is no proposal any more loses its node, and its children their parent. *)
Lemma clear_parents_spec ids g x : clear_parents ids g !! x =
  (if bool_decide (x ∈ ids) then (λ e, e <| parent := None |>) <$> g !! x else g !! x).
Proof.
  unfold clear_parents. transitivity (if bool_decide (x ∈ elements ids) then (λ e, e <| parent := None |>) <$> g !! x else g !! x).
  2:{ by rewrite (bool_decide_ext (x ∈ elements ids) (x ∈ ids) (elem_of_elements ids x)). }
  pose proof (NoDup_elements ids) as Hnd. induction (elements ids) as [|y l IH] in g, Hnd |- *; [done|].
  apply NoDup_cons in Hnd as [Hy Hnd]. cbn [foldl]. rewrite IH by done. destruct (decide (x = y)) as [->|Hne].
  - rewrite bool_decide_false, bool_decide_true by (done || by left). by rewrite lookup_alter_eq.
  - rewrite lookup_alter_ne by done. case_bool_decide as Hx.
    + by rewrite bool_decide_true by (by right).
    + rewrite bool_decide_false; [done|]. by intros [?|?]%elem_of_cons.
Qed.

Lemma promote_graph id p f q :
  let g := rel_get (proposal_graph f) p in
  rel_get (proposal_graph (forest_promote_root id p f)) q =
    if decide (p = q) then match g !! id with Some e => clear_parents (children e) (delete id g) | None => g end
    else rel_get (proposal_graph f) q.
Proof.
  cbv zeta. unfold forest_promote_root. destruct (rel_get (proposal_graph f) p !! id); cbn;
    [by rewrite rel_get_set|by destruct (decide (p = q)) as [->|]].
Qed.

Lemma promote_child id g e x y : g !! id = Some e →
  child_in (clear_parents (children e) (delete id g)) x y ↔ child_in g x y ∧ x ≠ id.
Proof.
  intros He. unfold child_in, kids. rewrite clear_parents_spec. destruct (decide (x = id)) as [->|Hne].
  - rewrite lookup_delete_eq. case_bool_decide; cbn; set_solver.
  - rewrite lookup_delete_ne by done. destruct (g !! x); case_bool_decide; cbn; set_solver.
Qed.

Lemma promote_children id p props f : forest_ok props f → props !! id = None → ∀ q x y,
  child_in (rel_get (proposal_graph (forest_promote_root id p f)) q) x y ↔
  child_in (rel_get (proposal_graph f) q) x y ∧ (q = p → x ≠ id ∨ rel_get (proposal_graph f) p !! id = None).
Proof.
  intros Hok Hid q x y. rewrite promote_graph. cbv zeta. destruct (decide (p = q)) as [<-|Hne]; [|naive_solver].
  destruct (rel_get (proposal_graph f) p !! id) as [e|] eqn:He; [rewrite promote_child by done|]; naive_solver.
Qed.

Lemma promote_root_ok id p props f : forest_ok props f → props !! id = None →
  forest_ok props (forest_promote_root id p f).
Proof.
  intros Hok Hid. pose proof (promote_children id p props f Hok Hid) as Hc. destruct Hok as [Hty Hg Hpv He Hr]. constructor.
  - intros q x y [Hxy _]%Hc. by eapply Hty.
  - intros q x y Hxy. pose proof (proj1 (Hc q x y) Hxy) as [Hxy0 Hx]. destruct (Hg q x y Hxy0) as (ey & Hey & Hp).
    rewrite promote_graph. cbv zeta. destruct (decide (p = q)) as [<-|]; [|by exists ey].
    destruct (rel_get (proposal_graph f) p !! id) as [e|] eqn:Ee; [|by exists ey].
    assert (y ≠ id) by (intros ->; specialize (Hty p x id Hxy0); by rewrite Hid in Hty).
    exists ey. split; [|done]. rewrite clear_parents_spec, bool_decide_false, lookup_delete_ne; [done|done|].
    intros Hin. destruct (Hg p id y) as (e' & He' & Hp'); [by apply (child_in_node _ id y e)|].
    destruct Hx; [done|congruence|congruence].
  - intros q x y [Hxy _]%Hc. by eapply Hpv.
  - intros q x y Hx Hy Hxy. apply Hc. split; [by apply He|]. intros _. left. intros ->. by rewrite Hid in Hx.
  - intros q r. unfold forest_promote_root. destruct (rel_get (proposal_graph f) p !! id); cbn; rewrite rel_get_set;
      (destruct (decide (p = q)) as [<-|]; [cbn; by intros [= <-]|apply Hr]).
Qed.

(** Removal reaches everything that was proposed under the given proposals. *)
Lemma removal_lineage ids props f x : forest_ok props f →
  x ∈ removal_set ids props f ↔ ∃ id, id ∈ ids ∧ rtc (extends props) id x.
Proof.
  intros Hok. rewrite removal_set_spec by apply Hok.
  assert (∀ a b, rtc (descends props f) a b ↔ rtc (extends props) a b) as Hiff.
  { intros a b. split; apply rtc_subrel; intros ??; by apply descends_extends. }
  by setoid_rewrite Hiff.
Qed.

(** ** Removal *)

(** C20: Removing proposals from a forest whose
    children have the purpose of their tree takes out exactly the given ones
    and everything that descends from them, with their votes: what is left is
    unchanged, and every removed proposal comes back once, for its deposit. *)
Theorem removal_exact {V} ids props f (votes : gmap GovActionId V) :
  forest_typed props f →
  let '(removed, (props', _, votes')) := forest_remove_with_descendants ids props f votes in
  let gone x := ∃ id, id ∈ ids ∧ rtc (descends props f) id x in
  (∀ x, gone x → props' !! x = None ∧ votes' !! x = None) ∧
  (∀ x, ¬ gone x → props' !! x = props !! x ∧ votes' !! x = votes !! x) ∧
  (∀ x st, (x, st) ∈ removed ↔ gone x ∧ props !! x = Some st) ∧ NoDup removed.*1.
Proof.
  intros Hty. unfold forest_remove_with_descendants. cbv zeta. set (l := sorted_ids _).
  assert (∀ x, x ∈ l ↔ ∃ id, id ∈ ids ∧ rtc (descends props f) id x) as Hl.
  { intros x. unfold l. by rewrite sorted_ids_elem, removal_set_spec. }
  split; [|split; [|split]].
  - intros x Hx%Hl. by rewrite !delete_all_spec, bool_decide_true.
  - intros x Hx. rewrite !delete_all_spec, bool_decide_false; [done|]. by rewrite Hl.
  - intros x st. rewrite list_elem_of_omap, <- Hl. split.
    + intros (i & Hi & (st' & Hst & [= -> ->])%fmap_Some). done.
    + intros [Hx Hst]. exists x. by rewrite Hst.
  - assert (NoDup l) as Hnd by (unfold l, sorted_ids; rewrite merge_sort_Permutation; apply NoDup_elements).
    clear Hl. induction Hnd as [|x l' Hx Hnd IH]; [constructor|]. cbn.
    destruct (props !! x) as [st|]; cbn; [|done]. constructor; [|done].
    intros ([y st'] & -> & (z & Hz & (st0 & _ & [= -> ->])%fmap_Some)%list_elem_of_omap)%list_elem_of_fmap. done.
Qed.
