(* ===== verification/Governance.v ===== *)
(** * Ratification and enactment ([ledger/src/state/governance.rs])

    The votes of DReps, pools and the committee, the decision over the frozen
    proposals, what an enacted action does, and the steps of an epoch boundary
    that freeze the next decision and apply the last one. *)

From S2P Require Import Prelude Order RecordUpdate EraHistory Block Ledger RewardRat RewardPulser Rewards GovTypes GovForest.
Local Open Scope Z_scope.
Local Open Scope mach_scope.
Local Open Scope record_scope.

Section governance.
Context `{GovRest}.
Implicit Types s : LedgerState.

Definition credential_hash32 (d : DRep) : option Hash32 :=
  match d with
  | DRepKeyHash h => Some h
  | DRepScriptHash h => Some (h ++ [1; 0; 0; 0])
  | DRepAbstain | DRepNoConfidence => None
  end.

Definition pulsing_snapshot (g : GovernanceState) : option PulsingSnapshot := pulser_snapshot <$> drep_pulsing_state g.
Definition ratify_plan (g : GovernanceState) : option PulsedRatifyState := ratify_state <$> drep_pulsing_state g.

(** ** Thresholds *)

Definition is_zero (r : Rational) : bool := numerator r =? 0.

(** The products are 128 bits wide. *)
Definition is_met_by (r : Rational) (value_num value_den : Z) : bool :=
  if (denominator r =? 0) || (value_den =? 0) then false
  else numerator r * value_den <=? value_num * denominator r.

Definition check_threshold (yes total : Z) (threshold : Rational) : bool :=
  if is_zero threshold then true
  else if total =? 0 then false
  else is_met_by threshold yes total.

Definition group_threshold (g : GovParams) (group : DRepPPGroup) : Rational :=
  match group with
  | GroupNetwork => dvt_pp_network_group g
  | GroupEconomic => dvt_pp_economic_group g
  | GroupTechnical => dvt_pp_technical_group g
  | GroupGov => dvt_pp_gov_group g
  end.

Definition pp_change_drep_all_groups_met (u : ProtocolParamUpdate) (g : GovParams) (drep_yes drep_total : Z) : bool :=
  forallb (λ group, check_threshold drep_yes drep_total (group_threshold g group))
    (remove_dups (modified_pp_groups u).*1).

Definition pp_change_spo_threshold (u : ProtocolParamUpdate) (g : GovParams) : option Rational :=
  if existsb (λ group : PPGroup, bool_decide (group.2 = GroupSecurity)) (modified_pp_groups u)
  then Some (pvt_pp_security_group g) else None.

(** ** Voting power *)

Definition credential_stake_from (cred : Hash32) (c : CertSubState) : Z :=
  default 0 (stake_map c !! cred) +w default 0 (reward_accounts c !! cred).

Definition sum_entry {K} `{Countable K} (k : K) (x : Z) (m : gmap K Z) : gmap K Z :=
  <[k := default 0 (m !! k) +w x]> m.

(** Deposits by the staking credential of the return address. *)
Definition proposal_deposits_from_map (props : gmap GovActionId ProposalState) : gmap Hash32 Z :=
  foldl (λ m e, sum_entry (reward_account_to_hash (return_addr (procedure e.2))) (prop_deposit (procedure e.2)) m)
    ∅ (map_to_list props).

Definition build_drep_power_cache_live_from (g : GovernanceState) (c : CertSubState) : gmap Hash32 Z * Z * Z :=
  let prop_deposits := proposal_deposits_from_map (proposals g) in
  foldl (λ '(cache, no_confidence_stake, abstain_stake) '(stake_cred, drep),
    let stake := credential_stake_from stake_cred c +w default 0 (prop_deposits !! stake_cred) in
    match credential_hash32 drep, drep with
    | Some h, _ =>
        match dreps g !! h with
        | Some d => if dr_active d then (sum_entry h stake cache, no_confidence_stake, abstain_stake)
                    else (cache, no_confidence_stake, abstain_stake)
        | None => (cache, no_confidence_stake, abstain_stake)
        end
    | None, DRepNoConfidence => (cache, no_confidence_stake +w stake, abstain_stake)
    | None, DRepAbstain => (cache, no_confidence_stake, abstain_stake +w stake)
    | None, _ => (cache, no_confidence_stake, abstain_stake)
    end) (∅, 0, 0) (map_to_list (vote_delegations g)).

(** The frozen distribution without the expired; the live one without a pulser. *)
Definition build_drep_power_cache_from (g : GovernanceState) (c : CertSubState) : gmap Hash32 Z * Z * Z :=
  match pulsing_snapshot g with
  | Some snap =>
      (filter (λ kv : Hash32 * Z, drep_is_expired snap kv.1 = false) (ps_drep_distr snap),
       ps_drep_no_confidence snap, ps_drep_abstain snap)
  | None => build_drep_power_cache_live_from g c
  end.

Definition sat_sum (l : list Z) : Z := foldl saturating_add64 0 l.

Definition compute_total_drep_stake_from (g : GovernanceState) (c : CertSubState) : Z :=
  match pulsing_snapshot g with
  | Some snap =>
      let drep_sum := sat_sum (map_values (filter (λ kv : Hash32 * Z, drep_is_expired snap kv.1 = false)
                                             (ps_drep_distr snap))) in
      Z.max (drep_sum +s ps_drep_no_confidence snap +s ps_drep_abstain snap) 1
  | None =>
      let prop_deposits := proposal_deposits_from_map (proposals g) in
      Z.max (foldl (λ total '(stake_cred, drep),
        let stake := credential_stake_from stake_cred c +w default 0 (prop_deposits !! stake_cred) in
        match credential_hash32 drep with
        | None => total +w stake
        | Some h => match dreps g !! h with
                    | Some d => if dr_active d then total +w stake else total
                    | None => total
                    end
        end) 0 (map_to_list (vote_delegations g))) 1
  end.

Definition compute_spo_voting_power_from (pool : Hash28) (c : CertSubState) (e : EpochSubState) : Z :=
  match es_mark (snapshots e) ≫= λ snap, snap_pool_stake snap !! pool with
  | Some stake => stake
  | None =>
      foldl (λ total '(stake_cred, delegated),
        if bool_decide (delegated = pool) then total +w credential_stake_from stake_cred c else total)
        0 (map_to_list (delegations c))
  end.

Definition compute_total_spo_stake_from (c : CertSubState) (e : EpochSubState) : Z :=
  match es_mark (snapshots e) with
  | Some snap => Z.max (sat_sum (map_values (snap_pool_stake snap))) 1
  | None => Z.max (foldl (λ total cred, total +s credential_stake_from cred c) 0 (map_to_list (delegations c)).*1) 1
  end.

(** ** Counting votes *)

Inductive DefaultVote : Type := DefaultAbstain | DefaultNoConfidence | DefaultNo.

Definition default_spo_vote_from (pool : Hash28) (c : CertSubState) (delegs : gmap Hash32 DRep)
    (delegs_override : option (gmap Hash32 DRep)) : DefaultVote :=
  match pool_params c !! pool with
  | Some reg =>
      if (29 <=? length (pool_reward_account reg))%nat then
        match default delegs delegs_override !! reward_account_to_hash (pool_reward_account reg) with
        | Some DRepNoConfidence => DefaultNoConfidence
        | Some DRepAbstain => DefaultAbstain
        | _ => DefaultNo
        end
      else DefaultNo
  | None => DefaultNo
  end.

(** The derived order of [Voter], in which the map of votes is walked. *)
Definition cred_key (c : Credential) : list Z := (if is_script c then 1 else 0) :: cred_hash c.

Definition voter_key (v : Voter) : list Z :=
  match v with
  | VoterCommittee c => 0 :: cred_key c
  | VoterDRep c => 1 :: cred_key c
  | VoterPool h => 2 :: h
  end.

Definition voter_le (x y : Voter * VotingProcedure) : Prop := key_le (voter_key x.1) (voter_key y.1).

#[global] Instance voter_le_dec : RelDecision voter_le.
Proof. intros x y. unfold voter_le. apply _. Defined.

Definition action_votes (votes : gmap GovActionId (gmap Voter VotingProcedure)) (id : GovActionId) :
    list (Voter * VotingProcedure) :=
  merge_sort voter_le (map_to_list (default ∅ (votes !! id))).

Definition drep_votes (l : list (Voter * VotingProcedure)) : gmap Hash32 Vote :=
  foldl (λ m '(voter, proc),
    match voter with VoterDRep c => <[to_typed_hash32 c := vp_vote proc]> m | _ => m end) ∅ l.

Definition spo_votes (l : list (Voter * VotingProcedure)) : gmap Hash28 Vote :=
  foldl (λ m '(voter, proc),
    match voter with VoterPool h => <[take 28 h := vp_vote proc]> m | _ => m end) ∅ l.

Definition cc_votes (l : list (Voter * VotingProcedure)) : gmap Hash32 Vote :=
  foldl (λ m '(voter, proc),
    match voter with VoterCommittee c => <[to_typed_hash32 c := vp_vote proc]> m | _ => m end) ∅ l.

Record Tally := mkTally { drep_yes : Z; drep_total : Z; spo_yes : Z; spo_abstain : Z }.

(** How a pool counts: its vote, or what it says by not voting. *)
Definition pool_choice (action : GovAction) (bootstrap : bool) (vote : option Vote) (dflt : DefaultVote) : Vote :=
  match vote with
  | Some v => v
  | None =>
      match action with
      | HardForkInitiation _ _ => VoteNo
      | _ =>
          if bootstrap then VoteAbstain
          else match dflt, action with
               | DefaultNoConfidence, NoConfidence _ => VoteYes
               | DefaultAbstain, _ => VoteAbstain
               | _, _ => VoteNo
               end
      end
  end.

Definition count_weight (acc : Z * Z) (v : Vote) (stake : Z) : Z * Z :=
  match v with
  | VoteYes => (acc.1 +w stake, acc.2)
  | VoteAbstain => (acc.1, acc.2 +w stake)
  | VoteNo => acc
  end.

Definition count_spo (action : GovAction) (votes : gmap Hash28 Vote) (pool_stake : option (gmap Hash28 Lovelace))
    (delegs_override : option (gmap Hash32 DRep)) (bootstrap : bool) s : Z * Z :=
  match pool_stake with
  | Some stakes =>
      foldl (λ acc '(pool, stake),
        count_weight acc
          (pool_choice action bootstrap (votes !! pool)
             (default_spo_vote_from pool (certs s) (vote_delegations (gov s)) delegs_override)) stake)
        (0, 0) (map_to_list stakes)
  | None =>
      foldl (λ acc '(pool, vote), count_weight acc vote (compute_spo_voting_power_from pool (certs s) (epochs s)))
        (0, 0) (map_to_list votes)
  end.

(** Yes, abstention and the whole power of the DReps. *)
Definition count_drep (votes : gmap Hash32 Vote) (power : gmap Hash32 Z) : Z * Z * Z :=
  foldl (λ '(yes, abstain, all) '(drep, p),
    match votes !! drep with
    | Some VoteYes => (yes +w p, abstain, all +w p)
    | Some VoteAbstain => (yes, abstain +w p, all +w p)
    | _ => (yes, abstain, all +w p)
    end) (0, 0, 0) (map_to_list power).

Definition is_no_confidence (action : GovAction) : bool := match action with NoConfidence _ => true | _ => false end.

Definition count_votes_by_type_impl (id : GovActionId) (action : GovAction) (power : gmap Hash32 Z)
    (no_confidence_stake : Z) (votes : gmap GovActionId (gmap Voter VotingProcedure))
    (pool_stake_override : option (gmap Hash28 Lovelace)) (delegs_override : option (gmap Hash32 DRep))
    (bootstrap : bool) s : Tally :=
  let l := action_votes votes id in
  let mark := snap_pool_stake <$> es_mark (snapshots (epochs s)) in
  let pool_stake := match pool_stake_override with Some m => Some m | None => mark end in
  let '(s_yes, s_abstain) := count_spo action (spo_votes l) pool_stake delegs_override bootstrap s in
  let '(d_yes, d_abstain, d_all) := count_drep (drep_votes l) power in
  let '(d_yes, d_all) :=
    if 0 <? no_confidence_stake
    then (if is_no_confidence action then d_yes +w no_confidence_stake else d_yes, d_all +w no_confidence_stake)
    else (d_yes, d_all) in
  mkTally d_yes (d_all -s d_abstain) s_yes s_abstain.

(** *** The committee *)

Record CommitteeView := mkCommittee {
  cv_hot_keys : gmap Hash32 Hash32;
  cv_expiration : gmap Hash32 EpochNo;
  cv_resigned : gmap Hash32 (option Anchor);
  cv_threshold : option Rational;
}.

Definition committee_of (g : GovernanceState) : CommitteeView :=
  mkCommittee (committee_hot_keys g) (committee_expiration g) (committee_resigned g) (committee_threshold g).

(** The hot key of a member that counts: not expired, authorised, not resigned. *)
Definition active_hot (cv : CommitteeView) (current_epoch : EpochNo) (cold : Hash32) (expiry : EpochNo) :
    option Hash32 :=
  if expiry <? current_epoch then None
  else match cv_hot_keys cv !! cold with
       | Some hot => if bool_decide (is_Some (cv_resigned cv !! cold)) then None else Some hot
       | None => None
       end.

(** Yes, yes and no, and all that are active. *)
Definition count_committee (cv : CommitteeView) (votes : gmap Hash32 Vote) (current_epoch : EpochNo) : Z * Z * Z :=
  foldl (λ '(yes, total, active) '(cold, expiry),
    match active_hot cv current_epoch cold expiry with
    | None => (yes, total, active)
    | Some hot =>
        match votes !! hot with
        | Some VoteYes => (yes + 1, total + 1, active + 1)
        | Some VoteAbstain => (yes, total, active + 1)
        | _ => (yes, total + 1, active + 1)
        end
    end) (0, 0, 0) (map_to_list (cv_expiration cv)).

Definition check_cc_approval (id : GovActionId) (votes : gmap GovActionId (gmap Voter VotingProcedure))
    (cv : CommitteeView) (current_epoch : EpochNo) (min_size : Z) (bootstrap : bool) : bool :=
  match cv_threshold cv with
  | None => false
  | Some threshold =>
      let '(yes, total, active) := count_committee cv (cc_votes (action_votes votes id)) current_epoch in
      if negb bootstrap && (active <? min_size) then false
      else if is_zero threshold then true
      else if total =? 0 then false
      else is_met_by threshold yes total
  end.

(** ** One proposal *)

(** What a ratification pass holds fixed. *)
Record RatifyEnv := mkEnv {
  re_epoch : EpochNo;
  re_total_spo : Z;
  re_power : gmap Hash32 Z;
  re_no_confidence : Z;
  re_votes : gmap GovActionId (gmap Voter VotingProcedure);
  re_pool_stake : option (gmap Hash28 Lovelace);
  re_delegs : option (gmap Hash32 DRep);
}.

Definition rational_zero : Rational := mkRational 0 1.

Definition withdrawals_total (w : gmap (list Z) Lovelace) : Z := sat_sum (map_values w).

Definition check_ratification_impl (env : RatifyEnv) (id : GovActionId) (st : ProposalState) (cv : CommitteeView)
    (remaining_treasury : Z) s : bool :=
  let pp := protocol_params (epochs s) in
  let g := gov_params pp in
  let action := gov_action (procedure st) in
  let bootstrap := protocol_version_major pp =? 9 in
  let t := count_votes_by_type_impl id action (re_power env) (re_no_confidence env) (re_votes env)
             (re_pool_stake env) (re_delegs env) bootstrap s in
  let spo_denom := re_total_spo env -s spo_abstain t in
  let cc_met := check_cc_approval id (re_votes env) cv (re_epoch env) (committee_min_size g) bootstrap in
  let drep_met threshold := check_threshold (drep_yes t) (drep_total t) (if bootstrap then rational_zero else threshold) in
  let spo_met threshold := check_threshold (spo_yes t) spo_denom threshold in
  match action with
  | InfoAction => false
  | ParameterChange _ u _ =>
      (if bootstrap then true else pp_change_drep_all_groups_met u g (drep_yes t) (drep_total t)) &&
      match pp_change_spo_threshold u g with Some th => spo_met th | None => true end && cc_met
  | HardForkInitiation _ _ => drep_met (dvt_hard_fork g) && spo_met (pvt_hard_fork g) && cc_met
  | NoConfidence _ => drep_met (dvt_no_confidence g) && spo_met (pvt_motion_no_confidence g)
  | UpdateCommittee _ _ members_to_add _ =>
      let max_expiry := re_epoch env +w committee_max_term_length g in
      if existsb (λ e, max_expiry <? e) (map_values members_to_add) then false
      else if no_confidence (gov s)
      then drep_met (dvt_committee_no_confidence g) && spo_met (pvt_committee_no_confidence g)
      else drep_met (dvt_committee_normal g) && spo_met (pvt_committee_normal g)
  | NewConstitution _ _ => drep_met (dvt_constitution g) && cc_met
  | TreasuryWithdrawals w _ =>
      if remaining_treasury <? withdrawals_total w then false
      else drep_met (dvt_treasury_withdrawal g) && cc_met
  end.

Definition enacted_roots (g : GovernanceState) : GovRelation (option GovActionId) :=
  mkRelation (enacted_pparam_update g) (enacted_hard_fork g) (enacted_committee g) (enacted_constitution g).

Definition prev_action_as_expected (action : GovAction) (roots : GovRelation (option GovActionId)) : bool :=
  match gov_action_purpose_tag action with
  | Some p => bool_decide (gov_action_raw_prev_id action = rel_get roots p)
  | None => true
  end.

Definition update_enacted_root_local (id : GovActionId) (action : GovAction)
    (roots : GovRelation (option GovActionId)) : GovRelation (option GovActionId) :=
  match gov_action_purpose_tag action with
  | Some p => rel_set p (Some id) roots
  | None => roots
  end.

(** ** Enactment *)

(** One withdrawal: unregistered targets are skipped. *)
Definition withdraw (acc : gmap Hash32 Lovelace * Z) (w : list Z * Lovelace) : gmap Hash32 Lovelace * Z :=
  let '(accounts, disbursed) := acc in
  let '(addr, amount) := w in
  if (amount =? 0) || (length addr <? 29)%nat then acc
  else
    let key := reward_account_to_hash addr in
    match accounts !! key with
    | Some balance => (<[key := balance +s amount]> accounts, disbursed +s amount)
    | None => acc
    end.

Definition remove_member (g : GovernanceState) (c : Credential) : GovernanceState :=
  g <| committee_expiration ::= delete (to_typed_hash32 c) |>
    <| script_committee_credentials ::= λ m, m ∖ {[to_typed_hash32 c]} |>.

Definition add_member (g : GovernanceState) (m : Credential * Z) : GovernanceState :=
  let key := to_typed_hash32 m.1 in
  g <| committee_expiration ::= insert key m.2 |>
    <| script_committee_credentials ::= λ c, if is_script m.1 then {[key]} ∪ c else c ∖ {[key]} |>.

Definition set_version (major minor : Z) (pp : FullParameters) : FullParameters :=
  pp <| protocol_version_major := major |> <| pp_rest ::= λ r, r <| par_protocol_version_minor := minor |> |>.

Definition enact_gov_action_impl (action : GovAction) s : LedgerState :=
  match action with
  | ParameterChange _ u _ =>
      match apply_protocol_param_update_impl (protocol_params (epochs s)) u with
      | Some pp => s <| epochs ::= λ e, e <| protocol_params := pp |> |>
      | None => s
      end
  | HardForkInitiation _ (major, minor) =>
      s <| epochs ::= λ e, e <| protocol_params := set_version major minor (protocol_params e) |> |>
  | TreasuryWithdrawals w _ =>
      let '(accounts, disbursed) := foldl withdraw (reward_accounts (certs s), 0) (map_to_list w) in
      s <| certs ::= λ c, c <| reward_accounts := accounts |> |>
        <| epochs ::= λ e, e <| treasury ::= λ t, t -s disbursed |> |>
  | NoConfidence _ =>
      s <| gov ::= λ g, g <| committee_hot_keys := ∅ |> <| committee_expiration := ∅ |>
             <| committee_resigned := ∅ |> <| script_committee_credentials := ∅ |>
             <| script_committee_hot_credentials := ∅ |> <| committee_threshold := None |>
             <| no_confidence := true |> |>
  | UpdateCommittee _ members_to_remove members_to_add threshold =>
      s <| gov ::= λ g,
             foldl add_member (foldl remove_member g members_to_remove) (map_to_list members_to_add)
               <| committee_threshold := Some threshold |> <| no_confidence := false |> |>
  | NewConstitution _ con => s <| gov ::= λ g, g <| constitution := Some con |> |>
  | InfoAction => s
  end.

(** ** Refunds and the removal of proposals *)

Definition refund_proposal_deposit s (e : GovActionId * ProposalState) : LedgerState :=
  let deposit := prop_deposit (procedure e.2) in
  let addr := return_addr (procedure e.2) in
  if (deposit =? 0) || (length addr <? 29)%nat then s
  else
    let key := reward_account_to_hash addr in
    match reward_accounts (certs s) !! key with
    | Some balance => s <| certs ::= λ c, c <| reward_accounts ::= insert key (balance +s deposit) |> |>
    | None => s <| epochs ::= λ e, e <| treasury ::= λ t, t +s deposit |> |>
    end.

(** Removal from the state, with refunds; the removed proposals are returned. *)
Definition drop_proposals (ids : list GovActionId) s : list (GovActionId * ProposalState) * LedgerState :=
  let g := gov s in
  let '(removed, (props, forest, votes)) :=
    forest_remove_with_descendants ids (proposals g) (proposal_forest g) (votes_by_action g) in
  let s := s <| gov ::= λ g, g <| proposals := props |> <| proposal_forest := forest |>
                              <| votes_by_action := votes |> |> in
  (removed, foldl refund_proposal_deposit s removed).

(** Step 2: one enacted proposal leaves. *)
Definition remove_enacted (acc : list (GovActionId * ProposalState) * LedgerState) (id : GovActionId) :
    list (GovActionId * ProposalState) * LedgerState :=
  let '(ratified, s) := acc in
  let s := match proposals (gov s) !! id ≫= purpose_of with
           | Some p => s <| gov ::= λ g, g <| proposal_forest ::= forest_remove_node id p |> |>
           | None => s
           end in
  let found := proposals (gov s) !! id in
  let s := s <| gov ::= λ g, g <| proposals ::= delete id |> |> in
  let s := match found with Some st => refund_proposal_deposit s (id, st) | None => s end in
  let s := s <| gov ::= λ g, g <| votes_by_action ::= delete id |> |> in
  (match found with Some st => ratified ++ [(id, st)] | None => ratified end, s).

(** Step 3: its siblings go, and it becomes the root. *)
Definition promote_enacted s (e : GovActionId * ProposalState) : LedgerState :=
  match purpose_of e.2 with
  | None => s
  | Some p =>
      let siblings := sorted_ids (root_children (rel_get (proposal_roots (proposal_forest (gov s))) p) ∖ {[e.1]}) in
      let s := (drop_proposals siblings s).2 in
      s <| gov ::= λ g, g <| proposal_forest ::= forest_promote_root e.1 p |> |>
  end.

Definition proposals_apply_enactment (ratified expired_ids : list GovActionId) s : LedgerState :=
  let '(expired_removed, s) := drop_proposals expired_ids s in
  let '(ratified_with_state, s) := foldl remove_enacted ([], s) ratified in
  let s := foldl promote_enacted s ratified_with_state in
  s <| gov ::= λ g, g <| last_ratified := ratified_with_state |> <| last_expired := expired_removed.*1 |> |>.

(** ** The decision *)

Definition Candidate : Type := GovActionId * ProposalState.

(** The stable sort by priority and submission; the map is walked by identifier. *)
Definition candidate_key (c : Candidate) : list Z :=
  gov_action_priority (gov_action (procedure c.2)) :: submission_index c.2 :: action_key c.1.

Definition candidate_le (x y : Candidate) : Prop := key_le (candidate_key x) (candidate_key y).

#[global] Instance candidate_le_dec : RelDecision candidate_le.
Proof. intros x y. unfold candidate_le. apply _. Defined.

Definition candidates (props : gmap GovActionId ProposalState) : list Candidate :=
  merge_sort candidate_le (map_to_list props).

(** What the pass carries from proposal to proposal. *)
Record RatifyPass := mkPass {
  rp_state : LedgerState;
  rp_roots : GovRelation (option GovActionId);
  rp_committee : CommitteeView;
  rp_cap : Z;
  rp_ratified : list GovActionId;
  rp_delayed : bool;
  rp_expired : list GovActionId;
}.

Definition ratified_now (env : RatifyEnv) (p : RatifyPass) (c : Candidate) : bool :=
  if negb (prev_action_as_expected (gov_action (procedure c.2)) (rp_roots p)) then false
  else if rp_delayed p then false
  else check_ratification_impl env c.1 c.2 (rp_committee p) (rp_cap p) (rp_state p).

Definition cap_after (action : GovAction) (cap : Z) : Z :=
  match action with TreasuryWithdrawals w _ => cap -s withdrawals_total w | _ => cap end.

Definition changes_committee (action : GovAction) : bool :=
  match action with UpdateCommittee _ _ _ _ | NoConfidence _ => true | _ => false end.

Definition ratify_step (env : RatifyEnv) (p : RatifyPass) (c : Candidate) : RatifyPass :=
  let action := gov_action (procedure c.2) in
  if ratified_now env p c then
    let s := enact_gov_action_impl action (rp_state p) in
    mkPass s (update_enacted_root_local c.1 action (rp_roots p))
      (if changes_committee action then committee_of (gov s) else rp_committee p)
      (cap_after action (rp_cap p)) (rp_ratified p ++ [c.1])
      (if is_delaying_action action then true else rp_delayed p) (rp_expired p)
  else
    mkPass (rp_state p) (rp_roots p) (rp_committee p) (rp_cap p) (rp_ratified p) (rp_delayed p)
      (if expires_epoch c.2 <? re_epoch env then rp_expired p ++ [c.1] else rp_expired p).

Definition default_roots : GovRelation PRoot := rel_const (mkRoot None ∅).

#[global] Instance PRoot_eq_dec : EqDecision PRoot.
Proof. solve_decision. Defined.

#[global] Instance roots_eq_dec : EqDecision (GovRelation PRoot).
Proof. solve_decision. Defined.

(** Old snapshots have no forest; it is rebuilt from the proposals. *)
Definition restore_forest s : LedgerState :=
  let g := gov s in
  if bool_decide (proposal_roots (proposal_forest g) = default_roots) && negb (bool_decide (proposals g = ∅))
  then s <| gov ::= λ g, g <| proposal_forest := rebuild_forest_from_flat (proposals g) (enacted_roots g) |> |>
  else s.

Definition write_roots (roots : GovRelation (option GovActionId)) (g : GovernanceState) : GovernanceState :=
  g <| enacted_pparam_update := rel_pparam roots |> <| enacted_hard_fork := rel_hard_fork roots |>
    <| enacted_committee := rel_committee roots |> <| enacted_constitution := rel_constitution roots |>.

Definition ratify_env (epoch : EpochNo) s : RatifyEnv :=
  let g := gov s in
  let snap := pulsing_snapshot g in
  let '(power, no_confidence_stake, _) := build_drep_power_cache_from g (certs s) in
  let pool_stake := snap_pool_stake <$> es_set (snapshots (epochs s)) in
  let total_spo :=
    match pool_stake with
    | Some ps => Z.max (sat_sum (map_values ps)) 1
    | None => compute_total_spo_stake_from (certs s) (epochs s)
    end in
  let delegs :=
    match snap with
    | Some sn => if bool_decide (ps_vote_delegations sn = ∅) then None else Some (ps_vote_delegations sn)
    | None => None
    end in
  mkEnv epoch total_spo power no_confidence_stake (from_option ps_votes_by_action ∅ snap) pool_stake delegs.

Definition ratify_start s : RatifyPass :=
  let g := gov s in
  match pulsing_snapshot g with
  | Some sn =>
      mkPass s (ps_enacted sn)
        (mkCommittee (ps_committee_hot_keys sn) (ps_committee_expiration sn) (ps_committee_resigned sn)
           (ps_committee_threshold sn)) (ps_treasury sn) [] false []
  | None => mkPass s (enacted_roots g) (committee_of g) (treasury (epochs s)) [] false []
  end.

Definition ratify_candidates s : list Candidate :=
  candidates (from_option ps_proposals ∅ (pulsing_snapshot (gov s))).

Definition ratify_pass (epoch : EpochNo) s : RatifyPass :=
  foldl (ratify_step (ratify_env epoch s)) (ratify_start s) (ratify_candidates s).

Definition changes_pparams (e : GovActionId * ProposalState) : bool :=
  match gov_action (procedure e.2) with ParameterChange _ _ _ | HardForkInitiation _ _ => true | _ => false end.

Definition ratify_proposals_impl (epoch : EpochNo) s : PulsedRatifyState * LedgerState :=
  let p := ratify_pass epoch (restore_forest s) in
  let s := rp_state p <| gov ::= write_roots (rp_roots p) |> in
  let s := proposals_apply_enactment (rp_ratified p) (rp_expired p) s in
  let s := s <| gov ::= λ g, g <| last_ratify_delayed := rp_delayed p |> |> in
  let g := gov s in
  (mkPulsed epoch (rp_ratified p) (rp_expired p) (rp_delayed p) (protocol_params (epochs s))
     (existsb changes_pparams (last_ratified g))
     (mkEnactedTerms (committee_expiration g) (committee_threshold g) (constitution g) (enacted_roots g)), s).

(** ** Freezing the next decision *)

Record Distribution := mkDistr {
  ds_distr : gmap Hash32 Z;
  ds_no_confidence : Z;
  ds_abstain : Z;
  ds_no_confidence_delegated : bool;
  ds_abstain_delegated : bool;
}.

Definition distribute_vote (g : GovernanceState) (c : CertSubState) (deposits : gmap Hash32 Z) (d : Distribution)
    (kv : Hash32 * DRep) : Distribution :=
  let stake := credential_stake_from kv.1 c +s default 0 (deposits !! kv.1) in
  match credential_hash32 kv.2, kv.2 with
  | Some h, _ =>
      if bool_decide (is_Some (dreps g !! h))
      then mkDistr (sum_entry h stake (ds_distr d)) (ds_no_confidence d) (ds_abstain d)
             (ds_no_confidence_delegated d) (ds_abstain_delegated d)
      else d
  | None, DRepNoConfidence =>
      mkDistr (ds_distr d) (ds_no_confidence d +w stake) (ds_abstain d) true (ds_abstain_delegated d)
  | None, DRepAbstain =>
      mkDistr (ds_distr d) (ds_no_confidence d) (ds_abstain d +w stake) (ds_no_confidence_delegated d) true
  | None, _ => d
  end.

Definition build_pulsing_snapshot (epoch : EpochNo) s : PulsingSnapshot :=
  let g := gov s in
  let deposits := proposal_deposits_from_map (proposals g) in
  let d := foldl (distribute_vote g (certs s) deposits) (mkDistr ∅ 0 0 false false) (map_to_list (vote_delegations g)) in
  mkPulsing (proposals g) (votes_by_action g) (committee_hot_keys g) (committee_expiration g)
    (committee_resigned g) (committee_threshold g) (no_confidence g) (enacted_roots g) epoch
    (treasury (epochs s)) (vote_delegations g) (ds_distr d) (dr_drep_expiry <$> dreps g)
    (ds_no_confidence d) (ds_abstain d) (ds_no_confidence_delegated d) (ds_abstain_delegated d).

Definition mark_as_set (mark : StakeSnapshot) (sn : EpochSnapshots) : EpochSnapshots := sn <| es_set := Some mark |>.

(** The next boundary will see today's mark as its set. *)
Definition with_next_set s : LedgerState :=
  match es_mark (snapshots (epochs s)) with
  | Some mark => s <| epochs ::= λ e, e <| snapshots := mark_as_set mark (snapshots e) |> |>
  | None => s
  end.

Definition compute_pulsed_ratify_state (epoch : EpochNo) s : PulsedRatifyState :=
  (ratify_proposals_impl epoch (with_next_set s)).1.

Definition with_plan (plan : PulsedRatifyState) (p : option DRepPulsingState) : option DRepPulsingState :=
  (λ p, mkDRepPulsing (pulser_snapshot p) plan) <$> p.

Definition set_fresh_drep_pulsing_state (new_epoch : EpochNo) s : LedgerState :=
  let snap := build_pulsing_snapshot new_epoch s in
  let placeholder :=
    mkPulsed new_epoch [] [] false (protocol_params (epochs s)) false (mkEnactedTerms ∅ None None (rel_const None)) in
  let s := s <| gov ::= λ g, g <| drep_pulsing_state := Some (mkDRepPulsing snap placeholder) |> |> in
  let pulsed := compute_pulsed_ratify_state new_epoch s in
  s <| gov ::= λ g, g <| drep_pulsing_state := with_plan pulsed (drep_pulsing_state g) |> |>.

(** Settled predictions are not reopened. *)
Definition predict_future_pparams (g : GovernanceState) : GovernanceState :=
  match future_pparams g : GovTypes.FuturePParams with
  | NoPParamsUpdate | DefinitePParamsUpdate _ => g
  | PotentialPParamsUpdate _ =>
      let predicted :=
        match ratify_plan g with
        | Some p => if has_pparams_changes p then Some (cur_pparams p) else None
        | None => None
        end in
      g <| future_pparams := PotentialPParamsUpdate predicted |>
  end.

Definition solidify_next_epoch_pparams (slot first_slot_next_epoch stability_window_3kf : Z) (g : GovernanceState) :
    GovernanceState :=
  let point_of_no_return := first_slot_next_epoch -s (2 *w stability_window_3kf) in
  if slot <? point_of_no_return then g else g <| future_pparams ::= solidify |>.

Definition epoch_boundary_governance_step (new_epoch : EpochNo) s : LedgerState :=
  if 9 <=? protocol_version_major (protocol_params (epochs s)) then
    let s := s <| gov ::= λ g, g <| future_pparams := PotentialPParamsUpdate None |> |> in
    let s := set_fresh_drep_pulsing_state new_epoch s in
    s <| gov ::= predict_future_pparams |>
  else s.

(** ** Applying the last decision *)

(** One action of the plan, as it was frozen. *)
Definition enact_planned (frozen : option PulsingSnapshot)
    (acc : GovRelation (option GovActionId) * LedgerState) (id : GovActionId) :
    GovRelation (option GovActionId) * LedgerState :=
  let '(roots, s) := acc in
  let st := match frozen ≫= λ sn, ps_proposals sn !! id with
            | Some st => Some st
            | None => proposals (gov s) !! id
            end in
  match st with
  | Some st =>
      let action := gov_action (procedure st) in
      (update_enacted_root_local id action roots, enact_gov_action_impl action s)
  | None => acc
  end.

Definition apply_ratify_decision (plan : PulsedRatifyState) s : LedgerState :=
  let frozen := pulsing_snapshot (gov s) in
  let roots := from_option ps_enacted (enacted_roots (gov s)) frozen in
  let '(roots, s) := foldl (enact_planned frozen) (roots, s) (enacted plan) in
  let s := s <| gov ::= write_roots roots |> in
  let s := proposals_apply_enactment (enacted plan) (expired plan) s in
  s <| gov ::= λ g, g <| last_ratify_delayed := delayed plan |> |>.

Definition ratify_at_boundary s : LedgerState :=
  match ratify_plan (gov s) with
  | None => s <| gov ::= λ g, g <| last_ratified := [] |> <| last_expired := [] |> <| last_ratify_delayed := false |> |>
  | Some plan => apply_ratify_decision plan s
  end.

(** ** DReps and committee at the boundary *)

Definition update_dormant_epochs s : LedgerState :=
  if (9 <=? protocol_version_major (protocol_params (epochs s))) && bool_decide (proposals (gov s) = ∅)
  then s <| gov ::= λ g, g <| num_dormant_epochs ::= λ n, n +s 1 |> |>
  else s.

Definition update_drep_activity (new_epoch : EpochNo) s : LedgerState :=
  if 9 <=? protocol_version_major (protocol_params (epochs s))
  then s <| gov ::= λ g, g <| dreps ::= fmap (λ d : DRepRegistration,
              d <| dr_active := negb (dr_drep_expiry d <? new_epoch) |>) |> |>
  else s.

Definition prune_committee_state (g : GovernanceState) : GovernanceState :=
  let members : gset Hash32 := dom (committee_expiration g) in
  let stale_hot := map_values (filter (λ kv : Hash32 * Hash32, kv.1 ∉ members) (committee_hot_keys g)) in
  let hot_keys := filter (λ kv : Hash32 * Hash32, kv.1 ∈ members) (committee_hot_keys g) in
  let live_hot : gset Hash32 := list_to_set (map_values hot_keys) in
  let g :=
    if bool_decide (stale_hot = []) then g
    else g <| committee_hot_keys := hot_keys |>
           <| script_committee_hot_credentials ::= λ c,
                foldl (λ c hot, if bool_decide (hot ∈ live_hot) then c else c ∖ {[hot]}) c stale_hot |> in
  g <| committee_resigned ::= filter (λ kv : Hash32 * option Anchor, kv.1 ∈ members) |>.

End governance.
