(* ===== verification/GovCerts.v ===== *)
(** * Certificates, votes and proposals of a Conway transaction

    The certificates ([eras/common.rs], [eras/conway.rs]), the two directions of
    vote delegation ([state/governance.rs]), the GOV rule and the pipeline of
    [apply_valid_tx]. The handlers change the sub-states in place, so that a
    step that fails returns the state as it left it. *)

From S2P Require Import Prelude Order RecordUpdate EraHistory Block Ledger UtxoApply RewardRat RewardPulser Rewards GovTypes GovForest Governance.
Local Open Scope Z_scope.
Local Open Scope mach_scope.
Local Open Scope record_scope.

(** ** Certificates *)

Record PoolMetadata := mkMetadata { meta_url : list Z; meta_hash : Hash32 }.

Record PoolParams := mkPoolParams {
  po_operator : Hash28;
  po_vrf_keyhash : Hash32;
  po_pledge : Lovelace;
  po_cost : Lovelace;
  po_margin : Rational;
  po_reward_account : list Z;
  po_owners : list Hash28;
  po_relays : list Relay;
  po_metadata : option PoolMetadata;
}.

Inductive MIRSource : Type := MirReserves | MirTreasury.

Inductive MIRTarget : Type :=
| MirStakeCredentials (creds : list (Credential * Z))
| MirOtherAccountingPot (coin : Z).

Inductive Certificate : Type :=
| StakeRegistration (credential : Credential)
| StakeDeregistration (credential : Credential)
| ConwayStakeRegistration (credential : Credential) (deposit : Lovelace)
| ConwayStakeDeregistration (credential : Credential) (refund : Lovelace)
| StakeDelegation (credential : Credential) (pool_hash : Hash28)
| PoolRegistrationCert (params : PoolParams)
| PoolRetirement (pool_hash : Hash28) (epoch : Z)
| RegDRep (credential : Credential) (deposit : Lovelace) (anchor : option Anchor)
| UnregDRep (credential : Credential) (refund : Lovelace)
| UpdateDRep (credential : Credential) (anchor : option Anchor)
| VoteDelegation (credential : Credential) (drep : DRep)
| StakeVoteDelegation (credential : Credential) (pool_hash : Hash28) (drep : DRep)
| RegStakeDeleg (credential : Credential) (pool_hash : Hash28) (deposit : Lovelace)
| CommitteeHotAuth (cold_credential hot_credential : Credential)
| CommitteeColdResign (cold_credential : Credential) (anchor : option Anchor)
| RegStakeVoteDeleg (credential : Credential) (pool_hash : Hash28) (drep : DRep) (deposit : Lovelace)
| VoteRegDeleg (credential : Credential) (drep : DRep) (deposit : Lovelace)
| GenesisKeyDelegation (genesis_hash genesis_delegate_hash vrf_keyhash : Hash32)
| MoveInstantaneousRewards (source : MIRSource) (target : MIRTarget).

Section certificates.
Context `{GovRest}.
Implicit Types (s : LedgerState) (c : CertSubState) (g : GovernanceState).

(** ** Vote delegation, in both directions *)

Definition remove_deleg (cred : Hash32) (d : DRepRegistration) : DRepRegistration :=
  d <| dr_delegs ::= λ x, x ∖ {[cred]} |>.
Definition add_deleg (cred : Hash32) (d : DRepRegistration) : DRepRegistration :=
  d <| dr_delegs ::= union {[cred]} |>.

(** The DRep that a credential delegates to, if it is registered. *)
Definition current_drep (stake_cred : Hash32) g : option (Hash32 * DRepRegistration) :=
  drep ← vote_delegations g !! stake_cred;
  key ← credential_hash32 drep;
  pair key <$> dreps g !! key.

(** The key comes back only when an entry was removed. *)
Definition undelegate_vote (stake_cred : Hash32) g : option Hash32 * GovernanceState :=
  match current_drep stake_cred g with
  | None => (None, g)
  | Some (key, d) =>
      (if bool_decide (stake_cred ∈ dr_delegs d) then Some key else None,
       g <| dreps ::= insert key (remove_deleg stake_cred d) |>)
  end.

Definition delegate_vote (preserve_incorrect_delegation : bool) (stake_cred : Hash32) (new_drep : DRep) g :
    GovernanceState :=
  let '(previous, g) := undelegate_vote stake_cred g in
  let g := g <| vote_delegations ::= insert stake_cred new_drep |> in
  match credential_hash32 new_drep with
  | None => g
  | Some target =>
      match dreps g !! target with
      | None => g
      | Some d =>
          let g := g <| dreps ::= insert target (add_deleg stake_cred d) |> in
          match previous with
          | Some prev =>
              if preserve_incorrect_delegation && negb (bool_decide (prev = target))
              then g <| dreps ::= alter (add_deleg stake_cred) prev |>
              else g
          | None => g
          end
      end
  end.

(** The reconciliation at version 10: the sets are rebuilt from the forward map,
    and delegations to no DRep go. *)
Definition reindex_vote (acc : gmap Hash32 DRepRegistration * list Hash32) (kv : Hash32 * DRep) :
    gmap Hash32 DRepRegistration * list Hash32 :=
  let '(ds, dangling) := acc in
  match credential_hash32 kv.2 with
  | None => acc
  | Some target =>
      match ds !! target with
      | Some d => (<[target := add_deleg kv.1 d]> ds, dangling)
      | None => (ds, dangling ++ [kv.1])
      end
  end.

Definition clear_delegs (d : DRepRegistration) : DRepRegistration := d <| dr_delegs := ∅ |>.

Definition update_drep_delegations g : GovernanceState :=
  let '(ds, dangling) := foldl reindex_vote (clear_delegs <$> dreps g, []) (map_to_list (vote_delegations g)) in
  g <| dreps := ds |> <| vote_delegations ::= λ m, foldl (λ m cred, delete cred m) m dangling |>.

(** ** Certificates of Shelley *)

(** [entry(key).or_insert(0)] *)
Definition entry_zero (key : Hash32) (m : gmap Hash32 Lovelace) : gmap Hash32 Lovelace :=
  match m !! key with Some _ => m | None => <[key := 0]> m end.

Definition register_stake (credential : Credential) (deposit : Z) c : CertSubState :=
  let key := to_typed_hash32 credential in
  c <| stake_map ::= entry_zero key |> <| reward_accounts ::= entry_zero key |>
    <| script_stake_credentials ::= λ x, if is_script credential then {[key]} ∪ x else x |>
    <| total_stake_key_deposits ::= λ t, t +w deposit |> <| stake_key_deposits ::= insert key deposit |>.

(** The stored deposit goes, or what is given when there is none. *)
Definition deregister_stake (key : Hash32) (fallback : Z) c : CertSubState :=
  let stored := default fallback (stake_key_deposits c !! key) in
  c <| stake_key_deposits ::= delete key |> <| total_stake_key_deposits ::= λ t, t -s stored |>
    <| delegations ::= delete key |> <| reward_accounts ::= delete key |>
    <| script_stake_credentials ::= λ x, x ∖ {[key]} |>
    <| pointer_map ::= filter (λ kv : Pointer * Hash32, kv.2 ≠ key) |>.

Definition drop_vote (key : Hash32) g : GovernanceState :=
  (undelegate_vote key g).2 <| vote_delegations ::= delete key |>.

Definition pool_registration (p : PoolParams) : PoolRegistration :=
  mkPool (po_operator p) (po_vrf_keyhash p) (po_pledge p) (po_cost p) (numerator (po_margin p))
    (denominator (po_margin p)) (po_reward_account p) (po_owners p) (po_relays p)
    (meta_url <$> po_metadata p) (meta_hash <$> po_metadata p).

(** The key of an earlier re-registration in the epoch is given up. *)
Definition claim_future_vrf (p : PoolParams) c : CertSubState :=
  match future_pool_params c !! po_operator p with
  | Some pending =>
      if bool_decide (pool_vrf_keyhash pending = po_vrf_keyhash p) then c
      else c <| vrf_key_hashes ::= λ m, <[po_vrf_keyhash p := 1]> (delete (pool_vrf_keyhash pending) m) |>
  | None => c <| vrf_key_hashes ::= insert (po_vrf_keyhash p) 1 |>
  end.

Definition register_pool (track_vrf : bool) (pool_deposit : Lovelace) (p : PoolParams) c : CertSubState :=
  match pool_params c !! po_operator p with
  | Some _ =>
      let c := if track_vrf then claim_future_vrf p c else c in
      c <| pending_retirements ::= delete (po_operator p) |>
        <| future_pool_params ::= insert (po_operator p) (pool_registration p) |>
  | None =>
      let c := if track_vrf then c <| vrf_key_hashes ::= insert (po_vrf_keyhash p) 1 |> else c in
      c <| pool_params ::= insert (po_operator p) (pool_registration p) |>
        <| pool_deposits ::= insert (po_operator p) pool_deposit |>
  end.

(** Amounts add up from version 5 on; before, the last certificate wins. *)
Definition queue_mir (additive : bool) (m : gmap Hash32 Z) (e : Credential * Z) : gmap Hash32 Z :=
  let key := to_typed_hash32 e.1 in
  if additive then <[key := default 0 (m !! key) + e.2]> m else <[key := e.2]> m.

Definition move_rewards (additive : bool) (source : MIRSource) (target : MIRTarget) c : CertSubState :=
  match target, source with
  | MirStakeCredentials creds, MirReserves => c <| pending_mir_reserves ::= λ m, foldl (queue_mir additive) m creds |>
  | MirStakeCredentials creds, MirTreasury => c <| pending_mir_treasury ::= λ m, foldl (queue_mir additive) m creds |>
  | MirOtherAccountingPot coin, MirReserves => c <| pending_mir_delta_reserves ::= λ d, d + coin |>
  | MirOtherAccountingPot coin, MirTreasury => c <| pending_mir_delta_treasury ::= λ d, d + coin |>
  end.

(** Pointers are recorded before Conway only. *)
Definition record_pointer (cert : Certificate) (pv_major : Z) (p : Pointer) c : CertSubState :=
  match cert with
  | StakeRegistration credential =>
      if pv_major <? 9 then c <| pointer_map ::= insert p (to_typed_hash32 credential) |> else c
  | _ => c
  end.

Definition apply_shelley_cert (cert : Certificate) (cert_index slot tx_index : Z) s : LedgerState :=
  let pp := protocol_params (epochs s) in
  let pv_major := protocol_version_major pp in
  let s := s <| certs ::= record_pointer cert pv_major (mkPointer slot tx_index cert_index) |> in
  match cert with
  | StakeRegistration credential => s <| certs ::= register_stake credential (pp_key_deposit pp) |>
  | StakeDeregistration credential =>
      let key := to_typed_hash32 credential in
      s <| certs ::= deregister_stake key (pp_key_deposit pp) |> <| gov ::= drop_vote key |>
  | StakeDelegation credential pool_hash =>
      s <| certs ::= λ c, c <| delegations ::= insert (to_typed_hash32 credential) pool_hash |> |>
  | PoolRegistrationCert params => s <| certs ::= register_pool (11 <=? pv_major) (pp_pool_deposit pp) params |>
  | PoolRetirement pool_hash epoch =>
      s <| certs ::= λ c, c <| pending_retirements ::= insert pool_hash epoch |> |>
  | MoveInstantaneousRewards source target =>
      if 9 <=? pv_major then s else s <| certs ::= move_rewards (4 <? pv_major) source target |>
  | _ => s
  end.

(** ** Certificates of Conway *)

(** Dormant epochs are taken off from version 10 on. *)
Definition activity_expiry (current_epoch : EpochNo) s : EpochNo :=
  let pp := protocol_params (epochs s) in
  let base := current_epoch +w drep_activity (gov_params pp) in
  if 10 <=? protocol_version_major pp then base -s num_dormant_epochs (gov s) else base.

Definition touch_drep (expiry : EpochNo) (d : DRepRegistration) : DRepRegistration :=
  d <| dr_drep_expiry := expiry |> <| dr_active := true |>.

Definition unregister_drep (key : Hash32) g : GovernanceState :=
  match dreps g !! key with
  | Some d =>
      g <| dreps ::= delete key |>
        <| vote_delegations ::= λ m, foldl (λ m cred, delete cred m) m (elements (dr_delegs d)) |>
  | None => g
  end.

Definition authorize_hot (cold hot : Credential) g : GovernanceState :=
  let cold_key := to_typed_hash32 cold in
  g <| committee_hot_keys ::= insert cold_key (to_typed_hash32 hot) |>
    <| script_committee_credentials ::= λ x, if is_script cold then {[cold_key]} ∪ x else x |>
    <| script_committee_hot_credentials ::= λ x, if is_script hot then {[cold_key]} ∪ x else x ∖ {[cold_key]} |>.

Definition resign_cold (cold : Credential) (anchor : option Anchor) g : GovernanceState :=
  let cold_key := to_typed_hash32 cold in
  g <| committee_resigned ::= insert cold_key anchor |>
    <| script_committee_credentials ::= λ x, if is_script cold then {[cold_key]} ∪ x else x |>.

Definition delegate_stake (key : Hash32) (pool_hash : Hash28) c : CertSubState :=
  c <| delegations ::= insert key pool_hash |>.

Definition apply_conway_cert (cert : Certificate) (current_epoch : EpochNo) s : LedgerState :=
  let preserve := protocol_version_major (protocol_params (epochs s)) <? 10 in
  let drep_expiry := activity_expiry current_epoch s in
  match cert with
  | ConwayStakeRegistration credential deposit => s <| certs ::= register_stake credential deposit |>
  | ConwayStakeDeregistration credential refund =>
      let key := to_typed_hash32 credential in
      s <| certs ::= deregister_stake key refund |> <| gov ::= drop_vote key |>
  | RegDRep credential deposit anchor =>
      s <| gov ::= λ g, g <| dreps ::= insert (to_typed_hash32 credential)
               (mkDRep credential deposit anchor current_epoch drep_expiry true ∅) |>
             <| drep_registration_count ::= λ n, n +w 1 |> |>
  | UnregDRep credential _ => s <| gov ::= unregister_drep (to_typed_hash32 credential) |>
  | UpdateDRep credential anchor =>
      s <| gov ::= λ g, g <| dreps ::= alter (λ d, touch_drep drep_expiry (d <| dr_anchor := anchor |>))
                                (to_typed_hash32 credential) |> |>
  | VoteDelegation credential drep => s <| gov ::= delegate_vote preserve (to_typed_hash32 credential) drep |>
  | StakeVoteDelegation credential pool_hash drep =>
      let key := to_typed_hash32 credential in
      s <| certs ::= delegate_stake key pool_hash |> <| gov ::= delegate_vote preserve key drep |>
  | RegStakeDeleg credential pool_hash deposit =>
      s <| certs ::= λ c, delegate_stake (to_typed_hash32 credential) pool_hash (register_stake credential deposit c) |>
  | RegStakeVoteDeleg credential pool_hash drep deposit =>
      let key := to_typed_hash32 credential in
      s <| certs ::= λ c, delegate_stake key pool_hash (register_stake credential deposit c) |>
        <| gov ::= delegate_vote preserve key drep |>
  | VoteRegDeleg credential drep deposit =>
      s <| certs ::= register_stake credential deposit |>
        <| gov ::= delegate_vote preserve (to_typed_hash32 credential) drep |>
  | CommitteeHotAuth cold hot => s <| gov ::= authorize_hot cold hot |>
  | CommitteeColdResign cold anchor => s <| gov ::= resign_cold cold anchor |>
  | _ => s
  end.

(** ** Votes and proposals *)

Record GovTx := mkGovTx {
  gt_body : LedgerTx;
  gt_treasury_value : option Lovelace;
  gt_withdrawals : gmap (list Z) Lovelace;
  gt_certificates : list Certificate;
  gt_voting_procedures : gmap Voter (gmap GovActionId VotingProcedure);
  gt_proposal_procedures : list ProposalProcedure;
  gt_donation : option Lovelace;
}.

(** The fields that the Conway rules read; of the Conway genesis, the cost model. *)
Record RuleContext := mkRuleContext {
  rc_params : FullParameters;
  rc_current_slot : Z;
  rc_current_epoch : EpochNo;
  rc_era : Era;
  rc_update_quorum : Z;
  rc_tx_index : Z;
  rc_plutus_v3_cost_model : option (list Z);
}.

Inductive BlockValidationMode : Type := ValidateAll | ApplyOnly.

Inductive TxError : Type :=
| MismatchedTreasuryValue (declared actual : Z)
| WithdrawalNotDelegated
| WithdrawalAmountMismatch
| InvalidPrevGovActionId (action_id : GovActionId) (prev : option GovActionId).

Definition update_drep_expiries_for_tx (tx : GovTx) (current_epoch : EpochNo) s : LedgerState :=
  let expiry := activity_expiry current_epoch s in
  s <| gov ::= λ g, g <| dreps ::= λ m,
         foldl (λ m voter, match voter with
                           | VoterDRep credential => alter (touch_drep expiry) (to_typed_hash32 credential) m
                           | _ => m
                           end) m (map_to_list (gt_voting_procedures tx)).*1 |> |>.

Definition refund_dormant (current_epoch num_dormant : Z) (d : DRepRegistration) : DRepRegistration :=
  let actual := dr_drep_expiry d +s num_dormant in
  if current_epoch <=? actual then d <| dr_drep_expiry := actual |> else d.

Definition update_dormant_drep_expiry_for_tx (tx : GovTx) (current_epoch : EpochNo) s : LedgerState :=
  let num_dormant := num_dormant_epochs (gov s) in
  if bool_decide (gt_proposal_procedures tx = []) || (num_dormant =? 0) then s
  else s <| gov ::= λ g, g <| num_dormant_epochs := 0 |>
                           <| dreps ::= fmap (refund_dormant current_epoch num_dormant) |> |>.

(** Every account withdrawn from is emptied, whatever the amount. *)
Definition drain_withdrawal_accounts (tx : GovTx) c : CertSubState :=
  c <| reward_accounts ::= λ m,
         foldl (λ m addr, alter (λ _, 0) (reward_account_to_hash addr) m) m (map_to_list (gt_withdrawals tx)).*1 |>.

Definition pv_can_follow (cur new : Z * Z) : bool :=
  ((new.1 =? cur.1 +w 1) && (new.2 =? 0)) || ((new.1 =? cur.1) && (new.2 =? cur.2 +w 1)).

(** The version that a hard fork builds on: the current one under the enacted
    root or on too large a step, or that of the parent. *)
Definition hardfork_base (prev : option GovActionId) (target_major : Z) g (cur : Z * Z) : option (Z * Z) :=
  if bool_decide (prev = enacted_hard_fork g) || (cur.1 +w 1 <? target_major) then Some cur
  else match prev ≫= λ p, (λ st, gov_action (procedure st)) <$> proposals g !! p with
       | Some (HardForkInitiation _ version) => Some version
       | _ => None
       end.

Definition hardfork_proposal_cant_follow (action : GovAction) g (cur : Z * Z) : bool :=
  match action with
  | HardForkInitiation prev target =>
      match hardfork_base prev target.1 g cur with
      | Some base => negb (pv_can_follow base target)
      | None => false
      end
  | _ => false
  end.

Definition genesis_root_is_valid (action : GovAction) g : bool :=
  match gov_action_purpose_tag action with
  | Some p => bool_decide (rel_get (enacted_roots g) p = None)
  | None => true
  end.

Definition prev_action_matches_enacted_root (action : GovAction) (prev : GovActionId) g : bool :=
  match gov_action_purpose_tag action with
  | Some p => bool_decide (rel_get (enacted_roots g) p = Some prev)
  | None => false
  end.

Definition prev_action_valid (action : GovAction) g : bool :=
  match gov_action_raw_prev_id action with
  | None => genesis_root_is_valid action g
  | Some prev => prev_action_matches_enacted_root action prev g || bool_decide (is_Some (proposals g !! prev))
  end.

(** The last vote of a voter wins. *)
Definition record_vote (voter : Voter) (votes : gmap GovActionId (gmap Voter VotingProcedure))
    (e : GovActionId * VotingProcedure) : gmap GovActionId (gmap Voter VotingProcedure) :=
  <[e.1 := <[voter := e.2]> (default ∅ (votes !! e.1))]> votes.

Definition record_votes (tx : GovTx) g : GovernanceState :=
  g <| votes_by_action ::= λ votes,
         foldl (λ votes '(voter, action_votes), foldl (record_vote voter) votes (map_to_list action_votes)) votes
           (map_to_list (gt_voting_procedures tx)) |>.

Definition add_proposal (current_epoch lifetime : Z) (id : GovActionId) (p : ProposalProcedure) g : GovernanceState :=
  let st := mkProposalState p current_epoch (current_epoch +w lifetime) 0 0 0 (proposal_count g) in
  g <| proposals ::= insert id st |> <| proposal_count ::= λ n, n +w 1 |>
    <| proposal_forest ::= λ f, add_to_forest f (id, st) |>.

Fixpoint add_proposals (tx_hash : Hash32) (pp : FullParameters) (current_epoch : EpochNo) (idx : Z)
    (ps : list ProposalProcedure) g : option TxError * GovernanceState :=
  match ps with
  | [] => (None, g)
  | p :: ps =>
      let id := mkActionId tx_hash idx in
      let action := gov_action p in
      if negb (prev_action_valid action g)
      then (Some (InvalidPrevGovActionId id (gov_action_raw_prev_id action)), g)
      else
        let g :=
          if hardfork_proposal_cant_follow action g (protocol_version_major pp, protocol_version_minor pp) then g
          else add_proposal current_epoch (gov_action_lifetime (gov_params pp)) id p g in
        add_proposals tx_hash pp current_epoch (idx + 1) ps g
  end.

Definition process_governance_votes_and_proposals (tx : GovTx) (ctx : RuleContext) s : option TxError * LedgerState :=
  let '(err, g) :=
    add_proposals (lt_hash (gt_body tx)) (protocol_params (epochs s)) (rc_current_epoch ctx) 0
      (gt_proposal_procedures tx) (record_votes tx (gov s)) in
  (err, s <| gov := g |>).

(** ** The pipeline *)

Definition treasury_mismatch (tx : GovTx) (mode : BlockValidationMode) s : option TxError :=
  match gt_treasury_value tx, mode with
  | Some declared, ValidateAll =>
      if declared =? treasury (epochs s) then None
      else Some (MismatchedTreasuryValue declared (treasury (epochs s)))
  | _, _ => None
  end.

(** Accounts of keys need a DRep. *)
Definition withdrawal_delegated g (addr : list Z) : bool :=
  if (29 <=? length addr)%nat && negb (Z.testbit (nth 0 addr 0) 4)
  then bool_decide (is_Some (vote_delegations g !! reward_account_to_hash addr))
  else true.

Definition withdrawal_exact c (w : list Z * Lovelace) : bool :=
  w.2 =? default 0 (reward_accounts c !! reward_account_to_hash w.1).

Definition withdrawal_error (tx : GovTx) (ctx : RuleContext) s : option TxError :=
  let l := map_to_list (gt_withdrawals tx) in
  if 10 <=? protocol_version_major (rc_params ctx) then
    if negb (forallb (withdrawal_delegated (gov s)) l.*1) then Some WithdrawalNotDelegated
    else if negb (forallb (withdrawal_exact (certs s)) l) then Some WithdrawalAmountMismatch
    else None
  else None.

Fixpoint apply_certs (ctx : RuleContext) (cert_index : Z) (l : list Certificate) s : LedgerState :=
  match l with
  | [] => s
  | cert :: l =>
      let s := apply_shelley_cert cert cert_index (rc_current_slot ctx) (rc_tx_index ctx) s in
      apply_certs ctx (cert_index + 1) l (apply_conway_cert cert (rc_current_epoch ctx) s)
  end.

Definition donate (tx : GovTx) s : LedgerState :=
  match gt_donation tx with
  | Some donation => s <| utxo ::= λ u, u <| pending_donations ::= λ d, d +s donation |> |>
  | None => s
  end.

Definition apply_valid_tx (tx : GovTx) (mode : BlockValidationMode) (ctx : RuleContext) s :
    (UtxoDiff + TxError) * LedgerState :=
  match treasury_mismatch tx mode s with
  | Some e => (inr e, s)
  | None =>
      match withdrawal_error tx ctx s with
      | Some e => (inr e, s)
      | None =>
          let s := update_drep_expiries_for_tx tx (rc_current_epoch ctx) s in
          let s := update_dormant_drep_expiry_for_tx tx (rc_current_epoch ctx) s in
          let s := s <| certs ::= drain_withdrawal_accounts tx |> in
          let s := apply_certs ctx 0 (gt_certificates tx) s in
          match process_governance_votes_and_proposals tx ctx s with
          | (Some e, s) => (inr e, s)
          | (None, s) =>
              let '(diff, s) := apply_utxo_changes (gt_body tx) s in
              (inl diff, donate tx s)
          end
      end
  end.

End certificates.
