(* ===== verification/GovBoundary.v ===== *)
(** * The Conway epoch transition ([eras/conway.rs], [process_epoch_transition])

    The update of the parameters from before Conway, the reward steps, the
    snapshot, pool activation and retirement, MIR, ratification, the DRep and
    committee upkeep, the hard fork inside the era, the next decision and the
    epoch nonce, in the order of the code. [None] is one of its panics. *)

From S2P Require Import Prelude Order RecordUpdate EraHistory Block ConsensusError Cbor CborSkip BlockCbor Ledger UtxoApply RewardRat RewardPulser Rewards RewardEpoch GovTypes GovForest Governance GovCerts.
Local Open Scope Z_scope.
Local Open Scope mach_scope.
Local Open Scope record_scope.

(** ** Parameter updates from before Conway ([validation/ppup.rs], [eras/shelley.rs]) *)

#[global] Instance Rational_eq_dec : EqDecision Rational.
Proof. solve_decision. Defined.

#[global] Instance CostModels_eq_dec : EqDecision CostModels.
Proof. solve_decision. Defined.

#[global] Instance ExUnits_eq_dec : EqDecision ExUnits.
Proof. solve_decision. Defined.

#[global] Instance ExUnitPrices_eq_dec : EqDecision ExUnitPrices.
Proof. solve_decision. Defined.

#[global] Instance ProtocolParamUpdate_eq_dec : EqDecision ProtocolParamUpdate.
Proof. solve_decision. Defined.

(** The last proposal of a genesis key counts. *)
Definition fold_pp_proposals (proposals : list (Hash32 * ProtocolParamUpdate)) : gmap Hash28 ProtocolParamUpdate :=
  foldl (λ m '(genesis_hash, ppu), <[take 28 genesis_hash := ppu]> m) ∅ proposals.

Fixpoint tally_vote (ppu : ProtocolParamUpdate) (tally : list (ProtocolParamUpdate * Z)) :
    list (ProtocolParamUpdate * Z) :=
  match tally with
  | [] => [(ppu, 1)]
  | (p, n) :: rest => if bool_decide (p = ppu) then (p, n + 1) :: rest else (p, n) :: tally_vote ppu rest
  end.

(** One update at the quorum, and sizes that fit each other. *)
Definition voted_future_pparams (proposed : gmap Hash28 ProtocolParamUpdate) (quorum : Z) (current : FullParameters) :
    option ProtocolParamUpdate :=
  if bool_decide (proposed = ∅) || (quorum =? 0) then None
  else
    let tally := foldl (λ t ppu, tally_vote ppu t) [] (map_values proposed) in
    match (filter (λ e : ProtocolParamUpdate * Z, quorum ≤ e.2) tally).*1 with
    | [winner] =>
        let g := gov_params current in
        let max_tx := default (max_tx_size g) (u_max_tx_size winner) in
        let max_hdr := default (max_block_header_size g) (u_max_block_header_size winner) in
        let max_body := default (max_block_body_size g) (u_max_block_body_size winner) in
        if max_body <=? max_tx +s max_hdr then None else Some winner
    | _ => None
    end.

(** The cost models are replaced as a whole. *)
Definition shelley_gov_params (major : Z) (g : GovParams) (u : ProtocolParamUpdate) : GovParams :=
  mkGovParams
    (default (min_fee_a g) (u_min_fee_a u)) (default (min_fee_b g) (u_min_fee_b u))
    (default (max_block_body_size g) (u_max_block_body_size u)) (default (max_tx_size g) (u_max_tx_size u))
    (default (max_block_header_size g) (u_max_block_header_size u)) (default (e_max g) (u_e_max u))
    (default (min_pool_cost g) (u_min_pool_cost u)) (key17_byte major g u)
    (default (min_utxo_value g) (u_min_utxo_value u)) (key17_word major g u)
    (default (cost_models g) (u_cost_models u))
    (default (execution_costs g) (u_execution_costs u)) (default (max_tx_ex_units g) (u_max_tx_ex_units u))
    (default (max_block_ex_units g) (u_max_block_ex_units u)) (default (max_val_size g) (u_max_val_size u))
    (default (collateral_percentage g) (u_collateral_percentage u))
    (default (max_collateral_inputs g) (u_max_collateral_inputs u))
    (min_fee_ref_script_cost_per_byte g) (drep_deposit g) (drep_activity g) (gov_action_deposit g)
    (gov_action_lifetime g) (committee_min_size g) (committee_max_term_length g)
    (dvt_pp_network_group g) (dvt_pp_economic_group g) (dvt_pp_technical_group g) (dvt_pp_gov_group g)
    (dvt_hard_fork g) (dvt_no_confidence g) (dvt_committee_normal g) (dvt_committee_no_confidence g)
    (dvt_constitution g) (dvt_treasury_withdrawal g) (pvt_motion_no_confidence g) (pvt_committee_normal g)
    (pvt_committee_no_confidence g) (pvt_hard_fork g) (pvt_pp_security_group g)
    (max_ref_script_size_per_block g) (max_ref_script_size_per_tx g) (ref_script_cost_stride g)
    (ref_script_cost_multiplier g).

Definition apply_pp_update (p : FullParameters) (u : ProtocolParamUpdate) : FullParameters :=
  let r := pp_rest p in
  mkParams (default (protocol_version_major p) (u_protocol_version_major u)) (default (pp_d p) (u_d u))
    (default (pp_key_deposit p) (u_key_deposit u)) (default (pp_pool_deposit p) (u_pool_deposit u))
    (mkRewardParams (default (par_rho r) (u_rho u)) (default (par_tau r) (u_tau u))
      (default (par_a0 r) (u_a0 u)) (default (par_n_opt r) (u_n_opt u)) (par_active_slot_coeff r)
      (default (par_protocol_version_minor r) (u_protocol_version_minor u))
      (shelley_gov_params (protocol_version_major p) (par_rest r) u)).

(** ** Nonces ([eras/common.rs]) *)

Inductive EpochNonceMode : Type := ModeTPraos | ModePraos.

Definition mode_for_era (era : Era) : EpochNonceMode := if uses_tpraos era then ModeTPraos else ModePraos.

Section nonces.
Context `{Blake2b}.

Definition combine_nonce (a b : Hash32) : Hash32 :=
  if bool_decide (a = hash_zero) then b else if bool_decide (b = hash_zero) then a else blake2b_256 (a ++ b).

Definition compute_epoch_boundary_nonce (mode : EpochNonceMode) (candidate last_epoch_block entropy : Hash32) : Hash32 :=
  let two_term := combine_nonce candidate last_epoch_block in
  match mode with ModeTPraos => combine_nonce two_term entropy | ModePraos => two_term end.

End nonces.

Section boundary.
Context `{GovRest} `{Blake2b}.
Implicit Types (s : LedgerState) (c : CertSubState) (g : GovernanceState).

(** ** Steps of the transition *)

(** An update without a model for the third version leaves the one of the genesis. *)
Definition reseed_plutus_v3 (v3 : option (list Z)) (p : FullParameters) : FullParameters :=
  match plutus_v3 (cost_models (gov_params p)), v3 with
  | None, Some _ =>
      p <| pp_rest ::= λ r, r <| par_rest ::= λ q, q <| cost_models ::= λ m, m <| plutus_v3 := v3 |> |> |> |>
  | _, _ => p
  end.

Definition enact_ppup (ctx : RuleContext) (lookup_epoch : EpochNo) s : LedgerState :=
  match pending_pp_updates (epochs s) !! lookup_epoch with
  | Some proposals =>
      let pp := protocol_params (epochs s) in
      match voted_future_pparams (fold_pp_proposals proposals) (rc_update_quorum ctx) pp with
      | Some winner =>
          let pp := reseed_plutus_v3 (rc_plutus_v3_cost_model ctx) (apply_pp_update pp winner) in
          s <| epochs ::= λ e, e <| protocol_params := pp |> |>
      | None => s
      end
  | None => s
  end.

(** Proposals for the coming epoch join those that wait. *)
Definition promote_updates (m : gmap EpochNo (list (Hash32 * ProtocolParamUpdate)))
    (kv : EpochNo * list (Hash32 * ProtocolParamUpdate)) : gmap EpochNo (list (Hash32 * ProtocolParamUpdate)) :=
  <[kv.1 := default [] (m !! kv.1) ++ kv.2]> m.

Definition process_ppup (ctx : RuleContext) (new_epoch : EpochNo) s : LedgerState :=
  let lookup_epoch := new_epoch -s 1 in
  let s := enact_ppup ctx lookup_epoch s in
  s <| epochs ::= λ e, e
         <| pending_pp_updates ::= λ m,
              foldl promote_updates
                (filter (λ kv : EpochNo * list (Hash32 * ProtocolParamUpdate), lookup_epoch ≤ kv.1)
                   (delete lookup_epoch m)) (map_to_list (future_pp_updates e)) |>
         <| future_pp_updates := ∅ |> |>.

(** Keys that a re-registration has replaced. *)
Definition dangling_vrf c : list Hash32 :=
  omap (λ '(pool_id, future),
    match pool_params c !! pool_id with
    | Some current =>
        if bool_decide (pool_vrf_keyhash current = pool_vrf_keyhash future) then None
        else Some (pool_vrf_keyhash current)
    | None => None
    end) (map_to_list (future_pool_params c)).

Definition activate_pool (m : gmap Hash28 PoolRegistration) (kv : Hash28 * PoolRegistration) :
    gmap Hash28 PoolRegistration :=
  if bool_decide (is_Some (m !! kv.1)) then <[kv.1 := kv.2]> m else m.

Definition activate_future_pools c : CertSubState :=
  c <| pool_params := foldl activate_pool (pool_params c) (map_to_list (future_pool_params c)) |>
    <| future_pool_params := ∅ |>.

Definition retiring_pools (new_epoch : EpochNo) c : list Hash28 :=
  (map_to_list (filter (λ kv : Hash28 * EpochNo, kv.2 = new_epoch) (pending_retirements c))).*1.

(** A replaced key goes whoever else holds it; a retiring pool's is counted down. *)
Definition release_vrf (pools : gmap Hash28 PoolRegistration) (m : gmap Hash32 Z) (pool_id : Hash28) : gmap Hash32 Z :=
  match pools !! pool_id with
  | Some reg =>
      let vrf := pool_vrf_keyhash reg in
      match m !! vrf with
      | Some n => if n <=? 1 then delete vrf m else <[vrf := n - 1]> m
      | None => m
      end
  | None => m
  end.

Definition release_vrf_keys (dangling : list Hash32) (retiring : list Hash28) c : CertSubState :=
  c <| vrf_key_hashes ::= λ m,
         foldl (release_vrf (pool_params c)) (foldl (λ m key, delete key m) m dangling) retiring |>.

(** One retired pool: its deposit goes to its account, or to the treasury. *)
Definition reap_pool (pool_id : Hash28) s : option LedgerState :=
  let c := certs s in
  match pool_params c !! pool_id with
  | None => Some s
  | Some reg =>
      let deposit := default (pp_pool_deposit (protocol_params (epochs s))) (pool_deposits c !! pool_id) in
      let op_key := reward_account_to_hash (pool_reward_account reg) in
      let s := s <| certs ::= λ c, c <| pool_params ::= delete pool_id |> <| pool_deposits ::= delete pool_id |>
                                     <| delegations ::= filter (λ kv : Hash32 * Hash28, kv.2 ≠ pool_id) |> |> in
      match reward_accounts c !! op_key with
      | Some balance => Some (s <| certs ::= λ c, c <| reward_accounts ::= insert op_key (balance +s deposit) |> |>)
      | None =>
          treasury' ← checked_add64 (treasury (epochs s)) deposit;
          Some (s <| epochs ::= λ e, e <| treasury := treasury' |> |>)
      end
  end.

Fixpoint reap_pools (ids : list Hash28) s : option LedgerState :=
  match ids with
  | [] => Some s
  | id :: ids => s ← reap_pool id s; reap_pools ids s
  end.

Definition poolreap (new_epoch : EpochNo) s : option LedgerState :=
  let track_vrf := 11 <=? protocol_version_major (protocol_params (epochs s)) in
  let dangling := if track_vrf then dangling_vrf (certs s) else [] in
  let s := s <| certs ::= activate_future_pools |> in
  let retiring := retiring_pools new_epoch (certs s) in
  let s := if track_vrf then s <| certs ::= release_vrf_keys dangling retiring |> else s in
  let s := s <| certs ::= λ c, c <| pending_retirements ::= λ m, foldl (λ m id, delete id m) m retiring |> |> in
  s ← reap_pools retiring s;
  Some (s <| certs ::= λ c, c <| pending_retirements ::= filter (λ kv : Hash28 * EpochNo, new_epoch < kv.2) |> |>).

Definition recompute_obligation c : CertSubState :=
  c <| total_stake_key_deposits := wsum (map_values (stake_key_deposits c)) |>.

(** The sets of keys of current and of future pools, counted. *)
Definition count_vrf (m : gmap Hash32 Z) (reg : PoolRegistration) : gmap Hash32 Z :=
  <[pool_vrf_keyhash reg := default 0 (m !! pool_vrf_keyhash reg) +s 1]> m.

Definition populate_vrf_key_hashes c : CertSubState :=
  c <| vrf_key_hashes := foldl count_vrf (foldl count_vrf ∅ (map_values (pool_params c)))
                           (map_values (future_pool_params c)) |>.

Definition intra_era_hardfork (old_proto_major : Z) s : LedgerState :=
  let major := protocol_version_major (protocol_params (epochs s)) in
  if major =? old_proto_major then s
  else if major =? 10 then s <| gov ::= update_drep_delegations |>
  else if major =? 11 then s <| certs ::= populate_vrf_key_hashes |>
  else s.

Definition rotate_nonces (era : Era) (n : ConsensusSubState) : ConsensusSubState :=
  n <| cn_epoch_nonce := compute_epoch_boundary_nonce (mode_for_era era) (candidate_nonce n)
         (last_epoch_block_nonce n) (extra_entropy n) |>
    <| last_epoch_block_nonce := lab_nonce n |>.

(** ** The transition *)

(** From the enactment of the frozen decision to the next one. *)
Definition governance_steps (old_proto_major : Z) (new_epoch : EpochNo) s : LedgerState :=
  let s := ratify_at_boundary s in
  let s := update_dormant_epochs s in
  let s := s <| gov ::= prune_committee_state |> in
  let s := update_drep_activity new_epoch s in
  let s := s <| certs ::= recompute_obligation |> in
  let s := intra_era_hardfork old_proto_major s in
  epoch_boundary_governance_step new_epoch s.

(** The nonces, the parameters as they were, and fresh block counts. *)
Definition close_epoch (era : Era) (old_params : FullParameters) s : LedgerState :=
  s <| consensus ::= rotate_nonces era |>
    <| epochs ::= λ e, e <| prev_d := rational_zero |>
                         <| prev_protocol_version_major := protocol_version_major old_params |>
                         <| prev_protocol_params := old_params |> |>
    <| consensus ::= λ n, n <| epoch_blocks_by_pool := ∅ |> <| epoch_block_count := 0 |> |>.

Definition conway_epoch_transition (ctx : RuleContext) (new_epoch : EpochNo) s : option LedgerState :=
  let old_params := protocol_params (epochs s) in
  let old_proto_major := protocol_version_major old_params in
  let s := process_ppup ctx new_epoch s in
  s ← conway_rupd s;
  let s := snap_rotate false new_epoch s in
  s ← poolreap new_epoch s;
  let s := apply_pending_mir s in
  Some (close_epoch (rc_era ctx) old_params (governance_steps old_proto_major new_epoch s)).

End boundary.
