(* ===== verification/GovRatify.v ===== *)
(** * What a ratification decides

    The loop over the frozen proposals as a relation between states of the
    pass, with the properties that hold of it by induction on the run: the
    enacted actions form a chain under the frozen roots, each met its thresholds
    in the state that the ones before it left, a delaying action is the last,
    and withdrawals stay within the frozen treasury. *)

From S2P Require Import Prelude Order RecordUpdate EraHistory Block Ledger UtxoApply RewardRat RewardPulser Rewards RewardEpoch RewardBounds GovTypes GovForest Governance.
Local Open Scope Z_scope.
Local Open Scope record_scope.

(** ** The run *)

Section ratify.
Context `{GovRest}.
Implicit Types (s : LedgerState) (p q : RatifyPass) (c : Candidate).

Definition action_of c : GovAction := gov_action (procedure c.2).

(** The list holds the candidates that the run enacts. *)
Inductive ratify_run (env : RatifyEnv) : RatifyPass → list Candidate → list Candidate → RatifyPass → Prop :=
| run_done p : ratify_run env p [] [] p
| run_enact p c l en q : ratified_now env p c = true →
    ratify_run env (ratify_step env p c) l en q → ratify_run env p (c :: l) (c :: en) q
| run_skip p c l en q : ratified_now env p c = false →
    ratify_run env (ratify_step env p c) l en q → ratify_run env p (c :: l) en q.

Lemma pass_runs env l p : ∃ en, ratify_run env p l en (foldl (ratify_step env) p l).
Proof.
  induction l as [|c l IH] in p |- *; [eexists; constructor|].
  destruct (IH (ratify_step env p c)) as [en Hen]. destruct (ratified_now env p c) eqn:E.
  - exists (c :: en). by constructor.
  - exists en. by constructor.
Qed.

(** ** What the run leaves *)

Definition enact_all (l : list Candidate) s : LedgerState := foldl (λ s c, enact_gov_action_impl (action_of c) s) s l.

Definition roots_after (l : list Candidate) (r : GovRelation (option GovActionId)) : GovRelation (option GovActionId) :=
  foldl (λ r c, update_enacted_root_local c.1 (action_of c) r) r l.

Definition cap_left (l : list Candidate) (cap : Z) : Z := foldl (λ cap c, cap_after (action_of c) cap) cap l.

Definition delays c : bool := is_delaying_action (action_of c).

(** Each action follows on the last enacted one of its purpose. *)
Fixpoint enact_chain (r : GovRelation (option GovActionId)) (l : list Candidate) : Prop :=
  match l with
  | [] => True
  | c :: l =>
      prev_action_as_expected (action_of c) r = true ∧
      enact_chain (update_enacted_root_local c.1 (action_of c) r) l
  end.

Lemma now_inv env p c : ratified_now env p c = true →
  prev_action_as_expected (action_of c) (rp_roots p) = true ∧ rp_delayed p = false ∧
  check_ratification_impl env c.1 c.2 (rp_committee p) (rp_cap p) (rp_state p) = true.
Proof.
  unfold ratified_now, action_of. destruct (prev_action_as_expected _ _), (rp_delayed p); cbn; intros; try done.
Qed.

Lemma step_enact env p c : ratified_now env p c = true →
  ratify_step env p c =
    let s := enact_gov_action_impl (action_of c) (rp_state p) in
    mkPass s (update_enacted_root_local c.1 (action_of c) (rp_roots p))
      (if changes_committee (action_of c) then committee_of (gov s) else rp_committee p)
      (cap_after (action_of c) (rp_cap p)) (rp_ratified p ++ [c.1])
      (if delays c then true else rp_delayed p) (rp_expired p).
Proof. intros E. unfold ratify_step. by rewrite E. Qed.

Lemma step_skip env p c : ratified_now env p c = false →
  ratify_step env p c =
    mkPass (rp_state p) (rp_roots p) (rp_committee p) (rp_cap p) (rp_ratified p) (rp_delayed p)
      (if expires_epoch c.2 <? re_epoch env then rp_expired p ++ [c.1] else rp_expired p).
Proof. intros E. unfold ratify_step. by rewrite E. Qed.

(** The fields of the pass are folds over what it enacts. *)
Lemma run_fields env p l en q : ratify_run env p l en q →
  rp_state q = enact_all en (rp_state p) ∧ rp_roots q = roots_after en (rp_roots p) ∧
  rp_cap q = cap_left en (rp_cap p) ∧ rp_ratified q = rp_ratified p ++ en.*1 ∧ en `sublist_of` l.
Proof.
  induction 1 as [p|p c l en q E _ (Hs & Hr & Hc & Hi & Hl)|p c l en q E _ (Hs & Hr & Hc & Hi & Hl)].
  - split_and!; try done. by rewrite app_nil_r.
  - rewrite (step_enact _ _ _ E) in Hs, Hr, Hc, Hi. cbn in Hs, Hr, Hc, Hi.
    split_and!; try done; [by rewrite Hi, <- app_assoc|by constructor].
  - rewrite (step_skip _ _ _ E) in Hs, Hr, Hc, Hi. cbn in Hs, Hr, Hc, Hi. split_and!; try done. by constructor.
Qed.

(** After a delaying action nothing is enacted. *)
Lemma run_delayed env p l en q : ratify_run env p l en q →
  rp_delayed q = rp_delayed p || existsb delays en ∧ (rp_delayed p = true → en = []) ∧
  ∀ l1 c l2, en = l1 ++ c :: l2 → delays c = true → l2 = [].
Proof.
  induction 1 as [p|p c l en q E _ (Hd & Hn & Hl)|p c l en q E _ (Hd & Hn & Hl)].
  - split; [by rewrite orb_false_r|]. split; [done|]. by intros [] ? ? ?.
  - rewrite (step_enact _ _ _ E) in Hd, Hn. cbn in Hd, Hn. apply now_inv in E as (_ & Ep & _).
    rewrite Ep in *. split; [rewrite Hd; cbn; by destruct (delays c)|]. split; [done|].
    intros [|c1 l1] c2 l2 Heq Hdel; cbn in Heq; injection Heq as <- Heq.
    + subst. rewrite Hdel in Hn. by apply Hn.
    + by eapply Hl.
  - rewrite (step_skip _ _ _ E) in Hd, Hn. cbn in Hd, Hn. done.
Qed.

(** An action that changes the committee is a delaying one. *)
Lemma changes_delays c : changes_committee (action_of c) = true → delays c = true.
Proof. unfold delays. by destruct (action_of c). Qed.

(** Every enacted action met its thresholds after those before it. *)
Lemma run_checked env p l en q : ratify_run env p l en q → enact_chain (rp_roots p) en ∧
  ∀ l1 c l2, en = l1 ++ c :: l2 →
    check_ratification_impl env c.1 c.2 (rp_committee p) (cap_left l1 (rp_cap p)) (enact_all l1 (rp_state p)) = true.
Proof.
  induction 1 as [p|p c l en q E Hrun (Hch & Hck)|p c l en q E _ (Hch & Hck)].
  - split; [done|]. by intros [] ? ? ?.
  - pose proof (run_delayed _ _ _ _ _ Hrun) as (_ & Hn & _). rewrite (step_enact _ _ _ E) in Hch, Hck, Hn.
    cbn in Hch, Hck, Hn. apply now_inv in E as (Hp & Ed & Hc). split; [done|].
    intros [|c1 l1] c2 l2 Heq; cbn in Heq; injection Heq as <- Heq; [done|].
    destruct (changes_committee (action_of c)) eqn:Ecc.
    + apply changes_delays in Ecc. rewrite Ecc in Hn. rewrite (Hn eq_refl) in Heq. by destruct l1.
    + by eapply Hck.
  - rewrite (step_skip _ _ _ E) in Hch, Hck. cbn in Hch, Hck. done.
Qed.

(** The proposals that expire: past their epoch, and not enacted. *)
Lemma run_expired env p l en q : ratify_run env p l en q → NoDup l.*1 → ∀ id,
  id ∈ rp_expired q ↔
    id ∈ rp_expired p ∨ ∃ st, (id, st) ∈ l ∧ expires_epoch st < re_epoch env ∧ id ∉ en.*1.
Proof.
  induction 1 as [p|p c l en q E Hrun IH|p c l en q E Hrun IH]; cbn; intros Hnd id.
  - split; [by left|]. intros [Hin|(st & Hin & _)]; [done|by apply not_elem_of_nil in Hin].
  - apply NoDup_cons in Hnd as [Hc Hnd]. rewrite (IH Hnd), (step_enact _ _ _ E). cbn.
    split; (intros [Hin|(st & Hin & Hex & Hen)]; [by left|right; exists st]).
    + split_and!; [by right|done|]. intros [->|Hi]%elem_of_cons; [|done].
      apply Hc, list_elem_of_fmap. by exists (c.1, st).
    + apply elem_of_cons in Hin as [<-|Hin]; [exfalso; apply Hen; by left|].
      split_and!; try done. intros Hi. apply Hen. by right.
  - apply NoDup_cons in Hnd as [Hc Hnd]. rewrite (IH Hnd), (step_skip _ _ _ E). cbn.
    pose proof (run_fields _ _ _ _ _ Hrun) as (_ & _ & _ & _ & Hsub).
    assert (c.1 ∉ en.*1) as Hce.
    { intros Hi. apply Hc. apply list_elem_of_fmap in Hi as (x & Hx & Hin). apply list_elem_of_fmap.
      exists x. split; [done|]. by eapply elem_of_sublist. }
    split.
    + intros [Hin|(st & Hin & Hex & Hen)].
      * destruct (Z.ltb_spec (expires_epoch c.2) (re_epoch env)); [|by left].
        apply elem_of_app in Hin as [Hin|Hin]; [by left|]. apply list_elem_of_singleton in Hin as ->.
        right. exists c.2. rewrite <- surjective_pairing. split_and!; [by left|done|done].
      * right. exists st. split_and!; [by right|done|done].
    + intros [Hin|(st & Hin & Hex & Hen)].
      * left. case_match; [|done]. apply elem_of_app. by left.
      * apply elem_of_cons in Hin as [<-|Hin]; cbn in *.
        -- left. destruct (Z.ltb_spec (expires_epoch st) (re_epoch env)); [|lia]. apply elem_of_app. right. by left.
        -- right. by exists st.
Qed.

(** ** The candidates *)

Lemma candidates_perm (m : gmap GovActionId ProposalState) : candidates m ≡ₚ map_to_list m.
Proof. apply merge_sort_Permutation. Qed.

Lemma candidates_spec (m : gmap GovActionId ProposalState) id st : (id, st) ∈ candidates m ↔ m !! id = Some st.
Proof. by rewrite candidates_perm, elem_of_map_to_list. Qed.

Lemma candidates_NoDup (m : gmap GovActionId ProposalState) : NoDup (candidates m).*1.
Proof. rewrite candidates_perm. apply NoDup_fst_map_to_list. Qed.

(** ** Withdrawals *)

Definition nonneg_values {K} `{Countable K} (m : gmap K Lovelace) : Prop := ∀ k x, m !! k = Some x → 0 ≤ x.

(** What the actions ask for, as the numbers that they are. *)
Definition declared (a : GovAction) : Z :=
  match a with TreasuryWithdrawals w _ => ksum (λ _ x, x) w | _ => 0 end.

Definition amounts_ok (a : GovAction) : Prop :=
  match a with TreasuryWithdrawals w _ => nonneg_values w | _ => True end.

Definition declared_all (l : list Candidate) : Z := zsum (declared ∘ action_of <$> l).

Lemma sat_sum_spec l : (∀ x, x ∈ l → 0 ≤ x) → sat_sum l = Z.min (zsum l) u64_max.
Proof.
  assert (∀ acc, (∀ x, x ∈ l → 0 ≤ x) → 0 ≤ acc ≤ u64_max →
    foldl saturating_add64 acc l = Z.min (acc + zsum l) u64_max) as Hacc.
  { induction l as [|x l IH]; intros acc Hl Ha; [cbn; lia|]. rewrite zsum_cons. cbn [foldl].
    pose proof (Hl x (list_elem_of_here _ _)). rewrite IH; [|intros y Hy; apply Hl; by right|unfold saturating_add64; lia].
    pose proof (zsum_nonneg l (λ y Hy, Hl y (list_elem_of_further _ _ _ Hy))). unfold saturating_add64. lia. }
  intros Hl. unfold sat_sum. rewrite Hacc; [f_equal; lia|done|done].
Qed.

Lemma withdrawals_total_spec (w : gmap (list Z) Lovelace) : nonneg_values w →
  withdrawals_total w = Z.min (ksum (λ _ x, x) w) u64_max.
Proof.
  intros Hw. unfold withdrawals_total. rewrite sat_sum_spec, zsum_values; [done|]. by apply map_values_nonneg.
Qed.

Lemma declared_nonneg a : amounts_ok a → 0 ≤ declared a.
Proof. destruct a; cbn; try lia. intros Hw. by apply ksum_nonneg. Qed.

(** The cap goes down by what is granted. *)
Lemma checked_cap env c cv cap s : amounts_ok (action_of c) → 0 ≤ cap < u64_max →
  check_ratification_impl env c.1 c.2 cv cap s = true →
  declared (action_of c) ≤ cap ∧ cap_after (action_of c) cap = cap - declared (action_of c).
Proof.
  unfold check_ratification_impl, action_of. intros Ha Hcap. destruct (gov_action (procedure c.2)); cbn; try (split; lia).
  cbn in Ha. pose proof (declared_nonneg (TreasuryWithdrawals withdrawals policy_hash) Ha) as Hn. cbn in Hn.
  rewrite (withdrawals_total_spec _ Ha). destruct (Z.ltb_spec cap (Z.min (ksum (λ _ x, x) withdrawals) u64_max)); [done|].
  intros _. unfold saturating_sub64. split; lia.
Qed.

Lemma run_withdrawals env p l en q : ratify_run env p l en q →
  (∀ c, c ∈ l → amounts_ok (action_of c)) → 0 ≤ rp_cap p < u64_max →
  declared_all en ≤ rp_cap p ∧ rp_cap q = rp_cap p - declared_all en.
Proof.
  induction 1 as [p|p c l en q E Hrun IH|p c l en q E Hrun IH]; intros Ha Hcap.
  - cbn. lia.
  - apply now_inv in E as Hnow. destruct Hnow as (_ & _ & Hck).
    destruct (checked_cap _ _ _ _ _ (Ha c (list_elem_of_here _ _)) Hcap Hck) as [Hle Hcap'].
    pose proof (declared_nonneg _ (Ha c (list_elem_of_here _ _))) as Hn.
    rewrite (step_enact _ _ _ E) in IH. cbn [rp_cap] in IH. rewrite Hcap' in IH.
    destruct IH as [IH1 IH2]; [intros; apply Ha; by right|lia|].
    unfold declared_all in *. cbn [fmap list_fmap]. rewrite zsum_cons. cbn. lia.
  - rewrite (step_skip _ _ _ E) in IH. cbn in IH. apply IH; [intros; apply Ha; by right|done].
Qed.

(** ** Settling proposals touches proposals, accounts and treasury only *)

Definition settle (accounts : gmap Hash32 Lovelace) (t : Z) (props : gmap GovActionId ProposalState) (f : Forest)
    (votes : gmap GovActionId (gmap Voter VotingProcedure)) (lr : list (GovActionId * ProposalState))
    (le : list GovActionId) s : LedgerState :=
  s <| certs ::= λ x, x <| reward_accounts := accounts |> |> <| epochs ::= λ e, e <| treasury := t |> |>
    <| gov ::= λ g, g <| proposals := props |> <| proposal_forest := f |> <| votes_by_action := votes |>
                      <| last_ratified := lr |> <| last_expired := le |> |>.

Definition settled s s' : Prop := ∃ a t m f v lr le, s' = settle a t m f v lr le s.

Lemma settled_refl s : settled s s.
Proof.
  exists (reward_accounts (certs s)), (treasury (epochs s)), (proposals (gov s)), (proposal_forest (gov s)),
    (votes_by_action (gov s)), (last_ratified (gov s)), (last_expired (gov s)).
  destruct s as [? [] [] ? []]. done.
Qed.

Lemma settled_trans s1 s2 s3 : settled s1 s2 → settled s2 s3 → settled s1 s3.
Proof.
  intros (a & t & p & f & v & lr & le & ->) (a' & t' & p' & f' & v' & lr' & le' & ->).
  by exists a', t', p', f', v', lr', le'.
Qed.

Ltac settle_one :=
  match goal with |- settled ?s ?s' =>
    exists (reward_accounts (certs s')), (treasury (epochs s')), (proposals (gov s')), (proposal_forest (gov s')),
      (votes_by_action (gov s')), (last_ratified (gov s')), (last_expired (gov s'));
    generalize s; clear; intros [? [] [] ? []]; reflexivity end.

Lemma refund_settled s e : settled s (refund_proposal_deposit s e).
Proof. unfold refund_proposal_deposit. case_match; [apply settled_refl|]. case_match; settle_one. Qed.

Lemma fold_settled {A} (f : LedgerState → A → LedgerState) l s :
  (∀ s x, settled s (f s x)) → settled s (foldl f s l).
Proof.
  intros Hf. induction l as [|x l IH] in s |- *; [apply settled_refl|]. eapply settled_trans; [apply Hf|apply IH].
Qed.

Lemma drop_settled ids s : settled s (drop_proposals ids s).2.
Proof.
  unfold drop_proposals. destruct (forest_remove_with_descendants _ _ _ _) as [removed [[props forest] votes]]. cbn.
  eapply settled_trans; [|apply fold_settled, refund_settled]. settle_one.
Qed.

Lemma remove_enacted_settled acc id : settled acc.2 (remove_enacted acc id).2.
Proof.
  destruct acc as [ratified s]. unfold remove_enacted. cbv zeta. cbn [snd].
  set (s1 := match _ with Some p => _ | None => s end).
  assert (settled s s1) as Hs1 by (unfold s1; case_match; [settle_one|apply settled_refl]).
  eapply settled_trans; [exact Hs1|].
  eapply (settled_trans _ (s1 <| gov ::= λ g, g <| proposals ::= delete id |> |>)); [settle_one|].
  set (s2 := s1 <| gov ::= _ |>).
  eapply (settled_trans _ (match proposals (gov s1) !! id with
                           | Some st => refund_proposal_deposit s2 (id, st) | None => s2 end)).
  - case_match; [apply refund_settled|apply settled_refl].
  - settle_one.
Qed.

Lemma enacted_settled l acc : settled acc.2 (foldl remove_enacted acc l).2.
Proof.
  induction l as [|id l IH] in acc |- *; [apply settled_refl|].
  eapply settled_trans; [apply remove_enacted_settled|apply IH].
Qed.

Lemma promote_settled s e : settled s (promote_enacted s e).
Proof.
  unfold promote_enacted. case_match; [|apply settled_refl]. cbv zeta.
  match goal with |- context [drop_proposals ?ids s] =>
    eapply (settled_trans _ (drop_proposals ids s).2); [apply drop_settled|] end. settle_one.
Qed.

Lemma enactment_settled ratified expired s : settled s (proposals_apply_enactment ratified expired s).
Proof.
  unfold proposals_apply_enactment.
  pose proof (drop_settled expired s) as Hd. destruct (drop_proposals expired s) as [removed s1]. cbn in Hd.
  pose proof (enacted_settled ratified ([], s1)) as Hr. destruct (foldl remove_enacted ([], s1) ratified) as [rs s2].
  cbn in Hr. eapply settled_trans; [exact Hd|]. eapply settled_trans; [exact Hr|].
  eapply (settled_trans _ (foldl promote_enacted s2 rs)); [apply fold_settled, promote_settled|]. settle_one.
Qed.

(** ** The plan and its application *)

(** What the plan of an epoch fixes of the next. *)
Definition terms s : FullParameters * gmap Hash32 EpochNo * option Rational * option Constitution :=
  (protocol_params (epochs s), committee_expiration (gov s), committee_threshold (gov s), constitution (gov s)).

Lemma members_expiration rs l (g : GovernanceState) :
  committee_expiration (foldl add_member (foldl remove_member g rs) l) =
    foldl (λ m x, <[to_typed_hash32 x.1 := x.2]> m)
      (foldl (λ m x, delete (to_typed_hash32 x) m) (committee_expiration g) rs) l ∧
  constitution (foldl add_member (foldl remove_member g rs) l) = constitution g.
Proof.
  assert (∀ g, committee_expiration (foldl add_member g l) =
    foldl (λ m x, <[to_typed_hash32 x.1 := x.2]> m) (committee_expiration g) l ∧
    constitution (foldl add_member g l) = constitution g) as Hadd.
  { induction l as [|x l IH]; intros g'; [done|]. cbn [foldl]. destruct (IH (add_member g' x)) as [-> ->]. done. }
  destruct (Hadd (foldl remove_member g rs)) as [-> ->].
  assert (∀ g, committee_expiration (foldl remove_member g rs) =
    foldl (λ m x, delete (to_typed_hash32 x) m) (committee_expiration g) rs ∧
    constitution (foldl remove_member g rs) = constitution g) as Hrem.
  { induction rs as [|x rs IH]; intros g'; [done|]. cbn [foldl]. destruct (IH (remove_member g' x)) as [-> ->]. done. }
  destruct (Hrem g) as [-> ->]. done.
Qed.

(** Enactment reads no more of the state than the terms to change them. *)
Lemma enact_terms a s s' : terms s = terms s' → terms (enact_gov_action_impl a s) = terms (enact_gov_action_impl a s').
Proof.
  unfold terms. intros [= Hp He Ht Hc]. destruct a; cbn; try (by rewrite ?Hp, ?He, ?Ht, ?Hc).
  - rewrite Hp. destruct (apply_protocol_param_update_impl _ _); cbn; by rewrite ?Hp, ?He, ?Ht, ?Hc.
  - destruct protocol_version as [major minor]. cbn. by rewrite ?Hp, ?He, ?Ht, ?Hc.
  - destruct (foldl withdraw (reward_accounts (certs s), 0) _), (foldl withdraw (reward_accounts (certs s'), 0) _).
    cbn. by rewrite ?Hp, ?He, ?Ht, ?Hc.
  - destruct (members_expiration members_to_remove (map_to_list members_to_add) (gov s)) as [He1 Hc1].
    destruct (members_expiration members_to_remove (map_to_list members_to_add) (gov s')) as [He2 Hc2].
    cbn in He1, Hc1, He2, Hc2. rewrite He1, Hc1, He2, Hc2, Hp, He, Hc. done.
Qed.

Lemma enact_all_terms l s s' : terms s = terms s' → terms (enact_all l s) = terms (enact_all l s').
Proof.
  induction l as [|c l IH] in s, s' |- *; intros Ht; [done|]. apply IH. by apply enact_terms.
Qed.

(** Enactment leaves the proposals and the frozen decision. *)
Lemma enact_frame a s : proposals (gov (enact_gov_action_impl a s)) = proposals (gov s) ∧
  drep_pulsing_state (gov (enact_gov_action_impl a s)) = drep_pulsing_state (gov s).
Proof.
  destruct a; cbn; try done.
  - by case_match.
  - by destruct protocol_version.
  - by destruct (foldl withdraw _ _).
  - assert (∀ g rs l, proposals (foldl add_member (foldl remove_member g rs) l) = proposals g ∧
      drep_pulsing_state (foldl add_member (foldl remove_member g rs) l) = drep_pulsing_state g) as Hm.
    { clear. intros g rs l.
      assert (∀ g, proposals (foldl add_member g l) = proposals g ∧
        drep_pulsing_state (foldl add_member g l) = drep_pulsing_state g) as Ha.
      { induction l as [|x l IH]; intros g'; [done|]. cbn [foldl]. by destruct (IH (add_member g' x)) as [-> ->]. }
      destruct (Ha (foldl remove_member g rs)) as [-> ->]. clear Ha. induction rs as [|x rs IH] in g |- *; [done|].
      cbn [foldl]. by destruct (IH (remove_member g x)) as [-> ->]. }
    apply Hm.
Qed.

(** The frozen proposals are enacted, in the order of the plan. *)
Lemma planned_all sn en acc : (∀ c, c ∈ en → ps_proposals sn !! c.1 = Some c.2) →
  foldl (enact_planned (Some sn)) acc en.*1 = (roots_after en acc.1, enact_all en acc.2).
Proof.
  destruct acc as [r s]. induction en as [|c en IH] in r, s |- *; intros Hen; [done|].
  cbn [fmap list_fmap foldl]. unfold enact_planned at 2. cbn [mbind option_bind].
  rewrite (Hen c (list_elem_of_here _ _)). apply IH. intros; apply Hen. by right.
Qed.

Lemma settled_terms s s' : settled s s' → terms s' = terms s ∧ enacted_roots (gov s') = enacted_roots (gov s).
Proof. by intros (a & t & m & f & v & lr & le & ->). Qed.

Lemma write_roots_get r (g : GovernanceState) : enacted_roots (write_roots r g) = r.
Proof. by destruct r. Qed.

Lemma restore_frame s : pulsing_snapshot (gov (restore_forest s)) = pulsing_snapshot (gov s) ∧
  terms (restore_forest s) = terms s ∧ certs (restore_forest s) = certs s ∧ epochs (restore_forest s) = epochs s ∧
  enacted_roots (gov (restore_forest s)) = enacted_roots (gov s) ∧ proposals (gov (restore_forest s)) = proposals (gov s).
Proof. unfold restore_forest. by case_match. Qed.

(** The decision over a frozen snapshot, in terms of what the pass enacts. *)
Lemma decision_spec epoch s sn : pulsing_snapshot (gov s) = Some sn →
  ∃ en, let plan := (ratify_proposals_impl epoch s).1 in
    ratify_run (ratify_env epoch (restore_forest s)) (ratify_start (restore_forest s)) (candidates (ps_proposals sn)) en
      (ratify_pass epoch (restore_forest s)) ∧
    enacted plan = en.*1 ∧ expired plan = rp_expired (ratify_pass epoch (restore_forest s)) ∧
    delayed plan = rp_delayed (ratify_pass epoch (restore_forest s)) ∧
    eg_prev_gov_action_ids (enact_state plan) = roots_after en (ps_enacted sn) ∧
    (cur_pparams plan, eg_committee_expiration (enact_state plan), eg_committee_threshold (enact_state plan),
     eg_constitution (enact_state plan)) = terms (enact_all en s).
Proof.
  intros Hsn. destruct (restore_frame s) as (Hr1 & Hr2 & _ & _ & _ & _).
  unfold ratify_proposals_impl. set (s0 := restore_forest s) in *. rewrite Hsn in Hr1.
  unfold ratify_pass, ratify_candidates. rewrite Hr1. cbn [from_option].
  destruct (pass_runs (ratify_env epoch s0) (candidates (ps_proposals sn)) (ratify_start s0)) as [en Hen].
  exists en. destruct (run_fields _ _ _ _ _ Hen) as (Hst & Hro & _ & Hra & _).
  set (q := foldl _ _ _) in *. unfold ratify_start in Hst, Hro, Hra. rewrite Hr1 in Hst, Hro, Hra.
  cbn in Hst, Hro, Hra. cbv zeta. cbn [fst].
  match goal with |- context [proposals_apply_enactment ?r ?e ?s] =>
    destruct (settled_terms _ _ (enactment_settled r e s)) as [Hterms Hroots];
    set (s3 := proposals_apply_enactment r e s) in * end.
  split; [done|]. split; [done|]. split; [done|]. split; [done|]. split.
  - etransitivity; [exact Hroots|]. cbn. by rewrite write_roots_get.
  - etransitivity; [exact Hterms|]. change (terms (rp_state q) = terms (enact_all en s)). rewrite Hst.
    by apply enact_all_terms.
Qed.

(** The decision is applied as it was computed. *)
Lemma apply_decision_spec epoch s0 s sn : pulsing_snapshot (gov s0) = Some sn → pulsing_snapshot (gov s) = Some sn →
  terms s = terms s0 →
  let plan := (ratify_proposals_impl epoch s0).1 in let s' := apply_ratify_decision plan s in
  terms s' = (cur_pparams plan, eg_committee_expiration (enact_state plan),
    eg_committee_threshold (enact_state plan), eg_constitution (enact_state plan)) ∧
  enacted_roots (gov s') = eg_prev_gov_action_ids (enact_state plan) ∧
  last_ratify_delayed (gov s') = delayed plan.
Proof.
  intros Hs0 Hs Hterms. destruct (decision_spec epoch s0 sn Hs0) as (en & Hrun & He & _ & _ & Hroots & Ht).
  cbv zeta. rewrite Ht, Hroots. unfold apply_ratify_decision. rewrite Hs, He. cbn [from_option].
  assert (∀ c, c ∈ en → ps_proposals sn !! c.1 = Some c.2) as Hen.
  { intros c Hc. apply candidates_spec. rewrite <- surjective_pairing.
    eapply elem_of_sublist; [exact Hc|]. apply (run_fields _ _ _ _ _ Hrun). }
  rewrite (planned_all sn en _ Hen). cbn [fst snd].
  match goal with |- context [proposals_apply_enactment ?r ?e ?s] =>
    destruct (settled_terms _ _ (enactment_settled r e s)) as [Hterms1 Hroots1];
    set (s3 := proposals_apply_enactment r e s) in * end.
  split; [|split; [|done]].
  - etransitivity; [exact Hterms1|]. change (terms (enact_all en s) = terms (enact_all en s0)). by apply enact_all_terms.
  - etransitivity; [exact Hroots1|]. cbn. by rewrite write_roots_get.
Qed.

(** ** Coin: the treasury, the accounts and the deposits of proposals *)

Lemma ksum_replace `{Countable K} (k : K) (x y : Z) (m : gmap K Z) : m !! k = Some x →
  ksum (λ _ x, x) (<[k := y]> m) = ksum (λ _ x, x) m - x + y.
Proof.
  intros Hk. rewrite (ksum_delete _ (<[k := y]> m) k y) by (by rewrite lookup_insert_eq).
  rewrite delete_insert_eq, (ksum_delete _ m k x Hk). lia.
Qed.

Definition account_sum s : Z := ksum (λ _ x, x) (reward_accounts (certs s)).
Definition funds s : Z := treasury (epochs s) + account_sum s.

Record funds_ok s : Prop := { fo_treasury : 0 ≤ treasury (epochs s); fo_accounts : nonneg_map (reward_accounts (certs s)) }.

Lemma account_sum_nonneg s : funds_ok s → 0 ≤ account_sum s.
Proof. intros [_ Ha]. by apply ksum_nonneg. Qed.

Lemma account_le s k b : funds_ok s → reward_accounts (certs s) !! k = Some b → 0 ≤ b ≤ account_sum s.
Proof. intros [_ Ha] Hk. split; [by eapply Ha|]. by apply (ksum_elem_le (λ _ x, x) _ k b). Qed.

Definition deposit_of (st : ProposalState) : Z := prop_deposit (procedure st).

(** A deposit that can go back: the address has a credential. *)
Definition refundable (st : ProposalState) : Prop := 0 ≤ deposit_of st ∧ (29 ≤ length (return_addr (procedure st)))%nat.

Lemma refund_coin s e : refundable e.2 → funds_ok s → funds s + deposit_of e.2 ≤ u64_max →
  funds (refund_proposal_deposit s e) = funds s + deposit_of e.2 ∧ funds_ok (refund_proposal_deposit s e).
Proof.
  intros [Hd Hl] Hok Hmax. pose proof (account_sum_nonneg s Hok) as Hsum. pose proof (fo_treasury s Hok) as Htr.
  unfold refund_proposal_deposit. fold (deposit_of e.2).
  destruct (Z.eqb_spec (deposit_of e.2) 0) as [Hz|Hz]; [cbn; split; [lia|done]|].
  rewrite (proj2 (Nat.ltb_ge _ _) Hl). cbn [orb]. case_match eqn:Hk.
  - destruct (account_le s _ _ Hok Hk) as [Hb Hb']. unfold funds, account_sum in *. cbn.
    rewrite (ksum_replace _ _ _ _ Hk). unfold saturating_add64. rewrite Z.min_l by lia. split; [lia|].
    constructor; [done|]. cbn. intros k x [[<- <-]|[_ Hx]]%lookup_insert_Some; [lia|by eapply (fo_accounts s Hok)].
  - unfold funds, account_sum in *. cbn. unfold saturating_add64. rewrite Z.min_l by lia. split; [lia|].
    constructor; [cbn; lia|apply (fo_accounts s Hok)].
Qed.

Definition deposits_in (l : list (GovActionId * ProposalState)) : Z := zsum (deposit_of ∘ snd <$> l).

Lemma deposits_in_nonneg l : (∀ e, e ∈ l → refundable e.2) → 0 ≤ deposits_in l.
Proof. intros Hl. apply zsum_nonneg. intros x (e & -> & He)%list_elem_of_fmap. by apply Hl. Qed.

Lemma refunds_coin l s : (∀ e, e ∈ l → refundable e.2) → funds_ok s → funds s + deposits_in l ≤ u64_max →
  funds (foldl refund_proposal_deposit s l) = funds s + deposits_in l ∧ funds_ok (foldl refund_proposal_deposit s l).
Proof.
  induction l as [|e l IH] in s |- *; intros Hl Hok Hmax; [cbn; split; [lia|done]|].
  unfold deposits_in in *. cbn [fmap list_fmap] in *. rewrite zsum_cons in *. cbn [foldl].
  pose proof (deposits_in_nonneg l (λ e He, Hl e (list_elem_of_further _ _ _ He))) as Hn. unfold deposits_in in Hn.
  destruct (refund_coin s e) as [Hf Hok']; [apply Hl; by left|done|cbn in Hmax; lia|].
  destruct (IH (refund_proposal_deposit s e)) as [-> Hok'']; [intros; apply Hl; by right|done|rewrite Hf; cbn in Hmax; lia|].
  rewrite Hf. split; [cbn; lia|done].
Qed.

(** Deposits of the proposals of the state. *)
Definition proposal_pot (m : gmap GovActionId ProposalState) : Z := ksum (λ _ st, deposit_of st) m.

Lemma delete_all_pot ids (m : gmap GovActionId ProposalState) : NoDup ids →
  proposal_pot m = proposal_pot (delete_ids ids m) + deposits_in (omap (λ id, pair id <$> m !! id) ids).
Proof.
  induction ids as [|id ids IH] in m |- *; intros Hnd; [cbn; lia|].
  apply NoDup_cons in Hnd as [Hid Hnd]. unfold delete_ids. cbn [foldl]. fold (delete_ids ids (delete id m)).
  specialize (IH (delete id m) Hnd).
  assert (omap (λ i, pair i <$> delete id m !! i) ids = omap (λ i, pair i <$> m !! i) ids) as Ho.
  { clear IH Hnd. induction ids as [|i ids IHi]; [done|]. cbn. rewrite lookup_delete_ne by set_solver.
    rewrite IHi by set_solver. done. }
  rewrite Ho in IH. cbn [omap list_omap]. destruct (m !! id) as [st|] eqn:Hm; cbn [fmap option_fmap option_map].
  - unfold deposits_in in *. cbn [fmap list_fmap]. rewrite zsum_cons. unfold proposal_pot in *.
    rewrite (ksum_delete _ m id st Hm). rewrite IH. cbn. lia.
  - rewrite delete_id in IH by done. rewrite (delete_id m id Hm). done.
Qed.

Lemma delete_all_lookup ids (m : gmap GovActionId ProposalState) id st :
  delete_ids ids m !! id = Some st → m !! id = Some st.
Proof.
  unfold delete_ids. induction ids as [|i ids IH] in m |- *; [done|]. cbn [foldl].
  intros Hm%IH. by apply lookup_delete_Some in Hm as [_ Hm].
Qed.

Definition gov_coin s : Z := funds s + proposal_pot (proposals (gov s)).

Record coin_ok s : Prop := {
  ck_funds : funds_ok s;
  ck_proposals : ∀ id st, proposals (gov s) !! id = Some st → refundable st;
  ck_max : gov_coin s ≤ u64_max;
}.

Lemma coin_pot_nonneg s : coin_ok s → 0 ≤ proposal_pot (proposals (gov s)).
Proof. intros Hok. apply ksum_nonneg. intros id st Hst. by apply (ck_proposals s Hok id st). Qed.

Definition coin_kept s s' : Prop := coin_ok s → coin_ok s' ∧ gov_coin s' = gov_coin s.

Lemma coin_kept_trans s1 s2 s3 : coin_kept s1 s2 → coin_kept s2 s3 → coin_kept s1 s3.
Proof. intros H1 H2 Hok. destruct (H1 Hok) as [Hok2 <-]. by apply H2. Qed.

Lemma sorted_ids_NoDup (x : gset GovActionId) : NoDup (sorted_ids x).
Proof. unfold sorted_ids. rewrite merge_sort_Permutation. apply NoDup_elements. Qed.

(** Nothing but the proposals matters for the refunds. *)
Lemma refund_frame l s : proposals (gov (foldl refund_proposal_deposit s l)) = proposals (gov s).
Proof.
  induction l as [|e l IH] in s |- *; [done|]. cbn [foldl]. rewrite IH. unfold refund_proposal_deposit.
  repeat case_match; done.
Qed.

Lemma drop_coin ids s : coin_kept s (drop_proposals ids s).2.
Proof.
  intros Hok. unfold drop_proposals, forest_remove_with_descendants. cbv zeta.
  set (all := sorted_ids _). set (removed := omap _ all). cbn [snd].
  set (s1 := s <| gov ::= _ |>). pose proof (delete_all_pot all (proposals (gov s)) (sorted_ids_NoDup _)) as Hpot.
  fold removed in Hpot. pose proof (ck_max s Hok) as Hmax. unfold gov_coin in Hmax.
  assert (∀ e, e ∈ removed → refundable e.2) as Hr.
  { intros e (id & Hid & He)%list_elem_of_omap. apply fmap_Some in He as (st & E & ->). by apply (ck_proposals s Hok id). }
  match type of Hpot with _ = ?pot + _ => assert (0 ≤ pot) as Hn end.
  { apply ksum_nonneg. intros id st Hst%delete_all_lookup. by apply (ck_proposals s Hok id st). }
  assert (funds_ok s1) as Hf1 by (destruct (ck_funds s Hok); by constructor).
  destruct (refunds_coin removed s1 Hr Hf1) as [Hf Hfo]; [change (funds s1) with (funds s); lia|].
  change (funds s1) with (funds s) in Hf. unfold gov_coin. rewrite Hf, refund_frame. cbn.
  split; [|lia]. constructor; [done|..].
  - intros id st. rewrite refund_frame. cbn. intros Hst%delete_all_lookup. by apply (ck_proposals s Hok id st).
  - unfold gov_coin. rewrite Hf, refund_frame. cbn. lia.
Qed.

Lemma coin_frame s s' : reward_accounts (certs s') = reward_accounts (certs s) →
  treasury (epochs s') = treasury (epochs s) → proposals (gov s') = proposals (gov s) → coin_kept s s'.
Proof.
  intros Ha Ht Hp [[Htr Hac] Hpr Hmax]. unfold gov_coin, funds, account_sum in *.
  split; [constructor; [constructor|..]|]; unfold gov_coin, funds, account_sum; rewrite ?Ha, ?Ht, ?Hp; done.
Qed.

(** One proposal leaves, and its deposit goes back. *)
Lemma refund_one_coin id st s : proposals (gov s) !! id = Some st →
  coin_kept s (refund_proposal_deposit (s <| gov ::= λ g, g <| proposals ::= delete id |> |>) (id, st)).
Proof.
  intros Hst Hok. set (s1 := s <| gov ::= _ |>). pose proof (ck_max s Hok) as Hmax. unfold gov_coin in Hmax.
  assert (proposal_pot (proposals (gov s)) = deposit_of st + proposal_pot (proposals (gov s1))) as Hpot
    by (by apply (ksum_delete (λ _ st, deposit_of st))).
  assert (∀ i x, proposals (gov s1) !! i = Some x → proposals (gov s) !! i = Some x) as Hleft
    by (intros i x Hx; exact (proj2 (proj1 (lookup_delete_Some _ _ _ _) Hx))).
  assert (0 ≤ proposal_pot (proposals (gov s1))) as Hn.
  { apply ksum_nonneg. intros i x Hx. by apply (ck_proposals s Hok i x), Hleft. }
  assert (funds_ok s1) as Hf1 by (destruct (ck_funds s Hok); by constructor).
  destruct (refund_coin s1 (id, st)) as [Hf Hfo];
    [by apply (ck_proposals s Hok id st)|done|change (funds s1) with (funds s); cbn [snd]; lia|].
  change (funds s1) with (funds s) in Hf. cbn [snd] in Hf.
  assert (proposals (gov (refund_proposal_deposit s1 (id, st))) = proposals (gov s1)) as Hp
    by apply (refund_frame [(id, st)] s1).
  unfold gov_coin. split; [|rewrite Hf, Hp; lia]. constructor; [done|..].
  - intros i x. rewrite Hp. intros Hx. by apply (ck_proposals s Hok i x), Hleft.
  - unfold gov_coin. rewrite Hf, Hp. lia.
Qed.

Lemma remove_enacted_coin acc id : coin_kept acc.2 (remove_enacted acc id).2.
Proof.
  destruct acc as [ratified s]. unfold remove_enacted. cbv zeta. cbn [snd].
  set (s1 := match _ with Some p => _ | None => s end).
  apply (coin_kept_trans _ s1); [apply coin_frame; unfold s1; by case_match|].
  set (s2 := s1 <| gov ::= _ |>).
  apply (coin_kept_trans _ (match proposals (gov s1) !! id with
                            | Some st => refund_proposal_deposit s2 (id, st) | None => s2 end)); [|by apply coin_frame].
  destruct (proposals (gov s1) !! id) as [st|] eqn:E.
  - by apply (refund_one_coin id st s1).
  - apply coin_frame; [done..|]. by apply (delete_id (proposals (gov s1))).
Qed.

Lemma enacted_coin l acc : coin_kept acc.2 (foldl remove_enacted acc l).2.
Proof.
  induction l as [|id l IH] in acc |- *; [done|].
  apply (coin_kept_trans _ (remove_enacted acc id).2); [apply remove_enacted_coin|apply IH].
Qed.

Lemma promote_coin l s : coin_kept s (foldl promote_enacted s l).
Proof.
  induction l as [|e l IH] in s |- *; [done|]. apply (coin_kept_trans _ (promote_enacted s e)); [|apply IH].
  unfold promote_enacted. case_match; [|done]. cbv zeta.
  match goal with |- context [drop_proposals ?ids s] => apply (coin_kept_trans _ (drop_proposals ids s).2) end;
    [apply drop_coin|by apply coin_frame].
Qed.

Lemma enactment_coin ratified expired s : coin_kept s (proposals_apply_enactment ratified expired s).
Proof.
  unfold proposals_apply_enactment. pose proof (drop_coin expired s) as Hd.
  destruct (drop_proposals expired s) as [removed s1]. pose proof (enacted_coin ratified ([], s1)) as Hr.
  destruct (foldl remove_enacted ([], s1) ratified) as [rs s2]. cbn [snd] in Hd, Hr.
  apply (coin_kept_trans _ s1); [exact Hd|]. apply (coin_kept_trans _ s2); [exact Hr|].
  apply (coin_kept_trans _ (foldl promote_enacted s2 rs)); [apply promote_coin|by apply coin_frame].
Qed.

(** ** Coin: withdrawals *)

Lemma withdraw_sum l accounts d accounts' d' :
  foldl withdraw (accounts, d) l = (accounts', d') → (∀ w, w ∈ l → 0 ≤ w.2) → nonneg_map accounts → 0 ≤ d →
  ksum (λ _ x, x) accounts + zsum l.*2 ≤ u64_max → d + zsum l.*2 ≤ u64_max →
  nonneg_map accounts' ∧ d ≤ d' ≤ d + zsum l.*2 ∧ ksum (λ _ x, x) accounts' = ksum (λ _ x, x) accounts + (d' - d).
Proof.
  induction l as [|[addr x] l IH] in accounts, d |- *; cbn [foldl]; intros Hf Hl Hn Hd Hmax Hmaxd.
  { injection Hf as <- <-. cbn. split; [done|lia]. }
  assert (0 ≤ x) as Hx by apply (Hl (addr, x) (list_elem_of_here _ _)).
  assert (0 ≤ zsum l.*2) as Hz.
  { apply zsum_nonneg. intros y (w & -> & Hw)%list_elem_of_fmap. apply Hl. by right. }
  cbn [fmap list_fmap] in *. rewrite zsum_cons in *. cbn [snd] in *.
  pose proof (ksum_nonneg (λ _ x, x) accounts Hn) as Hs.
  assert (∀ w, w ∈ l → 0 ≤ w.2) as Hl' by (intros; apply Hl; by right).
  unfold withdraw in Hf at 2. destruct ((x =? 0) || _).
  { destruct (IH _ _ Hf Hl' Hn Hd) as (? & ? & ?); [lia|lia|]. split; [done|lia]. }
  destruct (accounts !! _) as [b|] eqn:Hk.
  2:{ destruct (IH _ _ Hf Hl' Hn Hd) as (? & ? & ?); [lia|lia|]. split; [done|lia]. }
  pose proof (Hn _ _ Hk). pose proof (ksum_elem_le (λ _ x, x) accounts _ b Hn Hk) as Hbs. cbn in Hbs.
  assert (saturating_add64 b x = b + x) as E1 by (unfold saturating_add64; lia).
  assert (saturating_add64 d x = d + x) as E2 by (unfold saturating_add64; lia).
  rewrite E1, E2 in Hf. destruct (IH _ _ Hf Hl') as (? & ? & Hsum).
  - intros k y [[<- <-]|[_ Hy]]%lookup_insert_Some; [lia|by eapply Hn].
  - lia.
  - rewrite (ksum_replace _ _ _ _ Hk). lia.
  - lia.
  - rewrite (ksum_replace _ _ _ _ Hk) in Hsum. split; [done|lia].
Qed.

(** An action gives out no more than it declares. *)
Lemma enact_coin a s : amounts_ok a → declared a ≤ treasury (epochs s) → coin_ok s →
  coin_ok (enact_gov_action_impl a s) ∧ gov_coin (enact_gov_action_impl a s) = gov_coin s ∧
  treasury (epochs s) - declared a ≤ treasury (epochs (enact_gov_action_impl a s)).
Proof.
  intros Ha Hdec Hok. destruct (enact_frame a s) as [Hp _].
  destruct a as [prev u ph|prev [major minor]|w ph|prev|prev rm add th|prev con|].
  1-2, 4-7: match goal with |- coin_ok ?s' ∧ _ =>
    assert (reward_accounts (certs s') = reward_accounts (certs s) ∧ treasury (epochs s') = treasury (epochs s)) as [E1 E2]
      by (cbn; by repeat case_match);
    destruct (coin_frame s s' E1 E2 Hp Hok) as [? ?]; rewrite E2; cbn [declared] in *; split_and!; [done|done|lia] end.
  clear Hp. cbn [enact_gov_action_impl declared] in *. cbn in Ha.
  destruct (foldl withdraw (reward_accounts (certs s), 0) (map_to_list w)) as [accounts d] eqn:E.
  pose proof (ck_funds s Hok) as [Htr Hac]. pose proof (ck_max s Hok) as Hmax. pose proof (coin_pot_nonneg s Hok) as Hpot.
  pose proof (ksum_nonneg (λ _ x, x) _ Hac) as Hsum. unfold gov_coin, funds, account_sum in Hmax.
  rewrite <- zsum_values in Hdec. unfold map_values in Hdec.
  destruct (withdraw_sum _ _ _ _ _ E) as (Hn & Hd & Hs); [|done|done|lia|lia|].
  { intros [k x] Hk%elem_of_map_to_list. by eapply Ha. }
  assert (saturating_sub64 (treasury (epochs s)) d = treasury (epochs s) - d) as Ed by (unfold saturating_sub64; lia).
  rewrite <- zsum_values. unfold map_values. unfold gov_coin, funds, account_sum. cbn. rewrite Ed, Hs.
  split_and!; [|lia|lia]. constructor; [constructor; [cbn; rewrite Ed; lia|done]|apply (ck_proposals s Hok)|].
  unfold gov_coin, funds, account_sum. cbn. rewrite Ed, Hs. lia.
Qed.

Lemma enact_all_coin l s : (∀ c, c ∈ l → amounts_ok (action_of c)) → declared_all l ≤ treasury (epochs s) →
  coin_kept s (enact_all l s).
Proof.
  unfold declared_all. induction l as [|c l IH] in s |- *; intros Ha Hd Hok; [done|].
  cbn [fmap list_fmap] in Hd. rewrite zsum_cons in Hd. cbn [compose] in Hd.
  pose proof (Ha c (list_elem_of_here _ _)) as Hc.
  assert (0 ≤ zsum (declared ∘ action_of <$> l)) as Hn.
  { apply zsum_nonneg. intros x (y & -> & Hy)%list_elem_of_fmap. apply declared_nonneg, Ha. by right. }
  destruct (enact_coin (action_of c) s Hc) as (Hok1 & Hcoin & Htr); [lia|done|].
  destruct (IH (enact_gov_action_impl (action_of c) s)) as [Hok2 Hcoin2]; [intros; apply Ha; by right|lia|done|].
  split; [done|]. etransitivity; [exact Hcoin2|done].
Qed.

(** The actions that a plan names, as they were frozen. *)
Definition planned (frozen : option PulsingSnapshot) s (ids : list GovActionId) : list Candidate :=
  omap (λ id, pair id <$> match frozen ≫= λ sn, ps_proposals sn !! id with
                          | Some st => Some st
                          | None => proposals (gov s) !! id
                          end) ids.

Lemma planned_fold frozen ids r s :
  foldl (enact_planned frozen) (r, s) ids = (roots_after (planned frozen s ids) r, enact_all (planned frozen s ids) s).
Proof.
  induction ids as [|id ids IH] in r, s |- *; [done|]. cbn [foldl]. unfold planned. cbn [omap list_omap].
  fold (planned frozen s ids). unfold enact_planned at 2.
  assert (∀ a, planned frozen (enact_gov_action_impl a s) ids = planned frozen s ids) as Hpl.
  { intros a. unfold planned. destruct (enact_frame a s) as [-> _]. done. }
  destruct (frozen ≫= _) as [st|] eqn:E; cbn [fmap option_fmap option_map].
  - rewrite IH, Hpl. done.
  - destruct (proposals (gov s) !! id) as [st|]; cbn [fmap option_fmap option_map].
    + rewrite IH, Hpl. done.
    + apply IH.
Qed.

Lemma decision_coin plan s :
  let l := planned (pulsing_snapshot (gov s)) s (enacted plan) in
  (∀ c, c ∈ l → amounts_ok (action_of c)) → declared_all l ≤ treasury (epochs s) →
  coin_kept s (apply_ratify_decision plan s).
Proof.
  intros l Ha Hd. unfold apply_ratify_decision. rewrite planned_fold. fold l.
  set (s1 := enact_all l s <| gov ::= _ |>).
  apply (coin_kept_trans _ s1).
  { apply (coin_kept_trans _ (enact_all l s)); [by apply enact_all_coin|by apply coin_frame]. }
  apply (coin_kept_trans _ (proposals_apply_enactment (enacted plan) (expired plan) s1)); [apply enactment_coin|].
  by apply coin_frame.
Qed.

End ratify.
