(* ===== verification/GovTheorems.v ===== *)
(** * Theorems about governance

    The index of DRep delegations, the forest along a run, the decision and its
    application, and the coin of an epoch transition; then a small ledger on
    which the theorems are evaluated, and the places where the code does not do
    what its comments say. *)

From S2P Require Import Prelude Order RecordUpdate EraHistory Block ConsensusError Cbor CborSkip BlockCbor Ledger LedgerDelta UtxoApply RewardRat RewardPulser Rewards RewardEpoch RewardBounds RewardDistribution RewardUpdate RewardTheorems GovTypes GovForest Governance GovCerts GovBoundary GovRatify.
Local Open Scope Z_scope.
Local Open Scope record_scope.

Section delegations.
Context `{GovRest}.
Implicit Types (s : LedgerState) (g : GovernanceState).

(** ** The two directions of vote delegation *)

(** The credential delegates to the DRep; the DRep lists the credential. *)
Definition delegates_to g (cred key : Hash32) : Prop :=
  ∃ drep, vote_delegations g !! cred = Some drep ∧ credential_hash32 drep = Some key.

Definition lists_delegator g (key cred : Hash32) : Prop := ∃ d, dreps g !! key = Some d ∧ cred ∈ dr_delegs d.

(** Both say the same; so nobody delegates to a DRep that is not registered. *)
Definition index_ok g : Prop := ∀ key cred, lists_delegator g key cred ↔ delegates_to g cred key.

Lemma delegates_unique g cred k k' : delegates_to g cred k → delegates_to g cred k' → k = k'.
Proof. intros (d & Hd & Hk) (d' & Hd' & Hk'). congruence. Qed.

(** Only the lists matter of the DReps. *)
Definition same_lists (m m' : gmap Hash32 DRepRegistration) : Prop := ∀ k, dr_delegs <$> m !! k = dr_delegs <$> m' !! k.

Lemma lists_same g g' : same_lists (dreps g) (dreps g') → ∀ k c, lists_delegator g' k c ↔ lists_delegator g k c.
Proof.
  intros Hs k c. specialize (Hs k). unfold lists_delegator.
  destruct (dreps g !! k) as [d|], (dreps g' !! k) as [d'|]; cbn in Hs; try done.
  injection Hs as Hs. split; intros (d0 & [= <-] & Hc); eexists; (split; [done|]); congruence.
Qed.

Lemma index_frame g g' : same_lists (dreps g) (dreps g') → vote_delegations g' = vote_delegations g →
  index_ok g → index_ok g'.
Proof.
  intros Hs Hv Hok k c. rewrite (lists_same g g' Hs k c). unfold delegates_to. rewrite Hv. apply Hok.
Qed.

Lemma current_drep_spec cred g : index_ok g →
  (∃ key d, current_drep cred g = Some (key, d) ∧ dreps g !! key = Some d ∧ cred ∈ dr_delegs d ∧ delegates_to g cred key) ∨
  current_drep cred g = None ∧ ∀ k, ¬ lists_delegator g k cred.
Proof.
  intros Hok. unfold current_drep.
  assert (∀ k, lists_delegator g k cred → ∃ drep, vote_delegations g !! cred = Some drep ∧ credential_hash32 drep = Some k)
    as Hl by (intros k; apply Hok).
  destruct (vote_delegations g !! cred) as [drep|] eqn:Hv; cbn [mbind option_bind].
  2:{ right. split; [done|]. by intros k (? & ? & _)%Hl. }
  destruct (credential_hash32 drep) as [key|] eqn:Hk; cbn [mbind option_bind].
  2:{ right. split; [done|]. intros k (? & [= <-] & ?)%Hl. congruence. }
  left. assert (delegates_to g cred key) as Hd by (by exists drep). apply Hok in Hd as Hd'.
  destruct Hd' as (d & Hd' & Hc). exists key, d. rewrite Hd'. done.
Qed.

(** The credential is in no list afterwards; nothing else changes. *)
Lemma undelegate_lists cred g : index_ok g →
  vote_delegations (undelegate_vote cred g).2 = vote_delegations g ∧
  (∀ k, is_Some (dreps (undelegate_vote cred g).2 !! k) ↔ is_Some (dreps g !! k)) ∧
  ∀ k c, lists_delegator (undelegate_vote cred g).2 k c ↔ lists_delegator g k c ∧ c ≠ cred.
Proof.
  intros Hok. unfold undelegate_vote.
  destruct (current_drep_spec cred g Hok) as [(key & d & -> & Hd & Hc & Hto)|[-> Hno]]; cbn [snd].
  2:{ split_and!; [done|done|]. intros k c. split; [|naive_solver]. intros Hl. split; [done|]. intros ->. by eapply Hno. }
  split_and!; [done| |].
  { intros k. cbn. rewrite lookup_insert_is_Some'. destruct (decide (key = k)) as [<-|]; naive_solver. }
  intros k c. unfold lists_delegator. cbn. destruct (decide (k = key)) as [->|Hne].
  - rewrite lookup_insert_eq. split.
    + intros (d' & [= <-] & Hin). cbn in Hin. apply elem_of_difference in Hin as [Hin Hc'].
      split; [by exists d|set_solver].
    + intros [(d' & Hd' & Hin) Hcc]. eexists. split; [done|]. cbn. simplify_eq. set_solver.
  - rewrite lookup_insert_ne by done. split; [|naive_solver]. intros Hl. split; [done|]. intros ->.
    apply Hne, (delegates_unique g cred); [by apply Hok|done].
Qed.

Lemma drop_vote_index cred g : index_ok g → index_ok (drop_vote cred g).
Proof.
  intros Hok. destruct (undelegate_lists cred g Hok) as (Hv & _ & Hl). intros k c. unfold drop_vote.
  change (lists_delegator (undelegate_vote cred g).2 k c ↔ delegates_to ((undelegate_vote cred g).2 <| vote_delegations ::= delete cred |>) c k).
  rewrite Hl, (Hok k c). unfold delegates_to. cbn. rewrite Hv. split.
  - intros [(drep & Hd & Hk) Hne]. exists drep. by rewrite lookup_delete_ne.
  - intros (drep & Hd & Hk). apply lookup_delete_Some in Hd as [Hne Hd]. split; [by exists drep|done].
Qed.

(** The target of a delegation is registered, or no credential. *)
Definition target_ok (drep : DRep) g : Prop := ∀ k, credential_hash32 drep = Some k → is_Some (dreps g !! k).

Lemma delegate_index cred drep g : index_ok g → target_ok drep g → index_ok (delegate_vote false cred drep g).
Proof.
  intros Hok Htarget. destruct (undelegate_lists cred g Hok) as (Hv & Hdom & Hl). unfold delegate_vote.
  destruct (undelegate_vote cred g) as [previous g1]. cbn [snd] in *.
  assert (∀ g2 k c, vote_delegations g2 = <[cred := drep]> (vote_delegations g1) →
    delegates_to g2 c k ↔ (c ≠ cred ∧ delegates_to g c k) ∨ (c = cred ∧ credential_hash32 drep = Some k)) as Hfwd.
  { intros g2 k c Hg2. unfold delegates_to. rewrite Hg2, Hv. destruct (decide (c = cred)) as [->|Hne].
    - rewrite lookup_insert_eq. naive_solver.
    - rewrite lookup_insert_ne by done. naive_solver. }
  destruct (credential_hash32 drep) as [target|] eqn:Et.
  2:{ intros k c. rewrite Hfwd by done. change (lists_delegator g1 k c ↔ (c ≠ cred ∧ delegates_to g c k) ∨ (c = cred ∧ None = Some k)).
      rewrite Hl, (Hok k c). naive_solver. }
  assert (is_Some (dreps g1 !! target)) as [d Hd] by (apply Hdom; by apply Htarget).
  set (g2 := g1 <| vote_delegations ::= _ |>). change (dreps g2) with (dreps g1). rewrite Hd.
  set (g3 := g2 <| dreps ::= _ |>).
  assert (index_ok g3) as Hg3.
  { intros k c. rewrite Hfwd by done. unfold lists_delegator. cbn. destruct (decide (k = target)) as [->|Hne].
    - rewrite lookup_insert_eq. split.
      + intros (d' & [= <-] & Hin). cbn in Hin. apply elem_of_union in Hin as [->%elem_of_singleton|Hin]; [by right|].
        assert (lists_delegator g1 target c) as Hlc by (by exists d). apply Hl in Hlc as [Hlc Hne].
        left. split; [done|]. by apply Hok.
      + intros [[Hne Hto]|[-> _]]; eexists; (split; [done|]); cbn; [|set_solver].
        apply Hok in Hto. assert (lists_delegator g1 target c) as (d' & Hd' & Hin) by (by apply Hl).
        simplify_eq. set_solver.
    - rewrite lookup_insert_ne by done. change (lists_delegator g1 k c ↔ (c ≠ cred ∧ delegates_to g c k) ∨ (c = cred ∧ Some target = Some k)).
      rewrite Hl, (Hok k c). naive_solver. }
  destruct previous; [|done]. cbn [andb]. done.
Qed.

Lemma delete_creds_lookup (l : list Hash32) (m : gmap Hash32 DRep) c :
  foldl (λ m cred, delete cred m) m l !! c = if bool_decide (c ∈ l) then None else m !! c.
Proof.
  induction l as [|x l IH] in m |- *; [done|]. cbn [foldl]. rewrite IH.
  case_bool_decide as Hx; [by rewrite bool_decide_true by (by right)|]. destruct (decide (c = x)) as [->|Hne].
  - by rewrite lookup_delete_eq, bool_decide_true by (by left).
  - rewrite lookup_delete_ne, bool_decide_false; [done| |done]. by intros [?|?]%elem_of_cons.
Qed.

Lemma unregister_index key g : index_ok g → index_ok (unregister_drep key g).
Proof.
  intros Hok. unfold unregister_drep. destruct (dreps g !! key) as [d|] eqn:Hd; [|done].
  intros k c. unfold lists_delegator, delegates_to. cbn. rewrite delete_creds_lookup. split.
  - intros (d' & Hd' & Hc). apply lookup_delete_Some in Hd' as [Hne Hd'].
    assert (delegates_to g c k) as Hto by (apply Hok; by exists d'). rewrite bool_decide_false; [done|].
    intros Hin%elem_of_elements. apply Hne, (delegates_unique g c); [|done]. apply Hok. by exists d.
  - intros (drep & Hv & Hk). case_bool_decide as Hin; [done|].
    assert (delegates_to g c k) as (d' & Hd' & Hc)%Hok by (by exists drep). exists d'. split; [|done].
    rewrite lookup_delete_ne; [done|]. intros <-. simplify_eq. by apply Hin, elem_of_elements.
Qed.

Lemma register_index key d g n : index_ok g → dreps g !! key = None → dr_delegs d = ∅ →
  index_ok (g <| dreps ::= insert key d |> <| drep_registration_count := n |>).
Proof.
  intros Hok Hnew Hempty k c. unfold lists_delegator. cbn.
  change (delegates_to (g <| dreps ::= insert key d |> <| drep_registration_count := n |>) c k) with (delegates_to g c k).
  rewrite <- (Hok k c). unfold lists_delegator. destruct (decide (k = key)) as [->|Hne].
  - rewrite lookup_insert_eq, Hnew. split; [|naive_solver]. intros (d' & [= <-] & Hin). rewrite Hempty in Hin. set_solver.
  - by rewrite lookup_insert_ne.
Qed.

(** *** The reconciliation *)

Lemma reindex_spec (l : list (Hash32 * DRep)) (ds : gmap Hash32 DRepRegistration) (dangling : list Hash32) : NoDup l.*1 →
  let r := foldl reindex_vote (ds, dangling) l in
  (∀ k, is_Some (r.1 !! k) ↔ is_Some (ds !! k)) ∧
  (∀ k c d', r.1 !! k = Some d' → c ∈ dr_delegs d' ↔
     (∃ d, ds !! k = Some d ∧ c ∈ dr_delegs d) ∨ ∃ drep, (c, drep) ∈ l ∧ credential_hash32 drep = Some k) ∧
  (∀ c, c ∈ r.2 ↔ c ∈ dangling ∨ ∃ drep k, (c, drep) ∈ l ∧ credential_hash32 drep = Some k ∧ ds !! k = None).
Proof.
  induction l as [|[cred drep] l IH] in ds, dangling |- *; intros Hnd.
  { cbn. split; [done|]. split; [|set_solver]. intros k c d' Hd'. rewrite Hd'. set_solver. }
  apply NoDup_cons in Hnd as [_ Hnd]. cbn [foldl].
  assert (reindex_vote (ds, dangling) (cred, drep) = match credential_hash32 drep with
    | None => (ds, dangling)
    | Some t => match ds !! t with
                | Some d => (<[t := add_deleg cred d]> ds, dangling)
                | None => (ds, dangling ++ [cred])
                end end) as -> by done.
  assert (∀ c k, (∃ drep0, (c, drep0) ∈ (cred, drep) :: l ∧ credential_hash32 drep0 = Some k) ↔
    (c = cred ∧ credential_hash32 drep = Some k) ∨ ∃ drep0, (c, drep0) ∈ l ∧ credential_hash32 drep0 = Some k) as Hcons.
  { intros c k. setoid_rewrite elem_of_cons. split.
    - intros (d0 & [[= -> ->]|Hin] & Hk); [by left|right; by exists d0].
    - intros [[-> Hk]|(d0 & Hin & Hk)]; [exists drep|exists d0]; (split; [|done]); [by left|by right]. }
  assert (∀ c, (∃ drep0 k, (c, drep0) ∈ (cred, drep) :: l ∧ credential_hash32 drep0 = Some k ∧ ds !! k = None) ↔
    (c = cred ∧ ∃ k, credential_hash32 drep = Some k ∧ ds !! k = None) ∨
    ∃ drep0 k, (c, drep0) ∈ l ∧ credential_hash32 drep0 = Some k ∧ ds !! k = None) as Hcons'.
  { intros c. setoid_rewrite elem_of_cons. split.
    - intros (d0 & k & [[= -> ->]|Hin] & Hk); [left; split; [done|by exists k]|right; by exists d0, k].
    - intros [(-> & k & Hk)|(d0 & k & Hin & Hk)]; [exists drep, k|exists d0, k]; (split; [|done]); [by left|by right]. }
  destruct (credential_hash32 drep) as [t|] eqn:Et.
  2:{ destruct (IH ds dangling Hnd) as (H1 & H2 & H3). split_and!; [done| |].
      - intros k c d' Hd'. rewrite (H2 k c d' Hd'), Hcons. naive_solver.
      - intros c. rewrite H3, Hcons'. naive_solver. }
  destruct (ds !! t) as [d|] eqn:Ed.
  - destruct (IH (<[t := add_deleg cred d]> ds) dangling Hnd) as (H1 & H2 & H3). split_and!.
    + intros k. rewrite H1, lookup_insert_is_Some'. destruct (decide (t = k)) as [<-|]; naive_solver.
    + intros k c d' Hd'. rewrite (H2 k c d' Hd'), Hcons. destruct (decide (k = t)) as [->|Hne].
      * rewrite lookup_insert_eq, Ed.
        assert (∀ c, c ∈ dr_delegs (add_deleg cred d) ↔ c = cred ∨ c ∈ dr_delegs d) as Ha.
        { intros c'. cbn. by rewrite elem_of_union, elem_of_singleton. }
        split; [intros [(d0 & [= <-] & [->|Hc]%Ha)|Hl]; [right; by left|left; by exists d|right; by right]|].
        intros [(d0 & [= <-] & Hc)|[[-> _]|Hl]]; [left; eexists; split; [done|apply Ha; by right]
          |left; eexists; split; [done|apply Ha; by left]|by right].
      * rewrite lookup_insert_ne by done. naive_solver.
    + intros c. rewrite H3, Hcons'. setoid_rewrite lookup_insert_None.
      split; [intros [Hc|(d0 & k & Hin & Hk & Hn & _)]; [by left|right; right; by exists d0, k]|].
      intros [Hc|[(_ & k & [= <-] & Hn)|(d0 & k & Hin & Hk & Hn)]]; [by left|congruence|].
      right. exists d0, k. split_and!; try done. intros <-. congruence.
  - destruct (IH ds (dangling ++ [cred]) Hnd) as (H1 & H2 & H3). split_and!; [done| |].
    + intros k c d' Hd'. rewrite (H2 k c d' Hd'), Hcons.
      assert (k ≠ t). { intros ->. destruct (H1 t) as [Ht _]. rewrite Hd', Ed in Ht. destruct (Ht (ex_intro _ _ eq_refl)). done. }
      naive_solver.
    + intros c. rewrite H3, Hcons', elem_of_app, list_elem_of_singleton.
      split; [intros [[Hc| ->]|Hl]; [by left|right; left; split; [done|by exists t]|right; by right]|].
      intros [Hc|[[-> _]|Hl]]; [left; by left|left; by right|by right].
Qed.

(** Whatever the state, both directions agree afterwards. *)
Lemma update_drep_delegations_index g : index_ok (update_drep_delegations g).
Proof.
  unfold update_drep_delegations.
  destruct (reindex_spec (map_to_list (vote_delegations g)) (clear_delegs <$> dreps g) []) as (H1 & H2 & H3);
    [apply NoDup_fst_map_to_list|].
  destruct (foldl reindex_vote _ _) as [ds dangling]. cbn [fst snd] in *.
  intros k c. unfold lists_delegator, delegates_to. cbn. rewrite delete_creds_lookup. split.
  - intros (d' & Hd' & Hc). apply (H2 k c d' Hd') in Hc as [(d & Hd & Hin)|(drep & Hin & Hk)].
    { rewrite lookup_fmap in Hd. destruct (dreps g !! k); [|done]. injection Hd as <-. by apply elem_of_empty in Hin. }
    apply elem_of_map_to_list in Hin. exists drep. rewrite bool_decide_false; [done|].
    intros [Hn|(drep' & k' & Hin' & Hk' & Hnone)]%H3; [by apply not_elem_of_nil in Hn|].
    apply elem_of_map_to_list in Hin'. simplify_eq. destruct (H1 k) as [Ht _]. rewrite Hd', Hnone in Ht.
    by destruct (Ht (ex_intro _ _ eq_refl)).
  - intros (drep & Hv & Hk). case_bool_decide as Hdang; [done|].
    destruct ((clear_delegs <$> dreps g) !! k) as [d|] eqn:Hd.
    + destruct (H1 k) as [_ Ht]. rewrite Hd in Ht. destruct (Ht (ex_intro _ _ eq_refl)) as [d' Hd'].
      exists d'. split; [done|]. apply (H2 k c d' Hd'). right. exists drep. split; [by apply elem_of_map_to_list|done].
    + exfalso. apply Hdang, H3. right. exists drep, k. split_and!; [by apply elem_of_map_to_list|done|done].
Qed.

(** *** Transactions *)

(** What the validation of a certificate has checked. *)
Definition cert_checked (cert : Certificate) g : Prop :=
  match cert with
  | RegDRep credential _ _ => dreps g !! to_typed_hash32 credential = None
  | VoteDelegation _ drep | StakeVoteDelegation _ _ drep | RegStakeVoteDeleg _ _ drep _ | VoteRegDeleg _ drep _ =>
      target_ok drep g
  | _ => True
  end.

Definition apply_cert (ctx : RuleContext) (cert_index : Z) (cert : Certificate) s : LedgerState :=
  apply_conway_cert cert (rc_current_epoch ctx)
    (apply_shelley_cert cert cert_index (rc_current_slot ctx) (rc_tx_index ctx) s).

(** Each certificate as it finds the state. *)
Fixpoint certs_checked (ctx : RuleContext) (cert_index : Z) (l : list Certificate) s : Prop :=
  match l with
  | [] => True
  | cert :: l => cert_checked cert (gov s) ∧ certs_checked ctx (cert_index + 1) l (apply_cert ctx cert_index cert s)
  end.

Definition major s : Z := protocol_version_major (protocol_params (epochs s)).

Lemma shelley_cert_frame cert i slot tx s :
  epochs (apply_shelley_cert cert i slot tx s) = epochs s ∧
  (gov (apply_shelley_cert cert i slot tx s) = gov s ∨
   ∃ c, cert = StakeDeregistration c ∧ gov (apply_shelley_cert cert i slot tx s) = drop_vote (to_typed_hash32 c) (gov s)).
Proof. destruct cert; cbn; try (split; [done|by left]); [split; [done|right; eauto]|]. case_match; (split; [done|by left]). Qed.

Lemma alter_lists (f : DRepRegistration → DRepRegistration) (m : gmap Hash32 DRepRegistration) k : (∀ d, dr_delegs (f d) = dr_delegs d) → same_lists m (alter f k m).
Proof.
  intros Hf i. destruct (decide (i = k)) as [->|Hne].
  - rewrite lookup_alter_eq. destruct (m !! k); cbn; by rewrite ?Hf.
  - by rewrite lookup_alter_ne.
Qed.

Lemma fmap_lists (f : DRepRegistration → DRepRegistration) (m : gmap Hash32 DRepRegistration) : (∀ d, dr_delegs (f d) = dr_delegs d) → same_lists m (f <$> m).
Proof. intros Hf i. rewrite lookup_fmap. destruct (m !! i); cbn; by rewrite ?Hf. Qed.

Lemma cert_index ctx i cert s : 10 ≤ major s → cert_checked cert (gov s) → index_ok (gov s) →
  index_ok (gov (apply_cert ctx i cert s)) ∧ major (apply_cert ctx i cert s) = major s.
Proof.
  intros Hpv Hck Hok. unfold apply_cert.
  destruct (shelley_cert_frame cert i (rc_current_slot ctx) (rc_tx_index ctx) s) as [He Hg].
  set (s1 := apply_shelley_cert _ _ _ _ _) in *. clearbody s1.
  assert ((protocol_version_major (protocol_params (epochs s1)) <? 10) = false) as Hlt.
  { rewrite He. apply Z.ltb_ge. exact Hpv. }
  assert (∀ cert', epochs (apply_conway_cert cert' (rc_current_epoch ctx) s1) = epochs s1) as He1 by (by intros []).
  unfold major. rewrite He1, He. split; [|done].
  destruct Hg as [Hg|(c & -> & Hg)]; [|cbn; rewrite Hg; by apply drop_vote_index].
  destruct cert; cbn [apply_conway_cert]; rewrite ?Hlt; cbn; rewrite ?Hg; cbn in Hck; try done.
  - by apply drop_vote_index.
  - by apply register_index.
  - by apply unregister_index.
  - apply (index_frame (gov s)); [|done|exact Hok]. by apply alter_lists.
  - by apply delegate_index.
  - by apply delegate_index.
  - by apply delegate_index.
  - by apply delegate_index.
Qed.

Lemma apply_certs_index ctx i l s : 10 ≤ major s → certs_checked ctx i l s → index_ok (gov s) →
  index_ok (gov (apply_certs ctx i l s)).
Proof.
  induction l as [|cert l IH] in i, s |- *; intros Hpv Hck Hok; [done|]. destruct Hck as [Hc Hck].
  destruct (cert_index ctx i cert s Hpv Hc Hok) as [Hok' Hm]. cbn [apply_certs].
  apply (IH (i + 1)); [|done|done]. change (10 ≤ major (apply_cert ctx i cert s)). by rewrite Hm.
Qed.

Lemma expiries_lists (voters : list Voter) (expiry : Z) (m : gmap Hash32 DRepRegistration) :
  same_lists m (foldl (λ m voter, match voter with
    | VoterDRep credential => alter (touch_drep expiry) (to_typed_hash32 credential) m
    | _ => m end) m voters).
Proof.
  induction voters as [|v voters IH] in m |- *; [done|]. cbn [foldl]. intros k. rewrite <- IH.
  destruct v; [done|by apply alter_lists|done].
Qed.

Lemma add_proposals_index tx pp e i ps g : index_ok g → index_ok (add_proposals tx pp e i ps g).2.
Proof.
  induction ps as [|p ps IH] in i, g |- *; intros Hok; [done|]. cbn [add_proposals].
  destruct (negb _); [done|]. apply IH. by case_match.
Qed.

Lemma stake_gov (o : TransactionOutput) s : gov (sub_stake o s) = gov s ∧ gov (add_stake o s) = gov s.
Proof. unfold sub_stake, add_stake. split; by repeat case_match. Qed.

Lemma utxo_changes_gov (tx : LedgerTx) s : gov (apply_utxo_changes tx s).2 = gov s.
Proof.
  assert (∀ (l : list TransactionOutput) s, gov (foldl (λ s o, add_stake o s) s l) = gov s) as Ha.
  { induction l as [|o l IH]; intros s0; [done|]. cbn [foldl]. rewrite IH. apply stake_gov. }
  assert (∀ (l : list (TransactionInput * TransactionOutput)) s, gov (foldl (λ s io, sub_stake io.2 s) s l) = gov s) as Hs.
  { induction l as [|o l IH]; intros s0; [done|]. cbn [foldl]. rewrite IH. apply stake_gov. }
  unfold apply_utxo_changes. cbv zeta. cbn [snd]. unfold add_fee. cbn. rewrite Ha. unfold with_set. cbn. apply Hs.
Qed.

(** The state that the certificates of a transaction meet. *)
Definition before_certs (tx : GovTx) (ctx : RuleContext) s : LedgerState :=
  update_dormant_drep_expiry_for_tx tx (rc_current_epoch ctx) (update_drep_expiries_for_tx tx (rc_current_epoch ctx) s)
    <| certs ::= drain_withdrawal_accounts tx |>.

Lemma before_certs_index tx ctx s : index_ok (gov s) →
  index_ok (gov (before_certs tx ctx s)) ∧ major (before_certs tx ctx s) = major s.
Proof.
  intros Hok. unfold before_certs, update_dormant_drep_expiry_for_tx.
  set (s1 := update_drep_expiries_for_tx tx _ s).
  assert (index_ok (gov s1)) as Hok1 by (apply (index_frame (gov s)); [apply expiries_lists|done|exact Hok]).
  case_match; (split; [|done]); [done|]. apply (index_frame (gov s1)); [|done|exact Hok1]. apply fmap_lists.
  intros d. unfold refund_dormant. by case_match.
Qed.

Lemma tx_index tx mode ctx s : 10 ≤ major s → certs_checked ctx 0 (gt_certificates tx) (before_certs tx ctx s) →
  index_ok (gov s) → index_ok (gov (apply_valid_tx tx mode ctx s).2).
Proof.
  intros Hpv Hck Hok. unfold apply_valid_tx. destruct (treasury_mismatch tx mode s); [done|].
  destruct (withdrawal_error tx ctx s); [done|]. cbv zeta. fold (before_certs tx ctx s).
  destruct (before_certs_index tx ctx s Hok) as [Hok1 Hm1].
  assert (index_ok (gov (apply_certs ctx 0 (gt_certificates tx) (before_certs tx ctx s)))) as Hok2
    by (apply apply_certs_index; [by rewrite Hm1|done|done]).
  set (s2 := apply_certs _ _ _ _) in *. unfold process_governance_votes_and_proposals.
  pose proof (add_proposals_index (lt_hash (gt_body tx)) (protocol_params (epochs s2)) (rc_current_epoch ctx) 0
    (gt_proposal_procedures tx) (record_votes tx (gov s2)) Hok2) as Hok3.
  destruct (add_proposals _ _ _ _ _ _) as [err g3]. cbn [snd] in Hok3. destruct err as [e|]; [done|].
  pose proof (utxo_changes_gov (gt_body tx) (s2 <| gov := g3 |>)) as Hu.
  destruct (apply_utxo_changes (gt_body tx) (s2 <| gov := g3 |>)) as [diff s4]. cbn [snd] in *.
  unfold donate. case_match; cbn; rewrite Hu; done.
Qed.

(** *** Epoch transitions *)

Lemma enact_dreps a s : dreps (gov (enact_gov_action_impl a s)) = dreps (gov s) ∧
  vote_delegations (gov (enact_gov_action_impl a s)) = vote_delegations (gov s) ∧
  proposal_forest (gov (enact_gov_action_impl a s)) = proposal_forest (gov s).
Proof.
  assert (∀ g rs (l : list (Credential * Z)), let g' := foldl add_member (foldl remove_member g rs) l in
    dreps g' = dreps g ∧ vote_delegations g' = vote_delegations g ∧ proposal_forest g' = proposal_forest g) as Hm.
  { intros g rs l. cbv zeta.
    assert (∀ g, dreps (foldl add_member g l) = dreps g ∧ vote_delegations (foldl add_member g l) = vote_delegations g ∧
      proposal_forest (foldl add_member g l) = proposal_forest g) as Ha.
    { induction l as [|x l IH]; intros g'; [done|]. cbn [foldl]. by destruct (IH (add_member g' x)) as (-> & -> & ->). }
    destruct (Ha (foldl remove_member g rs)) as (-> & -> & ->). clear Ha. induction rs as [|x rs IH] in g |- *; [done|].
    cbn [foldl]. by destruct (IH (remove_member g x)) as (-> & -> & ->). }
  destruct a; cbn; try apply Hm; by repeat case_match.
Qed.

Lemma enact_all_dreps (l : list Candidate) s : dreps (gov (enact_all l s)) = dreps (gov s) ∧
  vote_delegations (gov (enact_all l s)) = vote_delegations (gov s) ∧
  proposal_forest (gov (enact_all l s)) = proposal_forest (gov s) ∧ proposals (gov (enact_all l s)) = proposals (gov s).
Proof.
  induction l as [|c l IH] in s |- *; [done|]. destruct (IH (enact_gov_action_impl (action_of c) s)) as (H1 & H2 & H3 & H4).
  destruct (enact_dreps (action_of c) s) as (E1 & E2 & E3), (enact_frame (action_of c) s) as [E4 _].
  split_and!; (etransitivity; [eassumption|done]).
Qed.

Lemma ratify_dreps s : dreps (gov (ratify_at_boundary s)) = dreps (gov s) ∧
  vote_delegations (gov (ratify_at_boundary s)) = vote_delegations (gov s).
Proof.
  unfold ratify_at_boundary. case_match; [|done]. unfold apply_ratify_decision. rewrite planned_fold.
  set (l := planned _ _ _). destruct (enact_all_dreps l s) as (H1 & H2 & _).
  match goal with |- context [proposals_apply_enactment ?r ?e ?s] =>
    destruct (enactment_settled r e s) as (a & t & m & f & v & lr & le & ->) end. done.
Qed.

Lemma governance_step_frame e s : dreps (gov (epoch_boundary_governance_step e s)) = dreps (gov s) ∧
  vote_delegations (gov (epoch_boundary_governance_step e s)) = vote_delegations (gov s) ∧
  epochs (epoch_boundary_governance_step e s) = epochs s ∧ certs (epoch_boundary_governance_step e s) = certs s ∧
  utxo (epoch_boundary_governance_step e s) = utxo s ∧
  proposals (gov (epoch_boundary_governance_step e s)) = proposals (gov s) ∧
  proposal_forest (gov (epoch_boundary_governance_step e s)) = proposal_forest (gov s).
Proof.
  unfold epoch_boundary_governance_step. case_match; [|done]. cbn. unfold predict_future_pparams. cbn.
  split_and!; done.
Qed.

Lemma upkeep_lists e s :
  let s' := update_drep_activity e (update_dormant_epochs s <| gov ::= prune_committee_state |>) in
  same_lists (dreps (gov s)) (dreps (gov s')) ∧ vote_delegations (gov s') = vote_delegations (gov s).
Proof.
  cbv zeta. assert (∀ g, dreps (prune_committee_state g) = dreps g ∧
    vote_delegations (prune_committee_state g) = vote_delegations g) as Hp.
  { intros g. unfold prune_committee_state. by case_match. }
  assert (dreps (gov (update_dormant_epochs s)) = dreps (gov s) ∧
    vote_delegations (gov (update_dormant_epochs s)) = vote_delegations (gov s)) as [E1 E2]
    by (unfold update_dormant_epochs; by case_match).
  generalize dependent (update_dormant_epochs s). intros s1 E1 E2. destruct (Hp (gov s1)) as [P1 P2].
  unfold update_drep_activity. case_match; cbn -[prune_committee_state]; rewrite P1, P2, E1, E2; (split; [|done]); [by apply fmap_lists|done].
Qed.

Lemma governance_steps_index old e s :
  (index_ok (gov s) → index_ok (gov (governance_steps old e s))) ∧
  (major (governance_steps old e s) ≠ old → major (governance_steps old e s) = 10 → index_ok (gov (governance_steps old e s))).
Proof.
  unfold governance_steps. cbv zeta. set (s1 := ratify_at_boundary s).
  set (s4 := _ <| certs ::= recompute_obligation |>). set (s5 := intra_era_hardfork old s4).
  destruct (governance_step_frame e s5) as (Hd & Hv & He & _).
  assert (index_ok (gov s) → index_ok (gov s4)) as Hs4.
  { intros Hok. destruct (ratify_dreps s) as [E1 E2]. destruct (upkeep_lists e s1) as [E3 E4].
    apply (index_frame (gov s)); [| |exact Hok].
    - intros k. rewrite <- E1. apply E3.
    - etransitivity; [exact E4|exact E2]. }
  assert (epochs s5 = epochs s4) as He5 by (unfold s5, intra_era_hardfork; by repeat case_match).
  assert (index_ok (gov s5) → index_ok (gov (epoch_boundary_governance_step e s5))) as Hlast.
  { intros Hok. apply (index_frame (gov s5)); [|done|exact Hok]. intros k. by rewrite Hd. }
  unfold major. rewrite He, He5. split.
  - intros Hok%Hs4. apply Hlast. unfold s5, intra_era_hardfork. repeat case_match; try done.
    apply update_drep_delegations_index.
  - intros Hne H10. apply Hlast. unfold s5, intra_era_hardfork.
    rewrite (proj2 (Z.eqb_neq _ _) Hne), H10. apply update_drep_delegations_index.
Qed.

Lemma conway_rupd_gov s s' : conway_rupd s = Some s' → gov s' = gov s.
Proof.
  unfold conway_rupd. intros (s1 & Hs1 & (s2 & Hs2 & (s3 & Hs3 & [= <-])%bind_Some)%bind_Some)%bind_Some.
  assert (∀ rupd t t', apply_rupd rupd t = Some t' → gov t' = gov t) as Hr.
  { intros rupd t t'. unfold apply_rupd. intros Ht. repeat (apply bind_Some in Ht as (? & ? & Ht)).
    repeat case_match; simplify_eq; done. }
  assert (gov s1 = gov s) as E1.
  { clear Hs2 Hs3. unfold flush_donations in Hs1. case_match; [apply bind_Some in Hs1 as (? & _ & Hs1)|]; by simplify_eq. }
  assert (gov s2 = gov s1) as E2.
  { clear Hs1 Hs3. unfold apply_carried_rupd in Hs2. case_match; [|by simplify_eq].
    apply bind_Some in Hs2 as (t & Ht & Hs2). simplify_eq. by apply Hr in Ht. }
  assert (gov s3 = gov s2) as E3.
  { clear Hs1 Hs2. case_match; [|by simplify_eq]. unfold apply_closed_rupd in Hs3.
    apply bind_Some in Hs3 as (? & _ & (t & Ht & Hs3)%bind_Some). simplify_eq. by apply Hr in Ht. }
  transitivity (gov s3); [unfold drain_fees; clear; by case_match|]. by rewrite E3, E2, E1.
Qed.

Lemma reap_pools_gov ids s s' : reap_pools ids s = Some s' → gov s' = gov s.
Proof.
  induction ids as [|id ids IH] in s |- *; cbn [reap_pools]; [by intros [= <-]|].
  intros (s1 & H1 & H2)%bind_Some. rewrite (IH _ H2). revert H1. unfold reap_pool.
  case_match; [|by intros; simplify_eq]. case_match; [by intros; simplify_eq|].
  intros (? & _ & ?)%bind_Some. by simplify_eq.
Qed.

Lemma poolreap_gov e s s' : poolreap e s = Some s' → gov s' = gov s.
Proof.
  unfold poolreap. intros (s1 & H1 & [= <-])%bind_Some.
  transitivity (gov s1); [done|]. rewrite (reap_pools_gov _ _ _ H1). clear. by case_match.
Qed.

Lemma mir_gov s : gov (apply_pending_mir s) = gov s.
Proof. unfold apply_pending_mir. by repeat case_match. Qed.

End delegations.

Section index.
Context `{GovRest} `{Blake2b}.
Implicit Types s : LedgerState.

(** A Conway chain: transactions whose certificates were checked, and boundaries. *)
Inductive conway_step : LedgerState → LedgerState → Prop :=
| step_tx tx mode ctx s : 10 ≤ major s → certs_checked ctx 0 (gt_certificates tx) (before_certs tx ctx s) →
    conway_step s (apply_valid_tx tx mode ctx s).2
| step_epoch ctx e s s' : conway_epoch_transition ctx e s = Some s' → conway_step s s'.

Lemma close_frame era pp s : gov (close_epoch era pp s) = gov s ∧ major (close_epoch era pp s) = major s.
Proof. done. Qed.

Lemma transition_steps ctx e s s' : conway_epoch_transition ctx e s = Some s' → ∃ s1,
  gov s1 = gov s ∧ gov s' = gov (governance_steps (major s) e s1) ∧ major s' = major (governance_steps (major s) e s1).
Proof.
  unfold conway_epoch_transition. cbv zeta.
  intros (s1 & H1 & (s2 & H2 & [= <-])%bind_Some)%bind_Some. exists (apply_pending_mir s2).
  split; [|apply close_frame]. rewrite mir_gov, (poolreap_gov _ _ _ H2). cbn. rewrite (conway_rupd_gov _ _ H1).
  unfold process_ppup, enact_ppup. by repeat case_match.
Qed.

(** C17: At protocol version 10 and after, every
    DRep lists exactly the credentials that delegate to it, and nobody
    delegates to a DRep that is not registered: transactions whose certificates
    were checked and epoch transitions keep it so, and the transition to
    version 10 makes it so whatever the lists held before. *)
Theorem drep_index_invariant :
  (∀ s s', rtc conway_step s s' → index_ok (gov s) → index_ok (gov s')) ∧
  (∀ ctx e s s', conway_epoch_transition ctx e s = Some s' → major s ≠ 10 → major s' = 10 → index_ok (gov s')).
Proof.
  split.
  - induction 1 as [|s s1 s2 Hstep _ IH]; [done|]. intros Hok. apply IH.
    destruct Hstep as [tx mode ctx s Hpv Hck|ctx e s s1 Ht]; [by apply tx_index|].
    destruct (transition_steps ctx e s s1 Ht) as (s0 & Hg & -> & _).
    apply (proj1 (governance_steps_index _ _ _)). by rewrite Hg.
  - intros ctx e s s' Ht Hne H10. destruct (transition_steps ctx e s s' Ht) as (s0 & _ & -> & Hm).
    rewrite H10 in Hm. apply (proj2 (governance_steps_index (major s) e s0)); congruence.
Qed.

End index.

(** ** The forest along a run *)

Section forest.
Context `{GovRest}.
Implicit Types (s : LedgerState) (g : GovernanceState).

Definition gov_forest_ok g : Prop := forest_ok (proposals g) (proposal_forest g).

Lemma refund_gov (l : list (GovActionId * ProposalState)) s : gov (foldl refund_proposal_deposit s l) = gov s.
Proof.
  induction l as [|e l IH] in s |- *; [done|]. cbn [foldl]. rewrite IH. unfold refund_proposal_deposit. by repeat case_match.
Qed.

Lemma drop_forest ids s : gov_forest_ok (gov s) →
  gov_forest_ok (gov (drop_proposals ids s).2) ∧
  ∀ x, proposals (gov s) !! x = None → proposals (gov (drop_proposals ids s).2) !! x = None.
Proof.
  intros Hok. unfold drop_proposals, forest_remove_with_descendants. cbv zeta. cbn [snd]. rewrite refund_gov. cbn.
  split; [apply remove_nodes_ok; [done|apply sorted_ids_NoDup|done]|].
  intros x Hx. rewrite delete_all_spec. by case_bool_decide.
Qed.

Lemma drop_lineage ids s x : gov_forest_ok (gov s) →
  let gone := ∃ id, id ∈ ids ∧ rtc (extends (proposals (gov s))) id x in
  (gone → proposals (gov (drop_proposals ids s).2) !! x = None) ∧
  (¬ gone → proposals (gov (drop_proposals ids s).2) !! x = proposals (gov s) !! x).
Proof.
  intros Hok. cbv zeta. unfold drop_proposals, forest_remove_with_descendants. cbv zeta. cbn [snd]. rewrite refund_gov. cbn.
  rewrite delete_all_spec, <- (removal_lineage ids _ _ x Hok). split; intros Hx.
  - by rewrite bool_decide_true by (by apply sorted_ids_elem).
  - by rewrite bool_decide_false by (by rewrite sorted_ids_elem).
Qed.

Lemma remove_enacted_forest acc id : gov_forest_ok (gov acc.2) → (∀ e, e ∈ acc.1 → proposals (gov acc.2) !! e.1 = None) →
  gov_forest_ok (gov (remove_enacted acc id).2) ∧
  ∀ e, e ∈ (remove_enacted acc id).1 → proposals (gov (remove_enacted acc id).2) !! e.1 = None.
Proof.
  destruct acc as [ratified s]. unfold remove_enacted. cbv zeta. cbn [fst snd]. intros Hok Hgone.
  set (s1 := match _ with Some p => _ | None => s end).
  assert (proposals (gov s1) = proposals (gov s)) as Hp1 by (unfold s1; by case_match).
  set (s3 := match proposals (gov s1) !! id with Some st => _ | None => _ end).
  assert (gov s3 = gov s1 <| proposals ::= delete id |>) as Hg3.
  { unfold s3. case_match; [|done]. apply (refund_gov [(id, _)]). }
  assert (proposals (gov s3) = delete id (proposals (gov s)) ∧ proposal_forest (gov s3) = proposal_forest (gov s1)) as [E1 E2].
  { rewrite Hg3. cbn. by rewrite Hp1. }
  split.
  - unfold gov_forest_ok. cbn. rewrite E1, E2. unfold s1. destruct (proposals (gov s) !! id ≫= purpose_of) as [p|] eqn:Ep.
    + cbn. by apply remove_node_ok.
    + by apply absent_ok.
  - intros e He. cbn. rewrite E1. apply lookup_delete_None.
    assert (e ∈ ratified ∨ e.1 = id) as [Hin|Hin].
    { case_match; [|by left]. apply elem_of_app in He as [He|He]; [by left|]. apply list_elem_of_singleton in He as ->. by right. }
    + right. by apply Hgone.
    + by left.
Qed.

Lemma enacted_forest l acc : gov_forest_ok (gov acc.2) → (∀ e, e ∈ acc.1 → proposals (gov acc.2) !! e.1 = None) →
  gov_forest_ok (gov (foldl remove_enacted acc l).2) ∧
  ∀ e, e ∈ (foldl remove_enacted acc l).1 → proposals (gov (foldl remove_enacted acc l).2) !! e.1 = None.
Proof.
  induction l as [|id l IH] in acc |- *; [done|]. intros Hok Hgone. cbn [foldl].
  destruct (remove_enacted_forest acc id Hok Hgone) as [Hok' Hgone']. by apply IH.
Qed.

Lemma promote_forest l s : gov_forest_ok (gov s) → (∀ e, e ∈ l → proposals (gov s) !! e.1 = None) →
  gov_forest_ok (gov (foldl promote_enacted s l)).
Proof.
  induction l as [|e l IH] in s |- *; intros Hok Hgone; [done|]. cbn [foldl].
  assert (∀ e', e' ∈ l → proposals (gov s) !! e'.1 = None) as Hgone' by (intros; apply Hgone; by right).
  unfold promote_enacted at 2. destruct (purpose_of e.2) as [p|]; [|by apply IH]. cbv zeta.
  set (ids := sorted_ids _). destruct (drop_forest ids s Hok) as [Hok1 Hless].
  generalize dependent (drop_proposals ids s).2. intros s1 Hok1 Hless. apply IH.
  - unfold gov_forest_ok. cbn. apply promote_root_ok; [done|]. apply Hless, Hgone. by left.
  - intros e' He'. cbn. by apply Hless, Hgone'.
Qed.

Lemma enactment_forest ratified expired s : gov_forest_ok (gov s) →
  gov_forest_ok (gov (proposals_apply_enactment ratified expired s)).
Proof.
  intros Hok. unfold proposals_apply_enactment. destruct (drop_forest expired s Hok) as [Hok1 _].
  destruct (drop_proposals expired s) as [removed s1]. cbn [snd] in Hok1.
  destruct (enacted_forest ratified ([], s1)) as [Hok2 Hgone]; [done|by intros e He%not_elem_of_nil|].
  destruct (foldl remove_enacted ([], s1) ratified) as [rs s2]. cbn [fst snd] in Hok2, Hgone.
  by apply promote_forest.
Qed.

Lemma ratify_forest s : gov_forest_ok (gov s) → gov_forest_ok (gov (ratify_at_boundary s)).
Proof.
  intros Hok. unfold ratify_at_boundary. case_match; [|done]. unfold apply_ratify_decision. rewrite planned_fold.
  set (l := planned _ _ _). destruct (enact_all_dreps l s) as (_ & _ & H3 & H4).
  match goal with |- context [proposals_apply_enactment ?r ?e ?s] => apply (enactment_forest r e s) end.
  unfold gov_forest_ok. cbn. by rewrite H3, H4.
Qed.

Lemma upkeep_forest e s :
  let s' := update_drep_activity e (update_dormant_epochs s <| gov ::= prune_committee_state |>) in
  proposals (gov s') = proposals (gov s) ∧ proposal_forest (gov s') = proposal_forest (gov s).
Proof.
  cbv zeta. assert (∀ g, proposals (prune_committee_state g) = proposals g ∧
    proposal_forest (prune_committee_state g) = proposal_forest g) as Hp
    by (intros g; unfold prune_committee_state; by case_match).
  assert (proposals (gov (update_dormant_epochs s)) = proposals (gov s) ∧
    proposal_forest (gov (update_dormant_epochs s)) = proposal_forest (gov s)) as [E1 E2]
    by (unfold update_dormant_epochs; by case_match).
  generalize dependent (update_dormant_epochs s). intros s1 E1 E2. destruct (Hp (gov s1)) as [P1 P2].
  unfold update_drep_activity. case_match; cbn -[prune_committee_state]; by rewrite P1, P2, E1, E2.
Qed.

Lemma hardfork_forest old s : proposals (gov (intra_era_hardfork old s)) = proposals (gov s) ∧
  proposal_forest (gov (intra_era_hardfork old s)) = proposal_forest (gov s).
Proof.
  assert (∀ g, proposals (update_drep_delegations g) = proposals g ∧
    proposal_forest (update_drep_delegations g) = proposal_forest g) as Hu
    by (intros g; unfold update_drep_delegations; by destruct (foldl reindex_vote _ _)).
  unfold intra_era_hardfork. repeat case_match; try done. apply Hu.
Qed.

Lemma governance_steps_forest old e s : gov_forest_ok (gov s) → gov_forest_ok (gov (governance_steps old e s)).
Proof.
  intros Hok%ratify_forest. unfold governance_steps. cbv zeta. set (s1 := ratify_at_boundary s) in *. clearbody s1.
  destruct (upkeep_forest e s1) as [U1 U2]. cbv zeta in U1, U2.
  set (s3 := update_drep_activity e _) in *. set (s4 := s3 <| certs ::= recompute_obligation |>).
  destruct (hardfork_forest old s4) as [F1 F2].
  destruct (governance_step_frame e (intra_era_hardfork old s4)) as (_ & _ & _ & _ & _ & S1 & S2).
  unfold gov_forest_ok. rewrite S1, S2, F1, F2. change (gov s4) with (gov s3). by rewrite U1, U2.
Qed.

(** *** Proposals of a transaction *)

(** No identifier with the hash of the transaction is known yet: not as a
    proposal, a node, a parent or a root. *)
Definition unknown_from (h : Hash32) (idx : Z) g : Prop := ∀ i, idx ≤ i →
  proposals g !! mkActionId h i = None ∧ unreferenced (proposals g) (proposal_forest g) (mkActionId h i).

Definition no_root (h : Hash32) g : Prop := ∀ p i, rel_get (enacted_roots g) p ≠ Some (mkActionId h i).

Lemma prev_known action g h idx i : unknown_from h idx g → no_root h g → idx ≤ i → prev_action_valid action g = true →
  gov_action_raw_prev_id action ≠ Some (mkActionId h i).
Proof.
  intros Hu Hr Hi Hv Hprev. unfold prev_action_valid in Hv. rewrite Hprev in Hv.
  apply orb_true_iff in Hv as [Hv|Hv].
  - unfold prev_action_matches_enacted_root in Hv. destruct (gov_action_purpose_tag action); [|done].
    apply bool_decide_eq_true in Hv. by apply (Hr p i).
  - apply bool_decide_eq_true in Hv. destruct (Hu i Hi) as [Hn _]. rewrite Hn in Hv. by destruct Hv.
Qed.

Lemma add_proposals_forest h pp e idx ps g : unknown_from h idx g → no_root h g → gov_forest_ok g →
  gov_forest_ok (add_proposals h pp e idx ps g).2.
Proof.
  induction ps as [|p ps IH] in idx, g |- *; intros Hu Hr Hok; [done|]. cbn [add_proposals].
  destruct (prev_action_valid (gov_action p) g) eqn:Hv; cbn [negb]; [|done].
  assert (unknown_from h (idx + 1) g) as Hu1 by (intros i Hi; apply Hu; lia).
  destruct (hardfork_proposal_cant_follow _ _ _); [by apply IH|].
  set (st := mkProposalState p e (wrapping_add64 e (gov_action_lifetime (gov_params pp))) 0 0 0 (proposal_count g)).
  assert (∀ i, idx ≤ i → prev_of st ≠ Some (mkActionId h i)) as Hprev
    by (intros i Hi; exact (prev_known (gov_action p) g h idx i Hu Hr Hi Hv)).
  apply IH; [| |].
  - intros i Hi. destruct (Hu i) as [H1 H2]; [lia|].
    assert (mkActionId h idx ≠ mkActionId h i) as Hne by (intros [=]; lia). split.
    + change (<[mkActionId h idx := st]> (proposals g) !! mkActionId h i = None). by rewrite lookup_insert_ne.
    + apply (unreferenced_add (mkActionId h idx) st (proposals g) (proposal_forest g)); [done|done|]. apply Hprev. lia.
  - done.
  - apply (add_to_forest_ok (mkActionId h idx) st); [done|apply Hu; lia|apply Hprev; lia].
Qed.

Lemma certs_forest ctx i l s : proposals (gov (apply_certs ctx i l s)) = proposals (gov s) ∧
  proposal_forest (gov (apply_certs ctx i l s)) = proposal_forest (gov s) ∧
  enacted_roots (gov (apply_certs ctx i l s)) = enacted_roots (gov s).
Proof.
  assert (∀ k g, proposals (undelegate_vote k g).2 = proposals g ∧
    proposal_forest (undelegate_vote k g).2 = proposal_forest g ∧ enacted_roots (undelegate_vote k g).2 = enacted_roots g) as Hu
    by (intros k g; unfold undelegate_vote; by repeat case_match).
  assert (∀ b k d g, proposals (delegate_vote b k d g) = proposals g ∧
    proposal_forest (delegate_vote b k d g) = proposal_forest g ∧ enacted_roots (delegate_vote b k d g) = enacted_roots g) as Hd.
  { intros b k d g. unfold delegate_vote. specialize (Hu k g). destruct (undelegate_vote k g) as [previous g1].
    cbn [snd] in Hu. by repeat case_match. }
  induction l as [|cert l IH] in i, s |- *; [done|]. cbn [apply_certs].
  match goal with |- context [apply_certs ctx (i + 1) l ?t] => destruct (IH (i + 1) t) as (-> & -> & ->) end.
  destruct (shelley_cert_frame cert i (rc_current_slot ctx) (rc_tx_index ctx) s) as [_ Hg].
  set (s1 := apply_shelley_cert _ _ _ _ _) in *. clearbody s1.
  assert (proposals (gov s1) = proposals (gov s) ∧ proposal_forest (gov s1) = proposal_forest (gov s) ∧
    enacted_roots (gov s1) = enacted_roots (gov s)) as (<- & <- & <-).
  { destruct Hg as [->|(c & _ & ->)]; [done|]. apply (Hu (to_typed_hash32 c) (gov s)). }
  destruct cert; cbn; try done; try apply Hd; try apply (Hu (to_typed_hash32 credential) (gov s1)).
  unfold unregister_drep. by case_match.
Qed.

Lemma tx_forest tx mode ctx s : unknown_from (lt_hash (gt_body tx)) 0 (gov s) → no_root (lt_hash (gt_body tx)) (gov s) →
  gov_forest_ok (gov s) → gov_forest_ok (gov (apply_valid_tx tx mode ctx s).2).
Proof.
  intros Hu Hr Hok. unfold apply_valid_tx. destruct (treasury_mismatch tx mode s); [done|].
  destruct (withdrawal_error tx ctx s); [done|]. cbv zeta. fold (before_certs tx ctx s).
  assert (proposals (gov (before_certs tx ctx s)) = proposals (gov s) ∧
    proposal_forest (gov (before_certs tx ctx s)) = proposal_forest (gov s) ∧
    enacted_roots (gov (before_certs tx ctx s)) = enacted_roots (gov s)) as (B1 & B2 & B3)
    by (unfold before_certs, update_dormant_drep_expiry_for_tx; by case_match).
  destruct (certs_forest ctx 0 (gt_certificates tx) (before_certs tx ctx s)) as (C1 & C2 & C3).
  set (s2 := apply_certs _ _ _ _) in *. clearbody s2. rewrite B1 in C1. rewrite B2 in C2. rewrite B3 in C3.
  unfold process_governance_votes_and_proposals.
  assert (gov_forest_ok (add_proposals (lt_hash (gt_body tx)) (protocol_params (epochs s2)) (rc_current_epoch ctx) 0
    (gt_proposal_procedures tx) (record_votes tx (gov s2))).2) as Hok3.
  { apply add_proposals_forest.
    - intros i Hi. cbn. rewrite C1, C2. by apply Hu.
    - intros p i. change (enacted_roots (record_votes tx (gov s2))) with (enacted_roots (gov s2)). rewrite C3. apply Hr.
    - unfold gov_forest_ok. cbn. by rewrite C1, C2. }
  destruct (add_proposals _ _ _ _ _ _) as [err g3]. cbn [snd] in Hok3. destruct err as [e|]; [done|].
  pose proof (utxo_changes_gov (gt_body tx) (s2 <| gov := g3 |>)) as HU.
  destruct (apply_utxo_changes (gt_body tx) (s2 <| gov := g3 |>)) as [diff s4]. cbn [snd] in *.
  unfold donate. unfold gov_forest_ok. case_match; cbn; rewrite HU; done.
Qed.

End forest.

(** ** The coin of an epoch transition *)

Section coin.
Context `{GovRest} `{Blake2b}.
Implicit Types (s : LedgerState) (g : GovernanceState).

Definition pool_pot s : Z := ksum (λ _ x, x) (pool_deposits (certs s)).

(** Everything that a transition moves: pots, deposits of pools and of proposals. *)
Definition all_pots s : Z := pots s + pool_pot s + proposal_pot (proposals (gov s)).

Record coins_fit s : Prop := {
  cf_pots : pots_ok s;
  cf_pools : nonneg_map (pool_deposits (certs s));
  cf_paid : ∀ id, is_Some (pool_params (certs s) !! id) → is_Some (pool_deposits (certs s) !! id);
  cf_proposals : ∀ id st, proposals (gov s) !! id = Some st → refundable st;
  cf_max : all_pots s ≤ u64_max;
}.

Lemma pool_pot_nonneg s : coins_fit s → 0 ≤ pool_pot s.
Proof. intros Hf. apply ksum_nonneg, Hf. Qed.

Lemma proposal_pot_nonneg s : coins_fit s → 0 ≤ proposal_pot (proposals (gov s)).
Proof. intros Hf. apply ksum_nonneg. intros id st Hst. by apply (cf_proposals s Hf id st). Qed.

Definition mir_of (c : CertSubState) : gmap Hash32 Z * gmap Hash32 Z * Z * Z :=
  (pending_mir_reserves c, pending_mir_treasury c, pending_mir_delta_reserves c, pending_mir_delta_treasury c).

(** A step that keeps the coin, and takes nothing from the treasury. *)
Definition coins_moved s s' : Prop :=
  coins_fit s' ∧ all_pots s' = all_pots s ∧ treasury (epochs s) ≤ treasury (epochs s') ∧ gov s' = gov s ∧
  mir_of (certs s') = mir_of (certs s).

(** Steps outside the pots. *)
Lemma coins_frame s s' : treasury (epochs s') = treasury (epochs s) → reserves (epochs s') = reserves (epochs s) →
  utxo s' = utxo s → reward_accounts (certs s') = reward_accounts (certs s) →
  pool_deposits (certs s') = pool_deposits (certs s) →
  (∀ id, is_Some (pool_params (certs s') !! id) → is_Some (pool_params (certs s) !! id)) →
  proposals (gov s') = proposals (gov s) → coins_fit s → coins_fit s' ∧ all_pots s' = all_pots s.
Proof.
  intros Et Er Eu Ea Ed Hp Eg [[? ? ? ? ? ?] ? ? ? Hmax].
  assert (pots s' = pots s) as Epots by (unfold pots; by rewrite Et, Er, Eu, Ea).
  assert (all_pots s' = all_pots s) as Eall by (unfold all_pots, pool_pot; by rewrite Epots, Ed, Eg).
  split; [|done]. constructor; rewrite ?Ed, ?Eg, ?Eall; try done; [|naive_solver].
  constructor; rewrite ?Et, ?Er, ?Eu, ?Ea, ?Epots; done.
Qed.

(** *** Pool retirement *)

Lemma reap_pool_moved id s : coins_fit s → ∃ s', reap_pool id s = Some s' ∧ coins_moved s s'.
Proof.
  intros Hf. unfold reap_pool. destruct (pool_params (certs s) !! id) as [reg|] eqn:Hreg.
  2:{ exists s. split; [done|]. split_and!; done || lia. }
  destruct (cf_paid s Hf id) as [d Hd]; [by rewrite Hreg|]. rewrite Hd.
  match goal with |- context [default ?x (Some d)] => change (default x (Some d)) with d end.
  pose proof (cf_pools s Hf _ _ Hd) as Hd0. pose proof (ksum_delete (λ _ x, x) _ _ _ Hd) as Hpot. cbn beta in Hpot.
  pose proof (pool_pot_nonneg s Hf) as Hp0. pose proof (proposal_pot_nonneg s Hf) as Hpp. pose proof (cf_max s Hf) as Hmax.
  pose proof (cf_pots s Hf) as [Hr Ht Ha Hfe Hdo Htot]. pose proof (ksum_nonneg (λ _ x, x) _ Ha) as Hs.
  assert (nonneg_map (delete id (pool_deposits (certs s)))) as Hnn.
  { intros k x Hx. apply lookup_delete_Some in Hx as [_ Hx]. by eapply (cf_pools s Hf). }
  pose proof (ksum_nonneg (λ _ x, x) _ Hnn) as Hpd.
  assert (∀ k, is_Some (delete id (pool_params (certs s)) !! k) → is_Some (delete id (pool_deposits (certs s)) !! k)) as Hpaid.
  { intros k [x Hx]. apply lookup_delete_Some in Hx as [Hne Hx]. rewrite lookup_delete_ne by done.
    apply (cf_paid s Hf). by rewrite Hx. }
  unfold all_pots, pots, pool_pot in Hmax. unfold pots in Htot.
  destruct (reward_accounts (certs s) !! reward_account_to_hash (pool_reward_account reg)) as [b|] eqn:Hb.
  - eexists. split; [reflexivity|]. unfold coins_moved.
    pose proof (Ha _ _ Hb) as Hb0. pose proof (ksum_elem_le (λ _ x, x) _ _ b Ha Hb) as Hbs. cbn in Hbs.
    assert (saturating_add64 b d = b + d) as Eb by (unfold saturating_add64; lia).
    split_and!; [constructor; [constructor|..]|..]; unfold all_pots, pots, pool_pot; cbn; rewrite ?Eb, ?(ksum_replace _ _ _ _ Hb);
      try done; try lia.
    + intros k x [[<- <-]|[_ Hx]]%lookup_insert_Some; [lia|by eapply Ha].
    + intros i st Hst. by apply (cf_proposals s Hf i).
  - assert (checked_add64 (treasury (epochs s)) d = Some (treasury (epochs s) + d)) as Ec.
    { unfold checked_add64. rewrite (proj2 (Z.leb_le _ _)); [done|lia]. }
    cbn. rewrite Ec. cbn [mbind option_bind]. eexists. split; [reflexivity|]. unfold coins_moved.
    split_and!; [constructor; [constructor|..]|..]; unfold all_pots, pots, pool_pot; cbn; try done; try lia.
    intros i st Hst. by apply (cf_proposals s Hf i).
Qed.

Lemma coins_moved_trans s1 s2 s3 : coins_moved s1 s2 → coins_moved s2 s3 → coins_moved s1 s3.
Proof. intros (F1 & A1 & T1 & G1 & M1) (F2 & A2 & T2 & G2 & M2). split_and!; [done|lia|lia|by rewrite G2|by rewrite M2]. Qed.

Lemma reap_pools_moved ids s : coins_fit s → ∃ s', reap_pools ids s = Some s' ∧ coins_moved s s'.
Proof.
  induction ids as [|id ids IH] in s |- *; intros Hf.
  { exists s. split; [done|]. split_and!; done || lia. }
  destruct (reap_pool_moved id s Hf) as (s1 & H1 & Hm1). destruct (IH s1) as (s2 & H2 & Hm2); [apply Hm1|].
  exists s2. cbn [reap_pools]. rewrite H1. cbn [mbind option_bind]. split; [done|]. by eapply coins_moved_trans.
Qed.

Lemma activate_keys (l : list (Hash28 * PoolRegistration)) (m : gmap Hash28 PoolRegistration) k :
  is_Some (foldl activate_pool m l !! k) → is_Some (m !! k).
Proof.
  induction l as [|x l IH] in m |- *; [done|]. cbn [foldl]. intros Hk%IH. unfold activate_pool in Hk.
  case_bool_decide as Hx; [|done]. apply lookup_insert_is_Some' in Hk as [<-|Hk]; done.
Qed.

Lemma poolreap_moved e s : coins_fit s → ∃ s', poolreap e s = Some s' ∧ coins_moved s s'.
Proof.
  intros Hf. unfold poolreap. cbv zeta.
  match goal with |- context [reap_pools ?ids ?t] => set (t1 := t) end.
  assert (coins_fit t1 ∧ all_pots t1 = all_pots s) as [Hf1 Ha1].
  { apply (coins_frame s t1); try done; try (unfold t1; by case_match).
    intros k Hk. apply (activate_keys (map_to_list (future_pool_params (certs s)))). revert Hk. unfold t1. by case_match. }
  match goal with |- context [reap_pools ?ids t1] =>
    destruct (reap_pools_moved ids t1 Hf1) as (s1 & -> & Hf2 & Ha2 & Ht2 & Hg2 & Hm2) end. cbn [mbind option_bind].
  eexists. split; [reflexivity|].
  assert (treasury (epochs t1) = treasury (epochs s) ∧ gov t1 = gov s ∧ mir_of (certs t1) = mir_of (certs s)) as (Et & Eg & Em)
    by (unfold t1; by case_match).
  rewrite Et in Ht2. rewrite Eg in Hg2. rewrite Em in Hm2.
  match goal with |- coins_moved s ?s' => destruct (coins_frame s1 s') as [Hf3 Ha3]; try done end.
  split_and!; [done|lia|done|done|done].
Qed.

(** *** Ratification *)

Record apart s s' : Prop := {
  ap_utxo : utxo s' = utxo s;
  ap_reserves : reserves (epochs s') = reserves (epochs s);
  ap_deposits : pool_deposits (certs s') = pool_deposits (certs s);
  ap_params : pool_params (certs s') = pool_params (certs s);
}.

Lemma apart_trans s1 s2 s3 : apart s1 s2 → apart s2 s3 → apart s1 s3.
Proof. intros [] []. constructor; congruence. Qed.

Lemma enact_apart (l : list Candidate) s : apart s (enact_all l s).
Proof.
  induction l as [|c l IH] in s |- *; [by constructor|]. eapply apart_trans; [|apply IH].
  destruct (action_of c) as [? ? ?|? []|? ?| | | |]; cbn; try (by constructor); case_match; by constructor.
Qed.

Lemma ratify_apart s : apart s (ratify_at_boundary s).
Proof.
  unfold ratify_at_boundary. case_match; [|by constructor]. unfold apply_ratify_decision. rewrite planned_fold.
  set (l := planned _ _ _). apply (apart_trans _ (enact_all l s)); [apply enact_apart|].
  match goal with |- context [proposals_apply_enactment ?r ?e ?s] =>
    destruct (enactment_settled r e s) as (a & t & m & f & v & lr & le & ->) end. by constructor.
Qed.

(** The plan pays out no more than the treasury holds. *)
Definition plan_covered s : Prop := ∀ plan, ratify_plan (gov s) = Some plan →
  let l := planned (pulsing_snapshot (gov s)) s (enacted plan) in
  (∀ c, c ∈ l → amounts_ok (action_of c)) ∧ declared_all l ≤ treasury (epochs s).

Lemma all_pots_split s : all_pots s =
  gov_coin s + (reserves (epochs s) + epoch_fees (utxo s) + pending_donations (utxo s) + pool_pot s).
Proof. unfold all_pots, pots, gov_coin, funds, account_sum. lia. Qed.

Lemma ratify_coins s : coins_fit s → plan_covered s →
  coins_fit (ratify_at_boundary s) ∧ all_pots (ratify_at_boundary s) = all_pots s.
Proof.
  intros Hf Hplan. pose proof (ratify_apart s) as [Eu Er Ed Ep]. pose proof (cf_max s Hf) as Hmax.
  rewrite all_pots_split in Hmax. pose proof (pool_pot_nonneg s Hf) as Hp0.
  pose proof (cf_pots s Hf) as [Hr Ht Ha Hfe Hdo _].
  assert (coin_kept s (ratify_at_boundary s)) as Hkept.
  { unfold ratify_at_boundary. destruct (ratify_plan (gov s)) as [plan|] eqn:Epl; [|by apply coin_frame].
    destruct (Hplan plan Epl) as [Ham Hd]. by apply decision_coin. }
  destruct Hkept as [[[Ht' Ha'] Hpr' Hm'] Hc'].
  { constructor; [by constructor|apply (cf_proposals s Hf)|lia]. }
  assert (pool_pot (ratify_at_boundary s) = pool_pot s) as Epot by (unfold pool_pot; by rewrite Ed).
  assert (all_pots (ratify_at_boundary s) = all_pots s) as Eall by (rewrite !all_pots_split, Hc', Eu, Er, Epot; done).
  split; [|done]. constructor; [|by rewrite Ed; apply Hf|by rewrite Ed, Ep; apply Hf|done|by rewrite Eall; apply Hf].
  constructor; rewrite ?Eu, ?Er; try done.
  assert (0 ≤ pool_pot (ratify_at_boundary s) ∧ 0 ≤ proposal_pot (proposals (gov (ratify_at_boundary s)))) as [? ?].
  { rewrite Epot. split; [done|]. apply ksum_nonneg. intros id st Hst. by apply (Hpr' id st). }
  pose proof (cf_max s Hf) as Hmax2. rewrite <- Eall in Hmax2. unfold all_pots in Hmax2. lia.
Qed.

(** The other steps leave the pots alone. *)
Lemma upkeep_apart old e s :
  let s1 := update_drep_activity e (update_dormant_epochs s <| gov ::= prune_committee_state |>) in
  let s' := epoch_boundary_governance_step e (intra_era_hardfork old (s1 <| certs ::= recompute_obligation |>)) in
  apart s s' ∧ treasury (epochs s') = treasury (epochs s) ∧ reward_accounts (certs s') = reward_accounts (certs s) ∧
  proposals (gov s') = proposals (gov s).
Proof.
  cbv zeta. destruct (upkeep_forest e s) as [U1 _]. cbv zeta in U1.
  assert (epochs (update_drep_activity e (update_dormant_epochs s <| gov ::= prune_committee_state |>)) = epochs s ∧
    certs (update_drep_activity e (update_dormant_epochs s <| gov ::= prune_committee_state |>)) = certs s ∧
    utxo (update_drep_activity e (update_dormant_epochs s <| gov ::= prune_committee_state |>)) = utxo s) as (E1 & E2 & E3).
  { assert (epochs (update_dormant_epochs s) = epochs s ∧ certs (update_dormant_epochs s) = certs s ∧
      utxo (update_dormant_epochs s) = utxo s) as (D1 & D2 & D3) by (unfold update_dormant_epochs; by case_match).
    unfold update_drep_activity. case_match; cbn; done. }
  set (s1 := update_drep_activity _ _) in *. clearbody s1. set (s2 := s1 <| certs ::= recompute_obligation |>).
  destruct (hardfork_forest old s2) as [F1 _].
  assert (epochs (intra_era_hardfork old s2) = epochs s2 ∧ utxo (intra_era_hardfork old s2) = utxo s2 ∧
    reward_accounts (certs (intra_era_hardfork old s2)) = reward_accounts (certs s2) ∧
    pool_deposits (certs (intra_era_hardfork old s2)) = pool_deposits (certs s2) ∧
    pool_params (certs (intra_era_hardfork old s2)) = pool_params (certs s2)) as (I1 & I2 & I3 & I4 & I5)
    by (unfold intra_era_hardfork; by repeat case_match).
  destruct (governance_step_frame e (intra_era_hardfork old s2)) as (_ & _ & G1 & G2 & G3 & G4 & _).
  split_and!; [constructor|..]; rewrite ?G1, ?G2, ?G3, ?G4, ?I1, ?I2, ?I3, ?I4, ?I5, ?F1; cbn; rewrite ?E1, ?E2, ?E3; done.
Qed.

Lemma governance_coins old e s : coins_fit s → plan_covered s →
  coins_fit (governance_steps old e s) ∧ all_pots (governance_steps old e s) = all_pots s.
Proof.
  intros Hf Hplan. destruct (ratify_coins s Hf Hplan) as [Hf1 Ha1]. unfold governance_steps. cbv zeta.
  destruct (upkeep_apart old e (ratify_at_boundary s)) as ([Eu Er Ed Ep] & Et & Ea & Eg).
  rewrite <- Ha1. apply coins_frame; try done. intros id. by rewrite Ep.
Qed.

(** *** The transition *)

Definition accounts_only (c c' : CertSubState) : Prop := ∃ a, c' = c <| reward_accounts := a |>.

Lemma accounts_only_trans c1 c2 c3 : accounts_only c1 c2 → accounts_only c2 c3 → accounts_only c1 c3.
Proof. intros [a ->] [b ->]. by exists b. Qed.

Lemma accounts_only_refl c : accounts_only c c.
Proof. exists (reward_accounts c). by destruct c. Qed.

Lemma conway_rupd_certs s s' : conway_rupd s = Some s' → accounts_only (certs s) (certs s').
Proof.
  unfold conway_rupd. intros (s1 & Hs1 & (s2 & Hs2 & (s3 & Hs3 & [= <-])%bind_Some)%bind_Some)%bind_Some.
  assert (∀ rupd t t', apply_rupd rupd t = Some t' → accounts_only (certs t) (certs t')) as Hr.
  { intros rupd t t'. unfold apply_rupd. intros Ht. repeat (apply bind_Some in Ht as (? & ? & Ht)).
    repeat case_match; simplify_eq; by eexists. }
  assert (certs s1 = certs s) as E1.
  { clear Hs2 Hs3. unfold flush_donations in Hs1. case_match; [apply bind_Some in Hs1 as (? & _ & Hs1)|]; by simplify_eq. }
  assert (accounts_only (certs s1) (certs s2)) as E2.
  { clear Hs1 Hs3. unfold apply_carried_rupd in Hs2. case_match; [|simplify_eq; apply accounts_only_refl].
    apply bind_Some in Hs2 as (t & Ht & Hs2). simplify_eq. by apply Hr in Ht. }
  assert (accounts_only (certs s2) (certs s3)) as E3.
  { clear Hs1 Hs2. case_match; [|simplify_eq; apply accounts_only_refl]. unfold apply_closed_rupd in Hs3.
    apply bind_Some in Hs3 as (? & _ & (t & Ht & Hs3)%bind_Some). simplify_eq. by apply Hr in Ht. }
  assert (certs (drain_fees s3) = certs s3) as -> by (unfold drain_fees; clear; by case_match).
  rewrite E1 in E2. by eapply accounts_only_trans.
Qed.

(** What a boundary of Conway finds. *)
Record transition_ready s : Prop := {
  tr_boundary : boundary_ok s;
  tr_coins : coins_fit s;
  tr_plan : plan_covered s;
  tr_mir : mir_of (certs s) = (∅, ∅, 0, 0);
}.

(** The update of the parameters touches nothing else. *)
Lemma ppup_ready ctx e s : transition_ready s →
  transition_ready (process_ppup ctx e s) ∧ all_pots (process_ppup ctx e s) = all_pots s.
Proof.
  intros [Hb Hc Hp Hm].
  assert (∃ pp pend fut, process_ppup ctx e s =
    s <| epochs ::= λ e, e <| protocol_params := pp |> <| pending_pp_updates := pend |> <| future_pp_updates := fut |> |>)
    as (pp & pend & fut & ->).
  { unfold process_ppup, enact_ppup. cbv zeta.
    assert (s = s <| epochs ::= λ e, e <| protocol_params := protocol_params (epochs s) |> |>) as Es by (by destruct s as [? ? ? ? []]).
    repeat case_match; [by eexists _, _, _|rewrite Es; by eexists _, _, _|rewrite Es; by eexists _, _, _]. }
  set (s' := s <| epochs ::= _ |>). destruct (coins_frame s s') as [Hc' Ha']; try done. split; [|done].
  constructor; [|done|done|done]. destruct Hb as [Hi Ho Hf Hu Hca]. constructor; try done.
  - apply (frame_inv s); [by constructor|by constructor|done].
  - destruct Ho. by constructor.
Qed.

Lemma mir_none_coins s : mir_of (certs s) = (∅, ∅, 0, 0) → coins_fit s →
  coins_fit (apply_pending_mir s) ∧ all_pots (apply_pending_mir s) = all_pots s ∧
  treasury (epochs (apply_pending_mir s)) = treasury (epochs s) ∧ gov (apply_pending_mir s) = gov s.
Proof.
  intros [= H1 H2 H3 H4] Hf. unfold apply_pending_mir. cbv zeta. rewrite H1, H2, H3, H4. cbn [andb bool_decide].
  rewrite !bool_decide_true by done. cbn [andb Z.eqb].
  match goal with |- context [coins_fit ?s'] => destruct (coins_frame s s') as [Hf' Ha']; try done end.
Qed.

(** C14: A transition of Conway does not panic
    and neither creates nor loses coin: reserves, treasury, reward accounts,
    fees, donations and the deposits of pools and proposals add up to the same,
    through the reward update, the snapshot, pool retirement, the enactment of
    the frozen decision with its withdrawals, and the refunds of proposals. *)
Theorem transition_conserves_coin ctx e s :
  transition_ready s →
  ∃ s', conway_epoch_transition ctx e s = Some s' ∧ all_pots s' = all_pots s ∧ coins_fit s'.
Proof.
  intros Hr. destruct (ppup_ready ctx e s Hr) as [[Hb0 Hf0 Hp0 Hm0] Ha0]. unfold conway_epoch_transition. cbv zeta.
  set (s0 := process_ppup ctx e s) in *. clearbody s0.
  destruct (conway_rupd_ok s0 Hb0) as (s1 & Hs1 & Hpots & Hok & _ & Htr). rewrite Hs1. cbn [mbind option_bind].
  destruct (conway_rupd_certs s0 s1 Hs1) as [a Hcerts]. pose proof (conway_rupd_gov s0 s1 Hs1) as Hgov.
  assert (all_pots s1 = all_pots s0) as Ha1 by (unfold all_pots, pool_pot; by rewrite Hpots, Hcerts, Hgov).
  assert (coins_fit s1) as Hf1.
  { destruct Hf0. constructor; rewrite ?Hcerts, ?Hgov; try done. by rewrite Ha1. }
  set (s2 := snap_rotate false e s1). destruct (coins_frame s1 s2) as [Hf2 Ha2]; try done.
  destruct (poolreap_moved e s2 Hf2) as (s3 & Hs3 & Hf3 & Ha3 & Ht3 & Hg3 & Hm3). rewrite Hs3. cbn [mbind option_bind].
  assert (mir_of (certs s3) = (∅, ∅, 0, 0)) as Hmir.
  { rewrite Hm3. change (certs s2) with (certs s1). rewrite Hcerts. done. }
  destruct (mir_none_coins s3 Hmir Hf3) as (Hf4 & Ha4 & Ht4 & Hg4). set (s4 := apply_pending_mir s3) in *.
  assert (gov s4 = gov s0) as Eg by (rewrite Hg4, Hg3; done).
  assert (plan_covered s4) as Hp4.
  { intros plan Hpl. rewrite Eg in Hpl |- *. destruct (Hp0 plan Hpl) as [Ham Hd]. cbv zeta in *.
    assert (planned (pulsing_snapshot (gov s0)) s4 (enacted plan) = planned (pulsing_snapshot (gov s0)) s0 (enacted plan)) as ->
      by (unfold planned; by rewrite Eg).
    split; [done|]. change (treasury (epochs s2)) with (treasury (epochs s1)) in Ht3. lia. }
  set (old := protocol_version_major (protocol_params (epochs s))).
  destruct (governance_coins old e s4 Hf4 Hp4) as [Hf5 Ha5].
  generalize dependent (governance_steps old e s4). intros s5 Hf5 Ha5. eexists. split; [reflexivity|].
  match goal with |- context [coins_fit ?s'] => destruct (coins_frame s5 s') as [Hf6 Ha6]; try done end.
  split; [lia|done].
Qed.

End coin.

(** ** The decision and its application *)

Section decision.
Context `{GovRest} `{Blake2b}.
Implicit Types s : LedgerState.

Definition frozen_committee (sn : PulsingSnapshot) : CommitteeView :=
  mkCommittee (ps_committee_hot_keys sn) (ps_committee_expiration sn) (ps_committee_resigned sn) (ps_committee_threshold sn).

(** C15: A decision enacts frozen proposals, each
    once. For each purpose they form a chain under the frozen root, and the
    roots of the plan are its ends. Each met its thresholds under the frozen
    votes, the frozen committee and the parameters that the actions before it
    left, with what those left of the frozen treasury; nothing follows a
    delaying action. The proposals that expire are those past their epoch that
    were not enacted. *)
Theorem decision_sound epoch s sn :
  pulsing_snapshot (gov s) = Some sn →
  let plan := (ratify_proposals_impl epoch s).1 in
  ∃ en : list Candidate,
    enacted plan = en.*1 ∧ NoDup (enacted plan) ∧ (∀ c, c ∈ en → ps_proposals sn !! c.1 = Some c.2) ∧
    enact_chain (ps_enacted sn) en ∧ eg_prev_gov_action_ids (enact_state plan) = roots_after en (ps_enacted sn) ∧
    (∀ l1 c l2, en = l1 ++ c :: l2 →
       check_ratification_impl (ratify_env epoch s) c.1 c.2 (frozen_committee sn) (cap_left l1 (ps_treasury sn))
         (enact_all l1 (restore_forest s)) = true ∧
       (delays c = true → l2 = [])) ∧
    delayed plan = existsb delays en ∧
    ∀ id, id ∈ expired plan ↔ ∃ st, ps_proposals sn !! id = Some st ∧ expires_epoch st < epoch ∧ id ∉ enacted plan.
Proof.
  intros Hsn. destruct (decision_spec epoch s sn Hsn) as (en & Hrun & He & Hx & Hd & Hro & _).
  destruct (restore_frame s) as (R1 & _ & R3 & R4 & _ & _). rewrite Hsn in R1.
  assert (ratify_env epoch (restore_forest s) = ratify_env epoch s) as Eenv.
  { unfold ratify_env, build_drep_power_cache_from. rewrite R1, Hsn, R3, R4. done. }
  rewrite Eenv in Hrun. unfold ratify_start in Hrun. rewrite R1 in Hrun.
  destruct (run_fields _ _ _ _ _ Hrun) as (_ & _ & _ & _ & Hsub).
  destruct (run_delayed _ _ _ _ _ Hrun) as (Hdel & _ & Hlast). destruct (run_checked _ _ _ _ _ Hrun) as [Hch Hck].
  cbn [rp_roots rp_committee rp_cap rp_state rp_delayed] in *.
  assert (∀ c, c ∈ en → ps_proposals sn !! c.1 = Some c.2) as Hen.
  { intros c Hc. apply candidates_spec. rewrite <- surjective_pairing. by eapply elem_of_sublist. }
  exists en. split; [done|]. split.
  { rewrite He. eapply sublist_NoDup; [apply (candidates_NoDup (ps_proposals sn))|]. by apply fmap_sublist. }
  split; [done|]. split; [done|]. split; [done|]. split; [|split].
  - intros l1 c l2 Heq. split; [by apply (Hck l1 c l2)|by apply (Hlast l1 c l2)].
  - by rewrite Hd, Hdel.
  - intros id. rewrite Hx, He.
    rewrite (run_expired _ _ _ _ _ Hrun (candidates_NoDup _) id). cbn [rp_expired re_epoch].
    assert (re_epoch (ratify_env epoch s) = epoch) as -> by (unfold ratify_env; by destruct (build_drep_power_cache_from _ _) as [[]]).
    split; [intros [Hn|(st & Hin & ? & ?)]; [by apply not_elem_of_nil in Hn|]|intros (st & Hin & ? & ?); right];
      exists st; by rewrite candidates_spec in *.
Qed.

(** C18: The withdrawals that a decision enacts
    declare together no more than the frozen treasury holds. *)
Theorem withdrawals_within_treasury epoch s sn :
  pulsing_snapshot (gov s) = Some sn → 0 ≤ ps_treasury sn < u64_max →
  (∀ id st, ps_proposals sn !! id = Some st → amounts_ok (gov_action (procedure st))) →
  ∀ s', declared_all (planned (Some sn) s' (enacted (ratify_proposals_impl epoch s).1)) ≤ ps_treasury sn.
Proof.
  intros Hsn Ht Ha s'. destruct (decision_spec epoch s sn Hsn) as (en & Hrun & -> & _).
  destruct (restore_frame s) as (R1 & _). rewrite Hsn in R1. unfold ratify_start in Hrun. rewrite R1 in Hrun.
  destruct (run_fields _ _ _ _ _ Hrun) as (_ & _ & _ & _ & Hsub).
  assert (planned (Some sn) s' en.*1 = en) as ->.
  { assert (∀ c, c ∈ en → ps_proposals sn !! c.1 = Some c.2) as Hen.
    { intros c Hc. apply candidates_spec. rewrite <- surjective_pairing. by eapply elem_of_sublist. }
    clear Hrun Hsub. unfold planned. induction en as [|c en IH]; [done|]. cbn. rewrite (Hen c (list_elem_of_here _ _)). cbn.
    rewrite <- surjective_pairing. f_equal. apply IH. intros; apply Hen. by right. }
  apply (run_withdrawals _ _ _ _ _ Hrun); [|done].
  intros c Hc. apply (Ha c.1). apply candidates_spec. by rewrite <- surjective_pairing.
Qed.

Lemma predict_spec (g : GovernanceState) snap plan :
  drep_pulsing_state g = Some (mkDRepPulsing snap plan) → (future_pparams g : FuturePParams) = PotentialPParamsUpdate None →
  future_pparams (predict_future_pparams g) =
    PotentialPParamsUpdate (if has_pparams_changes plan then Some (cur_pparams plan) else None).
Proof.
  intros Hd Hf. unfold predict_future_pparams, ratify_plan. rewrite Hf, Hd. done.
Qed.

Lemma terms_params s pp ce ct co : terms s = (pp, ce, ct, co) → protocol_params (epochs s) = pp.
Proof. unfold terms. by intros [=]. Qed.

(** C16: What a boundary freezes is what the next
    one does: if the parameters, the members and threshold of the committee and
    the constitution are at the next boundary as they were, its ratification
    leaves those of the plan, with the roots of the plan, and a prediction of
    new parameters is the parameters that it leaves. *)
Theorem boundary_applies_plan epoch s0 s :
  let s1 := epoch_boundary_governance_step epoch s0 in
  9 ≤ major s0 → drep_pulsing_state (gov s) = drep_pulsing_state (gov s1) → terms s = terms s1 →
  ∃ plan, ratify_plan (gov s1) = Some plan ∧
    let s' := ratify_at_boundary s in
    terms s' = (cur_pparams plan, eg_committee_expiration (enact_state plan),
                eg_committee_threshold (enact_state plan), eg_constitution (enact_state plan)) ∧
    enacted_roots (gov s') = eg_prev_gov_action_ids (enact_state plan) ∧
    ∀ pp, future_pparams (gov s1) = PotentialPParamsUpdate (Some pp) → protocol_params (epochs s') = pp.
Proof.
  intros s1 Hmajor Hpulser Hterms. unfold s1, epoch_boundary_governance_step in *. unfold major in Hmajor.
  rewrite (proj2 (Z.leb_le _ _) Hmajor) in *. clear s1.
  match type of Hpulser with context [set_fresh_drep_pulsing_state epoch ?t] => set (t0 := t) in * end.
  unfold set_fresh_drep_pulsing_state in *. cbv zeta in *. set (snap := build_pulsing_snapshot epoch t0) in *.
  match type of Hpulser with context [compute_pulsed_ratify_state epoch ?t] => set (t1 := t) in * end.
  assert (pulsing_snapshot (gov (with_next_set t1)) = Some snap ∧ terms (with_next_set t1) = terms t1) as [Hsnap2 Ht2]
    by (unfold with_next_set; by case_match).
  pose proof (λ H1 H2, apply_decision_spec epoch (with_next_set t1) s snap Hsnap2 H1 H2) as Happly.
  fold (compute_pulsed_ratify_state epoch t1) in Happly.
  generalize dependent (compute_pulsed_ratify_state epoch t1). intros plan Hpulser Hterms Happly.
  assert (drep_pulsing_state (gov s) = Some (mkDRepPulsing snap plan)) as Hs by exact Hpulser.
  assert (pulsing_snapshot (gov s) = Some snap) as Hsnap by (unfold pulsing_snapshot; by rewrite Hs).
  destruct (Happly Hsnap) as (A1 & A2 & _); [by rewrite Ht2|]. exists plan. split; [reflexivity|]. cbv zeta.
  assert (ratify_at_boundary s = apply_ratify_decision plan s) as ->.
  { unfold ratify_at_boundary, ratify_plan. by rewrite Hs. }
  split; [done|]. split; [done|]. intros pp Hpp.
  assert (PotentialPParamsUpdate (if has_pparams_changes plan then Some (cur_pparams plan) else None) =
    PotentialPParamsUpdate (Some pp)) as Hpred.
  { etransitivity; [|exact Hpp]. symmetry. apply (predict_spec _ snap plan); reflexivity. }
  destruct (has_pparams_changes plan); [|discriminate Hpred]. injection Hpred as <-.
  unfold terms in A1. by injection A1.
Qed.

End decision.

(** ** Invariants of a chain *)

Section chain.
Context `{GovRest} `{Blake2b}.
Implicit Types s : LedgerState.

(** Transactions with a hash that is new, and boundaries. *)
Inductive chain_step : LedgerState → LedgerState → Prop :=
| chain_tx tx mode ctx s : unknown_from (lt_hash (gt_body tx)) 0 (gov s) → no_root (lt_hash (gt_body tx)) (gov s) →
    chain_step s (apply_valid_tx tx mode ctx s).2
| chain_epoch ctx e s s' : conway_epoch_transition ctx e s = Some s' → chain_step s s'.

(** C19: In every state that transactions with new hashes
    and epoch transitions lead to, the edges of the forest that start at a live
    proposal are exactly those that the live proposals of its purpose declare by
    their parent, the nodes know their parents, and no root is live. So removing
    proposals takes out exactly the given ones and all live proposals that
    extend them, directly or through others, and leaves the rest. (Proposals
    whose parent was enacted extend no live proposal any more; the code does not
    attach them to the new root.) *)
Theorem forest_invariant s s' :
  rtc chain_step s s' → gov_forest_ok (gov s) →
  gov_forest_ok (gov s') ∧
  ∀ ids x, let gone := ∃ id, id ∈ ids ∧ rtc (extends (proposals (gov s'))) id x in
    (gone → proposals (gov (drop_proposals ids s').2) !! x = None) ∧
    (¬ gone → proposals (gov (drop_proposals ids s').2) !! x = proposals (gov s') !! x).
Proof.
  intros Hrun Hok. assert (gov_forest_ok (gov s')) as Hok'; [|split; [done|intros; by apply drop_lineage]].
  induction Hrun as [|s s1 s2 Hstep _ IH]; [done|]. apply IH.
  destruct Hstep as [tx mode ctx s Hu Hr|ctx e s s1 Ht]; [by apply tx_forest|].
  destruct (transition_steps ctx e s s1 Ht) as (s0 & Hg & -> & _). apply governance_steps_forest. by rewrite Hg.
Qed.

(** *** Parameters *)

(** The fractions among the parameters. *)
Definition fractions (p : FullParameters) : list Rational :=
  let g := gov_params p in
  [par_rho (pp_rest p); par_tau (pp_rest p); pp_d p; dvt_pp_network_group g; dvt_pp_economic_group g;
   dvt_pp_technical_group g; dvt_pp_gov_group g; dvt_hard_fork g; dvt_no_confidence g; dvt_committee_normal g;
   dvt_committee_no_confidence g; dvt_constitution g; dvt_treasury_withdrawal g; pvt_motion_no_confidence g;
   pvt_committee_normal g; pvt_committee_no_confidence g; pvt_hard_fork g; pvt_pp_security_group g].

Definition params_ok (p : FullParameters) : Prop := Forall (λ r, validate_threshold r = true) (fractions p).

Lemma default_valid r o : validate_threshold r = true → valid_opt o = true → validate_threshold (default r o) = true.
Proof. by destruct o. Qed.

Lemma update_params_ok p u p' : params_ok p → apply_protocol_param_update_impl p u = Some p' → params_ok p'.
Proof.
  unfold apply_protocol_param_update_impl. intros Hp. destruct (validate_update u) eqn:Hu; [|done]. intros [= <-].
  unfold validate_update in Hu. cbn [forallb] in Hu. rewrite !andb_true_iff in Hu. unfold params_ok, fractions in *.
  rewrite !Forall_cons in Hp |- *. destruct_and! Hp. destruct_and! Hu. cbn.
  split_and!; try apply default_valid; try done.
Qed.

Lemma enact_params_ok a s : params_ok (protocol_params (epochs s)) → params_ok (protocol_params (epochs (enact_gov_action_impl a s))).
Proof.
  intros Hp. destruct a as [prev u ph|prev [ma mi]|w ph| | | |]; cbn; try done.
  - destruct (apply_protocol_param_update_impl _ _) eqn:E; [|done]. cbn. by eapply update_params_ok.
  - by destruct (foldl withdraw _ _).
Qed.

Lemma ratify_params_ok s : params_ok (protocol_params (epochs s)) → params_ok (protocol_params (epochs (ratify_at_boundary s))).
Proof.
  intros Hp. unfold ratify_at_boundary. case_match; [|done]. unfold apply_ratify_decision. rewrite planned_fold.
  set (l := planned _ _ _).
  assert (params_ok (protocol_params (epochs (enact_all l s)))) as Hl.
  { clearbody l. induction l as [|c l IH] in s, Hp |- *; [done|]. apply IH. by apply enact_params_ok. }
  match goal with |- context [proposals_apply_enactment ?r ?e ?s] =>
    destruct (enactment_settled r e s) as (a & t & m & f & v & lr & le & ->) end. done.
Qed.

(** The fractions that an update proposes, in the same order. *)
Definition proposed_fractions (u : ProtocolParamUpdate) : list (option Rational) :=
  [u_rho u; u_tau u; u_d u; u_dvt_pp_network_group u; u_dvt_pp_economic_group u; u_dvt_pp_technical_group u;
   u_dvt_pp_gov_group u; u_dvt_hard_fork u; u_dvt_no_confidence u; u_dvt_committee_normal u;
   u_dvt_committee_no_confidence u; u_dvt_constitution u; u_dvt_treasury_withdrawal u;
   u_pvt_motion_no_confidence u; u_pvt_committee_normal u; u_pvt_committee_no_confidence u; u_pvt_hard_fork u;
   u_pvt_pp_security_group u].

Definition proper_fraction (r : Rational) : Prop := denominator r ≠ 0 ∧ numerator r ≤ denominator r.

Lemma validate_proper r : validate_threshold r = true ↔ proper_fraction r.
Proof. unfold validate_threshold, proper_fraction. rewrite andb_true_iff, negb_true_iff, Z.eqb_neq, Z.leb_le. done. Qed.

Lemma params_proper p : params_ok p ↔ Forall proper_fraction (fractions p).
Proof. unfold params_ok. apply Forall_iff. intros r. apply validate_proper. Qed.

Lemma validate_update_iff u : validate_update u = true ↔ ∀ r, Some r ∈ proposed_fractions u → proper_fraction r.
Proof.
  change (validate_update u) with (forallb valid_opt (proposed_fractions u)).
  rewrite forallb_forall. setoid_rewrite <- list_elem_of_In. split.
  - intros Hf r Hr. by apply validate_proper, (Hf (Some r)).
  - intros Hf [r|] Hr; [by apply validate_proper, Hf|done].
Qed.


End chain.

(** ** A small ledger *)

#[local] Instance tiny_likelihoods : Likelihoods :=
  {| Likelihood := unit; Likelihood_eq_dec := _; Probability := unit;
     leader_probability := λ _ _ _, tt; likelihood_empty := tt; likelihood_new := λ _ _ _, tt;
     apply_decay := λ _, tt; combine := λ _ _, tt |}.

#[local] Instance tiny_rest : GovRest :=
  {| gr_likelihoods := tiny_likelihoods; gr_output := unit; gr_byron := unit; gr_config := unit;
     gr_registry := unit; gr_byron_eq_dec := _ |}.

#[local] Instance tiny_blake : Blake2b := {| blake2b_256 := λ _, hash_zero; blake2b_224 := λ _, replicate 28 0 |}.

Definition tiny_key (n : Z) : Hash28 := replicate 28 n.
Definition tiny_cred (n : Z) : Hash32 := to_typed_hash32 (VerificationKey (tiny_key n)).
Definition tiny_addr (n : Z) : list Z := 225 :: tiny_key n.
Definition tiny_id (n : Z) : GovActionId := mkActionId [n] 0.

Definition half : Rational := mkRational 1 2.

Definition tiny_gov_params : GovParams :=
  mkGovParams 44 155381 90112 16384 1100 18 170 4310 0 0 (mkCostModels None None None None ∅)
    (mkPrices half half) (mkExUnits 0 0) (mkExUnits 0 0) 5000 150 3 half 500 20 100 6 0 146
    half half half half half half half half half half half half half half half None None None None.

Definition tiny_pp : FullParameters :=
  mkParams 10 (mkRational 0 1) 2 500
    (mkRewardParams (mkRational 3 1000) (mkRational 1 5) (mkRational 0 1) 1 (1, 20) 0 tiny_gov_params).

(** A change of the key deposit, a withdrawal, and a question that has expired. *)
Definition tiny_change : GovAction := ParameterChange None (no_update <| u_key_deposit := Some 3 |>) None.

Definition tiny_pay : GovAction := TreasuryWithdrawals {[tiny_addr 2 := 300]} None.

Definition tiny_proposal (deposit ret : Z) (a : GovAction) (expires index : Z) : ProposalState :=
  mkProposalState (mkProposal deposit (tiny_addr ret) a (mkAnchor [] [])) 0 expires 0 0 0 index.

Definition tiny_props : gmap GovActionId ProposalState :=
  {[tiny_id 1 := tiny_proposal 100 1 tiny_change 9 0; tiny_id 2 := tiny_proposal 50 2 tiny_pay 9 1;
    tiny_id 3 := tiny_proposal 20 7 InfoAction (-1) 2]}.

Definition tiny_yes : gmap Voter VotingProcedure :=
  {[VoterDRep (VerificationKey (tiny_key 4)) := mkProcedure VoteYes None;
    VoterCommittee (VerificationKey (tiny_key 6)) := mkProcedure VoteYes None]}.

Definition tiny_gov : GovernanceState :=
  mkGov {[tiny_cred 4 := mkDRep (VerificationKey (tiny_key 4)) 500 None 0 20 true {[tiny_cred 1]}]}
    {[tiny_cred 1 := DRepKeyHash (tiny_cred 4)]} {[tiny_cred 5 := tiny_cred 6]} {[tiny_cred 5 := 100]} ∅ ∅ ∅
    tiny_props {[tiny_id 1 := tiny_yes; tiny_id 2 := tiny_yes]}
    (mkForest (mkRelation (mkRoot None {[tiny_id 1]}) (mkRoot None ∅) (mkRoot None ∅) (mkRoot None ∅)) (rel_const ∅))
    1 3 None false (Some half) None None None None [] [] false 0 None NoPParamsUpdate.

Definition tiny_pool : PoolRegistration :=
  mkPool (tiny_key 9) [] 100 10 1 10 (tiny_addr 1) [tiny_key 1] [] None None.

Definition tiny_go : StakeSnapshot :=
  mkSnapshot 1 {[tiny_cred 1 := tiny_key 9; tiny_cred 2 := tiny_key 9; tiny_cred 3 := tiny_key 9]}
    {[tiny_key 9 := 10000]} {[tiny_key 9 := tiny_pool]}
    {[tiny_cred 1 := 6000; tiny_cred 2 := 3000; tiny_cred 3 := 1000]} 0 0 ∅.

Definition tiny_blocks : gmap Hash28 Z := {[tiny_key 9 := 20]}.

(** The pool retires at the coming boundary. *)
Definition tiny_before : LedgerState :=
  mkLedger (mkUtxo ∅ [] 700 40)
    (mkCerts {[tiny_cred 1 := tiny_key 9]} {[tiny_key 9 := tiny_pool]} ∅ {[tiny_key 9 := 1]} ∅
       {[tiny_cred 1 := 5; tiny_cred 2 := 0]} ∅ {[tiny_key 9 := 500]} 0 ∅ {[tiny_cred 1 := 10]} ∅ ∅ ∅ 0 0)
    tiny_gov (mkConsensus [] [] [] [] [] [] [] [] None None ∅ 0 ∅)
    (mkEpochs (mkSnapshots None None (Some tiny_go) 500 20 tiny_blocks true) 1000 1000000 None non_myopic_default
       None ∅ ∅ false ∅ false tiny_pp tiny_pp 10 (mkRational 0 1) None false None None (mkInFlight ∅ None) 0)
    (mkTip Origin 0) Conway None 0 (mkLedgerConfig 400 0 0 (mkRewardConfig 40 320 1010000 tt)) ∅ ∅ tt None None.

(** The boundary before has frozen the decision; blocks follow. *)
Definition tiny_start : LedgerState := epoch_boundary_governance_step 0 tiny_before.
Definition tiny_end : LedgerState := foldl (λ s slot, rupd_tick Conway slot s) tiny_start [10; 330; 340; 350; 360].
Definition tiny_ctx : RuleContext := mkRuleContext tiny_pp 400 0 Conway 5 0 None.
Definition tiny_after : option LedgerState := conway_epoch_transition tiny_ctx 1 tiny_end.

Lemma tiny_fresh : pulser_fresh tiny_start.
Proof. constructor; vm_compute; done. Qed.

Lemma tiny_run : rtc epoch_step tiny_start tiny_end.
Proof.
  unfold tiny_end. generalize tiny_start, [10; 330; 340; 350; 360]. intros s l. revert s.
  induction l as [|x l IH]; intros s; [constructor|]. eapply rtc_l; [apply (step_tick Conway x)|apply IH].
Qed.

Lemma tiny_go_ok : snapshot_ok tiny_go.
Proof.
  constructor.
  - apply nonneg_by_forall. evaluate.
  - intros p st Hp. cbn in Hp. apply lookup_singleton_Some in Hp as [<- <-]. split; evaluate.
  - intros p reg Hp. cbn in Hp. apply lookup_singleton_Some in Hp as [<- <-].
    constructor; cbn; [apply NoDup_singleton|lia..].
Qed.

Lemma tiny_boundary_ok : boundary_ok tiny_end.
Proof.
  constructor.
  - apply (epoch_inv tiny_start); [apply tiny_run|apply fresh_inv, tiny_fresh].
  - constructor; [evaluate|evaluate|apply nonneg_by_forall; evaluate|evaluate|evaluate|evaluate].
  - split; evaluate.
  - destruct (epoch_frame tiny_start tiny_end tiny_run).
    unfold state_params, state_bprev, state_supply. rewrite rf_snapshots, rf_reserves, rf_params, rf_config.
    constructor; try (unfold unit_interval, rational_ok, u64_max; cbn; lia).
    + split; [apply nonneg_by_forall|]; evaluate.
    + intros g [= <-]. split; [exact tiny_go_ok|]. split; evaluate.
  - vm_compute. reflexivity.
Qed.

Lemma tiny_props_refundable id st : tiny_props !! id = Some st → refundable st.
Proof.
  intros Hst. assert (map_Forall (λ _ st, 0 ≤ deposit_of st ∧ (29 ≤ length (return_addr (procedure st)))%nat) tiny_props) as Hall
    by evaluate. exact (Hall id st Hst).
Qed.

Definition tiny_snap : PulsingSnapshot := build_pulsing_snapshot 0 tiny_before.

Lemma tiny_snapshot : pulsing_snapshot (gov tiny_start) = Some tiny_snap.
Proof. vm_compute. reflexivity. Qed.

Definition tiny_planned : list Candidate :=
  [(tiny_id 1, tiny_proposal 100 1 tiny_change 9 0); (tiny_id 2, tiny_proposal 50 2 tiny_pay 9 1)].

Lemma fmap_known {A B} (f : A → B) (o : option A) x y : f <$> o = Some y → o = Some x → f x = y.
Proof. intros Hf ->. by injection Hf. Qed.

Lemma tiny_planned_eq : (λ plan, planned (pulsing_snapshot (gov tiny_end)) tiny_end (enacted plan)) <$>
  ratify_plan (gov tiny_end) = Some tiny_planned.
Proof. vm_compute. reflexivity. Qed.

Lemma tiny_planned_ok : (∀ c, c ∈ tiny_planned → amounts_ok (action_of c)) ∧ declared_all tiny_planned ≤ treasury (epochs tiny_end).
Proof.
  split; [|evaluate]. intros c [->|[->|Hc%not_elem_of_nil]%elem_of_cons]%elem_of_cons; [done| |done].
  intros k x [<- <-]%lookup_singleton_Some. lia.
Qed.

Lemma tiny_plan_covered : plan_covered tiny_end.
Proof.
  intros plan Hpl. cbv zeta. pose proof (fmap_known _ _ _ _ tiny_planned_eq Hpl) as E. cbv beta in E. rewrite E.
  exact tiny_planned_ok.
Qed.

Lemma tiny_ready : transition_ready tiny_end.
Proof.
  assert (certs tiny_end = certs tiny_before) as Ec by (vm_compute; reflexivity).
  assert (proposals (gov tiny_end) = tiny_props) as Ep by (vm_compute; reflexivity).
  constructor; [exact tiny_boundary_ok| |exact tiny_plan_covered|vm_compute; reflexivity].
  constructor.
  - exact (bo_pots _ tiny_boundary_ok).
  - rewrite Ec. apply nonneg_by_forall. evaluate.
  - rewrite Ec. intros id [reg Hreg]. cbn in Hreg. apply lookup_singleton_Some in Hreg as [<- _]. by eexists.
  - rewrite Ep. exact tiny_props_refundable.
  - evaluate.
Qed.

(** ** Witnesses *)

Lemma transition_conserves_coin_witness :
  all_pots tiny_end = 1002415 ∧
  ∃ s', conway_epoch_transition tiny_ctx 1 tiny_end = Some s' ∧ all_pots s' = all_pots tiny_end ∧ coins_fit s'.
Proof. split; [vm_compute; reflexivity|]. exact (transition_conserves_coin tiny_ctx 1 tiny_end tiny_ready). Defined.

Lemma decision_sound_witness :
  let plan := (ratify_proposals_impl 0 tiny_start).1 in
  enacted plan = [tiny_id 1; tiny_id 2] ∧ expired plan = [tiny_id 3] ∧
  ∃ en : list Candidate, enacted plan = en.*1 ∧ enact_chain (ps_enacted tiny_snap) en.
Proof.
  split; [vm_compute; reflexivity|]. split; [vm_compute; reflexivity|].
  destruct (decision_sound 0 tiny_start tiny_snap tiny_snapshot) as (en & H1 & _ & _ & H2 & _).
  exists en. exact (conj H1 H2).
Defined.

Lemma withdrawals_within_treasury_witness :
  ps_treasury tiny_snap = 1000 ∧
  declared_all (planned (Some tiny_snap) tiny_end (enacted (ratify_proposals_impl 0 tiny_start).1)) = 300 ∧
  declared_all (planned (Some tiny_snap) tiny_end (enacted (ratify_proposals_impl 0 tiny_start).1)) ≤ ps_treasury tiny_snap.
Proof.
  split; [vm_compute; reflexivity|]. split; [vm_compute; reflexivity|].
  apply (withdrawals_within_treasury 0 tiny_start tiny_snap tiny_snapshot); [split; evaluate|].
  change (ps_proposals tiny_snap) with tiny_props. intros id st Hst. unfold tiny_props in Hst.
  apply lookup_insert_Some in Hst as [[_ <-]|[_ Hst]]; [done|].
  apply lookup_insert_Some in Hst as [[_ <-]|[_ Hst]]; [|by apply lookup_singleton_Some in Hst as [_ <-]].
  intros k x [<- <-]%lookup_singleton_Some. lia.
Defined.

Lemma boundary_applies_plan_witness :
  let s' := ratify_at_boundary tiny_end in
  pp_key_deposit (protocol_params (epochs tiny_end)) = 2 ∧ pp_key_deposit (protocol_params (epochs s')) = 3 ∧
  ∃ plan, ratify_plan (gov tiny_start) = Some plan ∧ protocol_params (epochs s') = cur_pparams plan ∧
    enacted_roots (gov s') = eg_prev_gov_action_ids (enact_state plan).
Proof.
  split; [vm_compute; reflexivity|]. split; [vm_compute; reflexivity|].
  destruct (boundary_applies_plan 0 tiny_before tiny_end) as (plan & H1 & H2 & H3 & _);
    [evaluate|vm_compute; reflexivity|vm_compute; reflexivity|].
  exists plan. split; [exact H1|]. split; [|exact H3]. exact (terms_params _ _ _ _ _ H2).
Defined.

Lemma tiny_forest_ok : gov_forest_ok (gov tiny_end).
Proof. apply edgeless_ok; [intros []; vm_compute; reflexivity|evaluate|intros []; vm_compute; reflexivity]. Qed.

Lemma forest_invariant_witness :
  ∃ s', conway_epoch_transition tiny_ctx 1 tiny_end = Some s' ∧ gov_forest_ok (gov s').
Proof.
  destruct (conway_epoch_transition tiny_ctx 1 tiny_end) as [s'|] eqn:E.
  - exists s'. split; [exact eq_refl|]. apply (proj1 (forest_invariant tiny_end s' (rtc_once _ _ (chain_epoch tiny_ctx 1 tiny_end s' E)) tiny_forest_ok)).
  - exfalso. assert (is_Some (conway_epoch_transition tiny_ctx 1 tiny_end)) as Hs by evaluate.
    rewrite E in Hs. by destruct Hs.
Defined.

Lemma tiny_params_ok : Forall proper_fraction (fractions (protocol_params (epochs tiny_end))).
Proof. apply params_proper. repeat (constructor; [vm_compute; reflexivity|]). constructor. Qed.

(** The key deposit changes with a proper rate beside it, and not with another. *)
Definition tiny_rate (rho : Rational) : ProtocolParamUpdate := no_update <| u_key_deposit := Some 3 |> <| u_rho := Some rho |>.


(** *** A tree of three proposals *)

Definition tiny_node (prev : option GovActionId) (index : Z) : ProposalState :=
  tiny_proposal 100 1 (ParameterChange prev no_update None) 9 index.

(** [a] under the root, [b] under [a], [c] under [b]. *)
Definition tree_props (a b c : GovActionId) : gmap GovActionId ProposalState :=
  {[c := tiny_node (Some b) 2; b := tiny_node (Some a) 1; a := tiny_node None 0]}.

Definition bare_forest : Forest := mkForest (rel_const (mkRoot None ∅)) (rel_const ∅).

Definition tree_forest (a b c : GovActionId) : Forest :=
  foldl add_to_forest bare_forest [(a, tiny_node None 0); (b, tiny_node (Some a) 1); (c, tiny_node (Some b) 2)].

Lemma unreferenced_by_forall props f id : no_node f id → map_Forall (λ _ st, prev_of st ≠ Some id) props →
  (∀ p, root (rel_get (proposal_roots f) p) ≠ Some id) → unreferenced props f id.
Proof. intros Hn Hp Hr. constructor; [done| |done]. intros y (st & Hst & Hs)%bind_Some. by apply (Hp y st). Qed.

Ltac new_id := apply unreferenced_by_forall; [intros []; vm_compute; reflexivity|evaluate|intros []; by vm_compute].

Lemma tree_ok : forest_ok (tree_props (tiny_id 1) (tiny_id 2) (tiny_id 3)) (tree_forest (tiny_id 1) (tiny_id 2) (tiny_id 3)).
Proof.
  apply (add_to_forest_ok (tiny_id 3)); [|new_id|done].
  apply (add_to_forest_ok (tiny_id 2)); [|new_id|done].
  apply (add_to_forest_ok (tiny_id 1) (tiny_node None 0) ∅); [|new_id|done].
  apply edgeless_ok; [by intros []|evaluate|by intros []].
Qed.

Lemma removal_exact_witness :
  let r := forest_remove_with_descendants [tiny_id 1] (tree_props (tiny_id 1) (tiny_id 2) (tiny_id 3))
             (tree_forest (tiny_id 1) (tiny_id 2) (tiny_id 3)) (∅ : gmap GovActionId unit) in
  r.1.*1 = [tiny_id 1; tiny_id 2; tiny_id 3] ∧ NoDup r.1.*1.
Proof.
  split; [vm_compute; reflexivity|].
  pose proof (removal_exact [tiny_id 1] (tree_props (tiny_id 1) (tiny_id 2) (tiny_id 3))
    (tree_forest (tiny_id 1) (tiny_id 2) (tiny_id 3)) (∅ : gmap GovActionId unit) (fk_typed _ _ tree_ok)) as Hr.
  destruct (forest_remove_with_descendants _ _ _ _) as [removed [[props' f'] votes']]. apply Hr.
Defined.

(** *** The index *)

Definition tiny_drep : DRepRegistration := mkDRep (VerificationKey (tiny_key 4)) 500 None 0 20 true {[tiny_cred 1]}.

Lemma single_index_ok (g : GovernanceState) k c d :
  dreps g = {[k := d]} → vote_delegations g = {[c := DRepKeyHash k]} → dr_delegs d = {[c]} → index_ok g.
Proof.
  intros E1 E2 E3 k' c'. unfold lists_delegator, delegates_to. rewrite E1, E2. split.
  - intros (d' & [<- <-]%lookup_singleton_Some & Hc). rewrite E3 in Hc. apply elem_of_singleton in Hc as ->.
    exists (DRepKeyHash k). by rewrite lookup_singleton_eq.
  - intros (d' & [<- <-]%lookup_singleton_Some & [= <-]). exists d. rewrite lookup_singleton_eq, E3. split; [done|].
    by apply elem_of_singleton.
Qed.

Lemma tiny_index_ok : index_ok (gov tiny_end).
Proof.
  apply (single_index_ok _ (tiny_cred 4) (tiny_cred 1) tiny_drep); vm_compute; reflexivity.
Qed.

Lemma drep_index_invariant_witness :
  ∃ s', conway_epoch_transition tiny_ctx 1 tiny_end = Some s' ∧ index_ok (gov s').
Proof.
  destruct (conway_epoch_transition tiny_ctx 1 tiny_end) as [s'|] eqn:E.
  - exists s'. split; [exact eq_refl|]. apply (proj1 drep_index_invariant tiny_end s'); [|exact tiny_index_ok].
    apply rtc_once. exact (step_epoch tiny_ctx 1 tiny_end s' E).
  - exfalso. assert (is_Some (conway_epoch_transition tiny_ctx 1 tiny_end)) as Hs by evaluate.
    rewrite E in Hs. by destruct Hs.
Defined.

(** ** Where the code departs from its comments *)

(** The forest of the flat map is rebuilt in the order of identifiers. A parent
    below the root that comes after its child is inserted over the node that
    holds the child: the edge is lost, and removal misses the child. *)
Lemma rebuild_loses_edge :
  let props := tree_props (tiny_id 3) (tiny_id 2) (tiny_id 1) in
  let f := rebuild_forest_from_flat props (rel_const None) in
  kids (rel_pparam (proposal_graph (tree_forest (tiny_id 3) (tiny_id 2) (tiny_id 1)))) (tiny_id 2) = {[tiny_id 1]} ∧
  kids (rel_pparam (proposal_graph f)) (tiny_id 2) = ∅ ∧
  (forest_remove_with_descendants [tiny_id 3] props f (∅ : gmap GovActionId unit)).1.*1 = [tiny_id 2; tiny_id 3].
Proof. split_and!; vm_compute; reflexivity. Qed.

(** Two proposals under [a]: enacting [a] takes its node out before it becomes
    the root, so that the root has no children; enacting one of the two later
    leaves the other, whose parent is no longer the root. *)
Definition twin_props : gmap GovActionId ProposalState :=
  {[tiny_id 1 := tiny_node None 0; tiny_id 2 := tiny_node (Some (tiny_id 1)) 1; tiny_id 3 := tiny_node (Some (tiny_id 1)) 2]}.

Definition twin_forest : Forest :=
  foldl add_to_forest bare_forest
    [(tiny_id 1, tiny_node None 0); (tiny_id 2, tiny_node (Some (tiny_id 1)) 1); (tiny_id 3, tiny_node (Some (tiny_id 1)) 2)].

Definition twins : LedgerState :=
  tiny_end <| gov ::= λ g, g <| proposals := twin_props |> <| proposal_forest := twin_forest |> |>.

Lemma enacted_children_orphaned :
  let s1 := proposals_apply_enactment [tiny_id 1] [] twins in
  let s2 := proposals_apply_enactment [tiny_id 2] [] s1 in
  rel_pparam (proposal_roots (forest_promote_root (tiny_id 1) PParam twin_forest)) =
    mkRoot (Some (tiny_id 1)) {[tiny_id 2; tiny_id 3]} ∧
  rel_pparam (proposal_roots (proposal_forest (gov s1))) = mkRoot (Some (tiny_id 1)) ∅ ∧
  rel_pparam (proposal_roots (proposal_forest (gov s2))) = mkRoot (Some (tiny_id 2)) ∅ ∧
  (prev_of <$> proposals (gov s2) !! tiny_id 3) = Some (Some (tiny_id 1)).
Proof. split_and!; vm_compute; reflexivity. Qed.

(** A live proposal of any purpose passes as the parent of a proposal. *)
Lemma parent_of_other_purpose :
  let g := gov tiny_end in
  (purpose_of <$> proposals g !! tiny_id 1) = Some (Some PParam) ∧
  prev_action_valid (NoConfidence (Some (tiny_id 1))) g = true ∧
  prev_action_valid (NoConfidence (Some (tiny_id 2))) g = true.
Proof. split_and!; vm_compute; reflexivity. Qed.

(** An authorised script goes into the set under the cold key; the prune at the
    boundary looks for hot keys there, and leaves it. *)
Lemma hot_script_under_cold_key :
  let g := authorize_hot (VerificationKey (tiny_key 8)) (Script (tiny_key 7)) (gov tiny_end) in
  script_committee_hot_credentials g = {[tiny_cred 8]} ∧ committee_hot_keys g !! tiny_cred 8 = Some (to_typed_hash32 (Script (tiny_key 7))) ∧
  script_committee_hot_credentials (prune_committee_state g) = {[tiny_cred 8]} ∧
  committee_hot_keys (prune_committee_state g) !! tiny_cred 8 = None.
Proof. split_and!; vm_compute; reflexivity. Qed.

(** The parameters of the next era are voted on by nobody, and never written. *)
Lemma reference_script_limits_ignored :
  let u := no_update <| u_max_ref_script_size_per_block := Some 1 |> <| u_max_ref_script_size_per_tx := Some 2 |>
             <| u_ref_script_cost_stride := Some 3 |> <| u_ref_script_cost_multiplier := Some half |> in
  modified_pp_groups u = [] ∧ apply_protocol_param_update_impl tiny_pp u = Some tiny_pp.
Proof. split; vm_compute; reflexivity. Qed.
